(* ===== verification/_CoqProject ===== *)
-Q . S2P
Prelude.v
Containers.v
Vecs.v
Slices.v
Words.v
State.v
Recovery.v
Inventory.v
Membership.v
Index.v
IndexInv.v
IndexDelta.v
IndexInstall.v
Replication.v
Accuracy.v
Sessions.v
Blocks.v
Publish.v
Lru.v
TinyLfu.v
Residency.v
SsdRing.v
SsdStore.v
SsdStoreInv.v
Dram.v
DramInv.v
DramEvict.v
DramSpec.v
Wire.v
CacheProtocol.v
CacheProtocolSpec.v
CacheQuerySpec.v
PublishChunks.v
QueryBudget.v
QueryLease.v
QueryLeaseSpec.v
Grants.v
GrantsLogic.v
GrantsRules.v
GrantsSpec.v
GrantsPlans.v
GrantsManager.v
GrantsSystem.v
DmaCopies.v
KvLayout.v
RestorePlan.v
RestoreExec.v
RestoreOrder.v
Topology.v
TopologyPages.v
TopologySpec.v
TopologySeal.v
RestoreBuild.v
RestoreBuildSpec.v
RestoreWorker.v
RestoreWorkerSpec.v
IoBatches.v
Codec.v
Fp8.v
Fp8Spec.v
Transfers.v
TransfersSpec.v
TransfersSsd.v
GpuSlot.v
GpuSlotSpec.v
SsdQueue.v
SsdQueueInv.v
SsdQueueSteps.v
SsdQueueSpec.v
Exports.v
ExportsSpec.v
Arena.v
ArenaSpec.v
Frames.v
Channel.v
ChannelInv.v
ChannelSteps.v
ChannelEngine.v
ChannelManager.v
ChannelSpec.v
