(* ===== verification/Prelude.v ===== *)
(** * OrbitKV: verification of a distributed KV-cache

    OrbitKV keeps the key-value cache of inference engines in tiers (GPU, host DRAM, SSD, the memory
    of other nodes) behind a Manager process per node.  This library models the parts of the Rust
    sources (crates/orbitkv-x under src/) that decide what is stored where, who may read it, and what
    other nodes are told, and proves what these parts promise.

    ** The program

    An engine talks to its Manager over a shared-memory channel (orbitkv-channel).  It publishes
    layers of KV blocks, which the Manager collects into sealed blocks (storage/publish.rs, block.rs)
    and keeps in the DRAM tier (storage/dram) and in a log-structured ring on SSD (storage/ssd).  Both
    tiers report their residents to an inventory (storage/inventory.rs), a versioned journal that is
    replicated to the other nodes (orbitkv-server, cluster/inventory.rs) into their global index
    (orbitkv-catalog, index.rs); members and their leases are tracked in a membership view
    (membership.rs).  An engine queries for a prefix, the query holds bytes of a budget and a lease
    (orbitkv-core, query/), and the restore that follows is handed to the engine through grant records
    in shared memory (completion.rs).  Raw blocks are restored by the engine itself: the Manager compiles
    a plan of copies (engine/restore.rs, transfer/local.rs) that a worker in the engine's process executes
    (python/src/local_restore.rs); other restores, and saves, are tasks of the Manager's transfer workers
    (transfer/worker), as DMA copies from host memory (transfer/memcpy) or as batches between GPU and SSD
    (storage/ssd/cufile.rs), where blocks may be quantized or compressed (codec/).  A block that
    only another node has is read from that node's memory, where a ticket keeps it pinned (peer/export.rs).  What a restore needs
    is fixed by recovery contracts (orbitkv-state), where its layers live by the topology that the
    engine's workers register (engine/instance.rs, transfer/layout.rs).

    ** Conventions

    A w-bit integer is a [Z] with its wrap-around, checks and saturation written out ([u64_add],
    [checked_add], [saturating_sub], ...); a panic or an arithmetic overflow that the build would turn
    into one is [None]; a [Result] is [result], with [let?] for the question mark.  HashMap and
    BTreeMap are [gmap], iterated in key order for BTreeMap; a Vec is a list.  Arc-shared objects are
    addresses into a store where identity or the strong count matters.  Clock readings, SHA-256,
    protobuf, hashers and the other external crates are arguments, with what is relied on as
    hypotheses of the theorem, and every theorem with hypotheses has a concrete witness.  State that is
    shared by threads is changed by one definition per critical section or, for the grants, per atomic
    access; theorems about it quantify over all orders of these steps.

    ** The files

    - Prelude, Containers, Vecs, Slices, Words: results, machine integers, byte strings; list, map,
      vector and slice lemmas; little-endian words.
    - State, Recovery: orbitkv-state.  Keys, groups, namespaces, storage formats, discovery queries
      and inventory scopes (key.rs, format.rs, discovery.rs, inventory.rs, component.rs); recovery
      contracts, demands and boundaries (bundle.rs).  Identities are injective, scopes and queries
      accept exactly what they should, boundaries are exactly those that every group covers.
    - Inventory: storage/inventory.rs.  Refinement of an unbounded history: residents, journal and
      counters are those of the history, page scans and coalesced reads are exact.
    - Membership: membership.rs.  Registrations are valid only within their grant and lapse for good.
    - Index, IndexInv, IndexDelta, IndexInstall: orbitkv-catalog index.rs.  In every reachable state the
      byte accounting is exact and within its limit, the block table is the owners' records, lookups
      and coverage are exact.
    - Replication, Accuracy, Sessions: cluster/inventory.rs as a source and a receiver, step by step.
      [Sessions.replication_exact] composes inventory, transcript and index: whatever the
      interleaving, an installed view is the owner's residents at its watermark.
    - Blocks, Publish: block.rs and storage/publish.rs.  Slot collection, sealing, the ordered fast
      path and its equivalence with the general one.
    - Lru, TinyLfu, Residency: interfaces of the tiers.  [LruCache] with its laws, implemented by a
      recency list and by the TinyLFU policy (dram/policy.rs); [ResidencyLog] with its laws,
      implemented by the inventory.
    - Dram, DramInv, DramEvict, DramSpec: storage/dram/mod.rs over those interfaces.  Classes partition
      the cache, accounting is exact, the log shows the residents, eviction and demotion do exactly
      what they promise and end.
    - SsdRing, SsdStore, SsdStoreInv: ssd/index.rs, metadata.rs, and the critical sections of mod.rs
      and writer.rs under every interleaving.  Extents in use are never overwritten.  The order in which
      two sections publish is not fixed by the code: [stale_ssd_advertisement] shows what follows.
    - Wire, CacheProtocol, CacheProtocolSpec, CacheQuerySpec: cache_protocol.rs byte for byte; every
      message round-trips, and decoders accept only canonical bytes.
    - PublishChunks: client.rs publish_payloads.  Splitting loses, repeats and reorders nothing.
    - QueryBudget, QueryLease, QueryLeaseSpec: query/mod.rs, query/lease.rs and the engine calls around
      them.  The counters are the sums of the live reservations in every reachable state; consuming a
      batch of leases is all or nothing.
    - Grants: every method of completion.rs as a program of atomic steps ([prog]).  GrantsLogic: the
      invariant, what each side may do, and a rely-guarantee weakest precondition; GrantsRules: its
      rules; GrantsSpec: the engine's methods; GrantsPlans and GrantsManager: the plan bank, the
      Manager's methods, reservation; GrantsSystem: any schedule of calls, and the mapping's layout.
    - DmaCopies: transfer/memcpy/ranges.rs.  Compiled copies move the same bytes in the same order.
    - KvLayout: transfer/layout.rs.  A layout is accepted exactly when its ranges are disjoint and
      representable.
    - Topology, TopologyPages, TopologySpec, TopologySeal: engine/instance.rs.  Registration seals an instance
      once, and the sealed layer space is sound whatever the order of the workers.
    - RestorePlan, RestoreExec, RestoreOrder: transfer/local.rs.  Plans round-trip in parts; the executor
      is confined to what was granted, whatever the plan; layer events follow their copies.
    - RestoreBuild, RestoreBuildSpec: engine/restore.rs.  The compiled plan moves what was asked.
    - RestoreWorker, RestoreWorkerSpec: python/src/local_restore.rs, the worker and its callers under every
      interleaving.  Results are delivered once; a turn of answered jobs completes them.
    - IoBatches, GpuSlot, GpuSlotSpec: ssd/cufile.rs and cufile/slot.rs.  Planning is exact, and
      [ssd_save_restore] composes it with the slot: a restore reads what a save wrote.
    - Codec, Fp8, Fp8Spec: codec/mod.rs and cpu.rs.  Formats are well typed; the quantization tables hold
      nearest levels, the vector loops agree with the scalar one.
    - Transfers, TransfersSpec, TransfersSsd: worker/mod.rs and worker/ssd.rs.  Copies and SSD reads of a
      task move exactly its blocks; [raw_transfer_exact] composes them with DmaCopies.
    - SsdQueue: worker/ssd/queue.rs, one turn of its loop as a function of what the world answers.
      SsdQueueInv: its invariant; SsdQueueSteps: every step keeps it; SsdQueueSpec: the loop
      never panics, publishes and finishes once, and drains when it is answered.
    - Exports, ExportsSpec: peer/export.rs.  Windows, tickets and owned handles under every order of
      critical sections: accounts are exact, granted memory stays pinned, no ticket is used twice.
    - Arena, ArenaSpec, Frames: arena.rs, protocol.rs and the records of bootstrap.rs and lifecycle.rs in
      orbitkv-channel.  Operations on slots are programs of single loads and stores on shared memory; slots
      are disjoint, a read returns what was written under its generation, and the frames are canonical.
    - Channel: a call from ChannelClient::call_descriptor to the dispatcher (endpoint/mod.rs) and back, as a
      world of engines, sessions, messages and the arena that changes by events, one memory access at a time.
      ChannelInv, ChannelSteps, ChannelEngine, ChannelManager: the invariant and that every
      event keeps it.  ChannelSpec: [channel_exact] for the schedules in which the Manager ends a session
      only when its engine is gone, [publish_releases_late], and [slot_reuse_crosses] for the others.

    ** Fuel and bounds

    Loops over data are structural.  [bounded_delta], [split_chunks], [extend_chunk], [demote],
    [remove_lru_loop] and the binary search [bs_loop] take fuel; the theorems on their callers
    ([bounded_delta_total], [publish_payloads_exact], [demand_promotes], [pressure_eviction_exact],
    [scope_contains_exactly]) hold for the fuel that the callers give, so it suffices.  The retry
    loops of the grants repeat until an exchange wins, which the other side may prevent for ever; their
    fuel is a parameter of the call over which the theorem quantifies, and out of fuel a thread waits
    for ever, so every finite run of the code is a run of the model.  [reserve] has the bound of the
    code.  [inner_loop] of the restore worker has as much as there are active jobs, each of which a pass
    serves once; [cut] and [tile] one or two steps more than a range fills staging buffers: the exactness
    theorems show that nothing is left over.  Runs of the restore worker and of the storage queue are lists of
    steps of any length, and the draining theorem gives a length.  Memory is sequentially consistent: the code orders its relaxed field accesses by acquire
    and release on the tag.  On each side the calls for one operation come from one thread at a time.

    ** The map to the sources

    The manifest names, for every operation and data type, the lines that it translates.  A helper
    whose lines lie inside those of a mapped operation, and a constant or definition of a few
    lines, may have no entry of its own: it is read with the operation that uses it.

    ** Not modelled

    Operating-system and device interfaces: memfd, mmap, sockets, file-descriptor passing and
    eventfds of the channel, and the queues of iceoryx2 (a request is delivered at most once and a response belongs to its
    request; what a handler answers, and whether a send or a hand-shake fails, is the choice of an event), io_uring and the cuFile driver, CUDA streams and kernels (their answers are
    arguments where a modelled operation needs them), pinned and NUMA memory, RDMA and Mooncake, etcd
    and gRPC plumbing.  Asynchronous drivers that only sequence modelled operations: the server's
    session tasks, the storage facade, tiered reads, the choice of sources for a read.  Entropy coding
    (an external library and GPU kernels).  The read cost model and the HyperLogLog sketch
    (floating-point estimates), metrics, tracing, logging, the router, the Python bindings other than
    the restore worker, and the connectors.  Within modelled files: metrics, timers and sleeps,
    wait_to_publish and watch channels of the inventory, the JSON text hashed by storage_namespace
    (an argument), the unused compact TinyLFU constructor, warm-up accounting of blocks, closing
    a channel from one thread while another is in a call, and loads and stores weaker than sequential consistency. *)
From Stdlib Require Export ZArith Lia Bool.
From Stdlib Require Import Strings.Byte.
From stdpp Require Export base tactics gmap fin_maps fin_sets sorting numbers option.
From stdpp Require Export list.
From Stdlib Require Strings.String.
Export Strings.String.StringSyntax.

Local Open Scope Z_scope.

(** ** Fallible code *)

(** Rust's [Result]: the success value first, the error second. *)
Inductive result (A E : Type) : Type :=
| Ok (a : A)
| Err (e : E).
Arguments Ok {A E} a.
Arguments Err {A E} e.

Declare Scope rust_scope.
Delimit Scope rust_scope with rust.
Delimit Scope string_scope with string.

(** [let? p := e in k] is the question-mark operator: an error returns early. *)
Notation "'let?' p ':=' e 'in' k" :=
  (match e with Ok p => k | Err err => Err err end)
  (at level 10, p pattern, e at level 100, k at level 200) : rust_scope.

(** [opt .ok_or err]: [Option::ok_or]. *)
Definition ok_or {A E} (o : option A) (e : E) : result A E :=
  match o with Some a => Ok a | None => Err e end.

Definition is_ok {A E} (r : result A E) : bool :=
  match r with Ok _ => true | Err _ => false end.

(** Collecting an iterator of results stops at the first error. *)
Fixpoint collect_results {A B E} (f : A -> result B E) (l : list A) : result (list B) E :=
  match l with
  | [] => Ok []
  | a :: l' =>
      match f a with
      | Err e => Err e
      | Ok b => match collect_results f l' with
                | Err e => Err e
                | Ok bs => Ok (b :: bs)
                end
      end
  end.

Lemma collect_results_Ok {A B E} (f : A -> result B E) l bs :
  collect_results f l = Ok bs <-> Forall2 (fun a b => f a = Ok b) l bs.
Proof.
  revert bs; induction l as [|a l IH]; intros bs; simpl.
  - split; [intros [= <-]; constructor | intros H; inversion H; done].
  - split.
    + destruct (f a) eqn:Ha; [|done].
      destruct (collect_results f l) eqn:Hl; [|done].
      intros [= <-]. constructor; [done|]. by apply IH.
    + intros H; inversion H as [|? b ? bs' Hb Hbs]; subst.
      rewrite Hb. by apply IH in Hbs as ->.
Qed.

(** ** Machine integers *)

(** The crates target 64-bit Linux: [usize] is [u64] and [isize] is [i64].  A machine integer is
    a [Z]; release builds wrap on overflow, so [+], [-] and [*] are written with the wrap, and the
    [checked_] and [saturating_] operations as the standard library defines them. *)
Definition u64_max : Z := 18446744073709551615.
Definition u32_max : Z := 4294967295.
Definition i64_max : Z := 9223372036854775807.
Definition u64_modulus : Z := 18446744073709551616.
Definition wrap64 (z : Z) : Z := z mod u64_modulus.
Definition u32_modulus : Z := 4294967296.
Definition wrap32 (z : Z) : Z := z mod u32_modulus.
Definition is_u64 (z : Z) : Prop := 0 <= z <= u64_max.
Definition is_u32 (z : Z) : Prop := 0 <= z <= u32_max.

Definition u64_add (a b : Z) : Z := wrap64 (a + b).
Definition u64_sub (a b : Z) : Z := wrap64 (a - b).
Definition u64_mul (a b : Z) : Z := wrap64 (a * b).
Definition checked_add (a b : Z) : option Z := if a + b <=? u64_max then Some (a + b) else None.
Definition checked_sub (a b : Z) : option Z := if b <=? a then Some (a - b) else None.
Definition checked_mul (a b : Z) : option Z := if a * b <=? u64_max then Some (a * b) else None.
Definition saturating_add (a b : Z) : Z := Z.min (a + b) u64_max.
Definition saturating_sub (a b : Z) : Z := Z.max (a - b) 0.
Definition saturating_mul (a b : Z) : Z := Z.min (a * b) u64_max.
(** [usize::checked_add_signed]: the signed delta is added exactly or not at all. *)
Definition checked_add_signed (a d : Z) : option Z :=
  if (0 <=? a + d) && (a + d <=? u64_max) then Some (a + d) else None.
Definition div_ceil (a b : Z) : Z := (a + b - 1) / b.
(** [is_multiple_of] by zero holds of zero only. *)
Definition is_multiple_of (a b : Z) : bool := if b =? 0 then a =? 0 else a mod b =? 0.
Definition next_multiple_of (a b : Z) : Z := div_ceil a b * b.
Definition checked_next_multiple_of (a b : Z) : option Z :=
  if b =? 0 then None
  else if next_multiple_of a b <=? u64_max then Some (next_multiple_of a b) else None.

Lemma wrap64_id z : is_u64 z -> wrap64 z = z.
Proof. unfold is_u64, wrap64, u64_max, u64_modulus. intros. apply Z.mod_small. lia. Qed.

Lemma wrap32_id z : is_u32 z -> wrap32 z = z.
Proof. unfold is_u32, wrap32, u32_max, u32_modulus. intros. apply Z.mod_small. lia. Qed.

Lemma wrap64_is_u64 z : is_u64 (wrap64 z).
Proof.
  unfold is_u64, wrap64, u64_max, u64_modulus.
  pose proof (Z.mod_pos_bound z 18446744073709551616). lia.
Qed.

Lemma wrap64_le z : 0 <= z -> wrap64 z <= z.
Proof. intros. by apply Z.mod_le. Qed.

Lemma u64_add_exact a b : 0 <= a -> 0 <= b -> a + b <= u64_max -> u64_add a b = a + b.
Proof. intros. apply wrap64_id. unfold is_u64. lia. Qed.

Lemma u64_sub_exact a b : 0 <= b -> b <= a -> a <= u64_max -> u64_sub a b = a - b.
Proof. intros. apply wrap64_id. unfold is_u64. lia. Qed.

Lemma u64_mul_exact a b : 0 <= a * b -> a * b <= u64_max -> u64_mul a b = a * b.
Proof. intros. apply wrap64_id. unfold is_u64. lia. Qed.

Lemma is_multiple_of_spec a b :
  0 < b -> is_multiple_of a b = true <-> exists q, a = q * b.
Proof.
  intros Hb. unfold is_multiple_of.
  replace (b =? 0) with false by (symmetry; apply Z.eqb_neq; lia).
  rewrite Z.eqb_eq. split.
  - intros H. exists (a / b). pose proof (Z.div_mod a b ltac:(lia)). lia.
  - intros [q ->]. apply Z_mod_mult.
Qed.

Lemma div_ceil_bounds a b :
  0 < b -> 0 <= a -> a <= div_ceil a b * b < a + b.
Proof.
  intros Hb Ha. unfold div_ceil.
  pose proof (Z.div_mod (a + b - 1) b ltac:(lia)).
  pose proof (Z.mod_pos_bound (a + b - 1) b ltac:(lia)). lia.
Qed.

Lemma div_ceil_pos a b : 0 < b -> 0 < a -> 1 <= div_ceil a b.
Proof. intros Hb Ha. unfold div_ceil. apply Z.div_le_lower_bound; lia. Qed.

(** ** Bytes *)

(** [u8] is [Byte.byte]; a [Vec<u8>] or the UTF-8 content of a [String] is a list of them. *)
Abbreviation byte := Byte.byte.
Abbreviation bytes := (list byte).
Abbreviation string := String.string.
Definition str (s : String.string) : bytes := String.list_byte_of_string s.
Arguments str s%_string_scope.

Definition byte_val (b : byte) : Z := Z.of_N (Byte.to_N b).
Definition byte_of (z : Z) : byte := match Byte.of_N (Z.to_N (z mod 256)) with
                                     | Some b => b | None => x00 end.

Lemma byte_val_range b : 0 <= byte_val b < 256.
Proof. unfold byte_val. pose proof (Byte.to_N_bounded b). lia. Qed.

Lemma byte_val_inj b1 b2 : byte_val b1 = byte_val b2 -> b1 = b2.
Proof.
  unfold byte_val. intros H%N2Z.inj.
  pose proof (Byte.of_to_N b1) as H1. pose proof (Byte.of_to_N b2) as H2.
  rewrite H in H1. congruence.
Qed.

Lemma byte_val_of z : 0 <= z < 256 -> byte_val (byte_of z) = z.
Proof.
  intros Hz. unfold byte_of, byte_val. rewrite Z.mod_small by lia.
  destruct (Byte.of_N (Z.to_N z)) as [b|] eqn:E.
  - apply Byte.to_of_N in E. rewrite E. lia.
  - apply Byte.of_N_None_iff in E. lia.
Qed.

Lemma byte_of_val b : byte_of (byte_val b) = b.
Proof. apply byte_val_inj. apply byte_val_of, byte_val_range. Qed.

#[export] Instance byte_eq_dec : EqDecision byte.
Proof. intros a b. destruct (Byte.byte_eq_dec a b); [left|right]; done. Defined.
#[export] Program Instance byte_countable : Countable byte :=
  {| encode b := encode (Byte.to_N b); decode p := decode p ≫= Byte.of_N |}.
Next Obligation. intros b. cbn. rewrite (decode_encode (Byte.to_N b)). apply Byte.of_to_N. Qed.

(** [len] of a slice, as a machine integer. *)
Definition zlen {A} (l : list A) : Z := Z.of_nat (length l).

Lemma zlen_nonneg {A} (l : list A) : 0 <= zlen l.
Proof. unfold zlen. lia. Qed.
Lemma zlen_app {A} (l k : list A) : zlen (l ++ k) = zlen l + zlen k.
Proof. unfold zlen. rewrite length_app. lia. Qed.
Lemma zlen_cons {A} (a : A) l : zlen (a :: l) = 1 + zlen l.
Proof. unfold zlen. simpl. lia. Qed.
Lemma zlen_nil {A} : zlen (@nil A) = 0.
Proof. done. Qed.

(** ** Ordered keys *)

(** The contract of Rust's [Ord] that [BTreeMap] and [sort_unstable] rely on. *)
Class Ord (K : Type) := {
  cmp : K -> K -> comparison;
  cmp_eq : forall a b, cmp a b = Eq <-> a = b;
  cmp_opp : forall a b, cmp b a = CompOpp (cmp a b);
  cmp_lt_trans : forall a b c, cmp a b = Lt -> cmp b c = Lt -> cmp a c = Lt
}.

#[export] Hint Mode Ord ! : typeclass_instances.

Definition key_lt {K} `{Ord K} (a b : K) : Prop := cmp a b = Lt.
Definition key_le {K} `{Ord K} (a b : K) : Prop := cmp a b <> Gt.
Definition key_leb {K} `{Ord K} (a b : K) : bool :=
  match cmp a b with Gt => false | _ => true end.
Definition key_ltb {K} `{Ord K} (a b : K) : bool :=
  match cmp a b with Lt => true | _ => false end.

Section OrdFacts.
Context {K : Type} `{Ord K}.
Implicit Types a b c : K.

#[global] Instance key_le_dec (a b : K) : Decision (key_le a b).
Proof. unfold key_le. destruct (cmp a b); [left|left|right]; congruence. Defined.
#[global] Instance key_lt_dec (a b : K) : Decision (key_lt a b).
Proof. unfold key_lt. destruct (cmp a b); [right|left|right]; congruence. Defined.

Lemma key_leb_spec a b : key_leb a b = true <-> key_le a b.
Proof. unfold key_leb, key_le. destruct (cmp a b); naive_solver. Qed.
Lemma key_ltb_spec a b : key_ltb a b = true <-> key_lt a b.
Proof. unfold key_ltb, key_lt. destruct (cmp a b); naive_solver. Qed.
Lemma key_leb_false a b : key_leb a b = false <-> key_lt b a.
Proof. unfold key_leb, key_lt. rewrite (cmp_opp a b). destruct (cmp a b); simpl; naive_solver. Qed.
Lemma key_lt_irrefl a : ~ key_lt a a.
Proof. unfold key_lt. rewrite (proj2 (cmp_eq a a) eq_refl). done. Qed.
Lemma key_le_lt_eq a b : key_le a b <-> key_lt a b \/ a = b.
Proof.
  unfold key_le, key_lt. pose proof (cmp_eq a b) as He. destruct (cmp a b); naive_solver.
Qed.
Lemma key_lt_le a b : key_lt a b -> key_le a b.
Proof. rewrite key_le_lt_eq. auto. Qed.
Lemma key_not_le a b : ~ key_le a b <-> key_lt b a.
Proof. unfold key_le, key_lt. rewrite (cmp_opp a b). destruct (cmp a b); simpl; naive_solver. Qed.

#[global] Instance key_lt_trans : Transitive (@key_lt K _).
Proof. intros a b c. apply cmp_lt_trans. Qed.
#[global] Instance key_le_trans : Transitive (@key_le K _).
Proof.
  intros a b c. rewrite !key_le_lt_eq. intros [Hab| ->] [Hbc| ->]; eauto using cmp_lt_trans.
  left. unfold key_lt in *. eauto using cmp_lt_trans.
Qed.
#[global] Instance key_le_total : Total (@key_le K _).
Proof.
  intros a b. unfold key_le. rewrite (cmp_opp a b).
  destruct (cmp a b); simpl; [left|left|right]; done.
Qed.
#[global] Instance key_le_antisym : AntiSymm (=) (@key_le K _).
Proof.
  intros a b. rewrite !key_le_lt_eq. intros [Hab|] [Hba|]; try done.
  exfalso. apply (key_lt_irrefl a). by etrans.
Qed.
End OrdFacts.

#[export] Program Instance Z_ord : Ord Z := {| cmp := Z.compare |}.
Next Obligation. apply Z.compare_eq_iff. Qed.
Next Obligation. intros. apply Z.compare_antisym. Qed.
Next Obligation. intros a b c. rewrite !Z.compare_lt_iff. lia. Qed.

(** A type that injects into an ordered one is ordered by its image. *)
Definition ord_by {A B} `{Ord B} (f : A -> B) (Hf : forall x y, f x = f y -> x = y) : Ord A.
Proof.
  refine {| cmp a b := cmp (f a) (f b) |}.
  - intros a b. rewrite cmp_eq. split; [apply Hf | by intros ->].
  - intros a b. apply cmp_opp.
  - intros a b c. apply cmp_lt_trans.
Defined.

#[export] Instance byte_ord : Ord byte := ord_by byte_val byte_val_inj.

(** Tuples and derived [Ord] on structs compare field by field. *)
Definition pair_cmp {A B} `{Ord A, Ord B} (x y : A * B) : comparison :=
  match cmp x.1 y.1 with Eq => cmp x.2 y.2 | c => c end.
#[export] Program Instance pair_ord {A B} `{Ord A, Ord B} : Ord (A * B) := {| cmp := pair_cmp |}.
Next Obligation.
  intros A B ? ? [a1 b1] [a2 b2]. unfold pair_cmp; simpl.
  pose proof (cmp_eq a1 a2). pose proof (cmp_eq b1 b2).
  destruct (cmp a1 a2); naive_solver.
Qed.
Next Obligation.
  intros A B ? ? [a1 b1] [a2 b2]. unfold pair_cmp; simpl.
  rewrite (cmp_opp a1 a2), (cmp_opp b1 b2). destruct (cmp a1 a2); done.
Qed.
Next Obligation.
  intros A B ? ? [a1 b1] [a2 b2] [a3 b3]. unfold pair_cmp; simpl.
  pose proof (cmp_eq a1 a2) as H12. pose proof (cmp_eq a2 a3) as H23.
  destruct (cmp a1 a2) eqn:E12; [|intros _|done].
  - assert (a1 = a2) as -> by tauto.
    destruct (cmp a2 a3); try done. apply cmp_lt_trans.
  - destruct (cmp a2 a3) eqn:E23; [|intros _|done].
    + assert (a2 = a3) as -> by tauto. by rewrite E12.
    + by rewrite (cmp_lt_trans _ _ _ E12 E23).
Qed.

(** Slices compare lexicographically. *)
Fixpoint list_cmp {A} `{Ord A} (l k : list A) : comparison :=
  match l, k with
  | [], [] => Eq
  | [], _ :: _ => Lt
  | _ :: _, [] => Gt
  | a :: l', b :: k' => match cmp a b with Eq => list_cmp l' k' | c => c end
  end.
#[export] Program Instance list_ord {A} `{Ord A} : Ord (list A) := {| cmp := list_cmp |}.
Next Obligation.
  intros A ? l. induction l as [|a l IH]; intros [|b k]; simpl; try naive_solver.
  pose proof (cmp_eq a b). specialize (IH k). destruct (cmp a b); naive_solver.
Qed.
Next Obligation.
  intros A ? l. induction l as [|a l IH]; intros [|b k]; simpl; try done.
  rewrite (cmp_opp a b), IH. destruct (cmp a b); done.
Qed.
Next Obligation.
  intros A ? l. induction l as [|a l IH]; intros [|b k] [|c m]; simpl; try done.
  pose proof (cmp_eq a b) as Hab. pose proof (cmp_eq b c) as Hbc.
  destruct (cmp a b) eqn:E1; [|intros _|done].
  - assert (a = b) as -> by tauto. destruct (cmp b c); try done. apply IH.
  - destruct (cmp b c) eqn:E2; [|intros _|done].
    + assert (b = c) as -> by tauto. by rewrite E1.
    + by rewrite (cmp_lt_trans _ _ _ E1 E2).
Qed.
