(* ===== verification/Containers.v ===== *)
(** * Containers

    [BTreeMap] and [BTreeSet] as finite maps whose iteration is the key-sorted list of bindings,
    and sums over maps, which state the byte accounting of the components.  A [HashMap] is a plain
    [gmap]: nothing that is stated depends on its iteration order. *)
From S2P Require Import Prelude.

Local Open Scope Z_scope.

(** ** Iteration in key order *)

Definition item_le {K V} `{Ord K} (p q : K * V) : Prop := key_le p.1 q.1.
Definition item_lt {K V} `{Ord K} (p q : K * V) : Prop := key_lt p.1 q.1.

#[export] Instance item_le_dec {K V} `{Ord K} (p q : K * V) : Decision (item_le p q).
Proof. unfold item_le. apply _. Defined.

(** [BTreeMap::iter]. *)
Definition btree_items {K V} `{Countable K, Ord K} (m : gmap K V) : list (K * V) :=
  merge_sort item_le (map_to_list m).
Definition btree_keys {K V} `{Countable K, Ord K} (m : gmap K V) : list K :=
  (btree_items m).*1.
Definition btree_values {K V} `{Countable K, Ord K} (m : gmap K V) : list V :=
  (btree_items m).*2.
(** [BTreeSet::iter]. *)
Definition btree_elements {K} `{Countable K, Ord K} (s : gset K) : list K :=
  merge_sort key_le (elements s).

Section BTree.
Context {K V : Type} `{Countable K, Ord K}.
Implicit Types m : gmap K V.

#[local] Instance item_le_total : Total (@item_le K V _).
Proof. intros p q. apply key_le_total. Qed.
#[local] Instance item_le_trans : Transitive (@item_le K V _).
Proof. intros p q r. unfold item_le. apply key_le_trans. Qed.

Lemma btree_items_perm m : btree_items m ≡ₚ map_to_list m.
Proof. apply merge_sort_Permutation. Qed.

Lemma elem_of_btree_items m k v : (k, v) ∈ btree_items m <-> m !! k = Some v.
Proof. rewrite btree_items_perm. apply elem_of_map_to_list. Qed.

Lemma NoDup_btree_keys m : NoDup (btree_keys m).
Proof. unfold btree_keys. rewrite btree_items_perm. apply NoDup_fst_map_to_list. Qed.

Lemma elem_of_btree_keys m k : k ∈ btree_keys m <-> is_Some (m !! k).
Proof.
  unfold btree_keys. rewrite list_elem_of_fmap. split.
  - intros [[k' v] [-> Hin%elem_of_btree_items]]. eauto.
  - intros [v Hv]. exists (k, v). split; [done|]. by apply elem_of_btree_items.
Qed.

Lemma elem_of_btree_values m v : v ∈ btree_values m <-> exists k, m !! k = Some v.
Proof.
  unfold btree_values. rewrite list_elem_of_fmap. split.
  - intros [[k v'] [-> Hin%elem_of_btree_items]]. eauto.
  - intros [k Hv]. exists (k, v). split; [done|]. by apply elem_of_btree_items.
Qed.

(** Distinct keys make the weak order strict. *)
Lemma strict_of_weak (l : list (K * V)) :
  StronglySorted item_le l -> NoDup l.*1 -> StronglySorted item_lt l.
Proof.
  induction 1 as [|p l Hs IH Hp]; [constructor|].
  simpl. rewrite NoDup_cons. intros [Hnin Hnd]. constructor; [by apply IH|].
  rewrite Forall_forall in Hp |- *. intros q Hq. specialize (Hp q Hq).
  unfold item_le, item_lt in *. apply key_le_lt_eq in Hp as [Hlt|Heq]; [done|].
  exfalso. apply Hnin. rewrite Heq. apply list_elem_of_fmap. eauto.
Qed.

Lemma btree_items_sorted m : StronglySorted item_lt (btree_items m).
Proof.
  apply strict_of_weak; [|apply NoDup_btree_keys].
  apply Sorted_StronglySorted; [apply _|]. apply Sorted_merge_sort; apply _.
Qed.

Lemma sorted_items_unique (l k : list (K * V)) :
  StronglySorted item_lt l -> StronglySorted item_lt k ->
  (forall p, p ∈ l <-> p ∈ k) -> l = k.
Proof.
  intros Hl Hk Heq.
  assert (HND : forall l : list (K * V), StronglySorted item_lt l -> NoDup l).
  { intros l'. induction 1 as [|p l' Hs IH Hp]; constructor; [|done].
    intros Hin. rewrite Forall_forall in Hp. specialize (Hp p Hin). by apply key_lt_irrefl in Hp. }
  eapply (StronglySorted_unique_strong item_lt); [|done|done|].
  - intros p q _ _ Hpq Hqp. exfalso. eapply key_lt_irrefl. by etrans.
  - apply NoDup_Permutation; auto.
Qed.

(** The sorted list with the map's bindings is its iteration. *)
Lemma btree_items_unique m (l : list (K * V)) :
  StronglySorted item_lt l -> (forall k v, (k, v) ∈ l <-> m !! k = Some v) -> btree_items m = l.
Proof.
  intros Hl Heq. apply sorted_items_unique; [apply btree_items_sorted|done|].
  intros [k v]. rewrite elem_of_btree_items. by rewrite Heq.
Qed.

Lemma btree_items_empty : btree_items (∅ : gmap K V) = [].
Proof. apply btree_items_unique; [constructor|]. intros k v. rewrite lookup_empty. set_solver. Qed.

Lemma btree_items_nil m : btree_items m = [] -> m = ∅.
Proof.
  intros Hnil. apply map_eq. intros k. rewrite lookup_empty.
  destruct (m !! k) eqn:E; [|done]. apply elem_of_btree_items in E. rewrite Hnil in E. set_solver.
Qed.

Lemma length_btree_items m : length (btree_items m) = size m.
Proof. rewrite btree_items_perm. apply length_map_to_list. Qed.
End BTree.

Section BTreeSet.
Context {K : Type} `{Countable K, Ord K}.
Implicit Types s : gset K.

Lemma elem_of_btree_elements s k : k ∈ btree_elements s <-> k ∈ s.
Proof. unfold btree_elements. rewrite merge_sort_Permutation. apply elem_of_elements. Qed.

Lemma btree_elements_sorted s : StronglySorted key_lt (btree_elements s).
Proof.
  assert (Hle : StronglySorted key_le (btree_elements s)).
  { apply Sorted_StronglySorted; [apply _|]. apply Sorted_merge_sort; apply _. }
  assert (Hnd : NoDup (btree_elements s)).
  { unfold btree_elements. rewrite merge_sort_Permutation. apply NoDup_elements. }
  induction Hle as [|x l Hs IH Hx]; [constructor|].
  apply NoDup_cons in Hnd as [Hnin Hnd]. constructor; [by apply IH|].
  rewrite Forall_forall in Hx |- *. intros y Hy.
  destruct (proj1 (key_le_lt_eq x y) (Hx y Hy)) as [| ->]; [done|].
  done.
Qed.
End BTreeSet.

(** ** Sums over maps *)

Definition map_sum {K V} `{Countable K} (f : K -> V -> Z) (m : gmap K V) : Z :=
  map_fold (fun k v acc => f k v + acc) 0 m.
Definition list_sum {A} (f : A -> Z) (l : list A) : Z := foldr (fun a acc => f a + acc) 0 l.

Section Sums.
Context {K V : Type} `{Countable K}.
Implicit Types (m : gmap K V) (f : K -> V -> Z).

Lemma map_sum_empty f : map_sum f ∅ = 0.
Proof. apply map_fold_empty. Qed.

Lemma map_sum_insert f m k v :
  m !! k = None -> map_sum f (<[k:=v]> m) = f k v + map_sum f m.
Proof.
  intros Hk. unfold map_sum. rewrite map_fold_insert_L; [done| |done]. intros. lia.
Qed.

Lemma map_sum_delete f m k v :
  m !! k = Some v -> map_sum f m = f k v + map_sum f (delete k m).
Proof.
  intros Hk. rewrite <- (insert_delete_id m k v Hk) at 1.
  apply map_sum_insert. apply lookup_delete_eq.
Qed.

Lemma map_sum_delete_ne f m k :
  m !! k = None -> map_sum f (delete k m) = map_sum f m.
Proof. intros Hk. by rewrite delete_id. Qed.

(** Replacing a binding changes the sum by the difference. *)
Lemma map_sum_update f m k v v' :
  m !! k = Some v -> map_sum f (<[k:=v']> m) = map_sum f m - f k v + f k v'.
Proof.
  intros Hk. rewrite (map_sum_delete f m k v Hk).
  rewrite <- insert_delete_eq. rewrite map_sum_insert by apply lookup_delete_eq. lia.
Qed.

Lemma map_sum_nonneg f m :
  (forall k v, m !! k = Some v -> 0 <= f k v) -> 0 <= map_sum f m.
Proof.
  induction m as [|k v m Hk IH] using map_ind; intros Hf.
  - rewrite map_sum_empty. lia.
  - rewrite map_sum_insert by done.
    assert (0 <= f k v) by (apply Hf, lookup_insert_eq).
    assert (0 <= map_sum f m); [|lia].
    apply IH. intros k' v' Hk'. apply Hf. rewrite lookup_insert_ne; [done|]. congruence.
Qed.

Lemma map_sum_ext f g m :
  (forall k v, m !! k = Some v -> f k v = g k v) -> map_sum f m = map_sum g m.
Proof.
  induction m as [|k v m Hk IH] using map_ind; intros Hf.
  - by rewrite !map_sum_empty.
  - rewrite !map_sum_insert by done. rewrite (Hf k v) by apply lookup_insert_eq.
    f_equal. apply IH. intros k' v' Hk'. apply Hf.
    rewrite lookup_insert_ne; [done|]. congruence.
Qed.

(** A term of a non-negative sum is at most the sum. *)
Lemma map_sum_ge f m k v :
  (forall k v, m !! k = Some v -> 0 <= f k v) -> m !! k = Some v -> f k v <= map_sum f m.
Proof.
  intros Hf Hk. rewrite (map_sum_delete f m k v Hk).
  assert (0 <= map_sum f (delete k m)); [|lia].
  apply map_sum_nonneg. intros k' v' [_ Hk']%lookup_delete_Some. eauto.
Qed.

Lemma map_sum_list f m : map_sum f m = list_sum (fun p => f p.1 p.2) (map_to_list m).
Proof.
  induction m as [|k v m Hk IH] using map_ind.
  - by rewrite map_sum_empty, map_to_list_empty.
  - rewrite map_sum_insert by done.
    assert (Hp : forall l l' : list (K * V), l ≡ₚ l' ->
      list_sum (fun p => f p.1 p.2) l = list_sum (fun p => f p.1 p.2) l').
    { induction 1; unfold list_sum in *; simpl; try lia. }
    rewrite (Hp _ _ (map_to_list_insert m k v Hk)). unfold list_sum in *. simpl. lia.
Qed.
End Sums.

Lemma list_sum_perm {A} (f : A -> Z) l l' : l ≡ₚ l' -> list_sum f l = list_sum f l'.
Proof. induction 1; unfold list_sum in *; simpl; lia. Qed.
Lemma list_sum_fmap {A B} (f : B -> Z) (g : A -> B) l : list_sum f (g <$> l) = list_sum (fun a => f (g a)) l.
Proof. induction l as [|a l IH]; [done|]. rewrite fmap_cons. unfold list_sum in *. simpl. by rewrite IH. Qed.
Lemma last_split {A} (l : list A) x : last l = Some x -> l = removelast l ++ [x].
Proof. intros Hl. apply last_Some in Hl as [l' ->]. by rewrite removelast_last. Qed.
Lemma list_sum_app {A} (f : A -> Z) l l' : list_sum f (l ++ l') = list_sum f l + list_sum f l'.
Proof. induction l; unfold list_sum in *; simpl; lia. Qed.
Lemma list_sum_nonneg {A} (f : A -> Z) l : (forall a, a ∈ l -> 0 <= f a) -> 0 <= list_sum f l.
Proof.
  induction l as [|a l IH]; intros Hf; unfold list_sum in *; simpl; [lia|].
  assert (0 <= f a) by (apply Hf; left).
  assert (0 <= foldr (fun a acc => f a + acc) 0 l); [|lia].
  apply IH. intros b Hb. apply Hf. by right.
Qed.

(** ** Folds over distinct keys *)

Section Folds.
Context {K V : Type} `{Countable K}.

(** Folding a pointwise update over bindings with distinct keys acts on each key once. *)
Lemma foldl_pointwise {W} (step : gmap K W -> K * V -> gmap K W) (upd : option W -> V -> option W)
    (l : list (K * V)) (m : gmap K W) :
  (forall m u k, step m u !! k = if decide (k = u.1) then upd (m !! k) u.2 else m !! k) ->
  NoDup l.*1 ->
  forall k, foldl step m l !! k =
    match list_find (fun u => u.1 = k) l with
    | Some (_, u) => upd (m !! k) u.2
    | None => m !! k
    end.
Proof.
  intros Hstep. revert m. induction l as [|[k' v] l IH]; intros m Hnd k; [done|].
  apply NoDup_cons in Hnd as [Hnin Hnd]. cbn [foldl list_find fst]. rewrite IH by done.
  rewrite Hstep. simpl. destruct (decide (k' = k)) as [->|Hne].
  - rewrite decide_True by done.
    destruct (list_find (fun u => u.1 = k) l) as [[i u]|] eqn:E; [|done].
    exfalso. apply Hnin. apply list_find_Some in E as (Hi & <- & _).
    apply list_elem_of_fmap. exists u. split; [done|]. by eapply list_elem_of_lookup_2.
  - rewrite decide_False by congruence.
    by destruct (list_find (fun u => u.1 = k) l) as [[i u]|].
Qed.

Lemma list_find_btree_items `{Ord K} (m : gmap K V) k :
  match list_find (fun u => u.1 = k) (btree_items m) with
  | Some (_, u) => m !! k = Some u.2
  | None => m !! k = None
  end.
Proof.
  destruct (list_find _ _) as [[i [k' v]]|] eqn:E.
  - apply list_find_Some in E as (Hi & Hk & _). simpl in Hk. subst k'.
    apply elem_of_btree_items. by eapply list_elem_of_lookup_2.
  - destruct (m !! k) as [v|] eqn:Ek; [|done]. exfalso.
    apply elem_of_btree_items in Ek. apply list_find_None in E.
    rewrite Forall_forall in E. by apply (E _ Ek).
Qed.
End Folds.

(** Counting the bindings that satisfy a predicate. *)
Lemma size_filter_sum {K V} `{Countable K} (P : K * V -> Prop) `{forall p, Decision (P p)}
    (m : gmap K V) :
  Z.of_nat (size (filter P m)) = map_sum (fun k v => if decide (P (k, v)) then 1 else 0) m.
Proof.
  induction m as [|k v m Hk IH] using map_ind.
  - by rewrite map_filter_empty, map_size_empty, map_sum_empty.
  - rewrite map_sum_insert by done. destruct (decide (P (k, v))).
    + rewrite map_filter_insert_True by done. rewrite map_size_insert_None; [lia|].
      apply map_lookup_filter_None. by left.
    + rewrite map_filter_insert_False by done. rewrite delete_id by done. lia.
Qed.

Section MoreSums.
Context {K V : Type} `{Countable K}.

Lemma map_sum_filter_split (f : K -> V -> Z) (P Q : K * V -> Prop) `{forall p, Decision (P p)}
    `{forall p, Decision (Q p)} (m : gmap K V) :
  (forall p, Q p <-> ~ P p) -> map_sum f m = map_sum f (filter P m) + map_sum f (filter Q m).
Proof.
  intros HPQ. induction m as [|k v m Hk IH] using map_ind.
  - by rewrite !map_filter_empty, !map_sum_empty.
  - rewrite map_sum_insert by done. destruct (decide (P (k, v))) as [HP|HP].
    + rewrite map_filter_insert_True by done. rewrite map_filter_insert_False by (rewrite HPQ; tauto).
      rewrite delete_id by done. rewrite map_sum_insert; [lia|]. apply map_lookup_filter_None. by left.
    + rewrite map_filter_insert_False, delete_id by done.
      rewrite map_filter_insert_True by (by apply HPQ).
      rewrite map_sum_insert; [lia|]. apply map_lookup_filter_None. by left.
Qed.

Lemma map_sum_imap (f : K -> V -> Z) (g : K -> V -> V) (m : gmap K V) :
  map_sum f (map_imap (fun k v => Some (g k v)) m) = map_sum (fun k v => f k (g k v)) m.
Proof.
  induction m as [|k v m Hk IH] using map_ind.
  - by rewrite map_imap_empty, !map_sum_empty.
  - rewrite (map_imap_insert_Some _ k v m (g k v)) by done.
    rewrite !map_sum_insert; [lia|done|]. by rewrite map_lookup_imap, Hk.
Qed.
End MoreSums.
