(* ===== verification/Vecs.v ===== *)
(** * Vectors

    [Vec::swap_remove], the position of an element, and sums over an updated list. *)
From S2P Require Import Prelude Containers.

Local Open Scope Z_scope.

(** [Vec::swap_remove]. *)
Definition swap_remove {A} (i : nat) (l : list A) : list A :=
  match last l with
  | Some x => if (i =? length l - 1)%nat then removelast l else <[i := x]> (removelast l)
  | None => l
  end.

(** The element leaves; what was before it stays, and what was behind it is still behind it, in some order. *)
Lemma swap_remove_spec {A} i (j : A) l :
  l !! i = Some j -> take i (swap_remove i l) = take i l /\ drop i l ≡ₚ j :: drop i (swap_remove i l) /\ length l = S (length (swap_remove i l)).
Proof.
  intros Hi. pose proof (lookup_lt_Some _ _ _ Hi) as Hlt. unfold swap_remove. destruct (last l) as [x|] eqn:El.
  2: { apply last_None in El. subst l. cbn in Hlt. lia. }
  apply last_split in El. set (init := removelast l) in *. assert (length l = S (length init)) as Hlen by (rewrite El, length_app; cbn; lia).
  destruct (Nat.eqb_spec i (length l - 1)) as [He|Hne].
  - assert (i = length init) as -> by lia. rewrite El in Hi. rewrite lookup_app_r, Nat.sub_diag in Hi by lia. injection Hi as ->.
    split_and!; [by rewrite El, take_app_le by lia| |lia]. rewrite El, drop_app_ge, Nat.sub_diag by lia. by rewrite (drop_ge init) by lia.
  - assert (i < length init)%nat as Hi' by lia. assert (init !! i = Some j) as Hij by (rewrite El, lookup_app_l in Hi by lia; done).
    split_and!; [rewrite take_insert_ge by lia; by rewrite El, take_app_le by lia| |rewrite length_insert; lia].
    rewrite El at 1. rewrite drop_app_le by lia. rewrite (drop_S init j i Hij).
    assert (drop i (<[i := x]> init) = x :: drop (S i) init) as ->.
    { rewrite (drop_S _ x i) by (by apply list_lookup_insert_eq). by rewrite drop_insert_lt by lia. }
    cbn. apply Permutation_skip, Permutation_app_comm.
Qed.

(** [Iterator::position]. *)
Fixpoint position {A} (p : A -> bool) (l : list A) : option nat :=
  match l with [] => None | a :: l => if p a then Some O else S <$> position p l end.

Lemma position_Some {A} (p : A -> bool) l i : position p l = Some i -> exists a, l !! i = Some a /\ p a = true.
Proof.
  revert i. induction l as [|a l IH]; intros i; [done|]. cbn. destruct (p a) eqn:E; [intros [= <-]; eauto|]. intros (k & Hk & ->)%fmap_Some. by apply IH.
Qed.
Lemma position_None {A} (p : A -> bool) l a : position p l = None -> a ∈ l -> p a = false.
Proof.
  induction l as [|b l IH]; [by intros _ ?%elem_of_nil|]. cbn. destruct (p b) eqn:E; [done|]. intros Hn%fmap_None [->|?]%elem_of_cons; auto.
Qed.
Lemma list_sum_insert {A} (f : A -> Z) l i a b : l !! i = Some a -> list_sum f (<[i := b]> l) = list_sum f l - f a + f b.
Proof.
  intros Hi. pose proof (lookup_lt_Some _ _ _ Hi). rewrite insert_take_drop by done. rewrite <- (take_drop_middle l i a Hi) at 3. rewrite !list_sum_app. cbn. lia.
Qed.
Lemma list_sum_ext {A} (f g : A -> Z) l : (forall a, f a = g a) -> list_sum f l = list_sum g l.
Proof. intros Hfg. induction l as [|a l IH]; [done|]. unfold list_sum in *. cbn [foldr]. by rewrite Hfg, IH. Qed.
