(* ===== verification/Slices.v ===== *)
(** * Slices

    The slice operations of the standard library that the components call: the binary search
    loop, [partition_point], [dedup] and sorting, and the fixed-width integer encodings. *)
From S2P Require Import Prelude.

Local Open Scope Z_scope.

(** ** Binary search *)

(** The loop of [slice::binary_search_by]: the window [base, base + size) is halved until one
    element is left.  The index is always in range, see [bs_loop_spec]. *)
Fixpoint bs_loop {A} (fuel : nat) (f : A -> comparison) (l : list A) (base size : nat) : nat :=
  match fuel with
  | O => base
  | S fuel' =>
      if (size <=? 1)%nat then base
      else
        let half := (size / 2)%nat in
        let mid := (base + half)%nat in
        let base' := match l !! mid with
                     | Some a => match f a with Gt => base | _ => mid end
                     | None => base
                     end in
        bs_loop fuel' f l base' (size - half)
  end.

(** [Ok] is the index of a match, [Err] the index where one could be inserted. *)
Definition binary_search_by {A} (f : A -> comparison) (l : list A) : result nat nat :=
  match l with
  | [] => Err 0%nat
  | _ =>
      let base := bs_loop (length l) f l 0 (length l) in
      match l !! base with
      | Some a => match f a with
                  | Eq => Ok base
                  | Lt => Err (base + 1)%nat
                  | Gt => Err base
                  end
      | None => Err base
      end
  end.

(** [partition_point] is a binary search for the boundary of the predicate. *)
Definition partition_point {A} (p : A -> bool) (l : list A) : nat :=
  match binary_search_by (fun a => if p a then Lt else Gt) l with Ok i => i | Err i => i end.

(** [Vec::dedup]: consecutive equal elements are collapsed. *)
Fixpoint dedup {A} `{EqDecision A} (l : list A) : list A :=
  match l with
  | a :: ((b :: _) as l') => if decide (a = b) then dedup l' else a :: dedup l'
  | _ => l
  end.

(** [Iterator::rfind]: the last element that satisfies the predicate. *)
Fixpoint rfind {A} (p : A -> bool) (l : list A) : option A :=
  match l with
  | [] => None
  | a :: l' => match rfind p l' with
               | Some b => Some b
               | None => if p a then Some a else None
               end
  end.

(** [sort_unstable] on a type with a total order whose ties are equal. *)
Definition sort_unstable {A} `{Ord A} (l : list A) : list A := merge_sort key_le l.

Section BinarySearch.
Context {A : Type} (f : A -> comparison).

(** The comparison is [Lt], then [Eq], then [Gt] along the slice. *)
Definition monotone (l : list A) : Prop :=
  forall i j a b, (i < j)%nat -> l !! i = Some a -> l !! j = Some b ->
    (f a = Gt -> f b = Gt) /\ (f b = Lt -> f a = Lt).

Definition from_gt (l : list A) (n : nat) : Prop :=
  forall j b, (n <= j)%nat -> l !! j = Some b -> f b = Gt.
Definition not_gt_at (l : list A) (n : nat) : Prop :=
  n = 0%nat \/ exists a, l !! n = Some a /\ f a <> Gt.

Lemma bs_loop_spec l fuel base size :
  monotone l -> (size <= fuel)%nat -> (0 < size)%nat -> (base + size <= length l)%nat ->
  not_gt_at l base -> from_gt l (base + size) ->
  let r := bs_loop fuel f l base size in
  (r < length l)%nat /\ not_gt_at l r /\ from_gt l (r + 1).
Proof.
  intros Hm. revert base size.
  induction fuel as [|fuel IH]; intros base size Hf Hs Hl Hn Hg;
    [lia|]. cbn [bs_loop].
  destruct (size <=? 1)%nat eqn:E1; [apply Nat.leb_le in E1|apply Nat.leb_gt in E1].
  { assert (size = 1)%nat as -> by lia. repeat split; [lia|done|done]. }
  assert (Hhalf : (1 <= size / 2 /\ 2 * (size / 2) <= size)%nat).
  { split; [apply Nat.div_le_lower_bound; lia | apply Nat.Div0.mul_div_le]. }
  set (half := (size / 2)%nat) in *. clearbody half.
  assert (is_Some (l !! (base + half)%nat)) as [a Ha] by (apply lookup_lt_is_Some; lia).
  rewrite Ha. destruct (f a) eqn:Efa.
  - apply IH; try lia; [right; exists a; split; congruence|].
    intros j b Hj Hb. apply (Hg j b); [lia|done].
  - apply IH; try lia; [right; exists a; split; congruence|].
    intros j b Hj Hb. apply (Hg j b); [lia|done].
  - apply IH; try lia; [done|]. intros j b Hj Hb.
    destruct (decide (j = (base + half)%nat)) as [->|Hne]; [congruence|].
    destruct (decide (base + half < j)%nat).
    + by apply (Hm (base + half)%nat j a b).
    + lia.
Qed.

Lemma binary_search_Ok l i :
  binary_search_by f l = Ok i -> exists a, l !! i = Some a /\ f a = Eq.
Proof.
  unfold binary_search_by. destruct l as [|x l]; [done|].
  destruct ((x :: l) !! bs_loop _ f _ _ _) as [a|] eqn:E; [|done].
  destruct (f a) eqn:Ea; try done. intros [= <-]. eauto.
Qed.

Lemma binary_search_Err l i :
  monotone l -> binary_search_by f l = Err i ->
  (i <= length l)%nat /\ (forall j a, (j < i)%nat -> l !! j = Some a -> f a = Lt) /\ from_gt l i.
Proof.
  unfold binary_search_by. destruct l as [|x l].
  { intros _ [= <-]. repeat split; [simpl; lia|lia|]. intros j b _ Hb. done. }
  intros Hm. destruct (bs_loop_spec (x :: l) (length (x :: l)) 0 (length (x :: l)) Hm)
    as (Hr & Hn & Hg); try (simpl; lia); [by left| |].
  { intros j b Hj Hb. apply lookup_lt_Some in Hb. lia. }
  set (r := bs_loop _ _ _ _ _) in *. clearbody r.
  apply lookup_lt_is_Some in Hr as [a Ha]. rewrite Ha.
  pose proof (lookup_lt_Some _ _ _ Ha).
  destruct (f a) eqn:Ea; [done| |]; intros [= <-].
  - repeat split; [lia| |done]. intros j b Hj Hb.
    destruct (decide (j = r)) as [->|]; [congruence|]. apply (Hm j r b a); [lia|done..].
  - destruct Hn as [->|(a' & Ha' & Hc)]; [|congruence].
    repeat split; [lia|lia|]. intros j b Hj Hb.
    destruct (decide (j = 0%nat)) as [->|]; [congruence|]. apply (Hm 0%nat j a b); [lia|done..].
Qed.

(** On a monotone slice the search finds a match exactly when there is one. *)
Lemma binary_search_is_ok l :
  monotone l -> is_ok (binary_search_by f l) = true <-> exists a, a ∈ l /\ f a = Eq.
Proof.
  intros Hm. destruct (binary_search_by f l) as [i|i] eqn:E; simpl.
  - apply binary_search_Ok in E as (a & Ha & He). split; [|done].
    intros _. exists a. split; [|done]. by eapply list_elem_of_lookup_2.
  - split; [done|]. intros (a & (j & Hj)%list_elem_of_lookup & He).
    apply binary_search_Err in E as (_ & Hlt & Hgt); [|done].
    destruct (decide (j < i)%nat) as [Hji|Hji].
    + specialize (Hlt j a Hji Hj). congruence.
    + specialize (Hgt j a ltac:(lia) Hj). congruence.
Qed.
End BinarySearch.

(** [partition_point] on a partitioned slice counts the elements that satisfy the predicate. *)
Lemma partition_point_spec {A} (p : A -> bool) (l : list A) :
  (forall i j a b, (i < j)%nat -> l !! i = Some a -> l !! j = Some b -> p b = true -> p a = true) ->
  let n := partition_point p l in
  (n <= length l)%nat /\
  forall j a, l !! j = Some a -> p a = true <-> (j < n)%nat.
Proof.
  intros Hp. set (f := fun a => if p a then Lt else Gt).
  assert (Hm : monotone f l).
  { intros i j a b Hij Ha Hb. specialize (Hp i j a b Hij Ha Hb). unfold f.
    destruct (p a), (p b); naive_solver. }
  unfold partition_point. fold f.
  destruct (binary_search_by f l) as [i|i] eqn:E; simpl.
  - apply binary_search_Ok in E as (a & _ & He). unfold f in He. destruct (p a); done.
  - apply binary_search_Err in E as (Hl & Hlt & Hgt); [|done]. split; [done|].
    intros j a Hj. split.
    + intros Hpa. destruct (decide (j < i)%nat) as [|Hji]; [done|].
      specialize (Hgt j a ltac:(lia) Hj). unfold f in Hgt. by rewrite Hpa in Hgt.
    + intros Hji. specialize (Hlt j a Hji Hj). unfold f in Hlt. by destruct (p a).
Qed.

(** ** Sorting and deduplication *)

Section Sorting.
Context {A : Type} `{EqDecision A, Ord A}.

Lemma elem_of_dedup (l : list A) a : a ∈ dedup l <-> a ∈ l.
Proof.
  induction l as [|x [|y l] IH]; [done|done|].
  change (dedup (x :: y :: l)) with
    (if decide (x = y) then dedup (y :: l) else x :: dedup (y :: l)).
  destruct (decide (x = y)) as [->|]; set_solver.
Qed.

Lemma dedup_strict (l : list A) :
  StronglySorted key_le l -> StronglySorted key_lt (dedup l).
Proof.
  induction l as [|x [|y l] IH]; intros Hs; [constructor|repeat constructor|].
  change (dedup (x :: y :: l)) with
    (if decide (x = y) then dedup (y :: l) else x :: dedup (y :: l)).
  inversion Hs as [|? ? Hs' Hx]; subst.
  destruct (decide (x = y)) as [->|Hne]; [by apply IH|].
  constructor; [by apply IH|]. rewrite Forall_forall in Hx |- *.
  intros z Hz. rewrite elem_of_dedup in Hz.
  assert (Hxy : key_lt x y).
  { assert (key_le x y) as [|]%key_le_lt_eq; [apply Hx; left|done|done]. }
  apply elem_of_cons in Hz as [->|Hz]; [done|].
  inversion Hs' as [|? ? _ Hy]; subst. rewrite Forall_forall in Hy.
  assert (key_le y z) as [|]%key_le_lt_eq by (by apply Hy); [by etrans|congruence].
Qed.

Lemma sort_unstable_sorted (l : list A) : StronglySorted key_le (sort_unstable l).
Proof. apply Sorted_StronglySorted; [apply _|]. apply Sorted_merge_sort; apply _. Qed.

Lemma elem_of_sort_unstable (l : list A) a : a ∈ sort_unstable l <-> a ∈ l.
Proof. unfold sort_unstable. by rewrite merge_sort_Permutation. Qed.

Lemma strictly_sorted_lookup (l : list A) i j a b :
  StronglySorted key_lt l -> (i < j)%nat -> l !! i = Some a -> l !! j = Some b -> key_lt a b.
Proof.
  intros Hs. revert i j. induction Hs as [|x l Hs IH Hx]; intros i j Hij Ha Hb; [done|].
  destruct j as [|j]; [lia|]. destruct i as [|i]; simpl in *.
  - injection Ha as ->. rewrite Forall_forall in Hx. apply Hx. by eapply list_elem_of_lookup_2.
  - eapply IH; [|done..]. lia.
Qed.

(** On a strictly sorted slice [rfind] is the greatest element that satisfies the predicate. *)
Lemma rfind_None (p : A -> bool) (l : list A) :
  rfind p l = None <-> forall a, a ∈ l -> p a = false.
Proof.
  induction l as [|x l IH]; simpl; [split; [intros _ a Ha; set_solver|done]|].
  destruct (rfind p l) as [b|] eqn:E.
  - split; [done|]. intros Hall. assert (Some b = None); [|done].
    apply IH. intros a Ha. apply Hall. by right.
  - destruct (p x) eqn:Ex; split; try done.
    + intros Hall. specialize (Hall x ltac:(left)). congruence.
    + intros _ a [->|Ha]%elem_of_cons; [done|]. by apply IH.
Qed.

Lemma rfind_Some (p : A -> bool) (l : list A) b :
  StronglySorted key_lt l -> rfind p l = Some b ->
  b ∈ l /\ p b = true /\ forall a, a ∈ l -> p a = true -> key_le a b.
Proof.
  induction 1 as [|x l Hs IH Hx]; simpl; [done|].
  destruct (rfind p l) as [b'|] eqn:E.
  - intros [= ->]. destruct (IH eq_refl) as (Hin & Hp & Hmax).
    split_and!; [by right|done|]. intros a [->|Ha]%elem_of_cons Hpa; [|by apply Hmax].
    apply key_lt_le. rewrite Forall_forall in Hx. by apply Hx.
  - destruct (p x) eqn:Ex; [|done]. intros [= <-]. split_and!; [left|done|].
    intros a [->|Ha]%elem_of_cons Hpa; [apply key_le_lt_eq; by right|].
    apply (rfind_None p l) in Ha; [congruence|done].
Qed.

Lemma strictly_sorted_NoDup (l : list A) : StronglySorted key_lt l -> NoDup l.
Proof.
  induction 1 as [|x l Hs IH Hx]; constructor; [|done].
  intros Hin. rewrite Forall_forall in Hx. apply (key_lt_irrefl x). by apply Hx.
Qed.

Lemma strictly_sorted_unique (l k : list A) :
  StronglySorted key_lt l -> StronglySorted key_lt k -> (forall a, a ∈ l <-> a ∈ k) -> l = k.
Proof.
  intros Hl Hk Heq. eapply (StronglySorted_unique_strong key_lt); [|done|done|].
  - intros a b _ _ Hab Hba. exfalso. apply (key_lt_irrefl a). by etrans.
  - apply NoDup_Permutation; auto using strictly_sorted_NoDup.
Qed.

(** Searching a strictly sorted slice by the order is a membership test. *)
Lemma sorted_search_mem (l : list A) x :
  StronglySorted key_lt l -> is_ok (binary_search_by (fun c => cmp c x) l) = true <-> x ∈ l.
Proof.
  intros Hs. rewrite binary_search_is_ok.
  - split; [intros (a & Ha & ->%cmp_eq); done|].
    intros Hx. exists x. split; [done|]. by apply cmp_eq.
  - intros i j a b Hij Ha Hb.
    assert (Hab : key_lt a b) by (by eapply strictly_sorted_lookup).
    split; [|intros Hlt; by apply (key_lt_trans a b x)].
    intros Hgt. rewrite (cmp_opp x b). rewrite (cmp_opp x a) in Hgt.
    destruct (cmp x a) eqn:E; try done. by rewrite (cmp_lt_trans x a b E Hab).
Qed.
End Sorting.
