(* ===== verification/Words.v ===== *)
(** * Words

    [to_le_bytes], [from_le_bytes] and their big-endian counterparts at any width, and the framing
    lemmas the codecs share. *)
From S2P Require Import Prelude.

Local Open Scope Z_scope.

Fixpoint to_le (n : nat) (z : Z) : bytes :=
  match n with
  | O => []
  | S n' => byte_of z :: to_le n' (z / 256)
  end.
Fixpoint of_le (bs : bytes) : Z :=
  match bs with
  | [] => 0
  | b :: bs' => byte_val b + 256 * of_le bs'
  end.
Definition to_be (n : nat) (z : Z) : bytes := reverse (to_le n z).
Definition of_be (bs : bytes) : Z := of_le (reverse bs).

(** [u32::to_le_bytes] and [u64::to_le_bytes]. *)
Definition u16_le : Z -> bytes := to_le 2.
Definition u32_le : Z -> bytes := to_le 4.
Definition u64_le : Z -> bytes := to_le 8.
Definition u32_be : Z -> bytes := to_be 4.
Arguments u16_le : simpl never.
Arguments u32_le : simpl never.
Arguments u64_le : simpl never.
Arguments u32_be : simpl never.

Lemma length_to_le n z : length (to_le n z) = n.
Proof. revert z; induction n; intros; simpl; auto. Qed.
Lemma length_to_be n z : length (to_be n z) = n.
Proof. unfold to_be. by rewrite length_reverse, length_to_le. Qed.

Lemma length_u16_le z : length (u16_le z) = 2%nat.
Proof. apply length_to_le. Qed.
Lemma length_u32_le z : length (u32_le z) = 4%nat.
Proof. apply length_to_le. Qed.
Lemma length_u64_le z : length (u64_le z) = 8%nat.
Proof. apply length_to_le. Qed.
Lemma length_u32_be z : length (u32_be z) = 4%nat.
Proof. apply length_to_be. Qed.

(** The widths of encoded fields, for [autorewrite]. *)
Create Rewrite HintDb words.
#[export] Hint Rewrite @length_app length_to_le length_to_be length_u16_le length_u32_le
  length_u64_le length_u32_be : words.
Ltac words := autorewrite with words; simpl; try lia; try done.

Lemma byte_val_mod z : byte_val (byte_of z) = z mod 256.
Proof.
  pose proof (Z.mod_pos_bound z 256 ltac:(lia)).
  rewrite <- (byte_val_of (z mod 256)) by lia.
  unfold byte_of. by rewrite Z.mod_mod by lia.
Qed.

Lemma of_le_to_le n z : 0 <= z < 256 ^ Z.of_nat n -> of_le (to_le n z) = z.
Proof.
  revert z; induction n as [|n IH]; intros z Hz; cbn [to_le of_le].
  - change (256 ^ Z.of_nat 0) with 1 in Hz. lia.
  - rewrite IH, byte_val_mod.
    + pose proof (Z.div_mod z 256 ltac:(lia)). lia.
    + rewrite Nat2Z.inj_succ, Z.pow_succ_r in Hz by lia.
      split; [apply Z.div_pos; lia | apply Z.div_lt_upper_bound; lia].
Qed.

Lemma of_le_range bs : 0 <= of_le bs < 256 ^ zlen bs.
Proof.
  unfold zlen. induction bs as [|b bs IH]; cbn [of_le length].
  - change (256 ^ Z.of_nat 0) with 1. lia.
  - rewrite Nat2Z.inj_succ, Z.pow_succ_r by lia. pose proof (byte_val_range b). lia.
Qed.

Lemma to_le_of_le bs : to_le (length bs) (of_le bs) = bs.
Proof.
  induction bs as [|b bs IH]; cbn [of_le to_le length]; [done|].
  pose proof (byte_val_range b) as Hb. f_equal.
  - apply byte_val_inj. rewrite byte_val_mod.
    rewrite (Z.mul_comm 256), Z_mod_plus_full. apply Z.mod_small. lia.
  - rewrite (Z.mul_comm 256), Z.div_add by lia.
    rewrite (Z.div_small (byte_val b)) by lia. exact IH.
Qed.

Lemma to_le_inj n a b :
  0 <= a < 256 ^ Z.of_nat n -> 0 <= b < 256 ^ Z.of_nat n -> to_le n a = to_le n b -> a = b.
Proof.
  intros Ha Hb He. rewrite <- (of_le_to_le n a Ha), <- (of_le_to_le n b Hb). by rewrite He.
Qed.

Lemma to_be_inj n a b :
  0 <= a < 256 ^ Z.of_nat n -> 0 <= b < 256 ^ Z.of_nat n -> to_be n a = to_be n b -> a = b.
Proof. intros Ha Hb He. apply (to_le_inj n); [done..|]. by apply (inj reverse) in He. Qed.

(** [u32] values fit four bytes and [u64] values eight. *)
Lemma u32_width z : is_u32 z <-> 0 <= z < 256 ^ Z.of_nat 4.
Proof. unfold is_u32, u32_max. change (256 ^ Z.of_nat 4) with 4294967296. lia. Qed.
Lemma u64_width z : is_u64 z <-> 0 <= z < 256 ^ Z.of_nat 8.
Proof. unfold is_u64, u64_max. change (256 ^ Z.of_nat 8) with 18446744073709551616. lia. Qed.

Lemma u32_le_inj a b : is_u32 a -> is_u32 b -> u32_le a = u32_le b -> a = b.
Proof. rewrite !u32_width. apply to_le_inj. Qed.
Lemma u64_le_inj a b : is_u64 a -> is_u64 b -> u64_le a = u64_le b -> a = b.
Proof. rewrite !u64_width. apply to_le_inj. Qed.
Lemma u32_be_inj a b : is_u32 a -> is_u32 b -> u32_be a = u32_be b -> a = b.
Proof. rewrite !u32_width. apply to_be_inj. Qed.

(** A field of fixed width splits off an encoding without ambiguity. *)
Lemma fixed_app_inj {A} (a b k l : list A) :
  length a = length b -> a ++ k = b ++ l -> a = b /\ k = l.
Proof. intros Hl He. by apply app_inj_1 in He. Qed.
