(* ===== verification/State.v ===== *)
(** * Portable state identity

    [orbitkv-state]: the cache key and its group framing ([key.rs]), the replica metadata
    ([discovery.rs]) and the inventory scope and records ([inventory.rs]). *)
From S2P Require Import Prelude Containers Slices Words.

Local Open Scope Z_scope.
Local Open Scope rust_scope.

(** ** Keys *)

(** The materialised cache key: [derive(Ord)] compares the namespace first. *)
Record StateKey := mkStateKey { namespace : bytes; hash : bytes }.

#[export] Instance StateKey_eq_dec : EqDecision StateKey.
Proof. solve_decision. Defined.
Definition StateKey_pair (k : StateKey) : bytes * bytes := (namespace k, hash k).
#[export] Program Instance StateKey_countable : Countable StateKey :=
  inj_countable' StateKey_pair (fun p => mkStateKey p.1 p.2) _.
Next Obligation. by intros []. Qed.
Lemma StateKey_pair_inj k1 k2 : StateKey_pair k1 = StateKey_pair k2 -> k1 = k2.
Proof. destruct k1, k2. unfold StateKey_pair. simpl. congruence. Qed.
#[export] Instance StateKey_ord : Ord StateKey := ord_by StateKey_pair StateKey_pair_inj.

(** The group and the length are framed before the engine hash. *)
Definition group_hash (h : bytes) (group_id : Z) : bytes :=
  (str "OKS" ++ [byte_of 1]) ++ u32_le group_id ++ u64_le (zlen h) ++ h.

Definition is_ascii_digit (b : byte) : bool := (48 <=? byte_val b) && (byte_val b <=? 57).
Definition is_lower_hex_letter (b : byte) : bool := (97 <=? byte_val b) && (byte_val b <=? 102).

Fixpoint strip_prefix (p s : bytes) : option bytes :=
  match p, s with
  | [], _ => Some s
  | a :: p', b :: s' => if decide (a = b) then strip_prefix p' s' else None
  | _ :: _, [] => None
  end.

Definition is_storage_namespace (ns : bytes) : bool :=
  match strip_prefix (str "orbitkv:v2:") ns with
  | Some digest =>
      (zlen digest =? 64) && forallb (fun b => is_ascii_digit b || is_lower_hex_letter b) digest
  | None => false
  end.

(** What SHA-256 is given: the domain, the generation, the framed hash. *)
Definition generation_preimage (h generation : bytes) : bytes :=
  (str "orbitkv.prefix-generation.v1" ++ [byte_of 0]) ++ generation ++ u64_le (zlen h) ++ h.
Definition generation_hash (sha256 : bytes -> bytes) (h generation : bytes) : bytes :=
  sha256 (generation_preimage h generation).

(** ** Formats and replicas *)

Inductive Scalar16 := Bf16 | Fp16.
Inductive AttentionRole := Key | Value | KeyValue | PackedKeyValue.
Inductive StorageFormat :=
| Exact
| Fp8FromBf16
| Fp8FromFp16
| Attention (scalar : Scalar16) (role : AttentionRole) (head_dim layer_index layer_count : Z)
| FAns
| Ans16
| AnsFp8
| Fp8Native
| FTurboQuant (scalar : Scalar16) (role : AttentionRole) (head_dim seed bits : Z).

Inductive ReplicaMedium := MUnknown | Dram | Ssd | Hbm.
Inductive ReplicaRepresentation := RUnknown | Raw | Ans | Fp8 | TurboQuant | Mixed.

(** [From<StorageFormat> for ReplicaRepresentation]. *)
Definition representation_of (format : StorageFormat) : ReplicaRepresentation :=
  match format with
  | FAns | Ans16 | AnsFp8 => Ans
  | Fp8FromBf16 | Fp8FromFp16 => Fp8
  | FTurboQuant _ _ _ _ _ => TurboQuant
  | _ => Raw
  end.

Record ReplicaMetadata := mkMetadata {
  medium : ReplicaMedium;
  representation : ReplicaRepresentation;
  stored_bytes : option Z
}.

(** A runtime identity: [uuid::Uuid] is a 128-bit value, compared as a big-endian number; the nil
    identifier is zero. *)
Abbreviation Uuid := Z (only parsing).
Definition nil_uuid : Uuid := 0.
Definition is_nil (u : Uuid) : bool := u =? 0.

Record CacheOwner := mkOwner { endpoint : bytes; incarnation : Uuid }.

Record ReplicaLocation := mkLocation {
  loc_owner : CacheOwner;
  loc_sequence : Z;
  loc_metadata : ReplicaMetadata
}.
Inductive DiscoveryCoverage := CompleteAtWatermarks | PartialHints | Unavailable.
Record BlockCandidates := mkCandidates {
  cand_key : StateKey;
  cand_replicas : list ReplicaLocation;
  cand_coverage : DiscoveryCoverage
}.

#[export] Instance Scalar16_eq_dec : EqDecision Scalar16.
Proof. solve_decision. Defined.
#[export] Instance AttentionRole_eq_dec : EqDecision AttentionRole.
Proof. solve_decision. Defined.
#[export] Instance StorageFormat_eq_dec : EqDecision StorageFormat.
Proof. solve_decision. Defined.
#[export] Instance ReplicaMedium_eq_dec : EqDecision ReplicaMedium.
Proof. solve_decision. Defined.
#[export] Instance ReplicaRepresentation_eq_dec : EqDecision ReplicaRepresentation.
Proof. solve_decision. Defined.
#[export] Instance ReplicaMetadata_eq_dec : EqDecision ReplicaMetadata.
Proof. solve_decision. Defined.
#[export] Instance DiscoveryCoverage_eq_dec : EqDecision DiscoveryCoverage.
Proof. solve_decision. Defined.
#[export] Instance CacheOwner_eq_dec : EqDecision CacheOwner.
Proof. solve_decision. Defined.
Definition CacheOwner_pair (o : CacheOwner) : bytes * Z := (endpoint o, incarnation o).
#[export] Program Instance CacheOwner_countable : Countable CacheOwner :=
  inj_countable' CacheOwner_pair (fun p => mkOwner p.1 p.2) _.
Next Obligation. by intros []. Qed.
Lemma CacheOwner_pair_inj o1 o2 : CacheOwner_pair o1 = CacheOwner_pair o2 -> o1 = o2.
Proof. destruct o1, o2. unfold CacheOwner_pair. simpl. congruence. Qed.
#[export] Instance CacheOwner_ord : Ord CacheOwner := ord_by CacheOwner_pair CacheOwner_pair_inj.

Definition DISCOVERY_MAX_KEYS : Z := 128.
Definition DISCOVERY_MAX_BYTES : Z := 64 * 1024.
Definition DISCOVERY_MAX_REPLICAS_PER_MEDIUM : Z := 4.
Definition DISCOVERY_MAX_ENDPOINT_BYTES : Z := 4096.

Fixpoint discovery_bytes (bytes_so_far : Z) (hashes : list bytes) : result Z string :=
  match hashes with
  | [] => Ok bytes_so_far
  | h :: rest =>
      match h with
      | [] => Err "empty discovery hash"%string
      | _ => let? total := ok_or (checked_add bytes_so_far (zlen h)) "discovery size overflow"%string in
             discovery_bytes total rest
      end
  end.

Definition validate_discovery_query (ns : bytes) (hashes : list bytes) : result unit string :=
  if (zlen ns =? 0) || (zlen hashes =? 0) || (DISCOVERY_MAX_KEYS <? zlen hashes)
  then Err "invalid discovery key count or namespace"%string
  else let? total := discovery_bytes (zlen ns) hashes in
       if DISCOVERY_MAX_BYTES <? total
       then Err "discovery query byte limit exceeded"%string else Ok tt.

(** ** Inventory scope and records *)

Definition INVENTORY_BATCH_BYTES : Z := 512 * 1024.
Definition INVENTORY_BATCH_RECORDS : Z := 1024.
Definition INVENTORY_OPEN_MAX_BYTES : Z := 64 * 1024.
Definition INVENTORY_SCOPE_MAX_NAMESPACES : Z := 256.
Definition INVENTORY_SCOPE_DOMAIN : bytes := str "orbitkv/inventory-scope/v1" ++ [byte_of 0].

Inductive InventoryScope := AllNamespaces | ExactNamespaces (namespaces : list bytes).

#[export] Instance InventoryScope_eq_dec : EqDecision InventoryScope.
Proof. solve_decision. Defined.

Definition framed (ns : bytes) : bytes := u32_be (wrap32 (zlen ns)) ++ ns.
Arguments framed : simpl never.
Definition canonical_bytes (scope : InventoryScope) : bytes :=
  INVENTORY_SCOPE_DOMAIN ++
  match scope with
  | AllNamespaces => [byte_of 0]
  | ExactNamespaces nss => [byte_of 1] ++ u32_be (wrap32 (zlen nss)) ++ concat (framed <$> nss)
  end.

Definition exact (nss : list bytes) : result InventoryScope string :=
  if existsb (fun ns => zlen ns =? 0) nss
  then Err "inventory scope contains an empty namespace"%string
  else
    let nss := dedup (sort_unstable nss) in
    if INVENTORY_SCOPE_MAX_NAMESPACES <? zlen nss
    then Err "inventory scope exceeds 256 namespaces"%string
    else
      let scope := ExactNamespaces nss in
      if INVENTORY_OPEN_MAX_BYTES <? zlen (canonical_bytes scope)
      then Err "inventory scope descriptor exceeds 65536 bytes"%string
      else Ok scope.

Definition contains (scope : InventoryScope) (ns : bytes) : bool :=
  match scope with
  | AllNamespaces => true
  | ExactNamespaces nss => is_ok (binary_search_by (fun candidate => cmp candidate ns) nss)
  end.

Definition label (scope : InventoryScope) : string :=
  match scope with
  | AllNamespaces => "all_namespaces"
  | ExactNamespaces [] => "no_namespaces"
  | ExactNamespaces _ => "exact_namespaces"
  end%string.

Record InventoryFence := mkFence {
  protocol : bytes;
  cluster_uuid : Uuid;
  source_node_epoch : Z;
  source_incarnation : Uuid;
  inventory_sequence : Z
}.

Record InventoryRecord := mkRecord {
  key : StateKey;
  sequence : Z;
  present : bool;
  metadata : option ReplicaMetadata
}.
#[export] Instance InventoryRecord_eq_dec : EqDecision InventoryRecord.
Proof. solve_decision. Defined.

(** The compiler chooses [size_of::<InventoryRecord>()]; it is an argument. *)
Definition record_estimated_size (size_of_record : Z) (r : InventoryRecord) : Z :=
  size_of_record + zlen (namespace (key r)) + zlen (hash (key r)).

(** ** Identity is injective *)

(** Group framing is unambiguous: two engine hashes in two 32-bit groups have the same stored
    key hash only if both the group and the hash are the same, whatever the hash lengths. *)
Theorem group_hash_injective h1 h2 g1 g2 :
  is_u32 g1 -> is_u32 g2 -> group_hash h1 g1 = group_hash h2 g2 -> h1 = h2 /\ g1 = g2.
Proof.
  intros Hg1 Hg2 He. unfold group_hash in He.
  apply app_inv_head in He. apply fixed_app_inj in He as [Hg He]; [|by words].
  apply fixed_app_inj in He as [_ ->]; [|by words].
  split; [done|]. by apply u32_le_inj.
Qed.

Lemma group_hash_injective_witness : str "ab" = [byte_of 97; byte_of 98] /\ 7 = 7.
Proof.
  apply (group_hash_injective (str "ab") [byte_of 97; byte_of 98] 7 7);
    [unfold is_u32, u32_max; lia..|vm_compute; reflexivity].
Defined.

(** A reset isolates cached state: the digest input determines the hash and the generation. *)
Lemma generation_preimage_inj h1 h2 g1 g2 :
  zlen g1 = 16 -> zlen g2 = 16 ->
  generation_preimage h1 g1 = generation_preimage h2 g2 -> h1 = h2 /\ g1 = g2.
Proof.
  unfold zlen. intros Hg1 Hg2 He. unfold generation_preimage in He.
  apply app_inv_head in He. apply fixed_app_inj in He as [Hg He]; [|lia].
  by apply fixed_app_inj in He as [_ ->]; [|by words].
Qed.

(** ** The scope *)

Lemma framed_app_inj a b k l :
  is_u32 (zlen a) -> is_u32 (zlen b) -> framed a ++ k = framed b ++ l -> a = b /\ k = l.
Proof.
  intros Ha Hb He. unfold framed in He. rewrite !wrap32_id in He by done.
  rewrite <- !app_assoc in He.
  apply fixed_app_inj in He as [Hlen He]; [|by words].
  apply u32_be_inj in Hlen; [|done..]. apply fixed_app_inj in He; [done|].
  unfold zlen in Hlen. lia.
Qed.

Lemma concat_framed_inj (l k : list bytes) :
  Forall (fun ns => is_u32 (zlen ns)) l -> Forall (fun ns => is_u32 (zlen ns)) k ->
  length l = length k -> concat (framed <$> l) = concat (framed <$> k) -> l = k.
Proof.
  intros Hl. revert k. induction Hl as [|a l Ha Hl IH]; intros [|b k] Hk Hlen He; try done.
  inversion Hk; subst. rewrite !fmap_cons in He. cbn [concat] in He. apply framed_app_inj in He as [-> He]; [|done..].
  f_equal. apply IH; [done| |done]. simpl in Hlen. lia.
Qed.

Lemma zlen_framed ns : zlen (framed ns) = 4 + zlen ns.
Proof. unfold framed. rewrite zlen_app. unfold zlen at 1. by rewrite length_u32_be. Qed.

Lemma zlen_concat_framed (l : list bytes) a :
  a ∈ l -> zlen a <= zlen (concat (framed <$> l)).
Proof.
  induction 1 as [a l|a b l Hin IH]; rewrite fmap_cons; cbn [concat]; rewrite zlen_app;
    pose proof (zlen_nonneg (concat (framed <$> l))).
  - rewrite zlen_framed. lia.
  - pose proof (zlen_nonneg (framed b)). lia.
Qed.

(** The widths [exact] guarantees. *)
Definition scope_bounded (scope : InventoryScope) : Prop :=
  match scope with
  | AllNamespaces => True
  | ExactNamespaces nss => is_u32 (zlen nss) /\ Forall (fun ns => is_u32 (zlen ns)) nss
  end.

Lemma canonical_bytes_inj s1 s2 :
  scope_bounded s1 -> scope_bounded s2 -> canonical_bytes s1 = canonical_bytes s2 -> s1 = s2.
Proof.
  intros H1 H2 He. unfold canonical_bytes in He. apply app_inv_head in He.
  destruct s1 as [|l], s2 as [|k]; try done; simpl in H1, H2.
  destruct H1 as [Hl1 Hf1], H2 as [Hl2 Hf2]. f_equal.
  apply (app_inv_head [byte_of 1]) in He.
  rewrite !wrap32_id in He by done.
  apply fixed_app_inj in He as [Hlen He]; [|by words].
  apply u32_be_inj in Hlen; [|done..]. apply concat_framed_inj; [done..| |done].
  unfold zlen in Hlen. lia.
Qed.

(** What a successful [exact] returns. *)
Lemma exact_Ok nss scope :
  exact nss = Ok scope ->
  exists l, scope = ExactNamespaces l /\ StronglySorted key_lt l /\
    (forall ns, ns ∈ l <-> ns ∈ nss) /\ zlen l <= INVENTORY_SCOPE_MAX_NAMESPACES /\
    zlen (canonical_bytes scope) <= INVENTORY_OPEN_MAX_BYTES.
Proof.
  unfold exact. destruct (existsb _ _); [done|].
  destruct (_ <? _) eqn:E1; [done|]. destruct (INVENTORY_OPEN_MAX_BYTES <? _) eqn:E2; [done|].
  intros [= <-]. apply Z.ltb_ge in E1, E2. eexists. split; [done|]. split_and!; try done.
  - apply dedup_strict, sort_unstable_sorted.
  - intros ns. by rewrite elem_of_dedup, elem_of_sort_unstable.
Qed.

Lemma exact_bounded nss scope : exact nss = Ok scope -> scope_bounded scope.
Proof.
  intros (l & -> & _ & _ & Hl & Hc)%exact_Ok. simpl.
  unfold INVENTORY_SCOPE_MAX_NAMESPACES, INVENTORY_OPEN_MAX_BYTES in *.
  split; [unfold is_u32, u32_max; pose proof (zlen_nonneg l); lia|].
  apply Forall_forall. intros ns Hns. apply zlen_concat_framed in Hns.
  unfold canonical_bytes in Hc. rewrite !zlen_app in Hc.
  pose proof (zlen_nonneg ns). pose proof (zlen_nonneg INVENTORY_SCOPE_DOMAIN).
  pose proof (zlen_nonneg [byte_of 1]). pose proof (zlen_nonneg (u32_be (wrap32 (zlen l)))).
  unfold is_u32, u32_max. lia.
Qed.

(** A scope built from requested namespaces admits exactly those: the binary search of
    [contains] is a membership test, whatever the order and repetitions of the request. *)
Theorem scope_contains_exactly nss scope ns :
  exact nss = Ok scope -> contains scope ns = true <-> ns ∈ nss.
Proof.
  intros (l & -> & Hs & Hin & _)%exact_Ok. cbn [contains].
  rewrite (sorted_search_mem l ns) by done. apply Hin.
Qed.

Lemma scope_contains_exactly_witness :
  contains (ExactNamespaces [str "a"; str "b"]) (str "b") = true <->
  str "b" ∈ [str "b"; str "a"; str "b"].
Proof. apply (scope_contains_exactly [str "b"; str "a"; str "b"]). vm_compute. reflexivity. Defined.

(** The canonical bytes that are digested and compared between peers identify the scope:
    two requests that [exact] accepts have equal canonical bytes only if they ask for the same
    set of namespaces. *)
Theorem canonical_bytes_identify nss1 nss2 s1 s2 :
  exact nss1 = Ok s1 -> exact nss2 = Ok s2 ->
  canonical_bytes s1 = canonical_bytes s2 <-> (forall ns, ns ∈ nss1 <-> ns ∈ nss2).
Proof.
  intros H1 H2. pose proof (exact_bounded _ _ H1). pose proof (exact_bounded _ _ H2).
  apply exact_Ok in H1 as (l1 & -> & Hs1 & Hin1 & _). apply exact_Ok in H2 as (l2 & -> & Hs2 & Hin2 & _).
  split.
  - intros [= ->]%canonical_bytes_inj ns; [|done..]. by rewrite <- Hin1, <- Hin2.
  - intros Heq. f_equal. f_equal. apply strictly_sorted_unique; [done..|].
    intros ns. by rewrite Hin1, Hin2.
Qed.

Lemma canonical_bytes_identify_witness :
  canonical_bytes (ExactNamespaces [str "a"; str "b"]) =
    canonical_bytes (ExactNamespaces [str "a"; str "b"]) <->
  (forall ns, ns ∈ [str "b"; str "a"] <-> ns ∈ [str "a"; str "b"; str "a"]).
Proof. apply canonical_bytes_identify; vm_compute; reflexivity. Defined.

(** ** Discovery *)

Lemma discovery_bytes_Ok start hashes total :
  discovery_bytes start hashes = Ok total ->
  Forall (fun h => 0 < zlen h) hashes /\ total = start + list_sum zlen hashes.
Proof.
  revert start. induction hashes as [|h hashes IH]; intros start; simpl.
  - intros [= <-]. unfold list_sum. simpl. split; [constructor|lia].
  - destruct h as [|b h]; [done|]. unfold checked_add.
    destruct (_ <=? _) eqn:E; [|done]. cbn [ok_or].
    intros [Hf ->]%IH. split; [constructor; [unfold zlen; simpl; lia|done]|].
    unfold list_sum. simpl. lia.
Qed.

Lemma discovery_bytes_complete start hashes :
  Forall (fun h => 0 < zlen h) hashes -> start + list_sum zlen hashes <= u64_max ->
  discovery_bytes start hashes = Ok (start + list_sum zlen hashes).
Proof.
  intros Hf. revert start. induction Hf as [|h hashes Hh Hf IH]; intros start Hb; simpl.
  - unfold list_sum. simpl. f_equal. lia.
  - destruct h as [|b h]; [unfold zlen in Hh; simpl in Hh; lia|].
    assert (0 <= list_sum zlen hashes) by (apply list_sum_nonneg; intros; apply zlen_nonneg).
    unfold list_sum in *. simpl in Hb. unfold checked_add.
    rewrite (proj2 (Z.leb_le _ _)) by lia. cbn [ok_or].
    rewrite IH by lia. f_equal. simpl. lia.
Qed.

(** A discovery query is accepted exactly when it has a namespace, between one and 128
    non-empty hashes, and at most 64 KiB of namespace and hash bytes in total. *)
Theorem discovery_query_accepted_iff ns hashes :
  validate_discovery_query ns hashes = Ok tt <->
  0 < zlen ns /\ 0 < zlen hashes <= DISCOVERY_MAX_KEYS /\ Forall (fun h => 0 < zlen h) hashes /\
  zlen ns + list_sum zlen hashes <= DISCOVERY_MAX_BYTES.
Proof.
  unfold validate_discovery_query.
  pose proof (zlen_nonneg ns). pose proof (zlen_nonneg hashes).
  destruct (_ || _ || _) eqn:E; [split; [done|lia]|]. split.
  - destruct (discovery_bytes _ _) as [total|] eqn:Ed; [|done].
    apply discovery_bytes_Ok in Ed as [Hf ->].
    intros Hq. destruct (_ <? _) eqn:Et in Hq; [done|]. split_and!; try lia. done.
  - intros (H1 & H2 & H3 & H4). rewrite discovery_bytes_complete; [|done|].
    + rewrite (proj2 (Z.ltb_ge _ _)) by lia. done.
    + unfold DISCOVERY_MAX_BYTES, u64_max in *. lia.
Qed.

(** ** Residences *)

(** Where a block lives at one owner: its key and its tier.  Ordered like the derived tuple. *)
Definition medium_index (m : ReplicaMedium) : Z :=
  match m with MUnknown => 0 | Dram => 1 | Ssd => 2 | Hbm => 3 end.
Lemma medium_index_inj m1 m2 : medium_index m1 = medium_index m2 -> m1 = m2.
Proof. by destruct m1, m2. Qed.
#[export] Instance ReplicaMedium_ord : Ord ReplicaMedium := ord_by medium_index medium_index_inj.
#[export] Program Instance ReplicaMedium_countable : Countable ReplicaMedium :=
  inj_countable medium_index
    (fun z => if z =? 0 then Some MUnknown else if z =? 1 then Some Dram
              else if z =? 2 then Some Ssd else if z =? 3 then Some Hbm else None) _.
Next Obligation. by intros []. Qed.

Abbreviation Residence := (StateKey * ReplicaMedium)%type.

(** The two tiers an owner may advertise. *)
Definition advertised (m : ReplicaMedium) : bool :=
  match m with Dram | Ssd => true | _ => false end.
