(* ===== verification/Recovery.v ===== *)
(** * Recovery contracts

    [orbitkv-state/src/bundle.rs]: an engine declares what each cache group needs to resume at a
    token boundary; the contract compiles the declaration into page demand, slices of a hash batch
    and the set of boundaries that offered evidence can restore. *)
From S2P Require Import Prelude Containers Slices State.

Local Open Scope Z_scope.
Local Open Scope rust_scope.

(** ** Data *)

Record TokenRange := mkRange { start : Z; end_ : Z }.
#[export] Instance TokenRange_eq_dec : EqDecision TokenRange.
Proof. solve_decision. Defined.

Inductive ContractError := InvalidTokenRange (start end_ : Z).
Definition TokenRange_new (s e : Z) : result TokenRange ContractError :=
  if e <? s then Err (InvalidTokenRange s e) else Ok (mkRange s e).
Definition TokenRange_len (r : TokenRange) : Z := u64_sub (end_ r) (start r).
Definition range_is_empty (r : TokenRange) : bool := start r =? end_ r.

Inductive StateComponent :=
| AttentionKv | MlaKv | RecurrentCheckpoint | ConvolutionState | SlidingWindowKv | DraftKv
| IndexerState | Opaque (name : bytes).

Inductive RecoveryRule := Prefix | Window (tokens : Z) | Checkpoint.

(** The components are a [BTreeSet]; only their presence and kind matter. *)
Record StateRequirement := mkRequirement {
  req_group : Z;
  req_components : list StateComponent;
  req_rule : RecoveryRule
}.

Record BundleComponent := mkComponent { comp_group : Z; page_ends : list Z }.
Record StateBundle := mkBundle {
  bundle_namespace : bytes;
  bundle_span : TokenRange;
  bundle_components : list BundleComponent
}.
Record RecoveryDemand := mkDemand {
  demand_page_tokens : Z;
  demand_span : TokenRange;
  demand_groups : list (Z * TokenRange)
}.

Inductive RecoveryError :=
| InvalidContract (why : string)
| IncompatibleNamespace
| InvalidSpan
| InvalidGroup (group : Z)
| InvalidCoverage (group : Z).

(** [None] keeps the full queried tail, [Some n] its last [n] pages. *)
Record RecoveryContract := mkContract {
  rc_namespace : bytes;
  rc_page_tokens : Z;
  rc_requirements : gmap Z (option Z)
}.

(** ** [RecoveryDemand::validate] *)

(** The loop over the declared groups carries the previous group and the selected page count. *)
Fixpoint validate_groups (d : RecoveryDemand) (group : Z) (gs : list (Z * TokenRange))
    (previous selected : option Z) : result (option Z) RecoveryError :=
  match gs with
  | [] => Ok selected
  | (id, range) :: rest =>
      if match previous with Some p => id <=? p | None => false end
      then Err (InvalidGroup id)
      else if (start range <? start (demand_span d))
           || (end_ range <? start range)
           || negb (end_ range =? end_ (demand_span d))
           || negb (is_multiple_of (start range) (demand_page_tokens d))
           || (range_is_empty range && negb (range_is_empty (demand_span d)))
      then Err (InvalidCoverage id)
      else
        let selected := if id =? group
                        then Some (u64_sub (end_ range) (start range) / demand_page_tokens d)
                        else selected in
        validate_groups d group rest (Some id) selected
  end.

Definition validate (d : RecoveryDemand) (group blocks : Z) : result unit RecoveryError :=
  let span := demand_span d in
  let pt := demand_page_tokens d in
  if (pt =? 0) || (end_ span <? start span)
     || negb (is_multiple_of (start span) pt) || negb (is_multiple_of (end_ span) pt)
  then Err InvalidSpan
  else if negb (bool_decide (head (demand_groups d) = Some (0, span)))
  then Err (InvalidGroup 0)
  else
    let? selected := validate_groups d group (demand_groups d) None None in
    let? pages := ok_or selected (InvalidGroup group) in
    if blocks =? pages then Ok tt else Err (InvalidCoverage group).

(** ** [RecoveryContract] *)

Definition compatible (rule : RecoveryRule) (component : StateComponent) : bool :=
  match rule, component with
  | Prefix, (AttentionKv | MlaKv) => true
  | Window _, SlidingWindowKv => true
  | Checkpoint, (RecurrentCheckpoint | ConvolutionState) => true
  | _, _ => false
  end.

Fixpoint compile_rules (page_tokens : Z) (reqs : list StateRequirement) (rules : gmap Z (option Z))
    : result (gmap Z (option Z)) RecoveryError :=
  match reqs with
  | [] => Ok rules
  | r :: rest =>
      if zlen (req_components r) =? 0
      then Err (InvalidContract "group has no state components"%string)
      else if negb (forallb (compatible (req_rule r)) (req_components r))
      then Err (InvalidContract "unsupported component/recovery rule"%string)
      else if match req_rule r with
              | Window tokens =>
                  (tokens =? 0) ||
                  match checked_add tokens (u64_sub page_tokens 1) with None => true | _ => false end
              | _ => false
              end
      then Err (InvalidContract "invalid sliding window"%string)
      else
        let pages := match req_rule r with
                     | Prefix => None
                     | Window tokens => Some (div_ceil tokens page_tokens)
                     | Checkpoint => Some 1
                     end in
        match rules !! req_group r with
        | Some _ => Err (InvalidGroup (req_group r))
        | None => compile_rules page_tokens rest (<[req_group r := pages]> rules)
        end
  end.

Definition compile (ns : bytes) (page_tokens : Z) (reqs : list StateRequirement)
    : result RecoveryContract RecoveryError :=
  if (zlen ns =? 0) || (page_tokens =? 0) || (zlen reqs =? 0)
  then Err (InvalidContract "empty identity, page size or requirements"%string)
  else
    let? rules := compile_rules page_tokens reqs ∅ in
    if bool_decide (rules !! 0 = Some None)
    then Ok (mkContract ns page_tokens rules)
    else Err (InvalidContract "group zero must supply the attention prefix"%string).

Definition required_span (c : RecoveryContract) (span : TokenRange) (pages : option Z) : TokenRange :=
  let count := Z.min (u64_sub (end_ span) (start span) / rc_page_tokens c)
                     (match pages with Some n => n | None => u64_max end) in
  mkRange (u64_sub (end_ span) (u64_mul count (rc_page_tokens c))) (end_ span).

Definition validate_span (c : RecoveryContract) (ns : bytes) (span : TokenRange)
    : result unit RecoveryError :=
  if negb (bool_decide (ns = rc_namespace c)) then Err IncompatibleNamespace
  else if (end_ span <? start span)
       || negb (is_multiple_of (start span) (rc_page_tokens c))
       || negb (is_multiple_of (end_ span) (rc_page_tokens c))
  then Err InvalidSpan
  else Ok tt.

Definition required_ranges (c : RecoveryContract) (ns : bytes) (span : TokenRange)
    : result (list (Z * TokenRange)) RecoveryError :=
  let? _ := validate_span c ns span in
  Ok ((fun '(group, pages) => (group, required_span c span pages)) <$> btree_items (rc_requirements c)).

Definition demand (c : RecoveryContract) (ns : bytes) (span : TokenRange)
    : result RecoveryDemand RecoveryError :=
  let? groups := required_ranges c ns span in
  Ok (mkDemand (rc_page_tokens c) span groups).

(** [usize::try_from] a [u64] cannot fail on the target. *)
Definition read_range (c : RecoveryContract) (ns : bytes) (span : TokenRange) (group batch_len : Z)
    : result (Z * Z) RecoveryError :=
  let? _ := validate_span c ns span in
  let? pages := ok_or (rc_requirements c !! group) (InvalidGroup group) in
  let needed := required_span c span pages in
  let s := u64_sub (start needed) (start span) / rc_page_tokens c in
  let e := u64_sub (end_ needed) (start span) / rc_page_tokens c in
  if batch_len <? e then Err InvalidSpan else Ok (s, e).

(** The page ends of a component are increasing, aligned and inside the span. *)
Fixpoint check_ends (c : RecoveryContract) (span : TokenRange) (group previous : Z) (ends : list Z)
    : result unit RecoveryError :=
  match ends with
  | [] => Ok tt
  | e :: rest =>
      if (e <=? previous) || (end_ span <? e) || negb (is_multiple_of e (rc_page_tokens c))
      then Err (InvalidCoverage group)
      else check_ends c span group e rest
  end.

Fixpoint collect_coverage (c : RecoveryContract) (span : TokenRange) (comps : list BundleComponent)
    (coverage : gmap Z (list Z)) : result (gmap Z (list Z)) RecoveryError :=
  match comps with
  | [] => Ok coverage
  | comp :: rest =>
      match rc_requirements c !! comp_group comp, coverage !! comp_group comp with
      | Some _, None =>
          let? _ := check_ends c span (comp_group comp) (start span) (page_ends comp) in
          collect_coverage c span rest (<[comp_group comp := page_ends comp]> coverage)
      | _, _ => Err (InvalidGroup (comp_group comp))
      end
  end.

Fixpoint check_groups (coverage : gmap Z (list Z)) (groups : list Z) : result unit RecoveryError :=
  match groups with
  | [] => Ok tt
  | g :: rest =>
      match coverage !! g with
      | Some _ => check_groups coverage rest
      | None => Err (InvalidGroup g)
      end
  end.

(** [coverage[group]]: present for every registered group once [check_groups] has passed. *)
Definition group_ends (coverage : gmap Z (list Z)) (group : Z) : list Z :=
  match coverage !! group with Some ends => ends | None => [] end.

Definition group_complete (c : RecoveryContract) (from boundary : Z) (pages : option Z)
    (ends : list Z) : bool :=
  let needed := required_span c (mkRange from boundary) pages in
  let first := Z.of_nat (partition_point (fun e => e <=? start needed) ends) in
  let last := Z.of_nat (partition_point (fun e => e <=? end_ needed) ends) in
  u64_sub last first =? u64_sub (end_ needed) (start needed) / rc_page_tokens c.

Definition complete (c : RecoveryContract) (coverage : gmap Z (list Z)) (from boundary : Z) : bool :=
  forallb (fun '(group, pages) => group_complete c from boundary pages (group_ends coverage group))
    (btree_items (rc_requirements c)).

(** The walk over group zero's page ends stops at the first gap. *)
Fixpoint walk (c : RecoveryContract) (coverage : gmap Z (list Z)) (from index : Z) (ends : list Z)
    : list Z :=
  match ends with
  | [] => []
  | boundary :: rest =>
      if negb (u64_sub boundary from / rc_page_tokens c =? index + 1) then []
      else if complete c coverage from boundary
           then boundary :: walk c coverage from (index + 1) rest
           else walk c coverage from (index + 1) rest
  end.

Definition restorable_boundaries (c : RecoveryContract) (b : StateBundle)
    : result (list Z) RecoveryError :=
  let span := bundle_span b in
  let? _ := validate_span c (bundle_namespace b) span in
  let? coverage := collect_coverage c span (bundle_components b) ∅ in
  let? _ := check_groups coverage (btree_keys (rc_requirements c)) in
  Ok (walk c coverage (start span) 0 (group_ends coverage 0)).

(** A hash position of a shard's hit becomes the absolute end of its page. *)
Definition page_end (c : RecoveryContract) (span : TokenRange) (group position : Z)
    : result Z RecoveryError :=
  match checked_add position 1 with
  | Some n => match checked_mul n (rc_page_tokens c) with
              | Some m => ok_or (checked_add m (start span)) (InvalidCoverage group)
              | None => Err (InvalidCoverage group)
              end
  | None => Err (InvalidCoverage group)
  end.

Definition shard_component (c : RecoveryContract) (span : TokenRange) (g : Z * list Z)
    : result BundleComponent RecoveryError :=
  let? ends := collect_results (page_end c span g.1) g.2 in Ok (mkComponent g.1 ends).

Definition shard_boundaries (c : RecoveryContract) (ns : bytes) (span : TokenRange)
    (shard : list (Z * list Z)) : result (list Z) RecoveryError :=
  let? components := collect_results (shard_component c span) shard in
  restorable_boundaries c (mkBundle ns span components).

(** [common] starts unset, then only retains what every further shard can restore. *)
Fixpoint intersect_shards (c : RecoveryContract) (ns : bytes) (span : TokenRange)
    (shards : list (list (Z * list Z))) (common : option (gset Z))
    : result (option (gset Z)) RecoveryError :=
  match shards with
  | [] => Ok common
  | shard :: rest =>
      let? boundaries := shard_boundaries c ns span shard in
      let legal : gset Z := list_to_set boundaries in
      let common := match common with
                    | Some cs => filter (fun e => e ∈ legal) cs
                    | None => legal
                    end in
      intersect_shards c ns span rest (Some common)
  end.

Definition common_boundaries (c : RecoveryContract) (ns : bytes) (span : TokenRange)
    (shards : list (list (Z * list Z))) : result (list Z) RecoveryError :=
  let? _ := validate_span c ns span in
  let? common := intersect_shards c ns span shards None in
  Ok (match common with Some cs => btree_elements cs | None => [] end).

Definition select_boundary (c : RecoveryContract) (ns : bytes) (span : TokenRange)
    (shards : list (list (Z * list Z))) (limit : Z) : result (option Z) RecoveryError :=
  let? common := common_boundaries c ns span shards in
  Ok (rfind (fun e => e <=? limit) common).

(** ** Aligned ranges *)

(** What [compile] establishes of a contract. *)
Definition contract_wf (c : RecoveryContract) : Prop :=
  0 < rc_page_tokens c <= u64_max /\ rc_requirements c !! 0 = Some None /\
  (forall g n, rc_requirements c !! g = Some (Some n) -> 1 <= n) /\
  (forall g, is_Some (rc_requirements c !! g) -> 0 <= g).

Definition aligned (c : RecoveryContract) (z : Z) : Prop := exists q, z = q * rc_page_tokens c.

(** A range of two [u64] page boundaries in order. *)
Definition range_ok (c : RecoveryContract) (r : TokenRange) : Prop :=
  0 <= start r <= end_ r /\ end_ r <= u64_max /\ aligned c (start r) /\ aligned c (end_ r).

(** Both ends of the range are [u64] values. *)
Definition range_u64 (r : TokenRange) : Prop := is_u64 (start r) /\ is_u64 (end_ r).

Section Aligned.
Context (c : RecoveryContract) (Hwf : contract_wf c).

Let pt := rc_page_tokens c.

Lemma pt_pos : 0 < pt.
Proof. apply Hwf. Qed.

Lemma aligned_spec z : is_multiple_of z pt = true <-> aligned c z.
Proof. apply is_multiple_of_spec, pt_pos. Qed.

Lemma validate_span_Ok ns span :
  range_u64 span ->
  validate_span c ns span = Ok tt <-> ns = rc_namespace c /\ range_ok c span.
Proof.
  intros [Hs He]. unfold validate_span, range_ok, is_u64 in *. fold pt.
  rewrite <- !aligned_spec. destruct (bool_decide_reflect (ns = rc_namespace c)); simpl.
  - destruct (is_multiple_of (start span) pt), (is_multiple_of (end_ span) pt),
      (end_ span <? start span) eqn:E; simpl; split; try done; intros; try lia; naive_solver lia.
  - naive_solver.
Qed.

(** Pages kept at a boundary: all of them, or at most the last [n]. *)
Definition kept (span : TokenRange) (pages : option Z) : Z :=
  Z.min ((end_ span - start span) / pt) (match pages with Some n => n | None => u64_max end).

Lemma span_pages span :
  range_ok c span -> end_ span - start span = (end_ span - start span) / pt * pt /\
    0 <= (end_ span - start span) / pt <= u64_max.
Proof.
  intros (H1 & H2 & [a Ha] & [b Hb]). pose proof pt_pos. fold pt in Ha, Hb.
  assert (Hq : end_ span - start span = (b - a) * pt) by lia.
  rewrite Hq, Z.div_mul by lia. assert (0 <= b - a) by nia.
  split; [done|]. split; [done|]. nia.
Qed.

Lemma kept_bounds span pages :
  range_ok c span -> (forall n, pages = Some n -> 1 <= n) ->
  0 <= kept span pages <= (end_ span - start span) / pt.
Proof.
  intros Hr Hn. destruct (span_pages span Hr) as [_ Hp]. unfold kept.
  destruct pages as [n|]; [specialize (Hn n eq_refl)|]; unfold u64_max; lia.
Qed.

Lemma kept_all span : range_ok c span -> kept span None = (end_ span - start span) / pt.
Proof. intros Hr. destruct (span_pages span Hr) as [_ Hp]. unfold kept. lia. Qed.

Lemma required_span_exact span pages :
  range_ok c span -> (forall n, pages = Some n -> 1 <= n) ->
  required_span c span pages = mkRange (end_ span - kept span pages * pt) (end_ span).
Proof.
  intros Hr Hn. pose proof (kept_bounds span pages Hr Hn) as Hk.
  destruct (span_pages span Hr) as [Hp _]. destruct Hr as (H1 & H2 & _).
  pose proof pt_pos. unfold required_span. fold pt.
  rewrite (u64_sub_exact (end_ span) (start span)) by lia. fold (kept span pages).
  assert (kept span pages * pt <= end_ span - start span) by nia.
  rewrite u64_mul_exact by nia. f_equal. apply u64_sub_exact; nia.
Qed.

Lemma required_span_ok span pages :
  range_ok c span -> (forall n, pages = Some n -> 1 <= n) ->
  range_ok c (required_span c span pages) /\ start span <= start (required_span c span pages) /\
  end_ (required_span c span pages) = end_ span /\
  end_ span - start (required_span c span pages) = kept span pages * pt.
Proof.
  intros Hr Hn. rewrite required_span_exact by done. pose proof (kept_bounds span pages Hr Hn).
  destruct (span_pages span Hr) as [Hp _]. pose proof pt_pos.
  destruct Hr as (H1 & H2 & H3 & [q Hq]). fold pt in Hq. simpl.
  unfold range_ok; simpl. split_and!; try nia; [|by exists q].
  exists (q - kept span pages). fold pt. nia.
Qed.

Lemma requirement_pos g pages n :
  rc_requirements c !! g = Some pages -> pages = Some n -> 1 <= n.
Proof. intros Hg ->. destruct Hwf as (_ & _ & Hn & _). eauto. Qed.
End Aligned.

(** ** Coverage by counting *)

Section Coverage.
Context (c : RecoveryContract) (Hwf : contract_wf c).
Let pt := rc_page_tokens c.

(** The page ends of the half-open token interval from [lo] to [hi]. *)
Definition pages_between (lo hi : Z) : list Z :=
  (fun i => lo + (Z.of_nat i + 1) * pt) <$> seq 0 (Z.to_nat ((hi - lo) / pt)).

Lemma elem_of_pages_between lo hi e :
  aligned c lo -> aligned c hi -> e ∈ pages_between lo hi <-> aligned c e /\ lo < e <= hi.
Proof.
  intros [a Ha] [b Hb]. pose proof (pt_pos c Hwf) as Hpt. fold pt in Ha, Hb, Hpt.
  unfold pages_between. rewrite list_elem_of_fmap.
  assert (Hq : (hi - lo) / pt = b - a).
  { replace (hi - lo) with ((b - a) * pt) by lia. apply Z.div_mul. lia. }
  rewrite Hq. split.
  - intros (i & -> & Hi%elem_of_seq). split; [exists (a + (Z.of_nat i + 1)); fold pt; lia|]. nia.
  - intros ([q Hq'] & He). fold pt in Hq'. exists (Z.to_nat (q - a - 1)).
    assert (a < q <= b) by nia. split; [nia|]. apply elem_of_seq. lia.
Qed.

Lemma NoDup_pages_between lo hi : NoDup (pages_between lo hi).
Proof.
  pose proof (pt_pos c Hwf) as Hpt. fold pt in Hpt.
  unfold pages_between. apply NoDup_fmap_2_strong; [|apply NoDup_seq]. intros. nia.
Qed.

Lemma length_pages_between lo hi : length (pages_between lo hi) = Z.to_nat ((hi - lo) / pt).
Proof. unfold pages_between. by rewrite length_fmap, length_seq. Qed.

(** Strictly increasing page ends, all aligned. *)
Definition ends_ok (ends : list Z) : Prop :=
  StronglySorted key_lt ends /\ Forall (aligned c) ends.

Lemma Z_key_lt (a b : Z) : key_lt a b <-> a < b.
Proof. unfold key_lt. simpl. apply Z.compare_lt_iff. Qed.

(** How many of the increasing ends are at most [z]. *)
Definition upto (z : Z) (ends : list Z) : nat := partition_point (fun e => e <=? z) ends.

Lemma partition_le ends z :
  ends_ok ends ->
  let n := upto z ends in
  (n <= length ends)%nat /\ forall j e, ends !! j = Some e -> (j < n)%nat <-> e <= z.
Proof.
  intros [Hs _]. destruct (partition_point_spec (fun e => e <=? z) ends) as [Hl Hj].
  - intros i j a b Hij Ha Hb Hbz.
    pose proof (proj1 (Z_key_lt a b) (strictly_sorted_lookup ends i j a b Hs Hij Ha Hb)). lia.
  - split; [done|]. intros j e He. rewrite <- (Hj j e He). apply Z.leb_le.
Qed.

(** The ends strictly after [lo] and up to [hi] are one segment of the slice. *)
Definition segment (ends : list Z) (lo hi : Z) : list Z :=
  drop (upto lo ends)
    (take (upto hi ends) ends).

Lemma elem_of_segment ends lo hi e :
  ends_ok ends -> e ∈ segment ends lo hi <-> e ∈ ends /\ lo < e <= hi.
Proof.
  intros Hok. destruct (partition_le ends lo Hok) as [_ Hlo].
  destruct (partition_le ends hi Hok) as [_ Hhi]. unfold segment.
  rewrite !list_elem_of_lookup. split.
  - intros (i & Hi). rewrite lookup_drop in Hi. apply lookup_take_Some in Hi as [Hi Hlt].
    split; [eauto|]. pose proof (proj1 (Hhi _ _ Hi) Hlt).
    destruct (decide (e <= lo)) as [Hle|]; [|lia]. apply (Hlo _ _ Hi) in Hle. lia.
  - intros ((i & Hi) & Hlt & Hle).
    assert (~ (i < upto lo ends)%nat)
      by (intros Hc; apply (Hlo _ _ Hi) in Hc; lia).
    exists (i - upto lo ends)%nat. rewrite lookup_drop.
    apply lookup_take_Some. replace (_ + _)%nat with i by lia. split; [done|]. by apply (Hhi _ _ Hi).
Qed.

Lemma length_slice ends lo hi :
  ends_ok ends ->
  Z.of_nat (length (segment ends lo hi)) =
    Z.max 0 (Z.of_nat (upto hi ends)
             - Z.of_nat (upto lo ends)).
Proof.
  intros Hok. destruct (partition_le ends hi Hok) as [Hl _].
  unfold segment. rewrite length_drop, length_take. lia.
Qed.

Lemma partition_mono ends lo hi :
  ends_ok ends -> lo <= hi ->
  (upto lo ends <= upto hi ends)%nat.
Proof.
  intros Hok Hle. destruct (partition_le ends lo Hok) as [Hl Hlo].
  destruct (partition_le ends hi Hok) as [Hl' Hhi].
  destruct (decide (upto lo ends = 0%nat)) as [->|]; [lia|].
  assert (is_Some (ends !! (upto lo ends - 1)%nat)) as [e He]
    by (apply lookup_lt_is_Some; lia).
  assert (e <= lo) by (apply (Hlo _ _ He); lia).
  assert (e <= hi) as Hh by lia. apply (Hhi _ _ He) in Hh. lia.
Qed.

(** Counting decides coverage: a segment has as many ends as the interval has pages exactly when
    every page end of the interval is present. *)
Lemma segment_full_iff ends lo hi :
  ends_ok ends -> aligned c lo -> aligned c hi -> lo <= hi ->
  Z.of_nat (length (segment ends lo hi)) = (hi - lo) / pt <->
  forall e, aligned c e -> lo < e <= hi -> e ∈ ends.
Proof.
  intros Hok Hlo Hhi Hle. pose proof (pt_pos c Hwf) as Hpt. fold pt in Hpt.
  assert (Hnd : NoDup (segment ends lo hi)).
  { eapply sublist_NoDup; [apply strictly_sorted_NoDup, Hok|].
    unfold segment. etrans; [apply sublist_drop|apply sublist_take]. }
  assert (Hsub : segment ends lo hi ⊆+ pages_between lo hi).
  { apply NoDup_submseteq; [done|]. intros e He%elem_of_segment; [|done].
    apply elem_of_pages_between; [done..|]. destruct Hok as [_ Hal], He as [He ?].
    rewrite Forall_forall in Hal. auto. }
  assert (Hlen : length (pages_between lo hi) = Z.to_nat ((hi - lo) / pt))
    by apply length_pages_between.
  assert (0 <= (hi - lo) / pt) by (apply Z.div_pos; lia).
  split.
  - intros Heq e He Hb. assert (Hin : e ∈ pages_between lo hi) by (by apply elem_of_pages_between).
    assert (Hperm : segment ends lo hi ≡ₚ pages_between lo hi)
      by (apply submseteq_length_Permutation; [done|lia]).
    rewrite <- Hperm in Hin. by apply elem_of_segment in Hin as [].
  - intros Hall.
    assert (Hsup : pages_between lo hi ⊆+ segment ends lo hi).
    { apply NoDup_submseteq; [apply NoDup_pages_between|]. intros e He.
      apply elem_of_pages_between in He as [He Hb]; [|done..]. apply elem_of_segment; auto. }
    apply submseteq_length in Hsub, Hsup. lia.
Qed.
End Coverage.

(** ** Restorable boundaries *)

Section Restorable.
Context (c : RecoveryContract) (Hwf : contract_wf c).
Let pt := rc_page_tokens c.

Lemma length_segment_le ends lo hi :
  ends_ok c ends -> aligned c lo -> aligned c hi -> lo <= hi ->
  Z.of_nat (length (segment ends lo hi)) <= (hi - lo) / pt.
Proof.
  intros Hok Hlo Hhi Hle. pose proof (pt_pos c Hwf) as Hpt.
  assert (0 <= (hi - lo) / pt) by (apply Z.div_pos; [lia|exact Hpt]).
  assert (Hsub : segment ends lo hi ⊆+ pages_between c lo hi).
  { apply NoDup_submseteq.
    - eapply sublist_NoDup; [apply strictly_sorted_NoDup, Hok|].
      unfold segment. etrans; [apply sublist_drop|apply sublist_take].
    - intros e He%(elem_of_segment c); [|done]. apply elem_of_pages_between; [done..|].
      destruct Hok as [_ Hal], He as [He ?]. rewrite Forall_forall in Hal. auto. }
  apply submseteq_length in Hsub. rewrite length_pages_between in Hsub. fold pt in Hsub. lia.
Qed.

Lemma group_complete_spec from boundary pages ends :
  range_ok c (mkRange from boundary) -> (forall n, pages = Some n -> 1 <= n) -> ends_ok c ends ->
  group_complete c from boundary pages ends = true <->
  forall e, aligned c e -> start (required_span c (mkRange from boundary) pages) < e <= boundary ->
    e ∈ ends.
Proof.
  intros Hr Hn Hok.
  destruct (required_span_ok c Hwf _ pages Hr Hn) as ((H1 & H2 & H3 & H4) & _ & He & _).
  unfold group_complete. set (needed := required_span _ _ _) in *.
  clearbody needed. simpl in He.
  rewrite <- (segment_full_iff c Hwf ends (start needed) boundary); [|done|done| |]; cycle 1.
  { by rewrite He in H4. }
  { lia. }
  rewrite Z.eqb_eq, <- He. pose proof (length_slice c ends (start needed) (end_ needed) Hok) as Hls.
  pose proof (partition_mono c ends (start needed) (end_ needed) Hok ltac:(lia)) as Hmono.
  pose proof (length_segment_le ends (start needed) (end_ needed) Hok H3 H4 ltac:(lia)).
  assert ((end_ needed - start needed) / pt <= u64_max).
  { pose proof (pt_pos c Hwf) as Hpt. fold pt in Hpt.
    apply Z.div_le_upper_bound; [done|]. unfold u64_max in *. nia. }
  rewrite (u64_sub_exact (end_ needed)) by lia. fold (upto (start needed) ends).
  fold (upto (end_ needed) ends). unfold u64_sub. rewrite wrap64_id by (unfold is_u64; lia).
  rewrite Hls.
  rewrite Z.max_r by lia. done.
Qed.

(** Every page that some registered group needs at the boundary is covered. *)
Definition covered (coverage : gmap Z (list Z)) (from boundary : Z) : Prop :=
  forall g pages, rc_requirements c !! g = Some pages ->
  forall e, aligned c e -> start (required_span c (mkRange from boundary) pages) < e <= boundary ->
    e ∈ group_ends coverage g.

Definition coverage_ok (coverage : gmap Z (list Z)) : Prop :=
  forall g, ends_ok c (group_ends coverage g).

Lemma complete_spec coverage from boundary :
  range_ok c (mkRange from boundary) -> coverage_ok coverage ->
  complete c coverage from boundary = true <-> covered coverage from boundary.
Proof.
  intros Hr Hok. unfold complete, covered. rewrite forallb_forall. split.
  - intros Hall g pages Hg. apply group_complete_spec; [done| |done|].
    + intros n. by eapply requirement_pos.
    + apply (Hall (g, pages)), list_elem_of_In, elem_of_btree_items, Hg.
  - intros Hall [g pages] Hin%list_elem_of_In%elem_of_btree_items.
    apply group_complete_spec; [done| |done|by apply Hall].
    intros n. by eapply requirement_pos.
Qed.

(** Group zero keeps the whole tail. *)
Lemma covered_prefix coverage from boundary e :
  range_ok c (mkRange from boundary) -> covered coverage from boundary ->
  aligned c e -> from < e <= boundary -> e ∈ group_ends coverage 0.
Proof.
  intros Hr Hc He Hb. destruct Hwf as (_ & H0 & _).
  apply (Hc 0 None H0 e He). rewrite required_span_exact by done. simpl.
  rewrite kept_all by done. destruct (span_pages c Hwf _ Hr) as [Hp _]. simpl in Hp.
  simpl. lia.
Qed.

(** Index of a dense prefix: the ends up to the [index]-th are all the pages after [from]. *)
Lemma dense_index ends from index x :
  ends_ok c ends -> aligned c from -> (forall e, e ∈ ends -> from < e) ->
  ends !! index = Some x ->
  (forall e, aligned c e -> from < e <= x -> e ∈ ends) -> (x - from) / pt = Z.of_nat index + 1.
Proof.
  intros Hok Hf Hgt Hx Hall. assert (Hxin : x ∈ ends) by (by eapply list_elem_of_lookup_2).
  assert (Hax : aligned c x) by (destruct Hok as [_ Ha]; rewrite Forall_forall in Ha; auto).
  pose proof (Hgt x Hxin). apply (segment_full_iff c Hwf) in Hall; [|done..|lia].
  fold pt in Hall. rewrite <- Hall, (length_slice c) by done.
  destruct (partition_le c ends from Hok) as [Hl Hlo].
  destruct (partition_le c ends x Hok) as [Hl' Hhi].
  fold (upto from ends) in Hl, Hlo. fold (upto x ends) in Hl', Hhi.
  assert (upto from ends = 0%nat).
  { destruct (decide (upto from ends = 0%nat)) as [|Hne]; [done|].
    assert (is_Some (ends !! 0%nat)) as [e He] by (apply lookup_lt_is_Some; lia).
    assert (e <= from) by (apply (Hlo _ _ He); lia).
    assert (from < e) by (apply Hgt; by eapply list_elem_of_lookup_2). lia. }
  assert (Hi : (index < upto x ends)%nat) by (apply (Hhi _ _ Hx); lia).
  destruct (decide (upto x ends = S index)) as [|Hne]; [lia|].
  assert (is_Some (ends !! S index)) as [e He] by (apply lookup_lt_is_Some; lia).
  assert (e <= x) by (apply (Hhi _ _ He); lia).
  destruct Hok as [Hs _].
  pose proof (proj1 (Z_key_lt _ _) (strictly_sorted_lookup ends index (S index) x e Hs ltac:(lia) Hx He)).
  lia.
Qed.

Lemma elem_of_walk coverage from limit index ends :
  coverage_ok coverage -> range_ok c (mkRange from limit) ->
  (forall e, e ∈ group_ends coverage 0 -> from < e <= limit) ->
  drop index (group_ends coverage 0) = ends ->
  forall b, b ∈ walk c coverage from (Z.of_nat index) ends <->
    b ∈ ends /\ covered coverage from b.
Proof.
  intros Hok Hr Hgt. pose proof Hr as (Hr1 & Hr2 & Hr3 & _). simpl in Hr1, Hr2, Hr3.
  pose proof (Hok 0) as [Hs0 Ha0]. rewrite Forall_forall in Ha0.
  assert (Hrb : forall x, x ∈ group_ends coverage 0 -> range_ok c (mkRange from x)).
  { intros x Hx. pose proof (Hgt x Hx). unfold range_ok; simpl. split_and!; auto; lia. }
  revert index. induction ends as [|x ends IH]; intros index Hd b; simpl; [set_solver|].
  assert (Hx : group_ends coverage 0 !! index = Some x).
  { rewrite <- (Nat.add_0_r index), <- lookup_drop, Hd. done. }
  assert (Hxin : x ∈ group_ends coverage 0) by (by eapply list_elem_of_lookup_2).
  assert (Hd' : drop (S index) (group_ends coverage 0) = ends).
  { rewrite <- (Nat.add_1_r index), <- drop_drop, Hd. done. }
  pose proof (Hgt x Hxin). rewrite (u64_sub_exact x from) by lia.
  replace (Z.of_nat index + 1) with (Z.of_nat (S index)) by lia.
  destruct (_ =? _) eqn:Eq; simpl; [|apply Z.eqb_neq in Eq].
  - destruct (complete c coverage from x) eqn:Ec.
    + apply complete_spec in Ec; [|auto..]. rewrite elem_of_cons, (IH _ Hd'), elem_of_cons.
      naive_solver.
    + rewrite (IH _ Hd'), elem_of_cons. split; [naive_solver|]. intros [[->|Hb] Hcov]; [|done].
      apply complete_spec in Hcov; [congruence|auto..].
  - split; [set_solver|]. intros [Hb Hcov]. exfalso. apply Eq.
    assert (Hbin : b ∈ group_ends coverage 0).
    { rewrite <- (take_drop index (group_ends coverage 0)), Hd. set_solver. }
    rewrite Nat2Z.inj_succ, <- Z.add_1_r. apply (dense_index (group_ends coverage 0)); auto.
    + intros e He. apply Hgt in He. lia.
    + intros e He Hle. apply (covered_prefix coverage from b); auto. split; [lia|].
      assert (x <= b); [|lia].
      apply list_elem_of_lookup in Hb as [[|j] Hj]; [by injection Hj as ->; lia|].
      apply Z.lt_le_incl, Z_key_lt. rewrite <- Hd in Hj. rewrite lookup_drop in Hj.
      apply (strictly_sorted_lookup _ index (index + S j) x b Hs0 ltac:(lia) Hx Hj).
Qed.
End Restorable.

(** ** Evidence *)

Section Evidence.
Context (c : RecoveryContract) (Hwf : contract_wf c).

(** The evidence of one group: increasing aligned page ends inside the span. *)
Definition ends_within (span : TokenRange) (ends : list Z) : Prop :=
  ends_ok c ends /\ Forall (fun e => start span < e <= end_ span) ends.

Lemma check_ends_Ok span group previous ends :
  check_ends c span group previous ends = Ok tt <->
  ends_ok c ends /\ Forall (fun e => previous < e <= end_ span) ends.
Proof.
  unfold ends_ok. revert previous. induction ends as [|e ends IH]; intros previous; simpl.
  { split; [repeat constructor|done]. }
  pose proof (aligned_spec c Hwf e) as Hal.
  destruct ((e <=? previous) || (end_ span <? e) || negb (is_multiple_of e (rc_page_tokens c))) eqn:E.
  - split; [done|]. intros [[_ Ha] Hf]. inversion Ha; inversion Hf; subst.
    rewrite (proj2 Hal) in E by done. lia.
  - apply orb_false_iff in E as [E Em]. apply negb_false_iff, Hal in Em. rewrite IH.
    rewrite !Forall_cons. split.
    + intros [[Hs Ha] Hf]. split_and!; try done; try lia.
      * constructor; [done|]. eapply Forall_impl; [exact Hf|]. simpl; intros x Hx. apply Z_key_lt. lia.
      * eapply Forall_impl; [exact Hf|]. simpl. intros. lia.
    + intros [[Hs [_ Ha]] [He Hf]]. inversion Hs as [|? ? Hs' Hlt]; subst. split_and!; try done.
      rewrite Forall_forall in Hf, Hlt |- *. intros x Hx. specialize (Hf x Hx).
      specialize (Hlt x Hx). apply (proj1 (Z_key_lt _ _)) in Hlt. lia.
Qed.

(** A component list is admissible: registered groups, each at most once, with good evidence. *)
Definition components_ok (span : TokenRange) (comps : list BundleComponent) : Prop :=
  NoDup (comp_group <$> comps) /\
  Forall (fun k => is_Some (rc_requirements c !! comp_group k) /\ ends_within span (page_ends k)) comps.

Lemma collect_coverage_Ok span comps cov0 cov :
  collect_coverage c span comps cov0 = Ok cov ->
  components_ok span comps /\ (forall k, k ∈ comps -> cov0 !! comp_group k = None) /\
  forall g ends, cov !! g = Some ends <-> cov0 !! g = Some ends \/ mkComponent g ends ∈ comps.
Proof.
  revert cov0. induction comps as [|k comps IH]; intros cov0; simpl.
  { intros [= ->]. split_and!; [repeat constructor|set_solver|set_solver]. }
  destruct (rc_requirements c !! comp_group k) as [pages|] eqn:Hreq; [|done].
  destruct (cov0 !! comp_group k) eqn:Hcov; [done|].
  destruct (check_ends _ _ _ _ _) as [[]|] eqn:Hce; [|done].
  intros ((Hnd & Hf) & Hnone & Hspec)%IH. apply check_ends_Ok in Hce. split_and!.
  - split; [|constructor; [split; [eauto|done]|done]]. simpl. constructor; [|done].
    intros (k' & Heq & Hk')%list_elem_of_fmap. specialize (Hnone k' Hk').
    rewrite <- Heq, lookup_insert_eq in Hnone. done.
  - intros k' [->|Hk']%elem_of_cons; [done|]. specialize (Hnone k' Hk').
    by apply lookup_insert_None in Hnone as [].
  - intros g ends. rewrite Hspec, lookup_insert_Some, elem_of_cons. destruct k as [kg ke]. simpl in *.
    split; [intros [[[-> ->]|[_ Hg]]|Hin]; auto|].
    intros [Hg|[[= -> ->]|Hin]]; [left; right|left; left|right]; try done. split; [congruence|done].
Qed.

Lemma collect_coverage_complete span comps cov0 :
  components_ok span comps -> (forall k, k ∈ comps -> cov0 !! comp_group k = None) ->
  exists cov, collect_coverage c span comps cov0 = Ok cov.
Proof.
  revert cov0. induction comps as [|k comps IH]; intros cov0 [Hnd Hf] Hnone; simpl; [eauto|].
  apply Forall_cons in Hf as [[[pages Hp] Hk] Hf']. rewrite Hp, (Hnone k ltac:(left)).
  rewrite (proj2 (check_ends_Ok _ _ _ _) Hk). inversion Hnd as [|? ? Hnin Hnd']; subst.
  apply IH; [done|]. intros k' Hk'. rewrite lookup_insert_ne; [apply Hnone; by right|].
  intros Heq. apply Hnin. rewrite Heq. apply list_elem_of_fmap. eauto.
Qed.

Lemma check_groups_Ok coverage groups :
  check_groups coverage groups = Ok tt <-> forall g, g ∈ groups -> is_Some (coverage !! g).
Proof.
  induction groups as [|g groups IH]; simpl; [split; [set_solver|done]|].
  destruct (coverage !! g) eqn:E.
  - rewrite IH. split; [intros Hall g' [->|Hg]%elem_of_cons; eauto|]. intros Hall g' Hg.
    apply Hall. by right.
  - split; [done|]. intros Hall. destruct (Hall g ltac:(left)). congruence.
Qed.

(** What a bundle offers. *)
Definition offers (b : StateBundle) (g e : Z) : Prop :=
  exists k, k ∈ bundle_components b /\ comp_group k = g /\ e ∈ page_ends k.

(** Evidence the contract admits: same namespace, an aligned span, and every registered group
    exactly once with increasing aligned page ends inside the span. *)
Definition evidence_ok (b : StateBundle) : Prop :=
  bundle_namespace b = rc_namespace c /\ range_ok c (bundle_span b) /\
  components_ok (bundle_span b) (bundle_components b) /\
  forall g, is_Some (rc_requirements c !! g) -> exists k, k ∈ bundle_components b /\ comp_group k = g.

(** Every page any group needs at the boundary is offered. *)
Definition legal_boundary (b : StateBundle) (boundary : Z) : Prop :=
  aligned c boundary /\ start (bundle_span b) < boundary <= end_ (bundle_span b) /\
  forall g pages, rc_requirements c !! g = Some pages ->
  forall e, aligned c e ->
    start (required_span c (mkRange (start (bundle_span b)) boundary) pages) < e <= boundary ->
    offers b g e.

Lemma restorable_Ok_inv b bs :
  range_u64 (bundle_span b) -> restorable_boundaries c b = Ok bs ->
  evidence_ok b /\ exists cov,
    (forall g ends, cov !! g = Some ends <-> mkComponent g ends ∈ bundle_components b) /\
    bs = walk c cov (start (bundle_span b)) 0 (group_ends cov 0).
Proof.
  intros Hu. unfold restorable_boundaries.
  destruct (validate_span _ _ _) as [[]|] eqn:Hv; [|done].
  apply (validate_span_Ok c Hwf) in Hv as [Hns Hr]; [|done].
  destruct (collect_coverage _ _ _ _) as [cov|] eqn:Hc; [|done].
  apply collect_coverage_Ok in Hc as (Hok & _ & Hspec).
  destruct (check_groups _ _) as [[]|] eqn:Hg; [|done]. intros [= <-].
  assert (Hspec' : forall g ends, cov !! g = Some ends <-> mkComponent g ends ∈ bundle_components b).
  { intros g ends. rewrite Hspec, lookup_empty. naive_solver. }
  split; [|eauto]. split_and!; [done|done|done|].
  intros g Hreq. rewrite check_groups_Ok in Hg. destruct (Hg g) as [ends He].
  { by apply elem_of_btree_keys. }
  apply Hspec' in He. by exists (mkComponent g ends).
Qed.

Lemma covered_legal b cov boundary :
  range_ok c (bundle_span b) -> components_ok (bundle_span b) (bundle_components b) ->
  (forall g ends, cov !! g = Some ends <-> mkComponent g ends ∈ bundle_components b) ->
  (boundary ∈ group_ends cov 0 /\ covered c cov (start (bundle_span b)) boundary) <->
  legal_boundary b boundary.
Proof.
  intros Hr [Hnd Hf] Hspec. rewrite Forall_forall in Hf.
  assert (Hge : forall g e, e ∈ group_ends cov g <-> offers b g e).
  { intros g e. unfold group_ends, offers. destruct (cov !! g) as [ends|] eqn:E.
    - apply Hspec in E as Hin. split; [intros He; by exists (mkComponent g ends)|].
      intros ([g' ends'] & Hk & Heq & He). simpl in *. subst g'. apply Hspec in Hk. naive_solver.
    - split; [set_solver|]. intros ([g' ends'] & Hk & Heq & He). simpl in *. subst g'.
      apply Hspec in Hk. congruence. }
  unfold covered, legal_boundary. split.
  - intros [H0 Hc]. apply Hge in H0 as (k & Hk & _ & He).
    destruct (Hf k Hk) as [_ [[_ Ha] Hb]]. rewrite Forall_forall in Ha, Hb.
    split_and!; [by apply Ha|by apply Hb..|]. intros g pages Hg e Hae Hle. apply Hge. eauto.
  - intros (Ha & Hb & Hall). split; [|intros g pages Hg e Hae Hle; apply Hge; eauto].
    apply Hge. destruct Hwf as (_ & H0 & _). apply (Hall 0 None H0); [done|].
    assert (Hr' : range_ok c (mkRange (start (bundle_span b)) boundary)).
    { destruct Hr as (? & ? & ? & ?). unfold range_ok; simpl. split_and!; auto; lia. }
    rewrite required_span_exact by done. simpl. rewrite kept_all by done.
    destruct (span_pages c Hwf _ Hr') as [Hp _]. simpl in *. lia.
Qed.

Lemma evidence_coverage b cov :
  components_ok (bundle_span b) (bundle_components b) ->
  (forall g ends, cov !! g = Some ends <-> mkComponent g ends ∈ bundle_components b) ->
  forall g, ends_within (bundle_span b) (group_ends cov g).
Proof.
  intros [_ Hf] Hspec g. unfold group_ends. destruct (cov !! g) as [ends|] eqn:E.
  - apply Hspec in E. rewrite Forall_forall in Hf. by destruct (Hf _ E).
  - split; [split; constructor|constructor].
Qed.

Lemma elem_of_restorable b bs boundary :
  range_u64 (bundle_span b) -> restorable_boundaries c b = Ok bs ->
  boundary ∈ bs <-> legal_boundary b boundary.
Proof.
  intros Hu ((_ & Hr & Hok & _) & cov & Hspec & ->)%restorable_Ok_inv; [|done].
  pose proof (evidence_coverage b cov Hok Hspec) as Hev.
  rewrite <- (covered_legal b cov) by done.
  apply (elem_of_walk c Hwf cov (start (bundle_span b)) (end_ (bundle_span b)) 0).
  - intros g. apply Hev.
  - by destruct (bundle_span b).
  - destruct (Hev 0) as [_ Hf]. by rewrite Forall_forall in Hf.
  - done.
Qed.

Lemma restorable_Ok_iff b :
  range_u64 (bundle_span b) ->
  (exists bs, restorable_boundaries c b = Ok bs) <-> evidence_ok b.
Proof.
  intros Hu. split; [intros [bs Hbs]; by apply (restorable_Ok_inv b bs)|].
  intros (Hns & Hr & Hok & Hall). unfold restorable_boundaries.
  rewrite (proj2 (validate_span_Ok c Hwf _ _ Hu)) by done.
  destruct (collect_coverage_complete (bundle_span b) (bundle_components b) ∅ Hok) as [cov Hcov].
  { intros. apply lookup_empty. }
  rewrite Hcov. apply collect_coverage_Ok in Hcov as (_ & _ & Hspec).
  assert (Hg : check_groups cov (btree_keys (rc_requirements c)) = Ok tt); [|rewrite Hg; eauto].
  apply check_groups_Ok. intros g Hg%elem_of_btree_keys. destruct (Hall g Hg) as ([g' ends] & Hk & <-).
  exists ends. apply Hspec. by right.
Qed.
End Evidence.

(** ** Compiled contracts *)

(** The page count a rule compiles to. *)
Definition rule_pages (page_tokens : Z) (rule : RecoveryRule) : option Z :=
  match rule with
  | Prefix => None
  | Window tokens => Some (div_ceil tokens page_tokens)
  | Checkpoint => Some 1
  end.

(** Groups are [u32] and window lengths [u64] values. *)
Definition requirement_u64 (r : StateRequirement) : Prop :=
  is_u32 (req_group r) /\ match req_rule r with Window tokens => is_u64 tokens | _ => True end.

Lemma compile_rules_Ok page_tokens reqs rules0 rules :
  compile_rules page_tokens reqs rules0 = Ok rules ->
  NoDup (req_group <$> reqs) /\ (forall r, r ∈ reqs -> rules0 !! req_group r = None) /\
  Forall (fun r => forall t, req_rule r = Window t -> t <> 0) reqs /\
  forall g pages, rules !! g = Some pages <->
    rules0 !! g = Some pages \/
    exists r, r ∈ reqs /\ req_group r = g /\ rule_pages page_tokens (req_rule r) = pages.
Proof.
  revert rules0. induction reqs as [|r reqs IH]; intros rules0; simpl.
  { intros [= ->]. split_and!; [constructor|set_solver|constructor|set_solver]. }
  destruct (_ =? 0); [done|]. destruct (negb _); [done|].
  destruct (match req_rule r with Window _ => _ | _ => _ end) eqn:Ew; [done|].
  destruct (rules0 !! req_group r) eqn:E0; [done|].
  intros (Hnd & Hnone & Hw & Hspec)%IH. split_and!.
  - constructor; [|done]. intros (r' & Heq & Hr')%list_elem_of_fmap. specialize (Hnone r' Hr').
    rewrite <- Heq, lookup_insert_eq in Hnone. done.
  - intros r' [->|Hr']%elem_of_cons; [done|]. specialize (Hnone r' Hr').
    by apply lookup_insert_None in Hnone as [].
  - constructor; [|done]. intros t Ht. rewrite Ht in Ew. apply orb_false_iff in Ew as [Ew _]. lia.
  - intros g pages. rewrite Hspec, lookup_insert_Some. setoid_rewrite elem_of_cons.
    fold (rule_pages page_tokens (req_rule r)). split; [naive_solver|].
    intros [Hg|(r' & [->|Hr'] & Hg & Hp)]; [left; right; split; [congruence|done]| |naive_solver].
    left; left. done.
Qed.

Lemma compile_Ok ns page_tokens reqs c :
  compile ns page_tokens reqs = Ok c -> is_u64 page_tokens -> Forall requirement_u64 reqs ->
  contract_wf c /\ rc_namespace c = ns /\ rc_page_tokens c = page_tokens /\
  forall g pages, rc_requirements c !! g = Some pages <->
    exists r, r ∈ reqs /\ req_group r = g /\ rule_pages page_tokens (req_rule r) = pages.
Proof.
  unfold compile. destruct (_ || _ || _) eqn:E; [done|].
  destruct (compile_rules _ _ _) as [rules|] eqn:Hr; [|done].
  destruct (bool_decide_reflect (rules !! 0 = Some None)); [|done].
  intros [= <-] Hpt Hu. apply compile_rules_Ok in Hr as (_ & _ & Hw & Hspec). simpl.
  apply orb_false_iff in E as [[_ E]%orb_false_iff _]. unfold is_u64 in Hpt.
  assert (Hspec' : forall g pages, rules !! g = Some pages <->
    exists r, r ∈ reqs /\ req_group r = g /\ rule_pages page_tokens (req_rule r) = pages).
  { intros g pages. rewrite Hspec, lookup_empty. naive_solver. }
  rewrite Forall_forall in Hw, Hu.
  split_and!; [|done..]. split_and!; simpl; [lia..|done| |]; cycle 1.
  { intros g [pages (r & Hin & <- & _)%Hspec']. by destruct (Hu r Hin) as [[] _]. }
  intros g n (r & Hin & _ & Hp)%Hspec'.
  specialize (Hw r Hin). destruct (Hu r Hin) as [_ Ht]. unfold is_u64 in Ht.
  destruct (req_rule r) as [|t|]; [done| |]; injection Hp as <-; [|lia].
  apply div_ceil_pos; [lia|]. specialize (Hw t eq_refl). lia.
Qed.

(** A contract that compiles has one page rule per declared group, the one its recovery rule
    means (a window keeps the pages its tokens round up to, at least one; a checkpoint one), keeps
    the attention prefix in group zero, and no group is declared twice. *)
Theorem compile_sound ns page_tokens reqs c :
  compile ns page_tokens reqs = Ok c -> is_u64 page_tokens -> Forall requirement_u64 reqs ->
  contract_wf c /\ NoDup (req_group <$> reqs) /\
  forall g pages, rc_requirements c !! g = Some pages <->
    exists r, r ∈ reqs /\ req_group r = g /\ rule_pages page_tokens (req_rule r) = pages.
Proof.
  intros Hc Hpt Hu. destruct (compile_Ok _ _ _ _ Hc Hpt Hu) as (Hwf & _ & _ & Hspec).
  split_and!; [done| |done]. unfold compile in Hc. destruct (_ || _ || _); [done|].
  destruct (compile_rules _ _ _) eqn:Hr; [|done]. by apply compile_rules_Ok in Hr as [].
Qed.

(** A contract with an attention prefix, a two-page window and a checkpoint. *)
Definition sample_requirements : list StateRequirement :=
  [ mkRequirement 0 [AttentionKv] Prefix; mkRequirement 1 [SlidingWindowKv] (Window 20);
    mkRequirement 2 [RecurrentCheckpoint] Checkpoint ].
Definition sample_contract : RecoveryContract :=
  mkContract (str "m") 16 (<[2 := Some 1]> (<[1 := Some 2]> (<[0 := None]> ∅))).
Definition sample_bundle : StateBundle :=
  mkBundle (str "m") (mkRange 32 96)
    [mkComponent 0 [48; 64; 80]; mkComponent 1 [48; 64; 96]; mkComponent 2 [64; 80]].

Lemma sample_compiles : compile (str "m") 16 sample_requirements = Ok sample_contract.
Proof. vm_compute. reflexivity. Qed.
Lemma sample_u64 : is_u64 16 /\ Forall requirement_u64 sample_requirements.
Proof.
  unfold is_u64, u64_max. split; [lia|].
  repeat constructor; unfold is_u64, is_u32, u64_max, u32_max; simpl; lia.
Qed.

Lemma compile_sound_witness :
  contract_wf sample_contract /\ NoDup (req_group <$> sample_requirements) /\
  forall g pages, rc_requirements sample_contract !! g = Some pages <->
    exists r, r ∈ sample_requirements /\ req_group r = g /\ rule_pages 16 (req_rule r) = pages.
Proof.
  apply (compile_sound (str "m") 16 sample_requirements sample_contract);
    [exact sample_compiles|apply sample_u64..].
Defined.

(** *** What a declared rule needs *)

(** The tokens before a boundary whose state a group needs there: all of them, those of the trailing window, or the last one, whose page holds the
    checkpoint. *)
Definition needs (rule : RecoveryRule) (boundary token : Z) : Prop :=
  match rule with
  | Prefix => True
  | Window tokens => boundary - tokens <= token
  | Checkpoint => token = boundary - 1
  end.

(** A bundle restores a boundary: it is a page end inside the span, and every declared group has, for each token it needs of the queried tail, the page of
    that token on offer. *)
Definition restores (page_tokens : Z) (reqs : list StateRequirement) (b : StateBundle) (boundary : Z) : Prop :=
  (page_tokens | boundary) /\ start (bundle_span b) < boundary <= end_ (bundle_span b) /\
  forall r token, r ∈ reqs -> start (bundle_span b) <= token < boundary -> needs (req_rule r) boundary token ->
  exists e, offers b (req_group r) e /\ e - page_tokens <= token < e.

Lemma needed_page ns page_tokens reqs c from boundary r e :
  compile ns page_tokens reqs = Ok c -> is_u64 page_tokens -> Forall requirement_u64 reqs -> r ∈ reqs ->
  range_ok c (mkRange from boundary) -> from < boundary -> (page_tokens | e) ->
  start (required_span c (mkRange from boundary) (rule_pages page_tokens (req_rule r))) < e <= boundary <->
  exists token, from <= token < boundary /\ needs (req_rule r) boundary token /\ e - page_tokens <= token < e.
Proof.
  intros Hc Hpt Hu Hr Hrange Hlt [k ->]. destruct (compile_Ok _ _ _ _ Hc Hpt Hu) as (Hwf & _ & Hp & Hspec).
  pose proof (proj2 (Hspec (req_group r) _) (ex_intro _ r (conj Hr (conj eq_refl eq_refl)))) as Hreq.
  assert (forall n, rule_pages page_tokens (req_rule r) = Some n -> 1 <= n) as Hn by (intros n Hn; rewrite Hn in Hreq; by eapply requirement_pos).
  rewrite required_span_exact by done. pose proof (kept_bounds c Hwf _ _ Hrange Hn) as Hk. destruct (span_pages c Hwf _ Hrange) as [Hsp _].
  clear Hk Hsp. unfold kept. rewrite Hp. destruct Hrange as ([Hfrom _] & Hmax & [x Hx] & [y Hy]). cbn [start end_] in *. rewrite Hp in Hx, Hy. destruct Hwf as (Hpos & _). rewrite Hp in Hpos. subst from boundary.
  replace (y * page_tokens - x * page_tokens) with ((y - x) * page_tokens) by lia. rewrite Z.div_mul by lia. set (m := match rule_pages _ _ with Some n => n | None => u64_max end).
  assert (x < y /\ 0 <= x) as [Hxy Hx0] by nia.
  transitivity (y - Z.min (y - x) m < k <= y); [split; intros [? ?]; split; nia|].
  assert (forall token, x * page_tokens <= token < y * page_tokens -> k * page_tokens - page_tokens <= token < k * page_tokens -> x < k <= y) as Hpage by (intros; nia).
  pose proof (proj1 (Forall_forall _ _) Hu r Hr) as [_ Hw]. subst m. destruct (req_rule r) as [|w|]; cbn in Hw |- *.
  - assert (y <= u64_max) by nia. split; [intros [Hlo Hhi]; exists (k * page_tokens - 1); split_and!; nia|]. intros (token & H1 & _ & H2). specialize (Hpage token H1 H2). lia.
  - pose proof (div_ceil_bounds w page_tokens ltac:(lia) ltac:(apply Hw)) as Hceil. set (n := div_ceil w page_tokens) in *. split.
    + intros [Hlo Hhi]. exists (k * page_tokens - 1). split_and!; [nia..| |nia|lia]. assert ((y - k) * page_tokens <= (n - 1) * page_tokens) by nia. lia.
    + intros (token & H1 & H2 & H3). specialize (Hpage token H1 H3). assert ((y - n) * page_tokens < k * page_tokens) by lia. nia.
  - split; [intros [Hlo Hhi]; exists (k * page_tokens - 1); split_and!; nia|]. intros (token & H1 & -> & H2). specialize (Hpage _ H1 H2). nia.
Qed.

Lemma legal_restores ns page_tokens reqs c b boundary :
  compile ns page_tokens reqs = Ok c -> is_u64 page_tokens -> Forall requirement_u64 reqs -> evidence_ok c b ->
  legal_boundary c b boundary <-> restores page_tokens reqs b boundary.
Proof.
  intros Hc Hpt Hu (_ & Hr & [_ Hok] & _). destruct (compile_Ok _ _ _ _ Hc Hpt Hu) as (Hwf & _ & Hp & Hspec). unfold legal_boundary, restores.
  assert (forall z, aligned c z <-> (page_tokens | z)) as Hal by (intros z; unfold aligned; by rewrite Hp).
  assert (forall g e, offers b g e -> (page_tokens | e)) as Hoff.
  { intros g e (k & Hk & _ & He). rewrite Forall_forall in Hok. destruct (Hok k Hk) as (_ & [_ Ha] & _). rewrite Forall_forall in Ha. by apply Hal, Ha. }
  assert (forall r e, (page_tokens | boundary) -> start (bundle_span b) < boundary <= end_ (bundle_span b) -> r ∈ reqs -> (page_tokens | e) ->
    start (required_span c (mkRange (start (bundle_span b)) boundary) (rule_pages page_tokens (req_rule r))) < e <= boundary <->
    exists token, start (bundle_span b) <= token < boundary /\ needs (req_rule r) boundary token /\ e - page_tokens <= token < e) as Hneed.
  { intros r e Hb Hin Hre He. apply (needed_page ns page_tokens reqs); try done; [|lia]. destruct Hr as ([? ?] & ? & ? & ?). unfold range_ok. cbn. split_and!; [lia..|done|by apply Hal]. }
  split.
  - intros (Hb & Hin & Hall). apply Hal in Hb. split_and!; [done|lia..|]. intros r token Hre Ht Hn. set (e := (token / page_tokens + 1) * page_tokens).
    assert (e - page_tokens <= token < e) as He by (unfold e; destruct Hwf as (Hpos & _); rewrite Hp in Hpos; pose proof (Z.div_mod token page_tokens ltac:(lia)); pose proof (Z.mod_pos_bound token page_tokens ltac:(lia)); nia).
    exists e. split; [|done]. assert ((page_tokens | e)) as Hde by (by eexists). apply (Hall _ (rule_pages page_tokens (req_rule r))); [apply Hspec; eauto|by apply Hal|]. apply Hneed; [done..|]. eauto.
  - intros (Hb & Hin & Hall). split_and!; [by apply Hal|lia..|]. intros g pages (r & Hre & <- & <-)%Hspec e He%Hal Hle. apply Hneed in Hle as (token & Ht & Hn & Hpg); [|done..].
    destruct (Hall r token Hre Ht Hn) as (e' & Ho & Hpg'). replace e with e'; [done|]. destruct (Hoff _ _ Ho) as [q ->], He as [q' ->]. f_equal. nia.
Qed.

(** C40. [restorable_boundaries] of a compiled contract accepts exactly the admissible evidence, and then returns exactly the boundaries that the declared
    groups can be restored at: the page of every token that an attention prefix, a trailing window of any length or a checkpoint needs is on offer.  Neither the
    rounding of windows to pages nor the counting of the binary searches misses a legal boundary or admits one with a missing page. *)
Theorem restorable_boundaries_exact ns page_tokens reqs c b :
  compile ns page_tokens reqs = Ok c -> is_u64 page_tokens -> Forall requirement_u64 reqs ->
  range_u64 (bundle_span b) ->
  ((exists bs, restorable_boundaries c b = Ok bs) <-> evidence_ok c b) /\
  forall bs, restorable_boundaries c b = Ok bs ->
    forall boundary, boundary ∈ bs <-> restores page_tokens reqs b boundary.
Proof.
  intros Hc Hpt Hu Hb. destruct (compile_Ok _ _ _ _ Hc Hpt Hu) as (Hwf & _).
  split; [by apply restorable_Ok_iff|]. intros bs Hbs boundary. rewrite <- (legal_restores ns page_tokens reqs c) by (done || by apply restorable_Ok_iff; eauto).
  by apply elem_of_restorable.
Qed.

(** A window of 20 tokens over pages of 16 needs two of them. *)
Lemma restorable_boundaries_exact_witness :
  restorable_boundaries sample_contract sample_bundle = Ok [64] /\
  restores 16 sample_requirements sample_bundle 64 /\ ~ restores 16 sample_requirements sample_bundle 80.
Proof.
  assert (restorable_boundaries sample_contract sample_bundle = Ok [64]) as H by (vm_compute; reflexivity). split; [exact H|].
  assert (range_u64 (bundle_span sample_bundle)) as Hu by (unfold range_u64, is_u64, u64_max; simpl; lia).
  destruct (restorable_boundaries_exact (str "m") 16 sample_requirements sample_contract sample_bundle sample_compiles (proj1 sample_u64) (proj2 sample_u64) Hu) as [_ Hb].
  split; [apply (Hb [64] H); set_solver|]. intros Hr. apply (Hb [64] H), list_elem_of_singleton in Hr. discriminate.
Defined.

(** ** Demand *)

Lemma validate_groups_sorted d group gs previous selected :
  StronglySorted item_lt gs ->
  (forall p id r, previous = Some p -> (id, r) ∈ gs -> p < id) ->
  (forall id r, (id, r) ∈ gs ->
     start (demand_span d) <= start r <= end_ r /\ end_ r = end_ (demand_span d) /\
     is_multiple_of (start r) (demand_page_tokens d) = true /\
     (range_is_empty r = true -> range_is_empty (demand_span d) = true)) ->
  validate_groups d group gs previous selected =
    Ok (match list_find (fun p => p.1 = group) gs with
        | Some (_, (_, r)) => Some (u64_sub (end_ r) (start r) / demand_page_tokens d)
        | None => selected
        end).
Proof.
  intros Hs. revert previous selected. induction Hs as [|[id r] gs Hs IH Hlt]; intros previous selected Hp Hr.
  { done. }
  cbn [validate_groups].
  replace (match previous with Some p => id <=? p | None => false end) with false; cycle 1.
  { destruct previous as [p|]; [|done]. specialize (Hp p id r eq_refl ltac:(left)). lia. }
  destruct (Hr id r ltac:(left)) as (H1 & H2 & H3 & H4).
  rewrite (proj2 (Z.ltb_ge _ _)), (proj2 (Z.ltb_ge (end_ r) _)) by lia.
  rewrite (proj2 (Z.eqb_eq (end_ r) _)), H3 by done.
  replace (range_is_empty r && negb (range_is_empty (demand_span d))) with false; cycle 1.
  { destruct (range_is_empty r), (range_is_empty (demand_span d)); try done.
    by discriminate (H4 eq_refl). }
  simpl. rewrite IH.
  - destruct (decide (id = group)) as [->|Hne].
    + rewrite Z.eqb_refl. destruct (list_find (fun p => p.1 = group) gs) as [[i [id' r']]|] eqn:E; [|done].
      apply list_find_Some in E as (Hi & Heq & _). simpl in Heq. subst id'.
      rewrite Forall_forall in Hlt.
      apply list_elem_of_lookup_2 in Hi. specialize (Hlt _ Hi). by apply key_lt_irrefl in Hlt.
    + rewrite (proj2 (Z.eqb_neq id group)) by done.
      by destruct (list_find (fun p => p.1 = group) gs) as [[i [id' r']]|].
  - intros p id' r' [= <-] Hin. rewrite Forall_forall in Hlt. specialize (Hlt _ Hin).
    by apply (proj1 (Z_key_lt _ _)) in Hlt.
  - intros id' r' Hin. apply (Hr id'). by right.
Qed.

Lemma list_find_key (gs : list (Z * TokenRange)) g r :
  StronglySorted item_lt gs -> (g, r) ∈ gs ->
  exists i, list_find (fun p => p.1 = g) gs = Some (i, (g, r)).
Proof.
  induction 1 as [|[id r'] gs Hs IH Hlt]; intros Hin; [set_solver|]. simpl.
  apply elem_of_cons in Hin as [[= -> ->]|Hin].
  - rewrite decide_True by done. eauto.
  - rewrite Forall_forall in Hlt. specialize (Hlt _ Hin). destruct (IH Hin) as [i ->].
    rewrite decide_False; [by exists (S i)|]. simpl. intros ->. by apply key_lt_irrefl in Hlt.
Qed.

Section Demand.
Context (c : RecoveryContract) (Hwf : contract_wf c) (span : TokenRange) (Hr : range_ok c span).
Let pt := rc_page_tokens c.

Definition group_ranges : list (Z * TokenRange) :=
  (fun '(group, pages) => (group, required_span c span pages)) <$> btree_items (rc_requirements c).

Lemma group_ranges_sorted : StronglySorted item_lt group_ranges.
Proof.
  unfold group_ranges. pose proof (btree_items_sorted (rc_requirements c)) as Hs.
  induction Hs as [|[g p] l Hs IH Hlt]; [constructor|]. rewrite fmap_cons.
  constructor; [done|]. apply Forall_fmap. eapply Forall_impl; [exact Hlt|]. by intros [].
Qed.

Lemma elem_of_group_ranges g r :
  (g, r) ∈ group_ranges <->
  exists pages, rc_requirements c !! g = Some pages /\ r = required_span c span pages.
Proof.
  unfold group_ranges. rewrite list_elem_of_fmap. split.
  - intros ([g' p] & [= -> ->] & Hin%elem_of_btree_items). eauto.
  - intros (p & Hp & ->). exists (g, p). split; [done|]. by apply elem_of_btree_items.
Qed.

Lemma required_span_prefix : required_span c span None = span.
Proof.
  rewrite required_span_exact by done. rewrite kept_all by done.
  destruct (span_pages c Hwf span Hr) as [Hp _]. destruct span as [s e]. simpl in *. f_equal. lia.
Qed.

(** Group zero is first and asks for the whole span. *)
Lemma head_group_ranges : head group_ranges = Some (0, span).
Proof.
  assert (H0 : (0, span) ∈ group_ranges).
  { apply elem_of_group_ranges. exists None. destruct Hwf as (_ & H0 & _).
    by rewrite required_span_prefix. }
  pose proof group_ranges_sorted as Hs.
  assert (Hnn : forall g r, (g, r) ∈ group_ranges -> 0 <= g).
  { intros g r (p & Hp & _)%elem_of_group_ranges. apply Hwf. eauto. }
  destruct group_ranges as [|[g r] l]; [set_solver|]. simpl.
  apply elem_of_cons in H0 as [[= <- <-]|Hin]; [done|].
  inversion Hs as [|? ? _ Hlt]; subst. rewrite Forall_forall in Hlt. specialize (Hlt _ Hin).
  apply (proj1 (Z_key_lt _ _)) in Hlt. simpl in Hlt. specialize (Hnn g r ltac:(left)). lia.
Qed.

Lemma group_ranges_valid g r :
  (g, r) ∈ group_ranges ->
  start span <= start r <= end_ r /\ end_ r = end_ span /\ end_ r <= u64_max /\ 0 <= start r /\
  is_multiple_of (start r) pt = true /\
  (range_is_empty r = true -> range_is_empty span = true).
Proof.
  intros (p & Hp & ->)%elem_of_group_ranges.
  assert (Hn : forall n, p = Some n -> 1 <= n) by (intros n; by eapply requirement_pos).
  destruct (required_span_ok c Hwf span p Hr Hn) as ((H1 & H2 & H3 & _) & H4 & H5 & H6).
  split_and!; try lia; [by apply aligned_spec|].
  unfold range_is_empty. rewrite H5. intros Heq%Z.eqb_eq. apply Z.eqb_eq.
  pose proof (pt_pos c Hwf) as Hpt. destruct (span_pages c Hwf span Hr) as [Hs _].
  assert (Hk : kept c span p = 0) by nia. unfold kept in Hk.
  assert ((end_ span - start span) / rc_page_tokens c = 0); [|nia].
  destruct p as [n|]; [specialize (Hn n eq_refl)|]; unfold u64_max in *; lia.
Qed.

Lemma validate_group_ranges g r blocks :
  (g, r) ∈ group_ranges ->
  validate (mkDemand pt span group_ranges) g blocks = Ok tt <-> blocks = (end_ r - start r) / pt.
Proof.
  intros Hin. unfold validate. cbn [demand_span demand_page_tokens demand_groups].
  pose proof (pt_pos c Hwf) as Hpt. pose proof Hr as (H1 & H2 & H3 & H4). fold pt in Hpt.
  rewrite (proj2 (Z.eqb_neq pt 0)), (proj2 (Z.ltb_ge (end_ span) _)) by lia.
  assert (is_multiple_of (start span) pt = true) as -> by (by apply aligned_spec).
  assert (is_multiple_of (end_ span) pt = true) as -> by (by apply aligned_spec).
  rewrite head_group_ranges, bool_decide_true by done. cbn [orb negb].
  rewrite validate_groups_sorted; [|apply group_ranges_sorted|done|].
  - destruct (list_find_key group_ranges g r group_ranges_sorted Hin) as [i ->].
    cbn [ok_or demand_page_tokens]. destruct (group_ranges_valid g r Hin) as (? & ? & ? & ? & _).
    rewrite u64_sub_exact by lia. destruct (Z.eqb_spec blocks ((end_ r - start r) / pt)); naive_solver.
  - intros id r' Hin'. destruct (group_ranges_valid id r' Hin') as (? & ? & ? & ? & ? & ?).
    cbn [demand_span demand_page_tokens]. split_and!; try lia; done.
Qed.
End Demand.

(** The demand a compiled contract produces is self-consistent: for every registered group it
    carries one range, and validating the demand for that group succeeds exactly for the number of
    page hashes in the range. *)
Theorem demand_validates ns page_tokens reqs c span d g pages :
  compile ns page_tokens reqs = Ok c -> is_u64 page_tokens -> Forall requirement_u64 reqs ->
  range_u64 span -> demand c ns span = Ok d -> rc_requirements c !! g = Some pages ->
  exists r, (g, r) ∈ demand_groups d /\ r = required_span c span pages /\
    forall blocks, validate d g blocks = Ok tt <-> blocks = (end_ r - start r) / page_tokens.
Proof.
  intros Hc Hpt Hu Hs Hd Hg. destruct (compile_Ok _ _ _ _ Hc Hpt Hu) as (Hwf & _ & <- & _).
  unfold demand, required_ranges in Hd.
  destruct (validate_span c ns span) as [[]|] eqn:Hv; [|done]. injection Hd as <-.
  apply (validate_span_Ok c Hwf) in Hv as [_ Hr]; [|done].
  exists (required_span c span pages).
  assert (Hin : (g, required_span c span pages) ∈ group_ranges c span)
    by (apply elem_of_group_ranges; eauto).
  split_and!; [exact Hin|done|]. intros blocks.
  by apply (validate_group_ranges c Hwf span Hr).
Qed.

Definition sample_demand : RecoveryDemand :=
  mkDemand 16 (mkRange 32 96) [(0, mkRange 32 96); (1, mkRange 64 96); (2, mkRange 80 96)].

Lemma demand_validates_witness :
  exists r, (1, r) ∈ demand_groups sample_demand /\
    r = required_span sample_contract (mkRange 32 96) (Some 2) /\
    forall blocks, validate sample_demand 1 blocks = Ok tt <-> blocks = (end_ r - start r) / 16.
Proof.
  apply (demand_validates (str "m") 16 sample_requirements sample_contract (mkRange 32 96));
    [exact sample_compiles|apply sample_u64|apply sample_u64|..].
  - unfold range_u64, is_u64, u64_max. simpl. lia.
  - vm_compute. reflexivity.
  - vm_compute. reflexivity.
Defined.

(** [read_range] slices a hash batch that starts at the span to exactly the pages the group
    needs: it fails only when the batch is too short for the span, and otherwise position [i] of
    the batch is in the slice exactly when the page that ends [i + 1] pages after the span's start
    is in the group's required range. *)
Theorem read_range_selects ns page_tokens reqs c span g pages batch_len :
  compile ns page_tokens reqs = Ok c -> is_u64 page_tokens -> Forall requirement_u64 reqs ->
  range_u64 span -> validate_span c ns span = Ok tt -> rc_requirements c !! g = Some pages ->
  let total := (end_ span - start span) / page_tokens in
  (read_range c ns span g batch_len = Err InvalidSpan <-> batch_len < total) /\
  forall s e, read_range c ns span g batch_len = Ok (s, e) ->
    e <= batch_len /\
    forall i, 0 <= i < batch_len ->
      s <= i < e <->
      start (required_span c span pages) < start span + (i + 1) * page_tokens <=
        end_ (required_span c span pages).
Proof.
  intros Hc Hpt Hu Hs Hv Hg. destruct (compile_Ok _ _ _ _ Hc Hpt Hu) as (Hwf & _ & <- & _).
  pose proof (proj1 (validate_span_Ok c Hwf ns span Hs) Hv) as [_ Hr].
  assert (Hn : forall n, pages = Some n -> 1 <= n) by (intros n; by eapply requirement_pos).
  destruct (required_span_ok c Hwf span pages Hr Hn) as ((H1 & H2 & H3 & H4) & H5 & H6 & H7).
  unfold read_range. rewrite Hv, Hg. cbn [ok_or]. set (needed := required_span c span pages) in *.
  clearbody needed. pose proof (pt_pos c Hwf) as Hp. destruct (span_pages c Hwf span Hr) as [Hq _].
  pose proof Hr as (H8 & H9 & [a Ha] & _). destruct H3 as [q Hq'].
  rewrite !u64_sub_exact by lia. rewrite H6.
  set (total := (end_ span - start span) / rc_page_tokens c) in *.
  assert (Hs' : (start needed - start span) / rc_page_tokens c = q - a).
  { replace (start needed - start span) with ((q - a) * rc_page_tokens c) by lia. apply Z.div_mul. lia. }
  rewrite Hs'. destruct (Z.ltb_spec batch_len total).
  - split; [naive_solver|done].
  - split; [split; [done|lia]|]. intros s e [= <- <-]. split; [lia|]. intros i Hi.
    rewrite Hq'. rewrite Ha. split; intros; nia.
Qed.

Lemma read_range_selects_witness :
  let total := (96 - 32) / 16 in
  (read_range sample_contract (str "m") (mkRange 32 96) 1 4 = Err InvalidSpan <-> 4 < total) /\
  forall s e, read_range sample_contract (str "m") (mkRange 32 96) 1 4 = Ok (s, e) ->
    e <= 4 /\
    forall i, 0 <= i < 4 ->
      s <= i < e <->
      start (required_span sample_contract (mkRange 32 96) (Some 2)) < 32 + (i + 1) * 16 <=
        end_ (required_span sample_contract (mkRange 32 96) (Some 2)).
Proof.
  apply (read_range_selects (str "m") 16 sample_requirements sample_contract (mkRange 32 96) 1 (Some 2));
    [exact sample_compiles|apply sample_u64|apply sample_u64|..].
  - unfold range_u64, is_u64, u64_max. simpl. lia.
  - vm_compute. reflexivity.
  - vm_compute. reflexivity.
Defined.

(** ** Boundaries common to all ranks *)

Section Common.
Context (c : RecoveryContract) (Hwf : contract_wf c) (ns : bytes) (span : TokenRange).
Context (Hs : range_u64 span).

(** A shard holds the page that ends at [e] for group [g]. *)
Definition shard_offers (shard : list (Z * list Z)) (g e : Z) : Prop :=
  exists ps p, (g, ps) ∈ shard /\ p ∈ ps /\ e = start span + (p + 1) * rc_page_tokens c.

(** A shard can restore the boundary: it holds every page every group needs there. *)
Definition shard_restores (shard : list (Z * list Z)) (boundary : Z) : Prop :=
  aligned c boundary /\ start span < boundary <= end_ span /\
  forall g pages, rc_requirements c !! g = Some pages ->
  forall e, aligned c e -> start (required_span c (mkRange (start span) boundary) pages) < e <= boundary ->
    shard_offers shard g e.

Lemma page_end_Ok group position e :
  page_end c span group position = Ok e -> e = start span + (position + 1) * rc_page_tokens c.
Proof.
  unfold page_end, checked_add, checked_mul.
  destruct (_ <=? u64_max); [|done]. destruct (_ <=? u64_max); [|done].
  destruct (_ <=? u64_max); [|done]. cbn. intros [= <-]. lia.
Qed.

Lemma shard_offers_iff shard comps g e :
  collect_results (shard_component c span) shard = Ok comps ->
  offers (mkBundle ns span comps) g e <-> shard_offers shard g e.
Proof.
  intros Hc%collect_results_Ok. unfold offers, shard_offers. simpl.
  assert (Hcomp : forall x k, shard_component c span x = Ok k ->
    comp_group k = x.1 /\ Forall2 (fun p e => page_end c span x.1 p = Ok e) x.2 (page_ends k)).
  { intros [g' ps] k. unfold shard_component. simpl.
    destruct (collect_results _ _) as [ends|] eqn:E; [|done]. intros [= <-]. simpl.
    split; [done|]. by apply collect_results_Ok. }
  split.
  - intros (k & (i & Hk)%list_elem_of_lookup & <- & (j & He)%list_elem_of_lookup).
    destruct (Forall2_lookup_r _ _ _ _ _ Hc Hk) as ([g' ps] & Hx & Hxk).
    apply Hcomp in Hxk as [-> Hps]. destruct (Forall2_lookup_r _ _ _ _ _ Hps He) as (p & Hp & Hpe).
    simpl in *. apply page_end_Ok in Hpe. exists ps, p.
    split_and!; [by eapply list_elem_of_lookup_2..|done].
  - intros (ps & p & (i & Hx)%list_elem_of_lookup & (j & Hp)%list_elem_of_lookup & ->).
    destruct (Forall2_lookup_l _ _ _ _ _ Hc Hx) as (k & Hk & Hxk).
    apply Hcomp in Hxk as [Hg Hps]. destruct (Forall2_lookup_l _ _ _ _ _ Hps Hp) as (e & He & Hpe).
    apply page_end_Ok in Hpe. exists k. rewrite <- Hpe.
    split_and!; [by eapply list_elem_of_lookup_2|done|by eapply list_elem_of_lookup_2].
Qed.

Lemma elem_of_shard_boundaries shard bs b :
  shard_boundaries c ns span shard = Ok bs -> b ∈ bs <-> shard_restores shard b.
Proof.
  unfold shard_boundaries. destruct (collect_results _ _) as [comps|] eqn:E; [|done].
  intros Hb. rewrite (elem_of_restorable c Hwf (mkBundle ns span comps) _ b Hs Hb).
  unfold legal_boundary, shard_restores. simpl.
  pose proof (fun g e => shard_offers_iff shard comps g e E) as Ho. naive_solver.
Qed.

Definition all_restore (shards : list (list (Z * list Z))) (b : Z) : Prop :=
  forall shard, shard ∈ shards -> shard_restores shard b.

Lemma elem_of_intersect shards common res :
  intersect_shards c ns span shards (Some common) = Ok res ->
  exists cs, res = Some cs /\ forall b, b ∈ cs <-> b ∈ common /\ all_restore shards b.
Proof.
  unfold all_restore. revert common. induction shards as [|shard shards IH]; intros common; simpl.
  { intros [= <-]. exists common. split; [done|]. set_solver. }
  destruct (shard_boundaries _ _ _ _) as [bs|] eqn:E; [|done].
  intros (cs & -> & Hcs)%IH. exists cs. split; [done|]. intros b.
  rewrite Hcs, elem_of_filter, elem_of_list_to_set, (elem_of_shard_boundaries _ _ _ E).
  setoid_rewrite elem_of_cons. naive_solver.
Qed.

Lemma elem_of_common shards bs :
  shards <> [] -> common_boundaries c ns span shards = Ok bs ->
  StronglySorted key_lt bs /\ forall b, b ∈ bs <-> all_restore shards b.
Proof.
  unfold common_boundaries. destruct (validate_span _ _ _); [|done].
  destruct shards as [|shard shards]; [done|]. intros _. simpl.
  destruct (shard_boundaries _ _ _ _) as [legal|] eqn:E; [|done].
  destruct (intersect_shards _ _ _ _ _) as [res|] eqn:Ei; [|done].
  apply elem_of_intersect in Ei as (cs & -> & Hcs). intros [= <-].
  split; [apply btree_elements_sorted|]. intros b.
  rewrite elem_of_btree_elements, Hcs, elem_of_list_to_set, (elem_of_shard_boundaries _ _ _ E).
  unfold all_restore. setoid_rewrite elem_of_cons. naive_solver.
Qed.
End Common.

(** [select_boundary] picks the furthest boundary the engine may use that every rank can
    restore: the result is at most the limit, every shard holds every page every group needs
    there, and no later boundary within the limit has that property; [None] means that there is
    none at all. *)
Theorem select_boundary_furthest ns page_tokens reqs c span shards limit res :
  compile ns page_tokens reqs = Ok c -> is_u64 page_tokens -> Forall requirement_u64 reqs ->
  range_u64 span -> shards <> [] -> select_boundary c ns span shards limit = Ok res ->
  match res with
  | Some b => b <= limit /\ all_restore c span shards b /\
              forall b', b' <= limit -> all_restore c span shards b' -> b' <= b
  | None => forall b, b <= limit -> ~ all_restore c span shards b
  end.
Proof.
  intros Hc Hpt Hu Hs Hne Hsel. destruct (compile_Ok _ _ _ _ Hc Hpt Hu) as (Hwf & _).
  unfold select_boundary in Hsel. destruct (common_boundaries _ _ _ _) as [bs|] eqn:E; [|done].
  apply (elem_of_common c Hwf ns span Hs) in E as [Hsorted Hbs]; [|done]. injection Hsel as <-.
  destruct (rfind _ bs) as [b|] eqn:Ef.
  - apply rfind_Some in Ef as (Hin & Hle & Hmax); [|done].
    split_and!; [lia|by apply Hbs|]. intros b' Hb' Hall.
    exact (Hmax b' (proj2 (Hbs b') Hall) ltac:(lia)).
  - intros b Hb Hall. apply (rfind_None _ bs) with (a := b) in Ef; [lia|]. by apply Hbs.
Qed.

Definition sample_shards : list (list (Z * list Z)) :=
  [[(0, [0; 1; 2; 3]); (1, [0; 1; 2; 3]); (2, [1; 3])]; [(0, [0; 1; 2]); (1, [0; 1; 2]); (2, [0; 1])]].

Lemma select_boundary_furthest_witness :
  64 <= 80 /\ all_restore sample_contract (mkRange 32 96) sample_shards 64 /\
  forall b', b' <= 80 -> all_restore sample_contract (mkRange 32 96) sample_shards b' -> b' <= 64.
Proof.
  apply (select_boundary_furthest (str "m") 16 sample_requirements sample_contract (mkRange 32 96)
    sample_shards 80 (Some 64)); [exact sample_compiles|apply sample_u64|apply sample_u64|..].
  - unfold range_u64, is_u64, u64_max. simpl. lia.
  - discriminate.
  - vm_compute. reflexivity.
Defined.
