(* ===== verification/Inventory.v ===== *)
(** * Residency inventory

    [orbitkv-core/src/storage/inventory.rs]: the authoritative list of the blocks one runtime
    holds, a bounded journal of its changes, the paged snapshot reads and the journal reads that
    feed replication.  The inventory refines a plain history of changes: see [tracks]. *)
From S2P Require Import Prelude Containers Slices State.

Local Open Scope Z_scope.
Local Open Scope rust_scope.

(** Counters reported by [status]; no operation reads them. *)
Record InventoryMetrics := mkMetrics {
  last_change_mono_ns : Z;
  delta_input_records : Z;
  delta_input_bytes : Z;
  delta_output_records : Z;
  delta_frames : Z;
  delta_encoded_bytes : Z;
  coalescing_windows : Z;
  coalescing_wait_micros : Z;
  scope_filter_input_records : Z;
  scope_filter_output_records : Z;
  scope_filter_micros : Z
}.

Record Inventory := mkInventory {
  residents : gmap Residence InventoryRecord;
  journal : list InventoryRecord;
  inv_sequence : Z;
  journal_bytes : Z;
  journal_bytes_peak : Z;
  byte_limit : Z;
  history_gaps : Z;
  flush_through_sequence : Z;
  metrics : InventoryMetrics
}.

Record InventoryDelta := mkDelta {
  through : Z;
  delta_records : list InventoryRecord;
  input_records : Z;
  input_bytes : Z
}.
Record InventoryPage := mkPage {
  page_records : list InventoryRecord;
  next : option Residence;
  page_complete : bool
}.
Inductive InventoryReadError := HistoryGap | RecordTooLarge | InvalidRecord.
#[export] Instance InventoryReadError_eq_dec : EqDecision InventoryReadError.
Proof. solve_decision. Defined.

Definition zero_metrics : InventoryMetrics := mkMetrics 0 0 0 0 0 0 0 0 0 0 0.

(** [with_publish_coalescing]: the window is given in microseconds. *)
Definition with_publish_coalescing (limit window_micros : Z) : result Inventory string :=
  if 5000 <? window_micros
  then Err "inventory publication coalescing cannot exceed 5 ms"%string
  else Ok (mkInventory ∅ [] 0 0 0 limit 0 0 zero_metrics).

Definition with_metrics (m : InventoryMetrics) (inv : Inventory) : Inventory :=
  mkInventory (residents inv) (journal inv) (inv_sequence inv) (journal_bytes inv)
    (journal_bytes_peak inv) (byte_limit inv) (history_gaps inv) (flush_through_sequence inv) m.

Section Ops.
(** [size_of::<InventoryRecord>()] is the compiler's choice. *)
Context (size_of_record : Z).
Abbreviation size := (record_estimated_size size_of_record).

(** The eviction loop of [change].  With an empty journal over the limit the loop would spin:
    [None]. *)
Fixpoint trim_journal (limit bytes : Z) (j : list InventoryRecord)
    : option (Z * list InventoryRecord) :=
  if bytes <=? limit then Some (bytes, j)
  else match j with
       | [] => None
       | r :: j' => trim_journal limit (u64_sub bytes (size r)) j'
       end.

(** [change] at the clock reading [now_ns]; [None] is a failed assertion, an exhausted sequence or
    a loop that does not end. *)
Definition change (inv : Inventory) (k : StateKey) (m : ReplicaMedium)
    (md : option ReplicaMetadata) (now_ns : Z) : option Inventory :=
  if negb (advertised m) then None
  else if match md with Some v => negb (bool_decide (medium v = m)) | None => false end then None
  else
    let old := residents inv !! (k, m) ≫= metadata in
    if decide (old = md) then Some inv
    else
      match checked_add (inv_sequence inv) 1 with
      | None => None
      | Some seq =>
          let record := mkRecord k seq (match md with Some _ => true | None => false end)
                          (match md with Some v => Some v | None => old end) in
          let residents' := if present record
                            then <[(k, m) := record]> (residents inv)
                            else delete (k, m) (residents inv) in
          match trim_journal (byte_limit inv) (u64_add (journal_bytes inv) (size record))
                  (journal inv ++ [record]) with
          | None => None
          | Some (bytes, j) =>
              let mt := metrics inv in
              Some (mkInventory residents' j seq bytes (Z.max (journal_bytes_peak inv) bytes)
                      (byte_limit inv) (history_gaps inv) (flush_through_sequence inv)
                      (mkMetrics now_ns (delta_input_records mt) (delta_input_bytes mt)
                         (delta_output_records mt) (delta_frames mt) (delta_encoded_bytes mt)
                         (coalescing_windows mt) (coalescing_wait_micros mt)
                         (scope_filter_input_records mt) (scope_filter_output_records mt)
                         (scope_filter_micros mt)))
          end
      end.

(** [residents.range((after.map_or(Unbounded, Excluded), Unbounded))]. *)
Definition is_after (after : option Residence) (k : Residence) : bool :=
  match after with Some a => key_ltb a k | None => true end.
Definition items_after (m : gmap Residence InventoryRecord) (after : option Residence)
    : list (Residence * InventoryRecord) :=
  filter (fun p => is_after after p.1 = true) (btree_items m).

(** The scan of [scoped_page] over the peekable iterator: at most a batch of records and bytes is
    scanned, and only records in scope are returned. *)
Fixpoint page_loop (scope : InventoryScope) (source : list (Residence * InventoryRecord))
    (scanned scanned_bytes : Z) (records : list InventoryRecord) (nxt : option Residence)
    : result (list InventoryRecord * option Residence * bool * Z) InventoryReadError :=
  match source with
  | [] => Ok (records, nxt, true, scanned)
  | (identity, record) :: rest =>
      let bytes := size record in
      if (scanned =? INVENTORY_BATCH_RECORDS)
         || ((0 <? scanned) && (INVENTORY_BATCH_BYTES <? u64_add scanned_bytes bytes))
      then Ok (records, nxt, false, scanned)
      else if (scanned =? 0) && (INVENTORY_BATCH_BYTES <? bytes)
      then Err RecordTooLarge
      else
        let records := if contains scope (namespace (key record)) then records ++ [record] else records in
        page_loop scope rest (scanned + 1) (u64_add scanned_bytes bytes) records (Some identity)
  end.

(** The filter counters shared by the two scoped reads. *)
Definition count_scoped (inv : Inventory) (scanned kept elapsed_micros : Z) : Inventory :=
  let mt := metrics inv in
  with_metrics
    (mkMetrics (last_change_mono_ns mt) (delta_input_records mt) (delta_input_bytes mt)
       (delta_output_records mt) (delta_frames mt) (delta_encoded_bytes mt)
       (coalescing_windows mt) (coalescing_wait_micros mt)
       (saturating_add (scope_filter_input_records mt) scanned)
       (saturating_add (scope_filter_output_records mt) kept)
       (saturating_add (scope_filter_micros mt) elapsed_micros)) inv.

Definition scoped_page (inv : Inventory) (after : option Residence) (scope : InventoryScope)
    (elapsed_micros : Z) : Inventory * result InventoryPage InventoryReadError :=
  match page_loop scope (items_after (residents inv) after) 0 0 [] None with
  | Err e => (inv, Err e)
  | Ok (records, nxt, complete, scanned) =>
      (count_scoped inv scanned (zlen records) elapsed_micros, Ok (mkPage records nxt complete))
  end.

Definition page (inv : Inventory) (after : option Residence) (elapsed_micros : Z)
    : Inventory * result (list InventoryRecord) InventoryReadError :=
  match scoped_page inv after AllNamespaces elapsed_micros with
  | (inv', Ok p) => (inv', Ok (page_records p))
  | (inv', Err e) => (inv', Err e)
  end.

Fixpoint bounded_loop (source : list InventoryRecord) (acc : list InventoryRecord) (bytes : Z)
    : result (list InventoryRecord) InventoryReadError :=
  match source with
  | [] => Ok acc
  | record :: rest =>
      let sz := size record in
      if INVENTORY_BATCH_BYTES <? sz then Err RecordTooLarge
      else if (zlen acc =? INVENTORY_BATCH_RECORDS)
              || (INVENTORY_BATCH_BYTES <? u64_add bytes sz)
      then Ok acc
      else bounded_loop rest (acc ++ [record]) (u64_add bytes sz)
  end.
Definition bounded_records (source : list InventoryRecord)
    : result (list InventoryRecord) InventoryReadError := bounded_loop source [] 0.

Definition bump_gaps (inv : Inventory) : Inventory :=
  mkInventory (residents inv) (journal inv) (inv_sequence inv) (journal_bytes inv)
    (journal_bytes_peak inv) (byte_limit inv) (saturating_add (history_gaps inv) 1)
    (flush_through_sequence inv) (metrics inv).

(** [VecDeque::range]. *)
Definition journal_range (j : list InventoryRecord) (s e : Z) : list InventoryRecord :=
  drop (Z.to_nat s) (take (Z.to_nat e) j).

Definition changes (inv : Inventory) (after thr : Z)
    : Inventory * result (list InventoryRecord) InventoryReadError :=
  if (thr <? after) || (inv_sequence inv <? thr)
     || (negb (after =? inv_sequence inv)
         && match head (journal inv) with
            | Some r => u64_add after 1 <? sequence r
            | None => true
            end)
  then (bump_gaps inv, Err HistoryGap)
  else if after =? thr then (inv, Ok [])
  else match head (journal inv) with
       | None => (inv, Err HistoryGap)
       | Some r =>
           let first := sequence r in
           let s := u64_sub (u64_add after 1) first in
           let e := u64_add (u64_sub thr first) 1 in
           (inv, bounded_records (journal_range (journal inv) s e))
       end.

Fixpoint coalesce (scope : InventoryScope) (input : list InventoryRecord)
    (acc : gmap Residence InventoryRecord) : result (gmap Residence InventoryRecord) InventoryReadError :=
  match input with
  | [] => Ok acc
  | record :: rest =>
      match metadata record with
      | None => Err InvalidRecord
      | Some md =>
          coalesce scope rest
            (if contains scope (namespace (key record))
             then <[(key record, medium md) := record]> acc else acc)
      end
  end.

Definition coalesced_changes_scoped (inv : Inventory) (after thr : Z) (scope : InventoryScope)
    (elapsed_micros : Z) : Inventory * result InventoryDelta InventoryReadError :=
  match changes inv after thr with
  | (inv, Err e) => (inv, Err e)
  | (inv, Ok input) =>
      let thr := match last input with Some r => sequence r | None => after end in
      match coalesce scope input ∅ with
      | Err e => (inv, Err e)
      | Ok records =>
          (count_scoped inv (zlen input) (Z.of_nat (base.size records)) elapsed_micros,
           Ok (mkDelta thr (btree_values records) (zlen input) (list_sum size input)))
      end
  end.

Definition coalesced_changes (inv : Inventory) (after thr elapsed_micros : Z)
    : Inventory * result InventoryDelta InventoryReadError :=
  coalesced_changes_scoped inv after thr AllNamespaces elapsed_micros.

Definition record_delta_stream (inv : Inventory) (in_records in_bytes out_records frames
    encoded_bytes wait_micros : Z) : Inventory :=
  let mt := metrics inv in
  with_metrics
    (mkMetrics (last_change_mono_ns mt)
       (saturating_add (delta_input_records mt) in_records)
       (saturating_add (delta_input_bytes mt) in_bytes)
       (saturating_add (delta_output_records mt) out_records)
       (saturating_add (delta_frames mt) frames)
       (saturating_add (delta_encoded_bytes mt) encoded_bytes)
       (saturating_add (coalescing_windows mt) 1)
       (saturating_add (coalescing_wait_micros mt) wait_micros)
       (scope_filter_input_records mt) (scope_filter_output_records mt) (scope_filter_micros mt)) inv.

Definition contains_record (inv : Inventory) (r : InventoryRecord) (m : ReplicaMedium) : bool :=
  present r && match residents inv !! (key r, m) with
               | Some resident => sequence resident =? sequence r
               | None => false
               end.

(** [request_flush] also wakes the publishers with the returned target. *)
Definition request_flush (inv : Inventory) (target : Z) : Inventory * Z :=
  let target := Z.max (flush_through_sequence inv) target in
  (mkInventory (residents inv) (journal inv) (inv_sequence inv) (journal_bytes inv)
     (journal_bytes_peak inv) (byte_limit inv) (history_gaps inv) target (metrics inv), target).
Definition capture_fence (inv : Inventory) : Inventory * Z :=
  let target := inv_sequence inv in
  ((request_flush inv target).1, target).
End Ops.

(** ** The abstract inventory: a history of changes *)

Definition residence_of (r : InventoryRecord) : option Residence :=
  (fun md => (key r, medium md)) <$> metadata r.

Definition apply_change (m : gmap Residence InventoryRecord) (r : InventoryRecord)
    : gmap Residence InventoryRecord :=
  match residence_of r with
  | Some k => if present r then <[k := r]> m else delete k m
  | None => m
  end.

(** What is resident after a history, and after its first [n] changes. *)
Definition replay (h : list InventoryRecord) : gmap Residence InventoryRecord :=
  foldl apply_change ∅ h.
Definition residents_at (h : list InventoryRecord) (n : Z) : gmap Residence InventoryRecord :=
  replay (take (Z.to_nat n) h).

(** Changes are numbered from one and name a tier that may be advertised. *)
Definition history_ok (h : list InventoryRecord) : Prop :=
  forall i r, h !! i = Some r ->
    sequence r = Z.of_nat i + 1 /\ exists md, metadata r = Some md /\ advertised (medium md) = true.

Section History.
Implicit Types h : list InventoryRecord.

Lemma replay_snoc h r : replay (h ++ [r]) = apply_change (replay h) r.
Proof. unfold replay. by rewrite foldl_app. Qed.

Lemma replay_snoc_lookup h r k :
  replay (h ++ [r]) !! k =
    if decide (residence_of r = Some k) then (if present r then Some r else None) else replay h !! k.
Proof.
  rewrite replay_snoc. unfold apply_change.
  destruct (residence_of r) as [k'|]; [|by rewrite decide_False].
  destruct (decide (Some k' = Some k)) as [[= ->]|Hne].
  - destruct (present r); [apply lookup_insert_eq|apply lookup_delete_eq].
  - assert (k' <> k) by congruence.
    destruct (present r); [by rewrite lookup_insert_ne|by rewrite lookup_delete_ne].
Qed.

Lemma replay_Some h k r :
  replay h !! k = Some r -> r ∈ h /\ residence_of r = Some k /\ present r = true.
Proof.
  induction h as [|r' h IH] using rev_ind; [done|]. rewrite replay_snoc_lookup.
  destruct (decide _) as [Hr|].
  - destruct (present r') eqn:Ep; [|done]. intros [= <-]. set_solver.
  - intros (? & ? & ?)%IH. set_solver.
Qed.

Lemma replay_key h k m r :
  replay h !! (k, m) = Some r -> exists md, metadata r = Some md /\ medium md = m /\ key r = k.
Proof.
  intros (_ & Hr & _)%replay_Some. unfold residence_of in Hr.
  destruct (metadata r) as [md|]; [|done]. simpl in Hr. naive_solver.
Qed.

Lemma residents_at_all h n : zlen h <= n -> residents_at h n = replay h.
Proof. unfold zlen, residents_at. intros. by rewrite take_ge by lia. Qed.

Lemma residents_at_app h h' n : n <= zlen h -> residents_at (h ++ h') n = residents_at h n.
Proof. unfold zlen, residents_at. intros. by rewrite take_app_le by lia. Qed.

(** One more change: the residence it names is replaced, the others keep their record. *)
Lemma residents_at_succ h n r k :
  0 <= n -> h !! Z.to_nat n = Some r ->
  residents_at h (n + 1) !! k =
    if decide (residence_of r = Some k) then (if present r then Some r else None)
    else residents_at h n !! k.
Proof.
  intros Hn Hr. unfold residents_at. replace (Z.to_nat (n + 1)) with (S (Z.to_nat n)) by lia.
  rewrite (take_S_r _ _ r) by done. apply replay_snoc_lookup.
Qed.

Lemma residents_at_sequence h n k r :
  history_ok h -> residents_at h n !! k = Some r -> 1 <= sequence r <= Z.max 0 n /\ sequence r <= zlen h.
Proof.
  intros Hok (Hin & _)%replay_Some. apply list_elem_of_lookup in Hin as [i Hi].
  apply lookup_take_Some in Hi as [Hi Hlt].
  pose proof (lookup_lt_Some _ _ _ Hi). destruct (Hok i r Hi) as [-> _]. unfold zlen. lia.
Qed.

(** Between two points without a change of [k] its record stays. *)
Lemma residents_at_stable h a b k :
  0 <= a <= b -> b <= zlen h ->
  (forall i r, (Z.to_nat a <= i < Z.to_nat b)%nat -> h !! i = Some r -> residence_of r <> Some k) ->
  residents_at h b !! k = residents_at h a !! k.
Proof.
  intros [Ha Hab] Hb. revert Hb. pattern b. apply Zlt_lower_bound_ind with (z := a); [|done].
  clear b Hab. intros b IH Hab Hb Hno. destruct (decide (b = a)) as [->|Hne]; [done|].
  assert (is_Some (h !! Z.to_nat (b - 1))) as [r Hr]
    by (apply lookup_lt_is_Some; unfold zlen in Hb; lia).
  replace b with (b - 1 + 1) by lia. rewrite (residents_at_succ _ _ r) by (lia || done).
  rewrite decide_False by (eapply Hno; [|exact Hr]; lia).
  apply IH; [lia|lia|]. intros i r' Hi. apply Hno. lia.
Qed.

(** The last change of [k] up to [b] decides its record at [b]. *)
Lemma residents_at_last h a b k i r :
  0 <= a -> b <= zlen h -> (Z.to_nat a <= i < Z.to_nat b)%nat -> h !! i = Some r ->
  residence_of r = Some k ->
  (forall j r', (i < j < Z.to_nat b)%nat -> h !! j = Some r' -> residence_of r' <> Some k) ->
  residents_at h b !! k = if present r then Some r else None.
Proof.
  intros Ha Hb Hi Hr Hk Hno.
  rewrite (residents_at_stable h (Z.of_nat i + 1) b k); [|lia|done|].
  - rewrite (residents_at_succ _ _ r); [|lia|by rewrite Nat2Z.id]. by rewrite decide_True.
  - intros j r' Hj. apply Hno. lia.
Qed.
End History.

(** ** The inventory tracks its history *)

Section Tracks.
Context (size_of_record : Z) (Hsize : 0 <= size_of_record).
Abbreviation size := (record_estimated_size size_of_record).

Definition tracks (inv : Inventory) (h : list InventoryRecord) : Prop :=
  history_ok h /\ inv_sequence inv = zlen h /\ zlen h <= u64_max /\
  residents inv = replay h /\
  (exists dropped, h = dropped ++ journal inv) /\
  journal_bytes inv = list_sum size (journal inv) /\ journal_bytes inv <= byte_limit inv.

Lemma size_nonneg r : 0 <= size r.
Proof.
  unfold record_estimated_size.
  pose proof (zlen_nonneg (namespace (key r))). pose proof (zlen_nonneg (hash (key r))). lia.
Qed.

Lemma list_sum_size_nonneg l : 0 <= list_sum size l.
Proof. apply list_sum_nonneg. intros. apply size_nonneg. Qed.

(** The eviction loop ends: it drops a prefix and leaves an exact count within the limit. *)
Lemma trim_journal_spec limit j :
  0 <= limit -> list_sum size j <= u64_max ->
  exists dropped j', trim_journal size_of_record limit (list_sum size j) j = Some (list_sum size j', j') /\
    j = dropped ++ j' /\ list_sum size j' <= limit.
Proof.
  intros Hl. induction j as [|r j IH]; intros Hb; cbn [trim_journal].
  - change (list_sum size []) with 0. rewrite (proj2 (Z.leb_le _ _)) by lia.
    exists [], []. done.
  - destruct (Z.leb_spec (list_sum size (r :: j)) limit).
    + exists [], (r :: j). done.
    + pose proof (size_nonneg r). pose proof (list_sum_size_nonneg j).
      change (list_sum size (r :: j)) with (size r + list_sum size j) in *.
      rewrite u64_sub_exact by lia. replace (size r + list_sum size j - size r) with (list_sum size j) by lia.
      destruct IH as (dropped & j' & -> & -> & Hj); [lia|]. exists (r :: dropped), j'. done.
Qed.

(** The record [change] journals. *)
Definition changed_record (inv : Inventory) (k : StateKey) (m : ReplicaMedium)
    (md : option ReplicaMetadata) : InventoryRecord :=
  mkRecord k (inv_sequence inv + 1) (match md with Some _ => true | None => false end)
    (match md with Some v => Some v | None => residents inv !! (k, m) ≫= metadata end).

(** [medium v = m] for the metadata that is published. *)
Definition publishable (m : ReplicaMedium) (md : option ReplicaMetadata) : Prop :=
  advertised m = true /\ forall v, md = Some v -> medium v = m.

Lemma change_unfold inv k m md now :
  publishable m md ->
  change size_of_record inv k m md now =
    if decide (residents inv !! (k, m) ≫= metadata = md) then Some inv
    else match checked_add (inv_sequence inv) 1 with
         | None => None
         | Some _ =>
             let record := changed_record inv k m md in
             match trim_journal size_of_record (byte_limit inv)
                     (u64_add (journal_bytes inv) (size record)) (journal inv ++ [record]) with
             | None => None
             | Some (bytes, j) =>
                 let mt := metrics inv in
                 Some (mkInventory
                   (if present record then <[(k, m) := record]> (residents inv)
                    else delete (k, m) (residents inv)) j (inv_sequence inv + 1) bytes
                   (Z.max (journal_bytes_peak inv) bytes)
                   (byte_limit inv) (history_gaps inv) (flush_through_sequence inv)
                   (mkMetrics now (delta_input_records mt) (delta_input_bytes mt)
                      (delta_output_records mt) (delta_frames mt) (delta_encoded_bytes mt)
                      (coalescing_windows mt) (coalescing_wait_micros mt)
                      (scope_filter_input_records mt) (scope_filter_output_records mt)
                      (scope_filter_micros mt)))
             end
         end.
Proof.
  intros [Ha Hm]. unfold change. rewrite Ha. simpl.
  replace (match md with Some v => negb (bool_decide (medium v = m)) | None => false end) with false.
  - destruct (decide _); [done|]. unfold checked_add. destruct (_ <=? _); done.
  - destruct md as [v|]; [|done]. by rewrite bool_decide_true by auto.
Qed.

Lemma residence_of_changed inv h k m md :
  tracks inv h -> publishable m md -> residents inv !! (k, m) ≫= metadata <> md ->
  residence_of (changed_record inv k m md) = Some (k, m).
Proof.
  intros (_ & _ & _ & Hres & _) [_ Hm] Hne. unfold residence_of. simpl.
  destruct md as [v|]; simpl; [by rewrite (Hm v)|].
  destruct (residents inv !! (k, m)) as [r|] eqn:E; simpl in *; [|done].
  rewrite Hres in E. apply replay_key in E as (v & -> & <- & _). done.
Qed.

(** A change that is needed extends the history by its record. *)
Lemma change_tracks inv h k m md now :
  tracks inv h -> publishable m md -> zlen h < u64_max ->
  byte_limit inv + size (changed_record inv k m md) <= u64_max ->
  exists inv', change size_of_record inv k m md now = Some inv' /\ byte_limit inv' = byte_limit inv /\
    ((residents inv !! (k, m) ≫= metadata = md /\ inv' = inv) \/
     tracks inv' (h ++ [changed_record inv k m md])).
Proof.
  intros Ht Hp Hseq Hb. rewrite change_unfold by done.
  destruct (decide _) as [Heq|Hne]; [by eauto 6|].
  pose proof (residence_of_changed inv h k m md Ht Hp Hne) as Hres.
  destruct Ht as (Hok & Hs & Hu & Hr & [dropped Hd] & Hbytes & Hlimit).
  unfold checked_add. rewrite (proj2 (Z.leb_le _ _)) by lia.
  set (record := changed_record inv k m md) in *. cbv zeta.
  assert (Hnn : 0 <= list_sum size (journal inv)) by apply list_sum_size_nonneg.
  pose proof (size_nonneg record).
  rewrite u64_add_exact by lia.
  replace (journal_bytes inv + size record) with (list_sum size (journal inv ++ [record])).
  2:{ rewrite list_sum_app. unfold list_sum at 2. simpl. lia. }
  destruct (trim_journal_spec (byte_limit inv) (journal inv ++ [record])) as (d & j' & -> & Hj & Hle).
  { lia. }
  { rewrite list_sum_app. unfold list_sum at 2. simpl. lia. }
  eexists. split; [done|]. split; [done|]. right. unfold tracks; simpl. split_and!.
  - intros i r Hi. apply lookup_app_Some in Hi as [Hi|[Hi Hi']]; [by apply Hok|].
    apply list_lookup_singleton_Some in Hi' as [Hi' <-].
    split; [unfold record, zlen in *; simpl; lia|].
    unfold residence_of in Hres. destruct (metadata record) as [v|]; [|done].
    injection Hres as Hv. exists v. split; [done|]. rewrite Hv. apply Hp.
  - rewrite zlen_app. unfold zlen at 2. simpl. lia.
  - rewrite zlen_app. unfold zlen at 2. simpl. lia.
  - rewrite replay_snoc. unfold apply_change. rewrite Hres, <- Hr. done.
  - exists (dropped ++ d). rewrite Hd, <- !app_assoc. by f_equal.
  - done.
  - done.
Qed.
End Tracks.

(** ** Reads *)

Section Reads.
Context (size_of_record : Z) (Hsize : 0 <= size_of_record).
Abbreviation size := (record_estimated_size size_of_record).
Abbreviation tracks := (tracks size_of_record).

(** A batch is a prefix of its source, not empty unless the source is. *)
Lemma bounded_loop_prefix source acc bytes rs :
  bounded_loop size_of_record source acc bytes = Ok rs ->
  exists n, rs = acc ++ take n source.
Proof.
  revert acc bytes. induction source as [|r source IH]; intros acc bytes; simpl.
  { intros [= <-]. exists 0%nat. by rewrite app_nil_r. }
  destruct (_ <? size r); [done|]. destruct (_ || _).
  - intros [= <-]. exists 0%nat. by rewrite take_0, app_nil_r.
  - intros [n ->]%IH. exists (S n). by rewrite <- app_assoc.
Qed.

Lemma bounded_records_prefix source rs :
  bounded_records size_of_record source = Ok rs ->
  rs = take (length rs) source /\ (source <> [] -> rs <> []).
Proof.
  unfold bounded_records. intros Hb. split.
  - apply bounded_loop_prefix in Hb as [n ->]. simpl. rewrite length_take.
    destruct (decide (n <= length source)%nat); [by rewrite Nat.min_l|].
    rewrite Nat.min_r by lia. by rewrite !take_ge by lia.
  - intros Hne. destruct source as [|r source]; [done|]. simpl in Hb.
    destruct (Z.ltb_spec INVENTORY_BATCH_BYTES (size r)); [done|].
    rewrite u64_add_exact in Hb; [|lia|by apply size_nonneg|]; cycle 1.
    { unfold INVENTORY_BATCH_BYTES, u64_max in *. lia. }
    rewrite (proj2 (Z.ltb_ge _ _)) in Hb by lia. simpl in Hb.
    apply bounded_loop_prefix in Hb as [n ->]. done.
Qed.

(** A batch fails only on a record that no batch can hold. *)
Definition oversized (r : InventoryRecord) : Prop := INVENTORY_BATCH_BYTES < size r.
Lemma bounded_records_Err source e :
  bounded_records size_of_record source = Err e -> e = RecordTooLarge /\ Exists oversized source.
Proof.
  unfold bounded_records. generalize (@nil InventoryRecord), 0.
  induction source as [|r source IH]; intros acc bytes; simpl; [done|].
  destruct (Z.ltb_spec INVENTORY_BATCH_BYTES (size r)); [intros [= <-]; split; [done|by left]|].
  destruct (_ || _); [done|]. intros [-> ?]%IH. split; [done|by right].
Qed.

(** The segment of a history between two sequence numbers. *)
Definition segment (h : list InventoryRecord) (a b : Z) : list InventoryRecord :=
  drop (Z.to_nat a) (take (Z.to_nat b) h).

Lemma lookup_segment h a b i :
  0 <= a -> (i < Z.to_nat b - Z.to_nat a)%nat -> segment h a b !! i = h !! (Z.to_nat a + i)%nat.
Proof. intros Ha Hi. unfold segment. rewrite lookup_drop. apply lookup_take_lt. lia. Qed.

Lemma length_segment h a b :
  b <= zlen h -> length (segment h a b) = (Z.to_nat b - Z.to_nat a)%nat.
Proof. unfold zlen. intros Hb. unfold segment. rewrite length_drop, length_take. lia. Qed.

Lemma take_segment h a b n :
  0 <= a -> a + Z.of_nat n <= b -> take n (segment h a b) = segment h a (a + Z.of_nat n).
Proof.
  intros Ha Hn. unfold segment. rewrite take_drop_commute, take_take. f_equal. f_equal. lia.
Qed.

(** [changes] of the journal window is the requested segment of the history. *)
Lemma journal_range_segment inv h a b r :
  tracks inv h -> 0 <= a < b -> b <= zlen h -> head (journal inv) = Some r ->
  sequence r <= a + 1 ->
  journal_range (journal inv) (u64_sub (u64_add a 1) (sequence r))
    (u64_add (u64_sub b (sequence r)) 1) = segment h a b.
Proof.
  intros (Hok & _ & Hu & _ & [dropped Hd] & _) Hab Hb Hhead Hseq.
  assert (Hr : h !! length dropped = Some r).
  { rewrite Hd, lookup_app_r, Nat.sub_diag by lia. by destruct (journal inv). }
  destruct (Hok _ _ Hr) as [Hs _]. rewrite Hs in *.
  rewrite (u64_add_exact a 1), !u64_sub_exact by lia. rewrite u64_add_exact by lia.
  unfold journal_range, segment. rewrite Hd.
  assert (Hlen : (length dropped <= Z.to_nat a)%nat) by lia.
  rewrite take_app, drop_app. rewrite (drop_ge (take _ dropped)).
  2:{ rewrite length_take. lia. }
  simpl. rewrite length_take. f_equal; [lia|]. f_equal. lia.
Qed.

(** What a read of the journal returns and when it reports a gap. *)
Lemma changes_spec inv h a b inv' res :
  tracks inv h -> is_u64 a -> is_u64 b -> changes size_of_record inv a b = (inv', res) ->
  tracks inv' h /\ byte_limit inv' = byte_limit inv /\
  match res with
  | Ok rs => a <= b <= zlen h /\ rs = take (length rs) (segment h a b) /\ (a < b -> rs <> [])
  | Err RecordTooLarge => a < b <= zlen h /\ Exists oversized (segment h a b)
  | Err HistoryGap => b < a \/ zlen h < b \/ a < zlen h - zlen (journal inv)
  | Err InvalidRecord => False
  end.
Proof.
  intros Ht [Ha _] [Hb _]. pose proof Ht as (Hok & Hs & Hu & _ & [dropped Hd] & _).
  unfold changes. destruct (_ || _) eqn:E.
  { intros [= <- <-]. split; [exact Ht|]. split; [done|].
    destruct (Z.ltb_spec b a); [by left|]. destruct (Z.ltb_spec (inv_sequence inv) b); [lia|].
    simpl in E. right; right. destruct (Z.eqb_spec a (inv_sequence inv)); [done|].
    subst h. rewrite zlen_app in *. unfold zlen in *.
    destruct (journal inv) as [|r j] eqn:Ej; simpl in *; [lia|].
    assert (Hr : (dropped ++ r :: j) !! length dropped = Some r).
    { rewrite lookup_app_r, Nat.sub_diag by lia. done. }
    destruct (Hok _ _ Hr) as [Hq _]. rewrite u64_add_exact in E by lia. lia. }
  apply orb_false_iff in E as [[Eab Ebs]%orb_false_iff Egap].
  destruct (Z.eqb_spec a b) as [->|Hne].
  { intros [= <- <-]. split; [exact Ht|]. split; [done|]. split; [lia|]. split; [done|lia]. }
  assert (a < b) by lia.
  destruct (head (journal inv)) as [r|] eqn:Ehead; cycle 1.
  { rewrite (proj2 (Z.eqb_neq a _)) in Egap by lia. done. }
  intros [= <- <-]. split; [exact Ht|]. split; [done|].
  rewrite (proj2 (Z.eqb_neq a _)) in Egap by lia. simpl in Egap.
  rewrite u64_add_exact in Egap by lia.
  rewrite (journal_range_segment inv h) by (lia || done).
  destruct (bounded_records _ _) as [rs|e] eqn:Er.
  - apply bounded_records_prefix in Er as [Hp Hn]. split; [lia|]. split; [done|].
    intros _. apply Hn. intros Hnil. pose proof (length_segment h a b ltac:(lia)) as Hl.
    rewrite Hnil in Hl. simpl in Hl. lia.
  - apply bounded_records_Err in Er as [-> Hov]. split; [lia|done].
Qed.
End Reads.

(** The last record of a batch for a residence. *)
Definition last_of (input : list InventoryRecord) (k : Residence) : option InventoryRecord :=
  last (filter (fun r => residence_of r = Some k) input).

Definition in_scope (scope : InventoryScope) (k : Residence) : bool := contains scope (namespace k.1).

Lemma coalesce_spec scope input acc :
  Forall (fun r => is_Some (metadata r)) input ->
  exists m, coalesce scope input acc = Ok m /\
  forall k, m !! k = if in_scope scope k
                     then match last_of input k with Some r => Some r | None => acc !! k end
                     else acc !! k.
Proof.
  intros Hmd. revert acc. induction Hmd as [|r input [md Hr] Hmd IH]; intros acc; simpl.
  { exists acc. split; [done|]. intros k. by destruct (in_scope scope k). }
  rewrite Hr. destruct (IH (if contains scope (namespace (key r))
    then <[(key r, medium md):=r]> acc else acc)) as (m & -> & Hm).
  exists m. split; [done|]. intros k. rewrite Hm. unfold last_of. rewrite filter_cons.
  assert (Hres : residence_of r = Some (key r, medium md)) by (unfold residence_of; by rewrite Hr).
  rewrite Hres. destruct (decide (Some (key r, medium md) = Some k)) as [[= <-]|Hne].
  - unfold in_scope; cbn [fst]. destruct (contains scope (namespace (key r))) eqn:Ec; [|done].
    rewrite last_cons.
    destruct (last _); [done|]. by rewrite lookup_insert_eq.
  - assert ((key r, medium md) <> k) by (intros Hk; apply Hne; by rewrite Hk).
    destruct (contains scope (namespace (key r))); [|done].
    by rewrite lookup_insert_ne by done.
Qed.

Lemma last_of_Some input k r :
  last_of input k = Some r -> exists i, input !! i = Some r /\ residence_of r = Some k /\
    forall j r', (i < j)%nat -> input !! j = Some r' -> residence_of r' <> Some k.
Proof.
  unfold last_of. induction input as [|x input IH] using rev_ind; [done|].
  rewrite filter_app, filter_cons. destruct (decide (residence_of x = Some k)) as [Hx|Hx].
  - rewrite filter_nil, last_snoc. intros [= <-]. exists (length input).
    split; [by rewrite lookup_app_r, Nat.sub_diag by lia|]. split; [done|].
    intros j r' Hj Hr'. apply lookup_lt_Some in Hr'. rewrite length_app in Hr'. simpl in Hr'. lia.
  - rewrite filter_nil, app_nil_r. intros (i & Hi & Hk & Hno)%IH. exists i.
    pose proof (lookup_lt_Some _ _ _ Hi). rewrite lookup_app_l by done. split_and!; [done..|].
    intros j r' Hj [Hr'|[_ [_ <-]%list_lookup_singleton_Some]]%lookup_app_Some; [eauto|done].
Qed.

Lemma last_of_None input k :
  last_of input k = None <-> forall r, r ∈ input -> residence_of r <> Some k.
Proof.
  unfold last_of. rewrite last_None. split.
  - intros Hf r Hr Hk. assert (r ∈ filter (fun r => residence_of r = Some k) input)
      by (by apply list_elem_of_filter). rewrite Hf in *. set_solver.
  - intros Hall. destruct (filter _ _) as [|r l] eqn:E; [done|].
    assert (Hin : r ∈ filter (fun r => residence_of r = Some k) input) by (rewrite E; left).
    apply list_elem_of_filter in Hin as [Hk Hin]. by apply Hall in Hin.
Qed.

(** ** Snapshot pages *)

Section Pages.
Context (size_of_record : Z).

Lemma page_loop_spec scope source scanned bytes acc nxt recs nxt' complete n :
  page_loop size_of_record scope source scanned bytes acc nxt = Ok (recs, nxt', complete, n) ->
  exists taken rest, source = taken ++ rest /\
    recs = acc ++ (filter (fun p => contains scope (namespace (key p.2)) = true) taken).*2 /\
    nxt' = (match last taken with Some p => Some p.1 | None => nxt end) /\
    (complete = true <-> rest = []) /\
    (scanned = 0 -> source <> [] -> taken <> []).
Proof.
  revert scanned bytes acc nxt. induction source as [|[k r] source IH]; intros scanned bytes acc nxt; simpl.
  { intros [= <- <- <- <-]. exists [], []. rewrite filter_nil, fmap_nil, !app_nil_r. done. }
  destruct (_ || _) eqn:E.
  { intros [= <- <- <- <-]. exists [], ((k, r) :: source). rewrite filter_nil, fmap_nil, !app_nil_r.
    split_and!; try done. intros ->. unfold INVENTORY_BATCH_RECORDS in E. done. }
  destruct ((scanned =? 0) && _); [done|].
  intros (taken & rest & -> & -> & -> & Hc & _)%IH. exists ((k, r) :: taken), rest.
  split; [done|]. split_and!; [|by rewrite last_cons; destruct (last taken)|done|done].
  rewrite filter_cons. simpl. destruct (contains scope (namespace (key r))) eqn:Ec.
  - rewrite decide_True by done. by rewrite <- app_assoc.
  - by rewrite decide_False by done.
Qed.

Lemma elem_of_items_after m after k r :
  (k, r) ∈ items_after m after <-> m !! k = Some r /\ is_after after k = true.
Proof. unfold items_after. rewrite list_elem_of_filter, elem_of_btree_items. simpl. naive_solver. Qed.

Lemma filter_sorted {A} (R : A -> A -> Prop) (P : A -> Prop) `{forall x, Decision (P x)} (l : list A) :
  StronglySorted R l -> StronglySorted R (filter P l).
Proof.
  induction 1 as [|x l Hs IH Hx]; [constructor|]. rewrite filter_cons.
  destruct (decide (P x)); [|done]. constructor; [done|].
  rewrite Forall_forall in Hx |- *. intros y [_ Hy]%list_elem_of_filter. auto.
Qed.

Lemma items_after_sorted m after : StronglySorted item_lt (items_after m after).
Proof. apply filter_sorted, btree_items_sorted. Qed.

(** Within a page's range: after the cursor and, unless the page is the last, up to [next]. *)
Definition in_page (after : option Residence) (p : InventoryPage) (k : Residence) : Prop :=
  is_after after k = true /\
  (page_complete p = true \/ exists n, next p = Some n /\ key_le k n).

Lemma sorted_app_lt (l1 l2 : list (Residence * InventoryRecord)) x y :
  StronglySorted item_lt (l1 ++ l2) -> x ∈ l1 -> y ∈ l2 -> item_lt x y.
Proof.
  induction l1 as [|a l1 IH]; intros Hs Hx Hy; [set_solver|].
  inversion Hs as [|? ? Hs' Ha]; subst. apply elem_of_cons in Hx as [->|Hx]; [|auto].
  rewrite Forall_forall in Ha. apply Ha. set_solver.
Qed.

Lemma sorted_app_l (l1 l2 : list (Residence * InventoryRecord)) :
  StronglySorted item_lt (l1 ++ l2) -> StronglySorted item_lt l1.
Proof.
  induction l1 as [|a l1 IH]; intros Hs; [constructor|].
  inversion Hs as [|? ? Hs' Ha]; subst. constructor; [auto|].
  rewrite Forall_forall in Ha |- *. intros x Hx. apply Ha. set_solver.
Qed.

Lemma sorted_last_max (l : list (Residence * InventoryRecord)) x p :
  StronglySorted item_lt l -> last l = Some p -> x ∈ l -> key_le x.1 p.1.
Proof.
  intros Hs Hlast Hx. apply last_Some in Hlast as [l' ->].
  apply elem_of_app in Hx as [Hx|Hx%list_elem_of_singleton].
  - apply key_lt_le. apply (sorted_app_lt l' [p] x p); [done..|]. set_solver.
  - subst. apply key_le_lt_eq. by right.
Qed.

(** The scanned residences of a page, in order. *)
Lemma scoped_page_taken inv after scope el inv' p :
  scoped_page size_of_record inv after scope el = (inv', Ok p) ->
  exists taken : list (Residence * InventoryRecord), page_records p =
      (filter (fun q => contains scope (namespace (key q.2)) = true) taken).*2 /\
    StronglySorted item_lt taken /\
    (forall k r, (k, r) ∈ taken <-> residents inv !! k = Some r /\ in_page after p k) /\
    (page_complete p = false -> exists n, next p = Some n /\ is_after after n = true) /\
    (forall n, next p = Some n -> is_after after n = true) /\
    residents inv' = residents inv /\ inv_sequence inv' = inv_sequence inv /\
    journal inv' = journal inv /\ journal_bytes inv' = journal_bytes inv /\
    byte_limit inv' = byte_limit inv.
Proof.
  unfold scoped_page. destruct (page_loop _ _ _ _ _ _ _) as [[[[recs nxt] complete] n]|] eqn:E; [|done].
  intros [= <- <-]. apply page_loop_spec in E as (taken & rest & Hsrc & Hrecs & Hnxt & Hc & Hprog).
  pose proof (items_after_sorted (residents inv) after) as Hs. rewrite Hsrc in Hs.
  exists taken. simpl. split; [done|]. split; [by eapply sorted_app_l|].
  assert (Hel : forall k r, (k, r) ∈ taken ++ rest <-> residents inv !! k = Some r /\ is_after after k = true)
    by (intros k r; rewrite <- Hsrc; apply elem_of_items_after).
  assert (Hnx : forall n0, nxt = Some n0 -> exists r, last taken = Some (n0, r)).
  { intros n0. rewrite Hnxt. destruct (last taken) as [[k r]|]; naive_solver. }
  split_and!; try done.
  - intros k r. split.
    + intros Hin. destruct (proj1 (Hel k r) ltac:(set_solver)) as [Hk Ha].
      split; [done|]. split; [done|]. right. simpl. rewrite Hnxt.
      destruct (last taken) as [q|] eqn:El; [|apply last_None in El; set_solver].
      exists q.1. split; [done|]. apply (sorted_last_max taken (k, r) q); [|done..].
      by eapply sorted_app_l.
    + intros (Hk & Ha & Hup). simpl in Hup. assert (Hin : (k, r) ∈ taken ++ rest) by (by apply Hel).
      apply elem_of_app in Hin as [|Hin]; [done|]. exfalso.
      destruct Hup as [Hcmp|(n0 & Hn0 & Hle)].
      * apply Hc in Hcmp as ->. set_solver.
      * destruct (Hnx n0 Hn0) as [r0 Hl0]. apply last_Some in Hl0 as [l' ->].
        pose proof (sorted_app_lt _ _ (n0, r0) (k, r) Hs ltac:(set_solver) Hin) as Hlt.
        unfold item_lt in Hlt. simpl in Hlt. apply key_not_le in Hlt. done.
  - intros ->. destruct (last taken) as [[k r]|] eqn:El.
    + exists k. rewrite Hnxt. split; [done|]. apply last_Some in El as [l' ->].
      apply (Hel k r). set_solver.
    + exfalso. apply last_None in El as ->.
      assert (rest <> []) by (intros ->; discriminate (proj2 Hc eq_refl)).
      apply (Hprog eq_refl); [by rewrite Hsrc|done].
  - intros n0 Hn0. destruct (Hnx n0 Hn0) as [r0 Hl0]. apply last_Some in Hl0 as [l' ->].
    apply (Hel n0 r0). set_solver.
Qed.
End Pages.

(** ** What the reads promise *)

Section Contracts.
Context (size_of_record : Z) (Hsize : 0 <= size_of_record).
Abbreviation tracks := (tracks size_of_record).

Lemma segment_metadata h a b :
  history_ok h -> Forall (fun r => is_Some (metadata r)) (segment h a b).
Proof.
  intros Hok. apply Forall_forall. intros r (i & Hi)%list_elem_of_lookup.
  unfold segment in Hi. rewrite lookup_drop in Hi. apply lookup_take_Some in Hi as [Hi _].
  destruct (Hok _ _ Hi) as (_ & md & Hmd & _). eauto.
Qed.

Lemma last_segment_sequence h a b r :
  history_ok h -> 0 <= a <= b -> b <= zlen h -> last (segment h a b) = Some r -> sequence r = b.
Proof.
  intros Hok Hab Hb Hl. rewrite last_lookup in Hl.
  pose proof (lookup_lt_Some _ _ _ Hl) as Hlt. rewrite length_segment in Hlt, Hl by done.
  rewrite lookup_segment in Hl by lia. destruct (Hok _ _ Hl) as [-> _]. lia.
Qed.

(** A coalesced read advances through a prefix of the requested interval and carries, for every
    residence in scope, the last change it had there. *)
Definition delta_of (h : list InventoryRecord) (scope : InventoryScope) (a : Z) (d : InventoryDelta) : Prop :=
  exists m, delta_records d = btree_values m /\
  forall k, m !! k = if in_scope scope k then last_of (segment h a (through d)) k else None.

Lemma coalesced_spec inv h a b scope el inv' res :
  tracks inv h -> is_u64 a -> is_u64 b ->
  coalesced_changes_scoped size_of_record inv a b scope el = (inv', res) ->
  tracks inv' h /\ byte_limit inv' = byte_limit inv /\
  match res with
  | Ok d => a <= through d <= b /\ b <= zlen h /\ (a < b -> a < through d) /\ delta_of h scope a d /\
           input_records d = through d - a
  | Err RecordTooLarge => a < b <= zlen h /\ Exists (oversized size_of_record) (segment h a b)
  | Err HistoryGap => b < a \/ zlen h < b \/ a < zlen h - zlen (journal inv)
  | Err InvalidRecord => False
  end.
Proof.
  intros Ht Ha Hb. unfold coalesced_changes_scoped.
  destruct (changes size_of_record inv a b) as [inv1 res1] eqn:Ec.
  apply (changes_spec _ Hsize inv h) in Ec as (Ht1 & Hl1 & Hres); [|done..].
  destruct res1 as [rs|e]; [|intros [= <- <-]; done].
  destruct Hres as (Hab & Hrs & Hne). pose proof Ht1 as (Hok & _).
  destruct Ha as [Ha _].
  assert (Hlen : (length rs <= Z.to_nat b - Z.to_nat a)%nat).
  { rewrite Hrs, length_take, length_segment by lia. lia. }
  assert (Hrs' : rs = segment h a (a + Z.of_nat (length rs))).
  { rewrite <- take_segment with (b := b) by lia. done. }
  assert (Hthr : match last rs with Some r => sequence r | None => a end = a + Z.of_nat (length rs)).
  { destruct (last rs) as [r|] eqn:El.
    - rewrite Hrs' in El. apply last_segment_sequence in El; [done|done|lia|lia].
    - apply last_None in El. rewrite El. simpl. lia. }
  rewrite Hthr. destruct (coalesce_spec scope rs ∅) as (m & -> & Hm).
  { rewrite Hrs'. by apply segment_metadata. }
  intros [= <- <-]. split; [exact Ht1|]. split; [done|]. simpl. split_and!; try lia.
  - intros Hlt. specialize (Hne Hlt). destruct rs; [done|]. simpl. lia.
  - exists m. split; [done|]. intros k. rewrite Hm, lookup_empty. simpl. rewrite <- Hrs'.
    by destruct (in_scope scope k), (last_of rs k).
  - unfold zlen. lia.
Qed.

Lemma scoped_page_tracks inv h after scope el inv' res :
  tracks inv h -> scoped_page size_of_record inv after scope el = (inv', res) ->
  tracks inv' h /\ byte_limit inv' = byte_limit inv.
Proof.
  intros Ht. unfold scoped_page. destruct (page_loop _ _ _ _ _ _ _) as [[[[? ?] ?] ?]|];
    intros [= <- <-]; done.
Qed.
End Contracts.

Lemma initial_tracks size_of_record limit window inv :
  0 <= limit -> with_publish_coalescing limit window = Ok inv -> tracks size_of_record inv [].
Proof.
  unfold with_publish_coalescing. intros Hl. destruct (_ <? _); [done|]. intros [= <-].
  unfold tracks; simpl. split_and!; try done; try (unfold zlen, u64_max; simpl; lia).
  by exists [].
Qed.

(** C22. Publishing a residency change keeps the inventory a faithful image of its history: the
    call returns (its journal eviction loop ends), a change that says nothing new leaves
    everything as it is, any other appends exactly one record with the next sequence number, and
    afterwards the block has the published metadata at that tier while all other residences are
    untouched. *)
Theorem change_refines_history size_of_record inv h k m md now :
  0 <= size_of_record -> tracks size_of_record inv h -> publishable m md -> zlen h < u64_max ->
  byte_limit inv + record_estimated_size size_of_record (changed_record inv k m md) <= u64_max ->
  exists inv' h', change size_of_record inv k m md now = Some inv' /\ tracks size_of_record inv' h' /\
    (h' = h \/ h' = h ++ [changed_record inv k m md]) /\
    residents inv' !! (k, m) ≫= metadata = md /\
    forall k', k' <> (k, m) -> residents inv' !! k' = residents inv !! k'.
Proof.
  intros Hsz Ht Hp Hseq Hb.
  destruct (decide (residents inv !! (k, m) ≫= metadata = md)) as [Heq|Hne].
  - exists inv, h. rewrite change_unfold, decide_True by done. split_and!; auto.
  - destruct (change_tracks size_of_record Hsz inv h k m md now Ht Hp Hseq Hb)
      as (inv' & Hc & _ & [[? _]|Ht']); [done|].
    pose proof (residence_of_changed size_of_record inv h k m md Ht Hp Hne) as Hres.
    exists inv', (h ++ [changed_record inv k m md]). split_and!; auto.
    + destruct Ht' as (_ & _ & _ & -> & _). rewrite replay_snoc_lookup, decide_True by done.
      by destruct md.
    + intros k' Hk. destruct Ht' as (_ & _ & _ & -> & _). rewrite replay_snoc_lookup.
      destruct Ht as (_ & _ & _ & -> & _). rewrite decide_False; [done|]. congruence.
Qed.

Definition sample_key : StateKey := mkStateKey (str "n") (str "h").
Definition sample_md : ReplicaMetadata := mkMetadata Dram Raw (Some 64).
Definition empty_inventory : Inventory := mkInventory ∅ [] 0 0 0 1024 0 0 zero_metrics.

Lemma change_refines_history_witness :
  exists inv' h', change 88 empty_inventory sample_key Dram (Some sample_md) 7 = Some inv' /\
    tracks 88 inv' h' /\
    (h' = [] \/ h' = [changed_record empty_inventory sample_key Dram (Some sample_md)]) /\
    residents inv' !! (sample_key, Dram) ≫= metadata = Some sample_md /\
    forall k', k' <> (sample_key, Dram) -> residents inv' !! k' = residents empty_inventory !! k'.
Proof.
  apply (change_refines_history 88 empty_inventory [] sample_key Dram (Some sample_md) 7).
  - lia.
  - apply (initial_tracks 88 1024 0); [lia|reflexivity].
  - split; [reflexivity|]. intros v [= <-]. reflexivity.
  - unfold u64_max, zlen. simpl. lia.
  - vm_compute. discriminate.
Defined.

(** The members of a page. *)
Lemma scoped_page_members size_of_record inv after scope el inv' p :
  scoped_page size_of_record inv after scope el = (inv', Ok p) ->
  (forall k r, residents inv !! k = Some r -> residence_of r = Some k) ->
  forall r, r ∈ page_records p <->
    exists k, residents inv !! k = Some r /\ in_page after p k /\ in_scope scope k = true.
Proof.
  intros (taken & Hrec & _ & Hin & _)%scoped_page_taken Hkey r.
  assert (Hk : forall k, (k, r) ∈ taken -> key r = k.1).
  { intros k [Hr _]%Hin. apply Hkey in Hr. unfold residence_of in Hr.
    destruct (metadata r); [|done]. simpl in Hr. by injection Hr as <-. }
  rewrite Hrec, list_elem_of_fmap. split.
  - intros ([k r'] & -> & [Hc Ht]%list_elem_of_filter). simpl in *. exists k.
    pose proof (Hk k Ht) as Heq. apply Hin in Ht as [Hr Hp]. unfold in_scope. by rewrite <- Heq.
  - intros (k & Hr & Hp & Hc). exists (k, r). split; [done|].
    assert (Ht : (k, r) ∈ taken) by (by apply Hin).
    apply list_elem_of_filter. simpl. by rewrite (Hk k Ht).
Qed.

(** A snapshot page is exact: it lists, in residence order, precisely the residents in scope
    whose residence lies after the cursor and up to the page's last scanned residence; a page that
    is not the last one moves the cursor strictly forward, and the last page leaves no resident
    after the cursor unscanned. *)
Theorem scoped_page_exact size_of_record inv after scope el inv' p :
  scoped_page size_of_record inv after scope el = (inv', Ok p) ->
  (forall k r, residents inv !! k = Some r -> residence_of r = Some k) ->
  (forall r, r ∈ page_records p <->
     exists k, residents inv !! k = Some r /\ in_page after p k /\ in_scope scope k = true) /\
  StronglySorted (fun r1 r2 => exists k1 k2, residence_of r1 = Some k1 /\ residence_of r2 = Some k2 /\
                               key_lt k1 k2) (page_records p) /\
  (page_complete p = false -> exists n, next p = Some n /\ is_after after n = true) /\
  residents inv' = residents inv.
Proof.
  intros Hpage Hkey. pose proof (scoped_page_members _ _ _ _ _ _ _ Hpage Hkey) as Hmem.
  apply scoped_page_taken in Hpage as (taken & Hrec & Hs & Hin & Hnext & _ & Hres & _).
  assert (Hk : forall k r, (k, r) ∈ taken -> key r = k.1 /\ residence_of r = Some k).
  { intros k r [Hr _]%Hin. apply Hkey in Hr as Hr'. split; [|done].
    unfold residence_of in Hr'. destruct (metadata r); [|done]. simpl in Hr'. by injection Hr' as <-. }
  split_and!; [done| |done|done].
  rewrite Hrec. clear Hrec Hin Hnext Hres Hmem.
  induction Hs as [|[k r] taken Hs IH Hlt]; [constructor|]. rewrite filter_cons.
    assert (Hk' : forall k r, (k, r) ∈ taken -> key r = k.1 /\ residence_of r = Some k)
      by (intros k' r' Hin; apply Hk; by right).
    destruct (decide _); [|by apply IH]. rewrite fmap_cons. constructor; [by apply IH|].
    rewrite Forall_forall in Hlt. apply Forall_forall. 
    intros r' ([k' r''] & -> & [_ Hin]%list_elem_of_filter)%list_elem_of_fmap.
    exists k, k'. split_and!; [apply (Hk k r); left|by apply (Hk' k' r'')|by apply (Hlt (k', r''))].
Qed.

(** Two residents, of which the scope admits one. *)
Definition sample_record (ns : bytes) (seq : Z) : InventoryRecord :=
  mkRecord (mkStateKey ns (str "h")) seq true (Some sample_md).
Definition sample_inventory : Inventory :=
  mkInventory (<[(mkStateKey (str "b") (str "h"), Dram) := sample_record (str "b") 2]>
               (<[(mkStateKey (str "a") (str "h"), Dram) := sample_record (str "a") 1]> ∅))
    [sample_record (str "a") 1; sample_record (str "b") 2] 2 180 180 1024 0 0 zero_metrics.

Lemma scoped_page_exact_witness :
  let p := mkPage [sample_record (str "b") 2] (Some (mkStateKey (str "b") (str "h"), Dram)) true in
  let scope := ExactNamespaces [str "b"] in
  (forall r, r ∈ page_records p <->
     exists k, residents sample_inventory !! k = Some r /\ in_page None p k /\ in_scope scope k = true) /\
  StronglySorted (fun r1 r2 => exists k1 k2, residence_of r1 = Some k1 /\ residence_of r2 = Some k2 /\
                               key_lt k1 k2) (page_records p) /\
  (page_complete p = false -> exists n, next p = Some n /\ is_after None n = true) /\
  residents (count_scoped sample_inventory 2 1 0) = residents sample_inventory.
Proof.
  apply (scoped_page_exact 88 sample_inventory None (ExactNamespaces [str "b"]) 0
           (count_scoped sample_inventory 2 1 0)).
  - vm_compute. reflexivity.
  - intros k r Hr. unfold sample_inventory in Hr. simpl in Hr.
    apply lookup_insert_Some in Hr as [[<- <-]|[_ Hr]]; [reflexivity|].
    apply lookup_insert_Some in Hr as [[<- <-]|[_ Hr]]; [reflexivity|].
    by rewrite lookup_empty in Hr.
Defined.

(** C23. A journal read is exact: whatever interval is asked for, an answer is a non-empty prefix of
    that interval of the history with, per residence in scope, only its last change; the read
    fails with a gap only if the interval is reversed, ends past the head, or starts before the
    oldest journaled change, as too large only if a change of the interval exceeds the limit of a
    batch by itself, and never because a journaled record is malformed. *)
Theorem coalesced_changes_exact size_of_record inv h a b scope el inv' res :
  0 <= size_of_record -> tracks size_of_record inv h -> is_u64 a -> is_u64 b ->
  coalesced_changes_scoped size_of_record inv a b scope el = (inv', res) ->
  tracks size_of_record inv' h /\
  match res with
  | Ok d => a <= through d <= b /\ b <= zlen h /\ (a < b -> a < through d) /\ delta_of h scope a d
  | Err RecordTooLarge => a < b <= zlen h /\ Exists (oversized size_of_record) (segment h a b)
  | Err HistoryGap => b < a \/ zlen h < b \/ a < zlen h - zlen (journal inv)
  | Err InvalidRecord => False
  end.
Proof.
  intros Hsz Ht Ha Hb Hc.
  destruct (coalesced_spec size_of_record Hsz inv h a b scope el inv' res Ht Ha Hb Hc) as (? & _ & Hres).
  split; [done|]. destruct res as [d|[]]; naive_solver.
Qed.

Lemma sample_tracks :
  tracks 88 sample_inventory [sample_record (str "a") 1; sample_record (str "b") 2].
Proof.
  unfold tracks. split_and!.
  - intros [|[|i]] r Hr; simpl in Hr; [injection Hr as <-..|done];
      (split; [reflexivity|]; exists sample_md; done).
  - reflexivity.
  - vm_compute. discriminate.
  - reflexivity.
  - by exists [].
  - reflexivity.
  - vm_compute. discriminate.
Qed.

Lemma coalesced_changes_exact_witness :
  let d := mkDelta 2 [sample_record (str "b") 2] 2 180 in
  tracks 88 (count_scoped sample_inventory 2 1 0) [sample_record (str "a") 1; sample_record (str "b") 2] /\
  0 <= through d <= 2 /\ 2 <= zlen [sample_record (str "a") 1; sample_record (str "b") 2] /\
  (0 < 2 -> 0 < through d) /\
  delta_of [sample_record (str "a") 1; sample_record (str "b") 2] (ExactNamespaces [str "b"]) 0 d.
Proof.
  apply (coalesced_changes_exact 88 sample_inventory _ 0 2 (ExactNamespaces [str "b"]) 0
           (count_scoped sample_inventory 2 1 0) (Ok (mkDelta 2 [sample_record (str "b") 2] 2 180))).
  - lia.
  - apply sample_tracks.
  - unfold is_u64, u64_max. lia.
  - unfold is_u64, u64_max. lia.
  - vm_compute. reflexivity.
Defined.
