(* ===== verification/Membership.v ===== *)
(** * Membership evidence

    [orbitkv-catalog/src/membership.rs]: which runtimes are members, whether this runtime's own
    registration still holds, and the permanent fence.  Instants are nanoseconds of the monotonic
    clock, given to each operation as [now]. *)
From S2P Require Import Prelude Containers State.

Local Open Scope Z_scope.

(** The last representable [Instant] of the platform clock. *)
Definition INSTANT_MAX : Z := i64_max * 1000000000 + 999999999.
Definition instant_checked_add (t d : Z) : option Z :=
  if t + d <=? INSTANT_MAX then Some (t + d) else None.

Record MembershipState := mkMembership {
  members : gmap Uuid CacheOwner;
  ready : bool;
  valid_until : option Z;
  fenced : bool
}.

(** The owner is fixed at construction; the lock guards the rest. *)
Record MembershipView := mkMembershipView { own : CacheOwner; mstate : MembershipState }.

Definition membership_new (o : CacheOwner) : MembershipView :=
  mkMembershipView o (mkMembership ∅ false None false).

(** [valid_until.is_some_and(|until| now < until)]. *)
Definition before_deadline (s : MembershipState) (now : Z) : bool :=
  match valid_until s with Some u => now <? u | None => false end.

Definition resolve (v : MembershipView) (now : Z) (inc : Uuid) : option CacheOwner :=
  let s := mstate v in
  if fenced s || negb (ready s)
     || match valid_until s with Some u => u <=? now | None => true end
  then None
  else members s !! inc.

Definition renew (v : MembershipView) (now sent_at ttl : Z) : MembershipView * bool :=
  let s := mstate v in
  let deadline := instant_checked_add sent_at (ttl / 2) in
  if fenced s
     || match valid_until s with Some u => u <=? now | None => false end
     || match deadline with Some u => u <=? now | None => true end
  then (mkMembershipView (own v) (mkMembership (members s) (ready s) (valid_until s) true), false)
  else (mkMembershipView (own v) (mkMembership (members s) (ready s) deadline (fenced s)), true).

(** [collect] into a [HashMap]: a later entry replaces an earlier one. *)
Definition members_of (ms : list (bytes * CacheOwner)) : gmap Uuid CacheOwner :=
  foldl (fun m p => <[incarnation p.2 := p.2]> m) ∅ ms.

Definition replace_members (v : MembershipView) (ms : list (bytes * CacheOwner)) : MembershipView :=
  let s := mstate v in
  let m := members_of ms in
  mkMembershipView (own v)
    (mkMembership m true (valid_until s)
       (if decide (m !! incarnation (own v) = Some (own v)) then fenced s else true)).

Definition invalidate_snapshot (v : MembershipView) : MembershipView :=
  let s := mstate v in
  mkMembershipView (own v) (mkMembership ∅ false (valid_until s) (fenced s)).

Definition fence (v : MembershipView) : MembershipView :=
  let s := mstate v in
  mkMembershipView (own v) (mkMembership (members s) (ready s) (valid_until s) true).

Definition registration_valid (v : MembershipView) (now : Z) : bool :=
  negb (fenced (mstate v)) && before_deadline (mstate v) now.

Definition permits (v : MembershipView) (now : Z) (o : CacheOwner) : bool :=
  let s := mstate v in
  negb (fenced s) && ready s && before_deadline s now
  && bool_decide (members s !! incarnation o = Some o).

(** ** Executions *)

(** What the control plane does to the view, each at a clock reading. *)
Inductive MembershipOp :=
| Renew (sent_at ttl : Z)
| ReplaceMembers (ms : list (bytes * CacheOwner))
| InvalidateSnapshot
| Fence.

Definition membership_step (v : MembershipView) (now : Z) (op : MembershipOp) : MembershipView :=
  match op with
  | Renew sent_at ttl => (renew v now sent_at ttl).1
  | ReplaceMembers ms => replace_members v ms
  | InvalidateSnapshot => invalidate_snapshot v
  | Fence => fence v
  end.

(** Operations happen at clock readings that never go back. *)
Inductive membership_run : MembershipView -> Z -> MembershipView -> Z -> Prop :=
| run_done v t t' : t <= t' -> membership_run v t v t'
| run_step v t now op v' t' :
    t <= now -> membership_run (membership_step v now op) now v' t' -> membership_run v t v' t'.

(** The registration can no longer become valid: fenced, or past its deadline. *)
Definition lapsed (v : MembershipView) (now : Z) : Prop :=
  fenced (mstate v) = true \/ exists u, valid_until (mstate v) = Some u /\ u <= now.

Lemma lapsed_later v t t' : t <= t' -> lapsed v t -> lapsed v t'.
Proof. intros Ht [Hf|(u & Hu & Hle)]; [by left|]. right. exists u. split; [done|lia]. Qed.

Lemma lapsed_step v now op : lapsed v now -> lapsed (membership_step v now op) now.
Proof.
  intros Hl. destruct op as [sent ttl|ms| |]; simpl.
  - unfold renew. destruct (_ || _ || _) eqn:E; [by left|]. exfalso.
    apply orb_false_iff in E as [[Ef Ev]%orb_false_iff _].
    destruct Hl as [Hf|(u & Hu & Hle)]; [congruence|]. rewrite Hu in Ev. lia.
  - unfold replace_members, lapsed in *; simpl. destruct (decide _); [done|]. by left.
  - done.
  - by left.
Qed.

Lemma lapsed_run v t v' t' : membership_run v t v' t' -> lapsed v t -> lapsed v' t'.
Proof.
  induction 1 as [v t t' Ht|v t now op v' t' Ht _ IH]; intros Hl; [by eapply lapsed_later|].
  apply IH, lapsed_step. by eapply lapsed_later.
Qed.

Lemma lapsed_invalid v now : lapsed v now -> registration_valid v now = false.
Proof.
  unfold registration_valid, before_deadline. intros [->|(u & -> & Hle)]; [done|].
  rewrite (proj2 (Z.ltb_ge _ _)) by lia. apply andb_false_r.
Qed.

Lemma resolve_permits v now inc o :
  resolve v now inc = Some o ->
  fenced (mstate v) = false /\ ready (mstate v) = true /\ before_deadline (mstate v) now = true /\
  members (mstate v) !! inc = Some o.
Proof.
  unfold resolve, before_deadline. destruct (_ || _ || _) eqn:E; [done|]. intros Hm.
  apply orb_false_iff in E as [[Ef Er]%orb_false_iff Ev]. apply negb_false_iff in Er.
  split_and!; try done. destruct (valid_until (mstate v)) as [u|]; [|done]. lia.
Qed.

(** A runtime whose registration lapsed, by its deadline passing or by a fence, stays out: no
    later sequence of renewals (however their acknowledgements were delayed), membership
    snapshots or invalidations makes it valid, permits it or resolves a peer again. *)
Theorem lapsed_forever v t v' t' :
  membership_run v t v' t' -> lapsed v t ->
  registration_valid v' t' = false /\ (forall o, permits v' t' o = false) /\
  forall inc, resolve v' t' inc = None.
Proof.
  intros Hrun Hl. pose proof (lapsed_run _ _ _ _ Hrun Hl) as Hl'.
  assert (Hv : registration_valid v' t' = false) by (by apply lapsed_invalid).
  split_and!; [done| |].
  - intros o. unfold registration_valid, permits in *.
    destruct (fenced (mstate v')), (ready (mstate v')), (before_deadline (mstate v') t'); done.
  - intros inc. destruct (resolve v' t' inc) eqn:E; [|done].
    apply resolve_permits in E as (Hf & _ & Hb & _). unfold registration_valid in Hv.
    rewrite Hf, Hb in Hv. done.
Qed.

Definition sample_owner : CacheOwner := mkOwner (str "e") 9.
Definition sample_members : MembershipView :=
  mkMembershipView sample_owner (mkMembership ∅ true (Some 100) false).

Lemma lapsed_forever_witness :
  let v' := membership_step sample_members 150 (Renew 149 1000) in
  registration_valid v' 200 = false /\ (forall o, permits v' 200 o = false) /\
  forall inc, resolve v' 200 inc = None.
Proof.
  apply (lapsed_forever sample_members 120).
  - apply (run_step _ _ 150 (Renew 149 1000)); [lia|]. apply run_done. lia.
  - right. exists 100. split; [reflexivity|lia].
Defined.

(** The deadline is never later than half a granted lease after its request was sent. *)
Definition deadline_granted (v : MembershipView) (granted : list (Z * Z)) : Prop :=
  forall u, valid_until (mstate v) = Some u ->
    exists sent ttl, (sent, ttl) ∈ granted /\ u = sent + ttl / 2.

(** The renewals among a sequence of timed operations. *)
Definition grants (ops : list (Z * MembershipOp)) : list (Z * Z) :=
  omap (fun p => match p.2 with Renew sent ttl => Some (sent, ttl) | _ => None end) ops.

Definition membership_steps (v : MembershipView) (ops : list (Z * MembershipOp)) : MembershipView :=
  foldl (fun v p => membership_step v p.1 p.2) v ops.

Lemma deadline_granted_step v g now op :
  deadline_granted v g -> deadline_granted (membership_step v now op) (g ++ grants [(now, op)]).
Proof.
  intros Hg u. destruct op as [sent ttl|ms| |]; simpl; rewrite ?app_nil_r; [|apply Hg..].
  unfold renew. destruct (_ || _ || _) eqn:E; simpl.
  - intros Hu. destruct (Hg u Hu) as (s & l & Hin & ->). exists s, l. set_solver.
  - unfold instant_checked_add. destruct (_ <=? _); [|done]. intros [= <-].
    exists sent, ttl. set_solver.
Qed.

(** A registration counts as valid only within half of a lease that the coordinator granted,
    measured from when that renewal was sent, whatever the operations were and however late
    their answers arrived. *)
Theorem valid_only_within_grant o ops now :
  registration_valid (membership_steps (membership_new o) ops) now = true ->
  exists sent ttl, (sent, ttl) ∈ grants ops /\ now < sent + ttl / 2.
Proof.
  assert (Hg : deadline_granted (membership_steps (membership_new o) ops) (grants ops)).
  { induction ops as [|[t op] ops IH] using rev_ind; [done|].
    unfold membership_steps, grants. rewrite foldl_app, omap_app. by apply deadline_granted_step. }
  unfold registration_valid, before_deadline. intros [_ Hv]%andb_true_iff.
  destruct (valid_until _) as [u|] eqn:Hu; [|done].
  destruct (Hg u Hu) as (s & l & Hin & ->). exists s, l. split; [done|lia].
Qed.

Lemma valid_only_within_grant_witness :
  exists sent ttl, (sent, ttl) ∈ grants [(10, Renew 5 40); (12, InvalidateSnapshot)] /\
    20 < sent + ttl / 2.
Proof. apply (valid_only_within_grant sample_owner). vm_compute. reflexivity. Defined.
