(* ===== verification/Index.v ===== *)
(** * The global residency index

    [orbitkv-catalog/src/index.rs]: what every other member holds, replicated from their
    inventories by snapshots and deltas, under a byte budget.  A write operation takes the view and
    returns it with its result: several operations change the view before they report an error. *)
From S2P Require Import Prelude Containers Slices State Membership.

Local Open Scope Z_scope.
Local Open Scope rust_scope.

(** ** Data *)

Definition OWNER_ACCOUNTING_BYTES : Z := 256.

Inductive DeltaApply := Applied | Duplicate | Overlap (applied_sequence : Z).

Record Entry := mkEntry { e_owner : Uuid; e_sequence : Z; e_metadata : ReplicaMetadata }.
#[export] Instance Entry_eq_dec : EqDecision Entry.
Proof. solve_decision. Defined.

Abbreviation Records := (gmap Residence InventoryRecord).

Record OwnerView := mkOwnerView {
  ov_view_id : Uuid;
  ov_applied : Z;
  ov_mono_ns : Z;
  ov_records : Records;
  ov_fresh : bool;
  ov_received_at : Z;
  ov_retired : bool
}.

Record StagingView := mkStaging {
  sv_session : Uuid;
  sv_snapshot : Uuid;
  sv_view_id : Uuid;
  sv_start : Z;
  sv_replay : Z;
  sv_next_page : Z;
  sv_replay_started : bool;
  sv_last : option Residence;
  sv_max_sequence : Z;
  sv_records : Records;
  sv_bytes : Z
}.

Record View := mkView {
  blocks : gmap StateKey (list Entry);
  owners : gmap Uuid OwnerView;
  staging : gmap Uuid StagingView;
  expected : gset Uuid;
  accounted_bytes : Z;
  active_bytes : Z;
  staging_bytes : Z;
  membership_revision : option Z;
  generation : Z;
  admitted_owner_views : Z;
  fresh_expected_owner_views : Z
}.

Definition empty_view : View := mkView ∅ ∅ ∅ ∅ 0 0 0 None 0 0 0.

(** Field updates. *)
Definition set_blocks (b : gmap StateKey (list Entry)) (v : View) : View :=
  mkView b (owners v) (staging v) (expected v) (accounted_bytes v) (active_bytes v)
    (staging_bytes v) (membership_revision v) (generation v) (admitted_owner_views v)
    (fresh_expected_owner_views v).
Definition set_owners (o : gmap Uuid OwnerView) (v : View) : View :=
  mkView (blocks v) o (staging v) (expected v) (accounted_bytes v) (active_bytes v)
    (staging_bytes v) (membership_revision v) (generation v) (admitted_owner_views v)
    (fresh_expected_owner_views v).
Definition set_staging (s : gmap Uuid StagingView) (v : View) : View :=
  mkView (blocks v) (owners v) s (expected v) (accounted_bytes v) (active_bytes v)
    (staging_bytes v) (membership_revision v) (generation v) (admitted_owner_views v)
    (fresh_expected_owner_views v).
Definition set_expected (e : gset Uuid) (r : option Z) (v : View) : View :=
  mkView (blocks v) (owners v) (staging v) e (accounted_bytes v) (active_bytes v)
    (staging_bytes v) r (generation v) (admitted_owner_views v) (fresh_expected_owner_views v).
(** The accounted, active and staging bytes. *)
Definition set_bytes (acc act stg : Z) (v : View) : View :=
  mkView (blocks v) (owners v) (staging v) (expected v) acc act stg (membership_revision v)
    (generation v) (admitted_owner_views v) (fresh_expected_owner_views v).
Definition set_counts (admitted fresh : Z) (v : View) : View :=
  mkView (blocks v) (owners v) (staging v) (expected v) (accounted_bytes v) (active_bytes v)
    (staging_bytes v) (membership_revision v) (generation v) admitted fresh.
(** [view.generation.saturating_add(1)]. *)
Definition bump (v : View) : View :=
  mkView (blocks v) (owners v) (staging v) (expected v) (accounted_bytes v) (active_bytes v)
    (staging_bytes v) (membership_revision v) (saturating_add (generation v) 1)
    (admitted_owner_views v) (fresh_expected_owner_views v).

Definition with_fresh (f : bool) (o : OwnerView) : OwnerView :=
  mkOwnerView (ov_view_id o) (ov_applied o) (ov_mono_ns o) (ov_records o) f (ov_received_at o)
    (ov_retired o).
Definition retire (o : OwnerView) : OwnerView :=
  mkOwnerView (ov_view_id o) (ov_applied o) (ov_mono_ns o) (ov_records o) false
    (ov_received_at o) true.

(** ** Records and blocks *)

Definition entry_bytes (k : StateKey) : Z :=
  u64_add (u64_add 320 (zlen (namespace k))) (zlen (hash k)).

Arguments entry_bytes : simpl never.

Definition validate_record (r : InventoryRecord) : result Residence string :=
  let? md := ok_or (metadata r) "missing residency metadata"%string in
  if (sequence r =? 0) || (zlen (namespace (key r)) =? 0) || (zlen (hash (key r)) =? 0)
     || negb (advertised (medium md)) || bool_decide (representation md = RUnknown)
  then Err "invalid global residency record"%string
  else Ok (key r, medium md).

Fixpoint validate_page (last : option Residence) (bytes : Z) (records : list InventoryRecord)
    (scope : InventoryScope) (updates : list (Residence * InventoryRecord))
    : result (Z * list (Residence * InventoryRecord)) string :=
  match records with
  | [] => Ok (bytes, updates)
  | record :: rest =>
      if negb (contains scope (namespace (key record)))
      then Err "inventory record is outside the installed scope"%string
      else
        let? residence := validate_record record in
        if negb (present record) || match last with Some l => key_leb residence l | None => false end
        then Err "inventory snapshot page is unsorted or contains a deletion"%string
        else
          let? bytes := ok_or (checked_add bytes (entry_bytes (key record)))
                          "inventory staging byte overflow"%string in
          validate_page (Some residence) bytes rest scope (updates ++ [(residence, record)])
  end.

(** The first loop of [validate_delta]: the latest record per residence. *)
Fixpoint latest_records (from_exclusive through_inclusive : Z) (records : list InventoryRecord)
    (scope : InventoryScope) (latest : Records) : result Records string :=
  match records with
  | [] => Ok latest
  | record :: rest =>
      if negb (contains scope (namespace (key record)))
      then Err "inventory record is outside the installed scope"%string
      else if (sequence record <=? from_exclusive) || (through_inclusive <? sequence record)
      then Err "inventory record lies outside its covered interval"%string
      else
        let? residence := validate_record record in
        match latest !! residence with
        | Some previous =>
            if sequence record <? sequence previous
            then latest_records from_exclusive through_inclusive rest scope latest
            else if (sequence previous =? sequence record) && negb (bool_decide (previous = record))
            then Err "conflicting inventory records at one generation"%string
            else latest_records from_exclusive through_inclusive rest scope
                   (<[residence := record]> latest)
        | None => latest_records from_exclusive through_inclusive rest scope
                    (<[residence := record]> latest)
        end
  end.

(** [isize] wraps at 63 bits. *)
Definition wrap_i64 (z : Z) : Z := (z + 9223372036854775808) mod u64_modulus - 9223372036854775808.
(** [isize::try_from(n).unwrap_or(isize::MAX)]. *)
Definition to_isize (n : Z) : Z := Z.min n i64_max.

(** The second loop: the byte difference the updates make. *)
Fixpoint delta_bytes (current : Records) (updates : list (Residence * InventoryRecord)) (delta : Z)
    : result Z string :=
  match updates with
  | [] => Ok delta
  | (residence, record) :: rest =>
      match current !! residence with
      | Some previous =>
          if sequence record <? sequence previous then delta_bytes current rest delta
          else if (sequence previous =? sequence record) && negb (bool_decide (previous = record))
          then Err "conflicting inventory generation"%string
          else if negb (present record)
          then delta_bytes current rest (wrap_i64 (delta - to_isize (entry_bytes (key record))))
          else delta_bytes current rest delta
      | None =>
          if present record
          then delta_bytes current rest (wrap_i64 (delta + to_isize (entry_bytes (key record))))
          else delta_bytes current rest delta
      end
  end.

Definition validate_delta (current : Records) (from_exclusive through_inclusive : Z)
    (records : list InventoryRecord) (scope : InventoryScope)
    : result (Z * list (Residence * InventoryRecord)) string :=
  if through_inclusive <=? from_exclusive
  then Err "inventory delta interval is empty or reversed"%string
  else
    let? latest := latest_records from_exclusive through_inclusive records scope ∅ in
    let updates := btree_items latest in
    let? delta := delta_bytes current updates 0 in
    Ok (delta, updates).

Definition apply_record (rs : Records) (u : Residence * InventoryRecord) : Records :=
  if match rs !! u.1 with Some previous => sequence u.2 <? sequence previous | None => false end
  then rs
  else if present u.2 then <[u.1 := u.2]> rs else delete u.1 rs.
Definition apply_records (rs : Records) (updates : list (Residence * InventoryRecord)) : Records :=
  foldl apply_record rs updates.

(** [record.metadata.expect]: every record that reaches the blocks was validated. *)
Definition insert_block (b : gmap StateKey (list Entry)) (owner : Uuid) (r : InventoryRecord)
    : gmap StateKey (list Entry) :=
  if negb (present r) then b
  else match metadata r with
       | None => b
       | Some md => <[key r := (match b !! key r with Some es => es | None => [] end)
                               ++ [mkEntry owner (sequence r) md]]> b
       end.

Definition remove_block (b : gmap StateKey (list Entry)) (owner : Uuid) (residence : Residence)
    : gmap StateKey (list Entry) :=
  match b !! residence.1 with
  | None => b
  | Some es =>
      match filter (fun e => ~ (e_owner e = owner /\ medium (e_metadata e) = residence.2)) es with
      | [] => delete residence.1 b
      | es' => <[residence.1 := es']> b
      end
  end.

(** [OWNER_ACCOUNTING_BYTES + records.keys().map(entry_bytes).sum()]. *)
Definition keys_bytes (rs : Records) : Z :=
  foldl (fun n k => u64_add n (entry_bytes k.1)) 0 (btree_keys rs).

(** ** Coverage counters *)

Definition is_fresh (os : gmap Uuid OwnerView) (o : Uuid) : bool :=
  match os !! o with Some ov => negb (ov_retired ov) && ov_fresh ov | None => false end.
Definition admitted_count (os : gmap Uuid OwnerView) : Z :=
  Z.of_nat (size (filter (fun p => ov_retired p.2 = false) os)).
Definition fresh_count (os : gmap Uuid OwnerView) (exp : gset Uuid) : Z :=
  Z.of_nat (size (filter (fun o => is_fresh os o = true) exp)).
Definition refresh_coverage_counts (v : View) : View :=
  set_counts (admitted_count (owners v)) (fresh_count (owners v) (expected v)) v.

Definition coverage (v : View) (registered : bool) : DiscoveryCoverage :=
  if negb registered || match membership_revision v with None => true | Some _ => false end
  then Unavailable
  else if fresh_expected_owner_views v =? Z.of_nat (size (expected v))
  then CompleteAtWatermarks
  else if 0 <? admitted_owner_views v then PartialHints
  else Unavailable.

(** ** Owner life cycle *)

Definition reset : View := empty_view.

Definition set_expected_owners (local : Uuid) (revision : Z) (os : list Uuid) (v : View) : View :=
  let exp : gset Uuid := list_to_set (filter (fun o => o <> local) os) in
  if match membership_revision v with Some current => revision <? current | None => false end
  then v
  else
    let owners' := map_imap (fun o ov => Some (if decide (o ∈ exp) then ov else retire ov)) (owners v) in
    let retired_staging := filter (fun p => p.1 ∉ exp) (staging v) in
    let staging' := filter (fun p => p.1 ∈ exp) (staging v) in
    let minus := map_fold (fun _ s n => u64_sub n (sv_bytes s)) in
    bump (refresh_coverage_counts (set_expected exp (Some revision)
      (set_bytes (minus (accounted_bytes v) retired_staging) (active_bytes v)
         (minus (staging_bytes v) retired_staging)
         (set_staging staging' (set_owners owners' v))))).

(** Clear the fresh flag and count it if it was counted: shared by [mark_syncing] and
    [begin_snapshot]. *)
Definition make_stale (owner : Uuid) (v : View) : View :=
  match owners v !! owner with
  | None => v
  | Some ov =>
      let became_stale := ov_fresh ov && negb (ov_retired ov) && bool_decide (owner ∈ expected v) in
      let v := set_owners (<[owner := with_fresh false ov]> (owners v)) v in
      if became_stale
      then set_counts (admitted_owner_views v) (u64_sub (fresh_expected_owner_views v) 1) v
      else v
  end.

Definition mark_syncing (owner : Uuid) (v : View) : View := bump (make_stale owner v).
Definition mark_stale (owner : Uuid) (v : View) : View := mark_syncing owner v.

Definition confirm_progress (owner view_id : Uuid) (applied now : Z) (v : View)
    : View * result unit string :=
  match owners v !! owner with
  | None => (v, Err "owner view is not installed"%string)
  | Some ov =>
      if ov_retired ov || negb (ov_view_id ov =? view_id) || negb (ov_applied ov =? applied)
      then (v, Err "owner progress does not match the installed view"%string)
      else
        let became_fresh := negb (ov_fresh ov) && bool_decide (owner ∈ expected v) in
        let ov' := mkOwnerView (ov_view_id ov) (ov_applied ov) (ov_mono_ns ov) (ov_records ov) true
                     now (ov_retired ov) in
        let v := set_owners (<[owner := ov']> (owners v)) v in
        let v := if became_fresh
                 then set_counts (admitted_owner_views v) (u64_add (fresh_expected_owner_views v) 1) v
                 else v in
        (bump v, Ok tt)
  end.

(** Remove a staging view and its bytes. *)
Definition drop_staging (owner : Uuid) (v : View) : View :=
  match staging v !! owner with
  | None => v
  | Some s =>
      set_bytes (u64_sub (accounted_bytes v) (sv_bytes s)) (active_bytes v)
        (u64_sub (staging_bytes v) (sv_bytes s)) (set_staging (delete owner (staging v)) v)
  end.

Definition begin_snapshot (limit : Z) (owner session_id snapshot_id view_id : Uuid)
    (start_sequence : Z) (v : View) : View * result unit string :=
  if is_nil owner || is_nil session_id || is_nil snapshot_id || is_nil view_id
  then (v, Err "nil inventory snapshot identity"%string)
  else if negb (bool_decide (owner ∈ expected v))
  then (v, Err "snapshot source is not an expected member"%string)
  else
    let v := drop_staging owner v in
    if limit <? u64_add (accounted_bytes v) OWNER_ACCOUNTING_BYTES
    then (v, Err "inventory staging exceeds metadata budget"%string)
    else
      let s := mkStaging session_id snapshot_id view_id start_sequence start_sequence 0 false None 0
                 ∅ OWNER_ACCOUNTING_BYTES in
      let v := set_bytes (u64_add (accounted_bytes v) OWNER_ACCOUNTING_BYTES) (active_bytes v)
                 (u64_add (staging_bytes v) OWNER_ACCOUNTING_BYTES)
                 (set_staging (<[owner := s]> (staging v)) v) in
      (bump (make_stale owner v), Ok tt).

(** ** Snapshots and deltas *)

(** The loop that installs a page: the greatest sequence, the last residence, the records. *)
Definition stage_record (s : StagingView) (u : Residence * InventoryRecord) : StagingView :=
  mkStaging (sv_session s) (sv_snapshot s) (sv_view_id s) (sv_start s) (sv_replay s)
    (sv_next_page s) (sv_replay_started s) (Some u.1) (Z.max (sv_max_sequence s) (sequence u.2))
    (<[u.1 := u.2]> (sv_records s)) (sv_bytes s).

Definition apply_snapshot_page (limit : Z) (scope : InventoryScope)
    (owner session_id snapshot_id : Uuid) (page_number : Z) (records : list InventoryRecord)
    (v : View) : View * result unit string :=
  match staging v !! owner with
  | None => (v, Err "missing inventory snapshot"%string)
  | Some s =>
      if negb (sv_session s =? session_id) || negb (sv_snapshot s =? snapshot_id)
      then (v, Err "inventory snapshot identity changed"%string)
      else if sv_replay_started s
      then (v, Err "inventory snapshot page arrived after replay began"%string)
      else if negb (sv_next_page s =? page_number)
      then (v, Err "inventory snapshot page is not contiguous"%string)
      else
        match validate_page (sv_last s) 0 records scope [] with
        | Err e => (v, Err e)
        | Ok (additional, updates) =>
            if limit <? u64_add (accounted_bytes v) additional
            then (v, Err "inventory staging exceeds metadata budget"%string)
            else
              let s := foldl stage_record s updates in
              let s := mkStaging (sv_session s) (sv_snapshot s) (sv_view_id s) (sv_start s)
                         (sv_replay s) (u64_add (sv_next_page s) 1) (sv_replay_started s)
                         (sv_last s) (sv_max_sequence s) (sv_records s)
                         (u64_add (sv_bytes s) additional) in
              (set_bytes (u64_add (accounted_bytes v) additional) (active_bytes v)
                 (u64_add (staging_bytes v) additional)
                 (set_staging (<[owner := s]> (staging v)) v), Ok tt)
        end
  end.

(** [bytes.checked_add_signed(delta).is_none_or(|bytes| bytes > limit)]. *)
Definition over_budget (limit bytes delta : Z) : bool :=
  match checked_add_signed bytes delta with Some b => limit <? b | None => true end.

Definition apply_snapshot_delta (limit : Z) (scope : InventoryScope) (owner session_id : Uuid)
    (from_exclusive through_inclusive : Z) (records : list InventoryRecord) (v : View)
    : View * result unit string :=
  match staging v !! owner with
  | None => (v, Err "missing inventory snapshot"%string)
  | Some s =>
      if negb (sv_session s =? session_id) || negb (sv_replay s =? from_exclusive)
      then (v, Err "inventory snapshot replay is not contiguous"%string)
      else
        match validate_delta (sv_records s) from_exclusive through_inclusive records scope with
        | Err e => (v, Err e)
        | Ok (delta, updates) =>
            if over_budget limit (accounted_bytes v) delta
            then (v, Err "inventory staging exceeds metadata budget"%string)
            else
              let staged b := mkStaging (sv_session s) (sv_snapshot s) (sv_view_id s) (sv_start s)
                                through_inclusive (sv_next_page s) true (sv_last s)
                                (sv_max_sequence s) (apply_records (sv_records s) updates) b in
              match checked_add_signed (sv_bytes s) delta with
              | None => (set_staging (<[owner := staged (sv_bytes s)]> (staging v)) v,
                         Err "inventory staging accounting underflow"%string)
              | Some b =>
                  let v := set_staging (<[owner := staged b]> (staging v)) v in
                  match checked_add_signed (staging_bytes v) delta with
                  | None => (v, Err "inventory staging accounting underflow"%string)
                  | Some stg =>
                      let v := set_bytes (accounted_bytes v) (active_bytes v) stg v in
                      match checked_add_signed (accounted_bytes v) delta with
                      | None => (v, Err "inventory staging accounting underflow"%string)
                      | Some acc => (set_bytes acc (active_bytes v) (staging_bytes v) v, Ok tt)
                      end
                  end
              end
        end
  end.

Definition remove_active_owner (owner : Uuid) (v : View) : View :=
  match owners v !! owner with
  | None => v
  | Some previous =>
      let v := set_owners (delete owner (owners v)) v in
      let v := if ov_retired previous then v
               else
                 let v := set_counts (u64_sub (admitted_owner_views v) 1)
                            (fresh_expected_owner_views v) v in
                 if ov_fresh previous && bool_decide (owner ∈ expected v)
                 then set_counts (admitted_owner_views v)
                        (u64_sub (fresh_expected_owner_views v) 1) v
                 else v in
      let v := set_blocks (foldl (fun b k => remove_block b owner k) (blocks v)
                             (btree_keys (ov_records previous))) v in
      let bytes := u64_add OWNER_ACCOUNTING_BYTES (keys_bytes (ov_records previous)) in
      set_bytes (u64_sub (accounted_bytes v) bytes) (u64_sub (active_bytes v) bytes)
        (staging_bytes v) v
  end.

(** [admitted] is [membership.resolve(owner).is_some()] at the time of the commit. *)
Definition commit_snapshot (admitted : bool) (now mono_ns : Z)
    (owner session_id snapshot_id view_id : Uuid) (through_sequence page_count : Z) (v : View)
    : View * result Uuid string :=
  match staging v !! owner with
  | None => (v, Err "missing inventory snapshot"%string)
  | Some s =>
      if negb (sv_session s =? session_id) || negb (sv_snapshot s =? snapshot_id)
         || negb (sv_view_id s =? view_id) || negb (sv_replay s =? through_sequence)
         || negb (sv_next_page s =? page_count) || (through_sequence <? sv_start s)
         || (through_sequence <? sv_max_sequence s)
      then (v, Err "inventory snapshot commit is incomplete"%string)
      else
        let v := set_staging (delete owner (staging v)) v in
        if negb (bool_decide (owner ∈ expected v)) || negb admitted
        then (set_bytes (u64_sub (accounted_bytes v) (sv_bytes s)) (active_bytes v)
                (u64_sub (staging_bytes v) (sv_bytes s)) v,
              Err "inventory snapshot source is no longer admitted"%string)
        else
          let v := remove_active_owner owner v in
          let v := set_bytes (accounted_bytes v) (active_bytes v)
                     (u64_sub (staging_bytes v) (sv_bytes s)) v in
          let v := set_blocks (foldl (fun b r => insert_block b owner r) (blocks v)
                                 (btree_values (sv_records s))) v in
          let v := set_bytes (accounted_bytes v) (u64_add (active_bytes v) (sv_bytes s))
                     (staging_bytes v) v in
          let ov := mkOwnerView (sv_view_id s) through_sequence mono_ns (sv_records s) true now false in
          let v := set_owners (<[owner := ov]> (owners v)) v in
          let v := set_counts (u64_add (admitted_owner_views v) 1)
                     (fresh_expected_owner_views v) v in
          let v := if bool_decide (owner ∈ expected v)
                   then set_counts (admitted_owner_views v)
                          (u64_add (fresh_expected_owner_views v) 1) v
                   else v in
          (bump v, Ok view_id)
  end.

Definition abort_snapshot (owner session_id : Uuid) (v : View) : View :=
  match staging v !! owner with
  | Some s => if sv_session s =? session_id then bump (drop_staging owner v) else v
  | None => v
  end.

Definition update_block (owner : Uuid) (b : gmap StateKey (list Entry))
    (u : Residence * InventoryRecord) : gmap StateKey (list Entry) :=
  let b := remove_block b owner u.1 in
  if present u.2 then insert_block b owner u.2 else b.

Definition apply_delta (limit : Z) (scope : InventoryScope) (now mono_ns : Z)
    (owner view_id : Uuid) (from_exclusive through_inclusive : Z) (records : list InventoryRecord)
    (v : View) : View * result DeltaApply string :=
  match owners v !! owner with
  | None => (v, Err "owner view is not installed"%string)
  | Some ov =>
      if negb (ov_view_id ov =? view_id) || ov_retired ov
      then (v, Err "owner view identity changed"%string)
      else if through_inclusive <=? ov_applied ov then (v, Ok Duplicate)
      else if from_exclusive <? ov_applied ov then (v, Ok (Overlap (ov_applied ov)))
      else if ov_applied ov <? from_exclusive
      then (v, Err "inventory delta has a coverage gap"%string)
      else
        match validate_delta (ov_records ov) from_exclusive through_inclusive records scope with
        | Err e => (v, Err e)
        | Ok (delta, updates) =>
            if over_budget limit (accounted_bytes v) delta
            then (v, Err "complete global index exceeds metadata budget"%string)
            else
              let v := set_blocks (foldl (update_block owner) (blocks v) updates) v in
              let became_fresh := negb (ov_fresh ov) && bool_decide (owner ∈ expected v) in
              let installed mono := mkOwnerView (ov_view_id ov) through_inclusive mono
                                      (apply_records (ov_records ov) updates) true now
                                      (ov_retired ov) in
              let v := set_owners (<[owner := installed (ov_mono_ns ov)]> (owners v)) v in
              let v := if became_fresh
                       then set_counts (admitted_owner_views v)
                              (u64_add (fresh_expected_owner_views v) 1) v
                       else v in
              match checked_add_signed (active_bytes v) delta with
              | None => (v, Err "active index accounting underflow"%string)
              | Some act =>
                  let v := set_bytes (accounted_bytes v) act (staging_bytes v) v in
                  match checked_add_signed (accounted_bytes v) delta with
                  | None => (v, Err "index accounting underflow"%string)
                  | Some acc =>
                      let v := bump (set_bytes acc (active_bytes v) (staging_bytes v) v) in
                      (set_owners (<[owner := installed mono_ns]> (owners v)) v, Ok Applied)
                  end
              end
        end
  end.

Definition owner_watermark (owner : Uuid) (v : View) : option (Uuid * Z) :=
  match owners v !! owner with
  | Some ov => if ov_retired ov then None else Some (ov_view_id ov, ov_applied ov)
  | None => None
  end.

Definition retire_owner (owner : Uuid) (v : View) : View :=
  let v := drop_staging owner v in
  let v := match owners v !! owner with
           | None => v
           | Some ov =>
               let was_admitted := negb (ov_retired ov) in
               let was_fresh := negb (ov_retired ov) && ov_fresh ov && bool_decide (owner ∈ expected v) in
               let v := set_counts
                          (if was_admitted then u64_sub (admitted_owner_views v) 1
                           else admitted_owner_views v)
                          (if was_fresh then u64_sub (fresh_expected_owner_views v) 1
                           else fresh_expected_owner_views v) v in
               set_owners (<[owner := retire ov]> (owners v)) v
           end in
  bump v.

(** One residence of the cleanup loop: its block, its record, the bytes it frees. *)
Definition cleanup_step (owner : Uuid) (acc : gmap StateKey (list Entry) * Records * Z)
    (k : Residence) : gmap StateKey (list Entry) * Records * Z :=
  let '(b, rs, removed) := acc in
  (remove_block b owner k, delete k rs,
   match rs !! k with Some _ => u64_add removed (entry_bytes k.1) | None => removed end).

Definition cleanup_owner (owner : Uuid) (limit : Z) (v : View) : View * bool :=
  match owners v !! owner with
  | Some ov =>
      if ov_retired ov then
        let ks := take (Z.to_nat (Z.max limit 1)) (btree_keys (ov_records ov)) in
        let '(b, rs, removed) := foldl (cleanup_step owner) (blocks v, ov_records ov, 0) ks in
        let ov' := mkOwnerView (ov_view_id ov) (ov_applied ov) (ov_mono_ns ov) rs (ov_fresh ov)
                     (ov_received_at ov) (ov_retired ov) in
        let v := set_owners (<[owner := ov']> (owners v)) (set_blocks b v) in
        let v := set_bytes (u64_sub (accounted_bytes v) removed) (u64_sub (active_bytes v) removed)
                   (staging_bytes v) v in
        if decide (rs = ∅)
        then (set_bytes (u64_sub (accounted_bytes v) OWNER_ACCOUNTING_BYTES)
                (u64_sub (active_bytes v) OWNER_ACCOUNTING_BYTES) (staging_bytes v)
                (set_owners (delete owner (owners v)) v), true)
        else (v, false)
      else (v, true)
  | None => (v, true)
  end.

(** ** Lookup *)

(** The inner loop of [lookup] for one medium: a replica is pushed for an entry whose owner is a
    current peer with a live view; the loop stops at the fourth. *)
Fixpoint collect_replicas (m : MembershipView) (now : Z) (v : View) (md : ReplicaMedium)
    (pushed : Z) (es : list Entry) : list ReplicaLocation :=
  match es with
  | [] => []
  | e :: rest =>
      if decide (medium (e_metadata e) = md) then
        let found :=
          match resolve m now (e_owner e) with
          | Some o =>
              if negb (incarnation o =? incarnation (own m))
                 && match owners v !! e_owner e with Some ov => negb (ov_retired ov) | None => false end
              then [mkLocation o (e_sequence e) (e_metadata e)] else []
          | None => []
          end in
        let pushed := pushed + zlen found in
        if pushed =? DISCOVERY_MAX_REPLICAS_PER_MEDIUM then found
        else found ++ collect_replicas m now v md pushed rest
      else collect_replicas m now v md pushed rest
  end.

Definition lookup_key (m : MembershipView) (now : Z) (scope : InventoryScope) (v : View)
    (k : StateKey) : BlockCandidates :=
  let cov := coverage v (permits m now (own m)) in
  if negb (contains scope (namespace k)) then mkCandidates k [] Unavailable
  else
    let replicas :=
      if decide (cov = Unavailable) then []
      else match blocks v !! k with
           | None => []
           | Some es => collect_replicas m now v Dram 0 es ++ collect_replicas m now v Ssd 0 es
           end in
    mkCandidates k replicas cov.

Definition index_lookup (m : MembershipView) (now : Z) (scope : InventoryScope) (v : View)
    (ks : list StateKey) : list BlockCandidates :=
  lookup_key m now scope v <$> ks.
