(* ===== verification/IndexInv.v ===== *)
(** * Invariants of the global index

    The byte accounting, the coverage counters and the block table of [Index] agree with the
    per-owner records they summarise, in every state the operations can reach. *)
From S2P Require Import Prelude Containers Slices State Membership Inventory Index.

Local Open Scope Z_scope.

(** ** Applying updates *)

(** One update of a record: an older one is ignored, a deletion removes. *)
Definition merge_record (old : option InventoryRecord) (r : InventoryRecord) : option InventoryRecord :=
  match old with
  | Some previous => if sequence r <? sequence previous then old
                     else if present r then Some r else None
  | None => if present r then Some r else None
  end.

Lemma apply_record_lookup (rs : Records) (u : Residence * InventoryRecord) (k : Residence) :
  apply_record rs u !! k = if decide (k = u.1) then merge_record (rs !! k) u.2 else rs !! k.
Proof.
  unfold apply_record, merge_record. destruct (decide (k = u.1)) as [->|Hne].
  - destruct (rs !! u.1) as [p|] eqn:E.
    + destruct (_ <? _); [done|]. destruct (present u.2); [apply lookup_insert_eq|apply lookup_delete_eq].
    + destruct (present u.2); [apply lookup_insert_eq|apply lookup_delete_eq].
  - destruct (match rs !! u.1 with Some _ => _ | None => _ end); [done|].
    destruct (present u.2); [by rewrite lookup_insert_ne|by rewrite lookup_delete_ne].
Qed.

(** The updates of a delta act on each residence once. *)
Lemma apply_records_lookup (rs latest : Records) (k : Residence) :
  apply_records rs (btree_items latest) !! k =
    match latest !! k with Some r => merge_record (rs !! k) r | None => rs !! k end.
Proof.
  unfold apply_records.
  rewrite (foldl_pointwise apply_record merge_record) by (apply apply_record_lookup || apply NoDup_btree_keys).
  pose proof (list_find_btree_items latest k) as Hf.
  destruct (list_find _ _) as [[i u]|]; by rewrite Hf.
Qed.

(** ** Blocks *)

Definition entries (b : gmap StateKey (list Entry)) (k : StateKey) : list Entry :=
  match b !! k with Some es => es | None => [] end.

Definition entry_of (owner : Uuid) (r : InventoryRecord) (md : ReplicaMetadata) : Entry :=
  mkEntry owner (sequence r) md.

Lemma entries_insert b owner r md k :
  present r = true -> metadata r = Some md ->
  entries (insert_block b owner r) k =
    if decide (k = key r) then entries b k ++ [entry_of owner r md] else entries b k.
Proof.
  intros Hp Hmd. unfold insert_block, entries. rewrite Hp, Hmd. simpl.
  destruct (decide (k = key r)) as [->|Hne]; [by rewrite lookup_insert_eq|by rewrite lookup_insert_ne].
Qed.

Definition other (owner : Uuid) (m : ReplicaMedium) (e : Entry) : Prop :=
  ~ (e_owner e = owner /\ medium (e_metadata e) = m).

Lemma entries_remove b owner res k :
  entries (remove_block b owner res) k =
    if decide (k = res.1) then filter (other owner res.2) (entries b k) else entries b k.
Proof.
  unfold remove_block, entries. destruct (b !! res.1) as [es|] eqn:E.
  - destruct (decide (k = res.1)) as [->|Hne].
    + rewrite E. unfold other. destruct (filter _ es) eqn:Ef.
      * by rewrite lookup_delete_eq.
      * by rewrite lookup_insert_eq.
    + destruct (filter _ es); [by rewrite lookup_delete_ne|by rewrite lookup_insert_ne].
  - destruct (decide (k = res.1)) as [->|Hne]; [|done]. rewrite E. done.
Qed.

(** The block table lists exactly what the owners' records say. *)
Definition owned (R : gmap Uuid Records) (k : StateKey) (e : Entry) : Prop :=
  exists rs r, R !! e_owner e = Some rs /\ rs !! (k, medium (e_metadata e)) = Some r /\
    sequence r = e_sequence e /\ metadata r = Some (e_metadata e).

Definition entry_id (e : Entry) : Uuid * ReplicaMedium := (e_owner e, medium (e_metadata e)).

Definition blocks_ok (b : gmap StateKey (list Entry)) (R : gmap Uuid Records) : Prop :=
  (forall k, b !! k <> Some []) /\
  forall k, NoDup (entry_id <$> entries b k) /\ forall e, e ∈ entries b k <-> owned R k e.

(** A record filed under the residence it describes. *)
Definition files (k : Residence) (r : InventoryRecord) : Prop :=
  key r = k.1 /\ exists md, metadata r = Some md /\ medium md = k.2.

Lemma blocks_ok_remove b R owner rs res :
  blocks_ok b R -> R !! owner = Some rs ->
  blocks_ok (remove_block b owner res) (<[owner := delete res rs]> R).
Proof.
  intros [Hne Hb] HR. split.
  { intros k. unfold remove_block. destruct (b !! res.1) as [es|] eqn:E; [|apply Hne].
    destruct (filter _ es) as [|e' es']; destruct (decide (k = res.1)) as [->|];
      rewrite ?lookup_delete_eq, ?lookup_insert_eq, ?lookup_delete_ne, ?lookup_insert_ne by done;
      done || apply Hne. }
  intros k. rewrite entries_remove. destruct (Hb k) as [Hnd Hin].
  assert (Hother : forall e, owned (<[owner := delete res rs]> R) k e <->
    owned R k e /\ ~ (k = res.1 /\ ~ other owner res.2 e)).
  { intros e. unfold owned, other. destruct (decide (e_owner e = owner)) as [He|He].
    - rewrite He, lookup_insert_eq, HR. split.
      + intros (rs' & r & [= <-] & [Hne' Hr]%lookup_delete_Some & Hs & Hm).
        split; [eauto 6|]. intros [-> Hx]. apply Hx. intros [_ Hmed]. apply Hne'. rewrite Hmed.
        by destruct res.
      + intros [(rs' & r & [= <-] & Hr & Hs & Hm) Hx]. exists (delete res rs), r.
        split_and!; try done. rewrite lookup_delete_ne; [done|]. intros ->. apply Hx. simpl. naive_solver.
    - rewrite lookup_insert_ne by done. naive_solver. }
  destruct (decide (k = res.1)) as [->|Hk].
  - split.
    + eapply sublist_NoDup; [exact Hnd|]. apply fmap_sublist, sublist_filter.
    + intros e. rewrite list_elem_of_filter, Hin, Hother. unfold other. destruct (decide (e_owner e = owner /\ medium (e_metadata e) = res.2)); naive_solver.
  - split; [done|]. intros e. rewrite Hin, Hother. naive_solver.
Qed.

Lemma blocks_ok_insert b R owner rs res r :
  blocks_ok b R -> R !! owner = Some rs -> rs !! res = None -> files res r -> present r = true ->
  blocks_ok (insert_block b owner r) (<[owner := <[res := r]> rs]> R).
Proof.
  intros [Hne Hb] HR Hnone (Hkey & md & Hmd & Hmed) Hp. split.
  { intros k. unfold insert_block. rewrite Hp, Hmd. simpl. destruct (decide (k = key r)) as [->|].
    - rewrite lookup_insert_eq. intros [=]. by destruct (match b !! key r with Some _ => _ | None => _ end).
    - rewrite lookup_insert_ne by done. apply Hne. }
  intros k. rewrite (entries_insert _ _ _ md) by done. destruct (Hb k) as [Hnd Hin].
  assert (Hown : forall e, owned (<[owner := <[res := r]> rs]> R) k e <->
    owned R k e \/ (k = key r /\ e = entry_of owner r md)).
  { intros e. unfold owned. destruct (decide (e_owner e = owner)) as [He|He].
    - rewrite He, lookup_insert_eq, HR. split.
      + intros (rs' & r' & [= <-] & Hr & Hs & Hm). apply lookup_insert_Some in Hr as [[Hk <-]|[_ Hr]]; [|eauto 8].
        right. rewrite Hk in Hkey. simpl in Hkey. split; [done|]. destruct e as [eo es em].
        unfold entry_of. simpl in *. congruence.
      + intros [(rs' & r' & [= <-] & Hr & Hs & Hm)|[-> ->]].
        * exists (<[res := r]> rs), r'. split_and!; try done. rewrite lookup_insert_ne; [done|congruence].
        * exists (<[res := r]> rs), r. split_and!; try done. simpl. rewrite Hkey, Hmed.
          destruct res. apply lookup_insert_eq.
    - rewrite lookup_insert_ne by done. split; [by left|]. intros [|[_ ->]]; done. }
  destruct (decide (k = key r)) as [->|Hk].
  - split.
    + rewrite fmap_app. apply NoDup_app. split_and!; [done| |apply NoDup_singleton].
      intros x (e & -> & He)%list_elem_of_fmap Hx%list_elem_of_singleton. apply Hin in He.
      destruct He as (rs' & r' & HR' & Hr' & _). unfold entry_id, entry_of in Hx. simpl in Hx.
      injection Hx as Ho Hm. rewrite Ho, HR in HR'. injection HR' as <-.
      rewrite Hm, Hkey, Hmed in Hr'. destruct res. simpl in Hr'. congruence.
    + intros e. rewrite elem_of_app, list_elem_of_singleton, Hin, Hown. naive_solver.
  - split; [done|]. intros e. rewrite Hin, Hown. naive_solver.
Qed.

(** An update replaces the record of its residence, when it is not older. *)
Lemma blocks_ok_update b R owner rs res r :
  blocks_ok b R -> R !! owner = Some rs -> files res r ->
  (forall p, rs !! res = Some p -> sequence p <= sequence r) ->
  blocks_ok (update_block owner b (res, r)) (<[owner := apply_record rs (res, r)]> R).
Proof.
  intros Hb HR Hf Hord. unfold update_block, apply_record. simpl.
  assert (match rs !! res with Some p => sequence r <? sequence p | None => false end = false) as ->.
  { destruct (rs !! res) as [p|]; [|done]. specialize (Hord p eq_refl). lia. }
  pose proof (blocks_ok_remove b R owner rs res Hb HR) as Hb'.
  destruct (present r) eqn:Hp; [|done].
  rewrite <- (insert_insert_eq R owner (<[res:=r]> rs) (delete res rs)), <- (insert_delete_eq rs).
  apply blocks_ok_insert; [done|apply lookup_insert_eq|apply lookup_delete_eq|done|done].
Qed.

Lemma blocks_ok_updates b R owner rs (l : list (Residence * InventoryRecord)) :
  blocks_ok b R -> R !! owner = Some rs -> NoDup l.*1 ->
  (forall u, u ∈ l -> files u.1 u.2 /\ forall p, rs !! u.1 = Some p -> sequence p <= sequence u.2) ->
  blocks_ok (foldl (update_block owner) b l) (<[owner := apply_records rs l]> R).
Proof.
  unfold apply_records. revert b R rs. induction l as [|[res r] l IH]; intros b R rs Hb HR Hnd Hl; simpl.
  { by rewrite insert_id. }
  apply NoDup_cons in Hnd as [Hnin Hnd]. destruct (Hl (res, r) ltac:(left)) as [Hf Hord].
  pose proof (blocks_ok_update b R owner rs res r Hb HR Hf Hord) as Hb'.
  rewrite <- (insert_insert_eq R owner _ (apply_record rs (res, r))).
  apply IH; [done|apply lookup_insert_eq|done|].
  intros [res' r'] Hin. destruct (Hl (res', r') ltac:(by right)) as [Hf' Hord'].
  split; [done|]. intros p. rewrite apply_record_lookup, decide_False; [apply Hord'|].
  simpl. intros ->. apply Hnin. apply list_elem_of_fmap. by exists (res, r').
Qed.

(** ** Bytes *)

Definition records_bytes (rs : Records) : Z := map_sum (fun k _ => entry_bytes k.1) rs.

Lemma entry_bytes_u64 k : is_u64 (entry_bytes k).
Proof. apply wrap64_is_u64. Qed.

Lemma entry_bytes_nonneg k : 0 <= entry_bytes k.
Proof. apply entry_bytes_u64. Qed.

Lemma records_bytes_nonneg rs : 0 <= records_bytes rs.
Proof. apply map_sum_nonneg. intros. apply entry_bytes_nonneg. Qed.

Lemma records_bytes_insert rs k r :
  records_bytes (<[k := r]> rs) =
    records_bytes rs + match rs !! k with Some _ => 0 | None => entry_bytes k.1 end.
Proof.
  unfold records_bytes. destruct (rs !! k) as [p|] eqn:E.
  - rewrite (map_sum_update _ _ _ p) by done. lia.
  - rewrite map_sum_insert by done. lia.
Qed.

Lemma records_bytes_delete rs k :
  records_bytes (delete k rs) =
    records_bytes rs - match rs !! k with Some _ => entry_bytes k.1 | None => 0 end.
Proof.
  unfold records_bytes. destruct (rs !! k) as [p|] eqn:E.
  - rewrite (map_sum_delete _ rs k p) by done. lia.
  - rewrite delete_id by done. lia.
Qed.

(** Wrapping sums agree with the exact sum modulo the word size. *)
Lemma wrap64_add a b : wrap64 (wrap64 a + b) = wrap64 (a + b).
Proof. unfold wrap64. rewrite Zplus_mod_idemp_l. done. Qed.
Lemma wrap64_sub a b : wrap64 (wrap64 a - b) = wrap64 (a - b).
Proof. unfold wrap64. rewrite Zminus_mod_idemp_l. done. Qed.

Lemma keys_bytes_spec rs : keys_bytes rs = wrap64 (records_bytes rs).
Proof.
  assert (Hfold : forall (l : list Residence) n,
    foldl (fun n k => u64_add n (entry_bytes k.1)) (wrap64 n) l =
      wrap64 (n + list_sum (fun k => entry_bytes k.1) l)).
  { induction l as [|k l IH]; intros n; simpl; [unfold list_sum; simpl; f_equal; lia|].
    unfold u64_add at 2. rewrite wrap64_add, IH. f_equal. unfold list_sum. simpl. lia. }
  unfold keys_bytes, records_bytes. change 0 with (wrap64 0) at 1. rewrite Hfold. f_equal.
  rewrite map_sum_list. unfold btree_keys. rewrite (list_sum_perm _ _ (map_to_list rs).*1).
  - generalize (map_to_list rs). intros l. induction l as [|[k r] l IH]; [done|].
    rewrite fmap_cons. unfold list_sum in *. cbn [foldr fst]. lia.
  - by rewrite btree_items_perm.
Qed.

(** Subtracting staged bytes one by one. *)
Lemma minus_staged (m : gmap Uuid StagingView) n :
  is_u64 n -> 0 <= n - map_sum (fun _ s => sv_bytes s) m ->
  (forall o s, m !! o = Some s -> 0 <= sv_bytes s) ->
  map_fold (fun _ s n => u64_sub n (sv_bytes s)) n m = n - map_sum (fun _ s => sv_bytes s) m.
Proof.
  induction m as [|o s m Ho IH] using map_ind; intros Hn Hle Hnn.
  { rewrite map_fold_empty, map_sum_empty. lia. }
  rewrite map_sum_insert in Hle |- * by done.
  assert (0 <= sv_bytes s) by (apply (Hnn o), lookup_insert_eq).
  assert (Hnn' : forall o s, m !! o = Some s -> 0 <= sv_bytes s).
  { intros o' s' Ho'. apply (Hnn o'). rewrite lookup_insert_ne; [done|congruence]. }
  assert (0 <= map_sum (fun _ s => sv_bytes s) m) by (apply map_sum_nonneg; eauto).
  rewrite map_fold_insert_L; [|intros; unfold u64_sub; rewrite !wrap64_sub; f_equal; lia|done].
  rewrite IH by (done || lia). rewrite u64_sub_exact; unfold is_u64 in *; lia.
Qed.

(** ** Validated updates *)

(** What [validate_record] and the scope check establish of an update. *)
Definition valid_update (scope : InventoryScope) (u : Residence * InventoryRecord) : Prop :=
  files u.1 u.2 /\ contains scope (namespace u.1.1) = true /\ sequence u.2 <> 0 /\
  advertised u.1.2 = true.

Lemma validate_record_Ok r res :
  validate_record r = Ok res -> files res r /\ sequence r <> 0 /\ advertised res.2 = true.
Proof.
  unfold validate_record, files. destruct (metadata r) as [md|]; [|done]. cbn [ok_or].
  destruct (_ || _) eqn:E; [done|]. intros [= <-].
  apply orb_false_iff in E as [E _]. apply orb_false_iff in E as [E Ea].
  apply negb_false_iff in Ea. simpl. split_and!; [done|eauto|lia|done].
Qed.

Definition after_all (last : option Residence) (l : list (Residence * InventoryRecord)) : Prop :=
  forall u, u ∈ l -> is_after last u.1 = true.

Definition updates_bytes (l : list (Residence * InventoryRecord)) : Z :=
  list_sum (fun u => entry_bytes u.1.1) l.

Lemma validate_page_Ok scope records last bytes ups bytes' ups' :
  validate_page last bytes records scope ups = Ok (bytes', ups') ->
  exists l, ups' = ups ++ l /\ l.*2 = records /\ StronglySorted item_lt l /\ after_all last l /\
    Forall (valid_update scope) l /\ Forall (fun u => present u.2 = true) l /\
    bytes' = bytes + updates_bytes l /\ (bytes <= u64_max -> bytes' <= u64_max).
Proof.
  revert last bytes ups. induction records as [|r records IH]; intros last bytes ups; simpl.
  { intros [= <- <-]. exists []. rewrite app_nil_r. unfold updates_bytes, list_sum, after_all. simpl.
    split_and!; try done; [constructor|set_solver|lia]. }
  destruct (contains scope (namespace (key r))) eqn:Ec; simpl; [|done].
  destruct (validate_record r) as [res|] eqn:Ev; [|done].
  destruct (negb (present r) || _) eqn:Ep; [done|].
  apply orb_false_iff in Ep as [Ep El]. apply negb_false_iff in Ep.
  unfold checked_add. destruct (Z.leb_spec (bytes + entry_bytes (key r)) u64_max); [|done]. cbn [ok_or].
  intros (l & -> & Hl & Hs & Ha & Hv & Hp & -> & Hb)%IH.
  apply validate_record_Ok in Ev as (Hf & Hs0 & Hadv). destruct Hf as [Hk Hmd].
  exists ((res, r) :: l). split_and!.
  - by rewrite <- app_assoc.
  - rewrite fmap_cons. by rewrite Hl.
  - constructor; [done|]. apply Forall_forall. intros u Hu. specialize (Ha u Hu).
    by apply key_ltb_spec in Ha.
  - intros u [->|Hu]%elem_of_cons; simpl; unfold is_after.
    + destruct last as [l0|]; [|done]. by apply key_ltb_spec, key_leb_false.
    + specialize (Ha u Hu). destruct last as [l0|]; [|done].
      apply key_leb_false in El. apply key_ltb_spec in Ha. apply key_ltb_spec. by etrans.
  - constructor; [|done]. unfold valid_update, files. simpl. rewrite <- Hk. done.
  - constructor; done.
  - unfold updates_bytes, list_sum. simpl. rewrite <- Hk. lia.
  - auto.
Qed.

Definition batch_bytes (records : list InventoryRecord) : Z :=
  list_sum (fun r => entry_bytes (key r)) records.

(** The map of latest records: validated, inside the interval, and no later record is lost. *)
Lemma latest_records_Ok scope from thr records latest0 latest :
  latest_records from thr records scope latest0 = Ok latest ->
  (forall k r, latest !! k = Some r -> latest0 !! k = Some r \/
     (r ∈ records /\ valid_update scope (k, r) /\ from < sequence r <= thr)) /\
  records_bytes latest <= records_bytes latest0 + batch_bytes records.
Proof.
  revert latest0. induction records as [|r records IH]; intros latest0; simpl.
  { intros [= <-]. unfold batch_bytes, list_sum. simpl. split; [auto|lia]. }
  destruct (contains scope (namespace (key r))) eqn:Ec; simpl; [|done].
  destruct (_ || _) eqn:Ei; [done|]. destruct (validate_record r) as [res|] eqn:Ev; [|done].
  apply validate_record_Ok in Ev as (Hf & Hs0 & Hadv).
  assert (Hstep : forall latest1, (latest1 = latest0 \/ latest1 = <[res := r]> latest0) ->
    latest_records from thr records scope latest1 = Ok latest ->
    (forall k r', latest !! k = Some r' -> latest0 !! k = Some r' \/
       (r' ∈ r :: records /\ valid_update scope (k, r') /\ from < sequence r' <= thr)) /\
    records_bytes latest <= records_bytes latest0 + batch_bytes (r :: records)).
  { intros latest1 Hl1 [Hin Hb]%IH. pose proof (entry_bytes_nonneg (key r)).
    change (batch_bytes (r :: records)) with (entry_bytes (key r) + batch_bytes records). split.
    - intros k r' [H1|(Hr & Hv & Hs)]%Hin; [|right; split; [by right|done]].
      destruct Hl1 as [->| ->]; [by left|].
      apply lookup_insert_Some in H1 as [[<- <-]|[_ H1]]; [|by left].
      right. destruct Hf as [Hk Hmd]. split; [left|]. unfold valid_update, files. simpl.
      rewrite <- Hk. split_and!; try done; lia.
    - destruct Hl1 as [->| ->]; [lia|]. rewrite records_bytes_insert in Hb.
      destruct Hf as [Hk _]. rewrite <- Hk in Hb. destruct (latest0 !! res); lia. }
  destruct (latest0 !! res) as [p|]; [|apply Hstep; by right].
  destruct (sequence r <? sequence p); [apply Hstep; by left|].
  destruct ((sequence p =? _) && _); [done|]. apply Hstep. by right.
Qed.

Lemma wrap_i64_id z : -9223372036854775808 <= z <= i64_max -> wrap_i64 z = z.
Proof. unfold wrap_i64, i64_max, u64_modulus. intros. rewrite Z.mod_small; lia. Qed.

(** The byte difference is exact while the batch fits [isize]. *)
Lemma delta_bytes_exact current l rs d0 d :
  delta_bytes current l d0 = Ok d -> NoDup l.*1 -> (forall u, u ∈ l -> files u.1 u.2) ->
  (forall u, u ∈ l -> rs !! u.1 = current !! u.1) -> Z.abs d0 + updates_bytes l <= i64_max ->
  records_bytes (apply_records rs l) = records_bytes rs + (d - d0).
Proof.
  unfold apply_records. revert rs d0. induction l as [|[res r] l IH]; intros rs d0 Hd Hnd Hf Hcur Hb; simpl in *.
  { injection Hd as ->. lia. }
  apply NoDup_cons in Hnd as [Hnin Hnd].
  change (updates_bytes ((res, r) :: l)) with (entry_bytes res.1 + updates_bytes l) in Hb.
  assert (0 <= updates_bytes l) by (apply list_sum_nonneg; intros; apply entry_bytes_nonneg).
  pose proof (entry_bytes_nonneg res.1). unfold to_isize in Hd.
  destruct (Hf (res, r) ltac:(left)) as [Hk _]. simpl in Hk. rewrite Hk in Hd.
  rewrite Z.min_l in Hd by (unfold i64_max in *; lia).
  assert (Hcur' : forall u, u ∈ l -> apply_record rs (res, r) !! u.1 = current !! u.1).
  { intros u Hu. rewrite apply_record_lookup, decide_False; [apply Hcur; by right|].
    simpl. intros <-. apply Hnin. apply list_elem_of_fmap. eauto. }
  assert (Hf' : forall u, u ∈ l -> files u.1 u.2) by (intros u Hu; apply Hf; by right).
  assert (Hab : records_bytes (apply_record rs (res, r)) - records_bytes rs =
    match current !! res with
    | Some p => if sequence r <? sequence p then 0 else if present r then 0 else - entry_bytes res.1
    | None => if present r then entry_bytes res.1 else 0
    end).
  { pose proof (Hcur (res, r) ltac:(left)) as Hc. simpl in Hc. rewrite <- Hc.
    unfold apply_record. simpl.
    destruct (rs !! res) as [p|] eqn:E; simpl; [destruct (_ <? _); [lia|]|];
      destruct (present r); rewrite ?records_bytes_insert, ?records_bytes_delete, E; lia. }
  destruct (current !! res) as [p|]; [destruct (sequence r <? sequence p) eqn:Es|].
  - rewrite (IH _ d0) by (done || lia). lia.
  - destruct ((sequence p =? _) && _); [done|]. destruct (present r); simpl in Hd.
    + rewrite (IH _ d0) by (done || lia). lia.
    + rewrite wrap_i64_id in Hd by (unfold i64_max in *; lia).
      rewrite (IH _ (d0 - entry_bytes res.1)) by (done || lia). lia.
  - destruct (present r).
    + rewrite wrap_i64_id in Hd by (unfold i64_max in *; lia).
      rewrite (IH _ (d0 + entry_bytes res.1)) by (done || lia). lia.
    + rewrite (IH _ d0) by (done || lia). lia.
Qed.

(** ** The invariant *)

Definition owner_bytes (ov : OwnerView) : Z := OWNER_ACCOUNTING_BYTES + records_bytes (ov_records ov).

Definition records_ok (scope : InventoryScope) (bound : Z) (rs : Records) : Prop :=
  forall k r, rs !! k = Some r -> valid_update scope (k, r) /\ present r = true /\ sequence r <= bound.

(** Before the replay the staged residences are behind the page cursor. *)
Definition staged_behind (s : StagingView) : Prop :=
  sv_replay_started s = false ->
  forall k r, sv_records s !! k = Some r -> exists l, sv_last s = Some l /\ key_le k l.

Record index_inv (limit : Z) (scope : InventoryScope) (v : View) : Prop := {
  inv_active : active_bytes v = map_sum (fun _ ov => owner_bytes ov) (owners v);
  inv_staging : staging_bytes v = map_sum (fun _ s => sv_bytes s) (staging v);
  inv_accounted : accounted_bytes v = active_bytes v + staging_bytes v;
  inv_limit : accounted_bytes v <= limit;
  inv_staged_bytes : forall o s, staging v !! o = Some s ->
    sv_bytes s = OWNER_ACCOUNTING_BYTES + records_bytes (sv_records s);
  inv_admitted : admitted_owner_views v = admitted_count (owners v);
  inv_fresh : fresh_expected_owner_views v = fresh_count (owners v) (expected v);
  inv_owner_records : forall o ov, owners v !! o = Some ov ->
    records_ok scope (ov_applied ov) (ov_records ov);
  inv_staged_records : forall o s, staging v !! o = Some s ->
    records_ok scope (Z.max (sv_max_sequence s) (sv_replay s)) (sv_records s);
  inv_staged_order : forall o s, staging v !! o = Some s -> staged_behind s;
  inv_blocks : blocks_ok (blocks v) (ov_records <$> owners v)
}.

(** Name the parts of the invariant. *)
Ltac destruct_inv H :=
  destruct H as [inv_active0 inv_staging0 inv_accounted0 inv_limit0 inv_staged_bytes0 inv_admitted0
                 inv_fresh0 inv_owner_records0 inv_staged_records0 inv_staged_order0 inv_blocks0].

(** The counters as sums, so that one owner's change is one term's change. *)
Definition admitted_one (ov : OwnerView) : Z := if ov_retired ov then 0 else 1.
Definition fresh_one (exp : gset Uuid) (o : Uuid) (ov : OwnerView) : Z :=
  if decide (o ∈ exp) then if negb (ov_retired ov) && ov_fresh ov then 1 else 0 else 0.

Lemma admitted_count_sum os : admitted_count os = map_sum (fun _ ov => admitted_one ov) os.
Proof.
  unfold admitted_count. rewrite size_filter_sum. apply map_sum_ext. intros o ov _.
  unfold admitted_one. simpl. by destruct (ov_retired ov).
Qed.

Lemma fresh_count_sum os exp : fresh_count os exp = map_sum (fresh_one exp) os.
Proof.
  unfold fresh_count.
  assert (filter (fun o => is_fresh os o = true) exp =
    dom (filter (fun p => p.1 ∈ exp /\ negb (ov_retired p.2) && ov_fresh p.2 = true) os)) as ->.
  { apply set_eq. intros o. rewrite elem_of_filter, elem_of_dom. unfold is_fresh. split.
    - intros [Hf Ho]. destruct (os !! o) as [ov|] eqn:E; [|done]. exists ov.
      by apply map_lookup_filter_Some.
    - intros [ov [Ho [He Hf]]%map_lookup_filter_Some]. rewrite Ho. done. }
  rewrite size_dom, size_filter_sum. apply map_sum_ext. intros o ov _. unfold fresh_one. simpl.
  destruct (decide (o ∈ exp)), (negb (ov_retired ov) && ov_fresh ov); simpl;
    by destruct (decide _) as [[]|?]; naive_solver.
Qed.

Lemma admitted_one_range ov : 0 <= admitted_one ov <= 1.
Proof. unfold admitted_one. destruct (ov_retired ov); lia. Qed.
Lemma fresh_one_range exp o ov : 0 <= fresh_one exp o ov <= 1.
Proof. unfold fresh_one. repeat case_match; lia. Qed.

(** Replacing one owner's view. *)
Lemma admitted_count_insert os o ov :
  admitted_count (<[o := ov]> os) =
    admitted_count os - match os !! o with Some p => admitted_one p | None => 0 end + admitted_one ov.
Proof.
  rewrite !admitted_count_sum. destruct (os !! o) as [p|] eqn:E.
  - by rewrite (map_sum_update _ _ _ p).
  - rewrite map_sum_insert by done. lia.
Qed.
Lemma fresh_count_insert os exp o ov :
  fresh_count (<[o := ov]> os) exp =
    fresh_count os exp - match os !! o with Some p => fresh_one exp o p | None => 0 end
    + fresh_one exp o ov.
Proof.
  rewrite !fresh_count_sum. destruct (os !! o) as [p|] eqn:E.
  - by rewrite (map_sum_update _ _ _ p).
  - rewrite map_sum_insert by done. lia.
Qed.
Lemma admitted_count_delete os o p :
  os !! o = Some p -> admitted_count (delete o os) = admitted_count os - admitted_one p.
Proof. intros Ho. rewrite !admitted_count_sum, (map_sum_delete _ os o p Ho). lia. Qed.
Lemma fresh_count_delete os exp o p :
  os !! o = Some p -> fresh_count (delete o os) exp = fresh_count os exp - fresh_one exp o p.
Proof. intros Ho. rewrite !fresh_count_sum, (map_sum_delete _ os o p Ho). lia. Qed.

(** A counted owner is part of the count. *)
Lemma admitted_count_ge os o p : os !! o = Some p -> admitted_one p <= admitted_count os.
Proof.
  intros Ho. rewrite admitted_count_sum. apply (map_sum_ge (fun _ ov => admitted_one ov) os o p); [|done].
  intros. apply admitted_one_range.
Qed.
Lemma fresh_count_ge os exp o p : os !! o = Some p -> fresh_one exp o p <= fresh_count os exp.
Proof.
  intros Ho. rewrite fresh_count_sum. apply (map_sum_ge (fresh_one exp) os o p); [|done].
  intros. apply fresh_one_range.
Qed.

(** ** Bounds that follow *)

Section Bounds.
Context {limit : Z} {scope : InventoryScope} {v : View} (Hinv : index_inv limit scope v).

Lemma owner_bytes_pos ov : OWNER_ACCOUNTING_BYTES <= owner_bytes ov.
Proof. unfold owner_bytes. pose proof (records_bytes_nonneg (ov_records ov)). lia. Qed.

Lemma staged_bytes_pos o s : staging v !! o = Some s -> OWNER_ACCOUNTING_BYTES <= sv_bytes s.
Proof.
  intros Ho. rewrite (inv_staged_bytes _ _ _ Hinv o s Ho).
  pose proof (records_bytes_nonneg (sv_records s)). lia.
Qed.

Lemma active_nonneg : 0 <= active_bytes v.
Proof.
  rewrite (inv_active _ _ _ Hinv). apply map_sum_nonneg. intros o ov _.
  pose proof (owner_bytes_pos ov). unfold OWNER_ACCOUNTING_BYTES in *. lia.
Qed.

Lemma staging_nonneg : 0 <= staging_bytes v.
Proof.
  rewrite (inv_staging _ _ _ Hinv). apply map_sum_nonneg. intros o s Ho.
  apply staged_bytes_pos in Ho. unfold OWNER_ACCOUNTING_BYTES in *. lia.
Qed.

Lemma owner_le_active o ov : owners v !! o = Some ov -> owner_bytes ov <= active_bytes v.
Proof.
  intros Ho. rewrite (inv_active _ _ _ Hinv).
  apply (map_sum_ge (fun _ ov => owner_bytes ov) (owners v) o ov); [|done]. intros o' ov' _.
  pose proof (owner_bytes_pos ov'). unfold OWNER_ACCOUNTING_BYTES in *. lia.
Qed.

Lemma staged_le_staging o s : staging v !! o = Some s -> sv_bytes s <= staging_bytes v.
Proof.
  intros Ho. rewrite (inv_staging _ _ _ Hinv).
  apply (map_sum_ge (fun _ s => sv_bytes s) (staging v) o s); [|done]. intros o' s' Ho'.
  apply staged_bytes_pos in Ho'. unfold OWNER_ACCOUNTING_BYTES in *. lia.
Qed.

(** Every owner costs at least its accounting bytes, so the counters are small. *)
Lemma counts_bounded :
  0 <= fresh_expected_owner_views v <= admitted_owner_views v /\ OWNER_ACCOUNTING_BYTES * admitted_owner_views v <= active_bytes v.
Proof.
  rewrite (inv_admitted _ _ _ Hinv), (inv_fresh _ _ _ Hinv), (inv_active _ _ _ Hinv).
  rewrite admitted_count_sum, fresh_count_sum.
  generalize (expected v). intros exp. induction (owners v) as [|o ov os Ho IH] using map_ind.
  { rewrite !map_sum_empty. lia. }
  rewrite !map_sum_insert by done. pose proof (owner_bytes_pos ov).
  assert (fresh_one exp o ov <= admitted_one ov).
  { unfold fresh_one, admitted_one. repeat case_match; simpl in *; try lia; done. }
  pose proof (fresh_one_range exp o ov). pose proof (admitted_one_range ov).
  unfold OWNER_ACCOUNTING_BYTES in *. lia.
Qed.
End Bounds.

(** Views are equal field by field. *)
Lemma view_eq v w :
  blocks v = blocks w -> owners v = owners w -> staging v = staging w -> expected v = expected w ->
  accounted_bytes v = accounted_bytes w -> active_bytes v = active_bytes w ->
  staging_bytes v = staging_bytes w -> membership_revision v = membership_revision w ->
  generation v = generation w -> admitted_owner_views v = admitted_owner_views w ->
  fresh_expected_owner_views v = fresh_expected_owner_views w -> v = w.
Proof. destruct v, w. simpl. congruence. Qed.

(** ** Preservation *)

Lemma recs_insert_same (os : gmap Uuid OwnerView) o ov ov' :
  os !! o = Some ov -> ov_records ov' = ov_records ov ->
  ov_records <$> <[o := ov']> os = ov_records <$> os.
Proof. intros Ho Hr. rewrite fmap_insert, Hr. apply insert_id. by rewrite lookup_fmap, Ho. Qed.

Section Preserve.
Context (limit : Z) (Hlimit : 0 <= limit <= i64_max) (scope : InventoryScope).
Abbreviation inv := (index_inv limit scope).

Lemma u64_of_limit z : z <= limit -> z <= u64_max.
Proof. unfold i64_max, u64_max in *. lia. Qed.

Lemma bump_inv v : inv v -> inv (bump v).
Proof. intros []. constructor; done. Qed.

Lemma empty_inv : inv empty_view.
Proof.
  constructor; simpl; try done; try (intros ? ? H; by rewrite lookup_empty in H); try lia.
  split; [intros k Hk; by rewrite lookup_empty in Hk|]. intros k.
  unfold entries. rewrite lookup_empty. split; [constructor|]. intros e. split; [set_solver|].
  intros (rs & r & HR & _). by rewrite fmap_empty, lookup_empty in HR.
Qed.

(** Replace one owner's flags, keeping its records and watermark. *)
Lemma replace_owner_inv v o ov ov' :
  inv v -> owners v !! o = Some ov ->
  ov_records ov' = ov_records ov -> ov_applied ov' = ov_applied ov ->
  inv (set_counts (admitted_owner_views v - admitted_one ov + admitted_one ov')
         (fresh_expected_owner_views v - fresh_one (expected v) o ov + fresh_one (expected v) o ov')
         (set_owners (<[o := ov']> (owners v)) v)).
Proof.
  intros Hi Ho Hr Ha. destruct_inv Hi. constructor; simpl; try done.
  - rewrite inv_active0, (map_sum_update _ _ _ ov) by done. unfold owner_bytes. rewrite Hr. lia.
  - rewrite inv_admitted0, admitted_count_insert, Ho. lia.
  - rewrite inv_fresh0, fresh_count_insert, Ho. lia.
  - intros o' ov1 Ho'. apply lookup_insert_Some in Ho' as [[<- <-]|[_ Ho']]; [|eauto].
    rewrite Hr, Ha. eauto.
  - by rewrite (recs_insert_same _ _ ov).
Qed.

Lemma drop_staging_inv v o : inv v -> inv (drop_staging o v).
Proof.
  intros Hi. unfold drop_staging. destruct (staging v !! o) as [s|] eqn:Ho; [|done].
  pose proof (staged_le_staging Hi o s Ho). pose proof (staged_bytes_pos Hi o s Ho).
  pose proof (active_nonneg Hi). pose proof (staging_nonneg Hi). pose proof (u64_of_limit limit).
  destruct_inv Hi. unfold OWNER_ACCOUNTING_BYTES in *.
  rewrite (u64_sub_exact (accounted_bytes v)), (u64_sub_exact (staging_bytes v)) by lia.
  constructor; simpl; try done; try lia.
  - rewrite inv_staging0, (map_sum_delete _ _ o s) by done. lia.
  - intros o' s' [_ Ho']%lookup_delete_Some. eauto.
  - intros o' s' [_ Ho']%lookup_delete_Some. eauto.
  - intros o' s' [_ Ho']%lookup_delete_Some. eauto.
Qed.

Lemma drop_staging_frame v o :
  owners (drop_staging o v) = owners v /\ expected (drop_staging o v) = expected v /\
  staging (drop_staging o v) = delete o (staging v) /\
  admitted_owner_views (drop_staging o v) = admitted_owner_views v /\
  fresh_expected_owner_views (drop_staging o v) = fresh_expected_owner_views v.
Proof.
  unfold drop_staging. destruct (staging v !! o) as [s|] eqn:Ho; [done|].
  by rewrite delete_id.
Qed.

Lemma make_stale_inv v o : inv v -> inv (make_stale o v).
Proof.
  intros Hi. unfold make_stale. destruct (owners v !! o) as [ov|] eqn:Ho; [|done].
  pose proof (replace_owner_inv v o ov (with_fresh false ov) Hi Ho eq_refl eq_refl) as Hr.
  pose proof (fresh_count_ge _ (expected v) _ _ Ho) as Hge. rewrite <- (inv_fresh _ _ _ Hi) in Hge.
  destruct (counts_bounded Hi) as [Hc Hc']. pose proof (inv_limit _ _ _ Hi).
  pose proof (inv_accounted _ _ _ Hi). pose proof (staging_nonneg Hi). pose proof (u64_of_limit limit).
  unfold admitted_one, fresh_one, with_fresh, OWNER_ACCOUNTING_BYTES in *. simpl in Hr.
  assert (Hbd : bool_decide (o ∈ expected v) = if decide (o ∈ expected v) then true else false) by done.
  simpl. rewrite Hbd. destruct (decide (o ∈ expected v)), (ov_retired ov), (ov_fresh ov); simpl in *;
    unfold set_counts, set_owners in *; simpl in *;
    rewrite ?u64_sub_exact by lia; (eapply eq_ind; [exact Hr|f_equal; lia]).
Qed.

Lemma set_counts_id v : set_counts (admitted_owner_views v) (fresh_expected_owner_views v) v = v.
Proof. by destruct v. Qed.

Lemma confirm_progress_inv v o view_id applied now :
  inv v -> inv (confirm_progress o view_id applied now v).1.
Proof.
  intros Hi. unfold confirm_progress. destruct (owners v !! o) as [ov|] eqn:Ho; [|done].
  destruct (_ || _) eqn:Ec; [done|]. apply orb_false_iff in Ec as [[Er _]%orb_false_iff _].
  set (ov' := mkOwnerView _ _ _ _ _ _ _).
  pose proof (replace_owner_inv v o ov ov' Hi Ho eq_refl eq_refl) as Hr.
  destruct (counts_bounded Hi) as [Hc Hc']. pose proof (inv_limit _ _ _ Hi).
  pose proof (inv_accounted _ _ _ Hi). pose proof (staging_nonneg Hi). pose proof (u64_of_limit limit).
  unfold admitted_one, fresh_one, OWNER_ACCOUNTING_BYTES in *. subst ov'. simpl in Hr. rewrite Er in Hr.
  assert (Hbd : bool_decide (o ∈ expected v) = if decide (o ∈ expected v) then true else false) by done.
  simpl. rewrite Hbd. apply bump_inv. rewrite Er.
  destruct (decide (o ∈ expected v)), (ov_fresh ov); simpl in *;
    unfold set_counts, set_owners in *; simpl in *;
    rewrite ?u64_add_exact by (unfold i64_max, u64_max in *; lia); (eapply eq_ind; [exact Hr|f_equal; lia]).
Qed.

Lemma retire_owner_inv v o : inv v -> inv (retire_owner o v).
Proof.
  intros Hi0. unfold retire_owner. apply bump_inv.
  pose proof (drop_staging_inv v o Hi0) as Hi. set (w := drop_staging o v) in *. clearbody w.
  destruct (owners w !! o) as [ov|] eqn:Ho; [|done].
  pose proof (replace_owner_inv w o ov (retire ov) Hi Ho eq_refl eq_refl) as Hr.
  pose proof (fresh_count_ge _ (expected w) _ _ Ho) as Hf. rewrite <- (inv_fresh _ _ _ Hi) in Hf.
  pose proof (admitted_count_ge _ _ _ Ho) as Ha. rewrite <- (inv_admitted _ _ _ Hi) in Ha.
  destruct (counts_bounded Hi) as [Hc Hc']. pose proof (inv_limit _ _ _ Hi).
  pose proof (inv_accounted _ _ _ Hi). pose proof (staging_nonneg Hi). pose proof (u64_of_limit limit).
  unfold admitted_one, fresh_one, retire, OWNER_ACCOUNTING_BYTES in *. simpl in Hr.
  assert (Hbd : bool_decide (o ∈ expected w) = if decide (o ∈ expected w) then true else false) by done.
  simpl. rewrite Hbd. destruct (decide (o ∈ expected w)), (ov_retired ov), (ov_fresh ov); simpl in *;
    unfold set_counts, set_owners in *; simpl in *;
    rewrite ?u64_sub_exact by lia; (eapply eq_ind; [exact Hr|f_equal; lia]).
Qed.

Lemma abort_snapshot_inv v o session : inv v -> inv (abort_snapshot o session v).
Proof.
  intros Hi. unfold abort_snapshot. destruct (staging v !! o) as [s|]; [|done].
  destruct (_ =? _); [|done]. by apply bump_inv, drop_staging_inv.
Qed.

Lemma begin_snapshot_inv v o session snapshot view_id start :
  0 <= start -> inv v -> inv (begin_snapshot limit o session snapshot view_id start v).1.
Proof.
  intros Hst Hi0. unfold begin_snapshot. destruct (_ || _); [done|]. destruct (negb _); [done|].
  pose proof (drop_staging_inv v o Hi0) as Hi. destruct (drop_staging_frame v o) as (_ & _ & Hs & _).
  set (w := drop_staging o v) in *. clearbody w.
  pose proof (active_nonneg Hi). pose proof (staging_nonneg Hi).
  pose proof (inv_limit _ _ _ Hi). pose proof (inv_accounted _ _ _ Hi).
  unfold OWNER_ACCOUNTING_BYTES. rewrite (u64_add_exact (accounted_bytes w)) by (unfold i64_max, u64_max in *; lia).
  destruct (Z.ltb_spec limit (accounted_bytes w + 256)); [done|]. simpl.
  apply bump_inv, make_stale_inv. rewrite u64_add_exact by (unfold i64_max, u64_max in *; lia).
  assert (Hnone : staging w !! o = None) by (rewrite Hs; apply lookup_delete_eq).
  destruct_inv Hi. constructor; simpl; try done; try lia.
  - rewrite inv_staging0, map_sum_insert by done. simpl. lia.
  - intros o' s' Ho'. apply lookup_insert_Some in Ho' as [[<- <-]|[_ Ho']]; [|eauto].
    simpl. unfold OWNER_ACCOUNTING_BYTES, records_bytes. rewrite map_sum_empty. lia.
  - intros o' s' Ho'. apply lookup_insert_Some in Ho' as [[<- <-]|[_ Ho']]; [|eauto].
    intros k r Hk. simpl in Hk. by rewrite lookup_empty in Hk.
  - intros o' s' Ho'. apply lookup_insert_Some in Ho' as [[<- <-]|[_ Ho']]; [|eauto].
    intros _ k r Hk. simpl in Hk. by rewrite lookup_empty in Hk.
Qed.

Lemma set_expected_owners_inv v local revision os :
  inv v -> inv (set_expected_owners local revision os v).
Proof.
  intros Hi. unfold set_expected_owners. set (exp := list_to_set _ : gset Z).
  destruct (match membership_revision v with Some _ => _ | None => _ end); [done|].
  pose proof (active_nonneg Hi). pose proof (staging_nonneg Hi). pose proof (u64_of_limit limit).
  assert (Hsplit := map_sum_filter_split (fun _ s => sv_bytes s) (fun p => p.1 ∈ exp)
    (fun p => p.1 ∉ exp) (staging v) (fun p => reflexivity _)).
  assert (Hnn : forall o s, staging v !! o = Some s -> 0 <= sv_bytes s).
  { intros o s Ho. apply (staged_bytes_pos Hi) in Ho. unfold OWNER_ACCOUNTING_BYTES in Ho. lia. }
  assert (0 <= map_sum (fun _ s => sv_bytes s) (filter (fun p => p.1 ∈ exp) (staging v))).
  { apply map_sum_nonneg. intros o s [Ho _]%map_lookup_filter_Some. eauto. }
  pose proof (inv_limit _ _ _ Hi). pose proof (inv_accounted _ _ _ Hi).
  pose proof (inv_staging _ _ _ Hi).
  assert (0 <= map_sum (fun _ s => sv_bytes s) (filter (fun p => p.1 ∉ exp) (staging v))).
  { apply map_sum_nonneg. intros o s [Ho _]%map_lookup_filter_Some. eauto. }
  rewrite !minus_staged; try (unfold is_u64; lia);
    try (intros o s [Ho _]%map_lookup_filter_Some; eauto).
  apply bump_inv. destruct_inv Hi. constructor; simpl; try done; try lia.
  - rewrite inv_active0, map_sum_imap. apply map_sum_ext. intros o ov _.
    destruct (decide (o ∈ exp)); done.
  - intros o s [Ho _]%map_lookup_filter_Some. eauto.
  - intros o ov Ho. rewrite map_lookup_imap in Ho. destruct (owners v !! o) as [ov0|] eqn:E; [|done].
    simpl in Ho. injection Ho as <-. destruct (decide (o ∈ exp)); eauto. simpl. eauto.
  - intros o s [Ho _]%map_lookup_filter_Some. eauto.
  - intros o s [Ho _]%map_lookup_filter_Some. eauto.
  - replace (ov_records <$> map_imap _ (owners v)) with (ov_records <$> owners v); [done|].
    apply map_eq. intros o. rewrite !lookup_fmap, map_lookup_imap.
    destruct (owners v !! o); [|done]. simpl. by destruct (decide (o ∈ exp)).
Qed.
End Preserve.
