(* ===== verification/IndexDelta.v ===== *)
(** * Snapshot pages and deltas of the global index

    The page and delta operations of [Index] keep the invariant of [IndexInv]; an operation that
    is refused leaves no trace, and the accounting of an accepted one is exact. *)
From S2P Require Import Prelude Containers Slices State Membership Inventory Index IndexInv.

Local Open Scope Z_scope.

(** ** Pages *)

Lemma sorted_items_NoDup (l : list (Residence * InventoryRecord)) :
  StronglySorted item_lt l -> NoDup l.*1.
Proof.
  induction 1 as [|u l Hs IH Hlt]; [constructor|]. rewrite fmap_cons. constructor; [|done].
  intros (u' & Heq & Hin)%list_elem_of_fmap. rewrite Forall_forall in Hlt.
  specialize (Hlt u' Hin). unfold item_lt in Hlt. rewrite Heq in Hlt. by apply key_lt_irrefl in Hlt.
Qed.

Definition insert_update (rs : Records) (u : Residence * InventoryRecord) : Records := <[u.1 := u.2]> rs.

(** What the page loop does to the staging view. *)
Lemma foldl_stage_spec s l :
  let s' := foldl stage_record s l in
  sv_session s' = sv_session s /\ sv_snapshot s' = sv_snapshot s /\ sv_view_id s' = sv_view_id s /\
  sv_start s' = sv_start s /\ sv_replay s' = sv_replay s /\ sv_next_page s' = sv_next_page s /\
  sv_replay_started s' = sv_replay_started s /\ sv_bytes s' = sv_bytes s /\
  sv_last s' = match last l with Some u => Some u.1 | None => sv_last s end /\
  (sv_max_sequence s <= sv_max_sequence s' /\ forall u, u ∈ l -> sequence u.2 <= sv_max_sequence s') /\
  sv_records s' = foldl insert_update (sv_records s) l.
Proof.
  simpl. revert s. induction l as [|u l IH]; intros s; simpl.
  { split_and!; try done. set_solver. }
  destruct (IH (stage_record s u)) as (? & ? & ? & ? & ? & ? & ? & ? & Hl & [Hm Hin] & Hr). simpl in *.
  split_and!; try done.
  - rewrite Hl. by destruct l as [|u' l]; [|rewrite last_cons_cons; destruct (last (u' :: l)) eqn:E; [|by apply last_None in E]].
  - lia.
  - intros u' [->|Hu']%elem_of_cons; [lia|auto].
Qed.

Lemma insert_updates_lookup rs l k :
  NoDup l.*1 ->
  foldl insert_update rs l !! k =
    match list_find (fun u => u.1 = k) l with Some (_, u) => Some u.2 | None => rs !! k end.
Proof.
  intros Hnd. rewrite (foldl_pointwise insert_update (fun _ r => Some r)) by
    (done || (intros m u k'; unfold insert_update; destruct (decide (k' = u.1)) as [->|];
              [apply lookup_insert_eq|by rewrite lookup_insert_ne])).
  done.
Qed.

Lemma insert_updates_bytes rs l :
  NoDup l.*1 -> (forall u, u ∈ l -> rs !! u.1 = None) ->
  records_bytes (foldl insert_update rs l) = records_bytes rs + updates_bytes l.
Proof.
  revert rs. induction l as [|u l IH]; intros rs Hnd Hnone; simpl.
  { unfold updates_bytes, list_sum. simpl. lia. }
  apply NoDup_cons in Hnd as [Hnin Hnd]. rewrite IH; [|done|].
  - unfold insert_update. rewrite records_bytes_insert, (Hnone u ltac:(left)).
    unfold updates_bytes, list_sum. simpl. lia.
  - intros u' Hu'. unfold insert_update. rewrite lookup_insert_ne; [apply Hnone; by right|].
    intros Heq. apply Hnin. rewrite Heq. apply list_elem_of_fmap. eauto.
Qed.

Lemma elem_of_insert_updates rs l k r :
  NoDup l.*1 -> foldl insert_update rs l !! k = Some r -> (k, r) ∈ l \/ rs !! k = Some r.
Proof.
  intros Hnd. rewrite insert_updates_lookup by done.
  destruct (list_find _ _) as [[i [k' r']]|] eqn:E; [|by right].
  apply list_find_Some in E as (Hi & Hk & _). simpl in *. subst k'. intros [= <-].
  left. by eapply list_elem_of_lookup_2.
Qed.

Section Snapshot.
Context (limit : Z) (Hlimit : 0 <= limit <= i64_max) (scope : InventoryScope).
Abbreviation inv := (index_inv limit scope).

(** The bytes of a batch of records fit [isize]. *)
Definition batch_fits (records : list InventoryRecord) : Prop := batch_bytes records <= i64_max.

Lemma batch_bytes_updates (l : list (Residence * InventoryRecord)) :
  (forall u, u ∈ l -> key u.2 = u.1.1) -> updates_bytes l = batch_bytes l.*2.
Proof.
  induction l as [|u l IH]; intros Hk; [done|]. rewrite fmap_cons.
  change (updates_bytes (u :: l)) with (entry_bytes u.1.1 + updates_bytes l).
  change (batch_bytes (u.2 :: l.*2)) with (entry_bytes (key u.2) + batch_bytes l.*2).
  rewrite (Hk u ltac:(left)), IH; [done|]. intros u' Hu'. apply Hk. by right.
Qed.

(** A page is accepted into the staging view of its owner only. *)
Lemma apply_snapshot_page_inv v o session snapshot n records :
  batch_fits records -> inv v ->
  inv (apply_snapshot_page limit scope o session snapshot n records v).1.
Proof.
  intros Hfit Hi. unfold apply_snapshot_page. destruct (staging v !! o) as [s|] eqn:Ho; [|done].
  destruct (_ || _); [done|]. destruct (sv_replay_started s) eqn:Er; [done|].
  destruct (negb _); [done|].
  destruct (validate_page _ _ _ _ _) as [[additional updates]|] eqn:Ev; [|done].
  apply validate_page_Ok in Ev as (l & -> & Hrec & Hs & Ha & Hv & Hp & -> & _). simpl.
  rewrite Forall_forall in Hv, Hp.
  assert (Hk : forall u, u ∈ l -> key u.2 = u.1.1) by (intros u Hu; apply (Hv u Hu)).
  pose proof (batch_bytes_updates l Hk) as Hbu. rewrite Hrec in Hbu.
  assert (0 <= updates_bytes l) by (apply list_sum_nonneg; intros; apply entry_bytes_nonneg).
  pose proof (active_nonneg Hi). pose proof (staging_nonneg Hi).
  pose proof (staged_le_staging Hi o s Ho). pose proof (staged_bytes_pos Hi o s Ho).
  pose proof (inv_limit _ _ _ Hi). pose proof (inv_accounted _ _ _ Hi).
  unfold batch_fits, OWNER_ACCOUNTING_BYTES in *.
  rewrite !Z.add_0_l, (u64_add_exact (accounted_bytes v)) by (unfold i64_max, u64_max in *; lia).
  destruct (Z.ltb_spec limit (accounted_bytes v + updates_bytes l)); [done|]. simpl.
  pose proof (sorted_items_NoDup l Hs) as Hnd.
  pose proof (inv_staged_order _ _ _ Hi o s Ho Er) as Hbehind.
  assert (Hnone : forall u, u ∈ l -> sv_records s !! u.1 = None).
  { intros u Hu. destruct (sv_records s !! u.1) as [r|] eqn:E; [|done]. exfalso.
    destruct (Hbehind _ _ E) as (l0 & Hl0 & Hle). specialize (Ha u Hu). rewrite Hl0 in Ha.
    apply key_ltb_spec in Ha. by apply key_not_le in Ha. }
  destruct (foldl_stage_spec s l) as (_ & _ & _ & _ & Hrp & _ & Hrs & Hb & Hlast & [Hmax Hmin] & Hrs').
  rewrite Hb, (u64_add_exact (sv_bytes s)), (u64_add_exact (staging_bytes v))
    by (unfold i64_max, u64_max in *; lia).
  pose proof (insert_updates_bytes (sv_records s) l Hnd Hnone) as Hbytes.
  destruct_inv Hi. constructor; simpl; try done; try lia.
  - rewrite inv_staging0, (map_sum_update _ _ _ s) by done. simpl. lia.
  - intros o' s' Ho'. apply lookup_insert_Some in Ho' as [[<- <-]|[_ Ho']]; [|eauto]. simpl.
    rewrite Hrs', Hbytes, (inv_staged_bytes0 o s Ho). unfold OWNER_ACCOUNTING_BYTES. lia.
  - intros o' s' Ho'. apply lookup_insert_Some in Ho' as [[<- <-]|[_ Ho']]; [|eauto].
    intros k r Hr. simpl in *. rewrite Hrs' in Hr. rewrite Hrp.
    apply elem_of_insert_updates in Hr as [Hr|Hr]; [| |done].
    + split_and!; [by apply (Hv (k, r))|by apply (Hp (k, r))|].
      specialize (Hmin (k, r) Hr). simpl in Hmin. lia.
    + destruct (inv_staged_records0 o s Ho k r Hr) as (? & ? & ?). split_and!; [done..|]. lia.
  - intros o' s' Ho'. apply lookup_insert_Some in Ho' as [[<- <-]|[_ Ho']]; [|eauto].
    intros _ k r Hr. simpl in *. rewrite Hrs' in Hr. rewrite Hlast.
    apply elem_of_insert_updates in Hr as [Hr|Hr]; [| |done].
    + destruct (last l) as [u|] eqn:El; [|apply last_None in El; subst l; set_solver].
      exists u.1. split; [done|]. by apply (sorted_last_max l (k, r) u).
    + destruct (Hbehind k r Hr) as (l0 & Hl0 & Hle). destruct (last l) as [u|] eqn:El; [|eauto].
      exists u.1. split; [done|]. apply last_Some in El as [l' ->].
      assert (Hu : is_after (sv_last s) u.1 = true) by (apply Ha; set_solver).
      rewrite Hl0 in Hu. apply key_ltb_spec, key_lt_le in Hu. by etrans.
Qed.

(** ** Deltas *)

(** The updates a delta applies: validated records of its interval, one per residence. *)
Definition delta_updates (from thr : Z) (records : list InventoryRecord) (latest : Records) : Prop :=
  forall k r, latest !! k = Some r ->
    r ∈ records /\ valid_update scope (k, r) /\ from < sequence r <= thr.

Lemma validate_delta_Ok cur from thr records delta updates :
  batch_fits records -> validate_delta cur from thr records scope = Ok (delta, updates) ->
  from < thr /\ exists latest, updates = btree_items latest /\
    latest_records from thr records scope ∅ = Ok latest /\
    delta_updates from thr records latest /\
    records_bytes (apply_records cur updates) = records_bytes cur + delta.
Proof.
  intros Hfit. unfold validate_delta. destruct (Z.leb_spec thr from); [done|].
  destruct (latest_records _ _ _ _ _) as [latest|] eqn:El; [|done].
  destruct (delta_bytes _ _ _) as [d|] eqn:Ed; [|done]. intros [= <- <-]. split; [done|].
  exists latest. pose proof El as El'. apply latest_records_Ok in El as [Hin Hb].
  assert (Hd : delta_updates from thr records latest).
  { intros k r Hr. destruct (Hin k r Hr) as [Hr'|?]; [by rewrite lookup_empty in Hr'|done]. }
  split_and!; try done.
  rewrite (delta_bytes_exact cur (btree_items latest) cur 0 d Ed); [lia|apply NoDup_btree_keys| |done|].
  - intros [k r] Hu%elem_of_btree_items. apply (Hd k r Hu).
  - unfold batch_fits in Hfit. change (records_bytes ∅) with 0 in Hb. simpl.
    enough (updates_bytes (btree_items latest) = records_bytes latest) by lia.
    unfold updates_bytes, records_bytes. rewrite map_sum_list.
    apply list_sum_perm, btree_items_perm.
Qed.

Lemma apply_records_ok bound from thr records latest cur :
  records_ok scope bound cur -> delta_updates from thr records latest -> bound <= Z.max bound thr ->
  records_ok scope (Z.max bound thr) (apply_records cur (btree_items latest)).
Proof.
  intros Hc Hd Hle k r. rewrite apply_records_lookup. unfold merge_record.
  assert (Hold : cur !! k = Some r ->
    valid_update scope (k, r) /\ present r = true /\ sequence r <= Z.max bound thr).
  { intros (? & ? & ?)%Hc. split_and!; [done..|lia]. }
  destruct (latest !! k) as [r'|] eqn:El; [|done].
  destruct (Hd k r' El) as (_ & Hv & Hs).
  assert (Hnew : (if present r' then Some r' else None) = Some r ->
    valid_update scope (k, r) /\ present r = true /\ sequence r <= Z.max bound thr).
  { destruct (present r') eqn:Ep; [|done]. intros [= <-]. split_and!; [done..|lia]. }
  destruct (cur !! k) as [p|]; [|done]. destruct (sequence r' <? sequence p); auto.
Qed.

(** The view after an accepted snapshot delta. *)
Definition delta_staged (o : Uuid) (s : StagingView) (thr delta : Z)
    (updates : list (Residence * InventoryRecord)) (v : View) : View :=
  set_bytes (accounted_bytes v + delta) (active_bytes v) (staging_bytes v + delta)
    (set_staging (<[o := mkStaging (sv_session s) (sv_snapshot s) (sv_view_id s) (sv_start s) thr
                          (sv_next_page s) true (sv_last s) (sv_max_sequence s)
                          (apply_records (sv_records s) updates) (sv_bytes s + delta)]> (staging v)) v).

(** A delta is refused without a trace or accepted with exact accounting: the underflow errors
    that follow the first mutation are unreachable. *)
Lemma apply_snapshot_delta_cases v o session from thr records :
  batch_fits records -> inv v ->
  (exists e, apply_snapshot_delta limit scope o session from thr records v = (v, Err e)) \/
  (exists s latest delta, staging v !! o = Some s /\ sv_session s = session /\ sv_replay s = from /\
     from < thr /\ latest_records from thr records scope ∅ = Ok latest /\
     delta_updates from thr records latest /\
     records_bytes (apply_records (sv_records s) (btree_items latest)) = records_bytes (sv_records s) + delta /\
     accounted_bytes v + delta <= limit /\
     apply_snapshot_delta limit scope o session from thr records v =
       (delta_staged o s thr delta (btree_items latest) v, Ok tt)).
Proof.
  intros Hfit Hi. unfold apply_snapshot_delta.
  destruct (staging v !! o) as [s|] eqn:Ho; [|eauto].
  destruct (_ || _) eqn:Ec; [eauto|]. apply orb_false_iff in Ec as [Ec1 Ec2].
  apply negb_false_iff, Z.eqb_eq in Ec1, Ec2.
  destruct (validate_delta _ _ _ _ _) as [[delta updates]|] eqn:Ev; [|eauto].
  apply validate_delta_Ok in Ev as (Hlt & latest & -> & Hlat & Hd & Hb); [|done].
  unfold over_budget. destruct (checked_add_signed (accounted_bytes v) delta) as [acc|] eqn:Ea; [|eauto].
  destruct (Z.ltb_spec limit acc); [eauto|].
  pose proof (active_nonneg Hi). pose proof (staged_le_staging Hi o s Ho).
  pose proof (inv_staged_bytes _ _ _ Hi o s Ho) as Hsb. pose proof (inv_accounted _ _ _ Hi).
  pose proof (records_bytes_nonneg (apply_records (sv_records s) (btree_items latest))).
  unfold checked_add_signed in Ea. destruct (_ && _) eqn:Eb in Ea; [|done]. injection Ea as <-.
  right. exists s, latest, delta. split_and!; try done.
  unfold OWNER_ACCOUNTING_BYTES in *.
  assert (Hck : forall z, 0 <= z + delta <= limit -> checked_add_signed z delta = Some (z + delta)).
  { intros z Hz. unfold checked_add_signed. rewrite (proj2 (Z.leb_le 0 _)) by lia.
    rewrite (proj2 (Z.leb_le _ u64_max)) by (unfold i64_max, u64_max in *; lia). done. }
  rewrite (Hck (sv_bytes s)) by lia. cbn [staging_bytes set_staging accounted_bytes set_bytes active_bytes].
  rewrite (Hck (staging_bytes v)), (Hck (accounted_bytes v)) by lia. done.
Qed.

Lemma apply_snapshot_delta_inv v o session from thr records :
  batch_fits records -> inv v ->
  inv (apply_snapshot_delta limit scope o session from thr records v).1.
Proof.
  intros Hfit Hi.
  destruct (apply_snapshot_delta_cases v o session from thr records Hfit Hi)
    as [[e ->]|(s & latest & delta & Ho & _ & Hfrom & Hlt & _ & Hd & Hb & Hacc & ->)]; [done|].
  pose proof (inv_staged_records _ _ _ Hi o s Ho) as Hok.
  destruct_inv Hi. unfold delta_staged. constructor; simpl; try done; try lia.
  - rewrite inv_staging0, (map_sum_update _ _ _ s) by done. simpl. lia.
  - intros o' s' Ho'. apply lookup_insert_Some in Ho' as [[<- <-]|[_ Ho']]; [|eauto]. simpl.
    rewrite Hb, (inv_staged_bytes0 o s Ho). lia.
  - intros o' s' Ho'. apply lookup_insert_Some in Ho' as [[<- <-]|[_ Ho']]; [|eauto]. simpl.
    intros k r Hr. apply (apply_records_ok (Z.max (sv_max_sequence s) (sv_replay s)) from thr records latest) in Hr;
      [|exact Hok|done|lia].
    destruct Hr as (? & ? & ?). split_and!; [done..|lia].
  - intros o' s' Ho'. apply lookup_insert_Some in Ho' as [[<- <-]|[_ Ho']]; [|eauto]. by intros ?.
Qed.

(** The view after an accepted delta. *)
Definition delta_installed (o : Uuid) (ov : OwnerView) (now mono thr delta : Z)
    (updates : list (Residence * InventoryRecord)) (v : View) : View :=
  let ov' := mkOwnerView (ov_view_id ov) thr mono (apply_records (ov_records ov) updates) true now false in
  bump (set_bytes (accounted_bytes v + delta) (active_bytes v + delta) (staging_bytes v)
    (set_counts (admitted_owner_views v)
       (fresh_expected_owner_views v - fresh_one (expected v) o ov + fresh_one (expected v) o ov')
       (set_owners (<[o := ov']> (owners v))
          (set_blocks (foldl (update_block o) (blocks v) updates) v)))).

Lemma apply_delta_cases v o view_id from thr records now mono :
  batch_fits records -> inv v ->
  (exists r, apply_delta limit scope now mono o view_id from thr records v = (v, r) /\ r <> Ok Applied) \/
  (exists ov latest delta, owners v !! o = Some ov /\ ov_view_id ov = view_id /\ ov_retired ov = false /\
     ov_applied ov = from /\ from < thr /\ latest_records from thr records scope ∅ = Ok latest /\
     delta_updates from thr records latest /\
     records_bytes (apply_records (ov_records ov) (btree_items latest)) = records_bytes (ov_records ov) + delta /\
     accounted_bytes v + delta <= limit /\
     apply_delta limit scope now mono o view_id from thr records v =
       (delta_installed o ov now mono thr delta (btree_items latest) v, Ok Applied)).
Proof.
  intros Hfit Hi. unfold apply_delta.
  destruct (owners v !! o) as [ov|] eqn:Ho; [|left; by eexists].
  destruct (_ || _) eqn:Ec; [left; by eexists|]. apply orb_false_iff in Ec as [Ec1 Er].
  apply negb_false_iff, Z.eqb_eq in Ec1.
  destruct (Z.leb_spec thr (ov_applied ov)); [left; by eexists|].
  destruct (Z.ltb_spec from (ov_applied ov)); [left; by eexists|].
  destruct (Z.ltb_spec (ov_applied ov) from); [left; by eexists|].
  destruct (validate_delta _ _ _ _ _) as [[delta updates]|] eqn:Ev; [|left; by eexists].
  apply validate_delta_Ok in Ev as (Hlt & latest & -> & Hlat & Hd & Hb); [|done].
  unfold over_budget. destruct (checked_add_signed (accounted_bytes v) delta) as [acc|] eqn:Ea; [|left; by eexists].
  destruct (Z.ltb_spec limit acc); [left; by eexists|].
  unfold checked_add_signed in Ea. destruct (_ && _) eqn:Eb in Ea; [|done]. injection Ea as <-.
  pose proof (staging_nonneg Hi). pose proof (owner_le_active Hi o ov Ho) as Hob.
  pose proof (inv_accounted _ _ _ Hi). destruct (counts_bounded Hi) as [Hc Hc'].
  pose proof (records_bytes_nonneg (apply_records (ov_records ov) (btree_items latest))).
  pose proof (inv_limit _ _ _ Hi). unfold owner_bytes, OWNER_ACCOUNTING_BYTES in *.
  right. exists ov, latest, delta. split_and!; try done; try lia.
  assert (Hck : forall z, 0 <= z + delta <= limit -> checked_add_signed z delta = Some (z + delta)).
  { intros z Hz. unfold checked_add_signed. rewrite (proj2 (Z.leb_le 0 _)) by lia.
    rewrite (proj2 (Z.leb_le _ u64_max)) by (unfold i64_max, u64_max in *; lia). done. }
  unfold delta_installed, fresh_one. rewrite Er. simpl.
  assert (Hbd : bool_decide (o ∈ expected v) = if decide (o ∈ expected v) then true else false) by done.
  rewrite Hbd. destruct (decide (o ∈ expected v)), (ov_fresh ov); simpl;
    rewrite (Hck (active_bytes v)) by lia; simpl; rewrite (Hck (accounted_bytes v)) by lia;
    (f_equal; apply view_eq; simpl;
     rewrite ?insert_insert_eq, ?(u64_add_exact (fresh_expected_owner_views v))
       by (unfold i64_max, u64_max in *; lia); reflexivity || lia).
Qed.

Lemma apply_delta_inv v o view_id from thr records now mono :
  batch_fits records -> inv v ->
  inv (apply_delta limit scope now mono o view_id from thr records v).1.
Proof.
  intros Hfit Hi.
  destruct (apply_delta_cases v o view_id from thr records now mono Hfit Hi)
    as [(r & -> & _)|(ov & latest & delta & Ho & _ & Hret & Hfrom & Hlt & _ & Hd & Hb & Hacc & ->)]; [done|].
  pose proof (inv_owner_records _ _ _ Hi o ov Ho) as Hok.
  unfold delta_installed. simpl. apply bump_inv. destruct_inv Hi. constructor; simpl; try done; try lia.
  - rewrite inv_active0, (map_sum_update _ _ _ ov) by done. unfold owner_bytes. simpl. lia.
  - rewrite inv_admitted0, admitted_count_insert, Ho. unfold admitted_one. simpl. rewrite Hret. lia.
  - rewrite inv_fresh0, fresh_count_insert, Ho. lia.
  - intros o' ov' Ho'. apply lookup_insert_Some in Ho' as [[<- <-]|[_ Ho']]; [|eauto]. simpl.
    intros k r Hr. apply (apply_records_ok (ov_applied ov) from thr records latest) in Hr;
      [|exact Hok|done|lia].
    destruct Hr as (? & ? & ?). split_and!; [done..|lia].
  - rewrite fmap_insert. simpl. apply blocks_ok_updates; [done| |apply NoDup_btree_keys|].
    + by rewrite lookup_fmap, Ho.
    + intros [k r] Hu%elem_of_btree_items. simpl. destruct (Hd k r Hu) as (_ & Hv & Hs).
      split; [apply Hv|]. intros p Hp. destruct (Hok k p Hp) as (_ & _ & ?). lia.
Qed.
End Snapshot.
