(* ===== verification/IndexInstall.v ===== *)
(** * Installing, retiring and looking up owners in the global index

    Committing a snapshot, cleaning up a retired owner and the lookups, against the invariant of
    [IndexInv]; the theorems about the index as a whole. *)
From S2P Require Import Prelude Containers Slices State Membership Inventory Index IndexInv IndexDelta.

Local Open Scope Z_scope.

(** ** Installing and removing whole owners *)

Definition delete_all (rs : Records) (ks : list Residence) : Records :=
  foldl (fun rs k => delete k rs) rs ks.

Lemma delete_all_lookup rs ks k :
  delete_all rs ks !! k = if decide (k ∈ ks) then None else rs !! k.
Proof.
  unfold delete_all. revert rs. induction ks as [|k' ks IH]; intros rs; cbn [foldl].
  { by rewrite decide_False by set_solver. }
  rewrite IH. destruct (decide (k ∈ ks)) as [Hin|Hnin].
  - by rewrite decide_True by set_solver.
  - destruct (decide (k = k')) as [->|Hne].
    + rewrite lookup_delete_eq, decide_True by set_solver. done.
    + rewrite lookup_delete_ne, decide_False by set_solver. done.
Qed.

Lemma delete_all_bytes rs ks : records_bytes (delete_all rs ks) <= records_bytes rs.
Proof.
  unfold delete_all. revert rs. induction ks as [|k ks IH]; intros rs; simpl; [lia|].
  etrans; [apply IH|]. rewrite records_bytes_delete. pose proof (entry_bytes_nonneg k.1).
  destruct (rs !! k); lia.
Qed.

Lemma delete_all_keys rs : delete_all rs (btree_keys rs) = ∅.
Proof.
  apply map_eq. intros k. rewrite delete_all_lookup, lookup_empty.
  destruct (decide (k ∈ btree_keys rs)) as [|Hk]; [done|].
  destruct (rs !! k) eqn:E; [|done]. exfalso. apply Hk, elem_of_btree_keys. eauto.
Qed.

Lemma blocks_ok_removes b R o rs ks :
  blocks_ok b R -> R !! o = Some rs ->
  blocks_ok (foldl (fun b k => remove_block b o k) b ks) (<[o := delete_all rs ks]> R).
Proof.
  unfold delete_all. revert b R rs. induction ks as [|k ks IH]; intros b R rs Hb HR; simpl.
  { by rewrite insert_id. }
  rewrite <- (insert_insert_eq R o _ (delete k rs)).
  apply IH; [by apply blocks_ok_remove|apply lookup_insert_eq].
Qed.

Lemma blocks_ok_inserts b R o rs0 (l : list (Residence * InventoryRecord)) :
  blocks_ok b R -> R !! o = Some rs0 -> NoDup l.*1 ->
  (forall u, u ∈ l -> rs0 !! u.1 = None /\ files u.1 u.2 /\ present u.2 = true) ->
  blocks_ok (foldl (fun b r => insert_block b o r) b l.*2) (<[o := foldl insert_update rs0 l]> R).
Proof.
  revert b R rs0. induction l as [|u l IH]; intros b R rs0 Hb HR Hnd Hl; simpl.
  { by rewrite insert_id. }
  apply NoDup_cons in Hnd as [Hnin Hnd]. destruct (Hl u ltac:(left)) as (Hnone & Hf & Hp).
  rewrite <- (insert_insert_eq R o _ (insert_update rs0 u)).
  apply IH; [by apply blocks_ok_insert|apply lookup_insert_eq|done|].
  intros u' Hu'. destruct (Hl u' ltac:(by right)) as (? & ? & ?). split_and!; try done.
  unfold insert_update. rewrite lookup_insert_ne; [done|].
  intros Heq. apply Hnin. rewrite Heq. apply list_elem_of_fmap. eauto.
Qed.

Lemma insert_updates_items (rs : Records) : foldl insert_update ∅ (btree_items rs) = rs.
Proof.
  apply map_eq. intros k. rewrite insert_updates_lookup by apply NoDup_btree_keys.
  pose proof (list_find_btree_items rs k) as Hf.
  destruct (list_find _ _) as [[i u]|]; by rewrite Hf.
Qed.

(** An owner without records is no owner at all for the block table. *)
Lemma blocks_ok_empty_owner b R o :
  blocks_ok b (<[o := ∅]> R) <-> blocks_ok b (delete o R).
Proof.
  assert (Hown : forall k e, owned (<[o := ∅]> R) k e <-> owned (delete o R) k e).
  { intros k e. unfold owned. destruct (decide (e_owner e = o)) as [->|Hne].
    - rewrite lookup_insert_eq, lookup_delete_eq. split; [|naive_solver].
      intros (rs & r & [= <-] & Hr & _). by rewrite lookup_empty in Hr.
    - by rewrite lookup_insert_ne, lookup_delete_ne. }
  unfold blocks_ok. by setoid_rewrite Hown.
Qed.

(** The exact effect of removing an owner's active view. *)
Lemma remove_active_exact v o ov :
  owners v !! o = Some ov -> 0 <= owner_bytes ov <= active_bytes v ->
  active_bytes v <= accounted_bytes v <= u64_max ->
  admitted_one ov <= admitted_owner_views v <= u64_max ->
  fresh_one (expected v) o ov <= fresh_expected_owner_views v <= u64_max ->
  remove_active_owner o v =
    set_bytes (accounted_bytes v - owner_bytes ov) (active_bytes v - owner_bytes ov) (staging_bytes v)
      (set_blocks (foldl (fun b k => remove_block b o k) (blocks v) (btree_keys (ov_records ov)))
        (set_counts (admitted_owner_views v - admitted_one ov)
           (fresh_expected_owner_views v - fresh_one (expected v) o ov)
           (set_owners (delete o (owners v)) v))).
Proof.
  intros Ho Hob Hab Had Hfr. unfold remove_active_owner. rewrite Ho.
  assert (Hkb : u64_add OWNER_ACCOUNTING_BYTES (keys_bytes (ov_records ov)) = owner_bytes ov).
  { rewrite keys_bytes_spec. unfold owner_bytes, OWNER_ACCOUNTING_BYTES in *.
    pose proof (records_bytes_nonneg (ov_records ov)).
    rewrite wrap64_id by (unfold is_u64; lia). apply u64_add_exact; lia. }
  rewrite Hkb. unfold admitted_one, fresh_one in *.
  assert (Hbd : bool_decide (o ∈ expected v) = if decide (o ∈ expected v) then true else false) by done.
  pose proof (fresh_one_range (expected v) o ov). simpl. rewrite Hbd.
  destruct (ov_retired ov), (ov_fresh ov), (decide (o ∈ expected v)); simpl in *;
    (apply view_eq; simpl; rewrite ?u64_sub_exact by lia; reflexivity || lia).
Qed.

Section Install.
Context (limit : Z) (Hlimit : 0 <= limit <= i64_max) (scope : InventoryScope).
Abbreviation inv := (index_inv limit scope).

(** Dropping the active view of an owner, if it has one. *)
Definition without_owner (o : Uuid) (v : View) : View :=
  match owners v !! o with
  | None => v
  | Some ov =>
      set_bytes (accounted_bytes v - owner_bytes ov) (active_bytes v - owner_bytes ov) (staging_bytes v)
      (set_blocks (foldl (fun b k => remove_block b o k) (blocks v) (btree_keys (ov_records ov)))
        (set_counts (admitted_owner_views v - admitted_one ov)
           (fresh_expected_owner_views v - fresh_one (expected v) o ov)
           (set_owners (delete o (owners v)) v)))
  end.

Lemma without_owner_inv v o : inv v -> inv (without_owner o v).
Proof.
  intros Hi. unfold without_owner. destruct (owners v !! o) as [ov|] eqn:Ho; [|done].
  pose proof (owner_le_active Hi o ov Ho). pose proof (owner_bytes_pos ov).
  unfold OWNER_ACCOUNTING_BYTES in *. destruct_inv Hi. constructor; simpl; try done; try lia.
  - rewrite inv_active0, (map_sum_delete _ _ o ov) by done. lia.
  - rewrite inv_admitted0, (admitted_count_delete _ _ ov) by done. lia.
  - rewrite inv_fresh0, (fresh_count_delete _ _ _ ov) by done. lia.
  - intros o' ov' [_ Ho']%lookup_delete_Some. eauto.
  - rewrite fmap_delete. apply blocks_ok_empty_owner. rewrite <- (delete_all_keys (ov_records ov)).
    apply blocks_ok_removes; [done|]. by rewrite lookup_fmap, Ho.
Qed.

(** The active view that a staged snapshot becomes. *)
Definition installed (s : StagingView) (thr now mono : Z) : OwnerView :=
  mkOwnerView (sv_view_id s) thr mono (sv_records s) true now false.

(** The view after a commit. *)
Definition committed (o : Uuid) (s : StagingView) (thr now mono : Z) (v : View) : View :=
  let w := without_owner o v in
  bump (set_counts (admitted_owner_views w + 1) (fresh_expected_owner_views w + 1)
    (set_owners (<[o := installed s thr now mono]> (owners w))
      (set_blocks (foldl (fun b r => insert_block b o r) (blocks w) (btree_values (sv_records s)))
        (set_bytes (accounted_bytes w) (active_bytes w + sv_bytes s) (staging_bytes w - sv_bytes s)
          (set_staging (delete o (staging w)) w))))).

Lemma commit_snapshot_cases admitted now mono v o session snapshot view_id thr pages :
  inv v ->
  let res := commit_snapshot admitted now mono o session snapshot view_id thr pages v in
  (exists e, res = (v, Err e)) \/ (exists e, res = (drop_staging o v, Err e)) \/
  (exists s, staging v !! o = Some s /\ sv_session s = session /\ sv_snapshot s = snapshot /\
     sv_view_id s = view_id /\ sv_replay s = thr /\ sv_next_page s = pages /\
     sv_start s <= thr /\ sv_max_sequence s <= thr /\ o ∈ expected v /\ admitted = true /\
     res = (committed o s thr now mono v, Ok view_id)).
Proof.
  intros Hi. unfold commit_snapshot. cbv zeta.
  destruct (staging v !! o) as [s|] eqn:Ho; [|eauto].
  destruct (_ || _) eqn:Ec; [eauto|].
  repeat (apply orb_false_iff in Ec as [Ec ?]).
  repeat match goal with H : negb _ = false |- _ => apply negb_false_iff, Z.eqb_eq in H end.
  destruct (negb (bool_decide (o ∈ expected v)) || negb admitted) eqn:Ea.
  { right; left. simpl. rewrite Ea. eexists. unfold drop_staging. rewrite Ho. done. }
  simpl. rewrite Ea. apply orb_false_iff in Ea as [Ee Ea]. apply negb_false_iff in Ee, Ea.
  rewrite bool_decide_eq_true in Ee. right; right. exists s.
  do 10 (split; [done || lia|]).
  pose proof (staged_le_staging Hi o s Ho). pose proof (staged_bytes_pos Hi o s Ho).
  pose proof (active_nonneg Hi). pose proof (staging_nonneg Hi). pose proof (inv_accounted _ _ _ Hi).
  pose proof (inv_limit _ _ _ Hi). destruct (counts_bounded Hi) as [Hc Hc'].
  unfold OWNER_ACCOUNTING_BYTES, committed, without_owner in *.
  assert (limit <= u64_max) by (unfold i64_max, u64_max in *; lia).
  destruct (owners v !! o) as [ov|] eqn:Hov.
  - pose proof (owner_le_active Hi o ov Hov). pose proof (owner_bytes_pos ov).
    unfold OWNER_ACCOUNTING_BYTES in *. pose proof (admitted_one_range ov).
    pose proof (fresh_one_range (expected v) o ov).
    pose proof (admitted_count_ge _ _ _ Hov). pose proof (fresh_count_ge _ (expected v) _ _ Hov).
    rewrite <- (inv_admitted _ _ _ Hi), <- (inv_fresh _ _ _ Hi) in *.
    rewrite (remove_active_exact _ o ov) by (simpl; done || lia). simpl.
    rewrite bool_decide_true by done. f_equal.
    apply view_eq; simpl; rewrite ?u64_sub_exact, ?u64_add_exact by lia; reflexivity || lia.
  - unfold remove_active_owner. simpl. rewrite Hov. simpl. rewrite bool_decide_true by done.
    f_equal. apply view_eq; simpl; rewrite ?u64_sub_exact, ?u64_add_exact by lia; reflexivity || lia.
Qed.

Lemma without_owner_frame v o :
  staging (without_owner o v) = staging v /\ expected (without_owner o v) = expected v /\
  owners (without_owner o v) = delete o (owners v) /\
  membership_revision (without_owner o v) = membership_revision v.
Proof.
  unfold without_owner. destruct (owners v !! o) as [ov|] eqn:Ho; [done|]. by rewrite delete_id.
Qed.

Lemma committed_inv v o s now mono :
  inv v -> staging v !! o = Some s -> sv_max_sequence s <= sv_replay s -> o ∈ expected v ->
  inv (committed o s (sv_replay s) now mono v).
Proof.
  intros Hi0 Ho Hmax Hexp. pose proof (without_owner_inv v o Hi0) as Hi.
  destruct (without_owner_frame v o) as (Hs & He & How & _).
  unfold committed. set (w := without_owner o v) in *. clearbody w.
  rewrite <- Hs in Ho. rewrite <- He in Hexp. apply bump_inv.
  assert (Hnone : owners w !! o = None) by (rewrite How; apply lookup_delete_eq).
  pose proof (inv_staged_records _ _ _ Hi o s Ho) as Hok.
  pose proof (inv_staged_bytes _ _ _ Hi o s Ho) as Hsb.
  destruct_inv Hi. constructor; simpl; try done; try lia.
  - rewrite inv_active0, map_sum_insert by done. unfold owner_bytes. simpl. lia.
  - rewrite inv_staging0, (map_sum_delete _ _ o s) by done. lia.
  - intros o' s' [_ Ho']%lookup_delete_Some. eauto.
  - rewrite inv_admitted0, admitted_count_insert, Hnone. unfold admitted_one. simpl. lia.
  - rewrite inv_fresh0, fresh_count_insert, Hnone. unfold fresh_one. simpl.
    rewrite decide_True by done. lia.
  - intros o' ov' Ho'. apply lookup_insert_Some in Ho' as [[<- <-]|[_ Ho']]; [|eauto]. simpl.
    intros k r Hr. destruct (Hok k r Hr) as (? & ? & ?). split_and!; [done..|lia].
  - intros o' s' [_ Ho']%lookup_delete_Some. eauto.
  - intros o' s' [_ Ho']%lookup_delete_Some. eauto.
  - rewrite fmap_insert. simpl. unfold btree_values.
    rewrite <- (insert_updates_items (sv_records s)) at 2.
    rewrite <- (insert_insert_eq _ o _ ∅).
    apply blocks_ok_inserts; [|apply lookup_insert_eq|apply NoDup_btree_keys|].
    + apply blocks_ok_empty_owner. rewrite delete_id; [done|]. by rewrite lookup_fmap, Hnone.
    + intros [k r] Hu%elem_of_btree_items. simpl. rewrite lookup_empty.
      destruct (Hok k r Hu) as ((Hf & _) & Hp & _). done.
Qed.

Lemma commit_snapshot_inv admitted now mono v o session snapshot view_id thr pages :
  inv v -> inv (commit_snapshot admitted now mono o session snapshot view_id thr pages v).1.
Proof.
  intros Hi.
  destruct (commit_snapshot_cases admitted now mono v o session snapshot view_id thr pages Hi)
    as [[e ->]|[[e ->]|(s & Ho & _ & _ & _ & <- & _ & _ & Hmax & Hexp & _ & ->)]]; simpl.
  - done.
  - by apply drop_staging_inv.
  - by apply committed_inv.
Qed.

(** The cleanup loop removes blocks, records and their exact bytes. *)
Lemma cleanup_fold o b rs ks :
  NoDup ks -> (forall k, k ∈ ks -> is_Some (rs !! k)) ->
  forall removed, 0 <= removed -> removed + records_bytes rs <= u64_max ->
  foldl (cleanup_step o) (b, rs, removed) ks =
    (foldl (fun b k => remove_block b o k) b ks, delete_all rs ks,
     removed + (records_bytes rs - records_bytes (delete_all rs ks))).
Proof.
  unfold delete_all. revert b rs. induction ks as [|k ks IH]; intros b rs Hnd Hin removed Hr Hb; cbn [foldl].
  { f_equal. lia. }
  apply NoDup_cons in Hnd as [Hnin Hnd]. unfold cleanup_step at 2. simpl.
  destruct (Hin k ltac:(left)) as [r Hk]. rewrite Hk.
  pose proof (records_bytes_delete rs k) as Hd. rewrite Hk in Hd.
  pose proof (entry_bytes_nonneg k.1). pose proof (records_bytes_nonneg (delete k rs)).
  rewrite u64_add_exact by lia. rewrite IH; [f_equal; lia|done| |lia|lia].
  intros k' Hk'. rewrite lookup_delete_ne; [apply Hin; by right|congruence].
Qed.

(** A retired owner after one round of cleanup. *)
Definition cleaned (o : Uuid) (ov : OwnerView) (ks : list Residence) (v : View) : View :=
  let rs := delete_all (ov_records ov) ks in
  let freed := records_bytes (ov_records ov) - records_bytes rs in
  set_bytes (accounted_bytes v - freed) (active_bytes v - freed) (staging_bytes v)
    (set_owners (<[o := mkOwnerView (ov_view_id ov) (ov_applied ov) (ov_mono_ns ov) rs (ov_fresh ov)
                         (ov_received_at ov) (ov_retired ov)]> (owners v))
      (set_blocks (foldl (fun b k => remove_block b o k) (blocks v) ks) v)).

Lemma cleaned_inv v o ov ks : inv v -> owners v !! o = Some ov -> inv (cleaned o ov ks v).
Proof.
  intros Hi Ho. pose proof (inv_owner_records _ _ _ Hi o ov Ho) as Hok.
  pose proof (delete_all_bytes (ov_records ov) ks).
  unfold cleaned. destruct_inv Hi. constructor; simpl; try done; try lia.
  - rewrite inv_active0, (map_sum_update _ _ _ ov) by done. unfold owner_bytes. simpl. lia.
  - rewrite inv_admitted0, admitted_count_insert, Ho. unfold admitted_one. simpl. lia.
  - rewrite inv_fresh0, fresh_count_insert, Ho. unfold fresh_one. simpl. lia.
  - intros o' ov' Ho'. apply lookup_insert_Some in Ho' as [[<- <-]|[_ Ho']]; [|eauto]. simpl.
    intros k r. rewrite delete_all_lookup. destruct (decide _); [done|]. apply Hok.
  - rewrite fmap_insert. simpl. apply blocks_ok_removes; [done|]. by rewrite lookup_fmap, Ho.
Qed.

Lemma cleanup_owner_inv v o n : inv v -> inv (cleanup_owner o n v).1.
Proof.
  intros Hi. unfold cleanup_owner. destruct (owners v !! o) as [ov|] eqn:Ho; [|done].
  destruct (ov_retired ov) eqn:Er; [|done].
  set (ks := take (Z.to_nat (Z.max n 1)) (btree_keys (ov_records ov))).
  pose proof (owner_le_active Hi o ov Ho) as Hob. pose proof (active_nonneg Hi). pose proof (staging_nonneg Hi).
  pose proof (inv_accounted _ _ _ Hi). pose proof (inv_limit _ _ _ Hi).
  pose proof (records_bytes_nonneg (ov_records ov)). pose proof (records_bytes_nonneg (delete_all (ov_records ov) ks)).
  assert (limit <= u64_max) by (unfold i64_max, u64_max in *; lia).
  unfold owner_bytes, OWNER_ACCOUNTING_BYTES in *.
  rewrite cleanup_fold; [|..]; cycle 1.
  { eapply sublist_NoDup; [apply (NoDup_btree_keys (ov_records ov))|apply sublist_take]. }
  { intros k Hk. apply elem_of_btree_keys. eapply elem_of_subseteq; [|exact Hk].
    apply sublist_subseteq, sublist_take. }
  { lia. }
  { lia. }
  pose proof (cleaned_inv v o ov ks Hi Ho) as Hc. pose proof (delete_all_bytes (ov_records ov) ks).
  destruct (decide (delete_all (ov_records ov) ks = ∅)) as [He|He].
  - simpl. pose proof (without_owner_inv _ o Hc) as Hw.
    eapply eq_ind; [exact Hw|]. unfold without_owner, cleaned. simpl.
    rewrite lookup_insert_eq. unfold owner_bytes, OWNER_ACCOUNTING_BYTES, admitted_one, fresh_one. simpl.
    rewrite He, Er. change (records_bytes ∅) with 0. change (btree_keys ∅) with (@nil Residence).
    apply view_eq; simpl; try reflexivity; rewrite ?delete_insert_eq,
      ?(u64_sub_exact (accounted_bytes v)), ?(u64_sub_exact (active_bytes v)) by lia;
      rewrite ?u64_sub_exact by lia; try reflexivity; try lia.
    destruct (decide (o ∈ expected v)); lia.
  - simpl. eapply eq_ind; [exact Hc|]. unfold cleaned.
    apply view_eq; simpl; try reflexivity; rewrite ?u64_sub_exact by lia; lia || by rewrite Er.
Qed.
End Install.

(** ** The index as a state machine *)

(** Every public operation that writes the view, with the arguments its callers choose. *)
Inductive index_step (limit : Z) (scope : InventoryScope) : View -> View -> Prop :=
| step_reset v : index_step limit scope v reset
| step_expected local revision os v :
    index_step limit scope v (set_expected_owners local revision os v)
| step_syncing o v : index_step limit scope v (mark_syncing o v)
| step_stale o v : index_step limit scope v (mark_stale o v)
| step_confirm o view_id applied now v :
    index_step limit scope v (confirm_progress o view_id applied now v).1
| step_begin o session snapshot view_id start v : 0 <= start ->
    index_step limit scope v (begin_snapshot limit o session snapshot view_id start v).1
| step_page o session snapshot n records v : batch_fits records ->
    index_step limit scope v (apply_snapshot_page limit scope o session snapshot n records v).1
| step_snapshot_delta o session from thr records v : batch_fits records ->
    index_step limit scope v (apply_snapshot_delta limit scope o session from thr records v).1
| step_commit admitted now mono o session snapshot view_id thr pages v :
    index_step limit scope v
      (commit_snapshot admitted now mono o session snapshot view_id thr pages v).1
| step_abort o session v : index_step limit scope v (abort_snapshot o session v)
| step_delta now mono o view_id from thr records v : batch_fits records ->
    index_step limit scope v (apply_delta limit scope now mono o view_id from thr records v).1
| step_retire o v : index_step limit scope v (retire_owner o v)
| step_cleanup o n v : index_step limit scope v (cleanup_owner o n v).1.

Inductive reachable (limit : Z) (scope : InventoryScope) : View -> Prop :=
| reach_new : reachable limit scope empty_view
| reach_step v v' : reachable limit scope v -> index_step limit scope v v' -> reachable limit scope v'.

Create HintDb index.
#[export] Hint Resolve empty_inv bump_inv make_stale_inv set_expected_owners_inv confirm_progress_inv
  begin_snapshot_inv apply_snapshot_page_inv apply_snapshot_delta_inv commit_snapshot_inv
  abort_snapshot_inv apply_delta_inv retire_owner_inv cleanup_owner_inv drop_staging_inv : index.

Lemma step_inv limit scope v v' :
  0 <= limit <= i64_max -> index_step limit scope v v' -> index_inv limit scope v -> index_inv limit scope v'.
Proof. intros Hl Hs Hi. destruct Hs; unfold mark_stale, mark_syncing, reset; auto with index. Qed.

Lemma reachable_inv limit scope v :
  0 <= limit <= i64_max -> reachable limit scope v -> index_inv limit scope v.
Proof. intros Hl. induction 1; eauto using step_inv with index. Qed.

(** C20. Whatever the members send and in whatever order, the index's bookkeeping is exact: the
    accounted bytes are the bytes of the installed and of the staged records, they never exceed
    the configured budget, and the two coverage counters are the numbers of admitted and of fresh
    expected owners. *)
Theorem index_accounting_exact limit scope v :
  0 <= limit <= i64_max -> reachable limit scope v ->
  accounted_bytes v =
    map_sum (fun _ ov => 256 + map_sum (fun k _ => entry_bytes k.1) (ov_records ov)) (owners v) +
    map_sum (fun _ s => 256 + map_sum (fun k _ => entry_bytes k.1) (sv_records s)) (staging v) /\
  accounted_bytes v <= limit /\
  admitted_owner_views v = admitted_count (owners v) /\
  fresh_expected_owner_views v = fresh_count (owners v) (expected v).
Proof.
  intros Hl Hr. apply reachable_inv in Hr; [|done]. pose proof (inv_staged_bytes _ _ _ Hr) as Hsb.
  destruct_inv Hr. split_and!; try done. rewrite inv_accounted0, inv_active0, inv_staging0.
  f_equal. apply map_sum_ext. intros o s Ho. by rewrite (Hsb o s Ho).
Qed.

(** Whatever the members send and in whatever order, the block table that lookups read lists
    each replica exactly once and exactly when its owner's installed records hold it, with that
    record's sequence and metadata. *)
Theorem index_blocks_exact limit scope v :
  0 <= limit <= i64_max -> reachable limit scope v ->
  forall k, NoDup (entry_id <$> entries (blocks v) k) /\
    forall e, e ∈ entries (blocks v) k <->
      exists ov r, owners v !! e_owner e = Some ov /\
        ov_records ov !! (k, medium (e_metadata e)) = Some r /\
        sequence r = e_sequence e /\ metadata r = Some (e_metadata e).
Proof.
  intros Hl Hr k. apply reachable_inv in Hr; [|done].
  destruct (proj2 (inv_blocks _ _ _ Hr) k) as [Hnd Hin]. split; [done|]. intros e. rewrite Hin.
  unfold owned. setoid_rewrite lookup_fmap. split.
  - intros (rs & r & HR & Hk & Hs & Hm). apply fmap_Some in HR as (ov & Ho & ->). eauto 6.
  - intros (ov & r & Ho & Hk & Hs & Hm). exists (ov_records ov), r. by rewrite Ho.
Qed.

(** ** Lookups *)

(** The replica an entry stands for, if its owner is a current peer with a live view. *)
Definition replica_of (m : MembershipView) (now : Z) (v : View) (e : Entry) : option ReplicaLocation :=
  match resolve m now (e_owner e) with
  | Some o =>
      if negb (incarnation o =? incarnation (own m))
         && match owners v !! e_owner e with Some ov => negb (ov_retired ov) | None => false end
      then Some (mkLocation o (e_sequence e) (e_metadata e)) else None
  | None => None
  end.

(** The loop is the first four replicas of the medium. *)
Lemma collect_replicas_take m now v md pushed es :
  0 <= pushed < 4 ->
  collect_replicas m now v md pushed es =
    take (Z.to_nat (4 - pushed)) (omap (replica_of m now v) (filter (fun e => medium (e_metadata e) = md) es)).
Proof.
  revert pushed. induction es as [|e es IH]; intros pushed Hp;
    [by destruct (Z.to_nat (4 - pushed))|].
  cbn [collect_replicas]. rewrite filter_cons.
  destruct (decide (medium (e_metadata e) = md)); [|by apply IH].
  unfold DISCOVERY_MAX_REPLICAS_PER_MEDIUM.
  set (found := match resolve m now (e_owner e) with Some _ => _ | None => _ end).
  assert (Hf : found = match replica_of m now v e with Some l => [l] | None => [] end).
  { unfold found, replica_of. by repeat case_match. }
  rewrite Hf. cbn [omap list_omap]. destruct (replica_of m now v e) as [l|].
  - change (zlen [l]) with 1. destruct (Z.eqb_spec (pushed + 1) 4).
    + replace (Z.to_nat (4 - pushed)) with 1%nat by lia. by rewrite firstn_cons, take_0.
    + rewrite IH by lia. replace (Z.to_nat (4 - pushed)) with (S (Z.to_nat (4 - (pushed + 1)))) by lia. done.
  - change (zlen []) with 0. rewrite Z.add_0_r. rewrite (proj2 (Z.eqb_neq _ _)) by lia.
    by apply IH.
Qed.

(** The owners a lookup may name: members other than this runtime, with a live installed view that
    holds the key at the medium. *)
Definition holder (m : MembershipView) (now : Z) (v : View) (k : StateKey) (loc : ReplicaLocation) : Prop :=
  exists inc ov r, resolve m now inc = Some (loc_owner loc) /\
    incarnation (loc_owner loc) <> incarnation (own m) /\
    owners v !! inc = Some ov /\ ov_retired ov = false /\
    ov_records ov !! (k, medium (loc_metadata loc)) = Some r /\
    sequence r = loc_sequence loc /\ metadata r = Some (loc_metadata loc).

Lemma replica_of_holder limit scope m now v k e loc :
  index_inv limit scope v -> e ∈ entries (blocks v) k -> replica_of m now v e = Some loc ->
  holder m now v k loc /\ loc_metadata loc = e_metadata e.
Proof.
  intros Hi He Hr. apply (proj2 (inv_blocks _ _ _ Hi) k) in He.
  destruct He as (rs & r & HR & Hk & Hs & Hm).
  rewrite lookup_fmap in HR. apply fmap_Some in HR as (ov & Ho & ->).
  unfold replica_of in Hr. destruct (resolve m now (e_owner e)) as [o|] eqn:Eo; [|done].
  destruct (_ && _) eqn:Ec; [|done]. apply andb_true_iff in Ec as [Ec1 Ec2]. injection Hr as <-.
  rewrite Ho in Ec2. apply negb_true_iff in Ec1, Ec2. apply Z.eqb_neq in Ec1.
  split; [|done]. exists (e_owner e), ov, r. done.
Qed.

Lemma holder_replica limit scope m now v k loc :
  index_inv limit scope v -> holder m now v k loc ->
  exists e, e ∈ entries (blocks v) k /\ replica_of m now v e = Some loc /\ e_metadata e = loc_metadata loc.
Proof.
  intros Hi (inc & ov & r & Hres & Hne & Ho & Hret & Hk & Hs & Hm).
  exists (mkEntry inc (loc_sequence loc) (loc_metadata loc)). split_and!; [| |done].
  - apply (proj2 (inv_blocks _ _ _ Hi) k). exists (ov_records ov), r. simpl.
    rewrite lookup_fmap, Ho. done.
  - unfold replica_of. simpl. rewrite Hres, Ho, Hret. simpl.
    rewrite (proj2 (Z.eqb_neq _ _)) by done. simpl. by destruct loc.
Qed.

(** The replicas of one medium. *)
Definition of_medium (md : ReplicaMedium) (ls : list ReplicaLocation) : list ReplicaLocation :=
  filter (fun l => medium (loc_metadata l) = md) ls.

Lemma replica_of_metadata m now v e l : replica_of m now v e = Some l -> loc_metadata l = e_metadata e.
Proof. unfold replica_of. repeat case_match; naive_solver. Qed.

Lemma collect_medium m now v md md' es :
  of_medium md (collect_replicas m now v md' 0 es) =
    if decide (md' = md) then collect_replicas m now v md' 0 es else [].
Proof.
  assert (Hall : Forall (fun l => medium (loc_metadata l) = md') (collect_replicas m now v md' 0 es)).
  { rewrite collect_replicas_take by lia. apply Forall_take, Forall_forall.
    intros l (e & He & Hl)%list_elem_of_omap. apply list_elem_of_filter in He as [<- _].
    by rewrite (replica_of_metadata _ _ _ _ _ Hl). }
  unfold of_medium. destruct (decide (md' = md)) as [<-|Hne].
  - induction Hall as [|l ls Hl Hls IH]; [done|]. by rewrite filter_cons, decide_True, IH.
  - induction Hall as [|l ls Hl Hls IH]; [done|]. rewrite filter_cons, decide_False by congruence. done.
Qed.

Lemma lookup_key_replicas m now scope v k :
  contains scope (namespace k) = true -> coverage v (permits m now (own m)) <> Unavailable ->
  cand_replicas (lookup_key m now scope v k) =
    collect_replicas m now v Dram 0 (entries (blocks v) k) ++
    collect_replicas m now v Ssd 0 (entries (blocks v) k).
Proof.
  intros Hc Hcov. unfold lookup_key, entries. rewrite Hc. simpl. rewrite decide_False by done.
  by destruct (blocks v !! k).
Qed.

(** C21. A lookup is sound and complete up to its bound: for a key in scope, when discovery is
    available, it returns for each tier at most four replicas; each is held, with that sequence
    and metadata, by an installed live view of a current member other than this runtime; and a
    tier with fewer than four returned replicas misses no holder. *)
Theorem lookup_exact limit scope v m now k md :
  0 <= limit <= i64_max -> reachable limit scope v -> contains scope (namespace k) = true ->
  coverage v (permits m now (own m)) <> Unavailable -> advertised md = true ->
  let found := of_medium md (cand_replicas (lookup_key m now scope v k)) in
  zlen found <= 4 /\
  (forall loc, loc ∈ found -> holder m now v k loc /\ medium (loc_metadata loc) = md) /\
  (zlen found < 4 -> forall loc, holder m now v k loc -> medium (loc_metadata loc) = md -> loc ∈ found).
Proof.
  intros Hl Hr Hc Hcov Hmd. apply reachable_inv in Hr as Hi; [|done]. cbv zeta.
  rewrite lookup_key_replicas by done.
  assert (Hfound : of_medium md (collect_replicas m now v Dram 0 (entries (blocks v) k) ++
    collect_replicas m now v Ssd 0 (entries (blocks v) k)) =
    collect_replicas m now v md 0 (entries (blocks v) k)).
  { unfold of_medium. rewrite filter_app. fold (of_medium md). 
    change (filter (fun l => medium (loc_metadata l) = md)) with (of_medium md).
    rewrite !collect_medium. destruct md; try done. by rewrite app_nil_r. }
  rewrite Hfound. rewrite collect_replicas_take by lia. change (Z.to_nat (4 - 0)) with 4%nat.
  set (all := omap _ _).
  assert (Hall : forall loc, loc ∈ all <-> holder m now v k loc /\ medium (loc_metadata loc) = md).
  { intros loc. unfold all. rewrite list_elem_of_omap. split.
    - intros (e & [Hm He]%list_elem_of_filter & Hl'). destruct (replica_of_holder _ _ _ _ _ _ _ _ Hi He Hl') as [Hh Heq].
      split; [done|]. by rewrite Heq.
    - intros [Hh Hm]. destruct (holder_replica _ _ _ _ _ _ _ Hi Hh) as (e & He & Hl' & Heq).
      exists e. split; [|done]. apply list_elem_of_filter. by rewrite Heq. }
  unfold zlen. rewrite length_take. split_and!; [lia| |].
  - intros loc Hloc. apply Hall. by apply (subseteq_take 4 all).
  - intros Hlt loc Hh Hm. rewrite take_ge by lia. by apply Hall.
Qed.

(** [CompleteAtWatermarks] means what it says: it is reported exactly when this runtime is a
    permitted member, a membership revision is known, and every expected owner has an installed,
    live and fresh view. *)
Theorem coverage_complete_iff limit scope v registered :
  0 <= limit <= i64_max -> reachable limit scope v ->
  coverage v registered = CompleteAtWatermarks <->
  registered = true /\ is_Some (membership_revision v) /\
  forall o, o ∈ expected v -> exists ov, owners v !! o = Some ov /\ ov_retired ov = false /\ ov_fresh ov = true.
Proof.
  intros Hl Hr. apply reachable_inv in Hr as Hi; [|done].
  assert (Hcount : fresh_expected_owner_views v = Z.of_nat (size (expected v)) <->
    forall o, o ∈ expected v -> exists ov, owners v !! o = Some ov /\ ov_retired ov = false /\ ov_fresh ov = true).
  { rewrite (inv_fresh _ _ _ Hi). unfold fresh_count.
    assert (Hfresh : forall o, is_fresh (owners v) o = true <->
      exists ov, owners v !! o = Some ov /\ ov_retired ov = false /\ ov_fresh ov = true).
    { intros o. unfold is_fresh. destruct (owners v !! o) as [ov|]; [|naive_solver].
      rewrite andb_true_iff, negb_true_iff. naive_solver. }
    split.
    - intros Heq o Ho. apply Hfresh.
      assert (Hset : filter (fun o => is_fresh (owners v) o = true) (expected v) = expected v).
      { apply set_subseteq_size_eq; [set_solver|lia]. }
      rewrite <- Hset in Ho. by apply elem_of_filter in Ho as [].
    - intros Hall. f_equal. f_equal. apply set_eq. intros o. rewrite elem_of_filter, Hfresh. naive_solver. }
  rewrite <- Hcount. unfold coverage.
  destruct registered, (membership_revision v) as [r|]; simpl;
    try (split; [done|]; intros (? & ? & ?); by destruct_and?; naive_solver).
  destruct (Z.eqb_spec (fresh_expected_owner_views v) (Z.of_nat (size (expected v)))) as [Heq|Hne].
  - split; [intros _; by eauto|done].
  - split; [|by intros (_ & _ & ?)]. by destruct (0 <? admitted_owner_views v).
Qed.

(** ** A concrete index *)

(** Member 2 streams a snapshot of one block to member 1. *)
Definition sample_page : list InventoryRecord := [sample_record (str "a") 1].
Definition index_begun : View :=
  (begin_snapshot 4096 2 7 8 9 3 (set_expected_owners 1 5 [1; 2] empty_view)).1.
Definition index_staged : View :=
  (apply_snapshot_page 4096 AllNamespaces 2 7 8 0 sample_page index_begun).1.
Definition sample_index : View := (commit_snapshot true 0 0 2 7 8 9 3 1 index_staged).1.

Lemma sample_batch_fits : batch_fits sample_page.
Proof. vm_compute. discriminate. Qed.

Lemma sample_index_reachable : reachable 4096 AllNamespaces sample_index.
Proof.
  eapply reach_step; [|apply step_commit]. eapply reach_step; [|apply step_page, sample_batch_fits].
  eapply reach_step; [|apply step_begin; lia]. eapply reach_step; [apply reach_new|apply step_expected].
Qed.

Lemma sample_limit : 0 <= 4096 <= i64_max.
Proof. unfold i64_max. lia. Qed.

Lemma index_accounting_exact_witness :
  accounted_bytes sample_index =
    map_sum (fun _ ov => 256 + map_sum (fun k _ => entry_bytes k.1) (ov_records ov)) (owners sample_index) +
    map_sum (fun _ s => 256 + map_sum (fun k _ => entry_bytes k.1) (sv_records s)) (staging sample_index) /\
  accounted_bytes sample_index <= 4096 /\
  admitted_owner_views sample_index = admitted_count (owners sample_index) /\
  fresh_expected_owner_views sample_index = fresh_count (owners sample_index) (expected sample_index).
Proof.
  apply (index_accounting_exact 4096 AllNamespaces); [exact sample_limit|exact sample_index_reachable].
Defined.

Definition sample_view_of_members : MembershipView :=
  mkMembershipView (mkOwner (str "x") 1)
    (mkMembership (<[1 := mkOwner (str "x") 1]> (<[2 := mkOwner (str "y") 2]> ∅)) true (Some 100) false).
Definition sample_lookup_key : StateKey := mkStateKey (str "a") (str "h").

Lemma index_blocks_exact_witness :
  NoDup (entry_id <$> entries (blocks sample_index) sample_lookup_key) /\
    forall e, e ∈ entries (blocks sample_index) sample_lookup_key <->
      exists ov r, owners sample_index !! e_owner e = Some ov /\
        ov_records ov !! (sample_lookup_key, medium (e_metadata e)) = Some r /\
        sequence r = e_sequence e /\ metadata r = Some (e_metadata e).
Proof.
  apply (index_blocks_exact 4096 AllNamespaces); [exact sample_limit|exact sample_index_reachable].
Defined.

Lemma lookup_exact_witness :
  let found := of_medium Dram (cand_replicas
    (lookup_key sample_view_of_members 10 AllNamespaces sample_index sample_lookup_key)) in
  zlen found <= 4 /\
  (forall loc, loc ∈ found ->
     holder sample_view_of_members 10 sample_index sample_lookup_key loc /\ medium (loc_metadata loc) = Dram) /\
  (zlen found < 4 -> forall loc, holder sample_view_of_members 10 sample_index sample_lookup_key loc ->
     medium (loc_metadata loc) = Dram -> loc ∈ found).
Proof.
  apply (lookup_exact 4096 AllNamespaces);
    [exact sample_limit|exact sample_index_reachable|reflexivity|vm_compute; discriminate|reflexivity].
Defined.

Lemma sample_lookup_result :
  cand_replicas (lookup_key sample_view_of_members 10 AllNamespaces sample_index sample_lookup_key) =
    [mkLocation (mkOwner (str "y") 2) 1 sample_md].
Proof. vm_compute. reflexivity. Qed.

Lemma coverage_complete_iff_witness :
  coverage sample_index true = CompleteAtWatermarks <->
  true = true /\ is_Some (membership_revision sample_index) /\
  forall o, o ∈ expected sample_index ->
    exists ov, owners sample_index !! o = Some ov /\ ov_retired ov = false /\ ov_fresh ov = true.
Proof.
  apply (coverage_complete_iff 4096 AllNamespaces); [exact sample_limit|exact sample_index_reachable].
Defined.
