(* ===== verification/Replication.v ===== *)
(** * Inventory replication

    [orbitkv-server/src/cluster/inventory.rs]: the source side of an inventory session (the
    snapshot, its journal replay and the live deltas) and the receiver side, which feeds the global
    index.  The main result is end to end: whatever a receiver installs for an owner is exactly
    that owner's residents in scope at the installed watermark. *)
From S2P Require Import Prelude Containers Slices State Membership Inventory Index IndexInv IndexDelta IndexInstall.

Local Open Scope Z_scope.
Local Open Scope rust_scope.

Definition FRAME_BYTES : Z := 512 * 1024.
Definition MESSAGE_BYTES : Z := 1024 * 1024.

(** ** Frames *)

(** The body of an [InventoryServerFrame]. *)
Inductive FrameBody :=
| SnapshotBegin (snapshot_id view_id : Uuid) (start_sequence : Z)
| SnapshotPage (snapshot_id : Uuid) (page_number : Z) (records : list InventoryRecord)
| FrameDelta (from_exclusive through_inclusive : Z) (records : list InventoryRecord)
| SnapshotCommit (snapshot_id view_id : Uuid) (through_sequence : Z) (transcript_digest : bytes)
    (page_count : Z)
| Progress (through_sequence source_head_sequence : Z)
| ResetRequired.

Record ServerFrame := mkFrame { frame_id : Z; frame_session : Uuid; body : FrameBody }.

Section Replication.
(** The layout of a record, the protobuf encoding and SHA-256 are external: [encode_frame] is
    [InventoryServerFrame::encode_to_vec], whose length is the frame's [encoded_len], and
    [body_len] is the [encoded_len] of the message inside the frame. *)
Context (size_of_record : Z) (encode_frame : ServerFrame -> bytes) (body_len : FrameBody -> Z)
  (sha256 : bytes -> bytes).

(** ** The source *)

(** [bounded_delta]: halve the interval until the encoded delta fits a frame.  [None] would be a
    loop that outlives its fuel; [bounded_delta_spec] shows that there is none. *)
Fixpoint bounded_delta (fuel : nat) (inv : Inventory) (after limit : Z) (scope : InventoryScope)
    (el : Z) : option (Inventory * result InventoryDelta InventoryReadError) :=
  match fuel with
  | O => None
  | S fuel' =>
      match coalesced_changes_scoped size_of_record inv after limit scope el with
      | (inv, Err RecordTooLarge) =>
          if u64_add after 1 <? limit
          then bounded_delta fuel' inv after (u64_add after (u64_sub limit after / 2)) scope el
          else Some (inv, Err RecordTooLarge)
      | (inv, Err e) => Some (inv, Err e)
      | (inv, Ok d) =>
          if body_len (FrameDelta after (through d) (delta_records d)) <=? FRAME_BYTES
          then Some (inv, Ok d)
          else if input_records d <=? 1 then Some (inv, Err RecordTooLarge)
          else bounded_delta fuel' inv after
                 (u64_add after (u64_sub (through d) after / 2)) scope el
      end
  end.

Definition delta_fuel (after limit : Z) : nat := S (Z.to_nat (limit - after)).

(** [FrameSender::frame]: the next identifier and the frame. *)
Definition frame (session : Uuid) (next : Z) (b : FrameBody) : Z * result ServerFrame string :=
  match checked_add next 1 with
  | None => (next, Err "inventory frame ID exhausted"%string)
  | Some n =>
      let f := mkFrame next session b in
      if MESSAGE_BYTES <? zlen (encode_frame f)
      then (n, Err "inventory frame exceeds encoded message limit"%string)
      else (n, Ok f)
  end.

(** Where a source session is: about to honour the client's resume point, inside
    [serve_snapshot], in the live loop, or over. *)
Inductive Phase :=
| POpen (resume : option (Z * Uuid))
| PPages (snapshot_id view_id : Uuid) (start : Z) (cursor : option Residence) (page_number : Z)
    (transcript : bytes)
| PScanned (snapshot_id view_id : Uuid) (start page_number : Z) (transcript : bytes)
| PReplay (snapshot_id view_id : Uuid) (end_ after page_number : Z) (transcript : bytes)
| PLive (after : Z)
| PDone.

(** The inventory, the next frame number and the phase. *)
Record Source := mkSource { src_inv : Inventory; next_frame : Z; phase : Phase }.

(** A frame that is built is sent and the session goes on in [p]; one that cannot be built ends
    the session. *)
Definition emit (session : Uuid) (inv : Inventory) (n : Z) (b : FrameBody) (p : ServerFrame -> Phase)
    : Source * option ServerFrame :=
  match frame session n b with
  | (n, Ok f) => (mkSource inv n (p f), Some f)
  | (n, Err _) => (mkSource inv n PDone, None)
  end.

Definition send_reset (session : Uuid) (inv : Inventory) (n : Z) : Source * option ServerFrame :=
  emit session inv n ResetRequired (fun _ => PDone).

(** [serve_snapshot] up to its first frame, with the identities it draws. *)
Definition snapshot_begin (session sid vid : Uuid) (inv : Inventory) (n : Z)
    : Source * option ServerFrame :=
  let start := inv_sequence inv in
  emit session inv n (SnapshotBegin sid vid start) (fun f => PPages sid vid start None 0 (encode_frame f)).

Definition serve_open (session : Uuid) (scope : InventoryScope) (resume : option (Z * Uuid))
    (sid vid : Uuid) (el : Z) (inv : Inventory) (n : Z) : Source * option ServerFrame :=
  match resume with
  | Some (sequence, _) =>
      if sequence <=? inv_sequence inv then
        match coalesced_changes_scoped size_of_record inv sequence (inv_sequence inv) scope el with
        | (inv, Ok _) => (mkSource inv n (PLive sequence), None)
        | (inv, Err HistoryGap) => send_reset session inv n
        | (inv, Err _) => (mkSource inv n PDone, None)
        end
      else snapshot_begin session sid vid inv n
  | None => snapshot_begin session sid vid inv n
  end.

(** One turn of the page loop. *)
Definition serve_page (session : Uuid) (scope : InventoryScope) (sid vid : Uuid) (start : Z)
    (cursor : option Residence) (i : Z) (tr : bytes) (el : Z) (inv : Inventory) (n : Z)
    : Source * option ServerFrame :=
  let after_page p i tr :=
    if page_complete p then PScanned sid vid start i tr else PPages sid vid start (next p) i tr in
  match scoped_page size_of_record inv cursor scope el with
  | (inv, Err _) => (mkSource inv n PDone, None)
  | (inv, Ok p) =>
      match page_records p with
      | [] => (mkSource inv n (after_page p i tr), None)
      | rs =>
          let b := SnapshotPage sid i rs in
          if FRAME_BYTES <? body_len b then (mkSource inv n PDone, None)
          else emit session inv n b (fun f => after_page p (u64_add i 1) (tr ++ encode_frame f))
      end
  end.

(** The delta of an interval, as the replay and the live loop send it. *)
Definition serve_delta (session : Uuid) (scope : InventoryScope) (after limit el : Z)
    (inv : Inventory) (n : Z) (p : ServerFrame -> Z -> Phase) : Source * option ServerFrame :=
  match bounded_delta (delta_fuel after limit) inv after limit scope el with
  | None => (mkSource inv n PDone, None)
  | Some (inv, Err HistoryGap) => send_reset session inv n
  | Some (inv, Err _) => (mkSource inv n PDone, None)
  | Some (inv, Ok d) =>
      emit session inv n (FrameDelta after (through d) (delta_records d)) (fun f => p f (through d))
  end.

(** One turn of the replay loop, or the commit that follows it. *)
Definition serve_replay (session : Uuid) (scope : InventoryScope) (sid vid : Uuid)
    (end_ after i : Z) (tr : bytes) (el : Z) (inv : Inventory) (n : Z) : Source * option ServerFrame :=
  if after <? end_
  then serve_delta session scope after end_ el inv n
         (fun f thr => PReplay sid vid end_ thr i (tr ++ encode_frame f))
  else emit session inv n (SnapshotCommit sid vid end_ (sha256 tr) i) (fun _ => PLive end_).

(** What makes a session move: the data plane publishes a change, the session's task runs up to
    its next await (drawing identities and reading the clock), its idle timer fires, or the session
    stops (membership was lost, the client misbehaved, a send failed). *)
Inductive Stimulus :=
| Publish (k : StateKey) (m : ReplicaMedium) (md : option ReplicaMetadata) (now : Z)
| Poll (snapshot_id view_id : Uuid) (elapsed : Z)
| Idle
| Stop.

(** [serve_source] and [serve_snapshot], one stimulus at a time. *)
Definition serve_source (session : Uuid) (scope : InventoryScope) (s : Source) (x : Stimulus)
    : Source * option ServerFrame :=
  let inv := src_inv s in let n := next_frame s in
  match x with
  | Publish k m md now =>
      match change size_of_record inv k m md now with
      | Some inv => (mkSource inv n (phase s), None)
      | None => (s, None)
      end
  | Poll sid vid el =>
      match phase s with
      | POpen resume => serve_open session scope resume sid vid el inv n
      | PPages sid vid start cursor i tr => serve_page session scope sid vid start cursor i tr el inv n
      | PScanned sid vid start i tr =>
          (mkSource inv n (PReplay sid vid (inv_sequence inv) start i tr), None)
      | PReplay sid vid end_ after i tr => serve_replay session scope sid vid end_ after i tr el inv n
      | PLive after =>
          if after <? inv_sequence inv
          then serve_delta session scope after (inv_sequence inv) el inv n (fun _ thr => PLive thr)
          else (s, None)
      | PDone => (s, None)
      end
  | Idle =>
      match phase s with
      | PLive after => emit session inv n (Progress after (inv_sequence inv)) (fun _ => PLive after)
      | _ => (s, None)
      end
  | Stop => (mkSource inv n PDone, None)
  end.

(** The frames of a sequence of stimuli. *)
Fixpoint serve_all (session : Uuid) (scope : InventoryScope) (s : Source) (xs : list Stimulus)
    : Source * list ServerFrame :=
  match xs with
  | [] => (s, [])
  | x :: xs =>
      let (s, f) := serve_source session scope s x in
      let (s, fs) := serve_all session scope s xs in
      (s, match f with Some f => f :: fs | None => fs end)
  end.

(** ** The receiver *)

Fixpoint decoded_bytes (total : Z) (records : list InventoryRecord) : result Z string :=
  match records with
  | [] => Ok total
  | r :: rest =>
      let? total := ok_or (checked_add total (record_estimated_size size_of_record r))
                      "inventory decoded byte count overflow"%string in
      decoded_bytes total rest
  end.

Definition validate_records (records : list InventoryRecord) : result unit string :=
  if INVENTORY_BATCH_RECORDS <? zlen records
  then Err "inventory frame record count exceeds the decoded limit"%string
  else
    let? total := decoded_bytes 0 records in
    if FRAME_BYTES <? total then Err "inventory frame exceeds the decoded byte limit"%string else Ok tt.

(** The locals of the receive loop, the index it writes and whether the source is marked for a
    fresh bootstrap. *)
Record Receiver := mkReceiver {
  expected_frame : Z;
  transcript : option bytes;
  snapshot_id : option Uuid;
  index : View;
  force_bootstrap : bool
}.

(** What the loop reads from outside at one frame: whether the source is still the exact member
    it connected to, whether membership resolves it, and the two clocks. *)
Record Env := mkEnv { exact_member : bool; admitted : bool; now : Z; mono_ns : Z }.

Context (limit : Z) (scope : InventoryScope) (owner session : Uuid).

Definition receive_begin (r : Receiver) (f : ServerFrame) (sid vid : Uuid) (start : Z)
    : Receiver * result unit string :=
  match begin_snapshot limit owner session sid vid start (index r) with
  | (v, Err e) => (mkReceiver (expected_frame r) (transcript r) (snapshot_id r) v (force_bootstrap r), Err e)
  | (v, Ok _) =>
      (mkReceiver (expected_frame r) (Some (encode_frame f)) (Some sid) (mark_syncing owner v)
         (force_bootstrap r), Ok tt)
  end.

(** Extend the transcript, or fail when there is none. *)
Definition extend (r : Receiver) (f : ServerFrame) (v : View) (why : string)
    : Receiver * result unit string :=
  match transcript r with
  | None => (mkReceiver (expected_frame r) None (snapshot_id r) v (force_bootstrap r), Err why)
  | Some t => (mkReceiver (expected_frame r) (Some (t ++ encode_frame f)) (snapshot_id r) v
                (force_bootstrap r), Ok tt)
  end.

Definition receive_page (r : Receiver) (f : ServerFrame) (sid : Uuid) (n : Z)
    (records : list InventoryRecord) : Receiver * result unit string :=
  match validate_records records with
  | Err e => (r, Err e)
  | Ok _ =>
      if negb (bool_decide (snapshot_id r = Some sid))
      then (r, Err "snapshot page identity changed"%string)
      else
        match apply_snapshot_page limit scope owner session sid n records (index r) with
        | (v, Err e) => (mkReceiver (expected_frame r) (transcript r) (snapshot_id r) v (force_bootstrap r), Err e)
        | (v, Ok _) => extend r f v "snapshot page arrived before begin"%string
        end
  end.

Definition set_index (r : Receiver) (v : View) : Receiver :=
  mkReceiver (expected_frame r) (transcript r) (snapshot_id r) v (force_bootstrap r).

Definition receive_delta (env : Env) (r : Receiver) (f : ServerFrame) (from thr : Z)
    (records : list InventoryRecord) : Receiver * result unit string :=
  match validate_records records with
  | Err e => (r, Err e)
  | Ok _ =>
      match snapshot_id r with
      | Some _ =>
          match apply_snapshot_delta limit scope owner session from thr records (index r) with
          | (v, Err e) => (set_index r v, Err e)
          | (v, Ok _) => extend r f v "snapshot delta arrived before begin"%string
          end
      | None =>
          match owner_watermark owner (index r) with
          | None => (r, Err "delta arrived without an installed owner view"%string)
          | Some (vid, _) =>
              match apply_delta limit scope (now env) (mono_ns env) owner vid from thr records (index r) with
              | (v, Err e) => (set_index r v, Err e)
              | (v, Ok (Overlap _)) =>
                  (set_index r v, Err "inventory delta overlaps the installed watermark"%string)
              | (v, Ok _) => (set_index r v, Ok tt)
              end
          end
      end
  end.

Definition receive_commit (env : Env) (r : Receiver) (sid vid : Uuid) (thr : Z) (digest : bytes)
    (pages : Z) : Receiver * result unit string :=
  if negb (bool_decide (snapshot_id r = Some sid))
  then (r, Err "snapshot transcript or identity differs"%string)
  else
    match transcript r with
    | None => (r, Err "snapshot commit arrived before begin"%string)
    | Some t =>
        let r := mkReceiver (expected_frame r) None (snapshot_id r) (index r) (force_bootstrap r) in
        if negb (bool_decide (sha256 t = digest))
        then (r, Err "snapshot transcript or identity differs"%string)
        else
          match commit_snapshot (admitted env) (now env) (mono_ns env) owner session sid vid thr pages (index r) with
          | (v, Err e) => (set_index r v, Err e)
          | (v, Ok _) => (mkReceiver (expected_frame r) None None v false, Ok tt)
          end
    end.

Definition receive_progress (env : Env) (r : Receiver) (thr head : Z) : Receiver * result unit string :=
  match snapshot_id r with
  | Some _ => (r, Err "progress cannot commit a partial snapshot"%string)
  | None =>
      if head <? thr then (r, Err "inventory source head precedes covered progress"%string)
      else
        let advanced :=
          match owner_watermark owner (index r) with
          | Some (vid, applied) =>
              if applied <? thr then
                match apply_delta limit scope (now env) (mono_ns env) owner vid applied thr [] (index r) with
                | (v, Err e) => (v, Err e)
                | (v, Ok (Overlap _)) =>
                    (v, Err "inventory progress overlaps the installed watermark"%string)
                | (v, Ok _) => (v, Ok tt)
                end
              else (index r, Ok tt)
          | None => (index r, Ok tt)
          end in
        match advanced with
        | (v, Err e) => (set_index r v, Err e)
        | (v, Ok _) =>
            match owner_watermark owner v with
            | Some (vid, applied) =>
                if (head =? thr) && (applied =? thr)
                then let (v, res) := confirm_progress owner vid applied (now env) v in (set_index r v, res)
                else (set_index r v, Ok tt)
            | None => (set_index r v, Ok tt)
            end
        end
  end.

(** One iteration of the receive loop. *)
Definition receive_frame (env : Env) (r : Receiver) (f : ServerFrame) : Receiver * result unit string :=
  if negb (exact_member env) then (r, Err "source membership changed"%string)
  else if (MESSAGE_BYTES <? zlen (encode_frame f)) || negb (frame_id f =? expected_frame r)
          || negb (frame_session f =? session)
  then (r, Err "inventory frame identity, order or size differs"%string)
  else
    match checked_add (expected_frame r) 1 with
    | None => (r, Err "inventory frame ID exhausted"%string)
    | Some n =>
        let r := mkReceiver n (transcript r) (snapshot_id r) (index r) (force_bootstrap r) in
        match body f with
        | SnapshotBegin sid vid start => receive_begin r f sid vid start
        | SnapshotPage sid n records => receive_page r f sid n records
        | FrameDelta from thr records => receive_delta env r f from thr records
        | SnapshotCommit sid vid thr digest pages => receive_commit env r sid vid thr digest pages
        | Progress thr head => receive_progress env r thr head
        | ResetRequired =>
            (mkReceiver (expected_frame r) (transcript r) (snapshot_id r) (index r) true, Err "source requested inventory reset"%string)
        end
    end.

(** The loop over the frames that arrive; the first error ends the session. *)
Fixpoint receive_all (r : Receiver) (frames : list (Env * ServerFrame)) : Receiver * result unit string :=
  match frames with
  | [] => (r, Ok tt)
  | (env, f) :: rest =>
      match receive_frame env r f with
      | (r, Err e) => (r, Err e)
      | (r, Ok _) => receive_all r rest
      end
  end.
(** The resume point a new session asks for. *)
Definition open_resume (r : Receiver) : option (Z * Uuid) :=
  if force_bootstrap r then None
  else match owner_watermark owner (index r) with
       | Some (vid, sequence) => Some (sequence, vid)
       | None => None
       end.
End Replication.
