(* ===== verification/Accuracy.v ===== *)
(** * Replicated views are accurate

    The end-to-end argument for [Replication]: every source session hands its receiver frames
    from which the index rebuilds exactly the owner's residents in scope.  Snapshot pages are read
    while the inventory changes, so a staged record is the owner's at some moment of an interval;
    the journal replay narrows that interval to one sequence number, the watermark that is
    installed with the view. *)
From S2P Require Import Prelude Containers Slices State Membership Inventory Index IndexInv IndexDelta IndexInstall Replication.

Local Open Scope Z_scope.

(** ** Records of an interval of the history *)

Section Between.
Context (scope : InventoryScope).
Implicit Types (h : list InventoryRecord) (rs : Records).

(** Every residence in scope has the record it had at some moment from [lo] to [hi]. *)
Definition between h (lo hi : Z) rs : Prop :=
  forall k, if in_scope scope k
            then exists t, lo <= t <= hi /\ rs !! k = residents_at h t !! k
            else rs !! k = None.

Lemma between_widen h lo hi hi' rs : hi <= hi' -> between h lo hi rs -> between h lo hi' rs.
Proof.
  intros Hle Hb k. specialize (Hb k). destruct (in_scope scope k); [|done].
  destruct Hb as (t & Ht & ->). exists t. split; [lia|done].
Qed.

Lemma between_app h h' lo hi rs : hi <= zlen h -> between h lo hi rs -> between (h ++ h') lo hi rs.
Proof.
  intros Hle Hb k. specialize (Hb k). destruct (in_scope scope k); [|done].
  destruct Hb as (t & Ht & ->). exists t. split; [done|]. by rewrite residents_at_app by lia.
Qed.

(** At one moment the records are the residents in scope. *)
Lemma between_exact h n rs k :
  between h n n rs -> rs !! k = if in_scope scope k then residents_at h n !! k else None.
Proof.
  intros Hb. specialize (Hb k). destruct (in_scope scope k); [|done].
  destruct Hb as (t & Ht & ->). by replace t with n by lia.
Qed.

Lemma last_segment h a b k r :
  0 <= a <= b -> b <= zlen h -> last_of (segment h a b) k = Some r ->
  residents_at h b !! k = (if present r then Some r else None) /\
  exists i, h !! i = Some r /\ (Z.to_nat a <= i < Z.to_nat b)%nat /\
    forall j r', (i < j < Z.to_nat b)%nat -> h !! j = Some r' -> residence_of r' <> Some k.
Proof.
  intros Hab Hb (i & Hi & Hk & Hno)%last_of_Some.
  pose proof (lookup_lt_Some _ _ _ Hi) as Hlt. rewrite length_segment in Hlt by done.
  rewrite lookup_segment in Hi by lia.
  assert (Hafter : forall j r', (Z.to_nat a + i < j < Z.to_nat b)%nat -> h !! j = Some r' ->
    residence_of r' <> Some k).
  { intros j r' Hj Hr'. apply (Hno (j - Z.to_nat a)%nat); [lia|].
    rewrite lookup_segment by lia. by replace (Z.to_nat a + (j - Z.to_nat a))%nat with j by lia. }
  split.
  - apply (residents_at_last h a b k (Z.to_nat a + i)); [lia..|done|done|done].
  - exists (Z.to_nat a + i)%nat. split_and!; [done|lia|lia|done].
Qed.

Lemma no_last_segment h a b k i r :
  0 <= a <= b -> b <= zlen h -> last_of (segment h a b) k = None ->
  (Z.to_nat a <= i < Z.to_nat b)%nat -> h !! i = Some r -> residence_of r <> Some k.
Proof.
  intros Hab Hb Hn Hi Hr. rewrite last_of_None in Hn. apply Hn.
  apply (list_elem_of_lookup_2 _ (i - Z.to_nat a)). rewrite lookup_segment by lia.
  by replace (Z.to_nat a + (i - Z.to_nat a))%nat with i by lia.
Qed.

(** A resident is one of the changes of its residence. *)
Lemma resident_change h t k p :
  history_ok h -> 0 <= t <= zlen h -> residents_at h t !! k = Some p ->
  h !! Z.to_nat (sequence p - 1) = Some p /\ residence_of p = Some k /\ 1 <= sequence p <= t.
Proof.
  intros Hok Ht Hp. pose proof (residents_at_sequence h t k p Hok Hp) as [Hs _].
  apply replay_Some in Hp as (Hin & Hk & _). apply list_elem_of_lookup in Hin as [i Hi].
  apply lookup_take_Some in Hi as [Hi Hlt]. destruct (Hok i p Hi) as [Hsq _].
  split_and!; [|done|lia|lia]. by replace (Z.to_nat (sequence p - 1)) with i by lia.
Qed.

(** Merging the last changes up to [thr] moves the lower end of the interval to [thr]. *)
Lemma between_merge h (lo thr hi : Z) rs (latest : Records) :
  history_ok h -> 0 <= lo <= thr -> thr <= hi <= zlen h -> between h lo hi rs ->
  (forall k, latest !! k = if in_scope scope k then last_of (segment h lo thr) k else None) ->
  between h thr hi (apply_records rs (btree_items latest)).
Proof.
  intros Hok Hlo Hhi Hb Hl k. rewrite apply_records_lookup, Hl. specialize (Hb k).
  destruct (in_scope scope k); [|done]. destruct Hb as (t & Ht & ->).
  destruct (last_of (segment h lo thr) k) as [r|] eqn:El.
  - apply last_segment in El as (Hthr & i & Hi & Hlt & Hno); [|lia..].
    destruct (Hok i r Hi) as [Hseq _]. unfold merge_record.
    destruct (residents_at h t !! k) as [p|] eqn:Ep; [|exists thr; split; [lia|done]].
    destruct (Z.ltb_spec (sequence r) (sequence p)); [|exists thr; split; [lia|done]].
    apply resident_change in Ep as Hp; [|done|lia]. destruct Hp as (Hp & Hk & Hs).
    exists t. split; [|done]. destruct (decide (thr <= t)); [lia|].
    exfalso. apply (Hno (Z.to_nat (sequence p - 1)) p); [lia|done..].
  - exists (Z.max t thr). split; [lia|]. destruct (decide (thr <= t)).
    + by rewrite Z.max_l by lia.
    + rewrite Z.max_r by lia. symmetry. apply residents_at_stable; [lia..|].
      intros j r Hj. eapply no_last_segment; [| |exact El|]; lia.
Qed.

(** ** What [latest_records] keeps *)

Lemma validate_record_residence r res : validate_record r = Ok res -> residence_of r = Some res.
Proof.
  unfold validate_record, residence_of. destruct (metadata r) as [md|]; [|done]. cbn [ok_or].
  destruct (_ || _); [done|]. by intros [= <-].
Qed.

Lemma latest_records_keep from thr records latest0 latest k :
  NoDup (residence_of <$> records) ->
  (forall r k, r ∈ records -> residence_of r = Some k -> latest0 !! k = None) ->
  latest_records from thr records scope latest0 = Ok latest ->
  latest !! k = match last_of records k with Some r => Some r | None => latest0 !! k end.
Proof.
  revert latest0. induction records as [|r records IH]; intros latest0 Hnd Hno; simpl.
  { by intros [= <-]. }
  rewrite fmap_cons in Hnd. apply NoDup_cons in Hnd as [Hnin Hnd].
  destruct (negb _); [done|]. destruct (_ || _); [done|].
  destruct (validate_record r) as [res|] eqn:Ev; [|done]. apply validate_record_residence in Ev.
  rewrite (Hno r res ltac:(left) Ev).
  intros Hl. apply IH in Hl; [|done|].
  - rewrite Hl. unfold last_of. rewrite filter_cons, Ev. destruct (decide (Some res = Some k)) as [[= ->]|Hne].
    + rewrite last_cons. destruct (last (filter _ records)); [done|]. by rewrite lookup_insert_eq.
    + destruct (last _); [done|]. rewrite lookup_insert_ne; [done|congruence].
  - intros r' k' Hin Hk. rewrite lookup_insert_ne; [eapply Hno; [by right|done]|].
    intros ->. apply Hnin. rewrite Ev, <- Hk. by apply list_elem_of_fmap_2.
Qed.

(** Records filed under their own residence, in key order. *)
Lemma values_residences (m : Records) :
  (forall k r, m !! k = Some r -> residence_of r = Some k) ->
  residence_of <$> btree_values m = Some <$> btree_keys m.
Proof.
  intros Hm. unfold btree_values, btree_keys. rewrite <- !list_fmap_compose.
  apply list_fmap_ext. intros i [k r] Hi. simpl. apply Hm, elem_of_btree_items.
  by eapply list_elem_of_lookup_2.
Qed.

Lemma last_of_values (m : Records) k :
  (forall k r, m !! k = Some r -> residence_of r = Some k) -> last_of (btree_values m) k = m !! k.
Proof.
  intros Hm. destruct (last_of (btree_values m) k) as [r|] eqn:El.
  - apply last_of_Some in El as (i & Hi & Hk & _). apply list_elem_of_lookup_2 in Hi.
    apply list_elem_of_fmap in Hi as ([k' r'] & -> & Hin%elem_of_btree_items). simpl in *.
    apply Hm in Hin as Hk'. congruence.
  - rewrite last_of_None in El. destruct (m !! k) as [r|] eqn:E; [|done].
    exfalso. apply (El r); [|by apply Hm]. apply list_elem_of_fmap. exists (k, r).
    split; [done|]. by apply elem_of_btree_items.
Qed.

(** A receiver that accepts a delta of the source keeps its records as they were sent. *)
Lemma delta_latest h a d latest k :
  delta_of h scope a d ->
  latest_records a (through d) (delta_records d) scope ∅ = Ok latest ->
  latest !! k = if in_scope scope k then last_of (segment h a (through d)) k else None.
Proof.
  intros (m & -> & Hm) Hl.
  assert (Hres : forall k r, m !! k = Some r -> residence_of r = Some k).
  { intros k' r Hr. rewrite Hm in Hr. destruct (in_scope scope k'); [|done].
    by apply last_of_Some in Hr as (i & _ & ? & _). }
  rewrite <- Hm. apply (latest_records_keep _ _ _ _ _ k) in Hl.
  - rewrite Hl, last_of_values by done. by destruct (m !! k).
  - rewrite values_residences by done. apply NoDup_fmap_2; [|apply NoDup_btree_keys].
    by intros ? ? [= ->].
  - done.
Qed.
End Between.

(** ** The source's delta *)

Section Source.
Context (size_of_record : Z) (Hsize : 0 <= size_of_record) (body_len : FrameBody -> Z).
Abbreviation tracks := (tracks size_of_record).
Abbreviation bounded_delta := (bounded_delta size_of_record body_len).

(** The first change after [a] cannot be sent at all: no batch holds it, or the delta of that change alone exceeds a frame. *)
Definition unsendable (h : list InventoryRecord) (scope : InventoryScope) (a : Z) : Prop :=
  Exists (oversized size_of_record) (segment h a (a + 1)) \/
  exists d, through d = a + 1 /\ delta_of h scope a d /\ FRAME_BYTES < body_len (FrameDelta a (a + 1) (delta_records d)).

(** What a bounded read of [(a, b]] returns. *)
Definition delta_outcome (inv : Inventory) (h : list InventoryRecord) (scope : InventoryScope)
    (a b : Z) (res : result InventoryDelta InventoryReadError) : Prop :=
  match res with
  | Ok d => a < through d <= b /\ b <= zlen h /\ delta_of h scope a d /\
      body_len (FrameDelta a (through d) (delta_records d)) <= FRAME_BYTES
  | Err RecordTooLarge => a < b <= zlen h /\ unsendable h scope a
  | Err HistoryGap => zlen h < b \/ a < zlen h - zlen (journal inv)
  | Err InvalidRecord => False
  end.

Lemma coalesced_journal inv a b scope el :
  journal (coalesced_changes_scoped size_of_record inv a b scope el).1 = journal inv.
Proof.
  unfold coalesced_changes_scoped, changes. repeat case_match; simplify_eq/=; try done;
    repeat (case_match; simplify_eq/=); done.
Qed.

Lemma bounded_delta_halves fuel inv h a b scope el :
  tracks inv h -> is_u64 a -> is_u64 b -> a < b -> (Z.to_nat (b - a) < fuel)%nat ->
  exists inv' res, bounded_delta fuel inv a b scope el = Some (inv', res) /\
    tracks inv' h /\ byte_limit inv' = byte_limit inv /\ delta_outcome inv h scope a b res.
Proof.
  revert inv b. induction fuel as [|fuel IH]; intros inv b Ht Ha Hb Hab Hf; [lia|]. simpl.
  destruct (coalesced_changes_scoped size_of_record inv a b scope el) as [inv1 res] eqn:Ec.
  pose proof (coalesced_journal inv a b scope el) as Hj. rewrite Ec in Hj. simpl in Hj.
  apply (coalesced_spec _ Hsize inv h) in Ec as (Ht1 & Hl1 & Hres); [|done..].
  unfold is_u64 in *.
  assert (Hrec : forall b', a < b' < b -> b <= zlen h ->
    exists inv' res', bounded_delta fuel inv1 a b' scope el = Some (inv', res') /\
    tracks inv' h /\ byte_limit inv' = byte_limit inv /\ delta_outcome inv h scope a b res').
  { intros b' Hb' Hbh. destruct (IH inv1 b' Ht1) as (inv' & res' & -> & ? & Hl' & Ho); [lia..|].
    exists inv', res'. split_and!; [done..|congruence|]. unfold delta_outcome in *. rewrite Hj in Ho.
    destruct res' as [d|[]]; [|lia| |done]; [destruct Ho as (? & ? & ? & ?); split_and!; [lia..|done|done]|].
    destruct Ho as [? Hun]. split; [lia|done]. }
  pose proof (Z.div_lt (b - a) 2). pose proof (Z.div_le_lower_bound (b - a) 2 1).
  destruct res as [d|[]].
  - destruct Hres as (Hd & Hbh & Hprog & Hdel & Hin). specialize (Hprog Hab).
    destruct (Z.leb_spec (body_len (FrameDelta a (through d) (delta_records d))) FRAME_BYTES).
    { exists inv1, (Ok d). split_and!; [done..|]. simpl. split_and!; [lia..|done|done]. }
    destruct (Z.leb_spec (input_records d) 1).
    { exists inv1, (Err RecordTooLarge). split_and!; [done..|]. simpl. split; [lia|]. right. exists d.
      assert (through d = a + 1) as Hthr by lia. rewrite Hthr in *. split_and!; [done|done|lia]. }
    pose proof (Z.div_lt (through d - a) 2). pose proof (Z.div_le_lower_bound (through d - a) 2 1).
    rewrite u64_sub_exact, u64_add_exact by lia. apply Hrec; lia.
  - exists inv1, (Err HistoryGap). split_and!; [done..|]. simpl. lia.
  - rewrite u64_add_exact by (unfold u64_max in *; lia). destruct (Z.ltb_spec (a + 1) b).
    + rewrite u64_sub_exact, u64_add_exact by lia. apply Hrec; lia.
    + exists inv1, (Err RecordTooLarge). split_and!; [done..|]. destruct Hres as [? Hov]. split; [lia|]. left. by replace (a + 1) with b by lia.
  - done.
Qed.
End Source.

(** C24. The source's search for a delta that fits a frame always ends, after at most as many
    halvings as there are changes to send, and every answer is right: a delta is a non-empty
    prefix of the interval, exact for the scope, and within the frame limit; the search gives up as
    too large only when the first change of the interval cannot be sent by itself; a gap is reported
    only for changes the journal no longer holds or a head that is not reached. *)
Theorem bounded_delta_total size_of_record body_len invt h a b scope el :
  0 <= size_of_record -> tracks size_of_record invt h -> 0 <= a < b -> b <= u64_max ->
  exists inv' res,
    bounded_delta size_of_record body_len (delta_fuel a b) invt a b scope el = Some (inv', res) /\
    tracks size_of_record inv' h /\
    delta_outcome size_of_record body_len invt h scope a b res.
Proof.
  intros Hsz Ht Ha Hb.
  destruct (bounded_delta_halves size_of_record Hsz body_len (delta_fuel a b) invt h a b scope el)
    as (inv' & res & Heq & Ht' & _ & Ho); [done|unfold is_u64; lia..|unfold delta_fuel; lia|].
  by exists inv', res.
Qed.

(** Two changes that do not fit one frame together. *)
Definition sample_len (b : FrameBody) : Z :=
  match b with FrameDelta _ _ (_ :: _ :: _) => FRAME_BYTES + 1 | _ => 64 end.

Lemma bounded_delta_total_witness :
  exists inv' res,
    bounded_delta 88 sample_len (delta_fuel 0 2) sample_inventory 0 2 AllNamespaces 0 = Some (inv', res) /\
    tracks 88 inv' [sample_record (str "a") 1; sample_record (str "b") 2] /\
    delta_outcome 88 sample_len sample_inventory [sample_record (str "a") 1; sample_record (str "b") 2]
      AllNamespaces 0 2 res.
Proof.
  apply (bounded_delta_total 88 sample_len sample_inventory
    [sample_record (str "a") 1; sample_record (str "b") 2] 0 2 AllNamespaces 0);
    [lia|apply sample_tracks|lia|unfold u64_max; lia].
Defined.

(** ** The receiver's index *)

Section Receiver.
Context (size_of_record : Z) (Hsize : 0 <= size_of_record).
Context (limit : Z) (Hlimit : 0 <= limit <= i64_max) (scope : InventoryScope) (owner : Uuid).
Abbreviation inv := (index_inv limit scope).
Abbreviation between := (between scope).

(** The installed view of the owner holds exactly its residents in scope at the watermark. *)
Definition accurate (h : list InventoryRecord) (v : View) : Prop :=
  forall ov, owners v !! owner = Some ov -> ov_retired ov = false ->
    0 <= ov_applied ov <= zlen h /\ between h (ov_applied ov) (ov_applied ov) (ov_records ov).

Definition watermark_from (n : Z) (v : View) : Prop :=
  forall ov, owners v !! owner = Some ov -> ov_retired ov = false -> n <= ov_applied ov.

(** [v'] has the view of the owner that [v] has, freshness apart, or none. *)
Definition keeps (v v' : View) : Prop :=
  forall ov', owners v' !! owner = Some ov' -> exists ov, owners v !! owner = Some ov /\
    ov_applied ov' = ov_applied ov /\ ov_records ov' = ov_records ov /\ ov_retired ov' = ov_retired ov.

Lemma keeps_refl v : keeps v v.
Proof. intros ov Hov. eauto. Qed.

Lemma keeps_owners v v' : owners v' = owners v -> keeps v v'.
Proof. intros Ho ov Hov. rewrite Ho in Hov. eauto. Qed.

Lemma keeps_trans v1 v2 v3 : keeps v1 v2 -> keeps v2 v3 -> keeps v1 v3.
Proof.
  intros H12 H23 ov Hov. destruct (H23 ov Hov) as (ov2 & Hov2 & Ha & Hr & Ht). rewrite Ha, Hr, Ht. by apply H12.
Qed.

Lemma accurate_keeps h v v' : keeps v v' -> accurate h v -> accurate h v'.
Proof.
  intros Hk Hac ov Hov. destruct (Hk ov Hov) as (ov0 & Hov0 & Ha & Hr & Ht). rewrite Ha, Hr, Ht.
  by apply Hac.
Qed.

Lemma watermark_keeps n v v' : keeps v v' -> watermark_from n v -> watermark_from n v'.
Proof.
  intros Hk Hw ov Hov. destruct (Hk ov Hov) as (ov0 & Hov0 & Ha & _ & Ht). rewrite Ha, Ht. by apply Hw.
Qed.

Lemma accurate_app h h' v : accurate h v -> accurate (h ++ h') v.
Proof.
  intros Ha ov Hov Hr. destruct (Ha ov Hov Hr) as [Hn Hb]. split.
  - rewrite zlen_app. pose proof (zlen_nonneg h'). lia.
  - apply between_app; [lia|done].
Qed.

Lemma make_stale_keeps v : keeps v (make_stale owner v).
Proof.
  unfold make_stale. destruct (owners v !! owner) as [ov|] eqn:Ho; [|apply keeps_refl].
  assert (Hk : forall w, owners w = <[owner := with_fresh false ov]> (owners v) -> keeps v w).
  { intros w Hw ov' Hov'. rewrite Hw, lookup_insert_eq in Hov'. injection Hov' as <-. eauto. }
  destruct (_ && _); by apply Hk.
Qed.

Lemma confirm_progress_keeps vid applied now v :
  keeps v (confirm_progress owner vid applied now v).1.
Proof.
  unfold confirm_progress. destruct (owners v !! owner) as [ov|] eqn:Ho; [|apply keeps_refl].
  destruct (_ || _); [apply keeps_refl|]. intros ov'. simpl.
  destruct (_ && _); simpl; rewrite lookup_insert_eq; intros [= <-]; eauto.
Qed.

Lemma drop_staging_owners o v : owners (drop_staging o v) = owners v.
Proof. unfold drop_staging. by destruct (staging v !! o). Qed.

Lemma make_stale_staging v : staging (make_stale owner v) = staging v.
Proof. unfold make_stale. destruct (owners v !! owner); [|done]. by destruct (_ && _). Qed.

(** A new snapshot starts without records; the installed view stays until the commit. *)
Lemma begin_snapshot_starts session sid vid start v :
  let '(v', res) := begin_snapshot limit owner session sid vid start v in
  keeps v v' /\ (res = Ok tt -> exists s, staging v' !! owner = Some s /\ sv_replay s = start /\
                                sv_records s = ∅).
Proof.
  unfold begin_snapshot. destruct (_ || _); [split; [apply keeps_refl|done]|].
  destruct (negb _); [split; [apply keeps_refl|done]|].
  pose proof (drop_staging_owners owner v) as Ho. set (w := drop_staging owner v) in *. clearbody w.
  destruct (_ <? _); [split; [by apply keeps_owners|done]|].
  set (v1 := set_bytes _ _ _ _). split.
  - apply (keeps_trans _ v1); [by apply keeps_owners|].
    apply (keeps_trans _ (make_stale owner v1)); [apply make_stale_keeps|by apply keeps_owners].
  - intros _. simpl. rewrite make_stale_staging. subst v1. simpl. rewrite lookup_insert_eq. by eexists.
Qed.

(** An accepted page adds its records to the staged ones. *)
Lemma apply_snapshot_page_adds session sid n records v :
  let '(v', res) := apply_snapshot_page limit scope owner session sid n records v in
  owners v' = owners v /\
  (res = Ok tt -> exists s s' l, staging v !! owner = Some s /\ staging v' !! owner = Some s' /\
     sv_replay s' = sv_replay s /\ l.*2 = records /\ NoDup l.*1 /\ Forall (valid_update scope) l /\
     sv_records s' = foldl insert_update (sv_records s) l).
Proof.
  unfold apply_snapshot_page. destruct (staging v !! owner) as [s|] eqn:Ho; [|done].
  destruct (_ || _); [done|]. destruct (sv_replay_started s); [done|]. destruct (negb _); [done|].
  destruct (validate_page _ _ _ _ _) as [[additional updates]|] eqn:Ev; [|done].
  apply validate_page_Ok in Ev as (l & -> & Hrec & Hs & _ & Hv & _). simpl.
  destruct (_ <? _); [done|]. split; [done|]. intros _.
  destruct (foldl_stage_spec s l) as (_ & _ & _ & _ & Hrp & _ & _ & _ & _ & _ & Hrs').
  exists s. eexists. exists l. split; [done|]. simpl. rewrite lookup_insert_eq.
  split_and!; [done|simpl; done..|by apply sorted_items_NoDup|done|simpl; done].
Qed.

(** A batch that passes the receiver's limits fits the index's accounting. *)
Lemma decoded_bytes_sum total records n :
  decoded_bytes size_of_record total records = Ok n ->
  n = total + list_sum (record_estimated_size size_of_record) records.
Proof.
  revert total. induction records as [|r records IH]; intros total; simpl.
  { intros [= <-]. unfold list_sum. simpl. lia. }
  unfold checked_add. destruct (_ <=? _); [|done]. simpl. intros ->%IH. unfold list_sum. simpl. lia.
Qed.

Lemma validate_records_fit records :
  validate_records size_of_record records = Ok tt -> batch_fits records.
Proof.
  unfold validate_records, INVENTORY_BATCH_RECORDS, FRAME_BYTES.
  destruct (Z.ltb_spec 1024 (zlen records)); [done|].
  destruct (decoded_bytes _ _ _) as [n|] eqn:E; [|done]. simpl. apply decoded_bytes_sum in E.
  destruct (Z.ltb_spec (512 * 1024) n); [done|]. intros _. unfold batch_fits.
  enough (batch_bytes records <= 320 * zlen records +
            list_sum (record_estimated_size size_of_record) records) by (unfold i64_max; lia).
  clear -Hsize. induction records as [|r records IH]; [unfold batch_bytes, list_sum, zlen; simpl; lia|].
  unfold batch_bytes, list_sum in *. simpl. rewrite zlen_cons.
  enough (entry_bytes (key r) <= 320 + record_estimated_size size_of_record r) by lia.
  unfold entry_bytes, record_estimated_size, u64_add.
  pose proof (zlen_nonneg (namespace (key r))). pose proof (zlen_nonneg (hash (key r))).
  pose proof (wrap64_le (320 + zlen (namespace (key r)))).
  pose proof (wrap64_is_u64 (320 + zlen (namespace (key r)))).
  pose proof (wrap64_le (wrap64 (320 + zlen (namespace (key r))) + zlen (hash (key r)))).
  unfold is_u64 in *. lia.
Qed.
End Receiver.
