(* ===== verification/Sessions.v ===== *)
(** * Inventory sessions, end to end

    The simulation between the source session and the receiver of [Replication], and the theorem
    that a receiver's installed view is accurate at all times. *)
From S2P Require Import Prelude Containers Slices State Membership Inventory Index IndexInv IndexDelta IndexInstall Replication Accuracy.

Local Open Scope Z_scope.
#[local] Arguments is_after : simpl never.

Section Session.
Context (size_of_record : Z) (Hsize : 0 <= size_of_record).
Context (encode_frame : ServerFrame -> bytes) (body_len : FrameBody -> Z) (sha256 : bytes -> bytes).
Context (limit : Z) (Hlimit : 0 <= limit <= i64_max) (scope : InventoryScope) (owner session : Uuid).
Implicit Types (h : list InventoryRecord) (r : Receiver) (v : View).
Abbreviation tracks := (tracks size_of_record).
Abbreviation between := (between scope).
Abbreviation accurate := (accurate scope owner).
Abbreviation watermark_from := (watermark_from owner).
Abbreviation keeps := (keeps owner).
Abbreviation inv := (index_inv limit scope).
Abbreviation serve_source := (serve_source size_of_record encode_frame body_len sha256 session scope).
Abbreviation receive_frame :=
  (receive_frame size_of_record encode_frame sha256 limit scope owner session).

(** ** The simulation *)

(** While pages are read: the scanned residences in scope have a record of the interval. *)
Definition scanned h (lo : Z) (cursor : option Residence) (rs : Records) : Prop :=
  forall k, if in_scope scope k && negb (is_after cursor k)
            then exists t, lo <= t <= zlen h /\ rs !! k = residents_at h t !! k
            else rs !! k = None.

(** What the receiver's index holds when the source is in a phase and all its frames arrived. *)
Definition phase_rel h r (p : Phase) : Prop :=
  match p with
  | POpen resume =>
      snapshot_id r = None /\
      forall n vid, resume = Some (n, vid) -> 0 <= n /\ watermark_from n (index r)
  | PPages _ _ start cursor _ _ =>
      is_Some (snapshot_id r) /\ 0 <= start <= zlen h /\
      forall s, staging (index r) !! owner = Some s ->
        sv_replay s = start /\ scanned h start cursor (sv_records s)
  | PScanned _ _ start _ _ =>
      is_Some (snapshot_id r) /\ 0 <= start <= zlen h /\
      forall s, staging (index r) !! owner = Some s ->
        sv_replay s = start /\ between h start (zlen h) (sv_records s)
  | PReplay _ _ end_ after _ _ =>
      is_Some (snapshot_id r) /\ 0 <= after <= end_ /\ end_ <= zlen h /\
      forall s, staging (index r) !! owner = Some s ->
        sv_replay s = after /\ between h after end_ (sv_records s)
  | PLive after =>
      snapshot_id r = None /\ 0 <= after <= zlen h /\ watermark_from after (index r)
  | PDone => True
  end.

Definition view_ok h v : Prop := inv v /\ accurate h v.

Definition session_rel (s : Source) h r : Prop :=
  tracks (src_inv s) h /\ view_ok h (index r) /\ phase_rel h r (phase s).

Lemma scanned_app h h' lo cursor rs : scanned h lo cursor rs -> scanned (h ++ h') lo cursor rs.
Proof.
  intros Hs k. specialize (Hs k). destruct (_ && _); [|done]. destruct Hs as (t & Ht & ->).
  exists t. rewrite zlen_app. pose proof (zlen_nonneg h'). split; [lia|].
  by rewrite residents_at_app by lia.
Qed.

Lemma phase_rel_app h h' r p : phase_rel h r p -> phase_rel (h ++ h') r p.
Proof.
  pose proof (zlen_nonneg h') as Hn. destruct p; simpl; rewrite ?zlen_app; try done.
  - intros (? & ? & Hs). split_and!; [done|lia|lia|]. intros s Ho. destruct (Hs s Ho).
    auto using scanned_app.
  - intros (? & ? & Hs). split_and!; [done|lia|lia|]. intros s Ho. destruct (Hs s Ho). split; [done|].
    apply (between_widen _ _ _ (zlen h)); [lia|]. by apply between_app.
  - intros (? & ? & ? & Hs). split_and!; [done|lia..|]. intros s Ho. destruct (Hs s Ho).
    auto using between_app.
  - intros (? & ? & ?). split_and!; [done|lia|lia|done].
Qed.

Lemma view_ok_app h h' v : view_ok h v -> view_ok (h ++ h') v.
Proof. intros [? ?]. split; [done|]. by apply accurate_app. Qed.

Lemma scanned_start h lo : scanned h lo None ∅.
Proof. intros k. unfold is_after. simpl. by rewrite andb_false_r. Qed.

(** Inserting the residents of [R] that satisfy [P]. *)
Lemma page_added (rs R : Records) l (P : Residence -> Prop) k :
  NoDup l.*1 -> (forall u, u ∈ l -> residence_of u.2 = Some u.1) ->
  (forall k x, R !! k = Some x -> residence_of x = Some k) ->
  (forall x, x ∈ l.*2 <-> exists k, R !! k = Some x /\ P k) ->
  (foldl insert_update rs l !! k = R !! k /\ P k) \/
  (foldl insert_update rs l !! k = rs !! k /\ (P k -> R !! k = None)).
Proof.
  intros Hnd Hres Hkey Hmem. rewrite insert_updates_lookup by done.
  destruct (list_find _ _) as [[i u]|] eqn:E.
  - left. apply list_find_Some in E as (Hi & <- & _). apply list_elem_of_lookup_2 in Hi.
    destruct (proj1 (Hmem u.2)) as (k & Hk & HP); [by apply list_elem_of_fmap_2|].
    apply Hkey in Hk as Hk'. rewrite (Hres u Hi) in Hk'. injection Hk' as ->. by rewrite Hk.
  - right. split; [done|]. intros HP. destruct (R !! k) as [x|] eqn:Ex; [|done]. exfalso.
    apply list_find_None in E. rewrite Forall_forall in E.
    assert (Hx : x ∈ l.*2) by (apply Hmem; eauto).
    apply list_elem_of_fmap in Hx as (u & -> & Hu). apply (E u Hu).
    apply Hkey in Ex. rewrite (Hres u Hu) in Ex. by injection Ex.
Qed.

Lemma is_after_le n k : is_after (Some n) k = false <-> key_le k n.
Proof.
  unfold is_after. rewrite <- not_true_iff_false, key_ltb_spec, <- key_not_le. split; [apply dec_stable|tauto].
Qed.

Lemma is_after_mono cursor n k :
  is_after cursor n = true -> is_after (Some n) k = true -> is_after cursor k = true.
Proof.
  destruct cursor as [c|]; [|done]. unfold is_after. rewrite !key_ltb_spec. apply key_lt_trans.
Qed.

(** A page read at the head extends what is scanned by its records. *)
Lemma scanned_page h invt lo cursor el inv' p rs l :
  tracks invt h -> 0 <= lo <= zlen h -> scanned h lo cursor rs ->
  scoped_page size_of_record invt cursor scope el = (inv', Ok p) ->
  l.*2 = page_records p -> NoDup l.*1 -> (forall u, u ∈ l -> residence_of u.2 = Some u.1) ->
  if page_complete p then between h lo (zlen h) (foldl insert_update rs l)
  else scanned h lo (next p) (foldl insert_update rs l).
Proof.
  intros Ht Hlo Hs Hp Hl Hnd Hres. pose proof Ht as (_ & _ & _ & Hresid & _).
  assert (Hkey : forall k x, residents invt !! k = Some x -> residence_of x = Some k).
  { intros k x Hx. rewrite Hresid in Hx. by apply replay_Some in Hx as (_ & ? & _). }
  pose proof (scoped_page_members _ _ _ _ _ _ _ Hp Hkey) as Hmem. rewrite <- Hl in Hmem.
  apply scoped_page_taken in Hp as (_ & _ & _ & _ & Hnext & _).
  assert (Hadd := fun k => page_added rs _ l _ k Hnd Hres Hkey Hmem).
  assert (Hhead : residents invt = residents_at h (zlen h)) by (by rewrite residents_at_all by lia).
  rewrite Hhead in Hadd. unfold in_page in Hadd. destruct (page_complete p) eqn:Ec.
  - intros k. specialize (Hs k). destruct (in_scope scope k) eqn:Ek; simpl in Hs.
    + destruct (Hadd k) as [[-> _]|[-> Hn]]; [exists (zlen h); split; [lia|done]|].
      destruct (is_after cursor k) eqn:Ea; simpl in Hs; [|done].
      exists (zlen h). split; [lia|]. rewrite Hs, Hn by auto. done.
    + destruct (Hadd k) as [[_ [_ ?]]|[-> _]]; congruence.
  - destruct (Hnext eq_refl) as (n & Hnx & Hn). rewrite Hnx in *. intros k. specialize (Hs k).
    destruct (in_scope scope k) eqn:Ek; simpl andb in *; cbv iota in *.
    + destruct (is_after (Some n) k) eqn:Elt; simpl negb; cbv iota.
      * rewrite (is_after_mono cursor n k Hn Elt) in Hs. simpl in Hs.
        destruct (Hadd k) as [[_ [[_ [?|(n' & [= <-] & Hle)]] _]]|[-> _]]; [done| |done].
        by apply is_after_le in Hle; rewrite Hle in Elt.
      * destruct (Hadd k) as [[-> _]|[-> Hno]]; [exists (zlen h); split; [lia|done]|].
        destruct (is_after cursor k) eqn:Ea; simpl in Hs; [|done].
        exists (zlen h). split; [lia|]. rewrite Hs, Hno; [done|]. split; [|done]. split; [done|].
        right. exists n. split; [done|]. by apply is_after_le.
    + destruct (Hadd k) as [[_ [_ ?]]|[-> _]]; congruence.
Qed.

(** ** The receiver keeps up *)

(** The outcome of a frame: an accurate view in any case, and, unless the session failed, the
    relation for the source's next phase. *)
Definition follows h (p : Phase) (out : Receiver * result unit string) : Prop :=
  view_ok h (index out.1) /\ (out.2 = Ok tt -> phase_rel h out.1 p).

Lemma view_ok_keeps h v v' : inv v' -> keeps v v' -> view_ok h v -> view_ok h v'.
Proof. intros Hi Hk [_ Ha]. split; [done|]. by eapply accurate_keeps. Qed.

Lemma receive_begin_follows h r f sid vid tr :
  view_ok h (index r) ->
  follows h (PPages sid vid (zlen h) None 0 tr)
    (receive_begin encode_frame limit owner session r f sid vid (zlen h)).
Proof.
  intros Hv. pose proof Hv as [Hi _]. pose proof (zlen_nonneg h) as Hn. unfold receive_begin.
  pose proof (begin_snapshot_starts limit owner session sid vid (zlen h) (index r)) as Hb.
  pose proof (begin_snapshot_inv limit Hlimit scope (index r) owner session sid vid (zlen h)) as Hbi.
  destruct (begin_snapshot _ _ _ _ _ _ _) as [v' [[]|e]]; destruct Hb as [Hk Hs]; simpl in Hbi.
  - destruct (Hs eq_refl) as (s & Ho & Hr & Hrs). split.
    + simpl. eapply view_ok_keeps; [apply bump_inv, make_stale_inv; auto| |done].
      eapply keeps_trans; [done|]. eapply keeps_trans; [apply make_stale_keeps|by apply keeps_owners].
    + intros _. simpl. split_and!; [done|lia|lia|]. rewrite make_stale_staging. intros s' Ho'.
      rewrite Ho in Ho'. injection Ho' as <-. rewrite Hrs. split; [done|apply scanned_start].
  - split; [|done]. simpl. eapply view_ok_keeps; eauto.
Qed.

Lemma validated_residence u : valid_update scope u -> residence_of u.2 = Some u.1.
Proof.
  intros [(Hk & md & Hmd & Hm) _]. unfold residence_of. rewrite Hmd. simpl. rewrite Hk, Hm.
  by destruct u as [[? ?] ?].
Qed.

Lemma extend_follows h p r f v why :
  view_ok h v -> phase_rel h (mkReceiver (expected_frame r) None (snapshot_id r) v (force_bootstrap r)) p ->
  follows h p (extend encode_frame r f v why).
Proof. intros Hv Hp. unfold extend. destruct (transcript r); split; simpl; try done; by destruct p. Qed.

Lemma receive_page_follows h r f invt inv' p sid vid start cursor i j tr tr' el :
  tracks invt h -> view_ok h (index r) -> phase_rel h r (PPages sid vid start cursor i tr) ->
  scoped_page size_of_record invt cursor scope el = (inv', Ok p) ->
  follows h (if page_complete p then PScanned sid vid start j tr' else PPages sid vid start (next p) j tr')
    (receive_page size_of_record encode_frame limit scope owner session r f sid i (page_records p)).
Proof.
  intros Ht Hv (Hid & Hstart & Hst) Hp. pose proof Hv as [Hi _]. unfold receive_page.
  destruct (validate_records _ _) as [[]|] eqn:Ev; [|by split].
  destruct (negb _); [by split|]. apply validate_records_fit in Ev; [|done].
  pose proof (apply_snapshot_page_adds limit scope owner session sid i (page_records p) (index r)) as Ha.
  pose proof (apply_snapshot_page_inv limit Hlimit scope (index r) owner session sid i _ Ev Hi) as Hpi.
  destruct (apply_snapshot_page _ _ _ _ _ _ _ _) as [v' [[]|e]]; destruct Ha as [Ho Hadd]; simpl in Hpi.
  - assert (Hv' : view_ok h v') by (eapply view_ok_keeps; [done|by apply keeps_owners|done]).
    apply extend_follows; [done|].
    destruct (Hadd eq_refl) as (s & s' & l & Hs & Hs' & Hrp & Hl & Hnd & Hval & Hrs).
    destruct (Hst s Hs) as [Hsr Hsc]. rewrite Forall_forall in Hval.
    pose proof (scanned_page h invt start cursor el inv' p (sv_records s) l Ht Hstart Hsc Hp Hl Hnd) as Hn.
    rewrite <- Hrs in Hn.
    assert (Hres : forall u, u ∈ l -> residence_of u.2 = Some u.1) by eauto using validated_residence.
    destruct (page_complete p); simpl; split_and!; try done; try lia; intros s1 Hs1; simplify_eq; auto.
  - split; [|done]. eapply view_ok_keeps; [done|by apply keeps_owners|done].
Qed.

Lemma receive_replay_follows env h r f sid vid end_ after d i j tr tr' :
  history_ok h -> view_ok h (index r) -> phase_rel h r (PReplay sid vid end_ after i tr) ->
  after <= through d <= end_ -> delta_of h scope after d ->
  follows h (PReplay sid vid end_ (through d) j tr')
    (receive_delta size_of_record encode_frame limit scope owner session env r f after (through d)
       (delta_records d)).
Proof.
  intros Hok Hv ([id Hid] & Ha & He & Hst) Hd Hdel. pose proof Hv as [Hi _]. unfold receive_delta.
  destruct (validate_records _ _) as [[]|] eqn:Ev; [|by split]. apply validate_records_fit in Ev; [|done].
  rewrite Hid.
  pose proof (apply_snapshot_delta_inv limit Hlimit scope (index r) owner session after (through d) _ Ev Hi) as Hpi.
  destruct (apply_snapshot_delta_cases limit Hlimit scope (index r) owner session after (through d) _ Ev Hi)
    as [[e Heq]|(s & latest & delta & Hs & _ & _ & _ & Hl & _ & _ & _ & Heq)]; rewrite Heq in *; cbn [fst] in Hpi.
  - by split.
  - apply extend_follows; [apply (view_ok_keeps h (index r)); [done|by apply keeps_owners|done]|].
    simpl. split_and!; [by rewrite Hid|lia..|]. rewrite lookup_insert_eq. intros s' [= <-]. simpl.
    destruct (Hst s Hs) as [_ Hb]. split; [done|].
    eapply between_merge; [done| | |exact Hb|]; [lia..|]. intros k. by eapply delta_latest.
Qed.

Lemma apply_delta_duplicate now mono vid from thr records v v' :
  apply_delta limit scope now mono owner vid from thr records v = (v', Ok Duplicate) ->
  watermark_from thr v.
Proof.
  unfold apply_delta. intros Hd ov Ho Hr. rewrite Ho in Hd. destruct (_ || _); [done|].
  destruct (Z.leb_spec thr (ov_applied ov)); [done|]. repeat (case_match; try done).
Qed.

(** A delta for the installed view moves it to the end of its interval. *)
Lemma apply_delta_accurate h now mono vid from thr records v :
  history_ok h -> view_ok h v -> batch_fits records -> thr <= zlen h ->
  (forall latest k, latest_records from thr records scope ∅ = Ok latest ->
     latest !! k = if in_scope scope k then last_of (segment h from thr) k else None) ->
  let '(v', res) := apply_delta limit scope now mono owner vid from thr records v in
  view_ok h v' /\ (res = Ok Applied \/ res = Ok Duplicate -> watermark_from thr v').
Proof.
  intros Hok [Hi Ha] Hfit Hthr Hlat.
  pose proof (apply_delta_inv limit Hlimit scope v owner vid from thr records now mono Hfit Hi) as Hpi.
  destruct (apply_delta_cases limit Hlimit scope v owner vid from thr records now mono Hfit Hi)
    as [(x & Heq & Hx)|(ov & latest & delta & Ho & _ & Hret & <- & Hlt & Hl & _ & _ & _ & Heq)];
    rewrite Heq in *; cbn [fst] in Hpi.
  - split; [by split|]. intros [?| ->]; [done|]. by eapply apply_delta_duplicate.
  - destruct (Ha ov Ho Hret) as [Hn Hb]. split; [split; [done|]|intros _].
    + intros ov'. simpl. rewrite lookup_insert_eq. intros [= <-] _. simpl. split; [lia|].
      apply (between_merge _ h (ov_applied ov)); [done|lia..| |].
      * apply (between_widen _ _ _ (ov_applied ov)); [lia|done].
      * intros k. by apply Hlat.
    + intros ov'. simpl. rewrite lookup_insert_eq. intros [= <-] _. simpl. lia.
Qed.

Lemma receive_live_follows env h r f after d :
  history_ok h -> view_ok h (index r) -> phase_rel h r (PLive after) ->
  after <= through d <= zlen h -> delta_of h scope after d ->
  follows h (PLive (through d))
    (receive_delta size_of_record encode_frame limit scope owner session env r f after (through d)
       (delta_records d)).
Proof.
  intros Hok Hv (Hid & Ha & Hw) Hd Hdel. unfold receive_delta.
  destruct (validate_records _ _) as [[]|] eqn:Ev; [|by split]. apply validate_records_fit in Ev; [|done].
  rewrite Hid. destruct (owner_watermark owner (index r)) as [[vid n]|] eqn:Ew; [|by split].
  pose proof (apply_delta_accurate h (now env) (mono_ns env) vid after (through d) (delta_records d) (index r)
    Hok Hv Ev ltac:(lia) (fun latest k => delta_latest scope h after d latest k Hdel)) as Hap.
  destruct (apply_delta _ _ _ _ _ _ _ _ _ _) as [v' [[]|e]]; destruct Hap as [Hv' Hw'];
    (split; [done|]); simpl; intros ?; try done; (split_and!; [done|lia|lia|auto]).
Qed.

(** Progress never runs ahead of the installed view, so it only confirms it. *)
Lemma receive_progress_follows env h r after head :
  view_ok h (index r) -> phase_rel h r (PLive after) ->
  follows h (PLive after) (receive_progress limit scope owner env r after head).
Proof.
  intros Hv Hp. pose proof Hp as (Hid & Ha & Hw). pose proof Hv as [Hi _]. unfold receive_progress.
  rewrite Hid. destruct (head <? after); [by split|].
  assert (Hadv : match owner_watermark owner (index r) with
    | Some (vid, applied) => applied <? after | None => false end = false).
  { unfold owner_watermark, Accuracy.watermark_from in *. destruct (owners (index r) !! owner) as [ov|]; [|done].
    destruct (ov_retired ov) eqn:Er; [done|]. specialize (Hw ov eq_refl Er). by apply Z.ltb_ge. }
  destruct (owner_watermark owner (index r)) as [[vid applied]|] eqn:Ew.
  - rewrite Hadv. simpl. rewrite Ew. destruct (_ && _); [|by split].
    pose proof (confirm_progress_inv limit Hlimit scope (index r) owner vid applied (now env) Hi) as Hci.
    assert (Hk : keeps (index r) (confirm_progress owner vid applied (now env) (index r)).1)
      by apply confirm_progress_keeps.
    destruct (confirm_progress _ _ _ _ _) as [v' res]. simpl in Hci, Hk.
    split; simpl; [by apply (view_ok_keeps h (index r))|]. intros _. split_and!; [done|lia|lia|].
    by eapply watermark_keeps.
  - simpl. rewrite Ew. by split.
Qed.

Lemma receive_commit_follows env h r sid vid end_ after i j tr digest :
  view_ok h (index r) -> phase_rel h r (PReplay sid vid end_ after i tr) ->
  follows h (PLive end_) (receive_commit sha256 owner session env r sid vid end_ digest j).
Proof.
  intros Hv ([id Hid] & Ha & He & Hst). pose proof Hv as [Hi _]. unfold receive_commit.
  destruct (negb _); [by split|]. destruct (transcript r); [|by split]. cbv zeta.
  destruct (negb _); [by split|]. simpl.
  pose proof (commit_snapshot_inv limit Hlimit scope (admitted env) (now env) (mono_ns env) (index r)
    owner session sid vid end_ j Hi) as Hpi.
  destruct (commit_snapshot_cases limit Hlimit scope (admitted env) (now env) (mono_ns env) (index r)
    owner session sid vid end_ j Hi) as [[e Heq]|[[e Heq]|(s & Hs & _ & _ & _ & Hr & _ & _ & _ & _ & _ & Heq)]];
    rewrite Heq in *; cbn [fst] in Hpi.
  - by split.
  - split; [|done]. simpl. apply (view_ok_keeps h (index r)); [done|apply keeps_owners, drop_staging_owners|done].
  - destruct (Hst s Hs) as [Hrp Hb]. assert (after = end_) as -> by lia.
    split; [split; [done|]|intros _; split_and!; [done|lia|lia|]]; simpl;
      intros ov; simpl; rewrite lookup_insert_eq; intros [= <-] _; simpl; [|lia].
    split; [lia|done].
Qed.

(** ** The protocol *)

(** What a source may send when its history is [h], and the phase it goes to. *)
Inductive sent h : Phase -> option FrameBody -> Phase -> Prop :=
| sent_stay p : sent h p None p
| sent_stop p : sent h p None PDone
| sent_reset p : sent h p (Some ResetRequired) PDone
| sent_resume n vid : n <= zlen h -> sent h (POpen (Some (n, vid))) None (PLive n)
| sent_begin resume sid vid tr :
    sent h (POpen resume) (Some (SnapshotBegin sid vid (zlen h))) (PPages sid vid (zlen h) None 0 tr)
| sent_page sid vid start cursor i j tr tr' invt el inv' p :
    tracks invt h -> scoped_page size_of_record invt cursor scope el = (inv', Ok p) ->
    sent h (PPages sid vid start cursor i tr) (Some (SnapshotPage sid i (page_records p)))
      (if page_complete p then PScanned sid vid start j tr' else PPages sid vid start (next p) j tr')
| sent_empty sid vid start cursor i tr invt el inv' p :
    tracks invt h -> scoped_page size_of_record invt cursor scope el = (inv', Ok p) ->
    page_records p = [] ->
    sent h (PPages sid vid start cursor i tr) None
      (if page_complete p then PScanned sid vid start i tr else PPages sid vid start (next p) i tr)
| sent_end sid vid start i tr :
    sent h (PScanned sid vid start i tr) None (PReplay sid vid (zlen h) start i tr)
| sent_replay sid vid end_ after i tr tr' d :
    after <= through d <= end_ -> delta_of h scope after d ->
    sent h (PReplay sid vid end_ after i tr) (Some (FrameDelta after (through d) (delta_records d)))
      (PReplay sid vid end_ (through d) i tr')
| sent_commit sid vid end_ after i tr digest :
    sent h (PReplay sid vid end_ after i tr) (Some (SnapshotCommit sid vid end_ digest i)) (PLive end_)
| sent_live after d :
    after <= through d <= zlen h -> delta_of h scope after d ->
    sent h (PLive after) (Some (FrameDelta after (through d) (delta_records d))) (PLive (through d))
| sent_progress after head : sent h (PLive after) (Some (Progress after head)) (PLive after).

(** The sequence numbers of a phase lie within the history. *)
Definition phase_ok h (p : Phase) : Prop :=
  match p with
  | POpen resume => forall n vid, resume = Some (n, vid) -> 0 <= n
  | PPages _ _ start _ _ _ | PScanned _ _ start _ _ => 0 <= start <= zlen h
  | PReplay _ _ end_ after _ _ => 0 <= after <= end_ /\ end_ <= zlen h
  | PLive after => 0 <= after <= zlen h
  | PDone => True
  end.

Lemma phase_ok_app h h' p : phase_ok h p -> phase_ok (h ++ h') p.
Proof.
  pose proof (zlen_nonneg h'). destruct p; simpl; rewrite ?zlen_app; intros; eauto; lia.
Qed.

Lemma sent_ok h p b p' : phase_ok h p -> sent h p b p' -> phase_ok h p'.
Proof.
  pose proof (zlen_nonneg h). intros Hp Hs. destruct Hs; simpl in *; try destruct (page_complete _); simpl; try lia; try done.
  split; [|done]. by eapply Hp.
Qed.

(** Without a frame the receiver is already there. *)
Lemma silent_follows h r p p' : history_ok h -> phase_rel h r p -> sent h p None p' -> phase_rel h r p'.
Proof.
  intros Hok Hp Hs. inversion Hs; subst; simpl in *; try done.
  - destruct Hp as [? Hn]. destruct (Hn _ _ eq_refl). split_and!; [done..|lia|done].
  - destruct Hp as (? & Hst & Hs'). 
    assert (Hsc := fun rs Hrs => scanned_page h invt start cursor el inv' p0 rs [] H Hst Hrs H0).
    rewrite H1 in Hsc. destruct (page_complete p0); simpl; split_and!; try done; try lia; intros s Ho;
      destruct (Hs' s Ho) as [? ?]; (split; [done|]); apply Hsc; try done; try constructor; set_solver.
  - destruct Hp as (? & ? & Hs'). split_and!; try done; try lia.
Qed.

(** Every frame of the protocol is followed by the receiver. *)
Lemma frame_follows env h r p f p' :
  history_ok h -> view_ok h (index r) -> phase_rel h r p -> sent h p (Some (body f)) p' ->
  follows h p' (receive_frame env r f).
Proof.
  intros Hok Hv Hp Hs. unfold Replication.receive_frame.
  destruct (negb _); [by split|]. destruct (_ || _); [by split|].
  destruct (checked_add _ _) as [n|]; [|by split].
  set (r1 := mkReceiver n (transcript r) (snapshot_id r) (index r) (force_bootstrap r)).
  assert (Hp1 : phase_rel h r1 p) by (by destruct p).
  assert (Hv1 : view_ok h (index r1)) by done. clearbody r1. cbv zeta.
  revert Hs. generalize (body f). intros b Hs. inversion Hs; subst; clear Hs; simpl.
  - by split.
  - by apply receive_begin_follows.
  - by eapply receive_page_follows.
  - by eapply receive_replay_follows.
  - by eapply receive_commit_follows.
  - by eapply receive_live_follows.
  - by eapply receive_progress_follows.
Qed.

(** ** The source keeps to the protocol *)

(** A stimulus whose change fits the journal's accounting. *)
Definition stimulus_fits (bytes : Z) (x : Stimulus) : Prop :=
  match x with
  | Publish k _ _ _ => bytes + size_of_record + zlen (namespace k) + zlen (hash k) <= u64_max
  | _ => True
  end.

Lemma change_grows invt h k m md t inv' :
  tracks invt h -> stimulus_fits (byte_limit invt) (Publish k m md t) ->
  change size_of_record invt k m md t = Some inv' ->
  exists more, tracks inv' (h ++ more) /\ byte_limit inv' = byte_limit invt.
Proof.
  intros Ht Hf Hc.
  assert (Hp : publishable m md).
  { unfold change in Hc. destruct (advertised m) eqn:Ea; [|done]. simpl in Hc. split; [done|].
    intros x ->. destruct (bool_decide (medium x = m)) eqn:Em; [|done]. by apply bool_decide_eq_true in Em. }
  destruct (decide (residents invt !! (k, m) ≫= metadata = md)) as [He|He].
  - rewrite change_unfold, decide_True in Hc by done. injection Hc as <-. exists []. by rewrite app_nil_r.
  - assert (zlen h < u64_max).
    { pose proof Ht as (_ & Hs & _). rewrite change_unfold, decide_False in Hc by done.
      unfold checked_add in Hc. destruct (Z.leb_spec (inv_sequence invt + 1) u64_max); [lia|done]. }
    destruct (change_tracks size_of_record Hsize invt h k m md t Ht Hp) as (inv2 & Hc2 & Hl & Hcase); [done| |].
    { unfold record_estimated_size. simpl in *. lia. }
    rewrite Hc in Hc2. injection Hc2 as <-. destruct Hcase as [[? _]|Ht']; [done|]. eauto.
Qed.

(** One stimulus: the history may grow, and what is sent is allowed by the protocol. *)
Definition serves h (n : Z) (p : Phase) (out : Source * option ServerFrame) : Prop :=
  exists more, tracks (src_inv out.1) (h ++ more) /\ byte_limit (src_inv out.1) = n /\
    sent (h ++ more) p (body <$> out.2) (phase out.1).

Lemma serves_quiet h invt p p' n :
  tracks invt h -> sent h p None p' -> serves h (byte_limit invt) p (mkSource invt n p', None).
Proof. intros. exists []. rewrite app_nil_r. by split_and!. Qed.

Lemma emit_serves h invt p n b q l :
  tracks invt h -> byte_limit invt = l -> (forall f, sent h p (Some b) (q f)) ->
  serves h l p (emit encode_frame session invt n b q).
Proof.
  intros Ht Hl Hq. exists []. rewrite app_nil_r. unfold emit, frame.
  destruct (checked_add n 1); [|split_and!; [done..|constructor]].
  destruct (_ <? _); simpl; split_and!; try done. constructor.
Qed.

Lemma send_reset_serves h invt p n l :
  tracks invt h -> byte_limit invt = l -> serves h l p (send_reset encode_frame session invt n).
Proof. intros. apply emit_serves; [done..|constructor]. Qed.

Lemma serve_delta_serves h invt p after b el n q :
  tracks invt h -> 0 <= after < b -> b <= zlen h ->
  (forall f d, after < through d <= b -> delta_of h scope after d ->
     sent h p (Some (FrameDelta after (through d) (delta_records d))) (q f (through d))) ->
  serves h (byte_limit invt) p
    (serve_delta size_of_record encode_frame body_len session scope after b el invt n q).
Proof.
  intros Ht Ha Hb Hq. unfold serve_delta. pose proof Ht as (_ & _ & Hu & _).
  destruct (bounded_delta_halves size_of_record Hsize body_len (delta_fuel after b) invt h after b scope el)
    as (inv' & res & -> & Ht' & Hl & Ho); [done|unfold is_u64; lia..|unfold delta_fuel; lia|].
  rewrite <- Hl. destruct res as [d|[]]; try (apply serves_quiet; [done|constructor]).
  - destruct Ho as (? & _ & ? & _). apply emit_serves; auto.
  - by apply send_reset_serves.
Qed.

Lemma snapshot_begin_serves h invt resume sid vid n :
  tracks invt h ->
  serves h (byte_limit invt) (POpen resume) (snapshot_begin encode_frame session sid vid invt n).
Proof.
  intros Ht. pose proof Ht as (_ & Hs & _). unfold snapshot_begin. rewrite Hs.
  apply emit_serves; [done..|]. intros f. constructor.
Qed.

Lemma serve_open_serves h invt resume sid vid el n :
  tracks invt h -> phase_ok h (POpen resume) ->
  serves h (byte_limit invt) (POpen resume)
    (serve_open size_of_record encode_frame session scope resume sid vid el invt n).
Proof.
  intros Ht Hp. pose proof Ht as (_ & Hs & Hu & _). unfold serve_open.
  destruct resume as [[m x]|]; [|by apply snapshot_begin_serves].
  destruct (Z.leb_spec m (inv_sequence invt)); [|by apply snapshot_begin_serves].
  specialize (Hp m x eq_refl).
  destruct (coalesced_changes_scoped _ _ _ _ _ _) as [inv' res] eqn:Ec.
  apply (coalesced_spec _ Hsize invt h) in Ec as (Ht' & <- & Hr); [|done|unfold is_u64; lia..].
  destruct res as [d|[]]; try (apply serves_quiet; [done|constructor]; lia).
  by apply send_reset_serves.
Qed.

Lemma serve_page_serves h invt sid vid start cursor i tr el n :
  tracks invt h ->
  serves h (byte_limit invt) (PPages sid vid start cursor i tr)
    (serve_page size_of_record encode_frame body_len session scope sid vid start cursor i tr el invt n).
Proof.
  intros Ht. unfold serve_page. destruct (scoped_page _ _ _ _ _) as [inv' res] eqn:Ep.
  pose proof (scoped_page_tracks _ _ _ _ _ _ _ _ Ht Ep) as [Ht' <-].
  destruct res as [p|e]; [|apply serves_quiet; [done|constructor]].
  destruct (page_records p) as [|x rs] eqn:Er.
  - apply serves_quiet; [done|]. eapply sent_empty; [exact Ht|exact Ep|exact Er].
  - rewrite <- Er. destruct (_ <? _); [apply serves_quiet; [done|constructor]|].
    apply emit_serves; [done..|]. intros f. eapply sent_page; [exact Ht|exact Ep].
Qed.

Lemma serve_source_serves s h x :
  tracks (src_inv s) h -> phase_ok h (phase s) -> stimulus_fits (byte_limit (src_inv s)) x ->
  serves h (byte_limit (src_inv s)) (phase s) (serve_source s x).
Proof.
  intros Ht Hp Hf. destruct s as [invt n p]. simpl in *. pose proof Ht as (_ & Hs & _).
  destruct x as [k m md t|sid vid el| |]; unfold Replication.serve_source; simpl.
  - destruct (change _ _ _ _ _ _) as [inv'|] eqn:Ec; [|apply serves_quiet; [done|constructor]].
    destruct (change_grows invt h k m md t inv' Ht Hf Ec) as (more & Ht' & Hl).
    exists more. split_and!; [done..|constructor].
  - destruct p as [resume|? ? start cursor i tr|? ? start i tr|? ? end_ after i tr|after|].
    + by apply serve_open_serves.
    + by apply serve_page_serves.
    + apply serves_quiet; [done|]. rewrite Hs. constructor.
    + unfold serve_replay. simpl in Hp. destruct (Z.ltb_spec after end_).
      * apply serve_delta_serves; [done|lia..|]. intros. constructor; [lia|done].
      * apply emit_serves; [done..|]. intros. constructor.
    + simpl in Hp. destruct (Z.ltb_spec after (inv_sequence invt)); [|apply serves_quiet; [done|constructor]].
      apply serve_delta_serves; [done|lia..|]. intros. constructor; [lia|done].
    + apply serves_quiet; [done|constructor].
  - destruct p; try (apply serves_quiet; [done|constructor]).
    apply emit_serves; [done..|]. intros. constructor.
  - apply serves_quiet; [done|constructor].
Qed.

(** ** Runs *)

Abbreviation serve_all := (serve_all size_of_record encode_frame body_len sha256 session scope).
Abbreviation receive_all := (receive_all size_of_record encode_frame sha256 limit scope owner session).

Lemma serve_all_grows s h xs :
  tracks (src_inv s) h -> phase_ok h (phase s) ->
  Forall (stimulus_fits (byte_limit (src_inv s))) xs ->
  exists more, tracks (src_inv (serve_all s xs).1) (h ++ more).
Proof.
  revert s h. induction xs as [|x xs IH]; intros s h Ht Hp Hf; [exists []; by rewrite app_nil_r|].
  apply Forall_cons in Hf as [Hx Hf]. simpl.
  destruct (serve_source_serves s h x Ht Hp Hx) as (more & Ht' & Hl & Hs).
  destruct (serve_source s x) as [s1 f]. simpl in *.
  destruct (IH s1 (h ++ more) Ht') as [more' Hm]; [|by rewrite Hl|].
  { eapply sent_ok; [by apply phase_ok_app|done]. }
  destruct (serve_all s1 xs). exists (more ++ more'). by rewrite app_assoc.
Qed.

(** The source runs, the receiver has consumed some of its frames. *)
Lemma replicate s h r xs frames :
  tracks (src_inv s) h -> phase_ok h (phase s) -> view_ok h (index r) -> phase_rel h r (phase s) ->
  Forall (stimulus_fits (byte_limit (src_inv s))) xs ->
  frames.*2 `prefix_of` (serve_all s xs).2 ->
  exists more, tracks (src_inv (serve_all s xs).1) (h ++ more) /\
    view_ok (h ++ more) (index (receive_all r frames).1).
Proof.
  revert s h r frames. induction xs as [|x xs IH]; intros s h r frames Ht Hp Hv Hr Hf Hpre.
  { exists []. rewrite app_nil_r. split; [done|]. simpl in Hpre. apply prefix_nil_inv in Hpre.
    by destruct frames. }
  destruct frames as [|[env f] frames].
  { destruct (serve_all_grows s h (x :: xs) Ht Hp Hf) as [more Hm]. exists more. split; [done|].
    by apply view_ok_app. }
  apply Forall_cons in Hf as [Hx Hf]. simpl in Hpre |- *.
  destruct (serve_source_serves s h x Ht Hp Hx) as (more & Ht1 & Hl & Hs).
  destruct (serve_source s x) as [s1 fo]. simpl in *. rewrite <- Hl in Hf.
  assert (Hok : history_ok (h ++ more)) by apply Ht1.
  assert (Hp1 : phase_ok (h ++ more) (phase s1)) by (eapply sent_ok; [by apply phase_ok_app|done]).
  apply (phase_rel_app _ more) in Hr. apply (view_ok_app _ more) in Hv.
  pose proof (serve_all_grows s1 (h ++ more) xs Ht1 Hp1 Hf) as Hgrow.
  pose proof (IH s1 (h ++ more)) as Hnext. destruct (serve_all s1 xs) as [s2 fs]. simpl in *.
  destruct fo as [f0|].
  - apply prefix_cons_inv_1 in Hpre as Hf0. apply prefix_cons_inv_2 in Hpre.
    simpl in Hf0. subst f0. simpl in Hs.
    pose proof (frame_follows env (h ++ more) r (phase s) f (phase s1) Hok Hv Hr Hs) as [Hv1 Hr1].
    destruct (receive_frame env r f) as [r1 [[]|e]]; simpl in *.
    + destruct (Hnext r1 frames) as (more' & ? & ?); auto.
      exists (more ++ more'). by rewrite app_assoc.
    + destruct Hgrow as [more' Hm]. exists (more ++ more'). rewrite app_assoc. split; [done|].
      by apply view_ok_app.
  - apply silent_follows with (r := r) in Hs; [|done..].
    destruct (Hnext r ((env, f) :: frames)) as (more' & ? & ?); auto.
    exists (more ++ more'). by rewrite app_assoc.
Qed.

Lemma open_resume_rel h r :
  snapshot_id r = None -> accurate h (index r) ->
  phase_rel h r (POpen (open_resume owner r)) /\ phase_ok h (POpen (open_resume owner r)).
Proof.
  intros Hid Ha. enough (Hn : forall n vid, open_resume owner r = Some (n, vid) ->
    0 <= n /\ watermark_from n (index r)) by (split; [by split|intros n vid [? _]%Hn; done]).
  unfold open_resume, owner_watermark. intros n vid. destruct (force_bootstrap r); [done|].
  destruct (owners (index r) !! owner) as [ov|] eqn:Ho; [|done].
  destruct (ov_retired ov) eqn:Er; [done|]. intros [= <- <-]. destruct (Ha ov Ho Er). split; [lia|].
  intros ov' Ho' _. rewrite Ho in Ho'. by injection Ho' as <-.
Qed.
End Session.

(** C1. Replication is exact.  Let a source session run with any interleaving of published
    changes, task wake-ups and idle timers, and let the receiver have consumed any prefix of the
    frames (including one that ended in an error).  If the receiver's view of that owner was exact
    before, or absent, then it is exact now: the installed records are precisely the owner's
    residents in scope at the installed watermark, which the source's history has reached. *)
Theorem replication_exact size_of_record encode_frame body_len sha256 limit scope owner session
    invt h n r xs frames s' fs :
  0 <= size_of_record -> 0 <= limit <= i64_max ->
  tracks size_of_record invt h -> index_inv limit scope (index r) -> accurate scope owner h (index r) ->
  snapshot_id r = None -> Forall (stimulus_fits size_of_record (byte_limit invt)) xs ->
  serve_all size_of_record encode_frame body_len sha256 session scope
    (mkSource invt n (POpen (open_resume owner r))) xs = (s', fs) ->
  frames.*2 `prefix_of` fs ->
  exists more, tracks size_of_record (src_inv s') (h ++ more) /\
  forall ov, owners (index (receive_all size_of_record encode_frame sha256 limit scope owner session
                              r frames).1) !! owner = Some ov ->
    ov_retired ov = false ->
    0 <= ov_applied ov <= zlen (h ++ more) /\
    forall k, ov_records ov !! k =
      if in_scope scope k then residents_at (h ++ more) (ov_applied ov) !! k else None.
Proof.
  intros Hsz Hl Ht Hi Ha Hid Hf Hrun Hpre.
  destruct (open_resume_rel scope owner h r Hid Ha) as [Hr Hp].
  pose proof (replicate size_of_record Hsz encode_frame body_len sha256 limit Hl scope owner session
    (mkSource invt n (POpen (open_resume owner r))) h r xs frames) as Hrep.
  rewrite Hrun in Hrep. destruct Hrep as (more & Ht' & _ & Ha'); [done|done|by split|done..|].
  exists more. split; [done|]. intros ov Ho Hret. destruct (Ha' ov Ho Hret) as [? ?].
  split; [done|]. intros k. by apply between_exact.
Qed.

(** A session over two residents, with a third published while the pages are read. *)
Definition sample_encode (f : ServerFrame) : bytes := str "f".
Definition sample_receiver : Receiver :=
  mkReceiver 1 None None (set_expected_owners 1 5 [2] empty_view) false.
Definition sample_stimuli : list Stimulus :=
  [Poll 8 9 0; Poll 0 0 0; Publish (mkStateKey (str "c") (str "h")) Dram (Some sample_md) 7;
   Poll 0 0 0; Poll 0 0 0; Poll 0 0 0; Idle].
Definition sample_run : Source * list ServerFrame :=
  serve_all 88 sample_encode (fun _ => 0) id 7 AllNamespaces
    (mkSource sample_inventory 1 (POpen (open_resume 2 sample_receiver))) sample_stimuli.
Definition sample_frames : list (Env * ServerFrame) := (fun f => (mkEnv true true 0 0, f)) <$> sample_run.2.
Definition sample_received : Receiver * result unit string :=
  receive_all 88 sample_encode id 100000 AllNamespaces 2 7 sample_receiver sample_frames.

Lemma sample_received_eq :
  sample_received.2 = Ok tt /\ owner_watermark 2 (index sample_received.1) = Some (9, 3).
Proof. split; vm_compute; reflexivity. Qed.

Lemma replication_exact_witness :
  sample_received.2 = Ok tt /\ owner_watermark 2 (index sample_received.1) = Some (9, 3) /\
  exists more, tracks 88 (src_inv sample_run.1)
      ([sample_record (str "a") 1; sample_record (str "b") 2] ++ more) /\
  forall ov, owners (index sample_received.1) !! 2 = Some ov -> ov_retired ov = false ->
    0 <= ov_applied ov <= zlen ([sample_record (str "a") 1; sample_record (str "b") 2] ++ more) /\
    forall k, ov_records ov !! k =
      if in_scope AllNamespaces k
      then residents_at ([sample_record (str "a") 1; sample_record (str "b") 2] ++ more) (ov_applied ov) !! k
      else None.
Proof.
  split; [apply sample_received_eq|]. split; [apply sample_received_eq|].
  apply (replication_exact 88 sample_encode (fun _ => 0) id 100000 AllNamespaces 2 7 sample_inventory
    [sample_record (str "a") 1; sample_record (str "b") 2] 1 sample_receiver sample_stimuli sample_frames
    sample_run.1 sample_run.2).
  - lia.
  - unfold i64_max. lia.
  - apply sample_tracks.
  - apply (reachable_inv 100000 AllNamespaces); [unfold i64_max; lia|].
    eapply reach_step; [apply reach_new|apply step_expected].
  - intros ov Ho. vm_compute in Ho. discriminate.
  - reflexivity.
  - repeat (apply Forall_cons; split); try apply Forall_nil; try exact I. vm_compute. discriminate.
  - unfold sample_run. apply surjective_pairing.
  - unfold sample_frames. rewrite <- list_fmap_compose. change (snd ∘ _) with (@id ServerFrame).
    rewrite list_fmap_id. reflexivity.
Defined.
