(* ===== verification/Blocks.v ===== *)
(** * Storage blocks

    [orbitkv-core/src/block.rs]: raw blocks of pinned segments, sealed blocks, and the inflight
    block that collects a block's slots until it can be sealed.  Pinned memory is external: a
    segment is its host address, its size and the allocation of the pool that holds it. *)
From S2P Require Import Prelude Containers State.

Local Open Scope Z_scope.

(** [codec::EncodedSegment]. *)
Record EncodedSegment := mkSegment {
  es_version : Z;
  es_format : StorageFormat;
  es_logical_bytes : Z;
  es_stored_bytes : Z;
  es_checksum : Z
}.

(** The common representation of several parts, or [Mixed]. *)
Definition merge_representation (old : option ReplicaRepresentation) (next : ReplicaRepresentation)
    : option ReplicaRepresentation :=
  Some match old with
       | None => next
       | Some previous => if bool_decide (previous = next) then previous else Mixed
       end.

(** [memory::pool::PinnedAllocation]: the pool, the allocation's identity and address, and its place in the pool. *)
Record PinnedAllocation := mkAllocation { pool_id : Z; alloc_id : Z; alloc_ptr : Z; alloc_offset : Z; alloc_size : Z }.
Record Segment := mkPinned { host_ptr : Z; seg_size : Z; seg_allocation : PinnedAllocation }.

(** Small blocks keep their segments inline. *)
Inductive BlockSegments :=
| One (s : Segment)
| Two (s1 s2 : Segment)
| Many (l : list Segment).

Definition from_vec (l : list Segment) : BlockSegments :=
  match l with [s] => One s | [s1; s2] => Two s1 s2 | _ => Many l end.

Definition as_slice (b : BlockSegments) : list Segment :=
  match b with One s => [s] | Two s1 s2 => [s1; s2] | Many l => l end.

Record RawBlock := mkRaw {
  storage_format : StorageFormat;
  raw_encoding : option (list EncodedSegment);
  segments : BlockSegments;
  total_size : Z
}.

Definition raw_new (l : list Segment) : RawBlock :=
  mkRaw Exact None (from_vec l) (foldl u64_add 0 (seg_size <$> l)).
Definition single_segment (s : Segment) : RawBlock := mkRaw Exact None (One s) (seg_size s).
Definition two_segments (k v : Segment) : RawBlock :=
  mkRaw Exact None (Two k v) (u64_add (seg_size k) (seg_size v)).

Definition num_segments (b : RawBlock) : Z := zlen (as_slice (segments b)).
Definition segment_size (b : RawBlock) (i : Z) : option Z := seg_size <$> as_slice (segments b) !! Z.to_nat i.
Definition segment_ptr (b : RawBlock) (i : Z) : option Z := host_ptr <$> as_slice (segments b) !! Z.to_nat i.

Definition raw_representation (b : RawBlock) : ReplicaRepresentation :=
  match raw_encoding b with
  | None => Raw
  | Some metadata =>
      default RUnknown (foldl (fun r seg => merge_representation r (representation_of (es_format seg)))
                          None metadata)
  end.

(** [warmed] is whether the [OnceLock] of the warm-up record is set. *)
Record SealedBlock := mkSealed {
  sb_slots : list RawBlock;
  footprint : Z;
  slot_numas : list Z;
  warmed : bool
}.

Definition UNKNOWN_NUMA : Z := u32_max.

Definition block_metadata (b : SealedBlock) : ReplicaMetadata :=
  mkMetadata Dram
    (default RUnknown (foldl (fun r s => merge_representation r (raw_representation s)) None (sb_slots b)))
    (Some (footprint b)).

Definition from_slots (slots : list (RawBlock * Z)) : SealedBlock :=
  mkSealed slots.*1 (foldl (fun n s => saturating_add n (total_size s.1)) 0 slots) slots.*2 false.

(** [from_ordered_slot_inserts]: the batch itself is handed back when it is not complete. *)
Definition from_ordered_slot_inserts (slots : list (Z * RawBlock)) (total_slots numa : Z)
    : result SealedBlock (list (Z * RawBlock)) :=
  if negb (zlen slots =? total_slots)
     || existsb (fun p => negb (p.2.1 =? p.1)) (zip (seqZ 0 (zlen slots)) slots)
  then Err slots
  else Ok (mkSealed slots.*2 (foldl (fun n s => saturating_add n (total_size s.2)) 0 slots)
             (replicate (Z.to_nat total_slots) numa) false).

(** ** Inflight blocks *)

Inductive SlotInsertResult :=
| Inserted (completed : bool) (footprint_added : Z)
| DuplicateSlot.

Record InflightBlock := mkInflight {
  ib_slots : list (option RawBlock);
  remaining : Z;
  ib_total_slots : Z;
  ib_footprint : Z;
  created_at : Z;
  ib_numas : list Z
}.

Definition inflight_new (total_slots now : Z) : InflightBlock :=
  mkInflight (replicate (Z.to_nat total_slots) None) total_slots total_slots 0 now
    (replicate (Z.to_nat total_slots) UNKNOWN_NUMA).

Definition filled_count (b : InflightBlock) : Z := u64_sub (ib_total_slots b) (remaining b).

(** [insert_slot]; [None] is an index out of range or the failed [expect]. *)
Definition insert_slot (slot_id : Z) (block : RawBlock) (numa : Z) (b : InflightBlock)
    : option (InflightBlock * SlotInsertResult) :=
  match ib_slots b !! Z.to_nat slot_id with
  | None => None
  | Some (Some _) => Some (b, DuplicateSlot)
  | Some None =>
      if remaining b <? 1 then None
      else Some (mkInflight (<[Z.to_nat slot_id := Some block]> (ib_slots b)) (remaining b - 1)
                   (ib_total_slots b) (u64_add (ib_footprint b) (total_size block)) (created_at b)
                   (<[Z.to_nat slot_id := numa]> (ib_numas b)),
                 Inserted (remaining b - 1 =? 0) (total_size block))
  end.

(** [seal]; [None] is the panic on an empty slot. *)
Definition seal (b : InflightBlock) : option SealedBlock :=
  match mapM id (ib_slots b) with
  | Some slots => Some (mkSealed slots (ib_footprint b) (ib_numas b) false)
  | None => None
  end.

(** ** Invariant *)

Definition slot_size (o : option RawBlock) : Z := match o with Some b => total_size b | None => 0 end.
Definition empties (l : list (option RawBlock)) : Z := zlen (filter (fun o => o = None) l).

(** The counters describe the slots. *)
Record inflight_ok (b : InflightBlock) : Prop := {
  if_total : 0 <= ib_total_slots b <= u64_max;
  if_slots : zlen (ib_slots b) = ib_total_slots b;
  if_numas : length (ib_numas b) = length (ib_slots b);
  if_remaining : remaining b = empties (ib_slots b);
  if_footprint : ib_footprint b = list_sum slot_size (ib_slots b);
  if_fits : list_sum slot_size (ib_slots b) <= u64_max;
  if_sizes : Forall (fun o => 0 <= slot_size o) (ib_slots b)
}.

Lemma as_slice_from_vec l : as_slice (from_vec l) = l.
Proof. by destruct l as [|? [|? [|? ?]]]. Qed.

Lemma empties_insert l i b :
  l !! i = Some None -> empties (<[i := Some b]> l) = empties l - 1.
Proof.
  intros Hi. pose proof (lookup_lt_Some _ _ _ Hi) as Hlt.
  rewrite insert_take_drop by done. unfold empties. rewrite <- (take_drop_middle l i None Hi) at 3.
  rewrite !filter_app, !filter_cons, decide_False, decide_True by done.
  rewrite !zlen_app, zlen_cons. lia.
Qed.

Lemma sizes_insert l i b :
  l !! i = Some None -> list_sum slot_size (<[i := Some b]> l) = list_sum slot_size l + total_size b.
Proof.
  intros Hi. pose proof (lookup_lt_Some _ _ _ Hi) as Hlt.
  rewrite insert_take_drop by done. rewrite <- (take_drop_middle l i None Hi) at 3.
  rewrite !list_sum_app. unfold list_sum. simpl. lia.
Qed.

Lemma empties_pos l i : l !! i = Some None -> 0 < empties l.
Proof.
  intros Hi. unfold empties. assert (None ∈ filter (fun o : option RawBlock => o = None) l) as H
    by (apply list_elem_of_filter; split; [done|by eapply list_elem_of_lookup_2]).
  destruct (filter _ l) as [|o l']; [by apply elem_of_nil in H|].
  rewrite zlen_cons. pose proof (zlen_nonneg l'). lia.
Qed.

(** A slot is filled once; the counters stay exact. *)
Lemma insert_slot_spec slot_id block numa b :
  inflight_ok b -> 0 <= slot_id < ib_total_slots b -> 0 <= total_size block ->
  ib_footprint b + total_size block <= u64_max ->
  exists b' res, insert_slot slot_id block numa b = Some (b', res) /\ inflight_ok b' /\
    ib_total_slots b' = ib_total_slots b /\ created_at b' = created_at b /\
    match ib_slots b !! Z.to_nat slot_id with
    | Some (Some _) => b' = b /\ res = DuplicateSlot
    | _ => ib_slots b' = <[Z.to_nat slot_id := Some block]> (ib_slots b) /\
           ib_numas b' = <[Z.to_nat slot_id := numa]> (ib_numas b) /\
           exists completed, res = Inserted completed (total_size block) /\
             (completed = true <-> empties (ib_slots b') = 0)
    end.
Proof.
  intros Hb Hid Hsz Hfit. pose proof (if_slots _ Hb) as Hl. unfold insert_slot.
  assert (is_Some (ib_slots b !! Z.to_nat slot_id)) as [o Ho] by (apply lookup_lt_is_Some; unfold zlen in Hl; lia).
  rewrite Ho. destruct o as [old|]; [by eauto 10|].
  pose proof (empties_pos _ _ Ho) as Hpos. rewrite <- (if_remaining _ Hb) in Hpos.
  destruct (Z.ltb_spec (remaining b) 1); [lia|].
  assert (Hnn : 0 <= ib_footprint b).
  { rewrite (if_footprint _ Hb). apply list_sum_nonneg. pose proof (if_sizes _ Hb) as Hs.
    rewrite Forall_forall in Hs. intros x Hx. apply (Hs x). done. }
  eexists _, _. split; [done|].
  assert (Hok : inflight_ok (mkInflight (<[Z.to_nat slot_id := Some block]> (ib_slots b)) (remaining b - 1)
    (ib_total_slots b) (u64_add (ib_footprint b) (total_size block)) (created_at b)
    (<[Z.to_nat slot_id := numa]> (ib_numas b)))).
  { rewrite u64_add_exact by lia. destruct Hb. split; simpl; try done.
    - unfold zlen in *. by rewrite length_insert.
    - by rewrite !length_insert.
    - rewrite (empties_insert _ _ _ Ho). lia.
    - rewrite (sizes_insert _ _ _ Ho). lia.
    - rewrite (sizes_insert _ _ _ Ho). lia.
    - by apply Forall_insert. }
  split; [exact Hok|]. do 2 (split; [done|]). do 2 (split; [done|]). eexists. split; [done|].
  rewrite <- (if_remaining _ Hok). simpl. by rewrite Z.eqb_eq.
Qed.

Lemma all_filled (l : list (option RawBlock)) :
  empties l = 0 -> exists slots, l = Some <$> slots /\ mapM id l = Some slots.
Proof.
  unfold empties. induction l as [|o l IH]; [by exists []|]. rewrite filter_cons.
  destruct (decide (o = None)); [rewrite zlen_cons; pose proof (zlen_nonneg (filter (fun o => o = None) l)); lia|].
  intros (slots & Hl & Hm)%IH. destruct o as [b|]; [|done]. exists (b :: slots).
  split; [by rewrite Hl|]. simpl. by rewrite Hm.
Qed.

(** A block without empty slots seals to exactly its slots. *)
Lemma seal_full b :
  empties (ib_slots b) = 0 ->
  exists slots, ib_slots b = Some <$> slots /\ seal b = Some (mkSealed slots (ib_footprint b) (ib_numas b) false).
Proof.
  intros (slots & Hs & Hm)%all_filled. exists slots. split; [done|]. unfold seal. by rewrite Hm.
Qed.

Lemma empties_replicate n : empties (replicate n None) = Z.of_nat n.
Proof.
  unfold empties. induction n as [|n IH]; [done|]. cbn [replicate].
  rewrite filter_cons, decide_True, zlen_cons by done. lia.
Qed.

Lemma inflight_new_ok total now : 0 <= total <= u64_max -> inflight_ok (inflight_new total now).
Proof.
  intros Ht. unfold inflight_new. split; simpl.
  - done.
  - unfold zlen. rewrite length_replicate. lia.
  - by rewrite !length_replicate.
  - rewrite empties_replicate. lia.
  - induction (Z.to_nat total); [done|]. simpl. unfold list_sum in *. simpl. lia.
  - assert (list_sum slot_size (replicate (Z.to_nat total) None) = 0) as ->; [|lia].
    induction (Z.to_nat total); [done|]. simpl. unfold list_sum in *. simpl. lia.
  - by apply Forall_replicate.
Qed.
