(* ===== verification/Publish.v ===== *)
(** * The publication worker

    [orbitkv-core/src/storage/publish.rs]: saved layers are grouped by block, collected in inflight
    blocks and sealed when all slots are there.  The worker's queue serialises commands; what it
    hands to the DRAM and SSD stores is the list of sealed blocks. *)
From S2P Require Import Prelude Containers State Blocks.

Local Open Scope Z_scope.

Abbreviation InsertEntries := (list (StateKey * list (Z * RawBlock))).

Record RawSaveLayer := mkLayer {
  slot_id : Z;
  padded_block_size : Z;
  layer_blocks : list RawBlock;
  block_hashes : list bytes
}.

Record RawSaveBatch := mkBatch {
  batch_namespace : bytes;
  batch_total_slots : Z;
  batch_numa : Z;
  layers : list RawSaveLayer
}.

Definition can_use_ordered_fast_path (ls : list RawSaveLayer) : bool :=
  match ls with
  | [] => false
  | first :: _ => forallb (fun l => bool_decide (block_hashes l = block_hashes first)) ls
  end.

(** One layer's blocks are pushed onto the per-block lists; [None] is an index out of range. *)
Fixpoint push_layer (sid : Z) (blocks : list RawBlock) (acc : list (list (Z * RawBlock)))
    : option (list (list (Z * RawBlock))) :=
  match blocks, acc with
  | [], _ => Some acc
  | _ :: _, [] => None
  | b :: blocks, slots :: acc =>
      match push_layer sid blocks acc with
      | Some acc => Some ((slots ++ [(sid, b)]) :: acc)
      | None => None
      end
  end.

Fixpoint push_layers (ls : list RawSaveLayer) (acc : list (list (Z * RawBlock)))
    : option (list (list (Z * RawBlock))) :=
  match ls with
  | [] => Some acc
  | l :: ls => match push_layer (slot_id l) (layer_blocks l) acc with
               | Some acc => push_layers ls acc
               | None => None
               end
  end.

Definition build_ordered_insert_entries (ns : bytes) (ls : list RawSaveLayer) : option InsertEntries :=
  let hashes := match ls with [] => [] | first :: _ => block_hashes first end in
  match push_layers ls (replicate (length hashes) []) with
  | None => None
  | Some per_block => Some (zip_with (fun h slots => (mkStateKey ns h, slots)) hashes per_block)
  end.

(** The entry of a hash map that is pushed to. *)
Definition push_entry (sid : Z) (m : gmap bytes (list (Z * RawBlock))) (p : RawBlock * bytes)
    : gmap bytes (list (Z * RawBlock)) :=
  <[p.2 := default [] (m !! p.2) ++ [(sid, p.1)]]> m.

Definition hash_entries (ls : list RawSaveLayer) : gmap bytes (list (Z * RawBlock)) :=
  foldl (fun m l => foldl (push_entry (slot_id l)) m (zip (layer_blocks l) (block_hashes l))) ∅ ls.

(** The iteration order of the hash map is unspecified. *)
Definition build_hashed_insert_entries (ns : bytes) (ls : list RawSaveLayer) : InsertEntries :=
  (fun p => (mkStateKey ns p.1, p.2)) <$> map_to_list (hash_entries ls).

(** The entries, with the bytes and the blocks that the batch counts. *)
Definition build_insert_entries (b : RawSaveBatch) : option (InsertEntries * Z * Z) :=
  let total_blocks := foldl (fun n l => u64_add n (zlen (block_hashes l))) 0 (layers b) in
  let total_bytes := foldl (fun n l => u64_add n
    (saturating_mul (padded_block_size l) (zlen (block_hashes l)))) 0 (layers b) in
  let entries :=
    if can_use_ordered_fast_path (layers b)
    then build_ordered_insert_entries (batch_namespace b) (layers b)
    else Some (build_hashed_insert_entries (batch_namespace b) (layers b)) in
  match entries with Some es => Some (es, total_bytes, total_blocks) | None => None end.

(** ** The worker *)

Abbreviation Inflight := (gmap StateKey InflightBlock).

(** The slot loop; [None] is a panic. *)
Fixpoint insert_slots (slots : list (Z * RawBlock)) (numa : Z) (b : InflightBlock) (added : Z)
    : option (InflightBlock * bool * Z) :=
  match slots with
  | [] => Some (b, false, added)
  | (sid, raw) :: rest =>
      match insert_slot sid raw numa b with
      | None => None
      | Some (b, Inserted completed n) =>
          let added := saturating_add added n in
          if completed then Some (b, true, added) else insert_slots rest numa b added
      | Some (b, DuplicateSlot) => insert_slots rest numa b added
      end
  end.

Record Progress := mkProgress {
  inflight : Inflight;
  sealed_blocks : list (StateKey * SealedBlock);
  bytes_added : Z;
  bytes_removed : Z;
  fast_seals : Z
}.

Definition insert_partial_slots (now : Z) (k : StateKey) (slots : list (Z * RawBlock))
    (total_slots numa : Z) (p : Progress) : option Progress :=
  let b := default (inflight_new total_slots now) (inflight p !! k) in
  if negb (ib_total_slots b =? total_slots) then Some p
  else
    match insert_slots slots numa b (bytes_added p) with
    | None => None
    | Some (b, completed, added) =>
        if completed then
          match seal b with
          | None => None
          | Some sealed =>
              Some (mkProgress (delete k (inflight p)) (sealed_blocks p ++ [(k, sealed)]) added
                      (saturating_add (bytes_removed p) (ib_footprint b)) (fast_seals p))
          end
        else Some (mkProgress (<[k := b]> (inflight p)) (sealed_blocks p) added (bytes_removed p)
                     (fast_seals p))
    end.

(** The loop of [PublishWorker::insert]; [resident] is [dram.contains_keys]. *)
Fixpoint worker_insert (resident : StateKey -> bool) (now : Z) (entries : InsertEntries)
    (total_slots numa : Z) (p : Progress) : option Progress :=
  match entries with
  | [] => Some p
  | (k, slots) :: rest =>
      if resident k then worker_insert resident now rest total_slots numa p
      else
        match inflight p !! k with
        | Some _ =>
            match insert_partial_slots now k slots total_slots numa p with
            | Some p => worker_insert resident now rest total_slots numa p
            | None => None
            end
        | None =>
            match from_ordered_slot_inserts slots total_slots numa with
            | Ok sealed =>
                worker_insert resident now rest total_slots numa
                  (mkProgress (inflight p) (sealed_blocks p ++ [(k, sealed)]) (bytes_added p)
                     (bytes_removed p) (u64_add (fast_seals p) 1))
            | Err slots =>
                match insert_partial_slots now k slots total_slots numa p with
                | Some p => worker_insert resident now rest total_slots numa p
                | None => None
                end
            end
        end
  end.

(** [save]: the blocks that go to the stores, and the new inflight table. *)
Definition save (resident : StateKey -> bool) (now : Z) (b : RawSaveBatch) (m : Inflight)
    : option (Inflight * list (StateKey * SealedBlock)) :=
  match build_insert_entries b with
  | None => None
  | Some (entries, _, _) =>
      match worker_insert resident now entries (batch_total_slots b) (batch_numa b)
              (mkProgress m [] 0 0 0) with
      | Some p => Some (inflight p, sealed_blocks p)
      | None => None
      end
  end.

(** [gc_inflight] at [now]: the table and the number of removed blocks. *)
Definition gc_inflight (now max_age : Z) (m : Inflight) : Inflight * Z :=
  let kept := filter (fun p : StateKey * InflightBlock => now - created_at p.2 <= max_age) m in
  (kept, Z.of_nat (size m) - Z.of_nat (size kept)).

(** ** Collecting slots *)

(** What a slot list becomes when a batch arrives: the first block for a slot stays. *)
Definition merged (old : list (option RawBlock)) (slots : list (Z * RawBlock)) (i : nat) : option RawBlock :=
  match old !! i with
  | Some (Some b) => Some b
  | _ => snd <$> (snd <$> list_find (fun p => Z.to_nat p.1 = i) slots)
  end.

Definition slots_ok (total : Z) (slots : list (Z * RawBlock)) : Prop :=
  Forall (fun p => 0 <= p.1 < total /\ 0 <= total_size p.2) slots.

Lemma list_find_cons_ne {A} (P : A -> Prop) `{forall x, Decision (P x)} x l :
  ~ P x -> snd <$> list_find P (x :: l) = snd <$> list_find P l.
Proof. intros Hx. simpl. rewrite decide_False by done. by destruct (list_find P l) as [[]|]. Qed.

Lemma merged_cons_new old sid b rest i :
  old !! Z.to_nat sid = Some None ->
  merged old ((sid, b) :: rest) i = merged (<[Z.to_nat sid := Some b]> old) rest i.
Proof.
  intros Ho. pose proof (lookup_lt_Some _ _ _ Ho). unfold merged. destruct (decide (Z.to_nat sid = i)) as [<-|Hne].
  - rewrite Ho, list_lookup_insert_eq by done. simpl. by rewrite decide_True.
  - rewrite list_lookup_insert_ne by done. destruct (old !! i) as [[]|]; [done|..]; by rewrite list_find_cons_ne.
Qed.

Lemma merged_cons_dup old sid b rest c i :
  old !! Z.to_nat sid = Some (Some c) -> merged old ((sid, b) :: rest) i = merged old rest i.
Proof.
  intros Ho. unfold merged. destruct (decide (Z.to_nat sid = i)) as [<-|Hne]; [by rewrite Ho|].
  destruct (old !! i) as [[]|]; [done|..]; by rewrite list_find_cons_ne.
Qed.

Lemma full_merged old slots i :
  empties old = 0 -> (i < length old)%nat -> merged old slots i = old !! i ≫= id.
Proof.
  intros He Hi. unfold merged. assert (is_Some (old !! i)) as [o Ho] by (by apply lookup_lt_is_Some).
  rewrite Ho. destruct o as [b|]; [done|]. apply empties_pos in Ho. lia.
Qed.

(** The slot loop computes the merge, and says whether the block is complete. *)
Lemma insert_slots_spec slots numa b added :
  inflight_ok b -> slots_ok (ib_total_slots b) slots -> empties (ib_slots b) <> 0 ->
  ib_footprint b + list_sum (fun p => total_size p.2) slots <= u64_max ->
  exists b' completed added', insert_slots slots numa b added = Some (b', completed, added') /\
    inflight_ok b' /\ ib_total_slots b' = ib_total_slots b /\
    (forall i, (i < length (ib_slots b))%nat -> ib_slots b' !! i ≫= id = merged (ib_slots b) slots i) /\
    (completed = true <-> empties (ib_slots b') = 0) /\
    (forall i c, ib_slots b !! i = Some (Some c) -> ib_numas b' !! i = ib_numas b !! i) /\
    (forall i, ib_slots b !! i = Some None -> is_Some (ib_slots b' !! i ≫= id) -> ib_numas b' !! i = Some numa).
Proof.
  revert b added. induction slots as [|[sid raw] slots IH]; intros b added Hb Hs He Hf; simpl.
  { exists b, false, added. split_and!; try done.
    - intros i Hi. unfold merged.
      assert (is_Some (ib_slots b !! i)) as [o ->] by (by apply lookup_lt_is_Some). by destruct o.
    - intros i ->. by intros [? ?]. }
  apply Forall_cons in Hs as [[Hid Hsz] Hs]. simpl in Hid, Hsz.
  assert (Hrest : 0 <= list_sum (fun p => total_size p.2) slots).
  { apply list_sum_nonneg. intros p Hp. unfold slots_ok in Hs. rewrite Forall_forall in Hs. by apply Hs. }
  unfold list_sum in Hf. simpl in Hf. fold (list_sum (fun p : Z * RawBlock => total_size p.2) slots) in Hf.
  destruct (insert_slot_spec sid raw numa b Hb Hid Hsz) as (b1 & res & Heq & Hb1 & Ht1 & _ & Hcase); [lia|].
  rewrite Heq. destruct (ib_slots b !! Z.to_nat sid) as [[c|]|] eqn:Eo.
  - destruct Hcase as [-> ->]. destruct (IH b added) as (b' & c' & a' & -> & ? & ? & Hm & ? & ? & ?); try done; [lia|].
    exists b', c', a'. split_and!; try done. intros i Hi. rewrite Hm by done. by erewrite merged_cons_dup.
  - destruct Hcase as (Hs1 & Hn1 & completed & -> & Hc). destruct completed.
    + exists b1, true, (saturating_add added (total_size raw)). split_and!; try done.
      * intros i Hi. rewrite merged_cons_new, <- Hs1 by done. symmetry. apply full_merged; [by apply Hc|].
        rewrite Hs1, length_insert. done.
      * rewrite Hn1. intros i c Hi. rewrite list_lookup_insert_ne; [done|]. intros <-. congruence.
      * rewrite Hs1, Hn1. intros i Hi. destruct (decide (i = Z.to_nat sid)) as [->|Hne].
        -- intros _. apply list_lookup_insert_eq. rewrite (if_numas _ Hb). by eapply lookup_lt_Some.
        -- rewrite list_lookup_insert_ne by done. rewrite Hi. by intros [? ?].
    + destruct (IH b1 (saturating_add added (total_size raw))) as (b' & c' & a' & -> & ? & ? & Hm & ? & Hkeep & Hnum); try done.
      * by rewrite Ht1.
      * intros Hz. by apply Hc in Hz.
      * rewrite (if_footprint _ Hb1), Hs1, (sizes_insert _ _ _ Eo), <- (if_footprint _ Hb). lia.
      * exists b', c', a'. split_and!; try done; [congruence| | |].
        -- intros i Hi. rewrite Hm by (by rewrite Hs1, length_insert). rewrite Hs1. symmetry. by apply merged_cons_new.
        -- intros i c Hi. rewrite (Hkeep i c), Hn1; rewrite ?Hs1, list_lookup_insert_ne; try done; congruence.
        -- intros i Hi Hsome. destruct (decide (i = Z.to_nat sid)) as [->|Hne].
           ++ pose proof (lookup_lt_Some _ _ _ Eo). rewrite (Hkeep _ raw), Hn1 by (by rewrite Hs1, list_lookup_insert_eq).
              apply list_lookup_insert_eq. by rewrite (if_numas _ Hb).
           ++ apply Hnum; [|done]. by rewrite Hs1, list_lookup_insert_ne.
  - apply lookup_ge_None in Eo. pose proof (if_slots _ Hb). unfold zlen in *. lia.
Qed.

(** ** The inflight table *)

(** Inflight blocks are consistent and still miss a slot. *)
Definition table_ok (m : Inflight) : Prop :=
  forall k b, m !! k = Some b -> inflight_ok b /\ empties (ib_slots b) <> 0.

(** The slots of a block before a batch. *)
Definition old_slots (m : Inflight) (k : StateKey) (total : Z) : list (option RawBlock) :=
  match m !! k with Some b => ib_slots b | None => replicate (Z.to_nat total) None end.

Lemma empties_find l : empties l <> 0 -> exists i, l !! i = Some None.
Proof.
  unfold empties. destruct (filter _ l) as [|o l'] eqn:E; [done|]. intros _.
  assert (Hin : o ∈ filter (fun o => o = None) l) by (rewrite E; left).
  apply list_elem_of_filter in Hin as [-> Hin]. by apply list_elem_of_lookup in Hin.
Qed.

Lemma empties_zero l i : empties l = 0 -> (i < length l)%nat -> is_Some (l !! i ≫= id).
Proof.
  intros He Hi. assert (is_Some (l !! i)) as [o Ho] by (by apply lookup_lt_is_Some).
  rewrite Ho. destruct o as [b|]; [by eexists|]. apply empties_pos in Ho. lia.
Qed.

(** C39. A block is published exactly when its last missing slot arrives, with exactly the slots
    that were saved for it.  For slots in range of the batch's slot count, the worker never panics and leaves
    other blocks untouched.  A batch that announces another slot count than the inflight block has is dropped whole.  Otherwise,
    a batch that completes the block publishes a block with one raw block
    per slot, the first one that was ever saved for that slot, and its total size, and forgets the
    inflight block; a batch that does not publishes nothing and keeps precisely what has been collected. *)
Theorem partial_slots_collect now k slots total numa p :
  table_ok (inflight p) -> 0 < total <= u64_max -> slots_ok total slots ->
  let old := old_slots (inflight p) k total in
  list_sum slot_size old + list_sum (fun s => total_size s.2) slots <= u64_max ->
  exists p', insert_partial_slots now k slots total numa p = Some p' /\ table_ok (inflight p') /\
    (forall k', k' <> k -> inflight p' !! k' = inflight p !! k') /\
    if bool_decide (zlen old = total) then
      ((forall i, (i < Z.to_nat total)%nat -> is_Some (merged old slots i)) /\ inflight p' !! k = None /\
        exists sb, sealed_blocks p' = sealed_blocks p ++ [(k, sb)] /\ zlen (sb_slots sb) = total /\
          (forall i, (i < Z.to_nat total)%nat -> sb_slots sb !! i = merged old slots i) /\
          footprint sb = list_sum total_size (sb_slots sb)) \/
      ((exists i, (i < Z.to_nat total)%nat /\ merged old slots i = None) /\ sealed_blocks p' = sealed_blocks p /\
        exists b', inflight p' !! k = Some b' /\
          forall i, (i < Z.to_nat total)%nat -> ib_slots b' !! i = Some (merged old slots i))
    else p' = p.
Proof.
  intros Hm Ht Hs old Hfit. unfold insert_partial_slots.
  set (b := default (inflight_new total now) (inflight p !! k)).
  assert (Hb : inflight_ok b /\ empties (ib_slots b) <> 0 /\ ib_slots b = old).
  { subst b old. unfold old_slots. destruct (inflight p !! k) as [b|] eqn:Ek; simpl.
    - destruct (Hm k b Ek). auto.
    - split_and!; [apply inflight_new_ok; lia|rewrite empties_replicate; lia|done]. }
  clearbody b. destruct Hb as (Hb & He & Hold). assert (zlen old = ib_total_slots b) as Hzl by (rewrite <- Hold; apply Hb).
  rewrite Hzl. destruct (Z.eqb_spec (ib_total_slots b) total) as [Htb|Hne]; cbn [negb]; [rewrite bool_decide_true by done|by rewrite bool_decide_false by done; exists p].
  destruct (insert_slots_spec slots numa b (bytes_added p)) as (b' & completed & added' & -> & Hb' & Ht' & Hmer & Hc & _).
  { done. } { by rewrite Htb. } { done. } { rewrite (if_footprint _ Hb), Hold. done. }
  assert (Hlen : length (ib_slots b) = Z.to_nat total).
  { pose proof (if_slots _ Hb). unfold zlen in *. lia. }
  assert (Hlen' : length (ib_slots b') = Z.to_nat total).
  { pose proof (if_slots _ Hb'). unfold zlen in *. lia. }
  rewrite Hold, <- Hlen in *. destruct completed.
  - assert (Hz : empties (ib_slots b') = 0) by (by apply Hc).
    destruct (seal_full b' Hz) as (raws & Hraws & ->). eexists. split; [done|]. simpl.
    split; [by intros k' x [_ ?]%lookup_delete_Some; apply (Hm k')|].
    split; [by intros k' ?; rewrite lookup_delete_ne|]. left.
    split; [by intros i Hi; rewrite <- Hmer by lia; apply empties_zero; [|lia]|]. split; [apply lookup_delete_eq|].
    eexists. split; [done|]. simpl. split_and!.
    + unfold zlen. rewrite <- (length_fmap Some), <- Hraws. lia.
    + intros i Hi. rewrite <- Hmer by lia. rewrite Hraws, list_lookup_fmap. by destruct (raws !! i).
    + rewrite (if_footprint _ Hb'), Hraws. clear. induction raws as [|x raws IH]; [done|].
      rewrite fmap_cons. unfold list_sum in *. cbn [foldr fmap slot_size] in *. simpl in *. lia.
  - assert (Hnz : empties (ib_slots b') <> 0) by (intros Hz; by apply Hc in Hz).
    eexists. split; [done|]. simpl. split.
    { intros k' x. rewrite lookup_insert_Some. intros [[<- <-]|[_ ?]]; [done|by apply (Hm k')]. }
    split; [by intros k' ?; rewrite lookup_insert_ne|]. right.
    assert (Hall : forall i, (i < length old)%nat -> ib_slots b' !! i = Some (merged old slots i)).
    { intros i Hi. rewrite <- Hmer by done. assert (is_Some (ib_slots b' !! i)) as [o Ho] by (apply lookup_lt_is_Some; lia).
      by rewrite Ho. }
    split; [|split; [done|exists b'; split; [apply lookup_insert_eq|done]]].
    apply empties_find in Hnz as [i Hi]. pose proof (lookup_lt_Some _ _ _ Hi). exists i. split; [lia|].
    rewrite Hall in Hi by lia. by injection Hi.
Qed.

(** ** The fast seal *)

Lemma ordered_lookup slots total numa sb i p :
  from_ordered_slot_inserts slots total numa = Ok sb -> slots !! i = Some p -> p.1 = Z.of_nat i.
Proof.
  unfold from_ordered_slot_inserts. destruct (negb _); [done|]. simpl.
  destruct (existsb _ _) eqn:Ex; [done|]. intros _ Hi. apply dec_stable. intros Hne.
  apply not_true_iff_false in Ex. apply Ex, existsb_exists. exists (Z.of_nat i, p). split.
  - apply list_elem_of_In, (list_elem_of_lookup_2 _ i). rewrite lookup_zip_with_Some. exists (Z.of_nat i), p.
    split_and!; [done| |done]. apply lookup_seqZ. apply lookup_lt_Some in Hi. unfold zlen. lia.
  - simpl. apply negb_true_iff, Z.eqb_neq. done.
Qed.

Lemma ordered_Ok slots total numa sb :
  from_ordered_slot_inserts slots total numa = Ok sb ->
  zlen slots = total /\ sb = mkSealed slots.*2 (foldl (fun n s => saturating_add n (total_size s.2)) 0 slots)
                               (replicate (Z.to_nat total) numa) false.
Proof.
  unfold from_ordered_slot_inserts. destruct (Z.eqb_spec (zlen slots) total); [|done]. simpl.
  destruct (existsb _ _); [done|]. by intros [= <-].
Qed.

Lemma saturating_sum (l : list (Z * RawBlock)) n :
  0 <= n -> Forall (fun s => 0 <= total_size s.2) l -> n + list_sum (fun s => total_size s.2) l <= u64_max ->
  foldl (fun n s => saturating_add n (total_size s.2)) n l = n + list_sum (fun s => total_size s.2) l.
Proof.
  intros Hn Hl. revert n Hn. induction Hl as [|s l Hs Hl IH]; intros n Hn Hb; simpl; [unfold list_sum; simpl; lia|].
  assert (0 <= list_sum (fun s => total_size s.2) l)
    by (apply list_sum_nonneg; intros x Hx; rewrite Forall_forall in Hl; by apply Hl).
  unfold list_sum in Hb |- *. simpl in *. fold (list_sum (fun s : Z * RawBlock => total_size s.2) l) in *.
  unfold saturating_add at 2. rewrite Z.min_l, IH by lia. lia.
Qed.

(** The fast seal is only a shortcut: whenever [from_ordered_slot_inserts] accepts a batch for
    a block that is not inflight, inserting the same batch slot by slot publishes the identical
    block (slots, footprint and NUMA nodes) and leaves the inflight table as it was. *)
Theorem fast_seal_equivalent now k slots total numa p sb :
  from_ordered_slot_inserts slots total numa = Ok sb -> 0 < total <= u64_max ->
  Forall (fun s => 0 <= total_size s.2) slots -> list_sum (fun s => total_size s.2) slots <= u64_max ->
  inflight p !! k = None ->
  exists p', insert_partial_slots now k slots total numa p = Some p' /\
    sealed_blocks p' = sealed_blocks p ++ [(k, sb)] /\ inflight p' = inflight p.
Proof.
  intros Hord Ht Hsz Hsum Hk. pose proof (ordered_Ok _ _ _ _ Hord) as [Hlen ->].
  assert (Hids : forall i x, slots !! i = Some x -> x.1 = Z.of_nat i) by (intros i x; by eapply ordered_lookup).
  unfold insert_partial_slots. rewrite Hk. simpl. rewrite Z.eqb_refl. simpl.
  assert (Hok : slots_ok total slots).
  { apply Forall_lookup. intros i x Hx. rewrite (Hids i x Hx). pose proof (lookup_lt_Some _ _ _ Hx).
    split; [unfold zlen in Hlen; lia|by apply (Forall_lookup_1 (fun s => 0 <= total_size s.2) slots i x)]. }
  destruct (insert_slots_spec slots numa (inflight_new total now) (bytes_added p))
    as (b' & completed & added' & -> & Hb' & Htb & Hmer & Hc & _ & Hnum).
  { apply inflight_new_ok. lia. } { done. } { simpl. rewrite empties_replicate. lia. } { simpl. done. }
  simpl in *. rewrite length_replicate in Hmer.
  assert (Hfound : forall i x, slots !! i = Some x -> ib_slots b' !! i = Some (Some x.2)).
  { intros i x Hx. pose proof (lookup_lt_Some _ _ _ Hx) as Hlt.
    assert (Hm : ib_slots b' !! i ≫= id = Some x.2).
    { rewrite Hmer by (unfold zlen in Hlen; lia). unfold merged.
      rewrite lookup_replicate_2 by (unfold zlen in Hlen; lia).
      rewrite (proj2 (list_find_Some _ slots i x)); [done|]. split_and!; [done|rewrite (Hids i x Hx); lia|].
      intros j y Hy Hj. rewrite (Hids j y Hy). lia. }
    destruct (ib_slots b' !! i) as [o|]; [|done]. simpl in Hm. unfold id in Hm. by subst o. }
  assert (Hl' : length (ib_slots b') = length slots) by (pose proof (if_slots _ Hb'); unfold zlen in *; lia).
  assert (Hs' : ib_slots b' = Some <$> slots.*2).
  { apply list_eq. intros i. rewrite !list_lookup_fmap. destruct (slots !! i) as [x|] eqn:Ex; [by apply Hfound|].
    apply lookup_ge_None in Ex. apply lookup_ge_None. lia. }
  assert (He : empties (ib_slots b') = 0).
  { apply dec_stable. intros [i Hi]%empties_find. rewrite Hs', list_lookup_fmap in Hi.
    by destruct (slots.*2 !! i). }
  rewrite (proj2 Hc He). destruct (seal_full b' He) as (raws & Hraws & ->).
  eexists. split; [done|]. simpl. rewrite delete_id by done. split; [|done]. repeat f_equal.
  - rewrite Hs' in Hraws. by apply list_fmap_eq_inj in Hraws; [|intros ? ? [= ->]].
  - rewrite saturating_sum by (done || lia). rewrite (if_footprint _ Hb'), Hs'. clear.
    induction slots as [|x l IH]; [done|]. rewrite !fmap_cons. unfold list_sum in *. simpl in *. lia.
  - apply list_eq. intros i. destruct (decide (i < Z.to_nat total)%nat) as [Hi|Hi].
    + rewrite lookup_replicate_2 by done. apply Hnum; [by apply lookup_replicate_2|].
      apply empties_zero; [done|]. unfold zlen in Hlen. lia.
    + rewrite !(proj2 (lookup_ge_None _ _)); [done|rewrite length_replicate; lia|].
      rewrite (if_numas _ Hb'). unfold zlen in Hlen. lia.
Qed.

(** ** Grouping *)

(** The blocks that the layers save at one position. *)
Definition column (ls : list RawSaveLayer) (i : nat) : list (Z * RawBlock) :=
  omap (fun l => (fun b => (slot_id l, b)) <$> layer_blocks l !! i) ls.

Lemma push_layer_spec sid blocks acc :
  length blocks = length acc ->
  push_layer sid blocks acc = Some (zip_with (fun slots b => slots ++ [(sid, b)]) acc blocks).
Proof.
  revert acc. induction blocks as [|b blocks IH]; intros [|slots acc] Hl; simpl in *; try done.
  rewrite IH by lia. done.
Qed.

Lemma push_layers_spec ls acc n :
  length acc = n -> Forall (fun l => length (layer_blocks l) = n) ls ->
  exists acc', push_layers ls acc = Some acc' /\ length acc' = n /\
    forall i slots, acc !! i = Some slots -> acc' !! i = Some (slots ++ column ls i).
Proof.
  intros Hacc Hls. revert acc Hacc. induction Hls as [|l ls Hl Hls IH]; intros acc Hacc; simpl.
  { exists acc. split_and!; try done. intros i slots ->. by rewrite app_nil_r. }
  rewrite push_layer_spec by lia.
  destruct (IH (zip_with (fun slots b => slots ++ [(slot_id l, b)]) acc (layer_blocks l))) as (acc' & -> & Hl' & Hlk).
  { rewrite length_zip_with. lia. }
  exists acc'. split_and!; try done. intros i slots Hi. pose proof (lookup_lt_Some _ _ _ Hi).
  assert (is_Some (layer_blocks l !! i)) as [b Hb] by (apply lookup_lt_is_Some; lia).
  rewrite (Hlk i (slots ++ [(slot_id l, b)])).
  - unfold column. simpl. rewrite Hb. simpl. by rewrite <- app_assoc.
  - rewrite lookup_zip_with, Hi, Hb. done.
Qed.

Lemma push_entries_spec sid m (blocks : list RawBlock) (hashes : list bytes) h :
  NoDup hashes -> length blocks = length hashes ->
  foldl (push_entry sid) m (zip blocks hashes) !! h =
    match list_find (fun x => x = h) hashes with
    | Some (i, _) => match blocks !! i with Some b => Some (default [] (m !! h) ++ [(sid, b)]) | None => m !! h end
    | None => m !! h
    end.
Proof.
  intros Hnd. revert m blocks. induction Hnd as [|x hashes Hx Hnd IH]; intros m [|b blocks] Hl; simpl in *; try done.
  rewrite IH by lia. unfold push_entry. simpl. destruct (decide (x = h)) as [->|Hne].
  - rewrite lookup_insert_eq. destruct (list_find (fun x => x = h) hashes) as [[i y]|] eqn:E; [|done].
    apply list_find_Some in E as (Hi & -> & _). by apply list_elem_of_lookup_2 in Hi.
  - rewrite lookup_insert_ne by done. by destruct (list_find (fun x => x = h) hashes) as [[i y]|].
Qed.

(** The hash map holds the same columns. *)
Lemma hash_entries_spec hashes ls i h :
  NoDup hashes -> hashes !! i = Some h ->
  Forall (fun l => block_hashes l = hashes /\ length (layer_blocks l) = length hashes) ls -> ls <> [] ->
  hash_entries ls !! h = Some (column ls i).
Proof.
  intros Hnd Hi Hls Hne.
  assert (Hfind : list_find (fun x => x = h) hashes = Some (i, h)).
  { apply list_find_Some. split_and!; [done..|]. intros j y Hy Hj ->.
    pose proof (NoDup_lookup _ _ _ _ Hnd Hi Hy). lia. }
  assert (Hgo : forall m, foldl (fun m l => foldl (push_entry (slot_id l)) m (zip (layer_blocks l) (block_hashes l))) m ls !! h =
    Some (default [] (m !! h) ++ column ls i) \/ ls = []); [|by destruct (Hgo ∅) as [Hg|]; [rewrite lookup_empty in Hg|]].
  clear Hne. induction Hls as [|l ls [Hh Hb] Hls IH]; intros m; [by right|]. left. simpl. rewrite Hh in *.
  assert (is_Some (layer_blocks l !! i)) as [b Hlb] by (apply lookup_lt_is_Some; apply lookup_lt_Some in Hi; lia).
  set (m' := foldl (push_entry (slot_id l)) m (zip (layer_blocks l) hashes)).
  assert (Hm' : m' !! h = Some (default [] (m !! h) ++ [(slot_id l, b)])).
  { unfold m'. rewrite push_entries_spec by (done || lia). by rewrite Hfind, Hlb. }
  unfold column. simpl. rewrite Hlb. simpl. fold (column ls i).
  destruct (IH m') as [->| ->].
  - rewrite Hm'. simpl. by rewrite <- app_assoc.
  - simpl. by rewrite Hm'.
Qed.

Lemma hash_entries_None hashes ls h :
  h ∉ hashes -> Forall (fun l => block_hashes l = hashes) ls -> hash_entries ls !! h = None.
Proof.
  intros Hh Hls. unfold hash_entries.
  assert (Hgo : forall m : gmap bytes (list (Z * RawBlock)), m !! h = None ->
    foldl (fun m l => foldl (push_entry (slot_id l)) m (zip (layer_blocks l) (block_hashes l))) m ls !! h = None);
    [|by apply Hgo, lookup_empty].
  induction Hls as [|l ls Hl Hls IH]; intros m Hm; simpl; [done|]. apply IH. rewrite Hl. clear -Hh Hm.
  revert m Hm. generalize (layer_blocks l). induction hashes as [|x hashes IH]; intros [|b bs] m Hm; simpl; try done.
  apply not_elem_of_cons in Hh as [? ?]. apply IH; [done|]. unfold push_entry. simpl. by rewrite lookup_insert_ne.
Qed.

(** Grouping the saved layers block by block without a hash map is equivalent to the general
    grouping: when all layers save the same distinct hashes, both give every block the same slots
    in the same order, and only the order of the blocks may differ; the ordered path does not
    panic. *)
Theorem ordered_grouping_equivalent ns hashes ls :
  NoDup hashes -> ls <> [] ->
  Forall (fun l => block_hashes l = hashes /\ length (layer_blocks l) = length hashes) ls ->
  can_use_ordered_fast_path ls = true /\
  exists es, build_ordered_insert_entries ns ls = Some es /\ Permutation es (build_hashed_insert_entries ns ls).
Proof.
  intros Hnd Hne Hls. split.
  { unfold can_use_ordered_fast_path. destruct ls as [|l ls]; [done|].
    apply forallb_forall. intros x Hx%list_elem_of_In. apply bool_decide_eq_true.
    rewrite Forall_forall in Hls. destruct (Hls x Hx) as [-> _]. destruct (Hls l ltac:(left)) as [-> _]. done. }
  unfold build_ordered_insert_entries.
  replace (match ls with [] => [] | first :: _ => block_hashes first end) with hashes.
  2:{ destruct ls as [|l ls]; [done|]. by apply Forall_cons in Hls as [[-> _] _]. }
  destruct (push_layers_spec ls (replicate (length hashes) []) (length hashes)) as (acc & -> & Hl & Hlk).
  { apply length_replicate. } { eapply Forall_impl; [exact Hls|]. by intros l []. }
  assert (Hacc : forall i h, hashes !! i = Some h -> acc !! i = Some (column ls i)).
  { intros i h Hi. apply (Hlk i []). apply lookup_replicate_2. by eapply lookup_lt_Some. }
  eexists. split; [done|]. apply NoDup_Permutation.
  - apply NoDup_fmap_1 with (f := fun p : StateKey * list (Z * RawBlock) => hash p.1).
    replace ((fun p : StateKey * list (Z * RawBlock) => hash p.1) <$> _) with hashes; [done|].
    clear -Hl. revert acc Hl. induction hashes as [|h hashes IH]; intros [|a acc] Hl; simpl in *; try done.
    f_equal. apply IH. lia.
  - unfold build_hashed_insert_entries. apply NoDup_fmap_2; [by intros [] [] [= -> ->]|apply NoDup_map_to_list].
  - intros [k slots]. unfold build_hashed_insert_entries. rewrite list_elem_of_fmap. split.
    + intros [i Hi]%list_elem_of_lookup. apply lookup_zip_with_Some in Hi as (h & sl & [= -> ->] & Hh & Hsl).
      rewrite (Hacc i h Hh) in Hsl. injection Hsl as <-. exists (h, column ls i). split; [done|].
      apply elem_of_map_to_list. by apply (hash_entries_spec hashes).
    + intros ([h sl] & [= -> ->] & Hin%elem_of_map_to_list). destruct (decide (h ∈ hashes)) as [Hh|Hh].
      * apply list_elem_of_lookup in Hh as [i Hi]. rewrite (hash_entries_spec hashes ls i h) in Hin by done.
        injection Hin as <-. apply (list_elem_of_lookup_2 _ i), lookup_zip_with_Some. eauto 6.
      * rewrite (hash_entries_None hashes) in Hin; [done..|]. eapply Forall_impl; [exact Hls|]. by intros l [].
Qed.

(** ** Witnesses *)

Definition sample_raw (n : Z) : RawBlock := single_segment (mkPinned n n (mkAllocation 1 1 n 0 n)).
Definition sample_block : StateKey := mkStateKey (str "ns") (str "h1").

(** A first slot of two is kept; a batch that counts four slots is then dropped. *)
Definition sample_progress : Progress := mkProgress ∅ [] 0 0 0.
Definition sample_collected : Progress :=
  mkProgress {[sample_block := mkInflight [None; Some (sample_raw 8)] 1 2 8 7 [0; 0]]} [] 8 0 0.
Lemma partial_slots_collect_witness :
  (exists p', insert_partial_slots 7 sample_block [(1, sample_raw 8)] 2 0 sample_progress = Some p' /\ sealed_blocks p' = [] /\ table_ok (inflight p')) /\
  (exists p', insert_partial_slots 7 sample_block [(0, sample_raw 8)] 4 0 sample_collected = Some p' /\ p' = sample_collected).
Proof.
  split.
  - destruct (partial_slots_collect 7 sample_block [(1, sample_raw 8)] 2 0 sample_progress) as (p' & Hp' & Htab & _ & Hres).
    + intros k b Hk. by apply (lookup_empty_Some k b) in Hk.
    + by vm_compute.
    + repeat constructor; by vm_compute.
    + by vm_compute.
    + rewrite bool_decide_true in Hres by reflexivity. destruct Hres as [(Hall & _)|(_ & Hs & _)]; [destruct (Hall 0%nat) as [x Hx]; [by vm_compute; lia|done]|]. by exists p'.
  - destruct (partial_slots_collect 7 sample_block [(0, sample_raw 8)] 4 0 sample_collected) as (p' & Hp' & _ & _ & Hres).
    + intros k b Hk. cbn in Hk. apply lookup_singleton_Some in Hk as [<- <-]. split; [|done]. split; try done; repeat constructor; done.
    + by vm_compute.
    + repeat constructor; by vm_compute.
    + by vm_compute.
    + rewrite bool_decide_false in Hres by (vm_compute; discriminate). by exists p'.
Defined.

Lemma fast_seal_equivalent_witness :
  let p := mkProgress ∅ [] 0 0 0 in
  let sb := mkSealed [sample_raw 8; sample_raw 9] 17 [3; 3] false in
  exists p', insert_partial_slots 7 sample_block [(0, sample_raw 8); (1, sample_raw 9)] 2 3 p = Some p' /\
    sealed_blocks p' = [(sample_block, sb)] /\ inflight p' = ∅.
Proof.
  intros p sb. apply (fast_seal_equivalent 7 sample_block [(0, sample_raw 8); (1, sample_raw 9)] 2 3 p sb).
  - by vm_compute.
  - by vm_compute.
  - repeat constructor; by vm_compute.
  - by vm_compute.
  - apply lookup_empty.
Defined.

Lemma ordered_grouping_equivalent_witness :
  let ls := [mkLayer 0 8 [sample_raw 1; sample_raw 2] [str "h1"; str "h2"];
             mkLayer 1 8 [sample_raw 3; sample_raw 4] [str "h1"; str "h2"]] in
  can_use_ordered_fast_path ls = true /\
  exists es, build_ordered_insert_entries (str "ns") ls = Some es /\
    Permutation es (build_hashed_insert_entries (str "ns") ls).
Proof.
  apply (ordered_grouping_equivalent (str "ns") [str "h1"; str "h2"]).
  - apply (bool_decide_unpack _). by vm_compute.
  - done.
  - by repeat constructor.
Defined.
