(* ===== verification/Lru.v ===== *)
(** * LRU caches

    The interface of the external [hashlink::LruCache] that the DRAM tier relies on, keyed by
    [StateKey]: every operation is described by its effect on [items], the entries from the least
    to the most recently used.  A list is an instance, so the clients can be run. *)
From S2P Require Import Prelude Containers State.

Local Open Scope Z_scope.

(** ** Association lists *)

Section Assoc.
Context {V : Type}.
Implicit Types l : list (StateKey * V).

Definition assoc (k : StateKey) l : option V := snd <$> (snd <$> list_find (fun p => p.1 = k) l).
Definition drop_key (k : StateKey) l : list (StateKey * V) := filter (fun p => p.1 <> k) l.
Definition touch (k : StateKey) l : list (StateKey * V) :=
  match assoc k l with Some v => drop_key k l ++ [(k, v)] | None => l end.

Lemma assoc_None k l : assoc k l = None <-> k ∉ l.*1.
Proof.
  unfold assoc. rewrite !fmap_None, list_find_None, Forall_forall. split.
  - intros Hn ([k' v] & -> & Hin)%list_elem_of_fmap. by apply (Hn (k', v)).
  - intros Hn p Hp <-. apply Hn, list_elem_of_fmap. eauto.
Qed.

Lemma assoc_elem k v l : assoc k l = Some v -> (k, v) ∈ l.
Proof.
  unfold assoc. destruct (list_find _ l) as [[i [k' v']]|] eqn:E; [|done]. simpl. intros [= ->].
  apply list_find_Some in E as (Hi & <- & _). by eapply list_elem_of_lookup_2.
Qed.

Lemma assoc_Some k v l : NoDup l.*1 -> assoc k l = Some v <-> (k, v) ∈ l.
Proof.
  intros Hnd. split; [apply assoc_elem|]. intros Hin.
  destruct (assoc k l) as [w|] eqn:E.
  - apply assoc_elem in E. apply list_elem_of_lookup in E as [i Hi], Hin as [j Hj].
    assert (i = j) as ->; [|congruence].
    apply (NoDup_lookup l.*1 i j k); [done|..]; rewrite list_lookup_fmap; [by rewrite Hi|by rewrite Hj].
  - apply assoc_None in E. exfalso. apply E, list_elem_of_fmap. by exists (k, v).
Qed.

Lemma is_Some_assoc k l : is_Some (assoc k l) <-> k ∈ l.*1.
Proof.
  destruct (decide (k ∈ l.*1)) as [Hin|Hn].
  - split; [done|]. intros _. apply not_eq_None_Some. rewrite assoc_None. auto.
  - rewrite (proj2 (assoc_None k l) Hn). split; [by intros []|done].
Qed.

Lemma assoc_app_ne k k' v l : k' <> k -> assoc k (l ++ [(k', v)]) = assoc k l.
Proof.
  intros Hne. induction l as [|[k1 v1] l IH]; unfold assoc in *; simpl.
  - by rewrite decide_False.
  - destruct (decide (k1 = k)); [done|]. by destruct (list_find _ l) as [[]|], (list_find _ (l ++ _)) as [[]|].
Qed.

Lemma drop_key_fmap k l : (drop_key k l).*1 = filter (fun x => x <> k) l.*1.
Proof.
  unfold drop_key. induction l as [|[k' v] l IH]; [done|]. rewrite filter_cons, fmap_cons, filter_cons. cbn [fst].
  by destruct (decide (k' <> k)); rewrite ?fmap_cons, IH.
Qed.

Lemma elem_of_drop_key k x l : x ∈ drop_key k l <-> x.1 <> k /\ x ∈ l.
Proof. unfold drop_key. by rewrite list_elem_of_filter. Qed.

Lemma drop_key_NoDup k l : NoDup l.*1 -> NoDup (drop_key k l).*1.
Proof. rewrite drop_key_fmap. apply NoDup_filter. Qed.

Lemma drop_key_id k l : k ∉ l.*1 -> drop_key k l = l.
Proof.
  induction l as [|[k' v] l IH]; [done|]. rewrite fmap_cons, not_elem_of_cons. intros [Hne Hn].
  unfold drop_key in *. rewrite filter_cons, decide_True by (by simpl; intros ->). f_equal. auto.
Qed.

Lemma drop_key_perm k v l : NoDup l.*1 -> assoc k l = Some v -> l ≡ₚ drop_key k l ++ [(k, v)].
Proof.
  intros Hnd Hk. apply assoc_elem in Hk. rewrite Permutation_app_comm. simpl.
  induction l as [|[k' v'] l IH]; [by apply elem_of_nil in Hk|]. apply NoDup_cons in Hnd as [Hx Hnd].
  unfold drop_key. rewrite filter_cons. apply elem_of_cons in Hk as [[= -> ->]|Hk].
  - rewrite decide_False by (simpl; auto). fold (drop_key k' l). by rewrite drop_key_id.
  - rewrite decide_True.
    + fold (drop_key k l). rewrite Permutation_swap. by constructor; apply IH.
    + simpl. intros ->. apply Hx, list_elem_of_fmap. by exists (k, v).
Qed.

Lemma touch_perm k l : NoDup l.*1 -> touch k l ≡ₚ l.
Proof.
  intros Hnd. unfold touch. destruct (assoc k l) as [v|] eqn:E; [|done]. symmetry. by apply drop_key_perm.
Qed.

Lemma assoc_perm k l l' : NoDup l.*1 -> l ≡ₚ l' -> assoc k l = assoc k l'.
Proof.
  intros Hnd Hp. assert (Hnd' : NoDup l'.*1) by (by rewrite <- Hp).
  destruct (assoc k l) as [v|] eqn:E; symmetry.
  - apply assoc_Some; [done|]. rewrite <- Hp. by apply assoc_elem.
  - apply assoc_None. rewrite <- Hp. by apply assoc_None.
Qed.
End Assoc.

(** ** The interface *)

Class LruCache (C : Type -> Type) := {
  lru_new {V} : C V;
  items {V} : C V -> list (StateKey * V);
  lru_peek {V} : StateKey -> C V -> option V;
  lru_get {V} : StateKey -> C V -> option V * C V;
  lru_insert {V} : StateKey -> V -> C V -> C V;
  lru_remove {V} : StateKey -> C V -> option V * C V;
  remove_oldest {V} : C V -> option (StateKey * V) * C V
}.

(** What [hashlink] documents: [get] and [insert] make an entry the most recently used one,
    [peek] does not, [remove_lru] takes the least recently used one. *)
Class LruLaws (C : Type -> Type) `{LruCache C} : Prop := {
  items_new {V} : items (lru_new (V := V)) = [];
  peek_law {V} k (c : C V) : lru_peek k c = assoc k (items c);
  get_law {V} k (c : C V) : (lru_get k c).1 = assoc k (items c) /\ items (lru_get k c).2 = touch k (items c);
  insert_law {V} k v (c : C V) : items (lru_insert k v c) = drop_key k (items c) ++ [(k, v)];
  remove_law {V} k (c : C V) : (lru_remove k c).1 = assoc k (items c) /\ items (lru_remove k c).2 = drop_key k (items c);
  oldest_law {V} (c : C V) : (remove_oldest c).1 = head (items c) /\ items (remove_oldest c).2 = tail (items c)
}.

Definition lru_contains {C} `{LruCache C} {V} (k : StateKey) (c : C V) : bool :=
  match lru_peek k c with Some _ => true | None => false end.
Definition lru_len {C} `{LruCache C} {V} (c : C V) : Z := zlen (items c).
(** [iter().next()]. *)
Definition oldest {C} `{LruCache C} {V} (c : C V) : option StateKey := fst <$> head (items c).

(** ** The list instance *)

Definition assoc_list (V : Type) : Type := list (StateKey * V).

#[export] Instance list_lru : LruCache assoc_list := {
  lru_new V := [];
  items V c := c;
  lru_peek V k c := assoc k c;
  lru_get V k c := (assoc k c, touch k c);
  lru_insert V k v c := drop_key k c ++ [(k, v)];
  lru_remove V k c := (assoc k c, drop_key k c);
  remove_oldest V c := (head c, tail c)
}.

#[export] Instance list_lru_laws : LruLaws assoc_list.
Proof. by constructor. Qed.
