(* ===== verification/TinyLfu.v ===== *)
(** * The TinyLFU estimator

    [orbitkv-core/src/storage/dram/policy.rs]: the count-min sketch of 8-bit counters that decides
    admission.  All accesses happen under the lock of the DRAM store, so the atomic operations are
    sequential.  The random hashers are arguments, and so is the shape of the sketch, which the
    code computes in floating point. *)
From S2P Require Import Prelude Containers State.

Local Open Scope Z_scope.

Definition u8_max : Z := 255.
Definition WINDOW_LIMIT_MULTIPLIER : Z := 8.
Definition AGE_SHIFT_BITS : Z := 1.

Record Row := mkRow { counters : list Z; hasher : StateKey -> Z }.
Abbreviation Estimator := (list Row).

Definition counter_index (r : Row) (k : StateKey) : nat := Z.to_nat (hasher r k mod zlen (counters r)).
Definition counter_of (r : Row) (k : StateKey) : Z := default 0 (counters r !! counter_index r k).

(** [Estimator::new] with the hashers that the random source yields. *)
Definition estimator_new (hashers : list (StateKey -> Z)) (slots : Z) : Estimator :=
  mkRow (replicate (Z.to_nat slots) 0) <$> hashers.

(** The old and the new value; the exchange cannot fail under the lock. *)
Definition incr_no_overflow (current : Z) : Z * Z :=
  if current =? u8_max then (current, current)
  else (current, if current =? u8_max - 1 then u8_max else current + 1).

Definition row_incr (k : StateKey) (r : Row) : Row :=
  mkRow (<[counter_index r k := (incr_no_overflow (counter_of r k)).2]> (counters r)) (hasher r).

Definition estimator_incr (k : StateKey) (e : Estimator) : Estimator * Z :=
  (row_incr k <$> e, foldl (fun m r => Z.min m (incr_no_overflow (counter_of r k)).2) u8_max e).

Definition estimator_get (k : StateKey) (e : Estimator) : Z :=
  foldl (fun m r => Z.min m (counter_of r k)) u8_max e.

Definition estimator_age (shift : Z) (e : Estimator) : Estimator :=
  (fun r => mkRow ((fun c => Z.shiftr c shift) <$> counters r) (hasher r)) <$> e.

Record TinyLfu := mkLfu { estimator : Estimator; window_counter : Z; window_limit : Z }.

Definition lfu_get (k : StateKey) (t : TinyLfu) : Z := estimator_get k (estimator t).

Definition window_over (t : TinyLfu) : bool :=
  (window_counter t =? window_limit t) || (u64_mul (window_limit t) 2 <? window_counter t).

Definition lfu_incr (k : StateKey) (t : TinyLfu) : TinyLfu * Z :=
  let aged := if window_over t then estimator_age AGE_SHIFT_BITS (estimator t) else estimator t in
  let counter := if window_over t then 0 else u64_add (window_counter t) 1 in
  let '(e, n) := estimator_incr k aged in
  (mkLfu e counter (window_limit t), n).

(** [TinyLfu::new]; the hashers and the slots are what [Estimator::optimal] chooses. *)
Definition lfu_new (hashers : list (StateKey -> Z)) (slots cache_size : Z) : TinyLfu :=
  mkLfu (estimator_new hashers slots) 0 (u64_mul cache_size WINDOW_LIMIT_MULTIPLIER).

(** ** Exact counting

    The specification: one saturating counter per key, halved when the window is over. *)
Record ExactCounts := mkExactCounts { count : StateKey -> Z; seen : Z }.

Definition exact_incr (limit : Z) (x : ExactCounts) (k : StateKey) : ExactCounts :=
  let over := (seen x =? limit) || (u64_mul limit 2 <? seen x) in
  let f := if over then (fun k' => Z.shiftr (count x k') AGE_SHIFT_BITS) else count x in
  mkExactCounts (fun k' => if decide (k' = k) then Z.min u8_max (f k' + 1) else f k')
    (if over then 0 else u64_add (seen x) 1).

Definition exact_run (limit : Z) (ks : list StateKey) : ExactCounts :=
  foldl (exact_incr limit) (mkExactCounts (fun _ => 0) 0) ks.
Definition lfu_run (t : TinyLfu) (ks : list StateKey) : TinyLfu :=
  foldl (fun t k => (lfu_incr k t).1) t ks.

(** Every counter is a byte, and the one of a key is at least the exact one. *)
Definition row_over (f : StateKey -> Z) (r : Row) : Prop :=
  counters r <> [] /\ (forall k, 0 <= hasher r k) /\ Forall (fun c => 0 <= c <= u8_max) (counters r) /\
  forall k, f k <= counter_of r k.

Lemma counter_index_lt r k : counters r <> [] -> (counter_index r k < length (counters r))%nat.
Proof.
  intros Hne. unfold counter_index, zlen. destruct (counters r) as [|c l]; [done|].
  pose proof (Z.mod_pos_bound (hasher r k) (Z.of_nat (length (c :: l)))) as Hb. simpl length in *. lia.
Qed.

Lemma counter_of_range f r k : row_over f r -> 0 <= counter_of r k <= u8_max.
Proof.
  intros (Hne & _ & Hall & _). pose proof (counter_index_lt r k Hne) as Hlt. unfold counter_of.
  apply lookup_lt_is_Some in Hlt as [c Hc]. rewrite Hc. exact (Forall_lookup_1 _ _ _ _ Hall Hc).
Qed.

Lemma incr_no_overflow_spec c : 0 <= c <= u8_max -> (incr_no_overflow c).2 = Z.min u8_max (c + 1).
Proof. unfold incr_no_overflow, u8_max. intros Hc. repeat case_match; simpl; lia. Qed.

Lemma row_incr_over f r k :
  row_over f r -> row_over (fun k' => if decide (k' = k) then Z.min u8_max (f k' + 1) else f k') (row_incr k r).
Proof.
  intros Hr. pose proof (counter_of_range f r k Hr) as Hk. destruct Hr as (Hne & Hh & Hall & Hf).
  pose proof (counter_index_lt r k Hne) as Hlt. unfold row_over, row_incr. cbn [counters hasher].
  rewrite incr_no_overflow_spec by done. split_and!; [|done| |].
  - intros Hn. apply (f_equal length) in Hn. rewrite length_insert in Hn. simpl in Hn. lia.
  - apply Forall_insert; [done|]. unfold u8_max in *. lia.
  - intros k'. unfold counter_of at 1, counter_index at 1. cbn [counters hasher]. unfold zlen.
    rewrite length_insert. fold (zlen (counters r)). fold (counter_index r k').
    pose proof (Hf k') as Hk'. destruct (decide (counter_index r k' = counter_index r k)) as [He|He].
    + rewrite He, list_lookup_insert_eq by done. simpl.
      assert (counter_of r k' = counter_of r k) as He' by (unfold counter_of; by rewrite He).
      unfold u8_max in *. case_decide; lia.
    + rewrite list_lookup_insert_ne by done. fold (counter_of r k').
      rewrite decide_False by (by intros ->). done.
Qed.

Lemma row_age_over f r :
  row_over f r ->
  row_over (fun k => Z.shiftr (f k) AGE_SHIFT_BITS)
    (mkRow ((fun c => Z.shiftr c AGE_SHIFT_BITS) <$> counters r) (hasher r)).
Proof.
  intros (Hne & Hh & Hall & Hf). unfold row_over. cbn [counters hasher]. split_and!; [|done| |].
  - by destruct (counters r).
  - apply Forall_fmap. eapply Forall_impl; [exact Hall|]. intros c Hc. unfold AGE_SHIFT_BITS, u8_max in *. simpl.
    rewrite Z.shiftr_div_pow2 by lia. simpl. change (2 ^ 1) with 2. split; [apply Z.div_pos; lia|].
    apply Z.div_le_upper_bound; lia.
  - intros k. unfold counter_of, counter_index. cbn [counters hasher]. unfold zlen. rewrite length_fmap.
    fold (zlen (counters r)). fold (counter_index r k). rewrite list_lookup_fmap. specialize (Hf k).
    unfold counter_of in Hf. pose proof (counter_index_lt r k Hne) as Hlt.
    apply lookup_lt_is_Some in Hlt as [c Hc]. rewrite Hc in *. simpl in *.
    unfold AGE_SHIFT_BITS. rewrite !Z.shiftr_div_pow2 by lia. change (2 ^ 1) with 2. apply Z.div_le_mono; lia.
Qed.

(** The simulation between the sketch and exact counting. *)
Definition estimates (t : TinyLfu) (x : ExactCounts) : Prop :=
  Forall (row_over (count x)) (estimator t) /\ window_counter t = seen x.

Lemma lfu_incr_estimates t x k :
  estimates t x -> estimates (lfu_incr k t).1 (exact_incr (window_limit t) x k) /\
  window_limit (lfu_incr k t).1 = window_limit t.
Proof.
  intros [Hrows Hw]. unfold lfu_incr, exact_incr, estimates, window_over. rewrite Hw.
  destruct (_ || _); cbn; (split; [|done]); (split; [|done]).
  - apply Forall_fmap, Forall_fmap. eapply Forall_impl; [exact Hrows|]. intros r Hr. cbn.
    apply (row_incr_over (fun k' => Z.shiftr (count x k') AGE_SHIFT_BITS)), row_age_over, Hr.
  - apply Forall_fmap. eapply Forall_impl; [exact Hrows|]. intros r Hr. by apply row_incr_over.
Qed.

Lemma get_lower_bound e f k :
  Forall (row_over f) e -> f k <= u8_max -> f k <= estimator_get k e <= u8_max.
Proof.
  intros He Hk. unfold estimator_get.
  assert (Hgo : forall m, f k <= m <= u8_max -> f k <= foldl (fun m r => Z.min m (counter_of r k)) m e <= u8_max).
  { induction He as [|r e Hr He IH]; intros m Hm; simpl; [done|]. apply IH.
    pose proof (counter_of_range f r k Hr). destruct Hr as (_ & _ & _ & Hf). specialize (Hf k). lia. }
  apply Hgo. lia.
Qed.

Lemma exact_run_bound limit ks k : 0 <= count (exact_run limit ks) k <= u8_max.
Proof.
  unfold exact_run. assert (Hgo : forall x, (forall k, 0 <= count x k <= u8_max) ->
    forall k, 0 <= count (foldl (exact_incr limit) x ks) k <= u8_max); [|apply Hgo; done].
  induction ks as [|k' ks IH]; intros x Hx; simpl; [done|]. apply IH. intros k''. unfold exact_incr. cbn.
  pose proof (Hx k'') as Hc. assert (Hs : 0 <= Z.shiftr (count x k'') AGE_SHIFT_BITS <= u8_max).
  { unfold AGE_SHIFT_BITS, u8_max in *. rewrite Z.shiftr_div_pow2 by lia. change (2 ^ 1) with 2.
    split; [apply Z.div_pos; lia|]. apply Z.div_le_upper_bound; lia. }
  destruct (_ || _); case_decide; unfold u8_max in *; lia.
Qed.

Lemma lfu_run_estimates t x ks :
  estimates t x -> estimates (lfu_run t ks) (foldl (exact_incr (window_limit t)) x ks).
Proof.
  revert t x. induction ks as [|k ks IH]; intros t x Ht; simpl; [done|].
  destruct (lfu_incr_estimates t x k Ht) as [Ht' Hl]. specialize (IH _ _ Ht'). by rewrite Hl in IH.
Qed.

(** C38. The frequency sketch never underestimates: after any accesses, whatever the hash functions
    collide on, the estimate of a key is at least its exact access count, saturated at 255 and
    halved at every window end, and it is a byte. *)
Theorem lfu_never_underestimates hashers slots cache_size ks k :
  0 < slots -> (forall h k', h ∈ hashers -> 0 <= h k') ->
  let t := lfu_new hashers slots cache_size in
  count (exact_run (window_limit t) ks) k <= lfu_get k (lfu_run t ks) <= u8_max.
Proof.
  intros Hs Hh t. assert (Ht : estimates t (mkExactCounts (fun _ => 0) 0)).
  { split; [|done]. apply Forall_fmap, Forall_forall. intros h Hin. unfold row_over. cbn. split_and!.
    - intros Hn. apply (f_equal length) in Hn. rewrite length_replicate in Hn. simpl in Hn. lia.
    - intros k'. by apply Hh.
    - apply Forall_replicate. unfold u8_max. lia.
    - intros k'. unfold counter_of. cbn. destruct (replicate _ 0 !! _) as [c|] eqn:E; [|done].
      apply lookup_replicate_1 in E as [-> _]. done. }
  apply (lfu_run_estimates t _ ks) in Ht as [Hrows _]. apply get_lower_bound; [done|].
  apply exact_run_bound.
Qed.

Definition sample_hasher (m : Z) (k : StateKey) : Z := m * (1 + zlen (hash k)).

Lemma lfu_never_underestimates_witness :
  let t := lfu_new [sample_hasher 1; sample_hasher 7] 16 4 in
  let a := mkStateKey (str "n") (str "a") in
  let b := mkStateKey (str "n") (str "bb") in
  count (exact_run (window_limit t) [a; b; a; a]) a = 3 /\ 3 <= lfu_get a (lfu_run t [a; b; a; a]) <= u8_max.
Proof.
  intros t a b. split; [by vm_compute|].
  apply (lfu_never_underestimates [sample_hasher 1; sample_hasher 7] 16 4 [a; b; a; a] a); [lia|].
  intros h k' Hin. unfold sample_hasher in Hin. pose proof (zlen_nonneg (hash k')).
  repeat (apply elem_of_cons in Hin as [->|Hin]; [unfold zlen; lia|]). by apply elem_of_nil in Hin.
Defined.
