(* ===== verification/Residency.v ===== *)
(** * The residency log

    What the DRAM tier needs of [ResidencyInventory]: it reports every change of a key's residency
    and asks whether a record is current.  The client is verified against the interface; the
    inventory is shown to implement it for the DRAM medium. *)
From S2P Require Import Prelude Containers State Inventory.

Local Open Scope Z_scope.

Class ResidencyLog (I : Type) := {
  log_change : I -> StateKey -> option ReplicaMetadata -> Z -> option I;
  listed : I -> StateKey -> option ReplicaMetadata;
  log_current : I -> InventoryRecord -> bool
}.

(** Keys are far shorter than the address space. *)
Definition KEY_LIMIT : Z := 4611686018427387904.
Definition short_key (k : StateKey) : Prop := zlen (namespace k) + zlen (hash k) <= KEY_LIMIT.

(** [accepts i n]: the log is consistent and takes [n] more changes. *)
Class ResidencyLaws (I : Type) `{ResidencyLog I} := {
  accepts : I -> nat -> Prop;
  accepts_le i m n : accepts i n -> (m <= n)%nat -> accepts i m;
  change_law i n k md now :
    accepts i (S n) -> short_key k -> (forall v, md = Some v -> medium v = Dram) ->
    exists i', log_change i k md now = Some i' /\ accepts i' n /\
      forall k', listed i' k' = if decide (k' = k) then md else listed i k';
  current_law i n r : accepts i n -> log_current i r = true -> is_Some (listed i (key r))
}.

(** ** The inventory as a log *)

Section Inventory_log.
Context (size_of_record : Z).

Definition inventory_log : ResidencyLog Inventory := {|
  log_change inv k md now := change size_of_record inv k Dram md now;
  listed inv k := residents inv !! (k, Dram) ≫= metadata;
  log_current inv r := contains_record inv r Dram
|}.

Definition inventory_accepts (inv : Inventory) (n : nat) : Prop :=
  exists h, tracks size_of_record inv h /\ zlen h + Z.of_nat n <= u64_max /\
    byte_limit inv + size_of_record + KEY_LIMIT <= u64_max.

Lemma inventory_change inv n k md now :
  0 <= size_of_record -> inventory_accepts inv (S n) -> short_key k -> (forall v, md = Some v -> medium v = Dram) ->
  exists inv', change size_of_record inv k Dram md now = Some inv' /\ inventory_accepts inv' n /\
    forall k', residents inv' !! (k', Dram) ≫= metadata =
      if decide (k' = k) then md else residents inv !! (k', Dram) ≫= metadata.
Proof.
  intros Hsz (h & Ht & Hn & Hb) Hk Hmd. unfold short_key in Hk.
  assert (Hp : publishable Dram md) by (split; [done|exact Hmd]).
  destruct (change_tracks size_of_record Hsz inv h k Dram md now) as (inv' & Hc & Hbl & Hcase); [done|done|lia| |].
  { unfold record_estimated_size. simpl. lia. }
  exists inv'. split; [done|]. destruct Hcase as [[Hold ->]|Ht'].
  { split; [exists h; split_and!; [done|lia|done]|]. intros k'. case_decide; [by subst|done]. }
  split; [eexists; split_and!; [exact Ht'|rewrite zlen_app, zlen_cons, zlen_nil; lia|by rewrite Hbl]|].
  intros k'. destruct (decide (residents inv !! (k, Dram) ≫= metadata = md)) as [He|Hne].
  { rewrite change_unfold, decide_True in Hc by done. injection Hc as <-. case_decide; [by subst|done]. }
  pose proof (residence_of_changed size_of_record inv h k Dram md Ht Hp Hne) as Hres.
  destruct Ht as (_ & _ & _ & Hr & _), Ht' as (_ & _ & _ & Hr' & _). rewrite Hr', replay_snoc_lookup, Hres, <- Hr.
  destruct (decide (k' = k)) as [->|Hk']; [|by rewrite decide_False by congruence].
  rewrite decide_True by done. by destruct md.
Qed.

Lemma inventory_current inv n r :
  inventory_accepts inv n -> contains_record inv r Dram = true ->
  is_Some (residents inv !! (key r, Dram) ≫= metadata).
Proof.
  intros (h & Ht & _) Hc. unfold contains_record in Hc. destruct (residents inv !! (key r, Dram)) as [x|] eqn:E.
  2:{ by rewrite andb_false_r in Hc. }
  destruct Ht as (_ & _ & _ & Hr & _). rewrite Hr in E. apply replay_key in E as (md & Hmd & _).
  simpl. by rewrite Hmd.
Qed.

Lemma inventory_accepts_le inv m n : inventory_accepts inv n -> (m <= n)%nat -> inventory_accepts inv m.
Proof. intros (h & Ht & Hn & Hb) Hle. exists h. split_and!; [done|lia|done]. Qed.

Definition inventory_laws (Hsz : 0 <= size_of_record) : @ResidencyLaws Inventory inventory_log.
Proof.
  refine (@Build_ResidencyLaws Inventory inventory_log inventory_accepts inventory_accepts_le _ inventory_current).
  intros i n k md now. exact (inventory_change i n k md now Hsz).
Defined.
End Inventory_log.
