(* ===== verification/SsdRing.v ===== *)
(** * The SSD ring buffer

    [orbitkv-core/src/storage/ssd/index.rs] with [metadata.rs]: space allocation in per-file rings
    and the block index with its two-phase commit.  [readers: Arc<AtomicUsize>] is shared between
    an index entry and its clones: an entry holds the address of its counter and the counters are
    a store of their own. *)
From S2P Require Import Prelude Containers State Blocks.

Local Open Scope Z_scope.

Inductive Encoding := ERaw | Encoded.

Record SlotMeta := mkSlotMeta {
  segment_sizes : list Z;
  slot_total_size : Z;
  numa_node : Z;
  slot_encoding : option (list EncodedSegment)
}.

(** [SlotMeta::new]; [Iterator::sum] wraps. *)
Definition slot_meta_new (sizes : list Z) (numa : Z) : SlotMeta :=
  mkSlotMeta sizes (foldl u64_add 0 sizes) numa None.

Record SsdIndexEntry := mkEntry {
  shard_id : Z;
  begin_ : Z;
  len : Z;
  file_offset : Z;
  slots : list SlotMeta;
  encoding : Encoding;
  readers : Z
}.

(** The fold of [replica_metadata] over a slot's segments. *)
Definition slot_representation (s : SlotMeta) : ReplicaRepresentation :=
  match slot_encoding s with
  | None => Raw
  | Some metadata =>
      default RUnknown (foldl (fun r seg => merge_representation r (representation_of (es_format seg)))
                          None metadata)
  end.

Definition replica_metadata (e : SsdIndexEntry) : ReplicaMetadata :=
  mkMetadata Ssd
    (default RUnknown (foldl (fun r s => merge_representation r (slot_representation s)) None (slots e)))
    (Some (foldl (fun n s => saturating_add n (slot_total_size s)) 0 (slots e))).

(** [checked_next_multiple_of]. *)
Definition checked_next_multiple_of (z m : Z) : option Z :=
  if m =? 0 then None
  else let r := z mod m in if r =? 0 then Some z else checked_add z (m - r).

Definition CUFILE_ALIGNMENT : Z := 4096.

Definition fits_gpu_decode (e : SsdIndexEntry) (budget : Z) : bool :=
  forallb (fun seg =>
    match checked_next_multiple_of (es_stored_bytes seg) CUFILE_ALIGNMENT with
    | None => false
    | Some bytes => match checked_add bytes 8192 with None => false | Some b => b <=? budget end
    end) (concat (omap slot_encoding (slots e))).

Inductive SsdEntryState :=
| Writing (e : SsdIndexEntry)
| Committed (e : SsdIndexEntry)
| Invalid (e : SsdIndexEntry).

Definition entry (s : SsdEntryState) : SsdIndexEntry :=
  match s with Writing e | Committed e | Invalid e => e end.

Record SsdShardRing := mkShard {
  capacity : Z;
  head : Z;
  tail : Z;
  order : list (StateKey * Z)
}.

Record SsdRingBuffer := mkRing {
  shards : list SsdShardRing;
  next_shard : Z;
  alignment : Z;
  entries : gmap StateKey SsdEntryState;
  retired : list StateKey
}.

(** The reader counters, by address. *)
Abbreviation Counters := (gmap Z Z).
Definition load (c : Counters) (r : Z) : Z := default 0 (c !! r).

(** Shard identifiers index [shards]. *)
Definition get_shard (ring : SsdRingBuffer) (i : Z) : option SsdShardRing := shards ring !! Z.to_nat i.
Definition set_shard (i : Z) (s : SsdShardRing) (ring : SsdRingBuffer) : SsdRingBuffer :=
  mkRing (<[Z.to_nat i := s]> (shards ring)) (next_shard ring) (alignment ring) (entries ring) (retired ring).
Definition set_entries (m : gmap StateKey SsdEntryState) (ring : SsdRingBuffer) : SsdRingBuffer :=
  mkRing (shards ring) (next_shard ring) (alignment ring) m (retired ring).

(** [new_sharded]; [None] is the failed assertion. *)
Definition new_sharded (capacities : list Z) (align : Z) : option SsdRingBuffer :=
  match capacities with
  | [] => None
  | _ => Some (mkRing ((fun c => mkShard c 0 0 []) <$> capacities) 0 align ∅ [])
  end.

Definition is_offset_valid (ring : SsdRingBuffer) (e : SsdIndexEntry) : bool :=
  match get_shard ring (shard_id e) with Some s => tail s <=? begin_ e | None => false end.

Definition get (ring : SsdRingBuffer) (k : StateKey) : option SsdIndexEntry :=
  match entries ring !! k with
  | Some (Committed e) => if is_offset_valid ring e then Some e else None
  | _ => None
  end.

Definition same_generation (e f : SsdIndexEntry) : bool :=
  (shard_id e =? shard_id f) && (begin_ e =? begin_ f).

Definition is_encoded (e : SsdIndexEntry) : bool := match encoding e with Encoded => true | ERaw => false end.

Definition invalidate_encoded (c : Counters) (k : StateKey) (failed : SsdIndexEntry)
    (ring : SsdRingBuffer) : SsdRingBuffer * bool :=
  match entries ring !! k with
  | Some (Committed e) | Some (Invalid e) =>
      if same_generation e failed && is_encoded e then
        if load c (readers failed) =? 0
        then (set_entries (delete k (entries ring)) ring, true)
        else (set_entries (<[k := Invalid failed]> (entries ring)) ring, true)
      else (ring, false)
  | _ => (ring, false)
  end.

Definition release_invalid (c : Counters) (k : StateKey) (released : SsdIndexEntry)
    (ring : SsdRingBuffer) : SsdRingBuffer :=
  match entries ring !! k with
  | Some (Invalid e) =>
      if same_generation e released && (load c (readers e) =? 0)
      then set_entries (delete k (entries ring)) ring else ring
  | _ => ring
  end.

(** Whether an element of [order] still names the key's entry. *)
Definition current (m : gmap StateKey SsdEntryState) (sid : Z) (o : StateKey * Z) : option SsdEntryState :=
  match m !! o.1 with
  | Some s => if (shard_id (entry s) =? sid) && (begin_ (entry s) =? o.2) then Some s else None
  | None => None
  end.

(** The guard loop of [allocate_contiguous]: [true] when a write or a reader holds an extent that
    the new tail would pass. *)
Fixpoint pinned (c : Counters) (m : gmap StateKey SsdEntryState) (sid new_tail : Z)
    (order : list (StateKey * Z)) : bool :=
  match order with
  | [] => false
  | o :: rest =>
      match current m sid o with
      | Some s =>
          if new_tail <=? begin_ (entry s) then false
          else if match s with Writing _ => true | _ => false end || negb (load c (readers (entry s)) =? 0)
          then true
          else pinned c m sid new_tail rest
      | None => pinned c m sid new_tail rest
      end
  end.

(** The pruning loop of [advance_tail]. *)
Fixpoint prune (m : gmap StateKey SsdEntryState) (sid new_tail : Z) (order : list (StateKey * Z))
    (gone : list StateKey) : gmap StateKey SsdEntryState * list (StateKey * Z) * list StateKey :=
  match order with
  | [] => (m, [], gone)
  | o :: rest =>
      match current m sid o with
      | Some _ => if new_tail <=? o.2 then (m, order, gone)
                  else prune (delete o.1 m) sid new_tail rest (gone ++ [o.1])
      | None => prune m sid new_tail rest gone
      end
  end.

Definition advance_tail (sid new_tail : Z) (ring : SsdRingBuffer) : SsdRingBuffer :=
  match get_shard ring sid with
  | None => ring
  | Some s =>
      if new_tail <=? tail s then ring
      else
        let '(m, order', gone) := prune (entries ring) sid new_tail (order s) (retired ring) in
        mkRing (<[Z.to_nat sid := mkShard (capacity s) (head s) new_tail order']> (shards ring))
          (next_shard ring) (alignment ring) m gone
  end.

Definition allocate_contiguous (c : Counters) (sid size : Z) (ring : SsdRingBuffer)
    : SsdRingBuffer * option (Z * Z) :=
  match get_shard ring sid with
  | None => (ring, None)
  | Some s =>
      if (size =? 0) || (capacity s <? size) then (ring, None)
      else
        let phys := head s mod capacity s in
        let space_until_end := u64_sub (capacity s) phys in
        match (if space_until_end <? size then checked_add (head s) space_until_end else Some (head s)) with
        | None => (ring, None)
        | Some b =>
            match checked_add b size with
            | None => (ring, None)
            | Some h =>
                let new_tail := saturating_sub h (capacity s) in
                if pinned c (entries ring) sid new_tail (order s) then (ring, None)
                else
                  let ring := set_shard sid (mkShard (capacity s) h (tail s) (order s)) ring in
                  (advance_tail sid new_tail ring, Some (b, b mod capacity s))
            end
        end
  end.

Definition take_retired (ring : SsdRingBuffer) : SsdRingBuffer * list StateKey :=
  (mkRing (shards ring) (next_shard ring) (alignment ring) (entries ring) [], retired ring).

Definition commit (k : StateKey) (success : bool) (ring : SsdRingBuffer) : SsdRingBuffer * bool :=
  match entries ring !! k with
  | None => (ring, false)
  | Some (Committed _) => (ring, true)
  | Some (Invalid _) => (ring, false)
  | Some (Writing e) =>
      if negb (is_offset_valid ring e) then (set_entries (delete k (entries ring)) ring, false)
      else if success then (set_entries (<[k := Committed e]> (entries ring)) ring, true)
      else (set_entries (delete k (entries ring)) ring, false)
  end.

(** The payload of [reserve], with its overflow. *)
Fixpoint payload (sum : Z) (ss : list SlotMeta) : option Z :=
  match ss with
  | [] => Some sum
  | s :: rest => match checked_add sum (slot_total_size s) with Some n => payload n rest | None => None end
  end.

(** [find_map] over the shards from the cursor on. *)
Fixpoint find_shard (c : Counters) (size : Z) (offsets : list Z) (ring : SsdRingBuffer)
    : SsdRingBuffer * option (Z * Z * Z) :=
  match offsets with
  | [] => (ring, None)
  | offset :: rest =>
      let sid := u64_add (next_shard ring) offset mod zlen (shards ring) in
      match allocate_contiguous c sid size ring with
      | (ring, Some (b, off)) => (ring, Some (sid, b, off))
      | (ring, None) => find_shard c size rest ring
      end
  end.

(** [reserve]; [cell] is the address of the counter that [Arc::new] allocates. *)
Definition reserve (c : Counters) (cell : Z) (k : StateKey) (ss : list SlotMeta) (enc : Encoding)
    (ring : SsdRingBuffer) : SsdRingBuffer * option SsdIndexEntry :=
  match entries ring !! k with
  | Some _ => (ring, None)
  | None =>
      match payload 0 ss with
      | None => (ring, None)
      | Some n =>
          match checked_next_multiple_of n (alignment ring) with
          | None => (ring, None)
          | Some size =>
              match find_shard c size (seqZ 0 (zlen (shards ring))) ring with
              | (ring, None) => (ring, None)
              | (ring, Some (sid, b, off)) =>
                  let e := mkEntry sid b size off ss enc cell in
                  let shards' := alter (fun s => mkShard (capacity s) (head s) (tail s) (order s ++ [(k, b)]))
                                   (Z.to_nat sid) (shards ring) in
                  (mkRing shards' ((sid + 1) mod zlen (shards ring)) (alignment ring)
                     (<[k := Writing e]> (entries ring)) (retired ring), Some e)
              end
          end
      end
  end.

(** ** The ring invariant *)

(** Generations of a shard are handed out in increasing order, within the window that the head
    has passed and the tail has not. *)
Record shard_ok (s : SsdShardRing) : Prop := {
  so_capacity : 0 <= capacity s <= u64_max;
  so_window : 0 <= tail s <= head s /\ head s <= u64_max;
  so_span : head s - capacity s <= tail s;
  so_sorted : StronglySorted (fun a b : StateKey * Z => a.2 < b.2) (order s);
  so_order : forall o, o ∈ order s -> tail s <= o.2 < head s
}.

(** An entry is listed under its generation and its extent does not wrap. *)
Record entry_ok (ring : SsdRingBuffer) (k : StateKey) (e : SsdIndexEntry) (s : SsdShardRing) : Prop := {
  eo_shard : get_shard ring (shard_id e) = Some s;
  eo_id : 0 <= shard_id e;
  eo_listed : (k, begin_ e) ∈ order s;
  eo_len : 0 < len e;
  eo_head : begin_ e + len e <= head s;
  eo_offset : file_offset e = begin_ e mod capacity s;
  eo_fits : file_offset e + len e <= capacity s
}.

Definition apart (e f : SsdIndexEntry) : Prop :=
  begin_ e + len e <= begin_ f \/ begin_ f + len f <= begin_ e.

Record ring_inv (ring : SsdRingBuffer) : Prop := {
  ri_alignment : 0 <= alignment ring;
  ri_shards : forall i s, shards ring !! i = Some s -> shard_ok s;
  ri_entries : forall k st, entries ring !! k = Some st -> exists s, entry_ok ring k (entry st) s;
  ri_apart : forall k1 k2 st1 st2, k1 <> k2 ->
    entries ring !! k1 = Some st1 -> entries ring !! k2 = Some st2 ->
    shard_id (entry st1) = shard_id (entry st2) -> apart (entry st1) (entry st2)
}.

(** The bytes of the file that an entry owns. *)
Definition file_disjoint (e f : SsdIndexEntry) : Prop :=
  shard_id e <> shard_id f \/ file_offset e + len e <= file_offset f \/ file_offset f + len f <= file_offset e.

(** Two logical extents in one window of the ring do not share a byte of the file. *)
Lemma window_disjoint c b1 l1 b2 l2 t :
  0 < c -> t <= b1 -> b1 + l1 <= b2 -> b2 + l2 <= t + c -> 0 < l1 -> 0 < l2 ->
  b1 mod c + l1 <= c -> b2 mod c + l2 <= c ->
  b1 mod c + l1 <= b2 mod c \/ b2 mod c + l2 <= b1 mod c.
Proof.
  intros Hc Ht H12 Hw Hl1 Hl2 Hf1 Hf2.
  pose proof (Z.div_mod b1 c ltac:(lia)) as E1. pose proof (Z.div_mod b2 c ltac:(lia)) as E2.
  pose proof (Z.mod_pos_bound b1 c Hc). pose proof (Z.mod_pos_bound b2 c Hc).
  assert (b1 / c <= b2 / c) by (apply Z.div_le_mono; lia).
  assert (b2 / c <= b1 / c + 1).
  { assert (b2 / c <= (b1 + 1 * c) / c) by (apply Z.div_le_mono; lia). rewrite Z.div_add in * by lia. done. }
  assert (b2 / c = b1 / c \/ b2 / c = b1 / c + 1) as [Hq|Hq] by lia; rewrite Hq in E2; nia.
Qed.

Lemma ring_disjoint ring k1 k2 st1 st2 :
  ring_inv ring -> k1 <> k2 -> entries ring !! k1 = Some st1 -> entries ring !! k2 = Some st2 ->
  file_disjoint (entry st1) (entry st2).
Proof.
  intros Hi Hk H1 H2. unfold file_disjoint.
  destruct (decide (shard_id (entry st1) = shard_id (entry st2))) as [Hs|]; [right|by left].
  destruct (ri_entries _ Hi k1 st1 H1) as [s E1]. destruct (ri_entries _ Hi k2 st2 H2) as [s' E2].
  assert (s' = s) as -> by (pose proof (eo_shard _ _ _ _ E1); pose proof (eo_shard _ _ _ _ E2); congruence).
  pose proof (ri_apart _ Hi k1 k2 st1 st2 Hk H1 H2 Hs) as Ha.
  assert (Hso : shard_ok s) by (eapply ri_shards, (eo_shard _ _ _ _ E1); done).
  pose proof (so_order s Hso _ (eo_listed _ _ _ _ E1)) as O1. pose proof (so_order s Hso _ (eo_listed _ _ _ _ E2)) as O2.
  destruct Hso, E1, E2. simpl in *. rewrite eo_offset0, eo_offset1 in *.
  destruct Ha as [Ha|Ha].
  - apply (window_disjoint _ _ _ _ _ (tail s)); lia.
  - destruct (window_disjoint (capacity s) (begin_ (entry st2)) (len (entry st2)) (begin_ (entry st1))
      (len (entry st1)) (tail s)); lia.
Qed.

(** ** The two loops *)

Lemma current_Some m sid o s :
  current m sid o = Some s <-> m !! o.1 = Some s /\ shard_id (entry s) = sid /\ begin_ (entry s) = o.2.
Proof.
  unfold current. destruct (m !! o.1) as [s'|]; [|naive_solver].
  destruct (_ && _) eqn:E; [apply andb_true_iff in E|apply andb_false_iff in E];
    rewrite ?Z.eqb_eq, ?Z.eqb_neq in E; naive_solver.
Qed.

(** An unpinned tail passes only extents without a writer or a reader. *)
Lemma pinned_false c m sid nt order k st :
  StronglySorted (fun a b : StateKey * Z => a.2 < b.2) order -> pinned c m sid nt order = false ->
  m !! k = Some st -> shard_id (entry st) = sid -> (k, begin_ (entry st)) ∈ order -> begin_ (entry st) < nt ->
  (forall e, st <> Writing e) /\ load c (readers (entry st)) = 0.
Proof.
  intros Hs Hp Hm Hsh Hin Hlt. induction Hs as [|o order Hs IH Ho]; [set_solver|]. simpl in Hp.
  apply elem_of_cons in Hin as [Heq|Hin].
  - assert (Hc : current m sid o = Some st) by (apply current_Some; by rewrite <- Heq).
    rewrite Hc in Hp. destruct (Z.leb_spec nt (begin_ (entry st))); [lia|].
    destruct (_ || _) eqn:E; [done|]. apply orb_false_iff in E as [E1 E2].
    apply negb_false_iff, Z.eqb_eq in E2. split; [|done]. by intros e ->.
  - destruct (current m sid o) as [s'|] eqn:Ec; [|auto].
    destruct (Z.leb_spec nt (begin_ (entry s'))) as [Hle|]; [|destruct (_ || _); [done|auto]].
    apply current_Some in Ec as (_ & _ & Hb). rewrite Forall_forall in Ho. specialize (Ho _ Hin). simpl in Ho. lia.
Qed.

(** Pruning removes exactly the shard's entries before the new tail. *)
Definition expired (sid nt : Z) (order : list (StateKey * Z)) (k : StateKey) (st : SsdEntryState) : Prop :=
  shard_id (entry st) = sid /\ begin_ (entry st) < nt /\ (k, begin_ (entry st)) ∈ order.

(** When nothing is old enough, nothing is pruned. *)
Lemma prune_nothing (m : gmap StateKey SsdEntryState) sid nt order (gone : list StateKey) :
  (forall o, o ∈ order -> nt <= o.2) ->
  (forall k st, m !! k = Some st <-> m !! k = Some st /\ ~ expired sid nt order k st) /\
  (exists dropped, order = dropped ++ order) /\ (forall o, o ∈ order -> nt <= o.2) /\
  (forall k st, m !! k = Some st -> shard_id (entry st) = sid -> (k, begin_ (entry st)) ∈ order ->
     (k, begin_ (entry st)) ∈ order) /\
  (forall k, k ∈ gone <-> k ∈ gone \/ (is_Some (m !! k) /\ m !! k = None)).
Proof.
  intros Hge. unfold expired. split_and!; [|by exists []|done|done|].
  - intros k st. split; [|naive_solver]. intros ?. split; [done|]. intros (_ & ? & Hin). specialize (Hge _ Hin). simpl in Hge. lia.
  - intros k. split; [by left|]. intros [?|[[? ?] ?]]; [done|congruence].
Qed.

Lemma prune_spec m sid nt order gone m' order' gone' :
  StronglySorted (fun a b : StateKey * Z => a.2 < b.2) order ->
  prune m sid nt order gone = (m', order', gone') ->
  (forall k st, m' !! k = Some st <-> m !! k = Some st /\ ~ expired sid nt order k st) /\
  (exists dropped, order = dropped ++ order') /\ (forall o, o ∈ order' -> nt <= o.2) /\
  (forall k st, m' !! k = Some st -> shard_id (entry st) = sid -> (k, begin_ (entry st)) ∈ order ->
     (k, begin_ (entry st)) ∈ order') /\
  (forall k, k ∈ gone' <-> k ∈ gone \/ (is_Some (m !! k) /\ m' !! k = None)).
Proof.
  intros Hs. revert m gone. induction Hs as [|o order Hs IH Ho]; intros m gone; simpl.
  { intros [= <- <- <-]. apply prune_nothing. set_solver. }
  rewrite Forall_forall in Ho. destruct (current m sid o) as [st0|] eqn:Ec.
  - apply current_Some in Ec as (Hm & Hsh & Hb). destruct (Z.leb_spec nt o.2) as [Hle|Hlt].
    + intros [= <- <- <-]. apply prune_nothing. intros o' [->|Hin]%elem_of_cons; [done|]. specialize (Ho _ Hin). lia.
    + intros (Hm' & [dropped Hd] & Hge & Hl & Hg)%IH. unfold expired in *. split_and!.
      * intros k st. rewrite Hm'. destruct (decide (k = o.1)) as [->|Hne].
        { rewrite lookup_delete_eq. split; [naive_solver|]. intros [Hst Hno]. exfalso. apply Hno.
          rewrite Hm in Hst. injection Hst as <-. rewrite Hb. split_and!; [done..|].
          destruct o. left. }
        rewrite lookup_delete_ne by done. rewrite elem_of_cons. destruct o; naive_solver.
      * exists (o :: dropped). by rewrite Hd.
      * done.
      * intros k st Hk Hs' Hin. apply (Hl k st Hk Hs').
        apply elem_of_cons in Hin as [Heq|Hin]; [|done].
        apply Hm' in Hk as [Hk _]. rewrite <- Heq in Hk. simpl in Hk. by rewrite lookup_delete_eq in Hk.
      * intros k. rewrite Hg, elem_of_app, list_elem_of_singleton. destruct (decide (k = o.1)) as [->|Hne].
        { split; [|naive_solver]. intros _. right. split; [eauto|].
          destruct (m' !! o.1) as [st|] eqn:E; [|done]. apply Hm' in E as [E _]. by rewrite lookup_delete_eq in E. }
        rewrite lookup_delete_ne by done. naive_solver.
  - intros (Hm' & [dropped Hd] & Hge & Hl & Hg)%IH. unfold expired in *.
    assert (Hno : forall k st, m !! k = Some st -> shard_id (entry st) = sid -> (k, begin_ (entry st)) <> o).
    { intros k st Hk Hsh <-. rewrite (proj2 (current_Some m sid _ st)) in Ec; done. }
    split_and!.
    + intros k st. rewrite Hm', elem_of_cons. naive_solver.
    + exists (o :: dropped). by rewrite Hd.
    + done.
    + intros k st Hk Hs' [Heq|Hin]%elem_of_cons; [|by apply Hl]. apply Hm' in Hk as [Hk _].
      by apply Hno in Hk.
    + done.
Qed.

(** ** Allocation *)

(** What a successful allocation of [size] bytes in a shard does: the shard [s] becomes [s'], the
    extent starts at [b], and only entries that nobody uses are gone. *)
Record allocated (c : Counters) (ring : SsdRingBuffer) (sid size : Z) (ring' : SsdRingBuffer) (b off : Z)
    (s s' : SsdShardRing) : Prop := {
  al_shard : get_shard ring sid = Some s;
  al_shards : shards ring' = <[Z.to_nat sid := s']> (shards ring);
  al_frame : next_shard ring' = next_shard ring /\ alignment ring' = alignment ring;
  al_capacity : capacity s' = capacity s;
  al_ok : shard_ok s';
  al_head : head s' = b + size /\ tail s' <= b;
  al_size : 0 < size /\ off = b mod capacity s /\ off + size <= capacity s;
  al_below : forall o, o ∈ order s' -> o.2 < b;
  al_entries : forall k st, entries ring' !! k = Some st ->
    entries ring !! k = Some st /\
    (shard_id (entry st) = sid -> (k, begin_ (entry st)) ∈ order s' /\ begin_ (entry st) + len (entry st) <= b);
  al_gone : forall k st, entries ring !! k = Some st -> entries ring' !! k <> Some st ->
    entries ring' !! k = None /\ (forall e, st <> Writing e) /\ load c (readers (entry st)) = 0;
  al_retired : forall k, k ∈ retired ring' <-> k ∈ retired ring \/ (is_Some (entries ring !! k) /\ entries ring' !! k = None)
}.

Lemma sorted_suffix {A} (R : A -> A -> Prop) (l1 l2 : list A) :
  StronglySorted R (l1 ++ l2) -> StronglySorted R l2.
Proof. induction l1; [done|]. inversion 1; auto. Qed.

(** The extent that the head hands out. *)
Lemma extent_fits s size b :
  shard_ok s -> 0 < size <= capacity s ->
  (if u64_sub (capacity s) (head s mod capacity s) <? size
   then checked_add (head s) (u64_sub (capacity s) (head s mod capacity s)) else Some (head s)) = Some b ->
  head s <= b /\ b mod capacity s + size <= capacity s.
Proof.
  intros Hs Hsz. destruct Hs. pose proof (Z.mod_pos_bound (head s) (capacity s)) as Hm.
  rewrite u64_sub_exact by lia. destruct (Z.ltb_spec (capacity s - head s mod capacity s) size) as [Hlt|Hge].
  - unfold checked_add. destruct (_ <=? _); [|done]. intros [= <-]. split; [lia|].
    replace (head s + (capacity s - head s mod capacity s)) with ((head s / capacity s + 1) * capacity s).
    + rewrite Z.mod_mul by lia. lia.
    + pose proof (Z.div_mod (head s) (capacity s)). lia.
  - intros [= <-]. lia.
Qed.

Lemma advance_spec ring sid nt s :
  get_shard ring sid = Some s -> StronglySorted (fun a b : StateKey * Z => a.2 < b.2) (order s) ->
  (forall o, o ∈ order s -> tail s <= o.2) ->
  exists m' order' gone',
    advance_tail sid nt ring =
      mkRing (<[Z.to_nat sid := mkShard (capacity s) (head s) (Z.max (tail s) nt) order']> (shards ring))
        (next_shard ring) (alignment ring) m' gone' /\
    (forall k st, m' !! k = Some st <-> entries ring !! k = Some st /\ ~ expired sid nt (order s) k st) /\
    (exists dropped, order s = dropped ++ order') /\ (forall o, o ∈ order' -> Z.max (tail s) nt <= o.2) /\
    (forall k st, m' !! k = Some st -> shard_id (entry st) = sid -> (k, begin_ (entry st)) ∈ order s ->
       (k, begin_ (entry st)) ∈ order') /\
    (forall k, k ∈ gone' <-> k ∈ retired ring \/ (is_Some (entries ring !! k) /\ m' !! k = None)).
Proof.
  intros Hg Hs Ho. unfold advance_tail. rewrite Hg. destruct (Z.leb_spec nt (tail s)) as [Hle|Hgt].
  - exists (entries ring), (order s), (retired ring). rewrite Z.max_l by done. split_and!.
    + destruct s, ring. simpl in *. f_equal. by rewrite list_insert_id.
    + intros k st. split; [|naive_solver]. intros ?. split; [done|]. intros (_ & ? & Hin).
      specialize (Ho _ Hin). simpl in Ho. lia.
    + by exists [].
    + done.
    + done.
    + intros k. split; [by left|]. intros [?|[[? ?] ?]]; [done|congruence].
  - destruct (prune (entries ring) sid nt (order s) (retired ring)) as [[m' order'] gone'] eqn:Ep.
    apply prune_spec in Ep as (Hm & Hd & Hge & Hl & Hgone); [|done].
    exists m', order', gone'. rewrite Z.max_r by lia. split_and!; done.
Qed.

Lemma shard_entry ring sid s k st :
  ring_inv ring -> get_shard ring sid = Some s -> entries ring !! k = Some st -> shard_id (entry st) = sid ->
  (k, begin_ (entry st)) ∈ order s /\ tail s <= begin_ (entry st) /\ begin_ (entry st) + len (entry st) <= head s.
Proof.
  intros Hi Hg Hk Hsh. destruct (ri_entries _ Hi k st Hk) as [s0 He].
  pose proof (eo_shard _ _ _ _ He) as Hg'. rewrite Hsh, Hg in Hg'. injection Hg' as <-.
  pose proof (so_order _ (ri_shards _ Hi _ _ Hg) _ (eo_listed _ _ _ _ He)) as Ho. simpl in Ho.
  split_and!; [apply He|lia|apply He].
Qed.

Lemma allocate_spec c ring sid size ring' res :
  ring_inv ring -> 0 <= sid -> 0 <= size ->
  allocate_contiguous c sid size ring = (ring', res) ->
  match res with
  | None => ring' = ring
  | Some (b, off) => exists s s', allocated c ring sid size ring' b off s s'
  end.
Proof.
  intros Hi Hsid Hsize. unfold allocate_contiguous.
  destruct (get_shard ring sid) as [s|] eqn:Hg; [|by intros [= <- <-]].
  destruct (_ || _) eqn:Ez; [by intros [= <- <-]|]. apply orb_false_iff in Ez as [Ez1 Ez2].
  apply Z.eqb_neq in Ez1. apply Z.ltb_ge in Ez2. cbv zeta.
  destruct (if _ <? _ then _ else _) as [b|] eqn:Eb; [|by intros [= <- <-]].
  pose proof (ri_shards _ Hi _ _ Hg) as Hs.
  apply extent_fits in Eb as [Hhb Hfit]; [|done|lia].
  unfold checked_add. destruct (Z.leb_spec (b + size) u64_max) as [Hmax|]; [|by intros [= <- <-]].
  set (nt := saturating_sub (b + size) (capacity s)).
  destruct (pinned _ _ _ _ _) eqn:Ep; [by intros [= <- <-]|]. intros [= <- <-].
  assert (Hlt : (Z.to_nat sid < length (shards ring))%nat) by (by eapply lookup_lt_Some).
  assert (Hnt : nt <= b /\ b + size - capacity s <= nt /\ 0 <= nt)
    by (unfold nt, saturating_sub; destruct Hs; lia).
  set (s1 := mkShard (capacity s) (b + size) (tail s) (order s)).
  destruct (advance_spec (set_shard sid s1 ring) sid nt s1)
    as (m' & order' & gone' & -> & Hm & [dropped Hd] & Hge & Hl & Hgone).
  { unfold get_shard, set_shard. simpl. by rewrite list_lookup_insert_eq. }
  { apply Hs. }
  { intros o Hin. apply (so_order _ Hs o Hin). }
  simpl in *. unfold expired in Hm. exists s. eexists. split; simpl.
  - done.
  - by rewrite list_insert_insert_eq.
  - done.
  - done.
  - pose proof Hs as []. split; simpl.
    + done.
    + lia.
    + lia.
    + apply (sorted_suffix _ dropped). by rewrite <- Hd.
    + intros o Hin. specialize (Hge o Hin). assert (o ∈ order s) as Ho by (rewrite Hd; set_solver).
      specialize (so_order0 o Ho). lia.
  - destruct Hs. simpl. lia.
  - split_and!; [lia|done|done].
  - intros o Hin. assert (o ∈ order s) as Ho by (rewrite Hd; set_solver).
    pose proof (so_order _ Hs o Ho). lia.
  - intros k st Hk. pose proof Hk as [Hk' _]%Hm. split; [done|]. intros Hsh.
    destruct (shard_entry ring sid s k st Hi Hg Hk' Hsh) as (Hin & _ & ?). split; [by apply Hl|lia].
  - intros k st Hk Hne.
    assert (Hex : shard_id (entry st) = sid /\ begin_ (entry st) < nt /\ (k, begin_ (entry st)) ∈ order s).
    { apply dec_stable. intros Hno. apply Hne, Hm. done. }
    split; [|apply (pinned_false c (entries ring) sid nt (order s) k); try apply Hs; naive_solver].
    destruct (m' !! k) as [st'|] eqn:E; [|done]. apply Hm in E as [E Hno]. congruence.
  - done.
Qed.

(** ** Operations keep the invariant *)

(** Replacing the entry map by one with the same entries, or fewer. *)
Lemma set_entries_inv ring m :
  ring_inv ring ->
  (forall k st, m !! k = Some st -> exists st', entries ring !! k = Some st' /\ entry st' = entry st) ->
  ring_inv (set_entries m ring).
Proof.
  intros Hi Hm. split; [apply Hi|apply Hi| |].
  - intros k st Hk. destruct (Hm k st Hk) as (st' & Hk' & <-).
    destruct (ri_entries _ Hi k st' Hk') as [s []]. exists s. by split.
  - intros k1 k2 st1 st2 Hne H1 H2. destruct (Hm _ _ H1) as (st1' & H1' & <-).
    destruct (Hm _ _ H2) as (st2' & H2' & <-). by apply (ri_apart _ Hi k1 k2).
Qed.

Lemma delete_inv ring k : ring_inv ring -> ring_inv (set_entries (delete k (entries ring)) ring).
Proof.
  intros Hi. apply set_entries_inv; [done|]. intros k' st [_ Hk]%lookup_delete_Some. eauto.
Qed.

Lemma restate_inv ring k st st' :
  ring_inv ring -> entries ring !! k = Some st -> entry st = entry st' ->
  ring_inv (set_entries (<[k := st']> (entries ring)) ring).
Proof.
  intros Hi Hk He. apply set_entries_inv; [done|].
  intros k' st1 [[<- <-]|[_ Hk']]%lookup_insert_Some; eauto.
Qed.

Lemma payload_ge sum ss n :
  0 <= sum -> Forall (fun s => 0 <= slot_total_size s) ss -> payload sum ss = Some n -> 0 <= n.
Proof.
  intros Hsum Hss. revert sum Hsum. induction Hss as [|s ss Hs Hss IH]; intros sum Hsum; simpl.
  { by intros [= <-]. }
  unfold checked_add. destruct (_ <=? _); [|done]. apply IH. lia.
Qed.

Lemma next_multiple_ge z m n : 0 <= z -> 0 <= m -> checked_next_multiple_of z m = Some n -> z <= n.
Proof.
  intros Hz Hm. unfold checked_next_multiple_of, checked_add. destruct (Z.eqb_spec m 0); [done|].
  destruct (Z.eqb_spec (z mod m) 0); [intros [= <-]; lia|]. destruct (_ <=? _); [|done]. intros [= <-].
  pose proof (Z.mod_pos_bound z m). lia.
Qed.

Lemma find_shard_spec c size offsets ring ring' res :
  ring_inv ring -> 0 <= size -> (offsets = [] \/ shards ring <> []) ->
  find_shard c size offsets ring = (ring', res) ->
  match res with
  | None => ring' = ring
  | Some (sid, b, off) => 0 <= sid /\ exists s s', allocated c ring sid size ring' b off s s'
  end.
Proof.
  intros Hi Hsize. induction offsets as [|o offsets IH]; simpl; intros Hne; [by intros [= <- <-]|].
  destruct Hne as [?|Hne]; [done|].
  set (sid := u64_add (next_shard ring) o mod zlen (shards ring)).
  assert (0 <= sid).
  { apply Z.mod_pos_bound. unfold zlen. destruct (shards ring); [done|simpl; lia]. }
  destruct (allocate_contiguous c sid size ring) as [ring1 [[b off]|]] eqn:Ea;
    apply allocate_spec in Ea; try done.
  - intros [= <- <-]. eauto.
  - subst ring1. intros Hf. apply IH in Hf; [done|by right].
Qed.

(** What a reservation does to the index. *)
Record reserved (c : Counters) (k : StateKey) (ring ring' : SsdRingBuffer) (e : SsdIndexEntry) : Prop := {
  rv_new : entries ring !! k = None;
  rv_entry : entries ring' !! k = Some (Writing e);
  rv_inv : ring_inv ring';
  rv_others : forall k' st, k' <> k -> entries ring' !! k' = Some st -> entries ring !! k' = Some st;
  rv_gone : forall k' st, entries ring !! k' = Some st -> entries ring' !! k' = Some st \/
    (entries ring' !! k' = None /\ k' ∈ retired ring' /\ (forall e, st <> Writing e) /\
     load c (readers (entry st)) = 0);
  rv_retired : forall k', k' ∈ retired ring' -> k' ∈ retired ring \/
    (is_Some (entries ring !! k') /\ entries ring' !! k' = None)
}.

Lemma pushed_shard_ok c ring sid size ring1 b off s s' k :
  allocated c ring sid size ring1 b off s s' ->
  shard_ok (mkShard (capacity s') (head s') (tail s') (order s' ++ [(k, b)])).
Proof.
  intros Ha. pose proof (al_ok _ _ _ _ _ _ _ _ _ Ha) as []. pose proof (al_head _ _ _ _ _ _ _ _ _ Ha).
  pose proof (al_size _ _ _ _ _ _ _ _ _ Ha). pose proof (al_below _ _ _ _ _ _ _ _ _ Ha) as Hb.
  split; simpl; try done.
  - clear -so_sorted0 Hb. induction so_sorted0 as [|o l Hs IH Ho]; simpl; [repeat constructor|].
    constructor; [apply IH; intros o' ?; apply Hb; by right|].
    apply Forall_app. split; [done|]. repeat constructor. simpl. apply Hb. left.
  - intros o [Ho|Ho%list_elem_of_singleton]%elem_of_app; [by apply so_order0|]. subst o. simpl. lia.
Qed.

Lemma pushed_inv c k ss enc cell ring sid b off size ring1 s s' n r :
  ring_inv ring -> 0 <= sid -> allocated c ring sid size ring1 b off s s' ->
  ring_inv
    (mkRing (<[Z.to_nat sid := mkShard (capacity s') (head s') (tail s') (order s' ++ [(k, b)])]> (shards ring))
       n (alignment ring1) (<[k := Writing (mkEntry sid b size off ss enc cell)]> (entries ring1)) r).
Proof.
  intros Hi Hsid Ha. pose proof (pushed_shard_ok _ _ _ _ _ _ _ _ _ k Ha) as Hs2.
  set (s2 := mkShard _ _ _ _) in *. set (e := mkEntry _ _ _ _ _ _ _).
  pose proof (al_shard _ _ _ _ _ _ _ _ _ Ha) as Hg. pose proof (al_head _ _ _ _ _ _ _ _ _ Ha) as Hh.
  pose proof (al_size _ _ _ _ _ _ _ _ _ Ha) as Hsz. pose proof (al_capacity _ _ _ _ _ _ _ _ _ Ha) as Hc.
  pose proof (al_entries _ _ _ _ _ _ _ _ _ Ha) as He.
  assert (Hlt : (Z.to_nat sid < length (shards ring))%nat) by (by eapply lookup_lt_Some).
  split; simpl.
  - destruct (al_frame _ _ _ _ _ _ _ _ _ Ha) as [_ ->]. apply Hi.
  - intros i x. rewrite list_lookup_insert_Some. intros [(_ & <- & _)|[_ Hx]]; [done|by eapply ri_shards].
  - intros k' st. rewrite lookup_insert_Some. intros [[<- <-]|[Hne [Hk' Hsame]%He]].
    + exists s2. split; simpl; try done; try lia; try (subst s2; simpl; rewrite ?Hc; lia).
      * unfold get_shard. simpl. by rewrite list_lookup_insert_eq.
      * subst s2. simpl. set_solver.
    + destruct (ri_entries _ Hi k' st Hk') as [s0 E0].
      destruct (decide (shard_id (entry st) = sid)) as [Hsh|Hsh].
      * specialize (Hsame Hsh) as [Hin Hle]. pose proof (eo_shard _ _ _ _ E0) as Hg0. rewrite Hsh, Hg in Hg0.
        injection Hg0 as <-. exists s2. destruct E0. split; try done.
        -- unfold get_shard. simpl. rewrite Hsh. by rewrite list_lookup_insert_eq.
        -- subst s2. simpl. set_solver.
        -- subst s2. simpl. lia.
        -- subst s2. simpl. by rewrite Hc.
        -- subst s2. simpl. by rewrite Hc.
      * exists s0. destruct E0. split; try done. unfold get_shard in *. simpl.
        rewrite list_lookup_insert_ne; [done|lia].
  - intros k1 k2 st1 st2 Hne. rewrite !lookup_insert_Some.
    intros [[<- <-]|[Hk1 [H1 Hs1]%He]] [[<- <-]|[Hk2 [H2 Hs2']%He]] Hsh; simpl in *; [done| | |by apply (ri_apart _ Hi k1 k2)].
    + right. simpl. by apply Hs2'.
    + left. simpl. by apply Hs1.
Qed.

Lemma reserve_inserts c k ss enc cell ring sid b off size ring1 s s' :
  ring_inv ring -> entries ring !! k = None -> 0 <= sid -> allocated c ring sid size ring1 b off s s' ->
  let e := mkEntry sid b size off ss enc cell in
  reserved c k ring
    (mkRing (alter (fun s => mkShard (capacity s) (head s) (tail s) (order s ++ [(k, b)])) (Z.to_nat sid) (shards ring1))
       ((sid + 1) mod zlen (shards ring1)) (alignment ring1) (<[k := Writing e]> (entries ring1)) (retired ring1)) e.
Proof.
  intros Hi Hk Hsid Ha e.
  assert (Hlt : (Z.to_nat sid < length (shards ring))%nat) by (eapply lookup_lt_Some, Ha).
  set (s2 := mkShard (capacity s') (head s') (tail s') (order s' ++ [(k, b)])).
  assert (Hsh : alter (fun s => mkShard (capacity s) (head s) (tail s) (order s ++ [(k, b)])) (Z.to_nat sid) (shards ring1)
                = <[Z.to_nat sid := s2]> (shards ring)).
  { rewrite (al_shards _ _ _ _ _ _ _ _ _ Ha). apply list_eq. intros i. destruct (decide (i = Z.to_nat sid)) as [->|].
    - rewrite list_lookup_alter_eq, !list_lookup_insert_eq by done. done.
    - by rewrite list_lookup_alter_ne, !list_lookup_insert_ne. }
  rewrite Hsh. split; simpl.
  - done.
  - apply lookup_insert_eq.
  - by eapply pushed_inv.
  - intros k' st Hne. rewrite lookup_insert_ne by done. intros [? _]%(al_entries _ _ _ _ _ _ _ _ _ Ha). done.
  - intros k' st Hk'. assert (k' <> k) by congruence. rewrite lookup_insert_ne by done.
    destruct (decide (is_Some (entries ring1 !! k'))) as [[st' Hst']|Hnone].
    + left. pose proof Hst' as [? _]%(al_entries _ _ _ _ _ _ _ _ _ Ha). congruence.
    + right. apply eq_None_not_Some in Hnone.
      destruct (al_gone _ _ _ _ _ _ _ _ _ Ha k' st Hk') as (? & ? & ?); [congruence|].
      split_and!; try done. apply (al_retired _ _ _ _ _ _ _ _ _ Ha). right. eauto.
  - intros k' [?|[? Hn]]%(al_retired _ _ _ _ _ _ _ _ _ Ha); [by left|right]. split; [done|].
    rewrite lookup_insert_ne; [done|]. intros <-. rewrite Hk in *. by destruct H.
Qed.

Lemma reserve_spec c cell k ss enc ring ring' res :
  ring_inv ring -> Forall (fun s => 0 <= slot_total_size s) ss ->
  reserve c cell k ss enc ring = (ring', res) ->
  match res with
  | None => ring' = ring
  | Some e => reserved c k ring ring' e /\ readers e = cell /\ slots e = ss /\ encoding e = enc
  end.
Proof.
  intros Hi Hss. unfold reserve. destruct (entries ring !! k) eqn:Ek; [by intros [= <- <-]|].
  destruct (payload 0 ss) as [n|] eqn:Ep; [|by intros [= <- <-]]. apply payload_ge in Ep; [|lia|done].
  destruct (checked_next_multiple_of n (alignment ring)) as [size|] eqn:Em; [|by intros [= <- <-]].
  apply next_multiple_ge in Em; [|done|apply Hi].
  destruct (find_shard c size _ ring) as [ring1 [[[sid b] off]|]] eqn:Ef; apply find_shard_spec in Ef;
    try done; try lia.
  - destruct Ef as (Hsid & s & s' & Ha). intros [= <- <-]. split_and!; [by eapply reserve_inserts|done..].
  - destruct (shards ring); [by left|by right].
  - subst ring1. by intros [= <- <-].
  - destruct (shards ring); [by left|by right].
Qed.

Lemma new_sharded_inv capacities align ring :
  Forall is_u64 capacities -> 0 <= align -> new_sharded capacities align = Some ring -> ring_inv ring.
Proof.
  intros Hc Ha Hn. assert (ring = mkRing ((fun c => mkShard c 0 0 []) <$> capacities) 0 align ∅ []) as ->.
  { unfold new_sharded in Hn. by destruct capacities; simplify_eq. }
  split; cbn [alignment shards entries].
  - done.
  - intros i s Hs. apply list_lookup_fmap_Some in Hs as (c & -> & Hl). apply list_elem_of_lookup_2 in Hl.
    rewrite Forall_forall in Hc. specialize (Hc c Hl). unfold is_u64 in Hc.
    split; simpl; try lia; [constructor|set_solver].
  - intros k st Hk. by rewrite lookup_empty in Hk.
  - intros k1 k2 st1 st2 _ Hk. by rewrite lookup_empty in Hk.
Qed.
