(* ===== verification/SsdStore.v ===== *)
(** * The SSD store

    [orbitkv-core/src/storage/ssd/mod.rs] with the reservation part of [writer.rs]: write
    admission, the write and read leases around the ring of [SsdRing], and the publication of
    residency changes.  Every method runs its critical section under one lock; what it does
    afterwards (publishing changes, dropping a reader's count) interleaves with other threads, so
    the state lists the leases in use and the changes each thread has still to publish. *)
From S2P Require Import Prelude Containers State Inventory Blocks SsdRing.

Local Open Scope Z_scope.

Inductive SsdWritePolicy := PolicyAll | PolicyReuse.
#[export] Instance SsdWritePolicy_eq_dec : EqDecision SsdWritePolicy.
Proof. solve_decision. Defined.

(** A write between its admission and [commit_write]. *)
Inductive WriteStage :=
| Queued
| Refused
| Reserved (e : SsdIndexEntry).

Abbreviation Change := (StateKey * option ReplicaMetadata)%type.

Section Store.
(** The reuse history is an external LRU cache; [get] refreshes an entry. *)
Context {History : Type} (lru_get : History -> StateKey -> History * bool)
  (lru_contains : History -> StateKey -> bool) (lru_insert : History -> StateKey -> History).
Context (size_of_record : Z) (policy : SsdWritePolicy).

Record SsdState := mkState {
  ring : SsdRingBuffer;
  counters : Counters;
  next_cell : Z;
  pending_writes : gset StateKey;
  reuse_history : History;
  inventory : Inventory;
  (** write leases and queued writes, read leases, dropped leases that have still to tell the ring *)
  writers : list (StateKey * WriteStage);
  read_leases : list (StateKey * SsdIndexEntry);
  releasing : list (StateKey * SsdIndexEntry);
  (** the changes of threads that left their critical section *)
  outbox : list (list Change)
}.

Definition set_ring (r : SsdRingBuffer) (s : SsdState) : SsdState :=
  mkState r (counters s) (next_cell s) (pending_writes s) (reuse_history s) (inventory s) (writers s)
    (read_leases s) (releasing s) (outbox s).
Definition set_counters (c : Counters) (s : SsdState) : SsdState :=
  mkState (ring s) c (next_cell s) (pending_writes s) (reuse_history s) (inventory s) (writers s)
    (read_leases s) (releasing s) (outbox s).
Definition set_history (h : History) (s : SsdState) : SsdState :=
  mkState (ring s) (counters s) (next_cell s) (pending_writes s) h (inventory s) (writers s)
    (read_leases s) (releasing s) (outbox s).
Definition set_writers (p : gset StateKey) (w : list (StateKey * WriteStage)) (s : SsdState) : SsdState :=
  mkState (ring s) (counters s) (next_cell s) p (reuse_history s) (inventory s) w
    (read_leases s) (releasing s) (outbox s).
Definition set_leases (l d : list (StateKey * SsdIndexEntry)) (s : SsdState) : SsdState :=
  mkState (ring s) (counters s) (next_cell s) (pending_writes s) (reuse_history s) (inventory s) (writers s)
    l d (outbox s).
(** A thread leaves its critical section with changes to publish. *)
Definition leave (changes : list Change) (s : SsdState) : SsdState :=
  mkState (ring s) (counters s) (next_cell s) (pending_writes s) (reuse_history s) (inventory s) (writers s)
    (read_leases s) (releasing s) (outbox s ++ [changes]).

(** [SsdInner::admission_skip]. *)
Definition admission_skip (k : StateKey) (reused : bool) (s : SsdState) : SsdState * option string :=
  if match get (ring s) k with Some _ => true | None => false end then (s, Some "resident"%string)
  else if bool_decide (k ∈ pending_writes s) then (s, Some "pending"%string)
  else if bool_decide (policy = PolicyReuse) then
    let (h, seen) := lru_get (reuse_history s) k in
    let s := set_history (lru_insert h k) s in
    if negb reused && negb seen then (s, Some "cold"%string) else (s, None)
  else (s, None).

(** [ring.reserve] with the counter that [Arc::new] allocates. *)
Definition reserve_extent (k : StateKey) (ss : list SlotMeta) (enc : Encoding) (s : SsdState)
    : SsdState * option SsdIndexEntry :=
  match reserve (counters s) (next_cell s) k ss enc (ring s) with
  | (r, None) => (set_ring r s, None)
  | (r, Some e) =>
      (mkState r (<[next_cell s := 0]> (counters s)) (next_cell s + 1) (pending_writes s) (reuse_history s)
         (inventory s) (writers s) (read_leases s) (releasing s) (outbox s), Some e)
  end.

(** [take_retired]: the changes that withdraw the retired keys. *)
Definition withdraw_retired (s : SsdState) : SsdState * list Change :=
  let (r, gone) := take_retired (ring s) in (set_ring r s, (fun k => (k, None)) <$> gone).

Definition slots_encoding (ss : list SlotMeta) : Encoding :=
  if existsb (fun s => match slot_encoding s with Some _ => true | None => false end) ss
  then Encoded else ERaw.

(** [reserve_gpu] with GPU I/O [available]. *)
Definition reserve_gpu (available : bool) (k : StateKey) (ss : list SlotMeta) (s : SsdState)
    : SsdState * option SsdIndexEntry :=
  if negb available then (s, None)
  else if bool_decide (policy = PolicyReuse) && negb (lru_contains (reuse_history s) k) then (s, None)
  else
    match admission_skip k false s with
    | (s, Some _) => (s, None)
    | (s, None) =>
        match reserve_extent k ss (slots_encoding ss) s with
        | (s, None) => (s, None)
        | (s, Some e) =>
            let (s, gone) := withdraw_retired s in
            (leave gone (set_writers ({[k]} ∪ pending_writes s) (writers s ++ [(k, Reserved e)]) s), Some e)
        end
    end.

(** The admission loop of [ingest_batch]. *)
Fixpoint admit_blocks (ks : list StateKey) (reused : bool) (seen : gset StateKey)
    (acc : list StateKey) (s : SsdState) : SsdState * list StateKey :=
  match ks with
  | [] => (s, acc)
  | k :: rest =>
      if bool_decide (k ∈ seen) then admit_blocks rest reused seen acc s
      else match admission_skip k reused s with
           | (s, Some _) => admit_blocks rest reused ({[k]} ∪ seen) acc s
           | (s, None) => admit_blocks rest reused ({[k]} ∪ seen) (acc ++ [k]) s
           end
  end.

(** [ingest_batch_diagnostic] without its metrics; [room] is the outcome of [try_reserve]. *)
Definition ingest_batch (ks : list StateKey) (reused room : bool) (s : SsdState) : SsdState :=
  if reused && bool_decide (policy = PolicyAll) then s
  else
    let (s, chosen) := admit_blocks ks reused ∅ [] s in
    match chosen with
    | [] => s
    | _ => if room
           then set_writers (pending_writes s ∪ list_to_set chosen)
                  (writers s ++ ((fun k => (k, Queued)) <$> chosen)) s
           else s
    end.

(** The writer loop finds that the source of a queued write is gone. *)
Definition drop_queued (i : nat) (s : SsdState) : SsdState :=
  match writers s !! i with
  | Some (k, Queued) => set_writers (pending_writes s ∖ {[k]}) (delete i (writers s)) s
  | _ => s
  end.

(** The reservation of [execute_write]. *)
Definition execute_write (i : nat) (ss : list SlotMeta) (s : SsdState) : SsdState :=
  match writers s !! i with
  | Some (k, Queued) =>
      let (s, e) := reserve_extent k ss (slots_encoding ss) s in
      let (s, gone) := withdraw_retired s in
      let stage := match e with Some e => Reserved e | None => Refused end in
      leave gone (set_writers (pending_writes s) (<[i := (k, stage)]> (writers s)) s)
  | _ => s
  end.

(** [commit_write]: the critical section, then the changes the caller publishes in order. *)
Definition commit_write (k : StateKey) (success : bool) (s : SsdState) : SsdState :=
  let (r, committed) := commit k success (ring s) in
  let s := set_ring r s in
  let metadata := if committed then replica_metadata <$> get (ring s) k else None in
  let (s, gone) := withdraw_retired s in
  let s := set_writers (pending_writes s ∖ {[k]}) (writers s) s in
  leave (gone ++ match metadata with Some md => [(k, Some md)] | None => [] end) s.

(** A write ends: the GPU lease commits or is dropped, or the writer loop sees its result.  A write
    without an extent has failed. *)
Definition finish_write (i : nat) (success : bool) (s : SsdState) : SsdState :=
  match writers s !! i with
  | Some (k, Reserved _) => commit_write k success (set_writers (pending_writes s) (delete i (writers s)) s)
  | Some (k, Refused) => commit_write k false (set_writers (pending_writes s) (delete i (writers s)) s)
  | _ => s
  end.

(** [SsdReadCandidate::pin]: [Arc::ptr_eq] on the counters identifies the generation. *)
Definition pin (k : StateKey) (candidate : SsdIndexEntry) (s : SsdState) : SsdState * bool :=
  match get (ring s) k with
  | None => (s, false)
  | Some e =>
      if negb (readers e =? readers candidate) then (s, false)
      else (set_leases (read_leases s ++ [(k, e)]) (releasing s)
              (set_counters (<[readers e := load (counters s) (readers e) + 1]> (counters s)) s), true)
  end.

(** [pin_residencies]. *)
Definition pin_residencies (records : list InventoryRecord) (s : SsdState) : SsdState * bool :=
  if bool_decide (records = []) || negb (forallb (fun r => contains_record (inventory s) r Ssd) records)
  then (s, false)
  else
    match mapM (fun r => get (ring s) (key r)) records with
    | None => (s, false)
    | Some es =>
        (foldl (fun s p =>
           set_leases (read_leases s ++ [(key p.1, p.2)]) (releasing s)
             (set_counters (<[readers p.2 := load (counters s) (readers p.2) + 1]> (counters s)) s))
           s (zip records es), true)
    end.

(** [Drop for SsdReadLease]: the count goes down first; the last reader then tells the ring. *)
Definition drop_lease (i : nat) (s : SsdState) : SsdState :=
  match read_leases s !! i with
  | None => s
  | Some (k, e) =>
      let previous := load (counters s) (readers e) in
      set_leases (delete i (read_leases s))
        (if previous =? 1 then releasing s ++ [(k, e)] else releasing s)
        (set_counters (<[readers e := previous - 1]> (counters s)) s)
  end.

Definition finish_release (i : nat) (s : SsdState) : SsdState :=
  match releasing s !! i with
  | None => s
  | Some (k, e) =>
      set_leases (read_leases s) (delete i (releasing s))
        (set_ring (release_invalid (counters s) k e (ring s)) s)
  end.

(** [SsdReadLease::invalidate_encoded] by the holder of a lease. *)
Definition invalidate_lease (i : nat) (s : SsdState) : SsdState :=
  match read_leases s !! i with
  | None => s
  | Some (k, e) =>
      let (r, invalidated) := invalidate_encoded (counters s) k e (ring s) in
      let s := set_ring r s in
      if invalidated then leave [(k, None)] s else s
  end.

(** A thread publishes its next change. *)
Definition publish (i : nat) (t : Z) (s : SsdState) : SsdState :=
  match outbox s !! i with
  | Some ((k, md) :: rest) =>
      match change size_of_record (inventory s) k Ssd md t with
      | Some inv =>
          mkState (ring s) (counters s) (next_cell s) (pending_writes s) (reuse_history s) inv (writers s)
            (read_leases s) (releasing s) (<[i := rest]> (outbox s))
      | None => s
      end
  | _ => s
  end.

(** Everything that can happen to a store. *)
Inductive SsdEvent :=
| EvIngest (ks : list StateKey) (reused room : bool)
| EvDropQueued (i : nat)
| EvExecute (i : nat) (ss : list SlotMeta)
| EvReserveGpu (available : bool) (k : StateKey) (ss : list SlotMeta)
| EvFinishWrite (i : nat) (success : bool)
| EvPin (k : StateKey) (candidate : SsdIndexEntry)
| EvPinResidencies (records : list InventoryRecord)
| EvDropLease (i : nat)
| EvFinishRelease (i : nat)
| EvInvalidate (i : nat)
| EvPublish (i : nat) (t : Z).

Definition ssd_step (s : SsdState) (x : SsdEvent) : SsdState :=
  match x with
  | EvIngest ks reused room => ingest_batch ks reused room s
  | EvDropQueued i => drop_queued i s
  | EvExecute i ss => execute_write i ss s
  | EvReserveGpu available k ss => (reserve_gpu available k ss s).1
  | EvFinishWrite i success => finish_write i success s
  | EvPin k candidate => (pin k candidate s).1
  | EvPinResidencies records => (pin_residencies records s).1
  | EvDropLease i => drop_lease i s
  | EvFinishRelease i => finish_release i s
  | EvInvalidate i => invalidate_lease i s
  | EvPublish i t => publish i t s
  end.

Definition ssd_run (s : SsdState) (xs : list SsdEvent) : SsdState := foldl ssd_step s xs.

(** A store over new files. *)
Definition ssd_new (r : SsdRingBuffer) (h : History) (inv : Inventory) : SsdState :=
  mkState r ∅ 0 ∅ h inv [] [] [] [].
End Store.
