(* ===== verification/SsdStoreInv.v ===== *)
(** * The SSD store is safe

    The invariant of [SsdStore]: reader counts are the leases in use, a lease's generation stays
    indexed, every extent being written has exactly one writer.  No file range that is being
    written or read is ever handed to another write. *)
From S2P Require Import Prelude Containers State Inventory Blocks SsdRing SsdStore.

Local Open Scope Z_scope.

Section Safety.
Context {History : Type} (lru_get : History -> StateKey -> History * bool)
  (lru_contains : History -> StateKey -> bool) (lru_insert : History -> StateKey -> History).
Context (size_of_record : Z) (policy : SsdWritePolicy).
Abbreviation SsdState := (@SsdState History).
Implicit Types s : SsdState.
Abbreviation ssd_step := (ssd_step lru_get lru_contains lru_insert size_of_record policy).

(** The leases on a counter. *)
Definition leases_on (l : list (StateKey * SsdIndexEntry)) (cell : Z) : Z :=
  zlen (filter (fun p => readers p.2 = cell) l).

Record store_inv (s : SsdState) : Prop := {
  si_ring : ring_inv (ring s);
  si_cells : forall k st, entries (ring s) !! k = Some st -> readers (entry st) < next_cell s;
  si_distinct : forall k1 k2 st1 st2, entries (ring s) !! k1 = Some st1 -> entries (ring s) !! k2 = Some st2 ->
    readers (entry st1) = readers (entry st2) -> k1 = k2;
  si_counts : forall cell, load (counters s) cell = leases_on (read_leases s) cell;
  si_leases : forall k e, (k, e) ∈ read_leases s ->
    entries (ring s) !! k = Some (Committed e) \/ entries (ring s) !! k = Some (Invalid e);
  si_writers : NoDup (writers s).*1;
  si_pending : forall k, k ∈ (writers s).*1 -> k ∈ pending_writes s;
  si_writing : forall k e, entries (ring s) !! k = Some (Writing e) <-> (k, Reserved e) ∈ writers s
}.

Lemma leases_on_nonneg l cell : 0 <= leases_on l cell.
Proof. apply zlen_nonneg. Qed.

Lemma leases_on_pos l k e : (k, e) ∈ l -> 0 < leases_on l (readers e).
Proof.
  intros Hin. unfold leases_on, zlen. assert ((k, e) ∈ filter (fun p => readers p.2 = readers e) l) as H
    by (by apply list_elem_of_filter). destruct (filter _ l); [set_solver|simpl; lia].
Qed.

Lemma leases_on_app l l' cell : leases_on (l ++ l') cell = leases_on l cell + leases_on l' cell.
Proof. unfold leases_on. by rewrite filter_app, zlen_app. Qed.

Lemma leases_on_one (k : StateKey) e cell :
  leases_on [(k, e)] cell = if decide (readers e = cell) then 1 else 0.
Proof. unfold leases_on. rewrite filter_cons, filter_nil. simpl. by destruct (decide _). Qed.

Lemma leases_on_delete l i k e cell :
  l !! i = Some (k, e) ->
  leases_on (delete i l) cell = leases_on l cell - if decide (readers e = cell) then 1 else 0.
Proof.
  intros Hi. pose proof (leases_on_one k e cell) as H1.
  assert (Hl : leases_on l cell = leases_on (take i l) cell + (leases_on [(k, e)] cell + leases_on (drop (S i) l) cell)).
  { rewrite <- !leases_on_app. f_equal. rewrite <- (take_drop_middle l i (k, e) Hi) at 1. done. }
  rewrite delete_take_drop, leases_on_app. lia.
Qed.

(** A lease keeps its entry from being dropped. *)
Lemma leased_entry s k st :
  store_inv s -> entries (ring s) !! k = Some st -> load (counters s) (readers (entry st)) = 0 ->
  forall e, (k, e) ∉ read_leases s.
Proof.
  intros Hi Hk Hz e Hin. pose proof (leases_on_pos _ _ _ Hin).
  rewrite (si_counts _ Hi) in Hz. destruct (si_leases _ Hi k e Hin) as [He|He]; rewrite Hk in He;
    injection He as ->; simpl in Hz; lia.
Qed.

(** ** Admission *)

(** Admission changes the reuse history only, and an admitted key has no writer. *)
Lemma admission_skip_spec k reused s :
  let '(s', skip) := admission_skip lru_get lru_insert policy k reused s in
  (exists h, s' = set_history h s) /\ (skip = None -> k ∉ pending_writes s).
Proof.
  assert (Hid : exists h, s = set_history h s) by (exists (reuse_history s); by destruct s).
  unfold admission_skip. destruct (match get _ _ with Some _ => _ | None => _ end); [done|].
  destruct (bool_decide (k ∈ pending_writes s)) eqn:Ep; [done|]. apply bool_decide_eq_false in Ep.
  destruct (bool_decide _); [|done]. destruct (lru_get _ _) as [h seen].
  destruct (_ && _); split; try done; by eexists.
Qed.

Lemma set_history_inv h s : store_inv s -> store_inv (set_history h s).
Proof. intros []. by split. Qed.

Lemma admit_blocks_spec ks reused seen acc s :
  NoDup acc -> (forall k, k ∈ acc -> k ∈ seen /\ k ∉ pending_writes s) ->
  let '(s', chosen) := admit_blocks lru_get lru_insert policy ks reused seen acc s in
  (exists h, s' = set_history h s) /\ NoDup chosen /\ (forall k, k ∈ chosen -> k ∉ pending_writes s).
Proof.
  revert seen acc s. induction ks as [|k ks IH]; intros seen acc s Hnd Hacc; simpl.
  { split_and!; [exists (reuse_history s); by destruct s|done|]. intros k Hk. by apply Hacc. }
  destruct (bool_decide (k ∈ seen)) eqn:Es; [by apply IH|]. apply bool_decide_eq_false in Es.
  pose proof (admission_skip_spec k reused s) as Ha.
  destruct (admission_skip _ _ _ _ _ _) as [s1 skip]. destruct Ha as [[h ->] Hp]. destruct skip as [why|].
  - specialize (IH ({[k]} ∪ seen) acc (set_history h s) Hnd). simpl in IH.
    destruct (admit_blocks _ _ _ _ _ _ _ _) as [s' chosen].
    destruct IH as ([h' ->] & ? & ?); [|split_and!; [by exists h'|done..]].
    intros k' Hk'. destruct (Hacc k' Hk'). set_solver.
  - specialize (IH ({[k]} ∪ seen) (acc ++ [k]) (set_history h s)). simpl in IH.
    destruct (admit_blocks _ _ _ _ _ _ _ _) as [s' chosen].
    destruct IH as ([h' ->] & ? & ?); [| |split_and!; [by exists h'|done..]].
    + apply NoDup_app. split_and!; [done| |apply NoDup_singleton].
      intros k' Hk' ->%list_elem_of_singleton. by destruct (Hacc k Hk').
    + intros k' [Hk'| ->%list_elem_of_singleton]%elem_of_app; [|split; [set_solver|auto]].
      destruct (Hacc k' Hk'). set_solver.
Qed.

Lemma ingest_batch_inv ks reused room s :
  store_inv s -> store_inv (ingest_batch lru_get lru_insert policy ks reused room s).
Proof.
  intros Hi. unfold ingest_batch. destruct (_ && _); [done|].
  pose proof (admit_blocks_spec ks reused ∅ [] s) as Ha. destruct (admit_blocks _ _ _ _ _ _ _ _) as [s' chosen].
  destruct Ha as ([h ->] & Hnd & Hp); [constructor|set_solver|].
  pose proof (set_history_inv h s Hi) as Hi'. destruct chosen as [|k0 rest]; [done|].
  set (chosen := k0 :: rest) in *. clearbody chosen. destruct room; [|done].
  destruct Hi'. split; simpl in *; try done; rewrite ?fmap_app, <- ?list_fmap_compose; simpl.
  - change (fst ∘ _) with (@id StateKey). rewrite list_fmap_id. apply NoDup_app. split_and!; [done| |done].
    intros k Hk Hin. by apply (Hp k Hin), si_pending0.
  - change (fst ∘ _) with (@id StateKey). rewrite list_fmap_id. set_solver.
  - intros k e. rewrite si_writing0, elem_of_app, list_elem_of_fmap. split; [by left|].
    intros [?|(k' & ? & _)]; done.
Qed.

(** ** Writes *)

(** Retired keys, published changes and releases in progress do not matter to the invariant. *)
Lemma set_ring_inv r s :
  store_inv s -> ring_inv r -> entries r = entries (ring s) -> store_inv (set_ring r s).
Proof. intros [] Hr He. split; simpl; rewrite ?He; done. Qed.

Lemma retired_irrelevant r gone :
  ring_inv r -> ring_inv (mkRing (shards r) (next_shard r) (alignment r) (entries r) gone).
Proof.
  intros Hr. split; [apply Hr|apply Hr| |apply Hr].
  intros k st Hk. destruct (ri_entries _ Hr k st Hk) as [x []]. exists x. by split.
Qed.

Lemma withdrawn_inv p w s :
  store_inv (set_writers p w s) ->
  store_inv (set_writers p w (set_ring (mkRing (shards (ring s)) (next_shard (ring s)) (alignment (ring s))
                                          (entries (ring s)) []) s)).
Proof.
  intros Hi. pose proof (si_ring _ Hi) as Hr. destruct Hi. split; simpl in *; try done.
  by apply retired_irrelevant.
Qed.

Lemma leave_inv changes s : store_inv s -> store_inv (leave changes s).
Proof. intros []. by split. Qed.

(** Between the reservation and the registration of its writer. *)
Record extent_reserved (k : StateKey) (e : SsdIndexEntry) (s s' : SsdState) : Prop := {
  er_writers : writers s' = writers s /\ pending_writes s' = pending_writes s /\ read_leases s' = read_leases s;
  er_new : forall e', (k, Reserved e') ∉ writers s;
  er_inv : forall p w, NoDup w.*1 -> (forall k, k ∈ w.*1 -> k ∈ p) ->
    (forall k' e', (k', Reserved e') ∈ w <-> (k', Reserved e') ∈ writers s \/ (k' = k /\ e' = e)) ->
    store_inv (set_writers p w s')
}.

Lemma reserve_extent_spec k ss enc s :
  store_inv s -> Forall (fun x => 0 <= slot_total_size x) ss ->
  let '(s', res) := reserve_extent k ss enc s in
  match res with None => s' = s | Some e => extent_reserved k e s s' end.
Proof.
  intros Hi Hss. unfold reserve_extent.
  destruct (reserve _ _ _ _ _ _) as [r [e|]] eqn:Er; apply reserve_spec in Er; try done; try apply Hi;
    [|subst r; by destruct s].
  destruct Er as ([Hnew He Hr Hold Hgone _] & Hcell & _).
  assert (Hlive : forall k' e', (k', e') ∈ read_leases s -> k' <> k /\
    (entries r !! k' = Some (Committed e') \/ entries r !! k' = Some (Invalid e'))).
  { intros k' e' Hin. pose proof (si_leases _ Hi k' e' Hin) as Hl.
    split; [intros ->; destruct Hl; congruence|].
    assert (exists st, entries (ring s) !! k' = Some st /\ entry st = e') as (st & Hst & Hste)
      by (destruct Hl; eauto).
    pose proof (Hgone k' st Hst) as [Hst'|(_ & _ & _ & Hz)]; [destruct Hl; [left|right]; congruence|].
    by destruct (leased_entry s k' st Hi Hst Hz e'). }
  split; [done| |].
  - intros e' Hw. apply (si_writing _ Hi) in Hw. congruence.
  - intros p w Hnd Hp Hw. split; simpl.
    + done.
    + intros k' st Hk'. destruct (decide (k' = k)) as [->|Hne].
      * rewrite He in Hk'. injection Hk' as <-. simpl. lia.
      * apply Hold in Hk'; [|done]. pose proof (si_cells _ Hi k' st Hk'). lia.
    + intros k1 k2 st1 st2 H1 H2 Heq. destruct (decide (k1 = k)) as [->|Hn1], (decide (k2 = k)) as [->|Hn2]; try done.
      * rewrite He in H1. injection H1 as <-. apply Hold in H2; [|done].
        pose proof (si_cells _ Hi k2 st2 H2). simpl in Heq. lia.
      * rewrite He in H2. injection H2 as <-. apply Hold in H1; [|done].
        pose proof (si_cells _ Hi k1 st1 H1). simpl in Heq. lia.
      * apply Hold in H1, H2; [|done..]. by apply (si_distinct _ Hi k1 k2 st1 st2).
    + intros cell. rewrite <- (si_counts _ Hi). unfold load. destruct (decide (cell = next_cell s)) as [->|].
      * rewrite lookup_insert_eq. simpl. symmetry. change (load (counters s) (next_cell s) = 0).
        rewrite (si_counts _ Hi). unfold leases_on. destruct (filter _ _) as [|[k' e'] l] eqn:Ef; [done|].
        assert (Hin : (k', e') ∈ filter (fun p => readers p.2 = next_cell s) (read_leases s)) by (rewrite Ef; left).
        apply list_elem_of_filter in Hin as [Hc Hin]. simpl in Hc.
        destruct (si_leases _ Hi k' e' Hin) as [Hl|Hl]; apply (si_cells _ Hi) in Hl; simpl in Hl; lia.
      * by rewrite lookup_insert_ne.
    + intros k' e' Hin. by apply Hlive.
    + done.
    + done.
    + intros k' e'. rewrite Hw, <- (si_writing _ Hi). destruct (decide (k' = k)) as [->|Hne].
      * rewrite He, Hnew. naive_solver.
      * split.
        -- intros Hk'. left. by apply Hold.
        -- intros [Hk'|[? _]]; [|done]. destruct (Hgone k' _ Hk') as [?|(_ & _ & Hno & _)]; [done|].
           by destruct (Hno e').
Qed.

Lemma reserve_gpu_inv available k ss s :
  store_inv s -> Forall (fun x => 0 <= slot_total_size x) ss ->
  store_inv (reserve_gpu lru_get lru_contains lru_insert policy available k ss s).1.
Proof.
  intros Hi Hss. unfold reserve_gpu. destruct (negb available); [done|]. destruct (_ && _); [done|].
  pose proof (admission_skip_spec k false s) as Ha. destruct (admission_skip _ _ _ _ _ _) as [s1 skip].
  destruct Ha as [[h ->] Hp]. pose proof (set_history_inv h s Hi) as Hi1. destruct skip; [done|].
  pose proof (reserve_extent_spec k ss (slots_encoding ss) _ Hi1 Hss) as Hr.
  destruct (reserve_extent _ _ _ _) as [s2 [e|]]; [|by subst s2]. simpl. apply leave_inv.
  destruct Hr as [(Hw & Hpe & _) Hnew Hinv]. simpl in *. rewrite Hw, Hpe.
  apply withdrawn_inv, Hinv.
  - rewrite fmap_app. apply NoDup_app. split_and!; [apply Hi| |apply NoDup_singleton].
    intros k' Hk' ->%list_elem_of_singleton. apply (Hp eq_refl). by apply (si_pending _ Hi).
  - intros k'. rewrite fmap_app. pose proof (si_pending _ Hi k'). set_solver.
  - intros k' e'. rewrite elem_of_app, list_elem_of_singleton. naive_solver.
Qed.

Lemma writers_delete (w : list (StateKey * WriteStage)) i k x :
  NoDup w.*1 -> w !! i = Some (k, x) ->
  NoDup (delete i w).*1 /\ forall k' y, (k', y) ∈ delete i w <-> (k', y) ∈ w /\ k' <> k.
Proof.
  intros Hnd Hi. assert (Hw : Permutation w ((k, x) :: delete i w)) by (by apply delete_Permutation).
  pose proof Hnd as Hnd'. rewrite Hw in Hnd'. apply NoDup_cons in Hnd' as [Hk Hnd']. split; [done|].
  intros k' y. rewrite Hw at 2. rewrite elem_of_cons. split; [|naive_solver]. intros Hin. split; [by right|].
  intros ->. apply Hk. apply list_elem_of_fmap. by exists (k, y).
Qed.

Lemma writers_insert (w : list (StateKey * WriteStage)) i k x y :
  NoDup w.*1 -> w !! i = Some (k, x) ->
  (<[i := (k, y)]> w).*1 = w.*1 /\
  forall k' z, (k', z) ∈ <[i := (k, y)]> w <-> ((k', z) ∈ w /\ k' <> k) \/ (k' = k /\ z = y).
Proof.
  intros Hnd Hi. pose proof (lookup_lt_Some _ _ _ Hi) as Hlt. split.
  - rewrite list_fmap_insert. apply list_insert_id. by rewrite list_lookup_fmap, Hi.
  - destruct (writers_delete w i k x Hnd Hi) as [_ Hd]. intros k' z. rewrite <- Hd.
    assert (Hw : Permutation (<[i := (k, y)]> w) ((k, y) :: delete i w)).
    { rewrite (delete_Permutation (<[i := (k, y)]> w) i (k, y)) by (by apply list_lookup_insert_eq).
      f_equiv. rewrite !delete_take_drop, take_insert_ge, drop_insert_lt by lia. done. }
    rewrite Hw, elem_of_cons. naive_solver.
Qed.

Lemma sole_writer s i k x y : store_inv s -> writers s !! i = Some (k, x) -> (k, y) ∈ writers s -> y = x.
Proof.
  intros Hi Hw [j Hj]%list_elem_of_lookup. assert (i = j) as <-; [|congruence].
  eapply NoDup_lookup; [apply (si_writers _ Hi)| |]; rewrite list_lookup_fmap, ?Hw, ?Hj; done.
Qed.

Lemma execute_write_inv i ss s :
  store_inv s -> Forall (fun x => 0 <= slot_total_size x) ss -> store_inv (execute_write i ss s).
Proof.
  intros Hi Hss. unfold execute_write. destruct (writers s !! i) as [[k []]|] eqn:Ew; try done.
  pose proof (reserve_extent_spec k ss (slots_encoding ss) s Hi Hss) as Hr.
  destruct (reserve_extent _ _ _ _) as [s1 e]. simpl. apply leave_inv.
  assert (Hno : forall e', (k, Reserved e') ∉ writers s).
  { intros e' Hin. by pose proof (sole_writer _ _ _ _ _ Hi Ew Hin). }
  destruct e as [e|].
  - destruct Hr as [(Hw & Hpe & _) Hnew Hinv]. rewrite Hw, Hpe.
    destruct (writers_insert (writers s) i k Queued (Reserved e) (si_writers _ Hi) Ew) as [Hk Hin].
    apply withdrawn_inv, Hinv; rewrite ?Hk; try apply Hi.
    intros k' e'. rewrite Hin. split; [naive_solver|]. intros [?|[-> ->]]; [|naive_solver].
    destruct (decide (k' = k)) as [->|]; [by destruct (Hno e')|naive_solver].
  - subst s1. destruct (writers_insert (writers s) i k Queued Refused (si_writers _ Hi) Ew) as [Hk Hin].
    apply withdrawn_inv. destruct Hi. split; simpl in *; rewrite ?Hk; try done.
    intros k' e'. rewrite si_writing0, Hin. split; [|naive_solver]. intros ?.
    destruct (decide (k' = k)) as [->|]; [by destruct (Hno e')|naive_solver].
Qed.

(** A writer leaves; its key may have lost or committed its entry. *)
Lemma finished_inv i k x r s :
  store_inv s -> writers s !! i = Some (k, x) -> ring_inv r ->
  (forall k', k' <> k -> entries r !! k' = entries (ring s) !! k') ->
  (forall e, entries r !! k <> Some (Writing e)) ->
  (forall st, entries r !! k = Some st -> exists st', entries (ring s) !! k = Some st' /\ entry st' = entry st) ->
  (forall e, (k, e) ∈ read_leases s -> entries r !! k = entries (ring s) !! k) ->
  store_inv (set_writers (pending_writes s ∖ {[k]}) (delete i (writers s)) (set_ring r s)).
Proof.
  intros Hi Hw Hr Hsame Hnw Hold Hleased.
  assert (Hany : forall k' st, entries r !! k' = Some st -> exists st', entries (ring s) !! k' = Some st' /\ entry st' = entry st).
  { intros k' st Hk'. destruct (decide (k' = k)) as [->|]; [by apply Hold|]. rewrite Hsame in Hk' by done. eauto. }
  destruct (writers_delete _ _ _ _ (si_writers _ Hi) Hw) as [Hnd Hin]. split; simpl.
  - done.
  - intros k' st Hk'. destruct (Hany k' st Hk') as (st' & Hk'' & <-). by apply (si_cells _ Hi k').
  - intros k1 k2 st1 st2 H1 H2 Heq. destruct (Hany k1 st1 H1) as (st1' & ? & E1). destruct (Hany k2 st2 H2) as (st2' & ? & E2).
    apply (si_distinct _ Hi k1 k2 st1' st2'); congruence.
  - apply Hi.
  - intros k' e Hl. pose proof (si_leases _ Hi k' e Hl) as Hor.
    destruct (decide (k' = k)) as [->|]; [by rewrite (Hleased e Hl)|]. by rewrite Hsame.
  - done.
  - intros k' ([k'' y] & -> & Hy)%list_elem_of_fmap. apply Hin in Hy as [Hy Hne]. simpl in *.
    assert (k'' ∈ pending_writes s) by (apply (si_pending _ Hi), list_elem_of_fmap; by exists (k'', y)). set_solver.
  - intros k' e. rewrite Hin. destruct (decide (k' = k)) as [->|].
    + split; [by intros ?%Hnw|naive_solver].
    + rewrite Hsame, (si_writing _ Hi) by done. naive_solver.
Qed.

Lemma drop_queued_inv i s : store_inv s -> store_inv (drop_queued i s).
Proof.
  intros Hi. unfold drop_queued. destruct (writers s !! i) as [[k []]|] eqn:Ew; try done.
  assert (Hf : store_inv (set_writers (pending_writes s ∖ {[k]}) (delete i (writers s)) (set_ring (ring s) s))).
  { apply (finished_inv i k Queued); try done; [apply Hi| |by eauto].
    intros e He. apply (si_writing _ Hi) in He. by pose proof (sole_writer _ _ _ _ _ Hi Ew He). }
  by destruct s.
Qed.

(** A reserved write is still indexed when it ends: the ring reports what the write reports. *)
Lemma commit_reserved k e success r :
  ring_inv r -> entries r !! k = Some (Writing e) ->
  commit k success r = (set_entries (if success then <[k := Committed e]> (entries r) else delete k (entries r)) r, success).
Proof.
  intros Hi Hk. unfold commit. rewrite Hk. destruct (ri_entries _ Hi k _ Hk) as [x Hx]. simpl in Hx.
  unfold is_offset_valid. rewrite (eo_shard _ _ _ _ Hx).
  pose proof (so_order x (ri_shards _ Hi _ _ (eo_shard _ _ _ _ Hx)) _ (eo_listed _ _ _ _ Hx)) as Ho. simpl in Ho.
  rewrite (proj2 (Z.leb_le _ _)) by lia. simpl. by destruct success.
Qed.

Lemma commit_write_eq k success s :
  exists changes, commit_write k success s =
    leave changes (set_writers (pending_writes s ∖ {[k]}) (writers s)
      (set_ring (mkRing (shards (commit k success (ring s)).1) (next_shard (commit k success (ring s)).1)
         (alignment (commit k success (ring s)).1) (entries (commit k success (ring s)).1) []) s)).
Proof. unfold commit_write. destruct (commit k success (ring s)) as [r c]. simpl. by eexists. Qed.

Lemma finish_write_inv i success s : store_inv s -> store_inv (finish_write i success s).
Proof.
  intros Hi. unfold finish_write. destruct (writers s !! i) as [[k stage]|] eqn:Ew; [|done].
  assert (Hgo : forall ok, (stage = Refused /\ ok = false \/ exists e, stage = Reserved e) ->
    store_inv (commit_write k ok (set_writers (pending_writes s) (delete i (writers s)) s))).
  2:{ destruct stage; [done|apply Hgo; auto|apply Hgo; eauto]. }
  intros ok Hst. destruct (commit_write_eq k ok (set_writers (pending_writes s) (delete i (writers s)) s))
    as [changes ->]. simpl. apply leave_inv.
  set (r := (commit k ok (ring s)).1).
  enough (Hf : store_inv (set_writers (pending_writes s ∖ {[k]}) (delete i (writers s)) (set_ring r s))).
  { pose proof (si_ring _ Hf) as Hr. simpl in Hr. apply retired_irrelevant with (gone := []) in Hr.
    destruct Hf. by split. }
  destruct Hst as [[-> ->]|[e ->]].
  - assert (Hr : r = ring s).
    { unfold r, commit. destruct (entries (ring s) !! k) as [[e|e|e]|] eqn:Ek; try done.
      apply (si_writing _ Hi) in Ek. by pose proof (sole_writer _ _ _ _ _ Hi Ew Ek). }
    rewrite Hr. apply (finished_inv i k Refused); try done; [apply Hi| |by eauto].
    intros e He. apply (si_writing _ Hi) in He. by pose proof (sole_writer _ _ _ _ _ Hi Ew He).
  - assert (Hk : entries (ring s) !! k = Some (Writing e)) by (by apply (si_writing _ Hi), list_elem_of_lookup_2 with i).
    subst r. rewrite (commit_reserved k e) by (done || apply Hi). simpl.
    apply (finished_inv i k (Reserved e)); try done.
    + destruct ok; [by eapply restate_inv; [apply Hi|..]|apply delete_inv, Hi].
    + intros k' Hne. simpl. destruct ok; [by rewrite lookup_insert_ne|by rewrite lookup_delete_ne].
    + intros e'. simpl. destruct ok; [by rewrite lookup_insert_eq|by rewrite lookup_delete_eq].
    + intros st. simpl. destruct ok; [rewrite lookup_insert_eq|by rewrite lookup_delete_eq].
      intros [= <-]. eauto.
    + intros e' Hl. destruct (si_leases _ Hi k e' Hl); congruence.
Qed.

(** ** Reads *)

Lemma get_committed r k e : get r k = Some e -> entries r !! k = Some (Committed e).
Proof.
  unfold get. destruct (entries r !! k) as [[]|]; try done. destruct (is_offset_valid _ _); [|done].
  by intros [= ->].
Qed.

(** One more lease on a committed entry. *)
Lemma pin_entry_inv k e s :
  store_inv s -> entries (ring s) !! k = Some (Committed e) ->
  store_inv (set_leases (read_leases s ++ [(k, e)]) (releasing s)
    (set_counters (<[readers e := load (counters s) (readers e) + 1]> (counters s)) s)).
Proof.
  intros Hi Hk. pose proof (si_counts _ Hi) as Hc. destruct Hi. split; simpl in *; try done.
  - intros cell. rewrite leases_on_app, leases_on_one. unfold load in *. destruct (decide (readers e = cell)) as [<-|].
    + rewrite lookup_insert_eq. simpl. by rewrite Hc.
    + rewrite lookup_insert_ne by done. rewrite Hc. lia.
  - intros k' e' [?|Heq%list_elem_of_singleton]%elem_of_app; [auto|]. simplify_eq. auto.
Qed.

Lemma pin_inv k candidate s : store_inv s -> store_inv (pin k candidate s).1.
Proof.
  intros Hi. unfold pin. destruct (get (ring s) k) as [e|] eqn:Eg; [|done]. destruct (negb _); [done|].
  apply pin_entry_inv; [done|by apply get_committed].
Qed.

Lemma pin_residencies_inv records s : store_inv s -> store_inv (pin_residencies records s).1.
Proof.
  intros Hi. unfold pin_residencies. destruct (_ || _); [done|].
  destruct (mapM _ _) as [es|] eqn:Em; [|done]. simpl. apply mapM_Some in Em.
  assert (Hp : Forall (fun p => entries (ring s) !! key p.1 = Some (Committed p.2)) (zip records es)).
  { clear Hi. induction Em as [|x e records es Hx Hem IH]; [constructor|]. constructor; [|done]. by apply get_committed. }
  clear Em. revert s Hi Hp. induction (zip records es) as [|[x e] l IH]; intros s Hi Hp; simpl; [done|].
  apply Forall_cons in Hp as [Hx Hp]. apply IH; [by apply pin_entry_inv|done].
Qed.

Lemma drop_lease_inv i s : store_inv s -> store_inv (drop_lease i s).
Proof.
  intros Hi. unfold drop_lease. destruct (read_leases s !! i) as [[k e]|] eqn:El; [|done].
  pose proof (si_counts _ Hi) as Hc. destruct Hi. split; simpl in *; try done.
  - intros cell. rewrite (leases_on_delete _ _ k e) by done. unfold load in *.
    destruct (decide (readers e = cell)) as [<-|].
    + rewrite lookup_insert_eq. simpl. by rewrite Hc.
    + rewrite lookup_insert_ne by done. rewrite Hc. lia.
  - intros k' e' Hin. apply si_leases0.
    rewrite (delete_Permutation _ _ _ El). by right.
Qed.

(** Dropping an entry that nobody reads or writes. *)
Lemma forget_entry_inv k st s :
  store_inv s -> entries (ring s) !! k = Some st -> (forall e, st <> Writing e) ->
  load (counters s) (readers (entry st)) = 0 ->
  store_inv (set_ring (set_entries (delete k (entries (ring s))) (ring s)) s).
Proof.
  intros Hi Hk Hnw Hz. pose proof (leased_entry s k st Hi Hk Hz) as Hno.
  pose proof (delete_inv (ring s) k (si_ring _ Hi)) as Hr. destruct Hi. split; simpl in *; try done.
  - intros k' st' [_ Hk']%lookup_delete_Some. by apply (si_cells0 k').
  - intros k1 k2 st1 st2 [_ H1]%lookup_delete_Some [_ H2]%lookup_delete_Some. by apply si_distinct0.
  - intros k' e Hin. assert (k' <> k) by (intros ->; by destruct (Hno e)).
    rewrite lookup_delete_ne by done. by apply si_leases0.
  - intros k' e. rewrite <- si_writing0, lookup_delete_Some. split; [naive_solver|]. intros Hk'. split; [|done].
    intros <-. rewrite Hk in Hk'. injection Hk' as ->. by destruct (Hnw e).
Qed.

Lemma same_generation_eq e f : same_generation e f = true <-> shard_id e = shard_id f /\ begin_ e = begin_ f.
Proof. unfold same_generation. rewrite andb_true_iff, !Z.eqb_eq. done. Qed.

Lemma finish_release_inv i s : store_inv s -> store_inv (finish_release i s).
Proof.
  intros Hi. unfold finish_release. destruct (releasing s !! i) as [[k e]|] eqn:El; [|done].
  enough (Hf : store_inv (set_ring (release_invalid (counters s) k e (ring s)) s)) by (destruct Hf; by split).
  unfold release_invalid. destruct (entries (ring s) !! k) as [[f|f|f]|] eqn:Ek; try (by destruct s).
  destruct (same_generation f e && _) eqn:Eg; [|by destruct s]. apply andb_true_iff in Eg as [_ Hz].
  by apply (forget_entry_inv k (Invalid f)), Z.eqb_eq.
Qed.

(** A lease holder that finds its payload corrupt hides the generation, which stays indexed. *)
Lemma invalidate_lease_inv i s : store_inv s -> store_inv (invalidate_lease i s).
Proof.
  intros Hi. unfold invalidate_lease. destruct (read_leases s !! i) as [[k e]|] eqn:El; [|done].
  apply list_elem_of_lookup_2 in El. pose proof (leases_on_pos _ _ _ El) as Hpos.
  enough (Hf : store_inv (set_ring (invalidate_encoded (counters s) k e (ring s)).1 s)).
  { destruct (invalidate_encoded _ _ _ _) as [r []]; [by apply leave_inv|done]. }
  unfold invalidate_encoded. rewrite (si_counts _ Hi). destruct (Z.eqb_spec (leases_on (read_leases s) (readers e)) 0); [lia|].
  assert (Hst : exists st, entries (ring s) !! k = Some st /\ entry st = e /\ forall e', st <> Writing e')
    by (destruct (si_leases _ Hi k e El); by eauto).
  destruct Hst as (st & Hk & He & Hnw).
  assert (Hins : store_inv (set_ring (set_entries (<[k := Invalid e]> (entries (ring s))) (ring s)) s)).
  { pose proof (restate_inv (ring s) k st (Invalid e) (si_ring _ Hi) Hk He) as Hr.
    assert (Hany : forall k' st', <[k := Invalid e]> (entries (ring s)) !! k' = Some st' ->
      exists st0, entries (ring s) !! k' = Some st0 /\ entry st0 = entry st').
    { intros k' st'. rewrite lookup_insert_Some. intros [[<- <-]|[_ ?]]; eauto. }
    destruct Hi. split; simpl in *; try done.
    - intros k' st' Hk'. destruct (Hany k' st' Hk') as (st0 & ? & <-). by apply (si_cells0 k').
    - intros k1 k2 st1 st2 H1 H2 Heq. destruct (Hany _ _ H1) as (x1 & ? & E1). destruct (Hany _ _ H2) as (x2 & ? & E2).
      apply (si_distinct0 k1 k2 x1 x2); congruence.
    - intros k' e' Hin. destruct (decide (k' = k)) as [->|]; [|rewrite lookup_insert_ne by done; by apply si_leases0].
      right. rewrite lookup_insert_eq.
      destruct (si_leases0 k e' Hin) as [Hl|Hl]; rewrite Hk in Hl; injection Hl as ->; simpl in He; by rewrite He.
    - intros k' e'. rewrite <- si_writing0, lookup_insert_Some. split; [naive_solver|]. intros Hk'.
      right. split; [|done]. intros <-. rewrite Hk in Hk'. injection Hk' as ->. by destruct (Hnw e'). }
  rewrite Hk. destruct st as [f|f|f]; [by destruct (Hnw f)| |]; (destruct (_ && _); [done|by destruct s]).
Qed.

Lemma publish_inv i t s : store_inv s -> store_inv (publish size_of_record i t s).
Proof.
  intros Hi. unfold publish. destruct (outbox s !! i) as [[|[k md] rest]|]; try done.
  destruct (change _ _ _ _ _ _); [|done]. destruct Hi. by split.
Qed.

(** ** Reachable stores *)

(** Slots have sizes that fit [u64]. *)
Definition event_ok (x : SsdEvent) : Prop :=
  match x with
  | EvExecute _ ss | EvReserveGpu _ _ ss => Forall (fun x => 0 <= slot_total_size x) ss
  | _ => True
  end.

Lemma ssd_step_inv s x : store_inv s -> event_ok x -> store_inv (ssd_step s x).
Proof.
  intros Hi Hx. destruct x; simpl in *; eauto using ingest_batch_inv, drop_queued_inv, execute_write_inv,
    reserve_gpu_inv, finish_write_inv, pin_inv, pin_residencies_inv, drop_lease_inv, finish_release_inv,
    invalidate_lease_inv, publish_inv.
Qed.

Lemma ssd_run_inv s xs :
  store_inv s -> Forall event_ok xs -> store_inv (ssd_run lru_get lru_contains lru_insert size_of_record policy s xs).
Proof.
  revert s. induction xs as [|x xs IH]; intros s Hi Hxs; simpl; [done|].
  apply Forall_cons in Hxs as [Hx Hxs]. apply IH; [by apply ssd_step_inv|done].
Qed.

Lemma ssd_new_inv r h inv :
  ring_inv r -> entries r = ∅ -> store_inv (ssd_new r h inv).
Proof.
  intros Hr He. split; simpl; rewrite ?He; try done; try set_solver.
  constructor.
Qed.

Lemma ssd_reachable_inv capacities align r h inv xs :
  Forall is_u64 capacities -> 0 <= align -> new_sharded capacities align = Some r -> Forall event_ok xs ->
  store_inv (ssd_run lru_get lru_contains lru_insert size_of_record policy (ssd_new r h inv) xs).
Proof.
  intros Hc Ha Hn Hx. apply ssd_run_inv; [|done]. apply ssd_new_inv.
  - by apply (new_sharded_inv capacities align).
  - unfold new_sharded in Hn. destruct capacities; [done|]. by injection Hn as <-.
Qed.
End Safety.

(** C2. No file range is shared between a write in progress and anything else in use.  Whatever
    threads do and in whatever order, the file range of an extent that is being written is
    disjoint from that of every other extent being written and from every range that a read lease
    protects, even of generations that were hidden as corrupt. *)
Theorem write_extents_exclusive {History} lru_get lru_contains lru_insert size_of_record policy
    (h : History) inv capacities align r xs k e :
  Forall is_u64 capacities -> 0 <= align -> new_sharded capacities align = Some r -> Forall event_ok xs ->
  let s := ssd_run lru_get lru_contains lru_insert size_of_record policy (ssd_new r h inv) xs in
  (k, Reserved e) ∈ writers s ->
  (forall k' e', (k', Reserved e') ∈ writers s -> k' <> k -> file_disjoint e e') /\
  (forall k' e', (k', e') ∈ read_leases s -> k' <> k /\ file_disjoint e e').
Proof.
  intros Hc Ha Hn Hx s Hw.
  assert (Hi : store_inv s) by (by eapply ssd_reachable_inv).
  apply (si_writing _ Hi) in Hw. split.
  - intros k' e' Hw' Hne. apply (si_writing _ Hi) in Hw'.
    apply (ring_disjoint (ring s) k k' (Writing e) (Writing e')); [apply Hi|by intros ->|done..].
  - intros k' e' Hl. apply (si_leases _ Hi) in Hl.
    assert (k' <> k) by (intros ->; destruct Hl; congruence). split; [done|].
    destruct Hl as [Hl|Hl]; [apply (ring_disjoint (ring s) k k' (Writing e) (Committed e'))|
      apply (ring_disjoint (ring s) k k' (Writing e) (Invalid e'))]; try done; apply Hi.
Qed.

(** A write that ends is never lost to eviction: the ring still has the write's entry, commits
    it exactly when the write succeeded, and a committed entry is what the next lookup returns; a
    failed write leaves no entry. *)
Theorem write_outcome_kept {History} lru_get lru_contains lru_insert size_of_record policy
    (h : History) inv capacities align r xs i k e success :
  Forall is_u64 capacities -> 0 <= align -> new_sharded capacities align = Some r -> Forall event_ok xs ->
  let s := ssd_run lru_get lru_contains lru_insert size_of_record policy (ssd_new r h inv) xs in
  writers s !! i = Some (k, Reserved e) ->
  get (ring (finish_write i success s)) k = (if success then Some e else None) /\
  k ∉ pending_writes (finish_write i success s).
Proof.
  intros Hc Ha Hn Hx s Hw.
  assert (Hi : store_inv s) by (by eapply ssd_reachable_inv).
  pose proof (finish_write_inv i success s Hi) as Hf. unfold finish_write in *. rewrite Hw in *.
  assert (Hk : entries (ring s) !! k = Some (Writing e)) by (by eapply (si_writing _ Hi), list_elem_of_lookup_2).
  destruct (commit_write_eq k success (set_writers (pending_writes s) (delete i (writers s)) s)) as [changes Heq].
  cbn [ring set_writers pending_writes writers] in Heq.
  rewrite (commit_reserved k e) in Heq by (done || apply Hi). rewrite Heq in *. cbn [fst] in *.
  split; [|simpl; set_solver]. unfold get. simpl. destruct success; [|by rewrite lookup_delete_eq].
  rewrite lookup_insert_eq. destruct (is_offset_valid _ e) eqn:Eo; [done|]. exfalso.
  pose proof (si_ring _ Hf) as Hr. destruct (ri_entries _ Hr k (Committed e)) as [x Hx']; [apply lookup_insert_eq|].
  simpl in Hx'. unfold is_offset_valid in Eo. rewrite (eo_shard _ _ _ _ Hx') in Eo. apply Z.leb_gt in Eo.
  pose proof (so_order x (ri_shards _ Hr _ _ (eo_shard _ _ _ _ Hx')) _ (eo_listed _ _ _ _ Hx')) as Ho.
  simpl in Ho. lia.
Qed.

(** ** A concrete store: one file of two blocks *)

Definition sample_ring (blocks : Z) : SsdRingBuffer := mkRing [mkShard (blocks * 4096) 0 0 []] 0 4096 ∅ [].
Definition block_a : StateKey := mkStateKey (str "a") (str "h").
Definition block_b : StateKey := mkStateKey (str "b") (str "h").
Definition sample_slots : list SlotMeta := [slot_meta_new [4000] 0].

Definition sample_ssd (blocks : Z) (xs : list SsdEvent) : SsdState :=
  ssd_run (fun h _ => (h, false)) (fun _ _ => false) (fun h _ => h) 88 PolicyAll
    (ssd_new (sample_ring blocks) tt empty_inventory) xs.

(** A block is written and pinned while the next one is being written. *)
Definition sample_events : list SsdEvent :=
  [EvReserveGpu true block_a sample_slots; EvFinishWrite 0 true;
   EvPin block_a (mkEntry 0 0 4096 0 sample_slots ERaw 0); EvReserveGpu true block_b sample_slots].

Lemma sample_slots_ok : Forall (fun x => 0 <= slot_total_size x) sample_slots.
Proof. apply Forall_singleton. vm_compute. discriminate. Qed.


#[local] Opaque sample_slots.
Lemma sample_events_ok : Forall event_ok sample_events.
Proof. repeat first [apply Forall_nil_2 | apply Forall_cons_2]; first [exact I | exact sample_slots_ok]. Qed.

Lemma sample_ssd_state :
  writers (sample_ssd 2 sample_events) = [(block_b, Reserved (mkEntry 0 4096 4096 4096 sample_slots ERaw 1))] /\
  read_leases (sample_ssd 2 sample_events) = [(block_a, mkEntry 0 0 4096 0 sample_slots ERaw 0)].
Proof. split; vm_compute; reflexivity. Qed.

Lemma write_extents_exclusive_witness :
  (forall k' e', (k', Reserved e') ∈ writers (sample_ssd 2 sample_events) -> k' <> block_b ->
     file_disjoint (mkEntry 0 4096 4096 4096 sample_slots ERaw 1) e') /\
  (forall k' e', (k', e') ∈ read_leases (sample_ssd 2 sample_events) -> k' <> block_b /\
     file_disjoint (mkEntry 0 4096 4096 4096 sample_slots ERaw 1) e').
Proof.
  apply (write_extents_exclusive (fun h _ => (h, false)) (fun _ _ => false) (fun h _ => h) 88 PolicyAll tt
    empty_inventory [8192] 4096 (sample_ring 2) sample_events).
  - repeat constructor; vm_compute; discriminate.
  - lia.
  - reflexivity.
  - exact sample_events_ok.
  - pose proof sample_ssd_state as [Hw _]. unfold sample_ssd in Hw. rewrite Hw. left.
Defined.

Lemma write_outcome_kept_witness :
  get (ring (finish_write 0 true (sample_ssd 2 sample_events))) block_b =
    Some (mkEntry 0 4096 4096 4096 sample_slots ERaw 1) /\
  block_b ∉ pending_writes (finish_write 0 true (sample_ssd 2 sample_events)).
Proof.
  apply (write_outcome_kept (fun h _ => (h, false)) (fun _ _ => false) (fun h _ => h) 88 PolicyAll tt
    empty_inventory [8192] 4096 (sample_ring 2) sample_events 0 block_b
    (mkEntry 0 4096 4096 4096 sample_slots ERaw 1) true).
  - repeat constructor; vm_compute; discriminate.
  - lia.
  - reflexivity.
  - exact sample_events_ok.
  - pose proof sample_ssd_state as [Hw _]. unfold sample_ssd in Hw. rewrite Hw. reflexivity.
Defined.

(** The writer of [block_a] leaves its critical section, another write evicts [block_a] and
    publishes that first. *)
Definition race_events : list SsdEvent :=
  [EvReserveGpu true block_a sample_slots; EvFinishWrite 0 true; EvReserveGpu true block_b sample_slots;
   EvPublish 2 1; EvPublish 1 2].

(** C25. The order of publications is not the order of the index: there is a run of the store, from
    new files, after which every thread has published all its changes, the SSD index does not have
    a block, no write of it is pending, and the inventory advertises the block on SSD. *)
Theorem stale_ssd_advertisement :
  Forall event_ok race_events /\
  let s := sample_ssd 1 race_events in
  Forall (eq []) (outbox s) /\ entries (ring s) !! block_a = None /\ (block_a ∉ pending_writes s) /\
  is_Some (residents (inventory s) !! (block_a, Ssd)).
Proof.
  split.
  { repeat first [apply Forall_nil_2 | apply Forall_cons_2]; first [exact I | exact sample_slots_ok]. }
  cbv zeta. split_and!.
  - assert (outbox (sample_ssd 1 race_events) = [[]; []; []]) as -> by (vm_compute; reflexivity).
    by repeat constructor.
  - vm_compute. reflexivity.
  - assert (bool_decide (block_a ∈ pending_writes (sample_ssd 1 race_events)) = false) as Hb
      by (vm_compute; reflexivity). by apply bool_decide_eq_false in Hb.
  - exists (mkRecord block_a 1 true (Some (mkMetadata Ssd Raw (Some 4000)))). vm_compute. reflexivity.
Qed.
