(* ===== verification/Dram.v ===== *)
(** * The DRAM tier

    [orbitkv-core/src/storage/dram/mod.rs] and the cache of [policy.rs]: resident blocks in one
    cache with TinyLFU admission, and three replacement classes that are LRU lists of their own.
    The cache holds [Arc] addresses; the blocks behind them are a heap that the operations read.
    [None] is a panic.  The LRU caches and the residency log are interfaces. *)
From S2P Require Import Prelude Containers State Blocks Lru TinyLfu Residency.

Local Open Scope Z_scope.

Record ResidentMetadata := mkResident { inserted_at : Z; res_bytes : Z }.

Inductive ResidentClass := Reclaimable | Probationary | Retained.

#[export] Instance ResidentClass_eq_dec : EqDecision ResidentClass.
Proof. solve_decision. Defined.

Inductive CacheInsertOutcome := InsertedNew | AlreadyExists | Rejected.

Definition DEFAULT_BYTES_PER_VALUE : Z := 134217728.

Section Dram.
Context {C : Type -> Type} `{LruCache C} {I : Type} `{ResidencyLog I}.

(** ** The cache *)

Record TinyLfuCache := mkCache { lru : C Z; freq : option TinyLfu }.

Definition estimated_items (capacity_bytes : Z) (hint : option Z) : Z :=
  let per_value := match hint with Some n => if 0 <? n then n else DEFAULT_BYTES_PER_VALUE
                   | None => DEFAULT_BYTES_PER_VALUE end in
  Z.max 1 (capacity_bytes / per_value).

(** [shape] is what [Estimator::optimal] draws for the number of items. *)
Definition new_unbounded (shape : Z -> list (StateKey -> Z) * Z) (capacity_bytes : Z) (enable : bool)
    (hint : option Z) : TinyLfuCache :=
  let n := estimated_items capacity_bytes hint in
  mkCache lru_new (if enable then Some (lfu_new (shape n).1 (shape n).2 n) else None).

Definition bump (k : StateKey) (f : option TinyLfu) : option TinyLfu := (fun t => (lfu_incr k t).1) <$> f.

Definition cache_get (k : StateKey) (c : TinyLfuCache) : option Z * TinyLfuCache :=
  let '(hit, l) := lru_get k (lru c) in
  (hit, mkCache l (match hit with Some _ => bump k (freq c) | None => freq c end)).
Definition cache_contains (k : StateKey) (c : TinyLfuCache) : bool := lru_contains k (lru c).
Definition cache_peek (k : StateKey) (c : TinyLfuCache) : option Z := lru_peek k (lru c).

(** [strong] is the strong count of a block at the time it is looked at. *)
Definition is_cache_owned_only (strong : StateKey -> Z) (k : StateKey) (c : TinyLfuCache) : bool :=
  match lru_peek k (lru c) with Some _ => strong k =? 1 | None => false end.

Definition cache_insert (k : StateKey) (b : Z) (c : TinyLfuCache) : TinyLfuCache * CacheInsertOutcome :=
  let f := bump k (freq c) in
  if lru_contains k (lru c) then (mkCache (lru c) f, AlreadyExists)
  else
    let colder := match f, oldest (lru c) with
                  | Some t, Some victim => lfu_get k t <? lfu_get victim t
                  | _, _ => false
                  end in
    if colder then (mkCache (lru c) f, Rejected)
    else (mkCache (lru_insert k b (lru c)) f, InsertedNew).

Definition cache_remove (k : StateKey) (c : TinyLfuCache) : option Z * TinyLfuCache :=
  let '(b, l) := lru_remove k (lru c) in (b, mkCache l (freq c)).
Definition cache_remove_all (c : TinyLfuCache) : list (StateKey * Z) * TinyLfuCache :=
  (items (lru c), mkCache lru_new (freq c)).

(** ** The store *)

Record DramStore := mkStore {
  inventory : option I;
  cache : TinyLfuCache;
  reclaimable : C ResidentMetadata;
  probationary : C ResidentMetadata;
  retained : C ResidentMetadata;
  retained_bytes : Z;
  protected_limit : Z
}.

Definition with_inventory (shape : Z -> list (StateKey -> Z) * Z) (capacity_bytes : Z) (enable : bool)
    (hint : option Z) (inv : option I) (limit : Z) : DramStore :=
  mkStore inv (new_unbounded shape capacity_bytes enable hint) lru_new lru_new lru_new 0 limit.

Definition class_lru (d : DramStore) (c : ResidentClass) : C ResidentMetadata :=
  match c with Reclaimable => reclaimable d | Probationary => probationary d | Retained => retained d end.
Definition set_class (c : ResidentClass) (l : C ResidentMetadata) (d : DramStore) : DramStore :=
  match c with
  | Reclaimable => mkStore (inventory d) (cache d) l (probationary d) (retained d) (retained_bytes d) (protected_limit d)
  | Probationary => mkStore (inventory d) (cache d) (reclaimable d) l (retained d) (retained_bytes d) (protected_limit d)
  | Retained => mkStore (inventory d) (cache d) (reclaimable d) (probationary d) l (retained_bytes d) (protected_limit d)
  end.
Definition set_cache (c : TinyLfuCache) (d : DramStore) : DramStore :=
  mkStore (inventory d) c (reclaimable d) (probationary d) (retained d) (retained_bytes d) (protected_limit d).
Definition set_inventory (i : option I) (d : DramStore) : DramStore :=
  mkStore i (cache d) (reclaimable d) (probationary d) (retained d) (retained_bytes d) (protected_limit d).
Definition set_retained_bytes (n : Z) (d : DramStore) : DramStore :=
  mkStore (inventory d) (cache d) (reclaimable d) (probationary d) (retained d) n (protected_limit d).

(** [inventory.change(key, Dram, ..)] when there is an inventory. *)
Definition report (k : StateKey) (md : option ReplicaMetadata) (now : Z) (d : DramStore) : option DramStore :=
  match inventory d with
  | None => Some d
  | Some i => match log_change i k md now with
              | Some i => Some (set_inventory (Some i) d)
              | None => None
              end
  end.

Definition contains_keys (keys : list StateKey) (d : DramStore) : list bool :=
  (fun k => cache_contains k (cache d)) <$> keys.
Definition discover (keys : list StateKey) (d : DramStore) : list (option Z) :=
  (fun k => cache_peek k (cache d)) <$> keys.

Definition move_resident (k : StateKey) (from to : ResidentClass) (d : DramStore) : DramStore * bool :=
  match lru_remove k (class_lru d from) with
  | (None, l) => (set_class from l d, false)
  | (Some md, l) =>
      let d := set_class from l d in
      let d := if decide (from = Retained) then set_retained_bytes (u64_sub (retained_bytes d) (res_bytes md)) d else d in
      let d := if decide (to = Retained) then set_retained_bytes (u64_add (retained_bytes d) (res_bytes md)) d else d in
      (set_class to (lru_insert k md (class_lru d to)) d, true)
  end.

(** The classes are asked in order, until one has the key. *)
Definition refresh_recency (k : StateKey) (d : DramStore) : DramStore :=
  match lru_get k (reclaimable d) with
  | (Some _, l) => set_class Reclaimable l d
  | (None, l) =>
      let d := set_class Reclaimable l d in
      match lru_get k (probationary d) with
      | (Some _, l) => set_class Probationary l d
      | (None, l) =>
          let d := set_class Probationary l d in
          set_class Retained (lru_get k (retained d)).2 d
      end
  end.

(** The demotion loop of [retain_demand]. *)
Fixpoint demote (fuel : nat) (remaining : Z) (d : DramStore) : option DramStore :=
  if retained_bytes d <=? remaining then Some d
  else match fuel with
       | O => None
       | S fuel =>
           match oldest (retained d) with
           | None => None
           | Some k => demote fuel remaining (move_resident k Retained Probationary d).1
           end
       end.

Section Heap.
Context (heap : Z -> SealedBlock).

Definition retain_demand (k : StateKey) (b : Z) (d : DramStore) : option DramStore :=
  let from := if lru_contains k (probationary d) then Some Probationary
              else if warmed (heap b) then Some Reclaimable else None in
  match from with
  | None => Some d
  | Some from =>
      if negb (lru_contains k (class_lru d from)) then Some d
      else if 0 <? protected_limit d then
        match checked_sub (protected_limit d) (footprint (heap b)) with
        | None => Some d
        | Some remaining =>
            match demote (length (items (retained d))) remaining d with
            | Some d => Some (move_resident k from Retained d).1
            | None => None
            end
        end
      else Some (move_resident k from Retained d).1
  end.

Definition insert_block (now : Z) (k : StateKey) (b : Z) (class : ResidentClass) (d : DramStore)
    : option (DramStore * CacheInsertOutcome) :=
  if warmed (heap b) && cache_contains k (cache d) then Some (d, AlreadyExists)
  else
    let class := if (0 <? protected_limit d) && bool_decide (class = Retained) then Probationary else class in
    let '(c, outcome) := cache_insert k b (cache d) in
    let d := set_cache c d in
    match outcome with
    | InsertedNew =>
        match report k (Some (block_metadata (heap b))) now d with
        | None => None
        | Some d =>
            let d := set_class class (lru_insert k (mkResident now (footprint (heap b))) (class_lru d class)) d in
            Some (if decide (class = Retained) then set_retained_bytes (u64_add (retained_bytes d) (footprint (heap b))) d
                  else d, InsertedNew)
        end
    | AlreadyExists => Some (refresh_recency k d, AlreadyExists)
    | Rejected => Some (d, Rejected)
    end.

(** [batch_insert] and [batch_insert_refs] with [Retained], [batch_insert_reclaimable]. *)
Fixpoint batch_insert (now : Z) (blocks : list (StateKey * Z)) (class : ResidentClass) (d : DramStore)
    : option DramStore :=
  match blocks with
  | [] => Some d
  | (k, b) :: blocks => match insert_block now k b class d with
                        | Some (d, _) => batch_insert now blocks class d
                        | None => None
                        end
  end.

Fixpoint get_prefix_blocks (keys : list StateKey) (warming : bool) (d : DramStore)
    : option (DramStore * list Z) :=
  match keys with
  | [] => Some (d, [])
  | k :: keys =>
      let '(block, c) := if warming then (cache_peek k (cache d), cache d) else cache_get k (cache d) in
      let d := set_cache c d in
      match block with
      | None => Some (d, [])
      | Some b =>
          let next := if warming then Some d
                      else match retain_demand k b d with
                           | Some d => Some (refresh_recency k d)
                           | None => None
                           end in
          match next with
          | None => None
          | Some d => match get_prefix_blocks keys warming d with
                      | Some (d, blocks) => Some (d, b :: blocks)
                      | None => None
                      end
          end
      end
  end.

(** The public [retain_demand]: the block must still be the resident one. *)
Fixpoint retain_demands (pairs : list (StateKey * Z)) (d : DramStore) : option DramStore :=
  match pairs with
  | [] => Some d
  | (k, b) :: pairs =>
      let next := if bool_decide (cache_peek k (cache d) = Some b) then retain_demand k b d else Some d in
      match next with Some d => retain_demands pairs d | None => None end
  end.
End Heap.

(** A key is looked up and refreshed. *)
Definition get_and_refresh (k : StateKey) (d : DramStore) : option Z * DramStore :=
  let '(b, c) := cache_get k (cache d) in
  let d := set_cache c d in
  (b, match b with Some _ => refresh_recency k d | None => d end).

Fixpoint pin_loop (records : list InventoryRecord) (d : DramStore)
    : DramStore * option (list (StateKey * Z)) :=
  match records with
  | [] => (d, Some [])
  | r :: records =>
      match get_and_refresh (key r) d with
      | (None, d) => (d, None)
      | (Some b, d) => match pin_loop records d with
                       | (d, Some found) => (d, Some ((key r, b) :: found))
                       | (d, None) => (d, None)
                       end
      end
  end.

Definition pin_residencies (records : list InventoryRecord) (d : DramStore)
    : DramStore * option (list (StateKey * Z)) :=
  match inventory d with
  | None => (d, None)
  | Some i =>
      if (zlen records =? 0) || negb (forallb (log_current i) records) then (d, None)
      else pin_loop records d
  end.

Fixpoint get_blocks_aligned (keys : list StateKey) (d : DramStore) : DramStore * list (option Z) :=
  match keys with
  | [] => (d, [])
  | k :: keys =>
      let '(b, d) := get_and_refresh k d in
      let '(d, blocks) := get_blocks_aligned keys d in
      (d, b :: blocks)
  end.

(** [remove_lru]: entries without a resident block are skipped. *)
Fixpoint remove_lru_loop (fuel : nat) (now : Z) (class : ResidentClass) (d : DramStore)
    : option (DramStore * option (StateKey * Z * Z)) :=
  match fuel with
  | O => Some (d, None)
  | S fuel =>
      match remove_oldest (class_lru d class) with
      | (None, l) => Some (set_class class l d, None)
      | (Some (k, md), l) =>
          let d := set_class class l d in
          match cache_remove k (cache d) with
          | (None, c) => remove_lru_loop fuel now class (set_cache c d)
          | (Some b, c) =>
              match report k None now (set_cache c d) with
              | None => None
              | Some d =>
                  Some (if decide (class = Retained) then set_retained_bytes (u64_sub (retained_bytes d) (res_bytes md)) d
                        else d, Some (k, b, inserted_at md))
              end
          end
      end
  end.
Definition remove_lru (now : Z) (class : ResidentClass) (d : DramStore)
    : option (DramStore * option (StateKey * Z * Z)) :=
  remove_lru_loop (S (length (items (class_lru d class)))) now class d.

Section Evict.
Context (heap : Z -> SealedBlock) (strong : StateKey -> Z) (now batch_size target_bytes : Z).

Definition batch_done (removed : list (StateKey * Z)) (bytes : Z) : bool :=
  (zlen removed =? batch_size) || (target_bytes <=? bytes).

(** The loop over the candidates of one class. *)
Fixpoint evict_class (candidates : nat) (class : ResidentClass) (d : DramStore)
    (removed : list (StateKey * Z)) (bytes : Z) : option (DramStore * list (StateKey * Z) * Z) :=
  match candidates with
  | O => Some (d, removed, bytes)
  | S candidates =>
      if batch_done removed bytes then Some (d, removed, bytes)
      else
        match oldest (class_lru d class) with
        | None => Some (d, removed, bytes)
        | Some k =>
            if is_cache_owned_only strong k (cache d) then
              match remove_lru now class d with
              | Some (d, Some (k, b, _)) =>
                  evict_class candidates class d (removed ++ [(k, b)]) (saturating_add bytes (footprint (heap b)))
              | _ => None
              end
            else evict_class candidates class (set_class class (lru_get k (class_lru d class)).2 d) removed bytes
        end
  end.

Definition remove_lru_batch_from_class (class : ResidentClass) (d : DramStore)
    (removed : list (StateKey * Z)) (bytes : Z) : option (DramStore * list (StateKey * Z) * Z) :=
  evict_class (length (items (class_lru d class))) class d removed bytes.

Definition remove_lru_batch (d : DramStore) : option (DramStore * list (StateKey * Z)) :=
  match remove_lru_batch_from_class Reclaimable d [] 0 with
  | None => None
  | Some (d, removed, bytes) =>
      match remove_lru_batch_from_class Probationary d removed bytes with
      | None => None
      | Some (d, removed, bytes) =>
          match remove_lru_batch_from_class Retained d removed bytes with
          | None => None
          | Some (d, removed, _) => Some (d, removed)
          end
      end
  end.
End Evict.

Fixpoint report_all (removed : list (StateKey * Z)) (now : Z) (d : DramStore) : option DramStore :=
  match removed with
  | [] => Some d
  | (k, _) :: removed => match report k None now d with
                         | Some d => report_all removed now d
                         | None => None
                         end
  end.

Definition remove_all (now : Z) (d : DramStore) : option (DramStore * list (StateKey * Z)) :=
  let '(removed, c) := cache_remove_all (cache d) in
  let d := set_cache c (set_class Reclaimable lru_new (set_class Probationary lru_new (set_class Retained lru_new d))) in
  match report_all removed now d with
  | Some d => Some (set_retained_bytes 0 d, removed)
  | None => None
  end.
End Dram.

Arguments TinyLfuCache C : clear implicits.
Arguments DramStore C I : clear implicits.
