(* ===== verification/DramInv.v ===== *)
(** * Invariant of the DRAM tier

    The replacement classes partition the resident blocks, the byte accounting is exact, and the
    residency log lists exactly what is resident.  Every operation keeps this, never panics, and
    does what it promises. *)
From S2P Require Import Prelude Containers State Blocks Lru TinyLfu Residency Dram.

Local Open Scope Z_scope.

Section DramInv.
Context {C : Type -> Type} `{LruLaws C} {I : Type} `{ResidencyLaws I}.
Implicit Types d : DramStore C I.

Abbreviation cached d := (items (lru (cache d))).

(** All replacement metadata, and what the classes other than [c] hold of it. *)
Definition residents_of d : list (StateKey * ResidentMetadata) :=
  items (reclaimable d) ++ items (probationary d) ++ items (retained d).
Definition others (c : ResidentClass) d : list (StateKey * ResidentMetadata) :=
  match c with
  | Reclaimable => items (probationary d) ++ items (retained d)
  | Probationary => items (reclaimable d) ++ items (retained d)
  | Retained => items (reclaimable d) ++ items (probationary d)
  end.

Definition retained_sum d : Z := list_sum (fun p => res_bytes p.2) (items (retained d)).

Lemma residents_class c d : residents_of d ≡ₚ items (class_lru d c) ++ others c d.
Proof.
  unfold residents_of, others. destruct c; simpl.
  - done.
  - rewrite (Permutation_app_comm (items (reclaimable d))), <- app_assoc. f_equiv. apply Permutation_app_comm.
  - rewrite app_assoc. apply Permutation_app_comm.
Qed.

Lemma residents_set_class c l d : residents_of (set_class c l d) ≡ₚ items l ++ others c d.
Proof. rewrite (residents_class c). by destruct c. Qed.

Lemma class_lru_set c l d : class_lru (set_class c l d) c = l.
Proof. by destruct c. Qed.

(** What does not depend on the order in the lists or on the class of a block. *)
Record base (heap : Z -> SealedBlock) d : Prop := {
  b_nodup : NoDup (cached d).*1;
  b_classes : (fun p => (p.1, res_bytes p.2)) <$> residents_of d ≡ₚ
              (fun p => (p.1, footprint (heap p.2))) <$> cached d;
  b_nonneg : forall k b, (k, b) ∈ cached d -> 0 <= footprint (heap b);
  b_fits : list_sum (fun p => footprint (heap p.2)) (cached d) <= u64_max;
  b_short : forall k, k ∈ (cached d).*1 -> short_key k;
  b_listed : forall i, inventory d = Some i -> forall k, listed i k = (fun b => block_metadata (heap b)) <$> assoc k (cached d)
}.

Record accounted d : Prop := {
  a_bytes : retained_bytes d = retained_sum d;
  a_limit : 0 < protected_limit d -> retained_bytes d <= protected_limit d
}.

(** The log takes [n] more changes. *)
Definition room d (n : nat) : Prop := match inventory d with Some i => accepts i n | None => True end.

(** [d'] holds the same blocks as [d], in another order or other classes. *)
Record same_residents d d' : Prop := {
  s_cache : cached d ≡ₚ cached d';
  s_residents : residents_of d ≡ₚ residents_of d';
  s_inventory : inventory d' = inventory d;
  s_limit : protected_limit d' = protected_limit d
}.

#[local] Instance same_residents_refl : Reflexive same_residents.
Proof. by constructor. Qed.
#[local] Instance same_residents_trans : Transitive same_residents.
Proof.
  intros d1 d2 d3 [] []. constructor; [by etrans|by etrans|by etrans|by etrans].
Qed.

Lemma same_base heap d d' : same_residents d d' -> base heap d -> base heap d'.
Proof.
  intros [Hc Hr Hi Hl] []. constructor.
  - by rewrite <- Hc.
  - by rewrite <- Hc, <- Hr.
  - intros k b. rewrite <- Hc. apply b_nonneg0.
  - by rewrite <- (list_sum_perm _ _ _ Hc).
  - intros k. rewrite <- Hc. apply b_short0.
  - rewrite Hi. intros i Hi' k. rewrite (b_listed0 i Hi' k). f_equal. by apply assoc_perm.
Qed.

Lemma same_room d d' n : same_residents d d' -> room d n -> room d' n.
Proof. intros [_ _ Hi _]. unfold room. by rewrite Hi. Qed.

(** ** Consequences *)

Lemma base_keys heap d : base heap d -> (residents_of d).*1 ≡ₚ (cached d).*1.
Proof.
  intros Hb. pose proof (fmap_Permutation fst _ _ (b_classes heap d Hb)) as Hp.
  by rewrite <- !list_fmap_compose in Hp.
Qed.

Lemma base_residents_nodup heap d : base heap d -> NoDup (residents_of d).*1.
Proof. intros Hb. rewrite (base_keys heap d Hb). apply (b_nodup heap d Hb). Qed.

Lemma class_nodup heap c d : base heap d -> NoDup (items (class_lru d c)).*1.
Proof.
  intros Hb%base_residents_nodup. rewrite (residents_class c), fmap_app in Hb. by apply NoDup_app in Hb as [? _].
Qed.

Lemma class_others heap c d k : base heap d -> k ∈ (items (class_lru d c)).*1 -> k ∉ (others c d).*1.
Proof.
  intros Hb%base_residents_nodup. rewrite (residents_class c), fmap_app in Hb.
  apply NoDup_app in Hb as (_ & Hd & _). apply Hd.
Qed.

(** The metadata of a resident block is its size. *)
Lemma resident_bytes heap d k md :
  base heap d -> (k, md) ∈ residents_of d -> exists b, assoc k (cached d) = Some b /\ res_bytes md = footprint (heap b).
Proof.
  intros Hb Hin.
  assert (Hp : (k, res_bytes md) ∈ (fun p => (p.1, footprint (heap p.2))) <$> cached d).
  { rewrite <- (b_classes heap d Hb), list_elem_of_fmap. by exists (k, md). }
  apply list_elem_of_fmap in Hp as ([k' b] & [= -> He] & Hkb). exists b. split; [|done].
  apply assoc_Some; [apply (b_nodup heap d Hb)|done].
Qed.

Lemma resident_nonneg heap d k md : base heap d -> (k, md) ∈ residents_of d -> 0 <= res_bytes md.
Proof.
  intros Hb (b & Hk & ->)%(resident_bytes heap d k md Hb). apply (b_nonneg heap d Hb k). by apply assoc_elem.
Qed.

Lemma class_resident c d p : p ∈ items (class_lru d c) -> p ∈ residents_of d.
Proof. intros Hp. rewrite (residents_class c). apply elem_of_app. by left. Qed.


(** The bytes of a class are bounded by those of the cache. *)
Lemma class_sum_bounds heap c d :
  base heap d -> 0 <= list_sum (fun p => res_bytes p.2) (items (class_lru d c)) <= u64_max.
Proof.
  intros Hb. assert (Hnn : forall p, p ∈ residents_of d -> 0 <= res_bytes p.2).
  { intros [k md] Hp. by apply (resident_nonneg heap d k md). }
  split. { apply list_sum_nonneg. intros p Hp. by apply Hnn, (class_resident c). }
  pose proof (list_sum_perm snd _ _ (b_classes heap d Hb)) as Hs. rewrite !list_sum_fmap in Hs. cbn [snd] in Hs.
  rewrite (list_sum_perm _ _ _ (residents_class c d)), list_sum_app in Hs.
  pose proof (b_fits heap d Hb) as Hf.
  assert (0 <= list_sum (fun p => res_bytes p.2) (others c d)); [|lia].
  apply list_sum_nonneg. intros p Hp. apply Hnn. rewrite (residents_class c). apply elem_of_app. by right.
Qed.

(** ** Order and class changes *)

Lemma lru_contains_spec {V} k (c : C V) : lru_contains k c = true <-> k ∈ (items c).*1.
Proof.
  unfold lru_contains. rewrite peek_law, <- is_Some_assoc. destruct (assoc k (items c)); split; try done; eauto.
Qed.

Lemma set_class_same c l d : items (class_lru d c) ≡ₚ items l -> same_residents d (set_class c l d).
Proof.
  intros Hp. constructor; [by destruct c| |by destruct c..].
  by rewrite (residents_class c), residents_set_class, Hp.
Qed.

Lemma set_class_accounted c l d :
  items (class_lru d c) ≡ₚ items l -> accounted d -> accounted (set_class c l d).
Proof.
  intros Hp [Ha Hl]. destruct c; constructor; try done. simpl. rewrite Ha. unfold retained_sum. simpl.
  by apply list_sum_perm.
Qed.

Lemma touch_class_perm heap c k d :
  base heap d -> items (class_lru d c) ≡ₚ items (lru_get k (class_lru d c)).2.
Proof. intros Hb. rewrite (proj2 (get_law _ _)). symmetry. apply touch_perm. by eapply class_nodup. Qed.

Lemma touch_class heap c k d :
  base heap d -> accounted d ->
  same_residents d (set_class c (lru_get k (class_lru d c)).2 d) /\ accounted (set_class c (lru_get k (class_lru d c)).2 d).
Proof.
  intros Hb Ha. pose proof (touch_class_perm heap c k d Hb). split; [by apply set_class_same|by apply set_class_accounted].
Qed.

Lemma refresh_same heap k d :
  base heap d -> accounted d -> same_residents d (refresh_recency k d) /\ accounted (refresh_recency k d).
Proof.
  intros Hb Ha. unfold refresh_recency.
  destruct (touch_class heap Reclaimable k d Hb Ha) as [Hs1 Ha1]. cbn [class_lru] in *.
  destruct (lru_get k (reclaimable d)) as [[md|] l1]; cbn [snd] in *; [done|]. set (d1 := set_class Reclaimable l1 d) in *.
  destruct (touch_class heap Probationary k d1 (same_base _ _ _ Hs1 Hb) Ha1) as [Hs2 Ha2]. cbn [class_lru] in *.
  destruct (lru_get k (probationary d1)) as [[md|] l2]; cbn [snd] in *; [split; [by etrans|done]|].
  set (d2 := set_class Probationary l2 d1) in *.
  destruct (touch_class heap Retained k d2) as [Hs3 Ha3].
  { by eapply same_base; [etrans; [exact Hs1|exact Hs2]|]. } { done. }
  split; [|exact Ha3]. by do 2 (etrans; [eassumption|]).
Qed.

(** ** Moving between classes *)

(** The result of a move of a classified block, without the accounting. *)
Definition moved (k : StateKey) (md : ResidentMetadata) (from to : ResidentClass) d d' : Prop :=
  items (class_lru d' from) = drop_key k (items (class_lru d from)) /\
  items (class_lru d' to) = items (class_lru d to) ++ [(k, md)] /\
  forall c, c <> from -> c <> to -> class_lru d' c = class_lru d c.

Lemma others_disjoint heap from to k d :
  base heap d -> from <> to -> k ∈ (items (class_lru d from)).*1 -> k ∉ (items (class_lru d to)).*1.
Proof.
  intros Hb Hne Hk Hto. apply (class_others heap from d k Hb Hk).
  destruct from, to; try done; simpl in *; rewrite fmap_app, elem_of_app; auto.
Qed.

Lemma moved_residents heap k md from to d d' :
  base heap d -> from <> to -> assoc k (items (class_lru d from)) = Some md -> moved k md from to d d' ->
  residents_of d ≡ₚ residents_of d'.
Proof.
  intros Hb Hne Hk (Hf & Ht & Ho). pose proof (drop_key_perm k md _ (class_nodup heap from d Hb) Hk) as Hp.
  assert (Hsplit : exists c, c <> from /\ c <> to /\
    (forall y : DramStore C I, residents_of y ≡ₚ items (class_lru y from) ++ items (class_lru y to) ++ items (class_lru y c))).
  { destruct from, to; try done; unfold residents_of.
    - exists Retained. done.
    - exists Probationary. split_and!; try done. intros y. simpl. by rewrite (Permutation_app_comm (items (probationary y))).
    - exists Retained. split_and!; try done. intros y. simpl. rewrite !app_assoc. by rewrite (Permutation_app_comm (items (reclaimable y))).
    - exists Reclaimable. split_and!; try done. intros y. simpl. by rewrite Permutation_app_comm, <- app_assoc.
    - exists Probationary. split_and!; try done. intros y. simpl.
      rewrite (Permutation_app_comm (items (probationary y))), !app_assoc. by rewrite (Permutation_app_comm (items (reclaimable y))).
    - exists Reclaimable. split_and!; try done. intros y. simpl.
      by rewrite Permutation_app_comm, <- app_assoc, (Permutation_app_comm (items (probationary y))), <- app_assoc,
        (Permutation_app_comm (items (reclaimable y))). }
  destruct Hsplit as (c & Hc1 & Hc2 & Hs). rewrite (Hs d), (Hs d'), Hf, Ht, (Ho c) by done. rewrite Hp at 1.
  rewrite <- !app_assoc. f_equiv. rewrite !app_assoc. f_equiv. apply Permutation_app_comm.
Qed.

Lemma move_resident_miss k from to d :
  assoc k (items (class_lru d from)) = None ->
  exists l, (move_resident k from to d).1 = set_class from l d /\ items l = items (class_lru d from).
Proof.
  intros Hk. unfold move_resident. destruct (remove_law k (class_lru d from)) as [H1' H2'].
  destruct (lru_remove k (class_lru d from)) as [o l]. cbn [fst snd] in *. rewrite H1', Hk. exists l. split; [done|].
  rewrite H2'. apply drop_key_id. by apply assoc_None.
Qed.

Lemma move_resident_moved heap k md from to d :
  base heap d -> from <> to -> assoc k (items (class_lru d from)) = Some md ->
  let d' := (move_resident k from to d).1 in
  moved k md from to d d' /\ cache d' = cache d /\ inventory d' = inventory d /\ protected_limit d' = protected_limit d /\
  retained_bytes d' =
    let n := if decide (from = Retained) then u64_sub (retained_bytes d) (res_bytes md) else retained_bytes d in
    if decide (to = Retained) then u64_add n (res_bytes md) else n.
Proof.
  intros Hb Hne Hk. unfold move_resident. destruct (remove_law k (class_lru d from)) as [H1' H2'].
  destruct (lru_remove k (class_lru d from)) as [o l]. cbn [fst snd] in *. rewrite H1', Hk.
  assert (Hto : drop_key k (items (class_lru d to)) = items (class_lru d to)).
  { apply drop_key_id. apply (others_disjoint heap from); [done..|]. apply is_Some_assoc. by rewrite Hk. }
  unfold moved. split_and!; try (by destruct from, to; simpl in *; rewrite ?insert_law, ?Hto; try done; intros []).
Qed.

Lemma move_resident_spec heap k md from to d :
  base heap d -> retained_bytes d = retained_sum d -> from <> to -> assoc k (items (class_lru d from)) = Some md ->
  let d' := (move_resident k from to d).1 in
  same_residents d d' /\ moved k md from to d d' /\ retained_bytes d' = retained_sum d'.
Proof.
  intros Hb Ha Hne Hk d'. destruct (move_resident_moved heap k md from to d Hb Hne Hk) as (Hm & Hc & Hi & Hl & Hr).
  fold d' in Hm, Hc, Hi, Hl, Hr. pose proof (moved_residents heap k md from to d d' Hb Hne Hk Hm) as Hres.
  assert (Hs : same_residents d d') by (by constructor; rewrite ?Hc).
  pose proof (same_base heap d d' Hs Hb) as Hb'. split_and!; [done..|].
  assert (Hmd : 0 <= res_bytes md).
  { apply (resident_nonneg heap d k); [done|]. by apply (class_resident from), assoc_elem. }
  pose proof (class_sum_bounds heap Retained d Hb) as Hbd. pose proof (class_sum_bounds heap Retained d' Hb') as Hbd'.
  change (0 <= retained_sum d <= u64_max) in Hbd. change (0 <= retained_sum d' <= u64_max) in Hbd'.
  rewrite Hr, Ha. destruct Hm as (Hf & Ht & Ho). cbv zeta. repeat case_decide; subst; try done.
  - pose proof (list_sum_perm (fun p => res_bytes p.2) _ _ (drop_key_perm k md _ (class_nodup heap Retained d Hb) Hk)) as Hp.
    rewrite list_sum_app, <- Hf in Hp. cbn in Hp. change (retained_sum d = retained_sum d' + (res_bytes md + 0)) in Hp.
    rewrite u64_sub_exact; lia.
  - assert (Hp : retained_sum d' = retained_sum d + (res_bytes md + 0)).
    { unfold retained_sum. change (retained d') with (class_lru d' Retained). rewrite Ht. by rewrite list_sum_app. }
    rewrite u64_add_exact; lia.
  - unfold retained_sum. change (retained d') with (class_lru d' Retained). by rewrite Ho.
Qed.

(** ** Demotion and promotion *)

Abbreviation bytes_of l := (list_sum (fun p : StateKey * ResidentMetadata => res_bytes p.2) l).

Lemma assoc_head {V} k (v : V) l : assoc k ((k, v) :: l) = Some v.
Proof. unfold assoc. simpl. by rewrite decide_True. Qed.
Lemma drop_key_head {V} k (v : V) l : k ∉ l.*1 -> drop_key k ((k, v) :: l) = l.
Proof. intros Hk. unfold drop_key. rewrite filter_cons, decide_False by (simpl; auto). by apply drop_key_id. Qed.

(** [d'] is [d] after its [n] oldest retained blocks became probationary. *)
Definition demoted (n : nat) d d' : Prop :=
  items (retained d') = drop n (items (retained d)) /\
  items (probationary d') = items (probationary d) ++ take n (items (retained d)) /\
  reclaimable d' = reclaimable d.

Lemma demote_spec heap fuel remaining d :
  base heap d -> retained_bytes d = retained_sum d -> 0 <= remaining -> (length (items (retained d)) <= fuel)%nat ->
  exists d' n, demote fuel remaining d = Some d' /\ same_residents d d' /\ retained_bytes d' = retained_sum d' /\
    retained_bytes d' <= remaining /\ demoted n d d' /\
    forall m, (m < n)%nat -> remaining < bytes_of (drop m (items (retained d))).
Proof.
  revert d. induction fuel as [|fuel IH]; intros d Hb Ha Hr Hlen; simpl;
    (destruct (Z.leb_spec (retained_bytes d) remaining) as [Hle|Hgt];
      [exists d, 0%nat; unfold demoted; rewrite take_0, drop_0, app_nil_r; split_and!; try done; intros; lia|]);
    unfold oldest; destruct (items (retained d)) as [|[k md] rest] eqn:E; simpl in Hlen;
    try (unfold retained_sum in Ha; rewrite E in Ha; cbn in Ha; lia).
  simpl. assert (Hnd := class_nodup heap Retained d Hb). simpl in Hnd. rewrite E in Hnd. apply NoDup_cons in Hnd as [Hk Hnd].
  destruct (move_resident_spec heap k md Retained Probationary d Hb Ha) as (Hs & (Hf & Ht & Ho) & Ha');
    [done|simpl; rewrite E; apply assoc_head|].
  set (d1 := (move_resident k Retained Probationary d).1) in *. simpl in Hf, Ht. rewrite E, drop_key_head in Hf by done.
  destruct (IH d1) as (d' & n & Hd & Hs' & Ha'' & Hle & (Hd1 & Hd2 & Hd3) & Hmin); [by eapply same_base|done|done|rewrite Hf; lia|].
  exists d', (S n). rewrite Hf in Hd1, Hd2, Hmin. unfold demoted. rewrite E. split_and!; [done|by etrans|done..| | |].
  - by rewrite Hd2, Ht, <- app_assoc.
  - rewrite Hd3. exact (Ho Reclaimable ltac:(done) ltac:(done)).
  - intros [|m] Hm.
    + rewrite drop_0. unfold retained_sum in Ha. rewrite E in Ha. lia.
    + apply Hmin. lia.
Qed.

(** The class that a demanded block is promoted from. *)
Definition promotable (heap : Z -> SealedBlock) k b d : option ResidentClass :=
  if lru_contains k (probationary d) then Some Probationary
  else if warmed (heap b) && lru_contains k (reclaimable d) then Some Reclaimable else None.

Lemma promotable_from heap k b d from :
  promotable heap k b d = Some from -> from <> Retained /\ k ∈ (items (class_lru d from)).*1.
Proof.
  unfold promotable. destruct (lru_contains k (probationary d)) eqn:E1.
  { intros [= <-]. split; [done|]. by apply lru_contains_spec. }
  destruct (_ && _) eqn:E2; [|done]. intros [= <-]. apply andb_true_iff in E2 as [_ E2]. split; [done|]. by apply lru_contains_spec.
Qed.

Lemma retain_demand_unfold (heap : Z -> SealedBlock) k b d :
  retain_demand heap k b d =
    match promotable heap k b d with
    | None => Some d
    | Some from =>
        if 0 <? protected_limit d then
          match checked_sub (protected_limit d) (footprint (heap b)) with
          | None => Some d
          | Some remaining => (fun d => (move_resident k from Retained d).1) <$> demote (length (items (retained d))) remaining d
          end
        else Some (move_resident k from Retained d).1
    end.
Proof.
  unfold retain_demand, promotable. destruct (lru_contains k (probationary d)) eqn:E1; cbn [class_lru].
  - rewrite E1. simpl. destruct (0 <? protected_limit d); [|done].
    destruct (checked_sub (protected_limit d) (footprint (heap b))) as [r|]; [|done]. by destruct (demote _ r d).
  - destruct (warmed (heap b)); simpl; [|done]. destruct (lru_contains k (reclaimable d)); simpl; [|done].
    destruct (0 <? protected_limit d); [|done].
    destruct (checked_sub (protected_limit d) (footprint (heap b))) as [r|]; [|done]. by destruct (demote _ r d).
Qed.

Lemma assoc_app_l {V} k (v : V) l l' : assoc k l = Some v -> assoc k (l ++ l') = Some v.
Proof.
  induction l as [|[k1 v1] l IH]; unfold assoc in *; simpl; [done|]. destruct (decide (k1 = k)); [done|].
  destruct (list_find _ l) as [[i x]|]; [|done]. simpl. intros [= <-]. specialize (IH eq_refl).
  destruct (list_find _ (l ++ l')) as [[i' x']|]; done.
Qed.

Lemma demoted_keeps n k md from d d' :
  demoted n d d' -> from <> Retained -> assoc k (items (class_lru d from)) = Some md ->
  assoc k (items (class_lru d' from)) = Some md.
Proof.
  intros (_ & Hp & Hr) Hf Hk. destruct from; simpl in *; [by rewrite Hr| |done]. rewrite Hp. by apply assoc_app_l.
Qed.

(** What a demand for the resident block [b] of [k] does. *)
Definition demand_outcome (heap : Z -> SealedBlock) k b d d' : Prop :=
  match promotable heap k b d with
  | None => d' = d
  | Some from =>
      if (0 <? protected_limit d) && (protected_limit d <? footprint (heap b)) then d' = d
      else exists n md, assoc k (items (class_lru d from)) = Some md /\
        items (retained d') = drop n (items (retained d)) ++ [(k, md)] /\
        (protected_limit d <= 0 -> n = 0%nat) /\
        forall m, (m < n)%nat -> protected_limit d - footprint (heap b) < bytes_of (drop m (items (retained d)))
  end.

(** A promotion that fits. *)
Lemma promote_spec heap k md from d :
  base heap d -> retained_bytes d = retained_sum d -> from <> Retained -> assoc k (items (class_lru d from)) = Some md ->
  (0 < protected_limit d -> retained_bytes d + res_bytes md <= protected_limit d) ->
  let d' := (move_resident k from Retained d).1 in
  same_residents d d' /\ accounted d' /\ items (retained d') = items (retained d) ++ [(k, md)].
Proof.
  intros Hb Ha Hf Hk Hfit d'.
  destruct (move_resident_spec heap k md from Retained d Hb Ha Hf Hk) as (Hs & (_ & Ht & _) & Ha'). fold d' in Hs, Ht, Ha'.
  split_and!; [done| |exact Ht]. constructor; [done|]. rewrite (s_limit _ _ Hs). intros Hl. specialize (Hfit Hl).
  rewrite Ha'. unfold retained_sum in *. simpl in Ht. rewrite Ht, list_sum_app. cbn. lia.
Qed.

Lemma retain_demand_spec heap k b d :
  base heap d -> accounted d -> assoc k (cached d) = Some b ->
  exists d', retain_demand heap k b d = Some d' /\ same_residents d d' /\ accounted d' /\ demand_outcome heap k b d d'.
Proof.
  intros Hb Ha Hk. rewrite retain_demand_unfold. unfold demand_outcome.
  destruct (promotable heap k b d) as [from|] eqn:Ep; [|by exists d].
  apply promotable_from in Ep as (Hf & Hin). apply is_Some_assoc in Hin as [md Hmd].
  assert (Hsize : res_bytes md = footprint (heap b)).
  { destruct (resident_bytes heap d k md Hb) as (b' & Hb' & ->); [|congruence]. by apply (class_resident from), assoc_elem. }
  destruct (Z.ltb_spec 0 (protected_limit d)) as [Hl|Hl]; simpl.
  2:{ destruct (promote_spec heap k md from d Hb (a_bytes d Ha) Hf Hmd) as (Hs & Ha' & Hr); [lia|].
      eexists. split_and!; [done..|]. exists 0%nat, md. rewrite Hr, drop_0. split_and!; try done. lia. }
  unfold checked_sub. destruct (Z.leb_spec (footprint (heap b)) (protected_limit d)) as [Hfp|Hfp].
  2:{ exists d. rewrite (proj2 (Z.ltb_lt _ _)) by lia. by split_and!. }
  rewrite (proj2 (Z.ltb_ge _ _)) by lia.
  destruct (demote_spec heap (length (items (retained d))) (protected_limit d - footprint (heap b)) d)
    as (d1 & n & -> & Hs1 & Ha1 & Hle & Hd & Hmin); [done|apply (a_bytes d Ha)|lia|lia|].
  destruct (promote_spec heap k md from d1) as (Hs & Ha' & Hr);
    [by eapply same_base|done|done|by eapply demoted_keeps|rewrite (s_limit _ _ Hs1); lia|].
  eexists. split_and!; [done|by etrans|done|]. exists n, md. rewrite Hr, (proj1 Hd). split_and!; try done. lia.
Qed.

(** ** Insertion *)

Lemma report_spec k md now d n :
  room d (S n) -> short_key k -> (forall v, md = Some v -> medium v = Dram) ->
  exists i', report k md now d = Some (set_inventory i' d) /\ room (set_inventory i' d) n /\
    forall i, i' = Some i -> exists i0, inventory d = Some i0 /\
      forall k', listed i k' = if decide (k' = k) then md else listed i0 k'.
Proof.
  unfold report, room. intros Hr Hk Hm. destruct (inventory d) as [i|] eqn:E.
  - destruct (change_law i n k md now Hr Hk Hm) as (i' & -> & Ha & Hl). exists (Some i'). split_and!; [done..|].
    intros ? [= <-]. by exists i.
  - exists None. split_and!; [|done..]. destruct d. simpl in *. by subst.
Qed.

(** One more block: the cache and the classes both have it. *)
Lemma base_grow heap k b md d d' :
  base heap d -> assoc k (cached d) = None -> short_key k -> 0 <= footprint (heap b) -> res_bytes md = footprint (heap b) ->
  list_sum (fun p => footprint (heap p.2)) (cached d) + footprint (heap b) <= u64_max ->
  cached d' = cached d ++ [(k, b)] -> residents_of d' ≡ₚ residents_of d ++ [(k, md)] ->
  (forall i, inventory d' = Some i -> exists i0, inventory d = Some i0 /\
     forall k', listed i k' = if decide (k' = k) then Some (block_metadata (heap b)) else listed i0 k') ->
  base heap d'.
Proof.
  intros [] Hk Hs Hnn Hmd Hfit Hc Hr Hi. apply assoc_None in Hk as Hk'.
  assert (Hnd : NoDup (cached d ++ [(k, b)]).*1).
  { rewrite fmap_app. apply NoDup_app. split_and!; [done| |apply NoDup_singleton].
    intros x Hx ->%list_elem_of_singleton. done. }
  constructor; rewrite ?Hc.
  - done.
  - rewrite Hr, !fmap_app, b_classes0. by cbn; rewrite Hmd.
  - intros k' b' [Hin|[= -> ->]%list_elem_of_singleton]%elem_of_app; [by eapply b_nonneg0|done].
  - rewrite list_sum_app. cbn. lia.
  - intros k'. rewrite fmap_app, elem_of_app. intros [Hin| ->%list_elem_of_singleton]; [by apply b_short0|done].
  - intros i Hi' k'. destruct (Hi i Hi') as (i0 & Hi0 & ->). case_decide as Hkk.
    + subst. rewrite (proj2 (assoc_Some k b _ Hnd)); [done|]. apply elem_of_app. right. by apply list_elem_of_singleton.
    + rewrite (b_listed0 i0 Hi0 k'). by rewrite assoc_app_ne by congruence.
Qed.

(** What an insertion does to the blocks. *)
Definition insert_outcome k b d d' (o : CacheInsertOutcome) : Prop :=
  match o with
  | InsertedNew => assoc k (cached d) = None /\ cached d' = cached d ++ [(k, b)]
  | AlreadyExists => is_Some (assoc k (cached d)) /\ same_residents d d'
  | Rejected => assoc k (cached d) = None /\ same_residents d d'
  end.

Lemma cache_insert_spec k b (c : TinyLfuCache C) :
  match cache_insert k b c with
  | (c', InsertedNew) => assoc k (items (lru c)) = None /\ items (lru c') = items (lru c) ++ [(k, b)]
  | (c', AlreadyExists) => is_Some (assoc k (items (lru c))) /\ lru c' = lru c
  | (c', Rejected) => assoc k (items (lru c)) = None /\ lru c' = lru c
  end.
Proof.
  unfold cache_insert. destruct (lru_contains k (lru c)) eqn:E.
  { split; [|done]. by apply is_Some_assoc, lru_contains_spec. }
  assert (Hk : k ∉ (items (lru c)).*1) by (rewrite <- lru_contains_spec; congruence).
  pose proof (proj2 (assoc_None k _) Hk).
  destruct (match bump k (freq c), oldest (lru c) with Some t, Some v => _ | _, _ => _ end); [done|].
  split; [done|]. simpl. by rewrite insert_law, drop_key_id.
Qed.

Lemma set_cache_same c d : lru c = lru (cache d) -> same_residents d (set_cache c d).
Proof. intros Hc. constructor; try done. simpl. by rewrite Hc. Qed.

(** A new block enters its class with its size. *)
Definition enter (class : ResidentClass) k (md : ResidentMetadata) d : DramStore C I :=
  let d := set_class class (lru_insert k md (class_lru d class)) d in
  if decide (class = Retained) then set_retained_bytes (u64_add (retained_bytes d) (res_bytes md)) d else d.

Lemma enter_spec class k md d :
  k ∉ (residents_of d).*1 -> accounted d -> 0 <= res_bytes md -> 0 <= retained_sum d ->
  retained_sum d + res_bytes md <= u64_max -> (class = Retained -> protected_limit d <= 0) ->
  cache (enter class k md d) = cache d /\ inventory (enter class k md d) = inventory d /\
  residents_of (enter class k md d) ≡ₚ residents_of d ++ [(k, md)] /\ accounted (enter class k md d).
Proof.
  intros Hk [Ha Hl] Hnn Hs Hfit Hlim. rewrite (residents_class class), fmap_app, elem_of_app in Hk.
  assert (Hit : items (lru_insert k md (class_lru d class)) = items (class_lru d class) ++ [(k, md)]).
  { rewrite insert_law, drop_key_id; [done|]. auto. }
  split_and!; [by destruct class|by destruct class| |].
  - trans (residents_of (set_class class (lru_insert k md (class_lru d class)) d)); [by destruct class|].
    rewrite residents_set_class, Hit, (residents_class class d), <- !app_assoc. f_equiv. apply Permutation_app_comm.
  - destruct class; unfold enter; [by constructor..|]. rewrite decide_True by done. constructor; cbn in *.
    + unfold retained_sum in *. cbn. rewrite Hit, list_sum_app, Ha. cbn. rewrite u64_add_exact; lia.
    + intros Hp. specialize (Hlim eq_refl). lia.
Qed.

(** What a class holds is part of what the cache holds. *)
Lemma class_sum_le heap c d :
  base heap d -> bytes_of (items (class_lru d c)) <= list_sum (fun p => footprint (heap p.2)) (cached d).
Proof.
  intros Hb. pose proof (list_sum_perm snd _ _ (b_classes heap d Hb)) as Hp. rewrite !list_sum_fmap in Hp. cbn [snd] in Hp.
  rewrite (list_sum_perm _ _ _ (residents_class c d)), list_sum_app in Hp.
  assert (0 <= bytes_of (others c d)); [|lia].
  apply list_sum_nonneg. intros [k' md] Hin. apply (resident_nonneg heap d k' md Hb).
  rewrite (residents_class c). apply elem_of_app. by right.
Qed.

Lemma insert_new heap now k b class c d n :
  base heap d -> accounted d -> room d (S n) -> short_key k -> 0 <= footprint (heap b) ->
  list_sum (fun p => footprint (heap p.2)) (cached d) + footprint (heap b) <= u64_max ->
  assoc k (cached d) = None -> items (lru c) = cached d ++ [(k, b)] -> (class = Retained -> protected_limit d <= 0) ->
  exists i', report k (Some (block_metadata (heap b))) now (set_cache c d) = Some (set_inventory i' (set_cache c d)) /\
    let d' := enter class k (mkResident now (footprint (heap b))) (set_inventory i' (set_cache c d)) in
    base heap d' /\ accounted d' /\ room d' n /\ protected_limit d' = protected_limit d /\ cached d' = cached d ++ [(k, b)].
Proof.
  intros Hb Ha Hroom Hs Hnn Hfit Hk Hc Hcl.
  destruct (report_spec k (Some (block_metadata (heap b))) now (set_cache c d) n Hroom Hs) as (i' & -> & Hr & Hi).
  { by intros v [= <-]. }
  exists i'. split; [done|]. set (d1 := set_inventory i' (set_cache c d)) in *. intros d'.
  pose proof (class_sum_bounds heap Retained d Hb) as Hsum. pose proof (class_sum_le heap Retained d Hb) as Hle.
  destruct (enter_spec class k (mkResident now (footprint (heap b))) d1) as (He1 & He2 & He3 & He4).
  - change (residents_of d1) with (residents_of d). rewrite (base_keys heap d Hb). by apply assoc_None.
  - destruct Ha. by constructor.
  - done.
  - exact (proj1 Hsum).
  - cbn [res_bytes]. change (retained_sum d1) with (bytes_of (items (class_lru d Retained))). lia.
  - exact Hcl.
  - fold d' in He1, He2, He3, He4. assert (Hc' : cached d' = cached d ++ [(k, b)]) by (rewrite He1; exact Hc). split_and!; [|done| |by destruct class|done].
    + eapply base_grow; [exact Hb|exact Hk|exact Hs|exact Hnn| |exact Hfit|exact Hc'|exact He3|]; [done|]. rewrite He2. exact Hi.
    + unfold room. rewrite He2. exact Hr.
Qed.

Lemma room_le d m n : room d n -> (m <= n)%nat -> room d m.
Proof. unfold room. destruct (inventory d); [apply accepts_le|done]. Qed.

Lemma insert_block_spec heap now k b class d n :
  base heap d -> accounted d -> room d (S n) -> short_key k -> 0 <= footprint (heap b) ->
  list_sum (fun p => footprint (heap p.2)) (cached d) + footprint (heap b) <= u64_max ->
  exists d' o, insert_block heap now k b class d = Some (d', o) /\ base heap d' /\ accounted d' /\ room d' n /\
    protected_limit d' = protected_limit d /\ insert_outcome k b d d' o.
Proof.
  intros Hb Ha Hroom Hs Hnn Hfit. assert (Hroom' : room d n) by (eapply room_le; [done|lia]).
  assert (Hkeep : forall d', same_residents d d' -> accounted d' ->
    base heap d' /\ accounted d' /\ room d' n /\ protected_limit d' = protected_limit d).
  { intros d' Hd Ha'. split_and!; [by eapply same_base|done|by eapply same_room|apply (s_limit _ _ Hd)]. }
  unfold insert_block. destruct (warmed (heap b) && _) eqn:Ew.
  { exists d, AlreadyExists. destruct (Hkeep d) as (? & ? & ? & ?); [done..|]. split_and!; try done.
    apply andb_true_iff in Ew as [_ Ew]. split; [|done]. by apply is_Some_assoc, lru_contains_spec. }
  set (cl := if (0 <? protected_limit d) && _ then Probationary else class).
  pose proof (cache_insert_spec k b (cache d)) as Hc. destruct (cache_insert k b (cache d)) as [c []]; destruct Hc as [Hk Hc].
  - destruct (insert_new heap now k b cl c d n) as (i' & -> & Hd'); [done..| |].
    { subst cl. destruct (Z.ltb_spec 0 (protected_limit d)); [|lia]. by destruct class. }
    eexists _, InsertedNew. split; [done|]. destruct Hd' as (? & ? & ? & ? & ?). by split_and!.
  - pose proof (set_cache_same c d Hc) as Hsc.
    destruct (refresh_same heap k (set_cache c d)) as [Hrs Hra]; [by eapply same_base|destruct Ha; by constructor|].
    assert (Hall : same_residents d (refresh_recency k (set_cache c d))) by (by etrans).
    eexists _, AlreadyExists. split; [done|]. destruct (Hkeep _ Hall Hra) as (? & ? & ? & ?). by split_and!.
  - pose proof (set_cache_same c d Hc) as Hsc.
    eexists _, Rejected. split; [done|]. destruct (Hkeep _ Hsc) as (? & ? & ? & ?); [destruct Ha; by constructor|]. by split_and!.
Qed.

(** ** Lookups *)

Lemma cache_get_spec heap k d :
  base heap d -> accounted d ->
  let d' := set_cache (cache_get k (cache d)).2 d in
  (cache_get k (cache d)).1 = assoc k (cached d) /\ same_residents d d' /\ accounted d'.
Proof.
  intros Hb Ha. unfold cache_get. destruct (get_law k (lru (cache d))) as [H1' H2'].
  destruct (lru_get k (lru (cache d))) as [o l]. cbn in *. split_and!; [done| |destruct Ha; by constructor].
  constructor; try done. cbn. rewrite H2'. symmetry. apply touch_perm, (b_nodup heap d Hb).
Qed.

Lemma get_and_refresh_spec heap k d :
  base heap d -> accounted d ->
  (get_and_refresh k d).1 = assoc k (cached d) /\ same_residents d (get_and_refresh k d).2 /\ accounted (get_and_refresh k d).2.
Proof.
  intros Hb Ha. destruct (cache_get_spec heap k d Hb Ha) as (Hg & Hs & Ha'). unfold get_and_refresh.
  destruct (cache_get k (cache d)) as [o c]. cbn [fst snd] in *. subst o. destruct (assoc k (cached d)); [|done].
  destruct (refresh_same heap k (set_cache c d)) as [Hs' Ha'']; [by eapply same_base|done|]. split_and!; [done|by etrans|done].
Qed.

Lemma same_assoc heap k d d' : base heap d -> same_residents d d' -> assoc k (cached d') = assoc k (cached d).
Proof. intros Hb Hs. symmetry. apply assoc_perm; [apply (b_nodup heap d Hb)|apply (s_cache _ _ Hs)]. Qed.

(** The blocks of the longest resident prefix of [keys]. *)
Definition prefix_of (keys : list StateKey) d (blocks : list Z) : Prop :=
  Forall2 (fun k b => assoc k (cached d) = Some b) (take (length blocks) keys) blocks /\
  forall k, keys !! length blocks = Some k -> assoc k (cached d) = None.

Lemma prefix_same heap keys d d' blocks : base heap d -> same_residents d d' -> prefix_of keys d' blocks -> prefix_of keys d blocks.
Proof.
  intros Hb Hs [H1' H2']. split.
  - eapply Forall2_impl; [exact H1'|]. intros k b. cbn beta. by rewrite (same_assoc heap k d d').
  - intros k Hk. rewrite <- (same_assoc heap k d d') by done. by apply H2'.
Qed.

Lemma prefix_spec heap keys warming d :
  base heap d -> accounted d ->
  exists d' blocks, get_prefix_blocks heap keys warming d = Some (d', blocks) /\ same_residents d d' /\ accounted d' /\
    prefix_of keys d blocks /\ (warming = true -> d' = d).
Proof.
  revert d. induction keys as [|k keys IH]; intros d Hb Ha; simpl.
  { exists d, []. by split_and!. }
  assert (Hself : set_cache (cache d) d = d) by (by destruct d).
  set (r := if warming then (cache_peek k (cache d), cache d) else cache_get k (cache d)).
  assert (Hr : r.1 = assoc k (cached d) /\ same_residents d (set_cache r.2 d) /\ accounted (set_cache r.2 d) /\
    (warming = true -> set_cache r.2 d = d)).
  { subst r. destruct warming; [by split_and!; simpl; rewrite ?Hself; [apply peek_law|..]|].
    destruct (cache_get_spec heap k d Hb Ha) as (? & ? & ?). by split_and!. }
  destruct r as [o c]. cbn [fst snd] in Hr. destruct Hr as (-> & Hs1 & Ha1 & Hw1). set (d1 := set_cache c d) in *.
  destruct (assoc k (cached d)) as [b|] eqn:Ek.
  2:{ exists d1, []. split_and!; try done. split; [constructor|]. by intros ? [= <-]. }
  assert (Hstep : exists d2, (if warming then Some d1 else match retain_demand heap k b d1 with
      Some d => Some (refresh_recency k d) | None => None end) = Some d2 /\ same_residents d d2 /\ accounted d2 /\
      (warming = true -> d2 = d)).
  { destruct warming; [by exists d1; rewrite Hw1|].
    destruct (retain_demand_spec heap k b d1) as (d2 & -> & Hs2 & Ha2 & _); [by eapply same_base|done|by rewrite (same_assoc heap k d)|].
    destruct (refresh_same heap k d2) as [Hs3 Ha3]; [by eapply same_base; [etrans; [exact Hs1|exact Hs2]|]|done|].
    eexists. split_and!; [done| |done|done]. by do 2 (etrans; [eassumption|]). }
  destruct Hstep as (d2 & -> & Hs2 & Ha2 & Hw2).
  destruct (IH d2) as (d' & blocks & -> & Hs3 & Ha3 & Hp & Hw3); [by eapply same_base|done|].
  exists d', (b :: blocks). split_and!; [done|by etrans|done| |by intros Hw; rewrite Hw3, Hw2].
  apply (prefix_same heap _ d d2) in Hp as [Hp1 Hp2]; [|done..]. split; [by constructor|exact Hp2].
Qed.
End DramInv.
