(* ===== verification/DramEvict.v ===== *)
(** * Eviction, pinning and the promises of the DRAM tier

    Pressure eviction removes only blocks nobody else holds, in class order and no more than
    asked for; pinning answers exactly the current records; the invariant of [DramInv] is kept by
    every operation of the store. *)
From S2P Require Import Prelude Containers State Blocks Lru TinyLfu Residency Dram DramInv.

Local Open Scope Z_scope.

Section DramEvict.
Context {C : Type -> Type} `{LruLaws C} {I : Type} `{ResidencyLaws I}.
Context (heap : Z -> SealedBlock).
Implicit Types d : DramStore C I.

Abbreviation cached d := (items (lru (cache d))).

(** ** Removing one block *)

Lemma base_shrink k b md d d' :
  base heap d -> assoc k (cached d) = Some b -> cached d' = drop_key k (cached d) ->
  residents_of d ≡ₚ residents_of d' ++ [(k, md)] ->
  (forall i, inventory d' = Some i -> exists i0, inventory d = Some i0 /\
     forall k', listed i k' = if decide (k' = k) then None else listed i0 k') ->
  base heap d'.
Proof.
  intros Hb Hk Hc Hr Hi. pose proof Hb as []. pose proof (drop_key_perm k b _ b_nodup Hk) as Hp.
  assert (Hmd : res_bytes md = footprint (heap b)).
  { destruct (resident_bytes heap d k md Hb) as (b' & Hb' & ->); [|congruence].
    rewrite Hr. apply elem_of_app. right. by apply list_elem_of_singleton. }
  constructor; rewrite ?Hc.
  - by apply drop_key_NoDup.
  - rewrite Hr, Hp in b_classes. rewrite !fmap_app in b_classes. cbn in b_classes. rewrite Hmd in b_classes.
    by apply Permutation_app_inv_r in b_classes.
  - intros k' b' [_ Hin]%elem_of_drop_key. by eapply b_nonneg.
  - rewrite (list_sum_perm _ _ _ Hp), list_sum_app in b_fits. cbn in b_fits.
    pose proof (b_nonneg k b (assoc_elem _ _ _ Hk)). lia.
  - intros k' ([k2 b2] & -> & [_ Hin]%elem_of_drop_key)%list_elem_of_fmap. apply b_short, list_elem_of_fmap. eauto.
  - intros i Hi' k'. destruct (Hi i Hi') as (i0 & Hi0 & ->). rewrite (b_listed i0 Hi0 k').
    destruct (decide (k' = k)) as [->|Hne].
    + rewrite (proj2 (assoc_None k (drop_key k (cached d)))); [done|].
      intros ([k2 b2] & -> & [Hn _]%elem_of_drop_key)%list_elem_of_fmap. done.
    + rewrite (assoc_perm k' (cached d) (drop_key k (cached d) ++ [(k, b)])) by done. by rewrite assoc_app_ne by congruence.
Qed.

(** [class]'s oldest block has left. *)
Record popped (class : ResidentClass) (k : StateKey) (b : Z) d d' : Prop := {
  p_block : assoc k (cached d) = Some b;
  p_cache : cached d' = drop_key k (cached d);
  p_class : items (class_lru d' class) = tail (items (class_lru d class));
  p_other : forall c, c <> class -> class_lru d' c = class_lru d c;
  p_limit : protected_limit d' = protected_limit d
}.

Lemma remove_lru_spec now class k md rest d n :
  base heap d -> accounted d -> room d (S n) -> items (class_lru d class) = (k, md) :: rest ->
  exists b d', remove_lru now class d = Some (d', Some (k, b, inserted_at md)) /\
    popped class k b d d' /\ base heap d' /\ accounted d' /\ room d' n.
Proof.
  intros Hb Ha Hroom Hit. assert (Hin : (k, md) ∈ residents_of d).
  { apply (class_resident class). rewrite Hit. left. }
  destruct (resident_bytes heap d k md Hb Hin) as (b & Hk & Hmd). pose proof (resident_nonneg heap d k md Hb Hin) as Hnn.
  unfold remove_lru. simpl. destruct (oldest_law (class_lru d class)) as [Ho1 Ho2]. rewrite Hit in Ho1, Ho2. simpl in Ho1, Ho2.
  destruct (remove_oldest (class_lru d class)) as [o l]. cbn [fst snd] in *. subst o.
  set (d1 := set_class class l d). assert (Hc1 : cache d1 = cache d) by (by destruct class). unfold cache_remove. rewrite Hc1.
  destruct (remove_law k (lru (cache d))) as [Hr1 Hr2]. destruct (lru_remove k (lru (cache d))) as [o c].
  cbn [fst snd] in *. rewrite Hk in Hr1. subst o. set (d2 := set_cache (mkCache c (freq (cache d))) d1).
  destruct (report_spec k None now d2 n) as (i' & -> & Hrm & Hi); [by destruct class| |done|].
  { apply (b_short heap d Hb), is_Some_assoc. by rewrite Hk. }
  set (d3 := set_inventory i' d2) in *.
  set (d' := if decide (class = Retained) then set_retained_bytes (u64_sub (retained_bytes d3) (res_bytes md)) d3 else d3).
  assert (Hpop : popped class k b d d').
  { constructor; [done|by destruct class|rewrite Hit; by destruct class| |by destruct class].
    by intros c' Hc'; destruct class, c'. }
  assert (Hb' : base heap d').
  { apply (base_shrink k b md d d'); [exact Hb|exact Hk|apply Hpop| |].
    - trans (items (class_lru d class) ++ others class d); [apply residents_class|].
      trans ((items (class_lru d' class) ++ others class d') ++ [(k, md)]); [|f_equiv; symmetry; apply residents_class].
      rewrite Hit. replace (items (class_lru d' class)) with rest by (by rewrite (p_class _ _ _ _ _ Hpop), Hit).
      replace (others class d') with (others class d) by (by destruct class).
      rewrite (Permutation_app_comm _ [(k, md)]). done.
    - intros i Hi'. destruct (Hi i) as (i0 & Hi0 & Hl); [by destruct class|]. exists i0. split; [by destruct class|done]. }
  exists b, d'. split_and!; [done|done|done| |by destruct class].
  - destruct Ha as [Ha Hl]. destruct class; [by constructor..|].
    assert (Hsum : retained_sum d = res_bytes md + retained_sum d').
    { unfold retained_sum. simpl in Hit, Ho2. simpl. by rewrite Hit, Ho2. }
    pose proof (class_sum_bounds heap Retained d Hb) as Hbd. change (0 <= retained_sum d <= u64_max) in Hbd.
    pose proof (class_sum_bounds heap Retained d' Hb') as Hbd'. change (0 <= retained_sum d' <= u64_max) in Hbd'.
    assert (Hrb : retained_bytes d' = retained_sum d').
    { change (retained_bytes d') with (u64_sub (retained_bytes d) (res_bytes md)). rewrite Ha, u64_sub_exact by lia. lia. }
    constructor; [done|]. change (protected_limit d') with (protected_limit d). lia.
Qed.

(** ** Removing a batch from a class *)

Section Batch.
Context (strong : StateKey -> Z) (now batch_size target_bytes : Z).

Definition bytes_after (n : Z) (ev : list (StateKey * Z)) : Z :=
  foldl (fun n p => saturating_add n (footprint (heap p.2))) n ev.
Definition without {V} (ev : list (StateKey * Z)) (l : list (StateKey * V)) : list (StateKey * V) :=
  filter (fun p => p.1 ∉ ev.*1) l.

Record dropped (class : ResidentClass) (ev : list (StateKey * Z)) d d' : Prop := {
  e_cache : cached d' = without ev (cached d);
  e_class : items (class_lru d' class) ≡ₚ without ev (items (class_lru d class));
  e_other : forall c, c <> class -> class_lru d' c = class_lru d c;
  e_limit : protected_limit d' = protected_limit d;
  e_in : forall k b, (k, b) ∈ ev ->
    assoc k (cached d) = Some b /\ k ∈ (items (class_lru d class)).*1 /\ strong k = 1;
  e_nodup : NoDup ev.*1
}.

Lemma without_cons {V} k b ev (l : list (StateKey * V)) : without ((k, b) :: ev) l = without ev (drop_key k l).
Proof.
  unfold without, drop_key. rewrite list_filter_filter. apply list_filter_iff. intros [k' v]. simpl.
  rewrite not_elem_of_cons. tauto.
Qed.

Lemma without_nil {V} (l : list (StateKey * V)) : without [] l = l.
Proof.
  unfold without. induction l as [|p l IH]; [done|]. rewrite filter_cons, decide_True by apply not_elem_of_nil. by f_equal.
Qed.

Lemma dropped_nil class d : dropped class [] d d.
Proof.
  constructor; rewrite ?without_nil; try done; [|constructor]. by intros k b Hin%elem_of_nil.
Qed.

Lemma dropped_rotate class k ev d d' :
  base heap d -> dropped class ev (set_class class (lru_get k (class_lru d class)).2 d) d' -> dropped class ev d d'.
Proof.
  intros Hb [Hc Hcl Ho Hl Hin Hnd]. set (d1 := set_class class _ d) in *.
  pose proof (touch_class_perm heap class k d Hb) as Hp. assert (Hc1 : cache d1 = cache d) by (by destruct class).
  assert (Hcl1 : items (class_lru d1 class) ≡ₚ items (class_lru d class)) by (unfold d1; by rewrite class_lru_set, Hp).
  constructor; rewrite <- ?Hc1; try done.
  - unfold without in *. by rewrite Hcl, Hcl1.
  - intros c Hne. rewrite Ho by done. by destruct class, c.
  - rewrite Hl. by destruct class.
  - intros k' b' (Ha & Hk & Hs)%Hin. rewrite Hcl1 in Hk. done.
Qed.

Lemma dropped_cons class k b md rest ev d d1 d' :
  base heap d -> items (class_lru d class) = (k, md) :: rest -> strong k = 1 ->
  popped class k b d d1 -> dropped class ev d1 d' -> dropped class ((k, b) :: ev) d d'.
Proof.
  intros Hb Hit Hs [Hk Hpc Hpcl Hpo Hpl] [Hc Hcl Ho Hl Hin Hnd].
  assert (Hkr : k ∉ rest.*1).
  { pose proof (class_nodup heap class d Hb) as Hn. rewrite Hit in Hn. by apply NoDup_cons in Hn as [? _]. }
  rewrite Hit in Hpcl. simpl in Hpcl. constructor; rewrite ?without_cons.
  - by rewrite Hc, Hpc.
  - rewrite Hcl, Hpcl, Hit, drop_key_head by done. done.
  - intros c Hne. by rewrite Ho, Hpo.
  - by rewrite Hl.
  - intros k' b' [[= -> ->]|Hev]%elem_of_cons.
    + split_and!; [done| |done]. rewrite Hit. left.
    + destruct (Hin k' b' Hev) as (Ha & Hk' & Hs'). rewrite Hpc in Ha. rewrite Hpcl in Hk'.
      assert (Hne : k' <> k) by (by intros ->). split_and!; [|rewrite Hit; by right|done].
      rewrite (assoc_perm k' (cached d) (drop_key k (cached d) ++ [(k, b)])).
      * by rewrite assoc_app_ne by congruence.
      * apply (b_nodup heap d Hb).
      * apply drop_key_perm; [apply (b_nodup heap d Hb)|done].
  - rewrite fmap_cons. constructor; [|done]. intros ([k2 b2] & Hk2 & Hev)%list_elem_of_fmap. cbn in Hk2. subst k2.
    destruct (Hin k b2 Hev) as (Ha & _). rewrite Hpc in Ha. apply assoc_elem, elem_of_drop_key in Ha as [Hn _]. done.
Qed.

(** Why a class's loop ended, and that it did not end late. *)
Definition batch_stop (class : ResidentClass) (removed ev : list (StateKey * Z)) (bytes : Z) d' : Prop :=
  (batch_done batch_size target_bytes (removed ++ ev) (bytes_after bytes ev) = true \/
   forall k, k ∈ (items (class_lru d' class)).*1 -> strong k <> 1) /\
  forall p q, ev = p ++ q -> q <> [] -> batch_done batch_size target_bytes (removed ++ p) (bytes_after bytes p) = false.

Lemma evict_class_spec class todo kept d removed bytes n :
  base heap d -> accounted d -> room d (length todo + n) -> items (class_lru d class) = todo ++ kept ->
  (forall k, k ∈ kept.*1 -> strong k <> 1) ->
  exists d' ev,
    evict_class heap strong now batch_size target_bytes (length todo) class d removed bytes =
      Some (d', removed ++ ev, bytes_after bytes ev) /\
    base heap d' /\ accounted d' /\ room d' n /\ dropped class ev d d' /\ batch_stop class removed ev bytes d'.
Proof.
  revert kept d removed bytes. induction todo as [|[k md] todo IH]; intros kept d removed bytes Hb Ha Hroom Hit Hkept; simpl.
  { exists d, []. rewrite app_nil_r. split_and!; try done; [apply dropped_nil|]. split; [right; by rewrite Hit|].
    intros [|] [|] Hpq Hq; done. }
  destruct (batch_done batch_size target_bytes removed bytes) eqn:Ed.
  { exists d, []. rewrite app_nil_r. split_and!; try done; [by eapply room_le; [|apply Nat.le_add_l]|apply dropped_nil|].
    split; [left; by rewrite app_nil_r|]. intros [|] [|] Hpq Hq; done. }
  unfold oldest. rewrite Hit. simpl. assert (Hres : is_Some (assoc k (cached d))).
  { apply is_Some_assoc. rewrite <- (base_keys heap d Hb), (residents_class class), fmap_app, elem_of_app, Hit. left. left. }
  unfold is_cache_owned_only. rewrite peek_law. destruct Hres as [b Hkb]. rewrite Hkb.
  destruct (Z.eqb_spec (strong k) 1) as [Hs|Hs].
  - destruct (remove_lru_spec now class k md (todo ++ kept) d (length todo + n)) as (b' & d1 & -> & Hpop & Hb1 & Ha1 & Hr1);
      [done..|]. pose proof (p_block _ _ _ _ _ Hpop) as Hb'. rewrite Hkb in Hb'. injection Hb' as <-.
    destruct (IH kept d1 (removed ++ [(k, b)]) (saturating_add bytes (footprint (heap b)))) as (d' & ev & -> & ? & ? & ? & Hdr & Hst & Hmin);
      [done|done|done|by rewrite (p_class _ _ _ _ _ Hpop), Hit|done|].
    exists d', ((k, b) :: ev). rewrite <- app_assoc in *. split_and!; try done; [by eapply dropped_cons|].
    split; [exact Hst|]. intros [|x p] q Hpq Hq; simpl in *; [by rewrite app_nil_r|]. injection Hpq as <- ->.
    specialize (Hmin p q eq_refl Hq). by rewrite <- app_assoc in Hmin.
  - pose proof (touch_class heap class k d Hb Ha) as [Hsame Ha1].
    set (d1 := set_class class (lru_get k (class_lru d class)).2 d) in *.
    assert (Hnd := class_nodup heap class d Hb). rewrite Hit in Hnd. simpl in Hnd. apply NoDup_cons in Hnd as [Hk _].
    destruct (IH (kept ++ [(k, md)]) d1 removed bytes) as (d' & ev & -> & ? & ? & ? & Hdr & Hst);
      [by eapply same_base|done| | | |].
    + eapply same_room; [exact Hsame|]. eapply room_le; [exact Hroom|simpl; lia].
    + unfold d1. rewrite class_lru_set, (proj2 (get_law _ _)), Hit. unfold touch. simpl.
      by rewrite assoc_head, drop_key_head, app_assoc.
    + intros k'. rewrite fmap_app, elem_of_app. intros [Hk'|Hk']; [by apply Hkept|]. by apply list_elem_of_singleton in Hk' as ->.
    + exists d', ev. split_and!; try done. by eapply dropped_rotate.
Qed.

Abbreviation done_with r b := (batch_done batch_size target_bytes r b).

(** The loop goes on only while more is wanted. *)
Definition minimal (r : list (StateKey * Z)) (b : Z) (ev : list (StateKey * Z)) : Prop :=
  forall p q, ev = p ++ q -> q <> [] -> done_with (r ++ p) (bytes_after b p) = false.
Definition exhausts (c : ResidentClass) (ev : list (StateKey * Z)) d : Prop :=
  forall k, k ∈ (items (class_lru d c)).*1 -> strong k = 1 -> k ∈ ev.*1.

Lemma bytes_after_app n p q : bytes_after n (p ++ q) = bytes_after (bytes_after n p) q.
Proof. apply foldl_app. Qed.

Lemma minimal_app r b p q : minimal r b p -> minimal (r ++ p) (bytes_after b p) q -> minimal r b (p ++ q).
Proof.
  intros Hp Hq x y [(z & -> & ->)|(z & -> & ->)]%app_eq_inv Hy.
  - destruct z as [|a z]; [|by apply (Hp x (a :: z))]. rewrite app_nil_r in *. specialize (Hq [] q eq_refl Hy).
    by rewrite app_nil_r in Hq.
  - specialize (Hq z y eq_refl Hy). by rewrite app_assoc, bytes_after_app.
Qed.

Lemma minimal_done r b ev : minimal r b ev -> done_with r b = true -> ev = [].
Proof.
  intros Hm Hd. destruct ev as [|x ev]; [done|]. specialize (Hm [] (x :: ev) eq_refl ltac:(done)).
  rewrite app_nil_r in Hm. cbn in Hm. congruence.
Qed.

Lemma minimal_size ev : 0 <= batch_size -> minimal [] 0 ev -> zlen ev <= batch_size.
Proof.
  intros Hs Hm. destruct (Z.le_gt_cases (zlen ev) batch_size) as [|Hgt]; [done|]. unfold zlen in *.
  specialize (Hm (take (Z.to_nat batch_size) ev) (drop (Z.to_nat batch_size) ev) ltac:(by rewrite take_drop)).
  assert (Hd : drop (Z.to_nat batch_size) ev <> []).
  { intros Hd. apply (f_equal length) in Hd. rewrite length_drop in Hd. simpl in Hd. lia. }
  specialize (Hm Hd). unfold batch_done, zlen in Hm. simpl in Hm. rewrite length_take in Hm.
  apply orb_false_iff in Hm as [Hm%Z.eqb_neq _]. lia.
Qed.

Lemma class_stage class d removed bytes n :
  base heap d -> accounted d -> room d (length (items (class_lru d class)) + n) ->
  exists d' ev,
    remove_lru_batch_from_class heap strong now batch_size target_bytes class d removed bytes =
      Some (d', removed ++ ev, bytes_after bytes ev) /\
    base heap d' /\ accounted d' /\ room d' n /\ dropped class ev d d' /\ minimal removed bytes ev /\
    (done_with (removed ++ ev) (bytes_after bytes ev) = true \/ exhausts class ev d).
Proof.
  intros Hb Ha Hr. destruct (evict_class_spec class (items (class_lru d class)) [] d removed bytes n)
    as (d' & ev & He & Hb' & Ha' & Hr' & Hd & Hst & Hmin); [done|done|done|by rewrite app_nil_r|by intros k ?%elem_of_nil|].
  exists d', ev. split_and!; try done. destruct Hst as [Hst|Hst]; [by left|right]. intros k Hk Hs.
  destruct (decide (k ∈ ev.*1)) as [|Hn]; [done|]. exfalso. apply (Hst k); [|done]. rewrite (e_class _ _ _ _ Hd).
  apply list_elem_of_fmap in Hk as (p & -> & Hp). apply list_elem_of_fmap. exists p. split; [done|].
  apply list_elem_of_filter. done.
Qed.

(** The three stages of a batch and their evictions. *)
Record stages d d' (ev1 ev2 ev3 : list (StateKey * Z)) : Prop := {
  st_cache : cached d' = without (ev1 ++ ev2 ++ ev3) (cached d);
  st_in : forall k b, (k, b) ∈ ev1 ++ ev2 ++ ev3 -> assoc k (cached d) = Some b /\ strong k = 1;
  st_class1 : forall k, k ∈ ev1.*1 -> k ∈ (items (reclaimable d)).*1;
  st_class2 : forall k, k ∈ ev2.*1 -> k ∈ (items (probationary d)).*1;
  st_class3 : forall k, k ∈ ev3.*1 -> k ∈ (items (retained d)).*1;
  st_nodup : NoDup ev1.*1 /\ NoDup ev2.*1 /\ NoDup ev3.*1;
  st_minimal : minimal [] 0 ev1 /\ minimal ev1 (bytes_after 0 ev1) ev2 /\
    minimal (ev1 ++ ev2) (bytes_after 0 (ev1 ++ ev2)) ev3;
  st_stop1 : done_with ev1 (bytes_after 0 ev1) = true \/ exhausts Reclaimable ev1 d;
  st_stop2 : done_with (ev1 ++ ev2) (bytes_after 0 (ev1 ++ ev2)) = true \/ exhausts Probationary ev2 d;
  st_stop3 : done_with (ev1 ++ ev2 ++ ev3) (bytes_after 0 (ev1 ++ ev2 ++ ev3)) = true \/ exhausts Retained ev3 d
}.

Lemma without_app {V} p q (l : list (StateKey * V)) : without (p ++ q) l = without q (without p l).
Proof.
  unfold without. rewrite list_filter_filter. apply list_filter_iff. intros x. rewrite fmap_app, not_elem_of_app. tauto.
Qed.

Lemma assoc_without k b ev (l : list (StateKey * Z)) : NoDup l.*1 -> assoc k (without ev l) = Some b -> assoc k l = Some b.
Proof. intros Hnd Hk. apply assoc_Some; [done|]. by apply assoc_elem, list_elem_of_filter in Hk as [_ ?]. Qed.

Lemma remove_lru_batch_stages d n :
  base heap d -> accounted d -> room d (length (cached d) + n) ->
  exists d' ev1 ev2 ev3, remove_lru_batch heap strong now batch_size target_bytes d = Some (d', ev1 ++ ev2 ++ ev3) /\
    base heap d' /\ accounted d' /\ room d' n /\ stages d d' ev1 ev2 ev3.
Proof.
  intros Hb Ha Hr. assert (Hlen : length (cached d) = (length (items (reclaimable d)) + (length (items (probationary d)) +
    length (items (retained d))))%nat).
  { pose proof (Permutation_length (base_keys heap d Hb)) as Hl. rewrite !length_fmap in Hl. rewrite <- Hl.
    unfold residents_of. by rewrite !length_app. }
  destruct (class_stage Reclaimable d [] 0 (length (items (probationary d)) + (length (items (retained d)) + n)))
    as (d1 & ev1 & He1 & Hb1 & Ha1 & Hr1 & Hd1 & Hm1 & Hs1); [done|done|eapply room_le; [exact Hr|simpl; lia]|].
  destruct (class_stage Probationary d1 ev1 (bytes_after 0 ev1) (length (items (retained d)) + n))
    as (d2 & ev2 & He2 & Hb2 & Ha2 & Hr2 & Hd2 & Hm2 & Hs2); [done|done|by rewrite (e_other _ _ _ _ Hd1)|].
  destruct (class_stage Retained d2 (ev1 ++ ev2) (bytes_after 0 (ev1 ++ ev2)) n)
    as (d3 & ev3 & He3 & Hb3 & Ha3 & Hr3 & Hd3 & Hm3 & Hs3); [done|done|by rewrite (e_other _ _ _ _ Hd2), (e_other _ _ _ _ Hd1)|].
  exists d3, ev1, ev2, ev3. unfold remove_lru_batch. rewrite He1. simpl. rewrite He2, <- bytes_after_app, He3, <- app_assoc.
  split_and!; [done..|]. rewrite <- bytes_after_app in Hs2. rewrite <- bytes_after_app, <- !app_assoc in Hs3.
  destruct Hd1 as [Hc1 _ Ho1 _ Hin1 Hn1], Hd2 as [Hc2 _ Ho2 _ Hin2 Hn2], Hd3 as [Hc3 _ Ho3 _ Hin3 Hn3].
  pose proof (b_nodup heap d Hb) as Hnd. pose proof (b_nodup heap d1 Hb1) as Hnd1.
  assert (Hp2 : class_lru d1 Probationary = class_lru d Probationary) by (by apply Ho1).
  assert (Hp3 : class_lru d2 Retained = class_lru d Retained) by (by rewrite Ho2, Ho1).
  constructor; try done.
  - by rewrite !without_app, <- Hc1, <- Hc2.
  - intros k b. rewrite !elem_of_app. intros [Hi|[Hi|Hi]].
    + by destruct (Hin1 k b Hi) as (? & _ & ?).
    + destruct (Hin2 k b Hi) as (Hk & _ & ?). split; [|done]. rewrite Hc1 in Hk. by apply assoc_without in Hk.
    + destruct (Hin3 k b Hi) as (Hk & _ & ?). split; [|done]. rewrite Hc2 in Hk. apply assoc_without in Hk; [|done].
      rewrite Hc1 in Hk. by apply assoc_without in Hk.
  - intros k ([k' b] & -> & Hi)%list_elem_of_fmap. by destruct (Hin1 k' b Hi) as (_ & ? & _).
  - intros k ([k' b] & -> & Hi)%list_elem_of_fmap. destruct (Hin2 k' b Hi) as (_ & Hk & _). by rewrite Hp2 in Hk.
  - intros k ([k' b] & -> & Hi)%list_elem_of_fmap. destruct (Hin3 k' b Hi) as (_ & Hk & _). by rewrite Hp3 in Hk.
  - destruct Hs2 as [|Hs2]; [by left|right]. intros k. rewrite <- Hp2. apply Hs2.
  - destruct Hs3 as [|Hs3]; [by left|right]. intros k. rewrite <- Hp3. apply Hs3.
Qed.
End Batch.

(** ** The other operations *)

Definition block_sum (l : list (StateKey * Z)) : Z := list_sum (fun p => footprint (heap p.2)) l.

Lemma batch_insert_spec now blocks class d n :
  base heap d -> accounted d -> room d (length blocks + n) ->
  Forall (fun p => short_key p.1 /\ 0 <= footprint (heap p.2)) blocks ->
  block_sum (cached d) + block_sum blocks <= u64_max ->
  exists d', batch_insert heap now blocks class d = Some d' /\ base heap d' /\ accounted d' /\ room d' n.
Proof.
  revert d. induction blocks as [|[k b] blocks IH]; intros d Hb Ha Hr Hok Hfit; simpl; [by exists d|].
  apply Forall_cons in Hok as [[Hs Hnn] Hok]. cbn in Hs, Hnn. unfold block_sum in *. cbn in Hfit.
  assert (0 <= list_sum (fun p => footprint (heap p.2)) blocks).
  { apply list_sum_nonneg. intros p Hp. by apply (proj1 (Forall_forall _ _) Hok p). }
  destruct (insert_block_spec heap now k b class d (length blocks + n)) as (d1 & o & -> & Hb1 & Ha1 & Hr1 & _ & Ho); try done.
  { unfold list_sum in *. simpl in *. lia. }
  apply IH; try done. unfold insert_outcome in Ho.
  destruct o; destruct Ho as [_ Ho]; rewrite ?Ho, ?list_sum_app, <- ?(list_sum_perm _ _ _ (s_cache _ _ Ho)); unfold list_sum in *; simpl in *; lia.
Qed.

Lemma retain_demands_spec pairs d :
  base heap d -> accounted d -> exists d', retain_demands heap pairs d = Some d' /\ same_residents d d' /\ accounted d'.
Proof.
  revert d. induction pairs as [|[k b] pairs IH]; intros d Hb Ha; simpl; [by exists d|].
  unfold cache_peek. rewrite peek_law. case_bool_decide as Hk.
  - destruct (retain_demand_spec heap k b d Hb Ha Hk) as (d1 & -> & Hs & Ha1 & _).
    destruct (IH d1) as (d' & -> & Hs' & Ha'); [by eapply same_base|done|].
    exists d'. split_and!; [done| |done]. eapply same_residents_trans; eassumption.
  - apply IH; done.
Qed.

Lemma pin_loop_spec records d :
  base heap d -> accounted d -> Forall (fun r => is_Some (assoc (key r) (cached d))) records ->
  exists d' found, pin_loop records d = (d', Some found) /\ same_residents d d' /\ accounted d' /\
    Forall2 (fun r p => p.1 = key r /\ assoc (key r) (cached d) = Some p.2) records found.
Proof.
  intros Hb Ha Hall. revert d Hb Ha Hall. induction records as [|r records IH]; intros d Hb Ha Hall; simpl.
  { exists d, []. by split_and!. }
  apply Forall_cons in Hall as [[b Hk] Hall]. destruct (get_and_refresh_spec heap (key r) d Hb Ha) as (Hg & Hs & Ha1).
  destruct (get_and_refresh (key r) d) as [o d1]. cbn [fst snd] in *. subst o. rewrite Hk.
  destruct (IH d1) as (d' & found & -> & Hs' & Ha' & Hf); [by eapply same_base|done| |].
  { eapply Forall_impl; [exact Hall|]. intros x. cbn beta. by rewrite (same_assoc heap (key x) d d1). }
  exists d', ((key r, b) :: found). split_and!; [done|eapply same_residents_trans; eassumption|done|].
  constructor; [done|]. eapply Forall2_impl; [exact Hf|]. intros x p. cbn beta. by rewrite (same_assoc heap (key x) d d1).
Qed.

Lemma aligned_lookup_spec keys d :
  base heap d -> accounted d ->
  (get_blocks_aligned keys d).2 = (fun k => assoc k (cached d)) <$> keys /\
  same_residents d (get_blocks_aligned keys d).1 /\ accounted (get_blocks_aligned keys d).1.
Proof.
  revert d. induction keys as [|k keys IH]; intros d Hb Ha; simpl; [done|].
  destruct (get_and_refresh_spec heap k d Hb Ha) as (Hg & Hs & Ha1).
  destruct (get_and_refresh k d) as [o d1]. cbn [fst snd] in *. subst o.
  destruct (IH d1) as (Hbl & Hs' & Ha'); [by eapply same_base|done|].
  destruct (get_blocks_aligned keys d1) as [d' blocks]. cbn [fst snd] in *. split_and!; [|eapply same_residents_trans; eassumption|done].
  rewrite Hbl. f_equal. apply list_fmap_ext. intros i x Hx. by apply (same_assoc heap).
Qed.

Lemma report_all_spec removed now d n :
  room d (length removed + n) -> Forall (fun p => short_key p.1) removed ->
  exists i', report_all removed now d = Some (set_inventory i' d) /\ room (set_inventory i' d) n /\
    forall i, i' = Some i -> exists i0, inventory d = Some i0 /\
      forall k, listed i k = if decide (k ∈ removed.*1) then None else listed i0 k.
Proof.
  revert d. induction removed as [|[k b] removed IH]; intros d Hr Hs; simpl.
  { exists (inventory d). split_and!; [by destruct d|done|]. intros i Hi. exists i. by split. }
  apply Forall_cons in Hs as [Hk Hs]. destruct (report_spec k None now d (length removed + n)) as (i1 & -> & Hr1 & Hi1); [done..|].
  destruct (IH (set_inventory i1 d) Hr1 Hs) as (i' & -> & Hr' & Hi'). exists i'. split_and!; [done..|].
  intros i Hi. destruct (Hi' i Hi) as (i2 & Hi2 & Hl2). destruct (Hi1 i2 Hi2) as (i0 & Hi0 & Hl0). exists i0. split; [done|].
  intros k'. rewrite Hl2, Hl0. repeat case_decide; set_solver.
Qed.

Lemma remove_all_spec now d n :
  base heap d -> accounted d -> room d (length (cached d) + n) ->
  exists d', remove_all now d = Some (d', cached d) /\ base heap d' /\ accounted d' /\ room d' n /\ cached d' = [].
Proof.
  intros Hb Ha Hr. unfold remove_all, cache_remove_all. set (d1 := set_cache _ _).
  destruct (report_all_spec (cached d) now d1 n Hr) as (i' & -> & Hr' & Hi).
  { apply Forall_forall. intros p Hp. apply (b_short heap d Hb), list_elem_of_fmap. by exists p. }
  eexists. split; [done|]. assert (Hc : items (lru_new (V := Z)) = []) by apply items_new.
  assert (Hres : residents_of (set_retained_bytes 0 (set_inventory i' d1)) = []) by (unfold residents_of; cbn; by rewrite !items_new).
  split_and!; [|constructor; cbn|done|exact Hc].
  - constructor; cbn; rewrite ?Hc; try done.
    + constructor.
    + by rewrite Hres.
    + by intros k b Hin%elem_of_nil.
    + by intros k Hin%elem_of_nil.
    + intros i Hi' k. destruct (Hi i Hi') as (i0 & Hi0 & ->). cbn. case_decide as Hk; [done|].
      rewrite (b_listed heap d Hb i0 Hi0 k). by rewrite (proj2 (assoc_None k _) Hk).
  - unfold retained_sum. cbn. by rewrite items_new.
  - intros Hl. lia.
Qed.
End DramEvict.
