(* ===== verification/DramSpec.v ===== *)
(** * What the DRAM tier promises

    The store as a transition system over all its operations, with the invariant of every
    reachable state, and the specification of demand promotion, prefix lookup, pinning and
    pressure eviction. *)
From S2P Require Import Prelude Containers State Blocks Lru TinyLfu Residency Dram DramInv DramEvict.

Local Open Scope Z_scope.

Abbreviation Heap := (Z -> SealedBlock).

(** ** Operations *)

Inductive DramOp :=
| BatchInsert (now : Z) (blocks : list (StateKey * Z)) (class : ResidentClass)
| GetPrefix (keys : list StateKey) (warming : bool)
| RetainDemand (pairs : list (StateKey * Z))
| GetAligned (keys : list StateKey)
| Pin (records : list InventoryRecord)
| Evict (strong : StateKey -> Z) (now batch_size target_bytes : Z)
| RemoveAll (now : Z).

Section Spec.
Context {C : Type -> Type} `{LruLaws C} {I : Type} `{ResidencyLaws I}.
Implicit Types (d : DramStore C I) (heap : Heap).

Abbreviation cached d := (items (lru (cache d))).

Definition dram_step heap (op : DramOp) d : option (DramStore C I) :=
  match op with
  | BatchInsert now blocks class => batch_insert heap now blocks class d
  | GetPrefix keys warming => fst <$> get_prefix_blocks heap keys warming d
  | RetainDemand pairs => retain_demands heap pairs d
  | GetAligned keys => Some (get_blocks_aligned keys d).1
  | Pin records => Some (pin_residencies records d).1
  | Evict strong now batch target => fst <$> remove_lru_batch heap strong now batch target d
  | RemoveAll now => fst <$> remove_all now d
  end.

(** Residency changes an operation may report. *)
Definition op_cost (op : DramOp) d : nat :=
  match op with
  | BatchInsert _ blocks _ => length blocks
  | Evict _ _ _ _ | RemoveAll _ => length (cached d)
  | _ => 0
  end.

(** The log has room, and what is inserted fits the address space. *)
Definition op_ok heap (op : DramOp) d : Prop :=
  room d (op_cost op d) /\
  match op with
  | BatchInsert _ blocks _ =>
      Forall (fun p => short_key p.1 /\ 0 <= footprint (heap p.2)) blocks /\
      block_sum heap (cached d) + block_sum heap blocks <= u64_max
  | _ => True
  end.

(** Resident blocks are immutable up to their warm-up mark. *)
Definition heap_evolves heap heap' d : Prop :=
  forall k b, (k, b) ∈ cached d -> footprint (heap' b) = footprint (heap b) /\ block_metadata (heap' b) = block_metadata (heap b).

Inductive reachable : Heap -> DramStore C I -> Prop :=
| reach_new heap shape capacity enable hint inv limit :
    (forall i k, inv = Some i -> listed i k = None) ->
    reachable heap (with_inventory shape capacity enable hint inv limit)
| reach_step heap heap' op d d' :
    reachable heap d -> heap_evolves heap heap' d -> op_ok heap' op d -> dram_step heap' op d = Some d' ->
    reachable heap' d'.

Definition dram_inv heap d : Prop := base heap d /\ accounted d.

Lemma evolves_base heap heap' d : heap_evolves heap heap' d -> base heap d -> base heap' d.
Proof.
  intros He []. assert (Hfp : (fun p => (p.1, footprint (heap' p.2))) <$> cached d = (fun p => (p.1, footprint (heap p.2))) <$> cached d).
  { apply list_fmap_ext. intros i [k b] Hi. apply list_elem_of_lookup_2 in Hi. cbn. by rewrite (proj1 (He k b Hi)). }
  constructor; try done.
  - by rewrite Hfp.
  - intros k b Hin. rewrite (proj1 (He k b Hin)). by eapply b_nonneg.
  - pose proof (list_sum_fmap snd (fun p => (p.1, footprint (heap' p.2))) (cached d)) as Hs.
    rewrite Hfp, list_sum_fmap in Hs. cbn in Hs. by rewrite <- Hs.
  - intros i Hi k. rewrite (b_listed i Hi k). destruct (assoc k (cached d)) as [b|] eqn:E; [|done].
    simpl. by rewrite (proj2 (He k b (assoc_elem _ _ _ E))).
Qed.

Lemma pin_same heap records d :
  dram_inv heap d -> same_residents d (pin_residencies records d).1 /\ accounted (pin_residencies records d).1.
Proof.
  intros [Hb Ha]. unfold pin_residencies. destruct (inventory d) as [i|]; [|done]. destruct (_ || _); [done|].
  revert d Hb Ha. induction records as [|r records IH]; intros d Hb Ha; simpl; [done|].
  destruct (get_and_refresh_spec heap (key r) d Hb Ha) as (_ & Hs & Ha1).
  destruct (get_and_refresh (key r) d) as [[b|] d1]; cbn [fst snd] in *; [|done].
  destruct (IH d1) as [Hs' Ha']; [by eapply same_base|done|].
  destruct (pin_loop records d1) as [d2 [found|]]; cbn [fst] in *; (split; [eapply same_residents_trans; eassumption|done]).
Qed.

Lemma step_keeps heap op d :
  dram_inv heap d -> op_ok heap op d -> exists d', dram_step heap op d = Some d' /\ dram_inv heap d'.
Proof.
  intros [Hb Ha] [Hr Hop]. unfold dram_inv. destruct op; simpl in *.
  - destruct Hop as [Hok Hfit]. rewrite <- (Nat.add_0_r (length blocks)) in Hr.
    destruct (batch_insert_spec heap now blocks class d 0) as (d' & -> & ? & ? & _); eauto.
  - destruct (prefix_spec heap keys warming d Hb Ha) as (d' & blocks & -> & Hs & ? & _). simpl.
    eexists. split_and!; [done|by eapply same_base|done].
  - destruct (retain_demands_spec heap pairs d Hb Ha) as (d' & -> & Hs & ?).
    eexists. split_and!; [done|by eapply same_base|done].
  - destruct (aligned_lookup_spec heap keys d Hb Ha) as (_ & Hs & ?). eexists. split_and!; [done|by eapply same_base|done].
  - destruct (pin_same heap records d (conj Hb Ha)) as (Hs & ?). eexists. split_and!; [done|by eapply same_base|done].
  - rewrite <- (Nat.add_0_r (length _)) in Hr.
    destruct (remove_lru_batch_stages heap strong now batch_size target_bytes d 0) as (d' & ? & ? & ? & -> & ? & ? & _); [done..|].
    simpl. eauto.
  - rewrite <- (Nat.add_0_r (length _)) in Hr.
    destruct (remove_all_spec heap now d 0) as (d' & -> & ? & ? & _); [done..|]. simpl. eauto.
Qed.

Lemma dram_reachable_inv heap d : reachable heap d -> dram_inv heap d.
Proof.
  induction 1 as [heap shape capacity enable hint inv limit Hinv|heap heap' op d d' _ [Hb Ha] He Hop Hd].
  - assert (Hres : residents_of (with_inventory (C := C) shape capacity enable hint inv limit) = []).
    { unfold residents_of. cbn. by rewrite !items_new. }
    split; constructor; cbn; rewrite ?items_new; try done.
    + constructor.
    + by rewrite Hres.
    + by intros k b Hin%elem_of_nil.
    + by intros k Hin%elem_of_nil.
    + intros i Hi k. by apply Hinv.
    + unfold retained_sum. cbn. by rewrite items_new.
    + lia.
  - destruct (step_keeps heap' op d) as (d2 & Hd2 & Hinv); [split; [by eapply evolves_base|done]|done|]. congruence.
Qed.

Lemma pin_guard (f : InventoryRecord -> bool) records :
  (zlen records =? 0) || negb (forallb f records) = negb (bool_decide (records <> [] /\ Forall (fun r => f r = true) records)).
Proof.
  case_bool_decide as Hd.
  - destruct Hd as [Hne Hall]. replace (forallb f records) with true.
    + destruct records; [done|]. rewrite zlen_cons. pose proof (zlen_nonneg records).
      replace (1 + zlen records =? 0) with false by (symmetry; apply Z.eqb_neq; lia). done.
    + symmetry. apply forallb_forall. intros r Hr%list_elem_of_In. by apply (proj1 (Forall_forall _ _) Hall).
  - destruct records as [|r records]; [done|]. apply orb_true_iff. right. apply negb_true_iff, not_true_is_false. intros Hf.
    apply Hd. split; [done|]. apply Forall_forall. intros x Hx. by apply (proj1 (forallb_forall _ _) Hf), list_elem_of_In.
Qed.

(** ** Claims *)

(** C27. In every reachable state of the DRAM tier the replacement classes partition the resident
    blocks, the protected byte count is exactly the size of the retained class and within its
    limit, and the residency log lists exactly the resident blocks with their metadata; and from
    there no operation panics. *)
Theorem dram_reachable_sound heap d :
  reachable heap d ->
  (forall k, k ∈ (cached d).*1 <-> exists c, k ∈ (items (class_lru d c)).*1) /\
  (forall k c c', k ∈ (items (class_lru d c)).*1 -> k ∈ (items (class_lru d c')).*1 -> c = c') /\
  retained_bytes d = list_sum (fun p => res_bytes p.2) (items (retained d)) /\
  (0 < protected_limit d -> retained_bytes d <= protected_limit d) /\
  (forall i k, inventory d = Some i -> listed i k = (fun b => block_metadata (heap b)) <$> assoc k (cached d)) /\
  forall heap' op, heap_evolves heap heap' d -> op_ok heap' op d -> is_Some (dram_step heap' op d).
Proof.
  intros [Hb Ha]%dram_reachable_inv. split_and!.
  - intros k. rewrite <- (base_keys heap d Hb). unfold residents_of. rewrite !fmap_app, !elem_of_app. split.
    + intros [Hk|[Hk|Hk]]; [by exists Reclaimable|by exists Probationary|by exists Retained].
    + intros [[] Hk]; auto.
  - intros k c c' Hk Hk'. destruct (decide (c = c')) as [|Hne]; [done|]. by destruct (others_disjoint heap c c' k d Hb Hne Hk).
  - apply (a_bytes d Ha).
  - apply (a_limit d Ha).
  - intros i k Hi. by apply (b_listed heap d Hb).
  - intros heap' op He Hop. destruct (step_keeps heap' op d) as (d' & -> & _); [|done|done].
    split; [by eapply evolves_base|done].
Qed.

(** A demand for a resident block always succeeds and moves no other block than it must: a
    probationary block, or a warmed reclaimable one, becomes the most recent retained block unless
    it is larger than the protected limit; to make room exactly the oldest retained blocks are
    demoted, and none of them without need. *)
Theorem demand_promotes heap k b d :
  reachable heap d -> assoc k (cached d) = Some b ->
  exists d', retain_demand heap k b d = Some d' /\ Permutation (cached d) (cached d') /\ accounted d' /\
    demand_outcome heap k b d d'.
Proof.
  intros [Hb Ha]%dram_reachable_inv Hk. destruct (retain_demand_spec heap k b d Hb Ha Hk) as (d' & ? & Hs & ? & ?).
  exists d'. split_and!; [done|apply (s_cache _ _ Hs)|done|done].
Qed.

(** A prefix lookup returns exactly the blocks of the longest resident prefix of the requested
    keys, keeps all blocks, and changes nothing at all when it is a warm-up probe. *)
Theorem prefix_lookup_exact heap keys warming d :
  reachable heap d ->
  exists d' blocks, get_prefix_blocks heap keys warming d = Some (d', blocks) /\ prefix_of keys d blocks /\
    Permutation (cached d) (cached d') /\ (warming = true -> d' = d).
Proof.
  intros [Hb Ha]%dram_reachable_inv. destruct (prefix_spec heap keys warming d Hb Ha) as (d' & blocks & ? & Hs & _ & ? & ?).
  exists d', blocks. split_and!; [done|done|apply (s_cache _ _ Hs)|done].
Qed.

(** Pinning for a transfer answers exactly: a non-empty request whose records are all current
    gets the resident block of every record, in order, and any other request gets nothing; a
    request never fails halfway. *)
Theorem pin_exact heap records d i n :
  reachable heap d -> inventory d = Some i -> accepts i n ->
  if decide (records <> [] /\ Forall (fun r => log_current i r = true) records)
  then exists found, (pin_residencies records d).2 = Some found /\
    Forall2 (fun r p => p.1 = key r /\ assoc (key r) (cached d) = Some p.2) records found
  else (pin_residencies records d).2 = None.
Proof.
  intros [Hb Ha]%dram_reachable_inv Hi Hacc. unfold pin_residencies. rewrite Hi.
  rewrite pin_guard. case_decide as Hd.
  - rewrite bool_decide_true by done. simpl. destruct Hd as [_ Hall].
    destruct (pin_loop_spec heap records d Hb Ha) as (d' & found & -> & _ & _ & Hf); [|by exists found].
    eapply Forall_impl; [exact Hall|]. intros r Hr. cbn beta in Hr. apply (current_law i n) in Hr; [|done].
    rewrite (b_listed heap d Hb i Hi) in Hr. by apply fmap_is_Some in Hr.
  - by rewrite bool_decide_false.
Qed.

Definition class_rank (c : ResidentClass) : Z :=
  match c with Reclaimable => 0 | Probationary => 1 | Retained => 2 end.

Section Eviction.
Context (heap : Heap) (strong : StateKey -> Z) (batch target : Z) (d d' : DramStore C I) (ev1 ev2 ev3 : list (StateKey * Z)).
Hypothesis (Hb : base heap d) (Hst : stages heap strong batch target d d' ev1 ev2 ev3).

Lemma later_stage_exhausts1 : ev2 <> [] \/ ev3 <> [] -> exhausts strong Reclaimable ev1 d.
Proof using Hst.
  destruct Hst as [_ _ _ _ _ _ (_ & Hm2 & Hm3) [Hs1|Hs1] _ _]; [|done]. intros Hne. exfalso.
  assert (ev2 = []) as -> by (by eapply minimal_done). rewrite app_nil_r in Hm3.
  assert (ev3 = []) as -> by (by eapply minimal_done). by destruct Hne.
Qed.

Lemma later_stage_exhausts2 : ev3 <> [] -> exhausts strong Probationary ev2 d.
Proof using Hst.
  destruct Hst as [_ _ _ _ _ _ (_ & _ & Hm3) _ [Hs2|Hs2] _]; [|done]. intros Hne. exfalso. apply Hne. by eapply minimal_done.
Qed.

(** Where an evicted block was. *)
Lemma stage_of k c : k ∈ (items (class_lru d c)).*1 -> k ∈ (ev1 ++ ev2 ++ ev3).*1 ->
  match c with Reclaimable => k ∈ ev1.*1 | Probationary => k ∈ ev2.*1 | Retained => k ∈ ev3.*1 end.
Proof using Hb Hst.
  destruct Hst as [_ _ Hc1 Hc2 Hc3 _ _ _ _ _]. intros Hk Hev. rewrite !fmap_app, !elem_of_app in Hev.
  assert (Hdis : forall c', k ∈ (items (class_lru d c')).*1 -> c = c').
  { intros c' Hk'. destruct (decide (c = c')) as [|Hne]; [done|]. by destruct (others_disjoint heap c c' k d Hb Hne Hk). }
  destruct Hev as [He|[He|He]]; [pose proof (Hdis Reclaimable (Hc1 k He)) as ->|pose proof (Hdis Probationary (Hc2 k He)) as ->
    |pose proof (Hdis Retained (Hc3 k He)) as ->]; done.
Qed.

Lemma elem_of_not_nil {A} (x : A) (l : list (A * Z)) : x ∈ l.*1 -> l <> [].
Proof. intros Hx ->. by apply elem_of_nil in Hx. Qed.

Lemma stage_priority c c' k k' :
  class_rank c < class_rank c' -> k ∈ (items (class_lru d c)).*1 -> strong k = 1 -> k' ∈ (items (class_lru d c')).*1 ->
  k' ∈ (ev1 ++ ev2 ++ ev3).*1 -> k ∈ (ev1 ++ ev2 ++ ev3).*1.
Proof using Hb Hst.
  intros Hrank Hk Hs Hk' Hev. apply (stage_of k' c' Hk') in Hev. rewrite !fmap_app, !elem_of_app.
  destruct c, c'; simpl in Hrank; try lia; apply elem_of_not_nil in Hev.
  - left. apply later_stage_exhausts1; auto.
  - left. apply later_stage_exhausts1; auto.
  - right. left. apply later_stage_exhausts2; auto.
Qed.

Lemma stage_stop :
  batch_done batch target (ev1 ++ ev2 ++ ev3) (bytes_after heap 0 (ev1 ++ ev2 ++ ev3)) = true \/
  forall k, k ∈ (cached d).*1 -> strong k = 1 -> k ∈ (ev1 ++ ev2 ++ ev3).*1.
Proof using Hb Hst.
  destruct Hst as [_ _ _ _ _ _ (_ & Hm2 & Hm3) Hs1 Hs2 Hs3]. destruct Hs3 as [|Hs3]; [by left|].
  destruct Hs2 as [Hs2|Hs2]. { left. assert (ev3 = []) as -> by (by eapply minimal_done). by rewrite app_nil_r. }
  destruct Hs1 as [Hs1|Hs1].
  { left. assert (ev2 = []) as -> by (by eapply minimal_done). rewrite app_nil_r in Hm3.
    assert (ev3 = []) as -> by (by eapply minimal_done). by rewrite app_nil_r. }
  right. intros k Hk Hs. rewrite <- (base_keys heap d Hb) in Hk. unfold residents_of in Hk.
  rewrite !fmap_app, !elem_of_app in *. destruct Hk as [Hk|[Hk|Hk]]; auto.
Qed.

Lemma stage_nodup : NoDup (ev1 ++ ev2 ++ ev3).*1.
Proof using Hb Hst.
  pose proof Hst as [_ _ Hc1 Hc2 Hc3 (Hn1 & Hn2 & Hn3) _ _ _ _]. pose proof (base_residents_nodup heap d Hb) as Hn.
  unfold residents_of in Hn. rewrite !fmap_app in *. apply NoDup_app in Hn as (_ & Hd1 & Hn). apply NoDup_app in Hn as (_ & Hd2 & _).
  apply NoDup_app. split_and!; [done| |apply NoDup_app; split_and!; [done| |done]].
  - intros k Hk1. rewrite elem_of_app. specialize (Hd1 k (Hc1 k Hk1)). rewrite elem_of_app in Hd1. intros [Hk|Hk]; apply Hd1; auto.
  - intros k Hk2 Hk3. exact (Hd2 k (Hc2 k Hk2) (Hc3 k Hk3)).
Qed.
End Eviction.

(** C28. Pressure eviction never panics and removes the right blocks: only resident blocks that
    nobody else holds, each once, no more than the batch size, none after enough bytes were
    freed; a block of a more protected class only when every evictable block of the less protected
    ones is gone; and it stops short of the request only when nothing evictable is left.  All
    other blocks stay. *)
Theorem pressure_eviction_exact heap strong now batch target d :
  reachable heap d -> 0 <= batch -> room d (length (cached d)) ->
  exists d' removed, remove_lru_batch heap strong now batch target d = Some (d', removed) /\
    dram_inv heap d' /\ cached d' = without removed (cached d) /\
    NoDup removed.*1 /\ zlen removed <= batch /\
    (forall k b, (k, b) ∈ removed -> assoc k (cached d) = Some b /\ strong k = 1) /\
    (forall p q, removed = p ++ q -> q <> [] -> zlen p <> batch /\ bytes_after heap 0 p < target) /\
    (zlen removed = batch \/ target <= bytes_after heap 0 removed \/
     forall k, k ∈ (cached d).*1 -> strong k = 1 -> k ∈ removed.*1) /\
    forall c c' k k', class_rank c < class_rank c' -> k ∈ (items (class_lru d c)).*1 -> strong k = 1 ->
      k' ∈ (items (class_lru d c')).*1 -> k' ∈ removed.*1 -> k ∈ removed.*1.
Proof.
  intros [Hb Ha]%dram_reachable_inv Hbatch Hr. rewrite <- (Nat.add_0_r (length _)) in Hr.
  destruct (remove_lru_batch_stages heap strong now batch target d 0 Hb Ha Hr) as (d' & ev1 & ev2 & ev3 & -> & Hb' & Ha' & _ & Hst).
  assert (Hmin : minimal heap batch target [] 0 (ev1 ++ ev2 ++ ev3)).
  { destruct Hst as [_ _ _ _ _ _ (Hm1 & Hm2 & Hm3) _ _ _]. apply minimal_app; [done|]. apply minimal_app; [done|].
    by rewrite <- bytes_after_app. }
  exists d', (ev1 ++ ev2 ++ ev3). split_and!; try done.
  - apply (st_cache _ _ _ _ _ _ _ _ _ Hst).
  - exact (stage_nodup heap strong batch target d d' ev1 ev2 ev3 Hb Hst).
  - by eapply minimal_size.
  - apply (st_in _ _ _ _ _ _ _ _ _ Hst).
  - intros p q Hpq Hq. specialize (Hmin p q Hpq Hq). unfold batch_done in Hmin. simpl in Hmin.
    apply orb_false_iff in Hmin as [?%Z.eqb_neq ?%Z.leb_gt]. done.
  - destruct (stage_stop heap strong batch target d d' ev1 ev2 ev3 Hb Hst) as [Hd|Hd]; [|by auto].
    unfold batch_done in Hd. apply orb_true_iff in Hd as [?%Z.eqb_eq|?%Z.leb_le]; auto.
  - intros c c' k k'. exact (stage_priority heap strong batch target d d' ev1 ev2 ev3 Hb Hst c c' k k').
Qed.
End Spec.

(** ** Witnesses

    A store with the list caches and the inventory, a limit of 25 bytes, and two blocks. *)

Definition sample_log : ResidencyLog Inventory.Inventory := inventory_log 88.
Definition sample_laws : @ResidencyLaws _ sample_log := inventory_laws 88 ltac:(lia).
#[local] Existing Instance sample_log.
#[local] Existing Instance sample_laws.

Definition sample_heap : Heap := fun b => mkSealed [] (10 * b) [] false.
Definition sample_keys : list StateKey := [mkStateKey (str "n") (str "a"); mkStateKey (str "n") (str "b")].
Definition sample_shape : Z -> list (StateKey -> Z) * Z := fun n => ([sample_hasher 1; sample_hasher 7], 16).
Definition sample0 : DramStore assoc_list Inventory.Inventory :=
  with_inventory sample_shape 1000 true None (Some Inventory.empty_inventory) 25.
Definition sample_op : DramOp := BatchInsert 5 (zip sample_keys [1; 2]) Retained.
Definition sample1 : DramStore assoc_list Inventory.Inventory := default sample0 (dram_step sample_heap sample_op sample0).

Lemma sample0_room n : (n <= 100)%nat -> room sample0 n.
Proof.
  intros Hn. exists []. split_and!; [|unfold zlen, u64_max; simpl; lia|by vm_compute].
  by apply (Inventory.initial_tracks 88 1024 0).
Qed.

Lemma sample0_reachable : reachable sample_heap sample0.
Proof. constructor. by intros i k [= <-]. Qed.

Lemma sample_op_ok : op_ok sample_heap sample_op sample0.
Proof.
  split; [apply sample0_room; simpl; lia|]. split; [|by vm_compute]. repeat constructor; by vm_compute.
Qed.

Lemma sample1_reachable : reachable sample_heap sample1.
Proof.
  apply (reach_step sample_heap sample_heap sample_op sample0); [apply sample0_reachable|by intros ? ? _|apply sample_op_ok|].
  destruct (step_keeps sample_heap sample_op sample0) as (d & Hd & _);
    [apply dram_reachable_inv, sample0_reachable|apply sample_op_ok|]. unfold sample1. by rewrite Hd.
Qed.

Lemma sample1_room : room sample1 10.
Proof.
  destruct (dram_reachable_inv _ _ sample0_reachable) as [Hb Ha]. destruct sample_op_ok as [_ [Hok Hfit]].
  destruct (batch_insert_spec sample_heap 5 (zip sample_keys [1; 2]) Retained sample0 10 Hb Ha) as (d' & Hd & _ & _ & Hr);
    [apply sample0_room; simpl; lia|done|done|]. unfold sample1.
  change (dram_step sample_heap sample_op sample0) with (batch_insert sample_heap 5 (zip sample_keys [1; 2]) Retained sample0).
  by rewrite Hd.
Qed.

Lemma dram_reachable_sound_witness :
  retained_bytes sample1 = 0 /\ is_Some (dram_step sample_heap (GetPrefix sample_keys false) sample1) /\
  is_Some (dram_step sample_heap (RemoveAll 9) sample1).
Proof.
  destruct (dram_reachable_sound sample_heap sample1 sample1_reachable) as (_ & _ & Hb & _ & _ & Hs). split_and!.
  - rewrite Hb. by vm_compute.
  - apply Hs; [by intros ? ? _|]. split; [|exact Logic.I]. eapply room_le; [apply sample1_room|simpl; lia].
  - apply Hs; [by intros ? ? _|]. split; [|exact Logic.I]. eapply room_le; [apply sample1_room|by vm_compute; lia].
Defined.

Lemma demand_promotes_witness :
  exists d', retain_demand sample_heap (mkStateKey (str "n") (str "b")) 2 sample1 = Some d' /\ accounted d'.
Proof.
  destruct (demand_promotes sample_heap (mkStateKey (str "n") (str "b")) 2 sample1 sample1_reachable) as (d' & Hd & _ & Ha & _).
  - vm_cast_no_check (eq_refl (Some 2)).
  - exact (ex_intro _ d' (conj Hd Ha)).
Defined.

Lemma prefix_lookup_exact_witness :
  exists d', get_prefix_blocks sample_heap (sample_keys ++ [mkStateKey (str "n") (str "c")]) false sample1 = Some (d', [1; 2]) /\
    prefix_of (sample_keys ++ [mkStateKey (str "n") (str "c")]) sample1 [1; 2].
Proof.
  destruct (prefix_lookup_exact sample_heap (sample_keys ++ [mkStateKey (str "n") (str "c")]) false sample1 sample1_reachable)
    as (d' & blocks & Hg & Hp & _).
  assert (Hc : snd <$> get_prefix_blocks sample_heap (sample_keys ++ [mkStateKey (str "n") (str "c")]) false sample1 = Some [1; 2])
    by vm_cast_no_check (eq_refl (Some [1; 2])).
  rewrite Hg in Hc. injection Hc as ->. exact (ex_intro _ d' (conj Hg Hp)).
Defined.

Definition sample_request : list InventoryRecord := [mkRecord (mkStateKey (str "n") (str "b")) 2 true None].

Lemma pin_exact_witness : exists found, (pin_residencies sample_request sample1).2 = Some found.
Proof.
  assert (His : (fun _ => true) <$> inventory sample1 = Some true) by vm_cast_no_check (eq_refl (Some true)).
  destruct (inventory sample1) as [i|] eqn:Hi; [clear His|discriminate His].
  pose proof sample1_room as Hr. unfold room in Hr. rewrite Hi in Hr.
  pose proof (pin_exact sample_heap sample_request sample1 i 10 sample1_reachable Hi Hr) as Hp.
  assert (Hcur : (fun i => log_current i (mkRecord (mkStateKey (str "n") (str "b")) 2 true None)) <$> inventory sample1 = Some true)
    by vm_cast_no_check (eq_refl (Some true)).
  rewrite Hi in Hcur. injection Hcur as Hcur.
  rewrite decide_True in Hp; [|by split; [|repeat constructor]]. destruct Hp as (found & Hf & _). exact (ex_intro _ found Hf).
Defined.

Lemma pressure_eviction_exact_witness :
  exists d' removed, remove_lru_batch sample_heap (fun k => if bool_decide (hash k = str "a") then 2 else 1) 9 4 15 sample1 =
    Some (d', removed) /\ zlen removed <= 4 /\ dram_inv sample_heap d'.
Proof.
  destruct (pressure_eviction_exact sample_heap (fun k => if bool_decide (hash k = str "a") then 2 else 1) 9 4 15 sample1
    sample1_reachable) as (d' & removed & Hd & Hinv & _ & _ & Hs & _); [lia|eapply room_le; [apply sample1_room|by vm_compute; lia]|].
  exact (ex_intro _ d' (ex_intro _ removed (conj Hd (conj Hs Hinv)))).
Defined.
