(* ===== verification/Wire.v ===== *)
(** * The cache protocol's wire primitives

    [orbitkv-channel/src/cache_protocol.rs]: the decoder over a payload, the push helpers, and the
    relation between an encoder and a decoder that the messages are composed from.  The decoder's
    slice and offset are the bytes that remain. *)
From S2P Require Import Prelude Containers State Recovery Words.

Local Open Scope Z_scope.
Local Open Scope rust_scope.
Local Open Scope string_scope.

Inductive CacheProtocolError :=
| InvalidRegistrationGeneration
| InvalidShardPayload
| InvalidRecoveryDemand
| Recovery (e : RecoveryError)
| InvalidCandidates
| InvalidQueryTicket
| Truncated
| TrailingBytes (n : Z)
| InvalidMagic (magic : Z)
| UnsupportedVersion (version : Z)
| InvalidFlags (flags : Z)
| UnknownOutcome (value : Z)
| EmptyRequestId
| EmptyLease
| FieldTooLarge (field : string) (len : Z)
| InvalidUtf8 (field : string)
| InvalidLoadingPayload
| PublishShapeMismatch (layer : bytes) (block_ids block_hashes : Z)
| UnknownCompletionIntent (value : Z)
| UnknownCompletionRoute (value : Z)
| UnknownCompletionRepresentation (value : Z)
| UnknownCompletionAdmission (value : Z)
| UnknownCompletionOutcome (value : Z)
| EmptyCompletionField (field : string)
| CompletionFieldTooLong (field : string) (len max : Z)
| ZeroCompletionField (field : string)
| InvalidCompletionDevice (device : Z)
| InvalidCompletionTarget
| InvalidCompletionState
| InvalidCompletionReserved (value : Z)
| CompletionQueueTooDeep (depth : Z)
| CompletionQueueTooWide (width : Z)
| InvalidCompletionResources.

Abbreviation wire A := (result A CacheProtocolError).
Abbreviation Decoder A := (bytes -> wire (A * bytes)).

Definition CACHE_PROTOCOL_VERSION : Z := 10.
Definition isize_max : Z := 9223372036854775807.

(** ** [String::from_utf8]

    The validity check of the standard library: no overlong forms, no surrogates, nothing above
    U+10FFFF. *)
Definition in_range (lo hi : Z) (b : byte) : bool := (lo <=? byte_val b) && (byte_val b <=? hi).
Definition is_continuation : byte -> bool := in_range 128 191.

(** The bytes allowed after the first byte of a three- or four-byte sequence. *)
Definition second3 (first : byte) : byte -> bool :=
  if byte_val first =? 224 then in_range 160 191
  else if byte_val first =? 237 then in_range 128 159 else is_continuation.
Definition second4 (first : byte) : byte -> bool :=
  if byte_val first =? 240 then in_range 144 191
  else if byte_val first =? 244 then in_range 128 143 else is_continuation.

Fixpoint utf8_valid (s : bytes) : bool :=
  match s with
  | [] => true
  | b :: s =>
      if byte_val b <? 128 then utf8_valid s
      else if in_range 194 223 b then
        match s with b1 :: s => is_continuation b1 && utf8_valid s | [] => false end
      else if in_range 224 239 b then
        match s with b1 :: b2 :: s => second3 b b1 && is_continuation b2 && utf8_valid s | _ => false end
      else if in_range 240 244 b then
        match s with
        | b1 :: b2 :: b3 :: s => second4 b b1 && is_continuation b2 && is_continuation b3 && utf8_valid s
        | _ => false
        end
      else false
  end.

(** ** The decoder *)

Definition decode_bytes (len : Z) : Decoder bytes := fun s =>
  if len <=? zlen s then Ok (take (Z.to_nat len) s, drop (Z.to_nat len) s) else Err Truncated.

Definition decode_u16 : Decoder Z := fun s => let? (b, s) := decode_bytes 2 s in Ok (of_le b, s).
Definition decode_u32 : Decoder Z := fun s => let? (b, s) := decode_bytes 4 s in Ok (of_le b, s).
Definition decode_u64 : Decoder Z := fun s => let? (b, s) := decode_bytes 8 s in Ok (of_le b, s).
(** Two's complement. *)
Definition decode_i32 : Decoder Z := fun s =>
  let? (b, s) := decode_bytes 4 s in
  Ok (if of_le b <? 2147483648 then of_le b else of_le b - u32_modulus, s).

Definition decode_string (len : Z) (field : string) : Decoder bytes := fun s =>
  let? (b, s) := decode_bytes len s in
  if utf8_valid b then Ok (b, s) else Err (InvalidUtf8 field).

Definition expect_magic (expected : Z) : Decoder unit := fun s =>
  let? (actual, s) := decode_u32 s in
  if actual =? expected then Ok (tt, s) else Err (InvalidMagic actual).
Definition expect_version : Decoder unit := fun s =>
  let? (version, s) := decode_u16 s in
  if version =? CACHE_PROTOCOL_VERSION then Ok (tt, s) else Err (UnsupportedVersion version).

Definition finish (s : bytes) : wire unit :=
  if zlen s =? 0 then Ok tt else Err (TrailingBytes (zlen s)).

(** [for _ in 0..n]. *)
Fixpoint decode_repeat {A} (n : nat) (d : Decoder A) : Decoder (list A) := fun s =>
  match n with
  | O => Ok ([], s)
  | S n =>
      let? (a, s) := d s in
      let? (l, s) := decode_repeat n d s in
      Ok (a :: l, s)
  end.

(** A count is checked against what remains before the vector is reserved. *)
Definition decode_counted {A} (count width : Z) (d : Decoder A) : Decoder (list A) := fun s =>
  if zlen s / width <? count then Err Truncated else decode_repeat (Z.to_nat count) d s.

(** ** The encoder *)

Definition i32_le (z : Z) : bytes := u32_le (wrap32 z).
Definition is_i32 (z : Z) : Prop := -2147483648 <= z <= 2147483647.
Definition is_u16 (z : Z) : Prop := 0 <= z <= 65535.

Definition checked_u32 (value : Z) (field : string) : wire Z :=
  if value <=? u32_max then Ok value else Err (FieldTooLarge field value).

Definition add_encoded_size (size count width : Z) : wire Z :=
  match checked_mul count width with
  | Some bytes =>
      match checked_add size bytes with
      | Some n => if n <=? isize_max then Ok n else Err (FieldTooLarge "payload" u64_max)
      | None => Err (FieldTooLarge "payload" u64_max)
      end
  | None => Err (FieldTooLarge "payload" u64_max)
  end.

(** The sizing passes are sequences of checks and additions. *)
Inductive SizeOp := Check (value : Z) (field : string) | Add (count width : Z).

Fixpoint run_sizes (ops : list SizeOp) (size : Z) : wire Z :=
  match ops with
  | [] => Ok size
  | Check v field :: ops => let? _ := checked_u32 v field in run_sizes ops size
  | Add count width :: ops => let? size := add_encoded_size size count width in run_sizes ops size
  end.

Definition push_bytes (value : bytes) (field : string) : wire bytes :=
  let? n := checked_u32 (zlen value) field in Ok (u32_le n ++ value).

(** A loop that appends the encoding of every element. *)
Fixpoint encode_all {A} (e : A -> wire bytes) (l : list A) : wire bytes :=
  match l with
  | [] => Ok []
  | a :: l => let? b := e a in let? bs := encode_all e l in Ok (b ++ bs)
  end.

(** ** Formats

    An encoder and a decoder that are inverse to each other on the values that satisfy [P], within
    a longer payload. *)
Class Format {A} (P : A -> Prop) (e : A -> wire bytes) (d : Decoder A) : Prop := {
  format_decode a b s : P a -> e a = Ok b -> d (b ++ s) = Ok (a, s);
  format_encode s a s' : d s = Ok (a, s') -> P a /\ exists b, e a = Ok b /\ s = b ++ s'
}.

Lemma decode_bytes_app b s n : n = zlen b -> decode_bytes n (b ++ s) = Ok (b, s).
Proof.
  intros ->. unfold decode_bytes. rewrite (proj2 (Z.leb_le _ _)) by (rewrite zlen_app; pose proof (zlen_nonneg s); lia).
  unfold zlen. rewrite Nat2Z.id. by rewrite take_app_length, drop_app_length.
Qed.

Lemma decode_bytes_inv n s b s' :
  0 <= n -> decode_bytes n s = Ok (b, s') -> zlen b = n /\ s = b ++ s'.
Proof.
  intros Hn. unfold decode_bytes. destruct (Z.leb_spec n (zlen s)) as [Hl|]; [|done]. intros [= <- <-].
  rewrite take_drop. unfold zlen in *. rewrite length_take. split; [lia|done].
Qed.

(** The integer formats follow one scheme. *)
Lemma word_format n (d : Decoder Z) :
  (forall s, d s = let? (b, s) := decode_bytes (Z.of_nat n) s in Ok (of_le b, s)) ->
  Format (fun z => 0 <= z < 256 ^ Z.of_nat n) (fun z => Ok (to_le n z)) d.
Proof.
  intros Hd. constructor.
  - intros z b s Hz [= <-]. rewrite Hd, decode_bytes_app by (unfold zlen; by rewrite length_to_le). by rewrite of_le_to_le.
  - intros s z s'. rewrite Hd. destruct (decode_bytes _ s) as [[b t]|] eqn:E; [|done]. intros [= <- <-].
    apply decode_bytes_inv in E as [Hl ->]; [|lia]. split.
    + pose proof (of_le_range b). by rewrite Hl in *.
    + exists b. split; [|done]. f_equal. unfold zlen in Hl. apply Nat2Z.inj in Hl as <-. apply to_le_of_le.
Qed.

Lemma format_weaken {A} (P Q : A -> Prop) e d : (forall a, P a <-> Q a) -> Format P e d -> Format Q e d.
Proof.
  intros Hpq [H1 H2]. constructor.
  - intros a b s Ha. apply H1. by apply Hpq.
  - intros s a s' Hd. destruct (H2 s a s' Hd) as [Ha Hb]. by rewrite <- Hpq.
Qed.

#[export] Instance u16_format : Format is_u16 (fun z => Ok (u16_le z)) decode_u16.
Proof.
  apply (format_weaken (fun z => 0 <= z < 256 ^ Z.of_nat 2)); [|by apply (word_format 2)].
  intros z. unfold is_u16. change (256 ^ Z.of_nat 2) with 65536. lia.
Qed.
#[export] Instance u32_format : Format is_u32 (fun z => Ok (u32_le z)) decode_u32.
Proof.
  apply (format_weaken (fun z => 0 <= z < 256 ^ Z.of_nat 4)); [|by apply (word_format 4)].
  intros z. symmetry. apply u32_width.
Qed.
#[export] Instance u64_format : Format is_u64 (fun z => Ok (u64_le z)) decode_u64.
Proof.
  apply (format_weaken (fun z => 0 <= z < 256 ^ Z.of_nat 8)); [|by apply (word_format 8)].
  intros z. symmetry. apply u64_width.
Qed.

#[export] Instance i32_format : Format is_i32 (fun z => Ok (i32_le z)) decode_i32.
Proof.
  assert (Hw : forall z, is_i32 z -> is_u32 (wrap32 z) /\
    (if wrap32 z <? 2147483648 then wrap32 z else wrap32 z - u32_modulus) = z).
  { unfold is_i32, is_u32, wrap32, u32_modulus, u32_max. intros z Hz.
    destruct (Z.le_gt_cases 0 z) as [Hp|Hp].
    - rewrite Z.mod_small by lia. destruct (Z.ltb_spec z 2147483648); lia.
    - assert (z mod 4294967296 = z + 4294967296) as ->
        by (symmetry; apply (Z.mod_unique z 4294967296 (-1) (z + 4294967296)); lia).
      destruct (Z.ltb_spec (z + 4294967296) 2147483648); lia. }
  assert (Hd : forall s, decode_i32 s = let? (v, s) := decode_u32 s in Ok (if v <? 2147483648 then v else v - u32_modulus, s)).
  { intros s. unfold decode_i32, decode_u32. by destruct (decode_bytes 4 s) as [[b t]|]. }
  constructor.
  - intros z b s Hz [= <-]. destruct (Hw z Hz) as [Hu He]. unfold i32_le.
    rewrite Hd, (format_decode (wrap32 z) (u32_le (wrap32 z)) s Hu eq_refl). by rewrite He.
  - intros s z s'. rewrite Hd. destruct (decode_u32 s) as [[v t]|] eqn:E; [|done]. intros [= <- <-].
    apply format_encode in E as [Hv (b & [= <-] & ->)]. unfold is_u32, is_i32, u32_max, u32_modulus, i32_le, wrap32 in *; change u32_modulus with 4294967296 in *. split.
    + destruct (Z.ltb_spec v 2147483648); lia.
    + eexists. split; [done|]. f_equal. f_equal. destruct (Z.ltb_spec v 2147483648); [by rewrite Z.mod_small by lia|].
      apply (Z.mod_unique (v - 4294967296) 4294967296 (-1) v); lia.
Qed.

Lemma bytes_format n : 0 <= n -> Format (fun b => zlen b = n) (fun b => Ok b) (decode_bytes n).
Proof.
  intros Hn. constructor.
  - intros a b s Ha [= <-]. by apply decode_bytes_app.
  - intros s a s' Hd. apply decode_bytes_inv in Hd as [Hl ->]; [|done]. split; [done|]. by exists a.
Qed.

Lemma string_format n field :
  0 <= n -> Format (fun b => zlen b = n /\ utf8_valid b = true) (fun b => Ok b) (decode_string n field).
Proof.
  intros Hn. constructor.
  - intros a b s [Ha Hu] [= <-]. unfold decode_string. by rewrite decode_bytes_app, Hu.
  - intros s a s'. unfold decode_string. destruct (decode_bytes n s) as [[b t]|] eqn:E; [|done].
    destruct (utf8_valid b) eqn:Hu; [|done]. intros [= <- <-]. apply decode_bytes_inv in E as [Hl ->]; [|done].
    split; [done|]. by exists b.
Qed.

(** ** Composition *)

Section Lists.
Context {A : Type} (P : A -> Prop) (e : A -> wire bytes) (d : Decoder A) `{!Format P e d}.

#[export] Instance repeat_format n : Format (fun l => length l = n /\ Forall P l) (encode_all e) (decode_repeat n d).
Proof.
  constructor.
  - intros l b s [Hl Hall]. revert n b Hl. induction Hall as [|a l Ha Hall IH]; intros n b <-; simpl; [by intros [= <-]|].
    destruct (e a) as [ba|] eqn:Ea; [|done]. destruct (encode_all e l) as [bl|] eqn:El; [|done]. intros [= <-].
    rewrite <- app_assoc, (format_decode a ba (bl ++ s) Ha Ea). by rewrite (IH (length l) bl eq_refl eq_refl).
  - induction n as [|n IH]; intros s l s'; simpl.
    { intros [= <- <-]. split; [done|]. by exists []. }
    destruct (d s) as [[a t]|] eqn:Ea; [|done]. destruct (decode_repeat n d t) as [[l' t']|] eqn:El; [|done]. intros [= <- <-].
    apply format_encode in Ea as [Ha (ba & Hba & ->)]. apply IH in El as [[Hn Hall] (bl & Hbl & ->)].
    split; [split; [simpl; lia|by constructor]|]. exists (ba ++ bl). simpl. rewrite Hba, Hbl. by rewrite app_assoc.
Qed.

Lemma encode_all_length k l b :
  (forall a x, e a = Ok x -> k <= zlen x) -> encode_all e l = Ok b -> k * zlen l <= zlen b.
Proof.
  intros Hk. revert b. induction l as [|a l IH]; intros b; simpl; [intros [= <-]; unfold zlen; simpl; lia|].
  destruct (e a) as [ba|] eqn:Ea; [|done]. destruct (encode_all e l) as [bl|]; [|done]. intros [= <-].
  specialize (IH bl eq_refl). apply Hk in Ea. rewrite zlen_app, zlen_cons. lia.
Qed.

(** The check of a count never rejects a valid payload. *)
Lemma counted_format count width :
  0 <= count -> 0 < width -> (forall a x, e a = Ok x -> width <= zlen x) ->
  Format (fun l => zlen l = count /\ Forall P l) (encode_all e) (decode_counted count width d).
Proof.
  intros Hc Hw Hmin. constructor.
  - intros l b s [Hl Hall] He. unfold decode_counted. pose proof (encode_all_length width l b Hmin He) as Hlen.
    destruct (Z.ltb_spec (zlen (b ++ s) / width) count) as [Hlt|_].
    + exfalso. rewrite zlen_app in Hlt. pose proof (zlen_nonneg s). rewrite Hl in Hlen.
      assert (count <= (zlen b + zlen s) / width); [|lia]. apply Z.div_le_lower_bound; lia.
    + apply format_decode; [|done]. split; [|done]. unfold zlen in Hl. lia.
  - intros s l s'. unfold decode_counted. destruct (_ <? _); [done|]. intros [[Hl Hall] Hb]%format_encode.
    split; [|done]. split; [|done]. unfold zlen. lia.
Qed.
End Lists.

Lemma push_bytes_Ok v field b :
  push_bytes v field = Ok b -> zlen v <= u32_max /\ b = u32_le (zlen v) ++ v.
Proof. unfold push_bytes, checked_u32. destruct (Z.leb_spec (zlen v) u32_max); [|done]. by intros [= <-]. Qed.

Lemma zlen_u32_le z : zlen (u32_le z) = 4.
Proof. unfold zlen. by rewrite length_u32_le. Qed.
Lemma zlen_u16_le z : zlen (u16_le z) = 2.
Proof. unfold zlen. by rewrite length_u16_le. Qed.
Lemma zlen_u64_le z : zlen (u64_le z) = 8.
Proof. unfold zlen. by rewrite length_u64_le. Qed.
Lemma zlen_i32_le z : zlen (i32_le z) = 4.
Proof. apply zlen_u32_le. Qed.

Create Rewrite HintDb wire_len.
#[export] Hint Rewrite @zlen_app @zlen_cons @zlen_nil zlen_u16_le zlen_u32_le zlen_u64_le zlen_i32_le : wire_len.

(** Length-prefixed bytes and strings. *)
#[export] Instance prefixed_bytes_format field :
  Format (fun _ => True) (fun v => push_bytes v field) (fun s => let? (n, s) := decode_u32 s in decode_bytes n s).
Proof.
  constructor.
  - intros v b s _ [Hl ->]%push_bytes_Ok. rewrite <- app_assoc.
    rewrite (format_decode (zlen v) (u32_le (zlen v))) by first [done | split; [apply zlen_nonneg|done]]. by apply decode_bytes_app.
  - intros s v s'. destruct (decode_u32 s) as [[n t]|] eqn:E; [|done]. apply format_encode in E as [[Hn Hm] (b & [= <-] & ->)].
    intros Hd. apply decode_bytes_inv in Hd as [Hl ->]; [|done]. split; [done|]. exists (u32_le n ++ v).
    unfold push_bytes, checked_u32. rewrite Hl, (proj2 (Z.leb_le _ _)) by done. by rewrite <- app_assoc.
Qed.

#[export] Instance prefixed_string_format field :
  Format (fun v => utf8_valid v = true) (fun v => push_bytes v field)
    (fun s => let? (n, s) := decode_u32 s in decode_string n field s).
Proof.
  constructor.
  - intros v b s Hu Hp. unfold decode_string.
    pose proof (format_decode (Format := prefixed_bytes_format field) v b s Logic.I Hp) as Hd. cbv beta in Hd.
    destruct (decode_u32 (b ++ s)) as [[n t]|]; [|done]. by rewrite Hd, Hu.
  - intros s v s' Hd. unfold decode_string in Hd. destruct (decode_u32 s) as [[n t]|] eqn:E; [|done].
    destruct (decode_bytes n t) as [[w u]|] eqn:Eb; [|done]. destruct (utf8_valid w) eqn:Hu; [|done]. injection Hd as <- <-.
    split; [done|]. apply (format_encode (Format := prefixed_bytes_format field)). by rewrite E.
Qed.

(** ** Sizes *)

Fixpoint total_size (ops : list SizeOp) : Z :=
  match ops with
  | [] => 0
  | Check _ _ :: ops => total_size ops
  | Add c w :: ops => c * w + total_size ops
  end.

Definition op_fine (o : SizeOp) : Prop :=
  match o with Check v _ => v <= u32_max | Add c w => 0 <= c /\ 0 <= w end.

Lemma total_size_nonneg ops : Forall op_fine ops -> 0 <= total_size ops.
Proof. induction 1 as [|[v f|c w] ops Ho _ IH]; simpl in *; nia. Qed.

Lemma total_size_app p q : total_size (p ++ q) = total_size p + total_size q.
Proof. induction p as [|[v f|c w] p IH]; simpl; lia. Qed.

Lemma run_sizes_Ok ops size :
  0 <= size -> Forall op_fine ops -> size + total_size ops <= isize_max -> run_sizes ops size = Ok (size + total_size ops).
Proof.
  intros Hs Hall. revert size Hs. induction Hall as [|o ops Ho Hall IH]; intros size Hs Hle; simpl; [by rewrite Z.add_0_r|].
  pose proof (total_size_nonneg ops Hall). destruct o as [v f|c w]; simpl in *.
  - unfold checked_u32. rewrite (proj2 (Z.leb_le _ _)) by done. by apply IH.
  - unfold add_encoded_size, checked_mul, checked_add. unfold isize_max, u64_max in *.
    rewrite !(proj2 (Z.leb_le _ _)) by nia. rewrite IH by nia. f_equal. lia.
Qed.

Lemma run_sizes_inv ops size n :
  0 <= size -> Forall (fun o => match o with Check _ _ => True | Add c w => 0 <= c /\ 0 <= w end) ops ->
  run_sizes ops size = Ok n -> n = size + total_size ops /\ Forall op_fine ops.
Proof.
  intros Hs Hall. revert size Hs. induction Hall as [|o ops Ho Hall IH]; intros size Hs; simpl; [intros [= <-]; split; [lia|done]|].
  destruct o as [v f|c w]; simpl in *.
  - unfold checked_u32. destruct (Z.leb_spec v u32_max); [|done]. intros [-> Hf]%IH; [|done]. by split; [|constructor].
  - unfold add_encoded_size, checked_mul, checked_add. destruct (_ <=? _); [|done]. destruct (_ <=? _); [|done].
    destruct (_ <=? _); [|done]. intros [-> Hf]%IH; [|nia]. split; [lia|by constructor].
Qed.
