(* ===== verification/CacheProtocol.v ===== *)
(** * The cache protocol

    [orbitkv-channel/src/cache_protocol.rs]: the messages between an engine and its manager, with
    their encoders, decoders and validation.  A string is its bytes. *)
From S2P Require Import Prelude Containers State Recovery Words Wire.

Local Open Scope Z_scope.
Local Open Scope rust_scope.
Local Open Scope string_scope.

Definition QUERY_REQUEST_MAGIC : Z := 0x4f525151.
Definition QUERY_RESPONSE_MAGIC : Z := 0x4f525152.
Definition QUERY_POLL_MAGIC : Z := 0x4f525150.
Definition CANCEL_QUERY_MAGIC : Z := 0x4f525143.
Definition RELEASE_REQUEST_MAGIC : Z := 0x4f524c51.
Definition PUBLISH_REQUEST_MAGIC : Z := 0x4f525051.
Definition RESTORE_REQUEST_MAGIC : Z := 0x4f525251.
Definition COMPLETION_OBSERVATION_MAGIC : Z := 0x4f52434f.
Definition SHARD_RESPONSE_MAGIC : Z := 0x4f525352.
Definition REQUEST_HEADER_BYTES : Z := 40.
Definition PUBLISH_HEADER_BYTES : Z := 44.
Definition RESTORE_HEADER_BYTES : Z := 28.
Definition MAX_COMPLETION_INSTANCE_ID_BYTES : Z := 256.
Definition MAX_COMPLETION_SOURCE_ENDPOINT_BYTES : Z := 1024.
Definition MAX_SHARDS : Z := 32.

(** Most messages start alike. *)
Definition header (magic : Z) (tag : Z) : bytes := u32_le magic ++ u16_le CACHE_PROTOCOL_VERSION ++ u16_le tag.
Definition decode_header (magic : Z) : Decoder Z := fun s =>
  let? (_, s) := expect_magic magic s in
  let? (_, s) := expect_version s in
  decode_u16 s.
Definition decode_plain_header (magic : Z) : Decoder unit := fun s =>
  let? (flags, s) := decode_header magic s in
  if negb (flags =? 0) then Err (InvalidFlags flags) else Ok (tt, s).

(** ** Completion observations *)

Inductive CompletionIntent := HostReady | EngineRestore | SourceRelease.
Definition intent_code (i : CompletionIntent) : Z := match i with HostReady => 1 | EngineRestore => 2 | SourceRelease => 3 end.
Definition intent_of (value : Z) : wire CompletionIntent :=
  match value with 1 => Ok HostReady | 2 => Ok EngineRestore | 3 => Ok SourceRelease
  | _ => Err (UnknownCompletionIntent value) end.

Inductive CompletionRoute := PrefillToDecodeHandoff.
Definition route_code (r : CompletionRoute) : Z := match r with PrefillToDecodeHandoff => 1 end.
Definition route_of (value : Z) : wire CompletionRoute :=
  match value with 1 => Ok PrefillToDecodeHandoff | _ => Err (UnknownCompletionRoute value) end.

Inductive CompletionAdmission := AdmissionGranted | AdmissionRejected.
Definition admission_code (a : CompletionAdmission) : Z := match a with AdmissionGranted => 1 | AdmissionRejected => 2 end.
Definition admission_of (value : Z) : wire CompletionAdmission :=
  match value with 1 => Ok AdmissionGranted | 2 => Ok AdmissionRejected | _ => Err (UnknownCompletionAdmission value) end.

Inductive CompletionOutcome := Completed | Failed | Cancelled | TimedOut.
Definition outcome_code (o : CompletionOutcome) : Z :=
  match o with Completed => 1 | Failed => 2 | Cancelled => 3 | TimedOut => 4 end.
Definition outcome_of (value : Z) : wire CompletionOutcome :=
  match value with 1 => Ok Completed | 2 => Ok Failed | 3 => Ok Cancelled | 4 => Ok TimedOut
  | _ => Err (UnknownCompletionOutcome value) end.

Definition representation_code (r : ReplicaRepresentation) : Z :=
  match r with RUnknown => 0 | Raw => 1 | Ans => 2 | Fp8 => 3 | TurboQuant => 4 | Mixed => 5 end.
Definition decode_representation (value : Z) : wire ReplicaRepresentation :=
  match value with 1 => Ok Raw | 2 => Ok Ans | 3 => Ok Fp8 | 4 => Ok TurboQuant | 5 => Ok Mixed
  | _ => Err (UnknownCompletionRepresentation value) end.

Record CompletionObservationRequest := mkObservation {
  co_instance_id : bytes;
  destination_device_id : Z;
  source_endpoint : bytes;
  transfer_generation : Z;
  intent : CompletionIntent;
  route : CompletionRoute;
  representation : ReplicaRepresentation;
  logical_bytes : Z;
  wire_bytes : Z;
  fragment_count : Z;
  elapsed_ns : Z;
  decode_page_bytes : Z;
  handoff_queue_depth : Z;
  handoff_queue_parallelism : Z;
  tent_inflight_bytes : Z;
  tent_bandwidth_bytes_per_second : Z;
  admission : CompletionAdmission;
  co_outcome : CompletionOutcome
}.

Definition validate_completion_string (value : bytes) (field : string) (max_bytes : Z) : wire unit :=
  if zlen value =? 0 then Err (EmptyCompletionField field)
  else if max_bytes <? zlen value then Err (CompletionFieldTooLong field (zlen value) max_bytes)
  else Ok tt.

(** A [return Err(..)] guard. *)
Definition reject_if (b : bool) (e : CacheProtocolError) : wire unit := if b then Err e else Ok tt.

Definition validate_observation (r : CompletionObservationRequest) : wire unit :=
  let? _ := validate_completion_string (co_instance_id r) "completion_instance_id" MAX_COMPLETION_INSTANCE_ID_BYTES in
  let? _ := validate_completion_string (source_endpoint r) "completion_source_endpoint" MAX_COMPLETION_SOURCE_ENDPOINT_BYTES in
  let? _ := reject_if (destination_device_id r <? 0) (InvalidCompletionDevice (destination_device_id r)) in
  let? _ := reject_if (transfer_generation r =? 0) (ZeroCompletionField "transfer_generation") in
  let? _ := reject_if (logical_bytes r =? 0) (ZeroCompletionField "logical_bytes") in
  let? _ := reject_if (fragment_count r =? 0) (ZeroCompletionField "fragment_count") in
  let? _ := reject_if (elapsed_ns r =? 0) (ZeroCompletionField "elapsed_ns") in
  let? _ := reject_if (4096 <? handoff_queue_depth r) (CompletionQueueTooDeep (handoff_queue_depth r)) in
  let? _ := reject_if (4096 <? handoff_queue_parallelism r) (CompletionQueueTooWide (handoff_queue_parallelism r)) in
  let? _ := match representation r with RUnknown => Err (UnknownCompletionRepresentation 0) | _ => Ok tt end in
  let? _ := match route r, intent r with
            | PrefillToDecodeHandoff, EngineRestore => Ok tt
            | PrefillToDecodeHandoff, _ => Err InvalidCompletionTarget
            end in
  let? _ := match admission r, co_outcome r with
            | AdmissionGranted, Completed => reject_if (wire_bytes r =? 0) InvalidCompletionState
            | AdmissionRejected, Completed => Err InvalidCompletionState
            | AdmissionRejected, _ => reject_if (1 <=? wire_bytes r) InvalidCompletionState
            | _, _ => Ok tt
            end in
  match admission r with
  | AdmissionGranted =>
      reject_if (negb (decode_page_bytes r =? logical_bytes r) || (handoff_queue_depth r =? 0)
                 || (handoff_queue_parallelism r =? 0)) InvalidCompletionResources
  | AdmissionRejected => reject_if (negb (decode_page_bytes r =? 0)) InvalidCompletionResources
  end.

Definition encode_observation (r : CompletionObservationRequest) : wire bytes :=
  let? _ := validate_observation r in
  let? instance_len := checked_u32 (zlen (co_instance_id r)) "completion_instance_id" in
  let? source_len := checked_u32 (zlen (source_endpoint r)) "completion_source_endpoint" in
  Ok (header COMPLETION_OBSERVATION_MAGIC 0 ++ u16_le (intent_code (intent r)) ++ u16_le (route_code (route r)) ++
      u16_le (representation_code (representation r)) ++ u16_le (admission_code (admission r)) ++
      u16_le (outcome_code (co_outcome r)) ++ u16_le 0 ++ i32_le (destination_device_id r) ++
      u32_le instance_len ++ u32_le source_len ++ u64_le (transfer_generation r) ++ u64_le (logical_bytes r) ++
      u64_le (wire_bytes r) ++ u32_le (fragment_count r) ++ u32_le 0 ++ u64_le (elapsed_ns r) ++
      u64_le (decode_page_bytes r) ++ u32_le (handoff_queue_depth r) ++ u32_le (handoff_queue_parallelism r) ++
      u64_le (tent_inflight_bytes r) ++ u64_le (tent_bandwidth_bytes_per_second r) ++
      co_instance_id r ++ source_endpoint r).

Definition decode_observation (s : bytes) : wire CompletionObservationRequest :=
  let? (_, s) := decode_plain_header COMPLETION_OBSERVATION_MAGIC s in
  let? (code, s) := decode_u16 s in
  let? intent := intent_of code in
  let? (code, s) := decode_u16 s in
  let? route := route_of code in
  let? (code, s) := decode_u16 s in
  let? representation := decode_representation code in
  let? (code, s) := decode_u16 s in
  let? admission := admission_of code in
  let? (code, s) := decode_u16 s in
  let? outcome := outcome_of code in
  let? (reserved, s) := decode_u16 s in
  let? _ := reject_if (negb (reserved =? 0)) (InvalidCompletionReserved reserved) in
  let? (device, s) := decode_i32 s in
  let? (instance_len, s) := decode_u32 s in
  let? (source_len, s) := decode_u32 s in
  let? (generation, s) := decode_u64 s in
  let? (logical, s) := decode_u64 s in
  let? (wired, s) := decode_u64 s in
  let? (fragments, s) := decode_u32 s in
  let? (reserved, s) := decode_u32 s in
  let? _ := reject_if (negb (reserved =? 0)) (InvalidCompletionReserved reserved) in
  let? (elapsed, s) := decode_u64 s in
  let? (page, s) := decode_u64 s in
  let? (depth, s) := decode_u32 s in
  let? (parallelism, s) := decode_u32 s in
  let? (inflight, s) := decode_u64 s in
  let? (bandwidth, s) := decode_u64 s in
  let? (instance, s) := decode_string instance_len "completion_instance_id" s in
  let? (source, s) := decode_string source_len "completion_source_endpoint" s in
  let? _ := finish s in
  let r := mkObservation instance device source generation intent route representation logical wired fragments
             elapsed page depth parallelism inflight bandwidth admission outcome in
  let? _ := validate_observation r in
  Ok r.

(** ** Tickets, polls and cancellation *)

Record QueryTicket := mkTicket { operation_id : Z; revision : Z }.

Definition encode_ticket (t : QueryTicket) : wire bytes :=
  if (operation_id t =? 0) || (revision t =? 0) then Err InvalidQueryTicket
  else Ok (u64_le (operation_id t) ++ u64_le (revision t)).
Definition decode_ticket : Decoder QueryTicket := fun s =>
  let? (operation, s) := decode_u64 s in
  let? (revision, s) := decode_u64 s in
  if (operation =? 0) || (revision =? 0) then Err InvalidQueryTicket else Ok (mkTicket operation revision, s).

Record CancelQueryRequest := mkCancel { cancel_ticket : QueryTicket }.

Definition encode_cancel (r : CancelQueryRequest) : wire bytes :=
  let? t := encode_ticket (cancel_ticket r) in Ok (header CANCEL_QUERY_MAGIC 0 ++ t).
Definition decode_cancel (s : bytes) : wire CancelQueryRequest :=
  let? (_, s) := decode_plain_header CANCEL_QUERY_MAGIC s in
  let? (t, s) := decode_ticket s in
  let? _ := finish s in
  Ok (mkCancel t).

(** ** Release *)

Record ReleaseRequest := mkRelease { release_lease : bytes }.

Definition encode_release (r : ReleaseRequest) : wire bytes :=
  let? n := checked_u32 (zlen (release_lease r)) "lease" in
  Ok (header RELEASE_REQUEST_MAGIC 0 ++ u32_le n ++ release_lease r).
Definition decode_release (s : bytes) : wire ReleaseRequest :=
  let? (_, s) := decode_plain_header RELEASE_REQUEST_MAGIC s in
  let? (n, s) := decode_u32 s in
  let? (lease, s) := decode_bytes n s in
  let? _ := finish s in
  if zlen lease =? 0 then Err EmptyLease else Ok (mkRelease lease).

(** ** Restore *)

Record RestoreLease := mkRestoreLease {
  restore_lease : bytes;
  block_ids_by_group : list (list (option Z))
}.
Record RestoreRequest := mkRestore {
  rr_instance_id : bytes;
  rr_tp_rank : Z;
  rr_device_id : Z;
  layer_groups : list (list bytes);
  loads : list RestoreLease
}.

Definition group_sizes (group : list bytes) : list SizeOp :=
  Add 1 4 :: flat_map (fun layer => [Add 1 4; Add (zlen layer) 1]) group.
Definition load_sizes (load : RestoreLease) : list SizeOp :=
  Add 1 8 :: Add (zlen (restore_lease load)) 1 ::
  flat_map (fun targets => [Add 1 4; Add (zlen targets) 4]) (block_ids_by_group load).
Definition restore_sizes (r : RestoreRequest) : list SizeOp :=
  Add (zlen (rr_instance_id r)) 1 :: flat_map group_sizes (layer_groups r) ++ flat_map load_sizes (loads r).

Definition encode_layer_group (group : list bytes) : wire bytes :=
  let? n := checked_u32 (zlen group) "layer_group" in
  let? layers := encode_all (fun layer => push_bytes layer "layer_name") group in
  Ok (u32_le n ++ layers).
(** No block is the largest number. *)
Definition encode_target (target : option Z) : wire bytes :=
  Ok (u32_le match target with Some id => id | None => u32_max end).
Definition encode_targets (targets : list (option Z)) : wire bytes :=
  let? n := checked_u32 (zlen targets) "block_targets" in
  let? ids := encode_all encode_target targets in
  Ok (u32_le n ++ ids).
Definition encode_load (load : RestoreLease) : wire bytes :=
  let? lease := push_bytes (restore_lease load) "lease" in
  let? n := checked_u32 (zlen (block_ids_by_group load)) "block_ids_by_group" in
  let? groups := encode_all encode_targets (block_ids_by_group load) in
  Ok (lease ++ u32_le n ++ groups).

Definition encode_restore (r : RestoreRequest) : wire bytes :=
  let? _ := run_sizes (restore_sizes r) RESTORE_HEADER_BYTES in
  let? instance_len := checked_u32 (zlen (rr_instance_id r)) "instance_id" in
  let? group_count := checked_u32 (zlen (layer_groups r)) "layer_groups" in
  let? load_count := checked_u32 (zlen (loads r)) "loads" in
  let? groups := encode_all encode_layer_group (layer_groups r) in
  let? bodies := encode_all encode_load (loads r) in
  Ok (header RESTORE_REQUEST_MAGIC 0 ++ u32_le (rr_tp_rank r) ++ i32_le (rr_device_id r) ++ u32_le instance_len ++
      u32_le group_count ++ u32_le load_count ++ rr_instance_id r ++ groups ++ bodies).

Definition decode_layer_group : Decoder (list bytes) := fun s =>
  let? (count, s) := decode_u32 s in
  decode_counted count 4 (fun s => let? (len, s) := decode_u32 s in decode_string len "layer_name" s) s.
Definition decode_target : Decoder (option Z) := fun s =>
  let? (target, s) := decode_u32 s in
  Ok (if target =? u32_max then None else Some target, s).
Definition decode_targets : Decoder (list (option Z)) := fun s =>
  let? (count, s) := decode_u32 s in
  decode_counted count 4 decode_target s.
Definition decode_load : Decoder RestoreLease := fun s =>
  let? (len, s) := decode_u32 s in
  let? (lease, s) := decode_bytes len s in
  if zlen lease =? 0 then Err EmptyLease
  else
    let? (count, s) := decode_u32 s in
    let? (groups, s) := decode_counted count 4 decode_targets s in
    Ok (mkRestoreLease lease groups, s).

Definition decode_restore (s : bytes) : wire RestoreRequest :=
  let? (_, s) := decode_plain_header RESTORE_REQUEST_MAGIC s in
  let? (tp_rank, s) := decode_u32 s in
  let? (device, s) := decode_i32 s in
  let? (instance_len, s) := decode_u32 s in
  let? (group_count, s) := decode_u32 s in
  let? (load_count, s) := decode_u32 s in
  let? (instance, s) := decode_string instance_len "instance_id" s in
  let? (groups, s) := decode_counted group_count 4 decode_layer_group s in
  let? (bodies, s) := decode_counted load_count 8 decode_load s in
  let? _ := finish s in
  Ok (mkRestore instance tp_rank device groups bodies).

(** ** Publish *)

Record PublishLayer := mkPublishLayer {
  layer_name : bytes;
  pl_block_ids : list Z;
  pl_block_hashes : list bytes
}.
Record PublishRequest := mkPublish {
  pr_instance_id : bytes;
  registration_generation : bytes;
  pr_tp_rank : Z;
  pr_pp_rank : Z;
  pr_device_id : Z;
  pr_layers : list PublishLayer
}.

Definition zero_generation (g : bytes) : bool := bool_decide (g = replicate 16 (byte_of 0)).

Fixpoint validate_publish_layers (layers : list PublishLayer) : wire unit :=
  match layers with
  | [] => Ok tt
  | l :: layers =>
      if negb (zlen (pl_block_ids l) =? zlen (pl_block_hashes l))
      then Err (PublishShapeMismatch (layer_name l) (zlen (pl_block_ids l)) (zlen (pl_block_hashes l)))
      else validate_publish_layers layers
  end.

(** The positions of a layer that fall into the range; [None] skips the layer. *)
Definition selected (range : option (Z * Z)) (l : PublishLayer) : option (Z * Z) :=
  match range with
  | Some (first, last) =>
      let last := Z.min last (zlen (pl_block_ids l)) in
      if last <=? first then None else Some (first, last)
  | None => Some (0, zlen (pl_block_ids l))
  end.
Definition slice {A} (r : Z * Z) (l : list A) : list A :=
  take (Z.to_nat r.2 - Z.to_nat r.1) (drop (Z.to_nat r.1) l).

Definition publish_sizes (range : option (Z * Z)) (layers : list PublishLayer) : list SizeOp :=
  flat_map (fun l =>
    match selected range l with
    | None => []
    | Some r =>
        Check (zlen (layer_name l)) "layer_name" :: Check (r.2 - r.1) "block_ids" ::
        Add 1 8 :: Add (zlen (layer_name l)) 1 :: Add (r.2 - r.1) 8 ::
        flat_map (fun hash => [Check (zlen hash) "block_hash"; Add (zlen hash) 1]) (slice r (pl_block_hashes l))
    end) layers.

Definition encoded_len (p : PublishRequest) (range : option (Z * Z)) : wire Z :=
  if zero_generation (registration_generation p) then Err InvalidRegistrationGeneration
  else
    let? _ := validate_publish_layers (pr_layers p) in
    run_sizes (Check (zlen (pr_instance_id p)) "instance_id" :: Check (zlen (pr_layers p)) "layers" ::
               Add (zlen (pr_instance_id p)) 1 :: publish_sizes range (pr_layers p)) PUBLISH_HEADER_BYTES.

Definition encode_block (p : Z * bytes) : wire bytes :=
  let? n := checked_u32 (zlen p.2) "block_hash" in
  Ok (u32_le p.1 ++ u32_le n ++ p.2).

(** The part of a layer that is sent. *)
Definition encode_part (q : bytes * list (Z * bytes)) : wire bytes :=
  let? name_len := checked_u32 (zlen q.1) "layer_name" in
  let? count := checked_u32 (zlen q.2) "block_ids" in
  let? blocks := encode_all encode_block q.2 in
  Ok (u32_le name_len ++ u32_le count ++ q.1 ++ blocks).
Definition layer_part (range : option (Z * Z)) (l : PublishLayer) : option (bytes * list (Z * bytes)) :=
  match selected range l with
  | None => None
  | Some r => Some (layer_name l, zip (slice r (pl_block_ids l)) (slice r (pl_block_hashes l)))
  end.

Definition encode_range (p : PublishRequest) (range : option (Z * Z)) : wire bytes :=
  let? _ := encoded_len p range in
  let? instance_len := checked_u32 (zlen (pr_instance_id p)) "instance_id" in
  let parts := omap (layer_part range) (pr_layers p) in
  let? layer_count := checked_u32 (zlen parts) "layers" in
  let? layers := encode_all encode_part parts in
  Ok (header PUBLISH_REQUEST_MAGIC 0 ++ u32_le (pr_tp_rank p) ++ u32_le (pr_pp_rank p) ++ i32_le (pr_device_id p) ++
      u32_le instance_len ++ u32_le layer_count ++ registration_generation p ++ pr_instance_id p ++ layers).
Definition encode_publish (p : PublishRequest) : wire bytes := encode_range p None.

Definition block_payload_len (p : PublishRequest) (index : Z) : wire Z :=
  run_sizes (flat_map (fun l =>
    match pl_block_hashes l !! Z.to_nat index with
    | Some hash => [Add 1 8; Add (zlen hash) 1]
    | None => []
    end) (pr_layers p)) 0.

Definition decode_block : Decoder (Z * bytes) := fun s =>
  let? (id, s) := decode_u32 s in
  let? (len, s) := decode_u32 s in
  let? (hash, s) := decode_bytes len s in
  Ok ((id, hash), s).
Definition decode_part : Decoder (bytes * list (Z * bytes)) := fun s =>
  let? (name_len, s) := decode_u32 s in
  let? (count, s) := decode_u32 s in
  let? (name, s) := decode_string name_len "layer_name" s in
  let? (blocks, s) := decode_counted count 8 decode_block s in
  Ok ((name, blocks), s).
Definition layer_of (q : bytes * list (Z * bytes)) : PublishLayer := mkPublishLayer q.1 q.2.*1 q.2.*2.

Definition decode_publish (s : bytes) : wire PublishRequest :=
  let? (_, s) := decode_plain_header PUBLISH_REQUEST_MAGIC s in
  let? (tp_rank, s) := decode_u32 s in
  let? (pp_rank, s) := decode_u32 s in
  let? (device, s) := decode_i32 s in
  let? (instance_len, s) := decode_u32 s in
  let? (layer_count, s) := decode_u32 s in
  let? (generation, s) := decode_bytes 16 s in
  let? _ := reject_if (zero_generation generation) InvalidRegistrationGeneration in
  let? (instance, s) := decode_string instance_len "instance_id" s in
  let? (parts, s) := decode_counted layer_count 8 decode_part s in
  let? _ := finish s in
  let layers := layer_of <$> parts in
  let? _ := validate_publish_layers layers in
  Ok (mkPublish instance generation tp_rank pp_rank device layers).

(** ** Bundle queries *)

Record QueryBundleRequest := mkQuery {
  ticket : QueryTicket;
  qb_instance_id : bytes;
  request_id : bytes;
  qb_block_hashes : list bytes;
  group_id : Z;
  wait_for_full_prefix : bool;
  warmup : bool;
  discover : bool;
  materialize : bool;
  prepare : bool;
  qb_demand : option RecoveryDemand
}.

Definition query_flags (q : QueryBundleRequest) : Z :=
  Z.lor (Z.lor (Z.lor (Z.lor (Z.b2z (wait_for_full_prefix q)) (Z.shiftl (Z.b2z (warmup q)) 1))
    (Z.shiftl (Z.b2z (discover q)) 2)) (Z.shiftl (Z.b2z (materialize q)) 3)) (Z.shiftl (Z.b2z (prepare q)) 4).

Definition from_recovery {A} (r : result A RecoveryError) : wire A :=
  match r with Ok a => Ok a | Err e => Err (Recovery e) end.

Definition query_sizes (q : QueryBundleRequest) : list SizeOp :=
  Add (zlen (qb_instance_id q)) 1 :: Add (zlen (request_id q)) 1 :: Add (zlen (qb_block_hashes q)) 4 ::
  map (fun hash => Add (zlen hash) 1) (qb_block_hashes q) ++
  match qb_demand q with Some d => [Add 1 28; Add (zlen (demand_groups d)) 20] | None => [] end.

Definition encode_group (g : Z * TokenRange) : wire bytes :=
  Ok (u32_le g.1 ++ u64_le (start g.2) ++ u64_le (end_ g.2)).
Definition encode_demand (d : RecoveryDemand) : wire bytes :=
  let? n := checked_u32 (zlen (demand_groups d)) "recovery_groups" in
  let? groups := encode_all encode_group (demand_groups d) in
  Ok (u64_le (demand_page_tokens d) ++ u64_le (start (demand_span d)) ++ u64_le (end_ (demand_span d)) ++ u32_le n ++ groups).

Definition encode_query (q : QueryBundleRequest) : wire bytes :=
  let? _ := reject_if (zlen (request_id q) =? 0) EmptyRequestId in
  let? _ := reject_if (negb (Bool.eqb (materialize q) (match qb_demand q with Some _ => true | None => false end)))
              InvalidRecoveryDemand in
  let? _ := match qb_demand q with
            | Some d => from_recovery (validate d (group_id q) (zlen (qb_block_hashes q)))
            | None => Ok tt
            end in
  let? _ := run_sizes (query_sizes q) REQUEST_HEADER_BYTES in
  let? t := encode_ticket (ticket q) in
  let? instance_len := checked_u32 (zlen (qb_instance_id q)) "instance_id" in
  let? request_len := checked_u32 (zlen (request_id q)) "request_id" in
  let? hash_count := checked_u32 (zlen (qb_block_hashes q)) "block_hashes" in
  let? hashes := encode_all (fun hash => push_bytes hash "block_hash") (qb_block_hashes q) in
  let? demand := match qb_demand q with Some d => encode_demand d | None => Ok [] end in
  Ok (header QUERY_REQUEST_MAGIC (query_flags q) ++ t ++ u32_le (group_id q) ++ u32_le instance_len ++
      u32_le request_len ++ u32_le hash_count ++ qb_instance_id q ++ request_id q ++ hashes ++ demand).

Definition decode_group : Decoder (Z * TokenRange) := fun s =>
  let? (group, s) := decode_u32 s in
  let? (first, s) := decode_u64 s in
  let? (last, s) := decode_u64 s in
  Ok ((group, mkRange first last), s).
Definition decode_demand (group hash_count : Z) : Decoder RecoveryDemand := fun s =>
  let? (page_tokens, s) := decode_u64 s in
  let? (first, s) := decode_u64 s in
  let? (last, s) := decode_u64 s in
  let? (count, s) := decode_u32 s in
  let? (groups, s) := decode_counted count 20 decode_group s in
  let d := mkDemand page_tokens (mkRange first last) groups in
  let? _ := from_recovery (validate d group hash_count) in
  Ok (d, s).
Definition decode_optional_demand (flags group hash_count : Z) : Decoder (option RecoveryDemand) := fun s =>
  if negb (Z.land flags 8 =? 0)
  then let? (d, s) := decode_demand group hash_count s in Ok (Some d, s)
  else Ok (None, s).

Definition decode_query (s : bytes) : wire QueryBundleRequest :=
  let? (flags, s) := decode_header QUERY_REQUEST_MAGIC s in
  let? _ := reject_if (negb (Z.land flags (Z.lxor 65535 31) =? 0)) (InvalidFlags flags) in
  let? (t, s) := decode_ticket s in
  let? (group, s) := decode_u32 s in
  let? (instance_len, s) := decode_u32 s in
  let? (request_len, s) := decode_u32 s in
  let? (hash_count, s) := decode_u32 s in
  let? (instance, s) := decode_string instance_len "instance_id" s in
  let? (request, s) := decode_string request_len "request_id" s in
  let? _ := reject_if (zlen request =? 0) EmptyRequestId in
  let? (hashes, s) := decode_counted hash_count 4 (fun s => let? (len, s) := decode_u32 s in decode_bytes len s) s in
  let? (demand, s) := decode_optional_demand flags group hash_count s in
  let? _ := finish s in
  Ok (mkQuery t instance request hashes group (negb (Z.land flags 1 =? 0)) (negb (Z.land flags 2 =? 0))
        (negb (Z.land flags 4 =? 0)) (negb (Z.land flags 8 =? 0)) (negb (Z.land flags 16 =? 0)) demand).

Inductive QueryCommand :=
| Submit (q : QueryBundleRequest)
| Poll (t : QueryTicket)
| Claim (t : QueryTicket) (count_lookup : bool).

Definition encode_poll (flags : Z) (t : QueryTicket) : wire bytes :=
  let? b := encode_ticket t in Ok (header QUERY_POLL_MAGIC flags ++ b).
Definition encode_command (c : QueryCommand) : wire bytes :=
  match c with
  | Submit q => encode_query q
  | Poll t => encode_poll 0 t
  | Claim t count_lookup => encode_poll (Z.lor 1 (Z.shiftl (Z.b2z count_lookup) 1)) t
  end.
Definition decode_command (payload : bytes) : wire QueryCommand :=
  let? (magic, s) := decode_u32 payload in
  if magic =? QUERY_REQUEST_MAGIC then let? q := decode_query payload in Ok (Submit q)
  else if negb (magic =? QUERY_POLL_MAGIC) then Err (InvalidMagic magic)
  else
    let? (_, s) := expect_version s in
    let? (flags, s) := decode_u16 s in
    let? _ := reject_if ((3 <? flags) || (flags =? 2)) (InvalidFlags flags) in
    let? (t, s) := decode_ticket s in
    let? _ := finish s in
    Ok (if negb (Z.land flags 1 =? 0) then Claim t (negb (Z.land flags 2 =? 0)) else Poll t).

(** ** Responses *)

Inductive QueryOutcomeCode := QReady | QLoading | QBusy | QCandidates.
Definition query_outcome_code (o : QueryOutcomeCode) : Z :=
  match o with QReady => 1 | QLoading => 2 | QBusy => 3 | QCandidates => 4 end.
Definition query_outcome_of (value : Z) : wire QueryOutcomeCode :=
  match value with 1 => Ok QReady | 2 => Ok QLoading | 3 => Ok QBusy | 4 => Ok QCandidates
  | _ => Err (UnknownOutcome value) end.

Record QueryBundleResponse := mkResponse {
  qr_outcome : QueryOutcomeCode;
  num_hit_blocks : Z;
  qr_lease : bytes;
  hit_positions : list Z
}.
Definition loading_response : QueryBundleResponse := mkResponse QLoading 0 [] [].

Definition encode_response (r : QueryBundleResponse) : wire bytes :=
  let? lease_len := checked_u32 (zlen (qr_lease r)) "lease" in
  let? positions_len := checked_u32 (zlen (hit_positions r)) "hit_positions" in
  let? positions := encode_all (fun p => Ok (u32_le p)) (hit_positions r) in
  Ok (header QUERY_RESPONSE_MAGIC (query_outcome_code (qr_outcome r)) ++ u64_le (num_hit_blocks r) ++
      u32_le lease_len ++ u32_le positions_len ++ qr_lease r ++ positions).

(** [windows(2).any(|pair| pair[0] >= pair[1])]. *)
Fixpoint unordered (l : list Z) : bool :=
  match l with a :: (b :: _) as rest => (b <=? a) || unordered rest | _ => false end.

(** The two checks at the end of the decoder. *)
Definition check_response (r : QueryBundleResponse) : wire unit :=
  let nonempty {A} (l : list A) := negb (zlen l =? 0) in
  let? _ := reject_if (match qr_outcome r with QLoading | QBusy => true | _ => false end
                       && (negb (num_hit_blocks r =? 0) || nonempty (qr_lease r) || nonempty (hit_positions r)))
              InvalidLoadingPayload in
  reject_if (match qr_outcome r with QCandidates => true | _ => false end
             && (nonempty (qr_lease r) || negb (num_hit_blocks r =? zlen (hit_positions r)) || unordered (hit_positions r)))
    InvalidCandidates.

Definition decode_response (s : bytes) : wire QueryBundleResponse :=
  let? (tag, s) := decode_header QUERY_RESPONSE_MAGIC s in
  let? outcome := query_outcome_of tag in
  let? (hits, s) := decode_u64 s in
  let? (lease_len, s) := decode_u32 s in
  let? (positions_len, s) := decode_u32 s in
  let? (lease, s) := decode_bytes lease_len s in
  let? (positions, s) := decode_counted positions_len 4 decode_u32 s in
  let? _ := finish s in
  let r := mkResponse outcome hits lease positions in
  let? _ := check_response r in
  Ok r.

Record ShardQueryResponse := mkShardResponse {
  sr_outcome : QueryOutcomeCode;
  sr_num_hit_blocks : Z;
  sr_leases : list bytes;
  control_id : bytes
}.
Definition loading_shard_response : ShardQueryResponse := mkShardResponse QLoading 0 [] [].

Definition nonzero_id (b : bytes) : bool := (zlen b =? 16) && existsb (fun x => negb (byte_val x =? 0)) b.
Definition is_empty {A} (l : list A) : bool := zlen l =? 0.

Definition validate_shard (r : ShardQueryResponse) : wire unit :=
  let valid := (zlen (sr_leases r) <=? MAX_SHARDS) &&
    match sr_outcome r with
    | QReady =>
        if 0 <? sr_num_hit_blocks r
        then negb (is_empty (sr_leases r)) && nonzero_id (control_id r) && forallb nonzero_id (sr_leases r)
        else negb (is_empty (sr_leases r)) && is_empty (control_id r) && forallb is_empty (sr_leases r)
    | QLoading | QBusy => (sr_num_hit_blocks r =? 0) && is_empty (sr_leases r) && is_empty (control_id r)
    | QCandidates => false
    end in
  if valid then Ok tt else Err InvalidShardPayload.

Definition encode_shard_lease (lease : bytes) : wire bytes := Ok (u16_le (zlen lease mod 65536) ++ lease).
Definition encode_shard (r : ShardQueryResponse) : wire bytes :=
  let? _ := validate_shard r in
  let? leases := encode_all encode_shard_lease (sr_leases r) in
  Ok (header SHARD_RESPONSE_MAGIC (query_outcome_code (sr_outcome r)) ++ u64_le (sr_num_hit_blocks r) ++
      u32_le (wrap32 (zlen (sr_leases r))) ++ u32_le (wrap32 (zlen (control_id r))) ++ control_id r ++ leases).

Definition id_len (n : Z) : bool := (n =? 0) || (n =? 16).
Definition decode_shard_lease : Decoder bytes := fun s =>
  let? (len, s) := decode_u16 s in
  if negb (id_len len) then Err InvalidShardPayload else decode_bytes len s.

Definition decode_shard (s : bytes) : wire ShardQueryResponse :=
  let? (tag, s) := decode_header SHARD_RESPONSE_MAGIC s in
  let? outcome := query_outcome_of tag in
  let? (hits, s) := decode_u64 s in
  let? (count, s) := decode_u32 s in
  let? (control_len, s) := decode_u32 s in
  let? _ := reject_if ((MAX_SHARDS <? count) || negb (id_len control_len)) InvalidShardPayload in
  let? (control, s) := decode_bytes control_len s in
  let? (leases, s) := decode_repeat (Z.to_nat count) decode_shard_lease s in
  let? _ := finish s in
  let r := mkShardResponse outcome hits leases control in
  let? _ := validate_shard r in
  Ok r.
