(* ===== verification/CacheProtocolSpec.v ===== *)
(** * Round trips of the cache protocol

    Every message is decoded to what was encoded, and everything that is decoded is the encoding of
    its result: the protocol is unambiguous and has one encoding per message. *)
From S2P Require Import Prelude Containers State Recovery Words Wire CacheProtocol.

Local Open Scope Z_scope.
Local Open Scope rust_scope.

#[local] Opaque u16_le u32_le u64_le i32_le.

(** ** Primitive steps *)

Lemma dec_u16 v s : 0 <= v <= 65535 -> decode_u16 (u16_le v ++ s) = Ok (v, s).
Proof. intros Hv. by apply (format_decode v). Qed.
Lemma dec_u32 v s : 0 <= v <= u32_max -> decode_u32 (u32_le v ++ s) = Ok (v, s).
Proof. intros Hv. by apply (format_decode v). Qed.
Lemma dec_u64 v s : 0 <= v <= u64_max -> decode_u64 (u64_le v ++ s) = Ok (v, s).
Proof. intros Hv. by apply (format_decode v). Qed.
Lemma dec_i32 v s : is_i32 v -> decode_i32 (i32_le v ++ s) = Ok (v, s).
Proof. intros Hv. by apply (format_decode v). Qed.
Lemma dec_string b n field s : n = zlen b -> utf8_valid b = true -> decode_string n field (b ++ s) = Ok (b, s).
Proof. intros -> Hu. apply (format_decode (Format := string_format (zlen b) field (zlen_nonneg b)) b); auto. Qed.

Lemma inv_u16 s v s' : decode_u16 s = Ok (v, s') -> 0 <= v <= 65535 /\ s = u16_le v ++ s'.
Proof. intros [Hv (b & [= <-] & ->)]%format_encode. done. Qed.
Lemma inv_u32 s v s' : decode_u32 s = Ok (v, s') -> 0 <= v <= u32_max /\ s = u32_le v ++ s'.
Proof. intros [Hv (b & [= <-] & ->)]%format_encode. done. Qed.
Lemma inv_u64 s v s' : decode_u64 s = Ok (v, s') -> 0 <= v <= u64_max /\ s = u64_le v ++ s'.
Proof. intros [Hv (b & [= <-] & ->)]%format_encode. done. Qed.
Lemma inv_i32 s v s' : decode_i32 s = Ok (v, s') -> is_i32 v /\ s = i32_le v ++ s'.
Proof. intros [Hv (b & [= <-] & ->)]%format_encode. done. Qed.
Lemma inv_string n field s b s' :
  0 <= n -> decode_string n field s = Ok (b, s') -> (zlen b = n /\ utf8_valid b = true) /\ s = b ++ s'.
Proof.
  intros Hn Hd. apply (format_encode (Format := string_format n field Hn)) in Hd as [Hb (x & [= <-] & ->)]. done.
Qed.

Lemma dec_header m t s : 0 <= m <= u32_max -> 0 <= t <= 65535 -> decode_header m (header m t ++ s) = Ok (t, s).
Proof.
  intros Hm Ht. unfold decode_header, header, expect_magic, expect_version. rewrite <- !app_assoc, dec_u32 by done.
  rewrite Z.eqb_refl, dec_u16 by done. simpl. by apply dec_u16.
Qed.
Lemma inv_header m s t s' : decode_header m s = Ok (t, s') -> 0 <= t <= 65535 /\ s = header m t ++ s'.
Proof.
  unfold decode_header, expect_magic, expect_version, header. destruct (decode_u32 s) as [[a t1]|] eqn:E; [|done].
  apply inv_u32 in E as [_ ->]. destruct (Z.eqb_spec a m) as [->|]; [|done].
  destruct (decode_u16 t1) as [[v t2]|] eqn:E; [|done]. apply inv_u16 in E as [_ ->].
  destruct (Z.eqb_spec v CACHE_PROTOCOL_VERSION) as [->|]; [|done]. intros [Ht ->]%inv_u16. by rewrite <- !app_assoc.
Qed.
Lemma dec_plain m s : 0 <= m <= u32_max -> decode_plain_header m (header m 0 ++ s) = Ok (tt, s).
Proof. intros Hm. unfold decode_plain_header. by rewrite dec_header. Qed.
Lemma inv_plain m s u s' : decode_plain_header m s = Ok (u, s') -> s = header m 0 ++ s'.
Proof.
  unfold decode_plain_header. destruct (decode_header m s) as [[t t1]|] eqn:E; [|done]. apply inv_header in E as [_ ->].
  destruct (Z.eqb_spec t 0) as [->|]; [|done]. by intros [= _ <-].
Qed.

Lemma finish_nil : finish [] = Ok tt.
Proof. done. Qed.
Lemma inv_finish s u : finish s = Ok u -> s = [].
Proof. unfold finish. destruct (Z.eqb_spec (zlen s) 0) as [Hz|]; [|done]. intros _. by destruct s. Qed.
Lemma inv_reject b e u : reject_if b e = Ok u -> b = false.
Proof. by destruct b. Qed.
Lemma checked_u32_Ok v field : v <= u32_max -> checked_u32 v field = Ok v.
Proof. intros Hv. unfold checked_u32. by rewrite (proj2 (Z.leb_le _ _)). Qed.
Lemma inv_checked v field n : checked_u32 v field = Ok n -> v <= u32_max /\ n = v.
Proof. unfold checked_u32. destruct (Z.leb_spec v u32_max); [|done]. by intros [= <-]. Qed.

Lemma decode_bytes_all b n : n = zlen b -> decode_bytes n b = Ok (b, []).
Proof. intros ->. rewrite <- (app_nil_r b) at 2. by apply decode_bytes_app. Qed.
Lemma dec_string_all b n field : n = zlen b -> utf8_valid b = true -> decode_string n field b = Ok (b, []).
Proof. intros -> Hu. rewrite <- (app_nil_r b) at 2. by apply dec_string. Qed.

(** The next step of a decoder on an encoding, and of a decoder that succeeded. *)
Ltac wire_side := first [done | assumption | apply zlen_nonneg | (unfold u32_max, u64_max in *; lia) | (split; [apply zlen_nonneg | done])].
Ltac wire_step :=
  first [ rewrite dec_plain by wire_side | rewrite dec_header by wire_side | rewrite dec_u16 by wire_side
        | rewrite dec_u32 by wire_side | rewrite dec_u64 by wire_side | rewrite dec_i32 by wire_side
        | rewrite dec_string by wire_side | rewrite decode_bytes_app by wire_side
        | rewrite dec_string_all by wire_side | rewrite decode_bytes_all by wire_side | rewrite finish_nil ];
  cbv beta iota.
Ltac wire_inv H :=
  match type of H with
  | match ?d with Ok _ => _ | Err _ => _ end = Ok _ =>
      let E := fresh "E" in let v := fresh "v" in let t := fresh "t" in let Hv := fresh "Hv" in let Hu := fresh "Hu" in
      match type of d with
      | result (_ * bytes) _ => destruct d as [[v t]|] eqn:E; [|discriminate H]
      | _ => destruct d as [v|] eqn:E; [|discriminate H]
      end;
      lazymatch type of E with
      | decode_u16 _ = _ => apply inv_u16 in E as [Hv ->]
      | decode_u32 _ = _ => apply inv_u32 in E as [Hv ->]
      | decode_u64 _ = _ => apply inv_u64 in E as [Hv ->]
      | decode_i32 _ = _ => apply inv_i32 in E as [Hv ->]
      | decode_header _ _ = _ => apply inv_header in E as [Hv ->]
      | decode_plain_header _ _ = _ => apply inv_plain in E as ->
      | decode_bytes _ _ = _ => apply decode_bytes_inv in E as [Hv ->]; [|unfold u32_max, u64_max in *; lia]
      | decode_string _ _ _ = _ => apply inv_string in E as [[Hv Hu] ->]; [|unfold u32_max, u64_max in *; lia]
      | finish _ = _ => apply inv_finish in E as ->
      | reject_if _ _ = _ => apply inv_reject in E
      | checked_u32 _ _ = _ => apply inv_checked in E as [Hv ->]
      | _ => idtac
      end
  end.

(** ** The interface of a message *)

Class Codec (M : Type) := {
  wf : M -> Prop;
  encode : M -> wire bytes;
  decode : bytes -> wire M
}.

(** Rust slices are at most [isize::MAX] bytes long. *)
Class CodecLaws (M : Type) `{Codec M} : Prop := {
  decode_encode m b : wf m -> encode m = Ok b -> decode b = Ok m;
  encode_decode m b : zlen b <= isize_max -> decode b = Ok m -> wf m /\ encode m = Ok b
}.

(** ** Tickets, cancellation and release *)

Definition ticket_wf (t : QueryTicket) : Prop := is_u64 (operation_id t) /\ is_u64 (revision t).

#[export] Instance ticket_format : Format ticket_wf encode_ticket decode_ticket.
Proof.
  constructor.
  - intros [o r] b s [Ho Hr]. unfold encode_ticket, decode_ticket, is_u64 in *. simpl in *.
    destruct ((o =? 0) || (r =? 0)) eqn:E; [done|]. intros [= <-]. rewrite <- app_assoc. do 2 wire_step. by rewrite E.
  - intros s t s' H. unfold decode_ticket in H. do 2 wire_inv H. destruct (_ || _) eqn:E; [done|]. injection H as <- <-.
    split; [done|]. unfold encode_ticket. simpl. rewrite E. eexists. split; [done|]. by rewrite <- app_assoc.
Qed.

#[export] Instance cancel_codec : Codec CancelQueryRequest := {
  wf r := ticket_wf (cancel_ticket r); encode := encode_cancel; decode := decode_cancel
}.
#[export] Instance cancel_laws : CodecLaws CancelQueryRequest.
Proof.
  constructor; cbn [wf encode decode cancel_codec].
  - intros [t] b Ht. unfold encode_cancel, decode_cancel. simpl. destruct (encode_ticket t) as [bt|] eqn:E; [|done]. intros [= <-].
    wire_step. rewrite <- (app_nil_r bt), (format_decode t bt [] Ht E). done.
  - intros m b _ H. unfold decode_cancel in H. wire_inv H. destruct (decode_ticket _) as [[tk s]|] eqn:E; [|done].
    apply format_encode in E as [Ht (bt & Hb & ->)]. wire_inv H. injection H as <-. split; [done|].
    unfold encode_cancel. simpl. by rewrite Hb, app_nil_r.
Qed.

#[export] Instance release_codec : Codec ReleaseRequest := {
  wf r := release_lease r <> []; encode := encode_release; decode := decode_release
}.
#[export] Instance release_laws : CodecLaws ReleaseRequest.
Proof.
  constructor; cbn [wf encode decode release_codec].
  - intros [l] b Hl. unfold encode_release, decode_release. cbn [release_lease] in *. intros H. wire_inv H. injection H as <-.
    do 4 wire_step. by destruct l.
  - intros m b _ H. unfold decode_release in H. do 4 wire_inv H. match type of H with context [zlen ?x =? 0] => destruct (Z.eqb_spec (zlen x) 0) as [|Hz]; [done|] end. injection H as <-.
    unfold encode_release. cbn [release_lease]. split; [by intros ->|]. rewrite checked_u32_Ok by wire_side. rewrite app_nil_r. congruence.
Qed.

(** ** Restore *)

(** A list with its length in front. *)
Lemma prefixed_list_format {A} (P : A -> Prop) e d width field :
  Format P e d -> 0 < width -> (forall a x, e a = Ok x -> width <= zlen x) ->
  Format (Forall P)
    (fun l => let? n := checked_u32 (zlen l) field in let? b := encode_all e l in Ok (u32_le n ++ b))
    (fun s => let? (n, s) := decode_u32 s in decode_counted n width d s).
Proof.
  intros HF Hw Hmin. constructor.
  - intros l b s Hl H. wire_inv H. destruct (encode_all e l) as [bl|] eqn:El; [|done]. injection H as <-.
    rewrite <- app_assoc. wire_step.
    apply (format_decode (Format := counted_format P e d (zlen l) width (zlen_nonneg l) Hw Hmin)); done.
  - intros s l s' H. wire_inv H.
    assert (Hz : 0 <= v) by lia. apply (format_encode (Format := counted_format P e d v width Hz Hw Hmin)) in H as [[Hl Hall] (b & Hb & ->)].
    split; [done|]. exists (u32_le v ++ b). rewrite Hl, checked_u32_Ok, Hb by wire_side. by rewrite <- app_assoc.
Qed.

Lemma push_bytes_min field a x : push_bytes a field = Ok x -> 4 <= zlen x.
Proof. intros [_ ->]%push_bytes_Ok. rewrite zlen_app, zlen_u32_le. pose proof (zlen_nonneg a). lia. Qed.

#[export] Instance layer_group_format :
  Format (Forall (fun l => utf8_valid l = true)) encode_layer_group decode_layer_group.
Proof. apply (prefixed_list_format _ _ _ 4); [apply _|lia|intros a x; apply push_bytes_min]. Qed.

Definition target_wf (o : option Z) : Prop := match o with Some v => 0 <= v < u32_max | None => True end.

#[export] Instance target_format : Format target_wf encode_target decode_target.
Proof.
  constructor.
  - intros o b s Ho [= <-]. unfold decode_target. destruct o as [v|]; simpl in *.
    + wire_step. by rewrite (proj2 (Z.eqb_neq v u32_max)) by lia.
    + by wire_step.
  - intros s o s' H. unfold decode_target in H. wire_inv H. injection H as <- <-.
    destruct (Z.eqb_spec v u32_max) as [->|]; simpl; (split; [try done; lia|]); by eexists.
Qed.

#[export] Instance targets_format : Format (Forall target_wf) encode_targets decode_targets.
Proof. apply (prefixed_list_format _ _ _ 4); [apply _|lia|]. intros a x [= <-]. by rewrite zlen_u32_le. Qed.

Definition load_wf (l : RestoreLease) : Prop := restore_lease l <> [] /\ Forall (Forall target_wf) (block_ids_by_group l).

Lemma encode_targets_min a x : encode_targets a = Ok x -> 4 <= zlen x.
Proof.
  unfold encode_targets. intros H. wire_inv H. destruct (encode_all _ _) as [b|]; [|done]. injection H as <-.
  rewrite zlen_app, zlen_u32_le. pose proof (zlen_nonneg b). lia.
Qed.

#[export] Instance load_format : Format load_wf encode_load decode_load.
Proof.
  pose proof (prefixed_list_format _ _ _ 4 "block_ids_by_group"%string targets_format ltac:(lia) encode_targets_min) as HF.
  constructor.
  - intros [lease groups] b s [Hne Hall]. unfold encode_load, decode_load. cbn [restore_lease block_ids_by_group] in *.
    destruct (push_bytes lease "lease"%string) as [bl|] eqn:El; [|done]. apply push_bytes_Ok in El as [Hl ->]. intros H.
    wire_inv H. destruct (encode_all encode_targets groups) as [bg|] eqn:Eg; [|done]. injection H as <-. rewrite <- !app_assoc.
    do 2 wire_step. rewrite (proj2 (Z.eqb_neq (zlen lease) 0)) by (by destruct lease).
    pose proof (format_decode (Format := HF) groups (u32_le (zlen groups) ++ bg) s Hall) as Hd. cbv beta in Hd.
    rewrite checked_u32_Ok, Eg in Hd by done. specialize (Hd eq_refl). rewrite <- app_assoc in Hd.
    destruct (decode_u32 _) as [[n t]|]; [|done]. by rewrite Hd.
  - intros s l s' H. unfold decode_load in H. do 2 wire_inv H. destruct (Z.eqb_spec (zlen v0) 0) as [|Hz]; [done|].
    destruct (decode_u32 t0) as [[n t]|] eqn:E1; [|done]. destruct (decode_counted n 4 decode_targets t) as [[groups u]|] eqn:E2; [|done].
    injection H as <- <-. assert (Hd : (let? (n, s) := decode_u32 t0 in decode_counted n 4 decode_targets s) = Ok (groups, u)) by (by rewrite E1).
    apply (format_encode (Format := HF)) in Hd as [Hall (bg & Hbg & ->)]. split.
    { split; [|done]. cbn [restore_lease]. by intros ->. }
    unfold encode_load. cbn [restore_lease block_ids_by_group]. unfold push_bytes. rewrite Hv0, checked_u32_Ok by wire_side.
    destruct (checked_u32 (zlen groups) _) as [k|] eqn:Ek; [|done]. destruct (encode_all encode_targets groups) as [bs|]; [|done].
    injection Hbg as <-. eexists. split; [done|]. by rewrite <- !app_assoc.
Qed.

(** The sizing pass of a loop is the length of what the loop writes. *)
Lemma encode_all_total {A} (e : A -> wire bytes) (f : A -> list SizeOp) l b :
  (forall a x, e a = Ok x -> zlen x = total_size (f a)) -> encode_all e l = Ok b -> zlen b = total_size (flat_map f l).
Proof.
  intros Hf. revert b. induction l as [|a l IH]; intros b; simpl; [by intros [= <-]|].
  destruct (e a) as [ba|] eqn:Ea; [|done]. destruct (encode_all e l) as [bl|]; [|done]. intros [= <-].
  rewrite zlen_app, total_size_app, (Hf a ba Ea), (IH bl eq_refl). done.
Qed.

Lemma Forall_flat_map_fine {A} (f : A -> list SizeOp) l : (forall a, a ∈ l -> Forall op_fine (f a)) -> Forall op_fine (flat_map f l).
Proof.
  intros Hf. induction l as [|a l IH]; simpl; [done|]. apply Forall_app. split; [apply Hf; left|].
  apply IH. intros x Hx. apply Hf. by right.
Qed.

Ltac fine := repeat (apply Forall_cons; split; [simpl; split; [first [apply zlen_nonneg | lia]|lia]|]); try done.

Lemma layer_group_size g x :
  encode_layer_group g = Ok x -> zlen x = total_size (group_sizes g).
Proof.
  unfold encode_layer_group. intros H. wire_inv H. destruct (encode_all _ g) as [b|] eqn:E; [|done]. injection H as <-.
  simpl. rewrite zlen_app, zlen_u32_le. apply (encode_all_total _ (fun layer => [Add 1 4; Add (zlen layer) 1])) in E; [lia|].
  intros a y [_ ->]%push_bytes_Ok. simpl. rewrite zlen_app, zlen_u32_le. lia.
Qed.

Lemma targets_size g x : encode_targets g = Ok x -> zlen x = total_size [Add 1 4; Add (zlen g) 4].
Proof.
  unfold encode_targets. intros H. wire_inv H. destruct (encode_all _ g) as [b|] eqn:E; [|done]. injection H as <-.
  simpl. rewrite zlen_app, zlen_u32_le. assert (zlen b = zlen g * 4); [|lia]. clear -E. revert b E.
  induction g as [|o g IH]; intros b; simpl; [by intros [= <-]|]. destruct (encode_all encode_target g) as [bs|]; [|done].
  intros [= <-]. rewrite zlen_app, zlen_u32_le, zlen_cons, (IH bs eq_refl). lia.
Qed.

Lemma load_size l x : encode_load l = Ok x -> zlen x = total_size (load_sizes l).
Proof.
  unfold encode_load. intros H. wire_inv H. apply push_bytes_Ok in E as [_ ->]. wire_inv H.
  destruct (encode_all _ _) as [b|] eqn:Eb; [|done]. injection H as <-. unfold load_sizes. simpl total_size.
  rewrite !zlen_app, !zlen_u32_le, (encode_all_total _ _ _ _ targets_size Eb). lia.
Qed.

Lemma restore_fine r : Forall op_fine (restore_sizes r).
Proof.
  unfold restore_sizes. fine. apply Forall_app. split; apply Forall_flat_map_fine; intros a _; fine;
    apply Forall_flat_map_fine; intros x _; fine.
Qed.

(** The names are UTF-8, no target is the sentinel and no lease is empty. *)
Definition restore_wf (r : RestoreRequest) : Prop :=
  is_u32 (rr_tp_rank r) /\ is_i32 (rr_device_id r) /\ utf8_valid (rr_instance_id r) = true /\
  Forall (Forall (fun l => utf8_valid l = true)) (layer_groups r) /\ Forall load_wf (loads r).

#[export] Instance restore_codec : Codec RestoreRequest := { wf := restore_wf; encode := encode_restore; decode := decode_restore }.

Lemma layer_group_min g x : encode_layer_group g = Ok x -> 4 <= zlen x.
Proof.
  intros ->%layer_group_size. simpl. assert (0 <= total_size (flat_map (fun layer => [Add 1 4; Add (zlen layer) 1]) g)); [|lia].
  apply total_size_nonneg, Forall_flat_map_fine. intros a _. fine.
Qed.
Lemma load_min l x : encode_load l = Ok x -> 8 <= zlen x.
Proof.
  intros ->%load_size. unfold load_sizes. simpl. pose proof (zlen_nonneg (restore_lease l)).
  assert (0 <= total_size (flat_map (fun targets => [Add 1 4; Add (zlen targets) 4]) (block_ids_by_group l))); [|lia].
  apply total_size_nonneg, Forall_flat_map_fine. intros a _. fine.
Qed.

Definition groups_format n (Hn : 0 <= n) := counted_format _ _ _ n 4 Hn ltac:(lia) layer_group_min.
Definition loads_format n (Hn : 0 <= n) := counted_format _ _ _ n 8 Hn ltac:(lia) load_min.

#[export] Instance restore_laws : CodecLaws RestoreRequest.
Proof.
  constructor; cbn [wf encode decode restore_codec].
  - intros [inst tp dev groups loads] b (Htp & Hdev & Hu & Hg & Hl). unfold encode_restore, decode_restore. cbn in Htp, Hdev, Hu, Hg, Hl.
    cbn [rr_instance_id rr_tp_rank rr_device_id layer_groups CacheProtocol.loads]. intros H. do 4 wire_inv H.
    destruct (encode_all encode_layer_group groups) as [bg|] eqn:Eg; [|done].
    destruct (encode_all encode_load loads) as [bl|] eqn:El; [|done]. injection H as <-. do 7 wire_step.
    rewrite (format_decode (Format := groups_format (zlen groups) (zlen_nonneg groups)) groups bg bl) by done.
    rewrite <- (app_nil_r bl).
    rewrite (format_decode (Format := loads_format (zlen loads) (zlen_nonneg loads)) loads bl []) by done. done.
  - intros m b Hb H. unfold decode_restore in H. do 7 wire_inv H.
    destruct (decode_counted v3 4 decode_layer_group _) as [[groups t']|] eqn:Eg; [|done].
    apply (format_encode (Format := groups_format v3 ltac:(lia))) in Eg as [[Hg1 Hg2] (bg & Eg & ->)].
    destruct (decode_counted v4 8 decode_load _) as [[loads t'']|] eqn:El; [|done].
    apply (format_encode (Format := loads_format v4 ltac:(lia))) in El as [[Hl1 Hl2] (bl & El & ->)].
    wire_inv H. injection H as <-. split; [done|]. unfold encode_restore.
    cbn [rr_instance_id rr_tp_rank rr_device_id layer_groups CacheProtocol.loads].
    rewrite run_sizes_Ok; [|done|apply restore_fine|].
    + rewrite Hv4, Hg1, Hl1, !checked_u32_Ok, Eg, El by wire_side. by rewrite app_nil_r.
    + unfold restore_sizes. cbn [rr_instance_id layer_groups CacheProtocol.loads]. simpl total_size. rewrite total_size_app.
      rewrite <- (encode_all_total _ _ _ _ layer_group_size Eg), <- (encode_all_total _ _ _ _ load_size El).
      unfold RESTORE_HEADER_BYTES, header in *. autorewrite with wire_len in Hb. lia.
Qed.

(** ** Publish *)

#[export] Instance block_format : Format (fun p => is_u32 p.1) encode_block decode_block.
Proof.
  constructor.
  - intros [id h] b s Hid H. unfold encode_block, decode_block in *. cbn [fst snd] in *. wire_inv H. injection H as <-.
    rewrite <- !app_assoc. by do 3 wire_step.
  - intros s p s' H. unfold decode_block in H. do 3 wire_inv H. injection H as <- <-. split; [done|].
    unfold encode_block. cbn [fst snd]. rewrite Hv1, checked_u32_Ok by wire_side. eexists. split; [done|]. by rewrite <- !app_assoc.
Qed.

Lemma encode_block_size p x : encode_block p = Ok x -> zlen x = 8 + zlen p.2.
Proof. unfold encode_block. intros H. wire_inv H. injection H as <-. autorewrite with wire_len. lia. Qed.
Lemma encode_block_min p x : encode_block p = Ok x -> 8 <= zlen x.
Proof. intros ->%encode_block_size. pose proof (zlen_nonneg p.2). lia. Qed.

Definition blocks_format n (Hn : 0 <= n) := counted_format _ _ _ n 8 Hn ltac:(lia) encode_block_min.

Definition part_wf (q : bytes * list (Z * bytes)) : Prop := utf8_valid q.1 = true /\ Forall (fun p => is_u32 p.1) q.2.

#[export] Instance part_format : Format part_wf encode_part decode_part.
Proof.
  constructor.
  - intros [name blocks] b s [Hu Hb]. unfold encode_part, decode_part. cbn [fst snd] in *. intros H. do 2 wire_inv H.
    destruct (encode_all encode_block blocks) as [bb|] eqn:Eb; [|done]. injection H as <-. rewrite <- !app_assoc. do 3 wire_step.
    rewrite (format_decode (Format := blocks_format (zlen blocks) (zlen_nonneg blocks)) blocks bb s) by done. done.
  - intros s q s' H. unfold decode_part in H. do 3 wire_inv H.
    destruct (decode_counted v0 8 decode_block _) as [[blocks t']|] eqn:Eb; [|done].
    apply (format_encode (Format := blocks_format v0 ltac:(lia))) in Eb as [[Hb1 Hb2] (bb & Eb & ->)].
    injection H as <- <-. split; [done|]. unfold encode_part. cbn [fst snd]. rewrite Hv1, Hb1, !checked_u32_Ok, Eb by wire_side.
    eexists. split; [done|]. by rewrite <- !app_assoc.
Qed.

(** The bytes of a part are those its layer is sized with. *)
Definition part_total (q : bytes * list (Z * bytes)) : Z := 8 + zlen q.1 + list_sum (fun p => 8 + zlen p.2) q.2.

Lemma encode_part_size q x : encode_part q = Ok x -> zlen x = part_total q.
Proof.
  unfold encode_part, part_total. intros H. do 2 wire_inv H. destruct (encode_all encode_block q.2) as [bb|] eqn:Eb; [|done].
  injection H as <-. autorewrite with wire_len. assert (zlen bb = list_sum (fun p => 8 + zlen p.2) q.2); [|lia].
  clear -Eb. revert bb Eb. induction (q.2) as [|p l IH]; intros bb; simpl; [by intros [= <-]|].
  destruct (encode_block p) as [x|] eqn:E; [|done]. destruct (encode_all encode_block l) as [y|]; [|done]. intros [= <-].
  rewrite zlen_app, (encode_block_size p x E), (IH y eq_refl). done.
Qed.
Lemma encode_part_min q x : encode_part q = Ok x -> 8 <= zlen x.
Proof.
  intros ->%encode_part_size. unfold part_total. pose proof (zlen_nonneg q.1).
  assert (0 <= list_sum (fun p => 8 + zlen p.2) q.2); [|lia]. apply list_sum_nonneg. intros p _. pose proof (zlen_nonneg p.2). lia.
Qed.
Definition parts_format n (Hn : 0 <= n) := counted_format _ _ _ n 8 Hn ltac:(lia) encode_part_min.

Lemma validate_layers_Ok ls u :
  validate_publish_layers ls = Ok u <-> Forall (fun l => zlen (pl_block_ids l) = zlen (pl_block_hashes l)) ls.
Proof.
  induction ls as [|l ls IH]; simpl; [destruct u; split; done|]. rewrite Forall_cons.
  destruct (Z.eqb_spec (zlen (pl_block_ids l)) (zlen (pl_block_hashes l))) as [He|Hne]; simpl; [rewrite IH; tauto|].
  split; [done|]. by intros [? _].
Qed.

(** What a range selects of a layer whose ids and hashes are parallel. *)
Lemma selected_range range l r :
  match range with Some (a, _) => 0 <= a | None => True end -> selected range l = Some r ->
  0 <= r.1 <= r.2 /\ r.2 <= zlen (pl_block_ids l).
Proof.
  unfold selected. intros Ha. destruct range as [[a b]|].
  - destruct (Z.leb_spec (Z.min b (zlen (pl_block_ids l))) a); [done|]. intros [= <-]. simpl. lia.
  - intros [= <-]. simpl. pose proof (zlen_nonneg (pl_block_ids l)). lia.
Qed.

Lemma zlen_slice {A} r (l : list A) : 0 <= r.1 <= r.2 -> r.2 <= zlen l -> zlen (CacheProtocol.slice r l) = r.2 - r.1.
Proof. intros H1 H2. unfold CacheProtocol.slice, zlen in *. rewrite length_take, length_drop. lia. Qed.

Lemma elem_of_slice {A} (x : A) r l : x ∈ CacheProtocol.slice r l -> x ∈ l.
Proof.
  unfold CacheProtocol.slice. intros [i Hi]%list_elem_of_lookup. apply lookup_take_Some in Hi as [Hi _].
  rewrite lookup_drop in Hi. by eapply list_elem_of_lookup_2.
Qed.

Definition layer_sizes (range : option (Z * Z)) (l : PublishLayer) : list SizeOp :=
  match selected range l with
  | None => []
  | Some r =>
      Check (zlen (layer_name l)) "layer_name"%string :: Check (r.2 - r.1) "block_ids"%string ::
      Add 1 8 :: Add (zlen (layer_name l)) 1 :: Add (r.2 - r.1) 8 ::
      flat_map (fun hash => [Check (zlen hash) "block_hash"%string; Add (zlen hash) 1]) (CacheProtocol.slice r (pl_block_hashes l))
  end.

Lemma hashes_total hashes :
  total_size (flat_map (fun hash : bytes => [Check (zlen hash) "block_hash"%string; Add (zlen hash) 1]) hashes) = list_sum zlen hashes.
Proof. induction hashes as [|h hashes IH]; simpl; [done|]. rewrite IH. unfold list_sum. simpl. lia. Qed.

Lemma zip_total (ids : list Z) (hashes : list bytes) :
  length ids = length hashes -> list_sum (fun p => 8 + zlen p.2) (zip ids hashes) = 8 * zlen ids + list_sum zlen hashes.
Proof.
  revert hashes. induction ids as [|i ids IH]; intros [|h hashes]; simpl; try done. intros Hl. rewrite zlen_cons.
  unfold list_sum in *. simpl. rewrite IH by lia. lia.
Qed.

Definition start_ok (range : option (Z * Z)) : Prop := match range with Some (a, _) => 0 <= a | None => True end.

Lemma layer_sizes_total range l :
  start_ok range -> zlen (pl_block_ids l) = zlen (pl_block_hashes l) ->
  total_size (layer_sizes range l) = match layer_part range l with Some q => part_total q | None => 0 end.
Proof.
  intros Hr Hl. unfold layer_sizes, layer_part. destruct (selected range l) as [r|] eqn:E; [|done].
  apply selected_range in E as [H1 H2]; [|done]. unfold part_total. simpl total_size. cbn [fst snd]. rewrite hashes_total.
  rewrite zip_total by (apply Nat2Z.inj; change (zlen (CacheProtocol.slice r (pl_block_ids l)) = zlen (CacheProtocol.slice r (pl_block_hashes l)));
    rewrite !zlen_slice; lia).
  rewrite zlen_slice by done. lia.
Qed.

Lemma publish_total range ls :
  start_ok range -> Forall (fun l => zlen (pl_block_ids l) = zlen (pl_block_hashes l)) ls ->
  total_size (publish_sizes range ls) = list_sum part_total (omap (layer_part range) ls).
Proof.
  intros Hr. induction 1 as [|l ls Hl _ IH]; [done|]. change (publish_sizes range (l :: ls)) with (layer_sizes range l ++ publish_sizes range ls).
  rewrite total_size_app, (layer_sizes_total range l Hr Hl), IH. simpl. by destruct (layer_part range l).
Qed.

Lemma parts_total qs x : encode_all encode_part qs = Ok x -> zlen x = list_sum part_total qs.
Proof.
  revert x. induction qs as [|q qs IH]; intros x; simpl; [by intros [= <-]|].
  destruct (encode_part q) as [y|] eqn:E; [|done]. destruct (encode_all encode_part qs) as [z|]; [|done]. intros [= <-].
  rewrite zlen_app, (encode_part_size q y E), (IH z eq_refl). done.
Qed.

Definition publish_wf (p : PublishRequest) : Prop :=
  is_u32 (pr_tp_rank p) /\ is_u32 (pr_pp_rank p) /\ is_i32 (pr_device_id p) /\ utf8_valid (pr_instance_id p) = true /\
  zlen (registration_generation p) = 16 /\
  Forall (fun l => utf8_valid (layer_name l) = true /\ Forall is_u32 (pl_block_ids l)) (pr_layers p).

(** The part of a request that a range sends. *)
Definition chunk (p : PublishRequest) (range : option (Z * Z)) : PublishRequest :=
  mkPublish (pr_instance_id p) (registration_generation p) (pr_tp_rank p) (pr_pp_rank p) (pr_device_id p)
    (layer_of <$> omap (layer_part range) (pr_layers p)).

Abbreviation add_nonneg := (fun o => match o with Check _ _ => True | Add c w => 0 <= c /\ 0 <= w end).

Lemma publish_sizes_nonneg range ls : start_ok range -> Forall add_nonneg (publish_sizes range ls).
Proof.
  intros Hr. induction ls as [|l ls IH]; [constructor|].
  change (publish_sizes range (l :: ls)) with (layer_sizes range l ++ publish_sizes range ls). apply Forall_app. split; [|exact IH].
  unfold layer_sizes. destruct (selected range l) as [r|] eqn:Es; [|constructor]. apply selected_range in Es as [H1 H2]; [|done].
  do 2 (constructor; [done|]). constructor; [lia|]. constructor; [split; [apply zlen_nonneg|lia]|]. constructor; [lia|].
  induction (CacheProtocol.slice r (pl_block_hashes l)) as [|h hs IHh]; simpl; [constructor|].
  constructor; [done|]. constructor; [split; [apply zlen_nonneg|lia]|done].
Qed.

Lemma encoded_len_inv p range n :
  start_ok range -> encoded_len p range = Ok n ->
  zero_generation (registration_generation p) = false /\
  Forall (fun l => zlen (pl_block_ids l) = zlen (pl_block_hashes l)) (pr_layers p) /\
  n = PUBLISH_HEADER_BYTES + zlen (pr_instance_id p) + list_sum part_total (omap (layer_part range) (pr_layers p)).
Proof.
  intros Hr H. unfold encoded_len in H. destruct (zero_generation _); [done|]. wire_inv H. apply validate_layers_Ok in E.
  apply run_sizes_inv in H as [-> _].
  - split_and!; [done..|]. simpl total_size. rewrite (publish_total range) by done. lia.
  - done.
  - constructor; [done|]. constructor; [done|]. constructor; [split; [apply zlen_nonneg|lia]|]. by apply publish_sizes_nonneg.
Qed.

(** A range is sent as its chunk, in exactly the bytes that [encoded_len] announces. *)
Lemma encode_range_chunk p range b :
  publish_wf p -> start_ok range -> encode_range p range = Ok b ->
  decode_publish b = Ok (chunk p range) /\ encoded_len p range = Ok (zlen b).
Proof.
  intros (Htp & Hpp & Hdev & Hu & Hgen & Hls) Hr H. unfold encode_range in H.
  destruct (encoded_len p range) as [n|] eqn:En; [|done]. apply encoded_len_inv in En as (Hz & Hshape & ->); [|done].
  do 2 wire_inv H. destruct (encode_all encode_part _) as [bp|] eqn:Ep; [|done]. injection H as <-. set (qs := omap (layer_part range) (pr_layers p)) in *. split.
  - unfold decode_publish. do 6 wire_step. rewrite decode_bytes_app by done. cbv beta iota. rewrite Hz. unfold reject_if at 1. wire_step.
    rewrite <- (app_nil_r bp).
    rewrite (format_decode (Format := parts_format (zlen qs) (zlen_nonneg qs)) qs bp []); [|split; [done|]|done].
    + cbv beta iota. rewrite finish_nil. rewrite (proj2 (validate_layers_Ok _ tt)); [done|].
      apply Forall_fmap, Forall_forall. intros q _. cbn. unfold zlen. by rewrite !length_fmap.
    + apply Forall_forall. intros q (l & Hl & Hq)%list_elem_of_omap. unfold layer_part in Hq.
      destruct (selected range l) as [r|]; [|done]. injection Hq as <-. destruct (proj1 (Forall_forall _ _) Hls l Hl) as [Hn Hids].
      split; [done|]. cbn. apply Forall_forall. intros [i h] Hin%elem_of_zip_l. cbn in *.
      apply (proj1 (Forall_forall _ _) Hids). by eapply elem_of_slice.
  - f_equal. apply parts_total in Ep. unfold PUBLISH_HEADER_BYTES, header. autorewrite with wire_len. rewrite Ep, Hgen. lia.
Qed.

#[export] Instance publish_codec : Codec PublishRequest := { wf := publish_wf; encode := encode_publish; decode := decode_publish }.

Lemma slice_all {A} (l : list A) : CacheProtocol.slice (0, zlen l) l = l.
Proof. unfold CacheProtocol.slice, zlen. simpl. rewrite drop_0, take_ge by lia. done. Qed.

Lemma layer_part_all l :
  zlen (pl_block_ids l) = zlen (pl_block_hashes l) -> exists q, layer_part None l = Some q /\ layer_of q = l.
Proof.
  intros Hl. destruct l as [name ids hashes]. unfold layer_part, selected, layer_of. cbn in *. eexists. split; [done|]. cbn.
  rewrite slice_all, Hl, slice_all. unfold zlen in Hl. f_equal; [apply fst_zip; lia|apply snd_zip; lia].
Qed.

Lemma layer_part_of q : layer_part None (layer_of q) = Some q.
Proof.
  destruct q as [name blocks]. unfold layer_part, selected, layer_of. cbn. f_equal. f_equal.
  rewrite slice_all. replace (zlen blocks.*1) with (zlen blocks.*2) by (unfold zlen; by rewrite !length_fmap).
  rewrite slice_all. apply zip_fst_snd.
Qed.

Lemma omap_layers range l ls :
  omap (layer_part range) (l :: ls) =
  match layer_part range l with Some q => q :: omap (layer_part range) ls | None => omap (layer_part range) ls end.
Proof. done. Qed.

Lemma chunk_all p :
  Forall (fun l => zlen (pl_block_ids l) = zlen (pl_block_hashes l)) (pr_layers p) -> chunk p None = p.
Proof.
  intros Hs. destruct p as [inst gen tp pp dev ls]. unfold chunk. cbn in *. f_equal.
  induction Hs as [|l ls Hl _ IH]; [done|]. rewrite omap_layers. destruct (layer_part_all l Hl) as (q & -> & Hq).
  by rewrite fmap_cons, Hq, IH.
Qed.

Lemma encode_part_fine q x : encode_part q = Ok x -> Forall op_fine (layer_sizes None (layer_of q)).
Proof.
  destruct q as [name blocks]. unfold encode_part, layer_sizes, selected. cbn. intros H. do 2 wire_inv H.
  destruct (encode_all encode_block blocks) as [bb|] eqn:Eb; [|done]. clear H.
  assert (Hz : zlen blocks.*1 = zlen blocks) by (unfold zlen; by rewrite length_fmap).
  assert (Hz2 : zlen blocks.*2 = zlen blocks) by (unfold zlen; by rewrite length_fmap). pose proof (zlen_nonneg blocks).
  rewrite Hz. constructor; [done|]. constructor; [cbn; lia|]. fine. rewrite <- Hz2, slice_all.
  clear -Eb. revert bb Eb. induction blocks as [|p bs IH]; intros bb; simpl; [done|].
  destruct (encode_block p) as [y|] eqn:E; [|done]. destruct (encode_all encode_block bs) as [z|]; [|done]. intros _.
  unfold encode_block in E. wire_inv E. constructor; [done|]. fine. by apply (IH z).
Qed.

Lemma encode_parts_fine qs x : encode_all encode_part qs = Ok x -> Forall op_fine (publish_sizes None (layer_of <$> qs)).
Proof.
  revert x. induction qs as [|q qs IH]; intros x H; [constructor|]. cbn [encode_all] in H.
  destruct (encode_part q) as [y|] eqn:E; [|done]. destruct (encode_all encode_part qs) as [z|]; [|done].
  rewrite fmap_cons. change (Forall op_fine (layer_sizes None (layer_of q) ++ publish_sizes None (layer_of <$> qs))).
  apply Forall_app. split; [by eapply encode_part_fine|by apply (IH z)].
Qed.

Lemma parts_of_layers (qs : list (bytes * list (Z * bytes))) : omap (layer_part None) (layer_of <$> qs) = qs.
Proof. induction qs as [|q qs IH]; [done|]. by rewrite fmap_cons, omap_layers, layer_part_of, IH. Qed.

#[export] Instance publish_laws : CodecLaws PublishRequest.
Proof.
  constructor; cbn [wf encode decode publish_codec]; unfold encode_publish.
  - intros p b Hp H. pose proof H as H'. unfold encode_range in H'. destruct (encoded_len p None) as [n|] eqn:En; [|done].
    apply encoded_len_inv in En as (_ & Hs & _); [|done]. destruct (encode_range_chunk p None b Hp Logic.I H) as [-> _]. by rewrite chunk_all.
  - intros m b Hb H. unfold decode_publish in H. do 9 wire_inv H.
    destruct (decode_counted v4 8 decode_part _) as [[qs t']|] eqn:Eq; [|done].
    apply (format_encode (Format := parts_format v4 ltac:(lia))) in Eq as [[Hq1 Hq2] (bp & Ep & ->)].
    do 2 wire_inv H. injection H as <-. apply validate_layers_Ok in E0 as Hshape. split.
    { unfold publish_wf. cbn. split_and!; try done. apply Forall_fmap. eapply Forall_impl; [exact Hq2|].
      intros q [Hu' Hi]. split; [done|]. cbn. by apply Forall_fmap. }
    unfold encode_range, encoded_len. cbn [registration_generation pr_layers pr_instance_id pr_tp_rank pr_pp_rank pr_device_id].
    rewrite E, (proj2 (validate_layers_Ok _ tt) Hshape), run_sizes_Ok.
    + rewrite parts_of_layers, Hv5, Hq1, !checked_u32_Ok, Ep by wire_side. by rewrite app_nil_r.
    + done.
    + constructor; [cbn; unfold u32_max in *; lia|]. constructor; [cbn; unfold zlen; rewrite length_fmap; fold (zlen qs); lia|]. fine.
      by eapply encode_parts_fine.
    + simpl total_size. rewrite (publish_total None) by done. rewrite parts_of_layers, <- (parts_total _ _ Ep).
      unfold PUBLISH_HEADER_BYTES, header in *. autorewrite with wire_len in Hb. lia.
Qed.
