(* ===== verification/CacheQuerySpec.v ===== *)
(** * Round trips of queries, their responses and completion observations *)
From S2P Require Import Prelude Containers State Recovery Words Wire CacheProtocol CacheProtocolSpec.

Local Open Scope Z_scope.
Local Open Scope rust_scope.

#[local] Opaque u16_le u32_le u64_le i32_le.

(** ** Recovery demands *)

Definition range_wf (r : TokenRange) : Prop := is_u64 (start r) /\ is_u64 (end_ r).
Definition group_wf (g : Z * TokenRange) : Prop := is_u32 g.1 /\ range_wf g.2.

#[export] Instance group_format : Format group_wf encode_group decode_group.
Proof.
  constructor.
  - intros [g [a z]] b s (Hg & Ha & Hz). intros [= <-]. unfold decode_group, is_u32, is_u64 in *. cbn in *.
    rewrite <- !app_assoc. by do 3 wire_step.
  - intros s [g r] s' H. unfold decode_group in H. do 3 wire_inv H. injection H as <- <- <-. split; [done|].
    eexists. split; [done|]. by rewrite <- !app_assoc.
Qed.

Lemma encode_group_min g x : encode_group g = Ok x -> 20 <= zlen x.
Proof. intros [= <-]. autorewrite with wire_len. lia. Qed.

Definition demand_wf (d : RecoveryDemand) : Prop :=
  is_u64 (demand_page_tokens d) /\ range_wf (demand_span d) /\ Forall group_wf (demand_groups d).

Definition rgroups_format n (Hn : 0 <= n) := counted_format _ _ _ n 20 Hn ltac:(lia) encode_group_min.

Lemma demand_format group count :
  Format (fun d => demand_wf d /\ validate d group count = Ok tt) encode_demand (decode_demand group count).
Proof.
  constructor.
  - intros [pt [a z] gs] b s [(Hpt & [Ha Hz] & Hgs) Hv]. unfold encode_demand, decode_demand, is_u64 in *. cbn in *. intros H.
    wire_inv H. destruct (encode_all encode_group gs) as [bg|] eqn:Eg; [|done]. injection H as <-. rewrite <- !app_assoc.
    do 4 wire_step. rewrite (format_decode (Format := rgroups_format (zlen gs) (zlen_nonneg gs)) gs bg s) by done.
    cbv beta iota. by rewrite Hv.
  - intros s d s' H. unfold decode_demand in H. do 4 wire_inv H.
    destruct (decode_counted v2 20 decode_group _) as [[gs t']|] eqn:Eg; [|done].
    apply (format_encode (Format := rgroups_format v2 ltac:(lia))) in Eg as [[Hg1 Hg2] (bg & Eg & ->)].
    destruct (validate _ group count) as [[]|] eqn:Ev; [|done]. cbn in H. injection H as <- <-. split; [done|].
    unfold encode_demand. cbn. rewrite Hg1, checked_u32_Ok, Eg by wire_side. eexists. split; [done|]. by rewrite <- !app_assoc.
Qed.

Lemma encode_demand_size d x : encode_demand d = Ok x -> zlen x = 28 + 20 * zlen (demand_groups d).
Proof.
  unfold encode_demand. intros H. wire_inv H. destruct (encode_all encode_group _) as [b|] eqn:Eb; [|done]. injection H as <-.
  autorewrite with wire_len. assert (zlen b = 20 * zlen (demand_groups d)); [|lia]. clear -Eb. revert b Eb.
  induction (demand_groups d) as [|g gs IH]; intros b H; cbn [encode_all] in H; [by injection H as <-|].
  destruct (encode_group g) as [y|] eqn:Ey; [|done]. destruct (encode_all encode_group gs) as [z|]; [|done]. injection H as <-.
  injection Ey as <-. autorewrite with wire_len. rewrite (IH z eq_refl). lia.
Qed.

(** ** Flags *)

Lemma flags_small f : 0 <= f <= 65535 -> Z.land f (Z.lxor 65535 31) = 0 -> 0 <= f < 32.
Proof.
  intros Hf Hz. assert (Z.land f 65535 = f) as He by (change 65535 with (Z.ones 16); rewrite Z.land_ones by lia; apply Z.mod_small; lia).
  change 65535 with (Z.lor 31 (Z.lxor 65535 31)) in He. rewrite Z.land_lor_distr_r, Hz, Z.lor_0_r in He.
  change 31 with (Z.ones 5) in He. rewrite Z.land_ones in He by lia. rewrite <- He. apply Z.mod_pos_bound. lia.
Qed.

Definition bit (f m : Z) : bool := negb (Z.land f m =? 0).
Definition pack_flags (a b c d e : bool) : Z :=
  Z.lor (Z.lor (Z.lor (Z.lor (Z.b2z a) (Z.shiftl (Z.b2z b) 1)) (Z.shiftl (Z.b2z c) 2)) (Z.shiftl (Z.b2z d) 3)) (Z.shiftl (Z.b2z e) 4).

Lemma pack_bits f : 0 <= f < 32 -> pack_flags (bit f 1) (bit f 2) (bit f 4) (bit f 8) (bit f 16) = f.
Proof.
  intros Hf. assert (Hall : Forall (fun f => pack_flags (bit f 1) (bit f 2) (bit f 4) (bit f 8) (bit f 16) = f) (seqZ 0 32))
    by (repeat constructor).
  apply (proj1 (Forall_forall _ _) Hall). apply elem_of_seqZ. lia.
Qed.

Lemma bits_pack a b c d e :
  let f := pack_flags a b c d e in
  0 <= f < 32 /\ Z.land f (Z.lxor 65535 31) = 0 /\ bit f 1 = a /\ bit f 2 = b /\ bit f 4 = c /\ bit f 8 = d /\ bit f 16 = e.
Proof. by destruct a, b, c, d, e. Qed.

(** ** Queries *)

Definition query_wf (q : QueryBundleRequest) : Prop :=
  ticket_wf (ticket q) /\ is_u32 (group_id q) /\ utf8_valid (qb_instance_id q) = true /\ utf8_valid (request_id q) = true /\
  match qb_demand q with Some d => demand_wf d | None => True end.

#[export] Instance query_codec : Codec QueryBundleRequest := { wf := query_wf; encode := encode_query; decode := decode_query }.

Definition hashes_format n (Hn : 0 <= n) :=
  counted_format _ _ _ (Format0 := prefixed_bytes_format "block_hash"%string) n 4 Hn ltac:(lia) (push_bytes_min "block_hash"%string).

Lemma query_fine q : Forall op_fine (query_sizes q).
Proof.
  unfold query_sizes. fine. apply Forall_app. split; [|destruct (qb_demand q); fine].
  induction (qb_block_hashes q) as [|h hs IH]; simpl; fine.
Qed.

Lemma hashes_size hs x :
  encode_all (fun hash => push_bytes hash "block_hash"%string) hs = Ok x ->
  zlen x = 4 * zlen hs + total_size (map (fun hash => Add (zlen hash) 1) hs).
Proof.
  revert x. induction hs as [|h hs IH]; intros x H; cbn [encode_all] in H; [by injection H as <-|].
  destruct (push_bytes h _) as [y|] eqn:Ey; [|done]. destruct (encode_all _ hs) as [z|]; [|done]. injection H as <-.
  apply push_bytes_Ok in Ey as [_ ->]. simpl. autorewrite with wire_len. rewrite (IH z eq_refl). lia.
Qed.

Definition encode_optional_demand (o : option RecoveryDemand) : wire bytes :=
  match o with Some d => encode_demand d | None => Ok [] end.

Lemma optional_demand_format flags group count :
  Format (fun o => match o with
                   | Some d => bit flags 8 = true /\ demand_wf d /\ validate d group count = Ok tt
                   | None => bit flags 8 = false
                   end)
    encode_optional_demand (decode_optional_demand flags group count).
Proof.
  unfold decode_optional_demand, encode_optional_demand. fold (bit flags 8). constructor.
  - intros [d|] b s Hd He.
    + destruct Hd as (-> & Hd). by rewrite (format_decode (Format := demand_format group count) d b s Hd He).
    + injection He as <-. by rewrite Hd.
  - intros s o s'. destruct (bit flags 8).
    + destruct (decode_demand group count s) as [[d t]|] eqn:E; [|done]. intros [= <- <-].
      apply (format_encode (Format := demand_format group count)) in E as [Hd Hb]. done.
    + intros [= <- <-]. split; [done|]. by exists [].
Qed.

Lemma ticket_size t x : encode_ticket t = Ok x -> zlen x = 16.
Proof. unfold encode_ticket. destruct (_ || _); [done|]. intros [= <-]. by autorewrite with wire_len. Qed.

Lemma query_flags_pack q :
  query_flags q = pack_flags (wait_for_full_prefix q) (warmup q) (discover q) (materialize q) (prepare q).
Proof. done. Qed.

Lemma query_decode_encode q b : query_wf q -> encode_query q = Ok b -> decode_query b = Ok q.
Proof.
  intros (Ht & Hg & Hi & Hr & Hdw). unfold encode_query, decode_query, is_u32 in *. intros H.
  do 4 wire_inv H. rename E1 into Ev.
  destruct (encode_ticket (ticket q)) as [bt|] eqn:Et; [|done]. do 3 wire_inv H.
  destruct (encode_all _ (qb_block_hashes q)) as [bh|] eqn:Eh; [|done].
  fold (encode_optional_demand (qb_demand q)) in H. destruct (encode_optional_demand (qb_demand q)) as [bd|] eqn:Ed; [|done].
  injection H as <-. rewrite query_flags_pack.
  destruct (bits_pack (wait_for_full_prefix q) (warmup q) (discover q) (materialize q) (prepare q)) as (Hf & Hz & H1 & H2 & H4 & H8 & H16).
  set (f := pack_flags _ _ _ _ _) in *. wire_step. rewrite Hz. cbn [reject_if Z.eqb negb].
  rewrite (format_decode (ticket q) bt _ Ht Et). cbv beta iota. do 6 wire_step. rewrite E. cbn [reject_if].
  assert (Hall : Forall (fun _ : bytes => True) (qb_block_hashes q)) by (by apply Forall_true).
  rewrite (format_decode (Format := hashes_format _ (zlen_nonneg (qb_block_hashes q))) _ bh bd (conj eq_refl Hall) Eh).
  cbv beta iota. rewrite <- (app_nil_r bd).
  rewrite (format_decode (Format := optional_demand_format f (group_id q) (zlen (qb_block_hashes q))) (qb_demand q) bd []); [|..|done].
  - cbv beta iota. rewrite finish_nil. fold (bit f 1) (bit f 2) (bit f 4) (bit f 8) (bit f 16). rewrite H1, H2, H4, H8, H16. by destruct q.
  - rewrite H8. apply negb_false_iff, Bool.eqb_prop in E0. destruct (qb_demand q) as [d|]; [|done]. split_and!; [done..|].
    unfold from_recovery in Ev. destruct (validate d _ _) as [[]|]; [done|done].
Qed.

Lemma query_encode_decode q b : zlen b <= isize_max -> decode_query b = Ok q -> query_wf q /\ encode_query q = Ok b.
Proof.
  intros Hb H. unfold decode_query in H. wire_inv H. wire_inv H. apply negb_false_iff, Z.eqb_eq in E.
  pose proof (flags_small v Hv E) as Hf. destruct (decode_ticket t) as [[tk t1]|] eqn:Et; [|done].
  apply format_encode in Et as [Ht (bt & Et & ->)]. do 7 wire_inv H.
  destruct (decode_counted v4 4 _ _) as [[hs t']|] eqn:Eh; [|done].
  apply (format_encode (Format := hashes_format v4 ltac:(lia))) in Eh as [[Hh _] (bh & Eh & ->)].
  destruct (decode_optional_demand v v1 v4 t') as [[o t'']|] eqn:Ed; [|done].
  apply (format_encode (Format := optional_demand_format v v1 v4)) in Ed as [Ho (bd & Ed & ->)].
  wire_inv H. injection H as <-. fold (bit v 1) (bit v 2) (bit v 4) (bit v 8) (bit v 16). split.
  { unfold query_wf. cbn. split_and!; try done. destruct o; [|done]. apply Ho. }
  unfold encode_query. cbn [request_id materialize qb_demand group_id qb_block_hashes ticket qb_instance_id]. rewrite E0. cbn [reject_if].
  replace (Bool.eqb (bit v 8) _) with true by (destruct o; [destruct Ho as [-> _]|rewrite Ho]; done). cbn [negb reject_if].
  replace (match o with Some d => _ | None => Ok tt end) with (Ok tt : wire unit)
    by (destruct o; [destruct Ho as (_ & _ & Hv'); rewrite Hh; unfold from_recovery; by rewrite Hv'|done]).
  rewrite run_sizes_Ok; [|done|apply query_fine|].
  - rewrite Et. cbv beta iota. rewrite Hv4, Hv5, Hh, !checked_u32_Ok, Eh by wire_side. fold (encode_optional_demand o). rewrite Ed.
    rewrite query_flags_pack. cbn [wait_for_full_prefix warmup discover materialize prepare]. rewrite pack_bits by done. by rewrite app_nil_r.
  - unfold query_sizes. cbn [request_id qb_demand qb_block_hashes qb_instance_id]. simpl total_size. rewrite total_size_app.
    apply hashes_size in Eh. apply ticket_size in Et.
    assert (zlen bd = total_size (match o with Some d => [Add 1 28; Add (zlen (demand_groups d)) 20] | None => [] end)).
    { destruct o as [d|]; [apply encode_demand_size in Ed; rewrite Ed; simpl; lia|by injection Ed as <-]. }
    unfold REQUEST_HEADER_BYTES, header in *. autorewrite with wire_len in Hb. lia.
Qed.

#[export] Instance query_laws : CodecLaws QueryBundleRequest.
Proof. constructor; [apply query_decode_encode|apply query_encode_decode]. Qed.

(** ** Commands *)

Definition command_wf (c : QueryCommand) : Prop :=
  match c with Submit q => query_wf q | Poll t | Claim t _ => ticket_wf t end.

#[export] Instance command_codec : Codec QueryCommand := { wf := command_wf; encode := encode_command; decode := decode_command }.

Lemma encode_query_magic q b : encode_query q = Ok b -> exists t, b = u32_le QUERY_REQUEST_MAGIC ++ t.
Proof.
  unfold encode_query. intros H. do 10 wire_inv H. injection H as <-.
  unfold header. rewrite <- !app_assoc. by eexists.
Qed.

Lemma poll_decode flags t b :
  ticket_wf t -> 0 <= flags <= 3 -> flags <> 2 -> encode_poll flags t = Ok b ->
  decode_command b = Ok (if bit flags 1 then Claim t (bit flags 2) else Poll t).
Proof.
  intros Ht Hf Hn. unfold encode_poll, decode_command, header, expect_version.
  destruct (encode_ticket t) as [bt|] eqn:Et; [|done]. intros [= <-].
  rewrite <- !app_assoc. wire_step. change (QUERY_POLL_MAGIC =? QUERY_REQUEST_MAGIC) with false. rewrite Z.eqb_refl. cbn [negb].
  wire_step. rewrite Z.eqb_refl. cbv beta iota. wire_step.
  replace ((3 <? flags) || (flags =? 2)) with false by (symmetry; apply orb_false_iff; lia).
  cbn [reject_if]. rewrite <- (app_nil_r bt), (format_decode t bt [] Ht Et). done.
Qed.

Lemma poll_encode v t :
  v = 0 \/ v = 1 \/ v = 3 -> encode_command (if bit v 1 then Claim t (bit v 2) else Poll t) = encode_poll v t.
Proof. by intros [->|[->| ->]]. Qed.

#[export] Instance command_laws : CodecLaws QueryCommand.
Proof.
  constructor; cbn [wf encode decode command_codec].
  - intros [q|t|t c] b Hwf H; simpl in Hwf, H.
    + destruct (encode_query_magic q b H) as [t ->]. unfold decode_command. wire_step. rewrite Z.eqb_refl.
      by rewrite (query_decode_encode q _ Hwf H).
    + by rewrite (poll_decode 0 t b Hwf).
    + destruct c; [by rewrite (poll_decode 3 t b Hwf)|by rewrite (poll_decode 1 t b Hwf)].
  - intros c b Hb H. unfold decode_command in H. destruct (decode_u32 b) as [[magic s]|] eqn:Em; [|done].
    destruct (Z.eqb_spec magic QUERY_REQUEST_MAGIC) as [->|].
    { destruct (decode_query b) as [q|] eqn:Eq; [|done]. injection H as <-. by apply query_encode_decode. }
    destruct (Z.eqb_spec magic QUERY_POLL_MAGIC) as [->|]; [|done]. cbn [negb] in H. apply inv_u32 in Em as [_ ->].
    unfold expect_version in H. destruct (decode_u16 s) as [[version s1]|] eqn:Ev; [|done]. apply inv_u16 in Ev as [_ ->].
    destruct (Z.eqb_spec version CACHE_PROTOCOL_VERSION) as [->|]; [|done]. do 2 wire_inv H.
    destruct (decode_ticket _) as [[tk s2]|] eqn:Et; [|done]. apply format_encode in Et as [Ht (bt & Et & ->)]. wire_inv H.
    apply orb_false_iff in E as [E1%Z.ltb_ge E2%Z.eqb_neq]. injection H as <-.
    fold (bit v 1) (bit v 2). rewrite poll_encode by lia. split; [by destruct (bit v 1)|]. unfold encode_poll. rewrite Et.
    unfold header. by rewrite app_nil_r, <- !app_assoc.
Qed.

(** ** Responses *)

Lemma outcome_code_round o : query_outcome_of (query_outcome_code o) = Ok o.
Proof. by destruct o. Qed.
Lemma outcome_of_round v o : query_outcome_of v = Ok o -> query_outcome_code o = v.
Proof.
  unfold query_outcome_of. destruct v as [|p|]; [done| |done]. destruct p as [[[]|[]|]|[[]|[]|]|]; try done; by intros [= <-].
Qed.
Lemma outcome_code_range o : 0 <= query_outcome_code o <= 65535.
Proof. destruct o; simpl; lia. Qed.

Definition response_wf (r : QueryBundleResponse) : Prop :=
  is_u64 (num_hit_blocks r) /\ Forall is_u32 (hit_positions r) /\ check_response r = Ok tt.
#[export] Instance response_codec : Codec QueryBundleResponse :=
  { wf := response_wf; encode := encode_response; decode := decode_response }.

Definition positions_format n (Hn : 0 <= n) :=
  counted_format _ _ _ (Format0 := u32_format) n 4 Hn ltac:(lia) (fun a x Hx => ltac:(injection Hx as <-; by rewrite zlen_u32_le)).

#[export] Instance response_laws : CodecLaws QueryBundleResponse.
Proof.
  constructor; cbn [wf encode decode response_codec].
  - intros [o hits lease ps] b (Hh & Hp & Hc). unfold encode_response, decode_response, is_u64 in *.
    cbn [qr_outcome num_hit_blocks qr_lease hit_positions] in *. intros H. do 2 wire_inv H.
    destruct (encode_all _ ps) as [bp|] eqn:Ep; [|done]. injection H as <-. pose proof (outcome_code_range o). wire_step.
    rewrite outcome_code_round. do 3 wire_step. rewrite decode_bytes_app by done. cbv beta iota. rewrite <- (app_nil_r bp).
    rewrite (format_decode (Format := positions_format (zlen ps) (zlen_nonneg ps)) ps bp [] (conj eq_refl Hp) Ep). cbv beta iota.
    rewrite finish_nil. by rewrite Hc.
  - intros m b _ H. unfold decode_response in H. wire_inv H. destruct (query_outcome_of v) as [o|] eqn:Eo; [|done]. do 4 wire_inv H.
    destruct (decode_counted v2 4 decode_u32 _) as [[ps t']|] eqn:Ep; [|done].
    apply (format_encode (Format := positions_format v2 ltac:(lia))) in Ep as [[Hp1 Hp2] (bp & Ep & ->)]. do 2 wire_inv H.
    injection H as <-. split; [by destruct v5|]. unfold encode_response. cbn [qr_outcome num_hit_blocks qr_lease hit_positions].
    rewrite Hv3, Hp1, !checked_u32_Ok, Ep by wire_side. apply outcome_of_round in Eo as ->. by rewrite app_nil_r.
Qed.

Lemma id_len_spec n : id_len n = true <-> n = 0 \/ n = 16.
Proof. unfold id_len. rewrite orb_true_iff, !Z.eqb_eq. done. Qed.

#[export] Instance shard_lease_format : Format (fun b => id_len (zlen b) = true) encode_shard_lease decode_shard_lease.
Proof.
  constructor.
  - intros b x s Hb [= <-]. apply id_len_spec in Hb as Hl. unfold decode_shard_lease.
    replace (zlen b mod 65536) with (zlen b) by (destruct Hl as [-> | ->]; done).
    rewrite <- app_assoc, dec_u16 by lia. rewrite Hb. cbn [negb]. by apply decode_bytes_app.
  - intros s b s' H. unfold decode_shard_lease in H. wire_inv H. destruct (id_len v) eqn:Ev; [|done]. cbn [negb] in H.
    apply decode_bytes_inv in H as [Hl ->]; [|lia]. split; [by rewrite Hl|]. unfold encode_shard_lease.
    rewrite Hl, Z.mod_small by lia. eexists. split; [done|]. by rewrite <- app_assoc.
Qed.

Lemma nonzero_id_len b : nonzero_id b = true -> id_len (zlen b) = true.
Proof. unfold nonzero_id. intros [Hb _]%andb_true_iff. apply id_len_spec. right. by apply Z.eqb_eq. Qed.
Lemma is_empty_len (b : bytes) : is_empty b = true -> id_len (zlen b) = true.
Proof. unfold is_empty. intros Hb%Z.eqb_eq. apply id_len_spec. by left. Qed.

Lemma validate_shard_lens r :
  validate_shard r = Ok tt ->
  zlen (sr_leases r) <= MAX_SHARDS /\ id_len (zlen (control_id r)) = true /\ Forall (fun b => id_len (zlen b) = true) (sr_leases r).
Proof.
  unfold validate_shard. destruct (_ && _) eqn:E; [|done]. intros _. apply andb_true_iff in E as [Hm E]. apply Z.leb_le in Hm.
  split; [done|]. destruct (sr_outcome r).
  - destruct (0 <? sr_num_hit_blocks r); apply andb_true_iff in E as [[_ Hc]%andb_true_iff Hl].
    + split; [by apply nonzero_id_len|]. apply Forall_forall. intros b Hb. apply nonzero_id_len.
      by apply (proj1 (forallb_forall _ _) Hl), list_elem_of_In.
    + split; [by apply is_empty_len|]. apply Forall_forall. intros b Hb. apply is_empty_len.
      by apply (proj1 (forallb_forall _ _) Hl), list_elem_of_In.
  - apply andb_true_iff in E as [[_ Hl]%andb_true_iff Hc]. split; [by apply is_empty_len|].
    unfold is_empty in Hl. apply Z.eqb_eq in Hl. by destruct (sr_leases r).
  - apply andb_true_iff in E as [[_ Hl]%andb_true_iff Hc]. split; [by apply is_empty_len|].
    unfold is_empty in Hl. apply Z.eqb_eq in Hl. by destruct (sr_leases r).
  - done.
Qed.

#[export] Instance shard_codec : Codec ShardQueryResponse :=
  { wf r := is_u64 (sr_num_hit_blocks r); encode := encode_shard; decode := decode_shard }.

#[export] Instance shard_laws : CodecLaws ShardQueryResponse.
Proof.
  constructor; cbn [wf encode decode shard_codec].
  - intros [o hits leases control] b Hh. unfold encode_shard, decode_shard, is_u64 in *.
    cbn [sr_outcome sr_num_hit_blocks sr_leases control_id] in *. intros H. wire_inv H. destruct v.
    pose proof (validate_shard_lens _ E) as (Hm & Hc & Hl). cbn [sr_leases control_id] in *. apply id_len_spec in Hc as Hc'.
    destruct (encode_all encode_shard_lease leases) as [bl|] eqn:El; [|done]. injection H as <-.
    pose proof (outcome_code_range o). pose proof (zlen_nonneg leases). unfold MAX_SHARDS in *.
    rewrite !wrap32_id by (unfold is_u32, u32_max; lia). wire_step. rewrite outcome_code_round. do 3 wire_step.
    rewrite Hc. replace (32 <? zlen leases) with false by lia. cbn [negb orb reject_if]. rewrite decode_bytes_app by done. cbv beta iota.
    rewrite <- (app_nil_r bl). replace (Z.to_nat (zlen leases)) with (length leases) by (unfold zlen; lia).
    rewrite (format_decode (Format := repeat_format _ _ _ (length leases)) leases bl [] (conj eq_refl Hl) El). cbv beta iota.
    by rewrite finish_nil, E.
  - intros m b _ H. unfold decode_shard in H. wire_inv H. destruct (query_outcome_of v) as [o|] eqn:Eo; [|done]. do 5 wire_inv H.
    destruct (decode_repeat _ decode_shard_lease _) as [[leases t']|] eqn:El; [|done].
    apply (format_encode (Format := repeat_format _ _ _ (Z.to_nat v1))) in El as [[Hl1 Hl2] (bl & El & ->)]. do 2 wire_inv H.
    injection H as <-. destruct v6. split; [done|]. unfold encode_shard. rewrite E0. cbn [sr_outcome sr_num_hit_blocks sr_leases control_id].
    rewrite El. apply outcome_of_round in Eo as ->. replace (zlen leases) with v1 by (unfold zlen; lia). rewrite Hv3.
    rewrite !wrap32_id by done. by rewrite app_nil_r.
Qed.

(** ** Completion observations *)

Definition observation_wf (r : CompletionObservationRequest) : Prop :=
  utf8_valid (co_instance_id r) = true /\ utf8_valid (source_endpoint r) = true /\ is_i32 (destination_device_id r) /\
  is_u64 (transfer_generation r) /\ is_u64 (logical_bytes r) /\ is_u64 (wire_bytes r) /\ is_u32 (fragment_count r) /\
  is_u64 (elapsed_ns r) /\ is_u64 (decode_page_bytes r) /\ is_u32 (handoff_queue_depth r) /\
  is_u32 (handoff_queue_parallelism r) /\ is_u64 (tent_inflight_bytes r) /\ is_u64 (tent_bandwidth_bytes_per_second r).

#[export] Instance observation_codec : Codec CompletionObservationRequest :=
  { wf := observation_wf; encode := encode_observation; decode := decode_observation }.

Lemma observation_known r : validate_observation r = Ok tt -> representation r <> RUnknown.
Proof.
  unfold validate_observation. intros H. do 9 wire_inv H. by destruct (representation r).
Qed.
Lemma validate_string_len s field max u : validate_completion_string s field max = Ok u -> zlen s <= max.
Proof. unfold validate_completion_string. destruct (_ =? _); [done|]. destruct (Z.ltb_spec max (zlen s)); [done|]. lia. Qed.
Lemma observation_lens r :
  validate_observation r = Ok tt -> zlen (co_instance_id r) <= u32_max /\ zlen (source_endpoint r) <= u32_max.
Proof.
  unfold validate_observation. intros H. do 2 wire_inv H. apply validate_string_len in E, E0.
  unfold MAX_COMPLETION_INSTANCE_ID_BYTES, MAX_COMPLETION_SOURCE_ENDPOINT_BYTES, u32_max in *. lia.
Qed.

Ltac code_round := let v := fresh in let o := fresh in intros v o; destruct v as [|p|]; [done| |done];
  destruct p as [[[]|[]|]|[[]|[]|]|]; try done; by intros [= <-].
Lemma intent_round : forall v o, intent_of v = Ok o -> intent_code o = v.
Proof. unfold intent_of. code_round. Qed.
Lemma route_round : forall v o, route_of v = Ok o -> route_code o = v.
Proof. intros v []. unfold route_of. destruct v as [|[]|]; done. Qed.
Lemma admission_round : forall v o, admission_of v = Ok o -> admission_code o = v.
Proof. unfold admission_of. code_round. Qed.
Lemma completion_outcome_round : forall v o, outcome_of v = Ok o -> outcome_code o = v.
Proof. unfold outcome_of. code_round. Qed.
Lemma representation_round : forall v o, decode_representation v = Ok o -> representation_code o = v.
Proof. unfold decode_representation. code_round. Qed.

Lemma observation_decode_encode r b : observation_wf r -> encode_observation r = Ok b -> decode_observation b = Ok r.
Proof.
  intros (H1 & H2 & H3 & H4 & H5 & H6 & H7 & H8 & H9 & H10 & H11 & H12 & H13) H.
  unfold encode_observation in H. wire_inv H. destruct v. pose proof (observation_known r E) as Hk.
  do 2 wire_inv H. injection H as <-. unfold decode_observation, is_u32, is_u64 in *.
  assert (intent_of (intent_code (intent r)) = Ok (intent r) /\ 0 <= intent_code (intent r) <= 65535) as [Hi ?] by (by destruct (intent r)).
  assert (route_of (route_code (route r)) = Ok (route r) /\ 0 <= route_code (route r) <= 65535) as [Hr ?] by (by destruct (route r)).
  assert (decode_representation (representation_code (representation r)) = Ok (representation r) /\
    0 <= representation_code (representation r) <= 65535) as [Hp ?] by (by destruct (representation r)).
  assert (admission_of (admission_code (admission r)) = Ok (admission r) /\ 0 <= admission_code (admission r) <= 65535) as [Had ?]
    by (by destruct (admission r)).
  assert (outcome_of (outcome_code (co_outcome r)) = Ok (co_outcome r) /\ 0 <= outcome_code (co_outcome r) <= 65535) as [Ho ?]
    by (by destruct (co_outcome r)).
  do 2 wire_step. rewrite Hi. wire_step. rewrite Hr. wire_step. rewrite Hp. wire_step. rewrite Had. wire_step. rewrite Ho. wire_step.
  cbn [Z.eqb negb reject_if]. do 8 wire_step. cbn [Z.eqb negb reject_if]. do 9 wire_step.
  destruct r. cbn in *. by rewrite E.
Qed.

Lemma observation_encode_decode r b : decode_observation b = Ok r -> observation_wf r /\ encode_observation r = Ok b.
Proof.
  intros H. unfold decode_observation in H. do 32 wire_inv H. injection H as <-. destruct v30.
  apply intent_round in E as <-. apply route_round in E0 as <-. apply representation_round in E1 as <-. apply admission_round in E2 as <-.
  apply completion_outcome_round in E3 as <-. apply negb_false_iff, Z.eqb_eq in E4 as ->. apply negb_false_iff, Z.eqb_eq in E5 as ->.
  split; [unfold observation_wf; cbn; by split_and!|]. unfold encode_observation. rewrite E6.
  apply observation_lens in E6 as [Hl1 Hl2].
  cbn [co_instance_id source_endpoint destination_device_id transfer_generation intent route representation logical_bytes wire_bytes
    fragment_count elapsed_ns decode_page_bytes handoff_queue_depth handoff_queue_parallelism tent_inflight_bytes
    tent_bandwidth_bytes_per_second admission co_outcome] in *.
  rewrite !checked_u32_Ok by done. rewrite Hv19, Hv20. by rewrite app_nil_r.
Qed.

#[export] Instance observation_laws : CodecLaws CompletionObservationRequest.
Proof.
  constructor; cbn [wf encode decode observation_codec]; [apply observation_decode_encode|].
  intros m b _. apply observation_encode_decode.
Qed.

(** ** The protocol as a whole *)

(** Every message of the cache protocol survives the wire: for requests whose fields are values of their Rust types
    (and whose restore targets avoid the reserved page), whenever [encode] produces bytes, [decode] returns exactly the
    message that was encoded. *)
Theorem messages_round_trip b :
  (forall m, ticket_wf (cancel_ticket m) -> encode_cancel m = Ok b -> decode_cancel b = Ok m) /\
  (forall m, release_lease m <> [] -> encode_release m = Ok b -> decode_release b = Ok m) /\
  (forall m, restore_wf m -> encode_restore m = Ok b -> decode_restore b = Ok m) /\
  (forall m, publish_wf m -> encode_publish m = Ok b -> decode_publish b = Ok m) /\
  (forall m, query_wf m -> encode_query m = Ok b -> decode_query b = Ok m) /\
  (forall m, command_wf m -> encode_command m = Ok b -> decode_command b = Ok m) /\
  (forall m, response_wf m -> encode_response m = Ok b -> decode_response b = Ok m) /\
  (forall m, is_u64 (sr_num_hit_blocks m) -> encode_shard m = Ok b -> decode_shard b = Ok m) /\
  (forall m, observation_wf m -> encode_observation m = Ok b -> decode_observation b = Ok m).
Proof.
  split_and!; intros m.
  - exact (decode_encode (M := CancelQueryRequest) m b).
  - exact (decode_encode (M := ReleaseRequest) m b).
  - exact (decode_encode (M := RestoreRequest) m b).
  - exact (decode_encode (M := PublishRequest) m b).
  - exact (decode_encode (M := QueryBundleRequest) m b).
  - exact (decode_encode (M := QueryCommand) m b).
  - exact (decode_encode (M := QueryBundleResponse) m b).
  - exact (decode_encode (M := ShardQueryResponse) m b).
  - exact (decode_encode (M := CompletionObservationRequest) m b).
Qed.

(** C30. The wire format has one encoding per message: whatever bytes a decoder accepts (a slice holds at most [isize::MAX]
    bytes), the decoded message has fields of its Rust types and encodes to exactly those bytes.  So no two payloads are read
    as the same message, trailing or reserved bytes are never ignored, and every value that is read can be forwarded. *)
Theorem messages_canonical b :
  zlen b <= isize_max ->
  (forall m, decode_cancel b = Ok m -> ticket_wf (cancel_ticket m) /\ encode_cancel m = Ok b) /\
  (forall m, decode_release b = Ok m -> release_lease m <> [] /\ encode_release m = Ok b) /\
  (forall m, decode_restore b = Ok m -> restore_wf m /\ encode_restore m = Ok b) /\
  (forall m, decode_publish b = Ok m -> publish_wf m /\ encode_publish m = Ok b) /\
  (forall m, decode_query b = Ok m -> query_wf m /\ encode_query m = Ok b) /\
  (forall m, decode_command b = Ok m -> command_wf m /\ encode_command m = Ok b) /\
  (forall m, decode_response b = Ok m -> response_wf m /\ encode_response m = Ok b) /\
  (forall m, decode_shard b = Ok m -> is_u64 (sr_num_hit_blocks m) /\ encode_shard m = Ok b) /\
  (forall m, decode_observation b = Ok m -> observation_wf m /\ encode_observation m = Ok b).
Proof.
  intros Hb. split_and!; intros m.
  - exact (encode_decode (M := CancelQueryRequest) m b Hb).
  - exact (encode_decode (M := ReleaseRequest) m b Hb).
  - exact (encode_decode (M := RestoreRequest) m b Hb).
  - exact (encode_decode (M := PublishRequest) m b Hb).
  - exact (encode_decode (M := QueryBundleRequest) m b Hb).
  - exact (encode_decode (M := QueryCommand) m b Hb).
  - exact (encode_decode (M := QueryBundleResponse) m b Hb).
  - exact (encode_decode (M := ShardQueryResponse) m b Hb).
  - exact (encode_decode (M := CompletionObservationRequest) m b Hb).
Qed.

Definition sample_command : QueryCommand :=
  Submit (mkQuery (mkTicket 3 1) (str "engine") (str "req") [str "h0"; str "h1"] 0 false false false true false
    (Some (mkDemand 4 (mkRange 0 8) [(0, mkRange 0 8); (1, mkRange 4 8)]))).

Lemma messages_canonical_witness :
  let b := match encode_command sample_command with Ok b => b | Err _ => [] end in
  zlen b = 129 /\ decode_command b = Ok sample_command /\ command_wf sample_command /\ encode_command sample_command = Ok b.
Proof.
  set (b := match encode_command sample_command with Ok b => b | Err _ => [] end).
  assert (Hd : decode_command b = Ok sample_command) by (vm_compute; reflexivity).
  split; [vm_compute; reflexivity|]. split; [exact Hd|].
  assert (Hb : zlen b <= isize_max) by (vm_compute; discriminate).
  apply (proj1 (proj2 (proj2 (proj2 (proj2 (proj2 (messages_canonical b Hb))))))). exact Hd.
Defined.
