(* ===== verification/PublishChunks.v ===== *)
(** * Splitting a publication into payloads

    [publish_payloads] of orbitkv-channel/src/client.rs: a publication that exceeds the shared arena
    is cut into ranges of block positions, each grown block by block while it still fits.  The
    payloads are decoded by the receiver with [PublishRequest::decode]; the theorems compose the
    sender's arithmetic with that decoder. *)
From S2P Require Import Prelude Containers State Recovery Words Wire CacheProtocol CacheProtocolSpec.

Local Open Scope Z_scope.
Local Open Scope rust_scope.

#[local] Opaque u16_le u32_le u64_le i32_le.

(** ** Operations *)

Inductive ChannelError := Protocol (e : CacheProtocolError) | PayloadTooLarge (len capacity : Z).

Definition block_count (p : PublishRequest) : Z := foldr Z.max 0 ((fun l => zlen (pl_block_ids l)) <$> pr_layers p).

Definition lift {A} (r : wire A) : result A ChannelError :=
  match r with Ok a => Ok a | Err e => Err (Protocol e) end.

(** The inner loop: the end of the range, grown while the next block fits. *)
Fixpoint extend_chunk (fuel : nat) (p : PublishRequest) (capacity last chunk_len : Z) : result Z ChannelError :=
  match fuel with
  | O => Ok last
  | S fuel =>
      if last <? block_count p then
        let? block_len := lift (block_payload_len p last) in
        if capacity - chunk_len <? block_len then Ok last
        else extend_chunk fuel p capacity (last + 1) (chunk_len + block_len)
      else Ok last
  end.

(** The outer loop: one payload per range. *)
Fixpoint split_chunks (fuel : nat) (p : PublishRequest) (capacity first : Z) : result (list bytes) ChannelError :=
  match fuel with
  | O => Ok []
  | S fuel =>
      if first <? block_count p then
        let? chunk_len := lift (encoded_len p (Some (first, first + 1))) in
        if capacity <? chunk_len then Err (PayloadTooLarge chunk_len capacity)
        else
          let? last := extend_chunk (Z.to_nat (block_count p)) p capacity (first + 1) chunk_len in
          let? payload := lift (encode_range p (Some (first, last))) in
          let? payloads := split_chunks fuel p capacity last in
          Ok (payload :: payloads)
      else Ok []
  end.

Definition publish_payloads (p : PublishRequest) (capacity : Z) : result (list bytes) ChannelError :=
  let? payload_len := lift (encoded_len p None) in
  if payload_len <=? capacity then let? b := lift (encode_publish p) in Ok [b]
  else if block_count p =? 0 then Err (PayloadTooLarge payload_len capacity)
  else split_chunks (Z.to_nat (block_count p)) p capacity 0.

(** ** The sizes of ranges *)

(** A layer whose ids and hashes are parallel. *)
Abbreviation parallel := (fun l => zlen (pl_block_ids l) = zlen (pl_block_hashes l)).

Definition blocks_of (l : PublishLayer) : list (Z * bytes) := zip (pl_block_ids l) (pl_block_hashes l).
Definition sent_blocks (range : option (Z * Z)) (l : PublishLayer) : list (Z * bytes) :=
  match layer_part range l with Some q => q.2 | None => [] end.
Definition block_size (b : Z * bytes) : Z := 8 + zlen b.2.
Definition layer_total (range : option (Z * Z)) (l : PublishLayer) : Z :=
  match layer_part range l with Some q => part_total q | None => 0 end.
Definition range_total (p : PublishRequest) (range : option (Z * Z)) : Z :=
  PUBLISH_HEADER_BYTES + zlen (pr_instance_id p) + list_sum (layer_total range) (pr_layers p).
Definition next_total (i : Z) (l : PublishLayer) : Z :=
  match pl_block_hashes l !! Z.to_nat i with Some h => 8 + zlen h | None => 0 end.

Lemma omap_total range ls : list_sum part_total (omap (layer_part range) ls) = list_sum (layer_total range) ls.
Proof.
  induction ls as [|l ls IH]; [done|]. rewrite omap_layers. unfold layer_total, list_sum in *. cbn [foldr].
  destruct (layer_part range l); cbn [foldr]; lia.
Qed.

Lemma slice_zip {A B} r (xs : list A) (ys : list B) :
  zip (CacheProtocol.slice r xs) (CacheProtocol.slice r ys) = CacheProtocol.slice r (zip xs ys).
Proof. unfold CacheProtocol.slice. by rewrite zip_with_drop, zip_with_take. Qed.

Lemma zlen_blocks_of l : parallel l -> zlen (blocks_of l) = zlen (pl_block_ids l).
Proof. intros H. unfold blocks_of, zlen in *. rewrite length_zip_with. lia. Qed.

(** What a range sends of a layer, by the length of the layer. *)
Lemma layer_part_range a b l :
  layer_part (Some (a, b)) l =
  if Z.min b (zlen (pl_block_ids l)) <=? a then None
  else Some (layer_name l, CacheProtocol.slice (a, Z.min b (zlen (pl_block_ids l))) (blocks_of l)).
Proof.
  unfold layer_part, selected. destruct (_ <=? a); [done|]. by rewrite slice_zip.
Qed.

Lemma slice_grow {A} (a b : Z) (l : list A) x :
  0 <= a <= b -> l !! Z.to_nat b = Some x -> CacheProtocol.slice (a, b + 1) l = CacheProtocol.slice (a, b) l ++ [x].
Proof.
  intros Hab Hx. unfold CacheProtocol.slice. cbn.
  replace (Z.to_nat (b + 1) - Z.to_nat a)%nat with (S (Z.to_nat b - Z.to_nat a)) by lia.
  apply take_S_r. rewrite lookup_drop. by replace (Z.to_nat a + (Z.to_nat b - Z.to_nat a))%nat with (Z.to_nat b) by lia.
Qed.

Lemma slice_drop {A} (a m : Z) (l : list A) :
  0 <= a <= m -> CacheProtocol.slice (a, m) l ++ drop (Z.to_nat m) l = drop (Z.to_nat a) l.
Proof.
  intros H. unfold CacheProtocol.slice. cbn. replace (drop (Z.to_nat m) l) with (drop (Z.to_nat m - Z.to_nat a) (drop (Z.to_nat a) l)).
  - apply take_drop.
  - rewrite drop_drop. f_equal. lia.
Qed.

(** Growing a non-empty range by one position adds the block at that position, in every layer that
    reaches it; the other layers send the same part. *)
Lemma layer_total_next a b l :
  0 <= a < b -> parallel l -> layer_total (Some (a, b + 1)) l = layer_total (Some (a, b)) l + next_total b l.
Proof.
  intros Hab Hl. pose proof (zlen_blocks_of l Hl) as Hz. unfold layer_total, next_total. rewrite !layer_part_range.
  destruct (pl_block_hashes l !! Z.to_nat b) as [h|] eqn:Eh.
  - apply lookup_lt_Some in Eh as Hlt. assert (b < zlen (pl_block_ids l)) by (rewrite Hl; unfold zlen; lia).
    rewrite !Z.min_l, !(proj2 (Z.leb_gt _ _)) by lia.
    destruct (lookup_lt_is_Some_2 (pl_block_ids l) (Z.to_nat b)) as [i Hi]; [unfold zlen in *; lia|].
    rewrite (slice_grow a b (blocks_of l) (i, h)); [|lia|by apply lookup_zip_with_Some; exists i, h].
    unfold part_total. cbn [fst snd]. rewrite list_sum_app. unfold list_sum at 2. simpl. lia.
  - apply lookup_ge_None in Eh. assert (zlen (pl_block_ids l) <= b) by (rewrite Hl; unfold zlen; lia).
    rewrite !Z.min_r by lia. destruct (_ <=? a); lia.
Qed.

Lemma list_sum_ext2 {A} (f g h : A -> Z) l :
  (forall a, a ∈ l -> f a = g a + h a) -> list_sum f l = list_sum g l + list_sum h l.
Proof.
  induction l as [|a l IH]; intros H; [done|]. unfold list_sum in *. simpl. rewrite (H a) by left. rewrite IH; [lia|].
  intros x Hx. apply H. by right.
Qed.
Lemma list_sum_mono {A} (f g : A -> Z) l : (forall a, a ∈ l -> f a <= g a) -> list_sum f l <= list_sum g l.
Proof.
  induction l as [|a l IH]; intros H; [done|]. unfold list_sum in *. simpl. pose proof (H a ltac:(left)).
  enough (foldr (fun a acc => f a + acc) 0 l <= foldr (fun a acc => g a + acc) 0 l) by lia. apply IH. intros x Hx. apply H. by right.
Qed.

Lemma range_total_next p a b :
  0 <= a < b -> Forall parallel (pr_layers p) ->
  range_total p (Some (a, b + 1)) = range_total p (Some (a, b)) + list_sum (next_total b) (pr_layers p).
Proof.
  intros Hab Hp. unfold range_total. rewrite (list_sum_ext2 _ (layer_total (Some (a, b))) (next_total b)); [lia|].
  intros l Hl. apply layer_total_next; [done|]. by apply (proj1 (Forall_forall _ _) Hp).
Qed.

Lemma list_sum_slice_le {A} (f : A -> Z) r (l : list A) : (forall a, 0 <= f a) -> list_sum f (CacheProtocol.slice r l) <= list_sum f l.
Proof.
  intros Hf. unfold CacheProtocol.slice. set (n := Z.to_nat r.1). set (k := (_ - n)%nat).
  rewrite <- (take_drop n l) at 2. rewrite list_sum_app. rewrite <- (take_drop k (drop n l)) at 2. rewrite list_sum_app.
  pose proof (list_sum_nonneg f (take n l) (fun a _ => Hf a)). pose proof (list_sum_nonneg f (drop k (drop n l)) (fun a _ => Hf a)). lia.
Qed.

Lemma part_total_nonneg q : 0 <= part_total q.
Proof.
  unfold part_total. pose proof (zlen_nonneg q.1).
  assert (0 <= list_sum (fun b : Z * bytes => 8 + zlen b.2) q.2); [|lia].
  apply list_sum_nonneg. intros b _. pose proof (zlen_nonneg b.2). lia.
Qed.

Lemma layer_part_none l : parallel l -> layer_part None l = Some (layer_name l, blocks_of l).
Proof.
  intros Hl. unfold layer_part, selected. rewrite slice_zip. fold (blocks_of l). by rewrite <- (zlen_blocks_of l Hl), slice_all.
Qed.

(** No range sends more of a layer than the whole request does. *)
Lemma layer_total_le a b l : parallel l -> layer_total (Some (a, b)) l <= layer_total None l.
Proof.
  intros Hl. unfold layer_total. rewrite layer_part_range, (layer_part_none l Hl). destruct (_ <=? a); [apply part_total_nonneg|].
  unfold part_total. cbn [fst snd].
  pose proof (list_sum_slice_le (fun b => 8 + zlen b.2) (a, Z.min b (zlen (pl_block_ids l))) (blocks_of l)
    ltac:(intros c; pose proof (zlen_nonneg c.2); lia)). lia.
Qed.
Lemma next_total_le b l : parallel l -> next_total b l <= layer_total None l.
Proof.
  intros Hl. unfold next_total. unfold layer_total. rewrite (layer_part_none l Hl).
  destruct (pl_block_hashes l !! Z.to_nat b) as [h|] eqn:Eh; [|apply part_total_nonneg].
  apply lookup_lt_Some in Eh as Hlt. destruct (lookup_lt_is_Some_2 (pl_block_ids l) (Z.to_nat b)) as [i Hi]; [unfold zlen in *; lia|].
  assert (Hin : blocks_of l !! Z.to_nat b = Some (i, h)) by (apply lookup_zip_with_Some; by exists i, h).
  rewrite <- (take_drop_middle _ _ _ Hin). unfold part_total. cbn [fst snd]. rewrite list_sum_app. unfold list_sum at 2. cbn [foldr snd].
  assert (Hn : forall l', 0 <= list_sum (fun c : Z * bytes => 8 + zlen c.2) l').
  { intros l'. apply list_sum_nonneg. intros c _. pose proof (zlen_nonneg c.2). lia. }
  pose proof (Hn (take (Z.to_nat b) (blocks_of l))). pose proof (Hn (drop (S (Z.to_nat b)) (blocks_of l))) as Hd. unfold list_sum in Hd.
  pose proof (zlen_nonneg (layer_name l)). lia.
Qed.

(** ** Encodable requests

    The announced size of the whole request is an upper bound for every range: when it can be computed,
    every size the loops compute can be computed, without overflow. *)

Lemma run_sizes_bound ops size n : size <= isize_max -> run_sizes ops size = Ok n -> n <= isize_max.
Proof.
  revert size. induction ops as [|[v f|c w] ops IH]; intros size Hs; simpl; [by intros [= <-]|..].
  - destruct (checked_u32 v f); [by apply IH|done].
  - destruct (add_encoded_size size c w) as [m|] eqn:E; [|done]. apply IH. unfold add_encoded_size in E.
    destruct (checked_mul _ _) as [x|]; [|done]. destruct (checked_add _ _) as [y|]; [|done].
    destruct (Z.leb_spec y isize_max); [|done]. by injection E as <-.
Qed.

Record encodable (p : PublishRequest) : Prop := {
  enc_generation : zero_generation (registration_generation p) = false;
  enc_parallel : Forall parallel (pr_layers p);
  enc_instance : zlen (pr_instance_id p) <= u32_max;
  enc_layers : zlen (pr_layers p) <= u32_max;
  enc_fine : Forall (fun l => Forall op_fine (layer_sizes None l)) (pr_layers p);
  enc_bound : range_total p None <= isize_max
}.

Lemma publish_sizes_layers range ls :
  Forall op_fine (publish_sizes range ls) <-> Forall (fun l => Forall op_fine (layer_sizes range l)) ls.
Proof.
  induction ls as [|l ls IH]; [done|]. change (publish_sizes range (l :: ls)) with (layer_sizes range l ++ publish_sizes range ls).
  by rewrite Forall_app, Forall_cons, IH.
Qed.

Lemma encodable_inv p n : encoded_len p None = Ok n -> encodable p /\ n = range_total p None.
Proof.
  intros H. destruct (encoded_len_inv p None n Logic.I H) as (Hz & Hp & Hn). rewrite omap_total in Hn. unfold encoded_len in H.
  rewrite Hz in H. wire_inv H. pose proof (run_sizes_bound _ _ _ (ltac:(done) : PUBLISH_HEADER_BYTES <= isize_max) H).
  apply run_sizes_inv in H as [_ Hf]; [|done|].
  - rewrite !Forall_cons in Hf. destruct Hf as (Hi & Hl & _ & Hf). split; [|done]. subst n. by constructor; try apply publish_sizes_layers.
  - constructor; [done|]. constructor; [done|]. constructor; [split; [apply zlen_nonneg|lia]|]. by apply publish_sizes_nonneg.
Qed.

Lemma fine_range a b l :
  0 <= a -> parallel l -> Forall op_fine (layer_sizes None l) -> Forall op_fine (layer_sizes (Some (a, b)) l).
Proof.
  intros Ha Hl. unfold layer_sizes. destruct (selected (Some (a, b)) l) as [r|] eqn:E; [|by constructor].
  apply selected_range in E as [H1 H2]; [|done]. simpl selected. cbv iota. rewrite !Forall_cons. cbn [fst snd op_fine].
  intros (? & ? & ? & ? & ? & Hh). split_and!; try done; try lia. rewrite Hl, slice_all in Hh.
  rewrite Forall_flat_map in *. eapply Forall_forall. intros h Hin. eapply (proj1 (Forall_forall _ _) Hh). by eapply elem_of_slice.
Qed.

Lemma range_total_le p a b : encodable p -> range_total p (Some (a, b)) <= range_total p None.
Proof.
  intros He. unfold range_total. pose proof (list_sum_mono (layer_total (Some (a, b))) (layer_total None) (pr_layers p)) as H.
  enough (list_sum (layer_total (Some (a, b))) (pr_layers p) <= list_sum (layer_total None) (pr_layers p)) by lia. apply H.
  intros l Hl. apply layer_total_le, (proj1 (Forall_forall _ _) (enc_parallel p He)), Hl.
Qed.

Lemma range_fine p a b : 0 <= a -> encodable p -> Forall op_fine (publish_sizes (Some (a, b)) (pr_layers p)).
Proof.
  intros Ha He. apply publish_sizes_layers, Forall_forall. intros l Hl. apply fine_range; [done|..].
  - apply (proj1 (Forall_forall _ _) (enc_parallel p He)), Hl.
  - apply (proj1 (Forall_forall _ _) (enc_fine p He)), Hl.
Qed.

Lemma encoded_len_range p a b : 0 <= a -> encodable p -> encoded_len p (Some (a, b)) = Ok (range_total p (Some (a, b))).
Proof.
  intros Ha He. pose proof (range_total_le p a b He) as Hle. pose proof (enc_bound p He). unfold encoded_len.
  rewrite (enc_generation p He), (proj2 (validate_layers_Ok _ tt) (enc_parallel p He)).
  assert (Ht : total_size (publish_sizes (Some (a, b)) (pr_layers p)) = list_sum (layer_total (Some (a, b))) (pr_layers p)).
  { rewrite (publish_total (Some (a, b))); [apply omap_total|done|apply (enc_parallel p He)]. }
  unfold range_total in *. rewrite run_sizes_Ok; simpl total_size; rewrite ?Ht; [f_equal; lia|done|..|lia].
  constructor; [apply (enc_instance p He)|]. constructor; [apply (enc_layers p He)|]. fine. by apply range_fine.
Qed.

Lemma block_payload_Ok p i : encodable p -> block_payload_len p i = Ok (list_sum (next_total i) (pr_layers p)).
Proof.
  intros He. unfold block_payload_len. set (f := fun l : PublishLayer => _).
  assert (Ht : total_size (flat_map f (pr_layers p)) = list_sum (next_total i) (pr_layers p)).
  { clear He. induction (pr_layers p) as [|l ls IH]; [done|]. cbn [flat_map]. rewrite total_size_app, IH.
    unfold f, next_total, list_sum. cbn [foldr]. destruct (pl_block_hashes l !! Z.to_nat i); simpl; lia. }
  rewrite run_sizes_Ok; rewrite ?Ht; [done..| |].
  - apply Forall_flat_map, Forall_forall. intros l _. unfold f. destruct (pl_block_hashes l !! Z.to_nat i) as [h|]; [|constructor].
    pose proof (zlen_nonneg h). repeat constructor; lia.
  - pose proof (enc_bound p He) as Hb. unfold range_total in Hb. pose proof (zlen_nonneg (pr_instance_id p)).
    assert (list_sum (next_total i) (pr_layers p) <= list_sum (layer_total None) (pr_layers p)).
    { apply list_sum_mono. intros l Hl. apply next_total_le, (proj1 (Forall_forall _ _) (enc_parallel p He)), Hl. }
    unfold PUBLISH_HEADER_BYTES in Hb. lia.
Qed.

(** *** Whatever can be sized can be encoded *)

Lemma encode_all_Ok {A} (e : A -> wire bytes) l : (forall a, a ∈ l -> exists b, e a = Ok b) -> exists b, encode_all e l = Ok b.
Proof.
  induction l as [|a l IH]; intros H; [by exists []|]. destruct (H a ltac:(left)) as [b Hb].
  destruct IH as [bs Hbs]; [intros x Hx; apply H; by right|]. exists (b ++ bs). simpl. by rewrite Hb, Hbs.
Qed.

Lemma encode_part_Ok range l q :
  start_ok range -> parallel l -> Forall op_fine (layer_sizes range l) -> layer_part range l = Some q -> exists b, encode_part q = Ok b.
Proof.
  intros Hr Hl. unfold layer_sizes, layer_part. destruct (selected range l) as [r|] eqn:E; [|done].
  apply selected_range in E as [H1 H2]; [|done]. rewrite !Forall_cons. intros (Hn & Hc & _ & _ & _ & Hh) [= <-].
  unfold encode_part. cbn [fst snd]. rewrite checked_u32_Ok by apply Hn. rewrite slice_zip. fold (blocks_of l).
  rewrite checked_u32_Ok by (rewrite zlen_slice; [apply Hc|done|by rewrite zlen_blocks_of]).
  destruct (encode_all_Ok encode_block (CacheProtocol.slice r (blocks_of l))) as [bs Hbs]; [|rewrite Hbs; by eexists].
  intros [i h] Hin. unfold blocks_of in Hin. rewrite <- slice_zip in Hin. apply elem_of_zip_r in Hin. cbn in Hin. unfold encode_block. cbn.
  rewrite Forall_flat_map in Hh. apply (proj1 (Forall_forall _ _) Hh) in Hin. rewrite Forall_cons in Hin.
  rewrite checked_u32_Ok by apply Hin. by eexists.
Qed.

Lemma omap_length_le {A B} (f : A -> option B) l : (length (omap f l) <= length l)%nat.
Proof. induction l as [|a l IH]; [done|]. cbn. destruct (f a); cbn; lia. Qed.

Lemma encode_range_Ok p range :
  start_ok range -> encodable p -> (exists n, encoded_len p range = Ok n) ->
  Forall (fun l => Forall op_fine (layer_sizes range l)) (pr_layers p) -> exists b, encode_range p range = Ok b.
Proof.
  intros Hr He [n Hn] Hf. unfold encode_range. rewrite Hn, checked_u32_Ok by apply (enc_instance p He).
  assert (Hc : zlen (omap (layer_part range) (pr_layers p)) <= u32_max).
  { pose proof (enc_layers p He). pose proof (omap_length_le (layer_part range) (pr_layers p)). unfold zlen in *. lia. }
  rewrite checked_u32_Ok by done. destruct (encode_all_Ok encode_part (omap (layer_part range) (pr_layers p))) as [bs Hbs]; [|rewrite Hbs; by eexists].
  intros q (l & Hl & Hq)%list_elem_of_omap. apply (encode_part_Ok range l); [done|..|done].
  - apply (proj1 (Forall_forall _ _) (enc_parallel p He)), Hl.
  - apply (proj1 (Forall_forall _ _) Hf), Hl.
Qed.

(** ** The loops *)

Lemma extend_chunk_spec fuel p capacity a b :
  encodable p -> 0 <= a < b -> b <= block_count p -> range_total p (Some (a, b)) <= capacity ->
  exists b', extend_chunk fuel p capacity b (range_total p (Some (a, b))) = Ok b' /\
    b <= b' <= block_count p /\ range_total p (Some (a, b')) <= capacity.
Proof.
  intros He. revert b. induction fuel as [|fuel IH]; intros b Hab Hb Hc; simpl; [by exists b|].
  destruct (Z.ltb_spec b (block_count p)); [|by exists b]. rewrite block_payload_Ok by done. simpl.
  destruct (Z.ltb_spec (capacity - range_total p (Some (a, b))) (list_sum (next_total b) (pr_layers p))); [by exists b|].
  rewrite <- range_total_next by (done || apply (enc_parallel p He)).
  destruct (IH (b + 1)) as (b' & -> & Hb' & Hc'); [lia|lia| |exists b'; split_and!; [done|lia..]].
  rewrite range_total_next by (done || apply (enc_parallel p He)). lia.
Qed.

(** The ranges follow one another from [a] to [b]. *)
Fixpoint tiles (a b : Z) (ranges : list (option (Z * Z))) : Prop :=
  match ranges with
  | [] => a = b
  | r :: ranges => exists m, r = Some (a, m) /\ a < m <= b /\ tiles m b ranges
  end.

(** A payload within the capacity, which the receiver reads as the part of the request in the range. *)
Definition delivers (p : PublishRequest) (capacity : Z) (range : option (Z * Z)) (payload : bytes) : Prop :=
  decode_publish payload = Ok (chunk p range) /\ zlen payload <= capacity.

Definition oversized (p : PublishRequest) (capacity : Z) (e : ChannelError) : Prop :=
  exists len, e = PayloadTooLarge len capacity /\ capacity < len /\
    exists i, 0 <= i < block_count p /\ encoded_len p (Some (i, i + 1)) = Ok len.

Lemma split_chunks_spec fuel p capacity a :
  publish_wf p -> encodable p -> 0 <= a <= block_count p -> (Z.to_nat (block_count p - a) <= fuel)%nat ->
  match split_chunks fuel p capacity a with
  | Ok payloads => exists ranges, tiles a (block_count p) ranges /\ Forall2 (delivers p capacity) ranges payloads
  | Err e => oversized p capacity e
  end.
Proof.
  intros Hw He. revert a. induction fuel as [|fuel IH]; intros a Ha Hf; cbn [split_chunks].
  { exists []. split; [simpl; lia|constructor]. }
  destruct (Z.ltb_spec a (block_count p)); [|exists []; split; [simpl; lia|constructor]].
  rewrite (encoded_len_range p a (a + 1)) by (done || lia). cbn [lift].
  destruct (Z.ltb_spec capacity (range_total p (Some (a, a + 1)))) as [Hbig|Hfit].
  { eexists. split; [done|]. split; [done|]. exists a. split; [lia|]. apply encoded_len_range; [lia|done]. }
  destruct (extend_chunk_spec (Z.to_nat (block_count p)) p capacity a (a + 1)) as (b & -> & Hb & Hc); [done|lia|lia|done|].
  destruct (encode_range_Ok p (Some (a, b))) as [pl Hpl]; [cbn; lia|done|eexists; by apply encoded_len_range; [lia|]|..].
  { apply publish_sizes_layers, range_fine; [lia|done]. }
  rewrite Hpl. cbn [lift]. specialize (IH b ltac:(lia) ltac:(lia)). destruct (split_chunks fuel p capacity b) as [pls|e]; [|done].
  destruct IH as (rs & Ht & Hd). exists (Some (a, b) :: rs). split; [exists b; by split_and!; [|lia..|]|]. constructor; [|done].
  destruct (encode_range_chunk p (Some (a, b)) pl Hw ltac:(cbn; lia) Hpl) as [Hdec Hlen]. split; [done|].
  rewrite encoded_len_range in Hlen by (done || lia). by injection Hlen as <-.
Qed.

(** Consecutive ranges send consecutive blocks of every layer. *)
Lemma tiles_blocks a b ranges l :
  parallel l -> 0 <= a -> tiles a b ranges -> zlen (pl_block_ids l) <= b ->
  concat ((fun r => sent_blocks r l) <$> ranges) = drop (Z.to_nat a) (blocks_of l).
Proof.
  intros Hl. revert a. induction ranges as [|r rs IH]; intros a Ha Ht Hlb.
  - cbn in *. subst. symmetry. apply drop_ge. pose proof (zlen_blocks_of l Hl) as Hz. unfold zlen in *. lia.
  - destruct Ht as (m & -> & Hm & Ht). rewrite fmap_cons. cbn [concat]. rewrite (IH m) by (done || lia). unfold sent_blocks. rewrite layer_part_range.
    pose proof (zlen_blocks_of l Hl) as Hz. destruct (Z.leb_spec (Z.min m (zlen (pl_block_ids l))) a); cbn [snd app].
    + rewrite !drop_ge by (unfold zlen in *; lia). done.
    + destruct (Z.le_gt_cases m (zlen (pl_block_ids l))).
      * rewrite Z.min_l by done. apply slice_drop. lia.
      * rewrite Z.min_r by lia. rewrite (drop_ge _ (Z.to_nat m)) by (unfold zlen in *; lia).
        rewrite <- (drop_ge (blocks_of l) (Z.to_nat (zlen (pl_block_ids l)))) by (unfold zlen in *; lia). apply slice_drop. lia.
Qed.

Lemma block_count_ge p l : l ∈ pr_layers p -> zlen (pl_block_ids l) <= block_count p.
Proof. unfold block_count. induction 1; rewrite fmap_cons; cbn [foldr]; lia. Qed.
Lemma block_count_nonneg p : 0 <= block_count p.
Proof. unfold block_count. induction (pr_layers p); [done|]. rewrite fmap_cons. cbn [foldr]. lia. Qed.

(** C36. Splitting a publication for an arena of any capacity is total and loses nothing.  Whenever the request can be sized,
    the client either produces payloads that each fit the capacity and that the receiver decodes as consecutive ranges of the
    request, so that the blocks received for every layer are, in order, exactly the layer's blocks, each once; or it refuses
    with the size of a payload that cannot be made smaller: a single position that exceeds the capacity, or the header of a
    request without blocks. *)
Theorem publish_payloads_exact p capacity n :
  publish_wf p -> encoded_len p None = Ok n ->
  match publish_payloads p capacity with
  | Ok payloads => exists ranges,
      (ranges = [None] \/ tiles 0 (block_count p) ranges) /\ Forall2 (delivers p capacity) ranges payloads /\
      forall l, l ∈ pr_layers p -> concat ((fun r => sent_blocks r l) <$> ranges) = blocks_of l
  | Err e => oversized p capacity e \/ (block_count p = 0 /\ capacity < n /\ e = PayloadTooLarge n capacity)
  end.
Proof.
  intros Hw Hn. destruct (encodable_inv p n Hn) as [He ->]. unfold publish_payloads. rewrite Hn. cbn [lift].
  assert (Hpar : forall l, l ∈ pr_layers p -> parallel l) by apply (proj1 (Forall_forall _ _) (enc_parallel p He)).
  destruct (Z.leb_spec (range_total p None) capacity) as [Hfit|Hbig].
  - destruct (encode_range_Ok p None Logic.I He ltac:(by eexists) (enc_fine p He)) as [b Hb]. unfold encode_publish. rewrite Hb. cbn [lift].
    destruct (encode_range_chunk p None b Hw Logic.I Hb) as [Hdec Hlen]. rewrite Hn in Hlen. injection Hlen as Hlen.
    exists [None]. split; [by left|]. split; [constructor; [split; [done|lia]|constructor]|]. intros l Hl. change (sent_blocks None l ++ [] = blocks_of l). rewrite app_nil_r.
    unfold sent_blocks. by rewrite (layer_part_none l (Hpar l Hl)).
  - destruct (Z.eqb_spec (block_count p) 0) as [Hz|Hz]; [by right|]. pose proof (block_count_nonneg p).
    pose proof (split_chunks_spec (Z.to_nat (block_count p)) p capacity 0 Hw He ltac:(lia) ltac:(lia)) as Hs.
    destruct (split_chunks _ p capacity 0) as [pls|e]; [|by left]. destruct Hs as (rs & Ht & Hd). exists rs. split; [by right|].
    split; [done|]. intros l Hl. rewrite (tiles_blocks 0 (block_count p) rs l) by (done || auto || by apply block_count_ge). done.
Qed.

Definition sample_publish : PublishRequest :=
  mkPublish (str "engine") (replicate 16 (byte_of 7)) 0 0 (-1)
    [mkPublishLayer (str "l0") [4; 5; 6] [str "aa"; str "bb"; str "cc"]; mkPublishLayer (str "l1") [9] [str "dd"]].

Lemma publish_payloads_exact_witness :
  let p := sample_publish in
  publish_wf p /\ encoded_len p None = Ok 110 /\
  match publish_payloads p 95 with
  | Ok payloads => exists ranges,
      (ranges = [None] \/ tiles 0 (block_count p) ranges) /\ Forall2 (delivers p 95) ranges payloads /\
      forall l, l ∈ pr_layers p -> concat ((fun r => sent_blocks r l) <$> ranges) = blocks_of l
  | Err e => oversized p 95 e \/ (block_count p = 0 /\ 95 < 110 /\ e = PayloadTooLarge 110 95)
  end /\
  zlen <$> (match publish_payloads p 95 with Ok l => l | Err _ => [] end) = [90; 80].
Proof.
  assert (Hw : publish_wf sample_publish) by (unfold publish_wf, is_u32, is_i32; cbn; repeat split; repeat constructor; try done; lia).
  split; [exact Hw|]. split; [vm_compute; reflexivity|]. split; [|vm_compute; reflexivity].
  apply (publish_payloads_exact sample_publish 95 110 Hw). vm_compute. reflexivity.
Defined.
