(* ===== verification/QueryBudget.v ===== *)
(** * Query byte reservations

    orbitkv-core/src/query/mod.rs: bytes reserved from the admission of a query to its last GPU
    consumer.  Reservations are shared ([Arc]); the store maps an address to the reservation and its
    strong count, and the last drop returns the bytes.  Unsigned subtractions that would underflow
    are [None] (a panic with overflow checks): the invariant shows that none happens. *)
From S2P Require Import Prelude Containers State.

Local Open Scope Z_scope.

(** ** Data *)

Record QueryOwner := mkOwner { owner_session : Z; owner_operation : Z; owner_revision : Z }.
#[export] Instance QueryOwner_eq_dec : EqDecision QueryOwner.
Proof. solve_decision. Defined.

Inductive QueryMode := Demand | WaitForFullPrefix | Warmup | Prepare.
#[export] Instance QueryMode_eq_dec : EqDecision QueryMode.
Proof. solve_decision. Defined.

Inductive Phase := Warming | Preloading | Prepared | Preparing | Ready | Restoring.
#[export] Instance Phase_eq_dec : EqDecision Phase.
Proof. solve_decision. Defined.

Definition speculative (p : Phase) : bool := match p with Warming | Preloading | Prepared => true | _ => false end.

Record Usage := mkUsage {
  total : Z;
  instances : gmap bytes Z;
  warming : Z;
  warming_instances : gmap bytes Z
}.

Record Reservation := mkReservation {
  res_instance : bytes;
  res_namespace : bytes;
  res_bytes : Z;
  res_phase : Phase
}.

(** [QueryReservation(Arc<Reservation>, Option<[u8; 16]>)]: the address and the bound registration. *)
Record QueryReservation := mkHandle { arc : Z; registration : option bytes }.

Record QueryBudget := mkBudget {
  global : Z;
  per_instance : Z;
  usage : Usage;
  total_peak : Z;
  instance_peak : Z;
  reservations : gmap Z (Reservation * Z);
  next_arc : Z
}.

(** [Accepted] is the source's variant of a granted reservation. *)
Inductive QueryAdmission := Accepted (r : QueryReservation) | Busy | TooLarge.

Definition i64_max : Z := 9223372036854775807.

Definition budget_new (global per_instance : Z) : result QueryBudget string :=
  if (global =? 0) || (per_instance =? 0) || (global <? per_instance) || (i64_max <? global)
  then Err "query byte limits must satisfy 0 < instance <= global <= i64::MAX"%string
  else Ok (mkBudget global per_instance (mkUsage 0 ∅ 0 ∅) 0 0 ∅ 0).

(** ** Operations *)

Definition sub_u64 (a b : Z) : option Z := if b <=? a then Some (a - b) else None.
Definition used (m : gmap bytes Z) (instance : bytes) : Z := default 0 (m !! instance).
Definition add_used (m : gmap bytes Z) (instance : bytes) (n : Z) : gmap bytes Z := <[instance := used m instance + n]> m.

(** [*used -= bytes; if *used == 0 { remove }], when the instance is present. *)
Definition sub_used (m : gmap bytes Z) (instance : bytes) (n : Z) : option (gmap bytes Z) :=
  match m !! instance with
  | None => Some m
  | Some u => v ← sub_u64 u n; Some (if v =? 0 then delete instance m else <[instance := v]> m)
  end.

Definition with_usage (b : QueryBudget) (u : Usage) : QueryBudget :=
  mkBudget (global b) (per_instance b) u (total_peak b) (instance_peak b) (reservations b) (next_arc b).
Definition with_reservations (b : QueryBudget) (m : gmap Z (Reservation * Z)) : QueryBudget :=
  mkBudget (global b) (per_instance b) (usage b) (total_peak b) (instance_peak b) m (next_arc b).

Definition is_warming (mode : QueryMode) : bool := match mode with Warmup | Prepare => true | _ => false end.
Definition admitted_phase (mode : QueryMode) : Phase :=
  if is_warming mode then if bool_decide (mode = Prepare) then Preloading else Warming else Preparing.

(** The subtractions of the admission test, in the order of the code. *)
Definition exceeds (b : QueryBudget) (instance : bytes) (bytes : Z) (warm : bool) : option bool :=
  let u := usage b in
  g ← sub_u64 (global b) (total u);
  if g <? bytes then Some true else
  i ← sub_u64 (per_instance b) (used (instances u) instance);
  if i <? bytes then Some true else
  if negb warm then Some false else
  w ← sub_u64 (global b / 4) (warming u);
  if w <? bytes then Some true else
  wi ← sub_u64 (per_instance b / 4) (used (warming_instances u) instance);
  Some (wi <? bytes).

Definition reserve (b : QueryBudget) (instance namespace : bytes) (bytes : Z) (mode : QueryMode) : option (QueryAdmission * QueryBudget) :=
  let warm := is_warming mode in
  let u := usage b in
  if (if warm then per_instance b / 4 else per_instance b) <? bytes then Some (TooLarge, b)
  else if bool_decide (mode = Warmup) && (warming u <? total u) then Some (Busy, b)
  else
    over ← exceeds b instance bytes warm;
    if over : bool then Some (Busy, b)
    else
      let instance_used := used (instances u) instance in
      let u' := mkUsage (total u + bytes) (add_used (instances u) instance bytes)
                  (if warm then warming u + bytes else warming u)
                  (if warm then add_used (warming_instances u) instance bytes else warming_instances u) in
      Some (Accepted (mkHandle (next_arc b) None),
            mkBudget (global b) (per_instance b) u' (Z.max (total_peak b) (total u')) (Z.max (instance_peak b) (instance_used + bytes))
              (<[next_arc b := (mkReservation instance namespace bytes (admitted_phase mode), 1)]> (reservations b)) (next_arc b + 1)).

Definition bind_registration (h : QueryReservation) (generation : bytes) : QueryReservation := mkHandle (arc h) (Some generation).

Definition release_speculative (u : Usage) (instance : bytes) (n : Z) : option Usage :=
  w ← sub_u64 (warming u) n;
  wi ← sub_used (warming_instances u) instance n;
  Some (mkUsage (total u) (instances u) w wi).

Definition release_bytes (b : QueryBudget) (r : Reservation) (n : Z) (phase : Phase) : option QueryBudget :=
  t ← sub_u64 (total (usage b)) n;
  let u := mkUsage t (instances (usage b)) (warming (usage b)) (warming_instances (usage b)) in
  u ← (if speculative phase then release_speculative u (res_instance r) n else Some u);
  i ← sub_used (instances u) (res_instance r) n;
  Some (with_usage b (mkUsage (total u) i (warming u) (warming_instances u))).

Definition set_state (b : QueryBudget) (a : Z) (r : Reservation) (n : Z) (bytes : Z) (phase : Phase) : QueryBudget :=
  with_reservations b (<[a := (mkReservation (res_instance r) (res_namespace r) bytes phase, n)]> (reservations b)).

(** [QueryReservation::ready]: [false] is the error of a result that exceeds its reservation. *)
Definition ready (b : QueryBudget) (h : QueryReservation) (bytes : Z) : option (bool * QueryBudget) :=
  match reservations b !! arc h with
  | None => None
  | Some (r, n) =>
      if negb (bool_decide (res_phase r = Preparing) || bool_decide (res_phase r = Preloading)) || (res_bytes r <? bytes)
      then Some (false, b)
      else
        b' ← release_bytes b r (res_bytes r - bytes) (res_phase r);
        Some (true, set_state b' (arc h) r n bytes (if bool_decide (res_phase r = Preloading) then Prepared else Ready))
  end.

Definition batch_blocks (b : QueryBudget) (h : QueryReservation) (requested byte_limit : Z) : option Z :=
  match reservations b !! arc h with
  | None => None
  | Some (r, _) =>
      Some (if (requested =? 0) || (byte_limit =? 0) || (res_bytes r =? 0) then Z.max requested 1
            else Z.max (byte_limit / Z.max (res_bytes r / requested) 1) 1)
  end.

Definition claim (b : QueryBudget) (h : QueryReservation) : option QueryBudget :=
  match reservations b !! arc h with
  | None => None
  | Some (r, n) =>
      if bool_decide (res_phase r = Prepared) then
        u ← release_speculative (usage b) (res_instance r) (res_bytes r);
        Some (set_state (with_usage b u) (arc h) r n (res_bytes r) Ready)
      else Some b
  end.

Definition restoring (b : QueryBudget) (h : QueryReservation) : option QueryBudget :=
  match reservations b !! arc h with
  | None => None
  | Some (r, n) => Some (if bool_decide (res_phase r = Ready) then set_state b (arc h) r n (res_bytes r) Restoring else b)
  end.

(** [Clone] and [Drop] of the shared reservation. *)
Definition clone_handle (b : QueryBudget) (h : QueryReservation) : option QueryBudget :=
  '(r, n) ← reservations b !! arc h; Some (with_reservations b (<[arc h := (r, n + 1)]> (reservations b))).
Definition drop_handle (b : QueryBudget) (h : QueryReservation) : option QueryBudget :=
  '(r, n) ← reservations b !! arc h;
  if n =? 1 then release_bytes (with_reservations b (delete (arc h) (reservations b))) r (res_bytes r) (res_phase r)
  else Some (with_reservations b (<[arc h := (r, n - 1)]> (reservations b))).

(** ** Accounting

    A counter of the usage is selected by an instance (or none: the whole budget) and by whether it
    covers speculative bytes only.  [recorded] is its value, [amount] what it has to be: the bytes of
    the live reservations it covers. *)

Definition covers (i : option bytes) (s : bool) (r : Reservation) : bool :=
  match i with None => true | Some i => bool_decide (res_instance r = i) end && (negb s || speculative (res_phase r)).
Definition weight (i : option bytes) (s : bool) (r : Reservation) : Z := if covers i s r then res_bytes r else 0.
Definition amount (b : QueryBudget) (i : option bytes) (s : bool) : Z := map_sum (fun _ p => weight i s p.1) (reservations b).
Definition recorded (u : Usage) (i : option bytes) (s : bool) : Z :=
  match i, s with
  | None, false => total u
  | Some i, false => used (instances u) i
  | None, true => warming u
  | Some i, true => used (warming_instances u) i
  end.
Definition limit (b : QueryBudget) (i : option bytes) (s : bool) : Z :=
  let l := match i with None => global b | Some _ => per_instance b end in if s then l / 4 else l.

(** The usage records [d] bytes more than the live reservations hold. *)
Definition owes (b : QueryBudget) (d : option bytes -> bool -> Z) : Prop :=
  forall i s, recorded (usage b) i s = amount b i s + d i s.

Record accounted (b : QueryBudget) : Prop := {
  acc_limits : 0 < per_instance b <= global b /\ global b <= i64_max;
  acc_bytes : forall a r n, reservations b !! a = Some (r, n) -> 0 <= res_bytes r;
  acc_fresh : forall a, next_arc b <= a -> reservations b !! a = None;
  acc_bound : forall i s, recorded (usage b) i s <= limit b i s;
  acc_peaks : total (usage b) <= total_peak b <= global b /\
    instance_peak b <= per_instance b /\ forall i, used (instances (usage b)) i <= instance_peak b
}.

Definition sound (b : QueryBudget) : Prop := accounted b /\ owes b (fun _ _ => 0).

Lemma weight_nonneg i s r : 0 <= res_bytes r -> 0 <= weight i s r.
Proof. unfold weight. destruct (covers i s r); lia. Qed.
Lemma amount_nonneg b i s : accounted b -> 0 <= amount b i s.
Proof. intros H. apply map_sum_nonneg. intros a [r n] Ha. by eapply weight_nonneg, acc_bytes. Qed.

(** *** Steps on a counter *)

Lemma sub_u64_Some a b : b <= a -> sub_u64 a b = Some (a - b).
Proof. unfold sub_u64. by intros ->%Z.leb_le. Qed.

Lemma used_add m i n j : used (add_used m i n) j = used m j + (if decide (j = i) then n else 0).
Proof.
  unfold add_used, used at 1. destruct (decide (j = i)) as [->|Hne]; [by rewrite lookup_insert_eq|].
  rewrite lookup_insert_ne by done. unfold used. lia.
Qed.

Lemma used_sub m i n :
  n <= used m i -> (m !! i = None -> n = 0) ->
  exists m', sub_used m i n = Some m' /\ forall j, used m' j = used m j - (if decide (j = i) then n else 0).
Proof.
  intros Hle Hn. unfold sub_used. destruct (m !! i) as [u|] eqn:E.
  - assert (used m i = u) as Hu by (unfold used; by rewrite E). rewrite sub_u64_Some by lia. simpl. eexists. split; [done|]. intros j.
    destruct (decide (j = i)) as [->|Hne]; (destruct (Z.eqb_spec (u - n) 0));
      unfold used; rewrite ?lookup_delete_eq, ?lookup_insert_eq, ?lookup_delete_ne, ?lookup_insert_ne, ?E by done; simpl; lia.
  - exists m. split; [done|]. rewrite Hn by done. intros j. destruct (decide _); lia.
Qed.

Lemma used_sub' m i n :
  0 <= n <= used m i -> exists m', sub_used m i n = Some m' /\ forall j, used m' j = used m j - (if decide (j = i) then n else 0).
Proof. intros Hn. apply used_sub; [lia|]. intros Hm. unfold used in Hn. rewrite Hm in Hn. simpl in Hn. lia. Qed.

Lemma decide_same (i : bytes) (x y : Z) : (if decide (i = i) then x else y) = x.
Proof. by rewrite decide_True. Qed.

(** Returning bytes to the counters that cover a reservation of that size. *)
Lemma release_speculative_spec u i n :
  0 <= n <= warming u -> n <= used (warming_instances u) i ->
  exists u', release_speculative u i n = Some u' /\
    forall j s, recorded u' j s = recorded u j s - (if s && match j with None => true | Some j => bool_decide (i = j) end then n else 0).
Proof.
  intros Hn Hi. unfold release_speculative. rewrite sub_u64_Some by lia. simpl.
  destruct (used_sub' (warming_instances u) i n ltac:(lia)) as (m' & -> & Hm). simpl. eexists. split; [done|].
  intros [j|] []; simpl; try lia. rewrite Hm. destruct (decide (j = i)); [rewrite bool_decide_true by done|rewrite bool_decide_false by done]; lia.
Qed.

Lemma release_bytes_spec b r n phase :
  let part := mkReservation (res_instance r) (res_namespace r) n phase in
  0 <= n -> (forall i s, weight i s part <= recorded (usage b) i s) ->
  exists u', release_bytes b r n phase = Some (with_usage b u') /\
    forall i s, recorded u' i s = recorded (usage b) i s - weight i s part.
Proof.
  intros part Hn Hge. unfold release_bytes.
  pose proof (Hge None false) as H1. pose proof (Hge (Some (res_instance r)) false) as H2.
  unfold weight, covers in H1, H2. simpl in H1, H2. rewrite bool_decide_true in H2 by done. simpl in H2.
  rewrite sub_u64_Some by done. simpl. set (u := mkUsage _ _ _ _).
  assert (exists u1, (if speculative phase then release_speculative u (res_instance r) n else Some u) = Some u1 /\
    forall j s, recorded u1 j s = recorded u j s -
      (if speculative phase && s && match j with None => true | Some j => bool_decide (res_instance r = j) end then n else 0)) as (u1 & -> & Hu1).
  { destruct (speculative phase) eqn:Es; [|exists u; split; [done|intros; simpl; lia]].
    pose proof (Hge None true) as H3. pose proof (Hge (Some (res_instance r)) true) as H4.
    unfold weight, covers in H3, H4. simpl in H3, H4. rewrite Es in H3, H4. rewrite bool_decide_true in H4 by done. simpl in H4.
    apply release_speculative_spec; simpl; lia. }
  simpl. pose proof (Hu1 (Some (res_instance r)) false) as Hi. rewrite andb_false_r in Hi. simpl in Hi.
  destruct (used_sub' (instances u1) (res_instance r) n ltac:(lia)) as (m' & -> & Hm). simpl.
  eexists. split; [done|]. intros j s. specialize (Hu1 j s). unfold weight, covers. simpl.
  destruct j as [j|], s; simpl in *; rewrite ?andb_false_r, ?andb_true_r in *; rewrite ?Hm; simpl in *.
  - rewrite Hu1. by rewrite andb_comm.
  - rewrite Hu1. destruct (decide (j = res_instance r)); [rewrite bool_decide_true by done|rewrite bool_decide_false by done]; lia.
  - by rewrite Hu1.
  - rewrite Hu1. lia.
Qed.

(** *** Holders

    [counts b f]: the strong count of every address is its number of holders [f]; an address without
    holders has been freed. *)

Definition counts (b : QueryBudget) (f : Z -> Z) : Prop :=
  forall a, match reservations b !! a with Some (_, n) => n = f a /\ 0 < n | None => f a = 0 end.
Definition holder (h : QueryReservation) : Z -> Z := fun a => if decide (a = arc h) then 1 else 0.

Lemma counts_ext b f g : (forall a, f a = g a) -> counts b f -> counts b g.
Proof. intros H Hc a. specialize (Hc a). rewrite <- H. exact Hc. Qed.

Lemma counts_Some b f h : counts b f -> 0 < f (arc h) -> exists r n, reservations b !! arc h = Some (r, n) /\ n = f (arc h).
Proof.
  intros Hc Hf. specialize (Hc (arc h)). destruct (reservations b !! arc h) as [[r n]|]; [|lia]. exists r, n. by destruct Hc.
Qed.

Lemma amount_update b a r n r' n' i s :
  reservations b !! a = Some (r, n) ->
  map_sum (fun _ p => weight i s p.1) (<[a := (r', n')]> (reservations b)) = amount b i s - weight i s r + weight i s r'.
Proof. intros H. unfold amount. by rewrite (map_sum_update _ _ _ _ _ H). Qed.

Lemma clone_spec b h f :
  sound b -> counts b f -> 0 < f (arc h) ->
  exists b', clone_handle b h = Some b' /\ sound b' /\ counts b' (fun a => f a + holder h a).
Proof.
  intros [Ha Ho] Hc Hf. destruct (counts_Some b f h Hc Hf) as (r & n & Hr & ->). unfold clone_handle. rewrite Hr. simpl.
  eexists. split; [done|]. split; [split|].
  - destruct Ha as [H1 H2 H3 H4 H5]. constructor; try done; simpl.
    + intros a r' n'. destruct (decide (a = arc h)) as [->|Hne]; [|rewrite lookup_insert_ne by done; apply H2].
      rewrite lookup_insert_eq. intros [= <- <-]. by eapply H2.
    + intros a Hle. destruct (decide (a = arc h)) as [->|Hne]; [|rewrite lookup_insert_ne by done; by apply H3].
      rewrite H3 in Hr by done. done.
  - intros i s. specialize (Ho i s). unfold amount. simpl. rewrite (amount_update b _ _ _ _ _ i s Hr). simpl in *. lia.
  - intros a. specialize (Hc a). unfold holder. simpl. destruct (decide (a = arc h)) as [->|Hne].
    + rewrite lookup_insert_eq. split; [done|]. lia.
    + rewrite lookup_insert_ne by done. destruct (reservations b !! a) as [[? ?]|]; lia.
Qed.

(** Bytes that leave a reservation leave every counter that covers it, and nothing else. *)
Lemma accounted_usage b u m :
  accounted b -> (forall i s, recorded u i s <= recorded (usage b) i s) ->
  (forall a r n, m !! a = Some (r, n) -> exists r' n', reservations b !! a = Some (r', n') /\ 0 <= res_bytes r) ->
  accounted (with_usage (with_reservations b m) u).
Proof.
  intros [H1 H2 H3 H4 [H5 [H6 H7]]] Hu Hm. constructor; simpl; [done|..].
  - intros a r n Ha. by destruct (Hm a r n Ha) as (? & ? & _ & ?).
  - intros a Hle. destruct (m !! a) as [[r n]|] eqn:E; [|done]. destruct (Hm a r n E) as (? & ? & Hs & _). by rewrite H3 in Hs.
  - intros i s. etrans; [apply Hu|apply H4].
  - split; [pose proof (Hu None false); simpl in *; lia|]. split; [done|]. intros i. etrans; [apply (Hu (Some i) false)|apply H7].
Qed.

Lemma drop_spec b h f :
  sound b -> counts b f -> 0 < f (arc h) ->
  exists b', drop_handle b h = Some b' /\ sound b' /\ counts b' (fun a => f a - holder h a).
Proof.
  intros [Ha Ho] Hc Hf. destruct (counts_Some b f h Hc Hf) as (r & n & Hr & ->). unfold drop_handle. rewrite Hr. simpl.
  assert (Hb : 0 <= res_bytes r) by (by eapply acc_bytes).
  destruct (Z.eqb_spec (f (arc h)) 1) as [Hone|Hmany].
  - set (b1 := with_reservations b (delete (arc h) (reservations b))).
    assert (Ha1 : accounted b1).
    { change (accounted (with_usage (with_reservations b (delete (arc h) (reservations b))) (usage b))).
      apply (accounted_usage b (usage b) (delete (arc h) (reservations b))); [done|done|]. intros a r' n' [_ H']%lookup_delete_Some. exists r', n'. split; [done|by apply (acc_bytes b Ha a r' n')]. }
    assert (Hw : forall i s, recorded (usage b1) i s = amount b1 i s + weight i s r).
    { intros i s. specialize (Ho i s). unfold amount in *. simpl in *. rewrite (map_sum_delete _ _ _ _ Hr) in Ho. simpl in Ho. lia. }
    destruct (release_bytes_spec b1 r (res_bytes r) (res_phase r)) as (u' & -> & Hu); [done|..].
    { intros i s. rewrite Hw. pose proof (amount_nonneg b1 i s Ha1). destruct r. simpl in *. lia. }
    assert (Hle : forall i s, recorded u' i s <= recorded (usage b) i s).
    { intros i s. rewrite Hu. pose proof (weight_nonneg i s r Hb). destruct r. simpl in *. lia. }
    eexists. split; [done|]. split; [split|].
    + apply (accounted_usage b u' (delete (arc h) (reservations b))); [done|exact Hle|]. intros a r' n' [_ H']%lookup_delete_Some. exists r', n'. split; [done|by apply (acc_bytes b Ha a r' n')].
    + intros i s. simpl. rewrite Hu, Hw. destruct r. simpl. unfold amount. simpl. lia.
    + intros a. specialize (Hc a). unfold holder. simpl. destruct (decide (a = arc h)) as [->|Hne]; [rewrite lookup_delete_eq; lia|].
      rewrite lookup_delete_ne by done. destruct (reservations b !! a) as [[? ?]|]; lia.
  - eexists. split; [done|]. split; [split|].
    + change (accounted (with_usage (with_reservations b (<[arc h := (r, f (arc h) - 1)]> (reservations b))) (usage b))).
      apply (accounted_usage b (usage b) (<[arc h := (r, f (arc h) - 1)]> (reservations b))); [done|done|]. intros a r' n'. destruct (decide (a = arc h)) as [->|Hne].
      * rewrite lookup_insert_eq. intros [= <- <-]. by exists r, (f (arc h)).
      * rewrite lookup_insert_ne by done. intros H'. exists r', n'. split; [done|by apply (acc_bytes b Ha a r' n')].
    + intros i s. specialize (Ho i s). unfold amount. simpl. rewrite (amount_update b _ _ _ _ _ i s Hr). simpl in *. lia.
    + intros a. specialize (Hc a). unfold holder. simpl. destruct (decide (a = arc h)) as [->|Hne].
      * rewrite lookup_insert_eq. split; [done|]. rewrite Hr in Hc. lia.
      * rewrite lookup_insert_ne by done. destruct (reservations b !! a) as [[? ?]|]; lia.
Qed.

(** *** Admission *)

(** What an admission decides: the first limit that the request would exceed. *)
Definition fits (b : QueryBudget) (instance : bytes) (bytes : Z) (warm : bool) : bool :=
  (recorded (usage b) None false + bytes <=? limit b None false) &&
  (recorded (usage b) (Some instance) false + bytes <=? limit b (Some instance) false) &&
  (negb warm ||
   (recorded (usage b) None true + bytes <=? limit b None true) &&
   (recorded (usage b) (Some instance) true + bytes <=? limit b (Some instance) true)).

Lemma exceeds_fits b instance bytes warm :
  accounted b -> exceeds b instance bytes warm = Some (negb (fits b instance bytes warm)).
Proof.
  intros Ha. pose proof (acc_bound b Ha) as Hb. unfold exceeds, fits.
  pose proof (Hb None false). pose proof (Hb (Some instance) false). pose proof (Hb None true). pose proof (Hb (Some instance) true).
  unfold limit in *. simpl in *. rewrite !sub_u64_Some by done. simpl.
  destruct (Z.ltb_spec (global b - total (usage b)) bytes), (Z.leb_spec (total (usage b) + bytes) (global b)); simpl; try lia; [done|].
  destruct (Z.ltb_spec (per_instance b - used (instances (usage b)) instance) bytes),
    (Z.leb_spec (used (instances (usage b)) instance + bytes) (per_instance b)); simpl; try lia; [done|].
  destruct warm; simpl; [|done].
  destruct (Z.ltb_spec (global b / 4 - warming (usage b)) bytes), (Z.leb_spec (warming (usage b) + bytes) (global b / 4)); simpl; try lia; [done|].
  f_equal.
  destruct (Z.ltb_spec (per_instance b / 4 - used (warming_instances (usage b)) instance) bytes),
    (Z.leb_spec (used (warming_instances (usage b)) instance + bytes) (per_instance b / 4)); simpl; lia.
Qed.

Definition decision (b : QueryBudget) (instance : bytes) (bytes : Z) (mode : QueryMode) : QueryAdmission :=
  if limit b (Some instance) (is_warming mode) <? bytes then TooLarge
  else if bool_decide (mode = Warmup) && (warming (usage b) <? total (usage b)) then Busy
  else if fits b instance bytes (is_warming mode) then Accepted (mkHandle (next_arc b) None) else Busy.

Lemma admitted_speculative mode : speculative (admitted_phase mode) = is_warming mode.
Proof. by destruct mode. Qed.

Lemma budget_reserve_spec b instance ns bytes mode f :
  sound b -> counts b f -> 0 <= bytes ->
  exists b', reserve b instance ns bytes mode = Some (decision b instance bytes mode, b') /\ sound b' /\
    match decision b instance bytes mode with
    | Accepted h => counts b' (fun a => f a + holder h a) /\
        reservations b' !! arc h = Some (mkReservation instance ns bytes (admitted_phase mode), 1)
    | _ => b' = b
    end.
Proof.
  intros Hs Hc Hn. destruct Hs as [Ha Ho]. unfold reserve, decision, limit. destruct (_ <? bytes); [by exists b|].
  destruct (_ && _); [by exists b|]. rewrite exceeds_fits by done. simpl.
  destruct (fits b instance bytes (is_warming mode)) eqn:Hfit; simpl; [|by exists b]. eexists. split; [done|].
  set (r := mkReservation instance ns bytes (admitted_phase mode)). set (b' := mkBudget _ _ _ _ _ _ _).
  assert (Hfree : reservations b !! next_arc b = None) by (apply (acc_fresh b Ha); lia).
  assert (Hrec : forall i s, recorded (usage b') i s = recorded (usage b) i s + weight i s r).
  { intros i s. unfold weight, covers. simpl. rewrite admitted_speculative.
    destruct i as [i|], s, (is_warming mode); simpl; rewrite ?andb_false_r, ?andb_true_r; rewrite ?used_add; try lia.
    all: destruct (decide (i = instance)); [rewrite bool_decide_true by done|rewrite bool_decide_false by done]; lia. }
  unfold fits in Hfit. rewrite !andb_true_iff, orb_true_iff, andb_true_iff, !Z.leb_le in Hfit.
  destruct Hfit as [[Hf1 Hf2] Hf3]. rewrite negb_true_iff in Hf3. split; [split|].
  - destruct Ha as [H1 H2 H3 H4 [H5 [H6 H7]]]. constructor; [done|..].
    + intros a r' n'. simpl. destruct (decide (a = next_arc b)) as [->|Hne]; [|rewrite lookup_insert_ne by done; apply H2].
      rewrite lookup_insert_eq. by intros [= <- <-].
    + intros a. simpl. intros Hle. rewrite lookup_insert_ne by lia. apply H3. lia.
    + intros i s. rewrite Hrec. change (limit b' i s) with (limit b i s). specialize (H4 i s).
      destruct (covers i s r) eqn:Ecov; unfold weight; rewrite Ecov; [|lia]. unfold covers in Ecov. simpl in Ecov.
      rewrite admitted_speculative in Ecov. apply andb_true_iff in Ecov as [Ei Es]. destruct i as [i|].
      * apply bool_decide_eq_true in Ei as <-. destruct s; simpl in *; [destruct Hf3 as [?|[? ?]]; [congruence|done]|done].
      * destruct s; simpl in *; [destruct Hf3 as [?|[? ?]]; [congruence|done]|done].
    + simpl. unfold limit in *. simpl in *. split; [lia|]. split; [lia|]. intros i. rewrite used_add. specialize (H7 i).
      destruct (decide (i = instance)) as [->|]; lia.
  - intros i s. rewrite Hrec, (Ho i s). unfold amount. simpl. rewrite map_sum_insert by done. simpl. lia.
  - split; [|simpl; by rewrite lookup_insert_eq]. intros a. specialize (Hc a). unfold holder. simpl.
    destruct (decide (a = next_arc b)) as [->|Hne]; [rewrite lookup_insert_eq, Hfree in *; lia|].
    rewrite lookup_insert_ne by done. destruct (reservations b !! a) as [[? ?]|]; lia.
Qed.

(** *** Phase changes *)

Lemma counts_state b b' a r n f bytes phase :
  reservations b' = reservations b -> reservations b !! a = Some (r, n) -> counts b f -> counts (set_state b' a r n bytes phase) f.
Proof.
  intros He Hr Hc x. specialize (Hc x). simpl. rewrite He. destruct (decide (x = a)) as [->|Hne].
  - rewrite lookup_insert_eq. by rewrite Hr in Hc.
  - by rewrite lookup_insert_ne.
Qed.

Lemma sound_state b u a r n bytes phase :
  accounted b -> reservations b !! a = Some (r, n) -> 0 <= bytes ->
  (forall i s, recorded u i s <= recorded (usage b) i s) ->
  owes (with_usage b u) (fun i s => weight i s (mkReservation (res_instance r) (res_namespace r) bytes phase) - weight i s r) ->
  sound (set_state (with_usage b u) a r n bytes phase).
Proof.
  intros Ha Hr Hb Hu Ho. split.
  - change (accounted (with_usage (with_reservations b (<[a := (mkReservation (res_instance r) (res_namespace r) bytes phase, n)]> (reservations b))) u)).
    apply accounted_usage; [done|done|]. intros x r' n'. destruct (decide (x = a)) as [->|Hne].
    + rewrite lookup_insert_eq. intros [= <- <-]. by exists r, n.
    + rewrite lookup_insert_ne by done. intros H'. exists r', n'. split; [done|]. by apply (acc_bytes b Ha x r' n').
  - intros i s. specialize (Ho i s). unfold amount. simpl. rewrite (amount_update b _ _ _ _ _ i s Hr). unfold amount in *. simpl in *. lia.
Qed.

Lemma ready_spec b h bytes f :
  sound b -> counts b f -> 0 < f (arc h) -> 0 <= bytes ->
  exists ok b', ready b h bytes = Some (ok, b') /\ sound b' /\ counts b' f /\ (ok = false -> b' = b).
Proof.
  intros [Ha Ho] Hc Hf Hn. destruct (counts_Some b f h Hc Hf) as (r & n & Hr & Hfn). unfold ready. rewrite Hr.
  destruct (_ || (res_bytes r <? bytes)) eqn:E; [by exists false, b|]. apply orb_false_iff in E as [Hph Hle%Z.ltb_ge].
  apply negb_false_iff, orb_true_iff in Hph. rewrite !bool_decide_eq_true in Hph.
  set (phase' := if bool_decide (res_phase r = Preloading) then Prepared else Ready).
  assert (Hsp : speculative phase' = speculative (res_phase r)) by (unfold phase'; by destruct Hph as [-> | ->]).
  set (part := mkReservation (res_instance r) (res_namespace r) (res_bytes r - bytes) (res_phase r)).
  assert (Hw : forall i s, weight i s (mkReservation (res_instance r) (res_namespace r) bytes phase') + weight i s part = weight i s r).
  { intros i s. unfold weight, covers. simpl. rewrite Hsp. destruct (_ && _); lia. }
  destruct (release_bytes_spec b r (res_bytes r - bytes) (res_phase r)) as (u' & -> & Hu); [lia|..].
  { intros i s. fold part. rewrite (Ho i s). unfold amount. rewrite (map_sum_delete _ _ _ _ Hr). simpl.
    assert (0 <= map_sum (fun _ p => weight i s p.1) (delete (arc h) (reservations b))).
    { apply map_sum_nonneg. intros a [r' n'] [_ H']%lookup_delete_Some. apply weight_nonneg. by apply (acc_bytes b Ha a r' n'). }
    pose proof (weight_nonneg i s (mkReservation (res_instance r) (res_namespace r) bytes phase') Hn). specialize (Hw i s). lia. }
  simpl. eexists true, _. split; [done|]. split; [|split; [by eapply counts_state|done]].
  apply sound_state; [done|done|done|..].
  - intros i s. rewrite Hu. fold part. pose proof (weight_nonneg i s part ltac:(simpl; lia)). lia.
  - intros i s. simpl. rewrite Hu. fold part. rewrite (Ho i s). unfold amount. simpl. specialize (Hw i s). fold phase'. lia.
Qed.

Lemma claim_spec b h f :
  sound b -> counts b f -> 0 < f (arc h) -> exists b', claim b h = Some b' /\ sound b' /\ counts b' f.
Proof.
  intros [Ha Ho] Hc Hf. destruct (counts_Some b f h Hc Hf) as (r & n & Hr & Hfn). unfold claim. rewrite Hr.
  destruct (bool_decide_reflect (res_phase r = Prepared)) as [Hp|]; [|by exists b].
  assert (Hb : 0 <= res_bytes r) by (by apply (acc_bytes b Ha (arc h) r n)).
  assert (Hge : forall i s, weight i s r <= recorded (usage b) i s).
  { intros i s. rewrite (Ho i s). unfold amount. rewrite (map_sum_delete _ _ _ _ Hr). simpl.
    assert (0 <= map_sum (fun _ p => weight i s p.1) (delete (arc h) (reservations b))); [|lia].
    apply map_sum_nonneg. intros a [r' n'] [_ H']%lookup_delete_Some. apply weight_nonneg. by apply (acc_bytes b Ha a r' n'). }
  pose proof (Hge None true) as H1. pose proof (Hge (Some (res_instance r)) true) as H2. unfold weight, covers in H1, H2.
  rewrite Hp in H1, H2. simpl in H1, H2. rewrite bool_decide_true in H2 by done. simpl in H2.
  destruct (release_speculative_spec (usage b) (res_instance r) (res_bytes r)) as (u' & -> & Hu); [lia|done|].
  simpl. eexists. split; [done|]. split; [|by eapply counts_state].
  apply sound_state; [done|done|done|..].
  - intros i s. rewrite Hu. destruct (_ && _); lia.
  - intros i s. simpl. rewrite Hu, (Ho i s). unfold amount, weight, covers. simpl. rewrite Hp. simpl.
    destruct i as [i|], s; simpl; rewrite ?andb_true_r, ?andb_false_r; try lia; destruct (bool_decide _); lia.
Qed.

Lemma restoring_spec b h f :
  sound b -> counts b f -> 0 < f (arc h) -> exists b', restoring b h = Some b' /\ sound b' /\ counts b' f.
Proof.
  intros [Ha Ho] Hc Hf. destruct (counts_Some b f h Hc Hf) as (r & n & Hr & Hfn). unfold restoring. rewrite Hr.
  destruct (bool_decide_reflect (res_phase r = Ready)) as [Hp|]; [|by exists b].
  eexists. split; [done|]. split; [|by eapply counts_state].
  apply (sound_state b (usage b)); [done|done|by apply (acc_bytes b Ha (arc h) r n)|done|].
  intros i s. specialize (Ho i s). unfold amount, weight, covers in *. simpl in *. rewrite Hp. simpl. lia.
Qed.

Lemma new_spec g p b : 0 <= g -> 0 <= p -> budget_new g p = Ok b -> sound b /\ counts b (fun _ => 0).
Proof.
  intros Hg Hp. unfold budget_new. destruct (_ || _) eqn:E; [done|]. rewrite !orb_false_iff, !Z.eqb_neq, !Z.ltb_ge in E.
  destruct E as [[[? ?] ?] ?]. intros [= <-]. split; [split|].
  - constructor; simpl; [lia|done|done| |].
    + intros [i|] []; unfold limit, recorded, used; cbn; rewrite ?lookup_empty; cbn; first [lia | apply Z.div_pos; lia].
    + split; [lia|]. split; [lia|]. intros i. unfold used. rewrite lookup_empty. done.
  - intros [i|] []; done.
  - intros a. done.
Qed.
