(* ===== verification/QueryLease.v ===== *)
(** * Query leases

    orbitkv-core/src/query/lease.rs with the engine calls of engine/query.rs that move byte
    reservations through it: a query's reservation becomes the ownership of its result lease, every
    consumer of the lease takes a share, and the last holder returns the bytes.  The leased blocks
    are of any type; fresh lease ids and clock readings are arguments. *)
From S2P Require Import Prelude Containers State QueryBudget.

Local Open Scope Z_scope.
Local Open Scope rust_scope.

Inductive EngineError :=
| InstanceMissing (instance : bytes)
| WorkerMissing (instance : bytes) (device : Z)
| InvalidArgument (message : string)
| CudaInit (message : string)
| Storage (message : string)
| Poisoned (what : string)
| TopologyMismatch (message : string).

#[local] Arguments InvalidArgument message%_string.
#[local] Arguments Storage message%_string.

Definition DEFAULT_LEASE_TTL : Z := 600 * 1000000000.

(** [QueryLeaseId::from_bytes]: a lease id is sixteen bytes. *)
Definition lease_id_of (b : bytes) : result bytes string :=
  if zlen b =? 0 then Err "query lease id must be non-empty"%string
  else if zlen b =? 16 then Ok b
  else Err "query lease id must be 16 bytes"%string.

Section Leases.
Context {B : Type}.

Record Lease := mkLease {
  lease_instance : bytes;
  lease_blocks : list B;
  remaining_consumers : Z;
  expires_at : Z;
  ownership : option (QueryOwner * QueryReservation)
}.

(** The budget with its reservations, and the lease table. *)
Record Manager := mkManager { budget : QueryBudget; leases : gmap bytes Lease }.

(** ** Dropping leases *)

Definition drop_lease (b : QueryBudget) (l : Lease) : option QueryBudget :=
  match ownership l with Some (_, h) => drop_handle b h | None => Some b end.
Fixpoint drop_leases (b : QueryBudget) (ls : list Lease) : option QueryBudget :=
  match ls with [] => Some b | l :: ls => b ← drop_lease b l; drop_leases b ls end.

(** [HashMap::retain]: the leases that are not kept are dropped. *)
Definition retain_leases (keep : Lease -> bool) (m : Manager) : option Manager :=
  b ← drop_leases (budget m) (map_to_list (filter (fun p => keep p.2 = false) (leases m))).*2;
  Some (mkManager b (filter (fun p => keep p.2 = true) (leases m))).

Definition sweep_expired (now : Z) : Manager -> option Manager := retain_leases (fun l => now <? expires_at l).
Definition release_instance (instance : bytes) : Manager -> option Manager :=
  retain_leases (fun l => negb (bool_decide (lease_instance l = instance))).
Definition release_owner (matches : QueryOwner -> bool) : Manager -> option Manager :=
  retain_leases (fun l => negb (match ownership l with Some (o, _) => matches o | None => false end)).

(** [HashMap::insert] drops the value it replaces. *)
Definition insert_lease (token : bytes) (l : Lease) (m : Manager) : option Manager :=
  b ← (match leases m !! token with Some old => drop_lease (budget m) old | None => Some (budget m) end);
  Some (mkManager b (<[token := l]> (leases m))).

(** [QueryLeaseManager::create]. *)
Definition create (now : Z) (token instance : bytes) (blocks : list B) (consumers : Z)
    (owned : option (QueryOwner * QueryReservation)) (m : Manager) : option Manager :=
  m ← sweep_expired now m;
  insert_lease token (mkLease instance blocks (Z.max consumers 1) (now + DEFAULT_LEASE_TTL) owned) m.

Definition claim_lease (token : bytes) (m : Manager) : option Manager :=
  match leases m !! token with
  | Some l => match ownership l with
              | Some (_, h) => b ← claim (budget m) h; Some (mkManager b (leases m))
              | None => Some m
              end
  | None => Some m
  end.

Fixpoint validate_registration (m : Manager) (tokens : list bytes) (generation : bytes) : result unit EngineError :=
  match tokens with
  | [] => Ok tt
  | token :: tokens =>
      match leases m !! token with
      | None => Err (Storage "query lease is unknown or expired")
      | Some l =>
          match ownership l with
          | Some (_, h) =>
              if bool_decide (registration h = Some generation) then validate_registration m tokens generation
              else Err (InvalidArgument "query lease registration changed")
          | None => validate_registration m tokens generation
          end
      end
  end.

(** [release]: the expired leases go first, so an expired lease is unknown. *)
Definition release (now : Z) (token : bytes) (m : Manager) : option (bool * Manager) :=
  m ← sweep_expired now m;
  match leases m !! token with
  | None => Some (false, m)
  | Some l => b ← drop_lease (budget m) l; Some (true, mkManager b (delete token (leases m)))
  end.

(** ** Consuming a batch *)

Fixpoint check_tokens (now : Z) (instance : bytes) (m : gmap bytes Lease) (seen tokens : list bytes) : result unit EngineError :=
  match tokens with
  | [] => Ok tt
  | token :: tokens =>
      if bool_decide (token ∈ seen) then Err (InvalidArgument "restore batch contains duplicate query lease")
      else
        match m !! token with
        | Some l =>
            if now <? expires_at l then
              if bool_decide (lease_instance l = instance) then check_tokens now instance m (token :: seen) tokens
              else Err (Storage "query lease belongs to another instance")
            else Err (Storage "query lease is unknown or expired")
        | None => Err (Storage "query lease is unknown or expired")
        end
  end.

(** One consumer's share: the last one takes the lease. *)
Definition consume_one (token : bytes) (m : Manager) : option (list B * list QueryReservation * Manager) :=
  l ← leases m !! token;
  if 1 <? remaining_consumers l then
    let l' := mkLease (lease_instance l) (lease_blocks l) (remaining_consumers l - 1) (expires_at l) (ownership l) in
    match ownership l with
    | Some (_, h) =>
        b ← clone_handle (budget m) h; Some (lease_blocks l, [h], mkManager b (<[token := l']> (leases m)))
    | None => Some (lease_blocks l, [], mkManager (budget m) (<[token := l']> (leases m)))
    end
  else Some (lease_blocks l, match ownership l with Some (_, h) => [h] | None => [] end,
             mkManager (budget m) (delete token (leases m))).

Fixpoint consume_all (tokens : list bytes) (m : Manager) : option (list B * list QueryReservation * Manager) :=
  match tokens with
  | [] => Some ([], [], m)
  | token :: tokens =>
      '(blocks, hs, m) ← consume_one token m;
      '(blocks', hs', m) ← consume_all tokens m;
      Some (blocks ++ blocks', hs ++ hs', m)
  end.

Definition leased (m : gmap bytes Lease) (tokens : list bytes) : list (list B) := omap (fun t => lease_blocks <$> m !! t) tokens.

Definition consume_batch {T} (now : Z) (instance : bytes) (tokens : list bytes) (validate : list (list B) -> result T EngineError)
    (m : Manager) : option (result (T * list B * list QueryReservation) EngineError * Manager) :=
  match check_tokens now instance (leases m) [] tokens with
  | Err e => Some (Err e, m)
  | Ok _ =>
      match validate (leased (leases m) tokens) with
      | Err e => Some (Err e, m)
      | Ok t => '(blocks, hs, m) ← consume_all tokens m; Some (Ok (t, blocks, hs), m)
      end
  end.

(** ** The engine's calls *)

Record Topology := mkTopology { cache_namespace : bytes; group_block_bytes : Z -> result Z EngineError }.
Record Instance := mkInstance { generation : bytes; world_size : Z; sealed_topology : result Topology EngineError }.

Definition get_instance (insts : gmap bytes Instance) (id : bytes) : result Instance EngineError :=
  match insts !! id with Some i => Ok i | None => Err (InstanceMissing id) end.

Definition u64_of_mul (a b : Z) : option Z := if a * b <=? u64_max then Some (a * b) else None.

(** [reserve_query]. *)
Definition reserve_query (insts : gmap bytes Instance) (id : bytes) (group blocks : Z) (mode : QueryMode) (m : Manager)
    : option (result QueryAdmission EngineError * Manager) :=
  match (let? i := get_instance insts id in let? t := sealed_topology i in
         let? n := group_block_bytes t group in
         match u64_of_mul n blocks with Some n => Ok (i, t, n) | None => Err (InvalidArgument "query bytes overflow") end) with
  | Err e => Some (Err e, m)
  | Ok (i, t, n) =>
      '(a, b) ← reserve (budget m) id (cache_namespace t) n mode;
      Some (Ok (match a with Accepted h => Accepted (bind_registration h (generation i)) | a => a end), mkManager b (leases m))
  end.

Variable memory_footprint : B -> Z.

Fixpoint sum_footprints (sum : Z) (blocks : list B) : option Z :=
  match blocks with
  | [] => Some sum
  | x :: blocks => if sum + memory_footprint x <=? u64_max then sum_footprints (sum + memory_footprint x) blocks else None
  end.

(** The checks of [finish_query] before the reservation is touched. *)
Definition finish_checks (insts : gmap bytes Instance) (r : Reservation) (h : QueryReservation) (blocks : list B) : result (Z * Z) EngineError :=
  match insts !! res_instance r with
  | None => Err (InstanceMissing (res_instance r))
  | Some i =>
      if negb (bool_decide (registration h = Some (generation i))) then Err (InvalidArgument "query instance registration changed")
      else
        match sealed_topology i with
        | Err e => Err e
        | Ok t =>
            if negb (bool_decide (cache_namespace t = res_namespace r)) then Err (InvalidArgument "query instance registration changed")
            else match sum_footprints 0 blocks with
                 | None => Err (InvalidArgument "query result bytes overflow")
                 | Some n => Ok (n, world_size i)
                 end
        end
  end.

(** [finish_query] takes the reservation by value: it is dropped when the call returns. *)
Definition finish_query (now : Z) (token : bytes) (insts : gmap bytes Instance) (h : QueryReservation) (owner : QueryOwner)
    (blocks : list B) (m : Manager) : option (result bytes EngineError * Manager) :=
  '(r, _) ← reservations (budget m) !! arc h;
  match finish_checks insts r h blocks with
  | Err e => b ← drop_handle (budget m) h; Some (Err e, mkManager b (leases m))
  | Ok (n, world) =>
      '(ok, b) ← ready (budget m) h n;
      if ok : bool then
        b ← clone_handle b h;
        m ← create now token (res_instance r) blocks world (Some (owner, h)) (mkManager b (leases m));
        b ← drop_handle (budget m) h;
        Some (Ok token, mkManager b (leases m))
      else
        b ← drop_handle b h;
        Some (Err (InvalidArgument "query result exceeds its registered layout byte reservation"), mkManager b (leases m))
  end.

(** [create_query_lease]: without a reservation. *)
Definition create_query_lease (now : Z) (token : bytes) (insts : gmap bytes Instance) (id : bytes) (blocks : list B) (m : Manager)
    : option (result bytes EngineError * Manager) :=
  match get_instance insts id with
  | Err e => Some (Err e, m)
  | Ok i =>
      match blocks with
      | [] => Some (Err (InvalidArgument "query lease requires at least one block"), m)
      | _ => m ← create now token id blocks (world_size i) None m; Some (Ok token, m)
      end
  end.

Definition release_query_session (session : Z) : Manager -> option Manager := release_owner (fun o => owner_session o =? session).
Definition cancel_query (owner : QueryOwner) : Manager -> option Manager := release_owner (fun o => bool_decide (o = owner)).

(** [PreparedRestore::prepare]: the consumed reservations enter their restore phase. *)
Fixpoint restoring_all (b : QueryBudget) (hs : list QueryReservation) : option QueryBudget :=
  match hs with [] => Some b | h :: hs => b ← restoring b h; restoring_all b hs end.
Definition prepare_restore {T} (now : Z) (instance : bytes) (tokens : list bytes) (validate : list (list B) -> result T EngineError)
    (m : Manager) : option (result (T * list B * list QueryReservation) EngineError * Manager) :=
  '(r, m) ← consume_batch now instance tokens validate m;
  match r with
  | Err e => Some (Err e, m)
  | Ok (t, blocks, hs) => b ← restoring_all (budget m) hs; Some (Ok (t, blocks, hs), mkManager b (leases m))
  end.

(** ** Holders of reservations *)

Definition owned (l : Lease) (a : Z) : Z := match ownership l with Some (_, h) => holder h a | None => 0 end.
Definition lease_holders (m : gmap bytes Lease) (a : Z) : Z := map_sum (fun _ l => owned l a) m.

(** The invariant of the manager, where [f] counts the holders of reservations outside of it: the
    budget is sound, every strong count is the number of holders, and leases have consumers left. *)
Record well_held (m : Manager) (f : Z -> Z) : Prop := {
  wh_sound : sound (budget m);
  wh_counts : counts (budget m) (fun a => f a + lease_holders (leases m) a);
  wh_outside : forall a, 0 <= f a;
  wh_consumers : map_Forall (fun _ l => 0 < remaining_consumers l) (leases m)
}.

Lemma holder_nonneg h a : 0 <= holder h a.
Proof. unfold holder. destruct (decide _); lia. Qed.
Lemma holder_self h : holder h (arc h) = 1.
Proof. unfold holder. by rewrite decide_True. Qed.
Lemma owned_nonneg l a : 0 <= owned l a.
Proof. unfold owned. destruct (ownership l) as [[o h]|]; [apply holder_nonneg|done]. Qed.
Lemma lease_holders_nonneg m a : 0 <= lease_holders m a.
Proof. apply map_sum_nonneg. intros. apply owned_nonneg. Qed.

Lemma drop_lease_spec b l g :
  sound b -> (forall a, 0 <= g a) -> counts b (fun a => g a + owned l a) ->
  exists b', drop_lease b l = Some b' /\ sound b' /\ counts b' g.
Proof.
  intros Hs Hg Hc. unfold drop_lease, owned in *. destruct (ownership l) as [[o h]|].
  - destruct (drop_spec b h _ Hs Hc) as (b' & -> & Hs' & Hc'); [rewrite holder_self; specialize (Hg (arc h)); lia|].
    exists b'. split; [done|]. split; [done|]. eapply counts_ext; [|exact Hc']. intros a. simpl. lia.
  - exists b. split; [done|]. split; [done|]. eapply counts_ext; [|exact Hc]. intros a. simpl. lia.
Qed.

Lemma drop_leases_spec b ls g :
  sound b -> (forall a, 0 <= g a) -> counts b (fun a => g a + list_sum (fun l => owned l a) ls) ->
  exists b', drop_leases b ls = Some b' /\ sound b' /\ counts b' g.
Proof.
  revert b. induction ls as [|l ls IH]; intros b Hs Hg Hc; simpl.
  - exists b. split; [done|]. split; [done|]. eapply counts_ext; [|exact Hc]. intros a. unfold list_sum. simpl. lia.
  - destruct (drop_lease_spec b l (fun a => g a + list_sum (fun l => owned l a) ls)) as (b' & -> & Hs' & Hc'); [done|..].
    + intros a. specialize (Hg a). pose proof (list_sum_nonneg (fun l => owned l a) ls (fun l _ => owned_nonneg l a)). lia.
    + eapply counts_ext; [|exact Hc]. intros a. unfold list_sum. simpl. lia.
    + simpl. by apply IH.
Qed.

(** Retaining some leases returns the shares of the others. *)
Lemma retain_spec keep m f :
  well_held m f ->
  exists m', retain_leases keep m = Some m' /\ well_held m' f /\ leases m' = filter (fun p => keep p.2 = true) (leases m).
Proof.
  intros [Hs Hc Hf Hk]. unfold retain_leases. set (gone := filter (fun p => keep p.2 = false) (leases m)).
  set (kept := filter (fun p => keep p.2 = true) (leases m)).
  assert (Hsplit : forall a, lease_holders (leases m) a = lease_holders kept a + lease_holders gone a).
  { intros a. unfold lease_holders. apply (map_sum_filter_split (fun _ l => owned l a) (fun p => keep p.2 = true) (fun p => keep p.2 = false)).
    intros p. by rewrite not_true_iff_false. }
  destruct (drop_leases_spec (budget m) (map_to_list gone).*2 (fun a => f a + lease_holders kept a)) as (b' & -> & Hs' & Hc'); [done|..].
  - intros a. pose proof (lease_holders_nonneg kept a). specialize (Hf a). lia.
  - eapply counts_ext; [|exact Hc]. intros a. simpl. rewrite Hsplit. unfold lease_holders at 2. rewrite map_sum_list.
    assert (He : forall l : list (bytes * Lease), list_sum (fun p => owned p.2 a) l = list_sum (fun x => owned x a) l.*2).
    { induction l as [|[t x] l IH]; [done|]. unfold list_sum in *. simpl. by rewrite IH. }
    rewrite <- He. lia.
  - simpl. eexists. split; [done|]. split; [|done]. constructor; [done|exact Hc'|done|].
    intros t l [Hl _]%map_lookup_filter_Some. by apply (Hk t l).
Qed.

Lemma insert_lease_spec token l m f :
  well_held m (fun a => f a + owned l a) -> (forall a, 0 <= f a) -> 0 < remaining_consumers l ->
  exists m', insert_lease token l m = Some m' /\ well_held m' f /\ leases m' = <[token := l]> (leases m).
Proof.
  intros [Hs Hc _ Hk] Hf Hl. unfold insert_lease.
  set (rest := delete token (leases m)).
  assert (Hput : forall a, lease_holders (<[token := l]> (leases m)) a = owned l a + lease_holders rest a).
  { intros a. unfold lease_holders. rewrite <- insert_delete_eq. by rewrite map_sum_insert by apply lookup_delete_eq. }
  assert (Hrest : map_Forall (fun _ l => 0 < remaining_consumers l) (<[token := l]> (leases m))).
  { apply map_Forall_insert_2; done. }
  destruct (leases m !! token) as [old|] eqn:E.
  - destruct (drop_lease_spec (budget m) old (fun a => f a + owned l a + lease_holders rest a)) as (b' & -> & Hs' & Hc'); [done|..].
    + intros a. pose proof (lease_holders_nonneg rest a). pose proof (owned_nonneg l a). specialize (Hf a). lia.
    + eapply counts_ext; [|exact Hc]. intros a. simpl. unfold lease_holders. rewrite (map_sum_delete _ _ _ _ E). unfold rest. lia.
    + simpl. eexists. split; [done|]. split; [|done]. constructor; [done| |done|done].
      eapply counts_ext; [|exact Hc']. intros a. simpl. rewrite Hput. lia.
  - simpl. eexists. split; [done|]. split; [|done]. constructor; [done| |done|done].
    eapply counts_ext; [|exact Hc]. intros a. simpl. rewrite Hput. unfold rest. rewrite delete_id by done. lia.
Qed.

Lemma create_spec now token instance blocks consumers o m f :
  let l := mkLease instance blocks (Z.max consumers 1) (now + DEFAULT_LEASE_TTL) o in
  well_held m (fun a => f a + owned l a) -> (forall a, 0 <= f a) ->
  exists m', create now token instance blocks consumers o m = Some m' /\ well_held m' f /\
    leases m' = <[token := l]> (filter (fun p => (now <? expires_at p.2) = true) (leases m)).
Proof.
  intros l Hm Hf. unfold create, sweep_expired. destruct (retain_spec (fun l => now <? expires_at l) m _ Hm) as (m1 & -> & Hm1 & Hl1). simpl.
  fold l. destruct (insert_lease_spec token l m1 f Hm1 Hf) as (m2 & -> & Hm2 & Hl2); [simpl; lia|].
  exists m2. split; [done|]. split; [done|]. by rewrite Hl2, Hl1.
Qed.

(** An owned reservation is live. *)
Lemma owned_live m f token l o h :
  well_held m f -> leases m !! token = Some l -> ownership l = Some (o, h) -> 0 < f (arc h) + lease_holders (leases m) (arc h).
Proof.
  intros [_ _ Hf _] Hl Ho. specialize (Hf (arc h)).
  pose proof (map_sum_ge (fun _ l => owned l (arc h)) (leases m) token l (fun _ l _ => owned_nonneg l (arc h)) Hl) as Hge.
  unfold owned in Hge at 1. rewrite Ho, holder_self in Hge. unfold lease_holders. lia.
Qed.

Lemma claim_lease_spec token m f :
  well_held m f -> exists m', claim_lease token m = Some m' /\ well_held m' f /\ leases m' = leases m.
Proof.
  intros Hm. unfold claim_lease. destruct (leases m !! token) as [l|] eqn:El; [|by exists m].
  destruct (ownership l) as [[o h]|] eqn:Eo; [|by exists m]. pose proof (owned_live m f token l o h Hm El Eo) as Hpos.
  destruct Hm as [Hs Hc Hf Hk]. destruct (claim_spec (budget m) h _ Hs Hc Hpos) as (b' & -> & Hs' & Hc'). simpl.
  eexists. split; [done|]. by split.
Qed.

Lemma release_lease_spec now token m f :
  well_held m f -> exists ok m', release now token m = Some (ok, m') /\ well_held m' f /\ leases m' !! token = None /\
    (ok = true <-> exists l, leases m !! token = Some l /\ now < expires_at l).
Proof.
  intros Hm. unfold release, sweep_expired. destruct (retain_spec (fun l => now <? expires_at l) m f Hm) as (m1 & -> & Hm1 & Hl1). simpl.
  assert (Hiff : (exists l, leases m1 !! token = Some l) <-> exists l, leases m !! token = Some l /\ now < expires_at l).
  { rewrite Hl1. setoid_rewrite map_lookup_filter_Some. simpl. by setoid_rewrite Z.ltb_lt. }
  destruct (leases m1 !! token) as [l|] eqn:El.
  - destruct Hm1 as [Hs Hc Hf Hk]. destruct (drop_lease_spec (budget m1) l (fun a => f a + lease_holders (delete token (leases m1)) a))
      as (b' & -> & Hs' & Hc'); [done|..].
    + intros a. pose proof (lease_holders_nonneg (delete token (leases m1)) a). specialize (Hf a). lia.
    + eapply counts_ext; [|exact Hc]. intros a. unfold lease_holders. rewrite (map_sum_delete _ _ _ _ El). lia.
    + simpl. eexists true, _. split; [done|]. split; [constructor; [done|exact Hc'|done|]|].
      * simpl. by apply map_Forall_delete.
      * split; [apply lookup_delete_eq|]. rewrite <- Hiff. split; [by eexists|done].
  - eexists false, m1. split; [done|]. split; [done|]. split; [done|]. rewrite <- Hiff. split; [done|]. by intros [? ?].
Qed.

(** ** Shares of a batch *)

Definition consumed (l : Lease) : option Lease :=
  if 1 <? remaining_consumers l
  then Some (mkLease (lease_instance l) (lease_blocks l) (remaining_consumers l - 1) (expires_at l) (ownership l)) else None.
Definition shares (l : Lease) : list QueryReservation := match ownership l with Some (_, h) => [h] | None => [] end.
Definition holders (hs : list QueryReservation) (a : Z) : Z := list_sum (fun h => holder h a) hs.

Lemma holders_nonneg hs a : 0 <= holders hs a.
Proof. apply list_sum_nonneg. intros. apply holder_nonneg. Qed.
Lemma holders_shares l a : holders (shares l) a = owned l a.
Proof. unfold holders, shares, owned. destruct (ownership l) as [[o h]|]; unfold list_sum; simpl; lia. Qed.
Lemma holders_app hs hs' a : holders (hs ++ hs') a = holders hs a + holders hs' a.
Proof. apply list_sum_app. Qed.

Lemma consume_one_spec token m f l :
  well_held m f -> leases m !! token = Some l ->
  exists m', consume_one token m = Some (lease_blocks l, shares l, m') /\ well_held m' (fun a => f a + holders (shares l) a) /\
    leases m' = match consumed l with Some l' => <[token := l']> (leases m) | None => delete token (leases m) end.
Proof.
  intros Hm Hl. unfold consume_one. rewrite Hl. simpl. unfold consumed.
  assert (Hf' : forall a, 0 <= f a + holders (shares l) a).
  { intros a. pose proof (holders_nonneg (shares l) a). pose proof (wh_outside _ _ Hm a). lia. }
  destruct (Z.ltb_spec 1 (remaining_consumers l)).
  - set (l' := mkLease _ _ _ _ _). assert (Hsame : forall a, lease_holders (<[token := l']> (leases m)) a = lease_holders (leases m) a).
    { intros a. unfold lease_holders. rewrite (map_sum_update _ _ _ _ _ Hl). unfold owned. simpl. lia. }
    assert (Hk' : map_Forall (fun _ l => 0 < remaining_consumers l) (<[token := l']> (leases m))).
    { apply map_Forall_insert_2; [simpl; lia|apply Hm]. }
    unfold shares in *. destruct (ownership l) as [[o h]|] eqn:Eo.
    + pose proof (owned_live m f token l o h Hm Hl Eo) as Hpos. destruct Hm as [Hs Hc Hf Hk].
      destruct (clone_spec (budget m) h _ Hs Hc Hpos) as (b' & -> & Hs' & Hc'). simpl. eexists. split; [done|]. split; [|done].
      constructor; [done| |done|done]. eapply counts_ext; [|exact Hc']. intros a. simpl. rewrite Hsame. unfold holders, list_sum. simpl. lia.
    + eexists. split; [done|]. split; [|done]. destruct Hm as [Hs Hc Hf Hk]. constructor; [done| |done|done].
      eapply counts_ext; [|exact Hc]. intros a. simpl. rewrite Hsame. unfold holders, list_sum. simpl. lia.
  - fold (shares l). eexists. split; [done|]. split; [|done]. destruct Hm as [Hs Hc Hf Hk]. constructor; [done| |done|by apply map_Forall_delete].
    eapply counts_ext; [|exact Hc]. intros a. simpl. rewrite holders_shares. unfold lease_holders. rewrite (map_sum_delete _ _ _ _ Hl). lia.
Qed.

(** What a batch does to the table: one share of every lease it names. *)
Definition after_batch (tokens : list bytes) (before after : gmap bytes Lease) : Prop :=
  forall t, after !! t = if decide (t ∈ tokens) then before !! t ≫= consumed else before !! t.
Definition batch_shares (m : gmap bytes Lease) (tokens : list bytes) : list QueryReservation :=
  concat (omap (fun t => shares <$> m !! t) tokens).

Lemma omap_lookup_ext {A} (g : Lease -> A) (m m' : gmap bytes Lease) (tokens : list bytes) :
  (forall t, t ∈ tokens -> m !! t = m' !! t) -> omap (fun t => g <$> m !! t) tokens = omap (fun t => g <$> m' !! t) tokens.
Proof.
  intros H. induction tokens as [|t ts IH]; [done|]. cbn. rewrite (H t) by left. rewrite IH; [done|]. intros x Hx. apply H. by right.
Qed.

Lemma consume_all_spec tokens m f :
  well_held m f -> NoDup tokens -> (forall t, t ∈ tokens -> is_Some (leases m !! t)) ->
  exists m', consume_all tokens m = Some (concat (leased (leases m) tokens), batch_shares (leases m) tokens, m') /\
    well_held m' (fun a => f a + holders (batch_shares (leases m) tokens) a) /\ after_batch tokens (leases m) (leases m').
Proof.
  intros Hm Hnd. revert m f Hm. induction Hnd as [|t ts Ht Hnd IH]; intros m f Hm Hin.
  - exists m. split; [done|]. split; [|intros t; by rewrite decide_False by set_solver]. destruct Hm as [Hs Hc Hf Hk].
    constructor; [done| |intros a; cbn; specialize (Hf a); lia|done]. eapply counts_ext; [|exact Hc]. intros a. cbn. lia.
  - destruct (Hin t ltac:(left)) as [l Hl]. cbn [consume_all].
    destruct (consume_one_spec t m f l Hm Hl) as (m1 & -> & Hm1 & Hl1). simpl.
    assert (Hsame : forall t', t' <> t -> leases m1 !! t' = leases m !! t').
    { intros t' Hne. rewrite Hl1. destruct (consumed l); [by rewrite lookup_insert_ne|by rewrite lookup_delete_ne]. }
    destruct (IH m1 _ Hm1) as (m2 & -> & Hm2 & Haft). { intros t' Ht'. rewrite Hsame by congruence. apply Hin. by right. }
    assert (Hts : forall t', t' ∈ ts -> leases m1 !! t' = leases m !! t') by (intros t' Ht'; apply Hsame; congruence).
    unfold leased, batch_shares in *. rewrite !(omap_lookup_ext _ _ _ _ Hts) in *. exists m2.
    assert (He : forall A (g : Lease -> A), omap (fun t => g <$> leases m !! t) (t :: ts) = g l :: omap (fun t => g <$> leases m !! t) ts)
      by (intros; cbn; by rewrite Hl).
    rewrite ?Hl. cbn [fmap option_fmap option_map]. rewrite ?He. cbn [concat]. split; [done|]. split.
    + destruct Hm2 as [Hs Hc Hf Hk]. constructor; [done| |..|done].
      * eapply counts_ext; [|exact Hc]. intros a. cbv beta. rewrite holders_app. lia.
      * intros a. rewrite holders_app. specialize (Hf a). lia.
    + intros t'. rewrite (Haft t'). destruct (decide (t' = t)) as [->|Hne].
      * rewrite decide_False by done. rewrite decide_True by left. rewrite Hl, Hl1. cbn.
        destruct (consumed l); [apply lookup_insert_eq|apply lookup_delete_eq].
      * rewrite Hsame by done. destruct (decide (t' ∈ ts)); [rewrite decide_True by (by right)|rewrite decide_False by set_solver]; done.
Qed.

Definition consumable (now : Z) (instance : bytes) (m : gmap bytes Lease) (token : bytes) : Prop :=
  exists l, m !! token = Some l /\ now < expires_at l /\ lease_instance l = instance.

Lemma check_tokens_Ok now instance m seen tokens :
  check_tokens now instance m seen tokens = Ok tt <->
  NoDup tokens /\ (forall t, t ∈ tokens -> t ∉ seen) /\ forall t, t ∈ tokens -> consumable now instance m t.
Proof.
  revert seen. induction tokens as [|t ts IH]; intros seen; cbn [check_tokens].
  - split; [|done]. intros _. split; [constructor|]. split; intros t H; by apply elem_of_nil in H.
  - rewrite NoDup_cons. destruct (bool_decide_reflect (t ∈ seen)) as [Hin|Hout].
    { split; [done|]. intros (_ & H & _). by destruct (H t ltac:(left)). }
    assert (Hc : consumable now instance m t <->
      match m !! t with Some l => now < expires_at l /\ lease_instance l = instance | None => False end).
    { unfold consumable. destruct (m !! t) as [l|]; split; try naive_solver. }
    destruct (m !! t) as [l|]; [|split; [done|]; intros (_ & _ & H); by destruct (proj1 Hc (H t ltac:(left)))].
    destruct (Z.ltb_spec now (expires_at l)); [|split; [done|]; intros (_ & _ & H'); destruct (proj1 Hc (H' t ltac:(left))); lia].
    destruct (bool_decide_reflect (lease_instance l = instance)); [|split; [done|]; intros (_ & _ & H'); by destruct (proj1 Hc (H' t ltac:(left)))].
    rewrite IH. split.
    + intros (Hnd & Hs & Hcs). split; [split; [|done]|split].
      * intros Ht. by apply (Hs t Ht); left.
      * intros x [->|Hx]%elem_of_cons; [done|]. intros Hx'. by apply (Hs x Hx); right.
      * intros x [->|Hx]%elem_of_cons; [by apply Hc|by apply Hcs].
    + intros ((Ht & Hnd) & Hs & Hcs). split; [done|]. split.
      * intros x Hx [->|Hx']%elem_of_cons; [done|]. apply (Hs x); [by right|done].
      * intros x Hx. apply Hcs. by right.
Qed.
End Leases.
Arguments Lease : clear implicits.
Arguments Manager : clear implicits.
