(* ===== verification/QueryLeaseSpec.v ===== *)
(** * The query byte budget over whole executions

    Any sequence of reservations, finished queries, claims, restores, releases, cancellations and
    sweeps: the system is the lease manager with the reservations held outside of it (by running
    queries and restores).  The byte accounting is exact in every reachable state. *)
From S2P Require Import Prelude Containers State QueryBudget QueryLease.

Local Open Scope Z_scope.

Section System.
Context {B : Type}.
Variable memory_footprint : B -> Z.
Hypothesis footprint_nonneg : forall x, 0 <= memory_footprint x.

Abbreviation Manager := (QueryLease.Manager B).
Abbreviation Lease := (QueryLease.Lease B).

(** ** Calls on a well-held manager *)

Lemma well_held_ext (m : Manager) f g : (forall a, f a = g a) -> well_held m f -> well_held m g.
Proof.
  intros He [Hs Hc Hf Hk]. constructor; [done| |intros a; rewrite <- He; apply Hf|done].
  eapply counts_ext; [|exact Hc]. intros a. simpl. by rewrite He.
Qed.

Lemma with_budget (m : Manager) b f g :
  well_held m f -> sound b -> (forall a, 0 <= g a) -> counts b (fun a => g a + lease_holders (leases m) a) -> well_held (mkManager b (leases m)) g.
Proof. intros [_ _ _ Hk] Hs Hg Hc. by constructor. Qed.

Lemma drop_held (m : Manager) h f :
  well_held m (fun a => f a + holder h a) -> (forall a, 0 <= f a) ->
  exists b, drop_handle (budget m) h = Some b /\ well_held (mkManager b (leases m)) f.
Proof.
  intros Hm Hf. destruct (drop_spec (budget m) h _ (wh_sound _ _ Hm) (wh_counts _ _ Hm)) as (b & -> & Hs & Hc).
  { rewrite holder_self. pose proof (lease_holders_nonneg (leases m) (arc h)). specialize (Hf (arc h)). lia. }
  exists b. split; [done|]. eapply with_budget; [exact Hm|done|done|]. eapply counts_ext; [|exact Hc]. intros a. simpl. lia.
Qed.

Lemma held_live (m : Manager) h f :
  well_held m (fun a => f a + holder h a) -> (forall a, 0 <= f a) -> 0 < f (arc h) + holder h (arc h) + lease_holders (leases m) (arc h).
Proof. intros Hm Hf. rewrite holder_self. pose proof (lease_holders_nonneg (leases m) (arc h)). specialize (Hf (arc h)). lia. Qed.

Lemma sum_footprints_nonneg blocks sum n : 0 <= sum -> sum_footprints memory_footprint sum blocks = Some n -> 0 <= n.
Proof.
  revert sum. induction blocks as [|x bs IH]; intros sum Hs; simpl; [by intros [= <-]|].
  destruct (_ <=? _); [|done]. apply IH. specialize (footprint_nonneg x). lia.
Qed.

(** A finished query: the reservation that was passed in is owned by the new lease, or returned. *)
Lemma finish_query_spec now token insts h owner blocks (m : Manager) f :
  well_held m (fun a => f a + holder h a) -> (forall a, 0 <= f a) ->
  exists r m', finish_query memory_footprint now token insts h owner blocks m = Some (r, m') /\ well_held m' f.
Proof.
  intros Hm Hf. pose proof (held_live m h f Hm Hf) as Hlive.
  destruct (counts_Some (budget m) _ h (wh_counts _ _ Hm) Hlive) as (r & n & Hr & _). unfold finish_query. rewrite Hr. simpl.
  destruct (finish_checks memory_footprint insts r h blocks) as [[bytes world]|e] eqn:Ec.
  - assert (Hb : 0 <= bytes).
    { unfold finish_checks in Ec. destruct (insts !! res_instance r) as [i|]; [|done]. destruct (negb _); [done|]. destruct (sealed_topology i) as [t|]; [|done].
      destruct (negb _); [done|]. destruct (sum_footprints _ 0 blocks) as [k|] eqn:Es; [|done]. injection Ec as <- <-. by eapply (sum_footprints_nonneg blocks 0). }
    destruct (ready_spec (budget m) h bytes _ (wh_sound _ _ Hm) (wh_counts _ _ Hm) Hlive Hb) as (ok & b1 & -> & Hs1 & Hc1 & _). simpl.
    assert (Hm1 : well_held (mkManager b1 (leases m)) (fun a => f a + holder h a)).
    { eapply with_budget; [exact Hm|done|intros a; pose proof (holder_nonneg h a); specialize (Hf a); lia|done]. }
    destruct ok.
    + destruct (clone_spec b1 h _ Hs1 Hc1 Hlive) as (b2 & -> & Hs2 & Hc2). simpl.
      set (l := mkLease (res_instance r) blocks (Z.max world 1) (now + DEFAULT_LEASE_TTL) (Some (owner, h))).
      destruct (create_spec now token (res_instance r) blocks world (Some (owner, h)) (mkManager b2 (leases m)) (fun a => f a + holder h a))
        as (m3 & -> & Hm3 & _).
      * constructor; [done| |..|apply Hm]; simpl.
        -- eapply counts_ext; [|exact Hc2]. intros a. unfold owned. simpl. lia.
        -- intros a. unfold owned. simpl. pose proof (holder_nonneg h a). specialize (Hf a). lia.
      * intros a. pose proof (holder_nonneg h a). specialize (Hf a). lia.
      * simpl. destruct (drop_held m3 h f Hm3 Hf) as (b4 & -> & Hm4). simpl. by eexists _, _.
    + destruct (drop_held _ h f Hm1 Hf) as (b2 & Hd & Hm2). simpl in Hd. rewrite Hd. simpl. by eexists _, _.
  - destruct (drop_held m h f Hm Hf) as (b & -> & Hm'). simpl. by eexists _, _.
Qed.

Lemma restoring_all_spec (m : Manager) hs f :
  well_held m (fun a => f a + holders hs a) -> (forall a, 0 <= f a) ->
  exists b, restoring_all (budget m) hs = Some b /\ well_held (mkManager b (leases m)) (fun a => f a + holders hs a).
Proof.
  intros Hm Hf. assert (Hgen : forall hs' b, well_held (mkManager b (leases m)) (fun a => f a + holders hs a) -> (forall h, h ∈ hs' -> h ∈ hs) ->
    exists b', restoring_all b hs' = Some b' /\ well_held (mkManager b' (leases m)) (fun a => f a + holders hs a)).
  { induction hs' as [|h hs' IH]; intros b Hb Hin; simpl; [by exists b|].
    assert (Hlive : 0 < f (arc h) + holders hs (arc h) + lease_holders (leases m) (arc h)).
    { pose proof (lease_holders_nonneg (leases m) (arc h)). specialize (Hf (arc h)).
      destruct (list_elem_of_split hs h (Hin h ltac:(left))) as (l1 & l2 & ->). rewrite holders_app. unfold holders at 2, list_sum. simpl.
      rewrite holder_self. pose proof (holders_nonneg l1 (arc h)). pose proof (holders_nonneg l2 (arc h)) as H2. unfold holders, list_sum in H2. lia. }
    destruct (restoring_spec b h _ (wh_sound _ _ Hb) (wh_counts _ _ Hb) Hlive) as (b1 & -> & Hs1 & Hc1). simpl. apply IH.
    - eapply with_budget; [exact Hm|done|apply Hm|exact Hc1].
    - intros h' Hh'. apply Hin. by right. }
  destruct m as [b ls]. apply (Hgen hs b); [done|done].
Qed.

(** A restore batch is all or nothing. *)
Lemma prepare_restore_spec {T} now instance tokens (validate : list (list B) -> result T EngineError) (m : Manager) f :
  well_held m f ->
  exists r m', prepare_restore now instance tokens validate m = Some (r, m') /\
    match r with
    | Ok (t, blocks, hs) =>
        NoDup tokens /\ (forall x, x ∈ tokens -> consumable now instance (leases m) x) /\ validate (leased (leases m) tokens) = Ok t /\
        blocks = concat (leased (leases m) tokens) /\ hs = batch_shares (leases m) tokens /\
        after_batch tokens (leases m) (leases m') /\ well_held m' (fun a => f a + holders hs a)
    | Err e => m' = m /\ (~ (NoDup tokens /\ forall x, x ∈ tokens -> consumable now instance (leases m) x) \/ validate (leased (leases m) tokens) = Err e)
    end.
Proof.
  intros Hm. unfold prepare_restore, consume_batch. destruct (check_tokens now instance (leases m) [] tokens) as [[]|e] eqn:Ec.
  - apply check_tokens_Ok in Ec as (Hnd & _ & Hcs). destruct (validate _) as [t|e] eqn:Ev.
    + destruct (consume_all_spec tokens m f Hm Hnd) as (m1 & -> & Hm1 & Haft).
      { intros x Hx. destruct (Hcs x Hx) as (l & -> & _). by eexists. }
      simpl. destruct (restoring_all_spec m1 _ f Hm1 (wh_outside _ _ Hm)) as (b & -> & Hm2). simpl. eexists (Ok _), _. split; [done|]. by split_and!.
    + simpl. eexists (Err e), m. split; [done|]. split; [done|]. by right.
  - simpl. eexists (Err e), m. split; [done|]. split; [done|]. left. intros [Hnd Hcs].
    assert (check_tokens now instance (leases m) [] tokens = Ok tt); [|congruence]. apply check_tokens_Ok. split; [done|]. split; [|done].
    intros x _ []%elem_of_nil.
Qed.

Lemma reserve_query_spec (insts : gmap bytes Instance) id group blocks mode (m : Manager) f :
  well_held m f -> 0 <= blocks ->
  (forall i t n, insts !! id = Some i -> sealed_topology i = Ok t -> group_block_bytes t group = Ok n -> 0 <= n) ->
  exists r m', reserve_query insts id group blocks mode m = Some (r, m') /\ leases m' = leases m /\
    well_held m' (fun a => f a + match r with Ok (Accepted h) => holder h a | _ => 0 end).
Proof.
  intros Hm Hb Hbytes. pose proof (wh_outside _ _ Hm) as Hf.
  assert (Hm0 : well_held m (fun a => f a + 0)) by (eapply well_held_ext; [|exact Hm]; intros; lia).
  unfold reserve_query, get_instance in *. destruct (insts !! id) as [i|] eqn:Ei; [|by eexists _, m].
  destruct (sealed_topology i) as [t|] eqn:Et; [|by eexists _, m]. destruct (group_block_bytes t group) as [n|] eqn:En; [|by eexists _, m].
  specialize (Hbytes i t n eq_refl Et En). unfold u64_of_mul. destruct (n * blocks <=? u64_max); [|by eexists _, m].
  destruct (budget_reserve_spec (budget m) id (cache_namespace t) (n * blocks) mode _ (wh_sound _ _ Hm) (wh_counts _ _ Hm)) as (b & -> & Hs & Hd); [nia|].
  simpl. eexists _, _. split; [done|]. split; [done|].
  destruct (decision (budget m) id (n * blocks) mode) as [h| |]; [|subst b; destruct m; exact Hm0..].
  destruct Hd as [Hc _]. eapply with_budget; [exact Hm|done|..].
  - intros a. pose proof (holder_nonneg h a). specialize (Hf a). unfold holder in *. simpl. lia.
  - eapply counts_ext; [|exact Hc]. intros a. unfold holder. simpl. lia.
Qed.

(** ** Executions *)

(** The manager and the reservations held by running queries and restores. *)
Record Sys := mkSys { mgr : Manager; held : list QueryReservation }.

Inductive Op :=
| OReserve (insts : gmap bytes Instance) (id : bytes) (group blocks : Z) (mode : QueryMode)
| OFinish (index : nat) (now : Z) (token : bytes) (insts : gmap bytes Instance) (owner : QueryOwner) (blocks : list B)
| OCreate (now : Z) (token : bytes) (insts : gmap bytes Instance) (id : bytes) (blocks : list B)
| OClaim (token : bytes)
| ORestore (now : Z) (instance : bytes) (tokens : list bytes) (validate : list (list B) -> result unit EngineError)
| ORelease (now : Z) (token : bytes)
| OUnregister (instance : bytes)
| OCancel (owner : QueryOwner)
| OCloseSession (session : Z)
| OSweep (now : Z)
| ODrop (index : nat).

Definition exec (op : Op) (s : Sys) : option Sys :=
  let keep (r : option Manager) := m ← r; Some (mkSys m (held s)) in
  match op with
  | OReserve insts id group blocks mode =>
      '(r, m) ← reserve_query insts id group blocks mode (mgr s);
      Some (mkSys m (match r with Ok (Accepted h) => h :: held s | _ => held s end))
  | OFinish index now token insts owner blocks =>
      h ← held s !! index;
      '(_, m) ← finish_query memory_footprint now token insts h owner blocks (mgr s);
      Some (mkSys m (delete index (held s)))
  | OCreate now token insts id blocks => '(_, m) ← create_query_lease now token insts id blocks (mgr s); Some (mkSys m (held s))
  | OClaim token => keep (claim_lease token (mgr s))
  | ORestore now instance tokens validate =>
      '(r, m) ← prepare_restore now instance tokens validate (mgr s);
      Some (mkSys m (match r with Ok (_, _, hs) => hs ++ held s | Err _ => held s end))
  | ORelease now token => '(_, m) ← release now token (mgr s); Some (mkSys m (held s))
  | OUnregister instance => keep (release_instance instance (mgr s))
  | OCancel owner => keep (cancel_query owner (mgr s))
  | OCloseSession session => keep (release_query_session session (mgr s))
  | OSweep now => keep (sweep_expired now (mgr s))
  | ODrop index =>
      h ← held s !! index;
      b ← drop_handle (budget (mgr s)) h;
      Some (mkSys (mkManager b (leases (mgr s))) (delete index (held s)))
  end.

(** What the types of the code guarantee: a reservation that is used is held, sizes are unsigned. *)
Definition enabled (op : Op) (s : Sys) : Prop :=
  match op with
  | OReserve insts id group blocks _ =>
      0 <= blocks /\ forall i t n, insts !! id = Some i -> sealed_topology i = Ok t -> group_block_bytes t group = Ok n -> 0 <= n
  | OFinish index _ _ _ _ _ | ODrop index => is_Some (held s !! index)
  | _ => True
  end.

Inductive reachable (g p : Z) : Sys -> Prop :=
| reach_new b : budget_new g p = Ok b -> reachable g p (mkSys (mkManager b ∅) [])
| reach_step s op s' : reachable g p s -> enabled op s -> exec op s = Some s' -> reachable g p s'.

Definition sys_inv (s : Sys) : Prop := well_held (mgr s) (holders (held s)).

Lemma holders_delete hs (i : nat) h a : hs !! i = Some h -> holders hs a = holders (delete i hs) a + holder h a.
Proof.
  intros Hi. unfold holders. rewrite (list_sum_perm _ hs (h :: delete i hs)); [unfold list_sum; simpl; lia|].
  by apply delete_Permutation.
Qed.

Lemma exec_inv op s : sys_inv s -> enabled op s -> exists s', exec op s = Some s' /\ sys_inv s'.
Proof.
  intros Hs Hen. pose proof (holders_nonneg (held s)) as Hf. unfold sys_inv in *. destruct op; simpl in *.
  - destruct Hen as [Hb Hbytes]. destruct (reserve_query_spec insts id group blocks mode _ _ Hs Hb Hbytes) as (r & m & -> & _ & Hm). simpl.
    eexists. split; [done|]. simpl. eapply well_held_ext; [|exact Hm]. intros a. unfold holders, list_sum.
    destruct r as [[h| |]|]; simpl; lia.
  - destruct Hen as [h Hh]. rewrite Hh. simpl. destruct (finish_query_spec now token insts h owner blocks (mgr s) (holders (delete index (held s)))) as (r & m & -> & Hm).
    + eapply well_held_ext; [|exact Hs]. intros a. by apply holders_delete.
    + apply holders_nonneg.
    + simpl. by eexists.
  - unfold create_query_lease. destruct (get_instance insts id) as [i|]; [|simpl; by eexists]. destruct blocks as [|x bs]; [simpl; by eexists|].
    destruct (create_spec now token id (x :: bs) (world_size i) None (mgr s) (holders (held s))) as (m & -> & Hm & _); [|done|simpl; by eexists].
    eapply well_held_ext; [|exact Hs]. intros a. unfold owned. simpl. lia.
  - destruct (claim_lease_spec token (mgr s) _ Hs) as (m & -> & Hm & _). simpl. by eexists.
  - destruct (prepare_restore_spec now instance tokens validate (mgr s) _ Hs) as (r & m & -> & Hr). simpl. eexists. split; [done|]. simpl.
    destruct r as [[[t blocks] hs]|e]; [|by destruct Hr as [-> _]]. destruct Hr as (_ & _ & _ & _ & _ & _ & Hm).
    eapply well_held_ext; [|exact Hm]. intros a. rewrite holders_app. lia.
  - destruct (release_lease_spec now token (mgr s) _ Hs) as (ok & m & -> & Hm & _). simpl. by eexists.
  - unfold release_instance. destruct (retain_spec (fun l => negb (bool_decide (lease_instance l = instance))) (mgr s) _ Hs) as (m & -> & Hm & _). simpl. by eexists.
  - unfold cancel_query, release_owner. match goal with |- context [retain_leases ?k _] => destruct (retain_spec k (mgr s) _ Hs) as (m & -> & Hm & _) end. simpl. by eexists.
  - unfold release_query_session, release_owner. match goal with |- context [retain_leases ?k _] => destruct (retain_spec k (mgr s) _ Hs) as (m & -> & Hm & _) end. simpl. by eexists.
  - unfold sweep_expired. destruct (retain_spec (fun l => now <? expires_at l) (mgr s) _ Hs) as (m & -> & Hm & _). simpl. by eexists.
  - destruct Hen as [h Hh]. rewrite Hh. simpl. destruct (drop_held (mgr s) h (holders (delete index (held s)))) as (b & -> & Hm); [| |simpl; by eexists].
    + eapply well_held_ext; [|exact Hs]. intros a. by apply holders_delete.
    + apply holders_nonneg.
Qed.

Lemma reachable_sys_inv g p s : 0 <= g -> 0 <= p -> reachable g p s -> sys_inv s.
Proof.
  intros Hg Hp. induction 1 as [b Hb|s op s' _ IH Hen He].
  - destruct (new_spec g p b Hg Hp Hb) as [Hs Hc]. constructor; [done| |done|]; simpl.
    + eapply counts_ext; [|exact Hc]. intros a. done.
    + intros t l H. by rewrite lookup_empty in H.
  - destruct (exec_inv op s IH Hen) as (s'' & He' & Hs'). congruence.
Qed.

(** A reservation is held by a lease of the table or by a running query or restore. *)
Definition is_held (s : Sys) (a : Z) : Prop :=
  (exists h, h ∈ held s /\ arc h = a) \/ exists t l o h, leases (mgr s) !! t = Some l /\ ownership l = Some (o, h) /\ arc h = a.

Lemma holders_pos hs a : 0 < holders hs a <-> exists h, h ∈ hs /\ arc h = a.
Proof.
  unfold holders. induction hs as [|h hs IH]; unfold list_sum in *; simpl.
  - split; [lia|]. by intros (h & []%elem_of_nil & _).
  - unfold holder at 1. destruct (decide (a = arc h)) as [->|Hne].
    + pose proof (holders_nonneg hs (arc h)) as Hn. unfold holders, list_sum in Hn. split; [|intros _; lia]. intros _. exists h. split; [left|done].
    + setoid_rewrite elem_of_cons. rewrite Z.add_0_l, IH. split; [intros (x & ? & ?); eauto|]. intros (x & [->|Hx] & Hxa); [congruence|eauto].
Qed.

Lemma lease_holders_pos (m : gmap bytes Lease) a :
  0 < lease_holders m a <-> exists t l o h, m !! t = Some l /\ ownership l = Some (o, h) /\ arc h = a.
Proof.
  split.
  - unfold lease_holders. induction m as [|t l m Ht IH] using map_ind; [rewrite map_sum_empty; lia|]. rewrite map_sum_insert by done. intros Hpos.
    destruct (decide (0 < map_sum (fun _ l => owned l a) m)) as [Hm|Hm].
    + destruct (IH Hm) as (t' & l' & o & h & Hl & Ho & Ha). exists t', l', o, h. split; [|done]. rewrite lookup_insert_ne; [done|]. congruence.
    + exists t, l. unfold owned in Hpos at 1. destruct (ownership l) as [[o h]|] eqn:Eo; [|lia]. exists o, h. rewrite lookup_insert_eq.
      split; [done|]. split; [done|]. unfold holder in Hpos. destruct (decide (a = arc h)); [done|lia].
  - intros (t & l & o & h & Hl & Ho & <-).
    pose proof (map_sum_ge (fun _ l => owned l (arc h)) m t l (fun _ l _ => owned_nonneg l (arc h)) Hl) as Hge.
    unfold owned in Hge at 1. rewrite Ho, holder_self in Hge. unfold lease_holders. lia.
Qed.

(** C19. The byte accounting of query reservations is exact in every state that any sequence of admissions, finished queries,
    claims, restores, releases, cancellations, unregistrations, expiries and drops reaches.  Every counter (the whole budget
    or one instance, all bytes or speculative ones only) is the sum of the reservations it covers and within its limit, peaks
    included; a reservation is accounted for exactly as long as a lease, a running query or a restore holds it; and no call
    panics on an unsigned underflow, on a missing lease or on a freed reservation. *)
Theorem query_budget_exact g p s :
  0 <= g -> 0 <= p -> reachable g p s ->
  let b := budget (mgr s) in
  (forall i spec, recorded (usage b) i spec = amount b i spec /\ 0 <= amount b i spec <= limit b i spec) /\
  total_peak b <= global b /\ instance_peak b <= per_instance b /\
  (forall a, is_Some (reservations b !! a) <-> is_held s a) /\
  (forall op, enabled op s -> is_Some (exec op s)).
Proof.
  intros Hg Hp Hr b. pose proof (reachable_sys_inv g p s Hg Hp Hr) as Hi. destruct (Hi) as [[Ha Ho] Hc Hf Hk]. fold b in Ha, Ho, Hc.
  split; [|split; [|split; [|split]]].
  - intros i spec. pose proof (Ho i spec) as H1. cbv beta in H1. pose proof (acc_bound b Ha i spec). pose proof (amount_nonneg b i spec Ha). lia.
  - apply (acc_peaks b Ha).
  - apply (acc_peaks b Ha).
  - intros a. unfold is_held. rewrite <- holders_pos, <- lease_holders_pos. specialize (Hc a). pose proof (holders_nonneg (held s) a).
    pose proof (lease_holders_nonneg (leases (mgr s)) a). destruct (reservations b !! a) as [[r n]|].
    + split; [lia|]. intros _. by eexists.
    + split; [by intros []|lia].
  - intros op Hen. destruct (exec_inv op s Hi Hen) as (s' & -> & _). by eexists.
Qed.

(** C29. A restore consumes its leases all or nothing, in every reachable state: it returns exactly when the named leases are
    distinct, current and the instance's own and the plan validates, and then hands out every lease's blocks in order with one
    share of its reservation, takes one consumer off each lease (the last one removes it) and leaves every other lease alone;
    otherwise nothing changed. *)
Theorem restore_batch_exact g p s {T} now instance tokens (validate : list (list B) -> result T EngineError) :
  0 <= g -> 0 <= p -> reachable g p s ->
  exists r m', prepare_restore now instance tokens validate (mgr s) = Some (r, m') /\
    match r with
    | Ok (t, blocks, hs) =>
        NoDup tokens /\ (forall x, x ∈ tokens -> consumable now instance (leases (mgr s)) x) /\
        validate (leased (leases (mgr s)) tokens) = Ok t /\
        blocks = concat (leased (leases (mgr s)) tokens) /\ hs = batch_shares (leases (mgr s)) tokens /\
        after_batch tokens (leases (mgr s)) (leases m')
    | Err e => m' = mgr s /\
        (~ (NoDup tokens /\ forall x, x ∈ tokens -> consumable now instance (leases (mgr s)) x) \/
         validate (leased (leases (mgr s)) tokens) = Err e)
    end.
Proof.
  intros Hg Hp Hr. destruct (prepare_restore_spec now instance tokens validate (mgr s) _ (reachable_sys_inv g p s Hg Hp Hr)) as (r & m' & He & H).
  exists r, m'. split; [done|]. destruct r as [[[t blocks] hs]|e]; [|done]. destruct H as (? & ? & ? & ? & ? & ? & _). done.
Qed.
End System.

(** ** A sample execution: two queries are admitted, one finishes with a two-consumer lease, one consumer restores it *)

Definition sample_size (x : Z) : Z := Z.max 0 x.
Definition sample_topology : Topology := mkTopology (str "ns") (fun group => if group =? 0 then Ok 10 else Err (InvalidArgument "group"%string)).
Definition sample_instances : gmap bytes Instance := {[ str "i" := mkInstance (str "g") 2 (Ok sample_topology) ]}.
Definition sample_token : bytes := replicate 16 (byte_of 9).
Definition sample_ops : list (Op (B := Z)) :=
  [OReserve sample_instances (str "i") 0 4 Demand; OReserve sample_instances (str "i") 0 2 Prepare;
   OFinish 1 100 sample_token sample_instances (mkOwner 1 2 1) [10; 20];
   ORestore 200 (str "i") [sample_token] (fun _ => Ok tt)].
Fixpoint exec_all (ops : list (Op (B := Z))) (s : Sys (B := Z)) : option Sys :=
  match ops with [] => Some s | op :: ops => s ← exec sample_size op s; exec_all ops s end.
Definition sample_start : Sys (B := Z) := mkSys (mkManager (mkBudget 1000 100 (mkUsage 0 ∅ 0 ∅) 0 0 ∅ 0) ∅) [].
Definition sample_sys : Sys (B := Z) := default sample_start (exec_all sample_ops sample_start).

Lemma sample_size_nonneg x : 0 <= sample_size x.
Proof. unfold sample_size. lia. Qed.

Lemma sample_reachable : reachable sample_size 1000 100 sample_sys.
Proof.
  assert (H0 : reachable sample_size 1000 100 sample_start) by (apply reach_new; reflexivity).
  pose (s1 := default sample_start (exec_all (take 1 sample_ops) sample_start)).
  pose (s2 := default sample_start (exec_all (take 2 sample_ops) sample_start)).
  pose (s3 := default sample_start (exec_all (take 3 sample_ops) sample_start)).
  assert (Hb : forall blocks mode s, 0 <= blocks -> enabled (B := Z) (OReserve sample_instances (str "i") 0 blocks mode) s).
  { intros blocks mode s Hb. split; [done|]. intros i t n Hi Ht Hn. unfold sample_instances in Hi. apply lookup_singleton_Some in Hi as [_ <-].
    injection Ht as <-. simpl in Hn. injection Hn as <-. lia. }
  assert (H1 : reachable sample_size 1000 100 s1).
  { apply (reach_step _ _ _ _ (OReserve sample_instances (str "i") 0 4 Demand) _ H0); [by apply Hb|vm_compute; reflexivity]. }
  assert (H2 : reachable sample_size 1000 100 s2).
  { apply (reach_step _ _ _ _ (OReserve sample_instances (str "i") 0 2 Prepare) _ H1); [by apply Hb|vm_compute; reflexivity]. }
  assert (H3 : reachable sample_size 1000 100 s3).
  { apply (reach_step _ _ _ _ (OFinish 1 100 sample_token sample_instances (mkOwner 1 2 1) [10; 20]) _ H2); [vm_compute; by eexists|vm_compute; reflexivity]. }
  apply (reach_step _ _ _ _ (ORestore 200 (str "i") [sample_token] (fun _ => Ok tt)) _ H3); [done|vm_compute; reflexivity].
Qed.

Lemma query_budget_exact_witness :
  let b := budget (mgr sample_sys) in
  total (usage b) = 50 /\ length (held sample_sys) = 2%nat /\
  (forall i spec, recorded (usage b) i spec = amount b i spec /\ 0 <= amount b i spec <= limit b i spec) /\
  total_peak b <= global b /\ instance_peak b <= per_instance b /\
  (forall a, is_Some (reservations b !! a) <-> is_held sample_sys a) /\
  (forall op, enabled op sample_sys -> is_Some (exec sample_size op sample_sys)).
Proof.
  intros b. split; [vm_compute; reflexivity|]. split; [vm_compute; reflexivity|].
  exact (query_budget_exact sample_size sample_size_nonneg 1000 100 sample_sys ltac:(lia) ltac:(lia) sample_reachable).
Defined.

Lemma restore_batch_exact_witness :
  exists r m', prepare_restore 300 (str "i") [sample_token] (fun _ => Ok 7) (mgr sample_sys) = Some (r, m') /\
    match r with
    | Ok (t, blocks, hs) =>
        NoDup [sample_token] /\ (forall x, x ∈ [sample_token] -> consumable 300 (str "i") (leases (mgr sample_sys)) x) /\
        Ok (E := EngineError) 7 = Ok t /\
        blocks = concat (leased (leases (mgr sample_sys)) [sample_token]) /\ hs = batch_shares (leases (mgr sample_sys)) [sample_token] /\
        after_batch [sample_token] (leases (mgr sample_sys)) (leases m')
    | Err e => m' = mgr sample_sys /\
        (~ (NoDup [sample_token] /\ forall x, x ∈ [sample_token] -> consumable 300 (str "i") (leases (mgr sample_sys)) x) \/
         Ok (E := EngineError) 7 = Err e)
    end.
Proof.
  exact (restore_batch_exact sample_size sample_size_nonneg 1000 100 sample_sys 300 (str "i") [sample_token] (fun _ => Ok 7)
    ltac:(lia) ltac:(lia) sample_reachable).
Defined.
