(* ===== verification/Grants.v ===== *)
(** * Restore grants

    orbitkv-channel/src/completion.rs: the shared memory through which the Manager hands a restore
    plan to an engine process and learns of its end.  Every method is a program of atomic steps on
    the shared words, in the order of the code, so that methods of the Manager and of the engine
    interleave between any two accesses.  The words of a record are fields of a slot ([address] gives
    their offsets in the mapping); [from_ne_bytes] is little-endian.  The trace records what the
    methods publish and return; no program reads it. *)
From S2P Require Import Prelude Containers Words Wire.

Local Open Scope Z_scope.

(** ** Constants and layout *)

Definition RESTORE_COMPLETION_SLOTS : Z := 1024.
Definition RESTORE_ERROR_BYTES : Z := 88.
Definition RESTORE_PLAN_BYTES : Z := 1024 * 1024.
Definition HEADER_BYTES : Z := 4096.
Definition RECORD_BYTES : Z := 192.
Definition PLAN_OFFSET : Z := HEADER_BYTES + RESTORE_COMPLETION_SLOTS * RECORD_BYTES.
Definition MAPPING_BYTES : Z := PLAN_OFFSET + RESTORE_PLAN_BYTES.
Definition NEXT_OPERATION_OFFSET : Z := 24.
Definition DIRTY_OFFSET : Z := 64.
Definition DIRTY_WORDS : Z := RESTORE_COMPLETION_SLOTS / 64.
Definition STATE_BITS : Z := 4.
Definition MAX_OPERATION_ID : Z := Z.shiftr u64_max STATE_BITS.

(** ** Data *)

Record RestoreTiming := mkTiming {
  readiness_ns : Z; dispatched_ns : Z; dequeued_ns : Z; claimed_ns : Z; submitted_ns : Z; drained_ns : Z
}.
Definition timing_valid (t : RestoreTiming) : bool :=
  (readiness_ns t <=? dispatched_ns t) && (dispatched_ns t <=? dequeued_ns t) && (dequeued_ns t <=? claimed_ns t) &&
  (claimed_ns t <=? drained_ns t) && (0 <? drained_ns t) && (drained_ns t <=? 86400000000000) &&
  ((submitted_ns t =? 0) || (claimed_ns t <=? submitted_ns t) && (submitted_ns t <=? drained_ns t)).

Inductive GrantState :=
| Reserved | Preparing | CancelRequested | Granted | Active | Drained | Revoked | Managed | Reaped | Acknowledged
| GrantedMore | ActiveMore | PartDrained.
#[export] Instance GrantState_eq_dec : EqDecision GrantState.
Proof. solve_decision. Defined.

Definition state_code (s : GrantState) : Z :=
  match s with
  | Reserved => 0 | Preparing => 1 | CancelRequested => 2 | Granted => 3 | Active => 4 | Drained => 5 | Revoked => 6
  | Managed => 7 | Reaped => 8 | Acknowledged => 9 | GrantedMore => 10 | ActiveMore => 11 | PartDrained => 12
  end.

Inductive CompletionError :=
| InvalidMapping | Full | PlanFull | Exhausted | StaleId (id : Z) | InvalidPayload.

Definition state_decode (tag : Z) : result GrantState CompletionError :=
  match Z.land tag 15 with
  | 0 => Ok Reserved | 1 => Ok Preparing | 2 => Ok CancelRequested | 3 => Ok Granted | 4 => Ok Active | 5 => Ok Drained
  | 6 => Ok Revoked | 7 => Ok Managed | 8 => Ok Reaped | 9 => Ok Acknowledged | 10 => Ok GrantedMore | 11 => Ok ActiveMore
  | 12 => Ok PartDrained | _ => Err InvalidPayload
  end.
Definition tag_of (id : Z) (s : GrantState) : Z := Z.lor (Z.shiftl id STATE_BITS) (state_code s).

(** A record: the tag, the plan reference, the result and the drain evidence. *)
Record Slot := mkSlot {
  tag : Z;
  plan_start : Z;
  plan_len : Z;
  plan_read : Z;
  outcome : Z;
  message : Z -> Z;
  timed : Z;
  timing : Z -> Z
}.

Inductive Event :=
| EReserved (id : Z)
| EPublished (id : Z) (plan : bytes)
| EClaimed (id : Z) (plan : bytes)
| EFinished (id : Z) (failed : Z) (message : bytes)
| EPolled (id : Z) (failed : Z) (message : bytes).

(** The mapping, the Manager's plan bank under its lock, and the trace, newest first. *)
Record Mem := mkMem {
  next_operation : N;
  dirty_words : Z -> Z;
  slots : Z -> Slot;
  bank : Z -> Z;
  plans : gmap Z (Z * Z);
  plans_lock : option Z;
  trace : list Event
}.

(** The offset of a word in the mapping. *)
Inductive Field := FTag | FPlanStart | FPlanLen | FPlanRead | FOutcome | FMessage (k : Z) | FTimed | FTiming (k : Z).
Inductive Cell := NextWord | DirtyWord (i : Z) | RecordWord (slot : Z) (f : Field) | BankWord (i : Z).
Definition field_offset (f : Field) : Z :=
  match f with
  | FTag => 0 | FPlanStart => 8 | FPlanLen => 16 | FPlanRead => 24 | FOutcome => 32
  | FMessage k => 40 + k * 8 | FTimed => 128 | FTiming k => 136 + k * 8
  end.
Definition address (c : Cell) : Z :=
  match c with
  | NextWord => NEXT_OPERATION_OFFSET
  | DirtyWord i => DIRTY_OFFSET + i * 8
  | RecordWord s f => HEADER_BYTES + s * RECORD_BYTES + field_offset f
  | BankWord i => PLAN_OFFSET + i * 8
  end.

(** ** Programs of atomic steps *)

(** A step waits until it is enabled (for the lock, or forever), updates the memory, and goes on with
    what it read from the memory before. *)
Inductive prog (A : Type) :=
| Ret (a : A)
| Step (enabled : Mem -> bool) (update : Mem -> Mem) (next : Mem -> prog A).
Arguments Ret {A}.
Arguments Step {A}.

Fixpoint pbind {A B} (p : prog A) (k : A -> prog B) : prog B :=
  match p with
  | Ret a => k a
  | Step e u n => Step e u (fun m => pbind (n m) k)
  end.
Definition atomic {A} (f : Mem -> Mem * A) : prog A := Step (fun _ => true) (fun m => (f m).1) (fun m => Ret (f m).2).
Definition spin {A} (a : A) : prog A := Step (fun _ => false) (fun m => m) (fun _ => Ret a).

Definition res (A : Type) := result A CompletionError.
Definition rbind {A B} (p : prog (res A)) (k : A -> prog (res B)) : prog (res B) :=
  pbind p (fun r => match r with Ok a => k a | Err e => Ret (Err e) end).

Declare Scope prog_scope.
Delimit Scope prog_scope with prog.
Notation "'do!' x := p 'in' k" := (pbind p (fun x => k)) (at level 10, x pattern, p at level 200, k at level 200) : prog_scope.
Notation "'try!' x := p 'in' k" := (rbind p (fun x => k)) (at level 10, x pattern, p at level 200, k at level 200) : prog_scope.
Local Open Scope prog_scope.

Definition set_slot (s : Z) (f : Slot -> Slot) (m : Mem) : Mem :=
  mkMem (next_operation m) (dirty_words m) (fun s' => if s' =? s then f (slots m s') else slots m s') (bank m) (plans m) (plans_lock m) (trace m).
Definition set_bank (i v : Z) (m : Mem) : Mem :=
  mkMem (next_operation m) (dirty_words m) (slots m) (fun j => if j =? i then v else bank m j) (plans m) (plans_lock m) (trace m).
Definition set_dirty (i : Z) (f : Z -> Z) (m : Mem) : Mem :=
  mkMem (next_operation m) (fun j => if j =? i then f (dirty_words m j) else dirty_words m j) (slots m) (bank m) (plans m) (plans_lock m) (trace m).
Definition set_plans (p : gmap Z (Z * Z)) (m : Mem) : Mem :=
  mkMem (next_operation m) (dirty_words m) (slots m) (bank m) p (plans_lock m) (trace m).
Definition set_lock (l : option Z) (m : Mem) : Mem :=
  mkMem (next_operation m) (dirty_words m) (slots m) (bank m) (plans m) l (trace m).
Definition set_next (n : N) (m : Mem) : Mem :=
  mkMem n (dirty_words m) (slots m) (bank m) (plans m) (plans_lock m) (trace m).
Definition log (e : list Event) (m : Mem) : Mem :=
  mkMem (next_operation m) (dirty_words m) (slots m) (bank m) (plans m) (plans_lock m) (e ++ trace m).

Definition with_tag (t : Z) (s : Slot) : Slot :=
  mkSlot t (plan_start s) (plan_len s) (plan_read s) (outcome s) (message s) (timed s) (timing s).
Definition with_plan (a l r : Z) (s : Slot) : Slot :=
  mkSlot (tag s) a l r (outcome s) (message s) (timed s) (timing s).
Definition with_outcome (o : Z) (s : Slot) : Slot :=
  mkSlot (tag s) (plan_start s) (plan_len s) (plan_read s) o (message s) (timed s) (timing s).
Definition with_message (i v : Z) (s : Slot) : Slot :=
  mkSlot (tag s) (plan_start s) (plan_len s) (plan_read s) (outcome s) (fun j => if j =? i then v else message s j) (timed s) (timing s).
Definition with_timed (v : Z) (s : Slot) : Slot :=
  mkSlot (tag s) (plan_start s) (plan_len s) (plan_read s) (outcome s) (message s) v (timing s).
Definition with_timing (i v : Z) (s : Slot) : Slot :=
  mkSlot (tag s) (plan_start s) (plan_len s) (plan_read s) (outcome s) (message s) (timed s) (fun j => if j =? i then v else timing s j).

Definition load {A} (f : Mem -> A) : prog A := atomic (fun m => (m, f m)).
Definition store (f : Mem -> Mem) : prog unit := atomic (fun m => (f m, tt)).

(** ** Methods *)

Definition offset (id : Z) : res Z :=
  if (id =? 0) || (MAX_OPERATION_ID <? id) then Err (StaleId id) else Ok (id mod RESTORE_COMPLETION_SLOTS).

(** [compare_exchange] on the tag; [events] is what the exchange makes visible. *)
Definition transition (id : Z) (from to : GrantState) (events : list Event) : prog (res unit) :=
  match offset id with
  | Err e => Ret (Err e)
  | Ok s => atomic (fun m =>
      if tag (slots m s) =? tag_of id from then (log events (set_slot s (with_tag (tag_of id to)) m), Ok tt)
      else (m, Err (StaleId id)))
  end.

Definition state (id : Z) : prog (res GrantState) :=
  match offset id with
  | Err e => Ret (Err e)
  | Ok s => load (fun m => let t := tag (slots m s) in if negb (Z.shiftr t STATE_BITS =? id) then Err (StaleId id) else state_decode t)
  end.

(** [reserve]: [fuel] is the bound of the loop, one attempt per slot. *)
Fixpoint reserve_loop (fuel : nat) : prog (res Z) :=
  match fuel with
  | O => Ret (Err Full)
  | S fuel =>
      do! id := atomic (fun m => let n := Z.of_N (next_operation m) in
                  if negb (n =? 0) && (n <=? MAX_OPERATION_ID) then (set_next (next_operation m + 1) m, Some n) else (m, None)) in
      match id with
      | None => Ret (Err Exhausted)
      | Some id =>
          match offset id with
          | Err e => Ret (Err e)
          | Ok s =>
              do! t := load (fun m => tag (slots m s)) in
              if ((t =? 0) || (Z.land t 15 =? state_code Acknowledged)) && (Z.shiftr t STATE_BITS <? id) then
                do! won := atomic (fun m => if tag (slots m s) =? t
                             then (log [EReserved id] (set_slot s (with_tag (Z.shiftl id STATE_BITS)) m), true) else (m, false)) in
                if won : bool then Ret (Ok id) else reserve_loop fuel
              else reserve_loop fuel
          end
      end
  end.
Definition reserve : prog (res Z) := reserve_loop (Z.to_nat RESTORE_COMPLETION_SLOTS).

Definition claim (id : Z) : prog (res unit) := transition id Reserved Preparing [].

(** The retry loops run until their exchange wins; [fuel] bounds the attempts that are looked at. *)
Fixpoint cancel (fuel : nat) (id : Z) : prog (res bool) :=
  match fuel with
  | O => spin (Err (StaleId id))
  | S fuel =>
      try! s := state id in
      match s with
      | Reserved =>
          do! r := transition id Reserved Acknowledged [] in
          match r with Ok _ => Ret (Ok true) | Err _ => cancel fuel id end
      | Preparing =>
          do! r := transition id Preparing CancelRequested [] in
          match r with Ok _ => Ret (Ok false) | Err _ => cancel fuel id end
      | Acknowledged => Ret (Err (StaleId id))
      | _ => Ret (Ok false)
      end
  end.

Fixpoint start_managed (fuel : nat) (id : Z) : prog (res unit) :=
  match fuel with
  | O => spin (Err (StaleId id))
  | S fuel =>
      try! s := state id in
      if negb (bool_decide (s = Preparing) || bool_decide (s = CancelRequested)) then Ret (Err (StaleId id))
      else
        do! r := transition id s Managed [] in
        match r with Ok _ => Ret (Ok tt) | Err _ => start_managed fuel id end
  end.

(** The eight-byte words of a byte string, the last one padded with zeros. *)
Definition word_count (len : Z) : nat := Z.to_nat ((len + 7) / 8).
Definition word_at (b : bytes) (k : nat) : Z := of_le (take 8 (drop (8 * k) b)).
Definition bytes_of_words (f : nat -> Z) (len : Z) : bytes :=
  take (Z.to_nat len) (concat ((fun k => u64_le (f k)) <$> seq 0 (word_count len))).
Definition next_multiple_of_8 (n : Z) : Z := (n + 7) / 8 * 8.

(** Stores the words [k], [k + 1], ... of [b] in order. *)
Fixpoint store_words (put : Z -> Z -> Mem -> Mem) (b : bytes) (k : nat) (n : nat) : prog unit :=
  match n with
  | O => Ret tt
  | S n => do! _ := store (put (Z.of_nat k) (word_at b k)) in store_words put b (S k) n
  end.
Fixpoint load_words (get : Z -> Mem -> Z) (k : nat) (n : nat) : prog (list Z) :=
  match n with
  | O => Ret []
  | S n => do! w := load (get (Z.of_nat k)) in do! ws := load_words get (S k) n in Ret (w :: ws)
  end.

(** First fit over the ranges in use, sorted by their start. *)
Fixpoint first_fit (size start : Z) (ranges : list (Z * Z)) : Z :=
  match ranges with
  | [] => start
  | r :: ranges => if size <=? r.1 - start then start else first_fit size r.2 ranges
  end.
Definition range_le (a b : Z * Z) : Prop := a.1 <= b.1.
#[export] Instance range_le_dec : RelDecision range_le.
Proof. intros a b. unfold range_le. apply _. Defined.
Definition sorted_ranges (p : gmap Z (Z * Z)) : list (Z * Z) := merge_sort range_le (map_to_list p).*2.

Definition lock_plans (id : Z) : prog unit :=
  Step (fun m => match plans_lock m with None => true | Some _ => false end) (set_lock (Some id)) (fun _ => Ret tt).
Definition unlock_plans : prog unit := store (set_lock None).
Definition remove_plan (id : Z) : prog unit := store (fun m => set_plans (delete id (plans m)) m).

(** [publish_local]: the plan bank stays locked from the choice of a range to the grant. *)
Definition grant (id : Z) (plan : bytes) (more : bool) (slot start : Z) : prog (res bool) :=
  do! _ := store_words (fun k v => set_bank (start / 8 + k) v) plan 0 (word_count (zlen plan)) in
  do! _ := store (set_slot slot (fun x => with_plan start (plan_len x) (plan_read x) x)) in
  do! _ := store (set_slot slot (fun x => with_plan (plan_start x) (zlen plan) (plan_read x) x)) in
  do! _ := store (set_slot slot (fun x => with_plan (plan_start x) (plan_len x) 0 x)) in
  do! _ := store (fun m => set_plans (<[id := (start, start + next_multiple_of_8 (zlen plan))]> (plans m)) m) in
  do! r := transition id Preparing (if more then GrantedMore else Granted) [EPublished id plan] in
  match r with
  | Ok _ => Ret (Ok true)
  | Err e =>
      try! s := state id in
      do! _ := remove_plan id in
      Ret (if bool_decide (s = CancelRequested) then Ok false else Err e)
  end.

Definition publish_local (id : Z) (plan : bytes) (more : bool) : prog (res bool) :=
  try! s := state id in
  if bool_decide (s = CancelRequested) then Ret (Ok false) else
  try! s := state id in
  if negb (bool_decide (s = Preparing)) then Ret (Err (StaleId id)) else
  if (zlen plan =? 0) || (RESTORE_PLAN_BYTES <? zlen plan) then Ret (Err PlanFull) else
  do! _ := lock_plans id in
  do! ps := load plans in
  do! r :=
    match ps !! id with
    | Some _ => Ret (Err (StaleId id))
    | None =>
        let start := first_fit (next_multiple_of_8 (zlen plan)) 0 (sorted_ranges ps) in
        if RESTORE_PLAN_BYTES <? start + next_multiple_of_8 (zlen plan) then Ret (Err PlanFull)
        else match offset id with Err e => Ret (Err e) | Ok slot => grant id plan more slot start end
    end in
  do! _ := unlock_plans in
  Ret r.

(** [dirty]: marks the slot for the Manager (the event counter that wakes it is not modelled). *)
Definition dirty (id : Z) : prog unit :=
  let s := id mod RESTORE_COMPLETION_SLOTS in
  store (set_dirty (s / 64) (fun w => Z.lor w (Z.shiftl 1 (s mod 64)))).

(** [write_result]: the message is cut to the record at a character boundary. *)
Definition is_char_boundary (msg : bytes) (n : nat) : bool :=
  match msg !! n with Some b => negb (is_continuation b) | None => (n =? length msg)%nat end.
Fixpoint cut (msg : bytes) (n : nat) : nat :=
  match n with O => O | S n' => if is_char_boundary msg n then n else cut msg n' end.
Definition truncated (msg : bytes) : bytes := take (cut msg (Z.to_nat (Z.min (zlen msg) RESTORE_ERROR_BYTES))) msg.
Definition result_parts (r : result unit bytes) : Z * bytes :=
  match r with Ok _ => (0, []) | Err msg => (1, truncated msg) end.

Definition write_result (id : Z) (r : result unit bytes) : prog (res unit) :=
  match offset id with
  | Err e => Ret (Err e)
  | Ok slot =>
      let '(failed, msg) := result_parts r in
      do! _ := store_words (fun k v => set_slot slot (with_message k v)) msg 0 (word_count (zlen msg)) in
      do! _ := store (fun m => log [EFinished id failed msg] (set_slot slot (with_outcome (Z.lor (Z.shiftl (zlen msg) 1) failed)) m)) in
      Ret (Ok tt)
  end.

Definition timing_words (t : RestoreTiming) : list Z :=
  [readiness_ns t; dispatched_ns t; dequeued_ns t; claimed_ns t; submitted_ns t; drained_ns t].
Fixpoint store_timing (slot : Z) (k : Z) (ws : list Z) : prog unit :=
  match ws with
  | [] => Ret tt
  | w :: ws => do! _ := store (set_slot slot (with_timing k w)) in store_timing slot (k + 1) ws
  end.

Definition drained (id : Z) (r : result unit bytes) (evidence : option RestoreTiming) : prog (res bool) :=
  try! s := state id in
  if negb (bool_decide (s = Active) || bool_decide (s = ActiveMore)) then Ret (Err (StaleId id)) else
  let terminal := bool_decide (s = Active) || negb (is_ok r) in
  match offset id with
  | Err e => Ret (Err e)
  | Ok slot =>
      let evidence := match evidence with
                      | Some t => if timing_valid t && (negb (is_ok r) || negb (submitted_ns t =? 0)) then Some t else None
                      | None => None
                      end in
      do! _ := match evidence with Some t => store_timing slot 0 (timing_words t) | None => Ret tt end in
      do! _ := store (set_slot slot (with_timed (match evidence with Some _ => 1 | None => 0 end))) in
      try! _ := write_result id r in
      try! _ := transition id s (if terminal then Drained else PartDrained) [] in
      do! _ := dirty id in
      Ret (Ok terminal)
  end.

Definition read_plan (id slot : Z) : prog (res bytes) :=
  do! start := load (fun m => plan_start (slots m slot)) in
  do! len := load (fun m => plan_len (slots m slot)) in
  if (len =? 0) || negb (start mod 8 =? 0) || (RESTORE_PLAN_BYTES <? len) || (RESTORE_PLAN_BYTES - len <? start)
  then Ret (Err InvalidPayload)
  else
    do! ws := load_words (fun k m => bank m (start / 8 + k)) 0 (word_count len) in
    let plan := bytes_of_words (fun k => nth k ws 0) len in
    do! _ := store (fun m => log [EClaimed id plan] (set_slot slot (fun x => with_plan (plan_start x) (plan_len x) 1 x) m)) in
    do! _ := dirty id in
    Ret (Ok plan).

(** The only error of [read_plan] is [InvalidPayload], whose text the result carries. *)
Definition claim_local (id : Z) : prog (res (option bytes)) :=
  try! s := state id in
  let active := match s with Granted => Ok (Some Active) | GrantedMore => Ok (Some ActiveMore)
                | Acknowledged => Err (StaleId id) | _ => Ok None end in
  match active with
  | Err e => Ret (Err e)
  | Ok None => Ret (Ok None)
  | Ok (Some active) =>
      try! _ := transition id s active [] in
      match offset id with
      | Err e => Ret (Err e)
      | Ok slot =>
          do! plan := read_plan id slot in
          match plan with
          | Ok plan => Ret (Ok (Some plan))
          | Err e => try! _ := drained id (Err (str "Restore plan rejected before execution: invalid restore grant payload")) None in Ret (Err e)
          end
      end
  end.

(** [manager_updates]: the slots whose bit was set, in order, with the tag each has now. *)
Fixpoint read_updates (slots_marked : list Z) : prog (res (list (Z * GrantState))) :=
  match slots_marked with
  | [] => Ret (Ok [])
  | s :: rest =>
      do! t := load (fun m => tag (slots m s)) in
      if t =? 0 then read_updates rest
      else match state_decode t with
           | Err e => Ret (Err e)
           | Ok g => try! l := read_updates rest in Ret (Ok ((Z.shiftr t STATE_BITS, g) :: l))
           end
  end.
Fixpoint scan_dirty (index : nat) (count : nat) : prog (res (list (Z * GrantState))) :=
  match count with
  | O => Ret (Ok [])
  | S count =>
      do! bits := atomic (fun m => (set_dirty (Z.of_nat index) (fun _ => 0) m, dirty_words m (Z.of_nat index))) in
      let marked := filter (fun b => Z.testbit bits (Z.of_nat b) = true) (seq 0 64) in
      try! l := read_updates ((fun b => Z.of_nat index * 64 + Z.of_nat b) <$> marked) in
      try! l' := scan_dirty (S index) count in
      Ret (Ok (l ++ l'))
  end.
Definition manager_updates : prog (res (list (Z * GrantState))) := scan_dirty 0 (Z.to_nat DIRTY_WORDS).

Definition drop_plan (id : Z) : prog unit :=
  do! _ := lock_plans id in do! _ := remove_plan id in unlock_plans.

Definition release_plan (id : Z) : prog (res unit) :=
  match offset id with
  | Err e => Ret (Err e)
  | Ok slot =>
      try! s := state id in
      do! free :=
        match s with
        | Revoked | Drained | PartDrained => Ret true
        | Active | ActiveMore => load (fun m => plan_read (slots m slot) =? 1)
        | _ => Ret false
        end in
      if free : bool then do! _ := drop_plan id in Ret (Ok tt) else Ret (Err (StaleId id))
  end.

Definition continue_local (id : Z) : prog (res unit) := transition id PartDrained Preparing [].

Fixpoint revoke (fuel : nat) (id : Z) : prog (res bool) :=
  match fuel with
  | O => spin (Err (StaleId id))
  | S fuel =>
      try! s := state id in
      match s with
      | Granted | GrantedMore | PartDrained =>
          do! r := transition id s Revoked [] in
          match r with Ok _ => do! _ := dirty id in Ret (Ok true) | Err _ => revoke fuel id end
      | Active | ActiveMore | Drained | Revoked | Reaped | Acknowledged => Ret (Ok false)
      | _ => Ret (Err (StaleId id))
      end
  end.

Definition drain_timing (id : Z) : prog (res (option RestoreTiming)) :=
  try! s := state id in
  if negb (bool_decide (s = Drained)) then Ret (Err (StaleId id)) else
  match offset id with
  | Err e => Ret (Err e)
  | Ok slot =>
      do! present := load (fun m => timed (slots m slot) =? 1) in
      do! ws := load_words (fun k m => timing (slots m slot) k) 0 6 in
      let t := mkTiming (nth 0 ws 0) (nth 1 ws 0) (nth 2 ws 0) (nth 3 ws 0) (nth 4 ws 0) (nth 5 ws 0) in
      try! s := state id in
      if negb (bool_decide (s = Drained)) then Ret (Err (StaleId id))
      else Ret (Ok (if present && timing_valid t then Some t else None))
  end.

Definition drain_succeeded (id : Z) : prog (res bool) :=
  try! s := state id in
  match s with
  | Drained =>
      match offset id with
      | Err e => Ret (Err e)
      | Ok slot => load (fun m => Ok (Z.land (outcome (slots m slot)) 1 =? 0))
      end
  | Revoked => Ret (Ok false)
  | _ => Ret (Err (StaleId id))
  end.

Definition reap (id : Z) : prog (res unit) :=
  try! s := state id in
  if negb (bool_decide (s = Drained) || bool_decide (s = Revoked)) then Ret (Err (StaleId id)) else
  do! _ := drop_plan id in
  try! _ := (if bool_decide (s = Revoked) then write_result id (Err (str "restore grant revoked")) else Ret (Ok tt)) in
  transition id s Reaped [].

Fixpoint reject (fuel : nat) (id : Z) (msg : bytes) : prog (res unit) :=
  match fuel with
  | O => spin (Err (StaleId id))
  | S fuel =>
      try! s := state id in
      if negb (bool_decide (s = Preparing) || bool_decide (s = CancelRequested)) then Ret (Err (StaleId id)) else
      try! _ := write_result id (Err msg) in
      do! r := transition id s Reaped [] in
      match r with Ok _ => Ret (Ok tt) | Err _ => reject fuel id msg end
  end.
Definition finish_cancelled (fuel : nat) (id : Z) : prog (res unit) := reject fuel id (str "restore preparation cancelled").

Definition complete (id : Z) (r : result unit bytes) : prog (res unit) :=
  try! s := state id in
  if negb (bool_decide (s = Managed)) then Ret (Err (StaleId id)) else
  try! _ := write_result id r in
  transition id Managed Reaped [].

Inductive RestoreState := Pending | Succeeded | Failed.

Definition poll (id : Z) : prog (res (RestoreState * bytes)) :=
  match offset id with
  | Err e => Ret (Err e)
  | Ok slot =>
      try! s := state id in
      if bool_decide (s = Acknowledged) then Ret (Err (StaleId id)) else
      if negb (bool_decide (s = Reaped)) then Ret (Ok (Pending, [])) else
      do! result := load (fun m => outcome (slots m slot)) in
      let len := Z.shiftr result 1 in
      if RESTORE_ERROR_BYTES <? len then Ret (Err InvalidPayload) else
      do! ws := load_words (fun k m => message (slots m slot) k) 0 (word_count len) in
      let msg := bytes_of_words (fun k => nth k ws 0) len in
      try! _ := transition id Reaped Acknowledged [EPolled id (Z.land result 1) msg] in
      Ret (if utf8_valid msg then Ok (if Z.land result 1 =? 0 then Succeeded else Failed, msg) else Err InvalidPayload)
  end.
