(* ===== verification/GrantsLogic.v ===== *)
(** * Reasoning about interleaved grant programs

    Rely-guarantee reasoning for the programs of [Grants]: what each side may do to the memory
    ([guarantee]), the invariant of the memory, and a weakest precondition under which every step
    keeps both, whatever the other threads do in between.  The engine calls of one operation id come
    from one thread, and so do the Manager's calls; different ids and the two sides interleave. *)
From S2P Require Import Prelude Containers Words Wire Grants.

Local Open Scope Z_scope.

(** ** Tags *)

Definition slot_of (id : Z) : Z := id mod RESTORE_COMPLETION_SLOTS.
Definition valid_id (id : Z) : Prop := 0 < id <= MAX_OPERATION_ID.
Definition tag_id (t : Z) : Z := Z.shiftr t STATE_BITS.
Definition at_state (m : Mem) (id : Z) (s : GrantState) : Prop := tag (slots m (slot_of id)) = tag_of id s.

Lemma code_range s : 0 <= state_code s < 16.
Proof. destruct s; simpl; lia. Qed.
Lemma code_inj s s' : state_code s = state_code s' -> s = s'.
Proof. by destruct s, s'. Qed.

Lemma tag_of_eq id s : tag_of id s = id * 16 + state_code s.
Proof.
  unfold tag_of, STATE_BITS. pose proof (code_range s). rewrite Z.shiftl_mul_pow2 by lia. change (2 ^ 4) with 16.
  pose proof (Z.add_lor_land (id * 16) (state_code s)).
  assert (Z.land (id * 16) (state_code s) = 0); [|lia].
  apply Z.bits_inj'. intros n Hn. rewrite Z.land_spec, Z.bits_0. change 16 with (2 ^ 4).
  destruct (Z.lt_ge_cases n 4).
  - by rewrite Z.mul_pow2_bits_low.
  - rewrite (Z.bits_above_log2 (state_code s) n); [by rewrite andb_false_r|lia|].
    destruct (Z.eq_dec (state_code s) 0) as [->|]; [simpl; lia|]. apply Z.log2_lt_pow2; [lia|].
    assert (2 ^ 4 <= 2 ^ n) by (apply Z.pow_le_mono_r; lia). change (2 ^ 4) with 16 in *. lia.
Qed.

Lemma tag_id_eq t : tag_id t = t / 16.
Proof. unfold tag_id, STATE_BITS. by rewrite Z.shiftr_div_pow2. Qed.
Lemma tag_id_of id s : tag_id (tag_of id s) = id.
Proof. rewrite tag_id_eq, tag_of_eq. pose proof (code_range s). rewrite Z.div_add_l by lia. rewrite Z.div_small; lia. Qed.
Lemma tag_of_inj id s id' s' : tag_of id s = tag_of id' s' -> id = id' /\ s = s'.
Proof.
  intros H. assert (id = id') as <- by (by rewrite <- (tag_id_of id s), H, tag_id_of). split; [done|].
  rewrite !tag_of_eq in H. apply code_inj. lia.
Qed.
Lemma low_bits id s : Z.land (tag_of id s) 15 = state_code s.
Proof.
  change 15 with (Z.ones 4). rewrite Z.land_ones by lia. rewrite tag_of_eq. change (2 ^ 4) with 16. pose proof (code_range s).
  rewrite Z.add_comm, Z.mod_add by lia. apply Z.mod_small. lia.
Qed.
Lemma decode_tag id s : state_decode (tag_of id s) = Ok s.
Proof. unfold state_decode. rewrite low_bits. by destruct s. Qed.
Lemma shifted_reserved id : Z.shiftl id STATE_BITS = tag_of id Reserved.
Proof. unfold tag_of. simpl. by rewrite Z.lor_0_r. Qed.

Lemma offset_valid id : valid_id id -> offset id = Ok (slot_of id).
Proof.
  intros [H1 H2]. unfold offset, slot_of. rewrite (proj2 (Z.eqb_neq _ _)) by lia. by rewrite (proj2 (Z.ltb_ge _ _)).
Qed.
Lemma offset_Ok id s : 0 <= id -> offset id = Ok s -> valid_id id /\ s = slot_of id.
Proof.
  intros H0. unfold offset. destruct (_ || _) eqn:E; [done|]. intros [= <-]. apply orb_false_iff in E as [?%Z.eqb_neq ?%Z.ltb_ge].
  split; [|done]. unfold valid_id. lia.
Qed.

(** ** The trace *)

Fixpoint last_published (t : list Event) (id : Z) : option bytes :=
  match t with
  | [] => None
  | EPublished i p :: t => if i =? id then Some p else last_published t id
  | _ :: t => last_published t id
  end.
Fixpoint last_finished (t : list Event) (id : Z) : option (Z * bytes) :=
  match t with
  | [] => None
  | EFinished i f msg :: t => if i =? id then Some (f, msg) else last_finished t id
  | _ :: t => last_finished t id
  end.
Definition event_id (e : Event) : Z :=
  match e with EReserved i | EPublished i _ | EClaimed i _ | EFinished i _ _ | EPolled i _ _ => i end.

(** What a trace promises at each event: ids are fresh, a claimed plan is the one published last for
    its id, a polled result is the one written last for its id, and it is delivered once. *)
Fixpoint trace_ok (t : list Event) : Prop :=
  match t with
  | [] => True
  | e :: t =>
      match e with
      | EReserved id => EReserved id ∉ t
      | EPublished id _ => EReserved id ∈ t
      | EClaimed id plan => last_published t id = Some plan
      | EFinished id _ _ => EReserved id ∈ t
      | EPolled id f msg => last_finished t id = Some (f, msg) /\ forall f' msg', EPolled id f' msg' ∉ t
      end /\ trace_ok t
  end.

Lemma last_published_frame evs t id :
  Forall (fun e => event_id e <> id) evs -> last_published (evs ++ t) id = last_published t id.
Proof.
  induction 1 as [|e evs He _ IH]; [done|]. destruct e; simpl in *; try done. destruct (Z.eqb_spec id0 id); [done|exact IH].
Qed.
Lemma last_finished_frame evs t id :
  Forall (fun e => event_id e <> id) evs -> last_finished (evs ++ t) id = last_finished t id.
Proof.
  induction 1 as [|e evs He _ IH]; [done|]. destruct e; simpl in *; try done. destruct (Z.eqb_spec id0 id); [done|exact IH].
Qed.

Lemma last_published_quiet evs t id :
  Forall (fun e => match e with EPublished _ _ => False | _ => True end) evs -> last_published (evs ++ t) id = last_published t id.
Proof. induction 1 as [|e evs He _ IH]; [done|]. destruct e; simpl in *; done. Qed.
Lemma last_finished_quiet evs t id :
  Forall (fun e => match e with EFinished _ _ _ => False | _ => True end) evs -> last_finished (evs ++ t) id = last_finished t id.
Proof. induction 1 as [|e evs He _ IH]; [done|]. destruct e; simpl in *; done. Qed.

(** ** The invariant *)

Definition words_hold (get : Z -> Z) (b : bytes) : Prop :=
  forall k, (k < word_count (zlen b))%nat -> get (Z.of_nat k) = word_at b k.

(** The published plan is in the bank range that the Manager keeps for it. *)
Definition plan_ok (m : Mem) (id : Z) : Prop :=
  exists plan start, last_published (trace m) id = Some plan /\ zlen plan <> 0 /\ zlen plan <= RESTORE_PLAN_BYTES /\
    plans m !! id = Some (start, start + next_multiple_of_8 (zlen plan)) /\
    plan_start (slots m (slot_of id)) = start /\ plan_len (slots m (slot_of id)) = zlen plan /\
    plan_read (slots m (slot_of id)) = 0 /\ words_hold (fun k => bank m (start / 8 + k)) plan.
(** The record encodes the result that was written last. *)
Definition result_ok (m : Mem) (id : Z) : Prop :=
  exists failed msg, last_finished (trace m) id = Some (failed, msg) /\ (failed = 0 \/ failed = 1) /\ zlen msg <= RESTORE_ERROR_BYTES /\
    outcome (slots m (slot_of id)) = Z.lor (Z.shiftl (zlen msg) 1) failed /\ words_hold (message (slots m (slot_of id))) msg.

Definition granted (s : GrantState) : Prop := s = Granted \/ s = GrantedMore.
Definition active (s : GrantState) : Prop := s = Active \/ s = ActiveMore.
Definition live (m : Mem) (id : Z) (s : GrantState) : Prop := granted s \/ active s /\ plan_read (slots m (slot_of id)) = 0.
Definition done_state (s : GrantState) : Prop := s = Drained \/ s = Reaped.

(** The ranges of the bank are aligned, inside it, not empty and disjoint. *)
Definition plans_ok (p : gmap Z (Z * Z)) : Prop :=
  map_Forall (fun _ r => 0 <= r.1 < r.2 /\ r.2 <= RESTORE_PLAN_BYTES /\ r.1 mod 8 = 0 /\ r.2 mod 8 = 0) p /\
  forall i j r r', p !! i = Some r -> p !! j = Some r' -> i <> j -> r.2 <= r'.1 \/ r'.2 <= r.1.

Record Inv (m : Mem) : Prop := {
  inv_live : forall id s, valid_id id -> at_state m id s -> live m id s -> plan_ok m id;
  inv_done : forall id s, valid_id id -> at_state m id s -> done_state s -> result_ok m id;
  inv_plans : plans_ok (plans m);
  inv_reserved : forall id, EReserved id ∈ trace m -> id <= tag_id (tag (slots m (slot_of id)));
  inv_known : forall id s, valid_id id -> at_state m id s -> EReserved id ∈ trace m;
  inv_polled : forall id f msg, EPolled id f msg ∈ trace m -> at_state m id Acknowledged \/ id < tag_id (tag (slots m (slot_of id)));
  inv_trace : trace_ok (trace m)
}.

(** ** What each side may do *)

Inductive Role := Eng (id : Z) | Man (id : Z) | Rsv (thread : nat).
#[export] Instance Role_eq_dec : EqDecision Role.
Proof. solve_decision. Defined.

Definition eng_move (a b : GrantState) : Prop :=
  a = b \/ match a, b with
           | Reserved, Acknowledged | Preparing, CancelRequested | Granted, Active | GrantedMore, ActiveMore
           | Active, Drained | ActiveMore, Drained | ActiveMore, PartDrained | Reaped, Acknowledged => True
           | _, _ => False
           end.
Definition man_move (a b : GrantState) : Prop :=
  a = b \/ match a, b with
           | Reserved, Preparing | Preparing, Managed | CancelRequested, Managed | Preparing, Granted | Preparing, GrantedMore
           | PartDrained, Preparing | Granted, Revoked | GrantedMore, Revoked | PartDrained, Revoked
           | Drained, Reaped | Revoked, Reaped | Preparing, Reaped | CancelRequested, Reaped | Managed, Reaped => True
           | _, _ => False
           end.
(** The states in which the Manager writes to the record. *)
Definition man_own (s : GrantState) : Prop := s = Preparing \/ s = CancelRequested \/ s = Managed \/ s = Revoked.

Definition same_bank (m m' : Mem) : Prop := bank m' = bank m /\ plans m' = plans m.
Definition other_slots (id : Z) (m m' : Mem) : Prop := forall s, s <> slot_of id -> slots m' s = slots m s.
Abbreviation not_published := (fun e => match e with EPublished _ _ => False | _ => True end).
Abbreviation not_finished := (fun e => match e with EFinished _ _ _ => False | _ => True end).
Abbreviation not_reserved := (fun e => match e with EReserved _ => False | _ => True end).
(** A step on a record that is in state [a] before and [b] after. *)
Definition moves (move : GrantState -> GrantState -> Prop) (own : GrantState -> Prop) (publish : bool) (id : Z) (m m' : Mem) : Prop :=
  valid_id id /\ exists a b evs, at_state m id a /\ at_state m' id b /\ move a b /\
    (publish = true \/ plan_read (slots m' (slot_of id)) = plan_read (slots m (slot_of id)) \/ plan_read (slots m' (slot_of id)) = 1) /\
    trace m' = evs ++ trace m /\ Forall (fun e => event_id e = id /\ not_reserved e) evs /\
    (~ (publish = true /\ a = Preparing) -> Forall not_published evs) /\
    (~ own a -> Forall not_finished evs /\ slots m' (slot_of id) = with_tag (tag_of id b) (slots m (slot_of id))).
Definition unmoved (id : Z) (m m' : Mem) : Prop := slots m' (slot_of id) = slots m (slot_of id) /\ trace m' = trace m.

Definition guarantee (r : Role) (m m' : Mem) : Prop :=
  match r with
  | Eng id =>
      same_bank m m' /\ plans_lock m' = plans_lock m /\ other_slots id m m' /\
      (unmoved id m m' \/ moves eng_move active false id m m')
  | Man id =>
      (plans_lock m <> Some id -> same_bank m m') /\
      (plans_lock m' = plans_lock m \/ plans_lock m = None /\ plans_lock m' = Some id \/ plans_lock m = Some id /\ plans_lock m' = None) /\
      other_slots id m m' /\ (unmoved id m m' \/ moves man_move man_own true id m m')
  | Rsv _ =>
      same_bank m m' /\ plans_lock m' = plans_lock m /\
      (slots m' = slots m /\ trace m' = trace m \/
       exists id, valid_id id /\ other_slots id m m' /\ trace m' = EReserved id :: trace m /\
         (tag (slots m (slot_of id)) = 0 \/ Z.land (tag (slots m (slot_of id))) 15 = state_code Acknowledged) /\
         tag_id (tag (slots m (slot_of id))) < id /\
         slots m' (slot_of id) = with_tag (tag_of id Reserved) (slots m (slot_of id)))
  end.

(** ** Weakest preconditions *)

Definition env (r : Role) (m m' : Mem) : Prop := Inv m' /\ exists r', r' <> r /\ guarantee r' m m'.

Fixpoint wp {A} (r : Role) (p : prog A) (Q : A -> Mem -> Prop) (m : Mem) : Prop :=
  match p with
  | Ret a => Q a m
  | Step e u n => forall m', rtc (env r) m m' -> Inv m' -> e m' = true -> guarantee r m' (u m') /\ Inv (u m') /\ wp r (n m') Q (u m')
  end.

Lemma wp_mono {A} r (p : prog A) (Q Q' : A -> Mem -> Prop) m : (forall a m, Q a m -> Q' a m) -> wp r p Q m -> wp r p Q' m.
Proof.
  intros HQ. revert m. induction p as [a|e u n IH]; intros m; simpl; [apply HQ|].
  intros H m' He Hi Hen. destruct (H m' He Hi Hen) as (Hg & Hi' & Hw). split; [done|]. split; [done|]. by apply IH.
Qed.

Lemma wp_bind {A B} r (p : prog A) (k : A -> prog B) Q m : wp r p (fun a m => wp r (k a) Q m) m -> wp r (pbind p k) Q m.
Proof.
  revert m. induction p as [a|e u n IH]; intros m; simpl; [done|].
  intros H m' He Hi Hen. destruct (H m' He Hi Hen) as (Hg & Hi' & Hw). split; [done|]. split; [done|]. by apply IH.
Qed.

(** A thread's remaining work tolerates a step of its environment. *)
Lemma wp_env {A} r (p : prog A) m m' : env r m m' -> wp r p (fun _ _ => True) m -> wp r p (fun _ _ => True) m'.
Proof. intros He. destruct p as [a|e u n]; simpl; [done|]. intros H m2 He2. apply H. by eapply rtc_l. Qed.

(** Assertions that the environment keeps. *)
Definition stable (r : Role) (P : Mem -> Prop) : Prop := forall m m', env r m m' -> P m -> P m'.

Lemma stable_rtc r P m m' : stable r P -> rtc (env r) m m' -> P m -> P m'.
Proof. intros HP. induction 1; [done|]. intros. eauto. Qed.
Lemma stable_and r P P' : stable r P -> stable r P' -> stable r (fun m => P m /\ P' m).
Proof. intros H H' m m' He [? ?]. split; eauto. Qed.
Lemma stable_or r P P' : stable r P -> stable r P' -> stable r (fun m => P m \/ P' m).
Proof. intros H H' m m' He [?|?]; [left|right]; eauto. Qed.
Lemma stable_True r : stable r (fun _ => True).
Proof. done. Qed.

Lemma wp_step {A} r P e u (n : Mem -> prog A) Q m :
  stable r P -> P m ->
  (forall m', Inv m' -> P m' -> e m' = true -> guarantee r m' (u m') /\ Inv (u m') /\ wp r (n m') Q (u m')) ->
  wp r (Step e u n) Q m.
Proof. intros HP Hm H m' He Hi Hen. apply H; [done| |done]. by eapply stable_rtc. Qed.

Lemma guarantee_refl r m : guarantee r m m.
Proof. destruct r; simpl; unfold same_bank, other_slots, unmoved; try naive_solver. Qed.

(** A read leaves the memory alone. *)
Lemma wp_load {A} r P (f : Mem -> A) Q m :
  stable r P -> P m -> (forall m', Inv m' -> P m' -> Q (f m') m') -> wp r (load f) Q m.
Proof.
  intros HP Hm H. apply (wp_step r P); [done|done|]. intros m' Hi Hp _. simpl. split; [apply guarantee_refl|]. split; [done|]. by apply H.
Qed.

Lemma wp_rbind {A B} r (p : prog (res A)) (k : A -> prog (res B)) Q m :
  wp r p (fun x m => match x with Ok a => wp r (k a) Q m | Err e => Q (Err e) m end) m -> wp r (rbind p k) Q m.
Proof. intros H. unfold rbind. apply wp_bind. eapply wp_mono; [|exact H]. intros [a|e] m'; done. Qed.

Lemma wp_spin {A} r (a : A) Q m : wp r (spin a) Q m.
Proof. by intros m' _ _ ?. Qed.

(** ** Frames *)

(** The record of [id] and what was last published and written for it. *)
Definition id_frame (id : Z) (m m' : Mem) : Prop :=
  slots m' (slot_of id) = slots m (slot_of id) /\
  last_published (trace m') id = last_published (trace m) id /\ last_finished (trace m') id = last_finished (trace m) id.

Lemma unmoved_frame id m m' : unmoved id m m' -> id_frame id m m'.
Proof. intros [Hs Ht]. unfold id_frame. by rewrite Hs, Ht. Qed.

Lemma at_state_inj m id s id' s' : slot_of id = slot_of id' -> at_state m id s -> at_state m id' s' -> id = id' /\ s = s'.
Proof. unfold at_state. intros Hs H H'. rewrite Hs in H. rewrite H in H'. by apply tag_of_inj in H'. Qed.

Lemma moves_other move own pub id id' m m' s :
  id' <> id -> at_state m id s -> other_slots id' m m' -> moves move own pub id' m m' -> id_frame id m m'.
Proof.
  intros Hne Hs Ho (Hv & a & b & evs & Ha & Hb & _ & _ & Ht & Hev & _).
  assert (slot_of id' <> slot_of id) by (intros He; destruct (at_state_inj m id' a id s He Ha Hs); done).
  assert (Hn : Forall (fun e => event_id e <> id) evs) by (eapply Forall_impl; [exact Hev|]; intros e [-> _]; done).
  unfold id_frame. rewrite Ht, last_published_frame, last_finished_frame by done. split; [|done]. by apply Ho.
Qed.

Lemma unmoved_other id id' m m' : other_slots id' m m' -> unmoved id' m m' -> id_frame id m m'.
Proof.
  intros Ho [Hs Ht]. unfold id_frame. rewrite Ht. split; [|done]. destruct (decide (slot_of id = slot_of id')) as [->|Hne]; [done|]. by apply Ho.
Qed.

Lemma rsv_frame k id m m' s : 0 < id -> at_state m id s -> s <> Acknowledged -> guarantee (Rsv k) m m' -> id_frame id m m'.
Proof.
  intros Hid Hs Hna (_ & _ & [[Hsl Ht]|(id' & Hv & Ho & Ht & Htag & Hlt & Hsl)]); unfold id_frame; [by rewrite Hsl, Ht|].
  assert (slot_of id <> slot_of id').
  { intros He. unfold at_state in Hs. rewrite He in Hs. rewrite Hs in *. rewrite low_bits, tag_of_eq in Htag. pose proof (code_range s).
    destruct Htag as [?|Hc]; [lia|]. by apply (code_inj s Acknowledged) in Hc. }
  assert (Hf : Forall (fun e => event_id e <> id) [EReserved id']) by (constructor; [|constructor]; simpl; congruence).
  change (EReserved id' :: trace m) with ([EReserved id'] ++ trace m) in Ht. rewrite Ht, last_published_frame, last_finished_frame by done.
  split; [|done]. by apply Ho.
Qed.

(** No thread but those of [id] touches its record before it is acknowledged. *)
Lemma other_frame r id m m' s :
  0 < id -> at_state m id s -> s <> Acknowledged -> r <> Eng id -> r <> Man id -> guarantee r m m' -> id_frame id m m'.
Proof.
  intros Hid Hs Hna He Hm Hg. destruct r as [id'|id'|k]; [| |by eapply rsv_frame].
  - destruct Hg as (_ & _ & Ho & [Hu|Hmv]); [by eapply unmoved_other|]. eapply (moves_other _ _ _ id id'); [congruence|done..].
  - destruct Hg as (_ & _ & Ho & [Hu|Hmv]); [by eapply unmoved_other|]. eapply (moves_other _ _ _ id id'); [congruence|done..].
Qed.

Lemma moves_frame move own pub id m m' s :
  at_state m id s -> (forall b, move s b -> b = s) -> ~ own s -> s <> Preparing -> moves move own pub id m m' -> id_frame id m m'.
Proof.
  intros Hs Hmv Hown Hp (Hv & a & b & evs & Ha & Hb & Hm & _ & Ht & Hev & Hpub & Hfin).
  destruct (at_state_inj m id a id s eq_refl Ha Hs) as [_ ->]. apply Hmv in Hm as ->.
  destruct (Hfin Hown) as [Hnf Hsl]. specialize (Hpub ltac:(naive_solver)). unfold id_frame. rewrite Hsl, Ht.
  split; [unfold at_state in Hs; destruct (slots m (slot_of id)); simpl in *; by subst|].
  by rewrite last_published_quiet, last_finished_quiet.
Qed.

(** The engine's view: states in which the Manager leaves the record alone. *)
Definition eng_holds (s : GrantState) : Prop := s = Active \/ s = ActiveMore \/ s = Reaped.
Lemma eng_frame id m m' s : 0 < id -> eng_holds s -> at_state m id s -> env (Eng id) m m' -> id_frame id m m'.
Proof.
  intros Hid Hh Hs (_ & r & Hr & Hg). assert (s <> Acknowledged) by (destruct Hh as [->|[->| ->]]; done).
  destruct (decide (r = Man id)) as [->|Hm]; [|by eapply (other_frame r)]. destruct Hg as (_ & _ & _ & [Hu|Hmv]); [by apply unmoved_frame|].
  eapply moves_frame; [exact Hs| | | |exact Hmv]; destruct Hh as [->|[->| ->]]; try done; unfold man_own; try naive_solver;
    intros b [<-|Hb]; try done; by destruct b.
Qed.
(** The Manager's view. *)
Definition man_holds (s : GrantState) : Prop := s = Drained \/ s = Revoked \/ s = Managed \/ s = PartDrained.
Lemma man_frame id m m' s : 0 < id -> man_holds s -> at_state m id s -> env (Man id) m m' -> id_frame id m m'.
Proof.
  intros Hid Hh Hs (_ & r & Hr & Hg). assert (s <> Acknowledged) by (destruct Hh as [->|[->|[->| ->]]]; done).
  destruct (decide (r = Eng id)) as [->|Hm]; [|by eapply (other_frame r)]. destruct Hg as (_ & _ & _ & [Hu|Hmv]); [by apply unmoved_frame|].
  eapply moves_frame; [exact Hs| | | |exact Hmv]; destruct Hh as [->|[->|[->| ->]]]; try done; unfold active; try naive_solver;
    intros b [<-|Hb]; try done; by destruct b.
Qed.

(** While it prepares a grant, the Manager may only be asked to cancel. *)
Definition preparing (s : GrantState) : Prop := s = Preparing \/ s = CancelRequested.
Lemma preparing_frame id m m' s :
  0 < id -> preparing s -> at_state m id s -> env (Man id) m m' ->
  exists s', preparing s' /\ at_state m' id s' /\ slots m' (slot_of id) = with_tag (tag_of id s') (slots m (slot_of id)) /\
    last_published (trace m') id = last_published (trace m) id /\ last_finished (trace m') id = last_finished (trace m) id.
Proof.
  intros Hid Hh Hs (_ & r & Hr & Hg). assert (s <> Acknowledged) by (destruct Hh as [->| ->]; done).
  assert (Hsame : id_frame id m m' -> exists s', preparing s' /\ at_state m' id s' /\
    slots m' (slot_of id) = with_tag (tag_of id s') (slots m (slot_of id)) /\
    last_published (trace m') id = last_published (trace m) id /\ last_finished (trace m') id = last_finished (trace m) id).
  { intros (H1 & H2 & H3). exists s. unfold at_state in *. rewrite H1. split_and!; try done. destruct (slots m (slot_of id)); simpl in *; by subst. }
  destruct (decide (r = Eng id)) as [->|Hm]; [|by eapply Hsame, (other_frame r)].
  destruct Hg as (_ & _ & _ & [Hu|(Hv & a & b & evs & Ha & Hb & Hmv & _ & Ht & Hev & Hpub & Hfin)]); [by apply Hsame, unmoved_frame|].
  destruct (at_state_inj m id a id s eq_refl Ha Hs) as [_ ->].
  assert (Hna : ~ active s) by (unfold active; destruct Hh as [->| ->]; naive_solver). destruct (Hfin Hna) as [Hnf Hsl].
  specialize (Hpub ltac:(naive_solver)). exists b. split; [|split; [done|split; [done|rewrite Ht]]].
  - unfold preparing. destruct Hmv as [<-|Hmv]; [done|]. destruct Hh as [->| ->], b; first [by destruct Hmv | by right].
  - by rewrite last_published_quiet, last_finished_quiet.
Qed.

(** The holder of the plan lock is alone in the bank. *)
Lemma lock_frame id m m' : plans_lock m = Some id -> env (Man id) m m' -> plans_lock m' = Some id /\ same_bank m m'.
Proof.
  intros Hl (_ & r & Hr & Hg). destruct r as [id'|id'|k].
  - destruct Hg as (Hb & -> & _). done.
  - destruct Hg as (Hb & Hlk & _). assert (id' <> id) by congruence. split; [|apply Hb; congruence].
    destruct Hlk as [->|[[? _]|[? _]]]; congruence.
  - destruct Hg as (Hb & -> & _). done.
Qed.

(** ** Steps that keep the invariant *)

Lemma plan_ok_frame id m m' : id_frame id m m' -> same_bank m m' -> plan_ok m id -> plan_ok m' id.
Proof.
  intros (Hs & Hp & _) (Hb & Hpl) (plan & start & H). exists plan, start. unfold words_hold in *. rewrite Hp, Hs, Hb, Hpl. exact H.
Qed.
Lemma result_ok_frame id m m' : id_frame id m m' -> result_ok m id -> result_ok m' id.
Proof. intros (Hs & _ & Hf) (f & msg & H). exists f, msg. rewrite Hf, Hs. exact H. Qed.

(** A step that leaves records and trace alone, and the plans of granted operations where they are. *)
Lemma Inv_bank m m' :
  Inv m -> slots m' = slots m -> trace m' = trace m -> plans_ok (plans m') ->
  (forall id s, valid_id id -> at_state m id s -> live m id s -> plan_ok m id -> plan_ok m' id) -> Inv m'.
Proof.
  intros [H1 H2 H3 H4 H5 H6 H7] Hs Ht Hp Hlive. constructor; unfold at_state, live, result_ok in *; rewrite ?Hs, ?Ht in *; try done.
  intros id s Hv Ha Hl. eauto.
Qed.
Lemma Inv_quiet m m' : Inv m -> slots m' = slots m -> trace m' = trace m -> same_bank m m' -> Inv m'.
Proof.
  intros Hi Hs Ht [Hb Hp]. apply (Inv_bank m m' Hi Hs Ht); [rewrite Hp; apply Hi|].
  intros id s _ _ _. apply plan_ok_frame; [|done]. unfold id_frame. by rewrite Hs, Ht.
Qed.

(** A step on one record. *)
Lemma Inv_record m m' id a b evs :
  Inv m -> valid_id id -> at_state m id a -> at_state m' id b -> other_slots id m m' -> same_bank m m' ->
  trace m' = evs ++ trace m -> Forall (fun e => event_id e = id /\ not_reserved e) evs ->
  (live m' id b -> plan_ok m' id) -> (done_state b -> result_ok m' id) -> trace_ok (trace m') ->
  (forall f msg, EPolled id f msg ∈ trace m' -> b = Acknowledged) -> Inv m'.
Proof.
  intros Hi Hv Ha Hb Ho Hbank Ht Hev Hlive Hdone Htr Hpoll.
  assert (Hother : forall id', id' <> id -> forall s, at_state m' id' s -> at_state m id' s /\ id_frame id' m m').
  { intros id' Hne s Hs. assert (Hsl : slot_of id' <> slot_of id) by (intros He; by destruct (at_state_inj m' id' s id b He Hs Hb)).
    split; [unfold at_state in *; by rewrite <- (Ho _ Hsl)|]. unfold id_frame.
    assert (Forall (fun e => event_id e <> id') evs) by (eapply Forall_impl; [exact Hev|]; intros e [-> _]; done).
    rewrite Ht, last_published_frame, last_finished_frame by done. split; [by apply Ho|done]. }
  assert (Htag : forall id', tag_id (tag (slots m' (slot_of id'))) = tag_id (tag (slots m (slot_of id')))).
  { intros id'. destruct (decide (slot_of id' = slot_of id)) as [->|Hne]; [|by rewrite (Ho _ Hne)].
    unfold at_state in Ha, Hb. by rewrite Ha, Hb, !tag_id_of. }
  assert (Hres : forall id', EReserved id' ∈ trace m' <-> EReserved id' ∈ trace m).
  { intros id'. rewrite Ht, elem_of_app. split; [|by right]. intros [Hin|]; [|done].
    by destruct (proj1 (Forall_forall _ _) Hev _ Hin) as [_ []]. }
  constructor.
  - intros id' s Hv' Hs Hl. destruct (decide (id' = id)) as [->|Hne].
    + destruct (at_state_inj m' id s id b eq_refl Hs Hb) as [_ ->]. by apply Hlive.
    + destruct (Hother id' Hne s Hs) as [Hs' Hf]. apply (plan_ok_frame id' m m' Hf Hbank). apply (inv_live m Hi id' s Hv' Hs').
      unfold live in *. destruct Hf as (He & _). by rewrite He in Hl.
  - intros id' s Hv' Hs Hl. destruct (decide (id' = id)) as [->|Hne].
    + destruct (at_state_inj m' id s id b eq_refl Hs Hb) as [_ ->]. by apply Hdone.
    + destruct (Hother id' Hne s Hs) as [Hs' Hf]. apply (result_ok_frame id' m m' Hf). by apply (inv_done m Hi id' s).
  - destruct Hbank as [_ ->]. apply Hi.
  - intros id' Hin. rewrite Htag. by apply (inv_reserved m Hi), Hres.
  - intros id' s Hv' Hs. apply Hres. destruct (decide (id' = id)) as [->|Hne]; [by apply (inv_known m Hi id a)|].
    destruct (Hother id' Hne s Hs) as [Hs' _]. by apply (inv_known m Hi id' s).
  - intros id' f msg Hin. rewrite Htag. destruct (decide (id' = id)) as [->|Hne]; [left; by rewrite <- (Hpoll f msg Hin)|].
    rewrite Ht, elem_of_app in Hin. destruct Hin as [Hin|Hin].
    { destruct (proj1 (Forall_forall _ _) Hev _ Hin) as [He _]. simpl in He. congruence. }
    destruct (inv_polled m Hi id' f msg Hin) as [Hack|Hlt]; [|by right]. left.
    assert (Hsl : slot_of id' <> slot_of id) by (intros He; by destruct (at_state_inj m id' _ id a He Hack Ha)).
    unfold at_state in *. by rewrite (Ho _ Hsl).
  - exact Htr.
Qed.

(** Before it is acknowledged, an operation has not been polled. *)
Lemma not_polled m id a f msg : Inv m -> at_state m id a -> EPolled id f msg ∈ trace m -> a = Acknowledged.
Proof.
  intros Hi Ha Hin. destruct (inv_polled m Hi id f msg Hin) as [Hack|Hlt].
  - by destruct (at_state_inj m id a id Acknowledged eq_refl Ha Hack).
  - unfold at_state in Ha. rewrite Ha, tag_id_of in Hlt. lia.
Qed.

Lemma Inv_reserve m m' id :
  Inv m -> valid_id id -> other_slots id m m' -> same_bank m m' -> trace m' = EReserved id :: trace m ->
  tag_id (tag (slots m (slot_of id))) < id -> slots m' (slot_of id) = with_tag (tag_of id Reserved) (slots m (slot_of id)) -> Inv m'.
Proof.
  intros Hi Hv Ho Hbank Ht Hlt Hsl.
  assert (Hnew : at_state m' id Reserved) by (unfold at_state; by rewrite Hsl).
  assert (Hother : forall id' s, at_state m' id' s -> id' = id /\ s = Reserved \/ at_state m id' s /\ id_frame id' m m').
  { intros id' s Hs. destruct (decide (slot_of id' = slot_of id)) as [He|Hne].
    - left. by apply (at_state_inj m' id' s id Reserved He Hs Hnew).
    - right. split; [unfold at_state in *; by rewrite <- (Ho _ Hne)|]. unfold id_frame. rewrite Ht. simpl. split; [by apply Ho|done]. }
  assert (Htag : forall id', tag_id (tag (slots m (slot_of id'))) <= tag_id (tag (slots m' (slot_of id')))).
  { intros id'. destruct (decide (slot_of id' = slot_of id)) as [->|Hne]; [rewrite Hsl; simpl; rewrite tag_id_of; lia|by rewrite (Ho _ Hne)]. }
  destruct Hi as [H1 H2 H3 H4 H5 H6 H7]. constructor.
  - intros id' s Hv' Hs Hl. destruct (Hother id' s Hs) as [[-> ->]|[Hs' Hf]].
    + destruct Hl as [[?|?]|[[?|?] _]]; done.
    + apply (plan_ok_frame id' m m' Hf Hbank). apply (H1 id' s Hv' Hs'). unfold live in *. destruct Hf as (He & _). by rewrite He in Hl.
  - intros id' s Hv' Hs Hl. destruct (Hother id' s Hs) as [[-> ->]|[Hs' Hf]]; [by destruct Hl|].
    apply (result_ok_frame id' m m' Hf). by apply (H2 id' s).
  - destruct Hbank as [_ ->]. done.
  - intros id'. rewrite Ht, elem_of_cons. intros [[= ->]|Hin].
    + unfold at_state in Hnew. rewrite Hnew, tag_id_of. lia.
    + etrans; [by apply H4|apply Htag].
  - intros id' s Hv' Hs. rewrite Ht. destruct (Hother id' s Hs) as [[-> _]|[Hs' _]]; [by left|]. right. by apply (H5 id' s).
  - intros id' f msg. rewrite Ht, elem_of_cons. intros [?|Hin]; [done|]. destruct (H6 id' f msg Hin) as [Hack|Hlt'].
    + destruct (decide (slot_of id' = slot_of id)) as [He|Hne]; [|left; unfold at_state in *; by rewrite (Ho _ Hne)].
      right. rewrite He, Hsl. simpl. rewrite tag_id_of. rewrite <- He in Hlt. unfold at_state in Hack. by rewrite Hack, tag_id_of in Hlt.
    + right. specialize (Htag id'). lia.
  - rewrite Ht. simpl. split; [|done]. intros Hin. specialize (H4 id Hin). lia.
Qed.
