(* ===== verification/GrantsRules.v ===== *)
(** * Rules for the steps of a grant's owner

    The shared accesses of the grant methods as proof rules: reading the state, exchanging the tag,
    writing the fields of a record in a state that its thread owns, and writing a result. *)
From S2P Require Import Prelude Containers Words Wire Grants GrantsLogic.

Local Open Scope Z_scope.
Local Open Scope prog_scope.

(** ** Owners *)

Definition owner (r : Role) (id : Z) : Prop := r = Eng id \/ r = Man id.
Definition may_move (r : Role) (a b : GrantState) : Prop :=
  match r with Eng _ => eng_move a b | Man _ => man_move a b | Rsv _ => False end.
Definition owns (r : Role) (a : GrantState) : Prop :=
  match r with Eng _ => active a | Man _ => man_own a | Rsv _ => False end.
Definition is_man (r : Role) : bool := match r with Man _ => true | _ => false end.

Lemma guarantee_record r id m m' a b evs :
  owner r id -> valid_id id -> at_state m id a -> at_state m' id b -> may_move r a b -> other_slots id m m' -> same_bank m m' ->
  plans_lock m' = plans_lock m -> trace m' = evs ++ trace m -> Forall (fun e => event_id e = id /\ not_reserved e) evs ->
  (is_man r = true \/ plan_read (slots m' (slot_of id)) = plan_read (slots m (slot_of id)) \/ plan_read (slots m' (slot_of id)) = 1) ->
  (~ (is_man r = true /\ a = Preparing) -> Forall not_published evs) ->
  (~ owns r a -> Forall not_finished evs /\ slots m' (slot_of id) = with_tag (tag_of id b) (slots m (slot_of id))) ->
  guarantee r m m'.
Proof.
  intros [-> | ->] Hv Ha Hb Hm Ho Hbk Hl Ht Hev Hrd Hpub Hfin; simpl in *.
  - split; [done|]. split; [done|]. split; [done|]. right. split; [done|]. by exists a, b, evs.
  - split; [done|]. split; [by left|]. split; [done|]. right. split; [done|]. by exists a, b, evs.
Qed.

(** A step that leaves records, plans and trace alone. *)
Lemma guarantee_quiet r m m' :
  slots m' = slots m -> trace m' = trace m -> same_bank m m' -> plans_lock m' = plans_lock m -> guarantee r m m'.
Proof.
  intros Hs Ht Hb Hl. destruct r; simpl; unfold other_slots, unmoved; rewrite ?Hs, ?Ht; naive_solver.
Qed.

Lemma slots_set s f m s' : slots (set_slot s f m) s' = if s' =? s then f (slots m s') else slots m s'.
Proof. done. Qed.
Lemma slots_set_eq s f m : slots (set_slot s f m) s = f (slots m s).
Proof. simpl. by rewrite Z.eqb_refl. Qed.
Lemma slots_set_other id f evs m : other_slots id m (log evs (set_slot (slot_of id) f m)).
Proof. intros s Hs. simpl. by rewrite (proj2 (Z.eqb_neq _ _) Hs). Qed.

(** ** Assertions on a held record

    [held id S F]: the operation is in one of the states [S], and [F] holds of the fields of its record
    (the tag aside) and of what was last published and written for it. *)
Definition untag (x : Slot) : Slot := with_tag 0 x.
Definition held (id : Z) (S : GrantState -> Prop) (F : Slot -> option bytes -> option (Z * bytes) -> Prop) (m : Mem) : Prop :=
  exists a, S a /\ at_state m id a /\ F (untag (slots m (slot_of id))) (last_published (trace m) id) (last_finished (trace m) id).

(** The environment of [r] keeps the record in the states [S] and leaves its fields alone. *)
Class Holds (r : Role) (id : Z) (S : GrantState -> Prop) : Prop := {
  holds_frame : forall m m' a, S a -> at_state m id a -> env r m m' ->
    exists a', S a' /\ at_state m' id a' /\ slots m' (slot_of id) = with_tag (tag_of id a') (slots m (slot_of id)) /\
      last_published (trace m') id = last_published (trace m) id /\ last_finished (trace m') id = last_finished (trace m) id;
  holds_quiet : forall a, S a -> ~ done_state a /\ a <> Acknowledged \/ forall b, S b -> b = a;
  holds_owner : owner r id;
  holds_valid : valid_id id
}.

Lemma held_stable r id S F : Holds r id S -> stable r (held id S F).
Proof.
  intros HS m m' He (a & Ha & Hs & HF). destruct (holds_frame m m' a Ha Hs He) as (a' & Ha' & Hs' & Hsl & Hp & Hf).
  exists a'. split; [done|]. split; [done|]. rewrite Hsl, Hp, Hf. exact HF.
Qed.

Lemma frame_same id m m' a : at_state m id a -> id_frame id m m' ->
  at_state m' id a /\ slots m' (slot_of id) = with_tag (tag_of id a) (slots m (slot_of id)) /\
  last_published (trace m') id = last_published (trace m) id /\ last_finished (trace m') id = last_finished (trace m) id.
Proof.
  intros Ha (Hs & Hp & Hf). unfold at_state in *. rewrite Hs. split_and!; try done. destruct (slots m (slot_of id)); simpl in *; by subst.
Qed.

Definition only (s : GrantState) : GrantState -> Prop := fun a => a = s.

Lemma holds_eng id s : valid_id id -> eng_holds s -> Holds (Eng id) id (only s).
Proof.
  intros Hv Hs. constructor; [|intros a ->; right; by intros b ->|by left|done].
  intros m m' a -> Ha He. destruct Hv as [Hv _]. destruct (frame_same id m m' s Ha (eng_frame id m m' s Hv Hs Ha He)) as (H1 & H2 & H3 & H4).
  by exists s.
Qed.
Lemma holds_man id s : valid_id id -> man_holds s -> Holds (Man id) id (only s).
Proof.
  intros Hv Hs. constructor; [|intros a ->; right; by intros b ->|by right|done].
  intros m m' a -> Ha He. destruct Hv as [Hv _]. destruct (frame_same id m m' s Ha (man_frame id m m' s Hv Hs Ha He)) as (H1 & H2 & H3 & H4).
  by exists s.
Qed.
Lemma holds_preparing id : valid_id id -> Holds (Man id) id preparing.
Proof.
  intros Hv. constructor; [|intros a [-> | ->]; left; by split; [intros [?|?]|]|by right|done].
  intros m m' a Ha Hs He. destruct Hv as [Hv _]. by apply (preparing_frame id m m' a).
Qed.

(** ** Reading the state *)

Lemma state_at id t s : tag_id t = id -> state_decode t = Ok s -> t = tag_of id s.
Proof.
  intros Hid Hd. rewrite tag_of_eq. rewrite tag_id_eq in Hid. pose proof (Z.div_mod t 16 ltac:(lia)).
  assert (Hl : Z.land t 15 = t mod 16) by (change 15 with (Z.ones 4); by rewrite Z.land_ones by lia).
  unfold state_decode in Hd. rewrite Hl in Hd. pose proof (Z.mod_pos_bound t 16 ltac:(lia)).
  remember (t mod 16) as c eqn:Ec. assert (c = state_code s); [|lia].
  assert (c = 0 \/ c = 1 \/ c = 2 \/ c = 3 \/ c = 4 \/ c = 5 \/ c = 6 \/ c = 7 \/ c = 8 \/ c = 9 \/ c = 10 \/ c = 11 \/ c = 12 \/ c = 13 \/ c = 14 \/ c = 15)
    as Hcs by lia.
  clear -Hd Hcs. repeat (destruct Hcs as [->|Hcs]; [first [discriminate Hd | injection Hd as <-; reflexivity]|]). subst c. discriminate Hd.
Qed.

Lemma wp_state r P id Q m :
  valid_id id -> stable r P -> P m ->
  (forall m' s, Inv m' -> P m' -> at_state m' id s -> Q (Ok s) m') -> (forall m' e, Inv m' -> P m' -> Q (Err e) m') ->
  wp r (state id) Q m.
Proof.
  intros Hv HP Hm Hok Herr. unfold state. rewrite offset_valid by done. apply (wp_load r P); [done|done|]. intros m' Hi Hp. cbv zeta.
  destruct (Z.eqb_spec (Z.shiftr (tag (slots m' (slot_of id))) STATE_BITS) id) as [He|]; simpl; [|by apply Herr].
  destruct (state_decode (tag (slots m' (slot_of id)))) as [s|e] eqn:Ed; [|by apply Herr].
  apply Hok; [done|done|]. by apply state_at.
Qed.

(** ** Exchanging the tag *)

Definition exchanged (id : Z) (to : GrantState) (evs : list Event) (m : Mem) : Mem :=
  log evs (set_slot (slot_of id) (with_tag (tag_of id to)) m).

Lemma exchanged_at id to evs m : at_state (exchanged id to evs m) id to.
Proof. unfold at_state, exchanged. simpl. by rewrite Z.eqb_refl. Qed.

Lemma guarantee_exchange r id from to evs m :
  owner r id -> valid_id id -> at_state m id from -> may_move r from to ->
  Forall (fun e => event_id e = id /\ not_reserved e) evs -> Forall not_finished evs ->
  (~ (is_man r = true /\ from = Preparing) -> Forall not_published evs) -> guarantee r m (exchanged id to evs m).
Proof.
  intros Hr Hv Ha Hm Hev Hnf Hpub. apply (guarantee_record r id m _ from to evs); try done.
  - apply exchanged_at.
  - apply slots_set_other.
  - right. left. unfold exchanged. simpl. by rewrite Z.eqb_refl.
  - intros _. split; [done|]. unfold exchanged. simpl. by rewrite Z.eqb_refl.
Qed.

Lemma wp_transition r P id from to evs Q m :
  valid_id id -> stable r P -> P m ->
  (forall m', Inv m' -> P m' -> at_state m' id from ->
    guarantee r m' (exchanged id to evs m') /\ Inv (exchanged id to evs m') /\ Q (Ok tt) (exchanged id to evs m')) ->
  (forall m', Inv m' -> P m' -> Q (Err (StaleId id)) m') ->
  wp r (transition id from to evs) Q m.
Proof.
  intros Hv HP Hm Hok Herr. unfold transition. rewrite offset_valid by done. apply (wp_step r P); [done|done|].
  intros m' Hi Hp _. cbv beta. destruct (Z.eqb_spec (tag (slots m' (slot_of id))) (tag_of id from)) as [He|]; simpl.
  - by apply Hok.
  - split; [apply guarantee_refl|]. split; [done|]. by apply Herr.
Qed.

(** An exchange that announces nothing. *)
Lemma Inv_exchange m id from to :
  Inv m -> valid_id id -> at_state m id from -> from <> Acknowledged ->
  (live m id to -> plan_ok m id) -> (done_state to -> result_ok m id) -> Inv (exchanged id to [] m).
Proof.
  intros Hi Hv Ha Hna Hlive Hdone. apply (Inv_record m _ id from to []); try done.
  - apply exchanged_at.
  - apply slots_set_other.
  - intros Hl. assert (Hl' : live m id to) by (unfold live, exchanged in *; simpl in *; by rewrite Z.eqb_refl in Hl).
    destruct (Hlive Hl') as (plan & start & H). exists plan, start. unfold exchanged. simpl. by rewrite Z.eqb_refl.
  - intros Hd. destruct (Hdone Hd) as (f & msg & H). exists f, msg. unfold exchanged. simpl. by rewrite Z.eqb_refl.
  - apply Hi.
  - intros f msg Hin. destruct (not_polled m id from f msg Hi Ha Hin). done.
Qed.

Lemma exchange_quiet r id from to m :
  owner r id -> valid_id id -> Inv m -> at_state m id from -> may_move r from to -> from <> Acknowledged ->
  (live m id to -> plan_ok m id) -> (done_state to -> result_ok m id) ->
  guarantee r m (exchanged id to [] m) /\ Inv (exchanged id to [] m).
Proof.
  intros Hr Hv Hi Ha Hm Hna Hl Hd. split; [by apply (guarantee_exchange r id from)|]. by apply (Inv_exchange m id from).
Qed.

(** A plain exchange whose target needs neither a plan nor a result. *)
Lemma wp_plain r id from to Q m :
  owner r id -> valid_id id -> may_move r from to -> from <> Acknowledged ->
  ~ granted to -> ~ active to -> ~ done_state to ->
  (forall x m', Q x m') -> wp r (transition id from to []) Q m.
Proof.
  intros Hr Hv Hm Hna Hg Hac Hd HQ. apply (wp_transition r (fun _ => True)); [done|apply stable_True|done|..|by intros; apply HQ].
  intros m' Hi _ Ha. destruct (exchange_quiet r id from to m' Hr Hv Hi Ha Hm Hna) as [Hgu Hi']; [|done|by split_and!].
  intros [?|[? _]]; done.
Qed.

(** ** Writing the fields of an owned record *)

Lemma owns_plain r a : owns r a -> ~ done_state a /\ a <> Acknowledged /\ ~ granted a.
Proof.
  destruct r; simpl; [intros [-> | ->]|intros [-> |[-> |[-> | ->]]]|done]; unfold done_state, granted; naive_solver.
Qed.
Lemma may_stay r id a : owner r id -> may_move r a a.
Proof. intros [-> | ->]; by left. Qed.
Lemma active_owner r id a : owner r id -> owns r a -> active a -> is_man r = false.
Proof. intros [-> | ->] Ho Ha; [done|]. simpl in Ho. unfold man_own in Ho. destruct Ha as [-> | ->]; naive_solver. Qed.

(** A write to the fields: it keeps the tag, and in the engine's hands the plan reference. *)
Record field_write (r : Role) (f : Slot -> Slot) : Prop := {
  fw_tag : forall x, tag (f x) = tag x;
  fw_untag : forall x, untag (f x) = f (untag x);
  fw_plan : is_man r = false -> forall x, plan_start (f x) = plan_start x /\ plan_len (f x) = plan_len x /\
    (plan_read (f x) = plan_read x \/ plan_read (f x) = 1)
}.

Lemma write_step r id a f evs m :
  owner r id -> valid_id id -> Inv m -> at_state m id a -> owns r a -> field_write r f ->
  Forall (fun e => event_id e = id /\ not_reserved e) evs -> Forall not_published evs -> trace_ok (evs ++ trace m) ->
  (forall g msg, EPolled id g msg ∉ evs) ->
  guarantee r m (log evs (set_slot (slot_of id) f m)) /\ Inv (log evs (set_slot (slot_of id) f m)).
Proof.
  intros Hr Hv Hi Ha Ho Hf Hev Hnp Htr Hpoll. destruct (owns_plain r a Ho) as (Hnd & Hnk & Hng).
  assert (Ha' : at_state (log evs (set_slot (slot_of id) f m)) id a).
  { unfold at_state in *. simpl. rewrite Z.eqb_refl. by rewrite (fw_tag r f Hf). }
  split.
  - apply (guarantee_record r id m _ a a evs); try done.
    + by apply (may_stay r id).
    + apply slots_set_other.
    + simpl. rewrite Z.eqb_refl. destruct (is_man r) eqn:Em; [by left|]. right. by apply (fw_plan r f Hf Em).
  - apply (Inv_record m _ id a a evs); try done.
    + apply slots_set_other.
    + unfold live, plan_ok. simpl. rewrite Z.eqb_refl. intros [?|[Hac Hrd]]; [done|].
      destruct (fw_plan r f Hf (active_owner r id a Hr Ho Hac) (slots m (slot_of id))) as (H1 & H2 & H3).
      assert (Hrd' : plan_read (slots m (slot_of id)) = 0) by (destruct H3; lia).
      destruct (inv_live m Hi id a Hv Ha) as (plan & start & H); [right; done|]. exists plan, start.
      rewrite last_published_quiet, H1, H2, Hrd by done. rewrite Hrd' in H. exact H.
    + intros g msg Hin. simpl in Hin. apply elem_of_app in Hin as [Hin|Hin]; [by destruct (Hpoll g msg)|].
      by destruct Hnk, (not_polled m id a g msg Hi Ha Hin).
Qed.

(** Plain writes, with an assertion [P] on the rest of the memory. *)
Lemma wp_write_with r id S F P f Q m :
  Holds r id S -> (forall a, S a -> owns r a) -> field_write r f -> stable r P -> (forall m', P m' -> P (set_slot (slot_of id) f m')) ->
  held id S F m -> P m ->
  (forall m', Inv m' -> held id S (fun x lp lf => exists y, x = f y /\ F y lp lf) m' -> P m' -> Q tt m') ->
  wp r (store (set_slot (slot_of id) f)) Q m.
Proof.
  intros HS Hown Hf HP HPf Hm Hpm HQ. apply (wp_step r (fun m => held id S F m /\ P m)); [apply stable_and; [by apply held_stable|done]|done|].
  intros m' Hi [(a & Hsa & Ha & HF) Hp] _. cbn [fst snd].
  destruct (write_step r id a f [] m') as [Hg Hi']; try done; try apply holds_owner; try apply holds_valid; try by apply Hown.
  - apply Hi.
  - intros g msg []%elem_of_nil.
  - split; [exact Hg|]. split; [exact Hi'|]. simpl. apply HQ; [exact Hi'| |by apply HPf]. exists a. split; [done|]. split.
    + unfold at_state in *. simpl. rewrite Z.eqb_refl. by rewrite (fw_tag r f Hf).
    + simpl. rewrite Z.eqb_refl. eexists. split; [apply (fw_untag r f Hf)|exact HF].
Qed.
Lemma wp_write r id S F f Q m :
  Holds r id S -> (forall a, S a -> owns r a) -> field_write r f -> held id S F m ->
  (forall m', Inv m' -> held id S (fun x lp lf => exists y, x = f y /\ F y lp lf) m' -> Q tt m') ->
  wp r (store (set_slot (slot_of id) f)) Q m.
Proof. intros HS Hown Hf Hm HQ. apply (wp_write_with r id S F (fun _ => True)); [done..|apply stable_True|done|done|done|]. intros m' ? ? _. by apply HQ. Qed.

(** The words of a message, one by one. *)
Lemma message_write r k v : field_write r (with_message k v).
Proof. constructor; [done|done|]. intros _ x. simpl. tauto. Qed.
Lemma outcome_write r o : field_write r (with_outcome o).
Proof. constructor; [done|done|]. intros _ x. simpl. tauto. Qed.
Lemma timing_write r k v : field_write r (with_timing k v).
Proof. constructor; [done|done|]. intros _ x. simpl. tauto. Qed.
Lemma timed_write r v : field_write r (with_timed v).
Proof. constructor; [done|done|]. intros _ x. simpl. tauto. Qed.

Definition message_upto (msg : bytes) (k : nat) (x : Slot) : Prop := forall j, (j < k)%nat -> message x (Z.of_nat j) = word_at msg j.

Lemma wp_store_message r id S msg k n Q m :
  Holds r id S -> (forall a, S a -> owns r a) -> held id S (fun x _ _ => message_upto msg k x) m ->
  (forall m', held id S (fun x _ _ => message_upto msg (k + n) x) m' -> Q tt m') ->
  wp r (store_words (fun k v => set_slot (slot_of id) (with_message k v)) msg k n) Q m.
Proof.
  intros HS Hown. revert k m. induction n as [|n IH]; intros k m Hm HQ; cbn [store_words].
  - apply HQ. by rewrite Nat.add_0_r.
  - apply wp_bind. eapply (wp_write r id S _ (with_message (Z.of_nat k) (word_at msg k))); [done|done|apply message_write|exact Hm|].
    intros m' Hi Hm'. apply IH.
    + destruct Hm' as (a & Hsa & Ha & y & Hy & Hk). exists a. split; [done|]. split; [done|]. rewrite Hy. intros j Hj. simpl.
      destruct (Z.eqb_spec (Z.of_nat j) (Z.of_nat k)) as [Hjk|Hjk]; [by apply Nat2Z.inj in Hjk as ->|]. apply Hk. lia.
    + intros m2 Hm2. apply HQ. by rewrite Nat.add_succ_r.
Qed.

(** *** Results *)

Definition result_field (x : Slot) (lf : option (Z * bytes)) : Prop :=
  exists failed msg, lf = Some (failed, msg) /\ (failed = 0 \/ failed = 1) /\ zlen msg <= RESTORE_ERROR_BYTES /\
    outcome x = Z.lor (Z.shiftl (zlen msg) 1) failed /\ words_hold (message x) msg.

Lemma result_field_ok m id S : held id S (fun x _ lf => result_field x lf) m -> result_ok m id.
Proof. by intros (a & _ & _ & H). Qed.

Lemma cut_le msg n : (cut msg n <= n)%nat.
Proof. induction n as [|n IH]; simpl; [lia|]. destruct (is_char_boundary msg (S n)); lia. Qed.
Lemma truncated_len msg : zlen (truncated msg) <= RESTORE_ERROR_BYTES.
Proof.
  unfold truncated, zlen. rewrite length_take. pose proof (cut_le msg (Z.to_nat (Z.min (zlen msg) RESTORE_ERROR_BYTES))).
  unfold RESTORE_ERROR_BYTES in *. unfold zlen in *. lia.
Qed.
Lemma result_parts_ok x : let '(failed, msg) := result_parts x in (failed = 0 \/ failed = 1) /\ zlen msg <= RESTORE_ERROR_BYTES.
Proof. destruct x; simpl; split; auto; [done|apply truncated_len]. Qed.

Lemma wp_write_result r id S x Q m :
  Holds r id S -> (forall a, S a -> owns r a) -> held id S (fun _ _ _ => True) m ->
  (forall m', Inv m' -> held id S (fun y _ lf => result_field y lf) m' -> Q (Ok tt) m') ->
  wp r (write_result id x) Q m.
Proof.
  intros HS Hown Hm HQ. pose proof (holds_valid (r := r) (id := id) (S := S)) as Hv. unfold write_result. rewrite offset_valid by done.
  pose proof (result_parts_ok x) as Hparts. destruct (result_parts x) as [failed msg]. destruct Hparts as [Hfailed Hlen].
  apply wp_bind. apply (wp_store_message r id S); [done|done|..].
  { destruct Hm as (a & ? & ? & _). exists a. split; [done|]. split; [done|]. intros j Hj. lia. }
  intros m1 Hm1. apply wp_bind. cbn [Nat.add] in Hm1.
  apply (wp_step r (held id S (fun x _ _ => message_upto msg (word_count (zlen msg)) x))); [by apply held_stable|done|].
  intros m2 Hi2 (a & Hsa & Ha & Hw) _. cbn [fst snd].
  set (f := with_outcome (Z.lor (Z.shiftl (zlen msg) 1) failed)).
  destruct (write_step r id a f [EFinished id failed msg] m2) as [Hg Hi3]; try done.
  - apply holds_owner.
  - by apply Hown.
  - apply outcome_write.
  - constructor; [done|constructor].
  - constructor; [done|constructor].
  - simpl. split; [by apply (inv_known m2 Hi2 id a)|apply Hi2].
  - intros g ms [?|[]%elem_of_nil]%elem_of_cons; done.
  - split; [exact Hg|]. split; [exact Hi3|]. simpl. apply HQ; [exact Hi3|]. exists a. split; [done|]. split.
    + unfold at_state in *. simpl. rewrite Z.eqb_refl. done.
    + simpl. rewrite !Z.eqb_refl. exists failed, msg. split_and!; try done.
Qed.
