(* ===== verification/GrantsSpec.v ===== *)
(** * Safety of the restore grants

    Every method of the engine and of the Manager keeps the invariant and its guarantee at each of
    its atomic steps; hence every interleaving of any number of operations does. *)
From S2P Require Import Prelude Containers Words Wire Grants GrantsLogic GrantsRules.

Local Open Scope Z_scope.
Local Open Scope prog_scope.

(** ** Words and bytes *)

Lemma to_le_zero n : to_le n 0 = replicate n (byte_of 0).
Proof. induction n as [|n IH]; [done|]. cbn [to_le replicate]. change (0 / 256) with 0. by rewrite IH. Qed.
Lemma to_le_pad bs n : (length bs <= n)%nat -> to_le n (of_le bs) = bs ++ replicate (n - length bs) (byte_of 0).
Proof.
  revert n. induction bs as [|b bs IH]; intros n Hn; [cbn [of_le length app]; by rewrite Nat.sub_0_r, to_le_zero|].
  destruct n as [|n]; [simpl in Hn; lia|]. pose proof (byte_val_range b). cbn [of_le to_le length app]. simpl in Hn.
  assert (Hd : (byte_val b + 256 * of_le bs) / 256 = of_le bs).
  { rewrite (Z.mul_comm 256), Z.div_add by lia. rewrite Z.div_small; lia. }
  rewrite Hd, IH by lia. f_equal. apply byte_val_inj. rewrite byte_val_mod, (Z.mul_comm 256), Z_mod_plus_full. apply Z.mod_small. lia.
Qed.

Lemma word_count_step (b : bytes) : b <> [] -> word_count (zlen b) = S (word_count (zlen (drop 8 b))).
Proof.
  intros Hb. unfold word_count, zlen. rewrite length_drop. assert (0 < length b)%nat by (destruct b; simpl; [done|lia]).
  destruct (Nat.le_gt_cases 8 (length b)).
  - replace (Z.of_nat (length b) + 7) with (Z.of_nat (length b - 8) + 7 + 1 * 8) by lia. rewrite Z.div_add by lia.
    rewrite Z2Nat.inj_add; [simpl; lia|apply Z.div_pos; lia|lia].
  - replace (length b - 8)%nat with 0%nat by lia. replace (Z.of_nat (length b) + 7) with (Z.of_nat (length b) - 1 + 1 * 8) by lia.
    rewrite Z.div_add by lia. rewrite Z.div_small by lia. done.
Qed.

Lemma bytes_of_words_at (f : nat -> Z) (b : bytes) :
  (forall k, (k < word_count (zlen b))%nat -> f k = word_at b k) -> bytes_of_words f (zlen b) = b.
Proof.
  intros Hf. unfold bytes_of_words, zlen at 1. rewrite Nat2Z.id.
  enough (forall n b f o, length b = n -> (forall k, (k < word_count (zlen b))%nat -> f (o + k)%nat = word_at b k) ->
    take (length b) (concat ((fun k => u64_le (f k)) <$> seq o (word_count (zlen b)))) = b) as Hgen by (by apply (Hgen _ b f 0%nat eq_refl)).
  clear b f Hf. induction n as [n IH] using lt_wf_ind. intros b f o Hn Hf. destruct (decide (b = [])) as [->|Hb]; [done|].
  rewrite (word_count_step b Hb) in *. cbn [seq fmap list_fmap concat].
  pose proof (Hf 0%nat ltac:(lia)) as H0. rewrite Nat.add_0_r in H0. rewrite H0. unfold word_at. rewrite Nat.mul_0_r, drop_0.
  assert (0 < length b)%nat by (destruct b; simpl; [done|lia]).
  change (u64_le (of_le (take 8 b))) with (to_le 8 (of_le (take 8 b))). rewrite to_le_pad by (rewrite length_take; lia).
  destruct (Nat.le_gt_cases 8 (length b)) as [Hge|Hlt].
  - rewrite length_take, Nat.min_l, Nat.sub_diag, app_nil_r by lia. cbn [replicate].
    rewrite take_app, length_take, Nat.min_l by lia. rewrite take_take, Nat.min_r by lia.
    etrans; [|apply (take_drop 8 b)]. f_equal. replace (length b - 8)%nat with (length (drop 8 b)) by (rewrite length_drop; lia).
    apply (IH (length (drop 8 b))); [rewrite length_drop; lia|done|]. intros k Hk. replace (S o + k)%nat with (o + S k)%nat by lia. rewrite Hf by lia.
    unfold word_at. rewrite drop_drop. do 3 f_equal. lia.
  - rewrite take_ge with (n := 8%nat) by lia. rewrite <- app_assoc, take_app_length. done.
Qed.

Lemma bytes_of_loaded (v : nat -> Z) (b : bytes) :
  (forall k, (k < word_count (zlen b))%nat -> v k = word_at b k) ->
  bytes_of_words (fun k => nth k (v <$> seq 0 (word_count (zlen b))) 0) (zlen b) = b.
Proof.
  intros Hv. apply bytes_of_words_at. intros k Hk. rewrite <- Hv by done.
  rewrite nth_lookup, list_lookup_fmap, lookup_seq_lt by done. done.
Qed.

Lemma wp_load_words r P get v k n Q m :
  stable r P -> P m -> (forall m' j, Inv m' -> P m' -> (k <= j < k + n)%nat -> get (Z.of_nat j) m' = v j) ->
  (forall m', P m' -> Q (v <$> seq k n) m') -> wp r (load_words get k n) Q m.
Proof.
  intros HP. revert k m Q. induction n as [|n IH]; intros k m Q Hm Hg HQ; cbn [load_words]; [by apply HQ|].
  apply wp_bind. apply (wp_load r P); [done|done|]. intros m1 Hi1 Hm1. apply wp_bind. apply IH; [done|intros m' j Hi Hp Hj; apply Hg; [done|done|lia]|].
  intros m2 Hm2. cbn [wp]. rewrite (Hg m1 k Hi1 Hm1) by lia. by apply (HQ m2).
Qed.

(** ** The engine *)

Abbreviation fine := (fun _ _ => True).

Lemma wp_dirty r id (Q : unit -> Mem -> Prop) m : (forall m', Q tt m') -> wp r (dirty id) Q m.
Proof.
  intros HQ. apply (wp_step r (fun _ => True)); [apply stable_True|done|]. intros m' Hi _ _. cbn [fst snd].
  split; [by apply guarantee_quiet|]. split; [by apply (Inv_quiet m')|]. apply HQ.
Qed.

Lemma eng_owner id : owner (Eng id) id.
Proof. by left. Qed.
Lemma man_owner id : owner (Man id) id.
Proof. by right. Qed.

Lemma eng_cancel fuel id m : valid_id id -> wp (Eng id) (cancel fuel id) fine m.
Proof.
  intros Hv. revert m. induction fuel as [|fuel IH]; intros m; cbn [cancel]; [apply wp_spin|].
  apply wp_rbind. apply (wp_state _ (fun _ => True)); [done|apply stable_True|done| |done]. intros m' s _ _ _. destruct s; try done.
  - apply wp_bind. apply (wp_plain (Eng id) id); try done; [apply eng_owner|by right|unfold granted; naive_solver|unfold active; naive_solver|unfold done_state; naive_solver|].
    intros [[]|e] m2; [done|apply IH].
  - apply wp_bind. apply (wp_plain (Eng id) id); try done; [apply eng_owner|by right|unfold granted; naive_solver|unfold active; naive_solver|unfold done_state; naive_solver|].
    intros [[]|e] m2; [done|apply IH].
Qed.

Lemma only_active_owns id s : active s -> forall a, only s a -> owns (Eng id) a.
Proof. by intros Hs a ->. Qed.
Lemma active_holds s : active s -> eng_holds s.
Proof. unfold active, eng_holds. tauto. Qed.

Lemma wp_store_timing id s k ws Q m :
  valid_id id -> active s -> held id (only s) (fun _ _ _ => True) m ->
  (forall m', held id (only s) (fun _ _ _ => True) m' -> Q tt m') -> wp (Eng id) (store_timing (slot_of id) k ws) Q m.
Proof.
  intros Hv Hs. revert k m. induction ws as [|w ws IH]; intros k m Hm HQ; cbn [store_timing]; [by apply HQ|].
  apply wp_bind. eapply (wp_write (Eng id) id (only s)); [apply holds_eng; [done|by apply active_holds]|by apply only_active_owns|apply timing_write|exact Hm|].
  intros m' _ (a & ? & ? & _). apply IH; [by exists a|done].
Qed.

(** The end of a restore: evidence, result, then the exchange that publishes both. *)
Lemma eng_drained id x t m : valid_id id -> wp (Eng id) (drained id x t) fine m.
Proof.
  intros Hv. unfold drained. apply wp_rbind. apply (wp_state _ (fun _ => True)); [done|apply stable_True|done| |done]. intros m1 s _ _ Hs.
  destruct (negb _) eqn:Eact; [done|]. apply negb_false_iff, orb_true_iff in Eact. rewrite !bool_decide_eq_true in Eact.
  assert (Hact : active s) by done. rewrite offset_valid by done. 
  generalize (match t with Some y => if timing_valid y && (negb (is_ok x) || negb (submitted_ns y =? 0)) then Some y else None | None => None end).
  intros ev.
  assert (HS : Holds (Eng id) id (only s)) by (apply holds_eng; [done|by apply active_holds]).
  assert (Hm1 : held id (only s) (fun _ _ _ => True) m1) by (by exists s).
  apply wp_bind. assert (Hnext : forall m', held id (only s) (fun _ _ _ => True) m' -> wp (Eng id)
    (do! _ := store (set_slot (slot_of id) (with_timed (match ev with Some _ => 1 | None => 0 end))) in
     try! _ := write_result id x in
     try! _ := transition id s (if bool_decide (s = Active) || negb (is_ok x) then Drained else PartDrained) [] in
     do! _ := dirty id in Ret (Ok (bool_decide (s = Active) || negb (is_ok x)))) fine m').
  { intros m' Hm'. apply wp_bind. eapply (wp_write (Eng id) id (only s)); [done|by apply only_active_owns|apply timed_write|exact Hm'|].
    intros m2 _ (a & ? & ? & _). apply wp_rbind. apply (wp_write_result (Eng id) id (only s)); [done|by apply only_active_owns|by exists a|].
    intros m3 _ Hm3. apply wp_rbind. apply (wp_transition _ (held id (only s) (fun y _ lf => result_field y lf))); [done|by apply held_stable|done| |done].
    intros m4 Hi4 Hm4 Ha4. set (to := if bool_decide (s = Active) || negb (is_ok x) then Drained else PartDrained).
    destruct (exchange_quiet (Eng id) id s to m4) as [Hg Hi5]; try done.
    - apply eng_owner.
    - right. unfold to. destruct Hact as [-> | ->]; simpl; [done|]. by destruct (is_ok x).
    - by destruct Hact as [-> | ->].
    - unfold to, live, granted, active. destruct (_ || _); naive_solver.
    - intros _. by eapply result_field_ok.
    - split; [done|]. split; [done|]. apply wp_bind, wp_dirty. done. }
  destruct ev as [tm|]; [|by apply Hnext]. by apply (wp_store_timing id s).
Qed.

(** A claimed plan: the record and the bank are read while nobody may reuse them. *)
Definition claimed (plan : bytes) (start : Z) : Slot -> option bytes -> option (Z * bytes) -> Prop :=
  fun x lp _ => lp = Some plan /\ plan_read x = 0 /\ plan_start x = start /\ plan_len x = zlen plan.

Lemma next_multiple_of_8_ge n : n <= next_multiple_of_8 n.
Proof.
  unfold next_multiple_of_8. pose proof (Z.div_mod (n + 7) 8 ltac:(lia)). pose proof (Z.mod_pos_bound (n + 7) 8 ltac:(lia)). lia.
Qed.

(** The range of a live plan. *)
Lemma claimed_plan id s plan start m :
  valid_id id -> Inv m -> active s -> held id (only s) (claimed plan start) m ->
  zlen plan <> 0 /\ zlen plan <= RESTORE_PLAN_BYTES /\ start mod 8 = 0 /\ start <= RESTORE_PLAN_BYTES - zlen plan /\
  words_hold (fun k => bank m (start / 8 + k)) plan.
Proof.
  intros Hv Hi Hs (a & -> & Ha & Hlp & Hrd & Hst' & Hln).
  destruct (inv_live m Hi id s Hv Ha) as (p & st & Hp & Hz & Hle & Hpl & Hst & Hl & _ & Hw); [by right|].
  rewrite Hlp in Hp. injection Hp as <-. simpl in Hst'. rewrite Hst' in Hst. subst st.
  destruct (inv_plans m Hi) as [Hall _]. specialize (Hall id _ Hpl). simpl in Hall. pose proof (next_multiple_of_8_ge (zlen plan)). split_and!; try done; lia.
Qed.

Lemma eng_read_plan id s plan start m :
  valid_id id -> active s -> Inv m -> held id (only s) (claimed plan start) m ->
  wp (Eng id) (read_plan id (slot_of id)) (fun r _ => r = Ok plan) m.
Proof.
  intros Hv Hs Hi Hm. assert (HS : Holds (Eng id) id (only s)) by (apply holds_eng; [done|by apply active_holds]).
  assert (HP := held_stable _ _ _ (claimed plan start) HS). unfold read_plan.
  destruct (claimed_plan id s plan start m Hv Hi Hs Hm) as (Hz & Hle & Hal & Hend & _).
  apply wp_bind. eapply (wp_load _ (held id (only s) (claimed plan start))); [done|done|]. intros m1 Hi1 Hm1.
  assert (plan_start (slots m1 (slot_of id)) = start) as -> by (by destruct Hm1 as (? & _ & _ & _ & _ & ? & _)).
  apply wp_bind. eapply (wp_load _ (held id (only s) (claimed plan start))); [done|done|]. intros m2 Hi2 Hm2.
  assert (plan_len (slots m2 (slot_of id)) = zlen plan) as -> by (by destruct Hm2 as (? & _ & _ & _ & _ & _ & ?)).
  rewrite (proj2 (Z.eqb_neq _ _) Hz), Hal, (proj2 (Z.ltb_ge _ _) Hle), (proj2 (Z.ltb_ge _ _) Hend). cbn [orb negb Z.eqb].
  apply wp_bind. eapply (wp_load_words _ (held id (only s) (claimed plan start)) _ (word_at plan)); [done|done|..].
  { intros m' j Hi' Hm' Hj. destruct (claimed_plan id s plan start m' Hv Hi' Hs Hm') as (_ & _ & _ & _ & Hw). apply Hw. lia. }
  intros m3 Hm3. cbv zeta. rewrite bytes_of_loaded by done. apply wp_bind.
  apply (wp_step _ (held id (only s) (claimed plan start))); [done|done|]. intros m4 Hi4 (a & -> & Ha & Hlp & _) _. cbn [fst snd].
  destruct (write_step (Eng id) id s (fun x => with_plan (plan_start x) (plan_len x) 1 x) [EClaimed id plan] m4) as [Hg Hi5]; try done.
  - apply eng_owner.
  - constructor; [done|done|]. intros _ x. simpl. tauto.
  - constructor; [done|constructor].
  - constructor; [done|constructor].
  - simpl. split; [done|apply Hi4].
  - intros g ms [?|[]%elem_of_nil]%elem_of_cons; done.
  - split; [exact Hg|]. split; [exact Hi5|]. cbn [wp]. apply wp_bind, wp_dirty. done.
Qed.

Lemma eng_claim_local id m : valid_id id -> wp (Eng id) (claim_local id) fine m.
Proof.
  intros Hv. unfold claim_local. apply wp_rbind. apply (wp_state _ (fun _ => True)); [done|apply stable_True|done| |done]. intros m1 s _ _ _.
  assert (Hgo : forall act, active act -> eng_move s act -> granted s ->
    wp (Eng id) (try! _ := transition id s act [] in
      match offset id with
      | Err e => Ret (Err e)
      | Ok slot =>
          do! plan := read_plan id slot in
          match plan with
          | Ok plan => Ret (Ok (Some plan))
          | Err e => try! _ := drained id (Err (str "Restore plan rejected before execution: invalid restore grant payload")) None in Ret (Err e)
          end
      end) fine m1).
  { intros act Hact Hmv Hgr. apply wp_rbind. apply (wp_transition _ (fun _ => True)); [done|apply stable_True|done| |done].
    intros m2 Hi2 _ Ha2. assert (Hna : s <> Acknowledged) by (destruct Hgr as [-> | ->]; done).
    pose proof (inv_live m2 Hi2 id s Hv Ha2 ltac:(by left)) as Hpl.
    destruct (exchange_quiet (Eng id) id s act m2) as [Hg Hi3]; try done; [apply eng_owner|destruct Hact as [-> | ->]; unfold done_state; naive_solver|].
    split; [done|]. split; [done|]. rewrite offset_valid by done. apply wp_bind.
    destruct Hpl as (plan & start & Hp & _ & _ & _ & Hst & Hln & Hrd & _).
    eapply wp_mono; [|apply (eng_read_plan id act plan start); [done|done|done|]].
    - intros r m3 ->. done.
    - exists act. split; [done|]. split; [apply exchanged_at|]. unfold exchanged. simpl. rewrite Z.eqb_refl. done. }
  destruct s; try done; apply Hgo; unfold active, granted; try tauto; by right.
Qed.

(** ** Polling *)

Lemma outcome_parts n failed : 0 <= n -> failed = 0 \/ failed = 1 ->
  Z.shiftr (Z.lor (Z.shiftl n 1) failed) 1 = n /\ Z.land (Z.lor (Z.shiftl n 1) failed) 1 = failed.
Proof.
  intros Hn Hf. assert (Z.lor (Z.shiftl n 1) failed = n * 2 + failed) as ->.
  { rewrite Z.shiftl_mul_pow2 by lia. change (2 ^ 1) with 2. pose proof (Z.add_lor_land (n * 2) failed).
    assert (Z.land (n * 2) failed = 0); [|lia]. destruct Hf as [-> | ->]; [apply Z.land_0_r|].
    change 1 with (Z.ones 1) at 1. rewrite Z.land_ones by lia. change (2 ^ 1) with 2. by rewrite Z.mod_mul. }
  rewrite Z.shiftr_div_pow2 by lia. change 1 with (Z.ones 1) at 2. rewrite Z.land_ones by lia. change (2 ^ 1) with 2. split.
  - rewrite Z.div_add_l by lia. rewrite Z.div_small; lia.
  - rewrite Z.add_comm, Z.mod_add by lia. apply Z.mod_small. lia.
Qed.

Lemma eng_poll id m : valid_id id -> wp (Eng id) (poll id) fine m.
Proof.
  intros Hv. unfold poll. rewrite offset_valid by done. apply wp_rbind. apply (wp_state _ (fun _ => True)); [done|apply stable_True|done| |done].
  intros m1 s Hi1 _ Hs. destruct (bool_decide _); [done|]. destruct (bool_decide_reflect (s = Reaped)) as [->|]; [|done]. cbn [negb].
  assert (HS : Holds (Eng id) id (only Reaped)) by (apply holds_eng; [done|by right; right]).
  destruct (inv_done m1 Hi1 id Reaped Hv Hs) as (failed & msg & Hlf & Hf & Hlen & Hout & Hw); [by right|].
  set (P := held id (only Reaped) (fun x _ lf => lf = Some (failed, msg) /\ outcome x = Z.lor (Z.shiftl (zlen msg) 1) failed /\ words_hold (message x) msg)).
  assert (HP : stable (Eng id) P) by (by apply held_stable). assert (Hm1 : P m1) by (by exists Reaped).
  destruct (outcome_parts (zlen msg) failed (zlen_nonneg msg) Hf) as [Hsh Hla].
  apply wp_bind. apply (wp_load _ P); [done|done|]. intros m2 _ Hm2. assert (outcome (slots m2 (slot_of id)) = Z.lor (Z.shiftl (zlen msg) 1) failed) as ->
    by (by destruct Hm2 as (? & _ & _ & _ & ? & _)).
  cbv zeta. rewrite Hsh, Hla, (proj2 (Z.ltb_ge _ _) Hlen). apply wp_bind. apply (wp_load_words _ P _ (word_at msg)); [done|done|..].
  { intros m' j _ (a & _ & _ & _ & _ & Hw') Hj. apply Hw'. lia. }
  intros m3 Hm3. rewrite bytes_of_loaded by done. apply wp_rbind. apply (wp_transition _ P); [done|done|done| |done].
  intros m4 Hi4 Hm4 Ha4. assert (Hlf4 : last_finished (trace m4) id = Some (failed, msg)) by (by destruct Hm4 as (? & _ & _ & ? & _)).
  split; [|split; [|by destruct (utf8_valid msg)]].
  - apply (guarantee_exchange (Eng id) id Reaped); [apply eng_owner|done|done|by right|..]; repeat constructor.
  - apply (Inv_record m4 _ id Reaped Acknowledged [EPolled id failed msg]); try done.
    + apply exchanged_at.
    + apply slots_set_other.
    + constructor; [done|constructor].
    + intros [[?|?]|[[?|?] _]]; done.
    + intros [?|?]; done.
    + simpl. split; [|apply Hi4]. split; [done|]. intros f' msg' Hin. discriminate (not_polled m4 id Reaped f' msg' Hi4 Ha4 Hin).
Qed.
