(* ===== verification/GrantsPlans.v ===== *)
(** * The plan bank

    First fit finds a range that no granted plan uses, so the Manager's writes to the bank and to its
    own record leave every plan that an engine may still read in place. *)
From S2P Require Import Prelude Containers Words Wire Grants GrantsLogic GrantsRules GrantsSpec.

Local Open Scope Z_scope.
Local Open Scope prog_scope.

(** ** First fit *)

Definition apart (a b : Z * Z) : Prop := a.2 <= b.1 \/ b.2 <= a.1.

(** Ranges in ascending order, from [start] on. *)
Fixpoint packed (start : Z) (rs : list (Z * Z)) : Prop :=
  match rs with [] => True | r :: rs => start <= r.1 /\ r.1 < r.2 /\ r.2 mod 8 = 0 /\ packed r.2 rs end.

Lemma packed_ge start rs r : packed start rs -> r ∈ rs -> start <= r.1.
Proof.
  revert start. induction rs as [|r' rs IH]; intros start Hp Hin; [by apply elem_of_nil in Hin|]. destruct Hp as (H1 & H2 & _ & H3).
  apply elem_of_cons in Hin as [->|Hin]; [done|]. specialize (IH _ H3 Hin). lia.
Qed.

(** The range found is free; [r.1 - start] never underflows. *)
Lemma first_fit_free size start rs :
  packed start rs -> start mod 8 = 0 ->
  let found := first_fit size start rs in
  start <= found /\ found mod 8 = 0 /\ forall r, r ∈ rs -> apart (found, found + size) r.
Proof.
  revert start. induction rs as [|r rs IH]; intros start Hp Ha; simpl.
  - split; [lia|]. split; [done|]. intros r Hr. by apply elem_of_nil in Hr.
  - destruct Hp as (H1 & H2 & H3 & H4). destruct (Z.leb_spec size (r.1 - start)) as [Hfit|Hnot].
    + split; [lia|]. split; [done|]. intros r' [->|Hr']%elem_of_cons; left; simpl; [lia|]. pose proof (packed_ge _ _ _ H4 Hr'). lia.
    + destruct (IH r.2 H4 H3) as (G1 & G2 & G3). split; [lia|]. split; [done|]. intros r' [->|Hr']%elem_of_cons; [right; simpl; lia|by apply G3].
Qed.

Lemma packed_sorted start rs :
  StronglySorted range_le rs -> NoDup rs -> (forall r, r ∈ rs -> start <= r.1 /\ r.1 < r.2 /\ r.2 mod 8 = 0) ->
  (forall a b, a ∈ rs -> b ∈ rs -> a <> b -> apart a b) -> packed start rs.
Proof.
  intros Hs. revert start. induction Hs as [|r rs Hs IH Hle]; intros start Hnd Hall Hap; [done|]. apply NoDup_cons in Hnd as [Hr Hnd].
  destruct (Hall r ltac:(left)) as (H1 & H2 & H3). split_and!; try done. apply IH; [done| |].
  - intros r' Hr'. destruct (Hall r' ltac:(by right)) as (G1 & G2 & G3). split; [|done].
    rewrite Forall_forall in Hle. specialize (Hle r' Hr'). unfold range_le in Hle.
    destruct (Hap r r' ltac:(left) ltac:(by right)) as [?|?]; [intros ->; done|done|lia].
  - intros a b Ha Hb. apply Hap; by right.
Qed.

Lemma plans_values (p : gmap Z (Z * Z)) r : r ∈ (map_to_list p).*2 <-> exists i, p !! i = Some r.
Proof.
  rewrite list_elem_of_fmap. split.
  - intros ([i r'] & -> & Hin). exists i. by apply elem_of_map_to_list.
  - intros [i Hi]. exists (i, r). split; [done|]. by apply elem_of_map_to_list.
Qed.

Lemma sorted_packed p : plans_ok p -> packed 0 (sorted_ranges p).
Proof.
  intros [Hall Hap]. unfold sorted_ranges.
  assert (Hperm := merge_sort_Permutation range_le (map_to_list p).*2).
  apply packed_sorted.
  - apply StronglySorted_merge_sort; [intros a b c; unfold range_le; lia|intros a b; unfold range_le; lia].
  - rewrite Hperm. apply NoDup_fmap_2_strong; [|apply NoDup_map_to_list]. intros [i r] [j r'] Hi Hj He. simpl in He. subst r'.
    rewrite !elem_of_map_to_list in *. destruct (decide (i = j)) as [->|Hne]; [done|].
    specialize (Hall i r Hi). simpl in Hall. destruct (Hap i j r r Hi Hj Hne); lia.
  - intros r. rewrite Hperm, plans_values. intros [i Hi]. specialize (Hall i r Hi). simpl in Hall. lia.
  - intros a b. rewrite Hperm, !plans_values. intros [i Hi] [j Hj] Hne. apply (Hap i j); [done|done|congruence].
Qed.

(** The range that a new plan takes. *)
Lemma free_range p size :
  plans_ok p -> let start := first_fit size 0 (sorted_ranges p) in
  0 <= start /\ start mod 8 = 0 /\ forall i r, p !! i = Some r -> apart (start, start + size) r.
Proof.
  intros Hp. destruct (first_fit_free size 0 (sorted_ranges p) (sorted_packed p Hp) eq_refl) as (H1 & H2 & H3). split_and!; try done.
  intros i r Hi. apply H3. unfold sorted_ranges. rewrite merge_sort_Permutation. apply plans_values. by exists i.
Qed.

(** ** Steps on the locked bank *)

(** The Manager's thread of [id] holds the lock: plans and bank are its own. *)
Definition locked (id : Z) (W : gmap Z (Z * Z) -> (Z -> Z) -> Prop) (m : Mem) : Prop := plans_lock m = Some id /\ W (plans m) (bank m).

Lemma locked_stable id W : stable (Man id) (locked id W).
Proof. intros m m' He [Hl HW]. destruct (lock_frame id m m' Hl He) as [Hl' [Hb Hp]]. split; [done|]. by rewrite Hb, Hp. Qed.

(** A step of its own on plans and bank. *)
Lemma guarantee_locked id m m' :
  plans_lock m = Some id -> (plans_lock m' = Some id \/ plans_lock m' = None) -> slots m' = slots m -> trace m' = trace m -> guarantee (Man id) m m'.
Proof.
  intros Hl Hl' Hs Ht. split; [done|]. split; [destruct Hl' as [-> | ->]; auto|]. unfold other_slots, unmoved. rewrite Hs, Ht. split; [done|by left].
Qed.

(** Assertions about the records alone. *)
Definition on_records (P : Mem -> Prop) : Prop := forall m m', slots m' = slots m -> trace m' = trace m -> P m -> P m'.
Lemma held_records id S F : on_records (held id S F).
Proof. intros m m' Hs Ht. unfold held, at_state. by rewrite Hs, Ht. Qed.
#[local] Hint Resolve held_records : core.

Lemma wp_lock id P Q m :
  stable (Man id) P -> on_records P -> P m ->
  (forall m', Inv m' -> P m' -> plans_lock m' = Some id -> Q tt m') -> wp (Man id) (lock_plans id) Q m.
Proof.
  intros HP Hrec Hm HQ. apply (wp_step _ P); [done|done|]. intros m' Hi Hp Hfree. destruct (plans_lock m') eqn:El; [done|].
  assert (Hi' : Inv (set_lock (Some id) m')) by (by apply (Inv_quiet m')). split; [|split; [done|apply HQ; [done|by apply (Hrec m')|done]]].
  split; [done|]. split; [by right; left|]. split; [done|by left].
Qed.
Lemma wp_unlock id P (Q : unit -> Mem -> Prop) m :
  stable (Man id) P -> on_records P -> P m -> plans_lock m = Some id -> (forall m', P m' -> Q tt m') -> wp (Man id) unlock_plans Q m.
Proof.
  intros HP Hrec Hm Hl HQ. apply (wp_step _ (fun m => P m /\ locked id (fun _ _ => True) m)); [apply stable_and; [done|apply locked_stable]|done|].
  intros m' Hi [Hp [Hl' _]] _. cbn [fst snd].
  split; [by apply guarantee_locked; [|right| |]|]. split; [by apply (Inv_quiet m')|]. by apply HQ, (Hrec m').
Qed.

(** No other grant's plan is touched when a range is dropped. *)
Lemma Inv_remove m id :
  Inv m -> (forall s, at_state m id s -> ~ live m id s) -> Inv (set_plans (delete id (plans m)) m).
Proof.
  intros Hi Hid. apply (Inv_bank m); try done.
  - destruct (inv_plans m Hi) as [Hall Hap]. split; simpl.
    + intros i r [_ Hr]%lookup_delete_Some. by apply (Hall i r).
    + intros i j r r' [_ Hr]%lookup_delete_Some [_ Hr']%lookup_delete_Some. by apply (Hap i j).
  - intros id' s Hv Ha Hl (plan & start & H1 & H2 & H3 & H4 & H5). exists plan, start. split_and!; try done; try apply H5.
    simpl. rewrite lookup_delete_ne; [done|]. intros ->. by apply (Hid s).
Qed.

Lemma wp_remove_plan id P Q m :
  stable (Man id) P -> on_records P -> P m -> plans_lock m = Some id -> (forall m' s, P m' -> at_state m' id s -> ~ live m' id s) ->
  (forall m', P m' -> plans_lock m' = Some id -> Q tt m') -> wp (Man id) (remove_plan id) Q m.
Proof.
  intros HP Hrec Hm Hl Hdead HQ. apply (wp_step _ (fun m => P m /\ locked id (fun _ _ => True) m));
    [apply stable_and; [done|apply locked_stable]|done|].
  intros m' Hi [Hp [Hl' _]] _. cbn [fst snd]. split; [by apply guarantee_locked; [|left| |]|].
  split; [apply Inv_remove; eauto|]. apply HQ; [by apply (Hrec m')|done].
Qed.

Lemma wp_drop_plan id P Q m :
  stable (Man id) P -> on_records P -> P m -> (forall m' s, P m' -> at_state m' id s -> ~ live m' id s) ->
  (forall m', P m' -> Q tt m') -> wp (Man id) (drop_plan id) Q m.
Proof.
  intros HP Hrec Hm Hdead HQ. unfold drop_plan. apply wp_bind. apply (wp_lock id P); [done..|]. intros m1 Hi1 Hp1 Hl1.
  apply wp_bind. apply (wp_remove_plan id P); [done..|]. intros m2 Hp2 Hl2. by apply (wp_unlock id P).
Qed.

(** ** Publishing *)

Lemma preparing_dead id m s F : held id preparing F m -> at_state m id s -> ~ live m id s.
Proof.
  intros (a & Hp & Ha & _) Hs. destruct (at_state_inj m id a id s eq_refl Ha Hs) as [_ <-].
  unfold live, granted, active. destruct Hp as [-> | ->]; naive_solver.
Qed.
Lemma preparing_owns id a : preparing a -> owns (Man id) a.
Proof. intros [-> | ->]; simpl; unfold man_own; tauto. Qed.

Lemma next_words n : 0 <= n -> next_multiple_of_8 n = 8 * Z.of_nat (word_count n).
Proof. intros Hn. unfold next_multiple_of_8, word_count. rewrite Z2Nat.id by (apply Z.div_pos; lia). lia. Qed.

(** A word of a free range is no word of a granted plan. *)
Lemma apart_words start size a b j k :
  start mod 8 = 0 -> a mod 8 = 0 -> size = 8 * Z.of_nat j -> b = a + 8 * Z.of_nat k -> apart (start, start + size) (a, b) ->
  forall x y, (x < j)%nat -> (y < k)%nat -> start / 8 + Z.of_nat x <> a / 8 + Z.of_nat y.
Proof.
  intros Hs Ha -> -> Hap x y Hx Hy. pose proof (Z.div_mod start 8 ltac:(lia)). pose proof (Z.div_mod a 8 ltac:(lia)). destruct Hap; simpl in *; lia.
Qed.

Section publish.
Context (id : Z) (plan : bytes) (ps : gmap Z (Z * Z)) (start : Z).
Context (Hv : valid_id id).
Let size := next_multiple_of_8 (zlen plan).
(** What [publish_local] knows of the range it chose. *)
Context (Hlen : zlen plan <> 0) (Hmax : zlen plan <= RESTORE_PLAN_BYTES).
Context (Hstart : 0 <= start) (Halign : start mod 8 = 0) (Hend : start + size <= RESTORE_PLAN_BYTES).
Context (Hnew : ps !! id = None) (Hfree : forall i r, ps !! i = Some r -> apart (start, start + size) r).

#[local] Instance prep : Holds (Man id) id preparing := holds_preparing id Hv.

Definition bank_upto (k : nat) (p : gmap Z (Z * Z)) (b : Z -> Z) : Prop :=
  p = ps /\ forall j, (j < k)%nat -> b (start / 8 + Z.of_nat j) = word_at plan j.

Lemma size_words : size = 8 * Z.of_nat (word_count (zlen plan)).
Proof. apply next_words, zlen_nonneg. Qed.

Lemma Inv_set_bank m k v F :
  Inv m -> plans m = ps -> held id preparing F m -> (k < word_count (zlen plan))%nat -> Inv (set_bank (start / 8 + Z.of_nat k) v m).
Proof.
  intros Hi Hp Hm Hk. apply (Inv_bank m); try done; [apply Hi|].
  intros id' s Hv' Ha Hl (plan' & st & H1 & H2 & H3 & H4 & H5 & H6 & H7 & H8). exists plan', st. split_and!; try done.
  intros j Hj. simpl. destruct (Z.eqb_spec (st / 8 + Z.of_nat j) (start / 8 + Z.of_nat k)) as [He|]; [|by apply H8].
  destruct (inv_plans m Hi) as [Hall _]. specialize (Hall id' _ H4). simpl in Hall. rewrite Hp in H4.
  exfalso. eapply (apart_words start size st); [done| |apply size_words| |by apply (Hfree id')|exact Hk|exact Hj|done]; [lia|].
  by rewrite next_words by apply zlen_nonneg.
Qed.

Lemma wp_store_bank k n Q m :
  (k + n = word_count (zlen plan))%nat -> held id preparing (fun _ _ _ => True) m -> locked id (bank_upto k) m ->
  (forall m', held id preparing (fun _ _ _ => True) m' -> locked id (bank_upto (k + n)) m' -> Q tt m') ->
  wp (Man id) (store_words (fun k v => set_bank (start / 8 + k) v) plan k n) Q m.
Proof.
  revert k m. induction n as [|n IH]; intros k m Hn Hm Hb HQ; cbn [store_words]; [rewrite Nat.add_0_r in HQ; by apply HQ|].
  apply wp_bind. apply (wp_step _ (fun m => held id preparing (fun _ _ _ => True) m /\ locked id (bank_upto k) m));
    [apply stable_and; [by apply held_stable, prep|apply locked_stable]|done|].
  intros m' Hi [Hm' [Hl [Hp Hw]]] _. cbn [fst snd]. split; [by apply guarantee_locked; [|left| |]|].
  split; [eapply Inv_set_bank; [done..|lia]|]. apply IH; [lia|by apply (held_records _ _ _ m')| |by rewrite Nat.add_succ_r in HQ].
  split; [done|]. split; [done|]. intros j Hj. simpl. destruct (Z.eqb_spec (start / 8 + Z.of_nat j) (start / 8 + Z.of_nat k)) as [He|He].
  - by assert (j = k) as -> by lia.
  - apply Hw. assert (j <> k) by (intros ->; done). lia.
Qed.

(** The plan's range is entered in the table. *)
Lemma Inv_insert m F :
  Inv m -> plans m = ps -> held id preparing F m -> Inv (set_plans (<[id := (start, start + size)]> (plans m)) m).
Proof.
  intros Hi Hp Hm. apply (Inv_bank m); try done; simpl.
  - destruct (inv_plans m Hi) as [Hall Hap]. rewrite Hp in *. pose proof size_words as Hsz.
    assert (0 < size) by (assert (zlen plan <= size) by apply next_multiple_of_8_ge; pose proof (zlen_nonneg plan); lia). split.
    + apply map_Forall_insert_2; [|done]. simpl. split_and!; try lia. rewrite Hsz. by rewrite Z.add_mod, Z.mul_comm, Z.mod_mul, Halign.
    + intros i j r r' Hi' Hj Hne. apply lookup_insert_Some in Hi' as [[<- <-]|[Hi1 Hi2]]; apply lookup_insert_Some in Hj as [[<- <-]|[Hj1 Hj2]]; try done.
      * by apply (Hfree j).
      * destruct (Hfree i r Hi2); [by right|by left].
      * by apply (Hap i j).
  - intros id' s Hv' Ha Hl (plan' & st & H1 & H2 & H3 & H4 & H5). exists plan', st. split_and!; try done; try apply H5. simpl.
    rewrite lookup_insert_ne; [done|]. intros ->. by destruct (preparing_dead id' m s F Hm Ha).
Qed.

Definition referenced (x : Slot) (_ : option bytes) (_ : option (Z * bytes)) : Prop :=
  plan_start x = start /\ plan_len x = zlen plan /\ plan_read x = 0.
(** The record and the bank hold the plan, and the table its range. *)
Definition written (m : Mem) : Prop :=
  held id preparing referenced m /\
  locked id (fun p b => p !! id = Some (start, start + size) /\ words_hold (fun k => b (start / 8 + k)) plan) m.
Lemma written_stable : stable (Man id) written.
Proof. apply stable_and; [by apply held_stable, prep|apply locked_stable]. Qed.

(** The exchange that hands the plan to the engine. *)
Lemma publish_step more m :
  let to := if more : bool then GrantedMore else Granted in
  Inv m -> written m -> at_state m id Preparing ->
  guarantee (Man id) m (exchanged id to [EPublished id plan] m) /\ Inv (exchanged id to [EPublished id plan] m).
Proof.
  intros to Hi [(a & _ & _ & H1 & H2 & H3) [Hl [H4 H5]]] Ha. split.
  - apply (guarantee_exchange (Man id) id Preparing); [apply man_owner|done|done|by right; destruct more| | |]; [repeat constructor..|].
    intros Hn. by destruct Hn.
  - apply (Inv_record m _ id Preparing to [EPublished id plan]); try done.
    + apply exchanged_at.
    + apply slots_set_other.
    + constructor; [done|constructor].
    + intros _. exists plan, start. unfold exchanged. simpl. rewrite !Z.eqb_refl. split_and!; done.
    + unfold to. by destruct more; intros [?|?].
    + simpl. split; [by apply (inv_known m Hi id Preparing)|apply Hi].
    + simpl. intros f msg [?|Hin]%elem_of_cons; [done|]. discriminate (not_polled m id Preparing f msg Hi Ha Hin).
Qed.

Lemma man_grant more m :
  held id preparing (fun _ _ _ => True) m -> locked id (bank_upto 0) m ->
  wp (Man id) (grant id plan more (slot_of id) start) (fun _ m' => plans_lock m' = Some id) m.
Proof.
  intros Hm Hb. unfold grant. apply wp_bind. apply (wp_store_bank 0); [done|done|done|]. intros m1 Hm1 Hb1. cbn [Nat.add] in Hb1.
  set (B := locked id (bank_upto (word_count (zlen plan)))) in *. assert (HB : stable (Man id) B) by apply locked_stable.
  apply wp_bind. eapply (wp_write_with _ id preparing _ B); [apply prep|apply preparing_owns|by constructor|done|done|exact Hm1|exact Hb1|].
  intros m2 _ Hm2 Hb2.
  apply wp_bind. eapply (wp_write_with _ id preparing _ B); [apply prep|apply preparing_owns|by constructor|done|done|exact Hm2|exact Hb2|].
  intros m3 _ Hm3 Hb3.
  apply wp_bind. eapply (wp_write_with _ id preparing _ B); [apply prep|apply preparing_owns|by constructor|done|done|exact Hm3|exact Hb3|].
  intros m4 _ Hm4 Hb4. assert (Hr4 : held id preparing referenced m4).
  { destruct Hm4 as (a & Hpa & Haa & y & Hy & y2 & Hy2 & y3 & Hy3 & _). exists a. split; [done|]. split; [done|]. by rewrite Hy, Hy2, Hy3. }
  apply wp_bind. apply (wp_step _ (fun m => held id preparing referenced m /\ B m)); [apply stable_and; [by apply held_stable, prep|done]|done|].
  intros m5 Hi5 [Hm5 [Hl5 [Hp5 Hw5]]] _. cbn [fst snd]. split; [by apply guarantee_locked; [|left| |]|]. split; [by eapply Inv_insert|].
  cbn [wp]. apply wp_bind. apply (wp_transition _ written); [done|apply written_stable| | |].
  - split; [by apply (held_records _ _ _ m5)|]. split; [done|]. split; [apply lookup_insert_eq|done].
  - intros m6 Hi6 Hw6 Ha6. destruct (publish_step more m6 Hi6 Hw6 Ha6) as [Hg Hi7]. split; [exact Hg|]. split; [exact Hi7|]. apply Hw6.
  - intros m6 Hi6 Hw6. apply wp_rbind. apply (wp_state _ written); [done|apply written_stable|done| |by intros m7 e _ [_ [? _]]].
    intros m7 s _ [Hm7 [Hl7 _]] _. apply wp_bind. apply (wp_remove_plan id (held id preparing referenced)); [by apply held_stable, prep|done..| |].
    + intros m' s' Hm'. by eapply preparing_dead.
    + by intros m' _ Hl'.
Qed.
End publish.
