(* ===== verification/GrantsManager.v ===== *)
(** * The Manager's side of a grant

    Every method that the Manager calls keeps the invariant of the grants, whatever the engine and the
    other grants do meanwhile; so does the reservation of a new operation. *)
From S2P Require Import Prelude Containers Words Wire Grants GrantsLogic GrantsRules GrantsSpec GrantsPlans.

Local Open Scope Z_scope.
Local Open Scope prog_scope.

(** An exchange of the Manager whose target needs neither a plan nor a result. *)
Definition bare (s : GrantState) : bool := match s with Preparing | Managed | Revoked => true | _ => false end.
Lemma wp_bare id from to Q m :
  valid_id id -> bare to = true -> man_move from to -> from <> Acknowledged -> (forall x m', Q x m') -> wp (Man id) (transition id from to []) Q m.
Proof.
  intros Hv Hb Hm Hna HQ. apply (wp_plain (Man id) id); try done; [apply man_owner|..]; unfold granted, active, done_state; destruct to; naive_solver.
Qed.
Ltac plain_exchange := apply wp_bare; [done|done|by right|done|].
Ltac read_state := apply (wp_state _ (fun _ => True)); [done|apply stable_True|done| |done].

Lemma man_claim id m : valid_id id -> wp (Man id) (claim id) fine m.
Proof. intros Hv. unfold claim. by plain_exchange. Qed.

Lemma man_continue id m : valid_id id -> wp (Man id) (continue_local id) fine m.
Proof. intros Hv. unfold continue_local. by plain_exchange. Qed.

Lemma man_start_managed fuel id m : valid_id id -> wp (Man id) (start_managed fuel id) fine m.
Proof.
  intros Hv. revert m. induction fuel as [|fuel IH]; intros m; cbn [start_managed]; [apply wp_spin|].
  apply wp_rbind. read_state. intros m1 s _ _ _. destruct s; try done; cbn [bool_decide orb negb].
  - apply wp_bind. plain_exchange. intros [[]|e] m2; [done|apply IH].
  - apply wp_bind. plain_exchange. intros [[]|e] m2; [done|apply IH].
Qed.

Lemma man_revoke fuel id m : valid_id id -> wp (Man id) (revoke fuel id) fine m.
Proof.
  intros Hv. revert m. induction fuel as [|fuel IH]; intros m; cbn [revoke]; [apply wp_spin|].
  apply wp_rbind. read_state. intros m1 s _ _ _.
  assert (Hgo : man_move s Revoked -> s <> Acknowledged -> wp (Man id) (do! r := transition id s Revoked [] in
    match r with Ok _ => do! _ := dirty id in Ret (Ok true) | Err _ => revoke fuel id end) fine m1).
  { intros Hmv Hna. apply wp_bind. apply wp_bare; [done..|].
    intros [[]|e] m2; [apply wp_bind, wp_dirty; done|apply IH]. }
  destruct s; try done; apply Hgo; try done; by right.
Qed.

Lemma man_publish id plan more m : valid_id id -> wp (Man id) (publish_local id plan more) fine m.
Proof.
  intros Hv. unfold publish_local. apply wp_rbind. read_state. intros m1 s _ _ _. destruct (bool_decide _); [done|].
  apply wp_rbind. read_state. intros m2 s2 _ _ Hs2. destruct (bool_decide_reflect (s2 = Preparing)) as [->|]; [|done]. cbn [negb].
  destruct (_ || _) eqn:Elen; [done|]. apply orb_false_iff in Elen as [Hz%Z.eqb_neq Hmax%Z.ltb_ge].
  assert (HS := holds_preparing id Hv). set (H := held id preparing (fun _ _ _ => True)).
  assert (Hst : stable (Man id) H) by (by apply held_stable). assert (Hm2 : H m2) by (exists Preparing; split; [by left|done]).
  apply wp_bind. apply (wp_lock id H); [done|apply held_records|done|]. intros m3 Hi3 Hm3 Hl3.
  apply wp_bind. apply (wp_load _ (fun m => H m /\ locked id (fun _ _ => True) m)); [apply stable_and; [done|apply locked_stable]|done|].
  intros m4 Hi4 [Hm4 [Hl4 _]].
  assert (Hfin : forall (r : res bool) m', plans_lock m' = Some id -> wp (Man id) (do! _ := unlock_plans in Ret r) fine m').
  { intros r m' Hl. apply wp_bind. by apply (wp_unlock id (fun _ => True)). }
  apply wp_bind. destruct (plans m4 !! id) eqn:Eid; [by apply Hfin|]. cbv zeta.
  destruct (Z.ltb_spec RESTORE_PLAN_BYTES (first_fit (next_multiple_of_8 (zlen plan)) 0 (sorted_ranges (plans m4)) + next_multiple_of_8 (zlen plan))) as [|Hend];
    [by apply Hfin|]. rewrite offset_valid by done.
  destruct (free_range (plans m4) (next_multiple_of_8 (zlen plan)) (inv_plans m4 Hi4)) as (Hst0 & Hal & Hfree).
  eapply wp_mono; [|apply (man_grant id plan (plans m4)); try done]; [by intros r m5; apply Hfin|].
  split; [done|]. split; [done|]. intros j Hj. lia.
Qed.

(** ** Results of the Manager *)

Lemma man_owns_only id s : man_own s -> forall a, only s a -> owns (Man id) a.
Proof. by intros Hs a ->. Qed.

(** The exchange to [Reaped], once the record holds a result. *)
Lemma wp_reap id S from Q m :
  Holds (Man id) id S -> man_move from Reaped -> from <> Acknowledged ->
  held id S (fun y _ lf => result_field y lf) m -> (forall x m', held id S (fun _ _ _ => True) m' \/ x = Ok tt -> Q x m') ->
  wp (Man id) (transition id from Reaped []) Q m.
Proof.
  intros HS Hmv Hna Hm HQ. pose proof (holds_valid (Holds := HS)) as Hv.
  apply (wp_transition _ (held id S (fun y _ lf => result_field y lf))); [done|by apply held_stable|done|..].
  - intros m' Hi Hm' Ha. destruct (exchange_quiet (Man id) id from Reaped m') as [Hg Hi']; try done.
    + apply man_owner.
    + intros [[?|?]|[[?|?] _]]; done.
    + intros _. by eapply result_field_ok.
    + split; [done|]. split; [done|]. apply HQ. by right.
  - intros m' _ (a & ? & ? & _). apply HQ. left. by exists a.
Qed.

Lemma man_complete id x m : valid_id id -> wp (Man id) (complete id x) fine m.
Proof.
  intros Hv. unfold complete. apply wp_rbind. read_state. intros m1 s _ _ Hs. destruct (bool_decide_reflect (s = Managed)) as [->|]; [|done]. cbn [negb].
  assert (HS : Holds (Man id) id (only Managed)) by (apply holds_man; [done|unfold man_holds; tauto]).
  apply wp_rbind. apply (wp_write_result (Man id) id (only Managed)); [done|apply man_owns_only; unfold man_own; tauto|by exists Managed|].
  intros m2 _ Hm2. apply (wp_reap id (only Managed)); [done|by right|done..].
Qed.

Lemma man_reject fuel id msg m : valid_id id -> wp (Man id) (reject fuel id msg) fine m.
Proof.
  intros Hv. assert (HS := holds_preparing id Hv). revert m. induction fuel as [|fuel IH]; intros m; cbn [reject]; [apply wp_spin|].
  apply wp_rbind. read_state. intros m1 s _ _ Hs. destruct (negb _) eqn:Ep; [done|].
  apply negb_false_iff, orb_true_iff in Ep. rewrite !bool_decide_eq_true in Ep.
  apply wp_rbind. apply (wp_write_result (Man id) id preparing); [done|apply preparing_owns|by exists s|].
  intros m2 _ Hm2. apply wp_bind. apply (wp_reap id preparing); [done|right; by destruct Ep as [-> | ->]|by destruct Ep as [-> | ->]|done|].
  intros [[]|e] m3 _; [done|apply IH].
Qed.

Lemma man_reap id m : valid_id id -> wp (Man id) (reap id) fine m.
Proof.
  intros Hv. unfold reap. apply wp_rbind. read_state. intros m1 s Hi1 _ Hs. destruct (negb _) eqn:Ep; [done|].
  apply negb_false_iff, orb_true_iff in Ep. rewrite !bool_decide_eq_true in Ep.
  assert (HS : Holds (Man id) id (only s)) by (apply holds_man; [done|unfold man_holds; naive_solver]).
  assert (Hmv : man_move s Reaped /\ s <> Acknowledged) by (split; [right|]; by destruct Ep as [-> | ->]). destruct Hmv as [Hmv Hna].
  assert (Hdead : forall F m' s', held id (only s) F m' -> at_state m' id s' -> ~ live m' id s').
  { intros F m' s' (a & -> & Ha & _) Hs'. destruct (at_state_inj m' id s id s' eq_refl Ha Hs') as [_ <-].
    unfold live, granted, active. destruct Ep as [-> | ->]; naive_solver. }
  destruct Ep as [-> | ->]; cbn [bool_decide].
  - assert (Hr : held id (only Drained) (fun y _ lf => result_field y lf) m1).
    { exists Drained. split; [done|]. split; [done|]. apply (inv_done m1 Hi1 id Drained Hv Hs). by left. }
    apply wp_bind. apply (wp_drop_plan id (held id (only Drained) (fun y _ lf => result_field y lf)));
      [by apply held_stable|apply held_records|done|apply Hdead|]. intros m2 Hm2.
    apply wp_rbind. cbn. by apply (wp_reap id (only Drained)).
  - apply wp_bind. apply (wp_drop_plan id (held id (only Revoked) (fun _ _ _ => True)));
      [by apply held_stable|apply held_records|by exists Revoked|apply Hdead|]. intros m2 Hm2.
    apply wp_rbind. apply (wp_write_result (Man id) id (only Revoked)); [done|apply man_owns_only; unfold man_own; tauto|done|].
    intros m3 _ Hm3. by apply (wp_reap id (only Revoked)).
Qed.

(** ** Releasing a plan *)

(** The plan was claimed or withdrawn; [R] holds of the mark of a plan that is still claimed. *)
Definition past (R : Z -> Prop) (id : Z) (m : Mem) : Prop :=
  exists s, at_state m id s /\ (s = Revoked \/ s = Drained \/ s = PartDrained \/ active s /\ R (plan_read (slots m (slot_of id)))).
(** The engine is done with the plan: its claim is over, or it has marked the plan as read. *)
Definition released : Z -> Mem -> Prop := past (fun read => read = 1).

Lemma released_dead id m s : released id m -> at_state m id s -> ~ live m id s.
Proof.
  intros (a & Ha & Hr) Hs. destruct (at_state_inj m id a id s eq_refl Ha Hs) as [_ <-]. unfold live, granted, active in *.
  intros [Hg|[Hac Hz]]; [naive_solver|]. destruct Hr as [->|[->|[->|[_ Ho]]]]; [naive_solver..|]. rewrite Ho in Hz. discriminate Hz.
Qed.
Lemma past_records R id : on_records (past R id).
Proof. intros m m' Hs _. unfold past, at_state. by rewrite Hs. Qed.
Lemma past_stable (R : Z -> Prop) id : valid_id id -> R 1 -> stable (Man id) (past R id).
Proof.
  intros [Hid _] H1 m m' He (s & Ha & Hr).
  assert (Hframe : id_frame id m m' -> past R id m').
  { intros (Hsl & _). exists s. unfold at_state in *. by rewrite Hsl. }
  destruct (decide (man_holds s)) as [Hh|Hh]; [by apply Hframe, (man_frame id m m' s)|].
  destruct Hr as [->|[->|[->|[Hac Hrd]]]]; [by destruct Hh; unfold man_holds; tauto..|].
  assert (s <> Acknowledged) by (by destruct Hac as [-> | ->]). destruct He as (_ & r & Hr & Hg).
  destruct (decide (r = Eng id)) as [->|Hm]; [|by eapply Hframe, (other_frame r)].
  destruct Hg as (_ & _ & _ & [Hu|(_ & a & b & evs & Ha' & Hb & Hmv & Hread & _)]); [by apply Hframe, unmoved_frame|].
  destruct (at_state_inj m id a id s eq_refl Ha' Ha) as [_ ->]. exists b. split; [done|].
  assert (Hrd' : R (plan_read (slots m' (slot_of id)))) by (destruct Hread as [?|[-> | ->]]; done).
  unfold active, eng_move in *. destruct Hmv as [<-|Hmv]; [tauto|]. destruct Hac as [-> | ->]; destruct b; naive_solver.
Qed.

Lemma man_release_plan id m : valid_id id -> wp (Man id) (release_plan id) fine m.
Proof.
  intros Hv. unfold release_plan. rewrite offset_valid by done. apply wp_rbind. read_state. intros m1 s Hi1 _ Hs.
  assert (Hgo : forall m', released id m' -> wp (Man id) (do! _ := drop_plan id in Ret (Ok tt : res unit)) fine m').
  { intros m' Hm'. apply wp_bind. apply (wp_drop_plan id (released id));
      [by apply past_stable|apply past_records|done|intros m2 s2; apply released_dead|done]. }
  assert (Hact : active s -> wp (Man id) (do! free := load (fun m => plan_read (slots m (slot_of id)) =? 1) in
    if free : bool then do! _ := drop_plan id in Ret (Ok tt) else Ret (Err (StaleId id))) fine m1).
  { intros Hac. apply wp_bind. apply (wp_load _ (past (fun _ => True) id)); [by apply past_stable|exists s; tauto|].
    intros m2 _ (s2 & Ha2 & Hp2). destruct (Z.eqb_spec (plan_read (slots m2 (slot_of id))) 1) as [He|]; [|done].
    apply Hgo. exists s2. split; [done|]. tauto. }
  destruct s; try done; try (apply Hact; unfold active; tauto); apply Hgo; eexists; (split; [exact Hs|tauto]).
Qed.

(** ** Reads *)

Lemma wp_quiet_load {A} r (f : Mem -> A) Q m : (forall x m', Q x m') -> wp r (load f) Q m.
Proof. intros HQ. apply (wp_load r (fun _ => True)); [apply stable_True|done|]. intros m' _ _. apply HQ. Qed.
Lemma wp_quiet_words r get k n Q m : (forall x m', Q x m') -> wp r (load_words get k n) Q m.
Proof.
  intros HQ. revert k m Q HQ. induction n as [|n IH]; intros k m Q HQ; cbn [load_words]; [apply HQ|].
  apply wp_bind, wp_quiet_load. intros w m1. apply wp_bind. apply IH. intros ws m2. apply HQ.
Qed.

Lemma man_drain_timing id m : valid_id id -> wp (Man id) (drain_timing id) fine m.
Proof.
  intros Hv. unfold drain_timing. apply wp_rbind. read_state. intros m1 s _ _ _. destruct (negb _); [done|]. rewrite offset_valid by done.
  apply wp_bind, wp_quiet_load. intros p m2. apply wp_bind, wp_quiet_words. intros ws m3. apply wp_rbind. read_state.
  intros m4 s4 _ _ _. by destruct (negb _).
Qed.
Lemma man_drain_succeeded id m : valid_id id -> wp (Man id) (drain_succeeded id) fine m.
Proof.
  intros Hv. unfold drain_succeeded. apply wp_rbind. read_state. intros m1 s _ _ _. rewrite offset_valid by done.
  destruct s; try done. by apply wp_quiet_load.
Qed.

Lemma wp_read_updates r l Q m : (forall x m', Q x m') -> wp r (read_updates l) Q m.
Proof.
  intros HQ. revert m Q HQ. induction l as [|s l IH]; intros m Q HQ; cbn [read_updates]; [apply HQ|].
  apply wp_bind, wp_quiet_load. intros t m1. destruct (t =? 0); [by apply IH|]. destruct (state_decode t); [|apply HQ].
  apply wp_rbind, IH. intros [x|e] m2; apply HQ.
Qed.
Lemma any_manager_updates r m : wp r manager_updates fine m.
Proof.
  unfold manager_updates. generalize 0%nat. generalize (Z.to_nat DIRTY_WORDS). intros n.
  assert (forall k m Q, (forall x m', Q x m') -> wp r (scan_dirty k n) Q m) as H; [|intros k; by apply H]. clear m.
  induction n as [|n IH]; intros k m Q HQ; cbn [scan_dirty]; [apply HQ|]. apply wp_bind.
  apply (wp_step r (fun _ => True)); [apply stable_True|done|]. intros m1 Hi _ _. cbn [fst snd].
  split; [by apply guarantee_quiet|]. split; [by apply (Inv_quiet m1)|]. cbn [wp]. apply wp_rbind, wp_read_updates. intros [l|e] m2; [|apply HQ].
  apply wp_rbind, IH. intros [l'|e] m3; apply HQ.
Qed.

(** ** Reservation *)

Lemma rsv_reserve thread m : wp (Rsv thread) reserve fine m.
Proof.
  unfold reserve. generalize (Z.to_nat RESTORE_COMPLETION_SLOTS). intros fuel. revert m. induction fuel as [|fuel IH]; intros m; cbn [reserve_loop]; [done|].
  apply wp_bind. apply (wp_step _ (fun _ => True)); [apply stable_True|done|]. intros m1 Hi1 _ _. cbv beta zeta.
  destruct (negb _ && _); cbn [fst snd]; [|split; [apply guarantee_refl|split; done]].
  split; [by apply guarantee_quiet|]. split; [by apply (Inv_quiet m1)|]. cbn [wp]. destruct (offset _) as [s|] eqn:Eo; [|done].
  set (id := Z.of_N (next_operation m1)) in *. apply offset_Ok in Eo as [Hv ->]; [|unfold id; lia].
  apply wp_bind, wp_quiet_load. intros t m2. destruct (_ && _) eqn:Efree; [|apply IH].
  apply andb_true_iff in Efree as [Efree Hlt%Z.ltb_lt]. apply orb_true_iff in Efree. rewrite !Z.eqb_eq in Efree.
  apply wp_bind. apply (wp_step _ (fun _ => True)); [apply stable_True|done|]. intros m3 Hi3 _ _. cbv beta.
  destruct (Z.eqb_spec (tag (slots m3 (slot_of id))) t) as [Ht|]; cbn [fst snd]; [|split; [apply guarantee_refl|split; [done|apply IH]]].
  rewrite shifted_reserved. subst t. change (log [EReserved id] (set_slot (slot_of id) (with_tag (tag_of id Reserved)) m3)) with (exchanged id Reserved [EReserved id] m3).
  assert (Hsl : slots (exchanged id Reserved [EReserved id] m3) (slot_of id) = with_tag (tag_of id Reserved) (slots m3 (slot_of id)))
    by (unfold exchanged; simpl; by rewrite Z.eqb_refl).
  split; [|split; [|done]].
  - split; [done|]. split; [done|]. right. exists id. split_and!; try done. apply slots_set_other.
  - apply (Inv_reserve m3 _ id); try done. apply slots_set_other.
Qed.
