(* ===== verification/GrantsSystem.v ===== *)
(** * Grants under any interleaving

    The Manager and the engines call the grant methods in any order, and their atomic steps interleave
    freely.  On each side, the calls for one operation come from one thread at a time; reservations run
    on any number of threads.  [exec] runs a schedule. *)
From S2P Require Import Prelude Containers Words Wire Grants GrantsLogic GrantsRules GrantsSpec GrantsPlans GrantsManager.

Local Open Scope Z_scope.
Local Open Scope prog_scope.

(** ** Calls *)

Inductive Call :=
| Reserve
| Cancel (fuel : nat) | ClaimLocal | Drain (r : result unit bytes) (evidence : option RestoreTiming) | Poll
| Claim | StartManaged (fuel : nat) | PublishLocal (plan : bytes) (more : bool) | ReleasePlan | ContinueLocal | Revoke (fuel : nat)
| DrainTiming | DrainSucceeded | Reap | Reject (fuel : nat) (message : bytes) | FinishCancelled (fuel : nat)
| Complete (r : result unit bytes) | ManagerUpdates.

Definition discard {A} (p : prog A) : prog unit := do! _ := p in Ret tt.

(** The method that a thread of role [r] runs, if its side may call it. *)
Definition method (r : Role) (c : Call) : option (prog unit) :=
  match r, c with
  | Rsv _, Reserve => Some (discard reserve)
  | Eng id, Cancel fuel => Some (discard (cancel fuel id))
  | Eng id, ClaimLocal => Some (discard (claim_local id))
  | Eng id, Drain x t => Some (discard (drained id x t))
  | Eng id, Poll => Some (discard (poll id))
  | Man id, Claim => Some (discard (claim id))
  | Man id, StartManaged fuel => Some (discard (start_managed fuel id))
  | Man id, PublishLocal plan more => Some (discard (publish_local id plan more))
  | Man id, ReleasePlan => Some (discard (release_plan id))
  | Man id, ContinueLocal => Some (discard (continue_local id))
  | Man id, Revoke fuel => Some (discard (revoke fuel id))
  | Man id, DrainTiming => Some (discard (drain_timing id))
  | Man id, DrainSucceeded => Some (discard (drain_succeeded id))
  | Man id, Reap => Some (discard (reap id))
  | Man id, Reject fuel msg => Some (discard (reject fuel id msg))
  | Man id, FinishCancelled fuel => Some (discard (finish_cancelled fuel id))
  | Man id, Complete x => Some (discard (complete id x))
  | Man id, ManagerUpdates => Some (discard manager_updates)
  | _, _ => None
  end.

(** ** Schedules *)

Record Config := mkConfig { memory : Mem; threads : Role -> option (prog unit) }.
Definition set_thread (r : Role) (p : prog unit) (c : Config) (m : Mem) : Config :=
  mkConfig m (fun r' => if decide (r' = r) then Some p else threads c r').

Inductive Action := Start (r : Role) (c : Call) | Run (r : Role).

(** An operation id is a [u64]. *)
Definition role_id (r : Role) : Z := match r with Eng id | Man id => id | Rsv _ => 0 end.

Definition act (c : Config) (a : Action) : option Config :=
  match a with
  | Start r call =>
      if role_id r <? 0 then None else
      match threads c r with
      | Some (Step _ _ _) => None
      | _ => p ← method r call; Some (set_thread r p c (memory c))
      end
  | Run r =>
      match threads c r with
      | Some (Step e u n) => if e (memory c) then Some (set_thread r (n (memory c)) c (u (memory c))) else None
      | _ => None
      end
  end.
Fixpoint exec (c : Config) (l : list Action) : option Config :=
  match l with [] => Some c | a :: l => c' ← act c a; exec c' l end.

(** The memory after [create]: zeroed, the next operation is 1. *)
Definition empty_slot : Slot := mkSlot 0 0 0 0 0 (fun _ => 0) 0 (fun _ => 0).
Definition create : Mem := mkMem 1 (fun _ => 0) (fun _ => empty_slot) (fun _ => 0) ∅ None [].
Definition initial : Config := mkConfig create (fun _ => None).

(** ** Soundness *)

#[local] Opaque reserve.

Lemma offset_invalid id : 0 <= id -> ~ valid_id id -> exists e, offset id = Err e.
Proof. intros H0 Hn. destruct (offset id) as [s|e] eqn:E; [|by exists e]. by apply offset_Ok in E as [? _]. Qed.

(** A method called with an id that no record can have touches nothing. *)
Lemma method_invalid r c p m : 0 <= role_id r -> owner r (role_id r) -> ~ valid_id (role_id r) -> method r c = Some p -> wp r p fine m.
Proof.
  intros H0 Ho Hn Hp. destruct (offset_invalid _ H0 Hn) as [e He].
  assert (Hst : state (role_id r) = Ret (Err e)) by (unfold state; by rewrite He).
  assert (Htr : forall from to evs, transition (role_id r) from to evs = Ret (Err e)) by (intros; unfold transition; by rewrite He).
  destruct Ho as [Hr|Hr]; rewrite Hr in *; cbn [role_id] in *; destruct c; try discriminate Hp; injection Hp as <-; unfold discard; apply wp_bind;
    try (apply any_manager_updates);
    unfold claim_local, drained, poll, claim, publish_local, release_plan, continue_local, drain_timing, drain_succeeded, reap, finish_cancelled, complete;
    try (destruct fuel; [apply wp_spin|]; cbn [cancel start_managed revoke reject]);
    rewrite ?Hst, ?Htr, ?He; done.
Qed.

Lemma method_fine r c p m : 0 <= role_id r -> method r c = Some p -> wp r p fine m.
Proof.
  intros H0 Hp. destruct r as [id|id|n].
  - destruct (decide (valid_id id)) as [Hv|Hv]; [|eapply method_invalid; [done|apply eng_owner|done|done]].
    destruct c; try discriminate Hp; injection Hp as <-; apply wp_bind; (eapply wp_mono; [|by auto using eng_cancel, eng_claim_local, eng_drained, eng_poll]); done.
  - destruct (decide (valid_id id)) as [Hv|Hv]; [|eapply method_invalid; [done|apply man_owner|done|done]].
    destruct c; try discriminate Hp; injection Hp as <-; apply wp_bind; (eapply wp_mono; [|first
      [by apply man_claim|by apply man_start_managed|by apply man_publish|by apply man_release_plan|by apply man_continue|by apply man_revoke
      |by apply man_drain_timing|by apply man_drain_succeeded|by apply man_reap|by apply man_reject|by apply man_complete|apply any_manager_updates]]); done.
  - destruct c; try done. injection Hp as <-. apply wp_bind. eapply wp_mono; [|apply rsv_reserve]. done.
Qed.

Definition sound (c : Config) : Prop := Inv (memory c) /\ forall r p, threads c r = Some p -> wp r p fine (memory c).

Lemma act_sound c a c' : act c a = Some c' -> sound c -> sound c'.
Proof.
  intros Ha [Hi Ht]. destruct a as [r call|r]; cbn [act] in Ha.
  - destruct (Z.ltb_spec (role_id r) 0) as [|H0]; [done|].
    assert (exists p, method r call = Some p /\ c' = set_thread r p c (memory c)) as (p & Hp & ->).
    { destruct (threads c r) as [[x|e u n]|]; [|done|]; apply bind_Some in Ha as (p & Hp & [= <-]); by exists p. }
    split; [done|]. intros r' p'. cbn. destruct (decide (r' = r)) as [->|]; [|apply Ht]. intros [= <-]. by apply (method_fine r call).
  - destruct (threads c r) as [[x|e u n]|] eqn:Er; try done. destruct (e (memory c)) eqn:Ee; [|done]. injection Ha as <-.
    destruct (Ht r _ Er (memory c) ltac:(constructor) Hi Ee) as (Hg & Hi' & Hw). split; [done|]. intros r' p'. cbn.
    destruct (decide (r' = r)) as [->|Hne]; [by intros [= <-]|]. intros Hp'. eapply wp_env; [|by apply Ht]. split; [done|]. by exists r.
Qed.
Lemma exec_sound l c c' : exec c l = Some c' -> sound c -> sound c'.
Proof.
  revert c. induction l as [|a l IH]; intros c; cbn [exec]; [by intros [= <-]|]. intros (c1 & H1 & H2)%bind_Some Hc. eapply IH; [done|]. by eapply act_sound.
Qed.

Lemma create_inv : Inv create.
Proof.
  assert (Hnone : forall id s, valid_id id -> ~ at_state create id s).
  { intros id s [Hid _] Ha. unfold at_state in Ha. cbn in Ha. rewrite tag_of_eq in Ha. pose proof (code_range s). lia. }
  constructor; try (intros id s Hv Ha; by destruct (Hnone id s Hv Ha)); try (by intros id Hin; apply elem_of_nil in Hin);
    try (by intros id f msg Hin; apply elem_of_nil in Hin); [|done].
  split; [apply map_Forall_empty|]. intros i j r r' Hi. change ((∅ : gmap Z (Z * Z)) !! i = Some r) in Hi. by rewrite lookup_empty in Hi.
Qed.

(** C3. Under every schedule of the Manager's and the engines' calls, each reserved operation is new; a
    plan that an engine claims is, byte for byte, the one that the Manager published last for that
    operation; a result that an engine polls is the one that was written last for it, and it is
    delivered once; and the plans in the bank are inside it and never overlap. *)
Theorem grants_exact l c :
  exec initial l = Some c -> trace_ok (trace (memory c)) /\ plans_ok (plans (memory c)).
Proof.
  intros He. destruct (exec_sound l initial c He) as [Hi _]; [|split; apply Hi]. split; [apply create_inv|done].
Qed.

(** Two operations whose publications interleave: the first is restored, the second revoked. *)
Definition sample_plan : bytes := str "blocks 7,8,9".
Definition sample_schedule : list Action :=
  let run n r := replicate n (Run r) in
  Start (Rsv 0) Reserve :: Start (Rsv 1) Reserve :: [Run (Rsv 0); Run (Rsv 1); Run (Rsv 1); Run (Rsv 0); Run (Rsv 0); Run (Rsv 1)] ++
  Start (Man 1) Claim :: Start (Man 2) Claim :: [Run (Man 1); Run (Man 2)] ++
  Start (Man 1) (PublishLocal sample_plan false) :: Start (Man 2) (PublishLocal (str "other") true) ::
  [Run (Man 1); Run (Man 2); Run (Man 2); Run (Man 1); Run (Man 2)] ++ run 8%nat (Man 2) ++ run 10%nat (Man 1) ++
  Start (Eng 1) ClaimLocal :: Start (Man 2) (Revoke 3) :: run 3%nat (Eng 1) ++ run 3%nat (Man 2) ++ run 5%nat (Eng 1) ++
  Start (Eng 1) (Drain (Err (str "lost")) None) :: Start (Man 1) ReleasePlan :: run 2%nat (Man 1) ++ run 6%nat (Eng 1) ++ run 3%nat (Man 1) ++
  Start (Man 1) Reap :: Start (Man 2) Reap :: run 5%nat (Man 1) ++ Start (Eng 1) Poll :: run 4%nat (Eng 1).

Lemma grants_exact_witness :
  exists c, exec initial sample_schedule = Some c /\ length (trace (memory c)) = 7%nat /\
    trace_ok (trace (memory c)) /\ plans_ok (plans (memory c)).
Proof.
  assert (Hlen : (fun c => length (trace (memory c))) <$> exec initial sample_schedule = Some 7%nat) by (vm_compute; reflexivity).
  destruct (exec initial sample_schedule) as [c|] eqn:E; [|discriminate Hlen]. exists c. split; [reflexivity|].
  split; [by injection Hlen|]. exact (grants_exact sample_schedule c E).
Defined.

(** ** The layout of the mapping *)

Definition field_in (f : Field) : Prop :=
  match f with FMessage k => 0 <= k < RESTORE_ERROR_BYTES / 8 | FTiming k => 0 <= k < 6 | _ => True end.
Definition in_mapping (c : Cell) : Prop :=
  match c with
  | NextWord => True
  | DirtyWord i => 0 <= i < DIRTY_WORDS
  | RecordWord s f => 0 <= s < RESTORE_COMPLETION_SLOTS /\ field_in f
  | BankWord i => 0 <= i < RESTORE_PLAN_BYTES / 8
  end.

Ltac layout := unfold in_mapping, address, DIRTY_WORDS, MAPPING_BYTES, PLAN_OFFSET, HEADER_BYTES, RECORD_BYTES,
  NEXT_OPERATION_OFFSET, DIRTY_OFFSET, RESTORE_COMPLETION_SLOTS, RESTORE_PLAN_BYTES, RESTORE_ERROR_BYTES in *;
  change (1024 / 64) with 16 in *; change (1024 * 1024 / 8) with 131072 in *; change (88 / 8) with 11 in *.

Lemma field_offset_range f : field_in f -> 0 <= field_offset f /\ field_offset f + 8 <= 184 /\ field_offset f mod 8 = 0.
Proof. destruct f; unfold field_in, field_offset; layout; intros Hf; try (split_and!; [lia|lia|reflexivity]); (split; [lia|]; split; [lia|]); Z.div_mod_to_equations; lia. Qed.
Lemma field_offset_inj f g : field_in f -> field_in g -> field_offset f = field_offset g -> f = g.
Proof. destruct f, g; unfold field_in, field_offset; layout; intros Hf Hg He; try lia; try done; f_equal; lia. Qed.

(** The words of the mapping do not overlap: every word lies in the mapping behind its identity
    words, is aligned to its size, and different words have different offsets, so the assertion of
    [word] never fails and no access touches another field. *)
Theorem layout_exact c c' :
  in_mapping c -> in_mapping c' ->
  24 <= address c /\ address c + 8 <= MAPPING_BYTES /\ address c mod 8 = 0 /\ (address c = address c' -> c = c').
Proof.
  intros Hc Hc'. assert (Hb : 24 <= address c /\ address c + 8 <= MAPPING_BYTES /\ address c mod 8 = 0).
  { destruct c as [|i|s f|i]; [split_and!; by vm_compute|layout; Z.div_mod_to_equations; lia| |layout; Z.div_mod_to_equations; lia].
    destruct Hc as [Hs Hf]. pose proof (field_offset_range f Hf). layout. Z.div_mod_to_equations. lia. }
  split_and!; try apply Hb. intros He. destruct c as [|i|s f|i], c' as [|i'|s' f'|i']; try done;
    try (layout; solve [lia|f_equal; lia]);
    repeat match goal with H : in_mapping (RecordWord _ ?f) |- _ => destruct H as [? H]; pose proof (field_offset_range f H) end; try (layout; lia).
  assert (s = s') as <- by (layout; lia). f_equal. apply field_offset_inj; [done|done|]. unfold address in He. lia.
Qed.
Lemma layout_exact_witness :
  let c := RecordWord 1023 (FMessage 10) in let c' := RecordWord 1023 FTimed in
  in_mapping c /\ in_mapping c' /\ address c + 8 = address c' /\ address c + 8 <= MAPPING_BYTES.
Proof.
  assert (Hc : in_mapping (RecordWord 1023 (FMessage 10))) by (layout; unfold field_in; layout; lia). assert (Hc' : in_mapping (RecordWord 1023 FTimed)) by (layout; unfold field_in; lia).
  split; [exact Hc|]. split; [exact Hc'|]. split; [reflexivity|]. exact (proj1 (proj2 (layout_exact _ _ Hc Hc'))).
Defined.
