(* ===== verification/DmaCopies.v ===== *)
(** * DMA copies

    orbitkv-core/src/transfer/memcpy/ranges.rs: copy descriptors are compiled into contiguous ranges
    and ranges into pitched copies of several rows.  The meaning of a descriptor or of a copy is the
    list of bytes it moves, in order, each with the allocation and the registration it is accessed
    through. *)
From S2P Require Import Prelude Containers.

Local Open Scope Z_scope.

(** ** Data *)

(** The host pointer is its address; [host_device] is the device's view of it. *)
Record CopyDesc := mkDesc { device : Z; host : Z; host_device : Z; size : Z; device_allocation : Z; host_registration : Z }.
Record DmaCopy := mkDma {
  d_device : Z; d_host : Z; width : Z; rows : Z; device_pitch : Z; host_pitch : Z; d_allocation : Z; d_registration : Z
}.

(** ** Compilation *)

(** [contiguous_ranges]: the range that begins at [start] grows while the next descriptor continues it. *)
Fixpoint grow_range (start : CopyDesc) (w : Z) (copies : list CopyDesc) : list DmaCopy :=
  let range := mkDma (device start) (host start) w 1 w w (device_allocation start) (host_registration start) in
  match copies with
  | [] => [range]
  | next :: rest =>
      if negb (device_allocation start =? device_allocation next) || negb (host_registration start =? host_registration next)
         || negb (bool_decide (checked_add (device start) w = Some (device next)))
         || negb (bool_decide (checked_add (host start) w = Some (host next)))
         || bool_decide (checked_add (device next) (size next) = None) || bool_decide (checked_add (host next) (size next) = None)
      then range :: grow_range next (size next) rest
      else match checked_add w (size next) with
           | None => range :: grow_range next (size next) rest
           | Some combined => grow_range start combined rest
           end
  end.
Definition contiguous_ranges (copies : list CopyDesc) : list DmaCopy :=
  match copies with [] => [] | start :: remaining => grow_range start (size start) remaining end.

(** [dma_copies]: a copy takes further ranges as rows while width, owners and pitches agree. *)
Fixpoint grow_rows (max_pitch : Z) (copy : DmaCopy) (previous_device previous_host : Z) (ranges : list DmaCopy) : list DmaCopy :=
  match ranges with
  | [] => [copy]
  | next :: rest =>
      let stop := copy :: grow_rows max_pitch next (d_device next) (d_host next) rest in
      if negb (width next =? width copy) || (width copy =? 0) || negb (d_allocation next =? d_allocation copy)
         || negb (d_registration next =? d_registration copy)
         || bool_decide (checked_add (d_device next) (width next) = None) || bool_decide (checked_add (d_host next) (width next) = None)
      then stop
      else match checked_sub (d_device next) previous_device, checked_sub (d_host next) previous_host with
           | Some dp, Some hp =>
               if (dp <? width copy) || (hp <? width copy) || (max_pitch <? dp) || (max_pitch <? hp)
                  || ((1 <? rows copy) && (negb (dp =? device_pitch copy) || negb (hp =? host_pitch copy)))
               then stop
               else grow_rows max_pitch
                      (mkDma (d_device copy) (d_host copy) (width copy) (rows copy + 1) dp hp (d_allocation copy) (d_registration copy))
                      (d_device next) (d_host next) rest
           | _, _ => stop
           end
  end.
Definition dma_copies (copies : list CopyDesc) (max_pitch : Z) : list DmaCopy :=
  match contiguous_ranges copies with [] => [] | copy :: ranges => grow_rows max_pitch copy (d_device copy) (d_host copy) ranges end.

(** ** Meaning *)

(** One byte: allocation, registration, device address and host address. *)
Definition run (allocation registration dev hst n : Z) : list (Z * Z * (Z * Z)) :=
  (fun i => (allocation, registration, (dev + i, hst + i))) <$> seqZ 0 n.
Definition desc_bytes (c : CopyDesc) : list (Z * Z * (Z * Z)) := run (device_allocation c) (host_registration c) (device c) (host c) (size c).
Definition dma_row (d : DmaCopy) (r : Z) : list (Z * Z * (Z * Z)) :=
  run (d_allocation d) (d_registration d) (d_device d + r * device_pitch d) (d_host d + r * host_pitch d) (width d).
Definition dma_bytes (d : DmaCopy) : list (Z * Z * (Z * Z)) := seqZ 0 (rows d) ≫= dma_row d.

(** A bounds-checked descriptor: addresses and sizes of the machine, and no wrap-around. *)
Definition desc_ok (c : CopyDesc) : Prop :=
  0 <= device c /\ 0 <= host c /\ 0 <= size c /\ device c + size c <= u64_max /\ host c + size c <= u64_max.
(** A copy that the driver accepts and that stays inside the address space. *)
Definition dma_ok (max_pitch : Z) (d : DmaCopy) : Prop :=
  0 <= d_device d /\ 0 <= d_host d /\ 0 <= width d /\ 1 <= rows d /\
  d_device d + (rows d - 1) * device_pitch d + width d <= u64_max /\ d_host d + (rows d - 1) * host_pitch d + width d <= u64_max /\
  (rows d = 1 \/ 0 < width d /\ width d <= device_pitch d <= max_pitch /\ width d <= host_pitch d <= max_pitch).

Lemma checked_add_Some a b c : checked_add a b = Some c -> c = a + b /\ a + b <= u64_max.
Proof. unfold checked_add. destruct (Z.leb_spec (a + b) u64_max); [|done]. by intros [= <-]. Qed.
Lemma checked_sub_Some a b c : checked_sub a b = Some c -> c = a - b /\ b <= a.
Proof. unfold checked_sub. destruct (Z.leb_spec b a); [|done]. by intros [= <-]. Qed.

Lemma run_app al rg dev hst n k :
  0 <= n -> 0 <= k -> run al rg dev hst (n + k) = run al rg dev hst n ++ run al rg (dev + n) (hst + n) k.
Proof.
  intros Hn Hk. unfold run. rewrite seqZ_app, fmap_app by done. f_equal. rewrite Z.add_0_l, <- (Z.add_0_r n) at 1. rewrite <- fmap_add_seqZ.
  rewrite <- list_fmap_compose. apply list_fmap_ext. intros _ i _. simpl. do 2 f_equal; lia.
Qed.

Lemma single_bytes d : rows d = 1 -> dma_bytes d = run (d_allocation d) (d_registration d) (d_device d) (d_host d) (width d).
Proof. intros Hr. unfold dma_bytes. rewrite Hr. change (seqZ 0 1) with [0]. rewrite bind_singleton. unfold dma_row. f_equal; lia. Qed.

Lemma bytes_row d dp hp :
  1 <= rows d -> rows d = 1 \/ dp = device_pitch d /\ hp = host_pitch d ->
  dma_bytes (mkDma (d_device d) (d_host d) (width d) (rows d + 1) dp hp (d_allocation d) (d_registration d)) =
  dma_bytes d ++ run (d_allocation d) (d_registration d) (d_device d + rows d * dp) (d_host d + rows d * hp) (width d).
Proof.
  intros Hr Hp. unfold dma_bytes. cbn [rows]. rewrite seqZ_app by lia. rewrite bind_app. f_equal.
  - destruct Hp as [->|[-> ->]]; [|done]. change (seqZ 0 1) with [0]. by rewrite !bind_singleton.
  - rewrite (seqZ_cons (0 + rows d) 1) by lia. change (seqZ _ (Z.pred 1)) with (@nil Z). rewrite bind_singleton. unfold dma_row. cbn. f_equal; lia.
Qed.

(** ** Contiguous ranges *)

Lemma grow_range_exact start w copies max_pitch :
  desc_ok (mkDesc (device start) (host start) (host_device start) w (device_allocation start) (host_registration start)) -> Forall desc_ok copies ->
  Forall (fun d => dma_ok max_pitch d /\ rows d = 1) (grow_range start w copies) /\
  grow_range start w copies ≫= dma_bytes =
    run (device_allocation start) (host_registration start) (device start) (host start) w ++ (copies ≫= desc_bytes) /\
  (length (grow_range start w copies) <= S (length copies))%nat.
Proof.
  revert start w. induction copies as [|next rest IH]; intros start w Hok Hall; cbn [grow_range].
  - unfold desc_ok in Hok. cbn in Hok. split; [constructor; [|constructor]; unfold dma_ok; cbn; lia|]. split; [|simpl; lia].
    rewrite bind_singleton, single_bytes by done. symmetry. apply app_nil_r.
  - apply Forall_cons in Hall as [Hn Hrest].
    set (range := mkDma (device start) (host start) w 1 w w (device_allocation start) (host_registration start)).
    assert (Hcut : Forall (fun d => dma_ok max_pitch d /\ rows d = 1) (range :: grow_range next (size next) rest) /\
      (range :: grow_range next (size next) rest) ≫= dma_bytes =
        run (device_allocation start) (host_registration start) (device start) (host start) w ++ ((next :: rest) ≫= desc_bytes) /\
      (length (range :: grow_range next (size next) rest) <= S (length (next :: rest)))%nat).
    { destruct (IH next (size next) Hn Hrest) as (H1 & H2 & H3). unfold desc_ok in Hok. cbn in Hok.
      split; [constructor; [unfold dma_ok; cbn; lia|done]|]. split; [|simpl; lia]. rewrite !bind_cons, H2, single_bytes by done. done. }
    destruct (_ || _) eqn:Estop; [exact Hcut|]. destruct (checked_add w (size next)) as [c|] eqn:Ec; [|exact Hcut]. clear Hcut.
    apply checked_add_Some in Ec as [-> _]. repeat (apply orb_false_iff in Estop as [Estop ?]). 
    repeat match goal with H : negb _ = false |- _ => apply negb_false_iff in H end. rewrite ?Z.eqb_eq, ?bool_decide_eq_true in *.
    rename select (checked_add (device start) w = _) into Hd. rename select (checked_add (host start) w = _) into Hh.
    apply checked_add_Some in Hd as [Hd _]. apply checked_add_Some in Hh as [Hh _]. rename select (host_registration start = _) into Hr.
    unfold desc_ok in Hn, Hok. cbn in Hok. destruct (IH start (w + size next)) as (H1 & H2 & H3); [unfold desc_ok; cbn; lia|done|].
    split; [done|]. split; [|simpl; lia]. rewrite H2, run_app, bind_cons by lia. unfold desc_bytes at 2. by rewrite <- app_assoc, Estop, Hr, Hd, Hh.
Qed.

Lemma contiguous_ranges_exact max_pitch copies :
  Forall desc_ok copies ->
  Forall (fun d => dma_ok max_pitch d /\ rows d = 1) (contiguous_ranges copies) /\
  contiguous_ranges copies ≫= dma_bytes = copies ≫= desc_bytes /\ (length (contiguous_ranges copies) <= length copies)%nat.
Proof.
  destruct copies as [|start rest]; [done|]. intros [Hs Hrest]%Forall_cons. destruct start as [dv hs hd sz al rg].
  by destruct (grow_range_exact (mkDesc dv hs hd sz al rg) sz rest max_pitch Hs Hrest) as (H1 & H2 & H3).
Qed.

(** ** Rows *)

(** [pd] and [ph] are the addresses of the last row of [d]. *)
Definition last_row (d : DmaCopy) (pd ph : Z) : Prop :=
  pd = d_device d + (rows d - 1) * device_pitch d /\ ph = d_host d + (rows d - 1) * host_pitch d.

Lemma grow_rows_exact max_pitch d pd ph ranges :
  dma_ok max_pitch d -> last_row d pd ph -> Forall (fun d => dma_ok max_pitch d /\ rows d = 1) ranges ->
  Forall (dma_ok max_pitch) (grow_rows max_pitch d pd ph ranges) /\
  grow_rows max_pitch d pd ph ranges ≫= dma_bytes = dma_bytes d ++ (ranges ≫= dma_bytes) /\
  (length (grow_rows max_pitch d pd ph ranges) <= S (length ranges))%nat.
Proof.
  revert d pd ph. induction ranges as [|next rest IH]; intros d pd ph Hd Hl Hall; cbn [grow_rows].
  - split; [by constructor|]. split; [|simpl; lia]. rewrite bind_singleton. symmetry. apply app_nil_r.
  - apply Forall_cons in Hall as [[Hn Hn1] Hrest].
    set (stop := d :: grow_rows max_pitch next (d_device next) (d_host next) rest).
    assert (Hcut : Forall (dma_ok max_pitch) stop /\ stop ≫= dma_bytes = dma_bytes d ++ ((next :: rest) ≫= dma_bytes) /\
      (length stop <= S (length (next :: rest)))%nat).
    { destruct (IH next (d_device next) (d_host next) Hn) as (H1 & H2 & H3); [unfold last_row; rewrite Hn1; lia|done|].
      split; [by constructor|]. split; [|simpl; lia]. unfold stop. by rewrite !bind_cons, H2. }
    match goal with |- context [if ?b then stop else _] => destruct b eqn:E1; [exact Hcut|] end. destruct (checked_sub (d_device next) pd) as [dp|] eqn:Edp; [|exact Hcut].
    destruct (checked_sub (d_host next) ph) as [hp|] eqn:Ehp; [|exact Hcut]. match goal with |- context [if ?b then stop else _] => destruct b eqn:E2; [exact Hcut|] end. clear Hcut stop.
    apply checked_sub_Some in Edp as [-> Hdp], Ehp as [-> Hhp]. destruct Hl as [Hpd Hph].
    repeat (apply orb_false_iff in E1 as [E1 ?]). repeat (apply orb_false_iff in E2 as [E2 ?]).
    repeat match goal with H : negb _ = false |- _ => apply negb_false_iff in H end.
    rewrite ?Z.eqb_eq, ?Z.eqb_neq, ?Z.ltb_ge in *. rename select (width d <> 0) into Hw0. rename select (_ && _ = false) into Hsame.
    assert (Hpitch : rows d = 1 \/ d_device next - pd = device_pitch d /\ d_host next - ph = host_pitch d).
    { destruct (Z.ltb_spec 1 (rows d)); [|left; destruct Hd; lia]. right. apply orb_false_iff in Hsame as [?%negb_false_iff ?%negb_false_iff]. lia. }
    unfold dma_ok in Hd, Hn. set (d' := mkDma _ _ _ (rows d + 1) _ _ _ _).
    assert (Hdev : d_device next = d_device d + rows d * (d_device next - pd) /\ d_host next = d_host d + rows d * (d_host next - ph)) by nia.
    destruct (IH d' (d_device next) (d_host next)) as (G1 & G2 & G3); [unfold dma_ok, d'; cbn; nia|unfold last_row, d'; cbn; lia|done|].
    split; [done|]. split; [|simpl; lia]. rewrite G2. unfold d'. rewrite bytes_row by (done || lia). rewrite <- app_assoc, bind_cons. f_equal. f_equal.
    rewrite single_bytes by done. f_equal; lia.
Qed.

Lemma dma_copies_spec copies max_pitch :
  Forall desc_ok copies ->
  dma_copies copies max_pitch ≫= dma_bytes = copies ≫= desc_bytes /\
  Forall (dma_ok max_pitch) (dma_copies copies max_pitch) /\ (length (dma_copies copies max_pitch) <= length copies)%nat.
Proof.
  intros Hall. destruct (contiguous_ranges_exact max_pitch copies Hall) as (H1 & H2 & H3). unfold dma_copies.
  destruct (contiguous_ranges copies) as [|d ranges]; [by rewrite <- H2|]. apply Forall_cons in H1 as [[Hd Hd1] Hr].
  destruct (grow_rows_exact max_pitch d (d_device d) (d_host d) ranges Hd) as (G1 & G2 & G3); [unfold last_row; rewrite Hd1; lia|done|].
  split; [by rewrite <- H2, G2|]. split; [done|]. simpl in H3. lia.
Qed.

(** C37. Compiling copy descriptors to DMA copies changes nothing but their number: for bounds-checked
    descriptors the copies move exactly the same bytes, in the same order and through the same device
    allocation and host registration; every copy stays in the address space, its pitches are within the
    device's limit, and its rows do not overlap. *)
Theorem dma_copies_exact copies max_pitch :
  Forall desc_ok copies ->
  dma_copies copies max_pitch ≫= dma_bytes = copies ≫= desc_bytes /\
  Forall (dma_ok max_pitch) (dma_copies copies max_pitch) /\ (length (dma_copies copies max_pitch) <= length copies)%nat.
Proof. apply dma_copies_spec. Qed.

(** Five descriptors: two that join, two further rows at a constant pitch, and one elsewhere. *)
Definition sample_descs : list CopyDesc :=
  [mkDesc 1000 5000 9000 2 1 1; mkDesc 1002 5002 9002 2 1 1; mkDesc 1016 5008 9008 4 1 1; mkDesc 1032 5016 9016 4 1 1; mkDesc 1048 5024 9024 4 2 1].

Lemma dma_copies_exact_witness :
  dma_copies sample_descs 64 = [mkDma 1000 5000 4 3 16 8 1 1; mkDma 1048 5024 4 1 4 4 2 1] /\
  dma_copies sample_descs 64 ≫= dma_bytes = sample_descs ≫= desc_bytes.
Proof.
  split; [vm_compute; reflexivity|]. apply (dma_copies_exact sample_descs 64).
  repeat (constructor; [unfold desc_ok, u64_max; cbn; lia|]). constructor.
Defined.
