(* ===== verification/KvLayout.v ===== *)
(** * Layouts of a layer's KV cache

    orbitkv-core/src/transfer/layout.rs: the geometry of a layer is validated once, without pointers,
    and then bound to a GPU allocation.  A range is its start and its end. *)
From S2P Require Import Prelude State.

Local Open Scope Z_scope.
Local Open Scope rust_scope.

(** ** Data *)

Inductive SegmentLayout := Contiguous | Split (kv_stride_bytes : Z).
#[export] Instance SegmentLayout_eq_dec : EqDecision SegmentLayout.
Proof. solve_decision. Defined.

Record KVCacheGeometry := mkGeometry {
  extent_bytes : Z;
  num_blocks : Z;
  block_stride_bytes : Z;
  segment_bytes : Z;
  segments : Z;
  padded_segment_bytes : Z;
  seg : SegmentLayout
}.

Inductive BlockRanges := RContiguous (r : Z * Z) | RSplit (k v : Z * Z).
Record BlockCopy := mkBlockCopy { addr : Z; copy_bytes : Z }.
Inductive BlockCopies := CContiguous (c : BlockCopy) | CSplit (k v : BlockCopy).

Record KVCacheLayout := mkLayout { storage_format : StorageFormat; data_ptr : Z; geometry : KVCacheGeometry }.

(** The messages of the code; formatted numbers are arguments. *)
Inductive LayoutError :=
| ZeroDimension | ZeroAlignment | BlockSizeOverflow | ZeroKvStride
| SegmentsOverlap (kv_stride segment : Z) | SplitSegments (kv_stride segment segments : Z)
| PaddedSegmentOverflow | PaddedBlockOverflow | MemoryLayoutOverflow
| BlocksOverlap (stride bytes : Z) | KvOverlap (kv_stride distance : Z) | BlockOutOfRange (block blocks : Z)
| NullPointer | ZeroSize | AddressOverflow | MemoryTooSmall (need got : Z).

(** ** Geometry *)

(** Actual (unpadded) and padded sizes of a block. *)
Definition block_bytes (g : KVCacheGeometry) : Z := u64_mul (segment_bytes g) (segments g).
Definition padded_block_bytes (g : KVCacheGeometry) : Z := u64_mul (padded_segment_bytes g) (segments g).

(** Only the two block distances around the stride between K and V can make them meet. *)
Definition check_split_segments_disjoint (g : KVCacheGeometry) (kv_stride_bytes : Z) : result unit LayoutError :=
  let max_block_distance := u64_sub (num_blocks g) 1 in
  let nearest := kv_stride_bytes / block_stride_bytes g in
  let check distance :=
    if (distance =? 0) || (max_block_distance <? distance) then Ok tt
    else
      let? block_distance_bytes := ok_or (checked_mul distance (block_stride_bytes g)) MemoryLayoutOverflow in
      if Z.abs (kv_stride_bytes - block_distance_bytes) <? segment_bytes g
      then Err (KvOverlap kv_stride_bytes distance) else Ok tt in
  let? _ := check nearest in check (saturating_add nearest 1).

(** The end of the last block of a region, relative to the region. *)
Definition last_end (g : KVCacheGeometry) (bytes : Z) : option Z :=
  checked_mul (u64_sub (num_blocks g) 1) (block_stride_bytes g) ≫= fun o => checked_add o bytes.

Definition validate_extent (g : KVCacheGeometry) : result Z LayoutError :=
  match seg g with
  | Contiguous =>
      if block_stride_bytes g <? block_bytes g then Err (BlocksOverlap (block_stride_bytes g) (block_bytes g))
      else ok_or (last_end g (block_bytes g)) MemoryLayoutOverflow
  | Split kv_stride_bytes =>
      if block_stride_bytes g <? segment_bytes g then Err (BlocksOverlap (block_stride_bytes g) (segment_bytes g))
      else
        let? _ := check_split_segments_disjoint g kv_stride_bytes in
        let? last_segment_end := ok_or (last_end g (segment_bytes g)) MemoryLayoutOverflow in
        ok_or (checked_add kv_stride_bytes last_segment_end) MemoryLayoutOverflow
  end.

Definition segment_layout (segment_bytes kv_stride_bytes segments : Z) : result SegmentLayout LayoutError :=
  if segments =? 1 then Ok Contiguous
  else if kv_stride_bytes =? 0 then Err ZeroKvStride
  else if kv_stride_bytes <? segment_bytes then Err (SegmentsOverlap kv_stride_bytes segment_bytes)
  else if kv_stride_bytes =? segment_bytes then Ok Contiguous
  else if segments =? 2 then Ok (Split kv_stride_bytes)
  else Err (SplitSegments kv_stride_bytes segment_bytes segments).

Definition geometry_new (num_blocks segment_bytes kv_stride_bytes segments : Z) (block_stride : option Z) (host_alignment : Z)
    : result KVCacheGeometry LayoutError :=
  if (segment_bytes =? 0) || (num_blocks =? 0) || (segments =? 0) then Err ZeroDimension
  else if host_alignment =? 0 then Err ZeroAlignment
  else
    let? block_bytes := ok_or (checked_mul segment_bytes segments) BlockSizeOverflow in
    let? seg := segment_layout segment_bytes kv_stride_bytes segments in
    let? padded := ok_or (checked_next_multiple_of segment_bytes host_alignment) PaddedSegmentOverflow in
    let? _ := ok_or (checked_mul padded segments) PaddedBlockOverflow in
    let stride := match block_stride with
                  | Some s => s
                  | None => match seg with Contiguous => block_bytes | Split _ => segment_bytes end
                  end in
    let g := mkGeometry 0 num_blocks stride segment_bytes segments padded seg in
    let? extent := validate_extent g in
    Ok (mkGeometry extent num_blocks stride segment_bytes segments padded seg).

Definition block_ranges (g : KVCacheGeometry) (block_idx : Z) : result BlockRanges LayoutError :=
  if num_blocks g <=? block_idx then Err (BlockOutOfRange block_idx (num_blocks g))
  else
    let base := u64_mul block_idx (block_stride_bytes g) in
    Ok match seg g with
       | Contiguous => RContiguous (base, u64_add base (block_bytes g))
       | Split kv => RSplit (base, u64_add base (segment_bytes g))
                            (u64_add base kv, u64_add (u64_add base kv) (segment_bytes g))
       end.

(** ** Binding *)

Definition layout_bind (data_ptr size_bytes : Z) (g : KVCacheGeometry) : result KVCacheLayout LayoutError :=
  if data_ptr =? 0 then Err NullPointer
  else if size_bytes =? 0 then Err ZeroSize
  else
    let? _ := ok_or (checked_add data_ptr size_bytes) AddressOverflow in
    if size_bytes <? extent_bytes g then Err (MemoryTooSmall (extent_bytes g) size_bytes)
    else Ok (mkLayout Exact data_ptr g).

Definition block_copies (l : KVCacheLayout) (block_idx : Z) : result BlockCopies LayoutError :=
  let copy (r : Z * Z) := mkBlockCopy (u64_add (data_ptr l) r.1) (u64_sub r.2 r.1) in
  let? ranges := block_ranges (geometry l) block_idx in
  Ok match ranges with
     | RContiguous r => CContiguous (copy r)
     | RSplit k v => CSplit (copy k) (copy v)
     end.

(** ** What a geometry promises *)

Definition ranges_of (r : BlockRanges) : list (Z * Z) := match r with RContiguous r => [r] | RSplit k v => [k; v] end.
Definition copies_of (c : BlockCopies) : list BlockCopy := match c with CContiguous c => [c] | CSplit k v => [k; v] end.

(** The ranges of block [i] as unbounded integers. *)
Definition spans (g : KVCacheGeometry) (i : Z) : list (Z * Z) :=
  let base := i * block_stride_bytes g in
  match seg g with
  | Contiguous => [(base, base + segment_bytes g * segments g)]
  | Split kv => [(base, base + segment_bytes g); (base + kv, base + kv + segment_bytes g)]
  end.
Definition apart (a b : Z * Z) : Prop := a.2 <= b.1 \/ b.2 <= a.1.
(** No two ranges of the layer share a byte. *)
Definition disjoint_blocks (g : KVCacheGeometry) : Prop :=
  forall i j, 0 <= i < num_blocks g -> 0 <= j < num_blocks g ->
  forall a b ra rb, spans g i !! a = Some ra -> spans g j !! b = Some rb -> (i, a) <> (j, b) -> apart ra rb.

(** The dimensions of the layer are those of the machine, and not zero. *)
Record dims_ok (g : KVCacheGeometry) : Prop := {
  do_blocks : 0 < num_blocks g <= u64_max;
  do_segment : 0 < segment_bytes g <= u64_max;
  do_segments : 0 < segments g <= u64_max;
  do_stride : 0 <= block_stride_bytes g <= u64_max;
  do_block : segment_bytes g * segments g <= u64_max;
  do_split : forall kv, seg g = Split kv -> segments g = 2 /\ segment_bytes g < kv <= u64_max
}.

Lemma block_bytes_exact g : dims_ok g -> block_bytes g = segment_bytes g * segments g.
Proof. intros []. apply u64_mul_exact; nia. Qed.

(** *** The nearest block distances decide *)

Lemma nearest_distance stride kv w n :
  0 < w <= stride -> w < kv ->
  (forall d, 1 <= d <= n -> w <= Z.abs (kv - d * stride)) <->
  (forall d, d = kv / stride \/ d = kv / stride + 1 -> 1 <= d <= n -> w <= Z.abs (kv - d * stride)).
Proof.
  intros Hw Hkv. split; [naive_solver|]. intros Hnear d Hd.
  pose proof (Z.div_mod kv stride ltac:(lia)) as Hdm. pose proof (Z.mod_pos_bound kv stride ltac:(lia)) as Hm.
  set (q := kv / stride) in *. assert (0 <= q) by (apply Z.div_pos; lia).
  destruct (decide (d <= q)) as [Hle|Hgt].
  - destruct (decide (d = q)) as [->|]; [apply Hnear; [by left|lia]|]. assert (d * stride + stride <= q * stride) by nia. lia.
  - destruct (decide (d = q + 1)) as [->|]; [apply Hnear; [by right|lia]|]. assert ((q + 1) * stride + stride <= d * stride) by nia. lia.
Qed.

(** K and V of different blocks keep their distance. *)
Definition kv_apart (g : KVCacheGeometry) (kv : Z) : Prop :=
  forall d, 1 <= d <= num_blocks g - 1 -> segment_bytes g <= Z.abs (kv - d * block_stride_bytes g).

Lemma split_check g kv :
  dims_ok g -> seg g = Split kv -> segment_bytes g <= block_stride_bytes g ->
  (num_blocks g - 1) * block_stride_bytes g <= u64_max ->
  (check_split_segments_disjoint g kv = Ok tt <-> kv_apart g kv).
Proof.
  intros Hg Hs Hst Hlast. pose proof Hg as []. destruct (do_split0 kv Hs) as [_ Hkv].
  unfold kv_apart. rewrite (nearest_distance (block_stride_bytes g) kv) by lia.
  unfold check_split_segments_disjoint. rewrite u64_sub_exact by lia.
  set (q := kv / block_stride_bytes g). assert (Hq : 0 <= q <= kv) by (split; [apply Z.div_pos; lia|apply Z.div_le_upper_bound; nia]).
  assert (Hone : forall d, 0 <= d -> (if (d =? 0) || (num_blocks g - 1 <? d) then Ok tt else
      let? x := ok_or (checked_mul d (block_stride_bytes g)) MemoryLayoutOverflow in
      if Z.abs (kv - x) <? segment_bytes g then Err (KvOverlap kv d) else Ok tt) = Ok tt <->
    (1 <= d <= num_blocks g - 1 -> segment_bytes g <= Z.abs (kv - d * block_stride_bytes g))).
  { intros d Hd. destruct (Z.eqb_spec d 0) as [->|]; cbn [orb]; [split; [lia|done]|].
    destruct (Z.ltb_spec (num_blocks g - 1) d); [split; [lia|done]|]. unfold checked_mul.
    destruct (Z.leb_spec (d * block_stride_bytes g) u64_max); [|nia]. cbn [ok_or].
    destruct (Z.ltb_spec (Z.abs (kv - d * block_stride_bytes g)) (segment_bytes g)); split; try done; lia. }
  assert (Hsat : (1 <= saturating_add q 1 <= num_blocks g - 1 -> segment_bytes g <= Z.abs (kv - saturating_add q 1 * block_stride_bytes g)) <->
    (1 <= q + 1 <= num_blocks g - 1 -> segment_bytes g <= Z.abs (kv - (q + 1) * block_stride_bytes g))).
  { unfold saturating_add. destruct (Z.min_spec (q + 1) u64_max) as [[_ ->]|[? ->]]; [done|]. split; lia. }
  pose proof (Hone q ltac:(lia)) as H1. pose proof (Hone (saturating_add q 1) ltac:(unfold saturating_add, u64_max; lia)) as H2.
  cbv zeta beta. match goal with |- context [match ?x with Ok _ => _ | Err _ => _ end] => destruct x as [[]|e] eqn:E1 end.
  - rewrite H2, Hsat. split; [intros ? d [-> | ->] ?; naive_solver|naive_solver].
  - split; [done|]. intros Hd. assert (Err e = Ok tt :> result unit LayoutError); [|done]. apply H1. intros ?. apply Hd; [by left|done].
Qed.

(** The bytes that a block takes in each region of the layer. *)
Definition unit_bytes (g : KVCacheGeometry) : Z := match seg g with Contiguous => segment_bytes g * segments g | Split _ => segment_bytes g end.

(** Spaced blocks are disjoint exactly when K never meets V. *)
Lemma disjoint_iff g :
  dims_ok g -> unit_bytes g <= block_stride_bytes g ->
  (disjoint_blocks g <-> match seg g with Contiguous => True | Split kv => kv_apart g kv end).
Proof.
  intros Hg Hst. pose proof Hg as []. unfold unit_bytes in Hst. unfold disjoint_blocks, spans. destruct (seg g) as [|kv] eqn:Es.
  - split; [done|]. intros _ i j Hi Hj a b ra rb [-> <-]%list_lookup_singleton_Some [-> <-]%list_lookup_singleton_Some Hne.
    unfold apart. cbn. assert (i <> j) by congruence. destruct (Z.lt_total i j) as [|[|]]; [left|done|right]; nia.
  - destruct (do_split0 kv eq_refl) as [_ Hkv]. split.
    + intros Hd d Hdn. specialize (Hd d 0 ltac:(lia) ltac:(lia) 0%nat 1%nat _ _ eq_refl eq_refl ltac:(congruence)). unfold apart in Hd. cbn in Hd. lia.
    + intros Hap. assert (Hkv2 : forall i j, 0 <= i < num_blocks g -> 0 <= j < num_blocks g ->
        apart (i * block_stride_bytes g, i * block_stride_bytes g + segment_bytes g)
              (j * block_stride_bytes g + kv, j * block_stride_bytes g + kv + segment_bytes g)).
      { intros i j Hi Hj. unfold apart. cbn. destruct (decide (i <= j)); [left; nia|]. specialize (Hap (i - j) ltac:(lia)). lia. }
      assert (Hsame : forall i j c, i <> j -> apart (i * block_stride_bytes g + c, i * block_stride_bytes g + c + segment_bytes g)
        (j * block_stride_bytes g + c, j * block_stride_bytes g + c + segment_bytes g)).
      { intros i j c Hne. unfold apart. cbn. destruct (Z.lt_total i j) as [|[|]]; [left|done|right]; nia. }
      intros i j Hi Hj a b ra rb Ha Hb Hne. destruct a as [|[|a]], b as [|[|b]]; try discriminate; injection Ha as <-; injection Hb as <-.
      * specialize (Hsame i j 0 ltac:(congruence)). unfold apart in *. cbn in *. lia.
      * by apply Hkv2.
      * destruct (Hkv2 j i Hj Hi); [by right|by left].
      * apply Hsame. congruence.
Qed.

(** ** Validation is exact *)

(** What [geometry_new] asks of its arguments. *)
Record acceptable (g : KVCacheGeometry) (host_alignment : Z) : Prop := {
  ac_alignment : host_alignment <> 0;
  ac_padded : checked_next_multiple_of (segment_bytes g) host_alignment = Some (padded_segment_bytes g);
  ac_padded_block : padded_segment_bytes g * segments g <= u64_max;
  ac_stride : unit_bytes g <= block_stride_bytes g;
  ac_disjoint : disjoint_blocks g;
  ac_extent : extent_bytes g = (num_blocks g - 1) * block_stride_bytes g + unit_bytes g + match seg g with Contiguous => 0 | Split kv => kv end;
  ac_room : extent_bytes g <= u64_max
}.

Lemma last_end_eq g bytes :
  dims_ok g -> 0 <= bytes ->
  last_end g bytes = checked_add ((num_blocks g - 1) * block_stride_bytes g) bytes.
Proof.
  intros [] Hb. unfold last_end. rewrite u64_sub_exact by lia. unfold checked_mul, checked_add.
  destruct (Z.leb_spec ((num_blocks g - 1) * block_stride_bytes g) u64_max); cbn; [done|].
  destruct (Z.leb_spec ((num_blocks g - 1) * block_stride_bytes g + bytes) u64_max); [lia|done].
Qed.

Lemma validate_extent_Ok g e :
  dims_ok g ->
  validate_extent g = Ok e <->
  unit_bytes g <= block_stride_bytes g /\ disjoint_blocks g /\
  e = (num_blocks g - 1) * block_stride_bytes g + unit_bytes g + match seg g with Contiguous => 0 | Split kv => kv end /\ e <= u64_max.
Proof.
  intros Hg. pose proof Hg as []. unfold validate_extent. pose proof (disjoint_iff g Hg) as Hdis. pose proof (split_check g) as Hsc.
  rewrite !last_end_eq by (done || (rewrite ?block_bytes_exact by done; nia)). unfold unit_bytes in *.
  set (last := (num_blocks g - 1) * block_stride_bytes g) in *. assert (0 <= last) by (unfold last; nia).
  destruct (seg g) as [|kv] eqn:Es.
  - rewrite block_bytes_exact by done. destruct (Z.ltb_spec (block_stride_bytes g) (segment_bytes g * segments g)); [split; [done|lia]|].
    unfold checked_add. destruct (Z.leb_spec (last + segment_bytes g * segments g) u64_max); cbn; split; try done.
    + intros [= <-]. split_and!; [done|by apply Hdis|lia|lia].
    + intros (_ & _ & -> & _). f_equal. lia.
    + lia.
  - destruct (do_split0 kv eq_refl) as [_ Hkv].
    destruct (Z.ltb_spec (block_stride_bytes g) (segment_bytes g)); [split; [done|lia]|]. specialize (Hdis ltac:(done)).
    destruct (decide (last <= u64_max)) as [Hl|Hl].
    + specialize (Hsc kv Hg eq_refl ltac:(done) Hl). destruct (check_split_segments_disjoint g kv) as [[]|err].
      * unfold checked_add. destruct (Z.leb_spec (last + segment_bytes g) u64_max); cbn.
        -- destruct (Z.leb_spec (kv + (last + segment_bytes g)) u64_max); cbn; split; try done.
           ++ intros [= <-]. split_and!; [done|by apply Hdis, Hsc|lia|lia].
           ++ intros (_ & _ & -> & _). f_equal. lia.
           ++ lia.
        -- split; [done|lia].
      * split; [done|]. intros (_ & Hd & _). apply Hdis, Hsc in Hd. done.
    + split; [|lia]. destruct (check_split_segments_disjoint g kv); [|done]. unfold checked_add.
      destruct (Z.leb_spec (last + segment_bytes g) u64_max); [lia|done].
Qed.

(** The arguments of [geometry_new], as a geometry. *)
Definition requested (nb sb kv sg : Z) (stride : option Z) (g : KVCacheGeometry) : Prop :=
  num_blocks g = nb /\ segment_bytes g = sb /\ segments g = sg /\ segment_layout sb kv sg = Ok (seg g) /\ block_stride_bytes g = default (unit_bytes g) stride.

Lemma segment_layout_split sb kv sg kv' : segment_layout sb kv sg = Ok (Split kv') -> kv' = kv /\ sg = 2 /\ sb < kv.
Proof.
  unfold segment_layout. destruct (Z.eqb_spec sg 1); [done|]. destruct (Z.eqb_spec kv 0); [done|]. destruct (Z.ltb_spec kv sb); [done|].
  destruct (Z.eqb_spec kv sb); [done|]. destruct (Z.eqb_spec sg 2); [|done]. intros [= <-]. lia.
Qed.

Lemma geometry_new_Ok nb sb kv sg stride al g :
  is_u64 nb -> is_u64 sb -> is_u64 kv -> is_u64 sg -> (forall s, stride = Some s -> is_u64 s) -> is_u64 al ->
  geometry_new nb sb kv sg stride al = Ok g <-> requested nb sb kv sg stride g /\ dims_ok g /\ acceptable g al.
Proof.
  intros Hnb Hsb Hkv Hsg Hstr Hal. unfold is_u64 in *. unfold geometry_new.
  destruct (_ || _) eqn:Ez.
  { split; [done|]. intros ((H1 & H2 & H3 & _) & [] & _). rewrite !orb_true_iff, !Z.eqb_eq in Ez. lia. }
  rewrite !orb_false_iff, !Z.eqb_neq in Ez. destruct Ez as [[Hsb0 Hnb0] Hsg0].
  destruct (Z.eqb_spec al 0) as [|Hal0]; [split; [done|]; by intros (_ & _ & [])|].
  unfold checked_mul at 1. destruct (Z.leb_spec (sb * sg) u64_max) as [Hbb|]; cbn [ok_or];
    [|split; [done|]; intros ((H1 & H2 & H3 & _) & [] & _); subst; lia].
  destruct (segment_layout sb kv sg) as [lay|err] eqn:Elay; [|split; [done|]; intros ((_ & _ & _ & H4 & _) & _); congruence].
  destruct (checked_next_multiple_of sb al) as [pad|] eqn:Epad; cbn [ok_or];
    [|split; [done|]; intros ((_ & H2 & _) & _ & []); congruence].
  unfold checked_mul. destruct (Z.leb_spec (pad * sg) u64_max) as [Hpb|]; cbn [ok_or];
    [|split; [done|]; intros ((_ & H2 & H3 & _) & _ & []); assert (padded_segment_bytes g = pad) by congruence; subst; lia].
  set (st := match stride with Some s => s | None => _ end).
  assert (Hst : forall g0, segment_bytes g0 = sb -> segments g0 = sg -> seg g0 = lay -> st = default (unit_bytes g0) stride).
  { intros g0 H1 H2 H3. unfold st, unit_bytes. rewrite H1, H2, H3. by destruct stride. }
  assert (Hdims : forall e, dims_ok (mkGeometry e nb st sb sg pad lay)).
  { intros e. split; cbn; try lia.
    - unfold st. destruct stride as [s|]; [by apply Hstr|]. destruct lay; nia.
    - intros kv' ->. apply segment_layout_split in Elay as (-> & -> & ?). lia. }
  destruct (validate_extent _) as [e|err] eqn:Ev.
  - apply validate_extent_Ok in Ev as (Hu & Hd & He & Hroom); [|apply Hdims]. cbn [num_blocks block_stride_bytes seg] in *.
    split.
    + intros [= <-]. split_and!; [split_and!; cbn; try done; by apply Hst|apply Hdims|]. by constructor.
    + intros ((H1 & H2 & H3 & H4 & H5) & _ & []). destruct g as [e' nb' st' sb' sg' pad' lay']. cbn in *. subst nb' sb' sg'. assert (lay' = lay) as -> by congruence.
      assert (st' = st) as -> by (rewrite H5; symmetry; by apply Hst). assert (pad' = pad) as -> by congruence. do 2 f_equal. rewrite ac_extent0, He. done.
  - split; [done|]. intros ((H1 & H2 & H3 & H4 & H5) & _ & []). destruct g as [e' nb' st' sb' sg' pad' lay']. cbn in *. subst nb' sb' sg'. assert (lay' = lay) as -> by congruence.
    assert (st' = st) as -> by (rewrite H5; symmetry; by apply Hst). assert (pad' = pad) as -> by congruence.
    assert (Ev' : validate_extent (mkGeometry 0 nb st sb sg pad lay) = Ok e'); [|congruence]. by apply validate_extent_Ok.
Qed.

(** ** Addresses *)

Lemma spans_inside g al i r :
  dims_ok g -> acceptable g al -> 0 <= i < num_blocks g -> r ∈ spans g i -> 0 <= r.1 < r.2 /\ r.2 <= extent_bytes g.
Proof.
  intros [] [] Hi. assert (i * block_stride_bytes g <= (num_blocks g - 1) * block_stride_bytes g) by nia.
  assert (0 <= i * block_stride_bytes g) by nia. unfold spans, unit_bytes in *. destruct (seg g) as [|kv] eqn:Es.
  - intros ->%list_elem_of_singleton. cbn. nia.
  - destruct (do_split0 kv eq_refl). intros [->|[->|[]%elem_of_nil]%elem_of_cons]%elem_of_cons; cbn; lia.
Qed.

(** The machine arithmetic of [block_ranges] is exact. *)
Lemma block_ranges_exact g al i :
  dims_ok g -> acceptable g al -> 0 <= i < num_blocks g -> exists r, block_ranges g i = Ok r /\ ranges_of r = spans g i.
Proof.
  intros Hg Ha Hi. unfold block_ranges. destruct (Z.leb_spec (num_blocks g) i); [lia|]. eexists. split; [done|].
  pose proof (fun r => spans_inside g al i r Hg Ha Hi) as Hin. pose proof (block_bytes_exact g Hg) as Hbb. pose proof Hg as []. destruct Ha.
  assert (0 <= i * block_stride_bytes g) by nia. unfold spans in *. destruct (seg g) as [|kv] eqn:Es; cbn.
  - destruct (Hin _ ltac:(left)) as [G1 G2]. cbn in *. rewrite Hbb, !u64_mul_exact by nia. rewrite u64_add_exact by nia. done.
  - destruct (do_split0 kv eq_refl). destruct (Hin _ ltac:(left)) as [G1 G2]. destruct (Hin _ ltac:(right; left)) as [G3 G4]. cbn in *.
    rewrite !u64_mul_exact by lia. rewrite !u64_add_exact by lia. done.
Qed.

(** ** The affine formula *)

(** What the caller of [geometry_new] asks for, without the shapes of the code: segment [s] of block [i] is the range of [sb] bytes at
    [i * stride + s * kv]. *)
Section Affine.
Context (nb sb kv sg : Z) (stride : option Z) (al : Z).

Definition segment_span (st i s : Z) : Z * Z := (i * st + s * kv, i * st + s * kv + sb).
(** The segments of a block follow each other without a gap. *)
Definition adjacent : bool := (sg =? 1) || (kv =? sb).
Definition row_bytes : Z := if adjacent then sb * sg else sb.
Definition block_step : Z := default row_bytes stride.

(** The request is one the cache supports: sizes that are not zero and representable, with their padding; segments that are adjacent, or a
    pair that is further apart; blocks that are spaced; no byte in two segments; all offsets representable. *)
Record supported : Prop := {
  su_dims : 0 < nb /\ 0 < sb /\ 0 < sg /\ 0 < al;
  su_shape : adjacent = true \/ sg = 2 /\ sb < kv;
  su_padded : exists p, sb <= p < sb + al /\ (al | p) /\ p * sg <= u64_max;
  su_spaced : row_bytes <= block_step;
  su_disjoint : forall i s j t, 0 <= i < nb -> 0 <= j < nb -> 0 <= s < sg -> 0 <= t < sg -> (i, s) <> (j, t) ->
    apart (segment_span block_step i s) (segment_span block_step j t);
  su_room : (segment_span block_step (nb - 1) (sg - 1)).2 <= u64_max
}.

(** The bytes of the copies, in order, and the bytes of the segments of a block. *)
Definition copy_addresses (cs : list BlockCopy) : list Z := cs ≫= fun c => seqZ (addr c) (copy_bytes c).
Definition block_addresses (ptr i : Z) : list Z :=
  seqZ 0 sg ≫= fun s => seqZ (ptr + (segment_span block_step i s).1) sb.
End Affine.

(** *** The code's shapes and the formula *)

Lemma segment_layout_Ok sb kv sg lay :
  0 < sb -> 0 < sg -> segment_layout sb kv sg = Ok lay <-> (adjacent sb kv sg = true \/ sg = 2 /\ sb < kv) /\ lay = if adjacent sb kv sg then Contiguous else Split kv.
Proof.
  intros Hsb Hsg. unfold segment_layout, adjacent. destruct (Z.eqb_spec sg 1) as [->|]; cbn [orb]; [split; [intros [= <-]; by split; [left|]|by intros [_ ->]]|].
  destruct (Z.eqb_spec kv sb) as [->|].
  - rewrite (proj2 (Z.eqb_neq sb 0)), Z.ltb_irrefl by lia. split; [intros [= <-]; by split; [left|]|by intros [_ ->]].
  - destruct (Z.eqb_spec kv 0); [split; [done|]; intros [[?|?] _]; [done|lia]|]. destruct (Z.ltb_spec kv sb); [split; [done|]; intros [[?|?] _]; [done|lia]|].
    destruct (Z.eqb_spec sg 2); [split; [intros [= <-]; split; [right; lia|done]|by intros [_ ->]]|]. split; [done|]. intros [[?|?] _]; [done|lia].
Qed.

Lemma requested_affine nb sb kv sg stride g :
  0 < sb -> 0 < sg ->
  requested nb sb kv sg stride g <-> num_blocks g = nb /\ segment_bytes g = sb /\ segments g = sg /\ (adjacent sb kv sg = true \/ sg = 2 /\ sb < kv) /\
    seg g = (if adjacent sb kv sg then Contiguous else Split kv) /\ unit_bytes g = row_bytes sb kv sg /\ block_stride_bytes g = block_step sb kv sg stride.
Proof.
  intros Hsb Hsg. unfold requested, block_step. rewrite segment_layout_Ok by done. unfold unit_bytes, row_bytes. split.
  - intros (<- & <- & <- & [Hs He] & Hb). rewrite He in *. split_and!; try done; [by destruct (adjacent _ _ _)|]. rewrite Hb. by destruct (adjacent _ _ _).
  - intros (<- & <- & <- & Hs & He & Hu & Hb). split_and!; try done. by rewrite Hb, <- Hu.
Qed.

Lemma disjoint_affine nb sb kv sg stride g :
  requested nb sb kv sg stride g -> dims_ok g -> row_bytes sb kv sg <= block_step sb kv sg stride ->
  disjoint_blocks g <-> forall i s j t, 0 <= i < nb -> 0 <= j < nb -> 0 <= s < sg -> 0 <= t < sg -> (i, s) <> (j, t) ->
    apart (segment_span sb kv (block_step sb kv sg stride) i s) (segment_span sb kv (block_step sb kv sg stride) j t).
Proof.
  intros Hr Hd Hsp. pose proof Hd as []. pose proof Hr as (_ & Hsb' & Hsg' & _). apply requested_affine in Hr as (<- & _ & _ & Hs & He & Hu & Hb); [|lia..].
  subst sb sg. rewrite <- Hb, <- Hu in *. destruct (adjacent _ _ _) eqn:Ea.
  - rewrite disjoint_iff, He by done. split; [|done]. intros _ i s j t Hi Hj Hs' Ht Hne. unfold unit_bytes in Hsp. rewrite He in Hsp. unfold apart, segment_span. cbn.
    assert (segments g = 1 \/ kv = segment_bytes g) as Hadj by (unfold adjacent in Ea; apply orb_true_iff in Ea; rewrite !Z.eqb_eq in Ea; done).
    assert (forall u, 0 <= u < segments g -> 0 <= u * kv /\ u * kv + segment_bytes g <= segment_bytes g * segments g) as Hin by (intros u Hu'; destruct Hadj as [H1| ->]; [assert (u = 0) as -> by lia; lia|nia]).
    pose proof (Hin s Hs'). pose proof (Hin t Ht). destruct (Z.lt_total i j) as [|[->|]]; [left; nia| |right; nia]. assert (s <> t) by congruence.
    destruct Hadj as [|Hkv]; [lia|]. destruct (Z.lt_total s t) as [|[|]]; [left; nia|done|right; nia].
  - destruct Hs as [?|[H2 Hkv]]; [done|]. unfold disjoint_blocks, spans. rewrite He. split.
    + intros Hdis i s j t Hi Hj Hs Ht Hne. assert (forall u k, 0 <= u < segments g -> [(k * block_stride_bytes g, k * block_stride_bytes g + segment_bytes g);
          (k * block_stride_bytes g + kv, k * block_stride_bytes g + kv + segment_bytes g)] !! Z.to_nat u = Some (segment_span (segment_bytes g) kv (block_stride_bytes g) k u)) as Hl.
      { intros u k Hu'. assert (u = 0 \/ u = 1) as [-> | ->] by lia; unfold segment_span; rewrite ?Z.mul_0_l, ?Z.mul_1_l, ?Z.add_0_r; reflexivity. }
      apply (Hdis i j Hi Hj (Z.to_nat s) (Z.to_nat t)); [by apply Hl..|]. intros [= -> ?]. apply Hne. f_equal. lia.
    + intros Haf i j Hi Hj p q rp rq Hp Hq Hne. assert ((i, Z.of_nat p) <> (j, Z.of_nat q)) as Hne' by (intros [= -> ->%Nat2Z.inj]; congruence).
      specialize (Haf i (Z.of_nat p) j (Z.of_nat q) Hi Hj). unfold segment_span, apart in *.
      destruct p as [|[|p]], q as [|[|q]]; try discriminate; injection Hp as <-; injection Hq as <-; cbn in *; specialize (Haf ltac:(lia) ltac:(lia) Hne'); lia.
Qed.


(** The least multiple, and the only one that near. *)
Lemma padded_least sb al pad : 0 < al -> 0 <= sb -> sb <= pad < sb + al -> (al | pad) -> pad = next_multiple_of sb al.
Proof. intros Hal Hsb Hp [k ->]. unfold next_multiple_of. pose proof (div_ceil_bounds sb al Hal Hsb). f_equal. nia. Qed.
Lemma checked_padded sb al pad : 0 < al -> 0 <= sb -> checked_next_multiple_of sb al = Some pad <-> (sb <= pad < sb + al /\ (al | pad)) /\ pad <= u64_max.
Proof.
  intros Hal Hsb. unfold checked_next_multiple_of. rewrite (proj2 (Z.eqb_neq al 0)) by lia. pose proof (div_ceil_bounds sb al Hal Hsb) as Hb. fold (next_multiple_of sb al) in Hb.
  destruct (Z.leb_spec (next_multiple_of sb al) u64_max) as [Hle|Hgt]; split.
  - intros [= <-]. split_and!; [lia..|by eexists|done].
  - intros [[H1 H2] _]. f_equal. symmetry. by apply padded_least.
  - done.
  - intros [[H1 H2] H3]. rewrite (padded_least sb al pad) in H3 by done. lia.
Qed.

Lemma seqZ_rows b w n : 0 <= w -> 0 <= n -> seqZ b (w * n) = seqZ 0 n ≫= fun s => seqZ (b + s * w) w.
Proof.
  intros Hw Hn. revert b. pattern n. apply natlike_ind; [|intros m Hm IH|done]; intros b; [by rewrite Z.mul_0_r|].
  replace (Z.succ m) with (m + 1) by lia. rewrite (seqZ_app 0 m 1), bind_app by lia. replace (w * (m + 1)) with (w * m + w) by lia. rewrite seqZ_app by nia. rewrite <- IH. f_equal.
  change (seqZ (0 + m) 1) with [Z.of_nat 0 + (0 + m)]. cbn [mbind list_bind]. rewrite app_nil_r. f_equal. lia.
Qed.

Lemma supported_iff nb sb kv sg stride al :
  is_u64 nb -> is_u64 sb -> is_u64 kv -> is_u64 sg -> (forall s, stride = Some s -> is_u64 s) -> is_u64 al ->
  (exists g, geometry_new nb sb kv sg stride al = Ok g) <-> supported nb sb kv sg stride al.
Proof.
  intros Hnb Hsb Hkv Hsg Hstr Hal. setoid_rewrite geometry_new_Ok; [|done..]. unfold is_u64 in *. split.
  - intros (g & Hr & Hd & Ha). pose proof (disjoint_affine nb sb kv sg stride g Hr Hd) as Hdis. pose proof Hd as []. pose proof Ha as []. 
    assert (0 < nb /\ 0 < sb /\ 0 < sg) as (? & ? & ?) by (destruct Hr as (<- & <- & <- & _); lia).
    apply requested_affine in Hr as (Hn & Hs & Hg & Hsh & He & Hu & Hb); [|done..]. rewrite Hs in *. rewrite Hu, Hb in *. apply checked_padded in ac_padded0; [|lia..]. 
    split; [lia|done|exists (padded_segment_bytes g); rewrite <- Hg; naive_solver|done|by apply Hdis|].
    unfold segment_span. cbn. rewrite ac_extent0, Hn, He in ac_room0. unfold row_bytes in ac_room0. destruct (adjacent sb kv sg) eqn:Ea; [|lia].
    unfold adjacent in Ea. apply orb_true_iff in Ea. rewrite !Z.eqb_eq in Ea. destruct Ea as [-> | ->]; lia.
  - intros [(H1 & H2 & H3 & H4) Hsh (pad & Hp & Hdiv & Hpb) Hsp Hdis Hroom].
    set (g := mkGeometry (segment_span sb kv (block_step sb kv sg stride) (nb - 1) (sg - 1)).2 nb (block_step sb kv sg stride) sb sg pad (if adjacent sb kv sg then Contiguous else Split kv)).
    assert (requested nb sb kv sg stride g) as Hr by (apply requested_affine; [done..|]; unfold g, unit_bytes, row_bytes; cbn; by destruct (adjacent sb kv sg)).
    assert (sb * sg <= pad * sg) by nia. 
    assert (dims_ok g) as Hd.
    { split; cbn; try lia.
      - unfold block_step, row_bytes. destruct stride as [st|]; [by apply Hstr|]. cbn. destruct (adjacent sb kv sg); nia.
      - destruct (adjacent sb kv sg); [done|]. intros ? [= <-]. destruct Hsh; [done|lia]. }
    exists g. split; [done|]. split; [done|]. apply (disjoint_affine nb sb kv sg stride g Hr Hd Hsp) in Hdis.
    apply requested_affine in Hr as (_ & _ & _ & _ & He & Hu & _); [|done..]. split; cbn; try done; [lia|by apply checked_padded; [lia..|]; split; [done|nia]|by rewrite Hu|].
    rewrite Hu. unfold row_bytes. destruct (adjacent sb kv sg) eqn:Ea; [|destruct Hsh as [?|[-> _]]; [done|lia]].
    unfold adjacent in Ea. apply orb_true_iff in Ea. rewrite !Z.eqb_eq in Ea. destruct Ea as [-> | ->]; lia.
Qed.

(** The extent is the end of the last segment of the last block, and no segment ends later. *)
Lemma extent_affine nb sb kv sg stride g al :
  requested nb sb kv sg stride g -> dims_ok g -> acceptable g al -> is_u64 kv ->
  extent_bytes g = (segment_span sb kv (block_step sb kv sg stride) (nb - 1) (sg - 1)).2 /\
  forall i s, 0 <= i < nb -> 0 <= s < sg -> (segment_span sb kv (block_step sb kv sg stride) i s).2 <= extent_bytes g.
Proof.
  intros Hr [] [] Hkv. unfold is_u64 in Hkv. pose proof Hr as (Hn & Hs & Hg & _). apply requested_affine in Hr as (_ & _ & _ & Hsh & He & Hu & Hb); [|lia..].
  assert (extent_bytes g = (segment_span sb kv (block_step sb kv sg stride) (nb - 1) (sg - 1)).2) as Heq.
  { unfold segment_span. cbn. rewrite ac_extent0, Hu, He, Hb, Hn. unfold row_bytes. destruct (adjacent sb kv sg) eqn:Ea; [|destruct Hsh as [?|[-> _]]; [done|lia]].
    unfold adjacent in Ea. apply orb_true_iff in Ea. rewrite !Z.eqb_eq in Ea. destruct Ea as [-> | ->]; lia. }
  split; [done|]. intros i s Hi Hs'. rewrite Heq. unfold segment_span. cbn. rewrite <- Hb. nia.
Qed.

(** The copies of a block are the bytes of its segments, in order. *)
Lemma copies_affine nb sb kv sg stride al g ptr i :
  requested nb sb kv sg stride g -> dims_ok g -> acceptable g al -> 0 <= i < nb -> 0 <= ptr -> ptr + extent_bytes g <= u64_max ->
  exists c, block_copies (mkLayout Exact ptr g) i = Ok c /\ copy_addresses (copies_of c) = block_addresses sb kv sg stride ptr i.
Proof.
  intros Hr Hd Ha Hi Hp Hroom. pose proof Hr as (Hn & Hs & Hg & _). destruct (block_ranges_exact g al i Hd Ha ltac:(lia)) as (r & Er & Hsp).
  unfold block_copies. cbn [geometry data_ptr]. rewrite Er. eexists. split; [done|].
  assert (forall x, x ∈ ranges_of r -> u64_add ptr x.1 = ptr + x.1 /\ u64_sub x.2 x.1 = x.2 - x.1) as Hcopy.
  { intros x Hx. rewrite Hsp in Hx. destruct (spans_inside g al i x Hd Ha ltac:(lia) Hx). rewrite u64_add_exact, u64_sub_exact by lia. lia. }
  assert (copy_addresses (copies_of match r with RContiguous r => CContiguous (mkBlockCopy (u64_add ptr r.1) (u64_sub r.2 r.1))
      | RSplit k v => CSplit (mkBlockCopy (u64_add ptr k.1) (u64_sub k.2 k.1)) (mkBlockCopy (u64_add ptr v.1) (u64_sub v.2 v.1)) end)
    = spans g i ≫= fun x => seqZ (ptr + x.1) (x.2 - x.1)) as ->.
  { rewrite <- Hsp. unfold copy_addresses. destruct r as [x|x y]; cbn [copies_of ranges_of mbind list_bind addr copy_bytes] in *.
    - destruct (Hcopy x ltac:(left)) as [-> ->]. done.
    - destruct (Hcopy x ltac:(left)) as [-> ->], (Hcopy y ltac:(right; left)) as [-> ->]. done. }
  pose proof Hd as []. apply requested_affine in Hr as (_ & _ & _ & Hsh & He & Hu & Hb); [|lia..]. unfold spans, block_addresses, segment_span. rewrite He, Hb, Hs, Hg. cbn [fst].
  set (base := i * block_step sb kv sg stride). destruct (adjacent sb kv sg) eqn:Ea; cbn [mbind list_bind fst snd]; rewrite app_nil_r.
  - replace (base + sb * sg - base) with (sb * sg) by lia. unfold adjacent in Ea. apply orb_true_iff in Ea. rewrite !Z.eqb_eq in Ea. destruct Ea as [H1|H1].
    + rewrite H1. change (seqZ 0 1) with [0]. cbn [mbind list_bind]. rewrite app_nil_r. f_equal; lia.
    + rewrite seqZ_rows by lia. apply list_bind_ext; [|done]. intros s. f_equal. rewrite H1. lia.
  - destruct Hsh as [?|[-> _]]; [done|]. change (seqZ 0 2) with [0; 1]. cbn [mbind list_bind]. rewrite app_nil_r. f_equal; f_equal; lia.
Qed.

(** C33. Validation of a layer's layout is exact, against the one formula that addresses it: segment [s] of block [i] is at
    [i * stride + s * kv_stride].  A geometry is accepted exactly when the request is supported: sizes that are not zero and, padded,
    representable; segments that are adjacent or a pair further apart; spaced blocks; no byte that lies in two segments; all offsets
    representable.  The padded size is the least multiple of the alignment.  The geometry binds exactly to the allocations that have an address
    range and hold every segment, and then the copies of a block are the bytes of its segments, in order and without wrap-around; a block past the
    last is refused. *)
Theorem kv_layout_exact nb sb kv sg stride al :
  is_u64 nb -> is_u64 sb -> is_u64 kv -> is_u64 sg -> (forall s, stride = Some s -> is_u64 s) -> is_u64 al ->
  ((exists g, geometry_new nb sb kv sg stride al = Ok g) <-> supported nb sb kv sg stride al) /\
  forall g, geometry_new nb sb kv sg stride al = Ok g ->
  (block_bytes g = sb * sg /\ padded_block_bytes g = padded_segment_bytes g * sg /\ sb <= padded_segment_bytes g < sb + al /\ (al | padded_segment_bytes g)) /\
  forall ptr size, is_u64 ptr -> is_u64 size ->
  ((exists l, layout_bind ptr size g = Ok l) <->
     0 < ptr /\ 0 < size /\ ptr + size <= u64_max /\ forall i s, 0 <= i < nb -> 0 <= s < sg -> (segment_span sb kv (block_step sb kv sg stride) i s).2 <= size) /\
  forall l, layout_bind ptr size g = Ok l ->
    (forall i, 0 <= i < nb -> exists c, block_copies l i = Ok c /\ copy_addresses (copies_of c) = block_addresses sb kv sg stride ptr i) /\
    (forall i, nb <= i -> block_copies l i = Err (BlockOutOfRange i nb)).
Proof.
  intros Hnb Hsb Hkv Hsg Hstr Hal. split; [by apply supported_iff|]. intros g Hg. apply geometry_new_Ok in Hg as (Hr & Hd & Ha); [|done..].
  pose proof (extent_affine nb sb kv sg stride g al Hr Hd Ha Hkv) as [Hext Hends]. pose proof Hr as (Hn & Hs & Hsg' & _). pose proof Hd as []. pose proof Ha as []. unfold is_u64 in *.
  apply checked_padded in ac_padded0 as [[Hp1 Hp2] Hp3]; [|lia..]. split.
  { rewrite block_bytes_exact by done. unfold padded_block_bytes. rewrite u64_mul_exact by nia. rewrite Hs, Hsg' in *. done. }
  intros ptr size Hptr Hsize. unfold layout_bind, checked_add. destruct (Z.eqb_spec ptr 0); [split; [split; [by intros [? ?]|lia]|done]|].
  destruct (Z.eqb_spec size 0); [split; [split; [by intros [? ?]|lia]|done]|]. destruct (Z.leb_spec (ptr + size) u64_max); cbn [ok_or]; [|split; [split; [by intros [? ?]|lia]|done]].
  destruct (Z.ltb_spec size (extent_bytes g)) as [Hlt|Hge].
  { split; [split; [by intros [? ?]|]|done]. intros (_ & _ & _ & Hall). specialize (Hall (nb - 1) (sg - 1) ltac:(lia) ltac:(lia)). lia. }
  split; [split; [|by eexists]; intros _; split_and!; [lia..|]; intros i s Hi Hs'; specialize (Hends i s Hi Hs'); lia|].
  intros l [= <-]. split; [intros i Hi; apply (copies_affine nb sb kv sg stride al); (done || lia)|].
  intros i Hi. unfold block_copies, block_ranges. cbn [geometry]. rewrite Hn, (proj2 (Z.leb_le nb i)) by lia. done.
Qed.

Lemma kv_layout_exact_witness :
  supported 4 16 100 2 None 8 /\
  exists g l, geometry_new 4 16 100 2 None 8 = Ok g /\ layout_bind 4096 200 g = Ok l /\
  exists c, block_copies l 3 = Ok c /\ copy_addresses (copies_of c) = seqZ 4144 16 ++ seqZ 4244 16.
Proof.
  destruct (kv_layout_exact 4 16 100 2 None 8 ltac:(done) ltac:(done) ltac:(done) ltac:(done) ltac:(done) ltac:(done)) as [Hs Hg].
  split; [apply Hs; eexists; vm_compute; reflexivity|]. eexists _, _. split; [vm_compute; reflexivity|]. split; [vm_compute; reflexivity|].
  destruct (Hg _ ltac:(vm_compute; reflexivity)) as [_ Hb]. destruct (Hb 4096 200 ltac:(done) ltac:(done)) as [_ Hl]. destruct (Hl _ ltac:(vm_compute; reflexivity)) as [Hi _].
  destruct (Hi 3 ltac:(lia)) as (c & Hc & Ha). exists c. split; [exact Hc|]. exact Ha.
Defined.
