(* ===== verification/RestorePlan.v ===== *)
(** * Restore plans on the wire

    orbitkv-core/src/transfer/local.rs: the Manager cuts the copies of a restore into parts that fit the
    plan bank of a grant, and the engine decodes the part it has claimed. *)
From S2P Require Import Prelude Containers Words Wire.

Local Open Scope Z_scope.
Local Open Scope rust_scope.

Definition MAX_PLAN_BYTES : Z := 1024 * 1024.
Definition MAX_RESTORE_PLAN_BYTES : Z := 32 * MAX_PLAN_BYTES.

Record SourceRange := mkSource {
  arena_id : Z; allocation_id : Z; allocation_offset : Z; allocation_size : Z; offset : Z; size : Z
}.
Record RawCopy := mkCopy { source : SourceRange; layer : bytes; destination_offset : Z }.
Record RawRestorePart := mkPart { copies : list RawCopy; completed_layers : list bytes }.

(** ** Encoding *)

(** The position of the last copy of each layer. *)
Fixpoint last_copies (index : nat) (cs : list RawCopy) (m : gmap bytes nat) : gmap bytes nat :=
  match cs with [] => m | c :: cs => last_copies (S index) cs (<[layer c := index]> m) end.

Definition copy_words (c : RawCopy) : list Z :=
  [arena_id (source c); allocation_id (source c); allocation_offset (source c); allocation_size (source c);
   offset (source c); size (source c); destination_offset c].
Definition record (c : RawCopy) (last : bool) : bytes :=
  concat (u64_le <$> copy_words c) ++ u16_le (zlen (layer c)) ++ layer c ++ [if last then Byte.x01 else Byte.x00].
(** A part: version, count, records. *)
Definition seal_part (count : Z) (body : bytes) : bytes := u32_le 2 ++ u32_le count ++ body.

Fixpoint encode_loop (last : gmap bytes nat) (index : nat) (cs : list RawCopy) (body : bytes) (count total : Z)
    : result (list bytes) string :=
  match cs with
  | [] => Ok [seal_part count body]
  | c :: cs =>
      let name_len := zlen (layer c) in
      if (name_len =? 0) || (65535 <? name_len) then Err "invalid Restore layer name length"%string
      else
        let size := 59 + name_len in
        let '(sealed, body, count, total) :=
          if MAX_PLAN_BYTES <? 8 + zlen body + size then ([seal_part count body], [], 0, total + 8) else ([], body, count, total) in
        match checked_add total size with
        | Some total =>
            if total <=? MAX_RESTORE_PLAN_BYTES then
              let? rest := encode_loop last (S index) cs (body ++ record c (bool_decide (last !! layer c = Some index))) (count + 1) total in
              Ok (sealed ++ rest)
            else Err "Restore plan exceeds the operation metadata limit"%string
        | None => Err "Restore plan exceeds the operation metadata limit"%string
        end
  end.
Definition encode_parts (cs : list RawCopy) : result (list bytes) string := encode_loop (last_copies 0 cs ∅) 0 cs [] 0 8.

(** ** Decoding *)

Definition word_of (remaining : bytes) (index : nat) : Z := of_le (take 8 (drop (index * 8) remaining)).

Fixpoint decode_loop (count : nat) (remaining : bytes) (completed : gset bytes) : result (list RawCopy * list bytes * bytes) string :=
  match count with
  | O => Ok ([], [], remaining)
  | S count =>
      if zlen remaining <? 59 then Err "truncated raw Restore copy"%string
      else
        let w := word_of remaining in
        let name_len := of_le (take 2 (drop 56 remaining)) in
        if (name_len =? 0) || (zlen remaining <? 59 + name_len) then Err "invalid raw Restore layer name"%string
        else
          let layer := take (Z.to_nat name_len) (drop 58 remaining) in
          if negb (utf8_valid layer) then Err "Restore layer name is not UTF-8"%string
          else if bool_decide (layer ∈ completed) then Err "Restore copy follows layer completion"%string
          else
            let? done_now := match drop (58 + Z.to_nat name_len) remaining with
                             | Byte.x00 :: _ => Ok false
                             | Byte.x01 :: _ => Ok true
                             | _ => Err "invalid Restore layer completion marker"%string
                             end in
            let copy := mkCopy (mkSource (w 0%nat) (w 1%nat) (w 2%nat) (w 3%nat) (w 4%nat) (w 5%nat)) layer (w 6%nat) in
            let? (cs, done, rest) := decode_loop count (drop (59 + Z.to_nat name_len) remaining)
                                       (if done_now : bool then {[layer]} ∪ completed else completed) in
            Ok (copy :: cs, (if done_now then [layer] else []) ++ done, rest)
  end.

Definition decode_part (b : bytes) : result RawRestorePart string :=
  if (zlen b <? 8) || (MAX_PLAN_BYTES <? zlen b) || negb (bool_decide (take 4 b = u32_le 2)) then Err "invalid raw Restore plan header"%string
  else
    let count := of_le (take 4 (drop 4 b)) in
    if (zlen b - 8) / 59 <? count then Err "invalid raw Restore copy count"%string
    else
      let? (cs, done, rest) := decode_loop (Z.to_nat count) (drop 8 b) ∅ in
      if negb (bool_decide (rest = [])) then Err "trailing raw Restore plan bytes"%string
      else Ok (mkPart cs done).

(** ** Reference: greedy groups of copies *)

Definition copy_bytes (c : RawCopy) : Z := 59 + zlen (layer c).
Definition part_bytes (g : list RawCopy) : Z := 8 + list_sum copy_bytes g.
Fixpoint pack (current : list RawCopy) (cs : list RawCopy) : list (list RawCopy) :=
  match cs with
  | [] => [current]
  | c :: cs => if MAX_PLAN_BYTES <? part_bytes current + copy_bytes c then current :: pack [c] cs else pack (current ++ [c]) cs
  end.
Definition is_last (c : RawCopy) (later : list RawCopy) : bool := bool_decide (layer c ∉ layer <$> later).
(** The records of [g] when the copies [post] follow in later parts. *)
Fixpoint records (g post : list RawCopy) : bytes :=
  match g with [] => [] | c :: g => record c (is_last c (g ++ post)) ++ records g post end.
Fixpoint encode_groups (gs : list (list RawCopy)) : list bytes :=
  match gs with [] => [] | g :: gs => seal_part (zlen g) (records g (concat gs)) :: encode_groups gs end.
(** The layers whose last copy is in [g]. *)
Fixpoint finals (g post : list RawCopy) : list bytes :=
  match g with [] => [] | c :: g => (if is_last c (g ++ post) then [layer c] else []) ++ finals g post end.

Definition name_ok (c : RawCopy) : bool := (0 <? zlen (layer c)) && (zlen (layer c) <=? 65535).
(** A copy whose fields are machine words and whose layer is a string. *)
Definition copy_ok (c : RawCopy) : Prop := Forall is_u64 (copy_words c) /\ utf8_valid (layer c) = true.

Lemma concat_pack current cs : concat (pack current cs) = current ++ cs.
Proof.
  revert current. induction cs as [|c cs IH]; intros current; cbn; [done|]. destruct (_ <? _); cbn; rewrite IH; [done|]. by rewrite <- app_assoc.
Qed.

Lemma record_length c b : zlen (record c b) = copy_bytes c.
Proof. unfold record, copy_bytes, zlen. cbn [copy_words fmap list_fmap concat]. autorewrite with words. cbn [length]. lia. Qed.
Lemma records_length g post : zlen (records g post) = list_sum copy_bytes g.
Proof. induction g as [|c g IH]; [done|]. cbn [records]. rewrite zlen_app, record_length, IH. done. Qed.
Lemma seal_length n body : zlen (seal_part n body) = 8 + zlen body.
Proof. unfold seal_part. rewrite !zlen_app, !zlen_u32_le. lia. Qed.

Lemma records_snoc g c post : records (g ++ [c]) post = records g (c :: post) ++ record c (is_last c post).
Proof.
  induction g as [|d g IH]; cbn [records app]; [by rewrite app_nil_r|]. rewrite IH, <- !app_assoc. done.
Qed.

(** ** Encoding follows the reference *)

Lemma last_copies_spec cs index m l k :
  last_copies index cs m !! l = Some k <->
  (exists i c, cs !! i = Some c /\ layer c = l /\ k = (index + i)%nat /\ l ∉ (layer <$> drop (S i) cs)) \/ ((l ∉ (layer <$> cs)) /\ m !! l = Some k).
Proof.
  revert index m. induction cs as [|c cs IH]; intros index m; cbn [last_copies].
  - split; [intros ?; right; set_solver|]. intros [(i & c & Hc & _)|[_ ?]]; [by rewrite lookup_nil in Hc|done].
  - rewrite IH. split.
    + intros [(i & d & Hd & Hl & -> & Hn)|[Hn Hm]]; [left; exists (S i), d; split_and!; try done; lia|].
      destruct (decide (l = layer c)) as [->|Hne].
      * rewrite lookup_insert_eq in Hm. injection Hm as <-. left. exists 0%nat, c. cbn. rewrite drop_0. split_and!; first [done|lia].
      * rewrite lookup_insert_ne in Hm by done. right. split; [set_solver|done].
    + intros [(i & d & Hd & Hl & -> & Hn)|[Hn Hm]].
      * destruct i as [|i]; cbn in Hd, Hn.
        -- injection Hd as ->. rewrite drop_0 in Hn. right. split; [done|]. rewrite <- Hl, lookup_insert_eq. f_equal. lia.
        -- left. exists i, d. split_and!; try done. lia.
      * right. split; [set_solver|]. rewrite lookup_insert_ne; [done|]. set_solver.
Qed.

(** [last] knows the last copy of every layer among the copies from [index] on. *)
Definition knows (last : gmap bytes nat) (index : nat) (cs : list RawCopy) : Prop :=
  forall i c, cs !! i = Some c -> (last !! layer c = Some (index + i)%nat <-> layer c ∉ layer <$> drop (S i) cs).

Lemma knows_all cs : knows (last_copies 0 cs ∅) 0 cs.
Proof.
  intros i c Hc. rewrite last_copies_spec. split.
  - intros [(j & d & Hd & Hl & Hk & Hn)|[_ Hm]]; [|by rewrite lookup_empty in Hm]. cbn in Hk. by subst j.
  - intros Hn. left. by exists i, c.
Qed.
Lemma knows_tail last index c cs : knows last index (c :: cs) -> knows last (S index) cs.
Proof. intros Hk i d Hd. specialize (Hk (S i) d Hd). cbn in Hk. rewrite <- Hk. by replace (S index + i)%nat with (index + S i)%nat by lia. Qed.

Definition all_bytes (gs : list (list RawCopy)) : Z := list_sum part_bytes gs.

Lemma all_bytes_pack current cs : all_bytes (pack current cs) = part_bytes current + list_sum copy_bytes cs + 8 * (zlen (pack current cs) - 1).
Proof.
  unfold all_bytes. revert current. induction cs as [|c cs IH]; intros current; cbn [pack].
  - cbn. unfold zlen. cbn. lia.
  - destruct (_ <? _).
    + change (list_sum part_bytes (current :: pack [c] cs)) with (part_bytes current + list_sum part_bytes (pack [c] cs)).
      rewrite IH. unfold part_bytes, zlen. cbn [length list_sum foldr]. unfold list_sum. lia.
    + rewrite IH. unfold part_bytes. rewrite list_sum_app. unfold list_sum. cbn [foldr]. lia.
Qed.

(** The bytes written once the copies [cs] have been added to a state that has written [total]. *)
Definition final_bytes (total : Z) (current cs : list RawCopy) : Z := total + list_sum copy_bytes cs + 8 * (zlen (pack current cs) - 1).

Lemma pack_nonempty current cs : 1 <= zlen (pack current cs).
Proof. revert current. induction cs as [|c cs IH]; intros current; cbn [pack]; [done|]. destruct (_ <? _); [unfold zlen; cbn [length]; lia|apply IH]. Qed.
Lemma copies_nonneg cs : 0 <= list_sum copy_bytes cs.
Proof. apply list_sum_nonneg. intros c _. unfold copy_bytes, zlen. lia. Qed.

(** Writing one more copy into the open part, when the rest of the loop is [rest]. *)
Lemma encode_copy last index c cs current total sealed P Q :
  knows last index (c :: cs) -> 0 <= total <= MAX_RESTORE_PLAN_BYTES + 8 -> name_ok c = true ->
  (forall total', total' = total + copy_bytes c -> total' <= MAX_RESTORE_PLAN_BYTES ->
     match encode_loop last (S index) cs (records (current ++ [c]) cs) (zlen (current ++ [c])) total' with
     | Ok ps => P (sealed ++ ps) | Err _ => Q end) ->
  (MAX_RESTORE_PLAN_BYTES < total + copy_bytes c -> Q) ->
  match (match checked_add total (copy_bytes c) with
         | Some total =>
             if total <=? MAX_RESTORE_PLAN_BYTES then
               let? rest := encode_loop last (S index) cs (records current (c :: cs) ++ record c (bool_decide (last !! layer c = Some index)))
                              (zlen current + 1) total in
               Ok (sealed ++ rest)
             else Err "Restore plan exceeds the operation metadata limit"%string
         | None => Err "Restore plan exceeds the operation metadata limit"%string
         end) with
  | Ok ps => P ps
  | Err _ => Q : Prop
  end.
Proof.
  intros Hk Ht Hn Hgo Hfull. unfold name_ok in Hn. unfold checked_add.
  assert (bool_decide (last !! layer c = Some index) = is_last c cs) as ->.
  { apply bool_decide_ext. specialize (Hk 0%nat c eq_refl). rewrite Nat.add_0_r in Hk. exact Hk. }
  rewrite <- records_snoc. replace (zlen current + 1) with (zlen (current ++ [c])) by (rewrite zlen_app; done).
  destruct (Z.leb_spec (total + copy_bytes c) u64_max) as [_|Hbig].
  2: { unfold copy_bytes, MAX_RESTORE_PLAN_BYTES, MAX_PLAN_BYTES, u64_max in *. lia. }
  destruct (Z.leb_spec (total + copy_bytes c) MAX_RESTORE_PLAN_BYTES) as [Hle|Hgt]; [|by apply Hfull].
  specialize (Hgo _ eq_refl Hle). by destruct (encode_loop _ _ _ _ _ _).
Qed.

(** From a state that has written [current], the loop writes the groups of the reference, or fails on a
    name or on the operation's limit. *)
Lemma encode_loop_spec last cs : forall index current total,
  knows last index cs -> 0 <= total <= MAX_RESTORE_PLAN_BYTES ->
  match encode_loop last index cs (records current cs) (zlen current) total with
  | Ok ps => forallb name_ok cs = true /\ final_bytes total current cs <= MAX_RESTORE_PLAN_BYTES /\ ps = encode_groups (pack current cs)
  | Err _ => forallb name_ok cs = false \/ MAX_RESTORE_PLAN_BYTES < final_bytes total current cs
  end.
Proof.
  induction cs as [|c cs IH]; intros index current total Hk Ht; cbn [encode_loop].
  { unfold final_bytes. cbn. split_and!; [done|unfold zlen; cbn; lia|done]. }
  pose proof (Zle_0_nat (length (layer c))) as Hz. fold (zlen (layer c)) in Hz.
  destruct (_ || _) eqn:En.
  { left. cbn [forallb]. apply andb_false_iff. left. unfold name_ok. lia. }
  assert (name_ok c = true) as Hn by (unfold name_ok; lia). cbn [forallb]. rewrite Hn. cbn [andb].
  rewrite records_length. fold (part_bytes current). change (59 + zlen (layer c)) with (copy_bytes c).
  pose proof (copies_nonneg cs) as Hcs. assert (0 <= copy_bytes c) as Hc by (unfold copy_bytes; lia).
  assert (forall cur, 1 <= zlen (pack cur cs)) as Hone by (intros; apply pack_nonempty).
  assert (list_sum copy_bytes (c :: cs) = copy_bytes c + list_sum copy_bytes cs) as Hsum by done.
  unfold final_bytes in IH |- *. rewrite Hsum. cbn [pack]. destruct (MAX_PLAN_BYTES <? _).
  - specialize (Hone [c]).
    assert (zlen (current :: pack [c] cs) = 1 + zlen (pack [c] cs)) as -> by (unfold zlen; cbn [length]; lia).
    apply (encode_copy last index c cs [] (total + 8) [seal_part (zlen current) (records current (c :: cs))]
             (fun ps => forallb name_ok cs = true /\ _ <= _ /\ ps = _)); [done|lia|done| |intros; right; lia].
    intros total' -> Hle. specialize (IH (S index) [c] (total + 8 + copy_bytes c) (knows_tail _ _ _ _ Hk) ltac:(lia)).
    destruct (encode_loop _ _ _ _ _ _) as [ps|]; [|destruct IH; [by left|right; lia]].
    destruct IH as (Hf & Hb & ->). split_and!; [done|lia|]. cbn [encode_groups]. by rewrite concat_pack.
  - specialize (Hone (current ++ [c])).
    apply (encode_copy last index c cs current total [] (fun ps => forallb name_ok cs = true /\ _ <= _ /\ ps = _));
      [done|lia|done| |intros; right; lia].
    intros total' -> Hle. specialize (IH (S index) (current ++ [c]) (total + copy_bytes c) (knows_tail _ _ _ _ Hk) ltac:(lia)).
    destruct (encode_loop _ _ _ _ _ _) as [ps|]; [|destruct IH; [by left|right; lia]].
    destruct IH as (Hf & Hb & ->). split_and!; [done|lia|done].
Qed.

Lemma encode_parts_spec cs :
  match encode_parts cs with
  | Ok ps => forallb name_ok cs = true /\ all_bytes (pack [] cs) <= MAX_RESTORE_PLAN_BYTES /\ ps = encode_groups (pack [] cs)
  | Err _ => forallb name_ok cs = false \/ MAX_RESTORE_PLAN_BYTES < all_bytes (pack [] cs)
  end.
Proof. rewrite all_bytes_pack. exact (encode_loop_spec _ cs 0%nat [] 8 (knows_all cs) ltac:(done)). Qed.

Lemma pack_fits cs : forall current,
  forallb name_ok cs = true -> part_bytes current <= MAX_PLAN_BYTES -> Forall (fun g => part_bytes g <= MAX_PLAN_BYTES) (pack current cs).
Proof.
  induction cs as [|c cs IH]; intros current Hn Hp; cbn [pack]; [by constructor|].
  cbn [forallb] in Hn. apply andb_prop in Hn as [Hc Hn]. unfold name_ok in Hc.
  destruct (Z.ltb_spec MAX_PLAN_BYTES (part_bytes current + copy_bytes c)).
  - constructor; [done|]. apply IH; [done|]. unfold part_bytes, list_sum, copy_bytes, MAX_PLAN_BYTES. cbn [foldr]. lia.
  - apply IH; [done|]. unfold part_bytes in *. rewrite list_sum_app. unfold list_sum in *. cbn [foldr]. lia.
Qed.

(** ** Decoding inverts encoding *)

Lemma word_of_words ws rest index w :
  Forall is_u64 ws -> ws !! index = Some w -> word_of (concat (u64_le <$> ws) ++ rest) index = w.
Proof.
  unfold word_of. revert index. induction ws as [|v ws IH]; intros index Hw Hi; [done|]. inversion_clear Hw as [|? ? Hv Hws].
  cbn [fmap list_fmap concat]. rewrite <- app_assoc. destruct index as [|index]; cbn in Hi.
  - injection Hi as ->. cbn [Nat.mul]. rewrite drop_0, take_app_le, firstn_all2 by (rewrite length_u64_le; lia). by apply of_le_to_le, u64_width.
  - rewrite drop_app_ge by (rewrite length_u64_le; lia). rewrite length_u64_le.
    replace (S index * 8 - 8)%nat with (index * 8)%nat by lia. by apply IH.
Qed.

Lemma length_words c : length (concat (u64_le <$> copy_words c)) = 56%nat.
Proof. cbn [copy_words fmap list_fmap concat]. words. Qed.

Definition marker (b : bool) : byte := if b then Byte.x01 else Byte.x00.

Lemma record_fields c b tail :
  let n := length (layer c) in
  name_ok c = true -> 
  of_le (take 2 (drop 56 (record c b ++ tail))) = zlen (layer c) /\
  take n (drop 58 (record c b ++ tail)) = layer c /\
  drop (58 + n) (record c b ++ tail) = marker b :: tail /\
  drop (59 + n) (record c b ++ tail) = tail.
Proof.
  intros n Hn. unfold record. fold (marker b). rewrite <- !app_assoc. pose proof (length_words c) as Hl.
  set (ws := concat _) in *. split_and!.
  - rewrite drop_app_length' by done. rewrite take_app_length' by (by rewrite length_u16_le).
    apply of_le_to_le. unfold name_ok in Hn. lia.
  - rewrite (app_assoc ws), drop_app_length' by (rewrite length_app, length_u16_le; lia). by apply take_app_length'.
  - rewrite (app_assoc (u16_le _)), (app_assoc ws), drop_app_length'; [done|]. rewrite !length_app, length_u16_le. lia.
  - rewrite (app_assoc (layer c)), (app_assoc (u16_le _)), (app_assoc ws), drop_app_length'; [done|]. rewrite !length_app, length_u16_le. cbn [length]. lia.
Qed.

Lemma decode_loop_records g post tail : forall completed,
  Forall copy_ok g -> forallb name_ok g = true -> (forall l, l ∈ completed -> l ∉ (layer <$> g)) ->
  decode_loop (length g) (records g post ++ tail) completed = Ok (g, finals g post, tail).
Proof.
  induction g as [|c g IH]; intros completed Hok Hn Hd; [done|].
  inversion_clear Hok as [|? ? [Hw Hu] Hg]. cbn [forallb] in Hn. apply andb_prop in Hn as [Hc Hn].
  set (b := is_last c (g ++ post)). cbn [length decode_loop records]. fold b. rewrite <- app_assoc.
  set (rest := records g post ++ tail) in *.
  destruct (record_fields c b rest Hc) as (Hlen & Hlayer & Hmark & Hnext).
  assert (zlen (record c b ++ rest) = copy_bytes c + zlen rest) as Hz by (by rewrite zlen_app, record_length).
  assert (forall i w, copy_words c !! i = Some w -> word_of (record c b ++ rest) i = w) as Hword.
  { intros i w Hi. unfold record. rewrite <- app_assoc. by apply (word_of_words (copy_words c)). }
  pose proof (Zle_0_nat (length rest)) as Hr. fold (zlen rest) in Hr. unfold copy_bytes in Hz. unfold name_ok in Hc.
  rewrite Hz, Hlen. destruct (Z.ltb_spec (59 + zlen (layer c) + zlen rest) 59); [lia|]. destruct (_ || _) eqn:E; [lia|]. clear E.
  replace (Z.to_nat (zlen (layer c))) with (length (layer c)) by (unfold zlen; lia). rewrite Hlayer, Hu, Hmark, Hnext. cbn [negb].
  rewrite bool_decide_false by (intros Hin; apply (Hd _ Hin); set_solver).
  assert (match marker b :: rest with Byte.x00 :: _ => Ok false | Byte.x01 :: _ => Ok true
          | _ => Err "invalid Restore layer completion marker"%string end = Ok b) as -> by (by destruct b).
  rewrite IH; [|done..|].
  - do 7 (erewrite Hword by reflexivity). by destruct c as [[] ? ?].
  - intros l Hl Hin. destruct b eqn:Eb; [|apply (Hd l Hl); set_solver].
    apply elem_of_union in Hl as [Hl|Hl]; [|apply (Hd l Hl); set_solver]. apply elem_of_singleton in Hl as ->.
    apply bool_decide_eq_true in Eb. apply Eb. rewrite fmap_app. set_solver.
Qed.

Lemma decode_part_group g post :
  Forall copy_ok g -> forallb name_ok g = true -> part_bytes g <= MAX_PLAN_BYTES ->
  decode_part (seal_part (zlen g) (records g post)) = Ok (mkPart g (finals g post)).
Proof.
  intros Hok Hn Hp. unfold decode_part. rewrite seal_length, records_length. fold (part_bytes g).
  pose proof (copies_nonneg g) as H0. assert (59 * zlen g <= list_sum copy_bytes g) as Hcount.
  { clear. unfold zlen, list_sum. induction g as [|c g IH]; cbn [length foldr]; [lia|]. unfold copy_bytes, zlen in *. lia. }
  unfold seal_part. rewrite (take_app_length' (u32_le 2)), bool_decide_true by done. destruct (_ || _) eqn:E.
  { unfold part_bytes in *. cbn in E. lia. }
  rewrite drop_app_length', take_app_length' by done.
  assert (of_le (u32_le (zlen g)) = zlen g) as ->.
  { apply of_le_to_le. unfold part_bytes, MAX_PLAN_BYTES, zlen in *. lia. }
  destruct (Z.ltb_spec ((part_bytes g - 8) / 59) (zlen g)) as [Hlt|_].
  { unfold part_bytes in Hlt. Z.div_mod_to_equations. lia. }
  rewrite app_assoc, drop_app_length' by done. unfold zlen. rewrite Nat2Z.id.
  rewrite <- (app_nil_r (records g post)). rewrite decode_loop_records; [done..|set_solver].
Qed.

(** The parts account for the plan: in order, each one's copies and exactly the layers whose last copy it carries. *)
Fixpoint accounts (ds : list RawRestorePart) (cs : list RawCopy) : Prop :=
  match ds with
  | [] => cs = []
  | d :: ds => exists rest, cs = copies d ++ rest /\ completed_layers d = finals (copies d) rest /\ accounts ds rest
  end.

Lemma groups_decode gs :
  Forall copy_ok (concat gs) -> forallb name_ok (concat gs) = true -> Forall (fun g => part_bytes g <= MAX_PLAN_BYTES) gs ->
  exists ds, Forall2 (fun p d => decode_part p = Ok d) (encode_groups gs) ds /\ accounts ds (concat gs).
Proof.
  induction gs as [|g gs IH]; intros Hok Hn Hp; cbn [concat encode_groups] in *; [by exists []|].
  apply Forall_app in Hok as [Hg Hok]. rewrite forallb_app in Hn. apply andb_prop in Hn as [Hng Hn]. inversion_clear Hp as [|? ? Hpg Hps].
  destruct (IH Hok Hn Hps) as (ds & Hds & Ha). exists (mkPart g (finals g (concat gs)) :: ds). split.
  - constructor; [|done]. by apply decode_part_group.
  - by exists (concat gs).
Qed.

Lemma group_lengths gs : zlen <$> encode_groups gs = part_bytes <$> gs.
Proof. induction gs as [|g gs IH]; cbn [encode_groups fmap list_fmap]; [done|]. rewrite seal_length, records_length. f_equal. exact IH. Qed.


Lemma finals_NoDup cs post : NoDup (finals cs post).
Proof.
  induction cs as [|c cs IH]; cbn [finals]; [constructor|]. destruct (is_last c (cs ++ post)) eqn:E; [|done]. constructor; [|done].
  apply bool_decide_eq_true in E. intros Hin. apply E. clear -Hin. rewrite fmap_app. apply elem_of_app. left.
  induction cs as [|d cs IH]; cbn [finals] in Hin; [done|]. apply elem_of_app in Hin as [Hin|Hin]; [|set_solver].
  destruct (is_last d _); set_solver.
Qed.

(** C32. A plan whose names fit and whose encoded size is within the operation's limit is cut into parts of at
    most one bank each that decode, in order, to exactly its copies, each part completing exactly the
    layers whose last copy it carries; any other plan is refused, and only such a plan. *)
Theorem restore_plan_round_trip cs :
  Forall copy_ok cs ->
  match encode_parts cs with
  | Ok ps =>
      forallb name_ok cs = true /\ list_sum zlen ps <= MAX_RESTORE_PLAN_BYTES /\ Forall (fun p => zlen p <= MAX_PLAN_BYTES) ps /\
      exists ds, Forall2 (fun p d => decode_part p = Ok d) ps ds /\ accounts ds cs
  | Err _ => forallb name_ok cs = false \/ MAX_RESTORE_PLAN_BYTES < list_sum part_bytes (pack [] cs)
  end.
Proof.
  intros Hok. pose proof (encode_parts_spec cs) as Hs. destruct (encode_parts cs) as [ps|]; [|exact Hs].
  destruct Hs as (Hn & Hb & ->). pose proof (pack_fits cs [] Hn ltac:(done)) as Hfit. pose proof (group_lengths (pack [] cs)) as Hl.
  split_and!; [done| | |].
  - replace (list_sum zlen (encode_groups (pack [] cs))) with (all_bytes (pack [] cs)); [done|].
    unfold all_bytes. pose proof (list_sum_fmap (fun n => n) part_bytes (pack [] cs)) as E1. pose proof (list_sum_fmap (fun n => n) zlen (encode_groups (pack [] cs))) as E2. rewrite Hl in E2.
    exact (eq_trans (eq_sym E1) E2).
  - assert (Forall (fun n => n <= MAX_PLAN_BYTES) (zlen <$> encode_groups (pack [] cs))) as Hz by (rewrite Hl; by apply Forall_fmap).
    rewrite Forall_fmap in Hz. exact Hz.
  - pose proof (concat_pack [] cs) as Hcat. destruct (groups_decode (pack [] cs)) as (ds & Hds & Ha); rewrite ?Hcat; [done..|].
    exists ds. split; [done|]. by rewrite Hcat in Ha.
Qed.

Lemma restore_plan_round_trip_witness :
  let copy l at_ := mkCopy (mkSource 1 2 0 4096 at_ 512) (str l) at_ in
  let cs := [copy "layer.0" 0; copy "layer.1" 512; copy "layer.0" 1024]%string in
  Forall copy_ok cs /\ exists p, encode_parts cs = Ok [p] /\ decode_part p = Ok (mkPart cs [str "layer.1"; str "layer.0"]) /\
    match encode_parts cs with
    | Ok ps => exists ds, Forall2 (fun p d => decode_part p = Ok d) ps ds /\ accounts ds cs
    | Err _ => False
    end.
Proof.
  intros copy cs. assert (Forall copy_ok cs) as Hok.
  { repeat (apply Forall_cons; split; [split; [repeat constructor; done|reflexivity]|]). constructor. }
  split; [exact Hok|]. eexists. split; [vm_compute; reflexivity|]. split; [vm_compute; reflexivity|].
  pose proof (restore_plan_round_trip cs Hok) as H. destruct (encode_parts cs) as [ps|] eqn:E; [exact (proj2 (proj2 (proj2 H)))|].
  vm_compute in E. discriminate E.
Defined.
