(* ===== verification/RestoreExec.v ===== *)
(** * The engine-local restore executor

    orbitkv-core/src/transfer/local.rs: the engine registers its tensors and imports the payload arenas,
    validates every part that a grant hands it, and submits the copies of the part on one stream,
    with an event after the last copy of each layer.  CUDA is an argument: a driver decides from what
    was submitted before whether a call fails. *)
From S2P Require Import Prelude Containers Wire KvLayout DmaCopies RestorePlan.

Local Open Scope Z_scope.
Local Open Scope rust_scope.

(** ** Tensors and arenas *)

Record LocalTensor := mkTensor { t_name : bytes; address : Z; t_bytes : Z; allocation : Z }.

Inductive TensorError := TensorLayout (e : LayoutError).
Definition layout {A} (r : result A LayoutError) : result A TensorError := match r with Ok a => Ok a | Err e => Err (TensorLayout e) end.

Definition LocalTensor_new (name : bytes) (address bytes allocation num_blocks segment_bytes kv_stride_bytes segments : Z)
    : result LocalTensor TensorError :=
  let? geometry := layout (geometry_new num_blocks segment_bytes kv_stride_bytes segments None 1) in
  let? ranges := layout (block_ranges geometry (u64_sub num_blocks 1)) in
  let extent := match ranges with RContiguous r => r.2 | RSplit k v => Z.max k.2 v.2 end in
  let? _ := layout (layout_bind address bytes geometry) in
  Ok (mkTensor name address extent allocation).

Record PayloadArena := mkPayload { pa_id : Z; pa_size : Z; pa_fd : Z }.
Record ImportedArena := mkArena { pointer : Z; device_pointer : Z; a_size : Z }.
Definition isize_max : Z := 2 ^ 63 - 1.

Record LocalRestoreExecutor := mkExecutor { tensors : gmap bytes LocalTensor; arenas : gmap Z ImportedArena }.

Section New.
(** What the operating system and CUDA answer: the context of a tensor's allocation, the executor's own
    context, and the host and device addresses of a mapped and registered arena. *)
Context (tensor_context : Z -> result Z string) (primary : Z) (map_arena : PayloadArena -> result (Z * Z) string).

Definition ImportedArena_new (a : PayloadArena) : result ImportedArena string :=
  if (pa_id a =? 0) || (pa_size a =? 0) || (isize_max <? pa_size a) then Err "invalid payload arena identity or size"%string
  else
    let? (pointer, device_pointer) := map_arena a in
    Ok (mkArena pointer device_pointer (pa_size a)).

Fixpoint bind_tensors (ts : list LocalTensor) (bindings : gmap bytes LocalTensor) : result (gmap bytes LocalTensor) string :=
  match ts with
  | [] => Ok bindings
  | t :: ts =>
      let? context := tensor_context (address t) in
      if negb (context =? primary) then Err "tensor allocation does not belong to the framework primary context"%string
      else if bool_decide (is_Some (bindings !! t_name t)) then Err "duplicate local tensor layer"%string
      else bind_tensors ts (<[t_name t := t]> bindings)
  end.

Fixpoint import_arenas (l : list PayloadArena) (imported : gmap Z ImportedArena) : result (gmap Z ImportedArena) string :=
  match l with
  | [] => Ok imported
  | a :: l =>
      if bool_decide (is_Some (imported !! pa_id a)) then Err "duplicate payload arena identity"%string
      else let? i := ImportedArena_new a in import_arenas l (<[pa_id a := i]> imported)
  end.

Definition LocalRestoreExecutor_new (ts : list LocalTensor) (l : list PayloadArena) : result LocalRestoreExecutor string :=
  let? bindings := bind_tensors ts ∅ in
  if 64 <? zlen l then Err "too many payload arena mappings"%string
  else let? imported := import_arenas l ∅ in Ok (mkExecutor bindings imported).
End New.

Definition valid_event (ex : LocalRestoreExecutor) (handles : gset Z) (layer : bytes) (event : Z) : bool :=
  bool_decide (is_Some (tensors ex !! layer)) && negb (event =? 0) && negb (bool_decide (event ∈ handles)).
Fixpoint validate_events (ex : LocalRestoreExecutor) (events : list (bytes * Z)) (handles : gset Z) : result unit string :=
  match events with
  | [] => Ok tt
  | (layer, event) :: events =>
      if valid_event ex handles layer event then validate_events ex events ({[event]} ∪ handles)
      else Err "Restore events require unique live events for registered layers"%string
  end.
Definition validate_layer_events (ex : LocalRestoreExecutor) (events : gmap bytes Z) : result unit string :=
  validate_events ex (map_to_list events) ∅.

(** ** Validation of a part *)

Abbreviation Bounds := (gmap (Z * Z) (Z * Z)).

Definition check_copy (ex : LocalRestoreExecutor) (allocations : Bounds) (c : RawCopy) : result (Bounds * CopyDesc) string :=
  let s := source c in
  let? arena := ok_or (arenas ex !! arena_id s) "Restore source arena is not registered"%string in
  let? allocation_end := ok_or (checked_add (allocation_offset s) (allocation_size s)) "source allocation overflow"%string in
  let? source_end := ok_or (checked_add (offset s) (RestorePlan.size s)) "source copy overflow"%string in
  if (allocation_id s =? 0) || (RestorePlan.size s =? 0) || (allocation_size s =? 0) || (a_size arena <? allocation_end)
     || (offset s <? allocation_offset s) || (allocation_end <? source_end)
  then Err "Restore source exceeds its granted allocation"%string
  else
    let key := (arena_id s, allocation_id s) in
    let bounds := (allocation_offset s, allocation_size s) in
    let previous := default bounds (allocations !! key) in
    if negb (bool_decide (previous = bounds)) then Err "inconsistent Restore allocation generation bounds"%string
    else
      let? tensor := ok_or (tensors ex !! layer c) "Restore destination layer is not registered"%string in
      let? end_ := ok_or (checked_add (destination_offset c) (RestorePlan.size s)) "destination copy overflow"%string in
      if t_bytes tensor <? end_ then Err "Restore destination exceeds retained tensor allocation"%string
      else
        let? device := ok_or (checked_add (address tensor) (destination_offset c)) "destination address overflow"%string in
        let? host_device := ok_or (checked_add (device_pointer arena) (offset s)) "source GPU address overflow"%string in
        Ok (<[key := previous]> allocations,
            mkDesc device (pointer arena + offset s) host_device (RestorePlan.size s) (allocation tensor) (pointer arena)).

Fixpoint check_copies (ex : LocalRestoreExecutor) (allocations : Bounds) (cs : list RawCopy) : result (list CopyDesc) string :=
  match cs with
  | [] => Ok []
  | c :: cs =>
      let? (allocations, d) := check_copy ex allocations c in
      let? ds := check_copies ex allocations cs in
      Ok (d :: ds)
  end.

(** [windows(2)] over the sorted targets. *)
Fixpoint overlapping (targets : list (Z * Z)) : bool :=
  match targets with
  | a :: (b :: _) as rest =>
      match checked_add a.1 a.2 with Some end_ => b.1 <? end_ | None => true end || overlapping rest
  | _ => false
  end.

(** ** Submission *)

Fixpoint push_batch (layer : bytes) (d : CopyDesc) (batches : list (bytes * list CopyDesc)) : list (bytes * list CopyDesc) :=
  match batches with
  | [] => [(layer, [d])]
  | (l, ds) :: batches => if bool_decide (l = layer) then (l, ds ++ [d]) :: batches else (l, ds) :: push_batch layer d batches
  end.
Definition batch_name (events : gmap bytes Z) (layer : bytes) : bytes :=
  if bool_decide (is_Some (events !! layer)) then layer else [].
Definition make_batches (events : gmap bytes Z) (cs : list RawCopy) (ds : list CopyDesc) : list (bytes * list CopyDesc) :=
  foldl (fun batches '(c, d) => push_batch (batch_name events (layer c)) d batches) [] (zip cs ds).

Definition device_le (a b : CopyDesc) : Prop := device a <= device b.
#[export] Instance device_le_dec a b : Decision (device_le a b) := Z_le_dec (device a) (device b).

(** What reaches the stream, and when the caller is told. *)
Inductive StreamOp := OpCopies (layer : bytes) (copies : list CopyDesc) | OpEvent (event : Z) | OpEnqueued | OpDrained.

Section Execute.
(** The driver's answers, [Some] an error; and the order of [HashMap::drain]. *)
Context (bind_to_thread : list StreamOp -> option string) (h2d : list StreamOp -> list CopyDesc -> option string) (record_event : list StreamOp -> Z -> option string)
        (drain : gmap bytes Z -> list (bytes * Z)).

Definition step_event (ops : list StreamOp) (event : Z) : result (list StreamOp) string :=
  match record_event ops event with None => Ok (ops ++ [OpEvent event]) | Some e => Err e end.

Fixpoint submit_batches (completed : list bytes) (batches : list (bytes * list CopyDesc)) (events : gmap bytes Z) (ops : list StreamOp)
    : result unit string * gmap bytes Z * list StreamOp :=
  match batches with
  | [] => (Ok tt, events, ops)
  | (layer, copies) :: batches =>
      let copies := merge_sort device_le copies in
      let answer := h2d ops copies in
      let ops := ops ++ [OpCopies layer copies] in
      match answer with
      | Some e => (Err e, events, ops)
      | None =>
          if bool_decide (layer ∈ completed) then
            match events !! layer with
            | Some event =>
                match step_event ops event with
                | Ok ops => submit_batches completed batches (delete layer events) ops
                | Err e => (Err e, delete layer events, ops)
                end
            | None => submit_batches completed batches events ops
            end
          else submit_batches completed batches events ops
      end
  end.

Fixpoint record_all (l : list (bytes * Z)) (ops : list StreamOp) : result unit string * list StreamOp :=
  match l with
  | [] => (Ok tt, ops)
  | (_, event) :: l => match step_event ops event with Ok ops => record_all l ops | Err e => (Err e, ops) end
  end.

Definition execute (ex : LocalRestoreExecutor) (plan : RawRestorePart) (events : gmap bytes Z) (final_part : bool) (ops : list StreamOp)
    : result unit string * gmap bytes Z * list StreamOp :=
  match (let? _ := match bind_to_thread ops with None => Ok tt | Some e => Err e end in check_copies ex ∅ (copies plan)) with
  | Err e => (Err e, events, ops)
  | Ok descs =>
      if overlapping (merge_sort key_le ((fun d => (device d, DmaCopies.size d)) <$> descs))
      then (Err "overlapping Restore destination ranges"%string, events, ops)
      else
        let '(submitted, events, ops) := submit_batches (completed_layers plan) (make_batches events (copies plan) descs) events ops in
        let '(submitted, events, ops) :=
          match submitted with
          | Ok _ =>
              if final_part then
                let '(recorded, ops) := record_all (drain events) ops in
                (recorded, ∅, match recorded with Ok _ => ops ++ [OpEnqueued] | Err _ => ops end)
              else (Ok tt, events, ops)
          | Err _ => (submitted, events, ops)
          end in
        (submitted, events, ops ++ [OpDrained])
  end.
End Execute.

(** ** What the executor relies on *)

(** A tensor lies in the device's address space, a mapping in the process's. *)
Definition tensor_ok (t : LocalTensor) : Prop := 0 < address t /\ 0 < t_bytes t /\ address t + t_bytes t <= u64_max.
Definition arena_ok (a : ImportedArena) : Prop := 0 <= pointer a /\ 0 < a_size a /\ pointer a + a_size a <= u64_max /\ 0 <= device_pointer a.
Definition executor_ok (ex : LocalRestoreExecutor) : Prop :=
  map_Forall (fun _ t => tensor_ok t) (tensors ex) /\ map_Forall (fun _ a => arena_ok a) (arenas ex).

Lemma LocalTensor_new_ok name ad bs al nb sb kv sg t :
  is_u64 ad -> is_u64 bs -> is_u64 nb -> is_u64 sb -> is_u64 kv -> is_u64 sg ->
  LocalTensor_new name ad bs al nb sb kv sg = Ok t ->
  tensor_ok t /\ t_name t = name /\ address t = ad /\ allocation t = al /\ t_bytes t <= bs.
Proof.
  intros Had Hbs Hnb Hsb Hkv Hsg. unfold LocalTensor_new. destruct (geometry_new _ _ _ _ _ _) as [g|] eqn:Eg; [|done]. cbn [layout].
  apply geometry_new_Ok in Eg as ((Hn & _) & Hd & Ha); [|done..]. unfold is_u64 in *. pose proof Hd as [].
  rewrite u64_sub_exact by lia. destruct (block_ranges_exact g 1 (nb - 1) Hd Ha ltac:(lia)) as (r & -> & Hsp). cbn [layout].
  set (extent := match r with RContiguous r => _ | RSplit k v => _ end).
  assert (0 < extent <= extent_bytes g) as Hext.
  { assert (forall x, x ∈ ranges_of r -> 0 <= x.1 < x.2 /\ x.2 <= extent_bytes g) as Hin.
    { intros x Hx. rewrite Hsp in Hx. apply (spans_inside g 1 (nb - 1)); [done..|lia|done]. }
    unfold extent. destruct r as [x|x y]; [pose proof (Hin x ltac:(set_solver))|pose proof (Hin x ltac:(set_solver)); pose proof (Hin y ltac:(set_solver))]; lia. }
  unfold layout_bind. destruct (Z.eqb_spec ad 0); [done|]. destruct (Z.eqb_spec bs 0); [done|]. unfold checked_add.
  destruct (Z.leb_spec (ad + bs) u64_max); [|done]. cbn. destruct (Z.ltb_spec bs (extent_bytes g)); [done|]. cbn. intros [= <-].
  unfold tensor_ok. cbn. split_and!; try done; lia.
Qed.

Section NewOk.
Context (tensor_context : Z -> result Z string) (primary : Z) (map_arena : PayloadArena -> result (Z * Z) string).
(** A mapping lies in the address space; CUDA's addresses are machine words. *)
Hypothesis map_arena_fits : forall a p d, map_arena a = Ok (p, d) -> 0 <= p /\ p + pa_size a <= u64_max /\ is_u64 d.

Lemma bind_tensors_ok ts m m' :
  Forall tensor_ok ts -> map_Forall (fun _ t => tensor_ok t) m -> bind_tensors tensor_context primary ts m = Ok m' ->
  map_Forall (fun _ t => tensor_ok t) m'.
Proof.
  revert m. induction ts as [|t ts IH]; intros m Hts Hm; cbn; [by intros [= <-]|]. inversion_clear Hts as [|? ? Ht Hts'].
  destruct (tensor_context _); [|done]. destruct (negb _); [done|]. case_bool_decide; [done|]. apply IH; [done|].
  by apply map_Forall_insert_2.
Qed.
Lemma import_arenas_ok l m m' :
  Forall (fun a => 0 <= pa_size a) l -> map_Forall (fun _ a => arena_ok a) m -> import_arenas map_arena l m = Ok m' ->
  map_Forall (fun _ a => arena_ok a) m'.
Proof.
  revert m. induction l as [|a l IH]; intros m Hl Hm; cbn; [by intros [= <-]|]. inversion_clear Hl as [|? ? Ha Hl'].
  case_bool_decide; [done|]. unfold ImportedArena_new. destruct (_ || _) eqn:E; [done|].
  destruct (map_arena a) as [[p d]|] eqn:Em; [|done]. apply IH; [done|]. apply map_Forall_insert_2; [|done].
  apply map_arena_fits in Em as (? & ? & ? & ?). unfold arena_ok. cbn. lia.
Qed.
Lemma LocalRestoreExecutor_new_ok ts l ex :
  Forall tensor_ok ts -> Forall (fun a => 0 <= pa_size a) l ->
  LocalRestoreExecutor_new tensor_context primary map_arena ts l = Ok ex -> executor_ok ex.
Proof.
  intros Hts Hl. unfold LocalRestoreExecutor_new. destruct (bind_tensors _ _ _ _) as [b|] eqn:Eb; [|done].
  destruct (64 <? _); [done|]. destruct (import_arenas _ _ _) as [i|] eqn:Ei; [|done]. intros [= <-]. split; cbn.
  - eapply bind_tensors_ok; [done|apply map_Forall_empty|done].
  - eapply import_arenas_ok; [done|apply map_Forall_empty|done].
Qed.
End NewOk.

(** ** Every accepted copy is confined *)

Definition words_ok (c : RawCopy) : Prop := Forall is_u64 (copy_words c).

(** [d] is the copy [c] asks for: from inside its granted allocation, itself inside the arena, into its tensor. *)
Inductive desc_for (ex : LocalRestoreExecutor) (c : RawCopy) (d : CopyDesc) : Prop :=
| DescFor (a : ImportedArena) (t : LocalTensor) :
    arenas ex !! arena_id (source c) = Some a -> tensors ex !! layer c = Some t ->
    d = mkDesc (address t + destination_offset c) (pointer a + offset (source c)) (device_pointer a + offset (source c))
          (RestorePlan.size (source c)) (allocation t) (pointer a) ->
    0 < RestorePlan.size (source c) ->
    allocation_offset (source c) <= offset (source c) /\
      offset (source c) + RestorePlan.size (source c) <= allocation_offset (source c) + allocation_size (source c) <= a_size a ->
    0 <= destination_offset c /\ destination_offset c + RestorePlan.size (source c) <= t_bytes t ->
    desc_for ex c d.

Definition grant_key (c : RawCopy) : Z * Z := (arena_id (source c), allocation_id (source c)).
Definition grant_bounds (c : RawCopy) : Z * Z := (allocation_offset (source c), allocation_size (source c)).
(** One generation of an allocation has one extent. *)
Definition consistent (cs : list RawCopy) : Prop :=
  forall c c', c ∈ cs -> c' ∈ cs -> grant_key c = grant_key c' -> grant_bounds c = grant_bounds c'.

Lemma words_nonneg c : words_ok c ->
  0 <= allocation_offset (source c) /\ 0 <= allocation_size (source c) /\ 0 <= offset (source c) /\ 0 <= RestorePlan.size (source c) /\ 0 <= destination_offset c.
Proof. unfold words_ok, copy_words. rewrite !Forall_cons. unfold is_u64. lia. Qed.

Lemma check_copy_Ok ex m c m' d :
  words_ok c -> check_copy ex m c = Ok (m', d) ->
  desc_for ex c d /\ m' = <[grant_key c := grant_bounds c]> m /\ (forall b, m !! grant_key c = Some b -> b = grant_bounds c).
Proof.
  intros (H1 & H2 & H3 & H4 & H5)%words_nonneg. unfold check_copy.
  destruct (arenas ex !! arena_id (source c)) as [a|] eqn:Ea; cbn [ok_or]; [|done].
  destruct (checked_add (allocation_offset _) _) as [ae|] eqn:E1; cbn [ok_or]; [|done]. apply checked_add_Some in E1 as [-> _].
  destruct (checked_add (offset _) _) as [se|] eqn:E2; cbn [ok_or]; [|done]. apply checked_add_Some in E2 as [-> _].
  destruct (_ || _) eqn:Eb; [done|]. case_bool_decide as Hp; cbn [negb]; [|done].
  destruct (tensors ex !! layer c) as [t|] eqn:Et; cbn [ok_or]; [|done].
  destruct (checked_add (destination_offset c) _) as [de|] eqn:E3; cbn [ok_or]; [|done]. apply checked_add_Some in E3 as [-> _].
  destruct (Z.ltb_spec (t_bytes t) (destination_offset c + RestorePlan.size (source c))); [done|].
  destruct (checked_add (address t) _) as [dv|] eqn:E4; cbn [ok_or]; [|done]. apply checked_add_Some in E4 as [-> _].
  destruct (checked_add (device_pointer a) _) as [hd|] eqn:E5; cbn [ok_or]; [|done]. apply checked_add_Some in E5 as [-> _].
  intros [= <- <-]. rewrite Hp. split_and!; [|done|].
  - exists a t; [done|done|done|lia..].
  - intros b Hb. unfold grant_key in Hb. rewrite Hb in Hp. exact Hp.
Qed.

Lemma check_copies_Ok ex cs : forall m ds,
  Forall words_ok cs -> check_copies ex m cs = Ok ds ->
  Forall2 (desc_for ex) cs ds /\ consistent cs /\ (forall c b, c ∈ cs -> m !! grant_key c = Some b -> b = grant_bounds c).
Proof.
  induction cs as [|c cs IH]; intros m ds Hw; cbn [check_copies].
  { intros [= <-]. split_and!; [done|intros ? ? ?%elem_of_nil; done|intros ? ? ?%elem_of_nil; done]. }
  inversion_clear Hw as [|? ? Hc Hcs]. destruct (check_copy ex m c) as [[m' d]|] eqn:Ec; [|done].
  apply check_copy_Ok in Ec as (Hd & -> & Hm); [|done]. destruct (check_copies ex _ cs) as [ds'|] eqn:Er; [|done]. intros [= <-].
  destruct (IH _ _ Hcs Er) as (Hf & Hcon & Hkeys).
  assert (forall c', c' ∈ cs -> grant_key c' = grant_key c -> grant_bounds c' = grant_bounds c) as Hsame.
  { intros c' Hin Hk. symmetry. apply Hkeys; [done|]. by rewrite Hk, lookup_insert_eq. }
  split_and!; [by constructor| |].
  - intros x y [->|Hx]%elem_of_cons [->|Hy]%elem_of_cons Hk; [done|symmetry; by apply Hsame|by apply Hsame|by apply Hcon].
  - intros x b [->|Hx]%elem_of_cons Hb; [by apply Hm|]. destruct (decide (grant_key x = grant_key c)) as [Hk|Hne].
    + rewrite (Hsame x Hx Hk). apply Hm. by rewrite <- Hk.
    + apply (Hkeys x b Hx). by rewrite lookup_insert_ne.
Qed.

Lemma desc_for_ok ex c d : executor_ok ex -> words_ok c -> desc_for ex c d -> desc_ok d.
Proof.
  intros [Ht Ha] Hw [a t Hea Het -> Hs Hsrc Hdst]. apply words_nonneg in Hw. specialize (Ht _ _ Het). specialize (Ha _ _ Hea).
  unfold tensor_ok, arena_ok, desc_ok in *. cbn. lia.
Qed.

(** ** Destinations do not overlap *)

(** The device addresses that a target covers. *)
Definition target_bytes (t : Z * Z) : list Z := seqZ t.1 t.2.
Definition target (d : CopyDesc) : Z * Z := (device d, DmaCopies.size d).

Lemma not_overlapping l :
  StronglySorted key_le l -> Forall (fun t => 0 <= t.2) l -> overlapping l = false -> StronglySorted (fun a b => a.1 + a.2 <= b.1) l.
Proof.
  induction l as [|a l IH]; intros Hs Hp Ho; [constructor|]. inversion_clear Hs as [|? ? Hs' Ha]. inversion_clear Hp as [|? ? Hpa Hp'].
  destruct l as [|b l]; [repeat constructor|]. cbn [overlapping] in Ho. apply orb_false_iff in Ho as [Hab Ho].
  constructor; [by apply IH|]. destruct (checked_add a.1 a.2) as [e|] eqn:E; [|done]. apply checked_add_Some in E as [-> _].
  apply Z.ltb_ge in Hab. constructor; [done|]. inversion_clear Hs' as [|? ? _ Hb]. eapply Forall_impl; [exact Hb|].
  intros x Hx. unfold key_le, cmp, pair_ord, pair_cmp in Hx. destruct (Z.compare_spec b.1 x.1) as [| |Hgt]; [lia|lia|].
  cbn in Hx. destruct (Z.compare_spec b.1 x.1); try lia. congruence.
Qed.

Lemma apart_NoDup l : StronglySorted (fun a b : Z * Z => a.1 + a.2 <= b.1) l -> NoDup (l ≫= target_bytes).
Proof.
  induction l as [|a l IH]; intros Hs; [constructor|]. inversion_clear Hs as [|? ? Hs' Ha]. rewrite bind_cons.
  apply NoDup_app. split_and!; [apply NoDup_seqZ| |by apply IH]. intros x Hx Hin. apply list_elem_of_bind in Hin as (b & Hxb & Hb).
  rewrite Forall_forall in Ha. specialize (Ha b Hb). apply elem_of_seqZ in Hx, Hxb. lia.
Qed.

Lemma disjoint_targets ds :
  Forall (fun d => 0 <= DmaCopies.size d) ds -> overlapping (merge_sort key_le (target <$> ds)) = false -> NoDup ((target <$> ds) ≫= target_bytes).
Proof.
  intros Hp Ho. rewrite <- (merge_sort_Permutation key_le (target <$> ds)). apply apart_NoDup, not_overlapping; [| |done].
  - apply Sorted_StronglySorted; [apply _|]. apply Sorted_merge_sort; apply _.
  - rewrite merge_sort_Permutation. by apply Forall_fmap.
Qed.

(** ** Batches *)

Definition copies_in (ops : list StreamOp) : list CopyDesc := ops ≫= fun op => match op with OpCopies _ ds => ds | _ => [] end.
Definition batch_ops (completed : list bytes) (events : gmap bytes Z) (b : bytes * list CopyDesc) : list StreamOp :=
  OpCopies b.1 (merge_sort device_le b.2) ::
  (if bool_decide (b.1 ∈ completed) then match events !! b.1 with Some e => [OpEvent e] | None => [] end else []).

Lemma push_batch_perm l d bs : push_batch l d bs ≫= snd ≡ₚ d :: (bs ≫= snd).
Proof.
  induction bs as [|[l' ds] bs IH]; cbn [push_batch]; [done|]. case_bool_decide; rewrite !bind_cons; cbn [snd].
  - by rewrite <- (Permutation_cons_append ds d).
  - by rewrite IH, <- Permutation_middle.
Qed.
Lemma push_batch_names l d bs : (push_batch l d bs).*1 = if bool_decide (l ∈ bs.*1) then bs.*1 else bs.*1 ++ [l].
Proof.
  induction bs as [|[l' ds] bs IH]; cbn [push_batch fmap list_fmap fst]; [done|]. destruct (decide (l' = l)) as [->|Hl].
  - rewrite (bool_decide_true (l = l)) by done. cbn. rewrite bool_decide_true; [done|set_solver].
  - rewrite (bool_decide_false (l' = l)) by done. cbn [fmap list_fmap fst]. rewrite IH.
    rewrite (bool_decide_ext (l ∈ l' :: bs.*1) (l ∈ bs.*1)) by set_solver. by case_bool_decide.
Qed.
(** The copies filed under [l]. *)
Definition filed (l : bytes) (bs : list (bytes * list CopyDesc)) : list CopyDesc := bs ≫= fun b => if bool_decide (b.1 = l) then b.2 else [].
Lemma push_batch_filed l d bs l' : NoDup bs.*1 -> filed l' (push_batch l d bs) = filed l' bs ++ if bool_decide (l = l') then [d] else [].
Proof.
  unfold filed. induction bs as [|[k ds] bs IH]; intros Hnd.
  { cbn. case_bool_decide; by rewrite ?app_nil_r. }
  cbn in Hnd. apply NoDup_cons in Hnd as [Hk Hnd]. cbn [push_batch].
  destruct (decide (k = l)) as [->|Hl]; [rewrite (bool_decide_true (l = l)) by done|rewrite (bool_decide_false (k = l)) by done]; rewrite !bind_cons; cbn [fst snd].
  - case_bool_decide as Hl'; [|by rewrite app_nil_r]. subst l'.
    assert (bs ≫= (fun b => if bool_decide (b.1 = l) then b.2 else []) = []) as ->; [|by rewrite !app_nil_r].
    clear -Hk. induction bs as [|b bs IH]; [done|]. rewrite bind_cons. cbn in Hk. rewrite bool_decide_false by set_solver. apply IH. set_solver.
  - rewrite IH by done. by rewrite app_assoc.
Qed.

Lemma batches_snoc events cs ds c d :
  length cs = length ds ->
  make_batches events (cs ++ [c]) (ds ++ [d]) = push_batch (batch_name events (layer c)) d (make_batches events cs ds).
Proof. intros Hlen. unfold make_batches. by rewrite zip_with_app, foldl_app by done. Qed.

(** The copies and the names of the batches, from the copies of the part. *)
Lemma make_batches_spec events cs ds :
  length cs = length ds ->
  make_batches events cs ds ≫= snd ≡ₚ ds /\ NoDup (make_batches events cs ds).*1 /\
  (forall l, l ∈ (make_batches events cs ds).*1 <-> exists c, c ∈ cs /\ l = batch_name events (layer c)) /\
  (forall l, filed l (make_batches events cs ds) = (filter (fun p => batch_name events (layer p.1) = l) (zip cs ds)).*2).
Proof.
  revert ds. induction cs as [|c cs IH] using rev_ind; intros ds Hlen.
  { destruct ds; [|done]. split_and!; [done|constructor|intros l; split; [intros ?%elem_of_nil; done|intros (c & ?%elem_of_nil & _); done]|done]. }
  destruct ds as [|d ds _] using rev_ind; [rewrite length_app in Hlen; cbn in Hlen; lia|].
  rewrite !length_app in Hlen. cbn in Hlen. assert (length cs = length ds) as Hl by lia. rewrite batches_snoc by done.
  destruct (IH ds Hl) as (H1 & H2 & H3 & H4). split_and!.
  - rewrite push_batch_perm, H1. apply Permutation_cons_append.
  - rewrite push_batch_names. case_bool_decide as Hin; [done|]. apply NoDup_app. split_and!; [done|set_solver|apply NoDup_singleton].
  - intros l. rewrite push_batch_names. setoid_rewrite elem_of_app. setoid_rewrite list_elem_of_singleton. case_bool_decide as Hin.
    + rewrite H3. split; [intros (x & Hx & ->); exists x; auto|]. intros (x & [Hx| ->] & ->); [by exists x|]. by apply H3.
    + rewrite elem_of_app, H3, list_elem_of_singleton. split; [intros [(x & Hx & ->)| ->]; eauto|]. intros (x & [Hx| ->] & ->); eauto.
  - intros l. rewrite push_batch_filed by done. rewrite H4, zip_with_app, filter_app, fmap_app by done. f_equal.
    cbn [zip_with]. rewrite filter_cons. cbn [fst]. case_bool_decide; [by rewrite decide_True|by rewrite decide_False].
Qed.

Lemma copies_in_app a b : copies_in (a ++ b) = copies_in a ++ copies_in b.
Proof. apply bind_app. Qed.
Lemma events_no_copies es : copies_in (OpEvent <$> es) = [].
Proof. by induction es. Qed.

(** The batches carry their copies, and nothing else. *)
Lemma batch_copies completed events bs : copies_in (bs ≫= batch_ops completed events) ≡ₚ bs ≫= snd.
Proof.
  induction bs as [|b bs IH]; [done|]. rewrite !bind_cons, copies_in_app, IH. apply Permutation_app_tail. unfold batch_ops, copies_in. rewrite bind_cons.
  assert ((if bool_decide (b.1 ∈ completed) then match events !! b.1 with Some e => [OpEvent e] | None => [] end else []) ≫= (fun op => match op with OpCopies _ ds => ds | _ => [] end) = []) as ->
    by (case_bool_decide; [|done]; by destruct (events !! b.1)).
  rewrite app_nil_r. apply merge_sort_Permutation.
Qed.

Section Submission.
Context (h2d : list StreamOp -> list CopyDesc -> option string) (record_event : list StreamOp -> Z -> option string).

(** Only copies of the batches are submitted, and nothing is drained on the way. *)
Lemma submit_batches_prefix completed bs : forall events ops r events' ops',
  submit_batches h2d record_event completed bs events ops = (r, events', ops') ->
  exists new rest, ops' = ops ++ new /\ copies_in new ++ rest ≡ₚ bs ≫= snd /\ OpDrained ∉ new.
Proof.
  induction bs as [|[l ds] bs IH]; intros events ops r events' ops'; cbn [submit_batches].
  { intros [= <- <- <-]. exists [], []. rewrite app_nil_r. split_and!; [done|done|set_solver]. }
  assert (forall tail more rest, copies_in more = [] -> OpDrained ∉ more -> copies_in tail ++ rest ≡ₚ bs ≫= snd -> OpDrained ∉ tail ->
    copies_in (OpCopies l (merge_sort device_le ds) :: more ++ tail) ++ rest ≡ₚ ((l, ds) :: bs) ≫= snd /\
    OpDrained ∉ OpCopies l (merge_sort device_le ds) :: more ++ tail) as Hstep.
  { intros tail more rest Hm Hd Hp Ht. split; [|set_solver]. rewrite bind_cons. cbn [snd].
    change (OpCopies l (merge_sort device_le ds) :: more ++ tail) with ([OpCopies l (merge_sort device_le ds)] ++ more ++ tail).
    rewrite !copies_in_app, Hm. cbn [app]. unfold copies_in at 1. cbn. rewrite app_nil_r, <- app_assoc, Hp. by rewrite merge_sort_Permutation. }
  assert (forall tail rest, copies_in tail ++ rest ≡ₚ bs ≫= snd -> OpDrained ∉ tail ->
    exists new rest', (ops ++ [OpCopies l (merge_sort device_le ds)]) ++ tail = ops ++ new /\
    copies_in new ++ rest' ≡ₚ ((l, ds) :: bs) ≫= snd /\ OpDrained ∉ new) as Hplain.
  { intros tail rest Hp Ht. rewrite <- app_assoc. eexists _, rest. split; [done|]. apply (Hstep tail []); set_solver. }
  assert (copies_in [] ++ (bs ≫= snd) ≡ₚ bs ≫= snd) as Hnone by done.
  destruct (h2d _ _). { intros [= <- <- <-]. destruct (Hplain [] _ Hnone ltac:(set_solver)) as (new & rest & H1 & H2). rewrite app_nil_r in H1. eauto. }
  destruct (bool_decide _) eqn:Ed; [destruct (events !! l) as [e|] eqn:Ee|].
  - unfold step_event. destruct (record_event _ e) as [err|].
    { intros [= <- <- <-]. destruct (Hplain [] _ Hnone ltac:(set_solver)) as (new & rest & H1 & H2). rewrite app_nil_r in H1. eauto. }
    intros Hrun. apply IH in Hrun as (new & rest & -> & Hp & Hd). rewrite <- !app_assoc. eexists _, rest. split; [done|].
    apply (Hstep new [OpEvent e]); try done; set_solver.
  - intros Hrun. apply IH in Hrun as (new & rest & -> & Hp & Hd). by apply (Hplain new rest).
  - intros Hrun. apply IH in Hrun as (new & rest & -> & Hp & Hd). by apply (Hplain new rest).
Qed.

(** What a submission that succeeds has sent, and the events that are still owed. *)
Lemma submit_batches_Ok completed bs : forall events ops events' ops',
  NoDup bs.*1 -> submit_batches h2d record_event completed bs events ops = (Ok tt, events', ops') ->
  ops' = ops ++ (bs ≫= batch_ops completed events) /\ events' = filter (fun p => p.1 ∉ completed \/ p.1 ∉ bs.*1) events.
Proof.
  induction bs as [|[l ds] bs IH]; intros events ops events' ops' Hnd; cbn [submit_batches].
  { intros [= <- <-]. rewrite app_nil_r. split; [done|]. symmetry. apply map_filter_id. intros. right. set_solver. }
  cbn in Hnd. apply NoDup_cons in Hnd as [Hl Hnd]. rewrite bind_cons. unfold batch_ops at 1. cbn [fst snd].
  assert (forall ev : gmap bytes Z, (forall k, k <> l -> ev !! k = events !! k) -> bs ≫= batch_ops completed ev = bs ≫= batch_ops completed events) as Hext.
  { intros ev Hev. clear IH Hnd. induction bs as [|b bs IH]; [done|]. rewrite !bind_cons. cbn in Hl.
    unfold batch_ops at 1 3. rewrite (Hev b.1) by set_solver. f_equal. apply IH. set_solver. }
  destruct (h2d _ _); [done|]. case_bool_decide as Hc; [destruct (events !! l) as [e|] eqn:Ee|].
  - unfold step_event. destruct (record_event _ e); [done|]. intros Hrun. apply IH in Hrun as [-> ->]; [|done].
    rewrite Hext by (intros; by apply lookup_delete_ne). rewrite <- !app_assoc. split; [done|]. apply map_eq. intros k.
    destruct (decide (k = l)) as [->|Hk].
    + rewrite !map_lookup_filter, lookup_delete_eq, Ee. cbn. case_guard; [set_solver|done].
    + rewrite !map_lookup_filter, lookup_delete_ne by done. destruct (events !! k); cbn; [|done].
      case_guard as H1; case_guard as H2; try done; exfalso; set_solver.
  - intros Hrun. apply IH in Hrun as [-> ->]; [|done]. rewrite <- app_assoc. split; [done|]. apply map_filter_ext. cbn.
    intros k x Hx. assert (k <> l) by congruence. set_solver.
  - intros Hrun. apply IH in Hrun as [-> ->]; [|done]. rewrite <- app_assoc. split; [done|]. apply map_filter_ext. cbn. intros k x Hx.
    destruct (decide (k = l)) as [->|]; set_solver.
Qed.

Lemma record_all_spec l : forall ops r ops',
  record_all record_event l ops = (r, ops') ->
  exists k, ops' = ops ++ (OpEvent <$> take k l.*2) /\ (r = Ok tt -> ops' = ops ++ (OpEvent <$> l.*2)).
Proof.
  induction l as [|[n e] l IH]; intros ops r ops'; cbn [record_all]; [intros [= <- <-]; exists 0%nat; cbn; by rewrite app_nil_r|].
  unfold step_event. destruct (record_event ops e); [intros [= <- <-]; exists 0%nat; cbn; split; [by rewrite app_nil_r|done]|].
  intros Hrun. apply IH in Hrun as (k & -> & Hok). exists (S k). rewrite <- app_assoc. split; [done|].
  intros Hr. specialize (Hok Hr). rewrite <- !app_assoc in Hok. exact Hok.
Qed.

(** What a part may have done to the stream when the executor returns [r]. *)
Record confined (ex : LocalRestoreExecutor) (plan : RawRestorePart) (r : result unit string) (new : list StreamOp) : Prop := {
  cf_drained : new = [] /\ r <> Ok tt \/ exists before, new = before ++ [OpDrained] /\ OpDrained ∉ before;
  cf_consistent : copies_in new <> [] -> consistent (copies plan);
  cf_inside : Forall (fun d => desc_ok d /\ exists c, c ∈ copies plan /\ desc_for ex c d) (copies_in new);
  cf_disjoint : NoDup ((target <$> copies_in new) ≫= target_bytes);
  cf_complete : r = Ok tt -> exists ds, Forall2 (desc_for ex) (copies plan) ds /\ copies_in new ≡ₚ ds
}.

Lemma confined_refused ex plan e : confined ex plan (Err e) [].
Proof. split; [by left|done|constructor|constructor|done]. Qed.

(** Copies of checked descriptors, some of them left out after a failure. *)
Lemma confined_submitted ex plan r before ds rest :
  executor_ok ex -> Forall words_ok (copies plan) -> check_copies ex ∅ (copies plan) = Ok ds ->
  overlapping (merge_sort key_le (target <$> ds)) = false ->
  copies_in before ++ rest ≡ₚ ds -> OpDrained ∉ before -> (r = Ok tt -> rest = []) ->
  confined ex plan r (before ++ [OpDrained]).
Proof.
  intros Hex Hw Ec Eo Hp Hd Hr. destruct (check_copies_Ok _ _ _ _ Hw Ec) as (Hds & Hcon & _).
  assert (copies_in (before ++ [OpDrained]) = copies_in before) as Hin by (rewrite copies_in_app; apply app_nil_r).
  assert (Forall (fun d => (desc_ok d /\ exists c, c ∈ copies plan /\ desc_for ex c d) /\ 0 <= DmaCopies.size d) ds) as Hall.
  { apply Forall_forall. intros d Hdin. apply list_elem_of_lookup in Hdin as [i Hi].
    destruct (Forall2_lookup_r _ _ _ i d Hds Hi) as (c & Hc%list_elem_of_lookup_2 & Hf). rewrite Forall_forall in Hw.
    pose proof (desc_for_ok ex c d Hex (Hw c Hc) Hf) as Hok. split; [split; [done|by exists c]|]. unfold desc_ok in Hok. lia. }
  apply Forall_and in Hall as [Hall Hsz].
  split; rewrite ?Hin.
  - right. by exists before.
  - done.
  - rewrite <- Hp in Hall. by apply Forall_app in Hall as [? _].
  - pose proof (disjoint_targets ds Hsz Eo) as Hnd. rewrite <- Hp, fmap_app, bind_app in Hnd. by apply NoDup_app in Hnd as [? _].
  - intros Hok. exists ds. split; [done|]. by rewrite <- Hp, (Hr Hok), app_nil_r.
Qed.

Lemma submit_batches_all completed bs events ops events' ops' new rest :
  submit_batches h2d record_event completed bs events ops = (Ok tt, events', ops') -> NoDup bs.*1 ->
  ops' = ops ++ new -> copies_in new ++ rest ≡ₚ bs ≫= snd -> rest = [].
Proof.
  intros Hrun Hnd -> Hp. apply submit_batches_Ok in Hrun as [Hnew%app_inv_head _]; [|done]. subst new.
  rewrite batch_copies in Hp. apply Permutation_length in Hp. rewrite length_app in Hp. destruct rest; [done|]. cbn in Hp. lia.
Qed.

Context (bind_to_thread : list StreamOp -> option string) (drain : gmap bytes Z -> list (bytes * Z)).

(** C8. Whatever plan the Manager sends, the engine's copies are confined: each one reads inside the
    allocation that the grant names, itself inside a registered arena, and writes inside the
    registered tensor of its layer; one allocation has one extent; no two destinations of a part share
    a byte; the stream is drained before the executor returns, also after a failure; and a part
    that succeeds has submitted exactly its copies. *)
Theorem execute_confined ex plan events final_part ops r events' ops' :
  executor_ok ex -> Forall words_ok (copies plan) ->
  execute bind_to_thread h2d record_event drain ex plan events final_part ops = (r, events', ops') ->
  exists new, ops' = ops ++ new /\ confined ex plan r new.
Proof.
  intros Hex Hw. unfold execute.
  assert (forall e ev, (Err e, ev, ops) = (r, events', ops') -> exists new, ops' = ops ++ new /\ confined ex plan r new) as Hrefused.
  { intros e ev [= <- <- <-]. exists []. rewrite app_nil_r. split; [done|apply confined_refused]. }
  destruct (bind_to_thread ops); [apply Hrefused|]. destruct (check_copies ex ∅ (copies plan)) as [ds|] eqn:Ec; [|apply Hrefused].
  fold target. destruct (overlapping _) eqn:Eo; [apply Hrefused|]. clear Hrefused.
  destruct (make_batches_spec events (copies plan) ds) as (Hperm & Hnd & _ & _).
  { destruct (check_copies_Ok _ _ _ _ Hw Ec) as (Hds & _). by eapply Forall2_length. }
  destruct (submit_batches _ _ _ _ _ _) as [[r1 ev1] ops1] eqn:Es.
  destruct (submit_batches_prefix _ _ _ _ _ _ _ Es) as (new & rest & Hops & Hp & Hd). rewrite Hperm in Hp.
  assert (r1 = Ok tt -> rest = []) as Hfull.
  { intros ->. eapply submit_batches_all; [done|done|done|]. by rewrite Hperm. }
  subst ops1. destruct r1 as [[]|e].
  2: { intros [= <- <- <-]. exists (new ++ [OpDrained]). rewrite app_assoc. split; [done|]. by apply (confined_submitted ex plan _ new ds rest). }
  destruct final_part.
  2: { intros [= <- <- <-]. exists (new ++ [OpDrained]). rewrite app_assoc. split; [done|]. by apply (confined_submitted ex plan _ new ds rest). }
  destruct (record_all _ _ _) as [r2 ops2] eqn:Er. apply record_all_spec in Er as (k & -> & _). intros [= <- <- <-].
  set (es := OpEvent <$> take k _). set (tail := match r2 with Ok _ => [OpEnqueued] | Err _ => [] end).
  exists ((new ++ es ++ tail) ++ [OpDrained]). split; [unfold tail; destruct r2; by rewrite ?app_nil_r, <- !app_assoc|].
  apply (confined_submitted ex plan _ _ ds rest); try done.
  - rewrite !copies_in_app. unfold es. rewrite events_no_copies. unfold tail. by destruct r2; cbn; rewrite app_nil_r.
  - intros [?|[Hin|Hin]%elem_of_app]%elem_of_app; [done| |unfold tail in Hin; destruct r2; set_solver].
    apply list_elem_of_fmap in Hin as (? & ? & _). done.
  - intros _. by apply Hfull.
Qed.
End Submission.

Lemma execute_confined_witness :
  let ex := mkExecutor {[str "a" := mkTensor (str "a") 1000 64 1]} {[7 := mkArena 4096 8192 1024]} in
  let copy from to := mkCopy (mkSource 7 3 256 512 from 16) (str "a") to in
  let plan := mkPart [copy 272 16; copy 256 0] [str "a"] in
  exists new, execute (fun _ => None) (fun _ _ => None) (fun _ _ => None) map_to_list ex plan {[str "a" := 11]} true [] = (Ok tt, ∅, new) /\
    confined ex plan (Ok tt) new.
Proof.
  intros ex copy plan.
  destruct (execute (fun _ => None) (fun _ _ => None) (fun _ _ => None) map_to_list ex plan {[str "a" := 11]} true []) as [[r ev] ops] eqn:E.
  destruct (execute_confined (fun _ _ => None) (fun _ _ => None) (fun _ => None) map_to_list ex plan {[str "a" := 11]} true [] r ev ops)
    as (new & Hops & Hc).
  - split; apply map_Forall_singleton; vm_compute; split_and!; done.
  - repeat (apply Forall_cons; split; [repeat constructor; done|]). constructor.
  - exact E.
  - cbn [app] in Hops. subst ops. exists new.
    assert (r = Ok tt) as -> by (change r with ((r, ev, new).1.1); rewrite <- E; vm_compute; reflexivity).
    assert (ev = ∅) as -> by (change ev with ((Ok tt : result unit string, ev, new).1.2); rewrite <- E; vm_compute; reflexivity).
    split; [reflexivity|exact Hc].
Defined.
