(* ===== verification/RestoreOrder.v ===== *)
(** * Order of copies and events in a restore

    The parts of one restore (orbitkv-core/src/transfer/local.rs) are executed one after another on the
    same stream, the last one with [final_part] set.  The layer events of the operation are recorded
    once each, and not before the last copy of their layer. *)
From S2P Require Import Prelude Containers Wire DmaCopies RestorePlan RestoreExec.

Local Open Scope Z_scope.
Local Open Scope rust_scope.

(** ** Validated events are distinct *)

Lemma validate_events_NoDup ex l : forall handles,
  validate_events ex l handles = Ok tt -> NoDup l.*2 /\ (forall e, e ∈ l.*2 -> ~ (e ∈ handles) /\ e <> 0) /\ Forall (fun p => is_Some (tensors ex !! p.1)) l.
Proof.
  induction l as [|[n e] l IH]; intros handles; cbn [validate_events]; [intros _; split_and!; [constructor|set_solver|constructor]|].
  unfold valid_event. destruct (_ && _) eqn:E; [|done]. intros (H1 & H2 & H3)%IH. rewrite !andb_true_iff, !negb_true_iff in E.
  destruct E as [[Et%bool_decide_eq_true E0] Eh%bool_decide_eq_false]. cbn. split_and!.
  - constructor; [|done]. intros [? _]%H2. set_solver.
  - intros x [->|Hx]%elem_of_cons; [split; [done|lia]|]. destruct (H2 x Hx). set_solver.
  - by constructor.
Qed.
Lemma validate_layer_events_NoDup ex events : validate_layer_events ex events = Ok tt -> NoDup (map_to_list events).*2.
Proof. intros H. by apply validate_events_NoDup in H as (? & _). Qed.

(** ** Layers completed by a part *)

Lemma elem_of_finals l g post : l ∈ finals g post <-> l ∈ (layer <$> g) /\ l ∉ (layer <$> post).
Proof.
  induction g as [|c g IH]; cbn [finals]; [set_solver|]. unfold is_last. rewrite elem_of_app, IH, fmap_app, fmap_cons, elem_of_cons.
  case_bool_decide as Hl; [|set_solver]. rewrite elem_of_app in Hl. rewrite list_elem_of_singleton. set_solver.
Qed.

(** ** Parts that validation accepts *)

(** What a part must be for the engine to execute it: every copy from inside a granted allocation of a registered arena into a registered tensor, with a
    representable device address; one extent per allocation; no byte written twice. *)
Record acceptable (ex : LocalRestoreExecutor) (p : RawRestorePart) : Prop := {
  acc_copies : Forall (fun c => allocation_id (source c) <> 0 /\ exists d, desc_for ex c d /\ host_device d <= u64_max) (copies p);
  acc_consistent : consistent (copies p);
  acc_disjoint : forall ds, Forall2 (desc_for ex) (copies p) ds -> NoDup ((target <$> ds) ≫= target_bytes)
}.

Lemma desc_for_unique ex c d d' : desc_for ex c d -> desc_for ex c d' -> d = d'.
Proof. intros [a t Ha Ht -> _ _ _] [a' t' Ha' Ht' -> _ _ _]. congruence. Qed.
Lemma descs_unique ex cs ds ds' : Forall2 (desc_for ex) cs ds -> Forall2 (desc_for ex) cs ds' -> ds = ds'.
Proof.
  intros H. revert ds'. induction H as [|c d cs ds Hd H IH]; intros ds' H'; inversion H' as [|? ? ? ? Hd' H'']; [done|]. f_equal; [by eapply desc_for_unique|by apply IH].
Qed.

Lemma check_copy_complete ex m c d :
  executor_ok ex -> words_ok c -> allocation_id (source c) <> 0 -> desc_for ex c d -> host_device d <= u64_max ->
  (forall b, m !! grant_key c = Some b -> b = grant_bounds c) -> check_copy ex m c = Ok (<[grant_key c := grant_bounds c]> m, d).
Proof.
  intros [Htok Haok] Hw Hid [a t Ha Ht -> Hs Hsrc Hdst] Hh Hm. pose proof Hw as (H1 & H2 & H3 & H4 & H5)%words_nonneg. cbn in Hh.
  specialize (Htok _ _ Ht). specialize (Haok _ _ Ha). unfold tensor_ok in Htok. unfold arena_ok in Haok. unfold check_copy. rewrite Ha. cbn [ok_or].
  assert (forall x y, x + y <= u64_max -> checked_add x y = Some (x + y)) as Hadd by (intros x y Hle; unfold checked_add; by rewrite (proj2 (Z.leb_le _ _))).
  rewrite !Hadd by lia. cbn [ok_or]. destruct (_ || (_ <? offset _ + _)) eqn:Eb; [rewrite !orb_true_iff, !Z.eqb_eq, !Z.ltb_lt in Eb; lia|].
  fold (grant_key c) (grant_bounds c). assert (default (grant_bounds c) (m !! grant_key c) = grant_bounds c) as -> by (destruct (m !! grant_key c) as [b|] eqn:E; [by apply Hm|done]).
  rewrite bool_decide_true by done. cbn [negb]. rewrite Ht. cbn [ok_or].
  rewrite (proj2 (Z.ltb_ge (t_bytes t) _)) by lia. by rewrite (Hadd (address t)) by lia.
Qed.
Lemma check_copies_complete ex cs : forall m ds,
  executor_ok ex -> Forall words_ok cs -> Forall2 (fun c d => allocation_id (source c) <> 0 /\ desc_for ex c d /\ host_device d <= u64_max) cs ds ->
  consistent cs -> (forall c b, c ∈ cs -> m !! grant_key c = Some b -> b = grant_bounds c) -> check_copies ex m cs = Ok ds.
Proof.
  induction cs as [|c cs IH]; intros m ds Hex Hw Hds Hcon Hm; inversion Hds as [|? d ? ds' (Hid & Hd & Hh) Hds']; subst; [done|]. inversion_clear Hw as [|? ? Hc Hcs]. cbn [check_copies].
  rewrite (check_copy_complete ex m c d) by (done || (intros; apply (Hm c); [left|done])). rewrite (IH _ ds'); try done.
  - intros x y Hx Hy. apply Hcon; by right.
  - intros x b Hx. destruct (decide (grant_key x = grant_key c)) as [Hk|Hne]; [rewrite Hk, lookup_insert_eq; intros [= <-]; apply Hcon; [left|by right|done]|].
    rewrite lookup_insert_ne by done. apply Hm. by right.
Qed.

(** Sorted ranges without a common byte are apart. *)
Lemma disjoint_not_overlapping l :
  StronglySorted key_le l -> Forall (fun t => 0 < t.2 /\ t.1 + t.2 <= u64_max) l -> NoDup (l ≫= target_bytes) -> overlapping l = false.
Proof.
  induction l as [|a l IH]; intros Hs Hp Hnd; [done|]. inversion_clear Hs as [|? ? Hs' Ha]. inversion_clear Hp as [|? ? [Hpa Hra] Hp']. destruct l as [|b l]; [done|].
  rewrite bind_cons in Hnd. apply NoDup_app in Hnd as (_ & Hdis & Hnd). cbn [overlapping]. apply orb_false_iff. split; [|by apply IH].
  unfold checked_add. rewrite (proj2 (Z.leb_le _ _)) by done. apply Z.ltb_ge. inversion_clear Ha as [|? ? Hab _]. inversion_clear Hp' as [|? ? [Hpb _] _].
  assert (a.1 <= b.1) as Hle. { unfold key_le, cmp, pair_ord, pair_cmp in Hab. cbn in Hab. destruct (Z.compare_spec a.1 b.1); try lia. congruence. }
  destruct (decide (a.1 + a.2 <= b.1)) as [|Hgt]; [done|]. exfalso. apply (Hdis b.1).
  - apply elem_of_seqZ. lia.
  - apply list_elem_of_bind. exists b. split; [apply elem_of_seqZ; lia|left].
Qed.

Lemma check_copy_addresses ex m c m' d : check_copy ex m c = Ok (m', d) -> allocation_id (source c) <> 0 /\ host_device d <= u64_max.
Proof.
  unfold check_copy. destruct (arenas ex !! _) as [a|]; cbn [ok_or]; [|done]. destruct (checked_add (allocation_offset _) _); cbn [ok_or]; [|done].
  destruct (checked_add (offset _) _); cbn [ok_or]; [|done]. destruct (Z.eqb_spec (allocation_id (source c)) 0); [done|]. destruct (_ || _); [done|]. destruct (negb _); [done|].
  destruct (tensors ex !! _) as [t|]; cbn [ok_or]; [|done]. destruct (checked_add (destination_offset c) _); cbn [ok_or]; [|done]. destruct (_ <? _); [done|].
  destruct (checked_add (address t) _); cbn [ok_or]; [|done]. destruct (checked_add (device_pointer a) _) as [h|] eqn:E; cbn [ok_or]; [|done].
  apply checked_add_Some in E as [-> ?]. by intros [= _ <-].
Qed.
Lemma check_copies_addresses ex cs : forall m ds, check_copies ex m cs = Ok ds -> Forall2 (fun c d => allocation_id (source c) <> 0 /\ host_device d <= u64_max) cs ds.
Proof.
  induction cs as [|c cs IH]; intros m ds; cbn [check_copies]; [by intros [= <-]|]. destruct (check_copy ex m c) as [[m' d]|] eqn:Ec; [|done].
  destruct (check_copies ex m' cs) as [ds'|] eqn:Er; [|done]. intros [= <-]. constructor; [by eapply check_copy_addresses|by eapply IH].
Qed.

(** Validation accepts exactly the acceptable parts. *)
Definition accepts (ex : LocalRestoreExecutor) (p : RawRestorePart) : bool :=
  match check_copies ex ∅ (copies p) with Ok ds => negb (overlapping (merge_sort key_le (target <$> ds))) | Err _ => false end.
Lemma accepts_iff ex p : executor_ok ex -> Forall words_ok (copies p) -> accepts ex p = true <-> acceptable ex p.
Proof.
  intros Hex Hw. unfold accepts. split.
  - destruct (check_copies ex ∅ (copies p)) as [ds|] eqn:Hc; [|done]. intros Ho%negb_true_iff. destruct (check_copies_Ok _ _ _ _ Hw Hc) as (Hds & Hcon & _). pose proof (check_copies_addresses _ _ _ _ Hc) as Had. split; [|done|].
    + apply Forall_lookup. intros i c Hi. destruct (Forall2_lookup_l _ _ _ i c Hds Hi) as (d & Hd & Hf). destruct (Forall2_lookup_lr _ _ _ i c d Had Hi Hd) as [? ?]. eauto.
    + intros ds' Hds'. rewrite (descs_unique ex (copies p) ds' ds) by done. apply disjoint_targets; [|done]. apply Forall_lookup. intros i d Hi.
      destruct (Forall2_lookup_r _ _ _ i d Hds Hi) as (c & _ & [a t' _ _ -> Hs _ _]). cbn. lia.
  - intros [Hcs Hcon Hdis]. assert (exists ds, Forall2 (fun c d => allocation_id (source c) <> 0 /\ desc_for ex c d /\ host_device d <= u64_max) (copies p) ds) as [ds Hds].
    { clear -Hcs. induction Hcs as [|c cs (Hid & d & Hd & Hh) _ [ds IH]]; [by exists []|]. exists (d :: ds). by constructor. }
    rewrite (check_copies_complete ex (copies p) ∅ ds) by (done || intros ? ? _; by rewrite lookup_empty). apply negb_true_iff.
    assert (Forall2 (desc_for ex) (copies p) ds) as Hf by (eapply Forall2_impl; [exact Hds|]; by intros ? ? (_ & ? & _)). apply disjoint_not_overlapping.
    + apply Sorted_StronglySorted; [apply _|]. apply Sorted_merge_sort; apply _.
    + rewrite merge_sort_Permutation. apply Forall_fmap, Forall_lookup. intros i d Hi. destruct (Forall2_lookup_r _ _ _ i d Hf Hi) as (c & Hc & Hd). destruct Hex as [Ht _].
      destruct Hd as [a t' _ Htt -> Hs _ Hdst]. specialize (Ht _ _ Htt). unfold tensor_ok in Ht. cbn. lia.
    + rewrite merge_sort_Permutation. by apply Hdis.
Qed.

(** ** Several parts *)

Definition sent (l : bytes) (ops : list StreamOp) : list CopyDesc :=
  ops ≫= fun op => match op with OpCopies l' ds => if bool_decide (l' = l) then ds else [] | _ => [] end.
Definition events_in (ops : list StreamOp) : list Z := ops ≫= fun op => match op with OpEvent e => [e] | _ => [] end.
(** The descriptors of the copies of layer [l]. *)
Definition descs_of (l : bytes) (cs : list RawCopy) (ds : list CopyDesc) : list CopyDesc :=
  (filter (fun p => layer p.1 = l) (zip cs ds)).*2.

Lemma sent_app l a b : sent l (a ++ b) = sent l a ++ sent l b.
Proof. apply bind_app. Qed.
Lemma events_in_app a b : events_in (a ++ b) = events_in a ++ events_in b.
Proof. apply bind_app. Qed.
Lemma events_in_events es : events_in (OpEvent <$> es) = es.
Proof. unfold events_in. induction es as [|e es IH]; [done|]. rewrite fmap_cons, bind_cons, IH. done. Qed.
Lemma sent_events l es : sent l (OpEvent <$> es) = [].
Proof. by induction es. Qed.
Lemma descs_of_app l cs cs' ds ds' : length cs = length ds -> descs_of l (cs ++ cs') (ds ++ ds') = descs_of l cs ds ++ descs_of l cs' ds'.
Proof. intros H. unfold descs_of. by rewrite zip_with_app, filter_app, fmap_app. Qed.

(** ** Events of a part *)

Lemma values_of_keys (ls : list bytes) (m : gmap bytes Z) :
  NoDup ls -> ls ≫= (fun l => option_list (m !! l)) ≡ₚ (map_to_list (filter (fun e => e.1 ∈ ls) m)).*2.
Proof.
  induction ls as [|l ls IH]; intros Hnd.
  { assert (filter (fun e => e.1 ∈ []) m = ∅) as ->; [|by rewrite map_to_list_empty].
    apply map_empty. intros k. rewrite map_lookup_filter. destruct (m !! k); cbn; [|done]. case_guard; [set_solver|done]. }
  apply NoDup_cons in Hnd as [Hl Hnd]. rewrite bind_cons, IH by done. destruct (m !! l) as [e|] eqn:E; cbn [option_list app].
  - assert (filter (fun x => x.1 ∈ l :: ls) m = <[l := e]> (filter (fun x => x.1 ∈ ls) m)) as ->.
    { apply map_eq. intros k. rewrite map_lookup_filter. destruct (decide (k = l)) as [->|Hk].
      - rewrite lookup_insert_eq, E. cbn. case_guard; [done|set_solver].
      - rewrite lookup_insert_ne, map_lookup_filter by done. destruct (m !! k); cbn; [|done]. case_guard; case_guard; try done; set_solver. }
    rewrite map_to_list_insert; [done|]. rewrite map_lookup_filter, E. cbn. by case_guard.
  - assert (filter (fun e => e.1 ∈ l :: ls) m = filter (fun e => e.1 ∈ ls) m) as ->; [|done]. apply map_filter_ext. cbn. intros k v Hk. assert (k <> l) by congruence. set_solver.
Qed.

Lemma values_split (P : bytes * Z -> Prop) `{forall x, Decision (P x)} (m : gmap bytes Z) :
  (map_to_list m).*2 ≡ₚ (map_to_list (filter P m)).*2 ++ (map_to_list (filter (fun x => ~ P x) m)).*2.
Proof.
  induction m as [|k v m Hk IH] using map_ind; [by rewrite !map_filter_empty, map_to_list_empty|].
  rewrite map_to_list_insert, fmap_cons, IH by done. cbn [snd]. destruct (decide (P (k, v))) as [HP|HP].
  - rewrite (map_filter_insert_True P) by done. rewrite (map_filter_insert_False (fun x => ~ P x)), delete_id by (done || by intros Hn). rewrite map_to_list_insert; [done|]. rewrite map_lookup_filter, Hk. done.
  - rewrite (map_filter_insert_True (fun x => ~ P x)) by done. rewrite (map_filter_insert_False P), delete_id by done.
    rewrite (map_to_list_insert (filter (fun x => ~ P x) m)); [|by rewrite map_lookup_filter, Hk]. by rewrite fmap_cons, <- Permutation_middle.
Qed.

Lemma events_in_batches completed events bs :
  events_in (bs ≫= batch_ops completed events) = bs.*1 ≫= fun l => option_list (filter (fun e => e.1 ∈ completed) events !! l).
Proof.
  induction bs as [|[l ds] bs IH]; [done|]. rewrite fmap_cons, !bind_cons, events_in_app, IH. f_equal. unfold batch_ops. cbn [fst].
  rewrite map_lookup_filter. case_bool_decide as Hc; destruct (events !! l); cbn; try done; case_guard; done.
Qed.

(** The copies filed under a name go out together. *)
Lemma sent_batches l completed events bs : sent l (bs ≫= batch_ops completed events) ≡ₚ filed l bs.
Proof.
  unfold filed. induction bs as [|[k ds] bs IH]; [done|]. rewrite !bind_cons, sent_app, IH. apply Permutation_app_tail. cbn [fst snd].
  unfold batch_ops, sent. rewrite bind_cons. cbn [fst snd].
  assert (forall x : list StreamOp, x = [] \/ (exists e, x = [OpEvent e]) ->
    x ≫= (fun op => match op with OpCopies l' ds => if bool_decide (l' = l) then ds else [] | _ => [] end) = []) as Hno.
  { intros x [->|[e ->]]; done. }
  rewrite Hno, app_nil_r by (case_bool_decide; [destruct (events !! k)|]; eauto). case_bool_decide; [apply merge_sort_Permutation|done].
Qed.

Lemma filed_absent l bs : l ∉ bs.*1 -> filed l bs = [].
Proof.
  unfold filed. induction bs as [|[k ds] bs IH]; intros Hl; [done|]. rewrite bind_cons. cbn in Hl |- *.
  rewrite bool_decide_false by set_solver. apply IH. set_solver.
Qed.

(** The event of a completed layer follows the copies of the layer in its part. *)
Lemma event_after_batch l e completed events bs :
  NoDup bs.*1 -> l ∈ bs.*1 -> l ∈ completed -> events !! l = Some e ->
  exists pre post, bs ≫= batch_ops completed events = pre ++ OpEvent e :: post /\ sent l pre ≡ₚ filed l bs.
Proof.
  intros Hnd Hin Hc He. apply list_elem_of_fmap in Hin as ([k ds] & Hk & Hin). cbn in Hk. subst k. apply list_elem_of_split in Hin as (b1 & b2 & ->). cbn [fst] in *.
  rewrite fmap_app, fmap_cons in Hnd. apply NoDup_app in Hnd as (_ & H1 & (H2 & _)%NoDup_cons). cbn [fst] in *.
  exists ((b1 ≫= batch_ops completed events) ++ [OpCopies l (merge_sort device_le ds)]), (b2 ≫= batch_ops completed events). split.
  - rewrite bind_app, bind_cons, <- app_assoc. unfold batch_ops at 2. cbn [fst snd]. by rewrite bool_decide_true, He.
  - unfold filed at 1. rewrite sent_app, sent_batches, bind_app, bind_cons. cbn [fst snd]. rewrite bool_decide_true by done.
    rewrite (filed_absent l b1) by set_solver. fold (filed l b1) (filed l b2). rewrite (filed_absent l b1), (filed_absent l b2) by set_solver.
    rewrite app_nil_r. cbn. rewrite bool_decide_true, app_nil_r by done. apply merge_sort_Permutation.
Qed.

(** An event recorded once splits the stream in one way. *)
Lemma event_once e pre post pre' post' :
  NoDup (events_in (pre ++ OpEvent e :: post)) -> pre ++ OpEvent e :: post = pre' ++ OpEvent e :: post' -> pre = pre'.
Proof.
  revert pre'. induction pre as [|x pre IH]; intros [|y pre'] Hnd Hsplit; cbn [app] in Hsplit; [done|..].
  - injection Hsplit as <- ->. exfalso. cbn in Hnd. rewrite events_in_app in Hnd. apply NoDup_cons in Hnd as [Hn _]. cbn in Hn. set_solver.
  - injection Hsplit as -> <-. exfalso. cbn in Hnd. rewrite events_in_app in Hnd. apply NoDup_cons in Hnd as [Hn _]. cbn in Hn. set_solver.
  - injection Hsplit as <- Hs. f_equal. apply IH; [|done]. change ((x :: pre) ++ OpEvent e :: post) with ([x] ++ (pre ++ OpEvent e :: post)) in Hnd.
    rewrite events_in_app in Hnd. by apply NoDup_app in Hnd as (_ & _ & ?).
Qed.

Section Parts.
Context (bind_to_thread : list StreamOp -> option string) (h2d : list StreamOp -> list CopyDesc -> option string)
        (record_event : list StreamOp -> Z -> option string) (drain : gmap bytes Z -> list (bytes * Z)) (ex : LocalRestoreExecutor).
(** The driver answers every call, and draining a map yields its entries. *)
Hypothesis bind_answers : forall ops, bind_to_thread ops = None.
Hypothesis h2d_answers : forall ops ds, h2d ops ds = None.
Hypothesis record_answers : forall ops e, record_event ops e = None.
Hypothesis drain_all : forall m, drain m ≡ₚ map_to_list m.

Fixpoint run_parts (parts : list RawRestorePart) (events : gmap bytes Z) (ops : list StreamOp) : result unit string * gmap bytes Z * list StreamOp :=
  match parts with
  | [] => (Ok tt, events, ops)
  | p :: rest =>
      match execute bind_to_thread h2d record_event drain ex p events (bool_decide (rest = [])) ops with
      | (Ok _, events, ops) => run_parts rest events ops
      | stopped => stopped
      end
  end.

Lemma submit_batches_answers completed bs : forall events ops,
  exists events' ops', submit_batches h2d record_event completed bs events ops = (Ok tt, events', ops').
Proof.
  induction bs as [|[l ds] bs IH]; intros events ops; cbn [submit_batches]; [eauto|]. rewrite h2d_answers. unfold step_event.
  case_bool_decide; [|apply IH]. destruct (events !! l); [|apply IH]. rewrite record_answers. apply IH.
Qed.
Lemma record_all_answers l : forall ops, record_all record_event l ops = (Ok tt, ops ++ (OpEvent <$> l.*2)).
Proof.
  induction l as [|[n e] l IH]; intros ops; cbn [record_all]; [by rewrite app_nil_r|]. unfold step_event. rewrite record_answers, IH.
  by rewrite <- app_assoc.
Qed.

(** The operations of one accepted part: its batches, and at the end of the operation the events still owed. *)
Definition part_ops (p : RawRestorePart) (ds : list CopyDesc) (events : gmap bytes Z) : list StreamOp :=
  make_batches events (copies p) ds ≫= batch_ops (completed_layers p) events.
Definition owed (p : RawRestorePart) (events : gmap bytes Z) : gmap bytes Z := filter (fun e => e.1 ∉ completed_layers p) events.

Lemma execute_part p ds events final_part ops post :
  check_copies ex ∅ (copies p) = Ok ds -> overlapping (merge_sort key_le (target <$> ds)) = false -> Forall words_ok (copies p) ->
  completed_layers p = finals (copies p) post ->
  execute bind_to_thread h2d record_event drain ex p events final_part ops =
    (Ok tt, (if final_part then ∅ else owed p events),
     ops ++ part_ops p ds events ++
       (if final_part then (OpEvent <$> (drain (owed p events)).*2) ++ [OpEnqueued; OpDrained] else [OpDrained])).
Proof.
  intros Hc Ho Hw Hfin. unfold execute. rewrite bind_answers, Hc. fold target. rewrite Ho.
  destruct (submit_batches_answers (completed_layers p) (make_batches events (copies p) ds) events ops) as (ev & ops1 & Hs). rewrite Hs.
  destruct (check_copies_Ok _ _ _ _ Hw Hc) as (Hds & _). apply Forall2_length in Hds.
  destruct (make_batches_spec events (copies p) ds Hds) as (_ & Hnd & Hnames & _).
  apply submit_batches_Ok in Hs as [-> ->]; [|done].
  assert (filter (fun e => e.1 ∉ completed_layers p \/ e.1 ∉ (make_batches events (copies p) ds).*1) events = owed p events) as ->.
  { apply map_filter_ext. cbn. intros l e Hl. split; [|by left]. intros [?|Hn]; [done|]. intros Hin. apply Hn. apply Hnames.
    rewrite Hfin in Hin. apply elem_of_finals in Hin as [(c & -> & Hin)%list_elem_of_fmap _]. exists c. split; [done|].
    unfold batch_name. by rewrite bool_decide_true. }
  destruct final_part; [rewrite record_all_answers|]; by rewrite <- !app_assoc.
Qed.

Lemma filed_layer l events cs ds :
  length cs = length ds -> l <> [] -> is_Some (events !! l) -> filed l (make_batches events cs ds) = descs_of l cs ds.
Proof.
  intros Hlen Hl He. destruct (make_batches_spec events cs ds Hlen) as (_ & _ & _ & ->). unfold descs_of. f_equal. apply list_filter_iff.
  intros [c d]. cbn. unfold batch_name. case_bool_decide as Hc; [done|]. split; [done|]. intros Hlc. subst l. done.
Qed.

(** The events that one part records, and those it still owes, are the events it was given. *)
Lemma part_events p ds events post :
  length (copies p) = length ds -> completed_layers p = finals (copies p) post ->
  (map_to_list events).*2 ≡ₚ events_in (part_ops p ds events) ++ (map_to_list (owed p events)).*2.
Proof.
  intros Hlen Hfin. destruct (make_batches_spec events (copies p) ds Hlen) as (_ & Hnd & Hnames & _).
  unfold part_ops. rewrite events_in_batches, values_of_keys by done. rewrite (values_split (fun e => e.1 ∈ completed_layers p)).
  apply Permutation_app_tail.
  assert (filter (fun e => e.1 ∈ (make_batches events (copies p) ds).*1) (filter (fun e => e.1 ∈ completed_layers p) events) =
          filter (fun e => e.1 ∈ completed_layers p) events) as ->; [|done].
  apply map_filter_id. intros l e [Hl Hc]%map_lookup_filter_Some. cbn in *. apply Hnames. rewrite Hfin in Hc. apply elem_of_finals in Hc as [(c & -> & Hin)%list_elem_of_fmap _].
  exists c. split; [done|]. unfold batch_name. by rewrite bool_decide_true.
Qed.

(** The parts with copies [cs], executed before those with copies [later], record some events and owe the others: each once, and an event that is recorded comes
    behind all the copies of its layer, of which none is left. *)
Definition settled (events events' : gmap bytes Z) (cs : list RawCopy) (ds : list CopyDesc) (later : list RawCopy) (new : list StreamOp) : Prop :=
  events_in new ++ (map_to_list events').*2 ≡ₚ (map_to_list events).*2 /\
  forall l e, l <> [] -> events !! l = Some e -> events' !! l = None ->
    exists pre post, new = pre ++ OpEvent e :: post /\ sent l pre ≡ₚ descs_of l cs ds /\ l ∉ layer <$> later.

Lemma settled_final p ds events :
  length (copies p) = length ds -> completed_layers p = finals (copies p) [] ->
  settled events ∅ (copies p) ds [] (part_ops p ds events ++ (OpEvent <$> (drain (owed p events)).*2) ++ [OpEnqueued; OpDrained]).
Proof.
  intros Hlen Hfin. split.
  - rewrite (part_events p ds events []) by done. rewrite !events_in_app, events_in_events, drain_all, map_to_list_empty. by rewrite !app_nil_r.
  - intros l e Hl He _. destruct (make_batches_spec events (copies p) ds Hlen) as (_ & Hnd & Hnames & _). unfold part_ops.
    destruct (decide (l ∈ completed_layers p)) as [Hc|Hc].
    + destruct (event_after_batch l e (completed_layers p) events (make_batches events (copies p) ds)) as (pre & post & -> & Hs); try done.
      { apply Hnames. rewrite Hfin in Hc. apply elem_of_finals in Hc as [(c & -> & Hin)%list_elem_of_fmap _].
        exists c. split; [done|]. unfold batch_name. by rewrite bool_decide_true. }
      rewrite <- app_assoc. eexists pre, _. split; [done|]. rewrite Hs. split; [by rewrite filed_layer|set_solver].
    + assert (e ∈ (drain (owed p events)).*2) as Hin.
      { rewrite drain_all. apply list_elem_of_fmap. exists (l, e). split; [done|]. apply elem_of_map_to_list. by apply map_lookup_filter_Some. }
      apply list_elem_of_split in Hin as (e1 & e2 & ->). rewrite fmap_app, fmap_cons, <- app_assoc.
      eexists (_ ++ (OpEvent <$> e1)), _. rewrite <- app_assoc. split; [done|]. rewrite sent_app, sent_events, app_nil_r, sent_batches.
      split; [by rewrite filed_layer|set_solver].
Qed.

Lemma descs_of_absent l cs ds : l ∉ layer <$> cs -> descs_of l cs ds = [].
Proof.
  unfold descs_of. revert ds. induction cs as [|c cs IH]; intros [|d ds] Hl; try done. cbn [zip_with]. rewrite filter_cons.
  cbn in Hl |- *. rewrite decide_False by set_solver. apply IH. set_solver.
Qed.

Lemma settled_next p ds events events' post ds' later new :
  length (copies p) = length ds -> completed_layers p = finals (copies p) (post ++ later) -> length post = length ds' ->
  settled (owed p events) events' post ds' later new -> settled events events' (copies p ++ post) (ds ++ ds') later (part_ops p ds events ++ [OpDrained] ++ new).
Proof.
  intros Hlen Hfin Hlen' [Hev Hord]. split.
  - rewrite (part_events p ds events (post ++ later)) by done. rewrite !events_in_app. cbn [app events_in]. rewrite <- !app_assoc. by rewrite Hev.
  - intros l e Hl He He'. destruct (make_batches_spec events (copies p) ds Hlen) as (_ & Hnd & Hnames & _). unfold part_ops.
    rewrite descs_of_app by done. destruct (decide (l ∈ completed_layers p)) as [Hc|Hc].
    + rewrite Hfin in Hc. apply elem_of_finals in Hc as [Hin Hpost]. rewrite fmap_app in Hpost. apply not_elem_of_app in Hpost as [Hpost Hlater].
      destruct (event_after_batch l e (completed_layers p) events (make_batches events (copies p) ds)) as (pre & tail & -> & Hs); try done.
      { apply Hnames. apply list_elem_of_fmap in Hin as (c & -> & Hin). exists c. split; [done|]. unfold batch_name. by rewrite bool_decide_true. }
      { rewrite Hfin. apply elem_of_finals. rewrite fmap_app. split; [done|]. by apply not_elem_of_app. }
      rewrite <- app_assoc. eexists pre, _. split; [done|]. rewrite Hs, filed_layer by done.
      by rewrite (descs_of_absent l post), app_nil_r.
    + destruct (Hord l e Hl) as (pre & tail & -> & Hs & Hla); [by apply map_lookup_filter_Some|done|].
      exists ((make_batches events (copies p) ds ≫= batch_ops (completed_layers p) events) ++ [OpDrained] ++ pre), tail. rewrite <- !app_assoc. split; [done|].
      split; [|done]. rewrite !sent_app, sent_batches, Hs, filed_layer by done. done.
Qed.

Lemma accepts_Ok p : accepts ex p = true -> exists ds, check_copies ex ∅ (copies p) = Ok ds /\ overlapping (merge_sort key_le (target <$> ds)) = false.
Proof. unfold accepts. destruct (check_copies _ _ _) as [ds|]; [|done]. intros Ho%negb_true_iff. by exists ds. Qed.
Lemma execute_refused p events final_part ops : accepts ex p = false -> exists e, execute bind_to_thread h2d record_event drain ex p events final_part ops = (Err e, events, ops).
Proof.
  unfold accepts, execute. rewrite bind_answers. destruct (check_copies _ _ _) as [ds|]; [|by eexists]. fold target. intros ->%negb_false_iff. by eexists.
Qed.

Lemma accounts_copies parts : forall cs, accounts parts cs -> cs = parts ≫= copies.
Proof. induction parts as [|p parts IH]; intros cs; [done|]. intros (rest & -> & _ & Hacc). by rewrite bind_cons, <- (IH rest). Qed.

(** The first parts of a plan, up to one that is refused or to the end, with the copies of the parts that were executed. *)
Lemma run_parts_settles parts : forall events cs ops,
  parts <> [] -> Forall words_ok cs -> accounts parts cs ->
  exists k r events' ds new later, run_parts parts events ops = (r, events', ops ++ new) /\ cs = (take k parts ≫= copies) ++ later /\
    Forall (fun p => accepts ex p = true) (take k parts) /\ Forall2 (desc_for ex) (take k parts ≫= copies) ds /\ copies_in new ≡ₚ ds /\
    settled events events' (take k parts ≫= copies) ds later new /\ events' ⊆ events /\
    (r = Ok tt /\ k = length parts /\ events' = ∅ /\ later = [] \/ r <> Ok tt /\ exists p, parts !! k = Some p /\ accepts ex p = false).
Proof.
  induction parts as [|p parts IH]; intros events cs ops Hne Hw Hacc; [done|].
  destruct Hacc as (rest & -> & Hfin & Hacc). apply Forall_app in Hw as [Hwp Hwr]. cbn [run_parts]. destruct (accepts ex p) eqn:Ea; cycle 1.
  { destruct (execute_refused p events (bool_decide (parts = [])) ops Ea) as [e ->]. exists 0%nat, (Err e), events, [], [], (copies p ++ rest). cbn. rewrite app_nil_r.
    split_and!; try done; [split; [done|]; intros; congruence|]. right. split; [done|]. by exists p. }
  pose proof (accepts_Ok p Ea) as (ds & Hc & Ho). destruct (check_copies_Ok _ _ _ _ Hwp Hc) as (Hds & _). pose proof (Forall2_length _ _ _ Hds) as Hlen.
  rewrite (execute_part p ds events _ ops rest) by done. assert (copies_in (part_ops p ds events) ≡ₚ ds) as Hcin.
  { unfold part_ops. rewrite batch_copies. by destruct (make_batches_spec events (copies p) ds Hlen) as (-> & _). }
  destruct parts as [|q parts].
  - cbn in Hacc. subst rest. rewrite bool_decide_true by done. cbn [run_parts]. eexists 1%nat, (Ok tt), ∅, ds, _, []. cbn [take mbind list_bind]. rewrite !(app_nil_r (copies p)).
    split_and!; [done|done|by constructor|done| |by apply settled_final|apply map_empty_subseteq|by left]. rewrite !copies_in_app, Hcin, events_no_copies. by rewrite app_nil_r.
  - rewrite bool_decide_false by done.
    destruct (IH (owed p events) rest (ops ++ part_ops p ds events ++ [OpDrained])) as (k & r & events' & ds' & new & later & Hrun & -> & Hok & Hds' & Hcin' & Hset & Hsub & Hend); [done..|].
    exists (S k), r, events', (ds ++ ds'), (part_ops p ds events ++ [OpDrained] ++ new), later. rewrite Hrun. cbn [take]. rewrite bind_cons, <- !app_assoc.
    split_and!; [done|done|by constructor|by apply Forall2_app| | |etrans; [exact Hsub|apply map_filter_subseteq]|].
    + rewrite !copies_in_app, Hcin, Hcin'. done.
    + apply settled_next; try done. by eapply Forall2_length.
    + destruct Hend as [(-> & -> & -> & ->)|(? & x & ? & ?)]; [by left|right; eauto].
Qed.

(** C18. Executing the parts of an encoded plan in order, on a driver that answers every call, settles exactly the events whose layers are restored.  The restore succeeds
    if and only if every part is acceptable: all its copies lie inside their grants and tensors, and write no byte twice.  Otherwise it stops at the first part that is
    not, of which, as of those behind it, nothing is submitted.  Either way, the parts before the end have submitted exactly their copies; every event of the
    operation is recorded once or is still owed, and none is owed after a success; and when the event of a layer is recorded, all copies of the plan into that
    layer, whichever part they are in, have been submitted before it. *)
Theorem restore_events_settle parts events cs ops :
  executor_ok ex -> parts <> [] -> Forall words_ok cs -> accounts parts cs -> validate_layer_events ex events = Ok tt ->
  exists k r events' ds new, run_parts parts events ops = (r, events', ops ++ new) /\
    (r = Ok tt <-> Forall (acceptable ex) parts) /\
    (r = Ok tt -> k = length parts /\ events' = ∅) /\
    (r <> Ok tt -> Forall (acceptable ex) (take k parts) /\ exists p, parts !! k = Some p /\ ~ acceptable ex p) /\
    (Forall2 (desc_for ex) (take k parts ≫= copies) ds /\ copies_in new ≡ₚ ds) /\
    (events_in new ++ (map_to_list events').*2 ≡ₚ (map_to_list events).*2 /\ NoDup (events_in new)) /\
    forall l e pre post, l <> [] -> events !! l = Some e -> new = pre ++ OpEvent e :: post ->
      sent l pre ≡ₚ descs_of l (take k parts ≫= copies) ds /\ l ∉ layer <$> (drop k parts ≫= copies).
Proof.
  intros Hex Hne Hw Hacc Hval. destruct (run_parts_settles parts events cs ops Hne Hw Hacc) as (k & r & events' & ds & new & later & Hrun & Hcs & Hok & Hds & Hcin & [Hev Hord] & Hsub & Hend).
  rewrite (accounts_copies parts cs Hacc) in Hcs, Hw. assert (later = drop k parts ≫= copies) as -> by (rewrite <- (take_drop k parts) in Hcs at 1; rewrite bind_app in Hcs; by apply app_inv_head in Hcs).
  assert (forall p, p ∈ parts -> accepts ex p = true <-> acceptable ex p) as Hiff.
  { intros p Hp. apply accepts_iff; [done|]. rewrite Forall_forall in Hw |- *. intros c Hc. apply Hw, list_elem_of_bind. eauto. }
  assert (Forall (acceptable ex) (take k parts)) as Hacck by (rewrite Forall_forall in Hok |- *; intros p Hp; apply Hiff, Hok; [rewrite <- (take_drop k parts); apply elem_of_app; by left|done]).
  pose proof (validate_layer_events_NoDup _ _ Hval) as Hnd. rewrite <- Hev in Hnd. apply NoDup_app in Hnd as (Hnd & Hdis & _).
  exists k, r, events', ds, new. split_and!; try done.
  - destruct Hend as [(-> & -> & _)|(Hr & p & Hp & Hrej)]; [rewrite firstn_all in Hacck; by split|]. split; [done|]. intros Hall. exfalso.
    rewrite Forall_lookup in Hall. pose proof (proj2 (Hiff p (list_elem_of_lookup_2 _ _ _ Hp)) (Hall k p Hp)). congruence.
  - intros ->. destruct Hend as [(_ & -> & -> & _)|[? _]]; done.
  - intros Hr. split; [done|]. destruct Hend as [[? _]|(_ & p & Hp & Hrej)]; [done|]. exists p. split; [done|]. intros Ha%Hiff; [congruence|by eapply list_elem_of_lookup_2].
  - intros l e pre post Hl He Hsplit. assert (events' !! l = None) as Hno.
    { destruct (events' !! l) as [x|] eqn:Ex; [|done]. exfalso. pose proof (lookup_weaken _ _ _ _ Ex Hsub). assert (x = e) as -> by congruence. apply (Hdis e).
      - rewrite Hsplit, events_in_app. apply elem_of_app. right. left.
      - apply list_elem_of_fmap. exists (l, e). split; [done|]. by apply elem_of_map_to_list. }
    destruct (Hord l e Hl He Hno) as (pre' & post' & Hsplit' & Hsent). rewrite Hsplit in Hnd. by rewrite (event_once e pre post pre' post'); [|done|congruence].
Qed.
End Parts.

(** Two layers restored in two parts from one arena; the last copy of the first layer is in the second part. *)
Definition sample_executor : LocalRestoreExecutor :=
  mkExecutor {[str "a" := mkTensor (str "a") 1000 64 1; str "b" := mkTensor (str "b") 2000 64 2]} {[7 := mkArena 4096 8192 1024]}.
Definition sample_copy (l : string) (from to : Z) : RawCopy := mkCopy (mkSource 7 3 256 512 from 16) (str l) to.
Definition sample_copies : list RawCopy := [sample_copy "a" 256 0; sample_copy "b" 272 0; sample_copy "a" 288 16]%string.
Definition sample_parts : list RawRestorePart :=
  [mkPart (take 2 sample_copies) [str "b"]; mkPart (drop 2 sample_copies) [str "a"]].

Definition answered : list RawRestorePart -> gmap bytes Z -> list StreamOp -> result unit string * gmap bytes Z * list StreamOp :=
  run_parts (fun _ => None) (fun _ _ => None) (fun _ _ => None) map_to_list sample_executor.
Lemma sample_executor_ok : executor_ok sample_executor.
Proof.
  split; repeat (apply map_Forall_insert_2; [unfold tensor_ok, arena_ok, u64_max; cbn; lia|]); apply map_Forall_empty.
Qed.
(** The same plan with its last copy into a layer that is not registered. *)
Definition refused_parts : list RawRestorePart := [mkPart (take 2 sample_copies) [str "a"; str "b"]; mkPart [sample_copy "c"%string 288 16] [str "c"]].

Lemma restore_events_settle_witness :
  (exists ds new, answered sample_parts {[str "a" := 11; str "b" := 12]} [] = (Ok tt, ∅, new) /\ events_in new = [12; 11] /\
     forall pre post, new = pre ++ OpEvent 11 :: post -> sent (str "a") pre ≡ₚ descs_of (str "a") sample_copies ds) /\
  ~ Forall (acceptable sample_executor) refused_parts.
Proof.
  split.
  - destruct (restore_events_settle (fun _ => None) (fun _ _ => None) (fun _ _ => None) map_to_list sample_executor
              (fun _ => eq_refl) (fun _ _ => eq_refl) (fun _ _ => eq_refl) (fun m => reflexivity _)
              sample_parts {[str "a" := 11; str "b" := 12]} sample_copies []) as (k & r & ev & ds & new & Hrun & _ & Hok & _ & _ & _ & Hord).
    + exact sample_executor_ok.
    + done.
    + repeat (apply Forall_cons; split; [repeat constructor; done|]). constructor.
    + exists (drop 2 sample_copies). split; [done|]. split; [vm_compute; reflexivity|]. exists []. split; [done|]. split; [vm_compute; reflexivity|done].
    + vm_compute. reflexivity.
    + cbn [app] in Hrun. assert (r = Ok tt) as -> by (change r with ((r, ev, new).1.1); rewrite <- Hrun; vm_compute; reflexivity). destruct (Hok eq_refl) as [-> ->].
      exists ds, new. split; [exact Hrun|]. split.
      * change new with ((Ok tt : result unit string, ∅ : gmap bytes Z, new).2). rewrite <- Hrun. vm_compute. reflexivity.
      * intros pre post Hs. apply (Hord (str "a") 11 pre post); [done|reflexivity|done].
  - destruct (restore_events_settle (fun _ => None) (fun _ _ => None) (fun _ _ => None) map_to_list sample_executor
              (fun _ => eq_refl) (fun _ _ => eq_refl) (fun _ _ => eq_refl) (fun m => reflexivity _)
              refused_parts {[str "a" := 11; str "b" := 12]} (take 2 sample_copies ++ [sample_copy "c"%string 288 16]) []) as (k & r & ev & ds & new & Hrun & Hiff & _).
    + exact sample_executor_ok.
    + done.
    + repeat (apply Forall_cons; split; [repeat constructor; done|]). constructor.
    + exists [sample_copy "c"%string 288 16]. split; [done|]. split; [vm_compute; reflexivity|]. exists []. split; [done|]. split; [vm_compute; reflexivity|done].
    + vm_compute. reflexivity.
    + intros Hall%Hiff. apply (f_equal (fun x => match x.1.1 with Ok _ => true | Err _ => false end)) in Hrun. rewrite Hall in Hrun. vm_compute in Hrun. discriminate.
Defined.
