(* ===== verification/Topology.v ===== *)
(** * Registration and the sealed layer space

    orbitkv-core/src/engine/instance.rs: the workers of an instance register their layers; the registration
    that completes the worker set seals the space of layers, storage groups and slots that every
    stored block of the instance follows.  Vectors are indexed by [nat]; the messages of the code are
    constructors. *)
From S2P Require Import Prelude Containers State KvLayout.

Local Open Scope Z_scope.
Local Open Scope rust_scope.

(** ** Data *)

Definition UNKNOWN_NODE : Z := u32_max.

Record GpuContext := mkGpu {
  device_id : Z;
  tp_rank : nat;
  pp_rank : nat;
  preferred_numa : Z;
  kv_caches : gmap bytes KVCacheLayout;
  layer_groups : gmap bytes nat
}.
(** [GpuContext::group_of_layer]: a layer without a declared group is in group 0. *)
Definition group_of (g : GpuContext) (name : bytes) : nat := default 0%nat (layer_groups g !! name).

Record PageLayout := mkPages {
  layer_shard : list nat;
  layer_offsets : list Z;
  layer_bytes : list Z;
  shard_page_sizes : list Z
}.

Record LayerTopology := mkTopology {
  cache_namespace : bytes;
  name_to_id : gmap bytes nat;
  tp_size : nat;
  layer_group : list nat;
  group_layer_count : list nat;
  group_block_bytes : list Z;
  group_slot_numa : list (list Z);
  layer_group_rank : list nat;
  page_layout : option PageLayout
}.

Inductive TopologyError :=
| BadSizes | TpRankOutOfRange (rank size : nat) | NoLayers (device : Z) | DeviceExists (device : Z) | AlreadySealed (device : Z)
| NegativeDevice (device : Z) | CudaInit | Incomplete (registered world : nat)
| InconsistentGeometry (layer : bytes) | InconsistentGroup (layer : bytes) | GroupsNotDense (groups : nat) | PageFirstGroups (groups : nat)
| StagesConflict (layer : bytes) | NoOwner (layer : nat) (rank : nat) | ShardConflict (layer : nat) | NoShard (layer : nat)
| BlockBytesOverflow | GroupBytesOverflow | UnknownLayer (layer : bytes) | LayerOutOfRange (layer : nat) | GroupOutOfRange (group : nat)
| IndexOutOfBounds.

(** ** Lookups in a sealed topology *)

Definition num_layers (t : LayerTopology) : nat := size (name_to_id t).
Definition num_groups (t : LayerTopology) : nat := length (group_layer_count t).
Definition is_page_first (t : LayerTopology) : bool := bool_decide (is_Some (page_layout t)).
Definition layer_id (t : LayerTopology) (name : bytes) : result nat TopologyError := ok_or (name_to_id t !! name) (UnknownLayer name).
Definition total_slots (t : LayerTopology) : nat :=
  match page_layout t with Some p => length (shard_page_sizes p) | None => num_layers t * tp_size t end.
Definition group_total_slots (t : LayerTopology) (group : nat) : result nat TopologyError :=
  if (num_groups t <=? group)%nat then Err (GroupOutOfRange group)
  else match page_layout t with
       | Some p => Ok (length (shard_page_sizes p))
       | None => let? count := ok_or (group_layer_count t !! group) IndexOutOfBounds in Ok (count * tp_size t)%nat
       end.
Definition page_placement (t : LayerTopology) (id : nat) : option (Z * Z) :=
  p ← page_layout t; o ← layer_offsets p !! id; b ← layer_bytes p !! id; Some (o, b).
Definition shard_page_size (t : LayerTopology) (shard : nat) : option Z := p ← page_layout t; shard_page_sizes p !! shard.
Definition slot_index (t : LayerTopology) (id rank : nat) : result nat TopologyError :=
  if (num_layers t <=? id)%nat then Err (LayerOutOfRange id)
  else if (tp_size t <=? rank)%nat then Err (TpRankOutOfRange rank (tp_size t))
  else match page_layout t with
       | Some p => ok_or (layer_shard p !! id) IndexOutOfBounds
       | None => let? r := ok_or (layer_group_rank t !! id) IndexOutOfBounds in Ok (r * tp_size t + rank)%nat
       end.

(** ** Page-first placement *)

(** Distinct sets in order of arrival. *)
Definition distinct_sets (sets : list (gset nat)) : list (gset nat) :=
  foldl (fun shards s => if bool_decide (s ∈ shards) then shards else shards ++ [s]) [] sets.
(** [usize::MAX] for an empty set: it sorts after every layer. *)
Definition least (s : gset nat) : option nat := head (merge_sort Nat.le (elements s)).
Definition least_le (a b : gset nat) : Prop :=
  match least a, least b with Some x, Some y => (x <= y)%nat | None, Some _ => False | _, None => True end.
#[export] Instance least_le_dec a b : Decision (least_le a b).
Proof. unfold least_le. destruct (least a), (least b); apply _. Defined.

(** Each layer of shard [id] is claimed once. *)
Fixpoint claim_shard (id : nat) (layers : list nat) (owner : list (option nat)) : result (list (option nat)) TopologyError :=
  match layers with
  | [] => Ok owner
  | l :: layers =>
      match owner !! l with
      | None => Err IndexOutOfBounds
      | Some (Some _) => Err (ShardConflict l)
      | Some None => claim_shard id layers (<[l := Some id]> owner)
      end
  end.
Fixpoint claim_shards (id : nat) (shards : list (gset nat)) (owner : list (option nat)) : result (list (option nat)) TopologyError :=
  match shards with
  | [] => Ok owner
  | s :: shards => let? owner := claim_shard id (merge_sort Nat.le (elements s)) owner in claim_shards (S id) shards owner
  end.
(** Every layer has a shard. *)
Fixpoint all_owned (id : nat) (owner : list (option nat)) : result (list nat) TopologyError :=
  match owner with
  | [] => Ok []
  | None :: _ => Err (NoShard id)
  | Some s :: owner => let? rest := all_owned (S id) owner in Ok (s :: rest)
  end.
(** Offsets are running sums of the padded sizes per shard. *)
Fixpoint lay_out (shards : list nat) (padded : list Z) (pages : list Z) : list Z * list Z :=
  match shards, padded with
  | s :: shards, b :: padded =>
      let '(offsets, pages') := lay_out shards padded (alter (fun n => u64_add n b) s pages) in
      (default 0 (pages !! s) :: offsets, pages')
  | _, _ => ([], pages)
  end.

Definition build_page_layout (sets : list (gset nat)) (layers : nat) (padded : list Z) : result PageLayout TopologyError :=
  let shards := merge_sort least_le (distinct_sets sets) in
  let? owner := claim_shards 0 shards (replicate layers None) in
  let? layer_shard := all_owned 0 owner in
  let '(offsets, pages) := lay_out layer_shard padded (replicate (length shards) 0) in
  Ok (mkPages layer_shard offsets padded pages).

(** ** Sealing *)

Definition Entry : Type := GpuContext * (bytes * KVCacheLayout).
Definition entries (gpus : list GpuContext) : list Entry := gpus ≫= fun g => (fun e => (g, e)) <$> map_to_list (kv_caches g).
Definition entry_name (e : Entry) : bytes := e.2.1.

(** Segment bytes, split, padded block bytes and format. *)
Definition LayerShape : Type := Z * bool * Z * StorageFormat.
Definition is_split (g : KVCacheGeometry) : bool := match seg g with Split _ => true | Contiguous => false end.
Definition shape (e : Entry) : LayerShape :=
  let l := e.2.2 in (segment_bytes (geometry l), is_split (geometry l), padded_block_bytes (geometry l), storage_format l).
Definition entry_group (e : Entry) : nat := group_of e.1 (entry_name e).

(** The value that every device declares for a name, or the name on which two disagree. *)
Fixpoint scan {V} `{EqDecision V} (value : Entry -> V) (err : bytes -> TopologyError) (es : list Entry) (m : gmap bytes V)
    : result (gmap bytes V) TopologyError :=
  match es with
  | [] => Ok m
  | e :: es =>
      match m !! entry_name e with
      | Some existing => if bool_decide (existing = value e) then scan value err es (<[entry_name e := value e]> m) else Err (err (entry_name e))
      | None => scan value err es (<[entry_name e := value e]> m)
      end
  end.

(** The dense rank of each layer within its group, and the layers of each group. *)
Fixpoint group_ranks (groups : list nat) (count : list nat) : list nat * list nat :=
  match groups with
  | [] => ([], count)
  | g :: groups => let '(ranks, count') := group_ranks groups (alter S g count) in (default 0%nat (count !! g) :: ranks, count')
  end.

(** The owner of every cell of the grid of layers and ranks. *)
Fixpoint claim_grid (tp : nat) (ids : gmap bytes nat) (es : list Entry) (owners : list (option (Z * nat)))
    : result (list (option (Z * nat))) TopologyError :=
  match es with
  | [] => Ok owners
  | e :: es =>
      let g := e.1 in
      match ids !! entry_name e with
      | None => Err IndexOutOfBounds
      | Some id =>
          let cell := (id * tp + tp_rank g)%nat in
          match owners !! cell with
          | None => Err IndexOutOfBounds
          | Some None => claim_grid tp ids es (<[cell := Some (device_id g, pp_rank g)]> owners)
          | Some (Some (_, stage)) => if bool_decide (stage = pp_rank g) then claim_grid tp ids es owners else Err (StagesConflict (entry_name e))
          end
      end
  end.
Fixpoint first_missing {A} (i : nat) (l : list (option A)) : option nat :=
  match l with [] => None | None :: _ => Some i | Some _ :: l => first_missing (S i) l end.

Fixpoint add_group_bytes (copies : Z) (groups : list nat) (padded : list Z) (sums : list Z) : result (list Z) TopologyError :=
  match groups, padded with
  | g :: groups, b :: padded =>
      let? bytes := ok_or (checked_mul b copies) BlockBytesOverflow in
      let? old := ok_or (sums !! g) IndexOutOfBounds in
      let? sum := ok_or (checked_add old bytes) GroupBytesOverflow in
      add_group_bytes copies groups padded (<[g := sum]> sums)
  | _, _ => Ok sums
  end.

(** A replicated slot takes the least known node of its owners. *)
Fixpoint place_slots (t : LayerTopology) (es : list Entry) (nodes : list (list Z)) : result (list (list Z)) TopologyError :=
  match es with
  | [] => Ok nodes
  | e :: es =>
      let? id := ok_or (name_to_id t !! entry_name e) IndexOutOfBounds in
      let? group := ok_or (layer_group t !! id) IndexOutOfBounds in
      let? slot := slot_index t id (tp_rank e.1) in
      let? row := ok_or (nodes !! group) IndexOutOfBounds in
      let? node := ok_or (row !! slot) IndexOutOfBounds in
      place_slots t es (<[group := <[slot := Z.min node (preferred_numa e.1)]> row]> nodes)
  end.

(** ** Storage identity *)

Record StorageSlot := mkSlot {
  format : StorageFormat; s_layer : bytes; s_group : Z; s_tp_rank : Z; s_pp_rank : Z; s_segment_bytes : Z; s_padded_block_bytes : Z; split : bool
}.

(** The derived order compares the variant, then its fields. *)
Definition scalar_index (s : Scalar16) : Z := match s with Bf16 => 0 | Fp16 => 1 end.
Definition role_index (r : AttentionRole) : Z := match r with Key => 0 | Value => 1 | KeyValue => 2 | PackedKeyValue => 3 end.
Definition format_key (f : StorageFormat) : list Z :=
  match f with
  | Exact => [0] | Fp8FromBf16 => [1] | Fp8FromFp16 => [2]
  | Attention s r d i n => [3; scalar_index s; role_index r; d; i; n]
  | FAns => [4] | Ans16 => [5] | AnsFp8 => [6] | Fp8Native => [7]
  | FTurboQuant s r d seed bits => [8; scalar_index s; role_index r; d; seed; bits]
  end.
Lemma format_key_inj a b : format_key a = format_key b -> a = b.
Proof.
  destruct a as [| | |[] [] ? ? ?| | | | |[] [] ? ? ?], b as [| | |[] [] ? ? ?| | | | |[] [] ? ? ?]; cbn; intros H; try discriminate; try done;
    injection H; intros; by subst.
Qed.
Definition slot_key (s : StorageSlot) : list Z * (bytes * (Z * (Z * (Z * (Z * (Z * Z)))))) :=
  (format_key (format s), (s_layer s, (s_group s, (s_tp_rank s, (s_pp_rank s, (s_segment_bytes s, (s_padded_block_bytes s, if split s then 1 else 0))))))).
Lemma slot_key_inj a b : slot_key a = slot_key b -> a = b.
Proof.
  destruct a as [f ? ? ? ? ? ? sp], b as [f' ? ? ? ? ? ? sp']. unfold slot_key. cbn. intros H. injection H as Hf ? ? ? ? ? ? Hs.
  apply format_key_inj in Hf. subst. destruct sp, sp'; done.
Qed.
#[export] Instance StorageSlot_ord : Ord StorageSlot := ord_by slot_key slot_key_inj.
#[export] Instance StorageSlot_eq_dec : EqDecision StorageSlot.
Proof. solve_decision. Defined.

(** [Vec::dedup] removes equal neighbours. *)
Fixpoint dedup {A} `{EqDecision A} (l : list A) : list A :=
  match l with
  | a :: (b :: _) as rest => if bool_decide (a = b) then dedup rest else a :: dedup rest
  | _ => l
  end.

Definition hex_digit (n : Z) : byte := byte_of (if n <? 10 then 48 + n else 87 + n).
Definition lower_hex (b : bytes) : bytes := b ≫= fun x => [hex_digit (byte_val x / 16); hex_digit (byte_val x mod 16)].

Section Seal.
(** The digest and the JSON text of the identity. *)
Context (sha256 : bytes -> bytes) (to_json : bytes -> bool -> list StorageSlot -> bytes).

Definition storage_namespace (identity : bytes) (page_first : bool) (slots : list StorageSlot) : bytes :=
  str "orbitkv:v2:" ++ lower_hex (sha256 ((str "orbitkv.storage-identity.v2" ++ [byte_of 0]) ++ to_json identity page_first (dedup (merge_sort key_le slots)))).

Definition entry_slot (e : Entry) : StorageSlot :=
  let '(g, (name, l)) := e in
  mkSlot (storage_format l) name (Z.of_nat (group_of g name)) (Z.of_nat (tp_rank g)) (Z.of_nat (pp_rank g))
    (segment_bytes (geometry l)) (padded_block_bytes (geometry l)) (is_split (geometry l)).

(** What the workers' registrations determine about layers and groups. *)
Record Layers := mkLayers {
  names : list bytes;
  ids : gmap bytes nat;
  groups : list nat;
  ranks : list nat;
  counts : list nat;
  padded : list Z
}.

Definition resolve_layers (gpus : list GpuContext) : result Layers TopologyError :=
  let? geometry_by_name := scan shape InconsistentGeometry (entries gpus) ∅ in
  let names := btree_elements (dom geometry_by_name) in
  let ids := list_to_map (zip names (seq 0 (length names))) in
  let? group_by_name := scan entry_group InconsistentGroup (entries gpus) ∅ in
  let values := (map_to_list group_by_name).*2 in
  let num_groups := (1 + max_list values)%nat in
  if negb (size (list_to_set values : gset nat) =? num_groups)%nat then Err (GroupsNotDense num_groups)
  else
    let groups := (fun n => default 0%nat (group_by_name !! n)) <$> names in
    let '(ranks, counts) := group_ranks groups (replicate num_groups 0%nat) in
    let padded := (fun n => default 0 ((fun s : LayerShape => s.1.2) <$> geometry_by_name !! n)) <$> names in
    Ok (mkLayers names ids groups ranks counts padded).

Definition seal_topology (namespace : bytes) (tp_size : nat) (page_first : bool) (gpus : list GpuContext) : result LayerTopology TopologyError :=
  let? l := resolve_layers gpus in
  let num_groups := length (counts l) in
  if page_first && (1 <? num_groups)%nat then Err (PageFirstGroups num_groups)
  else
    let? owners := claim_grid tp_size (ids l) (entries gpus) (replicate (length (names l) * tp_size) None) in
    match first_missing 0 owners with
    | Some missing => Err (NoOwner (missing / tp_size) (missing mod tp_size))
    | None =>
        let? page_layout :=
          if page_first then
            let sets := (fun g => list_to_set (omap (fun n => ids l !! n) (elements (dom (kv_caches g))))) <$> gpus in
            let? p := build_page_layout sets (length (names l)) (padded l) in Ok (Some p)
          else Ok None in
        let? bytes := add_group_bytes (if page_first then 1 else Z.of_nat tp_size) (groups l) (padded l) (replicate num_groups 0) in
        let t := mkTopology (storage_namespace namespace page_first (entry_slot <$> entries gpus))
                   (ids l) tp_size (groups l) (counts l) bytes [] (ranks l) page_layout in
        let? rows := collect_results (fun g => let? slots := group_total_slots t g in Ok (replicate slots UNKNOWN_NODE)) (seq 0 num_groups) in
        let? numa := place_slots t (entries gpus) rows in
        Ok (mkTopology (cache_namespace t) (ids l) tp_size (groups l) (counts l) bytes numa (ranks l) page_layout)
    end.

(** ** Instances *)

Record InstanceContext := mkInstance {
  i_generation : bytes;
  i_namespace : bytes;
  i_tp_size : nat;
  world_size : nat;
  page_first : bool;
  gpu_contexts : gmap Z GpuContext;
  topology : option LayerTopology
}.

Definition instance_new (generation namespace : bytes) (tp_size world_size : nat) (page_first : bool) : result InstanceContext TopologyError :=
  if (tp_size =? 0)%nat || (world_size =? 0)%nat then Err BadSizes
  else Ok (mkInstance generation namespace tp_size world_size page_first ∅ None).

Definition sealed_topology (i : InstanceContext) : result LayerTopology TopologyError :=
  ok_or (topology i) (Incomplete (size (gpu_contexts i)) (world_size i)).

Definition ensure_accepting_registrations (i : InstanceContext) (device : Z) : result unit TopologyError :=
  if bool_decide (is_Some (gpu_contexts i !! device)) then Err (DeviceExists device)
  else if bool_decide (is_Some (topology i)) then Err (AlreadySealed device)
  else Ok tt.

(** The first critical section, with the checks before it. *)
Definition register_check (i : InstanceContext) (g : GpuContext) : result unit TopologyError :=
  if (i_tp_size i <=? tp_rank g)%nat then Err (TpRankOutOfRange (tp_rank g) (i_tp_size i))
  else if bool_decide (kv_caches g = ∅) then Err (NoLayers (device_id g))
  else ensure_accepting_registrations i (device_id g).
(** [build_gpu_context], with CUDA's answer. *)
Definition build_gpu_context (cuda : Z -> bool) (g : GpuContext) : result GpuContext TopologyError :=
  if device_id g <? 0 then Err (NegativeDevice (device_id g)) else if cuda (device_id g) then Ok g else Err CudaInit.
(** The second critical section. *)
Definition register_commit (i : InstanceContext) (g : GpuContext) : result InstanceContext TopologyError :=
  let? _ := ensure_accepting_registrations i (device_id g) in
  let? sealed :=
    if (size (gpu_contexts i) + 1 =? world_size i)%nat then
      let? t := seal_topology (i_namespace i) (i_tp_size i) (page_first i) ((map_to_list (gpu_contexts i)).*2 ++ [g]) in Ok (Some t)
    else Ok None in
  Ok (mkInstance (i_generation i) (i_namespace i) (i_tp_size i) (world_size i) (page_first i) (<[device_id g := g]> (gpu_contexts i))
        (match sealed with Some t => Some t | None => topology i end)).
(** [register_new_gpu] without a concurrent registration in between. *)
Definition register_new_gpu (cuda : Z -> bool) (i : InstanceContext) (g : GpuContext) : result InstanceContext TopologyError :=
  let? _ := register_check i g in
  let? g := build_gpu_context cuda g in
  register_commit i g.

Definition get_gpu (i : InstanceContext) (device : Z) : option GpuContext := gpu_contexts i !! device.
Definition verify_identity (i : InstanceContext) (namespace : bytes) (tp world : nat) (pages : option bool) : bool :=
  bool_decide (i_namespace i = namespace) && (i_tp_size i =? tp)%nat && (world_size i =? world)%nat
    && match pages with Some b => Bool.eqb (page_first i) b | None => true end.
End Seal.
