(* ===== verification/TopologyPages.v ===== *)
(** * Page-first placement

    Theorems on [build_page_layout] of orbitkv-core/src/engine/instance.rs: the shards are a partition of
    the layers, and the layers of a shard tile its page. *)
From S2P Require Import Prelude Containers State KvLayout Topology.

Local Open Scope Z_scope.
Local Open Scope rust_scope.

(** ** Shards *)

Lemma distinct_sets_spec sets : NoDup (distinct_sets sets) /\ forall s, s ∈ distinct_sets sets <-> s ∈ sets.
Proof.
  unfold distinct_sets. induction sets as [|x sets [Hnd Hin]] using rev_ind; [split; [constructor|done]|].
  rewrite foldl_app. cbn. set (d := foldl _ [] sets) in *. case_bool_decide as Hx.
  - split; [done|]. intros s. rewrite Hin, elem_of_app, list_elem_of_singleton. split; [by left|]. intros [?| ->]; [done|]. by apply Hin.
  - split; [apply NoDup_app; split_and!; [done|set_solver|apply NoDup_singleton]|]. intros s. rewrite !elem_of_app, Hin. done.
Qed.

Lemma least_elem s x : least s = Some x -> x ∈ s.
Proof.
  unfold least. intros Hl. apply elem_of_elements. rewrite <- (merge_sort_Permutation Nat.le). apply head_Some_elem_of in Hl. done.
Qed.
Lemma least_Some s : s <> ∅ -> is_Some (least s).
Proof.
  intros Hs. unfold least. destruct (merge_sort Nat.le (elements s)) as [|x l] eqn:E; [|by eexists].
  exfalso. apply Hs, leibniz_equiv, elements_empty_inv, Permutation_nil. rewrite <- E. apply merge_sort_Permutation.
Qed.
#[local] Instance least_le_total : Total least_le.
Proof. intros a b. unfold least_le. destruct (least a), (least b); (lia || auto). Qed.
#[local] Instance least_le_trans : Transitive least_le.
Proof. intros a b c. unfold least_le. destruct (least a), (least b), (least c); (lia || done). Qed.

Definition disjoint_sets (l : list (gset nat)) : Prop := forall a b x, a ∈ l -> b ∈ l -> x ∈ a -> x ∈ b -> a = b.

(** Disjoint shards have one order. *)
Lemma sorted_shards_unique l k :
  l ≡ₚ k -> disjoint_sets l -> Forall (fun s => s <> ∅) l -> merge_sort least_le l = merge_sort least_le k.
Proof.
  intros Hp Hd Hne. rewrite Forall_forall in Hne. apply (StronglySorted_unique_strong least_le).
  - intros a b Ha Hb Hab Hba. rewrite merge_sort_Permutation in Ha, Hb. rewrite <- Hp in Hb.
    destruct (least_Some a (Hne a Ha)) as [x Hx]. destruct (least_Some b (Hne b Hb)) as [y Hy].
    unfold least_le in *. rewrite Hx, Hy in *. assert (x = y) as -> by lia. apply (Hd a b y); try done; by apply least_elem.
  - apply Sorted_StronglySorted; [apply _|]. apply Sorted_merge_sort. apply _.
  - apply Sorted_StronglySorted; [apply _|]. apply Sorted_merge_sort. apply _.
  - by rewrite !merge_sort_Permutation.
Qed.

Lemma claim_shard_spec id ls : forall owner owner',
  claim_shard id ls owner = Ok owner' ->
  length owner' = length owner /\ (forall l, l ∈ ls -> owner !! l = Some None) /\
  (forall l o, owner' !! l = Some (Some o) <-> owner !! l = Some (Some o) \/ (o = id /\ l ∈ ls)).
Proof.
  induction ls as [|x ls IH]; intros owner owner'; cbn [claim_shard].
  { intros [= <-]. split_and!; [done|intros l ?%elem_of_nil; done|]. intros l o. split; [by left|]. intros [|[_ ?%elem_of_nil]]; done. }
  destruct (owner !! x) as [[]|] eqn:Ex; [done| |done]. intros Hrun. destruct (IH _ _ Hrun) as (H1 & H2 & H3). rewrite length_insert in H1.
  pose proof (lookup_lt_Some _ _ _ Ex) as Hlt. split_and!; [done| |].
  - intros l [->|Hl]%elem_of_cons; [done|]. specialize (H2 l Hl). destruct (decide (x = l)) as [->|Hne]; [by rewrite list_lookup_insert_eq in H2|].
    by rewrite list_lookup_insert_ne in H2.
  - intros l o. rewrite H3, elem_of_cons. destruct (decide (x = l)) as [->|Hne].
    + rewrite list_lookup_insert_eq, Ex by done. split; [intros [[= <-]|[-> ?]]; right; auto|]. intros [?|[-> _]]; [done|by left].
    + rewrite list_lookup_insert_ne by done. split; intros [?|[-> ?]]; auto. right. split; [done|]. set_solver.
Qed.

Lemma claim_shards_spec shards : forall id owner owner',
  claim_shards id shards owner = Ok owner' ->
  length owner' = length owner /\ (forall k s l, shards !! k = Some s -> l ∈ s -> owner !! l = Some None) /\
  (forall l o, owner' !! l = Some (Some o) <-> owner !! l = Some (Some o) \/ exists k s, shards !! k = Some s /\ l ∈ s /\ o = (id + k)%nat).
Proof.
  induction shards as [|s shards IH]; intros id owner owner'; cbn [claim_shards].
  { intros [= <-]. split_and!; [done|done|]. intros l o. split; [by left|]. intros [|(k & s & Hk & _)]; [done|by rewrite lookup_nil in Hk]. }
  destruct (claim_shard _ _ _) as [mid|] eqn:E; [|done]. intros Hrun. destruct (claim_shard_spec _ _ _ _ E) as (A1 & A2 & A3).
  destruct (IH _ _ _ Hrun) as (B1 & B2 & B3).
  assert (forall l, l ∈ merge_sort Nat.le (elements s) <-> l ∈ s) as Hs by (intros l; rewrite merge_sort_Permutation; apply elem_of_elements).
  split_and!; [congruence| |].
  - intros [|k] t l Ht Hl; cbn in Ht; [injection Ht as <-; by apply A2, Hs|]. specialize (B2 k t l Ht Hl).
    destruct (owner !! l) as [[o|]|] eqn:Eo; [| done |].
    + assert (mid !! l = Some (Some o)) by (apply A3; by left). congruence.
    + apply lookup_ge_None in Eo. apply lookup_lt_Some in B2. lia.
  - intros l o. rewrite B3, A3, Hs. split.
    + intros [[?|[-> ?]]|(k & t & Hk & Hl & ->)]; [by left|right; exists 0%nat, s; split_and!; [done|done|lia]|].
      right. exists (S k), t. split_and!; [done|done|lia].
    + intros [?|([|k] & t & Hk & Hl & ->)]; [auto| |].
      * cbn in Hk. injection Hk as ->. left. right. split; [lia|done].
      * right. exists k, t. split_and!; [done|done|lia].
Qed.

Lemma all_owned_Ok id owner ls : all_owned id owner = Ok ls <-> owner = Some <$> ls.
Proof.
  revert id ls. induction owner as [|[s|] owner IH]; intros id ls; cbn [all_owned].
  - split; [by intros [= <-]|]. destruct ls; [done|discriminate].
  - destruct (all_owned (S id) owner) as [rest|] eqn:E.
    + split; [intros [= <-]; cbn; f_equal; by apply (IH (S id))|]. destruct ls as [|x ls]; [discriminate|]. cbn. intros [= -> H].
      apply (IH (S id)) in H. congruence.
    + split; [done|]. destruct ls as [|x ls]; [discriminate|]. cbn. intros [= -> H]. apply (IH (S id)) in H. congruence.
  - split; [done|]. destruct ls; discriminate.
Qed.

(** Each layer is in the one shard that the layout names. *)
Definition partitioned (n : nat) (shards : list (gset nat)) (owner : list nat) : Prop :=
  length owner = n /\ forall l k, owner !! l = Some k <-> exists s, shards !! k = Some s /\ l ∈ s.

Lemma shards_partitioned n shards owner ls :
  claim_shards 0 shards (replicate n None) = Ok owner -> all_owned 0 owner = Ok ls -> partitioned n shards ls.
Proof.
  intros Hc ->%all_owned_Ok. destruct (claim_shards_spec _ _ _ _ Hc) as (H1 & _ & H3). rewrite length_fmap, length_replicate in H1.
  split; [done|]. intros l k. specialize (H3 l k). rewrite list_lookup_fmap in H3. split.
  - intros Hl. rewrite Hl in H3. destruct (proj1 H3 eq_refl) as [Hr|(k' & s & Hk & Hin & ->)]; [apply lookup_replicate in Hr as [? _]; done|]. by exists s.
  - intros (s & Hs & Hin). assert (Some <$> ls !! l = Some (Some k)) as He by (apply H3; right; by exists k, s).
    destruct (ls !! l); [|done]. cbn in He. congruence.
Qed.

Lemma partitioned_disjoint n shards owner : partitioned n shards owner -> disjoint_sets shards.
Proof.
  intros [_ H] a b x Ha Hb Hxa Hxb. apply list_elem_of_lookup in Ha as [i Hi]. apply list_elem_of_lookup in Hb as [j Hj].
  assert (owner !! x = Some i) as H1 by (apply H; eauto). assert (owner !! x = Some j) as H2 by (apply H; eauto). congruence.
Qed.

(** The layout is a function of the set of registered layer sets. *)
Lemma build_page_layout_perm sets sets' n padded p :
  sets ≡ₚ sets' -> Forall (fun s => s <> ∅) sets -> build_page_layout sets n padded = Ok p -> build_page_layout sets' n padded = Ok p.
Proof.
  intros Hp Hne. unfold build_page_layout. intros Hrun.
  destruct (distinct_sets_spec sets) as [Hnd Hin]. destruct (distinct_sets_spec sets') as [Hnd' Hin'].
  assert (distinct_sets sets ≡ₚ distinct_sets sets') as Hd.
  { apply NoDup_Permutation; [done|done|]. intros s. by rewrite Hin, Hin', Hp. }
  destruct (claim_shards 0 _ _) as [owner|] eqn:Ec in Hrun; [|done]. destruct (all_owned 0 owner) as [ls|] eqn:Ea in Hrun; [|done].
  assert (disjoint_sets (distinct_sets sets)) as Hdis.
  { intros a b x Ha Hb. pose proof (partitioned_disjoint _ _ _ (shards_partitioned _ _ _ _ Ec Ea) a b x) as H.
    rewrite !merge_sort_Permutation in H. by apply H. }
  rewrite <- (sorted_shards_unique _ _ Hd Hdis).
  - by rewrite Ec, Ea.
  - rewrite Forall_forall in Hne |- *. intros s Hs. apply Hne. by apply Hin.
Qed.

(** ** Offsets *)

(** The bytes that the layers of shard (or group) [s] take. *)
Fixpoint bytes_of (s : nat) (owner : list nat) (padded : list Z) : Z :=
  match owner, padded with
  | k :: owner, b :: padded => (if bool_decide (k = s) then b else 0) + bytes_of s owner padded
  | _, _ => 0
  end.

Lemma bytes_of_nonneg s owner padded : Forall (fun b => 0 <= b) padded -> 0 <= bytes_of s owner padded.
Proof.
  revert padded. induction owner as [|k owner IH]; intros [|b padded] Hp; cbn; try lia. inversion_clear Hp as [|? ? Hb Hp'].
  specialize (IH padded Hp'). case_bool_decide; lia.
Qed.

Lemma lay_out_spec owner : forall padded pages offsets pages',
  Forall (fun b => 0 <= b) padded -> length owner = length padded -> Forall (fun k => k < length pages)%nat owner ->
  (forall s p, pages !! s = Some p -> 0 <= p /\ p + bytes_of s owner padded <= u64_max) ->
  lay_out owner padded pages = (offsets, pages') ->
  length offsets = length owner /\ length pages' = length pages /\
  (forall s p, pages !! s = Some p -> pages' !! s = Some (p + bytes_of s owner padded)) /\
  (forall i s, owner !! i = Some s -> offsets !! i = Some (default 0 (pages !! s) + bytes_of s (take i owner) (take i padded))).
Proof.
  induction owner as [|k owner IH]; intros [|b padded] pages offsets pages' Hp Hlen Hk Hfit; cbn [lay_out]; try discriminate.
  { intros [= <- <-]. split_and!; try done. intros s p Hs. cbn. by rewrite Z.add_0_r. }
  inversion_clear Hp as [|? ? Hb Hp']. inversion_clear Hk as [|? ? Hk1 Hk']. destruct (lay_out owner padded _) as [os ps] eqn:E. intros [= <- <-].
  destruct (lookup_lt_is_Some_2 pages k Hk1) as [p0 Hp0]. cbn in Hlen.
  assert (alter (fun n => u64_add n b) k pages = <[k := p0 + b]> pages) as Halt.
  { apply list_eq. intros i. destruct (decide (i = k)) as [->|Hne].
    - rewrite list_lookup_alter_eq, Hp0, list_lookup_insert_eq by done. cbn. destruct (Hfit k p0 Hp0) as [? Hle]. cbn in Hle.
      rewrite bool_decide_true in Hle by done. pose proof (bytes_of_nonneg k owner padded Hp'). by rewrite u64_add_exact by lia.
    - by rewrite list_lookup_alter_ne, list_lookup_insert_ne. }
  rewrite Halt in E. destruct (IH padded (<[k := p0 + b]> pages) os ps) as (H1 & H2 & H3 & H4); [done|lia|by rewrite length_insert| |done|].
  { intros s p Hs. destruct (decide (k = s)) as [->|Hne].
    - rewrite list_lookup_insert_eq in Hs by done. injection Hs as <-. destruct (Hfit s p0 Hp0) as [? Hle]. cbn in Hle. rewrite bool_decide_true in Hle by done. lia.
    - rewrite list_lookup_insert_ne in Hs by done. destruct (Hfit s p Hs) as [? Hle]. cbn in Hle. rewrite bool_decide_false in Hle by done. lia. }
  rewrite length_insert in H2. split_and!; [cbn; lia|done| |].
  - intros s p Hs. cbn. destruct (decide (k = s)) as [->|Hne].
    + assert (p = p0) as -> by congruence. rewrite (H3 s (p0 + b)) by (by rewrite list_lookup_insert_eq). rewrite bool_decide_true by done. f_equal. lia.
    + rewrite (H3 s p) by (by rewrite list_lookup_insert_ne). rewrite bool_decide_false by done. f_equal.
  - intros [|i] s Hi; [injection Hi as ->; cbn; f_equal; lia|].
    change ((default 0 (pages !! k) :: os) !! S i) with (os !! i). rewrite (H4 i s Hi). cbn. f_equal. destruct (decide (k = s)) as [->|Hne].
    + rewrite list_lookup_insert_eq, Hp0, bool_decide_true by done. cbn. lia.
    + rewrite list_lookup_insert_ne, bool_decide_false by done. lia.
Qed.

(** Layer [i] holds byte [o] of shard [s]. *)
Definition holds (owner : list nat) (padded : list Z) (s : nat) (o : Z) (i : nat) : Prop :=
  exists b, owner !! i = Some s /\ padded !! i = Some b /\
    bytes_of s (take i owner) (take i padded) <= o < bytes_of s (take i owner) (take i padded) + b.

(** Running sums tile the page: each byte has one layer. *)
Lemma page_tiled owner : forall padded s o,
  Forall (fun b => 0 <= b) padded -> length owner = length padded -> 0 <= o < bytes_of s owner padded ->
  exists i, holds owner padded s o i /\ forall j, holds owner padded s o j -> j = i.
Proof.
  induction owner as [|k owner IH]; intros [|b padded] s o Hp Hlen Ho; cbn in Ho; try lia; try discriminate.
  inversion_clear Hp as [|? ? Hb Hp']. cbn in Hlen. assert (length owner = length padded) as Hl by lia.
  assert (forall j o', holds (k :: owner) (b :: padded) s o' (S j) <-> holds owner padded s (o' - if bool_decide (k = s) then b else 0) j) as Hshift.
  { intros j o'. unfold holds. cbn. split; intros (x & H1 & H2 & H3); exists x; split_and!; try done; lia. }
  assert (forall j, holds (k :: owner) (b :: padded) s o (S j) -> 0 <= o - if bool_decide (k = s) then b else 0) as Hlow.
  { intros j Hj. apply Hshift in Hj as (x & _ & _ & Hx). pose proof (bytes_of_nonneg s (take j owner) (take j padded)) as Hn.
    specialize (Hn ltac:(by apply Forall_take)). lia. }
  destruct (decide (k = s)) as [->|Hne].
  - rewrite (bool_decide_true (s = s)) in * by done. destruct (decide (o < b)) as [Hlt|Hge].
    + exists 0%nat. split; [exists b; cbn; split_and!; try done; lia|]. intros [|j] Hj; [done|]. specialize (Hlow j Hj). lia.
    + destruct (IH padded s (o - b) Hp' Hl) as (i & Hi & Hu); [lia|]. exists (S i). split; [by apply Hshift|].
      intros [|j] Hj; [destruct Hj as (x & _ & [= ->] & Hx); cbn in Hx; lia|]. f_equal. apply Hu. by apply Hshift.
  - rewrite (bool_decide_false (k = s)) in * by done. destruct (IH padded s o Hp' Hl) as (i & Hi & Hu); [lia|]. exists (S i).
    split; [apply Hshift; by rewrite Z.sub_0_r|]. intros [|j] Hj; [destruct Hj as (x & [= ->] & _); done|]. f_equal. apply Hu.
    apply Hshift in Hj. by rewrite Z.sub_0_r in Hj.
Qed.

(** ** Group sums *)

Lemma add_group_bytes_spec copies groups : forall padded sums sums',
  add_group_bytes copies groups padded sums = Ok sums' ->
  length sums' = length sums /\
  (forall s p, sums !! s = Some p -> sums' !! s = Some (p + copies * bytes_of s groups padded)) /\
  (forall s p, sums !! s = Some p -> p <= u64_max -> p + copies * bytes_of s groups padded <= u64_max).
Proof.
  induction groups as [|g groups IH]; intros [|b padded] sums sums'; cbn [add_group_bytes];
    try (intros [= <-]; cbn; split_and!; [done|intros s p ->; f_equal; lia|intros; lia]).
  unfold checked_mul. destruct (b * copies <=? u64_max); [|done]. cbn [ok_or]. destruct (sums !! g) as [old|] eqn:Eg; cbn [ok_or]; [|done].
  unfold checked_add. destruct (Z.leb_spec (old + b * copies) u64_max) as [Hle|]; [|done]. cbn [ok_or]. intros Hrun.
  destruct (IH _ _ _ Hrun) as (H1 & H2 & H3). rewrite length_insert in H1. pose proof (lookup_lt_Some _ _ _ Eg) as Hlt.
  assert (forall s p, sums !! s = Some p -> exists q, <[g := old + b * copies]> sums !! s = Some q /\ (p <= u64_max -> q <= u64_max) /\
    q + copies * bytes_of s groups padded = p + copies * bytes_of s (g :: groups) (b :: padded)) as Hstep.
  { intros s p Hs. cbn [bytes_of]. destruct (decide (g = s)) as [->|Hne].
    - assert (p = old) as -> by congruence. exists (old + b * copies). rewrite list_lookup_insert_eq, bool_decide_true by done. split_and!; [done|done|lia].
    - exists p. rewrite list_lookup_insert_ne, bool_decide_false by done. split_and!; [done|done|lia]. }
  split_and!; [done| |].
  - intros s p Hs. destruct (Hstep s p Hs) as (q & Hq & _ & <-). by apply H2.
  - intros s p Hs Hp. destruct (Hstep s p Hs) as (q & Hq & Hqle & <-). apply H3; auto.
Qed.

(** ** A layout that fits *)

Lemma bytes_of_le s owner padded : Forall (fun b => 0 <= b) padded -> bytes_of s owner padded <= list_sum (fun b => b) padded.
Proof.
  revert padded. induction owner as [|k owner IH]; intros [|b padded] Hp; try (cbn; lia).
  - cbn [bytes_of]. apply list_sum_nonneg. intros a Ha. rewrite Forall_forall in Hp. by apply Hp.
  - inversion_clear Hp as [|? ? Hb Hp']. specialize (IH padded Hp'). unfold list_sum in *. cbn. case_bool_decide; lia.
Qed.
Lemma bytes_of_all s owner padded : Forall (fun k => k = s) owner -> length owner = length padded -> bytes_of s owner padded = list_sum (fun b => b) padded.
Proof.
  revert padded. induction owner as [|k owner IH]; intros [|b padded] Hk Hlen; try done. inversion_clear Hk as [|? ? Hk1 Hk']. cbn in Hlen.
  unfold list_sum in *. cbn. rewrite bool_decide_true, (IH padded) by (done || lia). done.
Qed.

Record laid_out (sets : list (gset nat)) (n : nat) (padded : list Z) (p : PageLayout) : Prop := {
  lo_shards : partitioned n (merge_sort least_le (distinct_sets sets)) (layer_shard p);
  lo_bytes : layer_bytes p = padded;
  lo_offsets : forall i s, layer_shard p !! i = Some s -> layer_offsets p !! i = Some (bytes_of s (take i (layer_shard p)) (take i padded));
  lo_sizes : forall k b, shard_page_sizes p !! k = Some b -> b = bytes_of k (layer_shard p) padded
}.

Lemma build_page_layout_ok sets n padded p :
  Forall (fun b => 0 <= b) padded -> length padded = n -> list_sum (fun b => b) padded <= u64_max ->
  build_page_layout sets n padded = Ok p -> laid_out sets n padded p.
Proof.
  intros Hp Hlen Hsum. unfold build_page_layout. set (shards := merge_sort least_le (distinct_sets sets)).
  destruct (claim_shards 0 shards _) as [owner|] eqn:Ec; [|done]. destruct (all_owned 0 owner) as [ls|] eqn:Ea; [|done].
  destruct (lay_out ls padded _) as [os ps] eqn:El. intros [= <-]. pose proof (shards_partitioned _ _ _ _ Ec Ea) as [Hls Hpart].
  assert (Forall (fun k => k < length (replicate (length shards) 0%Z))%nat ls) as Hk.
  { rewrite length_replicate. apply Forall_lookup. intros i k Hi. apply Hpart in Hi as (s & Hs & _). by apply lookup_lt_Some in Hs. }
  destruct (lay_out_spec ls padded (replicate (length shards) 0) os ps) as (H1 & H2 & H3 & H4); [done|lia|done| |done|].
  { intros s b Hb. apply lookup_replicate in Hb as [-> _]. pose proof (bytes_of_le s ls padded Hp). lia. }
  rewrite length_replicate in H2. split; cbn [layer_shard layer_offsets layer_bytes shard_page_sizes]; [done|done| |].
  - intros i s Hi. rewrite (H4 i s Hi). rewrite Forall_lookup in Hk. specialize (Hk i s Hi). rewrite length_replicate in Hk.
    by rewrite lookup_replicate_2.
  - intros k b Hb. pose proof (lookup_lt_Some _ _ _ Hb) as Hlt. rewrite H2 in Hlt.
    rewrite (H3 k 0) in Hb by (by apply lookup_replicate_2). by injection Hb as <-.
Qed.
