(* ===== verification/TopologySpec.v ===== *)
(** * What a sealed topology promises

    Theorems on orbitkv-core/src/engine/instance.rs: the sealed layer space is a function of the registered
    layers and not of the order of registration; slots and page ranges are dense and do not overlap;
    and an instance is sealed once, by the last worker. *)
From S2P Require Import Prelude Containers State KvLayout Topology TopologyPages.

Local Open Scope Z_scope.
Local Open Scope rust_scope.

(** ** Declarations agree *)

(** [m] holds the one value that the entries of each name declare. *)
Definition agreed {V} (value : Entry -> V) (es : list Entry) (m : gmap bytes V) : Prop :=
  forall n v, m !! n = Some v <-> exists e, e ∈ es /\ entry_name e = n /\ value e = v.

Lemma scan_spec {V} `{EqDecision V} (value : Entry -> V) err es : forall seen m m',
  agreed value seen m -> scan value err es m = Ok m' -> agreed value (seen ++ es) m'.
Proof.
  induction es as [|e es IH]; intros seen m m' Hm; cbn [scan]; [intros [= <-]; by rewrite app_nil_r|].
  assert (forall old, m !! entry_name e = old -> (forall x, old = Some x -> x = value e) ->
    agreed value (seen ++ [e]) (<[entry_name e := value e]> m)) as Hadd.
  { intros old Hold Hsame n v. destruct (decide (n = entry_name e)) as [->|Hn].
    - rewrite lookup_insert_eq. split.
      + intros [= <-]. exists e. split_and!; [set_solver|done|done].
      + intros (e' & Hin & Hne & Hv). f_equal. apply elem_of_app in Hin as [Hin|Hin]; [|set_solver].
        assert (m !! entry_name e = Some v) as Hmv by (apply Hm; eauto). rewrite Hold in Hmv. by rewrite (Hsame v Hmv).
    - rewrite lookup_insert_ne by done. rewrite (Hm n v). split; intros (e' & Hin & He); exists e'; [set_solver|].
      apply elem_of_app in Hin as [Hin|Hin]; [done|]. apply list_elem_of_singleton in Hin as ->. by destruct He. }
  intros Hrun. replace (seen ++ e :: es) with ((seen ++ [e]) ++ es) by (by rewrite <- app_assoc).
  destruct (m !! entry_name e) as [old|] eqn:Eold.
  - case_bool_decide as Hs; [|done]. eapply IH; [|exact Hrun]. apply (Hadd _ eq_refl). intros x [= <-]. done.
  - eapply IH; [|exact Hrun]. apply (Hadd _ eq_refl). done.
Qed.

Lemma scan_total {V} `{EqDecision V} (value : Entry -> V) err es : forall m,
  (forall e e', e ∈ es -> e' ∈ es -> entry_name e = entry_name e' -> value e = value e') ->
  (forall e v, e ∈ es -> m !! entry_name e = Some v -> v = value e) -> exists m', scan value err es m = Ok m'.
Proof.
  induction es as [|e es IH]; intros m Hag Hm; cbn [scan]; [eauto|].
  assert (exists m', scan value err es (<[entry_name e := value e]> m) = Ok m') as Hnext.
  { apply IH; [intros; apply Hag; set_solver|]. intros e' v Hin Hv. destruct (decide (entry_name e' = entry_name e)) as [Hn|Hn].
    - rewrite Hn, lookup_insert_eq in Hv. injection Hv as <-. apply Hag; [set_solver..|done].
    - rewrite lookup_insert_ne in Hv by done. apply Hm; [set_solver|done]. }
  destruct (m !! entry_name e) as [old|] eqn:Eold; [|done]. rewrite bool_decide_true; [done|]. apply Hm; [set_solver|done].
Qed.

Lemma scan_Ok {V} `{EqDecision V} (value : Entry -> V) err es m : scan value err es ∅ = Ok m <-> agreed value es m.
Proof.
  split.
  - intros Hrun. apply (scan_spec value err es [] ∅ m); [|done]. intros n v. rewrite lookup_empty. split; [done|]. by intros (e & ?%elem_of_nil & _).
  - intros Hm. destruct (scan_total value err es ∅) as [m' Hrun].
    + intros e e' He He' Hn. assert (m !! entry_name e = Some (value e)) as H1 by (apply Hm; eauto).
      assert (m !! entry_name e' = Some (value e')) as H2 by (apply Hm; eauto). rewrite Hn in H1. congruence.
    + intros e v _. by rewrite lookup_empty.
    + rewrite Hrun. f_equal. apply (scan_spec value err es [] ∅ m') in Hrun.
      2: { intros n v. rewrite lookup_empty. split; [done|]. by intros (e & ?%elem_of_nil & _). }
      apply map_eq. intros n. apply option_eq. intros v. by rewrite (Hrun n v), (Hm n v).
Qed.

Lemma agreed_perm {V} (value : Entry -> V) es es' m : es ≡ₚ es' -> agreed value es m -> agreed value es' m.
Proof. intros Hp Hm n v. rewrite (Hm n v). by setoid_rewrite Hp. Qed.

Lemma entries_perm gpus gpus' : gpus ≡ₚ gpus' -> entries gpus ≡ₚ entries gpus'.
Proof. intros Hp. unfold entries. by rewrite Hp. Qed.

Lemma elem_of_entries e gpus : e ∈ entries gpus <-> e.1 ∈ gpus /\ kv_caches e.1 !! e.2.1 = Some e.2.2.
Proof.
  unfold entries. rewrite list_elem_of_bind. destruct e as [g [n l]]. cbn. split.
  - intros (g' & Hin & Hg). apply list_elem_of_fmap in Hin as (x & Hx & Hin). injection Hx as <- <-. split; [done|]. by apply elem_of_map_to_list in Hin.
  - intros [Hg Hl]. exists g. split; [|done]. apply list_elem_of_fmap. exists (n, l). split; [done|]. by apply elem_of_map_to_list.
Qed.

(** Resolving the layers does not depend on the order of the workers. *)
Lemma resolve_layers_perm gpus gpus' l : gpus ≡ₚ gpus' -> resolve_layers gpus = Ok l -> resolve_layers gpus' = Ok l.
Proof.
  intros Hp. apply entries_perm in Hp. unfold resolve_layers.
  destruct (scan shape _ (entries gpus) ∅) as [geo|] eqn:E1; [|done]. apply scan_Ok, (agreed_perm _ _ _ _ Hp) in E1.
  rewrite (proj2 (scan_Ok shape InconsistentGeometry (entries gpus') geo) E1).
  destruct (scan entry_group _ (entries gpus) ∅) as [grp|] eqn:E2; [|done]. apply scan_Ok, (agreed_perm _ _ _ _ Hp) in E2.
  by rewrite (proj2 (scan_Ok entry_group InconsistentGroup (entries gpus') grp) E2).
Qed.

(** ** Layer ids *)

Definition ids_of (names : list bytes) : gmap bytes nat := list_to_map (zip names (seq 0 (length names))).

Lemma ids_of_lookup names n i : NoDup names -> ids_of names !! n = Some i <-> names !! i = Some n.
Proof.
  intros Hnd. unfold ids_of. rewrite <- elem_of_list_to_map.
  - rewrite list_elem_of_lookup. split.
    + intros (k & Hk). apply lookup_zip_Some in Hk as [Hn Hs]. apply lookup_seq in Hs as [-> _]. done.
    + intros Hn. exists i. apply lookup_zip_Some. split; [done|]. apply lookup_seq. split; [done|]. by apply lookup_lt_Some in Hn.
  - rewrite fst_zip; [done|]. by rewrite length_seq.
Qed.

Lemma size_ids_of names : NoDup names -> size (ids_of names) = length names.
Proof.
  intros Hnd. unfold ids_of. rewrite <- (size_dom (D := gset bytes)), dom_list_to_map_L, fst_zip by (by rewrite length_seq).
  by rewrite size_list_to_set.
Qed.

Lemma btree_elements_NoDup (s : gset bytes) : NoDup (btree_elements s).
Proof. unfold btree_elements. rewrite merge_sort_Permutation. apply NoDup_elements. Qed.

(** ** Ranks within a group *)

Definition count_of (g : nat) (l : list nat) : nat := length (filter (fun x => x = g) l).

Lemma count_of_cons g x l : count_of g (x :: l) = ((if bool_decide (x = g) then 1 else 0) + count_of g l)%nat.
Proof. unfold count_of. rewrite filter_cons. case_bool_decide; [by rewrite decide_True|by rewrite decide_False]. Qed.
Lemma count_of_app g l k : count_of g (l ++ k) = (count_of g l + count_of g k)%nat.
Proof. unfold count_of. by rewrite filter_app, length_app. Qed.

Lemma group_ranks_spec gs : forall cnt ranks cnt',
  Forall (fun g => g < length cnt)%nat gs -> group_ranks gs cnt = (ranks, cnt') ->
  length cnt' = length cnt /\ length ranks = length gs /\
  (forall g c, cnt !! g = Some c -> cnt' !! g = Some (c + count_of g gs)%nat) /\
  (forall i g, gs !! i = Some g -> ranks !! i = Some (default 0 (cnt !! g) + count_of g (take i gs))%nat).
Proof.
  induction gs as [|x gs IH]; intros cnt ranks cnt' Hin; cbn [group_ranks].
  { intros [= <- <-]. split_and!; try done. intros g c Hc. rewrite Nat.add_0_r. done. }
  inversion_clear Hin as [|? ? Hx Hgs]. destruct (group_ranks gs (alter S x cnt)) as [rs c2] eqn:E. intros [= <- <-].
  destruct (IH (alter S x cnt) rs c2) as (H1 & H2 & H3 & H4); [by rewrite length_alter|done|]. rewrite length_alter in H1.
  split_and!; [done|cbn; lia| |].
  - intros g c Hc. destruct (decide (x = g)) as [->|Hne].
    + rewrite (H3 g (S c)); [|by rewrite list_lookup_alter_eq, Hc]. rewrite count_of_cons, bool_decide_true by done. f_equal. lia.
    + rewrite (H3 g c); [|by rewrite list_lookup_alter_ne]. rewrite count_of_cons, bool_decide_false by done. done.
  - intros [|i] g Hi; [injection Hi as ->; cbn; f_equal; unfold count_of; cbn; lia|].
    change ((default 0%nat (cnt !! x) :: rs) !! S i) with (rs !! i). cbn [take]. rewrite (H4 i g Hi), count_of_cons. f_equal. destruct (decide (x = g)) as [->|Hne].
    + rewrite list_lookup_alter_eq, bool_decide_true by done. destruct (cnt !! g) as [c|] eqn:Ec; cbn; [lia|].
      apply lookup_ge_None in Ec. lia.
    + rewrite list_lookup_alter_ne, bool_decide_false by done. lia.
Qed.

(** Ranks within a group are dense and distinct. *)
Lemma rank_lt i g gs : gs !! i = Some g -> (count_of g (take i gs) < count_of g gs)%nat.
Proof.
  intros Hi. rewrite <- (take_drop_middle gs i g Hi) at 2. rewrite count_of_app, count_of_cons, bool_decide_true by done. lia.
Qed.
Lemma rank_mono i j g gs : (i < j)%nat -> gs !! i = Some g -> (count_of g (take i gs) < count_of g (take j gs))%nat.
Proof.
  intros Hij Hi. assert (take j gs !! i = Some g) as Hj by (by rewrite lookup_take_lt). apply rank_lt in Hj. by rewrite take_take, Nat.min_l in Hj by lia.
Qed.
Lemma rank_inj i j g gs : gs !! i = Some g -> gs !! j = Some g -> count_of g (take i gs) = count_of g (take j gs) -> i = j.
Proof.
  intros Hi Hj He. destruct (Nat.lt_trichotomy i j) as [Hlt|[|Hgt]]; [|done|].
  - pose proof (rank_mono i j g gs Hlt Hi). lia.
  - pose proof (rank_mono j i g gs Hgt Hj). lia.
Qed.
Lemma rank_surj r g gs : (r < count_of g gs)%nat -> exists i, gs !! i = Some g /\ count_of g (take i gs) = r.
Proof.
  revert r. induction gs as [|x gs IH]; intros r Hr; [cbn in Hr; lia|]. rewrite count_of_cons in Hr. case_bool_decide as Hx.
  - destruct r as [|r]; [exists 0%nat; cbn; by subst|]. destruct (IH r) as (i & Hi & Hc); [lia|]. exists (S i). split; [done|].
    cbn [take]. rewrite count_of_cons, bool_decide_true by done. lia.
  - destruct (IH r) as (i & Hi & Hc); [lia|]. exists (S i). split; [done|]. cbn [take]. rewrite count_of_cons, bool_decide_false by done. done.
Qed.

(** ** The grid of layers and ranks *)

Definition cell_of (tp : nat) (ids : gmap bytes nat) (e : Entry) : option nat := (fun id => id * tp + tp_rank e.1)%nat <$> ids !! entry_name e.

Lemma claim_grid_spec tp ids es : forall owners owners',
  claim_grid tp ids es owners = Ok owners' ->
  length owners' = length owners /\
  (forall c o, owners !! c = Some (Some o) -> owners' !! c = Some (Some o)) /\
  (forall e, e ∈ es -> exists c d, cell_of tp ids e = Some c /\ owners' !! c = Some (Some (d, pp_rank e.1))) /\
  (forall c o, owners' !! c = Some (Some o) -> owners !! c = Some (Some o) \/ exists e, e ∈ es /\ cell_of tp ids e = Some c).
Proof.
  induction es as [|e es IH]; intros owners owners'; cbn [claim_grid].
  { intros [= <-]. split_and!; [done|done|intros e ?%elem_of_nil; done|by left]. }
  destruct (ids !! entry_name e) as [id|] eqn:Eid; [|done]. set (c := (id * tp + tp_rank e.1)%nat).
  assert (cell_of tp ids e = Some c) as Hcell by (unfold cell_of; by rewrite Eid).
  destruct (owners !! c) as [[[d stage]|]|] eqn:Ec; [| |done].
  - case_bool_decide as Hs; [|done]. intros Hrun. destruct (IH _ _ Hrun) as (H1 & H2 & H3 & H4). split_and!; [done|done| |].
    + intros e' [->|Hin]%elem_of_cons; [|by apply H3]. exists c, d. split; [done|]. apply H2. by rewrite Ec, Hs.
    + intros c' o Hc'. destruct (H4 c' o Hc') as [|(e' & Hin & He)]; [by left|right; exists e'; set_solver].
  - intros Hrun. destruct (IH _ _ Hrun) as (H1 & H2 & H3 & H4). rewrite length_insert in H1.
    pose proof (lookup_lt_Some _ _ _ Ec) as Hlt. split_and!; [done| | |].
    + intros c' o Hc'. apply H2. rewrite list_lookup_insert_ne; [done|congruence].
    + intros e' [->|Hin]%elem_of_cons; [|by apply H3]. exists c, (device_id e.1). split; [done|]. apply H2. by rewrite list_lookup_insert_eq.
    + intros c' o Hc'. destruct (H4 c' o Hc') as [Ho|(e' & Hin & He)]; [|right; exists e'; set_solver].
      destruct (decide (c = c')) as [<-|Hne]; [right; exists e; set_solver|]. left. by rewrite list_lookup_insert_ne in Ho.
Qed.

Lemma claim_grid_total tp ids es : forall owners,
  (forall e, e ∈ es -> exists c, cell_of tp ids e = Some c /\ (c < length owners)%nat) ->
  (forall e e', e ∈ es -> e' ∈ es -> cell_of tp ids e = cell_of tp ids e' -> pp_rank e.1 = pp_rank e'.1) ->
  (forall e c d p, e ∈ es -> cell_of tp ids e = Some c -> owners !! c = Some (Some (d, p)) -> p = pp_rank e.1) ->
  exists owners', claim_grid tp ids es owners = Ok owners'.
Proof.
  induction es as [|e es IH]; intros owners Hin Hag Ho; cbn [claim_grid]; [eauto|].
  destruct (Hin e) as (c & Hc & Hlt); [set_solver|]. unfold cell_of in Hc. destruct (ids !! entry_name e) as [id|] eqn:Eid; [|done].
  cbn in Hc. injection Hc as Hc. rewrite Hc. assert (cell_of tp ids e = Some c) as Hcell by (unfold cell_of; rewrite Eid; cbn; by rewrite Hc).
  destruct (lookup_lt_is_Some_2 owners c Hlt) as [[[d p]|] Ec]; rewrite Ec.
  - rewrite bool_decide_true by (eapply Ho; [set_solver|done|done]). apply IH; [set_solver|set_solver|].
    intros e' c' d' p' He'. apply Ho. set_solver.
  - apply IH; [intros e' He'; rewrite length_insert; apply Hin; set_solver|set_solver|].
    intros e' c' d' p' He' Hc' Hl. destruct (decide (c = c')) as [<-|Hne].
    + rewrite list_lookup_insert_eq in Hl by done. injection Hl as _ <-. apply Hag; [set_solver..|congruence].
    + rewrite list_lookup_insert_ne in Hl by done. eapply Ho; [set_solver|done|done].
Qed.

Lemma first_missing_None {A} (l : list (option A)) i : first_missing i l = None <-> forall c, (c < length l)%nat -> exists o, l !! c = Some (Some o).
Proof.
  revert i. induction l as [|[x|] l IH]; intros i; cbn [first_missing length].
  - split; [intros _ c Hc; lia|done].
  - rewrite IH. split.
    + intros H [|c] Hc; [by exists x|]. apply (H c). lia.
    + intros H c Hc. apply (H (S c)). lia.
  - split; [done|]. intros H. destruct (H 0%nat) as [o Ho]; [lia|done].
Qed.

(** Every cell has an owner and its owners are of one pipeline stage. *)
Definition grid_ok (tp : nat) (ids : gmap bytes nat) (cells : nat) (es : list Entry) : Prop :=
  (forall e, e ∈ es -> exists c, cell_of tp ids e = Some c /\ (c < cells)%nat) /\
  (forall e e', e ∈ es -> e' ∈ es -> cell_of tp ids e = cell_of tp ids e' -> pp_rank e.1 = pp_rank e'.1) /\
  (forall c, (c < cells)%nat -> exists e, e ∈ es /\ cell_of tp ids e = Some c).

Lemma claim_grid_iff tp ids cells es :
  (exists owners, claim_grid tp ids es (replicate cells None) = Ok owners /\ first_missing 0 owners = None) <-> grid_ok tp ids cells es.
Proof.
  split.
  - intros (owners & Hrun & Hall). rewrite first_missing_None in Hall. destruct (claim_grid_spec _ _ _ _ _ Hrun) as (H1 & _ & H3 & H4).
    rewrite length_replicate in H1. split_and!.
    + intros e He. destruct (H3 e He) as (c & d & Hc & Ho). exists c. split; [done|]. apply lookup_lt_Some in Ho. lia.
    + intros e e' He He' Hc. destruct (H3 e He) as (c & d & Hce & Ho). destruct (H3 e' He') as (c' & d' & Hce' & Ho'). congruence.
    + intros c Hc. destruct (Hall c) as [o Ho]; [lia|]. destruct (H4 c o Ho) as [Hr|]; [|done]. apply lookup_replicate in Hr as [? _]. done.
  - intros (H1 & H2 & H3). destruct (claim_grid_total tp ids es (replicate cells None)) as [owners Hrun].
    + intros e He. rewrite length_replicate. by apply H1.
    + done.
    + intros e c d p _ _ Hr. apply lookup_replicate in Hr as [? _]. done.
    + exists owners. split; [done|]. rewrite first_missing_None. destruct (claim_grid_spec _ _ _ _ _ Hrun) as (G1 & _ & G3 & _).
      rewrite length_replicate in G1. intros c Hc. destruct (H3 c) as (e & He & Hce); [lia|]. destruct (G3 e He) as (c' & d & Hc' & Ho).
      assert (c' = c) as -> by congruence. eauto.
Qed.

Lemma grid_ok_perm tp ids cells es es' : es ≡ₚ es' -> grid_ok tp ids cells es -> grid_ok tp ids cells es'.
Proof. intros Hp (H1 & H2 & H3). split_and!; repeat setoid_rewrite <- Hp; done. Qed.

(** ** Resolved layers *)

Record resolved (gpus : list GpuContext) (l : Layers) : Prop := {
  rs_sorted : StronglySorted key_lt (names l);
  rs_names : forall n, n ∈ names l <-> exists g, g ∈ gpus /\ is_Some (kv_caches g !! n);
  rs_ids : ids l = ids_of (names l);
  rs_groups : forall g n lay i, g ∈ gpus -> kv_caches g !! n = Some lay -> names l !! i = Some n ->
    groups l !! i = Some (group_of g n) /\ padded l !! i = Some (padded_block_bytes (geometry lay));
  rs_lengths : length (groups l) = length (names l) /\ length (padded l) = length (names l);
  rs_range : Forall (fun g => g < length (counts l))%nat (groups l);
  rs_ranks : forall i g, groups l !! i = Some g -> ranks l !! i = Some (count_of g (take i (groups l)));
  rs_rank_length : length (ranks l) = length (names l);
  rs_counts : forall g, (g < length (counts l))%nat -> counts l !! g = Some (count_of g (groups l)) /\ (0 < count_of g (groups l))%nat
}.

Lemma max_list_elem x l : x ∈ l -> (x <= max_list l)%nat.
Proof. apply max_list_elem_of_le. Qed.

(** As many distinct values as the range has: the range is exhausted. *)
Lemma dense_values (vs : list nat) k :
  size (list_to_set vs : gset nat) = S (max_list vs) -> (k < S (max_list vs))%nat -> k ∈ vs.
Proof.
  intros Hsz Hk. assert ((list_to_set vs : gset nat) ⊆ list_to_set (seq 0 (S (max_list vs)))) as Hsub.
  { intros x. rewrite !elem_of_list_to_set. intros Hx%max_list_elem. apply elem_of_seq. lia. }
  assert (size (list_to_set (seq 0 (S (max_list vs))) : gset nat) = S (max_list vs)) as Hseq.
  { rewrite size_list_to_set by apply NoDup_seq. apply length_seq. }
  assert ((list_to_set vs : gset nat) = list_to_set (seq 0 (S (max_list vs)))) as Heq.
  { apply set_subseteq_size_eq; [done|]. lia. }
  assert (k ∈ (list_to_set vs : gset nat)) as Hin; [|by apply elem_of_list_to_set in Hin].
  rewrite Heq. apply elem_of_list_to_set, elem_of_seq. lia.
Qed.

Lemma resolve_layers_ok gpus l : resolve_layers gpus = Ok l -> resolved gpus l.
Proof.
  unfold resolve_layers. destruct (scan shape _ _ _) as [geo|] eqn:E1; [|done]. destruct (scan entry_group _ _ _) as [grp|] eqn:E2; [|done].
  apply scan_Ok in E1, E2. set (vs := (map_to_list grp).*2). destruct (Nat.eqb_spec (size (list_to_set vs : gset nat)) (1 + max_list vs)) as [Hd|]; [|done].
  cbn [negb]. set (ns := btree_elements (dom geo)). set (gs := (fun n => default 0%nat (grp !! n)) <$> ns).
  destruct (group_ranks gs _) as [rks cnt] eqn:Eg. intros [= <-].
  assert (forall n, n ∈ ns <-> exists g, g ∈ gpus /\ is_Some (kv_caches g !! n)) as Hns.
  { intros n. unfold ns. rewrite elem_of_btree_elements, elem_of_dom. split.
    - intros [v Hv]. apply E1 in Hv as (e & He & <- & _). apply elem_of_entries in He as [Hg Hl]. exists e.1. split; [done|]. by eexists.
    - intros (g & Hg & lay & Hl). exists (shape (g, (n, lay))). apply E1. exists (g, (n, lay)). split; [|done]. by apply elem_of_entries. }
  assert (forall g n lay, g ∈ gpus -> kv_caches g !! n = Some lay -> grp !! n = Some (group_of g n) /\ geo !! n = Some (shape (g, (n, lay)))) as Hval.
  { intros g n lay Hg Hl. assert ((g, (n, lay)) ∈ entries gpus) as He by (by apply elem_of_entries). split.
    - apply E2. by exists (g, (n, lay)).
    - apply E1. by exists (g, (n, lay)). }
  assert (forall n v, grp !! n = Some v -> v ∈ vs) as Hvs.
  { intros n v Hv. apply list_elem_of_fmap. exists (n, v). split; [done|]. by apply elem_of_map_to_list. }
  assert (Forall (fun g => g < length (replicate (1 + max_list vs) 0%nat))%nat gs) as Hrange.
  { rewrite length_replicate. apply Forall_fmap, Forall_forall. intros n Hn. apply Hns in Hn as (g & Hg & lay & Hl). cbn.
    destruct (Hval g n lay Hg Hl) as [-> _]. cbn. pose proof (max_list_elem (group_of g n) vs). specialize (H ltac:(apply (Hvs n); by apply (Hval g n lay))). lia. }
  destruct (group_ranks_spec gs _ _ _ Hrange Eg) as (G1 & G2 & G3 & G4). rewrite length_replicate in G1.
  split; cbn.
  - apply btree_elements_sorted.
  - done.
  - done.
  - intros g n lay i Hg Hl Hi. destruct (Hval g n lay Hg Hl) as [Hgr Hge]. unfold gs. rewrite !list_lookup_fmap, Hi. cbn. by rewrite Hgr, Hge.
  - unfold gs. by rewrite !length_fmap.
  - rewrite length_replicate in Hrange. by rewrite G1.
  - intros i g Hi. rewrite (G4 i g Hi). rewrite Forall_lookup in Hrange. specialize (Hrange i g Hi). rewrite length_replicate in Hrange.
    by rewrite lookup_replicate_2.
  - rewrite G2. unfold gs. apply length_fmap.
  - intros g Hg. rewrite G1 in Hg. rewrite (G3 g 0%nat) by (by apply lookup_replicate_2). split; [done|].
    pose proof (dense_values vs g Hd Hg) as Hin. apply list_elem_of_fmap in Hin as ([n v] & -> & Hin). apply elem_of_map_to_list in Hin. cbn in *.
    assert (n ∈ ns) as Hnn.
    { apply Hns. apply E2 in Hin as (e & He & <- & _). apply elem_of_entries in He as [? ?]. exists e.1. split; [done|]. by eexists. }
    apply list_elem_of_lookup in Hnn as [i Hi]. assert (gs !! i = Some v) as Hgi by (unfold gs; rewrite list_lookup_fmap, Hi; cbn; by rewrite Hin).
    eapply Nat.le_lt_trans; [apply Nat.le_0_l|exact (rank_lt i v gs Hgi)].
Qed.
