(* ===== verification/TopologySeal.v ===== *)
(** * Sealing and registration

    The theorems on [seal_topology] and [register_new_gpu] of orbitkv-core/src/engine/instance.rs. *)
From S2P Require Import Prelude Containers State KvLayout Topology TopologyPages TopologySpec.

Local Open Scope Z_scope.
Local Open Scope rust_scope.

(** ** Order of arrival *)

Lemma foldl_perm {A B} (f : A -> B -> A) l k : (forall a x y, f (f a x) y = f (f a y) x) -> l ≡ₚ k -> forall a, foldl f a l = foldl f a k.
Proof. intros Hf. induction 1 as [|x l k _ IH|x y l|l k m _ IH1 _ IH2]; intros a; cbn; [done|apply IH|by rewrite Hf|by rewrite IH1]. Qed.

Lemma merge_sort_perm {K} `{Ord K} (l k : list K) : l ≡ₚ k -> merge_sort key_le l = merge_sort key_le k.
Proof.
  intros Hp. apply (StronglySorted_unique key_le).
  - apply Sorted_StronglySorted; [apply _|]. apply Sorted_merge_sort. apply _.
  - apply Sorted_StronglySorted; [apply _|]. apply Sorted_merge_sort. apply _.
  - by rewrite !merge_sort_Permutation.
Qed.

(** The slot that an entry is stored in. *)
Definition slot_of (t : LayerTopology) (e : Entry) : option (nat * nat) :=
  id ← name_to_id t !! entry_name e; g ← layer_group t !! id;
  match slot_index t id (tp_rank e.1) with Ok s => Some (g, s) | Err _ => None end.
Definition place_one (t : LayerTopology) (nodes : list (list Z)) (e : Entry) : list (list Z) :=
  match slot_of t e with Some (g, s) => alter (alter (fun n => Z.min n (preferred_numa e.1)) s) g nodes | None => nodes end.
Definition has_slot (nodes : list (list Z)) (g s : nat) : Prop := exists row, nodes !! g = Some row /\ is_Some (row !! s).

Lemma has_slot_alter nodes f g s g' s' : has_slot (alter (alter f s) g nodes) g' s' <-> has_slot nodes g' s'.
Proof.
  unfold has_slot. destruct (decide (g = g')) as [->|Hne]; [|by rewrite list_lookup_alter_ne]. rewrite list_lookup_alter_eq.
  destruct (nodes !! g') as [row|]; cbn; [|naive_solver].
  assert (is_Some (alter f s row !! s') <-> is_Some (row !! s')) as Hrow.
  { destruct (decide (s = s')) as [->|Hs]; [|by rewrite list_lookup_alter_ne]. rewrite list_lookup_alter_eq. by rewrite fmap_is_Some. }
  split; intros (r & [= <-] & Hr); eexists; (split; [done|]); by apply Hrow.
Qed.

Lemma list_alter_Some {A} (f : A -> A) (l : list A) i x : l !! i = Some x -> alter f i l = <[i := f x]> l.
Proof.
  intros Hx. pose proof (lookup_lt_Some _ _ _ Hx) as Hlt. apply list_eq. intros j. destruct (decide (i = j)) as [->|Hne].
  - by rewrite list_lookup_alter_eq, Hx, list_lookup_insert_eq.
  - by rewrite list_lookup_alter_ne, list_lookup_insert_ne.
Qed.

Lemma list_alter_comm {A} (f g : A -> A) (l : list A) i j : (forall x, i = j -> f (g x) = g (f x)) -> alter f i (alter g j l) = alter g j (alter f i l).
Proof.
  intros Hfg. apply list_eq. intros k. destruct (decide (i = k)) as [->|Hi], (decide (j = k)) as [->|Hj].
  - rewrite !list_lookup_alter_eq. destruct (l !! k); cbn; [|done]. by rewrite Hfg.
  - by rewrite list_lookup_alter_eq, !list_lookup_alter_ne, list_lookup_alter_eq by done.
  - by rewrite list_lookup_alter_ne, !list_lookup_alter_eq, list_lookup_alter_ne by done.
  - by rewrite !list_lookup_alter_ne by done.
Qed.

Lemma place_slots_cons t e es nodes nodes' :
  place_slots t (e :: es) nodes = Ok nodes' <->
  (exists g s, slot_of t e = Some (g, s) /\ has_slot nodes g s) /\ place_slots t es (place_one t nodes e) = Ok nodes'.
Proof.
  unfold place_one, slot_of, has_slot. cbn [place_slots].
  destruct (name_to_id t !! entry_name e) as [id|]; cbn; [|split; [done|by intros [(? & ? & [=] & _) _]]].
  destruct (layer_group t !! id) as [g|]; cbn; [|split; [done|by intros [(? & ? & [=] & _) _]]].
  destruct (slot_index t id (tp_rank e.1)) as [s|]; [|split; [done|by intros [(? & ? & [=] & _) _]]].
  destruct (nodes !! g) as [row|] eqn:E4; cbn [ok_or]; [|split; [done|intros [(? & ? & [= <- <-] & row & Hrow & _) _]; congruence]].
  destruct (row !! s) as [n|] eqn:E5; cbn [ok_or]; [|split; [done|intros [(? & ? & [= <- <-] & row' & Hrow & x & Hx) _]; congruence]].
  rewrite (list_alter_Some _ nodes g row E4), (list_alter_Some _ row s n E5). split; [|by intros [_ ?]].
  intros Hrun. split; [|done]. exists g, s. split; [done|]. exists row. split; [done|by exists n].
Qed.

Lemma place_slots_Ok t es : forall nodes nodes',
  place_slots t es nodes = Ok nodes' <->
  (forall e, e ∈ es -> exists g s, slot_of t e = Some (g, s) /\ has_slot nodes g s) /\ nodes' = foldl (place_one t) nodes es.
Proof.
  induction es as [|e es IH]; intros nodes nodes'.
  { cbn. split; [intros [= <-]; split; [intros e ?%elem_of_nil; done|done]|by intros [_ ->]]. }
  rewrite place_slots_cons, IH. cbn [foldl]. setoid_rewrite elem_of_cons.
  assert (forall g s, has_slot (place_one t nodes e) g s <-> has_slot nodes g s) as Hs.
  { intros g s. unfold place_one. destruct (slot_of t e) as [[g' s']|]; [apply has_slot_alter|done]. }
  setoid_rewrite Hs. naive_solver.
Qed.

Lemma place_slots_perm t es es' nodes nodes' : es ≡ₚ es' -> place_slots t es nodes = Ok nodes' -> place_slots t es' nodes = Ok nodes'.
Proof.
  intros Hp [Hall ->]%place_slots_Ok. apply place_slots_Ok. split; [intros e He; apply Hall; by rewrite Hp|]. apply foldl_perm; [|done].
  intros ns x y. unfold place_one. destruct (slot_of t x) as [[g s]|], (slot_of t y) as [[g' s']|]; try done.
  apply list_alter_comm. intros row ->. apply list_alter_comm. intros n _. lia.
Qed.

Lemma sorted_NoDup (l : list bytes) : StronglySorted key_lt l -> NoDup l.
Proof.
  induction 1 as [|x l _ IH Hx]; [constructor|]. constructor; [|done]. intros Hin. rewrite Forall_forall in Hx.
  apply (key_lt_irrefl x). by apply Hx.
Qed.
Lemma resolved_NoDup gpus l : resolved gpus l -> NoDup (names l).
Proof. intros Hr. apply sorted_NoDup, (rs_sorted _ _ Hr). Qed.
Lemma resolved_id gpus l n i : resolved gpus l -> ids l !! n = Some i <-> names l !! i = Some n.
Proof. intros Hr. rewrite (rs_ids _ _ Hr). apply ids_of_lookup. by eapply resolved_NoDup. Qed.

(** ** The result is a function of the registrations *)

Section Seal.
Context (sha256 : bytes -> bytes) (to_json : bytes -> bool -> list StorageSlot -> bytes).
Abbreviation seal_topology := (seal_topology sha256 to_json).

Lemma worker_sets_nonempty gpus l :
  resolved gpus l -> Forall (fun g => kv_caches g <> ∅) gpus ->
  Forall (fun s => s <> ∅) ((fun g => list_to_set (omap (fun n => ids l !! n) (elements (dom (kv_caches g)))) : gset nat) <$> gpus).
Proof.
  intros Hr Hne. apply Forall_fmap, Forall_forall. intros g Hg. cbn. rewrite Forall_forall in Hne. specialize (Hne g Hg).
  destruct (map_choose _ Hne) as (n & lay & Hn). assert (n ∈ names l) as Hin by (apply (rs_names _ _ Hr); eauto).
  apply list_elem_of_lookup in Hin as [i Hi]. intros Hempty. assert (i ∈ (∅ : gset nat)) as Hx; [|set_solver].
  rewrite <- Hempty. apply elem_of_list_to_set, list_elem_of_omap. exists n. split; [apply elem_of_elements, elem_of_dom; eauto|].
  by apply (resolved_id gpus).
Qed.

(** The order in which the workers arrived does not show. *)
Lemma seal_topology_perm ns tp pf gpus gpus' t :
  gpus ≡ₚ gpus' -> Forall (fun g => kv_caches g <> ∅) gpus -> seal_topology ns tp pf gpus = Ok t -> seal_topology ns tp pf gpus' = Ok t.
Proof.
  intros Hp Hne. pose proof (entries_perm _ _ Hp) as He. unfold Topology.seal_topology.
  destruct (resolve_layers gpus) as [l|] eqn:El; [|done]. rewrite (resolve_layers_perm _ _ _ Hp El). apply resolve_layers_ok in El.
  destruct (pf && _); [done|]. destruct (claim_grid _ _ (entries gpus) _) as [owners|] eqn:Ec; [|done].
  destruct (first_missing 0 owners) eqn:Em; [done|].
  destruct (proj2 (claim_grid_iff tp (ids l) (length (names l) * tp) (entries gpus'))) as (owners' & -> & ->).
  { apply (grid_ok_perm _ _ _ _ _ He). apply claim_grid_iff. eauto. }
  set (f := fun g => list_to_set (omap (fun n => ids l !! n) (elements (dom (kv_caches g)))) : gset nat).
  assert (forall r, (if pf then let? p := build_page_layout (f <$> gpus) (length (names l)) (padded l) in Ok (Some p) else Ok None) = Ok r ->
    (if pf then let? p := build_page_layout (f <$> gpus') (length (names l)) (padded l) in Ok (Some p) else Ok None) = Ok r) as Hpages.
  { intros r. destruct pf; [|done]. destruct (build_page_layout (f <$> gpus) _ _) as [p|] eqn:Eb; [|done].
    rewrite (build_page_layout_perm (f <$> gpus) (f <$> gpus') _ _ p); [done|by rewrite Hp|by apply worker_sets_nonempty|done]. }
  destruct (if pf then _ else _) as [pl|] eqn:Epl; [|done]. rewrite (Hpages _ eq_refl).
  destruct (add_group_bytes _ _ _ _) as [bytes|]; [|done].
  assert (storage_namespace sha256 to_json ns pf (entry_slot <$> entries gpus') = storage_namespace sha256 to_json ns pf (entry_slot <$> entries gpus)) as ->.
  { unfold storage_namespace. by rewrite (merge_sort_perm (entry_slot <$> entries gpus') (entry_slot <$> entries gpus)) by (by rewrite He). }
  destruct (collect_results _ _) as [rows|]; [|done]. destruct (place_slots _ (entries gpus) rows) as [numa|] eqn:En; [|done].
  by rewrite (place_slots_perm _ _ _ _ _ He En).
Qed.

(** ** Slots and pages *)

(** The slots of a group are exactly the pairs of a layer of the group and a rank. *)
Definition dense_slots (t : LayerTopology) (g total : nat) : Prop :=
  (forall id r s, layer_group t !! id = Some g -> slot_index t id r = Ok s -> (s < total)%nat) /\
  (forall id r s id' r', layer_group t !! id = Some g -> layer_group t !! id' = Some g ->
     slot_index t id r = Ok s -> slot_index t id' r' = Ok s -> id = id' /\ r = r') /\
  (forall s, (s < total)%nat -> exists id r, layer_group t !! id = Some g /\ slot_index t id r = Ok s).

(** A worker writes the layers of one shard, and the layers of a shard tile its page. *)
Definition tiled_pages (t : LayerTopology) (p : PageLayout) (gpus : list GpuContext) : Prop :=
  (forall g, g ∈ gpus -> exists k, forall n id, name_to_id t !! n = Some id -> (is_Some (kv_caches g !! n) <-> layer_shard p !! id = Some k)) /\
  (forall k bytes o, shard_page_size t k = Some bytes -> 0 <= o < bytes ->
     exists id, (layer_shard p !! id = Some k /\ exists off len, page_placement t id = Some (off, len) /\ off <= o < off + len) /\
       forall id', layer_shard p !! id' = Some k -> forall off len, page_placement t id' = Some (off, len) -> off <= o < off + len -> id' = id).

Record sealed_ok (tp : nat) (gpus : list GpuContext) (t : LayerTopology) : Prop := {
  so_tp : tp_size t = tp;
  so_names : exists names, StronglySorted key_lt names /\ name_to_id t = ids_of names /\ num_layers t = length names /\
    forall n, n ∈ names <-> exists g, g ∈ gpus /\ is_Some (kv_caches g !! n);
  so_group : forall g n id, g ∈ gpus -> is_Some (kv_caches g !! n) -> name_to_id t !! n = Some id -> layer_group t !! id = Some (group_of g n);
  so_owner : forall id r, (id < num_layers t)%nat -> (r < tp)%nat ->
    exists g n, g ∈ gpus /\ tp_rank g = r /\ is_Some (kv_caches g !! n) /\ name_to_id t !! n = Some id;
  so_slots : page_layout t = None -> forall g total, group_total_slots t g = Ok total -> dense_slots t g total;
  so_pages : forall p, page_layout t = Some p -> num_groups t = 1%nat /\ tiled_pages t p gpus;
  so_bytes : forall g b, group_block_bytes t !! g = Some b -> b <= u64_max
}.

Lemma layer_first_dense l ns tp bytes numa gpus g total :
  resolved gpus l ->
  let t := mkTopology ns (ids l) tp (groups l) (counts l) bytes numa (ranks l) None in
  group_total_slots t g = Ok total -> dense_slots t g total.
Proof.
  intros Hr t. pose proof (resolved_NoDup _ _ Hr) as Hnd. destruct (rs_lengths _ _ Hr) as [Hlg _].
  assert (num_layers t = length (names l)) as Hnum by (unfold num_layers; cbn; rewrite (rs_ids _ _ Hr); by apply size_ids_of).
  unfold group_total_slots, num_groups. cbn [group_layer_count page_layout tp_size t].
  destruct (Nat.leb_spec (length (counts l)) g); [done|]. destruct (rs_counts _ _ Hr g ltac:(done)) as [-> _]. cbn [ok_or]. intros [= <-].
  assert (forall id r s, layer_group t !! id = Some g -> slot_index t id r = Ok s <->
    (r < tp)%nat /\ s = (count_of g (take id (groups l)) * tp + r)%nat) as Hslot.
  { intros id r s Hg. pose proof (lookup_lt_Some _ _ _ Hg) as Hlt. cbn in Hlt. unfold slot_index. rewrite Hnum. cbn [tp_size page_layout layer_group_rank t].
    destruct (Nat.leb_spec (length (names l)) id); [lia|]. destruct (Nat.leb_spec tp r); [split; [done|lia]|].
    rewrite (rs_ranks _ _ Hr id g Hg). cbn [ok_or]. split; [intros [= <-]; done|]. intros [_ ->]. done. }
  split_and!.
  - intros id r s Hg Hs. apply Hslot in Hs as [Hrt ->]; [|done]. pose proof (rank_lt id g (groups l) Hg). nia.
  - intros id r s id' r' Hg Hg' Hs Hs'. apply Hslot in Hs as [Hrt ->]; [|done]. apply Hslot in Hs' as [Hrt' Heq]; [|done].
    assert (forall a x, (x < tp)%nat -> ((a * tp + x) / tp = a)%nat) as Hdiv.
    { intros a x Hx. rewrite Nat.div_add_l, Nat.div_small by lia. lia. }
    assert (count_of g (take id (groups l)) = count_of g (take id' (groups l))) as Hc.
    { by rewrite <- (Hdiv (count_of g (take id (groups l))) r), <- (Hdiv (count_of g (take id' (groups l))) r'), Heq. }
    split; [|rewrite Hc in Heq; lia]. by apply (rank_inj id id' g (groups l)).
  - intros s Hs. assert (0 < tp)%nat by nia. destruct (rank_surj (s / tp) g (groups l)) as (id & Hid & Hc).
    { apply Nat.Div0.div_lt_upper_bound. lia. }
    exists id, (s mod tp)%nat. split; [done|]. apply Hslot; [done|]. split; [by apply Nat.mod_upper_bound; lia|]. rewrite Hc. pose proof (Nat.div_mod_eq s tp). lia.
Qed.

Definition layer_sets (l : Layers) (gpus : list GpuContext) : list (gset nat) :=
  (fun g => list_to_set (omap (fun n => ids l !! n) (elements (dom (kv_caches g))))) <$> gpus.

Lemma page_first_tiled l ns tp bytes numa gpus p :
  resolved gpus l -> Forall (fun b => 0 <= b) (padded l) -> laid_out (layer_sets l gpus) (length (names l)) (padded l) p ->
  tiled_pages (mkTopology ns (ids l) tp (groups l) (counts l) bytes numa (ranks l) (Some p)) p gpus.
Proof.
  intros Hr Hnn [[Hlen Hpart] Hb Ho Hs]. destruct (rs_lengths _ _ Hr) as [_ Hlp]. split.
  - intros g Hg. set (s := list_to_set (omap (fun n => ids l !! n) (elements (dom (kv_caches g)))) : gset nat).
    assert (s ∈ merge_sort least_le (distinct_sets (layer_sets l gpus))) as Hin.
    { rewrite merge_sort_Permutation. apply distinct_sets_spec. apply list_elem_of_fmap. by exists g. }
    apply list_elem_of_lookup in Hin as [k Hk]. exists k. intros n id Hid. cbn in Hid. rewrite Hpart.
    assert (id ∈ s <-> is_Some (kv_caches g !! n)) as Hs'.
    { unfold s. rewrite elem_of_list_to_set, list_elem_of_omap. split.
      - intros (n' & Hn' & Hid'). apply elem_of_elements, elem_of_dom in Hn'. assert (n' = n) as ->; [|done].
        apply (resolved_id gpus) in Hid, Hid'; [congruence|done..].
      - intros Hn. exists n. split; [by apply elem_of_elements, elem_of_dom|done]. }
    rewrite <- Hs'. split; [intros; by exists s|]. intros (s' & Hk' & Hin). congruence.
  - intros k size o Hsz Hrange. unfold shard_page_size in Hsz. cbn in Hsz. apply Hs in Hsz as ->.
    assert (forall id off len, layer_shard p !! id = Some k -> page_placement (mkTopology ns (ids l) tp (groups l) (counts l) bytes numa (ranks l) (Some p)) id = Some (off, len) ->
      padded l !! id = Some len /\ off = bytes_of k (take id (layer_shard p)) (take id (padded l))) as Hplace.
    { intros id off len Hk. unfold page_placement. cbn. rewrite (Ho id k Hk), Hb. cbn. destruct (padded l !! id); [|done]. cbn. by intros [= <- <-]. }
    destruct (page_tiled (layer_shard p) (padded l) k o Hnn ltac:(lia) Hrange) as (id & (b & Hk & Hpb & Hin) & Huniq). exists id. split.
    + split; [done|]. exists (bytes_of k (take id (layer_shard p)) (take id (padded l))), b. split; [|done].
      unfold page_placement. cbn. rewrite (Ho id k Hk), Hb. cbn. by rewrite Hpb.
    + intros id' Hk' off len Hpl Hin'. destruct (Hplace id' off len Hk' Hpl) as [Hpb' ->]. apply Huniq. by exists len.
Qed.

Lemma resolved_padded gpus l : resolved gpus l -> Forall (fun b => 0 <= b) (padded l).
Proof.
  intros Hr. apply Forall_lookup. intros i b Hb. destruct (rs_lengths _ _ Hr) as [_ Hlp].
  destruct (lookup_lt_is_Some_2 (names l) i) as [n Hn]; [apply lookup_lt_Some in Hb; lia|].
  assert (n ∈ names l) as Hin by (by eapply list_elem_of_lookup_2). apply (rs_names _ _ Hr) in Hin as (g & Hg & lay & Hl).
  destruct (rs_groups _ _ Hr g n lay i Hg Hl Hn) as [_ Hp]. rewrite Hp in Hb. injection Hb as <-. unfold padded_block_bytes, u64_mul, wrap64.
  apply Z.mod_pos_bound. reflexivity.
Qed.

(** A sealed topology keeps its promises. *)
Lemma seal_topology_ok ns tp pf gpus t :
  (0 < tp)%nat -> Forall (fun g => tp_rank g < tp)%nat gpus -> gpus <> [] -> Forall (fun g => kv_caches g <> ∅) gpus ->
  seal_topology ns tp pf gpus = Ok t -> sealed_ok tp gpus t.
Proof.
  intros Htp Hranks Hne Hcaches. unfold Topology.seal_topology. destruct (resolve_layers gpus) as [l|] eqn:El; [|done]. apply resolve_layers_ok in El as Hr.
  destruct (pf && _) eqn:Epf; [done|]. destruct (claim_grid _ _ (entries gpus) _) as [owners|] eqn:Ec; [|done].
  destruct (first_missing 0 owners) eqn:Em; [done|].
  pose proof (proj1 (claim_grid_iff tp (ids l) (length (names l) * tp) (entries gpus)) (ex_intro _ owners (conj Ec Em))) as (Hg1 & _ & Hg3).
  destruct (if pf then _ else _) as [pl|] eqn:Epl; [|done]. destruct (add_group_bytes _ _ _ _) as [bytes|] eqn:Eb; [|done].
  destruct (collect_results _ _) as [rows|]; [|done]. destruct (place_slots _ (entries gpus) rows) as [numa|]; [|done]. intros [= <-].
  pose proof (resolved_NoDup _ _ Hr) as Hnd. destruct (rs_lengths _ _ Hr) as [Hlg Hlp].
  destruct (add_group_bytes_spec _ _ _ _ _ Eb) as (B1 & B2 & B3). rewrite length_replicate in B1.
  assert (num_layers (mkTopology (storage_namespace sha256 to_json ns pf (entry_slot <$> entries gpus)) (ids l) tp (groups l) (counts l) bytes numa (ranks l) pl)
    = length (names l)) as Hnum by (unfold num_layers; cbn; rewrite (rs_ids _ _ Hr); by apply size_ids_of).
  split; cbn [tp_size name_to_id layer_group group_block_bytes].
  - done.
  - exists (names l). split_and!; [apply (rs_sorted _ _ Hr)|apply (rs_ids _ _ Hr)|done|apply (rs_names _ _ Hr)].
  - intros g n id Hg [lay Hl] Hid. apply (resolved_id gpus) in Hid; [|done]. by apply (rs_groups _ _ Hr g n lay id).
  - intros id r Hid Hrt. rewrite Hnum in Hid. destruct (Hg3 (id * tp + r)%nat) as (e & He & Hcell); [nia|].
    apply elem_of_entries in He as [Hge Hl]. rewrite Forall_forall in Hranks. specialize (Hranks _ Hge). unfold cell_of in Hcell.
    destruct (ids l !! entry_name e) as [id'|] eqn:Eid; [|done]. cbn in Hcell. injection Hcell as Hcell.
    assert (id' = id /\ tp_rank e.1 = r) as [-> <-].
    { assert (forall a x, (x < tp)%nat -> ((a * tp + x) / tp = a)%nat) as Hdiv by (intros a x Hx; rewrite Nat.div_add_l, Nat.div_small by lia; lia).
      assert (id' = id) as ->; [|lia]. by rewrite <- (Hdiv id' (tp_rank e.1)), <- (Hdiv id r), Hcell. }
    exists e.1, (entry_name e). split_and!; [done|done|by eexists|done].
  - cbn [page_layout]. intros -> g total. by eapply layer_first_dense.
  - cbn [page_layout]. intros p ->. destruct pf; [|done]. cbn [andb] in Epf. apply Nat.ltb_ge in Epf.
    fold (layer_sets l gpus) in Epl. destruct (build_page_layout _ _ _) as [p'|] eqn:Ep; [|done]. injection Epl as ->.
    assert (0 < length (counts l))%nat as Hcnt.
    { destruct gpus as [|g gpus0]; [done|]. pose proof (Forall_inv Hcaches) as Hkv. destruct (map_choose _ Hkv) as (n & lay & Hn).
      assert (n ∈ names l) as Hin by (apply (rs_names _ _ Hr); exists g; split; [set_solver|eauto]). apply list_elem_of_lookup in Hin as [i Hi].
      destruct (rs_groups _ _ Hr g n lay i ltac:(set_solver) Hn Hi) as [Hgi _]. pose proof (rs_range _ _ Hr) as Hrg. rewrite Forall_lookup in Hrg. specialize (Hrg i _ Hgi). lia. }
    split; [unfold num_groups; cbn; lia|]. apply page_first_tiled; [done|by eapply resolved_padded|].
    apply build_page_layout_ok; [by eapply resolved_padded|done| |done].
    rewrite <- (bytes_of_all 0 (groups l)); [|..|lia].
    + assert (0 + 1 * bytes_of 0 (groups l) (padded l) <= u64_max); [|lia]. apply B3; [|done]. apply lookup_replicate_2. lia.
    + pose proof (rs_range _ _ Hr) as Hrg. eapply Forall_impl; [exact Hrg|]. cbn. intros k Hk. lia.
  - intros g b Hb. pose proof (lookup_lt_Some _ _ _ Hb) as Hlt. rewrite B1 in Hlt.
    assert (replicate (length (counts l)) 0 !! g = Some 0) as H0 by (by apply lookup_replicate_2). pose proof (B2 g 0 H0) as Hb'.
    pose proof (B3 g 0 H0 ltac:(done)). assert (b = 0 + (if pf then 1 else Z.of_nat tp) * bytes_of g (groups l) (padded l)) by congruence. lia.
Qed.

(** C16. The sealed layer space depends on what the workers registered and not on the order in which they did.
    Layer ids follow the sorted names; all devices agree on the group of a layer; every pair of a
    layer and a rank has an owner.  Layer-first, the slots of a group are exactly the pairs of a layer
    of the group and a rank.  Page-first, a worker writes the layers of one shard and the layers of a
    shard tile its page, with no gap and no overlap.  No group's block size overflows. *)
Theorem seal_topology_exact ns tp pf gpus t :
  (0 < tp)%nat -> Forall (fun g => tp_rank g < tp)%nat gpus -> gpus <> [] -> Forall (fun g => kv_caches g <> ∅) gpus ->
  seal_topology ns tp pf gpus = Ok t ->
  sealed_ok tp gpus t /\ forall gpus', gpus ≡ₚ gpus' -> seal_topology ns tp pf gpus' = Ok t.
Proof. intros Htp Hr Hne Hkv Hs. split; [by eapply seal_topology_ok|]. intros gpus' Hp. by apply (seal_topology_perm ns tp pf gpus). Qed.

(** ** Registration *)

Abbreviation register_commit := (register_commit sha256 to_json).

(** The registration of [g] has passed the checks that do not depend on the other workers. *)
Definition admissible (i : InstanceContext) (g : GpuContext) : Prop := (tp_rank g < i_tp_size i)%nat /\ kv_caches g <> ∅ /\ 0 <= device_id g.

Lemma register_admissible cuda i g i' :
  Topology.register_new_gpu sha256 to_json cuda i g = Ok i' -> admissible i g /\ register_commit i g = Ok i'.
Proof.
  unfold Topology.register_new_gpu, register_check, build_gpu_context, admissible. destruct (Nat.leb_spec (i_tp_size i) (tp_rank g)); [done|].
  case_bool_decide; [done|]. destruct (ensure_accepting_registrations i (device_id g)); [|done].
  destruct (Z.ltb_spec (device_id g) 0); [done|]. destruct (cuda _); [|done]. intros Hc. split_and!; try done.
Qed.

(** Registrations commit one after another, whatever other threads did since their first check. *)
Inductive instance_reachable (i0 : InstanceContext) : InstanceContext -> Prop :=
| reach_new : instance_reachable i0 i0
| reach_commit i g i' : instance_reachable i0 i -> admissible i g -> register_commit i g = Ok i' -> instance_reachable i0 i'.

Definition workers (i : InstanceContext) : list GpuContext := (map_to_list (gpu_contexts i)).*2.

Record instance_ok (i : InstanceContext) : Prop := {
  io_sizes : (0 < i_tp_size i)%nat /\ (0 < world_size i)%nat;
  io_workers : forall d g, gpu_contexts i !! d = Some g -> device_id g = d /\ (tp_rank g < i_tp_size i)%nat /\ kv_caches g <> ∅;
  io_open : topology i = None -> (size (gpu_contexts i) < world_size i)%nat;
  io_sealed : forall t, topology i = Some t -> size (gpu_contexts i) = world_size i /\
    seal_topology (i_namespace i) (i_tp_size i) (page_first i) (workers i) = Ok t /\ sealed_ok (i_tp_size i) (workers i) t
}.

Lemma workers_insert i g : gpu_contexts i !! device_id g = None -> (map_to_list (<[device_id g := g]> (gpu_contexts i))).*2 ≡ₚ workers i ++ [g].
Proof. intros Hn. rewrite map_to_list_insert by done. cbn. apply Permutation_cons_append. Qed.

Lemma register_commit_Ok i g i' :
  register_commit i g = Ok i' ->
  gpu_contexts i !! device_id g = None /\ topology i = None /\ gpu_contexts i' = <[device_id g := g]> (gpu_contexts i) /\
  i_tp_size i' = i_tp_size i /\ world_size i' = world_size i /\ i_namespace i' = i_namespace i /\ page_first i' = page_first i /\
  if (size (gpu_contexts i) + 1 =? world_size i)%nat
  then exists t, seal_topology (i_namespace i) (i_tp_size i) (page_first i) (workers i ++ [g]) = Ok t /\ topology i' = Some t
  else topology i' = None.
Proof.
  unfold Topology.register_commit, ensure_accepting_registrations. case_bool_decide as Hd; [done|]. case_bool_decide as Ht; [done|].
  apply eq_None_not_Some in Hd, Ht. fold (workers i). destruct (_ =? _)%nat.
  - destruct (Topology.seal_topology _ _ _ _ _ _) as [t|]; [|done]. intros [= <-]. cbn. split_and!; try done. by exists t.
  - intros [= <-]. cbn. split_and!; done.
Qed.

Lemma register_commit_keeps i g i' : instance_ok i -> admissible i g -> register_commit i g = Ok i' -> instance_ok i'.
Proof.
  intros [[Htp Hw] Hwk Hopen Hseal] (Hr & Hkv & _) Hc.
  destruct (register_commit_Ok i g i' Hc) as (Hd & Ht & Hg & H1 & H2 & H3 & H4 & Hs).
  assert (size (gpu_contexts i') = S (size (gpu_contexts i))) as Hsz by (rewrite Hg; by apply map_size_insert_None).
  assert (forall d x, gpu_contexts i' !! d = Some x -> device_id x = d /\ (tp_rank x < i_tp_size i')%nat /\ kv_caches x <> ∅) as Hwk'.
  { intros d x. rewrite Hg, H1. destruct (decide (device_id g = d)) as [<-|Hne]; [|rewrite lookup_insert_ne by done; apply Hwk].
    rewrite lookup_insert_eq. by intros [= <-]. }
  specialize (Hopen Ht). destruct (Nat.eqb_spec (size (gpu_contexts i) + 1) (world_size i)) as [Hfull|Hnot].
  - destruct Hs as (t & Hrun & Ht'). split; [by rewrite H1, H2|done|congruence|]. intros t' Hst. assert (t' = t) as -> by congruence.
    assert (workers i ++ [g] ≡ₚ workers i') as Hp by (unfold workers at 2; rewrite Hg; by rewrite workers_insert).
    assert (Forall (fun x => tp_rank x < i_tp_size i')%nat (workers i') /\ Forall (fun x => kv_caches x <> ∅) (workers i')) as [Ha Hb].
    { split; apply Forall_forall; intros x Hx; apply list_elem_of_fmap in Hx as ([d y] & -> & Hx); apply elem_of_map_to_list in Hx; by apply (Hwk' d). }
    assert (seal_topology (i_namespace i') (i_tp_size i') (page_first i') (workers i') = Ok t) as Hrun'.
    { rewrite H1, H3, H4. eapply seal_topology_perm; [exact Hp|by rewrite Hp|done]. }
    split_and!; [lia|done|]. eapply seal_topology_ok; [by rewrite H1|done| |done|done].
    intros Hn. rewrite Hn in Hp. apply Permutation_nil_r in Hp. by destruct (workers i).
  - split; [by rewrite H1, H2|done|lia|congruence].
Qed.

(** C15. Over every interleaving of registrations, an instance is sealed exactly when its whole worker set has
    registered: before, the topology is absent and workers are missing; after, the topology is the one
    sealed from the registered workers, it is sound, and no further worker can join. *)
Theorem registration_seals_once generation ns tp world pages i0 i :
  instance_new generation ns tp world pages = Ok i0 -> instance_reachable i0 i ->
  instance_ok i /\
  (topology i = None <-> (size (gpu_contexts i) < world)%nat) /\
  (forall t, topology i = Some t -> forall g i', register_commit i g <> Ok i').
Proof.
  unfold instance_new. destruct ((tp =? 0)%nat || (world =? 0)%nat) eqn:E; [done|]. intros [= <-] Hreach.
  apply orb_false_iff in E as [E1%Nat.eqb_neq E2%Nat.eqb_neq].
  assert (instance_ok i /\ world_size i = world) as [Hi Hw].
  { induction Hreach as [|i g i' _ [IH Hw] Ha Hc]; [split; [|done]; split; cbn; [lia|done|rewrite map_size_empty; lia|done]|].
    split; [by eapply register_commit_keeps|]. destruct (register_commit_Ok i g i' Hc) as (_ & _ & _ & _ & -> & _). done. }
  split_and!; [done| |].
  - destruct Hi as [_ _ Hopen Hseal]. rewrite <- Hw. split; [done|]. intros Hlt. destruct (topology i) as [t|]; [|done].
    destruct (Hseal t eq_refl) as (? & _). lia.
  - intros t Ht g i' Hc. destruct (register_commit_Ok i g i' Hc) as (_ & ? & _). congruence.
Qed.
End Seal.

(** Two workers with the same two layers, one per rank. *)
Definition sample_layout : KVCacheLayout := mkLayout Exact 4096 (mkGeometry 1024 8 128 64 2 64 Contiguous).
Definition sample_gpu (device : Z) (rank : nat) : GpuContext :=
  mkGpu device rank 0 device {[str "a" := sample_layout; str "b" := sample_layout]} ∅.
Definition sample_json (ns : bytes) (pf : bool) (slots : list StorageSlot) : bytes := ns.

Lemma seal_topology_exact_witness :
  exists t, seal_topology (fun b => b) sample_json (str "m") 2 false [sample_gpu 0 0; sample_gpu 1 1] = Ok t /\
    slot_index t 1 0 = Ok 2%nat /\ sealed_ok 2 [sample_gpu 0 0; sample_gpu 1 1] t /\
    seal_topology (fun b => b) sample_json (str "m") 2 false [sample_gpu 1 1; sample_gpu 0 0] = Ok t.
Proof.
  assert (forall d r, kv_caches (sample_gpu d r) <> ∅) as Hkv by (intros d r H; apply (f_equal (fun m => m !! str "a")) in H; vm_compute in H; discriminate H).
  assert (match seal_topology (fun b => b) sample_json (str "m") 2 false [sample_gpu 0 0; sample_gpu 1 1] with
          | Ok t => slot_index t 1 0 = Ok 2%nat | Err _ => False end) as Hslot by (vm_compute; reflexivity).
  destruct (seal_topology (fun b => b) sample_json (str "m") 2 false [sample_gpu 0 0; sample_gpu 1 1]) as [t|] eqn:E; [|destruct Hslot].
  destruct (seal_topology_exact (fun b => b) sample_json (str "m") 2 false [sample_gpu 0 0; sample_gpu 1 1] t) as [Hok Hperm];
    [lia|repeat constructor|discriminate|repeat constructor; apply Hkv|exact E|].
  exists t. split; [reflexivity|]. split; [exact Hslot|]. split; [exact Hok|]. apply Hperm. constructor.
Defined.

Lemma registration_seals_once_witness :
  exists i0 i1 i2, instance_new [] (str "m") 2 2 false = Ok i0 /\
    register_commit (fun b => b) sample_json i0 (sample_gpu 0 0) = Ok i1 /\ register_commit (fun b => b) sample_json i1 (sample_gpu 1 1) = Ok i2 /\
    topology i1 = None /\ is_Some (topology i2) /\ instance_ok (fun b => b) sample_json i2.
Proof.
  assert (forall d r, kv_caches (sample_gpu d r) <> ∅) as Hkv by (intros d r H; apply (f_equal (fun m => m !! str "a")) in H; vm_compute in H; discriminate H).
  destruct (instance_new [] (str "m") 2 2 false) as [i0|] eqn:E0; [|discriminate E0]. assert (E0' := E0). injection E0' as <-.
  assert (match register_commit (fun b => b) sample_json (mkInstance [] (str "m") 2 2 false ∅ None) (sample_gpu 0 0) with
          | Ok i => is_ok (register_commit (fun b => b) sample_json i (sample_gpu 1 1)) | Err _ => false end = true) as Hboth by (vm_compute; reflexivity).
  destruct (register_commit (fun b => b) sample_json (mkInstance [] (str "m") 2 2 false ∅ None) (sample_gpu 0 0)) as [i1|] eqn:E1; [|discriminate Hboth].
  destruct (register_commit (fun b => b) sample_json i1 (sample_gpu 1 1)) as [i2|] eqn:E2; [|discriminate Hboth].
  assert (instance_reachable (fun b => b) sample_json (mkInstance [] (str "m") 2 2 false ∅ None) i1) as R1.
  { eapply reach_commit; [constructor| |exact E1]. split; [cbn; lia|]. split; [apply Hkv|cbn; lia]. }
  assert (instance_reachable (fun b => b) sample_json (mkInstance [] (str "m") 2 2 false ∅ None) i2) as R2.
  { eapply reach_commit; [exact R1| |exact E2]. unfold admissible. assert (i_tp_size i1 = 2%nat) as -> by (by destruct (register_commit_Ok _ _ _ _ _ E1) as (_ & _ & _ & -> & _)).
    split; [cbn; lia|]. split; [apply Hkv|cbn; lia]. }
  destruct (registration_seals_once (fun b => b) sample_json [] (str "m") 2 2 false _ i1 E0 R1) as (_ & H1 & _).
  destruct (registration_seals_once (fun b => b) sample_json [] (str "m") 2 2 false _ i2 E0 R2) as (Hok & H2 & _).
  assert (size (gpu_contexts i1) = 1%nat /\ size (gpu_contexts i2) = 2%nat) as [S1 S2].
  { destruct (register_commit_Ok _ _ _ _ _ E2) as (Hn & _ & -> & _). rewrite map_size_insert_None by done.
    destruct (register_commit_Ok _ _ _ _ _ E1) as (_ & _ & -> & _). split; reflexivity. }
  exists (mkInstance [] (str "m") 2 2 false ∅ None), i1, i2. split; [reflexivity|]. split; [exact E1|]. split; [exact E2|].
  split; [apply H1; lia|]. split; [|exact Hok]. destruct (topology i2); [by eexists|]. exfalso. destruct H2 as [H2 _]. specialize (H2 eq_refl). lia.
Defined.
