(* ===== verification/RestoreBuild.v ===== *)
(** * Building a restore

    orbitkv-core/src/engine/restore.rs: layer groups are resolved against the sealed topology, the leased
    blocks are assigned to destination pages, and when all sources are raw DRAM blocks their copies
    are merged and encoded for the engine; orbitkv-core/src/block.rs and memory/pool.rs give the source
    ranges, codec/gpu.rs checks the destinations. *)
From S2P Require Import Prelude Containers Wire State KvLayout Blocks RestorePlan Topology.

Local Open Scope Z_scope.
Local Open Scope rust_scope.

(** ** Sources *)

Inductive RestoreSource := Memory (sealed : SealedBlock) | SsdExtent (slots : nat).
Definition slot_count (s : RestoreSource) : nat := match s with Memory b => length (sb_slots b) | SsdExtent n => n end.

Inductive RestoreError := InvalidArgument (message : string) | Storage (message : string) | Layout (e : LayoutError) | Registration (e : TopologyError).

Arguments InvalidArgument message%_string.
Arguments Storage message%_string.

(** [PinnedAllocation::source_range]. *)
Definition allocation_range (a : PinnedAllocation) (host size : Z) : result SourceRange RestoreError :=
  let? offset := ok_or (checked_sub host (alloc_ptr a)) (Storage "source begins before its pinned allocation") in
  if (size =? 0) || match checked_add offset size with None => true | Some e => alloc_size a <? e end
  then Err (Storage "source exceeds its pinned allocation")
  else Ok (mkSource (pool_id a) (alloc_id a) (alloc_offset a) (alloc_size a) (u64_add (alloc_offset a) offset) size).

(** [RawBlock::source_range]. *)
Definition source_range (b : RawBlock) (segment offset size : Z) : result SourceRange RestoreError :=
  let? s := ok_or (as_slice (segments b) !! Z.to_nat segment) (Storage "missing raw source segment") in
  if (size =? 0) || match checked_add offset size with None => true | Some e => seg_size s <? e end
  then Err (Storage "raw source exceeds its host segment")
  else allocation_range (seg_allocation s) (host_ptr s + offset) size.

(** ** Groups *)

Record RestoreLayer := mkLayer { rl_name : bytes; slot_id : nat; host_offset : Z }.
Record RestoreGroup := mkGroup { layers : list RestoreLayer; storage_slots : option (nat * nat); targets : list (Z * nat) }.

Definition registered {A} (r : result A TopologyError) : result A RestoreError := match r with Ok a => Ok a | Err e => Err (Registration e) end.

Fixpoint resolve_names (t : LayerTopology) (rank : nat) (names : list bytes) (seen : gset bytes) (g : RestoreGroup)
    : result (gset bytes * RestoreGroup) RestoreError :=
  match names with
  | [] => Ok (seen, g)
  | name :: names =>
      if bool_decide (name ∈ seen) then Err (InvalidArgument "load layer names must be unique across groups")
      else
        let? id := registered (layer_id t name) in
        let? storage_group := registered (ok_or (layer_group t !! id) IndexOutOfBounds) in
        let? slots :=
          match storage_slots g with
          | None => let? total := registered (group_total_slots t storage_group) in Ok (storage_group, total)
          | Some (existing, total) =>
              if (existing =? storage_group)%nat then Ok (existing, total) else Err (InvalidArgument "load group mixes storage groups")
          end in
        let? slot := registered (slot_index t id rank) in
        let offset := match page_placement t id with Some (o, _) => o | None => 0 end in
        resolve_names t rank names ({[name]} ∪ seen) (mkGroup (layers g ++ [mkLayer name slot offset]) (Some slots) (targets g))
  end.
Fixpoint resolve_groups (t : LayerTopology) (rank : nat) (l : list (list bytes)) (seen : gset bytes) : result (list RestoreGroup) RestoreError :=
  match l with
  | [] => Ok []
  | names :: l =>
      let? (seen, g) := resolve_names t rank names seen (mkGroup [] None []) in
      let? gs := resolve_groups t rank l seen in
      Ok (g :: gs)
  end.
Definition resolve (t : LayerTopology) (rank : nat) (l : list (list bytes)) : result (list RestoreGroup) RestoreError :=
  match l with [] => Err (InvalidArgument "load requires at least one layer group") | _ => resolve_groups t rank l ∅ end.

(** ** Destinations of the leased blocks *)

Definition add_target (g : RestoreGroup) (t : Z * nat) : RestoreGroup := mkGroup (layers g) (storage_slots g) (targets g ++ [t]).

(** The destination pages of one group, for the blocks of one lease. *)
Fixpoint assign_targets (blocks : list RestoreSource) (start index : nat) (pages : list (option Z)) (expected : nat) (g : RestoreGroup)
    : result RestoreGroup RestoreError :=
  match pages with
  | [] => Ok g
  | None :: pages => assign_targets blocks start (S index) pages expected g
  | Some page :: pages =>
      let? b := ok_or (blocks !! index) (InvalidArgument "index out of bounds") in
      if negb (slot_count b =? expected)%nat then Err (InvalidArgument "stored block has another number of slots")
      else assign_targets blocks start (S index) pages expected (add_target g (page, start + index)%nat)
  end.
Fixpoint assign_groups (blocks : list RestoreSource) (start : nat) (gs : list RestoreGroup) (pages : list (list (option Z)))
    : result (list RestoreGroup) RestoreError :=
  match gs, pages with
  | g :: gs, p :: pages =>
      if negb (length blocks =? length p)%nat then Err (InvalidArgument "query lease block count does not match destination block count")
      else
        let? g := match storage_slots g with None => Ok g | Some (_, expected) => assign_targets blocks start 0 p expected g end in
        let? gs := assign_groups blocks start gs pages in
        Ok (g :: gs)
  | gs, _ => Ok gs
  end.
(** The leases of one restore, in order; the sources are their blocks. *)
Fixpoint assign_leases (leased : list (list RestoreSource)) (loads : list (list (list (option Z)))) (sources : list RestoreSource) (gs : list RestoreGroup)
    : result (list RestoreSource * list RestoreGroup) RestoreError :=
  match leased, loads with
  | blocks :: leased, pages :: loads =>
      let? gs := assign_groups blocks (length sources) gs pages in
      assign_leases leased loads (sources ++ blocks) gs
  | _, _ => Ok (sources, gs)
  end.

(** ** Copies *)

(** Where block [block] of a layer lies: host segment and offset, and the range in the tensor. *)
Definition place (l : RestoreLayer) (layout : KVCacheLayout) (slot : RawBlock) (segment block : Z) : result (Z * Z * (Z * Z)) RestoreError :=
  match block_ranges (geometry layout) block with
  | Err e => Err (Layout e)
  | Ok (RContiguous r) => Ok (0, host_offset l, r)
  | Ok (RSplit k v) =>
      if segment =? 1 then
        if 1 <? num_segments slot then Ok (1, host_offset l, v)
        else let? o := ok_or (checked_add (host_offset l) (u64_sub k.2 k.1)) (Storage "raw source offset overflow") in Ok (0, o, v)
      else Ok (0, host_offset l, k)
  end.

(** One block of one segment of a layer. *)
Definition fragment (sources : list RestoreSource) (l : RestoreLayer) (layout : KVCacheLayout) (segment : Z) (t : Z * nat) : result RawCopy RestoreError :=
  match sources !! t.2 with
  | Some (Memory sealed) =>
      let? slot := ok_or (sb_slots sealed !! slot_id l) (Storage "missing raw source slot") in
      let? (host_segment, offset, dest) := place l layout slot segment t.1 in
      let? s := source_range slot host_segment offset (u64_sub dest.2 dest.1) in
      Ok (mkCopy s (rl_name l) dest.1)
  | _ => Err (Storage "raw sources checked above")
  end.

(** [c] continues [p]: same allocation, adjacent in the arena and in the tensor. *)
Definition continues (p c : RawCopy) : bool :=
  (arena_id (source p) =? arena_id (source c)) && (allocation_id (source p) =? allocation_id (source c))
  && (allocation_offset (source p) =? allocation_offset (source c)) && (allocation_size (source p) =? allocation_size (source c))
  && bool_decide (checked_add (offset (source p)) (size (source p)) = Some (offset (source c)))
  && bool_decide (checked_add (destination_offset p) (size (source p)) = Some (destination_offset c)).
Definition grow (p c : RawCopy) : RawCopy :=
  let s := source p in
  mkCopy (mkSource (arena_id s) (allocation_id s) (allocation_offset s) (allocation_size s) (offset s) (u64_add (size s) (size (source c))))
    (layer p) (destination_offset p).

Record RawState := mkState { layer_copies : list RawCopy; raw_bytes : Z; plan_size : Z }.

Definition append_copy (st : RawState) (c : RawCopy) (bytes : Z) : result RawState RestoreError :=
  let? n := ok_or (checked_add (plan_size st) 59 ≫= fun n => checked_add n (zlen (layer c))) (InvalidArgument "raw restore plan exceeds the operation metadata limit") in
  if n <=? MAX_RESTORE_PLAN_BYTES then Ok (mkState (layer_copies st ++ [c]) bytes n)
  else Err (InvalidArgument "raw restore plan exceeds the operation metadata limit").
Definition push_copy (st : RawState) (c : RawCopy) : result RawState RestoreError :=
  let? bytes := ok_or (checked_add (raw_bytes st) (size (source c))) (Storage "restore byte count overflow") in
  match last (layer_copies st) with
  | Some p => if continues p c then Ok (mkState (removelast (layer_copies st) ++ [grow p c]) bytes (plan_size st)) else append_copy st c bytes
  | None => append_copy st c bytes
  end.

(** The segments of a layer, then its blocks. *)
Definition walk (layout : KVCacheLayout) (ts : list (Z * nat)) : list (Z * (Z * nat)) :=
  (if Topology.is_split (geometry layout) then [0; 1] else [0]) ≫= fun segment => (fun t => (segment, t)) <$> ts.
Fixpoint push_all (sources : list RestoreSource) (l : RestoreLayer) (layout : KVCacheLayout) (ts : list (Z * (Z * nat))) (st : RawState)
    : result RawState RestoreError :=
  match ts with
  | [] => Ok st
  | (segment, t) :: ts =>
      let? c := fragment sources l layout segment t in
      let? st := push_copy st c in
      push_all sources l layout ts st
  end.

Definition layout_base (layout : KVCacheLayout) : result Z RestoreError :=
  match block_copies layout 0 with
  | Ok (CContiguous c) => Ok (addr c)
  | Ok (CSplit k _) => Ok (addr k)
  | Err e => Err (Layout e)
  end.

(** What the whole loop has built: copies, destination ranges, bytes and plan size. *)
Record RawPlan := mkRawPlan { all_copies : list RawCopy; all_targets : list (Z * Z); all_bytes : Z; all_plan : Z }.

Definition raw_layer (sources : list RestoreSource) (ts : list (Z * nat)) (l : RestoreLayer) (layout : KVCacheLayout) (p : RawPlan)
    : result RawPlan RestoreError :=
  let? st := push_all sources l layout (walk layout ts) (mkState [] (all_bytes p) (all_plan p)) in
  let? base := layout_base layout in
  Ok (mkRawPlan (all_copies p ++ layer_copies st)
        (all_targets p ++ ((fun c => (u64_add base (destination_offset c), size (source c))) <$> layer_copies st)) (raw_bytes st) (plan_size st)).
Fixpoint raw_layers (sources : list RestoreSource) (ts : list (Z * nat)) (ls : list RestoreLayer) (layouts : list KVCacheLayout) (p : RawPlan)
    : result (list KVCacheLayout * RawPlan) RestoreError :=
  match ls with
  | [] => Ok (layouts, p)
  | l :: ls =>
      match layouts with
      | [] => Err (Storage "missing restore layout")
      | layout :: layouts => let? p := raw_layer sources ts l layout p in raw_layers sources ts ls layouts p
      end
  end.
Definition page_le (a b : Z * nat) : Prop := a.1 <= b.1.
#[export] Instance page_le_dec a b : Decision (page_le a b) := Z_le_dec a.1 b.1.
Definition sort_targets (g : RestoreGroup) : RestoreGroup := mkGroup (layers g) (storage_slots g) (merge_sort page_le (targets g)).
Fixpoint raw_groups (sources : list RestoreSource) (gs : list RestoreGroup) (layouts : list KVCacheLayout) (p : RawPlan) : result RawPlan RestoreError :=
  match gs with
  | [] => Ok p
  | g :: gs =>
      let? (layouts, p) := raw_layers sources (targets (sort_targets g)) (layers g) layouts p in
      raw_groups sources gs layouts p
  end.

(** [codec::gpu::check_range] and [validate_targets]. *)
Definition check_range (pointer bytes : Z) : result unit RestoreError :=
  if (pointer =? 0) || (bytes =? 0) || (2 ^ 63 - 1 <? bytes) || bool_decide (checked_add pointer bytes = None)
  then Err (Storage "invalid GPU codec device range") else Ok tt.
Fixpoint windows_overlap (l : list (Z * Z)) : bool :=
  match l with a :: (b :: _) as rest => (b.1 <? a.2) || windows_overlap rest | _ => false end.
Definition validate_targets (ranges : list (Z * Z)) : result (list (Z * Z)) RestoreError :=
  let? ts := collect_results (fun r => let? _ := check_range r.1 r.2 in Ok (r.1, u64_add r.1 r.2)) ranges in
  let sorted := merge_sort key_le ts in
  if windows_overlap sorted then Err (Storage "GPU decode target ranges overlap") else Ok sorted.

(** Every source is a raw block in DRAM. *)
Definition is_raw (sources : list RestoreSource) (gs : list RestoreGroup) : bool :=
  forallb (fun g => forallb (fun t =>
    match sources !! t.2 with
    | Some (Memory sealed) => forallb (fun l => match sb_slots sealed !! slot_id l with Some slot => bool_decide (raw_encoding slot = None) | None => false end) (layers g)
    | _ => false
    end) (targets g)) gs.

Definition raw_plan (gs : list RestoreGroup) (sources : list RestoreSource) (layouts : list KVCacheLayout)
    : result (option (list bytes * Z * nat)) RestoreError :=
  if negb (is_raw sources gs) then Ok None
  else
    let? p := raw_groups sources gs layouts (mkRawPlan [] [] 0 8) in
    let? _ := validate_targets (all_targets p) in
    match encode_parts (all_copies p) with
    | Ok parts => Ok (Some (parts, all_bytes p, length (all_copies p)))
    | Err e => Err (InvalidArgument e)
    end.

(** ** Grants *)

(** [RawRestoreGrant]: the current part and whether another follows; parts are dropped as they drain. *)
Definition encoded_plan (plans : list bytes) : option (bytes * bool) :=
  match plans with [] => None | p :: rest => Some (p, negb (bool_decide (rest = []))) end.
Definition advance_plan (plans : list bytes) : bool * list bytes :=
  match plans with _ :: (_ :: _) as rest => (true, rest) | _ => (false, plans) end.
