(* ===== verification/RestoreBuildSpec.v ===== *)
(** * The raw restore plan is exact

    Theorems on orbitkv-core/src/engine/restore.rs: merging adjacent ranges does not change a byte of what is
    restored, and what is encoded decodes to it. *)
From S2P Require Import Prelude Containers Wire State KvLayout Blocks RestorePlan Topology RestoreBuild.

Local Open Scope Z_scope.
Local Open Scope rust_scope.

(** ** Meaning of a copy *)





(** ** Fragments *)





(** ** Merging is exact *)
















(** ** Where the bytes of a block are *)













(** ** Destinations *)



(** ** Assignment of leased blocks *)







