(* ===== verification/RestoreWorker.v ===== *)
(** * The engine's restore worker

    python/src/local_restore.rs: engine threads reserve and submit restores; one worker thread claims their
    grants, executes the parts and delivers one result per restore.  The Manager's answers, which come
    through the channel client, are arguments; times are not modelled. *)
From S2P Require Import Prelude Containers Vecs Wire DmaCopies RestorePlan RestoreExec.

Local Open Scope Z_scope.
Local Open Scope rust_scope.

Definition MAX_PENDING : Z := 1024.

(** ** Results *)

Inductive RestoreState := RPending | RSucceeded | RFailed.
#[export] Instance RestoreState_eq_dec : EqDecision RestoreState.
Proof. solve_decision. Defined.
Record RestoreResponse := mkResponse { operation_id : Z; state : RestoreState; message : bytes }.

Inductive RestoreResult :=
| Pending (enqueued : bool) (retained : option bytes)
| Ready (response : RestoreResponse)
| Consumed.

(** [RestoreResult::take]: the new cell, and what the caller sees. *)
Definition take_result (r : RestoreResult) : RestoreResult * result (option RestoreResponse) string :=
  match r with
  | Pending _ _ => (r, Ok None)
  | Ready response => (Consumed, Ok (Some response))
  | Consumed => (Consumed, Err "Restore result was already consumed"%string)
  end.

Definition mark_enqueued (r : RestoreResult) : RestoreResult := match r with Pending _ m => Pending true m | _ => r end.

(** [wait_enqueued] once its wait is over. *)
Definition enqueued_now (r : RestoreResult) : result bool bytes :=
  match r with
  | Ready response => if bool_decide (state response = RSucceeded) then Ok true else Err (message response)
  | Consumed => Err (str "Restore result was already consumed")
  | Pending enqueued _ => Ok enqueued
  end.

(** [str::is_char_boundary]: the end of the string, or a byte that does not continue a character. *)
Definition is_char_boundary (s : bytes) (i : nat) : bool :=
  match s !! i with
  | None => (i =? length s)%nat
  | Some b => negb ((128 <=? byte_val b) && (byte_val b <? 192))
  end.
Fixpoint boundary_below (s : bytes) (i : nat) : nat :=
  if is_char_boundary s i then i else match i with O => O | S i => boundary_below s i end.
Definition truncate_message (m : bytes) : bytes := take (boundary_below m (Nat.min (length m) 1024)) m.

Definition retain_unproven (m : bytes) (r : RestoreResult) : RestoreResult :=
  match r with Pending enqueued _ => Pending enqueued (Some (truncate_message m)) | _ => r end.

(** [LocalRestore::poll]: a retained message is reported without taking the result. *)
Definition poll_result (op : Z) (r : RestoreResult) : RestoreResult * result (option RestoreResponse) string :=
  match r with
  | Pending _ (Some m) => (r, Ok (Some (mkResponse op RPending m)))
  | _ => take_result r
  end.

(** ** Jobs *)

(** A job has the identity of its result cell. *)
Record Job := mkJob { job_id : Z; handle : Z; layer_events : gmap bytes Z }.

(** What the channel client answers while one job is advanced. *)
Record Answers := mkAnswers {
  claim : result (option bytes) bytes;
  grant_active : bool;
  finish : result unit string -> result bool bytes;
  poll_restore : result RestoreResponse bytes
}.

Section Advance.
Context (bind_to_thread : list StreamOp -> option string) (h2d : list StreamOp -> list CopyDesc -> option string)
        (record_event : list StreamOp -> Z -> option string) (drain : gmap bytes Z -> list (bytes * Z)).
Abbreviation execute := (execute bind_to_thread h2d record_event drain).

(** The executor, if it has not been released; [enqueued] is whether the closure ran. *)
Definition run_part (ex : option LocalRestoreExecutor) (plan : RawRestorePart) (events : gmap bytes Z) (final_part : bool) (ops : list StreamOp)
    : result unit string * gmap bytes Z * list StreamOp :=
  match ex with
  | None => (Err "local Restore worker stopped before its operation"%string, events, ops)
  | Some ex => execute ex plan events final_part ops
  end.
(** Whether the submission reached the caller's [enqueued] notification. *)
Definition reached (r : result unit string) (final_part : bool) : bool := final_part && is_ok r.

Definition failed (op : Z) (m : bytes) : RestoreResponse := mkResponse op RFailed m.

(** [advance]: the job and its cell, the stream, and the outcome with the handle to retire. *)
Definition advance (ex : option LocalRestoreExecutor) (a : Answers) (j : Job) (cell : RestoreResult) (ops : list StreamOp)
    : Job * RestoreResult * list StreamOp * option (RestoreResponse * option Z) :=
  match claim a with
  | Ok (Some b) =>
      let '(r, events, ops) :=
        match decode_part b with
        | Ok plan => run_part ex plan (layer_events j) (grant_active a) ops
        | Err e => (Err e, layer_events j, ops)
        end in
      let cell := if reached r (grant_active a) then mark_enqueued cell else cell in
      let response := match r with Ok _ => mkResponse (handle j) RSucceeded [] | Err e => failed (handle j) (str e) end in
      let j := mkJob (job_id j) (handle j) events in
      match finish a r with
      | Ok false => (j, cell, ops, None)
      | Ok true => (j, cell, ops, Some (response, Some (handle j)))
      | Err e => (j, cell, ops, Some (failed (handle j) e, Some (handle j)))
      end
  | Ok None =>
      match poll_restore a with
      | Ok response =>
          if bool_decide (state response = RPending) then
            (j, if bool_decide (message response = []) then cell else retain_unproven (message response) cell, ops, None)
          else if bool_decide (state response = RSucceeded) then
            let '(r, events, ops) := run_part ex (mkPart [] []) (layer_events j) true ops in
            let cell := if reached r true then mark_enqueued cell else cell in
            let j := mkJob (job_id j) (handle j) events in
            match r with
            | Ok _ => (j, cell, ops, Some (response, None))
            | Err e => (j, cell, ops, Some (failed (handle j) (str e), None))
            end
          else (j, cell, ops, Some (response, None))
      | Err e => (j, retain_unproven e cell, ops, None)
      end
  | Err e => (j, retain_unproven e cell, ops, None)
  end.

(** ** The worker *)

Record Worker := mkWorker {
  executor : option LocalRestoreExecutor;
  pending : Z;
  queue : list Job;
  active : list Job;
  retirement : list Z;
  cells : gmap Z RestoreResult;
  stream : list StreamOp;
  next_id : Z
}.

(** [reserve] before its fence: a place among the pending restores, or a full queue. *)
Definition take_place (w : Worker) : option Worker :=
  if pending w <? MAX_PENDING then Some (mkWorker (executor w) (pending w + 1) (queue w) (active w) (retirement w) (cells w) (stream w) (next_id w)) else None.
Definition release_place (w : Worker) : Worker :=
  mkWorker (executor w) (pending w - 1) (queue w) (active w) (retirement w) (cells w) (stream w) (next_id w).
(** [reserve], with the fence of the destination stream. *)
Definition reserve (fence : result unit string) (w : Worker) (events : gmap bytes Z) : Worker * result unit string :=
  match take_place w with
  | None => (w, Err "engine-local Restore queue is full"%string)
  | Some w =>
      let ready := match executor w with
                   | None => Err "local Restore worker is stopped"%string
                   | Some ex => let? _ := validate_layer_events ex events in fence
                   end in
      match ready with Ok _ => (w, Ok tt) | Err e => (release_place w, Err e) end
  end.
(** [submit]: the job is sent to the worker, its cell is pending. *)
Definition submit (op : Z) (events : gmap bytes Z) (w : Worker) : Worker :=
  mkWorker (executor w) (pending w) (queue w ++ [mkJob (next_id w) op events]) (active w) (retirement w)
    (<[next_id w := Pending false None]> (cells w)) (stream w) (next_id w + 1).
(** The worker takes everything the channel holds. *)
Definition receive (w : Worker) : Worker :=
  mkWorker (executor w) (pending w) [] (active w ++ queue w) (retirement w) (cells w) (stream w) (next_id w).

(** One turn of the inner loop: the job at [i] is advanced, and leaves when it has an outcome. *)
Definition visit (answers : Job -> Answers) (i : nat) (j : Job) (w : Worker) : Worker * bool :=
  let cell := default Consumed (cells w !! job_id j) in
  let '(j', cell, ops, outcome) := advance (executor w) (answers j) j cell (stream w) in
  match outcome with
  | None =>
      (mkWorker (executor w) (pending w) (queue w) (<[i := j']> (active w)) (retirement w) (<[job_id j := cell]> (cells w)) ops (next_id w), false)
  | Some (response, retired) =>
      (mkWorker (executor w) (pending w - 1) (queue w) (swap_remove i (active w))
         (retirement w ++ match retired with Some h => [h] | None => [] end) (<[job_id j := Ready response]> (cells w)) ops (next_id w), true)
  end.
Fixpoint inner_loop (fuel : nat) (answers : Job -> Answers) (i : nat) (w : Worker) : Worker :=
  match fuel with
  | O => w
  | S fuel =>
      match active w !! i with
      | None => w
      | Some j => let '(w, gone) := visit answers i j w in inner_loop fuel answers (if gone : bool then i else S i) w
      end
  end.
(** [reap] keeps the handles that the Manager still holds. *)
Definition reap (held : Z -> bool) (w : Worker) : Worker :=
  mkWorker (executor w) (pending w) (queue w) (active w) (filter (fun h => held h = true) (retirement w)) (cells w) (stream w) (next_id w).
(** One turn of the worker thread's loop. *)
Definition turn (answers : Job -> Answers) (held : Z -> bool) (w : Worker) : Worker :=
  let w := receive w in reap held (inner_loop (length (active w)) answers 0 w).
(** After the loop the executor and its tensors are released. *)
Definition release_executor (w : Worker) : Worker :=
  mkWorker None (pending w) (queue w) (active w) (retirement w) (cells w) (stream w) (next_id w).
End Advance.
