(* ===== verification/RestoreWorkerSpec.v ===== *)
(** * One result per restore

    Theorems on python/src/local_restore.rs: the count of pending restores is exact, every turn of the worker
    serves every job once, and each job is delivered one result. *)
From S2P Require Import Prelude Containers Vecs Wire DmaCopies RestorePlan RestoreExec RestoreWorker.

Local Open Scope Z_scope.
Local Open Scope rust_scope.

Section Worker.
Context (bind_to_thread : list StreamOp -> option string) (h2d : list StreamOp -> list CopyDesc -> option string)
        (record_event : list StreamOp -> Z -> option string) (drain : gmap bytes Z -> list (bytes * Z)).
Abbreviation advance := (advance bind_to_thread h2d record_event drain).
Abbreviation visit := (visit bind_to_thread h2d record_event drain).
Abbreviation inner_loop := (inner_loop bind_to_thread h2d record_event drain).
Abbreviation turn := (turn bind_to_thread h2d record_event drain).

(** ** Serving jobs one after another *)

(** What a job's turn changes besides the list of active jobs. *)
Record Core := mkCore { c_pending : Z; c_retirement : list Z; c_cells : gmap Z RestoreResult; c_stream : list StreamOp }.
Definition core (w : Worker) : Core := mkCore (pending w) (retirement w) (cells w) (stream w).

Definition serve (ex : option LocalRestoreExecutor) (answers : Job -> Answers) (j : Job) (c : Core) : Core * list Job :=
  let '(j', cell, ops, outcome) := advance ex (answers j) j (default Consumed (c_cells c !! job_id j)) (c_stream c) in
  match outcome with
  | None => (mkCore (c_pending c) (c_retirement c) (<[job_id j := cell]> (c_cells c)) ops, [j'])
  | Some (response, retired) =>
      (mkCore (c_pending c - 1) (c_retirement c ++ match retired with Some h => [h] | None => [] end) (<[job_id j := Ready response]> (c_cells c)) ops, [])
  end.
Fixpoint serve_all (ex : option LocalRestoreExecutor) (answers : Job -> Answers) (js : list Job) (c : Core) : Core * list Job :=
  match js with
  | [] => (c, [])
  | j :: js => let '(c, kept) := serve ex answers j c in let '(c, rest) := serve_all ex answers js c in (c, kept ++ rest)
  end.

(** Whatever the loop does with [swap_remove], it serves each job of the list exactly once, and ends. *)
Lemma inner_loop_serves answers fuel : forall i w,
  (length (active w) - i <= fuel)%nat ->
  exists js kept, js ≡ₚ drop i (active w) /\ serve_all (executor w) answers js (core w) = (core (inner_loop fuel answers i w), kept) /\
    active (inner_loop fuel answers i w) ≡ₚ take i (active w) ++ kept /\
    executor (inner_loop fuel answers i w) = executor w /\ queue (inner_loop fuel answers i w) = queue w /\ next_id (inner_loop fuel answers i w) = next_id w.
Proof.
  induction fuel as [|fuel IH]; intros i w Hf; cbn [RestoreWorker.inner_loop].
  { exists [], []. rewrite drop_ge, take_ge, app_nil_r by lia. done. }
  destruct (active w !! i) as [j|] eqn:Ej.
  2: { apply lookup_ge_None in Ej. exists [], []. rewrite drop_ge, take_ge, app_nil_r by lia. done. }
  unfold RestoreWorker.visit. destruct (advance (executor w) (answers j) j _ (stream w)) as [[[j' cell] ops] outcome] eqn:Ea.
  destruct outcome as [[response retired]|]; match goal with |- context [RestoreWorker.inner_loop _ _ _ _ fuel answers ?k ?v] => set (w1 := v) end.
  - destruct (swap_remove_spec i j (active w) Ej) as (T1 & T2 & T3). destruct (IH i w1) as (js & kept & H1 & H2 & H3 & H4 & H5 & H6); [cbn; lia|].
    exists (j :: js), kept. split_and!; [by rewrite H1, T2| | |done|done|done].
    + assert (serve (executor w) answers j (core w) = (core w1, [])) as Hserve by (unfold serve, core; cbn; by rewrite Ea).
      cbn [serve_all]. rewrite Hserve. change (executor w) with (executor w1). by rewrite H2.
    + rewrite H3. cbn [active w1]. by rewrite T1.
  - pose proof (lookup_lt_Some _ _ _ Ej) as Hlt. destruct (IH (S i) w1) as (js & kept & H1 & H2 & H3 & H4 & H5 & H6); [cbn; rewrite length_insert; lia|].
    exists (j :: js), (j' :: kept). split_and!; [| | |done|done|done].
    + rewrite (drop_S _ _ _ Ej), H1. cbn [active w1]. by rewrite drop_insert_lt by lia.
    + assert (serve (executor w) answers j (core w) = (core w1, [j'])) as Hserve by (unfold serve, core; cbn; by rewrite Ea).
      cbn [serve_all]. rewrite Hserve. change (executor w) with (executor w1). by rewrite H2.
    + rewrite H3. cbn [active w1]. rewrite (take_S_r _ i j') by (by apply list_lookup_insert_eq). rewrite take_insert_ge by lia. by rewrite <- app_assoc.
Qed.

Definition is_open (c : option RestoreResult) : Prop := exists e m, c = Some (Pending e m).

(** A job without an outcome keeps its identity and its open cell. *)
Lemma advance_waits ex a j cell ops j' cell' ops' :
  advance ex a j cell ops = (j', cell', ops', None) -> is_open (Some cell) -> job_id j' = job_id j /\ is_open (Some cell').
Proof.
  intros Ha (e & m & [= ->]). unfold is_open. revert Ha. unfold RestoreWorker.advance. destruct (claim a) as [[b|]|].
  - destruct (match decode_part b with Ok _ => _ | Err _ => _ end) as [[r ev] o]. destruct (finish a r) as [[]|]; [done| |done].
    intros [= <- <- <-]. cbn. split; [done|]. destruct (reached _ _); cbn; eauto.
  - destruct (poll_restore a) as [resp|]; [|intros [= <- <- <-]; split; [done|eauto]]. case_bool_decide.
    + intros [= <- <- <-]. split; [done|]. case_bool_decide; cbn; eauto.
    + case_bool_decide; [|done]. destruct (run_part _ _ _ _ _ _ _ _ _) as [[[] ev] o]; done.
  - intros [= <- <- <-]. split; [done|]. cbn. eauto.
Qed.

(** The Manager's answer ends the restore. *)
Definition terminal (a : Answers) : Prop :=
  match claim a with
  | Ok (Some _) => forall r, finish a r <> Ok false
  | Ok None => exists r, poll_restore a = Ok r /\ state r <> RPending
  | Err _ => False
  end.
Lemma advance_ends ex a j cell ops : terminal a -> exists j' cell' ops' o, advance ex a j cell ops = (j', cell', ops', Some o).
Proof.
  unfold terminal, RestoreWorker.advance. destruct (claim a) as [[b|]|]; [| |done].
  - intros Hf. destruct (match decode_part b with Ok _ => _ | Err _ => _ end) as [[r ev] o]. specialize (Hf r). destruct (finish a r) as [[]|]; [eauto 6|done|eauto 6].
  - intros (r & -> & Hr). rewrite bool_decide_false by done. case_bool_decide; [|eauto 6].
    destruct (run_part _ _ _ _ _ _ _ _ _) as [[[] ev] o]; eauto 6.
Qed.

(** What serving the jobs [js] does to the count and to the cells; the jobs [kept] are still waiting. *)
Record served (js kept : list Job) (c c' : Core) : Prop := {
  sv_pending : c_pending c' = c_pending c - (zlen js - zlen kept);
  sv_kept : sublist (job_id <$> kept) (job_id <$> js);
  sv_others : forall id, id ∉ (job_id <$> js) -> c_cells c' !! id = c_cells c !! id;
  sv_waiting : forall id, id ∈ (job_id <$> kept) -> is_open (c_cells c' !! id);
  sv_ready : forall id, id ∈ (job_id <$> js) -> id ∉ (job_id <$> kept) -> exists r, c_cells c' !! id = Some (Ready r)
}.

Lemma serve_all_served ex answers js : forall c c' kept,
  NoDup (job_id <$> js) -> (forall j, j ∈ js -> is_open (c_cells c !! job_id j)) -> serve_all ex answers js c = (c', kept) -> served js kept c c'.
Proof.
  induction js as [|j js IH]; intros c c' kept Hnd Hopen; cbn [serve_all].
  { intros [= <- <-]. split; [cbn; unfold zlen; cbn; lia|done|done|intros id ?%elem_of_nil; done|intros id ?%elem_of_nil; done]. }
  rewrite fmap_cons in Hnd. apply NoDup_cons in Hnd as [Hj Hnd]. unfold serve.
  destruct (Hopen j ltac:(set_solver)) as (e & m & Hcell). rewrite Hcell. change (default Consumed (Some (Pending e m))) with (Pending e m).
  destruct (advance ex (answers j) j (Pending e m) (c_stream c)) as [[[j' cell] ops] outcome] eqn:Ea.
  assert (forall x j0, j0 ∈ js -> is_open (<[job_id j := x]> (c_cells c) !! job_id j0)) as Hrest.
  { intros x j0 Hj0. rewrite lookup_insert_ne; [apply Hopen; set_solver|]. intros Heq. apply Hj. rewrite Heq. apply list_elem_of_fmap. eauto. }
  destruct outcome as [[response retired]|].
  - cbv iota beta zeta. match goal with |- context [serve_all ex answers js ?v] => destruct (serve_all ex answers js v) as [c2 rest] eqn:Er end. intros [= <- <-]. apply IH in Er as [R1 R2 R3 R4 R5]; [|done|cbn; intros; by eapply Hrest].
    cbn [c_pending c_cells app] in *. assert (job_id j ∉ (job_id <$> rest)) as Hnr by (intros Hin; apply Hj; by eapply elem_of_sublist).
    split; [rewrite R1; unfold zlen; cbn [length]; lia|rewrite fmap_cons; by apply sublist_cons| |done|].
    + intros id Hid. rewrite fmap_cons in Hid. rewrite R3 by set_solver. rewrite lookup_insert_ne; [done|set_solver].
    + intros id Hid Hk. rewrite fmap_cons in Hid. apply elem_of_cons in Hid as [->|Hid]; [|by apply R5]. exists response. rewrite R3 by done. by rewrite lookup_insert_eq.
  - cbv iota beta zeta. match goal with |- context [serve_all ex answers js ?v] => destruct (serve_all ex answers js v) as [c2 rest] eqn:Er end.
    intros [= <- <-]. apply IH in Er as [R1 R2 R3 R4 R5]; [|done|cbn; intros; by eapply Hrest].
    destruct (advance_waits _ _ _ _ _ _ _ _ Ea) as [Hid' Hopen']; [by exists e, m|]. cbn [c_pending c_cells app] in *.
    split; [rewrite R1; unfold zlen; cbn [length]; lia|rewrite !fmap_cons, Hid'; by apply sublist_skip| | |].
    + intros id Hid. rewrite fmap_cons in Hid. rewrite R3 by set_solver. rewrite lookup_insert_ne; [done|set_solver].
    + intros id Hid. rewrite fmap_cons, Hid' in Hid. apply elem_of_cons in Hid as [->|Hid]; [|by apply R4]. rewrite R3 by done. by rewrite lookup_insert_eq.
    + intros id Hid Hk. rewrite !fmap_cons, ?Hid' in *. apply R5; set_solver.
Qed.

Lemma serve_all_ends ex answers js : forall c, (forall j, j ∈ js -> terminal (answers j)) -> (serve_all ex answers js c).2 = [].
Proof.
  induction js as [|j js IH]; intros c Ht; cbn [serve_all]; [done|]. unfold serve.
  destruct (advance_ends ex (answers j) j (default Consumed (c_cells c !! job_id j)) (c_stream c) (Ht j ltac:(set_solver))) as (j' & cell & ops & [resp ret] & ->).
  cbv iota beta zeta. match goal with |- context [serve_all ex answers js ?v] => destruct (serve_all ex answers js v) as [c2 rest] eqn:Er end. cbn. replace rest with ((c2, rest).2) by done. rewrite <- Er. apply IH. set_solver.
Qed.

(** ** Accounting *)

Definition jobs (w : Worker) : list Job := active w ++ queue w.

(** [reserved] places are held by callers that have neither submitted nor given up. *)
Record worker_ok (reserved : Z) (w : Worker) : Prop := {
  wo_reserved : 0 <= reserved;
  wo_pending : pending w = reserved + zlen (jobs w);
  wo_limit : pending w <= MAX_PENDING;
  wo_ids : NoDup (job_id <$> jobs w);
  wo_fresh : forall id, is_Some (cells w !! id) -> id < next_id w;
  wo_open : forall id, is_open (cells w !! id) <-> id ∈ (job_id <$> jobs w)
}.


Lemma jobs_receive w : jobs (receive w) = jobs w.
Proof. unfold jobs. cbn. by rewrite app_nil_r. Qed.

(** A turn serves the queued and the active jobs, each exactly once. *)
Lemma turn_served answers held reserved w :
  worker_ok reserved w ->
  let w' := turn answers held w in
  exists js kept, js ≡ₚ jobs w /\ served js kept (core w) (core (inner_loop (length (jobs w)) answers 0 (receive w))) /\
    serve_all (executor w) answers js (core w) = (core (inner_loop (length (jobs w)) answers 0 (receive w)), kept) /\
    active w' ≡ₚ kept /\ queue w' = [] /\ next_id w' = next_id w /\
    pending w' = pending (inner_loop (length (jobs w)) answers 0 (receive w)) /\ cells w' = cells (inner_loop (length (jobs w)) answers 0 (receive w)).
Proof.
  intros [_ _ _ Hids _ Hopen] w'. unfold RestoreWorker.turn in w'. cbn zeta in w'. change (active (receive w)) with (jobs w) in w'.
  destruct (inner_loop_serves answers (length (jobs w)) 0 (receive w)) as (js & kept & H1 & H2 & H3 & H4 & H5 & H6); [cbn; fold (jobs w); lia|].
  rewrite drop_0 in H1. cbn in H3. change (core (receive w)) with (core w) in H2. change (executor (receive w)) with (executor w) in H2.
  change (active (receive w)) with (jobs w) in H1. exists js, kept. split_and!; [done| |done|done|done|done|done|done].
  eapply serve_all_served; [by rewrite H1| |exact H2]. intros j Hj. apply Hopen. rewrite H1 in Hj. apply list_elem_of_fmap. eauto.
Qed.


(** ** All threads *)











(** The worker makes progress: one turn ends, serves every job that was queued or active exactly once, and
    when the Manager's answers are terminal each of these jobs has its result, none is left, and the
    pending count is down to the callers that hold a reservation. *)
Theorem worker_turn_completes answers held reserved w :
  worker_ok reserved w ->
  let w' := turn answers held w in
  (exists js kept, js ≡ₚ jobs w /\ (serve_all (executor w) answers js (core w)).2 = kept /\ jobs w' ≡ₚ kept) /\
  ((forall j, j ∈ jobs w -> terminal (answers j)) ->
   jobs w' = [] /\ pending w' = reserved /\ forall j, j ∈ jobs w -> exists r, cells w' !! job_id j = Some (Ready r)).
Proof.
  intros Hw w'. destruct (turn_served answers held reserved w Hw) as (js & kept & Hjs & [S1 S2 S3 S4 S5] & Hserve & Ha & Hq & Hn & Hp & Hc).
  fold w' in Ha, Hq, Hn, Hp, Hc. cbn [c_pending c_cells core] in *. assert (jobs w' ≡ₚ kept) as Hjobs by (unfold jobs; by rewrite Hq, app_nil_r).
  split; [exists js, kept; split_and!; [done|by rewrite Hserve|done]|]. intros Ht.
  assert (kept = []) as ->.
  { replace kept with ((serve_all (executor w) answers js (core w)).2) by (by rewrite Hserve). apply serve_all_ends. intros j Hj. apply Ht. by rewrite <- Hjs. }
  split_and!; [by apply Permutation_nil_r|rewrite Hp, S1, (wo_pending _ _ Hw); unfold zlen; rewrite Hjs; cbn; lia|].
  intros j Hj. rewrite Hc. apply S5; [|set_solver]. rewrite Hjs. apply list_elem_of_fmap. eauto.
Qed.
End Worker.

Definition sample_worker_executor : LocalRestoreExecutor := mkExecutor ∅ ∅.
Definition no_error {A B} : A -> option B := fun _ => None.
Definition no_error2 {A B C} : A -> B -> option C := fun _ _ => None.
(** The Manager's own route finished: its answer is terminal. *)
Definition sample_answers (j : Job) : Answers := mkAnswers (Ok None) false (fun _ => Ok true) (Ok (mkResponse (handle j) RSucceeded [])).


Lemma worker_turn_completes_witness :
  let w := submit 5 ∅ (mkWorker (Some sample_worker_executor) 1 [] [] [] ∅ [] 0) in
  let w' := turn no_error no_error2 no_error2 map_to_list sample_answers (fun _ => false) w in
  worker_ok 0 w /\ jobs w' = [] /\ pending w' = 0 /\ exists r, cells w' !! 0 = Some (Ready r).
Proof.
  intros w w'. assert (worker_ok 0 w) as Hok.
  { split; try (vm_compute; congruence).
    - apply NoDup_singleton.
    - intros id [x Hx]. unfold w in *. cbn in Hx |- *. destruct (decide (0 = id)) as [<-|Hne]; [lia|]. rewrite lookup_insert_ne in Hx by done. done.
    - intros id. unfold w. cbn. rewrite list_elem_of_singleton. destruct (decide (0 = id)) as [<-|Hne].
      + rewrite lookup_insert_eq. split; [done|]. intros _. by exists false, None.
      + rewrite lookup_insert_ne by done. split; [by intros (? & ? & ?)|congruence]. }
  destruct (worker_turn_completes no_error no_error2 no_error2 map_to_list sample_answers (fun _ => false) 0 w Hok) as [_ Hdone].
  destruct Hdone as (H1 & H2 & H3).
  - intros j Hj. exists (mkResponse (handle j) RSucceeded []). split; [reflexivity|discriminate].
  - split; [exact Hok|]. split; [exact H1|]. split; [exact H2|]. apply (H3 (mkJob 0 5 ∅)). left.
Defined.
