(* ===== verification/IoBatches.v ===== *)
(** * GPU I/O batches

    orbitkv-core/src/storage/ssd/cufile.rs: the ranges a restore reads and the ranges of a reservation a
    save writes are cut into aligned batches that fit one staging slot.  The meaning of a range, and of
    a batch, is the list of bytes it moves: each file offset with the device address it belongs to. *)
From S2P Require Import Prelude Containers.

Local Open Scope Z_scope.
Local Open Scope rust_scope.

(** ** Data *)

Definition ALIGNMENT : Z := 4096.
Definition STAGING_BYTES : Z := 4 * 1024 * 1024.
Definition STAGING_SLOTS : Z := 2.

Record CopyRange := mkRange { r_offset : Z; r_device : Z; r_bytes : Z }.
Record IoBatch := mkBatch { b_offset : Z; b_bytes : Z; b_copies : list CopyRange }.

Inductive IoError :=
| BatchOffset | BatchStaging | BatchCopy
| ReadOffset | GpuDestination
| WriteOffset | WriteReservation | WriteRange.

(** [checked_add(..).filter(|end| i64::try_from(end).is_ok())]. *)
Definition signed_end (offset n : Z) : option Z :=
  match checked_add offset n with Some e => if e <=? i64_max then Some e else None | None => None end.

(** ** A batch a staging slot accepts *)

Definition copy_refused (b : IoBatch) (e : Z) (c : CopyRange) : bool :=
  (r_device c =? 0) || (r_offset c <? b_offset b)
  || match checked_add (r_offset c) (r_bytes c) with None => true | Some limit => e <? limit end
  || bool_decide (checked_add (r_device c) (r_bytes c) = None).

Definition validate (b : IoBatch) : result unit IoError :=
  let? e := ok_or (signed_end (b_offset b) (b_bytes b)) BatchOffset in
  if (b_bytes b =? 0) || (STAGING_BYTES <? b_bytes b) || negb (is_multiple_of (b_bytes b) ALIGNMENT)
     || negb (is_multiple_of (b_offset b) ALIGNMENT)
  then Err BatchStaging
  else if existsb (copy_refused b e) (b_copies b) then Err BatchCopy else Ok tt.

(** ** [plan_reads]

    The batches are kept newest first: the last of the vector is the head of the list. *)

Definition aligned (c : CopyRange) : Z := r_offset c / ALIGNMENT * ALIGNMENT.
Definition appends (c : CopyRange) (batches : list IoBatch) : bool :=
  match batches with
  | [] => false
  | b :: _ =>
      (b_offset b <=? r_offset c) && (aligned c <=? u64_add (b_offset b) (b_bytes b)) && (r_offset c <? u64_add (b_offset b) STAGING_BYTES)
  end.

(** One pass of the inner loop: the batch that takes a piece of the range, the older ones, and the rest of the range. *)
Definition fill (c : CopyRange) (b : IoBatch) (older : list IoBatch) : list IoBatch * CopyRange :=
  let offset := r_offset c - b_offset b in
  let n := Z.min (r_bytes c) (STAGING_BYTES - offset) in
  (mkBatch (b_offset b) (Z.max (b_bytes b) (next_multiple_of (offset + n) ALIGNMENT)) (b_copies b ++ [mkRange (r_offset c) (r_device c) n]) :: older,
   mkRange (u64_add (r_offset c) n) (u64_add (r_device c) n) (r_bytes c - n)).
Definition take_piece (c : CopyRange) (batches : list IoBatch) : list IoBatch * CopyRange :=
  match appends c batches, batches with
  | true, b :: older => fill c b older
  | _, _ => fill c (mkBatch (aligned c) 0 []) batches
  end.
Fixpoint cut (fuel : nat) (c : CopyRange) (batches : list IoBatch) : list IoBatch :=
  match fuel with
  | O => batches
  | S fuel =>
      if r_bytes c =? 0 then batches
      else let '(batches, c) := take_piece c batches in cut fuel c batches
  end.
Definition cut_fuel (c : CopyRange) : nat := S (S (Z.to_nat (r_bytes c / (STAGING_BYTES - ALIGNMENT)))).

Fixpoint plan_ranges (batches : list IoBatch) (copies : list CopyRange) : result (list IoBatch) IoError :=
  match copies with
  | [] => Ok (reverse batches)
  | c :: rest =>
      let? _ := ok_or (signed_end (r_offset c) (r_bytes c)) ReadOffset in
      let? _ := ok_or (checked_add (r_device c) (r_bytes c)) GpuDestination in
      plan_ranges (cut (cut_fuel c) c batches) rest
  end.

Definition by_offset (c d : CopyRange) : Prop := r_offset c <= r_offset d.
#[export] Instance by_offset_dec c d : Decision (by_offset c d).
Proof. unfold by_offset. apply _. Defined.
#[export] Instance by_offset_total : Total by_offset.
Proof. intros c d. unfold by_offset. lia. Qed.
#[export] Instance by_offset_trans : Transitive by_offset.
Proof. intros c d e. unfold by_offset. lia. Qed.

(** [sort_unstable_by_key]: of the orders it allows, the stable one; what is proved of the loop holds of any. *)
Definition plan_reads (copies : list CopyRange) : result (list IoBatch) IoError := plan_ranges [] (merge_sort by_offset copies).

(** ** [plan_writes] *)

Definition piece (start limit : Z) (c : CopyRange) : option CopyRange :=
  let b := Z.max (r_offset c) start in
  let f := Z.min (u64_add (r_offset c) (r_bytes c)) limit in
  if b <? f then Some (mkRange b (u64_add (r_device c) (b - r_offset c)) (f - b)) else None.
Fixpoint tile (fuel : nat) (copies : list CopyRange) (start e : Z) : list IoBatch :=
  match fuel with
  | O => []
  | S fuel =>
      if start <? e
      then let limit := Z.min e (u64_add start STAGING_BYTES) in
           mkBatch start (limit - start) (omap (piece start limit) copies) :: tile fuel copies limit e
      else []
  end.

Definition outside (offset e : Z) (c : CopyRange) : bool :=
  (r_offset c <? offset)
  || match checked_add (r_offset c) (r_bytes c) with None => true | Some limit => e <? limit end
  || bool_decide (checked_add (r_device c) (r_bytes c) = None).
Definition plan_writes (offset n : Z) (copies : list CopyRange) : result (list IoBatch) IoError :=
  let? e := ok_or (signed_end offset n) WriteOffset in
  if negb (is_multiple_of offset ALIGNMENT) || negb (is_multiple_of n ALIGNMENT) || (n =? 0) then Err WriteReservation
  else if existsb (outside offset e) copies then Err WriteRange
  else Ok (tile (S (Z.to_nat (n / STAGING_BYTES))) copies offset e).

(** ** What ranges and batches move *)

Definition moves (c : CopyRange) : list (Z * Z) := (fun i => (r_offset c + i, r_device c + i)) <$> seqZ 0 (r_bytes c).
Definition batch_moves (b : IoBatch) : list (Z * Z) := b_copies b ≫= moves.

(** A range of machine integers whose ends are representable, as the planner accepts it. *)
Record range_ok (c : CopyRange) : Prop := {
  ro_offset : 0 <= r_offset c; ro_device : 0 <= r_device c; ro_bytes : 0 <= r_bytes c;
  ro_end : r_offset c + r_bytes c <= i64_max; ro_target : r_device c + r_bytes c <= u64_max }.

(** A copy touches a page of the batch. *)
Definition touches (b : IoBatch) (page : Z) (c : CopyRange) : Prop :=
  r_offset c < b_offset b + (page + 1) * ALIGNMENT /\ b_offset b + page * ALIGNMENT < r_offset c + r_bytes c.

(** Aligned, within staging, made of non-empty pieces inside it, and with no page that no piece needs. *)
Record batch_ok (b : IoBatch) : Prop := {
  bo_offset : 0 <= b_offset b <= i64_max;
  bo_aligned : b_offset b mod ALIGNMENT = 0;
  bo_bytes : 0 <= b_bytes b <= STAGING_BYTES;
  bo_whole : b_bytes b mod ALIGNMENT = 0;
  bo_end : b_offset b + b_bytes b <= i64_max + 1;
  bo_copies : Forall (fun c => range_ok c /\ 0 < r_bytes c /\ b_offset b <= r_offset c /\ r_offset c + r_bytes c <= b_offset b + b_bytes b) (b_copies b);
  bo_tight : forall page, 0 <= page < b_bytes b / ALIGNMENT -> Exists (touches b page) (b_copies b) }.

Definition before (b d : IoBatch) : Prop := b_offset b + b_bytes b <= b_offset d.
Definition disjoint_ranges (c d : CopyRange) : Prop := r_offset c + r_bytes c <= r_offset d \/ r_offset d + r_bytes d <= r_offset c.

(** ** Cutting one range *)

Ltac pages := unfold aligned, next_multiple_of, div_ceil in *; unfold ALIGNMENT, STAGING_BYTES, i64_max, u64_max in *; Z.div_mod_to_equations; lia.

Lemma moves_split o d n m : 0 <= n -> 0 <= m -> moves (mkRange o d (n + m)) = moves (mkRange o d n) ++ moves (mkRange (o + n) (d + n) m).
Proof.
  intros. unfold moves. cbn. rewrite (seqZ_app 0 n m), fmap_app by lia. f_equal. rewrite Z.add_0_l, <- (Z.add_0_r n) at 1.
  rewrite <- fmap_add_seqZ, <- list_fmap_compose. apply list_fmap_ext. intros i x _. cbn. f_equal; lia.
Qed.

Record filled (c : CopyRange) (b b' : IoBatch) (c' : CopyRange) : Prop := {
  f_offset : b_offset b' = b_offset b;
  f_batch : batch_ok b' /\ 0 < b_bytes b';
  f_rest : range_ok c';
  f_moves : batch_moves b' ++ moves c' = batch_moves b ++ moves c;
  f_end : r_offset c' + r_bytes c' = r_offset c + r_bytes c;
  f_took : r_bytes c' = r_bytes c - Z.min (r_bytes c) (STAGING_BYTES - (r_offset c - b_offset b)) }.

Lemma fill_spec c b older :
  batch_ok b -> range_ok c -> 0 < r_bytes c -> b_offset b <= r_offset c -> aligned c <= b_offset b + b_bytes b ->
  r_offset c < b_offset b + STAGING_BYTES ->
  exists b' c', fill c b older = (b' :: older, c') /\ filled c b b' c'.
Proof.
  intros Hb Hc Hpos Hlo Hal Hhi. unfold fill. set (n := Z.min (r_bytes c) (STAGING_BYTES - (r_offset c - b_offset b))).
  assert (0 < n <= r_bytes c /\ n <= STAGING_BYTES - (r_offset c - b_offset b)) as [Hn Hns] by lia.
  destruct Hb as [[Ho Ho'] Ha Hby Hw He Hcs Ht]. destruct Hc as [? ? ? Hend Htgt].
  do 2 eexists. split; [reflexivity|]. rewrite !u64_add_exact by pages.
  set (t := Z.max (b_bytes b) (next_multiple_of (r_offset c - b_offset b + n) ALIGNMENT)).
  assert (r_offset c - b_offset b + n <= t /\ 0 < t <= STAGING_BYTES /\ t mod ALIGNMENT = 0 /\ b_offset b + t <= i64_max + 1 /\ b_bytes b <= t) as (Ht1 & Ht2 & Ht3 & Ht4 & Ht5)
    by (subst t; clearbody n; clear Hcs Ht; pages).
  constructor; cbn [b_offset b_bytes b_copies r_offset r_device r_bytes]; [done| |split; cbn; lia| |lia|lia].
  - split; [|lia]. constructor; cbn [b_offset b_bytes b_copies]; [lia|done|lia|done|lia| |].
    + apply Forall_app. split; [|apply Forall_singleton; cbn; split_and!; [split; cbn; lia|lia..]].
      eapply Forall_impl; [exact Hcs|]. cbn. intros d (? & ? & ? & ?). split_and!; [done|lia..].
    + intros page Hp. apply Exists_app. destruct (decide (page < b_bytes b / ALIGNMENT)) as [Hlt|Hge].
      * left. destruct Hp. by apply Ht.
      * right. apply Exists_cons_hd. unfold touches. cbn [r_offset r_bytes b_offset]. clear Hcs Ht. subst t. clearbody n. split; pages.
  - unfold batch_moves. cbn [b_copies]. rewrite bind_app, bind_singleton, <- app_assoc. f_equal. rewrite <- moves_split by lia.
    replace (n + (r_bytes c - n)) with (r_bytes c) by lia. by destruct c.
Qed.

(** ** Cutting and planning *)

Definition all_moves (batches : list IoBatch) : list (Z * Z) := reverse batches ≫= batch_moves.
Lemma all_moves_cons b batches : all_moves (b :: batches) = all_moves batches ++ batch_moves b.
Proof. unfold all_moves. by rewrite reverse_cons, bind_app, bind_singleton. Qed.

Lemma fresh_ok c : range_ok c -> batch_ok (mkBatch (aligned c) 0 []).
Proof.
  intros [? ? ? Hend Htgt]. split; cbn [b_offset b_bytes b_copies]; [pages..|constructor|]. intros page Hp. change (0 / ALIGNMENT) with 0 in Hp. lia.
Qed.

(** The batch a piece goes to: the newest, or a fresh one behind it. *)
Definition home (c : CopyRange) (batches : list IoBatch) : IoBatch * list IoBatch :=
  match appends c batches, batches with
  | true, b :: older => (b, older)
  | _, _ => (mkBatch (aligned c) 0 [], batches)
  end.

Lemma home_app c batches : if appends c batches then True else (home c batches).1 = mkBatch (aligned c) 0 [].
Proof. unfold home. destruct (appends c batches); [done|]. by destruct batches. Qed.

Lemma home_spec c batches :
  range_ok c -> Forall batch_ok batches ->
  let '(b, older) := home c batches in
  batch_ok b /\ take_piece c batches = fill c b older /\ all_moves older ++ batch_moves b = all_moves batches /\
  b_offset b <= r_offset c /\ aligned c <= b_offset b + b_bytes b /\ r_offset c < b_offset b + STAGING_BYTES /\
  (batches = b :: older \/ batches = older /\ b = mkBatch (aligned c) 0 [] /\
     (forall d ds, batches = d :: ds -> b_offset d <= r_offset c -> before d b)).
Proof.
  intros Hc Hbs. unfold home, take_piece. pose proof (fresh_ok c Hc) as Hf. destruct Hc as [? ? ? Hend Htgt].
  assert (b_offset (mkBatch (aligned c) 0 []) <= r_offset c /\ aligned c <= b_offset (mkBatch (aligned c) 0 []) + b_bytes (mkBatch (aligned c) 0 []) /\
          r_offset c < b_offset (mkBatch (aligned c) 0 []) + STAGING_BYTES) as Hfresh by (cbn [b_offset b_bytes]; split_and!; pages).
  assert (forall l, all_moves l ++ batch_moves (mkBatch (aligned c) 0 []) = all_moves l) as Hmv by (intros l; apply app_nil_r).
  destruct batches as [|d ds]; cbn [appends].
  - destruct Hfresh as (? & ? & ?). split_and!; try done. right. split_and!; [done..|]. intros ? ? ?. done.
  - inversion_clear Hbs as [|? ? Hd Hds]. destruct Hd as [[Ho Ho'] Ha Hby Hw He Hcs Ht]. rewrite !u64_add_exact by pages.
    destruct (_ && _) eqn:E.
    + apply andb_prop in E as [[E1%Z.leb_le E2%Z.leb_le]%andb_prop E3%Z.ltb_lt]. split_and!; try done. { by rewrite all_moves_cons. } by left.
    + destruct Hfresh as (? & ? & ?). split_and!; try done. right. split_and!; [done..|]. intros d' ds' [= <- <-] Hle. unfold before. cbn [b_offset b_bytes].
      apply andb_false_iff in E as [[E%Z.leb_gt|E%Z.leb_gt]%andb_false_iff|E%Z.ltb_ge]; [lia|lia|]. clear Hcs Ht Hmv Hf. pages.
Qed.

Definition good (b : IoBatch) : Prop := batch_ok b /\ 0 < b_bytes b.
Definition ordered (batches : list IoBatch) : Prop := StronglySorted (fun d b => before b d) batches.
Definition newest_within (batches : list IoBatch) (limit : Z) : Prop := match batches with [] => True | b :: _ => b_offset b <= limit end.

Lemma ordered_head b b' older : b_offset b = b_offset b' -> ordered (b :: older) -> ordered (b' :: older).
Proof. intros He Ho. inversion_clear Ho as [|? ? Hs Hf]. constructor; [done|]. unfold before in *. by rewrite <- He. Qed.

Lemma take_piece_spec c batches :
  range_ok c -> 0 < r_bytes c -> Forall good batches ->
  exists b' older c', take_piece c batches = (b' :: older, c') /\ Forall good (b' :: older) /\ range_ok c' /\
    all_moves (b' :: older) ++ moves c' = all_moves batches ++ moves c /\ r_offset c' + r_bytes c' = r_offset c + r_bytes c /\
    b_offset b' <= r_offset c < r_offset c' /\ r_bytes c' < r_bytes c /\ (r_bytes c' = 0 \/ appends c' (b' :: older) = false) /\
    (appends c batches = false -> r_bytes c' <= Z.max 0 (r_bytes c - (STAGING_BYTES - ALIGNMENT))) /\
    (newest_within batches (r_offset c) -> ordered batches -> ordered (b' :: older)).
Proof.
  intros Hc Hpos Hbs. pose proof (home_spec c batches Hc) as Hh. unfold home in Hh.
  assert (Forall batch_ok batches) as Hok by (eapply Forall_impl; [exact Hbs|]; by intros b []). specialize (Hh Hok).
  pose proof (home_app c batches) as Happ. fold (home c batches) in Hh. destruct (home c batches) as [b older].
  destruct Hh as (Hb & -> & Hmv & H1 & H2 & H3 & Hsh). destruct (fill_spec c b older Hb Hc Hpos H1 H2 H3) as (b' & c' & -> & Hf).
  destruct Hf as [Hoff Hgood Hrest Hmoves Hend Htook]. exists b', older, c'.
  assert (0 < Z.min (r_bytes c) (STAGING_BYTES - (r_offset c - b_offset b))) as Hmin by lia.
  split_and!; [done| |done| |done|lia|lia|lia| | |].
  - constructor; [done|]. destruct Hsh as [->|[-> _]]; [by inversion Hbs|done].
  - rewrite all_moves_cons, <- app_assoc, Hmoves, app_assoc. by rewrite Hmv.
  - destruct (decide (r_bytes c' = 0)) as [|Hne]; [by left|right]. cbn [appends]. destruct Hgood as [[? ? ? ? ? _ _] _]. rewrite !u64_add_exact by pages.
    apply andb_false_iff. right. apply Z.ltb_ge. rewrite Hoff. lia.
  - intros Hna. rewrite Hna in Happ. cbn in Happ. subst b. cbn [b_offset] in *. destruct Hc as [? _ _ _ _]. clear -Htook H1 Hpos. pages.
  - intros Hnw Hord. destruct Hsh as [->|(-> & -> & Hbef)]; [by apply (ordered_head b)|].
    constructor; [done|]. destruct older as [|d ds]; [constructor|]. specialize (Hbef d ds eq_refl Hnw). unfold before in *. rewrite Hoff.
    constructor; [done|]. inversion_clear Hord as [|? ? Hs Hall]. inversion_clear Hbs as [|? ? [_ Hdp] _].
    eapply Forall_impl; [exact Hall|]. unfold before. cbn [b_offset] in *. intros e He. lia.
Qed.

Lemma sorted_reverse {A} (R : A -> A -> Prop) l : StronglySorted (fun a b => R b a) l -> StronglySorted R (reverse l).
Proof.
  induction 1 as [|a l Hs IH Ha]; [constructor|]. rewrite reverse_cons. apply StronglySorted_app_2; [|done|repeat constructor].
  intros x y Hx Hy. apply list_elem_of_singleton in Hy as ->. apply (proj1 (Forall_forall _ _) Ha). by rewrite <- (reverse_Permutation l).
Qed.

Lemma cut_spec fuel c batches :
  range_ok c -> Forall good batches ->
  r_bytes c = 0 \/ r_bytes c <= (STAGING_BYTES - ALIGNMENT) * (Z.of_nat fuel - if appends c batches then 1 else 0) ->
  Forall good (cut fuel c batches) /\ all_moves (cut fuel c batches) = all_moves batches ++ moves c /\
  (newest_within batches (r_offset c) -> ordered batches ->
   ordered (cut fuel c batches) /\ newest_within (cut fuel c batches) (r_offset c + r_bytes c)).
Proof.
  revert c batches. induction fuel as [|fuel IH]; intros c batches Hc Hbs Hfuel; cbn [cut].
  - destruct Hc as [? ? Hn ? ?]. assert (r_bytes c = 0) as Hz by (destruct Hfuel as [|Hfuel]; [done|]; unfold STAGING_BYTES, ALIGNMENT in Hfuel; destruct (appends c batches); lia).
    split_and!; [done| |]. { unfold moves. rewrite Hz. by rewrite app_nil_r. } intros Hnw Ho. split; [done|]. destruct batches; cbn in *; [done|lia].
  - destruct (Z.eqb_spec (r_bytes c) 0) as [Hz|Hz].
    { split_and!; [done| |]. { unfold moves. rewrite Hz. by rewrite app_nil_r. } intros Hnw Ho. split; [done|]. destruct batches; cbn in *; [done|lia]. }
    pose proof (ro_bytes c Hc) as Hnn.
    destruct (take_piece_spec c batches Hc ltac:(lia) Hbs) as (b' & older & c' & -> & Hg & Hc' & Hmv & Hend & Hoff & Hlt & Hna & Hbig & Hord).
    pose proof (ro_bytes c' Hc') as Hnn'.
    destruct (IH c' (b' :: older) Hc' Hg) as (IHg & IHm & IHo).
    { destruct Hna as [Hz'|Hna]; [by left|right]. rewrite Hna. destruct Hfuel as [?|Hfuel]; [lia|]. unfold STAGING_BYTES, ALIGNMENT in *.
      destruct (appends c batches); [|specialize (Hbig eq_refl)]; lia. }
    split_and!; [done|by rewrite IHm|]. intros Hnw Ho. rewrite <- Hend. apply IHo; [cbn; lia|by apply Hord].
Qed.

Lemma cut_fuel_enough c batches : 0 <= r_bytes c -> r_bytes c <= (STAGING_BYTES - ALIGNMENT) * (Z.of_nat (cut_fuel c) - if appends c batches then 1 else 0).
Proof.
  intros Hn. unfold cut_fuel. rewrite !Nat2Z.inj_succ, Z2Nat.id by (apply Z.div_pos; [lia|reflexivity]).
  destruct (appends c batches); pages.
Qed.

Lemma signed_end_Some o n e : 0 <= o -> 0 <= n -> signed_end o n = Some e <-> e = o + n /\ o + n <= i64_max.
Proof.
  intros Ho Hn. unfold signed_end, checked_add.
  destruct (Z.leb_spec (o + n) u64_max); [destruct (Z.leb_spec (o + n) i64_max)|]; (split; [intros [= <-]|intros [-> ?]]); unfold i64_max, u64_max in *; try done; lia.
Qed.

Definition range_u64 (c : CopyRange) : Prop := is_u64 (r_offset c) /\ is_u64 (r_device c) /\ is_u64 (r_bytes c).
Lemma range_checks c : range_u64 c -> (range_ok c <-> signed_end (r_offset c) (r_bytes c) <> None /\ checked_add (r_device c) (r_bytes c) <> None).
Proof.
  intros ([] & [] & []). split.
  - intros [? ? ? He Ht]. split; [|unfold checked_add; by rewrite (proj2 (Z.leb_le _ _) Ht)].
    assert (signed_end (r_offset c) (r_bytes c) = Some (r_offset c + r_bytes c)) as -> by (by apply signed_end_Some). done.
  - intros [He Ht]. destruct (signed_end _ _) as [e|] eqn:E; [|done]. apply signed_end_Some in E as [_ E]; [|done..].
    unfold checked_add in Ht. destruct (Z.leb_spec (r_device c + r_bytes c) u64_max); [|done]. by split.
Qed.

Lemma plan_ranges_spec copies batches :
  Forall range_u64 copies -> Forall good batches ->
  match plan_ranges batches copies with
  | Ok bs => Forall range_ok copies /\ Forall good bs /\ bs ≫= batch_moves = all_moves batches ++ (copies ≫= moves) /\
             (ordered batches -> match copies with [] => True | c :: _ => newest_within batches (r_offset c) end ->
              StronglySorted (fun c d => r_offset c + r_bytes c <= r_offset d) copies -> StronglySorted before bs)
  | Err _ => ~ Forall range_ok copies
  end.
Proof.
  revert batches. induction copies as [|c rest IH]; intros batches Hu Hbs; cbn [plan_ranges].
  - split_and!; [done|by apply Forall_reverse|by rewrite app_nil_r|]. intros Ho _ _. by apply sorted_reverse.
  - inversion_clear Hu as [|? ? Hc Hrest]. pose proof (range_checks c Hc) as Hchk.
    destruct (signed_end _ _) as [e|] eqn:Ee; cbn [ok_or]; [|by intros [Hr%Hchk _]%Forall_cons; destruct Hr].
    destruct (checked_add _ _) as [t|] eqn:Et; cbn [ok_or]; [|by intros [Hr%Hchk _]%Forall_cons; destruct Hr].
    assert (range_ok c) as Hok by (by apply Hchk). pose proof (cut_fuel_enough c batches (ro_bytes c Hok)) as Hfuel.
    destruct (cut_spec _ c batches Hok Hbs (or_intror Hfuel)) as (Hg & Hm & Ho). specialize (IH _ Hrest Hg).
    destruct (plan_ranges _ rest) as [bs|]; [|by intros [_ ?]%Forall_cons].
    destruct IH as (IH1 & IH2 & IH3 & IH4). split_and!; [by constructor|done|by rewrite IH3, Hm, bind_cons, app_assoc|].
    intros Hord Hnw Hs. destruct (Ho Hnw Hord) as [Ho1 Ho2]. inversion_clear Hs as [|? ? Hs' Hall]. apply IH4; [done| |done].
    destruct rest as [|d ds]; [done|]. inversion_clear Hall. destruct (cut _ _ _); cbn in *; [done|lia].
Qed.

Lemma elem_moves c p : p ∈ moves c <-> exists i, 0 <= i < r_bytes c /\ p = (r_offset c + i, r_device c + i).
Proof.
  unfold moves. rewrite list_elem_of_fmap. split.
  - intros (i & -> & Hi%elem_of_seqZ). exists i. split; [lia|done].
  - intros (i & Hi & ->). exists i. split; [done|]. apply elem_of_seqZ. lia.
Qed.

Lemma batch_validates b :
  good b -> Forall (fun c => r_device c <> 0) (b_copies b) ->
  validate b = if b_offset b + b_bytes b <=? i64_max then Ok tt else Err BatchOffset.
Proof.
  intros [[Ho Ha Hby Hw He Hcs _] Hpos] Hd. unfold validate, signed_end, checked_add.
  rewrite (proj2 (Z.leb_le (b_offset b + b_bytes b) u64_max)) by (clear Hcs; pages). destruct (_ <=? i64_max); [|done]. cbn [ok_or].
  unfold is_multiple_of. change (ALIGNMENT =? 0) with false. cbn iota. rewrite Ha, Hw, Z.eqb_refl. cbn [negb].
  rewrite (proj2 (Z.eqb_neq (b_bytes b) 0)), (proj2 (Z.ltb_ge STAGING_BYTES (b_bytes b))) by lia. cbn [orb].
  destruct (existsb _ _) eqn:E; [|done]. apply existsb_exists in E as (c & Hin%list_elem_of_In & Hr).
  apply (proj1 (Forall_forall _ _) Hd) in Hin as Hd0. apply (proj1 (Forall_forall _ _) Hcs) in Hin as ([? ? ? Hend Htgt] & Hp & Hlo & Hhi).
  unfold copy_refused, checked_add in Hr. rewrite (proj2 (Z.eqb_neq _ _) Hd0), (proj2 (Z.ltb_ge _ _) Hlo), (proj2 (Z.leb_le _ _) Htgt) in Hr.
  rewrite (proj2 (Z.leb_le (r_offset c + r_bytes c) u64_max)), (proj2 (Z.ltb_ge _ _) Hhi) in Hr by (clear -Hend; pages). done.
Qed.

Lemma pieces_owned copies bs :
  Forall good bs -> bs ≫= batch_moves ≡ₚ copies ≫= moves -> Forall (fun c => 0 < r_device c) copies ->
  Forall (fun b => Forall (fun c => r_device c <> 0) (b_copies b)) bs.
Proof.
  intros Hg Hm Hd. apply Forall_forall. intros b Hb. apply Forall_forall. intros c Hc.
  apply (proj1 (Forall_forall _ _) Hg) in Hb as Hok. destruct Hok as [Hok _]. apply (proj1 (Forall_forall _ _) (bo_copies b Hok)) in Hc as Hcc.
  destruct Hcc as (_ & Hpos & _). assert ((r_offset c, r_device c) ∈ copies ≫= moves) as Hin.
  { rewrite <- Hm. apply list_elem_of_bind. exists b. split; [|done]. apply list_elem_of_bind. exists c. split; [|done].
    apply elem_moves. exists 0. split; [lia|]. f_equal; lia. }
  apply list_elem_of_bind in Hin as (d & (i & Hi & [= _ ->])%elem_moves & Hdin). apply (proj1 (Forall_forall _ _) Hd) in Hdin. lia.
Qed.

Lemma ordered_pairs_perm {A} (R : A -> A -> Prop) `{!Symmetric R} l k : l ≡ₚ k -> ForallOrdPairs R l -> ForallOrdPairs R k.
Proof.
  intros Hp. induction Hp as [|x l k Hp IH|x y l|l k m Hp1 IH1 Hp2 IH2]; intros H; [done| | |auto].
  - inversion_clear H. constructor; [|by apply IH]. by rewrite <- Hp.
  - inversion_clear H as [|? ? Hx H']. inversion_clear H' as [|? ? Hy Hl]. inversion_clear Hx as [|? ? Hxy Hx']. repeat constructor; try done.
Qed.

Lemma disjoint_sorted l :
  Forall range_ok l -> Forall (fun c => 0 < r_bytes c) l -> StronglySorted by_offset l -> ForallOrdPairs disjoint_ranges l ->
  StronglySorted (fun c d => r_offset c + r_bytes c <= r_offset d) l.
Proof.
  induction 3 as [|c l Hs IH Hc]; intros Hd; constructor; inversion_clear H; inversion_clear H0; inversion_clear Hd as [|? ? Hcd Hd']; [by apply IH|].
  rewrite !Forall_forall in *. intros d Hin. specialize (Hc d Hin). specialize (Hcd d Hin).
  assert (0 < r_bytes d) by auto. unfold by_offset, disjoint_ranges in *. lia.
Qed.

Lemma plan_reads_spec copies :
  Forall range_u64 copies ->
  match plan_reads copies with
  | Ok bs =>
      Forall range_ok copies /\ Forall good bs /\ bs ≫= batch_moves ≡ₚ copies ≫= moves /\
      (Forall (fun c => 0 < r_device c) copies ->
       Forall (fun b => validate b = if b_offset b + b_bytes b <=? i64_max then Ok tt else Err BatchOffset) bs) /\
      (Forall (fun c => 0 < r_bytes c) copies -> ForallOrdPairs disjoint_ranges copies -> StronglySorted before bs)
  | Err _ => ~ Forall range_ok copies
  end.
Proof.
  intros Hu. unfold plan_reads. pose proof (merge_sort_Permutation by_offset copies) as Hp.
  assert (Forall range_u64 (merge_sort by_offset copies)) as Hu' by (by rewrite Hp).
  pose proof (plan_ranges_spec _ [] Hu' (List.Forall_nil _)) as Hs. destruct (plan_ranges _ _) as [bs|]; [|by rewrite Hp in Hs].
  destruct Hs as (Hok & Hg & Hm & Hord). assert (bs ≫= batch_moves ≡ₚ copies ≫= moves) as Hm' by (rewrite Hm; cbn; by rewrite Hp).
  split_and!; [by rewrite Hp in Hok|done|done| |].
  - intros Hd. pose proof (pieces_owned copies bs Hg Hm' Hd) as Ho. rewrite !Forall_forall in *. intros b Hb. by apply batch_validates; auto.
  - intros Hpos Hdis. apply Hord; [constructor|by destruct (merge_sort _ _)|]. apply disjoint_sorted; [done|by rewrite Hp| |].
    + apply Sorted_StronglySorted; [apply _|]. apply Sorted_merge_sort; apply _.
    + apply (ordered_pairs_perm _ copies); [|done]. by symmetry.
Qed.

(** Reads are cut exactly: the planner accepts the ranges whose ends are representable and no others; the
    batches of accepted ranges move exactly the bytes of the ranges, each to the device address the range gives it;
    every batch is aligned, fits one staging slot and has no page that no range needs; a staging slot accepts it
    unless its last page passes the largest file offset; and disjoint ranges give batches that never read a page twice. *)
Theorem plan_reads_exact copies :
  Forall range_u64 copies ->
  match plan_reads copies with
  | Ok bs =>
      Forall range_ok copies /\ Forall good bs /\ bs ≫= batch_moves ≡ₚ copies ≫= moves /\
      (Forall (fun c => 0 < r_device c) copies ->
       Forall (fun b => validate b = if b_offset b + b_bytes b <=? i64_max then Ok tt else Err BatchOffset) bs) /\
      (Forall (fun c => 0 < r_bytes c) copies -> ForallOrdPairs disjoint_ranges copies -> StronglySorted before bs)
  | Err _ => ~ Forall range_ok copies
  end.
Proof. apply plan_reads_spec. Qed.

Definition sample_reads : list CopyRange :=
  [mkRange 20480 1048576 5000; mkRange 4100 65536 100; mkRange 4200 2097152 9000000].
Lemma plan_reads_exact_witness :
  Forall range_u64 sample_reads /\
  match plan_reads sample_reads with
  | Ok bs => map (fun b => (b_offset b, b_bytes b, length (b_copies b))) bs
             = [(4096, 4194304, 2%nat); (4198400, 4194304, 1%nat); (8392704, 614400, 1%nat); (20480, 8192, 1%nat)]
  | Err _ => False
  end /\
  (forall bs, plan_reads sample_reads = Ok bs -> bs ≫= batch_moves ≡ₚ sample_reads ≫= moves).
Proof.
  assert (Forall range_u64 sample_reads) as Hu by (repeat constructor; done).
  split_and!; [done|vm_compute; reflexivity|]. intros bs Hbs. pose proof (plan_reads_exact sample_reads Hu) as H. rewrite Hbs in H. apply H.
Defined.

(** ** Writing a reservation *)

Definition window (s l : Z) (c : CopyRange) : list (Z * Z) := filter (fun p : Z * Z => s <= p.1 < l) (moves c).

Lemma filter_keep {A} (P : A -> Prop) `{forall x, Decision (P x)} (l : list A) : (forall x, x ∈ l -> P x) -> filter P l = l.
Proof. induction l as [|a l IH]; intros HP; [done|]. rewrite filter_cons_True by set_solver. f_equal. apply IH. set_solver. Qed.
Lemma filter_drop {A} (P : A -> Prop) `{forall x, Decision (P x)} (l : list A) : (forall x, x ∈ l -> ~ P x) -> filter P l = [].
Proof. induction l as [|a l IH]; intros HP; [done|]. rewrite filter_cons_False by set_solver. apply IH. set_solver. Qed.

Lemma piece_moves start limit c :
  range_ok c -> match piece start limit c with Some d => range_ok d /\ 0 < r_bytes d /\ start <= r_offset d /\ r_offset d + r_bytes d <= limit /\ moves d = window start limit c
                | None => window start limit c = [] end.
Proof.
  intros [Ho Hd Hn He Ht]. unfold piece. rewrite u64_add_exact by (unfold u64_max, i64_max in *; lia).
  set (b := Z.max (r_offset c) start). set (f := Z.min (r_offset c + r_bytes c) limit). destruct (Z.ltb_spec b f) as [Hlt|Hge].
  - rewrite u64_add_exact by lia. split_and!; try (cbn; lia). { split; cbn; lia. }
    assert (moves c = moves (mkRange (r_offset c) (r_device c) (b - r_offset c)) ++ moves (mkRange b (r_device c + (b - r_offset c)) (f - b)) ++
                      moves (mkRange f (r_device c + (f - r_offset c)) (r_offset c + r_bytes c - f))) as Hs.
    { replace (mkRange f (r_device c + (f - r_offset c)) (r_offset c + r_bytes c - f)) with (mkRange (b + (f - b)) (r_device c + (b - r_offset c) + (f - b)) (r_offset c + r_bytes c - f))
        by (f_equal; lia).
      rewrite <- moves_split by lia. replace b with (r_offset c + (b - r_offset c)) at 2 by lia. rewrite <- moves_split by lia. destruct c; cbn in *; f_equal; f_equal; lia. }
    unfold window. rewrite Hs, !filter_app. rewrite filter_drop, filter_keep, (filter_drop _ (moves (mkRange f _ _))), app_nil_r; [done|..];
      intros p (i & Hi & ->)%elem_moves; cbn [r_offset r_device r_bytes fst] in *; lia.
  - unfold window. apply filter_drop. intros p (i & Hi & ->)%elem_moves. cbn. lia.
Qed.

Lemma window_split s m l copies : s <= m <= l -> copies ≫= window s l ≡ₚ (copies ≫= window s m) ++ (copies ≫= window m l).
Proof.
  intros Hm. assert (forall c, window s l c ≡ₚ window s m c ++ window m l c) as Hw.
  { intros c. unfold window. induction (moves c) as [|p ps IH]; [done|]. rewrite !filter_cons.
    repeat case_decide; try lia; cbn; rewrite IH; [by constructor|by apply Permutation_middle|done]. }
  induction copies as [|c copies IH]; [done|]. rewrite !bind_cons, IH, Hw. rewrite <- !app_assoc. apply Permutation_app_head.
  rewrite (app_assoc (window m l c)), (Permutation_app_comm (window m l c)). by rewrite <- app_assoc.
Qed.

Lemma window_empty e copies : copies ≫= window e e = [].
Proof.
  induction copies as [|c copies IH]; [done|]. rewrite bind_cons, IH, app_nil_r. apply filter_drop. intros p _. lia.
Qed.
Lemma window_all s l copies : Forall (fun c => s <= r_offset c /\ r_offset c + r_bytes c <= l) copies -> copies ≫= window s l = copies ≫= moves.
Proof.
  induction 1 as [|c copies Hc _ IH]; [done|]. rewrite !bind_cons, IH. f_equal. apply filter_keep.
  intros p (i & Hi & ->)%elem_moves. cbn. lia.
Qed.

Lemma pieces_moves s l copies : Forall range_ok copies -> omap (piece s l) copies ≫= moves = copies ≫= window s l.
Proof.
  induction 1 as [|c copies Hc _ IH]; [done|]. rewrite bind_cons. cbn. pose proof (piece_moves s l c Hc) as Hp.
  destruct (piece s l c) as [d|]; [|by rewrite Hp]. destruct Hp as (_ & _ & _ & _ & Hm). rewrite bind_cons, Hm. f_equal. exact IH.
Qed.

(** A batch of a write is aligned, fits staging, lies inside the reservation and carries only pieces inside itself. *)
Record write_ok (offset e : Z) (b : IoBatch) : Prop := {
  wo_aligned : b_offset b mod ALIGNMENT = 0; wo_whole : b_bytes b mod ALIGNMENT = 0; wo_bytes : 0 < b_bytes b <= STAGING_BYTES;
  wo_inside : offset <= b_offset b /\ b_offset b + b_bytes b <= e;
  wo_copies : Forall (fun c => range_ok c /\ 0 < r_bytes c /\ b_offset b <= r_offset c /\ r_offset c + r_bytes c <= b_offset b + b_bytes b) (b_copies b) }.

Lemma tile_spec fuel copies start e :
  Forall range_ok copies -> 0 <= start <= e -> e <= i64_max -> start mod ALIGNMENT = 0 -> e mod ALIGNMENT = 0 -> e - start <= STAGING_BYTES * Z.of_nat fuel ->
  Forall (write_ok start e) (tile fuel copies start e) /\
  tile fuel copies start e ≫= (fun b => seqZ (b_offset b) (b_bytes b)) = seqZ start (e - start) /\
  tile fuel copies start e ≫= batch_moves ≡ₚ copies ≫= window start e.
Proof.
  intros Hc. revert start. induction fuel as [|fuel IH]; intros start Hs He Ha Hea Hf; cbn [tile].
  - assert (start = e) as -> by lia. rewrite Z.sub_diag. split_and!; [constructor|done|]. by rewrite window_empty.
  - destruct (Z.ltb_spec start e) as [Hlt|]; cycle 1.
    { assert (start = e) as -> by lia. rewrite Z.sub_diag. split_and!; [constructor|done|]. by rewrite window_empty. }
    rewrite u64_add_exact by (clear -Hs He; pages). set (limit := Z.min e (start + STAGING_BYTES)).
    assert (start < limit <= e /\ limit <= start + STAGING_BYTES /\ limit mod ALIGNMENT = 0 /\ e - limit <= STAGING_BYTES * Z.of_nat fuel) as (H1 & H2 & H3 & H4).
    { subst limit. clear -Hs He Ha Hea Hlt Hf. rewrite Nat2Z.inj_succ in Hf. split_and!; pages. }
    destruct (IH limit ltac:(lia) He H3 Hea H4) as (IH1 & IH2 & IH3). split_and!.
    + constructor.
      * constructor; cbn [b_offset b_bytes b_copies]; [done|clear -Ha H3; pages|lia|lia|]. replace (start + (limit - start)) with limit by lia.
        apply Forall_forall. intros d (c & Hin & Hd)%list_elem_of_omap. pose proof (piece_moves start limit c (proj1 (Forall_forall _ _) Hc c Hin)) as Hp.
        rewrite Hd in Hp. tauto.
      * eapply Forall_impl; [exact IH1|]. intros b [? ? ? [] ?]. split; try done. lia.
    + rewrite bind_cons, IH2. cbn [b_offset b_bytes]. replace (e - start) with ((limit - start) + (e - limit)) by lia. rewrite seqZ_app by lia.
      by replace (start + (limit - start)) with limit by lia.
    + rewrite bind_cons, IH3, (window_split start limit e) by lia. unfold batch_moves. cbn [b_copies]. by rewrite pieces_moves.
Qed.

(** The ranges lie inside the reservation. *)
Definition inside (offset e : Z) (c : CopyRange) : Prop := offset <= r_offset c /\ r_offset c + r_bytes c <= e /\ r_device c + r_bytes c <= u64_max.

Lemma outside_spec offset e c : range_u64 c -> e <= i64_max -> outside offset e c = false <-> inside offset e c.
Proof.
  intros ([] & [] & []) He. unfold outside, inside, checked_add.
  destruct (Z.ltb_spec (r_offset c) offset), (Z.leb_spec (r_offset c + r_bytes c) u64_max), (Z.leb_spec (r_device c + r_bytes c) u64_max);
    cbn; try destruct (Z.ltb_spec e (r_offset c + r_bytes c)); cbn; (split; [intros; try done|intros (? & ? & ?)]); unfold i64_max, u64_max in *; try done; try lia.
Qed.

Lemma plan_writes_spec offset n copies :
  is_u64 offset -> is_u64 n -> Forall range_u64 copies ->
  match plan_writes offset n copies with
  | Ok bs =>
      (offset + n <= i64_max /\ offset mod ALIGNMENT = 0 /\ n mod ALIGNMENT = 0 /\ 0 < n /\ Forall (inside offset (offset + n)) copies) /\
      Forall (write_ok offset (offset + n)) bs /\
      bs ≫= (fun b => seqZ (b_offset b) (b_bytes b)) = seqZ offset n /\
      bs ≫= batch_moves ≡ₚ copies ≫= moves
  | Err _ => ~ (offset + n <= i64_max /\ offset mod ALIGNMENT = 0 /\ n mod ALIGNMENT = 0 /\ 0 < n /\ Forall (inside offset (offset + n)) copies)
  end.
Proof.
  intros [Ho _] [Hn _] Hu. unfold plan_writes. destruct (signed_end offset n) as [e|] eqn:Ee; cbn [ok_or].
  2: { intros (He & _). by rewrite (proj2 (signed_end_Some offset n (offset + n) Ho Hn) (conj eq_refl He)) in Ee. }
  apply signed_end_Some in Ee as [-> He]; [|done..]. unfold is_multiple_of. change (ALIGNMENT =? 0) with false. cbn iota.
  destruct (Z.eqb_spec (offset mod ALIGNMENT) 0) as [Ha|]; [|by intros (_ & ? & _)]. destruct (Z.eqb_spec (n mod ALIGNMENT) 0) as [Hw|]; [|by intros (_ & _ & ? & _)].
  destruct (Z.eqb_spec n 0) as [->|Hz]; [by intros (_ & _ & _ & ? & _)|]. cbn [negb orb].
  assert (existsb (outside offset (offset + n)) copies = false <-> Forall (inside offset (offset + n)) copies) as Hin.
  { rewrite Forall_forall. split.
    - intros E c Hc. apply outside_spec; [by apply (proj1 (Forall_forall _ _) Hu)|done|]. destruct (outside _ _ c) eqn:Eo; [|done].
      rewrite <- E. symmetry. apply existsb_exists. exists c. by rewrite <- list_elem_of_In.
    - intros H. apply not_true_is_false. intros (c & Hc%list_elem_of_In & Hout)%existsb_exists.
      rewrite (proj2 (outside_spec offset (offset + n) c (proj1 (Forall_forall _ _) Hu c Hc) He) (H c Hc)) in Hout. done. }
  destruct (existsb _ copies); [intros (_ & _ & _ & _ & H); by apply Hin in H|]. pose proof (proj1 Hin eq_refl) as Hall.
  assert (Forall range_ok copies) as Hok.
  { rewrite !Forall_forall in *. intros c Hc. destruct (Hu c Hc) as ([] & [] & []), (Hall c Hc) as (? & ? & ?). split; lia. }
  split; [split_and!; try done; lia|].
  destruct (tile_spec (S (Z.to_nat (n / STAGING_BYTES))) copies offset (offset + n) Hok ltac:(lia) He Ha) as (H1 & H2 & H3).
  { clear -Ha Hw. pages. } { rewrite Nat2Z.inj_succ, Z2Nat.id by (apply Z.div_pos; [lia|reflexivity]). clear. pages. }
  split_and!; [done|by rewrite H2; f_equal; lia|]. rewrite H3, window_all; [done|]. eapply Forall_impl; [exact Hall|]. by intros c (? & ? & _).
Qed.

(** A reservation is written exactly: it is accepted when it is aligned, non-empty, ends at a representable file
    offset and contains every range, and only then; its batches are aligned, fit one staging slot, cover the
    reservation's bytes once and in order, padding included, and gather exactly the bytes of the ranges. *)
Theorem plan_writes_exact offset n copies :
  is_u64 offset -> is_u64 n -> Forall range_u64 copies ->
  match plan_writes offset n copies with
  | Ok bs =>
      (offset + n <= i64_max /\ offset mod ALIGNMENT = 0 /\ n mod ALIGNMENT = 0 /\ 0 < n /\ Forall (inside offset (offset + n)) copies) /\
      Forall (write_ok offset (offset + n)) bs /\
      bs ≫= (fun b => seqZ (b_offset b) (b_bytes b)) = seqZ offset n /\
      bs ≫= batch_moves ≡ₚ copies ≫= moves
  | Err _ => ~ (offset + n <= i64_max /\ offset mod ALIGNMENT = 0 /\ n mod ALIGNMENT = 0 /\ 0 < n /\ Forall (inside offset (offset + n)) copies)
  end.
Proof. apply plan_writes_spec. Qed.

Definition sample_writes : list CopyRange := [mkRange 8192 65536 5000; mkRange 4202000 1048576 300].
Lemma plan_writes_exact_witness :
  (is_u64 8192 /\ is_u64 4198400 /\ Forall range_u64 sample_writes) /\
  match plan_writes 8192 4198400 sample_writes with
  | Ok bs => map (fun b => (b_offset b, b_bytes b, b_copies b)) bs
             = [(8192, 4194304, [mkRange 8192 65536 5000; mkRange 4202000 1048576 300]); (4202496, 4096, [])]
  | Err _ => False
  end /\
  (forall bs, plan_writes 8192 4198400 sample_writes = Ok bs -> bs ≫= batch_moves ≡ₚ sample_writes ≫= moves).
Proof.
  assert (Forall range_u64 sample_writes) as Hu by (repeat constructor; done).
  split_and!; [done..|vm_compute; reflexivity|]. intros bs Hbs. pose proof (plan_writes_exact 8192 4198400 sample_writes) as H. rewrite Hbs in H. by apply H.
Defined.
