(* ===== verification/Codec.v ===== *)
(** * Storage codecs

    orbitkv-core/src/codec/mod.rs: which representation a codec gives a tensor, what an encoded segment
    says about itself, and how long it must be. *)
From S2P Require Import Prelude State Blocks.

Local Open Scope Z_scope.
Local Open Scope rust_scope.

(** ** Codecs *)

Inductive StorageCodec := CNone | CAns | CFp8 | TurboQuant4 | TurboQuant3.
#[export] Instance StorageCodec_eq_dec : EqDecision StorageCodec.
Proof. solve_decision. Defined.

Definition codec_from_str (v : bytes) : option StorageCodec :=
  if bool_decide (v = str "none") then Some CNone
  else if bool_decide (v = str "ans") then Some CAns
  else if bool_decide (v = str "fp8") then Some CFp8
  else if bool_decide (v = str "turboquant-4") then Some TurboQuant4
  else if bool_decide (v = str "turboquant-3") then Some TurboQuant3
  else None.

(** [is_power_of_two]. *)
Definition is_power_of_two (n : Z) : bool := (0 <? n) && (2 ^ Z.log2 n =? n).

Definition quantizes (head_dim layer_index layer_count : Z) : bool :=
  (32 <=? head_dim) && (head_dim <=? 256) && is_power_of_two head_dim && (2 <=? layer_index) && (layer_index <? saturating_sub layer_count 2).

Definition codec_format (codec : StorageCodec) (requested : StorageFormat) : StorageFormat :=
  match codec with
  | CNone => Exact
  | CAns =>
      match requested with
      | Fp8FromBf16 | Fp8FromFp16 | Attention _ _ _ _ _ => Ans16
      | Fp8Native => AnsFp8
      | _ => FAns
      end
  | CFp8 =>
      match requested with
      | Attention Bf16 _ _ _ _ => Fp8FromBf16
      | Attention Fp16 _ _ _ _ => Fp8FromFp16
      | Fp8FromBf16 | Fp8FromFp16 => requested
      | _ => Exact
      end
  | TurboQuant4 | TurboQuant3 =>
      match requested with
      | Attention scalar role head_dim layer_index layer_count =>
          if quantizes head_dim layer_index layer_count
          then FTurboQuant scalar role head_dim (wrap32 (42 + wrap32 (layer_index * 1337)))
                 (match codec with TurboQuant4 => 4 | _ => 3 end)
          else Exact
      | _ => Exact
      end
  end.

(** The representation of one segment: split keys and values have one each. *)
Definition segment_format (format : StorageFormat) (index : Z) : StorageFormat :=
  match format with
  | FTurboQuant scalar KeyValue head_dim seed bits => FTurboQuant scalar (if index =? 0 then Key else Value) head_dim seed bits
  | _ => format
  end.

(** ** Sizes *)

(** A panic for [KeyValue], which the caller resolves per segment. *)
Definition vector_bytes (dim bits : Z) (role : AttentionRole) : option Z :=
  let packed := div_ceil (dim * bits) 8 in
  match role with
  | Key => Some (packed + 2)
  | Value => Some (packed + 4)
  | PackedKeyValue => Some (2 * packed + 6)
  | KeyValue => None
  end.

Definition turboquant_bytes (logical dim bits : Z) (role : AttentionRole) : option Z :=
  if negb ((32 <=? dim) && (dim <=? 256)) || negb (is_power_of_two dim) || negb ((bits =? 3) || (bits =? 4)) || bool_decide (role = KeyValue)
  then None
  else
    let source_width := dim * (if bool_decide (role = PackedKeyValue) then 4 else 2) in
    if (logical =? 0) || negb (is_multiple_of logical source_width) then None
    else v ← vector_bytes dim bits role; checked_mul (logical / source_width) v.

(** ** Encoded segments *)

Inductive CodecError := InvalidBounds | InvalidGeometry | Checksum.

Definition isize_max : Z := i64_max.

Definition geometry_accepts (m : EncodedSegment) : bool :=
  match es_format m with
  | Exact => es_logical_bytes m =? es_stored_bytes m
  | FAns | AnsFp8 => true
  | Ans16 => is_multiple_of (es_logical_bytes m) 2
  | Fp8FromBf16 | Fp8FromFp16 => bool_decide (checked_mul (es_stored_bytes m) 2 = Some (es_logical_bytes m))
  | FTurboQuant _ role head_dim _ bits => bool_decide (turboquant_bytes (es_logical_bytes m) head_dim bits role = Some (es_stored_bytes m))
  | _ => false
  end.

Definition validate_metadata (m : EncodedSegment) (available : Z) : result unit CodecError :=
  if negb (es_version m =? 1) || (es_logical_bytes m =? 0) || (es_stored_bytes m =? 0)
     || (isize_max <? es_logical_bytes m) || (isize_max <? es_stored_bytes m) || (available <? es_stored_bytes m)
     || (negb (bool_decide (es_format m = Exact)) && ((16 * 1024 * 1024 <? es_logical_bytes m) || (32 * 1024 * 1024 <? es_stored_bytes m)))
  then Err InvalidBounds
  else if geometry_accepts m then Ok tt else Err InvalidGeometry.

(** [validate]: the checksum of the stored bytes, by the CRC-32 of the [crc32fast] crate. *)
Definition segment_validate (crc32 : bytes -> Z) (m : EncodedSegment) (payload : bytes) : result unit CodecError :=
  let? _ := validate_metadata m (zlen payload) in
  if crc32 (take (Z.to_nat (es_stored_bytes m)) payload) =? es_checksum m then Ok tt else Err Checksum.

(** ** The type of a stored representation *)

(** The head sizes that the quantizing kernels handle. *)
Definition head_sizes : list Z := [32; 64; 128; 256].

(** A quantized head vector of [dim] 16-bit scalars: [dim] codes of [bits] bits, and for a key its norm, for a value its minimum and its scale,
    16 bits each; a packed pair is a key and a value. *)
Inductive head_bytes (dim bits : Z) : AttentionRole -> Z -> Z -> Prop :=
| hb_key codes : 8 * codes = dim * bits -> head_bytes dim bits Key (2 * dim) (codes + 2)
| hb_value codes : 8 * codes = dim * bits -> head_bytes dim bits Value (2 * dim) (codes + 2 + 2)
| hb_packed k k' v v' : head_bytes dim bits Key k k' -> head_bytes dim bits Value v v' -> head_bytes dim bits PackedKeyValue (k + v) (k' + v').

(** The representations an object can be stored in: never a request, and a quantized one only with a shape its kernel handles. *)
Inductive stored_type : StorageFormat -> Prop :=
| st_exact : stored_type Exact
| st_ans : stored_type FAns
| st_ans16 : stored_type Ans16
| st_ans_fp8 : stored_type AnsFp8
| st_bf16 : stored_type Fp8FromBf16
| st_fp16 : stored_type Fp8FromFp16
| st_turbo scalar role dim seed bits : role <> KeyValue -> dim ∈ head_sizes -> bits = 3 \/ bits = 4 -> stored_type (FTurboQuant scalar role dim seed bits).

(** [sized f l s]: [l] bytes take [s] in representation [f]. *)
Inductive sized : StorageFormat -> Z -> Z -> Prop :=
| sz_exact n : sized Exact n n
| sz_ans l s : sized FAns l s
| sz_ans16 k s : sized Ans16 (k * 2) s
| sz_ans_fp8 l s : sized AnsFp8 l s
| sz_bf16 s : sized Fp8FromBf16 (s * 2) s
| sz_fp16 s : sized Fp8FromFp16 (s * 2) s
| sz_turbo scalar role dim seed bits vectors l s :
    0 < vectors -> head_bytes dim bits role l s -> sized (FTurboQuant scalar role dim seed bits) (vectors * l) (vectors * s).

(** The bounds every representation has. *)
Definition segment_bounds (m : EncodedSegment) (available : Z) : Prop :=
  es_version m = 1 /\ 0 < es_logical_bytes m <= isize_max /\ 0 < es_stored_bytes m <= isize_max /\ es_stored_bytes m <= available /\
  (es_format m <> Exact -> es_logical_bytes m <= 16 * 1024 * 1024 /\ es_stored_bytes m <= 32 * 1024 * 1024).

(** *** What a codec may do to a tensor *)

(** The 16-bit scalars of a tensor that is registered as such, and those that a lossy representation decodes to. *)
Definition tensor_scalar (requested : StorageFormat) : option Scalar16 :=
  match requested with Attention s _ _ _ _ => Some s | Fp8FromBf16 => Some Bf16 | Fp8FromFp16 => Some Fp16 | _ => None end.
Definition decodes_to (stored : StorageFormat) : option Scalar16 :=
  match stored with FTurboQuant s _ _ _ _ => Some s | Fp8FromBf16 => Some Bf16 | Fp8FromFp16 => Some Fp16 | _ => None end.
(** Bits per head-vector element of the two quantizing codecs. *)
Definition code_bits (codec : StorageCodec) : option Z := match codec with TurboQuant4 => Some 4 | TurboQuant3 => Some 3 | _ => None end.
(** The first two and the last two layers of a stage are protected. *)
Definition protected (layer count : Z) : Prop := layer = 0 \/ layer = 1 \/ count - 2 <= layer.
Definition is_u32_layer (requested : StorageFormat) : Prop := forall s r d li lc, requested = Attention s r d li lc -> 0 <= li <= u32_max /\ 0 <= lc <= u32_max.

(** A codec stores lossily exactly the tensors it is for. *)
Definition lossy_for (codec : StorageCodec) (requested : StorageFormat) : Prop :=
  (codec = CFp8 /\ is_Some (tensor_scalar requested)) \/
  (is_Some (code_bits codec) /\ exists s r d li lc, requested = Attention s r d li lc /\ d ∈ head_sizes /\ ~ protected li lc).

Lemma power_of_two_sizes d : (32 <=? d) && (d <=? 256) && is_power_of_two d = true <-> d ∈ head_sizes.
Proof.
  unfold head_sizes, is_power_of_two. split.
  - intros [[H1%Z.leb_le H2%Z.leb_le]%andb_prop [_ H3%Z.eqb_eq]%andb_prop]%andb_prop. assert (5 <= Z.log2 d <= 8) as Hl by (split; [apply (Z.log2_le_mono 32 d)|apply (Z.log2_le_mono d 256)]; lia).
    assert (Z.log2 d = 5 \/ Z.log2 d = 6 \/ Z.log2 d = 7 \/ Z.log2 d = 8) as [E|[E|[E|E]]] by lia; rewrite E in H3; rewrite <- H3; set_solver.
  - rewrite !elem_of_cons, elem_of_nil. intros [->|[->|[->|[->|[]]]]]; reflexivity.
Qed.
Lemma quantizes_spec d li lc : 0 <= li <= u32_max -> 0 <= lc <= u32_max -> quantizes d li lc = true <-> d ∈ head_sizes /\ ~ protected li lc.
Proof.
  intros Hli Hlc. unfold quantizes. rewrite <- power_of_two_sizes. rewrite andb_true_iff, (andb_true_iff _ (2 <=? li)), (Z.leb_le 2), Z.ltb_lt. unfold protected, saturating_sub.
  destruct (_ && is_power_of_two d); split; intros [? ?]; split; (done || lia || naive_solver lia).
Qed.
Lemma sizes_whole d bits : d ∈ head_sizes -> exists codes, 8 * codes = d * bits /\ div_ceil (d * bits) 8 = codes.
Proof.
  intros Hd. exists (d / 8 * bits). assert (exists k, d = 8 * k) as [k ->].
  { unfold head_sizes in Hd. rewrite !elem_of_cons, elem_of_nil in Hd. destruct Hd as [->|[->|[->|[->|[]]]]]; [by exists 4|by exists 8|by exists 16|by exists 32]. }
  replace (8 * k / 8) with k by (rewrite Z.mul_comm, Z.div_mul; lia). split; [lia|]. unfold div_ceil. replace (8 * k * bits + 8 - 1) with (7 + k * bits * 8) by lia. rewrite Z.div_add by lia. done.
Qed.

(** The kernel's sizes of a head vector. *)
Definition source_width (role : AttentionRole) (d : Z) : Z := d * (if bool_decide (role = PackedKeyValue) then 4 else 2).
Lemma vector_bytes_spec d bits role v :
  d ∈ head_sizes -> vector_bytes d bits role = Some v <-> head_bytes d bits role (source_width role d) v.
Proof.
  intros Hd. destruct (sizes_whole d bits Hd) as (codes & Hc & Hdiv). unfold vector_bytes, source_width. rewrite Hdiv. split.
  - destruct role; intros [= <-]; (first [rewrite bool_decide_false by done|rewrite bool_decide_true by done]).
    + rewrite Z.mul_comm. by constructor.
    + rewrite Z.mul_comm. replace (codes + 4) with (codes + 2 + 2) by lia. by constructor.
    + replace (d * 4) with (2 * d + 2 * d) by lia. replace (2 * codes + 6) with ((codes + 2) + (codes + 2 + 2)) by lia. constructor; by constructor.
  - intros H. inversion H as [? Hk|? Hv|? ? ? ? Hk Hv]; subst; [f_equal; lia|f_equal; lia|]. inversion Hk; inversion Hv; subst. f_equal. lia.
Qed.
Lemma head_bytes_source d bits role l s : head_bytes d bits role l s -> l = source_width role d.
Proof. unfold source_width. intros H. inversion H as [| |? ? ? ? Hk Hv]; subst; [rewrite bool_decide_false by done; lia..|]. inversion Hk; inversion Hv; subst. rewrite bool_decide_true by done. lia. Qed.

Lemma turboquant_typed scalar seed logical dim bits role s :
  0 < logical -> s <= isize_max ->
  turboquant_bytes logical dim bits role = Some s <-> stored_type (FTurboQuant scalar role dim seed bits) /\ sized (FTurboQuant scalar role dim seed bits) logical s.
Proof.
  intros Hl Hs. unfold turboquant_bytes. fold (source_width role dim). assert (dim ∈ head_sizes -> 0 < source_width role dim) as Hw.
  { unfold source_width, head_sizes. rewrite !elem_of_cons, elem_of_nil. case_bool_decide; lia. } split.
  - destruct (_ || bool_decide (role = KeyValue)) eqn:E; [done|]. apply orb_false_elim in E as [[[E1%negb_false_iff E2%negb_false_iff]%orb_false_elim E3%negb_false_iff]%orb_false_elim E4%bool_decide_eq_false].
    assert (dim ∈ head_sizes) as Hd by (apply power_of_two_sizes; by rewrite E1, E2). apply orb_prop in E3. rewrite !Z.eqb_eq in E3.
    destruct (_ || negb _) eqn:E; [done|]. apply orb_false_elim in E as [_ E%negb_false_iff]. apply (is_multiple_of_spec _ _ (Hw Hd)) in E as [n ->]. rewrite Z.div_mul by (specialize (Hw Hd); lia).
    destruct (vector_bytes dim bits role) as [v|] eqn:Ev; [|done]. cbn. unfold checked_mul. destruct (Z.leb_spec (n * v) u64_max); [|done]. intros [= <-].
    split; [by constructor|]. constructor; [specialize (Hw Hd); nia|by apply vector_bytes_spec].
  - intros [Ht Hz]. inversion Ht as [| | | | | |? ? ? ? ? Hr Hd Hb]; subst. inversion Hz as [| | | | | |? ? ? ? ? n l v Hn Hv]; subst. specialize (Hw Hd).
    pose proof (proj2 (power_of_two_sizes dim) Hd) as [E1 E2]%andb_prop. rewrite E1, E2. assert ((bits =? 3) || (bits =? 4) = true) as -> by (apply orb_true_iff; rewrite !Z.eqb_eq; done).
    rewrite bool_decide_false by done. cbn [negb andb orb]. pose proof (head_bytes_source _ _ _ _ _ Hv) as ->. rewrite (proj2 (Z.eqb_neq (n * source_width role dim) 0)) by nia.
    rewrite (proj2 (is_multiple_of_spec _ _ Hw)) by (by exists n). cbn [negb orb]. rewrite (proj2 (vector_bytes_spec dim bits role v Hd)), Z.div_mul by (done || lia). cbn. unfold checked_mul.
    rewrite (proj2 (Z.leb_le _ _)); [done|]. unfold isize_max, i64_max, u64_max in *. lia.
Qed.

Lemma geometry_typed m :
  0 < es_logical_bytes m -> 0 < es_stored_bytes m <= isize_max ->
  geometry_accepts m = true <-> stored_type (es_format m) /\ sized (es_format m) (es_logical_bytes m) (es_stored_bytes m).
Proof.
  intros Hl Hs. unfold geometry_accepts. destruct m as [ver f l s crc]; cbn in *.
  assert (checked_mul s 2 = Some (s * 2)) as Hck by (unfold checked_mul; rewrite (proj2 (Z.leb_le _ _)); [done|unfold isize_max, i64_max, u64_max in *; lia]).
  destruct f; rewrite ?Hck.
  - rewrite Z.eqb_eq. split; [intros ->; split; constructor|]. intros [_ H]. by inversion H.
  - rewrite bool_decide_eq_true. split; [intros [= <-]; split; constructor|]. intros [_ H]. by inversion H.
  - rewrite bool_decide_eq_true. split; [intros [= <-]; split; constructor|]. intros [_ H]. by inversion H.
  - split; [done|]. intros [H _]. inversion H.
  - split; [intros _; split; constructor|done].
  - rewrite (is_multiple_of_spec l 2) by lia. split; [intros [q ->]; split; constructor|]. intros [_ H]. inversion H; subst. by eexists.
  - split; [intros _; split; constructor|done].
  - split; [done|]. intros [H _]. inversion H.
  - rewrite bool_decide_eq_true. apply turboquant_typed; lia.
Qed.

Lemma sized_shrinks f l s : stored_type f -> sized f l s -> 0 < s -> f = FAns \/ f = Ans16 \/ f = AnsFp8 \/ f = Exact /\ s = l \/ s < l.
Proof.
  intros Ht Hz Hs. destruct Hz as [n| | | | | |scalar role dim seed bits n l s Hn Hv]; try tauto; try (right; right; right; right; lia). do 4 right.
  inversion Ht as [| | | | | |? ? ? ? ? Hr Hd Hb]; subst. assert (32 <= dim) as H32 by (unfold head_sizes in Hd; rewrite !elem_of_cons, elem_of_nil in Hd; lia).
  apply Z.mul_lt_mono_pos_l; [done|]. assert (forall l s, head_bytes dim bits Key l s \/ head_bytes dim bits Value l s -> s < l) as Hone.
  { intros l' s' [H|H]; inversion H; subst; destruct Hb as [-> | ->]; lia. }
  destruct Hv as [codes Hc|codes Hc|k k' v v' Hk Hv]; [apply Hone; left; by constructor|apply Hone; right; by constructor|]. pose proof (Hone _ _ (or_introl Hk)). pose proof (Hone _ _ (or_intror Hv)). lia.
Qed.

(** *** The choice of a codec *)

(** The typed entropy coder for a tensor. *)
Definition entropy_for (requested : StorageFormat) : StorageFormat :=
  if bool_decide (is_Some (tensor_scalar requested)) then Ans16 else if bool_decide (requested = Fp8Native) then AnsFp8 else FAns.

Record choice_ok (codec : StorageCodec) (requested stored : StorageFormat) : Prop := {
  ch_lossy : is_Some (decodes_to stored) <-> lossy_for codec requested;
  ch_scalar : forall s, decodes_to stored = Some s -> tensor_scalar requested = Some s;
  ch_lossless : decodes_to stored = None -> stored = if bool_decide (codec = CAns) then entropy_for requested else Exact;
  ch_quantized : forall s role dim seed bits, stored = FTurboQuant s role dim seed bits ->
    code_bits codec = Some bits /\ exists li lc, requested = Attention s role dim li lc
}.

(** Only the quantizing codecs look at the shape of a tensor. *)
Lemma codec_format_turbo codec bits requested :
  code_bits codec = Some bits -> is_u32_layer requested -> choice_ok codec requested (codec_format codec requested).
Proof.
  intros Hb Hu. assert (codec <> CFp8 /\ codec <> CAns) as [Hf Ha] by (by destruct codec).
  assert (forall s r d li lc, requested = Attention s r d li lc -> quantizes d li lc = true -> choice_ok codec requested (FTurboQuant s r d (wrap32 (42 + wrap32 (li * 1337))) bits)) as Hq.
  { intros s r d li lc -> Hq. destruct (Hu _ _ _ _ _ eq_refl) as [Hli Hlc]. apply quantizes_spec in Hq as [Hd Hp]; [|done..]. split; cbn; [|by intros ? [= <-]|done|].
    - split; [|by eexists]. intros _. right. split; [by eexists|]. by exists s, r, d, li, lc.
    - intros ? ? ? ? ? [= <- <- <- <- <-]. split; [done|]. by eexists _, _. }
  assert ((forall s r d li lc, requested = Attention s r d li lc -> quantizes d li lc = false) -> choice_ok codec requested Exact) as He.
  { intros Hn. split; cbn; [|done|by rewrite bool_decide_false|done]. split; [by intros []|]. intros [[? _]|(_ & s & r & d & li & lc & Hr & Hd & Hp)]; [done|].
    destruct (Hu _ _ _ _ _ Hr) as [Hli Hlc]. pose proof (proj2 (quantizes_spec d li lc Hli Hlc) (conj Hd Hp)). specialize (Hn _ _ _ _ _ Hr). congruence. }
  assert (codec_format codec requested = match requested with Attention s r d li lc => if quantizes d li lc then FTurboQuant s r d (wrap32 (42 + wrap32 (li * 1337))) bits else Exact | _ => Exact end) as ->
    by (destruct codec; try done; cbn in Hb; injection Hb as <-; done).
  destruct requested; try (by apply He). destruct (quantizes _ _ _) eqn:E; [by eapply Hq|]. apply He. by intros ? ? ? ? ? [= <- <- <- <- <-].
Qed.
Lemma codec_format_choice codec requested : is_u32_layer requested -> choice_ok codec requested (codec_format codec requested).
Proof.
  intros Hu. destruct codec; try (by eapply codec_format_turbo).
  - split; cbn; [|done..]. split; [by intros []|]. by intros [[? _]|[[? ?] _]].
  - assert (codec_format CAns requested = entropy_for requested) as -> by (by destruct requested). assert (decodes_to (entropy_for requested) = None) as Hn by (by destruct requested).
    split; rewrite ?Hn; [|done|done|by destruct requested]. split; [by intros []|]. by intros [[? _]|[[? ?] _]].
  - assert (decodes_to (codec_format CFp8 requested) = tensor_scalar requested) as Hd by (by destruct requested as [| | |[]| | | | |]). split; rewrite ?Hd; [|done| |].
    + split; [by left|]. intros [[_ ?]|[[? ?] _]]; done.
    + by destruct requested as [| | |[]| | | | |].
    + by destruct requested as [| | |[]| | | | |].
Qed.

(** An odd multiple separates the residues of a power of two. *)
Lemma seeds_apart li li' : 0 <= li <= u32_max -> 0 <= li' <= u32_max -> wrap32 (42 + wrap32 (li * 1337)) = wrap32 (42 + wrap32 (li' * 1337)) -> li = li'.
Proof.
  unfold wrap32, u32_max. intros H1 H2. rewrite !Z.add_mod_idemp_r by (unfold u32_modulus; lia). intros He.
  assert ((1337 * (li - li')) mod u32_modulus = 0) as Hm.
  { replace (1337 * (li - li')) with ((42 + li * 1337) - (42 + li' * 1337)) by lia. rewrite Zminus_mod, He, Z.sub_diag. reflexivity. }
  assert ((u32_modulus | li - li')) as [k Hk].
  { apply (Z.gauss _ 1337); [apply Z.mod_divide; [by unfold u32_modulus|done]|reflexivity]. }
  unfold u32_modulus in *. nia.
Qed.

Lemma codec_format_seed codec s r d li lc a b c seed e : codec_format codec (Attention s r d li lc) = FTurboQuant a b c seed e -> seed = wrap32 (42 + wrap32 (li * 1337)).
Proof. destruct codec; cbn; try done; [by destruct s|..]; (destruct (quantizes d li lc); [by intros [= _ _ _ <- _]|done]). Qed.

Lemma codec_format_stored codec requested index : is_u32_layer requested -> stored_type (segment_format (codec_format codec requested) index).
Proof.
  intros Hu. destruct codec, requested as [| | |[] role dim li lc| | | | |]; cbn; try constructor.
  all: destruct (quantizes dim li lc) eqn:E; cbn; [|constructor]. all: destruct (Hu _ _ _ _ _ eq_refl) as [H1 H2]; apply quantizes_spec in E as [Hd _]; [|done..].
  all: destruct role; try (destruct (index =? 0)); constructor; try done; tauto.
Qed.

Lemma validate_metadata_typed m available :
  0 <= es_logical_bytes m -> 0 <= es_stored_bytes m ->
  validate_metadata m available = Ok tt <-> segment_bounds m available /\ stored_type (es_format m) /\ sized (es_format m) (es_logical_bytes m) (es_stored_bytes m).
Proof.
  intros Hl Hs. unfold validate_metadata, segment_bounds. split.
  + destruct (_ || (negb (bool_decide _) && _)) eqn:E; [done|].
    apply orb_false_elim in E as [[[[[[E1%negb_false_iff%Z.eqb_eq E2%Z.eqb_neq]%orb_false_elim E3%Z.eqb_neq]%orb_false_elim E4%Z.ltb_ge]%orb_false_elim E5%Z.ltb_ge]%orb_false_elim E6%Z.ltb_ge]%orb_false_elim E7].
    destruct (geometry_accepts m) eqn:Eg; [|done]. intros _. split; [|apply geometry_typed; [lia..|done]]. split_and!; try lia; intros Hne;
    (apply andb_false_iff in E7 as [E7%negb_false_iff%bool_decide_eq_true|[E7%Z.ltb_ge E8%Z.ltb_ge]%orb_false_elim]; [done|lia]).
  + intros [(Hv & Hl' & Hs' & Ha & Hq) Htz]. rewrite Hv, (proj2 (Z.eqb_neq (es_logical_bytes m) 0)), (proj2 (Z.eqb_neq (es_stored_bytes m) 0)) by lia.
    rewrite (proj2 (Z.ltb_ge isize_max _)), (proj2 (Z.ltb_ge isize_max _)), (proj2 (Z.ltb_ge available _)) by lia. cbn [negb orb Z.eqb Pos.eqb].
    rewrite (proj2 (geometry_typed m ltac:(lia) Hs') Htz). destruct (decide (es_format m = Exact)) as [He|Hne]; [by rewrite bool_decide_true|].
    rewrite bool_decide_false by done. destruct (Hq Hne) as [Hq1 Hq2]. by rewrite (proj2 (Z.ltb_ge _ _) Hq1), (proj2 (Z.ltb_ge _ _) Hq2).
Qed.

(** C34. Representations are well typed.  For every codec and every tensor: what is stored is a representation, never a request; it is lossy exactly when
    the codec is fp8 and the tensor is of 16-bit scalars, or the codec is a quantizer, the tensor is attention of a supported head size and its layer is not
    one of the first two or last two of its stage; a lossy representation decodes to the scalars of the tensor; a quantized one has the bits of
    its codec, the role and the head size of the tensor, and a seed of its own per layer; a lossless one is entropy-coded by the type of the
    tensor, or exact; a split pair of keys and values is a key segment followed by value segments.  The metadata of a segment is accepted exactly when it is
    within its bounds, names a representation and gives the sizes of that representation, and of those only the entropy-coded ones can be longer than what
    they represent. *)
Theorem codec_well_typed :
  (forall codec requested, is_u32_layer requested ->
     choice_ok codec requested (codec_format codec requested) /\ forall index, stored_type (segment_format (codec_format codec requested) index)) /\
  (forall codec s r d li lc s' r' d' li' lc' seed a b c e a' b' c' e',
     is_u32_layer (Attention s r d li lc) -> is_u32_layer (Attention s' r' d' li' lc') ->
     codec_format codec (Attention s r d li lc) = FTurboQuant a b c seed e -> codec_format codec (Attention s' r' d' li' lc') = FTurboQuant a' b' c' seed e' -> li = li') /\
  (forall s role d seed bits index, 0 <= index -> exists role', segment_format (FTurboQuant s role d seed bits) index = FTurboQuant s role' d seed bits /\
     (role <> KeyValue -> role' = role) /\ (role = KeyValue -> index = 0 -> role' = Key) /\ (role = KeyValue -> 0 < index -> role' = Value)) /\
  (forall m available, 0 <= es_logical_bytes m -> 0 <= es_stored_bytes m ->
     validate_metadata m available = Ok tt <->
     segment_bounds m available /\ stored_type (es_format m) /\ sized (es_format m) (es_logical_bytes m) (es_stored_bytes m)) /\
  (forall f l s, stored_type f -> sized f l s -> 0 < s -> f = FAns \/ f = Ans16 \/ f = AnsFp8 \/ f = Exact /\ s = l \/ s < l).
Proof.
  split_and!; [| | | |exact sized_shrinks].
  - intros codec requested Hu. split; [by apply codec_format_choice|]. intros index. by apply codec_format_stored.
  - intros codec s r d li lc s' r' d' li' lc' seed a b c e a' b' c' e' Hu Hu' H H'. destruct (Hu _ _ _ _ _ eq_refl) as [Hl _], (Hu' _ _ _ _ _ eq_refl) as [Hl' _].
    apply seeds_apart; [done..|]. rewrite <- (codec_format_seed _ _ _ _ _ _ _ _ _ _ _ H), <- (codec_format_seed _ _ _ _ _ _ _ _ _ _ _ H'). done.
  - intros s role d seed bits index Hi. destruct role; cbn; [by eexists..| |by eexists]. destruct (Z.eqb_spec index 0); eexists; (split; [done|]); split_and!; (done || lia).
  - intros m available Hl Hs. by apply validate_metadata_typed.
Qed.

Lemma codec_well_typed_witness :
  let m := mkSegment 1 (FTurboQuant Bf16 Key 128 (42 + 7 * 1337) 4) 2560 660 0 in
  validate_metadata m 4096 = Ok tt /\ sized (es_format m) 2560 660 /\ choice_ok TurboQuant4 (Attention Bf16 Key 128 7 32) (es_format m).
Proof.
  destruct codec_well_typed as (Hc & _ & _ & Hm & _). cbv zeta. assert (validate_metadata (mkSegment 1 (FTurboQuant Bf16 Key 128 (42 + 7 * 1337) 4) 2560 660 0) 4096 = Ok tt) as H by (vm_compute; reflexivity).
  split; [exact H|]. apply Hm in H as (_ & _ & Hz); [|cbn; lia..]. split; [exact Hz|]. apply (Hc TurboQuant4 (Attention Bf16 Key 128 7 32)). intros s r d li lc [= _ _ _ <- <-]. unfold u32_max. lia.
Defined.
