(* ===== verification/Fp8.v ===== *)
(** * FP8 quantization

    orbitkv-core/src/codec/cpu.rs: 16-bit floats are stored as E4M3FN bytes through two tables, which the
    scalar loop reads one entry at a time and the vector loops in blocks.  A finite [f32] is its value in
    units of 2^-149, the smallest subnormal, of which every [f32] is a multiple; an operation is the exact
    result rounded to 24 significant bits, to nearest with ties to even.  No value here comes near the
    largest [f32], so overflow does not arise.  The conversions of the [half] crate are parameters. *)
From S2P Require Import Prelude Slices State.

Local Open Scope Z_scope.

(** ** [f32] *)

Inductive F32 := Fin (negative : bool) (units : Z) | Inf (negative : bool) | NaN.

Definition ulp_bits : Z := 149.
Definition one : Z := 2 ^ ulp_bits.

(** The non-negative rational [n / d] rounded to nearest, ties to even: the unit in the last place is one
    unit up to 2^24 units and doubles with every binade above. *)
Definition round_units (n d : Z) : Z :=
  let step := 2 ^ Z.max 0 (Z.log2 (n / d) - 23) * d in
  let q := n / step in
  let r := n mod step in
  let up := if 2 * r <? step then false else if step <? 2 * r then true else Z.odd q in
  (if up then q + 1 else q) * (step / d).
Definition f32_of_int (z : Z) : Z := round_units (z * one) 1.
Definition f32_add (a b : Z) : Z := round_units (a + b) 1.
Definition f32_sub (a b : Z) : Z := round_units (a - b) 1.
Definition f32_mul (a b : Z) : Z := round_units (a * b) one.
Definition f32_div (a b : Z) : Z := round_units (a * one) b.
(** [2.0f32.powi(n)], a power of two. *)
Definition f32_powi2 (n : Z) : Z := 2 ^ (ulp_bits + n).

Definition f32_neg (f : F32) : F32 := match f with Fin s u => Fin (negb s) u | Inf s => Inf (negb s) | NaN => NaN end.
Definition f32_abs (f : F32) : F32 := match f with Fin _ u => Fin false u | Inf _ => Inf false | NaN => NaN end.

(** ** E4M3FN values *)

Definition value (bits : Z) : F32 :=
  let exponent := Z.land (Z.shiftr bits 3) 15 in
  let mantissa := Z.land bits 7 in
  let magnitude :=
    if exponent =? 0 then Fin false (f32_div (f32_of_int mantissa) (f32_of_int 512))
    else if (exponent =? 15) && (mantissa =? 7) then NaN
    else Fin false (f32_mul (f32_add (f32_of_int 1) (f32_div (f32_of_int mantissa) (f32_of_int 8))) (f32_powi2 (exponent - 7))) in
  if Z.land bits 128 =? 0 then magnitude else f32_neg magnitude.

(** The units of a finite value. *)
Definition units_of (f : F32) : Z := match f with Fin _ u => u | _ => 0 end.
Definition levels : list Z := (fun bits => units_of (value bits)) <$> seqZ 0 127.

(** ** Tables *)

Section Tables.
(** [half]: [bf16::from_bits(b).to_f32()] and [f16::from_bits(b).to_f32()], and [from_f32(f).to_bits()]. *)
Context (to_f32 : StorageFormat -> Z -> F32) (from_f32 : StorageFormat -> F32 -> Z).

(** An entry of the encode table: 256 declines the object. *)
Definition nearest (magnitude : Z) : Z :=
  let upper := partition_point (fun v => v <? magnitude) levels in
  let lower := Nat.pred upper in
  let down := f32_sub magnitude (nth lower levels 0) in
  let up := f32_sub (nth upper levels 0) magnitude in
  Z.of_nat (if (down <? up) || ((down =? up) && Nat.even lower) then lower else upper).
Definition encode_entry (format : StorageFormat) (bits : Z) : Z :=
  match f32_abs (to_f32 format bits) with
  | Fin _ magnitude =>
      if 448 * one <? magnitude then 256
      else Z.lor (nearest magnitude) (Z.land (Z.shiftr bits 8) 128)
  | _ => 256
  end.
Definition decode_entry (format : StorageFormat) (bits : Z) : Z := from_f32 format (value bits).

(** A table is the function of its index; it exists for the two quantized formats. *)
Record Tables := mkTables { t_encode : Z -> Z; t_decode : Z -> Z }.
Definition tables (format : StorageFormat) : option Tables :=
  match format with
  | Fp8FromBf16 | Fp8FromFp16 => Some (mkTables (encode_entry format) (decode_entry format))
  | _ => None
  end.

(** ** The loops *)

Inductive Backend := Scalar | Avx2 | Avx512.
Definition lanes (b : Backend) : nat := match b with Scalar => 1 | Avx2 => 8 | Avx512 => 16 end.

(** A lane of 32 bits narrowed: [packus] saturates, [cvtepi32] and [as] truncate. *)
Definition narrow (b : Backend) (bits v : Z) : Z :=
  match b with Avx2 => Z.max 0 (Z.min v (2 ^ bits - 1)) | _ => v mod 2 ^ bits end.

(** The little-endian 16-bit words of a byte string, and back. *)
Fixpoint words (l : bytes) : list Z :=
  match l with b0 :: b1 :: l => byte_val b0 + 256 * byte_val b1 :: words l | _ => [] end.
Definition word_bytes (v : Z) : bytes := [byte_of v; byte_of (v / 256)].
Definition store (i : nat) (l output : bytes) : bytes := take i output ++ l ++ drop (i + length l) output.

(** [blocks] passes of a loop that gathers a block of table entries, stops at one above 255, and stores the rest. *)
Fixpoint encode_blocks (b : Backend) (table : Z -> Z) (input : bytes) (i blocks : nat) (output : bytes) : bool * bytes :=
  match blocks with
  | O => (true, output)
  | S blocks =>
      let values := table <$> words (take (lanes b * 2) (drop (i * 2) input)) in
      if existsb (fun v => 255 <? v) values then (false, output)
      else encode_blocks b table input (i + lanes b) blocks (store i (byte_of <$> (narrow b 8 <$> values)) output)
  end.
Fixpoint decode_blocks (b : Backend) (table : Z -> Z) (input : bytes) (i blocks : nat) (output : bytes) : bytes :=
  match blocks with
  | O => output
  | S blocks =>
      let values := table <$> (byte_val <$> take (lanes b) (drop i input)) in
      decode_blocks b table input (i + lanes b) blocks (store (i * 2) ((narrow b 16 <$> values) ≫= word_bytes) output)
  end.

(** The vector loops, over the whole blocks. *)
Definition avx512_encode (table : Z -> Z) (input output : bytes) : bool * bytes := encode_blocks Avx512 table input 0 (length output / 16) output.
Definition avx512_decode (table : Z -> Z) (input output : bytes) : bytes := decode_blocks Avx512 table input 0 (length input / 16) output.
Definition avx2_encode (table : Z -> Z) (input output : bytes) : bool * bytes := encode_blocks Avx2 table input 0 (length output / 8) output.
Definition avx2_decode (table : Z -> Z) (input output : bytes) : bytes := decode_blocks Avx2 table input 0 (length input / 8) output.

(** Where the scalar loop starts. *)
Definition vector_end (b : Backend) (n : nat) : nat := match b with Scalar => 0 | Avx2 => n / 8 * 8 | Avx512 => n / 16 * 16 end.

(** The vector loop over whole blocks, then the scalar loop over what is left. *)
Definition encode_with_backend (format : StorageFormat) (input output : bytes) (b : Backend) : option (bool * bytes) :=
  if negb (bool_decide (checked_mul (zlen output) 2 = Some (zlen input))) then Some (false, output)
  else
    t ← tables format;
    let '(ok, out) := match b with
                      | Scalar => (true, output)
                      | Avx2 => avx2_encode (t_encode t) input output
                      | Avx512 => avx512_encode (t_encode t) input output
                      end in
    let start := vector_end b (length output) in
    if ok then Some (encode_blocks Scalar (t_encode t) input start (length output - start) out) else Some (false, out).
Definition decode_with_backend (format : StorageFormat) (input output : bytes) (b : Backend) : option (bool * bytes) :=
  if negb (bool_decide (checked_mul (zlen input) 2 = Some (zlen output))) then Some (false, output)
  else
    t ← tables format;
    let out := match b with
               | Scalar => output
               | Avx2 => avx2_decode (t_decode t) input output
               | Avx512 => avx512_decode (t_decode t) input output
               end in
    let start := vector_end b (length input) in
    Some (true, decode_blocks Scalar (t_decode t) input start (length input - start) out).

End Tables.
