(* ===== verification/Fp8Spec.v ===== *)
(** * FP8 quantization: the nearest level, exact re-encoding, and the backends

    What the tables of orbitkv-core/src/codec/cpu.rs hold, and that the vector loops compute what the
    scalar loop does. *)
From S2P Require Import Prelude Slices Words State Fp8.

Local Open Scope Z_scope.

(** ** Rounding *)

Lemma round_rational q k d : 0 <= k -> 0 <= q < 2 ^ 24 -> 0 < d -> round_units (q * 2 ^ k * d) d = q * 2 ^ k.
Proof.
  intros Hk Hq Hd. unfold round_units. rewrite Z.div_mul, Z.div_mul by lia. set (x := q * 2 ^ k). set (s := Z.max 0 (Z.log2 x - 23)).
  assert (0 < 2 ^ k) as Hpk by (apply Z.pow_pos_nonneg; lia). assert (0 < 2 ^ s) as Hps by (apply Z.pow_pos_nonneg; lia).
  assert (s <= k) as Hsk.
  { assert (Z.log2 x <= k + 23); [|lia]. destruct (decide (x = 0)) as [->|Hne]; [cbn; lia|]. assert (x < 2 ^ (k + 24)); [|apply Z.log2_lt_pow2 in H; nia].
    rewrite Z.pow_add_r by lia. subst x. nia. }
  assert (x * d = (q * 2 ^ (k - s)) * (2 ^ s * d)) as Hx.
  { subst x. replace (2 ^ k) with (2 ^ (k - s) * 2 ^ s) by (rewrite <- Z.pow_add_r by lia; f_equal; lia). ring. }
  rewrite Hx, Z.mod_mul, Z.div_mul by nia. change (2 * 0) with 0. rewrite (proj2 (Z.ltb_lt 0 (2 ^ s * d))) by nia.
  rewrite <- Z.mul_assoc, <- Z.pow_add_r by lia. by replace (k - s + s) with k by lia.
Qed.

Lemma round_exact q k : 0 <= k -> 0 <= q < 2 ^ 24 -> round_units (q * 2 ^ k) 1 = q * 2 ^ k.
Proof. intros Hk Hq. rewrite <- (Z.mul_1_r (q * 2 ^ k)) at 1. by apply round_rational. Qed.

Lemma round_at_least j x : 0 <= j -> 2 ^ j <= x -> 2 ^ j <= round_units x 1.
Proof.
  intros Hj Hx. unfold round_units. rewrite Z.div_1_r, Z.mul_1_r, Z.div_1_r. set (s := Z.max 0 (Z.log2 x - 23)).
  assert (0 < 2 ^ j) by (apply Z.pow_pos_nonneg; lia). assert (0 < 2 ^ s) as Hps by (apply Z.pow_pos_nonneg; lia).
  assert (2 ^ j <= x / 2 ^ s * 2 ^ s); [|destruct (if _ <? _ then _ else _); nia].
  destruct (decide (s <= j)) as [Hle|Hgt].
  - replace (2 ^ j) with (2 ^ (j - s) * 2 ^ s) by (rewrite <- Z.pow_add_r by lia; f_equal; lia).
    apply Z.mul_le_mono_nonneg_r; [lia|]. apply Z.div_le_lower_bound; [lia|]. rewrite Z.mul_comm, <- Z.pow_add_r by lia. by replace (j - s + s) with j by lia.
  - assert (2 ^ j <= 2 ^ s) by (apply Z.pow_le_mono_r; lia). assert (1 <= x / 2 ^ s); [|nia]. apply Z.div_le_lower_bound; [lia|].
    rewrite Z.mul_1_r. pose proof (Z.log2_spec x ltac:(lia)). assert (2 ^ s <= 2 ^ Z.log2 x) by (apply Z.pow_le_mono_r; lia). lia.
Qed.

(** ** The levels *)

(** The magnitude of a code in closed form: every operation of [value] is exact. *)
Definition magnitude (bits : Z) : Z :=
  let e := Z.land (Z.shiftr bits 3) 15 in
  let m := Z.land bits 7 in
  if e =? 0 then m * 2 ^ 140 else (8 + m) * 2 ^ (139 + e).

Lemma f32_of_small z : 0 <= z < 2 ^ 24 -> f32_of_int z = z * one.
Proof. intros. by apply round_exact. Qed.
Lemma f32_quotient m k : 0 <= m < 2 ^ 24 -> 0 <= k <= ulp_bits -> f32_div (m * one) (2 ^ k * one) = m * 2 ^ (ulp_bits - k).
Proof.
  intros Hm Hk. unfold f32_div. assert (0 < 2 ^ k) by (apply Z.pow_pos_nonneg; lia). rewrite <- (round_rational m (ulp_bits - k) (2 ^ k * one)) by (first [assumption|lia|apply Z.mul_pos_pos; [assumption|reflexivity]]). f_equal.
  transitivity (m * (2 ^ (ulp_bits - k) * 2 ^ k) * one); [|ring]. rewrite <- Z.pow_add_r by lia. by replace (ulp_bits - k + k) with ulp_bits by lia.
Qed.

Lemma magnitude_spec bits :
  0 <= bits -> negb ((Z.land (Z.shiftr bits 3) 15 =? 15) && (Z.land bits 7 =? 7)) = true ->
  value bits = Fin (negb (Z.land bits 128 =? 0)) (magnitude bits).
Proof.
  intros Hb Hn. unfold value, magnitude. set (e := Z.land (Z.shiftr bits 3) 15) in *. set (m := Z.land bits 7) in *.
  assert (0 <= m < 8) as Hm by (subst m; change 7 with (Z.ones 3); rewrite Z.land_ones by lia; apply Z.mod_pos_bound; reflexivity).
  assert (0 <= e < 16) as He by (subst e; change 15 with (Z.ones 4); rewrite Z.land_ones by lia; apply Z.mod_pos_bound; reflexivity).
  assert (forall z, 0 <= z < 1024 -> 0 <= z < 2 ^ 24) as Hsm by (change (2 ^ 24) with 16777216; intros; lia).
  rewrite (f32_of_small m), (f32_of_small 512), (f32_of_small 8), (f32_of_small 1) by (apply Hsm; lia).
  change (512 * one) with (2 ^ 9 * one). change (8 * one) with (2 ^ 3 * one). rewrite !f32_quotient by (first [apply Hsm; lia|unfold ulp_bits; lia]).
  destruct (Z.eqb_spec e 0) as [He0|He0].
  - by destruct (Z.land bits 128 =? 0).
  - apply negb_true_iff in Hn. rewrite Hn.
    assert (f32_add (1 * one) (m * 2 ^ (ulp_bits - 3)) = (8 + m) * 2 ^ 146) as ->.
    { unfold f32_add. replace (1 * one + m * 2 ^ (ulp_bits - 3)) with ((8 + m) * 2 ^ 146) by (unfold one, ulp_bits; change (149 - 3) with 146; change (2 ^ 149) with (8 * 2 ^ 146); lia).
      apply round_exact; [lia|]. apply Hsm. lia. }
    assert (f32_mul ((8 + m) * 2 ^ 146) (f32_powi2 (e - 7)) = (8 + m) * 2 ^ (139 + e)) as ->; [|by destruct (Z.land bits 128 =? 0)].
    unfold f32_mul, f32_powi2. rewrite <- (round_rational (8 + m) (139 + e) one); [|lia|apply Hsm; lia|reflexivity]. f_equal.
    unfold one, ulp_bits. rewrite <- !Z.mul_assoc, <- !Z.pow_add_r by lia. do 2 f_equal. lia.
Qed.

Definition level (i : nat) : Z := magnitude (Z.of_nat i).

(** From one level to the next: a power of two, 2^140 units up to the eighth level and at most an eighth of the level above it. *)
Definition gap (i : nat) : Z := Z.log2 (level (S i) - level i).
Definition levels_check : bool :=
  forallb (fun i => (level (S i) - level i =? 2 ^ gap i) && (140 <=? gap i) && (level i mod 2 ^ gap i =? 0) && (if (i <? 8)%nat then gap i =? 140 else 2 ^ (gap i + 3) <=? level i)) (seq 0 126).
Lemma levels_checked : levels_check = true.
Proof. vm_compute. reflexivity. Qed.

Lemma levels_length : length levels = 127%nat.
Proof. unfold levels. by rewrite length_fmap, length_seqZ. Qed.
Lemma level_facts : level 0 = 0 /\ level 1 = 2 ^ 140 /\ level 126 = 448 * one.
Proof. split_and!; vm_compute; reflexivity. Qed.
(** The codes of a level, one for each sign. *)
Definition code (negative : bool) (i : nat) : Z := Z.of_nat i + if negative then 128 else 0.
Definition code_ok (s : bool) (i : nat) : bool :=
  negb ((Z.land (Z.shiftr (code s i) 3) 15 =? 15) && (Z.land (code s i) 7 =? 7)) && (magnitude (code s i) =? level i)
  && Bool.eqb s (negb (Z.land (code s i) 128 =? 0)) && (Z.lor (Z.of_nat i) (if s then 128 else 0) =? code s i).
Lemma codes_checked : forallb (fun i => code_ok false i && code_ok true i) (seq 0 127) = true.
Proof. vm_compute. reflexivity. Qed.
Lemma code_checked s i : (i < 127)%nat -> code_ok s i = true.
Proof.
  intros Hi. pose proof (proj1 (forallb_forall _ _) codes_checked i) as H. cbv beta in H. apply andb_prop in H as [H1 H2]; [by destruct s|apply in_seq; lia].
Qed.
Lemma code_facts s i : (i < 127)%nat -> value (code s i) = Fin s (level i) /\ Z.lor (Z.of_nat i) (if s then 128 else 0) = code s i.
Proof.
  intros Hi. pose proof (code_checked s i Hi) as H. unfold code_ok in H. apply andb_prop in H as [[[H1 H2]%andb_prop H3]%andb_prop H4].
  apply Z.eqb_eq in H2, H4. apply Bool.eqb_prop in H3. split; [|exact H4]. rewrite magnitude_spec; [by rewrite H2, <- H3|unfold code; destruct s; lia|exact H1].
Qed.

Lemma nth_level i : (i < 127)%nat -> nth i levels 0 = level i.
Proof.
  intros Hi. unfold levels. rewrite (nth_lookup _ i 0). rewrite list_lookup_fmap, lookup_seqZ_lt, Z.add_0_l by lia. cbn [fmap option_fmap option_map default].
  destruct (code_facts false i Hi) as [H _]. unfold code in H. rewrite Z.add_0_r in H. by rewrite H.
Qed.
#[local] Opaque level gap levels.

Lemma level_step i : (i < 126)%nat ->
  level (S i) = level i + 2 ^ gap i /\ 140 <= gap i /\ level i mod 2 ^ gap i = 0 /\ (if (i <? 8)%nat then gap i = 140 else 2 ^ (gap i + 3) <= level i).
Proof.
  intros Hi. pose proof levels_checked as H. unfold levels_check in H. rewrite forallb_forall in H.
  specialize (H i ltac:(apply in_seq; lia)). apply andb_prop in H as [[[H1%Z.eqb_eq H2%Z.leb_le]%andb_prop H3%Z.eqb_eq]%andb_prop H4].
  split_and!; [lia|done|done|]. destruct (i <? 8)%nat; [by apply Z.eqb_eq|by apply Z.leb_le].
Qed.

Lemma level_lt i j : (i < j < 127)%nat -> level i < level j.
Proof.
  intros [Hij Hj]. induction Hij as [|j Hij IH].
  - destruct (level_step i ltac:(lia)) as (-> & Hg & _). assert (0 < 2 ^ gap i) by (apply Z.pow_pos_nonneg; lia). lia.
  - specialize (IH ltac:(lia)). destruct (level_step j ltac:(lia)) as (-> & Hg & _). assert (0 < 2 ^ gap j) by (apply Z.pow_pos_nonneg; lia). lia.
Qed.

Lemma levels_lookup j v : levels !! j = Some v -> (j < 127)%nat /\ v = level j.
Proof.
  intros Hj. pose proof (lookup_lt_Some _ _ _ Hj) as Hlt. rewrite levels_length in Hlt. split; [done|]. rewrite <- nth_level by done. symmetry. by apply nth_lookup_Some.
Qed.

(** Where the search for a magnitude ends: the levels below it come first. *)
Lemma search_spec x (u := partition_point (fun v => v <? x) levels) :
  (u <= 127)%nat /\ (forall i, (i < u)%nat -> level i < x) /\ ((u < 127)%nat -> x <= level u).
Proof.
  destruct (partition_point_spec (fun v => v <? x) levels) as [Hle Hp].
  { intros i j a b Hij Ha Hb. apply levels_lookup in Ha as [_ ->], Hb as [Hb ->]. rewrite !Z.ltb_lt. pose proof (level_lt i j ltac:(lia)). lia. }
  fold u in Hle, Hp. rewrite levels_length in Hle.
  assert (forall i, (i < 127)%nat -> level i < x <-> (i < u)%nat) as Hi.
  { intros i Hi. destruct (lookup_lt_is_Some_2 levels i) as [v Hv]; [by rewrite levels_length|]. rewrite <- (Hp i v Hv), Z.ltb_lt. by apply levels_lookup in Hv as [_ ->]. }
  split_and!; [done| |].
  - intros i Hu. apply Hi; lia.
  - intros Hu. specialize (Hi u Hu). lia.
Qed.

(** ** The nearest level *)

(** A value of at most eleven significant bits, as 16-bit floats have. *)
Definition short (x : Z) : Prop := exists s k, 0 <= k /\ 0 <= s < 2 ^ 11 /\ x = s * 2 ^ k.

(** Between two levels, the differences that decide are exact, or the value is so small that the lower one is nearer even after rounding. *)
Lemma differences i x :
  (i < 126)%nat -> short x -> level i < x <= level (S i) ->
  f32_sub x (level i) = x - level i /\
  (f32_sub (level (S i)) x = level (S i) - x \/ i = O /\ x < 2 ^ 139 /\ 2 ^ 139 <= f32_sub (level (S i)) x).
Proof.
  intros Hi (s & k & Hk & Hs & ->) Hx. destruct (level_step i Hi) as (Hst & Hg & Hm & Hsz). set (x := s * 2 ^ k) in *. unfold f32_sub.
  assert (0 < 2 ^ k) by (apply Z.pow_pos_nonneg; lia).
  assert (forall j, 0 <= j -> 2 ^ j <= x -> j - 10 <= k) as Hbig.
  { intros j Hj Hle. destruct (decide (j - 10 <= k)) as [|Hn]; [done|]. assert (2 ^ (k + 11) <= 2 ^ j) by (apply Z.pow_le_mono_r; lia).
    rewrite Z.pow_add_r in H0 by lia. subst x. nia. }
  destruct (decide (x < 2 ^ 139)) as [Hsmall|Hlarge].
  - assert (i = O) as ->. { destruct i; [done|]. destruct level_facts as (_ & L1 & _). assert (level 1 <= level (S i)) by (destruct i; [lia|apply Z.lt_le_incl, level_lt; lia]). lia. }
    destruct level_facts as (L0 & L1 & _). rewrite L0, Z.sub_0_r, L1. split; [apply round_exact; lia|]. right. split_and!; [done|done|]. apply round_at_least; lia.
  - assert (gap i - 12 <= k) as Hgk.
    { destruct (i <? 8)%nat; [assert (139 - 10 <= k) by (apply Hbig; lia); lia|]. assert (gap i + 3 - 10 <= k) by (apply Hbig; lia). lia. }
    set (h := gap i - 12) in *. assert (2 ^ gap i = 2 ^ 12 * 2 ^ h) as Hgap by (rewrite <- Z.pow_add_r by lia; f_equal; lia).
    assert (x = s * 2 ^ (k - h) * 2 ^ h) as Ha by (rewrite <- Z.mul_assoc, <- Z.pow_add_r by lia; by replace (k - h + h) with k by lia).
    assert (level i = level i / 2 ^ gap i * 2 ^ 12 * 2 ^ h) as Hb by (rewrite <- Z.mul_assoc, <- Hgap; pose proof (Z.div_mod (level i) (2 ^ gap i)); lia).
    revert Ha Hb. generalize (s * 2 ^ (k - h)) (level i / 2 ^ gap i * 2 ^ 12). intros a b Ha Hb. assert (0 < 2 ^ h) by (apply Z.pow_pos_nonneg; lia).
    rewrite Hst, Hgap, Hb, Ha in *. rewrite <- Z.mul_sub_distr_r, <- Z.mul_add_distr_r, <- Z.mul_sub_distr_r.
    split; [|left]; apply round_exact; try lia; nia.
Qed.

Definition distance (x : Z) (i : nat) : Z := Z.abs (x - level i).
(** No other level is nearer, and one as near only when the chosen code is even. *)
Definition nearest_even (x : Z) (i : nat) : Prop :=
  (i < 127)%nat /\ forall j, (j < 127)%nat -> distance x i <= distance x j /\ (j <> i -> distance x j = distance x i -> Nat.even i = true).

Lemma bracketed i x j : (i < 126)%nat -> (j < 127)%nat -> level i < x <= level (S i) ->
  (j = i /\ distance x j = x - level i) \/ (j = S i /\ distance x j = level (S i) - x) \/
  (x - level i < distance x j /\ (j < i)%nat) \/ (level (S i) - x < distance x j /\ (S i < j)%nat).
Proof.
  intros Hi Hj Hx. unfold distance. destruct (Nat.lt_trichotomy j i) as [Hlt|[->|Hgt]].
  - right. right. left. pose proof (level_lt j i ltac:(lia)). split; lia.
  - left. split; lia.
  - destruct (decide (j = S i)) as [->|Hne]; [right; left; split; lia|]. right. right. right. pose proof (level_lt (S i) j ltac:(lia)). split; lia.
Qed.

Lemma even_flip i : Nat.even i = false -> Nat.even (S i) = true.
Proof. rewrite Nat.even_succ, <- Nat.negb_even. by intros ->. Qed.

Lemma nearest_spec x : 0 <= x <= 448 * one -> short x -> exists i, nearest x = Z.of_nat i /\ nearest_even x i.
Proof.
  intros Hx Hs. unfold nearest. set (u := partition_point (fun v => v <? x) levels).
  destruct (search_spec x) as (Hu1 & Hu2 & Hu3). fold u in Hu1, Hu2, Hu3. destruct level_facts as (L0 & L1 & L126).
  assert (u < 127)%nat as Hu by (destruct (decide (u = 127%nat)) as [Hu|]; [specialize (Hu2 126%nat ltac:(lia))|]; lia).
  specialize (Hu3 Hu). rewrite !nth_level by lia. destruct u as [|i] eqn:Eu; cbn [Nat.pred].
  - assert (x = 0) as -> by lia. rewrite L0. cbn. exists O. split; [done|]. split; [lia|]. intros j Hj.
    unfold distance. rewrite L0. destruct j as [|j]; [split; [lia|done]|]. pose proof (level_lt 0 (S j) ltac:(lia)). split; lia.
  - specialize (Hu2 i ltac:(lia)).
    destruct (differences i x ltac:(lia) Hs ltac:(lia)) as [Hd Hup]. rewrite Hd.
    eexists. split; [reflexivity|].
    assert (forall j, (j < 127)%nat -> (j = i /\ distance x j = x - level i) \/ (j = S i /\ distance x j = level (S i) - x) \/
      (x - level i < distance x j /\ (j < i)%nat) \/ (level (S i) - x < distance x j /\ (S i < j)%nat)) as Hb by (intros j Hj; apply bracketed; lia).
    assert (distance x i = x - level i) as Hdi by (unfold distance; lia). assert (distance x (S i) = level (S i) - x) as Hdu by (unfold distance; lia).
    destruct Hup as [->|(-> & Hsm & Hbg)].
    + destruct (Z.ltb_spec (x - level i) (level (S i) - x)); cbn [orb]; [|destruct (Z.eqb_spec (x - level i) (level (S i) - x)); cbn [andb]; [destruct (Nat.even i) eqn:Ev|]].
      1-2: split; [lia|]; intros j Hj; destruct (Hb j Hj) as [[-> ?]|[[-> ?]|[[? ?]|[? ?]]]]; split; first [lia|intros; lia|intros; assumption].
      all: split; [lia|]; intros j Hj; destruct (Hb j Hj) as [[-> ?]|[[-> ?]|[[? ?]|[? ?]]]]; split; first [lia|intros; lia|intros; by apply even_flip].
    + rewrite L0 in *. rewrite (proj2 (Z.ltb_lt (x - 0) (f32_sub (level 1) x))) by lia. cbn [orb].
      split; [lia|]; intros j Hj; destruct (Hb j Hj) as [[-> ?]|[[-> ?]|[[? ?]|[? ?]]]]; split; first [lia|intros; lia|intros; assumption].
Qed.

(** ** 16-bit floats *)

(** The width of the mantissa and of the exponent, and the power of two, in units, that a mantissa counts at exponent zero. *)
Definition half_format (format : StorageFormat) : option (Z * Z * Z) :=
  match format with Fp8FromBf16 => Some (7, 8, 15) | Fp8FromFp16 => Some (10, 5, 124) | _ => None end.

(** The IEEE 754 value of the bits. *)
Definition half_value (w : Z * Z * Z) (bits : Z) : F32 :=
  let '(mbits, ebits, scale) := w in
  let negative := Z.testbit bits 15 in
  let e := (bits / 2 ^ mbits) mod 2 ^ ebits in
  let m := bits mod 2 ^ mbits in
  if e =? 2 ^ ebits - 1 then if m =? 0 then Inf negative else NaN
  else Fin negative (if e =? 0 then m * 2 ^ (scale + 1) else (2 ^ mbits + m) * 2 ^ (scale + e)).

Lemma half_short format w bits s x : half_format format = Some w -> half_value w bits = Fin s x -> 0 <= x /\ short x /\ s = Z.testbit bits 15.
Proof.
  intros Hw Hv. assert (exists mbits ebits scale, w = (mbits, ebits, scale) /\ 0 <= mbits <= 10 /\ 0 <= ebits /\ 0 <= scale) as (mb & eb & sc & -> & Hm & He & Hsc).
  { destruct format; try done; injection Hw as <-; by do 3 eexists. }
  cbn in Hv. destruct (_ =? 2 ^ eb - 1); [by destruct (_ =? 0)|]. injection Hv as <- <-.
  assert (0 < 2 ^ mb) as Hp by (apply Z.pow_pos_nonneg; lia). pose proof (Z.mod_pos_bound bits (2 ^ mb) Hp) as Hmod.
  assert (2 ^ mb <= 2 ^ 10) as Hle by (apply Z.pow_le_mono_r; lia). change (2 ^ 10) with 1024 in Hle.
  set (e := (bits / 2 ^ mb) mod 2 ^ eb). assert (0 <= e) by (apply Z.mod_pos_bound, Z.pow_pos_nonneg; lia).
  split_and!; [|exists (if e =? 0 then bits mod 2 ^ mb else 2 ^ mb + bits mod 2 ^ mb), (if e =? 0 then sc + 1 else sc + e)|done].
  - destruct (e =? 0); apply Z.mul_nonneg_nonneg; try lia; apply Z.pow_nonneg; lia.
  - change (2 ^ 11) with 2048. destruct (e =? 0); split_and!; try lia; done.
Qed.

Lemma sign_bit bits : Z.land (Z.shiftr bits 8) 128 = if Z.testbit bits 15 then 128 else 0.
Proof.
  change 128 with (2 ^ 7). apply Z.bits_inj'. intros n Hn. rewrite Z.land_spec, Z.shiftr_spec, Z.pow2_bits_eqb by lia.
  destruct (Z.eqb_spec 7 n) as [<-|Hne]; [rewrite andb_true_r; change (7 + 8) with 15; by destruct (Z.testbit bits 15)|].
  rewrite andb_false_r. destruct (Z.testbit bits 15); [|by rewrite Z.testbit_0_l]. symmetry. rewrite Z.pow2_bits_eqb by lia. by apply Z.eqb_neq.
Qed.

(** ** Buffers *)

Lemma words_take k l : words (take (k * 2) l) = take k (words l).
Proof. revert l. induction k as [|k IH]; intros l; [done|]. destruct l as [|b0 [|b1 l]]; cbn; [done..|]. f_equal. apply IH. Qed.
Lemma words_drop k l : words (drop (k * 2) l) = drop k (words l).
Proof.
  revert l. induction k as [|k IH]; intros l; [done|]. destruct l as [|b0 [|b1 l]]; cbn; [done|by destruct k|apply IH].
Qed.
Lemma words_length n l : length l = (n * 2)%nat -> length (words l) = n.
Proof. revert l. induction n as [|n IH]; intros [|b0 [|b1 l]] H; cbn in *; try done; try lia. f_equal. apply IH. lia. Qed.
Lemma words_of ws : Forall (fun v => 0 <= v < 65536) ws -> words (ws ≫= word_bytes) = ws.
Proof.
  induction 1 as [|v ws Hv _ IH]; [done|]. rewrite bind_cons. cbn [word_bytes app words]. rewrite IH, !byte_val_mod. f_equal.
  pose proof (Z.div_mod v 256). rewrite (Z.mod_small (v / 256)) by (split; [apply Z.div_pos; lia|apply Z.div_lt_upper_bound; lia]). lia.
Qed.

Lemma store_length i l out : (i + length l <= length out)%nat -> length (store i l out) = length out.
Proof. intros H. unfold store. rewrite !length_app, length_take, length_drop. lia. Qed.
Lemma store_store i l l' out :
  (i + length l + length l' <= length out)%nat -> store (i + length l) l' (store i l out) = store i (l ++ l') out.
Proof.
  intros H. unfold store. rewrite length_app. rewrite take_app_ge by (rewrite length_take; lia). rewrite length_take_le by lia.
  replace (i + length l - i)%nat with (length l) by lia. rewrite take_app_length. rewrite drop_app_ge by (rewrite length_take; lia). rewrite length_take_le by lia.
  rewrite drop_app_ge by lia. rewrite drop_drop, <- !app_assoc. do 4 f_equal. lia.
Qed.
Lemma store_all l out : length l = length out -> store 0 l out = l.
Proof. intros H. unfold store. rewrite drop_ge by lia. cbn. by rewrite app_nil_r. Qed.

Lemma narrow_small b bits v : 0 <= v < 2 ^ bits -> narrow b bits v = v.
Proof. intros Hv. destruct b; cbn; [by apply Z.mod_small|lia|by apply Z.mod_small]. Qed.

Lemma narrow_map b bits vs : Forall (fun v => 0 <= v < 2 ^ bits) vs -> narrow b bits <$> vs = vs.
Proof. induction 1 as [|v vs Hv _ IH]; [done|]. rewrite fmap_cons, IH. f_equal. by apply narrow_small. Qed.

Lemma take_more {A} (l : list A) i n m : take (n + m) (drop i l) = take n (drop i l) ++ take m (drop (i + n) l).
Proof. rewrite <- (drop_drop l n i). generalize (drop i l). intros k. rewrite <- (take_drop n k) at 1. destruct (decide (n <= length k)%nat).
  - rewrite take_app_ge by (rewrite length_take; lia). rewrite length_take_le by lia. by replace (n + m - n)%nat with m by lia.
  - rewrite (drop_ge k n), app_nil_r, take_take by lia. rewrite take_nil, app_nil_r. f_equal. lia.
Qed.

(** [ok] and the buffer after [blocks] passes from [i]: every entry fits, and then the entries are stored. *)
Definition fits (vs : list Z) : bool := forallb (fun v => v <=? 255) vs.

Lemma fits_exists vs : existsb (fun v => 255 <? v) vs = negb (fits vs).
Proof. unfold fits. induction vs as [|v vs IH]; [done|]. cbn. rewrite IH, negb_andb, Z.ltb_antisym. done. Qed.

Lemma fits_app l k : fits (l ++ k) = fits l && fits k.
Proof. apply forallb_app. Qed.

Lemma encode_blocks_spec b table input i blocks output :
  (forall v, 0 <= table v) -> length input = (length output * 2)%nat -> (i + lanes b * blocks <= length output)%nat ->
  let vs := take (lanes b * blocks) (drop i (table <$> words input)) in
  (encode_blocks b table input i blocks output).1 = fits vs /\
  (fits vs = true -> (encode_blocks b table input i blocks output).2 = store i (byte_of <$> vs) output).
Proof.
  intros Ht. revert i output. induction blocks as [|blocks IH]; intros i output Hlen Hi; cbv zeta in *; cbn [encode_blocks].
  - rewrite Nat.mul_0_r, take_0. cbn. split; [done|]. intros _. unfold store. cbn. by rewrite Nat.add_0_r, take_drop.
  - rewrite words_take, words_drop, fmap_take, fmap_drop, fits_exists. rewrite (Nat.mul_succ_r (lanes b) blocks), (Nat.add_comm (lanes b * blocks) (lanes b)), take_more. set (W := table <$> words input) in *.
    assert (length W = length output) as HW by (subst W; rewrite length_fmap; by apply words_length).
    set (vs := take (lanes b) (drop i W)). assert (length vs = lanes b) as Hvs by (subst vs; rewrite length_take, length_drop; lia).
    rewrite fits_app. destruct (fits vs) eqn:Ef; cbn [negb andb]; [|done].
    assert (byte_of <$> (narrow b 8 <$> vs) = byte_of <$> vs) as ->.
    { f_equal. apply narrow_map, Forall_forall. intros v Hv. unfold fits in Ef. rewrite forallb_forall in Ef. specialize (Ef v ltac:(by apply list_elem_of_In)).
      apply Z.leb_le in Ef. change (2 ^ 8) with 256. split; [|lia]. subst vs W. apply elem_of_take in Hv as (k & Hv & _). rewrite lookup_drop in Hv.
      apply list_elem_of_lookup_2, list_elem_of_fmap in Hv as (? & -> & _). apply Ht. }
    specialize (IH (i + lanes b)%nat (store i (byte_of <$> vs) output)). rewrite store_length in IH by (rewrite length_fmap; lia).
    destruct (IH Hlen ltac:(lia)) as [IH1 IH2]. rewrite IH1. split; [done|]. intros Hf. rewrite (IH2 Hf).
    rewrite <- (length_fmap byte_of vs) in Hvs. rewrite <- Hvs at 1. rewrite fmap_app. apply store_store.
    rewrite Hvs, length_fmap, length_take, length_drop. lia.
Qed.

Lemma word_bytes_length vs : length (vs ≫= word_bytes) = (length vs * 2)%nat.
Proof. induction vs as [|v vs IH]; [done|]. rewrite bind_cons, length_app, IH. cbn. lia. Qed.

Lemma decode_blocks_spec b table input i blocks output :
  (forall v, 0 <= table v < 65536) -> length output = (length input * 2)%nat -> (i + lanes b * blocks <= length input)%nat ->
  decode_blocks b table input i blocks output
  = store (i * 2) (take (lanes b * blocks) (drop i (table <$> (byte_val <$> input))) ≫= word_bytes) output.
Proof.
  intros Ht. revert i output. induction blocks as [|blocks IH]; intros i output Hlen Hi; cbn [decode_blocks].
  - rewrite Nat.mul_0_r, take_0. unfold store. cbn. by rewrite Nat.add_0_r, take_drop.
  - rewrite (Nat.mul_succ_r (lanes b) blocks), (Nat.add_comm (lanes b * blocks) (lanes b)), take_more. rewrite !fmap_take, !fmap_drop. set (W := table <$> (byte_val <$> input)) in *.
    assert (length W = length input) as HW by (subst W; by rewrite !length_fmap).
    set (vs := take (lanes b) (drop i W)). assert (length vs = lanes b) as Hvs by (subst vs; rewrite length_take, length_drop; lia).
    rewrite narrow_map.
    2: { apply Forall_forall. intros v Hv. subst W. apply list_elem_of_fmap in Hv as (? & -> & _). apply Ht. }
    fold vs. pose proof (word_bytes_length vs) as Hwl. rewrite IH by (rewrite ?store_length; lia). rewrite bind_app.
    replace ((i + lanes b) * 2)%nat with (i * 2 + length (vs ≫= word_bytes))%nat by lia. apply store_store.
    rewrite Hwl, word_bytes_length, length_take, length_drop. lia.
Qed.

(** What every backend computes: the entries one after the other. *)
Section Loops.
Context (to_f32 : StorageFormat -> Z -> F32) (from_f32 : StorageFormat -> F32 -> Z).

Lemma encode_entry_nonneg format bits : 0 <= encode_entry to_f32 format bits.
Proof.
  unfold encode_entry. destruct (f32_abs _) as [s m| |]; [|lia..]. destruct (_ <? m); [lia|]. apply Z.lor_nonneg. split; [unfold nearest; lia|].
  apply Z.land_nonneg. lia.
Qed.

Lemma tables_quantized format w : half_format format = Some w -> tables to_f32 from_f32 format = Some (mkTables (encode_entry to_f32 format) (decode_entry from_f32 format)).
Proof. by destruct format. Qed.

(** The vector loops as [blocks] passes of the common loop. *)
Definition vector_blocks (b : Backend) (n : nat) : nat := match b with Scalar => 0 | Avx2 => n / 8 | Avx512 => n / 16 end.
Lemma vector_end_blocks b n : vector_end b n = (vector_blocks b n * lanes b)%nat /\ (vector_blocks b n * lanes b <= n)%nat.
Proof. split; [by destruct b|]. destruct b; cbn [vector_blocks lanes]; [lia|rewrite Nat.mul_comm; apply Nat.Div0.mul_div_le..]. Qed.
Lemma vector_encode b table input output :
  match b with Scalar => (true, output) | Avx2 => avx2_encode table input output | Avx512 => avx512_encode table input output end
  = encode_blocks b table input 0 (vector_blocks b (length output)) output.
Proof. by destruct b. Qed.
Lemma vector_decode b table input output :
  match b with Scalar => output | Avx2 => avx2_decode table input output | Avx512 => avx512_decode table input output end
  = decode_blocks b table input 0 (vector_blocks b (length input)) output.
Proof. by destruct b. Qed.

Lemma encode_reference format w input output b :
  half_format format = Some w -> checked_mul (zlen output) 2 = Some (zlen input) ->
  let vs := encode_entry to_f32 format <$> words input in
  exists out, encode_with_backend to_f32 from_f32 format input output b = Some (fits vs, out) /\ (fits vs = true -> out = byte_of <$> vs).
Proof.
  intros Hw Hlen vs. unfold encode_with_backend. rewrite bool_decide_true by done. cbn [negb]. rewrite (tables_quantized format w Hw). cbn [mbind option_bind t_encode].
  rewrite vector_encode. destruct (vector_end_blocks b (length output)) as [-> Hn]. set (n := vector_blocks b (length output)) in *.
  assert (length input = (length output * 2)%nat) as Hl by (unfold checked_mul, zlen in Hlen; destruct (_ <=? _); [injection Hlen; lia|done]).
  assert (length vs = length output) as Hvs by (subst vs; rewrite length_fmap; by apply words_length).
  destruct (encode_blocks_spec b (encode_entry to_f32 format) input 0 n output (encode_entry_nonneg format) Hl ltac:(lia)) as [H1 H2]. fold vs in H1, H2. rewrite drop_0 in H1, H2.
  destruct (encode_blocks b _ input 0 n output) as [ok out]. cbn [fst snd] in *. subst ok.
  assert (fits vs = fits (take (lanes b * n) vs) && fits (drop (lanes b * n) vs)) as Hf by (by rewrite <- fits_app, take_drop).
  destruct (fits (take _ vs)) eqn:Ef; cbn [andb] in Hf; [|exists out; split; [by rewrite Hf|by rewrite Hf]]. specialize (H2 eq_refl).
  assert (length out = length output) as Ho by (rewrite H2; apply store_length; rewrite length_fmap, length_take; lia).
  destruct (encode_blocks_spec Scalar (encode_entry to_f32 format) input (n * lanes b) (length output - n * lanes b) out (encode_entry_nonneg format)) as [H3 H4];
    [lia|cbn [lanes]; lia|]. fold vs in H3, H4. rewrite take_ge in H3, H4 by (rewrite length_drop; cbn [lanes]; lia).
  rewrite (Nat.mul_comm n) in *. rewrite <- Hf in H3, H4. destruct (encode_blocks Scalar _ _ _ _ out) as [ok' out']. cbn [fst snd] in *. subst ok'. exists out'. split; [done|].
  intros Hfit. rewrite (H4 Hfit), H2. rewrite <- (take_drop (lanes b * n) vs) at 3. rewrite fmap_app, <- (store_all (_ ++ _) output).
  - rewrite <- store_store; [|rewrite !length_fmap, length_take, length_drop; lia]. f_equal. cbn. rewrite length_fmap, length_take. lia.
  - rewrite length_app, !length_fmap, length_take, length_drop. lia.
Qed.

Context (half_bits : forall format f, 0 <= from_f32 format f < 65536).
Lemma decode_reference format w input output b :
  half_format format = Some w -> checked_mul (zlen input) 2 = Some (zlen output) ->
  decode_with_backend to_f32 from_f32 format input output b = Some (true, (decode_entry from_f32 format <$> (byte_val <$> input)) ≫= word_bytes).
Proof.
  intros Hw Hlen. unfold decode_with_backend. rewrite bool_decide_true by done. cbn [negb]. rewrite (tables_quantized format w Hw). cbn [mbind option_bind t_decode].
  rewrite vector_decode. destruct (vector_end_blocks b (length input)) as [-> Hn]. set (n := vector_blocks b (length input)) in *.
  assert (length output = (length input * 2)%nat) as Hl by (unfold checked_mul, zlen in Hlen; destruct (_ <=? _); [injection Hlen; lia|done]).
  set (vs := decode_entry from_f32 format <$> (byte_val <$> input)). assert (length vs = length input) as Hvs by (subst vs; by rewrite !length_fmap).
  rewrite (decode_blocks_spec b) by (first [lia|intros; apply half_bits]). fold vs. rewrite drop_0.
  pose proof (word_bytes_length (take (lanes b * n) vs)) as Hwl. rewrite length_take, Hvs in Hwl.
  rewrite (decode_blocks_spec Scalar) by (first [rewrite ?store_length; cbn [lanes]; lia|intros; apply half_bits]). fold vs.
  rewrite take_ge by (rewrite length_drop; cbn [lanes]; lia). do 2 f_equal.
  transitivity (store 0 ((take (lanes b * n) vs ≫= word_bytes) ++ (drop (lanes b * n) vs ≫= word_bytes)) output).
  - rewrite <- store_store; [|rewrite !word_bytes_length, length_take, length_drop; lia]. rewrite (Nat.mul_comm n). f_equal. lia.
  - rewrite <- bind_app, take_drop. apply store_all. rewrite word_bytes_length. lia.
Qed.
End Loops.

Section Entries.
Context (to_f32 : StorageFormat -> Z -> F32) (from_f32 : StorageFormat -> F32 -> Z).
(** [half] converts to [f32] without loss. *)
Context (widens : forall format w bits, half_format format = Some w -> 0 <= bits < 65536 -> to_f32 format bits = half_value w bits).

Lemma entry_spec format w bits :
  half_format format = Some w -> 0 <= bits < 65536 ->
  match half_value w bits with
  | Fin s x =>
      if x <=? 448 * one then exists i, encode_entry to_f32 format bits = code s i /\ nearest_even x i
      else encode_entry to_f32 format bits = 256
  | _ => encode_entry to_f32 format bits = 256
  end.
Proof.
  intros Hw Hb. unfold encode_entry. rewrite (widens format w bits Hw Hb). destruct (half_value w bits) as [s x| |] eqn:Ev; cbn [f32_abs]; [|done..].
  destruct (half_short format w bits s x Hw Ev) as (Hx & Hsh & ->). rewrite Z.ltb_antisym. destruct (Z.leb_spec x (448 * one)); cbn [negb]; [|done].
  destruct (nearest_spec x ltac:(lia) Hsh) as (i & -> & Hn). exists i. split; [|done]. rewrite sign_bit. apply code_facts, Hn.
Qed.
End Entries.

(** ** A concrete conversion

    The bits of a value that a 16-bit format represents. *)
Definition half_pattern (w : Z * Z * Z) (negative : bool) (x : Z) : Z :=
  let '(mbits, ebits, scale) := w in
  let e := Z.log2 x - mbits - scale in
  (if negative then 32768 else 0) + (if (x =? 0) || (e <? 1) then x / 2 ^ (scale + 1) else e * 2 ^ mbits + (x / 2 ^ (scale + e) - 2 ^ mbits)).

Lemma pattern_half format w bits s x :
  half_format format = Some w -> 0 <= bits < 65536 -> half_value w bits = Fin s x -> half_pattern w s x = bits.
Proof.
  intros Hw Hb Hv. assert (exists mb eb sc, w = (mb, eb, sc) /\ 0 <= mb /\ 0 <= eb /\ mb + eb = 15 /\ 0 <= sc) as (mb & eb & sc & -> & Hm & He & Hme & Hsc).
  { destruct format; try done; injection Hw as <-; by do 3 eexists. }
  assert (0 < 2 ^ mb /\ 0 < 2 ^ eb /\ 2 ^ mb * 2 ^ eb = 32768) as (Hpm & Hpe & Hpp).
  { split_and!; [apply Z.pow_pos_nonneg; lia..|]. rewrite <- Z.pow_add_r by lia. by rewrite Hme. }
  pose proof (Z.testbit_spec' bits 15 ltac:(lia)) as Hsign. change (2 ^ 15) with 32768 in Hsign.
  unfold half_value in Hv. set (e := (bits / 2 ^ mb) mod 2 ^ eb) in *. set (m := bits mod 2 ^ mb) in *.
  assert (0 <= e /\ 0 <= m < 2 ^ mb) as [Hee Hmm] by (split; [|subst m; by apply Z.mod_pos_bound]; subst e; by apply Z.mod_pos_bound).
  assert (bits = (if Z.testbit bits 15 then 32768 else 0) + e * 2 ^ mb + m) as Hsplit.
  { pose proof (Z.div_mod bits (2 ^ mb) ltac:(lia)) as D1. pose proof (Z.div_mod (bits / 2 ^ mb) (2 ^ eb) ltac:(lia)) as D2. fold e in D2. fold m in D1.
    rewrite Z.div_div, Hpp in D2 by lia. assert (bits / 32768 = Z.b2z (Z.testbit bits 15)) as D3 by (rewrite Hsign; symmetry; apply Z.mod_small; split; [apply Z.div_pos|apply Z.div_lt_upper_bound]; lia).
    rewrite D3 in D2. destruct (Z.testbit bits 15); cbn [Z.b2z] in D2; nia. }
  destruct (e =? 2 ^ eb - 1); [by destruct (m =? 0)|]. injection Hv as <- <-. unfold half_pattern. etransitivity; [|symmetry; exact Hsplit]. rewrite <- Z.add_assoc. f_equal.
  destruct (Z.eqb_spec e 0) as [->|Hne].
  - assert (0 < 2 ^ (sc + 1)) by (apply Z.pow_pos_nonneg; lia).
    assert ((m * 2 ^ (sc + 1) =? 0) || (Z.log2 (m * 2 ^ (sc + 1)) - mb - sc <? 1) = true) as ->; [|rewrite Z.div_mul by lia; lia].
    destruct (Z.eqb_spec (m * 2 ^ (sc + 1)) 0); [done|]. apply Z.ltb_lt. assert (m * 2 ^ (sc + 1) < 2 ^ (mb + (sc + 1))) as Hlt by (rewrite (Z.pow_add_r 2 mb (sc + 1)) by lia; apply Z.mul_lt_mono_pos_r; lia).
    apply Z.log2_lt_pow2 in Hlt; [lia|nia].
  - assert (0 < 2 ^ (sc + e)) by (apply Z.pow_pos_nonneg; lia).
    assert (Z.log2 ((2 ^ mb + m) * 2 ^ (sc + e)) = mb + (sc + e)) as ->.
    { apply Z.log2_unique; [lia|]. replace (Z.succ (mb + (sc + e))) with (mb + (sc + e) + 1) by lia. rewrite (Z.pow_add_r 2 (mb + (sc + e)) 1), (Z.pow_add_r 2 mb (sc + e)) by lia. split; nia. }
    replace (mb + (sc + e) - mb - sc) with e by lia. rewrite (proj2 (Z.eqb_neq _ 0)), (proj2 (Z.ltb_ge e 1)) by nia. cbn [orb]. rewrite Z.div_mul by lia. lia.
Qed.

(** Every level is a value of both formats. *)
Definition level_ok (w : Z * Z * Z) (s : bool) (i : nat) : bool :=
  let bits := half_pattern w s (level i) in
  (0 <=? bits) && (bits <? 65536) && match half_value w bits with Fin s' u => Bool.eqb s s' && (u =? level i) | _ => false end.
Lemma levels_half_checked :
  forallb (fun i => level_ok (7, 8, 15) false i && level_ok (7, 8, 15) true i && level_ok (10, 5, 124) false i && level_ok (10, 5, 124) true i) (seq 0 127) = true.
Proof. vm_compute. reflexivity. Qed.
Lemma level_half format w s i : half_format format = Some w -> (i < 127)%nat ->
  exists bits, 0 <= bits < 65536 /\ half_value w bits = Fin s (level i).
Proof.
  intros Hw Hi. exists (half_pattern w s (level i)). pose proof (proj1 (forallb_forall _ _) levels_half_checked i) as H. cbv beta in H.
  assert (level_ok w s i = true) as Hok.
  { rewrite !andb_true_iff in H. specialize (H ltac:(apply in_seq; lia)). destruct format; try discriminate; injection Hw as <-; destruct s; apply H. }
  unfold level_ok in Hok. apply andb_prop in Hok as [[H1%Z.leb_le H2%Z.ltb_lt]%andb_prop H3]. split; [lia|].
  destruct (half_value _ _) as [s' u| |]; [|discriminate..]. apply andb_prop in H3 as [H3 H4]. apply Bool.eqb_prop in H3. apply Z.eqb_eq in H4. by rewrite H3, H4.
Qed.

Section Claims.
Context (to_f32 : StorageFormat -> Z -> F32) (from_f32 : StorageFormat -> F32 -> Z).
(** [half] converts to [f32] without loss, and back from a value its format represents. *)
Context (widens : forall format w bits, half_format format = Some w -> 0 <= bits < 65536 -> to_f32 format bits = half_value w bits).

(** C35. Every entry of an encode table is the nearest level: a finite 16-bit float of magnitude at most 448 is
    stored as the code with its sign whose value is nearest to it, the even one of two equally near, and every
    other bit pattern, outlier, infinity or NaN, declines the object. *)
Theorem fp8_nearest format w bits :
  half_format format = Some w -> 0 <= bits < 65536 ->
  match half_value w bits with
  | Fin s x =>
      if x <=? 448 * one
      then exists i, encode_entry to_f32 format bits = code s i /\ value (code s i) = Fin s (level i) /\ nearest_even x i
      else encode_entry to_f32 format bits = 256
  | _ => encode_entry to_f32 format bits = 256
  end.
Proof.
  intros Hw Hb. pose proof (entry_spec to_f32 widens format w bits Hw Hb) as H. destruct (half_value w bits) as [s x| |]; [|done..].
  destruct (x <=? _); [|done]. destruct H as (i & -> & Hn). exists i. split; [done|]. split; [|done]. apply code_facts, Hn.
Qed.

Context (half_bits : forall format f, 0 <= from_f32 format f < 65536).

(** The vector loops compute what the scalar loop does: whatever the backend, encoding succeeds exactly when every
    table entry is a byte and then stores the entries in order, and decoding stores the entries in order. *)
Theorem fp8_backends_agree format w input output b :
  half_format format = Some w ->
  (checked_mul (zlen output) 2 = Some (zlen input) ->
   let vs := encode_entry to_f32 format <$> words input in
   exists out, encode_with_backend to_f32 from_f32 format input output b = Some (fits vs, out) /\ (fits vs = true -> out = byte_of <$> vs)) /\
  (checked_mul (zlen input) 2 = Some (zlen output) ->
   decode_with_backend to_f32 from_f32 format input output b = Some (true, (decode_entry from_f32 format <$> (byte_val <$> input)) ≫= word_bytes)) /\
  (checked_mul (zlen output) 2 <> Some (zlen input) -> encode_with_backend to_f32 from_f32 format input output b = Some (false, output)) /\
  (checked_mul (zlen input) 2 <> Some (zlen output) -> decode_with_backend to_f32 from_f32 format input output b = Some (false, output)).
Proof.
  intros Hw. split_and!.
  - intros Hl. by apply (encode_reference to_f32 from_f32 format w).
  - intros Hl. by apply (decode_reference to_f32 from_f32 half_bits format w).
  - intros Hl. unfold encode_with_backend. by rewrite bool_decide_false.
  - intros Hl. unfold decode_with_backend. by rewrite bool_decide_false.
Qed.

Context (narrows : forall format w bits s x,
  half_format format = Some w -> 0 <= bits < 65536 -> half_value w bits = Fin s x -> from_f32 format (Fin s x) = bits).

Lemma entry_back format w s i : half_format format = Some w -> (i < 127)%nat ->
  encode_entry to_f32 format (decode_entry from_f32 format (code s i)) = code s i.
Proof.
  intros Hw Hi. destruct (level_half format w s i Hw Hi) as (bits & Hb & Hv). unfold decode_entry. destruct (code_facts s i Hi) as [-> _].
  rewrite (narrows format w bits s (level i) Hw Hb Hv). pose proof (entry_spec to_f32 widens format w bits Hw Hb) as H. rewrite Hv in H.
  destruct level_facts as (L0 & _ & L126). assert (level i <= 448 * one) as Hle.
  { rewrite <- L126. destruct (decide (i = 126%nat)) as [->|]; [lia|]. apply Z.lt_le_incl, level_lt. lia. }
  rewrite (proj2 (Z.leb_le _ _) Hle) in H. destruct H as (j & -> & Hj & Hn). specialize (Hn i Hi) as [Hd _]. unfold distance in Hd.
  destruct (Nat.lt_trichotomy i j) as [Hlt|[->|Hgt]]; [pose proof (level_lt i j ltac:(lia)); lia|done|pose proof (level_lt j i ltac:(lia)); lia].
Qed.

Lemma code_of c : 0 <= c < 256 -> c mod 128 <> 127 -> exists s i, (i < 127)%nat /\ c = code s i.
Proof.
  intros Hc Hn. exists (128 <=? c), (Z.to_nat (c mod 128)). pose proof (Z.mod_pos_bound c 128 ltac:(lia)). split; [lia|]. unfold code. rewrite Z2Nat.id by lia.
  pose proof (Z.div_mod c 128 ltac:(lia)). destruct (Z.leb_spec 128 c); Z.div_mod_to_equations; lia.
Qed.

(** Quantized objects are stable: bytes other than the two NaN codes decode, with any backend, to 16-bit floats that
    encode, with any backend, to the same bytes. *)
Theorem fp8_reencode format w input output b b' :
  half_format format = Some w -> Forall (fun c => byte_val c mod 128 <> 127) input -> zlen input * 2 <= u64_max -> length output = (length input * 2)%nat ->
  exists out, decode_with_backend to_f32 from_f32 format input output b = Some (true, out) /\
              encode_with_backend to_f32 from_f32 format out input b' = Some (true, input).
Proof.
  intros Hw Hc Hmax Hlen. set (ws := decode_entry from_f32 format <$> (byte_val <$> input)). exists (ws ≫= word_bytes).
  assert (forall l : bytes, length l = (length input * 2)%nat -> checked_mul (zlen input) 2 = Some (zlen l)) as Hck.
  { intros l Hl. unfold checked_mul. rewrite (proj2 (Z.leb_le _ _) Hmax). f_equal. unfold zlen. lia. }
  split; [apply (decode_reference to_f32 from_f32 half_bits format w); [done|by apply Hck]|].
  destruct (encode_reference to_f32 from_f32 format w (ws ≫= word_bytes) input b' Hw) as (out & -> & Hout).
  { apply Hck. rewrite word_bytes_length. subst ws. by rewrite !length_fmap. }
  rewrite words_of in * by (subst ws; rewrite Forall_fmap; apply Forall_forall; intros; apply half_bits).
  assert (encode_entry to_f32 format <$> ws = byte_val <$> input) as Hvs.
  { subst ws. rewrite <- !list_fmap_compose. apply list_fmap_ext. intros k c Hin%list_elem_of_lookup_2. cbn.
    destruct (code_of (byte_val c) (byte_val_range c) (proj1 (Forall_forall _ _) Hc c Hin)) as (s & i & Hi & ->). by apply (entry_back format w). }
  rewrite Hvs in *. assert (fits (byte_val <$> input) = true) as Hfit.
  { apply forallb_forall. intros v Hv. apply list_elem_of_In, list_elem_of_fmap in Hv as (c & -> & _). apply Z.leb_le. pose proof (byte_val_range c). lia. }
  rewrite Hfit. rewrite (Hout Hfit). do 2 f_equal. rewrite <- list_fmap_compose. transitivity (id <$> input); [|apply list_fmap_id].
  apply list_fmap_ext. intros k c _. apply byte_val_inj, byte_val_of, byte_val_range.
Qed.
End Claims.

(** ** The claims at concrete conversions *)

Definition sample_to (format : StorageFormat) (bits : Z) : F32 := match half_format format with Some w => half_value w bits | None => NaN end.
Definition sample_from (format : StorageFormat) (f : F32) : Z :=
  match half_format format, f with Some w, Fin s x => half_pattern w s x mod 65536 | _, _ => 0 end.
Lemma sample_widens format w bits : half_format format = Some w -> 0 <= bits < 65536 -> sample_to format bits = half_value w bits.
Proof. intros Hw _. unfold sample_to. by rewrite Hw. Qed.
Lemma sample_narrows format w bits s x :
  half_format format = Some w -> 0 <= bits < 65536 -> half_value w bits = Fin s x -> sample_from format (Fin s x) = bits.
Proof. intros Hw Hb Hv. unfold sample_from. rewrite Hw, (pattern_half format w bits s x Hw Hb Hv). by apply Z.mod_small. Qed.
Lemma sample_bits format f : 0 <= sample_from format f < 65536.
Proof. unfold sample_from. destruct (half_format format), f; try lia. apply Z.mod_pos_bound. lia. Qed.

(** -1.0625 as bf16 lies halfway between the levels of the codes 56 and 57. *)
Lemma fp8_nearest_witness :
  half_format Fp8FromBf16 = Some (7, 8, 15) /\ half_value (7, 8, 15) 49032 = Fin true (136 * 2 ^ 142) /\
  exists i, encode_entry sample_to Fp8FromBf16 49032 = code true i /\ value (code true i) = Fin true (level i) /\ nearest_even (136 * 2 ^ 142) i.
Proof.
  split; [reflexivity|]. split; [vm_compute; reflexivity|]. assert (0 <= 49032 < 65536) as Hb by lia.
  exact (fp8_nearest sample_to sample_widens Fp8FromBf16 (7, 8, 15) 49032 eq_refl Hb).
Defined.

Lemma fp8_backends_agree_witness :
  half_format Fp8FromFp16 = Some (10, 5, 124) /\
  exists out, encode_with_backend sample_to sample_from Fp8FromFp16 (str "OrbitKVstate1234") (str "........") Avx2
              = Some (fits (encode_entry sample_to Fp8FromFp16 <$> words (str "OrbitKVstate1234")), out) /\
              (fits (encode_entry sample_to Fp8FromFp16 <$> words (str "OrbitKVstate1234")) = true ->
               out = byte_of <$> (encode_entry sample_to Fp8FromFp16 <$> words (str "OrbitKVstate1234"))).
Proof.
  split; [reflexivity|]. apply (fp8_backends_agree sample_to sample_from sample_bits Fp8FromFp16 (10, 5, 124) (str "OrbitKVstate1234") (str "........") Avx2 eq_refl).
  reflexivity.
Defined.

Lemma fp8_reencode_witness :
  (Forall (fun c => byte_val c mod 128 <> 127) (str "orbitkv!x") /\ zlen (str "orbitkv!x") * 2 <= u64_max) /\
  exists out, decode_with_backend sample_to sample_from Fp8FromBf16 (str "orbitkv!x") (str "..................") Avx2 = Some (true, out) /\
              encode_with_backend sample_to sample_from Fp8FromBf16 out (str "orbitkv!x") Scalar = Some (true, str "orbitkv!x").
Proof.
  assert (Forall (fun c => byte_val c mod 128 <> 127) (str "orbitkv!x")) as H by (repeat constructor; discriminate).
  split; [split; [exact H|discriminate]|].
  apply (fp8_reencode sample_to sample_from sample_widens sample_bits sample_narrows Fp8FromBf16 (7, 8, 15)); [reflexivity|exact H|discriminate|reflexivity].
Defined.
