(* ===== verification/Transfers.v ===== *)
(** * Transfers of a GPU worker

    orbitkv-core/src/transfer/worker/mod.rs and worker/ssd.rs: the blocks of a restore or save task become
    copy descriptors between device and pinned memory, and file ranges to read through the GPU. *)
From S2P Require Import Prelude Containers State KvLayout Blocks DmaCopies SsdRing Codec IoBatches.

Local Open Scope Z_scope.
Local Open Scope rust_scope.

(** ** Tasks *)

(** A leased extent, and the files of its store that are registered for GPU I/O, by shard. *)
Record SsdReadLease := mkReadLease { lease_entry : SsdIndexEntry; cufile_files : list Z }.

Inductive TransferPayload :=
| Owned (b : RawBlock)
| Pending
| SsdSource (source : SsdReadLease) (slot_id offset : Z)
| Cached (sealed : SealedBlock) (slot_id offset : Z).

Record TransferBlock := mkTransferBlock { block_idx : Z; payload : TransferPayload }.
Record LayerTransferData := mkLayerTransfer { layer_name : bytes; layout : KVCacheLayout; blocks : list TransferBlock }.

Inductive TransferError :=
| EncodedAsRaw | HostSegment | HostOffset | ByteCount
| LayerLayout (layer : bytes) (e : LayoutError)
| SlotMissing | SlotOffset
| SlotInvalid (source : SsdReadLease)
| SsdLayout (e : LayoutError)
| NoFile
| SegmentMissing | SegmentSmall | SegmentOffset
| MetadataMissing | LayoutMismatch | RepresentationMismatch
| Io (e : IoError).

(** [raw]: [None] where the code is unreachable or its [expect] would fail. *)
Definition raw_of (p : TransferPayload) : option RawBlock :=
  match p with
  | Owned b => Some b
  | Cached sealed slot_id _ => sb_slots sealed !! Z.to_nat slot_id
  | Pending | SsdSource _ _ _ => None
  end.
Definition host_offset (p : TransferPayload) : Z :=
  match p with SsdSource _ _ offset | Cached _ _ offset => offset | Owned _ | Pending => 0 end.

(** ** Copy descriptors *)

Section Descriptors.
(** The device's view of a pinned address, which the CUDA runtime gives. *)
Context (device_view : Z -> Z).

(** The closure [descriptor] of [append_copy_descs]. *)
Definition descriptor (raw : RawBlock) (allocation segment offset dev n : Z) : result CopyDesc TransferError :=
  let? e := ok_or (checked_add offset n) HostSegment in
  let? s := ok_or (as_slice (Blocks.segments raw) !! Z.to_nat segment) HostSegment in
  if seg_size s <? e then Err HostSegment
  else Ok (mkDesc dev (host_ptr s + offset) (device_view (host_ptr s + offset)) n allocation (pool_id (seg_allocation s))).

(** The descriptors it appends, with the bytes they transfer; on an error nothing is appended. *)
Definition append_copy_descs (allocation : Z) (copies : BlockCopies) (raw : RawBlock) (offset : Z) : result (list CopyDesc * Z) TransferError :=
  if bool_decide (is_Some (raw_encoding raw)) then Err EncodedAsRaw
  else match copies with
       | CContiguous c =>
           let? d := descriptor raw allocation 0 offset (addr c) (copy_bytes c) in
           Ok ([d], copy_bytes c)
       | CSplit k v =>
           let? dk := descriptor raw allocation 0 offset (addr k) (copy_bytes k) in
           let? place := (if 1 <? num_segments raw then Ok (1, offset)
                          else let? o := ok_or (checked_add offset (copy_bytes k)) HostOffset in Ok (0, o)) in
           let? dv := descriptor raw allocation place.1 place.2 (addr v) (copy_bytes v) in
           let? n := ok_or (checked_add (copy_bytes k) (copy_bytes v)) ByteCount in
           Ok ([dk; dv], n)
       end.

(** One block of the loop of [build_copy_descs]: its descriptors and its bytes are added; an encoded block is skipped. *)
Definition block_descs (index : Z) (l : LayerTransferData) (b : TransferBlock) (raw : RawBlock) (copies : list CopyDesc) (total : Z)
    : result (list CopyDesc * Z) TransferError :=
  if bool_decide (is_Some (raw_encoding raw)) then Ok (copies, total)
  else
    let? ranges := match block_copies (layout l) (block_idx b) with Ok r => Ok r | Err e => Err (LayerLayout (layer_name l) e) end in
    let? dn := append_copy_descs index ranges raw (host_offset (payload b)) in
    let? total := ok_or (checked_add total dn.2) ByteCount in
    Ok (copies ++ dn.1, total).
(** The blocks of a layer; [None] is a panic. *)
Fixpoint layer_descs (index : Z) (l : LayerTransferData) (bs : list TransferBlock) (copies : list CopyDesc) (total : Z)
    : option (result (list CopyDesc * Z) TransferError) :=
  match bs with
  | [] => Some (Ok (copies, total))
  | b :: bs =>
      match payload b with
      | SsdSource _ _ _ => layer_descs index l bs copies total
      | _ =>
          raw ← raw_of (payload b);
          match block_descs index l b raw copies total with
          | Ok (copies, total) => layer_descs index l bs copies total
          | Err e => Some (Err e)
          end
      end
  end.
Fixpoint all_descs (index : Z) (layers : list LayerTransferData) (copies : list CopyDesc) (total : Z)
    : option (result (list CopyDesc * Z) TransferError) :=
  match layers with
  | [] => Some (Ok (copies, total))
  | l :: layers =>
      match layer_descs index l (blocks l) copies total with
      | Some (Ok (copies, total)) => all_descs (index + 1) layers copies total
      | r => r
      end
  end.

Definition by_device (c d : CopyDesc) : Prop := device c <= device d.
#[export] Instance by_device_dec c d : Decision (by_device c d).
Proof. unfold by_device. apply _. Defined.
Definition build_copy_descs (layers : list LayerTransferData) : option (result (list CopyDesc * Z) TransferError) :=
  match all_descs 0 layers [] 0 with
  | Some (Ok (copies, total)) => Some (Ok (merge_sort by_device copies, total))
  | r => r
  end.
End Descriptors.

(** ** Reads through the GPU *)

Definition try_sum (from : Z) (l : list Z) : option Z := foldl (fun acc n => a ← acc; checked_add a n) (Some from) l.

Definition validate_slot (s : SlotMeta) : bool :=
  negb (bool_decide (segment_sizes s = [])) && negb (existsb (fun n => n =? 0) (segment_sizes s))
  && bool_decide (try_sum 0 (segment_sizes s) = Some (slot_total_size s))
  && match slot_encoding s with
     | None => true
     | Some metadata =>
         (zlen metadata =? zlen (segment_sizes s))
         && forallb (fun '(m, physical) => is_ok (validate_metadata m physical)) (zip metadata (segment_sizes s))
     end.

(** The slot and where it begins in the file; an invalid slot also invalidates the lease's entry. *)
Definition source_slot (source : SsdReadLease) (slot_id : Z) : result (SlotMeta * Z) TransferError :=
  let e := lease_entry source in
  let? slot := ok_or (slots e !! Z.to_nat slot_id) SlotMissing in
  let? base := ok_or (try_sum (file_offset e) (slot_total_size <$> take (Z.to_nat slot_id) (slots e))) SlotOffset in
  if negb (validate_slot slot) then Err (SlotInvalid source)
  else
    match checked_add base (slot_total_size slot), checked_add (file_offset e) (len e) with
    | Some last, Some limit => if limit <? last then Err (SlotInvalid source) else Ok (slot, base)
    | _, _ => Err (SlotInvalid source)
    end.

Definition segment_offset (slot : SlotMeta) (base segment offset n : Z) : result Z TransferError :=
  let? size := ok_or (segment_sizes slot !! Z.to_nat segment) SegmentMissing in
  if match checked_add offset n with None => true | Some last => size <? last end then Err SegmentSmall
  else ok_or (start ← try_sum base (take (Z.to_nat segment) (segment_sizes slot)); checked_add start offset) SegmentOffset.

Definition raw_range (slot : SlotMeta) (base segment relative : Z) (c : BlockCopy) : result CopyRange TransferError :=
  let? o := segment_offset slot base segment relative (copy_bytes c) in
  Ok (mkRange o (addr c) (copy_bytes c)).
Definition raw_copies (slot : SlotMeta) (base offset : Z) (copies : BlockCopies) : result (list CopyRange) TransferError :=
  match copies with
  | CContiguous c => let? r := raw_range slot base 0 offset c in Ok [r]
  | CSplit k v =>
      let? second := (if 1 <? zlen (segment_sizes slot) then raw_range slot base 1 offset v
                      else let? o := ok_or (checked_add offset (copy_bytes k)) SlotOffset in raw_range slot base 0 o v) in
      let? first := raw_range slot base 0 offset k in
      Ok [first; second]
  end.

Definition encoded_copy (slot : SlotMeta) (base : Z) (format : StorageFormat) (p : Z * (EncodedSegment * BlockCopy))
    : result (CopyRange * EncodedSegment) TransferError :=
  let '(index, (m, c)) := p in
  if negb (es_logical_bytes m =? copy_bytes c)
     || (negb (bool_decide (es_format m = Exact)) && negb (bool_decide (es_format m = segment_format format index)))
  then Err RepresentationMismatch
  else
    let? o := segment_offset slot base index 0 (es_stored_bytes m) in
    Ok (mkRange o (addr c) (es_stored_bytes m), m).
Definition encoded_copies (slot : SlotMeta) (base offset : Z) (copies : BlockCopies) (format : StorageFormat)
    : result (list (CopyRange * EncodedSegment)) TransferError :=
  let ranges := copies_of copies in
  let? metadata := ok_or (slot_encoding slot) MetadataMissing in
  if negb (offset =? 0) || negb (zlen metadata =? zlen ranges) then Err LayoutMismatch
  else collect_results (encoded_copy slot base format) (zip (seqZ 0 (zlen ranges)) (zip metadata ranges)).

Record EncodedRead := mkEncodedRead { er_source : SsdReadLease; er_offset : Z; er_target : Z; er_meta : EncodedSegment }.

(** What one block adds to the plan: ranges of a file, or encoded reads. *)
Inductive BlockReads := NoReads | RawReads (file : Z) (ranges : list CopyRange) | EncodedReads (reads : list EncodedRead).
Definition block_reads (l : LayerTransferData) (b : TransferBlock) : result BlockReads TransferError :=
  match payload b with
  | SsdSource source slot_id offset =>
      let? sb := source_slot source slot_id in
      let '(slot, base) := sb in
      let? copies := match block_copies (layout l) (block_idx b) with Ok c => Ok c | Err e => Err (SsdLayout e) end in
      if bool_decide (is_Some (slot_encoding slot))
      then
        let? reads := encoded_copies slot base offset copies (KvLayout.storage_format (layout l)) in
        Ok (EncodedReads ((fun p => mkEncodedRead source (r_offset p.1) (r_device p.1) p.2) <$> reads))
      else
        let? file := ok_or (cufile_files source !! Z.to_nat (shard_id (lease_entry source))) NoFile in
        let? ranges := raw_copies slot base offset copies in
        Ok (RawReads file ranges)
  | _ => Ok NoReads
  end.

(** The ranges of each file, and the encoded reads in task order. *)
Record Sources := mkSources { per_file : gmap Z (list CopyRange); encoded_reads : list EncodedRead }.
Definition add_reads (s : Sources) (r : BlockReads) : Sources :=
  match r with
  | NoReads => s
  | RawReads file ranges => mkSources (<[file := default [] (per_file s !! file) ++ ranges]> (per_file s)) (encoded_reads s)
  | EncodedReads reads => mkSources (per_file s) (encoded_reads s ++ reads)
  end.

Definition generation_order (a b : EncodedRead) : Prop :=
  key_le (readers (lease_entry (er_source a)), er_offset a) (readers (lease_entry (er_source b)), er_offset b).
#[export] Instance generation_order_dec a b : Decision (generation_order a b).
Proof. unfold generation_order. apply _. Defined.

Record ReadPlan := mkReadPlan { raw_reads : list (Z * list IoBatch); encoded : list EncodedRead }.

(** The blocks of the task in order, each with its layer. *)
Definition task_blocks (layers : list LayerTransferData) : list (LayerTransferData * TransferBlock) := layers ≫= (fun l => pair l <$> blocks l).
Definition plan (layers : list LayerTransferData) : result ReadPlan TransferError :=
  let? reads := collect_results (fun p => block_reads p.1 p.2) (task_blocks layers) in
  let s := foldl add_reads (mkSources ∅ []) reads in
  let? raw := collect_results (fun p => match plan_reads p.2 with Ok bs => Ok (p.1, bs) | Err e => Err (Io e) end) (map_to_list (per_file s)) in
  Ok (mkReadPlan raw (merge_sort generation_order (encoded_reads s))).

(** [validate_host_sources]: the checks of [plan], without reading. *)
Definition validate_block (l : LayerTransferData) (b : TransferBlock) : result unit TransferError :=
  match payload b with
  | SsdSource source slot_id offset =>
      let? sb := source_slot source slot_id in
      let '(slot, base) := sb in
      let? copies := match block_copies (layout l) (block_idx b) with Ok c => Ok c | Err e => Err (SsdLayout e) end in
      if bool_decide (is_Some (slot_encoding slot))
      then let? _ := encoded_copies slot base offset copies (KvLayout.storage_format (layout l)) in Ok tt
      else let? _ := raw_copies slot base offset copies in Ok tt
  | _ => Ok tt
  end.
Definition validate_host_sources (layers : list LayerTransferData) : result unit TransferError :=
  let? _ := collect_results (fun p => validate_block p.1 p.2) (task_blocks layers) in Ok tt.
