(* ===== verification/TransfersSpec.v ===== *)
(** * Transfers of a GPU worker: the bytes that move

    The descriptors built for a task move exactly the bytes of its raw blocks, and the reads planned for
    its SSD blocks move exactly theirs, from inside the extents they lease. *)
From S2P Require Import Prelude Containers State KvLayout Blocks DmaCopies SsdRing Codec IoBatches Transfers.

Local Open Scope Z_scope.
Local Open Scope rust_scope.

(** ** Blocks on the device *)

(** A layout as registration binds it. *)
Record layout_ok (l : KVCacheLayout) : Prop := {
  lo_dims : dims_ok (geometry l);
  lo_geometry : exists al, acceptable (geometry l) al;
  lo_ptr : 0 < data_ptr l;
  lo_room : data_ptr l + extent_bytes (geometry l) <= u64_max }.

(** The device ranges of a block, in order. *)
Definition device_pieces (l : KVCacheLayout) (i : Z) : list BlockCopy :=
  (fun r => mkBlockCopy (data_ptr l + r.1) (r.2 - r.1)) <$> spans (geometry l) i.

Definition piece_ok (c : BlockCopy) : Prop := 0 < addr c /\ 0 < copy_bytes c /\ addr c + copy_bytes c <= u64_max.

Lemma block_copies_pieces l i c :
  layout_ok l -> 0 <= i -> block_copies l i = Ok c -> i < num_blocks (geometry l) /\ copies_of c = device_pieces l i /\ Forall piece_ok (device_pieces l i).
Proof.
  intros [Hd [al Ha] Hp Hr] Hi. unfold block_copies. destruct (decide (i < num_blocks (geometry l))) as [Hlt|Hge].
  2: { unfold block_ranges. by rewrite (proj2 (Z.leb_le _ _)) by lia. }
  destruct (block_ranges_exact (geometry l) al i Hd Ha ltac:(lia)) as (r & -> & Hsp). intros [= <-]. split; [done|].
  assert (forall x, x ∈ spans (geometry l) i -> 0 <= x.1 < x.2 /\ x.2 <= extent_bytes (geometry l)) as Hin by (intros x; by apply (spans_inside _ al)).
  unfold device_pieces. rewrite <- Hsp in *. split.
  - assert (forall x, x ∈ ranges_of r -> mkBlockCopy (u64_add (data_ptr l) x.1) (u64_sub x.2 x.1) = mkBlockCopy (data_ptr l + x.1) (x.2 - x.1)) as Hx.
    { intros x Hx. specialize (Hin x Hx). by rewrite u64_add_exact, u64_sub_exact by lia. }
    destruct r as [x|x y]; cbn in *; rewrite !Hx by set_solver; done.
  - rewrite Forall_fmap. apply Forall_forall. intros x Hx. specialize (Hin x Hx). unfold piece_ok. cbn. lia.
Qed.

(** Where the pieces of a block lie in its image: piece [p] in segment [p] when there are several, otherwise one after the other in the first. *)
Fixpoint places (several : bool) (segment offset : Z) (copies : list BlockCopy) : list (Z * Z * BlockCopy) :=
  match copies with
  | [] => []
  | c :: copies =>
      (segment, offset, c) :: (if several then places several (segment + 1) offset copies else places several segment (offset + copy_bytes c) copies)
  end.

(** ** Copies between device and host *)

Section Host.
Context (device_view : Z -> Z).

Definition host_segment (raw : RawBlock) (i : Z) : option Segment := as_slice (Blocks.segments raw) !! Z.to_nat i.
(** The bytes of one placed piece, with the allocation and the registration they are accessed through. *)
Definition host_piece (raw : RawBlock) (index : Z) (p : Z * Z * BlockCopy) : list (Z * Z * (Z * Z)) :=
  let '(segment, offset, c) := p in
  match host_segment raw segment with
  | Some s => run index (pool_id (seg_allocation s)) (addr c) (host_ptr s + offset) (copy_bytes c)
  | None => []
  end.
(** It lies inside its segment. *)
Definition host_inside (raw : RawBlock) (p : Z * Z * BlockCopy) : Prop :=
  let '(segment, offset, c) := p in exists s, host_segment raw segment = Some s /\ 0 <= offset /\ offset + copy_bytes c <= seg_size s.

Definition segment_ok (s : Segment) : Prop := 0 <= host_ptr s /\ 0 <= seg_size s /\ host_ptr s + seg_size s <= u64_max.
Definition raw_ok (raw : RawBlock) : Prop := Forall segment_ok (as_slice (Blocks.segments raw)).

Lemma descriptor_spec raw index segment offset c d :
  raw_ok raw -> 0 <= offset -> piece_ok c -> descriptor device_view raw index segment offset (addr c) (copy_bytes c) = Ok d ->
  desc_bytes d = host_piece raw index (segment, offset, c) /\ host_inside raw (segment, offset, c) /\ desc_ok d /\ offset + copy_bytes c <= u64_max.
Proof.
  intros Hr Ho (Hc1 & Hc2 & Hc3). unfold descriptor, host_piece, host_inside, host_segment. destruct (checked_add offset (copy_bytes c)) as [e|] eqn:Ee; [|done].
  apply checked_add_Some in Ee as [-> Hu]. cbn [ok_or]. destruct (as_slice _ !! _) as [s|] eqn:Es; [|done]. cbn [ok_or].
  destruct (Z.ltb_spec (seg_size s) (offset + copy_bytes c)); [done|]. intros [= <-].
  destruct (Forall_lookup_1 _ _ _ _ Hr Es) as (? & ? & ?). split_and!; [done|exists s; split_and!; try done; lia| |done].
  unfold desc_ok. cbn. lia.
Qed.

Lemma append_spec index copies raw offset ds n :
  raw_ok raw -> 0 <= offset -> Forall piece_ok (copies_of copies) -> append_copy_descs device_view index copies raw offset = Ok (ds, n) ->
  let ps := places (1 <? num_segments raw) 0 offset (copies_of copies) in
  raw_encoding raw = None /\ ds ≫= desc_bytes = ps ≫= host_piece raw index /\ Forall (host_inside raw) ps /\ Forall desc_ok ds /\ n = list_sum copy_bytes (copies_of copies).
Proof.
  intros Hr Ho Hp. unfold append_copy_descs. destruct (raw_encoding raw); [done|]. cbn [bool_decide decide]. rewrite bool_decide_false by (intros [? ?]; done).
  destruct copies as [c|k v]; cbn [copies_of] in *.
  - apply Forall_cons in Hp as [Hc _]. destruct (descriptor _ raw index 0 offset _ _) as [d|] eqn:Ed; [|done]. intros [= <- <-].
    destruct (descriptor_spec raw index 0 offset c d Hr Ho Hc Ed) as (Hb & Hi & Hd & _).
    assert (places (1 <? num_segments raw) 0 offset [c] = [(0, offset, c)]) as -> by (by destruct (1 <? _)). rewrite !bind_singleton.
    split_and!; [done|done|by constructor|by constructor|unfold list_sum; cbn; lia].
  - apply Forall_cons in Hp as [Hk [Hv _]%Forall_cons]. destruct (descriptor _ raw index 0 offset _ _) as [dk|] eqn:Ek; [|done].
    destruct (descriptor_spec raw index 0 offset k dk Hr Ho Hk Ek) as (Hb & Hi & Hd & Hu). cbn [ok_or].
    set (place := if 1 <? num_segments raw then (1, offset) else (0, offset + copy_bytes k)).
    assert ((if 1 <? num_segments raw then Ok (1, offset) else let? o := ok_or (checked_add offset (copy_bytes k)) HostOffset in Ok (0, o)) = Ok place) as ->.
    { subst place. destruct (1 <? _); [done|]. unfold checked_add. by rewrite (proj2 (Z.leb_le _ _) Hu). }
    destruct (descriptor _ raw index place.1 place.2 _ _) as [dv|] eqn:Ev; [|done]. destruct (checked_add _ _) as [m|] eqn:Em; [|done].
    apply checked_add_Some in Em as [-> _]. intros [= <- <-].
    assert (0 <= place.2) as Hpl by (subst place; destruct (1 <? _), Hk; cbn; lia).
    destruct (descriptor_spec raw index place.1 place.2 v dv Hr Hpl Hv Ev) as (Hb' & Hi' & Hd' & _).
    assert (places (1 <? num_segments raw) 0 offset [k; v] = [(0, offset, k); (place.1, place.2, v)]) as -> by (subst place; by destruct (1 <? _)).
    rewrite !bind_cons. cbn [mbind list_bind]. split_and!; [done|by rewrite Hb, Hb'|exact (Forall_cons_2 _ _ _ Hi (Forall_cons_2 _ _ _ Hi' (Forall_nil_2 _)))|exact (Forall_cons_2 _ _ _ Hd (Forall_cons_2 _ _ _ Hd' (Forall_nil_2 _)))|unfold list_sum; cbn; lia].
Qed.

(** What a task should move: for every raw block the bytes of its pieces; [None] is skipped, as SSD and encoded blocks are. *)
Definition raw_image (index : Z) (l : LayerTransferData) (b : TransferBlock) : list (Z * Z * (Z * Z)) :=
  match raw_of (payload b) with
  | Some raw =>
      if bool_decide (is_Some (raw_encoding raw)) then []
      else places (1 <? num_segments raw) 0 (host_offset (payload b)) (device_pieces (layout l) (block_idx b)) ≫= host_piece raw index
  | None => []
  end.
Fixpoint task_image (index : Z) (layers : list LayerTransferData) : list (Z * Z * (Z * Z)) :=
  match layers with [] => [] | l :: layers => (blocks l ≫= raw_image index l) ++ task_image (index + 1) layers end.

(** Every piece of a raw block lies inside its pinned segment. *)
Definition block_inside (l : LayerTransferData) (b : TransferBlock) : Prop :=
  forall raw, raw_of (payload b) = Some raw -> raw_encoding raw = None ->
  Forall (host_inside raw) (places (1 <? num_segments raw) 0 (host_offset (payload b)) (device_pieces (layout l) (block_idx b))).

Definition block_ok (b : TransferBlock) : Prop := 0 <= block_idx b /\ 0 <= host_offset (payload b) /\ forall raw, raw_of (payload b) = Some raw -> raw_ok raw.
Definition layer_ok (l : LayerTransferData) : Prop := layout_ok (layout l) /\ Forall block_ok (blocks l).

(** The loop's state: bounds-checked descriptors, and as many bytes as they move. *)
Definition descs_ok (copies : list CopyDesc) (total : Z) : Prop := Forall desc_ok copies /\ total = zlen (copies ≫= desc_bytes).

Lemma pieces_length index raw ps n :
  Forall (host_inside raw) ps -> Forall (fun p => piece_ok p.2) ps -> n = list_sum (fun p => copy_bytes p.2) ps -> zlen (ps ≫= host_piece raw index) = n.
Proof.
  intros Hi Hp ->. induction Hi as [|[[sg o] c] ps (s & Hs & _) _ IH]; [done|]. apply Forall_cons in Hp as [(_ & Hc & _) Hp]. rewrite bind_cons. unfold list_sum in *. cbn [foldr].
  rewrite <- IH by done. unfold zlen. rewrite length_app, Nat2Z.inj_add. f_equal. cbn. rewrite Hs. unfold run. rewrite length_fmap, length_seqZ. cbn in Hc. lia.
Qed.
Lemma places_pieces several sg o cs : (places several sg o cs).*2 = cs.
Proof. revert sg o. induction cs as [|c cs IH]; intros sg o; [done|]. cbn. f_equal. by destruct several. Qed.

Lemma block_descs_spec index l b raw copies total copies' total' :
  layout_ok (layout l) -> block_ok b -> raw_of (payload b) = Some raw -> descs_ok copies total ->
  block_descs device_view index l b raw copies total = Ok (copies', total') ->
  descs_ok copies' total' /\ copies' ≫= desc_bytes = (copies ≫= desc_bytes) ++ raw_image index l b /\ block_inside l b.
Proof.
  intros Hl (Hb1 & Hb2 & Hb3) Hraw Hok. unfold block_descs, raw_image, block_inside. rewrite Hraw.
  destruct (bool_decide _) eqn:Ee; [apply bool_decide_eq_true in Ee; intros [= <- <-]; rewrite app_nil_r; split_and!; [done..|]; intros ? [= <-] Hn; rewrite Hn in Ee; by destruct Ee|].
  destruct (block_copies _ _) as [c|] eqn:Ec; [|done]. destruct (block_copies_pieces _ _ _ Hl Hb1 Ec) as (_ & Hpc & Hpok).
  destruct (append_copy_descs _ _ _ _ _) as [[ds n]|] eqn:Ea; [|done]. rewrite <- Hpc in Hpok.
  destruct (append_spec _ _ _ _ _ _ (Hb3 raw Hraw) Hb2 Hpok Ea) as (_ & Hds & Hins & Hdok & Hn). rewrite Hpc in *. cbn [fst snd].
  destruct (checked_add total n) as [t|] eqn:Et; [|done]. apply checked_add_Some in Et as [-> _]. intros [= <- <-].
  rewrite bind_app, Hds. split_and!; [|done|by intros ? [= <-]]. destruct Hok as [Hc ->]. split; [by apply Forall_app|]. rewrite bind_app, Hds, zlen_app. f_equal.
  symmetry. apply pieces_length; [done| |].
  - apply (Forall_fmap snd piece_ok). by rewrite places_pieces.
  - rewrite Hn, <- (places_pieces (1 <? num_segments raw) 0 (host_offset (payload b)) (device_pieces _ _)) at 1. apply list_sum_fmap.
Qed.

Lemma layer_descs_spec index l bs copies total copies' total' :
  layout_ok (layout l) -> Forall block_ok bs -> descs_ok copies total -> layer_descs device_view index l bs copies total = Some (Ok (copies', total')) ->
  descs_ok copies' total' /\ copies' ≫= desc_bytes = (copies ≫= desc_bytes) ++ (bs ≫= raw_image index l) /\ Forall (block_inside l) bs.
Proof.
  intros Hl. revert copies total. induction bs as [|b bs IH]; intros copies total Hbs Hok; cbn [layer_descs].
  - intros [= <- <-]. rewrite app_nil_r. auto.
  - apply Forall_cons in Hbs as [Hb Hbs]. rewrite bind_cons.
    assert (forall raw, raw_of (payload b) = Some raw ->
      match block_descs device_view index l b raw copies total with Ok (copies, total) => layer_descs device_view index l bs copies total | Err e => Some (Err e) end
      = Some (Ok (copies', total')) ->
      descs_ok copies' total' /\ copies' ≫= desc_bytes = (copies ≫= desc_bytes) ++ raw_image index l b ++ (bs ≫= raw_image index l) /\ Forall (block_inside l) (b :: bs)) as Hstep.
    { intros raw Hraw. destruct (block_descs _ _ _ _ _ _ _) as [[c t]|] eqn:Eb; [|done]. destruct (block_descs_spec _ _ _ _ _ _ _ _ Hl Hb Hraw Hok Eb) as (H1 & H2 & H2').
      intros H. destruct (IH c t Hbs H1 H) as (H3 & H4 & H5). split_and!; [done|by rewrite H4, H2, app_assoc|by constructor]. }
    destruct (payload b) as [r| |src sid o|sealed sid o] eqn:Ep; cbn [raw_of mbind option_bind] in *; [by apply Hstep|done| |].
    + intros H. unfold raw_image at 1. rewrite Ep. destruct (IH copies total Hbs Hok H) as (H1 & H2 & H3). split_and!; [done..|]. constructor; [|done].
      intros raw Hr. by rewrite Ep in Hr.
    + destruct (sb_slots sealed !! _) as [r|]; [|done]. by apply Hstep.
Qed.

Lemma all_descs_spec layers index copies total copies' total' :
  Forall layer_ok layers -> descs_ok copies total -> all_descs device_view index layers copies total = Some (Ok (copies', total')) ->
  descs_ok copies' total' /\ copies' ≫= desc_bytes = (copies ≫= desc_bytes) ++ task_image index layers /\
  Forall (fun l => Forall (block_inside l) (blocks l)) layers.
Proof.
  revert index copies total. induction layers as [|l layers IH]; intros index copies total Hls Hok; cbn [all_descs task_image].
  - intros [= <- <-]. rewrite app_nil_r. auto.
  - apply Forall_cons in Hls as [[Hl Hbs] Hls]. destruct (layer_descs _ _ _ _ _ _) as [[[c t]|]|] eqn:El; [|done..].
    destruct (layer_descs_spec _ _ _ _ _ _ _ Hl Hbs Hok El) as (H1 & H2 & H2'). intros H.
    destruct (IH _ _ _ Hls H1 H) as (H3 & H4 & H5). split_and!; [done|by rewrite H4, H2, app_assoc|by constructor].
Qed.

(** C12. A transfer between device and host moves exactly what its task says: when the descriptors of the task's raw
    blocks are built and compiled to DMA copies, the copies move precisely the bytes of those blocks, each between
    its device address in the layer and its place in the block's pinned segments, which it never leaves; the reported
    size is their number; and every copy stays inside the address space and within the driver's pitch limit. *)
Theorem raw_transfer_exact layers copies total max_pitch :
  Forall layer_ok layers -> build_copy_descs device_view layers = Some (Ok (copies, total)) ->
  dma_copies copies max_pitch ≫= dma_bytes ≡ₚ task_image 0 layers /\
  Forall (fun l => Forall (block_inside l) (blocks l)) layers /\
  total = zlen (task_image 0 layers) /\ Forall (dma_ok max_pitch) (dma_copies copies max_pitch).
Proof.
  intros Hls. unfold build_copy_descs. destruct (all_descs _ _ _ _ _) as [[[c t]|]|] eqn:Ea; [|done..]. intros [= <- <-].
  destruct (all_descs_spec _ _ _ _ _ _ Hls (conj (Forall_nil_2 _) eq_refl) Ea) as ([Hd Ht] & Hi & Hin). cbn in Hi.
  assert (Forall desc_ok (merge_sort by_device c)) as Hd' by (by rewrite merge_sort_Permutation).
  destruct (dma_copies_spec _ max_pitch Hd') as (Hb & Hok & _). split_and!; [by rewrite Hb, merge_sort_Permutation, Hi|done|by rewrite Ht, Hi|done].
Qed.
End Host.

(** ** A task at concrete values *)

Definition sample_geometry : KVCacheGeometry :=
  Eval vm_compute in match geometry_new 4 16 100 2 None 8 with Ok g => g | Err _ => mkGeometry 0 0 0 0 0 0 Contiguous end.
Definition sample_layout : KVCacheLayout := mkLayout Exact 4096 sample_geometry.
Lemma sample_layout_ok : layout_ok sample_layout.
Proof.
  assert (geometry_new 4 16 100 2 None 8 = Ok sample_geometry) as H by (vm_compute; reflexivity).
  apply geometry_new_Ok in H as (_ & Hd & Ha); [|done..]. split; [done|by exists 8|done|vm_compute; discriminate].
Qed.
Definition sample_segment (ptr n : Z) : Segment := mkPinned ptr n (mkAllocation 3 1 10000 0 4096).
Definition sample_host_layers : list LayerTransferData :=
  [mkLayerTransfer (str "l0") sample_layout
     [mkTransferBlock 0 (Owned (two_segments (sample_segment 10000 16) (sample_segment 10064 16)));
      mkTransferBlock 2 (Cached (mkSealed [single_segment (sample_segment 10256 128)] 128 [0] false) 0 32)]].

Lemma raw_transfer_exact_witness :
  Forall layer_ok sample_host_layers /\
  match build_copy_descs (fun a => a) sample_host_layers with
  | Some (Ok (copies, total)) =>
      total = 64 /\ map (fun c => (device c, host c, size c)) copies = [(4096, 10000, 16); (4128, 10288, 16); (4196, 10064, 16); (4228, 10304, 16)] /\
      dma_copies copies 1024 ≫= dma_bytes ≡ₚ task_image 0 sample_host_layers
  | _ => False
  end.
Proof.
  assert (Forall layer_ok sample_host_layers) as Hok.
  { constructor; [|constructor]. split; [exact sample_layout_ok|]. repeat constructor; try discriminate; try (intros ? [= <-]; repeat constructor; discriminate). }
  split; [exact Hok|]. destruct (build_copy_descs (fun a => a) sample_host_layers) as [[[copies total]|]|] eqn:E.
  - assert (total = 64 /\ map (fun c => (device c, host c, size c)) copies = [(4096, 10000, 16); (4128, 10288, 16); (4196, 10064, 16); (4228, 10304, 16)]) as [-> Hc].
    { change (match Some (Ok (copies, total) : result (list CopyDesc * Z) TransferError) with Some (Ok (c, t)) => t = 64 /\ map (fun c => (device c, host c, size c)) c = [(4096, 10000, 16); (4128, 10288, 16); (4196, 10064, 16); (4228, 10304, 16)] | _ => False end).
      rewrite <- E. vm_compute. split; reflexivity. }
    split_and!; [done|exact Hc|]. apply (raw_transfer_exact (fun a => a) sample_host_layers copies 64 1024 Hok E).
  - vm_compute in E. discriminate.
  - vm_compute in E. discriminate.
Defined.
