(* ===== verification/TransfersSsd.v ===== *)
(** * Reads through the GPU: what the plan of a restore moves

    worker/ssd.rs: the ranges planned for the SSD blocks of a task, against where the leased extent holds
    each segment of each slot. *)
From S2P Require Import Prelude Containers State KvLayout Blocks DmaCopies SsdRing Codec IoBatches Transfers TransfersSpec.

Local Open Scope Z_scope.
Local Open Scope rust_scope.

(** ** Extents *)

(** Where a slot begins in its file, and a segment in its slot. *)
Definition slot_base (e : SsdIndexEntry) (slot_id : Z) : Z := file_offset e + list_sum slot_total_size (take (Z.to_nat slot_id) (slots e)).
Definition segment_base (s : SlotMeta) (segment : Z) : Z := list_sum (fun n => n) (take (Z.to_nat segment) (segment_sizes s)).

(** The machine's integers in a leased entry. *)
Record slot_ok (s : SlotMeta) : Prop := {
  sl_total : 0 <= slot_total_size s;
  sl_sizes : Forall (fun n => 0 <= n) (segment_sizes s);
  sl_encoding : forall md, slot_encoding s = Some md -> Forall (fun m => 0 <= es_stored_bytes m) md }.
Definition lease_ok (source : SsdReadLease) : Prop := 0 <= file_offset (lease_entry source) /\ Forall slot_ok (slots (lease_entry source)).

Lemma try_sum_Some l from t : try_sum from l = Some t -> t = from + list_sum (fun n => n) l.
Proof.
  unfold try_sum. revert from. induction l as [|n l IH]; intros from; cbn; [intros [= <-]; unfold list_sum; cbn; lia|].
  destruct (checked_add from n) as [m|] eqn:E; cycle 1.
  { intros H. exfalso. clear -H. induction l as [|a l IH]; [done|]. by apply IH. }
  apply checked_add_Some in E as [-> _]. intros H. apply IH in H. unfold list_sum in *. cbn. lia.
Qed.

Lemma take_sum_le l k n : Forall (fun n => 0 <= n) l -> l !! k = Some n -> list_sum (fun n => n) (take k l) + n <= list_sum (fun n => n) l.
Proof.
  intros Hl Hk. rewrite <- (take_drop_middle l k n Hk) at 2. rewrite list_sum_app. unfold list_sum at 3. cbn [foldr].
  assert (0 <= foldr (fun a acc => a + acc) 0 (drop (S k) l)); [|lia].
  apply (list_sum_nonneg (fun n => n)). intros a Ha. by apply (proj1 (Forall_forall _ _) (Forall_drop _ (S k) _ Hl)).
Qed.

Lemma source_slot_spec source slot_id slot base :
  lease_ok source -> source_slot source slot_id = Ok (slot, base) ->
  slots (lease_entry source) !! Z.to_nat slot_id = Some slot /\ slot_ok slot /\ base = slot_base (lease_entry source) slot_id /\
  file_offset (lease_entry source) <= base /\ base + list_sum (fun n => n) (segment_sizes slot) <= file_offset (lease_entry source) + len (lease_entry source).
Proof.
  intros [Hf Hs]. unfold source_slot. set (e := lease_entry source) in *. destruct (slots e !! Z.to_nat slot_id) as [s|] eqn:Es; [|done]. cbn [ok_or].
  destruct (try_sum _ _) as [b|] eqn:Eb; [|done]. cbn [ok_or]. apply try_sum_Some in Eb. rewrite list_sum_fmap in Eb. change (b = slot_base e slot_id) in Eb.
  destruct (validate_slot s) eqn:Ev; [|done]. cbn [negb]. destruct (checked_add b _) as [last|] eqn:E1; [|done]. destruct (checked_add _ (len e)) as [limit|] eqn:E2; [|done].
  apply checked_add_Some in E1 as [-> _], E2 as [-> _]. destruct (Z.ltb_spec (file_offset e + len e) (b + slot_total_size s)); [done|]. intros [= <- <-].
  assert (list_sum (fun n => n) (segment_sizes s) = slot_total_size s) as ->.
  { unfold validate_slot in Ev. apply andb_prop in Ev as [[_ Ev%bool_decide_eq_true]%andb_prop _]. apply try_sum_Some in Ev. lia. }
  split_and!; [done|by apply (Forall_lookup_1 _ _ _ _ Hs Es)|done| |done]. rewrite Eb. assert (0 <= list_sum slot_total_size (take (Z.to_nat slot_id) (slots e))); [|unfold slot_base; lia].
  apply list_sum_nonneg. intros a Ha. apply elem_of_take in Ha as (? & Ha & _). by apply (Forall_lookup_1 _ _ _ _ Hs Ha).
Qed.

(** ** Raw blocks *)

Definition file_piece (slot : SlotMeta) (base : Z) (p : Z * Z * BlockCopy) : list (Z * Z) :=
  let '(segment, offset, c) := p in moves (mkRange (base + segment_base slot segment + offset) (addr c) (copy_bytes c)).
Definition file_inside (slot : SlotMeta) (p : Z * Z * BlockCopy) : Prop :=
  let '(segment, offset, c) := p in 0 <= offset /\ exists n, segment_sizes slot !! Z.to_nat segment = Some n /\ offset + copy_bytes c <= n.

Lemma segment_offset_spec slot base segment offset n pos :
  segment_offset slot base segment offset n = Ok pos ->
  pos = base + segment_base slot segment + offset /\ pos <= u64_max /\ exists size, segment_sizes slot !! Z.to_nat segment = Some size /\ offset + n <= size.
Proof.
  unfold segment_offset. destruct (segment_sizes slot !! _) as [size|] eqn:Es; [|done]. cbn [ok_or]. destruct (checked_add offset n) as [last|] eqn:El; [|done].
  apply checked_add_Some in El as [-> _]. destruct (Z.ltb_spec size (offset + n)); [done|]. destruct (try_sum _ _) as [start|] eqn:Et; [|done]. cbn.
  apply try_sum_Some in Et as ->. destruct (checked_add _ offset) as [p|] eqn:Ep; [|done]. apply checked_add_Some in Ep as [-> Hu]. intros [= <-].
  unfold segment_base. split_and!; [done|done|]. by exists size.
Qed.

(** A piece inside its slot lies inside the slot's bytes of the file. *)
Lemma piece_extent slot base segment offset c n :
  slot_ok slot -> 0 <= base -> 0 <= offset -> segment_sizes slot !! Z.to_nat segment = Some n -> offset + c <= n ->
  base <= base + segment_base slot segment + offset /\ base + segment_base slot segment + offset + c <= base + list_sum (fun n => n) (segment_sizes slot).
Proof.
  intros Hs Hb Ho Hn Hc. pose proof (take_sum_le _ _ _ (sl_sizes slot Hs) Hn) as Ht. fold (segment_base slot segment) in Ht.
  assert (0 <= segment_base slot segment); [|lia]. apply list_sum_nonneg. intros a Ha. apply elem_of_take in Ha as (? & Ha & _).
  by apply (Forall_lookup_1 _ _ _ _ (sl_sizes slot Hs) Ha).
Qed.

Lemma raw_range_spec slot base segment offset c r :
  piece_ok c -> 0 <= offset -> raw_range slot base segment offset c = Ok r ->
  moves r = file_piece slot base (segment, offset, c) /\ file_inside slot (segment, offset, c) /\
  r_offset r = base + segment_base slot segment + offset /\ r_offset r <= u64_max /\ r_device r = addr c /\ r_bytes r = copy_bytes c.
Proof.
  intros Hc Ho. unfold raw_range. destruct (segment_offset _ _ _ _ _) as [o|] eqn:Eo; [|done]. intros [= <-].
  apply segment_offset_spec in Eo as (-> & Hu & n & Hn & Hle). split_and!; try done. split; [done|by exists n].
Qed.

Lemma raw_copies_spec slot base offset copies rs :
  Forall piece_ok (copies_of copies) -> 0 <= offset -> raw_copies slot base offset copies = Ok rs ->
  let ps := places (1 <? zlen (segment_sizes slot)) 0 offset (copies_of copies) in
  rs ≫= moves = ps ≫= file_piece slot base /\ Forall (file_inside slot) ps /\
  Forall (fun r => exists p, p ∈ ps /\ r_offset r = base + segment_base slot p.1.1 + p.1.2 /\ r_offset r <= u64_max /\ r_device r = addr p.2 /\ r_bytes r = copy_bytes p.2) rs.
Proof.
  intros Hp Ho. destruct copies as [c|k v]; cbn [copies_of raw_copies] in *.
  - apply Forall_cons in Hp as [Hc _]. destruct (raw_range _ _ _ _ _) as [r|] eqn:Er; [|done]. intros [= <-].
    destruct (raw_range_spec _ _ _ _ _ _ Hc Ho Er) as (H1 & H2 & H3).
    assert (places (1 <? zlen (segment_sizes slot)) 0 offset [c] = [(0, offset, c)]) as -> by (by destruct (1 <? _)). cbv zeta. rewrite !bind_singleton.
    split_and!; [done|exact (Forall_cons_2 _ _ _ H2 (Forall_nil_2 _))|]. constructor; [|constructor]. exists (0, offset, c). split; [by left|done].
  - apply Forall_cons in Hp as [Hk [Hv _]%Forall_cons].
    set (place := if 1 <? zlen (segment_sizes slot) then (1, offset) else (0, offset + copy_bytes k)).
    assert (0 <= place.2) as Hpl by (subst place; destruct (1 <? _), Hk; cbn; lia).
    assert (forall r, (if 1 <? zlen (segment_sizes slot) then raw_range slot base 1 offset v
       else let? o := ok_or (checked_add offset (copy_bytes k)) SlotOffset in raw_range slot base 0 o v) = Ok r -> raw_range slot base place.1 place.2 v = Ok r) as Hsec.
    { subst place. destruct (1 <? _); intros r; [done|]. destruct (checked_add _ _) as [o|] eqn:Eo; [|done]. by apply checked_add_Some in Eo as [-> _]. }
    destruct (if 1 <? zlen (segment_sizes slot) then raw_range slot base 1 offset v else _) as [second|]; [|done]. specialize (Hsec second eq_refl). destruct (raw_range slot base 0 offset k) as [first|] eqn:Ef; [|done]. intros [= <-].
    destruct (raw_range_spec _ _ _ _ _ _ Hk Ho Ef) as (H1 & H2 & H3). destruct (raw_range_spec _ _ _ _ _ _ Hv Hpl Hsec) as (H4 & H5 & H6).
    assert (places (1 <? zlen (segment_sizes slot)) 0 offset [k; v] = [(0, offset, k); (place.1, place.2, v)]) as -> by (subst place; by destruct (1 <? _)).
    cbv zeta. rewrite !bind_cons. split_and!; [by rewrite H1, H4|exact (Forall_cons_2 _ _ _ H2 (Forall_cons_2 _ _ _ H5 (Forall_nil_2 _)))|].
    constructor; [exists (0, offset, k); split; [by left|done]|]. constructor; [|constructor]. exists (place.1, place.2, v). split; [right; by left|done].
Qed.

(** ** Encoded blocks *)

Definition encoded_expected (slot : SlotMeta) (base : Z) (p : Z * (EncodedSegment * BlockCopy)) : CopyRange * EncodedSegment :=
  let '(i, (m, c)) := p in (mkRange (base + segment_base slot i) (addr c) (es_stored_bytes m), m).
(** The segment holds the stored bytes, which represent exactly the piece, in the layer's representation of that segment or exactly. *)
Definition encoded_fits (slot : SlotMeta) (format : StorageFormat) (p : Z * (EncodedSegment * BlockCopy)) : Prop :=
  let '(i, (m, c)) := p in
  (exists n, segment_sizes slot !! Z.to_nat i = Some n /\ es_stored_bytes m <= n) /\ es_logical_bytes m = copy_bytes c /\
  (es_format m = Exact \/ es_format m = segment_format format i).

Lemma encoded_copy_spec slot base format p r :
  encoded_copy slot base format p = Ok r -> r = encoded_expected slot base p /\ encoded_fits slot format p.
Proof.
  destruct p as [i [m c]]. unfold encoded_copy. destruct (_ || _) eqn:E; [done|]. apply orb_false_elim in E as [E1%negb_false_iff%Z.eqb_eq E2].
  destruct (segment_offset _ _ _ _ _) as [o|] eqn:Eo; [|done]. intros [= <-]. apply segment_offset_spec in Eo as (-> & _ & n & Hn & Hle).
  split; [cbn; by rewrite Z.add_0_r|]. split_and!; [exists n; split; [done|lia]|done|].
  apply andb_false_iff in E2 as [E2%negb_false_iff%bool_decide_eq_true|E2%negb_false_iff%bool_decide_eq_true]; [by left|by right].
Qed.

Definition numbered (md : list EncodedSegment) (pieces : list BlockCopy) : list (Z * (EncodedSegment * BlockCopy)) :=
  zip (seqZ 0 (zlen pieces)) (zip md pieces).

Lemma encoded_copies_spec slot base offset copies format l :
  encoded_copies slot base offset copies format = Ok l ->
  exists md, slot_encoding slot = Some md /\ offset = 0 /\ length md = length (copies_of copies) /\
    l = encoded_expected slot base <$> numbered md (copies_of copies) /\ Forall (encoded_fits slot format) (numbered md (copies_of copies)).
Proof.
  unfold encoded_copies. destruct (slot_encoding slot) as [md|]; [|done]. cbn [ok_or]. destruct (_ || _) eqn:E; [done|].
  apply orb_false_elim in E as [E1%negb_false_iff%Z.eqb_eq E2%negb_false_iff%Z.eqb_eq]. intros H. apply collect_results_Ok in H.
  exists md. split_and!; [done|done|unfold zlen in E2; lia| |]; fold (numbered md (copies_of copies)) in H; clear -H.
  - induction H as [|p r ps rs Hp _ IH]; [done|]. rewrite fmap_cons. f_equal; [by apply (encoded_copy_spec _ _ _ _ _ Hp)|exact IH].
  - induction H as [|p r ps rs Hp _ IH]; [constructor|]. constructor; [by apply (encoded_copy_spec _ _ _ _ _ Hp)|exact IH].
Qed.

(** ** What a block should read *)

(** The slot of an SSD block. *)
Definition slot_at (source : SsdReadLease) (slot_id : Z) : option SlotMeta := slots (lease_entry source) !! Z.to_nat slot_id.

(** A raw block: each byte with the file it is in, its offset there and its device address. *)
Definition ssd_image (l : LayerTransferData) (b : TransferBlock) : list (Z * (Z * Z)) :=
  match payload b with
  | SsdSource source slot_id offset =>
      match slot_at source slot_id, cufile_files source !! Z.to_nat (shard_id (lease_entry source)) with
      | Some slot, Some file =>
          if bool_decide (is_Some (slot_encoding slot)) then []
          else pair file <$> (places (1 <? zlen (segment_sizes slot)) 0 offset (device_pieces (layout l) (block_idx b)) ≫= file_piece slot (slot_base (lease_entry source) slot_id))
      | _, _ => []
      end
  | _ => []
  end.
(** An encoded block: one read for each segment. *)
Definition encoded_image (l : LayerTransferData) (b : TransferBlock) : list EncodedRead :=
  match payload b with
  | SsdSource source slot_id offset =>
      match slot_at source slot_id with
      | Some slot =>
          match slot_encoding slot with
          | Some md => (fun p => mkEncodedRead source (slot_base (lease_entry source) slot_id + segment_base slot p.1) (addr p.2.2) p.2.1)
                       <$> numbered md (device_pieces (layout l) (block_idx b))
          | None => []
          end
      | None => []
      end
  | _ => []
  end.

(** The extent a block leases. *)
Definition in_extent (source : SsdReadLease) (pos n : Z) : Prop :=
  file_offset (lease_entry source) <= pos /\ pos + n <= file_offset (lease_entry source) + len (lease_entry source).
Definition reads_leased (l : LayerTransferData) (b : TransferBlock) : Prop :=
  forall source slot_id offset, payload b = SsdSource source slot_id offset ->
  Forall (fun p => in_extent source p.2.1 1) (ssd_image l b) /\
  Forall (fun r => er_source r = source /\ in_extent source (er_offset r) (es_stored_bytes (er_meta r))) (encoded_image l b).

Definition ssd_block_ok (b : TransferBlock) : Prop :=
  0 <= block_idx b /\ 0 <= host_offset (payload b) /\ forall source slot_id offset, payload b = SsdSource source slot_id offset -> lease_ok source.

Definition reads_ok (l : LayerTransferData) (b : TransferBlock) (r : BlockReads) : Prop :=
  match r with
  | NoReads => ssd_image l b = [] /\ encoded_image l b = []
  | RawReads file rs => pair file <$> (rs ≫= moves) = ssd_image l b /\ encoded_image l b = [] /\ Forall range_u64 rs
  | EncodedReads rs => rs = encoded_image l b /\ ssd_image l b = []
  end.

Lemma raw_extent source slot base ps :
  slot_ok slot -> 0 <= base -> file_offset (lease_entry source) <= base ->
  base + list_sum (fun n => n) (segment_sizes slot) <= file_offset (lease_entry source) + len (lease_entry source) ->
  Forall (file_inside slot) ps -> Forall (fun p => in_extent source p.1 1) (ps ≫= file_piece slot base).
Proof.
  intros Hs Hb Hlo Hhi Hps. apply Forall_forall. intros q Hq. apply list_elem_of_bind in Hq as ([[sg o] c] & Hq & Hin).
  apply (proj1 (Forall_forall _ _) Hps) in Hin as (Ho & n & Hn & Hle). apply elem_moves in Hq as (i & Hi & ->). cbn [r_offset r_bytes] in Hi.
  destruct (piece_extent slot base sg o (copy_bytes c) n Hs Hb Ho Hn Hle). unfold in_extent. cbn [fst r_offset]. lia.
Qed.

Lemma encoded_extent source slot base format ps :
  slot_ok slot -> 0 <= base -> file_offset (lease_entry source) <= base ->
  base + list_sum (fun n => n) (segment_sizes slot) <= file_offset (lease_entry source) + len (lease_entry source) ->
  Forall (encoded_fits slot format) ps -> Forall (fun p => in_extent source (base + segment_base slot p.1) (es_stored_bytes p.2.1)) ps.
Proof.
  intros Hs Hb Hlo Hhi Hps. eapply Forall_impl; [exact Hps|]. intros [i [m c]] ((n & Hn & Hle) & _). cbn in *.
  destruct (piece_extent slot base i 0 (es_stored_bytes m) n Hs Hb ltac:(lia) Hn ltac:(lia)). unfold in_extent. lia.
Qed.

Lemma ranges_u64 (slot : SlotMeta) base ps rs :
  slot_ok slot -> 0 <= base -> Forall (file_inside slot) ps -> Forall (fun p => piece_ok p.2) ps ->
  Forall (fun r => exists p, p ∈ ps /\ r_offset r = base + segment_base slot p.1.1 + p.1.2 /\ r_offset r <= u64_max /\ r_device r = addr p.2 /\ r_bytes r = copy_bytes p.2) rs ->
  Forall range_u64 rs.
Proof.
  intros Hs Hb Hi Hp Hrs. eapply Forall_impl; [exact Hrs|]. intros r ([[sg o] c] & Hin & H1 & H2 & H3 & H4). cbn in *.
  apply (proj1 (Forall_forall _ _) Hi) in Hin as Hin'. destruct Hin' as (Ho & n & Hn & Hle). apply (proj1 (Forall_forall _ _) Hp) in Hin as (? & ? & ?). cbn in *.
  destruct (piece_extent slot base sg o (copy_bytes c) n Hs Hb Ho Hn Hle). unfold range_u64, is_u64. rewrite H3, H4. lia.
Qed.

Lemma block_reads_spec l b r : layout_ok (layout l) -> ssd_block_ok b -> block_reads l b = Ok r -> reads_ok l b r /\ reads_leased l b.
Proof.
  intros Hl (Hb1 & Hb2 & Hb3). unfold block_reads, reads_leased.
  destruct (payload b) as [raw| |source sid off|sealed sid off] eqn:Ep.
  1,2,4: intros [= <-]; unfold reads_ok, ssd_image, encoded_image; rewrite Ep; done.
  specialize (Hb3 source sid off eq_refl). cbn in Hb2. destruct (source_slot source sid) as [[slot base]|] eqn:Es; [|done].
  destruct (source_slot_spec source sid slot base Hb3 Es) as (Hat & Hsl & Hbase & Hlo & Hhi). assert (0 <= base) as Hb0 by (destruct Hb3; lia).
  destruct (block_copies _ _) as [c|] eqn:Ec; [|done]. destruct (block_copies_pieces _ _ _ Hl Hb1 Ec) as (_ & Hpc & Hpok).
  unfold reads_ok, ssd_image, encoded_image. rewrite Ep. unfold slot_at. rewrite Hat, <- Hbase, <- Hpc in *.
  destruct (bool_decide _) eqn:Ee.
  - destruct (encoded_copies _ _ _ _ _) as [reads|] eqn:Er; [|done]. intros [= <-]. apply encoded_copies_spec in Er as (md & -> & -> & _ & -> & Hf). split.
    + split; [|by destruct (cufile_files _ !! _)]. rewrite <- list_fmap_compose. apply list_fmap_ext. by intros i [j [m p]].
    + intros ? ? ? [= <- <- <-]. split; [by destruct (cufile_files _ !! _)|]. rewrite Forall_fmap. eapply Forall_impl; [exact (encoded_extent source slot base _ _ Hsl Hb0 Hlo Hhi Hf)|]. by intros p H.
  - destruct (cufile_files _ !! _) as [file|]; [|done]. cbn [ok_or]. destruct (raw_copies _ _ _ _) as [rs|] eqn:Er; [|done]. intros [= <-].
    destruct (raw_copies_spec _ _ _ _ _ Hpok Hb2 Er) as (Hm & Hi & Hrs). destruct (slot_encoding slot); [done|]. split.
    + split_and!; [by rewrite Hm|done|]. apply (ranges_u64 slot base (places (1 <? zlen (segment_sizes slot)) 0 off (copies_of c))); try done.
      apply (Forall_fmap snd piece_ok). by rewrite places_pieces.
    + intros ? ? ? [= <- <- <-]. split; [|constructor]. rewrite Forall_fmap. eapply Forall_impl; [exact (raw_extent source slot base _ Hsl Hb0 Hlo Hhi Hi)|]. by intros p H.
Qed.

(** ** The plan *)

Definition file_moves (p : Z * list CopyRange) : list (Z * (Z * Z)) := pair p.1 <$> (p.2 ≫= moves).
Definition batches_moves (p : Z * list IoBatch) : list (Z * (Z * Z)) := pair p.1 <$> (p.2 ≫= batch_moves).

Definition sources_ok (s : Sources) : Prop := map_Forall (fun _ rs => Forall range_u64 rs) (per_file s).

Lemma add_raw (m : gmap Z (list CopyRange)) file rs :
  map_to_list (<[file := default [] (m !! file) ++ rs]> m) ≫= file_moves ≡ₚ (map_to_list m ≫= file_moves) ++ (pair file <$> (rs ≫= moves)).
Proof.
  destruct (m !! file) as [old|] eqn:Em; cbn [default from_option id].
  - rewrite <- insert_delete_eq, (map_to_list_insert (delete file m)) by apply lookup_delete_eq. rewrite bind_cons.
    rewrite <- (insert_id m file old Em) at 2. rewrite <- insert_delete_eq, (map_to_list_insert (delete file m)) by apply lookup_delete_eq. rewrite bind_cons.
    unfold file_moves at 1 3. cbn [fst snd]. rewrite bind_app, fmap_app, <- !app_assoc. apply Permutation_app_head, Permutation_app_comm.
  - rewrite (map_to_list_insert m) by done. rewrite bind_cons. cbn [app]. apply Permutation_app_comm.
Qed.

Lemma sources_spec ps reads s :
  Forall2 (fun p r => reads_ok p.1 p.2 r) ps reads -> sources_ok s ->
  let s' := foldl add_reads s reads in
  sources_ok s' /\ map_to_list (per_file s') ≫= file_moves ≡ₚ (map_to_list (per_file s) ≫= file_moves) ++ (ps ≫= (fun p => ssd_image p.1 p.2)) /\
  encoded_reads s' = encoded_reads s ++ (ps ≫= (fun p => encoded_image p.1 p.2)).
Proof.
  intros H. revert s. induction H as [|[l b] r ps reads Hr _ IH]; intros s Hok; cbn [foldl]; [by rewrite !app_nil_r|].
  rewrite !bind_cons. cbn [fst snd] in *. destruct r as [|file rs|rs]; cbn [reads_ok add_reads] in *.
  - destruct Hr as [-> ->]. by apply IH.
  - destruct Hr as (<- & -> & Hu). destruct (IH (mkSources (<[file := default [] (per_file s !! file) ++ rs]> (per_file s)) (encoded_reads s))) as (H1 & H2 & H3).
    { unfold sources_ok. cbn [per_file]. apply map_Forall_insert_2; [|done]. apply Forall_app. split; [|done].
      destruct (per_file s !! file) as [old|] eqn:E; [by apply (Hok file)|constructor]. }
    split_and!; [done| |done]. rewrite H2. cbn [per_file]. rewrite add_raw, <- app_assoc. done.
  - destruct Hr as [-> ->]. destruct (IH (mkSources (per_file s) (encoded_reads s ++ encoded_image l b)) Hok) as (H1 & H2 & H3).
    split_and!; [done|done|]. rewrite H3. cbn [encoded_reads]. by rewrite <- app_assoc.
Qed.

Lemma planned_moves (fs : list (Z * list CopyRange)) raw :
  Forall (fun p => Forall range_u64 p.2) fs ->
  collect_results (fun p : Z * list CopyRange => match plan_reads p.2 with Ok bs => Ok (p.1, bs) | Err e => Err (Io e) end) fs = Ok raw ->
  raw ≫= batches_moves ≡ₚ fs ≫= file_moves /\ Forall (fun p => Forall good p.2) raw /\ raw.*1 = fs.*1.
Proof.
  intros Hu H. apply collect_results_Ok in H. induction H as [|[f rs] q fs raw Hq _ IH]; [done|]. apply Forall_cons in Hu as [Hrs Hu]. cbn [snd fst] in *.
  pose proof (plan_reads_spec rs Hrs) as Hp. destruct (plan_reads rs) as [bs|]; [|done]. injection Hq as <-. destruct Hp as (_ & Hg & Hm & _).
  destruct (IH Hu) as (IH1 & IH2 & IH3). rewrite !bind_cons, !fmap_cons. split_and!; [|by constructor|by rewrite IH3].
  rewrite IH1. apply Permutation_app_tail. unfold batches_moves, file_moves. cbn [fst snd]. by rewrite Hm.
Qed.

Lemma Forall2_reads layers reads :
  Forall (fun l => layout_ok (layout l) /\ Forall ssd_block_ok (blocks l)) layers ->
  Forall2 (fun p r => block_reads p.1 p.2 = Ok r) (task_blocks layers) reads ->
  Forall2 (fun p r => reads_ok p.1 p.2 r) (task_blocks layers) reads /\ Forall (fun p => reads_leased p.1 p.2) (task_blocks layers).
Proof.
  intros Hls H. assert (Forall (fun p => layout_ok (layout p.1) /\ ssd_block_ok p.2) (task_blocks layers)) as Hp.
  { apply Forall_forall. intros p Hp. apply list_elem_of_bind in Hp as (l & Hp & Hl). apply list_elem_of_fmap in Hp as (b & -> & Hb).
    apply (proj1 (Forall_forall _ _) Hls) in Hl as [H1 H2]. split; [done|]. by apply (proj1 (Forall_forall _ _) H2). }
  induction H as [|p r ps rs Hr _ IH]; [done|]. apply Forall_cons in Hp as [[H1 H2] Hp]. destruct (IH Hp). destruct (block_reads_spec _ _ _ H1 H2 Hr). split; by constructor.
Qed.

Lemma validate_follows l b r : block_reads l b = Ok r -> validate_block l b = Ok tt.
Proof.
  unfold block_reads, validate_block. destruct (payload b) as [| |source sid off|]; [done..| |done]. destruct (source_slot _ _) as [[slot base]|]; [|done].
  destruct (block_copies _ _); [|done]. destruct (bool_decide _); [by destruct (encoded_copies _ _ _ _ _)|].
  destruct (cufile_files _ !! _); [|done]. cbn [ok_or]. by destruct (raw_copies _ _ _ _).
Qed.

(** C11. A restore reads exactly its SSD blocks: the batches planned for a task move, file by file, precisely the bytes of
    its raw blocks, each from the offset at which its lease holds that byte to the device address the layer gives it;
    every encoded segment is read once, in an order that keeps each generation together; all of it lies inside the
    leased extents; the batches are ones a staging slot takes; and a task that can be planned passes the checks of the
    host route. *)
Theorem ssd_plan_exact layers p :
  Forall (fun l => layout_ok (layout l) /\ Forall ssd_block_ok (blocks l)) layers -> plan layers = Ok p ->
  raw_reads p ≫= batches_moves ≡ₚ task_blocks layers ≫= (fun q => ssd_image q.1 q.2) /\ NoDup (raw_reads p).*1 /\
  encoded p ≡ₚ task_blocks layers ≫= (fun q => encoded_image q.1 q.2) /\ Sorted generation_order (encoded p) /\
  Forall (fun q => reads_leased q.1 q.2) (task_blocks layers) /\ Forall (fun q => Forall good q.2) (raw_reads p) /\
  validate_host_sources layers = Ok tt.
Proof.
  intros Hls. unfold plan. destruct (collect_results _ (task_blocks layers)) as [reads|] eqn:Er; [|done]. apply collect_results_Ok in Er.
  destruct (Forall2_reads layers reads Hls Er) as [Hr Hle]. destruct (sources_spec _ _ (mkSources ∅ []) Hr) as (Hok & Hm & He); [done|].
  set (s := foldl add_reads (mkSources ∅ []) reads) in *. destruct (collect_results _ (map_to_list _)) as [raw|] eqn:Ec; [|done]. intros [= <-]. cbn [raw_reads encoded].
  apply planned_moves in Ec as (H1 & H2 & H3).
  2: { apply Forall_forall. intros [f rs] Hin. apply elem_of_map_to_list in Hin. by apply (Hok f). }
  cbn [per_file encoded_reads] in *. rewrite map_to_list_empty in Hm. split_and!.
  - by rewrite H1, Hm.
  - rewrite H3. apply NoDup_fst_map_to_list.
  - by rewrite merge_sort_Permutation, He.
  - apply Sorted_merge_sort. intros a b. unfold generation_order. apply key_le_total.
  - done.
  - done.
  - unfold validate_host_sources. assert (exists us, collect_results (fun p => validate_block p.1 p.2) (task_blocks layers) = Ok us) as [us ->]; [|done].
    exists ((fun _ => tt) <$> reads). apply collect_results_Ok. clear -Er. induction Er; cbn; constructor; [by eapply validate_follows|done].
Qed.

(** ** A task at concrete values

    An extent with an encoded and a raw slot of two segments each, restored into two blocks. *)
Definition sample_lease : SsdReadLease :=
  mkReadLease
    (mkEntry 0 0 4096 8192
       [mkSlotMeta [16; 16] 32 0 (Some [mkSegment 1 Exact 16 16 0; mkSegment 1 Exact 16 16 0]); mkSlotMeta [16; 16] 32 0 None] Encoded 7) [5].
Definition sample_ssd_layers : list LayerTransferData :=
  [mkLayerTransfer (str "l0") sample_layout [mkTransferBlock 3 (SsdSource sample_lease 1 0); mkTransferBlock 1 (SsdSource sample_lease 0 0)]].

Lemma ssd_plan_exact_witness :
  Forall (fun l => layout_ok (layout l) /\ Forall ssd_block_ok (blocks l)) sample_ssd_layers /\
  match plan sample_ssd_layers with
  | Ok p =>
      raw_reads p = [(5, [mkBatch 8192 4096 [mkRange 8224 4144 16; mkRange 8240 4244 16]])] /\
      map (fun r => (er_offset r, er_target r)) (encoded p) = [(8192, 4112); (8208, 4212)] /\
      raw_reads p ≫= batches_moves ≡ₚ task_blocks sample_ssd_layers ≫= (fun q => ssd_image q.1 q.2)
  | Err _ => False
  end.
Proof.
  assert (Forall (fun l => layout_ok (layout l) /\ Forall ssd_block_ok (blocks l)) sample_ssd_layers) as Hok.
  { constructor; [|constructor]. split; [exact sample_layout_ok|].
    assert (lease_ok sample_lease) as Hl by (split; [discriminate|]; repeat constructor; try discriminate; intros ? [= <-]; repeat constructor; discriminate).
    constructor; [|constructor; [|constructor]]; (split; [discriminate|split; [discriminate|]]); intros ? ? ? [= <- _ _]; exact Hl. }
  split; [exact Hok|]. destruct (plan sample_ssd_layers) as [p|] eqn:E; [|vm_compute in E; discriminate].
  assert (raw_reads p = [(5, [mkBatch 8192 4096 [mkRange 8224 4144 16; mkRange 8240 4244 16]])] /\
          map (fun r => (er_offset r, er_target r)) (encoded p) = [(8192, 4112); (8208, 4212)]) as [H1 H2].
  { change (match (Ok p : result ReadPlan TransferError) with
            | Ok p => raw_reads p = [(5, [mkBatch 8192 4096 [mkRange 8224 4144 16; mkRange 8240 4244 16]])] /\
                      map (fun r => (er_offset r, er_target r)) (encoded p) = [(8192, 4112); (8208, 4212)]
            | Err _ => False end). rewrite <- E. vm_compute. split; reflexivity. }
  split_and!; [exact H1|exact H2|]. apply (ssd_plan_exact sample_ssd_layers p Hok E).
Defined.
