(* ===== verification/GpuSlot.v ===== *)
(** * GPU storage slots

    orbitkv-core/src/storage/ssd/cufile/slot.rs: a staging buffer on the device through which one batch at
    a time is read from a file and scattered, or gathered and written.  The calls a slot makes on its
    stream are values; what the stream does with them is the documented behaviour of the CUDA driver and
    of cuFile, an interface that the theorems assume. *)
From S2P Require Import Prelude Containers IoBatches.

Local Open Scope Z_scope.

(** ** Calls on a stream *)

Inductive SlotOp :=
| Memset (dst n : Z)
| CopyDevice (dst src n : Z)
| FileRead (file buffer offset n : Z)
| FileWrite (file buffer offset n : Z).

(** ** The slot *)

Record Pending := mkPending { p_file : Z; p_batch : IoBatch; p_write : bool; scattering : bool }.
Record GpuSlot := mkSlot { pointer : Z; pending : option Pending }.

Inductive SlotError := InvalidBatch (e : IoError) | Driver | Transferred.

Definition staging (ptr : Z) (b : IoBatch) (c : CopyRange) : Z := ptr + r_offset c - b_offset b.
Definition gather_ops (ptr : Z) (b : IoBatch) : list SlotOp :=
  Memset ptr (b_bytes b) :: ((fun c => CopyDevice (staging ptr b c) (r_device c) (r_bytes c)) <$> b_copies b).
Definition submit_ops (ptr file : Z) (b : IoBatch) (write : bool) : list SlotOp :=
  if write then gather_ops ptr b ++ [FileWrite file ptr (b_offset b) (b_bytes b)] else [FileRead file ptr (b_offset b) (b_bytes b)].
Definition scatter_ops (ptr : Z) (b : IoBatch) : list SlotOp :=
  (fun c => CopyDevice (r_device c) (staging ptr b c) (r_bytes c)) <$> b_copies b.

(** [submit]: [None] is the panic on a busy slot.  [refused = Some k] says that the driver refused the call after
    the first [k]; the stream is then drained and the slot is idle again. *)
Definition submit (s : GpuSlot) (file : Z) (b : IoBatch) (write : bool) (refused : option nat)
    : option (GpuSlot * list SlotOp * result unit SlotError) :=
  match pending s with
  | Some _ => None
  | None =>
      match validate b with
      | Err e => Some (s, [], Err (InvalidBatch e))
      | Ok _ =>
          let ops := submit_ops (pointer s) file b write in
          match refused with
          | Some k => Some (mkSlot (pointer s) None, take k ops, Err Driver)
          | None => Some (mkSlot (pointer s) (Some (mkPending file b write false)), ops, Ok tt)
          end
      end
  end.

(** The stream's event, and the byte count cuFile left in the slot's arguments. *)
Inductive EventStatus := EventDone (transferred : Z) | NotReady | EventFailed.

Definition poll (s : GpuSlot) (event : EventStatus) (refused : option nat) : GpuSlot * list SlotOp * option (result unit SlotError) :=
  let idle := mkSlot (pointer s) None in
  match pending s with
  | None => (s, [], None)
  | Some p =>
      match event with
      | NotReady => (s, [], None)
      | EventFailed => (idle, [], Some (Err Driver))
      | EventDone transferred =>
          if scattering p then (idle, [], Some (Ok tt))
          else if negb (transferred =? b_bytes (p_batch p)) then (idle, [], Some (Err Transferred))
          else if p_write p then (idle, [], Some (Ok tt))
          else
            let ops := scatter_ops (pointer s) (p_batch p) in
            match refused with
            | Some k => (idle, take k ops, Some (Err Driver))
            | None => (mkSlot (pointer s) (Some (mkPending (p_file p) (p_batch p) (p_write p) true)), ops, None)
            end
      end
  end.

(** ** What the stream does *)

(** Device memory by address, files by identity and offset, and what cuFile left in the arguments of the slot with a staging
    buffer: the number of bytes moved, or a negative error. *)
Record Machine := mkMachine { dev : Z -> byte; content : Z -> Z -> byte; transferred : Z -> Z }.
Definition in_range (base n a : Z) : bool := (base <=? a) && (a <? base + n).

(** The documented effect of each call, once the stream has executed it.  A copy between overlapping ranges is
    undefined, so nothing is said of it.  A file transfer can be short or fail: only the bytes it reports are moved, and the rest of
    its range holds anything. *)
Class StreamSemantics (exec : SlotOp -> Machine -> Machine -> Prop) : Prop := {
  exec_memset d n m m' : exec (Memset d n) m m' ->
    (forall a, dev m' a = if in_range d n a then byte_of 0 else dev m a) /\ content m' = content m;
  exec_copy d s n m m' : d + n <= s \/ s + n <= d \/ n <= 0 -> exec (CopyDevice d s n) m m' ->
    (forall a, dev m' a = if in_range d n a then dev m (s + (a - d)) else dev m a) /\ content m' = content m;
  exec_read f b o n m m' : exec (FileRead f b o n) m m' -> content m' = content m /\
    (forall a, in_range b (Z.min n (transferred m' b)) a = true -> dev m' a = content m f (o + (a - b))) /\
    (forall a, in_range b n a = false -> dev m' a = dev m a);
  exec_write f b o n m m' : exec (FileWrite f b o n) m m' -> dev m' = dev m /\
    (forall p, in_range o (Z.min n (transferred m' b)) p = true -> content m' f p = dev m (b + (p - o))) /\
    (forall g p, (g =? f) && in_range o n p = false -> content m' g p = content m g p) }.

(** Calls executed in the order in which they were made. *)
Inductive execs (exec : SlotOp -> Machine -> Machine -> Prop) : list SlotOp -> Machine -> Machine -> Prop :=
| execs_nil m : execs exec [] m m
| execs_cons op ops m m1 m' : exec op m m1 -> execs exec ops m1 m' -> execs exec (op :: ops) m m'.

(** What the event of a slot tells: when it is done, everything before it has been executed and the arguments can be read. *)
Definition reported (s : GpuSlot) (m : Machine) (event : EventStatus) : Prop :=
  match event with EventDone n => n = transferred m (pointer s) | NotReady | EventFailed => True end.
(** The polls of a submitted batch, up to the one that answers. *)
Inductive polls (exec : SlotOp -> Machine -> Machine -> Prop) : GpuSlot -> Machine -> GpuSlot -> Machine -> result unit SlotError -> Prop :=
| polls_answer s m event refused s' ops r m' :
    reported s m event -> poll s event refused = (s', ops, Some r) -> execs exec ops m m' -> polls exec s m s' m' r
| polls_again s m event refused s1 ops m1 s' m' r :
    reported s m event -> poll s event refused = (s1, ops, None) -> execs exec ops m m1 -> polls exec s1 m1 s' m' r -> polls exec s m s' m' r.
