(* ===== verification/GpuSlotSpec.v ===== *)
(** * GPU storage slots: what a completed batch does, and saving then restoring

    A slot that reports success has made exactly the calls of its batch; those calls move the bytes of the
    batch; and the bytes a save gathers are the bytes a restore scatters. *)
From S2P Require Import Prelude Containers IoBatches GpuSlot.

Local Open Scope Z_scope.

Section Batch.
Context (exec : SlotOp -> Machine -> Machine -> Prop) `{!StreamSemantics exec}.

Lemma execs_app l k m m' : execs exec (l ++ k) m m' -> exists m1, execs exec l m m1 /\ execs exec k m1 m'.
Proof.
  revert m. induction l as [|op l IH]; intros m; cbn; [exists m; split; [constructor|done]|].
  inversion_clear 1 as [|? ? ? m1 ? Hop Hrest]. destruct (IH _ Hrest) as (m2 & H1 & H2). exists m2. split; [by econstructor|done].
Qed.
Lemma execs_one op m m' : execs exec [op] m m' -> exec op m m'.
Proof. inversion_clear 1 as [|? ? ? m1 ? Hop Hrest]. by inversion Hrest; subst. Qed.

(** ** The protocol of a slot *)

(** A slot that reports success was told that the whole batch was moved, and scatters what it has read. *)
Lemma polls_spec s m s' m' r :
  polls exec s m s' m' r -> r = Ok tt -> forall p, pending s = Some p ->
  if scattering p then m' = m
  else transferred m (pointer s) = b_bytes (p_batch p) /\ (if p_write p then m' = m else execs exec (scatter_ops (pointer s) (p_batch p)) m m').
Proof.
  induction 1 as [s m event refused s' ops r m' Hrep Hpoll Hex|s m event refused s1 ops m1 s' m' r Hrep Hpoll Hex _ IH]; intros Hr p Hp; unfold poll in Hpoll; rewrite Hp in Hpoll.
  - subst r. destruct event as [n| |]; try done. destruct (scattering p); [injection Hpoll as <- <-; by inversion Hex|].
    destruct (Z.eqb_spec n (b_bytes (p_batch p))) as [->|]; cbn [negb] in Hpoll; [|done]. split; [done|].
    destruct (p_write p); [injection Hpoll as <- <-; by inversion Hex|by destruct refused].
  - destruct event as [n| |]; [|injection Hpoll as <- <-; inversion Hex; subst; by apply IH|done].
    destruct (scattering p); [done|]. destruct (Z.eqb_spec n (b_bytes (p_batch p))) as [->|]; cbn [negb] in Hpoll; [|done]. split; [done|].
    destruct (p_write p) eqn:Ew; [done|]. destruct refused; [done|]. injection Hpoll as <- <-. rewrite (IH Hr _ eq_refl). exact Hex.
Qed.

(** A batch that has completed: its calls were executed, and cuFile reported all of its bytes. *)
Definition completed (ptr file : Z) (b : IoBatch) (write : bool) (m m' : Machine) : Prop :=
  exists m1, execs exec (submit_ops ptr file b write) m m1 /\ transferred m1 ptr = b_bytes b /\
  if write then m' = m1 else execs exec (scatter_ops ptr b) m1 m'.
Lemma slot_completes s file b write s' ops m m1 s'' m' :
  submit s file b write None = Some (s', ops, Ok tt) -> execs exec ops m m1 -> polls exec s' m1 s'' m' (Ok tt) -> completed (pointer s) file b write m m'.
Proof.
  unfold submit. destruct (pending s); [done|]. destruct (validate b) as [[]|] eqn:Ev; [|done]. intros [= <- <-] Hex Hp.
  pose proof (polls_spec _ _ _ _ _ Hp eq_refl _ eq_refl) as [H1 H2]. exists m1. split_and!; [exact Hex|exact H1|]. cbn in H2. by destruct write.
Qed.

(** ** One batch *)

(** The device addresses a batch uses lie outside the staging buffer. *)
Definition staged (ptr : Z) (b : IoBatch) : Prop := forall c, c ∈ b_copies b -> r_device c + r_bytes c <= ptr \/ ptr + STAGING_BYTES <= r_device c.
Definition pieces_inside (b : IoBatch) : Prop :=
  0 <= b_bytes b <= STAGING_BYTES /\
  Forall (fun c => 0 < r_bytes c /\ b_offset b <= r_offset c /\ r_offset c + r_bytes c <= b_offset b + b_bytes b) (b_copies b).

Definition outside_staging (ptr a : Z) : Prop := a < ptr \/ ptr + STAGING_BYTES <= a.

Lemma in_range_true base n a : in_range base n a = true <-> base <= a < base + n.
Proof. unfold in_range. rewrite andb_true_iff, Z.leb_le, Z.ltb_lt. done. Qed.
Lemma in_range_false base n a : in_range base n a = false <-> a < base \/ base + n <= a.
Proof. unfold in_range. rewrite andb_false_iff, Z.leb_gt, Z.ltb_ge. done. Qed.

(** Staging holds, at every offset, the byte of a piece gathered so far, and zero where there is none. *)
Record gathered (ptr : Z) (b : IoBatch) (cs : list CopyRange) (m m' : Machine) : Prop := {
  g_outside : forall a, outside_staging ptr a -> dev m' a = dev m a;
  g_inside : forall p, b_offset b <= p < b_offset b + b_bytes b ->
    (exists d, (p, d) ∈ cs ≫= moves /\ dev m' (ptr + p - b_offset b) = dev m d) \/
    ((forall d, (p, d) ∉ cs ≫= moves) /\ dev m' (ptr + p - b_offset b) = byte_of 0);
  g_content : content m' = content m }.

Lemma gather_spec ptr b cs done_ m m' m'' :
  pieces_inside b -> staged ptr b -> (forall c, c ∈ cs -> c ∈ b_copies b) -> gathered ptr b done_ m m' ->
  execs exec ((fun c => CopyDevice (staging ptr b c) (r_device c) (r_bytes c)) <$> cs) m' m'' -> gathered ptr b (done_ ++ cs) m m''.
Proof.
  intros [Hsz Hin] Hst. revert done_ m'. induction cs as [|c cs IH]; intros done_ m' Hcs Hg Hex; [rewrite app_nil_r; by inversion Hex; subst|].
  inversion_clear Hex as [|? ? ? m1 ? Hop Hrest]. replace (done_ ++ c :: cs) with ((done_ ++ [c]) ++ cs) by (by rewrite <- app_assoc).
  apply (IH _ m1); [intros d Hd; apply Hcs; by right| |exact Hrest]. assert (c ∈ b_copies b) as Hc by (apply Hcs; by left).
  apply (proj1 (Forall_forall _ _) Hin) in Hc as Hci. specialize (Hst c Hc). destruct Hg as [G1 G2 G3].
  apply exec_copy in Hop as [E1 E2]; [|unfold staging; lia].
  split; [| |by rewrite E2].
  - intros a Ha. rewrite E1, (proj2 (in_range_false _ _ _)); [by apply G1|]. unfold staging, outside_staging in *. lia.
  - intros p Hp. rewrite E1. destruct (in_range _ _ _) eqn:Er.
    + apply in_range_true in Er. unfold staging in *. left. exists (r_device c + (p - r_offset c)). split.
      * rewrite bind_app. apply elem_of_app. right. rewrite bind_singleton. apply elem_moves. exists (p - r_offset c). split; [lia|]. f_equal; lia.
      * rewrite <- G1 by (unfold outside_staging; lia). f_equal. lia.
    + apply in_range_false in Er. unfold staging in *. destruct (G2 p Hp) as [(d & Hd & Hv)|[Hn Hv]]; [left; exists d; split; [|done]; rewrite bind_app; set_solver|].
      right. split; [|done]. intros d Hd. rewrite bind_app, bind_singleton in Hd. apply elem_of_app in Hd as [Hd|Hd]; [by apply (Hn d)|].
      apply elem_moves in Hd as (i & Hi & [= Hp' _]). lia.
Qed.

(** Writing a batch: the file gets the bytes of the pieces, padded with zeros; nothing else changes outside staging. *)
Lemma write_batch ptr file b m m' :
  pieces_inside b -> staged ptr b -> (forall p d d', (p, d) ∈ batch_moves b -> (p, d') ∈ batch_moves b -> d = d') -> completed ptr file b true m m' ->
  (forall a, outside_staging ptr a -> dev m' a = dev m a) /\
  (forall p d, (p, d) ∈ batch_moves b -> content m' file p = dev m d) /\
  (forall p, b_offset b <= p < b_offset b + b_bytes b -> (forall d, (p, d) ∉ batch_moves b) -> content m' file p = byte_of 0) /\
  (forall g p, g <> file \/ p < b_offset b \/ b_offset b + b_bytes b <= p -> content m' g p = content m g p).
Proof.
  intros Hi Hst Hfun (mw & Hops & Hall & ->). unfold submit_ops, gather_ops in Hops. apply execs_app in Hops as (m1 & Hg & Hw%execs_one).
  inversion_clear Hg as [|? ? ? m0 ? Hm Hg']. apply exec_memset in Hm as [M1 M2].
  assert (gathered ptr b [] m m0) as G0.
  { split; [intros a Ha; rewrite M1, (proj2 (in_range_false _ _ _)); [done|destruct Hi; unfold outside_staging in Ha; lia]| |done].
    intros p Hp. right. split; [intros d Hd; by apply elem_of_nil in Hd|]. rewrite M1, (proj2 (in_range_true _ _ _)); [done|lia]. }
  pose proof (gather_spec ptr b (b_copies b) [] m m0 m1 Hi Hst (fun c Hc => Hc) G0 Hg') as [G1 G2 G3]. cbn [app] in *. fold (batch_moves b) in G2.
  apply exec_write in Hw as (W1 & W2 & W3). rewrite Hall, Z.min_id in W2.
  assert (forall p d, (p, d) ∈ batch_moves b -> b_offset b <= p < b_offset b + b_bytes b) as Hpos.
  { intros p d Hd. apply list_elem_of_bind in Hd as (c & (i & Hii & [= -> _])%elem_moves & Hc). destruct Hi as [_ Hin]. apply (proj1 (Forall_forall _ _) Hin) in Hc. lia. }
  split_and!.
  - intros a Ha. rewrite W1. by apply G1.
  - intros p d Hd. rewrite W2 by (by apply in_range_true, (Hpos p d)). replace (ptr + (p - b_offset b)) with (ptr + p - b_offset b) by lia.
    destruct (G2 p (Hpos p d Hd)) as [(d' & Hd' & ->)|[Hn _]]; [f_equal; by apply (Hfun p)|by destruct (Hn d)].
  - intros p Hp Hn. rewrite W2 by (by apply in_range_true). replace (ptr + (p - b_offset b)) with (ptr + p - b_offset b) by lia.
    destruct (G2 p Hp) as [(d & Hd & _)|[_ ->]]; [by destruct (Hn d)|done].
  - intros g p Hgp. rewrite W3; [by rewrite G3|]. destruct (Z.eqb_spec g file) as [->|Hne]; cbn [andb]; [apply in_range_false; lia|done].
Qed.

(** Reading a batch: every target gets the byte of its file offset; nothing else changes outside staging. *)
Lemma scatter_spec ptr file b cs m m' m'' :
  pieces_inside b -> staged ptr b -> (forall c, c ∈ cs -> c ∈ b_copies b) ->
  (forall p, b_offset b <= p < b_offset b + b_bytes b -> dev m' (ptr + p - b_offset b) = content m file p) ->
  execs exec ((fun c => CopyDevice (r_device c) (staging ptr b c) (r_bytes c)) <$> cs) m' m'' ->
  content m'' = content m' /\
  (forall p, b_offset b <= p < b_offset b + b_bytes b -> dev m'' (ptr + p - b_offset b) = content m file p) /\
  (forall a, outside_staging ptr a -> (exists p, (p, a) ∈ cs ≫= moves /\ dev m'' a = content m file p) \/ (forall p, (p, a) ∉ cs ≫= moves) /\ dev m'' a = dev m' a).
Proof.
  intros [Hsz Hin] Hst. revert m'. induction cs as [|c cs IH]; intros m' Hcs Hs Hex.
  { inversion Hex; subst. split_and!; [done..|]. intros a _. right. split; [|done]. intros p Hp. by apply elem_of_nil in Hp. }
  inversion_clear Hex as [|? ? ? m1 ? Hop Hrest]. assert (c ∈ b_copies b) as Hc by (apply Hcs; by left).
  apply (proj1 (Forall_forall _ _) Hin) in Hc as Hci. specialize (Hst c Hc).
  apply exec_copy in Hop as [E1 E2]; [|unfold staging; lia].
  destruct (IH m1) as (I1 & I2 & I3); [intros d Hd; apply Hcs; by right| |exact Hrest|].
  { intros p Hp. rewrite E1, (proj2 (in_range_false _ _ _)) by lia. by apply Hs. }
  split_and!; [by rewrite I1|done|]. intros a Ha. rewrite bind_cons. destruct (I3 a Ha) as [(p & Hp & Hv)|[Hn ->]]; [left; exists p; split; [set_solver|done]|].
  rewrite E1. destruct (in_range _ _ _) eqn:Er.
  - apply in_range_true in Er. left. exists (r_offset c + (a - r_device c)). split.
    + apply elem_of_app. left. apply elem_moves. exists (a - r_device c). split; [lia|]. f_equal; lia.
    + rewrite <- Hs by lia. f_equal. unfold staging. lia.
  - apply in_range_false in Er. right. split; [|done]. intros p Hp. apply elem_of_app in Hp as [Hp|Hp]; [|by apply (Hn p)].
    apply elem_moves in Hp as (i & Hi & [= _ Hd]). lia.
Qed.

Lemma read_batch ptr file b m m' :
  pieces_inside b -> staged ptr b -> completed ptr file b false m m' ->
  content m' = content m /\
  (forall a, outside_staging ptr a -> (exists p, (p, a) ∈ batch_moves b /\ dev m' a = content m file p) \/ (forall p, (p, a) ∉ batch_moves b) /\ dev m' a = dev m a).
Proof.
  intros Hi Hst (m0 & Hread%execs_one & Hall & Hsc). apply exec_read in Hread as (R1 & R2 & R3). rewrite Hall, Z.min_id in R2.
  destruct (scatter_spec ptr file b (b_copies b) m m0 m' Hi Hst (fun c Hc => Hc)) as (S1 & _ & S3); [|exact Hsc|].
  { intros p Hp. rewrite R2 by (apply in_range_true; lia). f_equal. lia. }
  split; [by rewrite S1|]. intros a Ha. destruct (S3 a Ha) as [Hl|[Hn Hv]]; [by left|right]. split; [exact Hn|]. rewrite Hv. apply R3, in_range_false.
  destruct Hi. unfold outside_staging in Ha. lia.
Qed.

(** ** Several batches *)

(** Batches completed one after the other, each by a slot that reports success and whose staging is not among [pages]. *)
Inductive ran (pages : Z -> Prop) (write : bool) (file : Z) : list IoBatch -> Machine -> Machine -> Prop :=
| ran_nil m : ran pages write file [] m m
| ran_cons b bs s s' ops s'' m m1 m2 m' :
    submit s file b write None = Some (s', ops, Ok tt) -> execs exec ops m m1 -> polls exec s' m1 s'' m2 (Ok tt) ->
    (forall a, pages a -> outside_staging (pointer s) a) ->
    ran pages write file bs m2 m' -> ran pages write file (b :: bs) m m'.

Lemma pages_staged (pages : Z -> Prop) ptr b :
  pieces_inside b -> (forall a, pages a -> outside_staging ptr a) -> (forall p d, (p, d) ∈ batch_moves b -> pages d) -> staged ptr b.
Proof.
  intros [_ Hin] Hout Hp c Hc. pose proof (proj1 (Forall_forall _ _) Hin c Hc) as (Hn & _).
  assert (forall i, 0 <= i < r_bytes c -> outside_staging ptr (r_device c + i)) as Ho.
  { intros i Hi. apply Hout, (Hp (r_offset c + i)). apply list_elem_of_bind. exists c. split; [|done]. apply elem_moves. by exists i. }
  pose proof (Ho 0 ltac:(lia)) as H0. unfold outside_staging in *.
  destruct H0 as [H0|H0]; [left|right; lia]. destruct (decide (r_device c + r_bytes c <= ptr)) as [|Hgt]; [done|].
  specialize (Ho (ptr - r_device c) ltac:(lia)). unfold STAGING_BYTES in Ho. lia.
Qed.

Definition apart_batches (b d : IoBatch) : Prop := b_offset b + b_bytes b <= b_offset d \/ b_offset d + b_bytes d <= b_offset b.

Lemma moves_in_batch b p d : pieces_inside b -> (p, d) ∈ batch_moves b -> b_offset b <= p < b_offset b + b_bytes b.
Proof.
  intros [_ Hin] Hd. apply list_elem_of_bind in Hd as (c & (i & Hi & [= -> _])%elem_moves & Hc). apply (proj1 (Forall_forall _ _) Hin) in Hc. lia.
Qed.

Lemma ran_writes (pages : Z -> Prop) file bs m m' :
  ran pages true file bs m m' -> Forall pieces_inside bs -> ForallOrdPairs apart_batches bs ->
  (forall p d, (p, d) ∈ bs ≫= batch_moves -> pages d) ->
  (forall p d d', (p, d) ∈ bs ≫= batch_moves -> (p, d') ∈ bs ≫= batch_moves -> d = d') ->
  (forall a, pages a -> dev m' a = dev m a) /\
  (forall p d, (p, d) ∈ bs ≫= batch_moves -> content m' file p = dev m d) /\
  (forall p, Forall (fun b => p < b_offset b \/ b_offset b + b_bytes b <= p) bs -> content m' file p = content m file p).
Proof.
  induction 1 as [m|b bs s s' ops s'' m mi m1 m' Hsub Hex Hpoll Hout _ IH]; intros Hin Hap Hpg Hfun.
  { split_and!; [done| |done]. intros p d Hd. by apply elem_of_nil in Hd. }
  pose proof (slot_completes _ _ _ _ _ _ _ _ _ _ Hsub Hex Hpoll) as Hdone. inversion_clear Hin as [|? ? Hb Hbs]. inversion_clear Hap as [|? ? Hba Hap'].
  rewrite bind_cons in *. assert (staged (pointer s) b) as Hst by (apply (pages_staged pages); [done..|]; intros p d Hd; apply (Hpg p), elem_of_app; by left).
  destruct (write_batch (pointer s) file b m m1 Hb Hst) as (W1 & W2 & _ & W4); [intros p d d' H1 H2; apply (Hfun p); apply elem_of_app; by left|done|].
  destruct IH as (I1 & I2 & I3); [done|done|intros p d Hd; apply (Hpg p), elem_of_app; by right|intros p d d' H1 H2; apply (Hfun p); apply elem_of_app; by right|].
  split_and!.
  - intros a Ha. rewrite I1 by done. by apply W1, Hout.
  - intros p d Hd. apply elem_of_app in Hd as [Hd|Hd].
    + rewrite I3; [by apply W2|]. pose proof (moves_in_batch b p d Hb Hd) as Hr. eapply Forall_impl; [exact Hba|]. unfold apart_batches. intros b' Hb'. lia.
    + rewrite (I2 p d Hd). apply W1, Hout, (Hpg p), elem_of_app. by right.
  - intros p Hp. inversion_clear Hp. rewrite I3 by done. apply W4. by right.
Qed.

Lemma ran_reads (pages : Z -> Prop) file bs m m' :
  ran pages false file bs m m' -> Forall pieces_inside bs -> (forall p d, (p, d) ∈ bs ≫= batch_moves -> pages d) ->
  content m' = content m /\
  (forall a, pages a -> (exists p, (p, a) ∈ bs ≫= batch_moves /\ dev m' a = content m file p) \/ (forall p, (p, a) ∉ bs ≫= batch_moves) /\ dev m' a = dev m a).
Proof.
  induction 1 as [m|b bs s s' ops s'' m mi m1 m' Hsub Hex Hpoll Hout _ IH]; intros Hin Hpg.
  { split; [done|]. intros a _. right. split; [|done]. intros p Hp. by apply elem_of_nil in Hp. }
  pose proof (slot_completes _ _ _ _ _ _ _ _ _ _ Hsub Hex Hpoll) as Hdone. inversion_clear Hin as [|? ? Hb Hbs]. rewrite bind_cons in *.
  assert (staged (pointer s) b) as Hst by (apply (pages_staged pages); [done..|]; intros p d Hd; apply (Hpg p), elem_of_app; by left).
  destruct (read_batch (pointer s) file b m m1 Hb Hst Hdone) as (R1 & R2).
  destruct IH as (I1 & I2); [done|intros p d Hd; apply (Hpg p), elem_of_app; by right|]. split; [by rewrite I1|]. intros a Ha.
  destruct (I2 a Ha) as [(p & Hp & Hv)|[Hn ->]]; [left; exists p; rewrite <- R1; split; [apply elem_of_app; by right|done]|].
  destruct (R2 a (Hout a Ha)) as [(p & Hp & Hv)|[Hn' Hv]]; [left; exists p; split; [apply elem_of_app; by left|done]|].
  right. split; [|done]. intros p [Hp|Hp]%elem_of_app; [by apply (Hn' p)|by apply (Hn p)].
Qed.

Lemma ranges_apart bs offset n :
  Forall (fun b => 0 < b_bytes b) bs -> bs ≫= (fun b => seqZ (b_offset b) (b_bytes b)) = seqZ offset n -> ForallOrdPairs apart_batches bs.
Proof.
  intros Hpos Hs. assert (NoDup (bs ≫= (fun b => seqZ (b_offset b) (b_bytes b)))) as Hnd by (rewrite Hs; apply NoDup_seqZ). clear Hs.
  induction Hpos as [|b bs Hb Hpos IH]; [constructor|]. rewrite bind_cons in Hnd. apply NoDup_app in Hnd as (_ & Hdis & Hnd). constructor; [|by apply IH].
  apply Forall_forall. intros d Hd. apply (proj1 (Forall_forall _ _) Hpos) in Hd as Hdp. unfold apart_batches.
  destruct (decide (b_offset b + b_bytes b <= b_offset d)) as [|H1]; [by left|]. destruct (decide (b_offset d + b_bytes d <= b_offset b)) as [|H2]; [by right|].
  exfalso. apply (Hdis (Z.max (b_offset b) (b_offset d))); [apply elem_of_seqZ; lia|]. apply list_elem_of_bind. exists d. split; [apply elem_of_seqZ; lia|done].
Qed.

#[local] Instance apart_batches_sym : Symmetric apart_batches.
Proof. intros b d. unfold apart_batches. tauto. Qed.

(** C6. What a save writes through the GPU is what a restore reads: after the batches planned for a reservation have
    completed in any order, and the batches planned for a later read have completed in any order from the same
    reserved bytes, every device address that is the target of a file offset holds the byte that the save had at the
    source address of that offset.  cuFile may move fewer bytes than asked; a batch counts as completed when its slot reports
    success. *)
Theorem ssd_save_restore (pages : Z -> Prop) file offset n sources targets ws rs ws' rs' m m1 m2 m3 :
  is_u64 offset -> is_u64 n -> Forall range_u64 sources -> Forall range_u64 targets ->
  plan_writes offset n sources = Ok ws -> plan_reads targets = Ok rs -> ws' ≡ₚ ws -> rs' ≡ₚ rs ->
  (forall p d, (p, d) ∈ sources ≫= moves -> pages d) -> (forall p d, (p, d) ∈ targets ≫= moves -> pages d) ->
  (forall p d d', (p, d) ∈ sources ≫= moves -> (p, d') ∈ sources ≫= moves -> d = d') ->
  (forall p p' d, (p, d) ∈ targets ≫= moves -> (p', d) ∈ targets ≫= moves -> p = p') ->
  ran pages true file ws' m m1 -> (forall p, offset <= p < offset + n -> content m2 file p = content m1 file p) -> ran pages false file rs' m2 m3 ->
  forall p s t, (p, s) ∈ sources ≫= moves -> (p, t) ∈ targets ≫= moves -> dev m3 t = dev m s.
Proof.
  intros Ho Hn Hsu Htu Hw Hr Hpw Hpr Hps Hpt Hfs Hft Hrw Hkeep Hrr p s t Hs Ht.
  pose proof (plan_writes_spec offset n sources Ho Hn Hsu) as HW. rewrite Hw in HW. destruct HW as ((_ & _ & _ & _ & Hins) & Hwok & Htile & Hwm).
  pose proof (plan_reads_spec targets Htu) as HR. rewrite Hr in HR. destruct HR as (_ & Hrg & Hrm & _).
  assert (ws' ≫= batch_moves ≡ₚ sources ≫= moves) as Ew by (by rewrite Hpw). assert (rs' ≫= batch_moves ≡ₚ targets ≫= moves) as Er by (by rewrite Hpr).
  assert (Forall pieces_inside ws') as Hwi.
  { rewrite Hpw. eapply Forall_impl; [exact Hwok|]. intros b []. split; [lia|]. eapply Forall_impl; [eassumption|]. cbn. intros c ([] & ? & ? & ?). lia. }
  assert (Forall pieces_inside rs') as Hri.
  { rewrite Hpr. eapply Forall_impl; [exact Hrg|]. intros b [[] ?]. split; [lia|]. eapply Forall_impl; [eassumption|]. cbn. intros c ([] & ? & ? & ?). lia. }
  assert (ForallOrdPairs apart_batches ws') as Hap.
  { apply (ordered_pairs_perm _ ws); [by symmetry|]. apply (ranges_apart ws offset n); [|done]. eapply Forall_impl; [exact Hwok|]. intros b []. lia. }
  destruct (ran_writes pages file ws' m m1 Hrw Hwi Hap) as (_ & HW & _); [intros q d; rewrite Ew; apply Hps|intros q d d'; rewrite Ew; apply Hfs|].
  destruct (ran_reads pages file rs' m2 m3 Hrr Hri) as (_ & HR); [intros q d; rewrite Er; apply Hpt|].
  destruct (HR t (Hpt p t Ht)) as [(q & Hq & ->)|[Hno _]]; [|destruct (Hno p); by rewrite Er].
  rewrite Er in Hq. rewrite (Hft q p t Hq Ht), Hkeep; [apply HW; by rewrite Ew|].
  apply list_elem_of_bind in Hs as (c & (i & Hi & [= -> _])%elem_moves & Hc). apply (proj1 (Forall_forall _ _) Hins) in Hc as (? & ? & _). lia.
Qed.
End Batch.

(** ** A stream at concrete values *)

(** A call, with the number of bytes that a file transfer moves. *)
Definition sample_apply (k : Z) (op : SlotOp) (m : Machine) : Machine :=
  let moved b := fun s => if s =? b then k else transferred m s in
  match op with
  | Memset d n => mkMachine (fun a => if in_range d n a then byte_of 0 else dev m a) (content m) (transferred m)
  | CopyDevice d s n => mkMachine (fun a => if in_range d n a then dev m (s + (a - d)) else dev m a) (content m) (transferred m)
  | FileRead f b o _ => mkMachine (fun a => if in_range b k a then content m f (o + (a - b)) else dev m a) (content m) (moved b)
  | FileWrite f b o _ => mkMachine (dev m) (fun g p => if (g =? f) && in_range o k p then dev m (b + (p - o)) else content m g p) (moved b)
  end.
Definition sample_exec (op : SlotOp) (m m' : Machine) : Prop :=
  exists k, match op with FileRead _ _ _ n | FileWrite _ _ _ n => k <= n | Memset _ _ | CopyDevice _ _ _ => True end /\ m' = sample_apply k op m.
Lemma in_range_less base k n a : k <= n -> in_range base n a = false -> in_range base k a = false.
Proof. rewrite !in_range_false. lia. Qed.
#[export] Instance sample_stream : StreamSemantics sample_exec.
Proof.
  split.
  - by intros d n m m' (k & _ & ->).
  - by intros d s n m m' _ (k & _ & ->).
  - intros f b o n m m' (k & Hk & ->). split_and!; [done| |]; cbn; rewrite ?Z.eqb_refl.
    + intros a Ha. rewrite Z.min_r in Ha by done. by rewrite Ha.
    + intros a Ha. by rewrite (in_range_less _ _ _ _ Hk Ha).
  - intros f b o n m m' (k & Hk & ->). split_and!; [done| |]; cbn; rewrite ?Z.eqb_refl.
    + intros a Ha. rewrite Z.min_r in Ha by done. by rewrite Ha.
    + intros g p. destruct (g =? f); [|done]. cbn. intros Hp. by rewrite (in_range_less _ _ _ _ Hk Hp).
Qed.

Definition sample_sources : list CopyRange := [mkRange 8192 65536 300].
Definition sample_targets : list CopyRange := [mkRange 8200 131072 100].
Definition sample_pages (a : Z) : Prop := a < 1048576.
Definition sample_slot : GpuSlot := mkSlot 1048576 None.
Definition sample_machine : Machine := mkMachine (fun a => byte_of a) (fun _ _ => byte_of 255) (fun _ => 0).

Definition sample_written : IoBatch := mkBatch 8192 4096 sample_sources.
Definition sample_read : IoBatch := mkBatch 8192 4096 sample_targets.
Definition sample_run (ops : list SlotOp) (m : Machine) : Machine := foldl (fun m op => sample_apply 4096 op m) m ops.
Definition sample_saved : Machine := sample_run (submit_ops 1048576 0 sample_written true) sample_machine.
Definition sample_staged : Machine := sample_run (submit_ops 1048576 0 sample_read false) sample_saved.
Definition sample_restored : Machine := sample_run (scatter_ops 1048576 sample_read) sample_staged.

Lemma sample_execs ops m :
  Forall (fun op => match op with FileRead _ _ _ n | FileWrite _ _ _ n => 4096 <= n | Memset _ _ | CopyDevice _ _ _ => True end) ops ->
  execs sample_exec ops m (sample_run ops m).
Proof.
  intros Hops. revert m. induction Hops as [|op ops Hop _ IH]; intros m; [constructor|]. econstructor; [|apply IH]. exists 4096. by destruct op.
Qed.
Lemma sample_pages_outside a : sample_pages a -> outside_staging (pointer sample_slot) a.
Proof. unfold sample_pages, outside_staging. cbn. lia. Qed.
Lemma sample_save_ran : ran sample_exec sample_pages true 0 [sample_written] sample_machine sample_saved.
Proof.
  apply (ran_cons sample_exec sample_pages true 0 sample_written [] sample_slot (mkSlot 1048576 (Some (mkPending 0 sample_written true false)))
           (submit_ops 1048576 0 sample_written true) sample_slot _ sample_saved sample_saved);
    [vm_compute; reflexivity|by apply sample_execs; repeat constructor| |exact sample_pages_outside|apply ran_nil].
  apply (polls_answer _ _ _ (EventDone 4096) None _ []); [reflexivity|vm_compute; reflexivity|constructor].
Qed.
(** The second poll sees the read done and starts the scatter, the third sees the scatter done. *)
Lemma sample_restore_ran : ran sample_exec sample_pages false 0 [sample_read] sample_saved sample_restored.
Proof.
  apply (ran_cons sample_exec sample_pages false 0 sample_read [] sample_slot (mkSlot 1048576 (Some (mkPending 0 sample_read false false)))
           (submit_ops 1048576 0 sample_read false) sample_slot _ sample_staged sample_restored);
    [vm_compute; reflexivity|by apply sample_execs; repeat constructor| |exact sample_pages_outside|apply ran_nil].
  eapply (polls_again _ _ _ NotReady None _ []); [done|reflexivity|constructor|].
  eapply (polls_again _ _ _ (EventDone 4096) None _ (scatter_ops 1048576 sample_read)); [reflexivity|vm_compute; reflexivity|by apply sample_execs; repeat constructor|].
  apply (polls_answer _ _ _ (EventDone 4096) None _ []); [reflexivity|vm_compute; reflexivity|constructor].
Qed.

Lemma sample_moves o d n p t : (p, t) ∈ [mkRange o d n] ≫= moves <-> exists i, 0 <= i < n /\ p = o + i /\ t = d + i.
Proof. rewrite bind_singleton, elem_moves. cbn. split; [intros (i & Hi & [= -> ->]); by exists i|intros (i & Hi & -> & ->); by exists i]. Qed.

Lemma ssd_save_restore_witness :
  plan_writes 8192 4096 sample_sources = Ok [sample_written] /\ plan_reads sample_targets = Ok [sample_read] /\ dev sample_restored 131072 = dev sample_machine 65544.
Proof.
  assert (plan_writes 8192 4096 sample_sources = Ok [sample_written]) as Hw by (vm_compute; reflexivity).
  assert (plan_reads sample_targets = Ok [sample_read]) as Hr by (vm_compute; reflexivity).
  split; [exact Hw|]. split; [exact Hr|].
  apply (ssd_save_restore sample_exec sample_pages 0 8192 4096 sample_sources sample_targets _ _ _ _ sample_machine sample_saved sample_saved sample_restored
           ltac:(done) ltac:(done) ltac:(repeat constructor; done) ltac:(repeat constructor; done) Hw Hr (Permutation_refl _) (Permutation_refl _)) with (p := 8200).
  1,2: intros p d (i & Hi & _ & ->)%sample_moves; unfold sample_pages; lia.
  1,2: intros p d d' (i & Hi & ? & ?)%sample_moves (j & Hj & ? & ?)%sample_moves; lia.
  - exact sample_save_ran.
  - done.
  - exact sample_restore_ran.
  - apply sample_moves. by exists 8.
  - apply sample_moves. by exists 0.
Defined.
