(* ===== verification/SsdQueue.v ===== *)
(** * The GPU storage queue

    orbitkv-core/src/transfer/worker/ssd/queue.rs: one thread admits restore and save tasks, cuts them into
    batches for the staging slots, feeds encoded input to the decoder, publishes completed extents and
    finishes jobs.  A turn of its loop is a function of what the channel, the devices and the decoder
    answer in that turn.  [None] stands for a panic: a failed [expect], an assertion or an underflow. *)
From S2P Require Import Prelude Containers Vecs State Blocks SsdRing IoBatches Transfers.

Local Open Scope Z_scope.
Local Open Scope rust_scope.

Definition READ_BURST : Z := 4.
Definition MAX_BATCH_SEGMENTS : nat := 256.
Definition ADMISSIONS : nat := 32.

(** ** Jobs *)

Inductive JobError := PlanFailed (e : TransferError) | PrepareFailed | HostFailed | ConsumerClosed | IoFailed | SlotsFailed | DecoderFailed | DecodeFailed.

Record Work := mkWork { w_file : Z; w_batch : IoBatch; w_write : option nat; w_encoded : bool }.
(** A reservation being written: whether its extent is still unpublished, and the batches left. *)
Record Write := mkWrite { wr_lease : bool; wr_remaining : Z }.
Record BatchOwner := mkOwner { o_job : Z; o_write : option nat; o_encoded : bool }.

Record Job := mkJob {
  j_id : Z; j_save : bool; j_budget : Z;
  j_work : list Work; j_encoded : list EncodedRead; j_decoding : bool; j_writes : list Write;
  j_inflight : Z; j_error : option JobError; j_prepared : bool; j_host : bool
}.

Inductive Command :=
| Load (layers : list LayerTransferData) (codec_budget : Z)
| Save (ssd_writes : list (Z * list IoBatch))
| Drain.

Definition fail (e : JobError) (j : Job) : Job :=
  mkJob (j_id j) (j_save j) (j_budget j) [] [] (j_decoding j) (j_writes j) (j_inflight j) (Some (default e (j_error j))) (j_prepared j) (j_host j).

(** [Job::new]; the queue handles [Drain] itself. *)
Definition raw_works (file : Z) (bs : list IoBatch) (write : option nat) : list Work := (fun b => mkWork file b write false) <$> bs.
Definition new_job (id : Z) (c : Command) : option Job :=
  match c with
  | Load layers budget =>
      let job work enc := mkJob id false budget work enc false [] 0 None false false in
      Some match plan layers with
           | Ok p => job (raw_reads p ≫= (fun fb => raw_works fb.1 fb.2 None)) (encoded p)
           | Err e => fail (PlanFailed e) (job [] [])
           end
  | Save ws =>
      Some (mkJob id true 0 (concat (imap (fun i fb => raw_works fb.1 fb.2 (Some i)) ws)) [] false ((fun fb => mkWrite true (zlen fb.2)) <$> ws) 0 None false false)
  | Drain => None
  end.

(** [prepare]: codec work and host copies are submitted once; the answer says whether a host copy is under way. *)
Inductive PrepareAnswer := Submitted (host_copy : bool) | NotSubmitted.
Definition prepare (answer : PrepareAnswer) (j : Job) : result Job unit :=
  if j_prepared j then Ok j
  else match answer with
       | NotSubmitted => Err tt
       | Submitted host => Ok (mkJob (j_id j) (j_save j) (j_budget j) (j_work j) (j_encoded j) (j_decoding j) (j_writes j) (j_inflight j) (j_error j) true host)
       end.

Definition set_host (h : bool) (j : Job) : Job :=
  mkJob (j_id j) (j_save j) (j_budget j) (j_work j) (j_encoded j) (j_decoding j) (j_writes j) (j_inflight j) (j_error j) (j_prepared j) h.
Inductive HostAnswer := HostDone | HostPending | HostError.
Definition poll_host (answer : HostAnswer) (j : Job) : Job :=
  if j_host j
  then match answer with HostDone => set_host false j | HostPending => j | HostError => fail HostFailed (set_host false j) end
  else j.

Definition cancel_abandoned (closed : bool) (j : Job) : Job := if closed then fail ConsumerClosed j else j.

Inductive Event :=
| Committed (job : Z) (write : nat)
| Finished (job : Z) (error : option JobError) (writes : list Write)
| Invalidated (job : Z).

(** [complete]: a batch of the job is done. *)
Definition complete (write : option nat) (r : result unit unit) (j : Job) : option (Job * list Event) :=
  if j_inflight j <? 1 then None
  else
    let publish := is_ok r && bool_decide (j_error j = None) in
    let base ws := mkJob (j_id j) (j_save j) (j_budget j) (j_work j) (j_encoded j) (j_decoding j) ws (j_inflight j - 1) (j_error j) (j_prepared j) (j_host j) in
    let settle (j : Job) := if is_ok r then j else fail IoFailed j in
    match write with
    | None => Some (settle (base (j_writes j)), [])
    | Some k =>
        w ← j_writes j !! k;
        if wr_remaining w <? 1 then None
        else if (wr_remaining w - 1 =? 0) && publish
        then if wr_lease w then Some (settle (base (<[k := mkWrite false 0]> (j_writes j))), [Committed (j_id j) k]) else None
        else Some (settle (base (<[k := mkWrite (wr_lease w) (wr_remaining w - 1)]> (j_writes j))), [])
    end.

Definition is_complete (j : Job) : bool :=
  (j_inflight j =? 0) && bool_decide (j_work j = []) && bool_decide (j_encoded j = []) && negb (j_decoding j) && negb (j_host j).

(** [finish], with its assertions. *)
Definition finish (j : Job) : option Event :=
  if (j_inflight j =? 0) && negb (j_decoding j) && negb (j_host j) then Some (Finished (j_id j) (j_error j) (j_writes j)) else None.

(** ** Decoding *)

Inductive DecodePhase := Preparing | Reading | Decoding.
Record Decode := mkDecode { d_job : Z; d_reads : list EncodedRead; d_offsets : list Z; d_base : Z; d_remaining : Z; d_phase : DecodePhase }.

(** [input_window]: where each segment goes in the codec's input, and how long the input is. *)
Fixpoint window_loop (budget : Z) (offsets : list Z) (n : Z) (sizes : list Z) : result (list Z * Z) unit :=
  match sizes with
  | [] => Ok (offsets, n)
  | size :: sizes =>
      let? e := ok_or (s ← checked_add n size; checked_next_multiple_of s 4096) tt in
      if (size =? 0) || (budget <? saturating_add e 8192) then Ok (offsets, n)
      else if negb (bool_decide (offsets = [])) && (budget / 2 <? e) then Ok (offsets, n)
      else window_loop budget (offsets ++ [n]) e sizes
  end.
Definition input_window (sizes : list Z) (budget : Z) : result (list Z * Z) unit :=
  let? w := window_loop budget [] 0 (take MAX_BATCH_SEGMENTS sizes) in
  if bool_decide (w.1 = []) then Err tt else Ok w.

(** The reads of the first one's generation. *)
Definition generation (r : EncodedRead) : Z := readers (lease_entry (er_source r)).
Fixpoint same_generation_prefix (g : Z) (l : list EncodedRead) : list EncodedRead :=
  match l with [] => [] | r :: l => if generation r =? g then r :: same_generation_prefix g l else [] end.

Definition set_decoding (d : bool) (j : Job) : Job :=
  mkJob (j_id j) (j_save j) (j_budget j) (j_work j) (j_encoded j) d (j_writes j) (j_inflight j) (j_error j) (j_prepared j) (j_host j).
Definition set_work (w : list Work) (enc : list EncodedRead) (j : Job) : Job :=
  mkJob (j_id j) (j_save j) (j_budget j) w enc (j_decoding j) (j_writes j) (j_inflight j) (j_error j) (j_prepared j) (j_host j).

(** [Decode::begin]; [sent]: the decoder took the command. *)
Definition decode_begin (sent : bool) (j : Job) : result (Job * Decode) unit :=
  if j_save j then Err tt
  else match j_encoded j with
       | [] => Err tt
       | first :: _ =>
           let sizes := (fun r => es_stored_bytes (er_meta r)) <$> same_generation_prefix (generation first) (j_encoded j) in
           let? w := input_window sizes (j_budget j) in
           if sent
           then Ok (set_decoding true (set_work (j_work j) (drop (length w.1) (j_encoded j)) j),
                    mkDecode (j_id j) (take (length w.1) (j_encoded j)) w.1 0 0 Preparing)
           else Err tt
       end.

(** [Decode::prepared]: the input is at [base]; its batches join the job's work. *)
Definition input_ranges (d : Decode) (base : Z) : result (list CopyRange) unit :=
  collect_results (fun p => let? dev := ok_or (checked_add base p.2) tt in Ok (mkRange (er_offset p.1) dev (es_stored_bytes (er_meta p.1)))) (zip (d_reads d) (d_offsets d)).
Definition decode_file (d : Decode) : option Z := r ← d_reads d !! 0%nat; cufile_files (er_source r) !! Z.to_nat (shard_id (lease_entry (er_source r))).
Definition decode_prepared (d : Decode) (base : Z) (j : Job) : result (Job * Decode) unit :=
  let? ranges := input_ranges d base in
  match plan_reads ranges with
  | Err _ => Err tt
  | Ok bs =>
      let done := mkDecode (d_job d) (d_reads d) (d_offsets d) base (zlen bs) Reading in
      match bs, decode_file d with
      | [], _ => Ok (j, done)
      | _, None => Err tt
      | _, Some file => Ok (set_work (j_work j ++ ((fun b => mkWork file b None true) <$> bs)) (j_encoded j) j, done)
      end
  end.

(** What the decoder's channel gives. *)
Inductive DecodeReply := Prepared (base : result Z unit) | Decoded (corrupt_or_failed : result unit bool) | NoReply | Disconnected.

(** ** The queue *)

Record Queue := mkQueue {
  q_jobs : list Job; q_slots : list (option BatchOwner); q_decoder : bool; q_decoding : option Decode;
  q_closed : bool; q_next : Z; q_burst : Z; q_reset : bool; q_stopped : bool; q_log : list Event
}.
Definition queue_new : Queue := mkQueue [] [] false None false 0 0 false false [].

Definition set_jobs (js : list Job) (q : Queue) : Queue :=
  mkQueue js (q_slots q) (q_decoder q) (q_decoding q) (q_closed q) (q_next q) (q_burst q) (q_reset q) (q_stopped q) (q_log q).
Definition set_decode (d : option Decode) (q : Queue) : Queue :=
  mkQueue (q_jobs q) (q_slots q) (q_decoder q) d (q_closed q) (q_next q) (q_burst q) (q_reset q) (q_stopped q) (q_log q).
Definition set_slots (ss : list (option BatchOwner)) (reset : bool) (q : Queue) : Queue :=
  mkQueue (q_jobs q) ss (q_decoder q) (q_decoding q) (q_closed q) (q_next q) (q_burst q) reset (q_stopped q) (q_log q).
Definition record (es : list Event) (q : Queue) : Queue :=
  mkQueue (q_jobs q) (q_slots q) (q_decoder q) (q_decoding q) (q_closed q) (q_next q) (q_burst q) (q_reset q) (q_stopped q) (q_log q ++ es).

Definition find_job (id : Z) (q : Queue) : option Job := List.find (fun j => j_id j =? id) (q_jobs q).
Definition put_job (j : Job) (js : list Job) : list Job := (fun k => if j_id k =? j_id j then j else k) <$> js.

(** What the world answers in one turn. *)
Record Turn := mkTurn {
  t_inbox : list (option Command);
  t_host : Z -> HostAnswer; t_closed : Z -> bool;
  t_poll : nat -> option (result unit unit);
  t_reply : DecodeReply;
  t_slots : bool; t_prepare : Z -> PrepareAnswer; t_decoder : bool; t_sent : bool;
  t_submit : nat -> bool
}.

(** Admission: at most [ADMISSIONS] commands; [None] in the inbox is a disconnected channel. *)
Fixpoint admission (n : nat) (inbox : list (option Command)) (q : Queue) : Queue :=
  match n, inbox with
  | S n, c :: inbox =>
      if q_closed q then q
      else
        let close := mkQueue (q_jobs q) (q_slots q) (q_decoder q) (q_decoding q) true (q_next q) (q_burst q) (q_reset q) (q_stopped q) (q_log q) in
        match c with
        | None | Some Drain => admission n inbox close
        | Some c =>
            match new_job (q_next q) c with
            | Some j => admission n inbox (mkQueue (q_jobs q ++ [j]) (q_slots q) (q_decoder q) (q_decoding q) (q_closed q) (q_next q + 1) (q_burst q) (q_reset q) (q_stopped q) (q_log q))
            | None => admission n inbox q
            end
        end
  | _, _ => q
  end.

(** The slots that answer: the owner is taken, a decoding input counted down, and the job's batch completed. *)
Definition settle_slot (i : nat) (o : BatchOwner) (r : result unit unit) (q : Queue) : option Queue :=
  let q := set_slots (<[i := None]> (q_slots q)) (q_reset q || negb (is_ok r)) q in
  q ← (if o_encoded o
       then d ← q_decoding q;
            if negb (d_job d =? o_job o) || (d_remaining d <? 1) then None
            else Some (set_decode (Some (mkDecode (d_job d) (d_reads d) (d_offsets d) (d_base d) (d_remaining d - 1) (d_phase d))) q)
       else Some q);
  j ← find_job (o_job o) q;
  jes ← complete (o_write o) r j;
  Some (record jes.2 (set_jobs (put_job jes.1 (q_jobs q)) q)).
Fixpoint poll_slots (t : Turn) (n i : nat) (q : Queue) : option Queue :=
  match n with
  | O => Some q
  | S n =>
      match q_slots q !! i with
      | Some (Some o) =>
          match t_poll t i with
          | Some r => q ← settle_slot i o r q; poll_slots t n (S i) q
          | None => poll_slots t n (S i) q
          end
      | _ => poll_slots t n (S i) q
      end
  end.

(** [poll_decode]. *)
Definition release_decode (j : Job) (q : Queue) : Queue := set_decode None (set_jobs (put_job (set_decoding false j) (q_jobs q)) q).
Definition keep_decode (d : Decode) (j : Job) (q : Queue) : Queue := set_decode (Some d) (set_jobs (put_job j (q_jobs q)) q).
(** The part for the [Reading] phase; [sent]: the decoder took the ranges. *)
Definition poll_reading (sent : bool) (d : Decode) (j : Job) (q : Queue) : Queue :=
  match d_phase d with
  | Reading =>
      if bool_decide (is_Some (j_error j))
      then if j_inflight j =? 0 then release_decode j q else keep_decode d j q
      else if d_remaining d =? 0
      then if sent then keep_decode (mkDecode (d_job d) (d_reads d) (d_offsets d) (d_base d) (d_remaining d) Decoding) j q
           else release_decode (fail DecoderFailed j) q
      else keep_decode d j q
  | _ => keep_decode d j q
  end.
Definition poll_decode (t : Turn) (q : Queue) : option Queue :=
  match q_decoding q with
  | None => Some q
  | Some d =>
      j ← find_job (d_job d) q;
      Some match d_phase d, t_reply t with
           | Reading, _ | _, NoReply => poll_reading (t_sent t) d j q
           | _, Prepared base =>
               if is_ok base && bool_decide (is_Some (j_error j)) then release_decode j q
               else match (let? b := base in decode_prepared d b j) with
                    | Ok (j, d) => poll_reading (t_sent t) d j q
                    | Err _ => release_decode (fail DecoderFailed j) q
                    end
           | _, Decoded (Ok _) => release_decode j q
           | _, Decoded (Err corrupt) =>
               record (if corrupt then [Invalidated (j_id j)] else []) (release_decode (fail DecodeFailed j) q)
           | _, Disconnected => release_decode (fail DecoderFailed j) q
           end
  end.

(** Completed jobs leave in order and finish. *)
Fixpoint reap (js : list Job) : option (list Job * list Event) :=
  match js with
  | [] => Some ([], [])
  | j :: js =>
      if is_complete j then e ← finish j; r ← reap js; Some (r.1, e :: r.2)
      else r ← reap js; Some (j :: r.1, r.2)
  end.

(** ** Dispatch *)

Definition eligible (q : Queue) (j : Job) : bool :=
  negb (bool_decide (j_work j = []) && (bool_decide (j_encoded j = []) || bool_decide (is_Some (q_decoding q)))).
Definition write_in_flight (q : Queue) : bool :=
  existsb (fun s => match s with Some o => bool_decide (is_Some (o_write o)) | None => false end) (q_slots q).
(** The job to serve, and whether it reads. *)
Definition select (q : Queue) : option (nat * bool) :=
  let read := position (fun j => negb (j_save j) && eligible q j) (q_jobs q) in
  let write := if write_in_flight q then None else position (fun j => j_save j && eligible q j) (q_jobs q) in
  match read, write with
  | Some r, Some w => if READ_BURST <=? q_burst q then Some (w, false) else Some (r, true)
  | Some r, None => Some (r, true)
  | None, Some w => Some (w, false)
  | None, None => None
  end.

(** The queue after a job has been taken from [position] and put back behind the others. *)
Definition requeue (pos : nat) (j : Job) (q : Queue) : Queue := set_jobs (delete pos (q_jobs q) ++ [j]) q.

Definition dispatch (t : Turn) (i : nat) (q : Queue) : option Queue :=
  if q_reset q then Some q
  else match q_slots q !! i, select q with
       | Some None, Some (pos, reading) =>
           job ← q_jobs q !! pos;
           let q := mkQueue (q_jobs q) (q_slots q) (q_decoder q) (q_decoding q) (q_closed q) (q_next q)
                      (if reading then Z.min (q_burst q + 1) READ_BURST else 0) (q_reset q) (q_stopped q) (q_log q) in
           Some match prepare (t_prepare t (j_id job)) job with
                | Err _ => requeue pos (fail PrepareFailed job) q
                | Ok job =>
                    match j_work job with
                    | [] =>
                        if negb (q_decoder q) && negb (t_decoder t) then requeue pos (fail DecoderFailed job) q
                        else
                          let q := mkQueue (q_jobs q) (q_slots q) true (q_decoding q) (q_closed q) (q_next q) (q_burst q) (q_reset q) (q_stopped q) (q_log q) in
                          match decode_begin (t_sent t) job with
                          | Ok (job, d) => set_decode (Some d) (requeue pos job q)
                          | Err _ => requeue pos (fail DecoderFailed job) q
                          end
                    | w :: ws =>
                        let job := set_work ws (j_encoded job) job in
                        if t_submit t i
                        then set_slots (<[i := Some (mkOwner (j_id job) (w_write w) (w_encoded w))]> (q_slots q)) (q_reset q)
                               (requeue pos (mkJob (j_id job) (j_save job) (j_budget job) (j_work job) (j_encoded job) (j_decoding job) (j_writes job)
                                               (j_inflight job + 1) (j_error job) (j_prepared job) (j_host job)) q)
                        else set_slots (q_slots q) true (requeue pos (fail IoFailed job) q)
                    end
                end
       | _, _ => Some q
       end.
Fixpoint dispatch_all (t : Turn) (n i : nat) (q : Queue) : option Queue :=
  match n with O => Some q | S n => q ← dispatch t i q; dispatch_all t n (S i) q end.

(** ** A turn of the loop *)

(** Host copies and abandoned consumers are polled for every job. *)
Definition polled_jobs (t : Turn) (q : Queue) : Queue := set_jobs ((fun j => cancel_abandoned (t_closed t (j_id j)) (poll_host (t_host t (j_id j)) j)) <$> q_jobs q) q.
(** Failed slots are dropped once none is in use. *)
Definition reset_slots (q : Queue) : Queue := if q_reset q && forallb (fun s => negb (bool_decide (is_Some s))) (q_slots q) then set_slots [] false q else q.
Definition reaped (r : list Job * list Event) (q : Queue) : Queue := record r.2 (set_jobs r.1 q).
(** The end of a turn: stop, or make slots and serve jobs. *)
Definition fresh_slots (q : Queue) : Queue := match q_slots q with [] => set_slots (replicate (Z.to_nat STAGING_SLOTS) None) (q_reset q) q | _ => q end.
Definition serve (t : Turn) (q : Queue) : option Queue :=
  match q_jobs q with
  | [] => Some (if q_closed q then mkQueue [] [] false (q_decoding q) true (q_next q) (q_burst q) (q_reset q) true (q_log q) else q)
  | _ :: _ =>
      match q_slots q, t_slots t with
      | [], false => Some (set_jobs (fail SlotsFailed <$> q_jobs q) q)
      | _, _ => dispatch_all t (length (q_slots (fresh_slots q))) 0 (fresh_slots q)
      end
  end.

Definition turn (t : Turn) (q : Queue) : option Queue :=
  if q_stopped q then Some q
  else
    let q := polled_jobs t (admission ADMISSIONS (t_inbox t) q) in
    q ← poll_slots t (length (q_slots q)) 0 q;
    q ← (if q_decoder q then poll_decode t q else Some q);
    let q := reset_slots q in
    r ← reap (q_jobs q);
    serve t (reaped r q).

Fixpoint run (ts : list Turn) (q : Queue) : option Queue :=
  match ts with [] => Some q | t :: ts => q ← turn t q; run ts q end.
