(* ===== verification/SsdQueueInv.v ===== *)
(** * The GPU storage queue: its invariant

    What holds between turns of the loop of transfer/worker/ssd/queue.rs, whatever the channel, the devices
    and the decoder answer: the in-flight counters are the slots' owners, a reservation's remaining batches
    are those queued or in flight, the decoder's input is accounted for, and the log of publications and
    completions agrees with the jobs. *)
From S2P Require Import Prelude Containers Vecs State Blocks SsdRing IoBatches Transfers SsdQueue.

Local Open Scope Z_scope.
Local Open Scope rust_scope.

(** ** Counting *)

Definition count {A} (p : A -> bool) (l : list A) : Z := list_sum (fun a => Z.b2z (p a)) l.

Lemma count_nonneg {A} (p : A -> bool) l : 0 <= count p l.
Proof. apply list_sum_nonneg. intros a _. destruct (p a); cbn; lia. Qed.
Lemma count_app {A} (p : A -> bool) l k : count p (l ++ k) = count p l + count p k.
Proof. apply list_sum_app. Qed.
Lemma count_cons {A} (p : A -> bool) a l : count p (a :: l) = Z.b2z (p a) + count p l.
Proof. done. Qed.
Lemma count_perm {A} (p : A -> bool) l k : l ≡ₚ k -> count p l = count p k.
Proof. apply list_sum_perm. Qed.
Lemma count_insert {A} (p : A -> bool) l i a b : l !! i = Some a -> count p (<[i := b]> l) = count p l - Z.b2z (p a) + Z.b2z (p b).
Proof. apply (list_sum_insert (fun a => Z.b2z (p a))). Qed.
Lemma count_zero {A} (p : A -> bool) l : (forall a, a ∈ l -> p a = false) -> count p l = 0.
Proof.
  induction l as [|a l IH]; intros Hp; [done|]. rewrite count_cons, IH by (intros b Hb; apply Hp; by right). by rewrite (Hp a) by (by left).
Qed.
Lemma count_none {A} (p : A -> bool) l a : count p l = 0 -> a ∈ l -> p a = false.
Proof.
  intros Hc Ha. apply list_elem_of_lookup in Ha as [i Hi]. pose proof (count_insert p l i a a Hi) as H0. rewrite <- (take_drop_middle l i a Hi), count_app, count_cons in Hc.
  pose proof (count_nonneg p (take i l)). pose proof (count_nonneg p (drop (S i) l)). destruct (p a); [cbn in Hc; lia|done].
Qed.
Lemma count_pos {A} (p : A -> bool) l a : a ∈ l -> p a = true -> 1 <= count p l.
Proof.
  intros Ha Hp. destruct (decide (count p l = 0)) as [Hz|]; [|pose proof (count_nonneg p l); lia]. by rewrite (count_none p l a Hz Ha) in Hp.
Qed.
Lemma count_le {A} (p q : A -> bool) l : (forall a, a ∈ l -> p a = true -> q a = true) -> count p l <= count q l.
Proof.
  induction l as [|a l IH]; intros Hpq; [done|]. rewrite !count_cons. assert (count p l <= count q l) by (apply IH; intros b Hb; apply Hpq; by right).
  specialize (Hpq a ltac:(left)). destruct (p a), (q a); cbn; lia.
Qed.

(** ** The invariant *)

Definition owned (p : BatchOwner -> bool) (s : option BatchOwner) : bool := match s with Some o => p o | None => false end.
Definition of_job (id : Z) (o : BatchOwner) : bool := o_job o =? id.
Definition of_write (id : Z) (k : nat) (o : BatchOwner) : bool := (o_job o =? id) && bool_decide (o_write o = Some k).
Definition writes_k (k : nat) (w : Work) : bool := bool_decide (w_write w = Some k).
Definition is_writing (o : BatchOwner) : bool := bool_decide (is_Some (o_write o)).

(** Batches of reservation [k] that are queued or in flight. *)
Definition left_over (ss : list (option BatchOwner)) (j : Job) (k : nat) : Z := count (writes_k k) (j_work j) + count (owned (of_write (j_id j) k)) ss.
Definition decodes (dec : option Decode) (id : Z) : Prop := exists d, dec = Some d /\ d_job d = id.

Record job_ok (ss : list (option BatchOwner)) (dec : option Decode) (log : list Event) (j : Job) : Prop := {
  jo_inflight : j_inflight j = count (owned (of_job (j_id j))) ss;
  jo_error : j_error j <> None -> j_work j = [] /\ j_encoded j = [];
  jo_writes : forall k w, j_writes j !! k = Some w ->
    left_over ss j k <= wr_remaining w /\ (wr_lease w = false -> wr_remaining w = 0) /\
    (j_error j = None -> wr_remaining w = left_over ss j k /\ (wr_lease w = true -> 0 < wr_remaining w));
  jo_work : forall x k, x ∈ j_work j -> w_write x = Some k -> (k < length (j_writes j))%nat;
  jo_own : forall o k, Some o ∈ ss -> o_job o = j_id j -> o_write o = Some k -> (k < length (j_writes j))%nat;
  jo_encoded : forall x, x ∈ j_work j -> w_encoded x = true -> decodes dec (j_id j);
  jo_decoding : j_decoding j = true -> decodes dec (j_id j);
  jo_kind : if j_save j then j_encoded j = [] else j_writes j = [];
  jo_log : forall k, Committed (j_id j) k ∈ log <-> exists w, j_writes j !! k = Some w /\ wr_lease w = false }.

Definition decode_ok (ss : list (option BatchOwner)) (d : Decode) (j : Job) : Prop :=
  let pend := count w_encoded (j_work j) + count (owned o_encoded) ss in
  match d_phase d with
  | Reading => pend <= d_remaining d /\ (j_error j = None -> pend = d_remaining d)
  | _ => pend = 0
  end.

Definition commit_of (e : Event) : option (Z * nat) := match e with Committed id k => Some (id, k) | _ => None end.
Definition finish_of (e : Event) : option Z := match e with Finished id _ _ => Some id | _ => None end.

(** Each extent is published at most once and each job finishes at most once; a finished job is gone, what it published is
    what it says, and if it succeeded it has published all its extents. *)
Record log_ok (ids : list Z) (next : Z) (log : list Event) : Prop := {
  lg_commits : NoDup (omap commit_of log);
  lg_finishes : NoDup (omap finish_of log);
  lg_known : forall id k, Committed id k ∈ log -> id < next;
  lg_finished : forall id e ws, Finished id e ws ∈ log ->
    id < next /\ (id ∉ ids) /\ (forall k, Committed id k ∈ log <-> exists w, ws !! k = Some w /\ wr_lease w = false) /\
    (e = None -> Forall (fun w => wr_lease w = false) ws) }.

Record ok (js : list Job) (ss : list (option BatchOwner)) (dec : option Decode) (dcr : bool) (next : Z) (log : list Event) : Prop := {
  qo_ids : NoDup (j_id <$> js);
  qo_next : Forall (fun j => j_id j < next) js;
  qo_jobs : Forall (job_ok ss dec log) js;
  qo_owned : forall o, Some o ∈ ss -> exists j, j ∈ js /\ j_id j = o_job o;
  qo_encoded : forall o, Some o ∈ ss -> o_encoded o = true -> decodes dec (o_job o);
  qo_decode : forall d, dec = Some d -> dcr = true /\ exists j, j ∈ js /\ j_id j = d_job d /\ j_decoding j = true /\ decode_ok ss d j;
  qo_one : count (owned is_writing) ss <= 1;
  qo_slots : length ss = 0%nat \/ length ss = Z.to_nat STAGING_SLOTS;
  qo_log : log_ok (j_id <$> js) next log }.
Definition queue_ok (q : Queue) : Prop := ok (q_jobs q) (q_slots q) (q_decoding q) (q_decoder q) (q_next q) (q_log q).

(** ** Finding and replacing jobs *)

Lemma unique_job (js : list Job) i k j j' : NoDup (j_id <$> js) -> js !! i = Some j -> js !! k = Some j' -> j_id j = j_id j' -> i = k /\ j = j'.
Proof.
  intros Hnd Hi Hk He. assert (i = k) as -> by (apply (NoDup_lookup (j_id <$> js) i k (j_id j)); [done|rewrite list_lookup_fmap, Hi; done|rewrite list_lookup_fmap, Hk; cbn; by rewrite He]).
  split; [done|]. congruence.
Qed.
Lemma find_job_at q p j : NoDup (j_id <$> q_jobs q) -> q_jobs q !! p = Some j -> find_job (j_id j) q = Some j.
Proof.
  intros Hnd Hp. unfold find_job. destruct (List.find _ _) as [j'|] eqn:E.
  - apply find_some in E as [Hin%list_elem_of_In He%Z.eqb_eq]. apply list_elem_of_lookup in Hin as [k Hk]. f_equal. by apply (unique_job (q_jobs q) k p).
  - pose proof (find_none _ _ E j ltac:(by eapply list_elem_of_In, list_elem_of_lookup_2)) as Hno. cbn in Hno. by rewrite Z.eqb_refl in Hno.
Qed.
Lemma put_job_at js p j j' : NoDup (j_id <$> js) -> js !! p = Some j -> j_id j' = j_id j -> put_job j' js = <[p := j']> js.
Proof.
  intros Hnd Hp He. apply list_eq. intros i. unfold put_job. rewrite list_lookup_fmap. destruct (decide (i = p)) as [->|Hne].
  - rewrite list_lookup_insert_eq by (by eapply lookup_lt_Some). rewrite Hp. cbn. by rewrite He, Z.eqb_refl.
  - rewrite list_lookup_insert_ne by done. destruct (js !! i) as [k|] eqn:Hi; [|done]. cbn. destruct (Z.eqb_spec (j_id k) (j_id j')) as [Hk|]; [|done].
    destruct Hne. by apply (unique_job js i p k j Hnd Hi Hp); rewrite Hk, He.
Qed.
Lemma insert_ids (js : list Job) p j j' : js !! p = Some j -> j_id j' = j_id j -> j_id <$> <[p := j']> js = j_id <$> js.
Proof. intros Hp He. rewrite list_fmap_insert, He. apply list_insert_id. by rewrite list_lookup_fmap, Hp. Qed.

(** What other jobs see of a change. *)
Lemma job_ok_other ss ss' dec dec' log log' j :
  (forall p, (forall o, o_job o <> j_id j -> p o = false) -> count (owned p) ss' = count (owned p) ss) ->
  (forall o, Some o ∈ ss' -> o_job o = j_id j -> Some o ∈ ss) -> (decodes dec (j_id j) -> decodes dec' (j_id j)) ->
  (forall k, Committed (j_id j) k ∈ log' <-> Committed (j_id j) k ∈ log) -> job_ok ss dec log j -> job_ok ss' dec' log' j.
Proof.
  intros Hc Ho Hd Hl [H1 H2 H3 H4 H5 H6 H7 H8 H9].
  assert (forall k, left_over ss' j k = left_over ss j k) as Hlo.
  { intros k. unfold left_over. rewrite Hc; [done|]. intros o Hne. unfold of_write. by rewrite (proj2 (Z.eqb_neq _ _) Hne). }
  constructor; [|done| |done| | |eauto|done|].
  - rewrite Hc; [done|]. intros o Hne. unfold of_job. by apply Z.eqb_neq.
  - intros k w Hw. rewrite Hlo. by apply H3.
  - intros o k Hin He. apply H5; auto.
  - intros x Hx He. apply Hd. by apply (H6 x).
  - intros k. rewrite Hl. apply H9.
Qed.

Lemma ok_perm js js' ss dec dcr next log : js ≡ₚ js' -> ok js ss dec dcr next log -> ok js' ss dec dcr next log.
Proof.
  intros Hp [H1 H2 H3 H4 H5 H6 H7 H8 [L1 L2 L3 L4]]. 
  constructor; try done; [by rewrite <- Hp|by rewrite <- Hp|by rewrite <- Hp| | |constructor; try done].
  - intros o Ho. destruct (H4 o Ho) as (j & Hj & He). exists j. by rewrite <- Hp.
  - intros d Hd. destruct (H6 d Hd) as (Hd1 & j & Hj & He). split; [done|]. exists j. by rewrite <- Hp.
  - intros id e ws Hf. destruct (L4 id e ws Hf) as (? & ? & ? & ?). split_and!; try done. by rewrite <- Hp.
Qed.

(** ** Changes that give work up

    Host polls, cancellation, preparation and failures leave a job's accounts alone, or drop all its queued work and
    record an error. *)
Definition shrinks (j j' : Job) : Prop :=
  j_id j' = j_id j /\ j_save j' = j_save j /\ j_writes j' = j_writes j /\ j_inflight j' = j_inflight j /\ j_decoding j' = j_decoding j /\
  ((j_work j' = j_work j /\ j_encoded j' = j_encoded j /\ j_error j' = j_error j) \/ (j_work j' = [] /\ j_encoded j' = [] /\ j_error j' <> None)).

Lemma shrinks_fail e j : shrinks j (fail e j).
Proof. repeat split; right; done. Qed.
Lemma shrinks_host h j : shrinks j (set_host h j).
Proof. repeat split; left; done. Qed.
Lemma shrinks_refl j : shrinks j j.
Proof. repeat split; by left. Qed.
Lemma shrinks_trans j k l : shrinks j k -> shrinks k l -> shrinks j l.
Proof.
  intros (A1 & A2 & A3 & A4 & A5 & A6) (B1 & B2 & B3 & B4 & B5 & B6). repeat split; try congruence.
  destruct B6 as [(B6 & B7 & B8)|?]; [|by right]. rewrite B6, B7, B8. done.
Qed.
Lemma shrinks_prepare a j k : prepare a j = Ok k -> shrinks j k.
Proof.
  unfold prepare. destruct (j_prepared j); [intros [= ->]; apply shrinks_refl|]. destruct a; [|done]. intros [= <-]. repeat split; by left.
Qed.
Lemma shrinks_poll c h j : shrinks j (cancel_abandoned c (poll_host h j)).
Proof.
  assert (shrinks j (poll_host h j)) as Hp.
  { unfold poll_host. destruct (j_host j); [|apply shrinks_refl]. destruct h; [apply shrinks_host|apply shrinks_refl|].
    eapply shrinks_trans; [apply shrinks_host|apply shrinks_fail]. }
  unfold cancel_abandoned. destruct c; [|done]. eapply shrinks_trans; [apply Hp|apply shrinks_fail].
Qed.

Lemma job_ok_shrinks ss dec log j j' : shrinks j j' -> job_ok ss dec log j -> job_ok ss dec log j'.
Proof.
  intros (Hi & Hs & Hw & Hn & Hd & Hc) [H1 H2 H3 H4 H5 H6 H7 H8 H9].
  constructor; rewrite ?Hi, ?Hw, ?Hn, ?Hd, ?Hs; try done.
  - destruct Hc as [(W1 & W2 & W3)|(W1 & W2 & W3)]; rewrite ?W1, ?W2, ?W3; done.
  - intros k w Hk. destruct (H3 k w Hk) as (A & B & C). unfold left_over in *. rewrite Hi. destruct Hc as [(W1 & W2 & W3)|(W1 & W2 & W3)]; rewrite ?W1, ?W2, ?W3; [done|].
    split_and!; [|done|done]. pose proof (count_nonneg (writes_k k) (j_work j)). cbn. lia.
  - intros x k Hx. destruct Hc as [(Hw' & _)|(Hw' & _)]; rewrite Hw' in Hx; [by apply H4|inversion Hx].
  - intros x Hx. destruct Hc as [(Hw' & _)|(Hw' & _)]; rewrite Hw' in Hx; [by apply (H6 x)|inversion Hx].
  - destruct (j_save j); [|done]. destruct Hc as [(W1 & W2 & W3)|(W1 & W2 & W3)]; rewrite ?W1, ?W2, ?W3; done.
Qed.
Lemma decode_ok_shrinks ss d j j' : shrinks j j' -> decode_ok ss d j -> decode_ok ss d j'.
Proof.
  intros (Hi & Hs & Hw & Hn & Hd & Hc). unfold decode_ok. destruct Hc as [(-> & _ & ->)|(-> & _ & He)]; [done|].
  pose proof (count_nonneg w_encoded (j_work j)). pose proof (count_nonneg (owned o_encoded) ss). change (count w_encoded []) with 0. destruct (d_phase d); [lia| |lia].
  intros [Hle _]. split; [lia|done].
Qed.
Lemma ok_shrinks js js' ss dec dcr next log : Forall2 shrinks js js' -> ok js ss dec dcr next log -> ok js' ss dec dcr next log.
Proof.
  intros Hf [H1 H2 H3 H4 H5 H6 H7 H8 H9].
  assert (j_id <$> js' = j_id <$> js) as Hids by (clear -Hf; induction Hf as [|a b l k (Ha & _) _ IH]; [done|cbn; by rewrite Ha, IH]).
  assert (forall j, j ∈ js -> exists j', j' ∈ js' /\ shrinks j j') as Hin.
  { intros j Hj. apply list_elem_of_lookup in Hj as [i Hi]. destruct (Forall2_lookup_l _ _ _ _ _ Hf Hi) as (j' & Hj' & Hs). exists j'. split; [by eapply list_elem_of_lookup_2|done]. }
  constructor; rewrite ?Hids; try done.
  - clear -H2 Hf. induction Hf as [|a b l k (Ha & _) _ IH]; [done|]. apply Forall_cons in H2 as [? ?]. constructor; [by rewrite Ha|auto].
  - clear -H3 Hf. induction Hf as [|a b l k Ha _ IH]; [done|]. apply Forall_cons in H3 as [? ?]. constructor; [by eapply job_ok_shrinks|auto].
  - intros o Ho. destruct (H4 o Ho) as (j & Hj & He). destruct (Hin j Hj) as (j' & Hj' & (Hi & _)). exists j'. by rewrite Hi.
  - intros d Hd. destruct (H6 d Hd) as (Hr & j & Hj & He & Hdj & Hok). split; [done|]. destruct (Hin j Hj) as (j' & Hj' & Hs). exists j'. pose proof Hs as (Hi & _ & _ & _ & Hdd & _).
    rewrite Hi, Hdd. split_and!; try done. by eapply decode_ok_shrinks.
Qed.

(** ** Changing one job, and the slots, the decoder or the log with it *)

Lemma ok_replace js p j j' ss ss' dec dec' dcr dcr' next log log' :
  ok js ss dec dcr next log -> js !! p = Some j -> j_id j' = j_id j ->
  (forall x, x ∈ js -> j_id x <> j_id j -> job_ok ss dec log x -> job_ok ss' dec' log' x) -> job_ok ss' dec' log' j' ->
  (forall o, Some o ∈ ss' -> (o_job o = j_id j \/ Some o ∈ ss) /\ (o_encoded o = true -> decodes dec' (o_job o))) ->
  (forall d, dec' = Some d -> dcr' = true /\
     (d_job d = j_id j /\ j_decoding j' = true /\ decode_ok ss' d j' \/
      exists x, x ∈ js /\ j_id x <> j_id j /\ j_id x = d_job d /\ j_decoding x = true /\ decode_ok ss' d x)) ->
  count (owned is_writing) ss' <= 1 -> length ss' = length ss -> log_ok (j_id <$> js) next log' ->
  ok (<[p := j']> js) ss' dec' dcr' next log'.
Proof.
  intros [H1 H2 H3 H4 H5 H6 H7 H8 H9] Hp Hi Hoth Hj' Hss Hdec Hone Hlen Hlog. pose proof (lookup_lt_Some _ _ _ Hp) as Hlt.
  assert (forall x, x ∈ js -> j_id x <> j_id j -> x ∈ <[p := j']> js) as Hkeep.
  { intros x Hx Hne. apply list_elem_of_lookup in Hx as [k Hk]. apply list_elem_of_lookup. exists k. rewrite list_lookup_insert_ne; [done|]. intros ->. congruence. }
  assert (j' ∈ <[p := j']> js) as Hin by (apply list_elem_of_lookup; exists p; by apply list_lookup_insert_eq).
  constructor; rewrite ?(insert_ids js p j j' Hp Hi); try done.
  - apply Forall_insert; [done|]. rewrite Hi. by apply (Forall_lookup_1 _ _ _ _ H2 Hp).
  - apply Forall_lookup. intros k x Hk. destruct (decide (k = p)) as [->|Hne].
    + rewrite list_lookup_insert_eq in Hk by done. by injection Hk as <-.
    + rewrite list_lookup_insert_ne in Hk by done. apply Hoth; [by eapply list_elem_of_lookup_2| |by apply (Forall_lookup_1 _ _ _ _ H3 Hk)].
      intros He. destruct Hne. by apply (unique_job js k p x j).
  - intros o Ho. destruct (Hss o Ho) as [[He|Ho'] _]; [exists j'; by rewrite Hi|]. destruct (H4 o Ho') as (x & Hx & He).
    destruct (decide (j_id x = j_id j)) as [Hxe|]; [exists j'; split; [done|congruence]|exists x; auto].
  - intros o Ho He. by apply (Hss o Ho).
  - intros d Hd. destruct (Hdec d Hd) as (Hr & Hc). split; [done|]. destruct Hc as [(He & ? & ?)|(x & Hx & Hne & ?)]; [exists j'; by rewrite Hi|exists x; auto].
  - by rewrite Hlen.
Qed.

(** ** A batch completes *)

Lemma owned_insert p ss i o s : ss !! i = Some s -> count (owned p) (<[i := o]> ss) = count (owned p) ss - Z.b2z (owned p s) + Z.b2z (owned p o).
Proof. apply count_insert. Qed.
Lemma owner_insert_None (ss : list (option BatchOwner)) i o s : Some s ∈ <[i := None]> ss -> ss !! i = Some (Some o) -> Some s ∈ ss.
Proof.
  intros Hs Hi. apply list_elem_of_lookup in Hs as [k Hk]. destruct (decide (k = i)) as [->|]; [rewrite list_lookup_insert_eq in Hk by (by eapply lookup_lt_Some); done|].
  rewrite list_lookup_insert_ne in Hk by done. by eapply list_elem_of_lookup_2.
Qed.

(** A reservation after the batch that belonged to [write]. *)
Definition settled (write : option nat) (error : option JobError) (ws ws' : list Write) : Prop :=
  length ws' = length ws /\
  forall k w', ws' !! k = Some w' -> exists w, ws !! k = Some w /\ wr_remaining w' = wr_remaining w - Z.b2z (bool_decide (write = Some k)) /\
    (wr_lease w' = false -> wr_lease w = false \/ wr_remaining w' = 0) /\ (wr_lease w = false -> wr_lease w' = false) /\
    (error = None -> wr_lease w' = true -> write <> Some k \/ 0 < wr_remaining w').

Lemma job_settled ss i o dec dec' log log' j j' : job_ok ss dec log j -> ss !! i = Some (Some o) -> o_job o = j_id j ->
  j_id j' = j_id j -> j_save j' = j_save j -> j_decoding j' = j_decoding j -> j_inflight j' = j_inflight j - 1 ->
  (j_work j' = j_work j /\ j_encoded j' = j_encoded j /\ j_error j' = j_error j \/ j_work j' = [] /\ j_encoded j' = [] /\ j_error j' <> None) ->
  settled (o_write o) (j_error j') (j_writes j) (j_writes j') -> (decodes dec (j_id j) -> decodes dec' (j_id j)) ->
  (forall k, Committed (j_id j) k ∈ log' <-> exists w, j_writes j' !! k = Some w /\ wr_lease w = false) ->
  job_ok (<[i := None]> ss) dec' log' j'.
Proof.
  intros [H1 H2 H3 H4 H5 H6 H7 H8 H9] Hi Ho Hid Hsv Hdc Hin Hc [Hlen Hset] Hd Hlog.
  assert (forall k, left_over (<[i := None]> ss) j' k <= left_over ss j k - Z.b2z (bool_decide (o_write o = Some k)) /\
                    (j_error j' = None -> left_over (<[i := None]> ss) j' k = left_over ss j k - Z.b2z (bool_decide (o_write o = Some k)))) as Hlo.
  { intros k. unfold left_over. rewrite (owned_insert _ _ _ _ _ Hi), Hid. cbn [owned].
    assert (of_write (j_id j) k o = bool_decide (o_write o = Some k)) as -> by (unfold of_write; by rewrite Ho, Z.eqb_refl). cbn [Z.b2z].
    pose proof (count_nonneg (writes_k k) (j_work j)). destruct Hc as [(-> & _)|(-> & _ & ?)]; [lia|]. change (count (writes_k k) []) with 0. split; [lia|done]. }
  constructor; rewrite ?Hid, ?Hsv, ?Hdc; try done.
  - rewrite Hin, H1, (owned_insert _ _ _ _ _ Hi). cbn [owned].
    assert (of_job (j_id j) o = true) as -> by (unfold of_job; by rewrite Ho, Z.eqb_refl). cbn [Z.b2z]. lia.
  - destruct Hc as [(W1 & W2 & W3)|(W1 & W2 & W3)]; rewrite ?W1, ?W2, ?W3; done.
  - intros k w' Hk. destruct (Hset k w' Hk) as (w & Hw & Hr & Hl1 & Hl2 & Hl3). destruct (H3 k w Hw) as (A & B & C). destruct (Hlo k) as [Hlo1 Hlo2]. rewrite Hr in *.
    assert (wr_remaining w = 0 -> bool_decide (o_write o = Some k) = false) as Hz.
    { intros Hz. apply bool_decide_eq_false. intros Hok. pose proof (count_nonneg (writes_k k) (j_work j)). unfold left_over in A.
      assert (1 <= count (owned (of_write (j_id j) k)) ss); [|lia]. apply (count_pos _ _ (Some o)); [by eapply list_elem_of_lookup_2|]. cbn. unfold of_write. by rewrite Ho, Z.eqb_refl, bool_decide_true. }
    split_and!; [lia| |].
    + intros Hf. destruct (Hl1 Hf) as [Hw0|?]; [|done]. rewrite (Hz (B Hw0)), (B Hw0). done.
    + intros He. destruct Hc as [(_ & _ & He')|(_ & _ & ?)]; [|done]. rewrite He' in He. destruct (C He) as [C1 C2]. rewrite Hlo2 by congruence. split; [lia|].
      intros Ht. destruct (Hl3 ltac:(congruence) Ht) as [Hr0|]; [|done]. rewrite bool_decide_false by done. destruct (wr_lease w) eqn:Ew; [specialize (C2 eq_refl); cbn; lia|]. by rewrite Hl2 in Ht.
  - rewrite Hlen. intros x k Hx. destruct Hc as [(Hw' & _)|(Hw' & _)]; rewrite Hw' in Hx; [by apply H4|inversion Hx].
  - rewrite Hlen. intros s k Hs. apply H5. by eapply owner_insert_None.
  - intros x Hx He. apply Hd. destruct Hc as [(Hw' & _)|(Hw' & _)]; rewrite Hw' in Hx; [by apply (H6 x)|inversion Hx].
  - intros He. apply Hd, H7, He.
  - destruct (j_save j); [destruct Hc as [(_ & -> & _)|(_ & -> & _)]; done|]. apply nil_length_inv. by rewrite Hlen, H8.
Qed.

Lemma settled_insert k w w' error (ws : list Write) : ws !! k = Some w -> wr_remaining w' = wr_remaining w - 1 ->
  (wr_lease w' = false -> wr_lease w = false \/ wr_remaining w' = 0) -> (wr_lease w = false -> wr_lease w' = false) ->
  (error = None -> wr_lease w' = true -> 0 < wr_remaining w') -> settled (Some k) error ws (<[k := w']> ws).
Proof.
  intros Hk Hr H1 H2 H3. split; [by rewrite length_insert|]. intros i v Hv. destruct (decide (i = k)) as [->|Hne].
  - rewrite list_lookup_insert_eq in Hv by (by eapply lookup_lt_Some). injection Hv as <-. exists w. rewrite bool_decide_true by done. split_and!; try done. intros He Ht. right. auto.
  - rewrite list_lookup_insert_ne in Hv by done. exists v. rewrite bool_decide_false by congruence. split_and!; try done; [cbn; lia|by left|]. intros _ _. left. congruence.
Qed.
Lemma leased_insert (ws : list Write) k w w' i : ws !! k = Some w -> wr_lease w' = wr_lease w ->
  (exists v, <[k := w']> ws !! i = Some v /\ wr_lease v = false) <-> (exists v, ws !! i = Some v /\ wr_lease v = false).
Proof.
  intros Hk Hl. destruct (decide (i = k)) as [->|Hne]; [|by rewrite list_lookup_insert_ne]. rewrite list_lookup_insert_eq by (by eapply lookup_lt_Some). rewrite Hk.
  split; intros (v & [= <-] & Hv); eexists; (split; [done|congruence]).
Qed.

Definition kept (j j' : Job) : Prop :=
  j_id j' = j_id j /\ j_decoding j' = j_decoding j /\ j_host j' = j_host j /\
  (j_work j' = j_work j /\ j_encoded j' = j_encoded j /\ j_error j' = j_error j \/ j_work j' = [] /\ j_encoded j' = [] /\ j_error j' <> None).

Lemma complete_ok ss i o r dec dec' log j : job_ok ss dec log j -> ss !! i = Some (Some o) -> o_job o = j_id j -> (decodes dec (j_id j) -> decodes dec' (j_id j)) ->
  exists j' es, complete (o_write o) r j = Some (j', es) /\ job_ok (<[i := None]> ss) dec' (log ++ es) j' /\ kept j j' /\
    (es = [] \/ exists k, es = [Committed (j_id j) k] /\ (Committed (j_id j) k ∉ log)).
Proof.
  intros Hok Hi Ho Hd. pose proof (jo_log _ _ _ _ Hok) as Hlog.
  assert (1 <= j_inflight j) as Hin.
  { rewrite (jo_inflight _ _ _ _ Hok). apply (count_pos _ _ (Some o)); [by eapply list_elem_of_lookup_2|]. cbn. unfold of_job. by rewrite Ho, Z.eqb_refl. }
  unfold complete. rewrite (proj2 (Z.ltb_ge _ _)) by done. destruct (o_write o) as [k|] eqn:Ew.
  - pose proof (jo_own _ _ _ _ Hok o k ltac:(by eapply list_elem_of_lookup_2) Ho Ew) as Hk. apply lookup_lt_is_Some_2 in Hk as [w Hw]. rewrite Hw. cbn [mbind option_bind].
    destruct (jo_writes _ _ _ _ Hok k w Hw) as (A & B & C).
    assert (1 <= wr_remaining w) as Hr.
    { unfold left_over in A. pose proof (count_nonneg (writes_k k) (j_work j)). assert (1 <= count (owned (of_write (j_id j) k)) ss); [|lia].
      apply (count_pos _ _ (Some o)); [by eapply list_elem_of_lookup_2|]. cbn. unfold of_write. by rewrite Ho, Z.eqb_refl, bool_decide_true. }
    rewrite (proj2 (Z.ltb_ge _ _)) by done. assert (wr_lease w = true) as Hl by (destruct (wr_lease w); [done|specialize (B eq_refl); lia]).
    destruct ((wr_remaining w - 1 =? 0) && (is_ok r && bool_decide (j_error j = None))) eqn:Ep.
    + apply andb_true_iff in Ep as [Hz%Z.eqb_eq [Hr' He%bool_decide_eq_true]%andb_true_iff]. rewrite Hl, Hr'. eexists _, _. split_and!; [done| |by repeat split; left|].
      * apply (job_settled ss i o dec dec' log _ j); try done; [by left| |].
        { rewrite Ew. apply (settled_insert k w); cbn; try done; try lia; auto. }
        intros i'. rewrite elem_of_app, list_elem_of_singleton, Hlog. cbn. destruct (decide (i' = k)) as [->|Hne].
        -- rewrite list_lookup_insert_eq by (by eapply lookup_lt_Some). split; [by eexists|auto].
        -- rewrite list_lookup_insert_ne by done. split; [intros [?|[= ->]]; done|auto].
      * right. exists k. split; [done|]. rewrite Hlog. intros (v & Hv & Hf). congruence.
    + eexists _, _. split_and!; [done| |by destruct r; repeat split; [left|right]|by left]. rewrite app_nil_r.
      apply (job_settled ss i o dec dec' log log j); try (by destruct r); [by destruct r; [left|right]| |].
      * rewrite Ew. destruct r; apply (settled_insert k w); cbn; try done; try congruence; try auto.
        intros He _. cbn in Ep. rewrite He, bool_decide_true, andb_true_r in Ep by done. apply Z.eqb_neq in Ep. lia.
      * intros i'. rewrite Hlog. destruct r; cbn; symmetry; by apply (leased_insert _ k w).
  - eexists _, _. split_and!; [done| |by destruct r; repeat split; [left|right]|by left]. rewrite app_nil_r.
    apply (job_settled ss i o dec dec' log log j); try (by destruct r); [by destruct r; [left|right]|]. rewrite Ew. split; [by destruct r|].
    intros k w Hw. exists w. split_and!; try (by destruct r); [rewrite bool_decide_false by done; cbn; lia|by left|by left].
Qed.
