(* ===== verification/SsdQueueSteps.v ===== *)
(** * The GPU storage queue: every step keeps the invariant

    Settling a slot, polling the decoder, reaping, dispatching and admitting, one lemma each; each lemma also
    shows that the step does not panic. *)
From S2P Require Import Prelude Containers Vecs State Blocks SsdRing IoBatches Transfers SsdQueue SsdQueueInv.

Local Open Scope Z_scope.
Local Open Scope rust_scope.

Ltac queue_fields := cbn [q_jobs q_slots q_decoding q_decoder q_next q_log q_closed q_burst q_reset q_stopped].
Ltac job_fields := cbn [set_work set_decoding j_id j_save j_work j_encoded j_decoding j_writes j_inflight j_error].

(** ** The log *)

Lemma omap_commits (log : list Event) id k : (id, k) ∈ omap commit_of log <-> Committed id k ∈ log.
Proof.
  rewrite list_elem_of_omap. split; [intros (e & He & Hc); destruct e; cbn in Hc; try done; by injection Hc as <- <-|by exists (Committed id k)].
Qed.
Lemma omap_finishes (log : list Event) id : id ∈ omap finish_of log <-> exists e ws, Finished id e ws ∈ log.
Proof.
  rewrite list_elem_of_omap. split; [intros (e & He & Hc); destruct e; cbn in Hc; try done; injection Hc as <-; eauto|intros (e & ws & ?); by exists (Finished id e ws)].
Qed.

Lemma log_ok_commit ids next log id k : log_ok ids next log -> id ∈ ids -> id < next -> (Committed id k ∉ log) -> log_ok ids next (log ++ [Committed id k]).
Proof.
  intros [L1 L2 L3 L4] Hid Hn Hno. constructor.
  - rewrite omap_app. cbn. apply NoDup_app. split_and!; [done| |apply NoDup_singleton]. intros x Hx [= ->]%list_elem_of_singleton. by apply omap_commits in Hx.
  - rewrite omap_app. cbn. by rewrite app_nil_r.
  - intros id' k'. rewrite elem_of_app, list_elem_of_singleton. intros [?|[= -> ->]]; eauto.
  - intros id' e ws. rewrite elem_of_app, list_elem_of_singleton. intros [Hf|?]; [|done]. destruct (L4 id' e ws Hf) as (A & B & C & D). split_and!; try done.
    intros k'. rewrite elem_of_app, list_elem_of_singleton, C. split; [intros [?|[= -> ->]]; done|auto].
Qed.
Lemma log_ok_invalidate ids next log id : log_ok ids next log -> log_ok ids next (log ++ [Invalidated id]).
Proof.
  assert (forall k i, Committed i k ∈ log ++ [Invalidated id] <-> Committed i k ∈ log) as Hc.
  { intros k i. rewrite elem_of_app, list_elem_of_singleton. split; [intros [?|?]; done|auto]. }
  intros [L1 L2 L3 L4]. constructor.
  - rewrite omap_app. cbn. by rewrite app_nil_r.
  - rewrite omap_app. cbn. by rewrite app_nil_r.
  - intros id' k'. rewrite Hc. apply L3.
  - intros id' e ws. rewrite elem_of_app, list_elem_of_singleton. intros [Hf|?]; [|done]. destruct (L4 id' e ws Hf) as (A & B & C & D). split_and!; try done. intros k. by rewrite Hc.
Qed.

(** ** Settling a slot *)

(** The decoder's account after the batch of [o]. *)
Definition dec_after (o : BatchOwner) (dec : option Decode) : option Decode :=
  if o_encoded o then (fun d => mkDecode (d_job d) (d_reads d) (d_offsets d) (d_base d) (d_remaining d - 1) (d_phase d)) <$> dec else dec.
Lemma dec_after_decodes o dec id : decodes (dec_after o dec) id <-> decodes dec id.
Proof.
  unfold decodes, dec_after. destruct (o_encoded o); [|done]. split; intros (d & Hd & Hj).
  - destruct dec as [d'|]; [|done]. injection Hd as <-. eauto.
  - subst dec. eexists. split; [done|done].
Qed.

Lemma encoded_insert_None (ss : list (option BatchOwner)) i o : ss !! i = Some (Some o) -> count (owned o_encoded) (<[i := None]> ss) = count (owned o_encoded) ss - Z.b2z (o_encoded o).
Proof. intros Hi. rewrite (owned_insert _ _ _ _ _ Hi). cbn. lia. Qed.

(** What is left of the decoder's input when a batch of another job, or of the job itself, completes. *)
Lemma decode_after ss i o d j j' : decode_ok ss d j -> ss !! i = Some (Some o) ->
  (j_work j' = j_work j /\ j_encoded j' = j_encoded j /\ j_error j' = j_error j \/ j_work j' = [] /\ j_encoded j' = [] /\ j_error j' <> None) ->
  forall d', dec_after o (Some d) = Some d' -> decode_ok (<[i := None]> ss) d' j'.
Proof.
  intros Hok Hi Hc d' Hd'. assert (d_phase d' = d_phase d /\ d_remaining d' = d_remaining d - Z.b2z (o_encoded o)) as [Hph Hrem].
  { unfold dec_after in Hd'. destruct (o_encoded o); injection Hd' as <-; cbn; (split; [done|lia]). }
  unfold decode_ok in *. rewrite Hph, Hrem, (encoded_insert_None _ _ _ Hi). pose proof (count_nonneg w_encoded (j_work j)). pose proof (count_nonneg (owned o_encoded) (<[i := None]> ss)) as Hn.
  rewrite (encoded_insert_None _ _ _ Hi) in Hn. destruct Hc as [(-> & _ & ->)|(-> & _ & ?)]; destruct (d_phase d); change (count w_encoded []) with 0; destruct (o_encoded o); cbn [Z.b2z] in *; try lia; (split; [lia|]); intros He; try done; pose proof (proj2 Hok He); lia.
Qed.

Lemma encoded_pending q o : queue_ok q -> Some o ∈ q_slots q -> o_encoded o = true -> exists d, q_decoding q = Some d /\ d_job d = o_job o /\ 1 <= d_remaining d.
Proof.
  intros Hq Ho He. destruct (qo_encoded _ _ _ _ _ _ Hq o Ho He) as (d & Hd & Hj). exists d. split_and!; [done|done|].
  destruct (qo_decode _ _ _ _ _ _ Hq d Hd) as (_ & j & _ & _ & _ & Hok). unfold decode_ok in Hok.
  pose proof (count_pos (owned o_encoded) _ _ Ho He). pose proof (count_nonneg w_encoded (j_work j)). destruct (d_phase d); lia.
Qed.

Definition settled_queue (i : nat) (o : BatchOwner) (r : result unit unit) (js : list Job) (es : list Event) (q : Queue) : Queue :=
  mkQueue js (<[i := None]> (q_slots q)) (q_decoder q) (dec_after o (q_decoding q)) (q_closed q) (q_next q) (q_burst q)
    (q_reset q || negb (is_ok r)) (q_stopped q) (q_log q ++ es).

Lemma settle_slot_eq i o r q p j j' es : queue_ok q -> q_slots q !! i = Some (Some o) -> q_jobs q !! p = Some j -> j_id j = o_job o ->
  complete (o_write o) r j = Some (j', es) -> j_id j' = j_id j -> settle_slot i o r q = Some (settled_queue i o r (<[p := j']> (q_jobs q)) es q).
Proof.
  intros Hq Hi Hp Hjo Hc Hid. pose proof (qo_ids _ _ _ _ _ _ Hq) as Hnd. unfold settle_slot.
  assert (Some o ∈ q_slots q) as Hin by (by eapply list_elem_of_lookup_2).
  assert (forall q1, q_jobs q1 = q_jobs q -> find_job (o_job o) q1 = Some j) as Hfind by (intros q1 Hjs; rewrite <- Hjo; apply (find_job_at q1 p); by rewrite Hjs).
  unfold settled_queue, dec_after. rewrite <- (put_job_at (q_jobs q) p j j' Hnd Hp Hid). destruct (o_encoded o) eqn:Ee.
  - destruct (encoded_pending q o Hq Hin Ee) as (d & Hd & Hdj & Hr). cbn -[find_job complete put_job]. rewrite Hd. cbn -[find_job complete put_job]. rewrite Hdj, Z.eqb_refl, (proj2 (Z.ltb_ge _ _)) by done. cbn -[find_job complete put_job]. rewrite Hfind by done. cbn -[find_job complete put_job]. rewrite Hc. done.
  - cbn -[find_job complete put_job]. rewrite Hfind by done. cbn -[find_job complete put_job]. rewrite Hc. done.
Qed.

Lemma settle_slot_ok i o r q : queue_ok q -> q_slots q !! i = Some (Some o) ->
  exists p j j' es, q_jobs q !! p = Some j /\ kept j j' /\ settle_slot i o r q = Some (settled_queue i o r (<[p := j']> (q_jobs q)) es q) /\
    queue_ok (settled_queue i o r (<[p := j']> (q_jobs q)) es q).
Proof.
  intros Hq Hi. pose proof Hq as [H1 H2 H3 H4 H5 H6 H7 H8 H9]. assert (Some o ∈ q_slots q) as Hin by (by eapply list_elem_of_lookup_2).
  destruct (H4 o Hin) as (j & Hj & Hjo). apply list_elem_of_lookup in Hj as [p Hp]. pose proof (Forall_lookup_1 _ _ _ _ H3 Hp) as Hjok.
  destruct (complete_ok (q_slots q) i o r (q_decoding q) (dec_after o (q_decoding q)) (q_log q) j Hjok Hi (eq_sym Hjo)) as (j' & es & Hc & Hok' & Hkept & Hes); [by rewrite dec_after_decodes|].
  exists p, j, j', es. pose proof Hkept as (Hid & Hdcj & _ & Hwork). split_and!; [done|done|by apply (settle_slot_eq i o r q p j)|].
  assert (forall x k, x <> j_id j -> Committed x k ∈ q_log q ++ es <-> Committed x k ∈ q_log q) as Hlog.
  { intros x k Hx. rewrite elem_of_app. destruct Hes as [->|(k' & -> & _)]; [|rewrite list_elem_of_singleton]; (split; [intros [?|Hbad]; [done|]|auto]); [inversion Hbad|congruence]. }
  unfold queue_ok, settled_queue. queue_fields.
  apply (ok_replace (q_jobs q) p j j' (q_slots q) _ (q_decoding q) _ (q_decoder q) _ (q_next q) (q_log q) _ Hq Hp Hid); try done.
  - intros x Hx Hne. apply job_ok_other; [|intros s Hs _; by eapply owner_insert_None|by rewrite dec_after_decodes|intros k; by apply Hlog].
    intros f Hf. rewrite (owned_insert _ _ _ _ _ Hi). cbn. rewrite Hf; [cbn; lia|congruence].
  - intros s Hs. assert (Some s ∈ q_slots q) by (by eapply owner_insert_None). split; [by right|]. intros He. apply dec_after_decodes. auto.
  - intros d' Hd'. destruct (q_decoding q) as [d|] eqn:Ed; [|unfold dec_after in Hd'; destruct (o_encoded o); done].
    assert (d_job d' = d_job d) as Hdd by (unfold dec_after in Hd'; destruct (o_encoded o); by injection Hd' as <-).
    destruct (H6 d eq_refl) as (Hr & x & Hx & Hxd & Hxdec & Hxok). split; [done|]. destruct (decide (j_id x = j_id j)) as [Hxj|Hne].
    + left. apply list_elem_of_lookup in Hx as [px Hpx]. destruct (unique_job _ _ _ _ _ H1 Hpx Hp Hxj) as [-> ->]. split_and!; [congruence|congruence|]. by apply (decode_after (q_slots q) i o d j).
    + right. exists x. split_and!; try done; [congruence|]. apply (decode_after (q_slots q) i o d x); try done. by left.
  - rewrite (owned_insert _ _ _ _ _ Hi). cbn. destruct (is_writing o); cbn; lia.
  - by rewrite length_insert.
  - destruct Hes as [->|(k & -> & Hno)]; [by rewrite app_nil_r|]. apply log_ok_commit; try done; [apply list_elem_of_fmap; exists j; split; [done|by eapply list_elem_of_lookup_2]|].
    by apply (Forall_lookup_1 _ _ _ _ H2 Hp).
Qed.

(** ** The decoder *)

Lemma job_ok_release ss d log j : job_ok ss (Some d) log j -> count w_encoded (j_work j) = 0 -> job_ok ss None log (set_decoding false j).
Proof.
  intros [H1 H2 H3 H4 H5 H6 H7 H8 H9] Hz. constructor; cbn; try done. intros x Hx He. by rewrite (count_none _ _ x Hz Hx) in He.
Qed.
Lemma job_ok_phase ss d d' log j : d_job d' = d_job d -> job_ok ss (Some d) log j -> job_ok ss (Some d') log j.
Proof.
  intros Hd. apply job_ok_other; try done. intros (e & [= <-] & He). exists d'. by rewrite Hd.
Qed.
Lemma decodes_other d dec' id : d_job d <> id -> decodes (Some d) id -> decodes dec' id.
Proof. intros Hne (e & [= <-] & He). done. Qed.

Section Decoder.
Context (q : Queue) (p : nat) (j : Job) (d0 : Decode).
Context (Hq : queue_ok q) (Hd0 : q_decoding q = Some d0) (Hp : q_jobs q !! p = Some j) (Hj : j_id j = d_job d0).

Lemma release_ok d j1 : d_job d = d_job d0 -> j_id j1 = j_id j -> job_ok (q_slots q) (Some d) (q_log q) j1 ->
  count w_encoded (j_work j1) = 0 -> count (owned o_encoded) (q_slots q) = 0 ->
  queue_ok (release_decode j1 q) /\ release_decode j1 q = set_decode None (set_jobs (<[p := set_decoding false j1]> (q_jobs q)) q).
Proof.
  intros Hd Hid Hok Hz Ho. pose proof Hq as [H1 H2 H3 H4 H5 H6 H7 H8 H9].
  assert (release_decode j1 q = set_decode None (set_jobs (<[p := set_decoding false j1]> (q_jobs q)) q)) as Heq.
  { unfold release_decode. by rewrite (put_job_at _ p j (set_decoding false j1) H1 Hp). }
  split; [|done]. rewrite Heq. unfold queue_ok, set_decode, set_jobs. queue_fields.
  apply (ok_replace (q_jobs q) p j (set_decoding false j1) (q_slots q) _ (q_decoding q) _ (q_decoder q) _ (q_next q) (q_log q) _ Hq Hp Hid); try done.
  - intros x Hx Hne. apply job_ok_other; try done. rewrite Hd0. apply decodes_other. congruence.
  - by apply (job_ok_release _ d).
  - intros o Ho'. split; [by right|]. intros He. pose proof (count_none _ _ _ Ho Ho') as Hf. cbn in Hf. congruence.
Qed.
Lemma keep_ok d j1 : d_job d = d_job d0 -> j_id j1 = j_id j -> job_ok (q_slots q) (Some d) (q_log q) j1 -> j_decoding j1 = true -> decode_ok (q_slots q) d j1 ->
  queue_ok (keep_decode d j1 q) /\ keep_decode d j1 q = set_decode (Some d) (set_jobs (<[p := j1]> (q_jobs q)) q).
Proof.
  intros Hd Hid Hok Hdec Hdok. pose proof Hq as [H1 H2 H3 H4 H5 H6 H7 H8 H9].
  assert (keep_decode d j1 q = set_decode (Some d) (set_jobs (<[p := j1]> (q_jobs q)) q)) as Heq by (unfold keep_decode; by rewrite (put_job_at _ p j j1 H1 Hp)).
  split; [|done]. rewrite Heq. unfold queue_ok, set_decode, set_jobs. queue_fields.
  apply (ok_replace (q_jobs q) p j _ (q_slots q) _ (q_decoding q) _ (q_decoder q) _ (q_next q) (q_log q) _ Hq Hp Hid); try done.
  - intros x Hx Hne. apply job_ok_other; try done. rewrite Hd0. apply decodes_other. congruence.
  - intros o Ho. split; [by right|]. intros He. destruct (H5 o Ho He) as (e & Hde & Heo). exists d. split; [done|]. congruence.
  - intros e [= <-]. destruct (H6 d0 Hd0) as [? _]. split; [done|]. left. split; [congruence|done].
Qed.

(** Without batches in flight the job has no input in flight either. *)
Lemma idle_encoded j1 d : job_ok (q_slots q) (Some d) (q_log q) j1 -> j_id j1 = j_id j -> j_inflight j1 = 0 -> count (owned o_encoded) (q_slots q) = 0.
Proof.
  intros Hok Hid Hz. rewrite (jo_inflight _ _ _ _ Hok) in Hz. pose proof (count_nonneg (owned o_encoded) (q_slots q)).
  assert (count (owned o_encoded) (q_slots q) <= count (owned (of_job (j_id j1))) (q_slots q)); [|lia]. apply count_le. intros [o|] Ho He; [|done]. cbn in *.
  destruct (qo_encoded _ _ _ _ _ _ Hq o Ho He) as (e & Hde & Heo). unfold of_job. apply Z.eqb_eq. congruence.
Qed.

(** What [poll_reading] makes of the decoder and of the job. *)
Inductive read_step (sent : bool) (d : Decode) (j1 : Job) : option Decode -> Job -> Prop :=
| RsWait : (d_phase d = Reading -> j_error j1 <> None /\ j_inflight j1 <> 0 \/ j_error j1 = None /\ d_remaining d <> 0) -> read_step sent d j1 (Some d) j1
| RsDrop : d_phase d = Reading -> read_step sent d j1 None (set_decoding false j1)
| RsFail : d_phase d = Reading -> read_step sent d j1 None (set_decoding false (fail DecoderFailed j1))
| RsSend d' : d_phase d = Reading -> d_phase d' = Decoding -> read_step sent d j1 (Some d') j1.

Lemma poll_reading_ok sent d j1 : d_job d = d_job d0 -> j_id j1 = j_id j -> j_decoding j1 = true -> job_ok (q_slots q) (Some d) (q_log q) j1 -> decode_ok (q_slots q) d j1 ->
  exists dec j2, poll_reading sent d j1 q = set_decode dec (set_jobs (<[p := j2]> (q_jobs q)) q) /\ queue_ok (poll_reading sent d j1 q) /\ read_step sent d j1 dec j2.
Proof.
  intros Hd Hid Hdec Hok Hdok. unfold poll_reading. destruct (keep_ok d j1 Hd Hid Hok Hdec Hdok) as [Hk1 Hk2].
  destruct (d_phase d) eqn:Hph; [exists (Some d), j1; split_and!; [done|done|constructor; congruence]| |exists (Some d), j1; split_and!; [done|done|constructor; congruence]].
  case_bool_decide as He.
  - assert (j_error j1 <> None) as Hne by (intros Hn; rewrite Hn in He; by destruct He). destruct (jo_error _ _ _ _ Hok Hne) as [Hw _].
    destruct (Z.eqb_spec (j_inflight j1) 0) as [Hz|Hnz]; [|exists (Some d), j1; split_and!; [done|done|constructor; auto]].
    destruct (release_ok d j1 Hd Hid Hok ltac:(by rewrite Hw) (idle_encoded j1 d Hok Hid Hz)) as [? ?]. exists None, (set_decoding false j1). split_and!; [done|done|by constructor].
  - assert (j_error j1 = None) as Hn by (destruct (j_error j1); [destruct He; by eexists|done]).
    destruct (Z.eqb_spec (d_remaining d) 0) as [Hz|Hnz]; [|exists (Some d), j1; split_and!; [done|done|constructor; auto]].
    unfold decode_ok in Hdok. rewrite Hph in Hdok. destruct Hdok as [Hle _].
    pose proof (count_nonneg w_encoded (j_work j1)). pose proof (count_nonneg (owned o_encoded) (q_slots q)).
    destruct sent.
    + match goal with |- context [keep_decode ?d' j1 q] => set (d1 := d') end. destruct (keep_ok d1 j1 Hd Hid) as [? ?]; [by apply (job_ok_phase _ d)|done|unfold decode_ok; cbn; lia|].
      exists (Some d1), j1. split_and!; [done|done|by apply RsSend].
    + destruct (release_ok d (fail DecoderFailed j1) Hd Hid) as [? ?]; [by eapply job_ok_shrinks, Hok; apply shrinks_fail|done|lia|]. eexists _, _. split_and!; [done|done|by apply RsFail].
Qed.
End Decoder.

(** The batches of the decoder's input join the job's work. *)
Definition input_work (file : Z) (bs : list IoBatch) : list Work := (fun b => mkWork file b None true) <$> bs.
Lemma count_input_work file bs : count w_encoded (input_work file bs) = zlen bs.
Proof. induction bs as [|b bs IH]; [done|]. cbn [input_work fmap list_fmap]. rewrite count_cons. unfold input_work in IH. rewrite IH. unfold zlen. cbn [w_encoded Z.b2z length]. lia. Qed.
Lemma job_ok_input ss d log j file bs : job_ok ss (Some d) log j -> j_error j = None -> j_id j = d_job d -> job_ok ss (Some d) log (set_work (j_work j ++ input_work file bs) (j_encoded j) j).
Proof.
  intros [H1 H2 H3 H4 H5 H6 H7 H8 H9] He Hj.
  assert (forall x, x ∈ input_work file bs -> w_write x = None) as Hin by (intros x (b & -> & _)%list_elem_of_fmap; done).
  constructor; job_fields; try done.
  - intros k w Hw. assert (left_over ss (set_work (j_work j ++ input_work file bs) (j_encoded j) j) k = left_over ss j k) as ->; [|by apply H3].
    unfold left_over. cbn [set_work j_work j_id]. rewrite count_app, (count_zero (writes_k k) (input_work file bs)); [lia|]. intros x Hx. unfold writes_k. by rewrite (Hin x Hx).
  - intros x k [Hx|Hx]%elem_of_app; [by apply H4|]. by rewrite (Hin x Hx).
  - intros x _ _. by exists d.
Qed.
Lemma decode_prepared_ok ss d base j log j1 d1 : job_ok ss (Some d) log j -> decode_ok ss d j -> d_phase d <> Reading -> j_error j = None -> j_id j = d_job d ->
  decode_prepared d base j = Ok (j1, d1) ->
  d_job d1 = d_job d /\ d_phase d1 = Reading /\ j_id j1 = j_id j /\ j_decoding j1 = j_decoding j /\ j_encoded j1 = j_encoded j /\ j_host j1 = j_host j /\
  job_ok ss (Some d1) log j1 /\ decode_ok ss d1 j1.
Proof.
  intros Hok Hdok Hph He Hj. unfold decode_prepared. destruct (input_ranges d base) as [ranges|]; [|done]. destruct (plan_reads ranges) as [bs|]; [|done].
  assert (count w_encoded (j_work j) + count (owned o_encoded) ss = 0) as Hz by (unfold decode_ok in Hdok; by destruct (d_phase d)).
  destruct bs as [|b bs].
  - intros [= <- <-]. split_and!; try done; [by apply (job_ok_phase _ d)|]. unfold decode_ok. cbn [d_phase d_remaining]. change (zlen []) with 0. lia.
  - destruct (decode_file d) as [file|]; [|done]. intros Heq. assert (j1 = set_work (j_work j ++ input_work file (b :: bs)) (j_encoded j) j) as -> by (by injection Heq).
    injection Heq as <-.
    split_and!; try done; [apply (job_ok_phase _ d); [done|by apply job_ok_input]|]. unfold decode_ok.
    cbn [d_phase d_remaining set_work j_work j_error]. rewrite count_app, count_input_work. lia.
Qed.

(** What a poll makes of the decoder and of its job. *)
Inductive decode_step (t : Turn) (d : Decode) (j : Job) : option Decode -> Job -> Prop :=
| DsRead dec j2 : d_phase d = Reading \/ t_reply t = NoReply -> read_step (t_sent t) d j dec j2 -> decode_step t d j dec j2
| DsDone j1 : d_phase d <> Reading -> t_reply t <> NoReply -> shrinks j j1 -> j_host j1 = j_host j -> decode_step t d j None (set_decoding false j1)
| DsPrepared base d1 j1 dec j2 : d_phase d <> Reading -> t_reply t = Prepared base -> d_phase d1 = Reading -> j_id j1 = j_id j -> j_encoded j1 = j_encoded j ->
    j_host j1 = j_host j -> read_step (t_sent t) d1 j1 dec j2 -> decode_step t d j dec j2.

Lemma queue_ok_invalidate q id : queue_ok q -> queue_ok (record [Invalidated id] q).
Proof.
  intros [H1 H2 H3 H4 H5 H6 H7 H8 H9]. constructor; cbn; try done; [|by apply log_ok_invalidate].
  eapply Forall_impl; [apply H3|]. intros j. apply job_ok_other; try done. intros k. rewrite elem_of_app, list_elem_of_singleton. split; [intros [?|?]; done|auto].
Qed.

Lemma poll_decode_ok t q d : queue_ok q -> q_decoding q = Some d -> exists p j dec j2 es q', q_jobs q !! p = Some j /\ j_id j = d_job d /\ j_decoding j = true /\ decode_ok (q_slots q) d j /\
  poll_decode t q = Some q' /\ queue_ok q' /\ q' = record es (set_decode dec (set_jobs (<[p := j2]> (q_jobs q)) q)) /\ decode_step t d j dec j2.
Proof.
  intros Hq Hd. destruct (qo_decode _ _ _ _ _ _ Hq d Hd) as (_ & j & Hin & Hj & Hdj & Hdok). apply list_elem_of_lookup in Hin as [p Hp].
  pose proof (Forall_lookup_1 _ _ _ _ (qo_jobs _ _ _ _ _ _ Hq) Hp) as Hjok. rewrite Hd in Hjok. exists p, j.
  unfold poll_decode. rewrite Hd, <- Hj, (find_job_at q p j (qo_ids _ _ _ _ _ _ Hq) Hp). cbn [mbind option_bind].
  assert (forall q, record [] q = q) as Hrec by (intros []; unfold record; cbn; by rewrite app_nil_r).
  assert (forall d1 j1, d_job d1 = d_job d -> j_id j1 = j_id j -> j_decoding j1 = true -> job_ok (q_slots q) (Some d1) (q_log q) j1 -> decode_ok (q_slots q) d1 j1 ->
    exists dec j2, poll_reading (t_sent t) d1 j1 q = record [] (set_decode dec (set_jobs (<[p := j2]> (q_jobs q)) q)) /\ queue_ok (poll_reading (t_sent t) d1 j1 q) /\ read_step (t_sent t) d1 j1 dec j2) as Hread.
  { intros d1 j1 ? ? ? ? ?. destruct (poll_reading_ok q p j d Hq Hd Hp Hj (t_sent t) d1 j1) as (dec & j2 & ? & ? & ?); try done. exists dec, j2. by rewrite Hrec. }
  destruct (match d_phase d with Reading => true | _ => match t_reply t with NoReply => true | _ => false end end) eqn:Er.
  { destruct (Hread d j eq_refl eq_refl Hdj Hjok Hdok) as (dec & j2 & Heq & Hok & Hst). exists dec, j2, [], (poll_reading (t_sent t) d j q).
    split_and!; try done; [by destruct (d_phase d), (t_reply t)|constructor; [|done]; destruct (d_phase d), (t_reply t); try discriminate Er; auto]. }
  assert (d_phase d <> Reading) as Hph by (intros Hph; by rewrite Hph in Er). assert (t_reply t <> NoReply) as Hnr by (intros Hnr; rewrite Hnr in Er; by destruct (d_phase d)).
  assert (count w_encoded (j_work j) = 0 /\ count (owned o_encoded) (q_slots q) = 0) as [Hz1 Hz2].
  { pose proof (count_nonneg w_encoded (j_work j)). pose proof (count_nonneg (owned o_encoded) (q_slots q)). unfold decode_ok in Hdok. destruct (d_phase d); [lia|done|lia]. }
  assert (forall j1, shrinks j j1 -> j_host j1 = j_host j -> release_decode j1 q = set_decode None (set_jobs (<[p := set_decoding false j1]> (q_jobs q)) q) /\
    queue_ok (release_decode j1 q) /\ decode_step t d j None (set_decoding false j1)) as Hrel.
  { intros j1 Hs Hh. pose proof Hs as (Hid & _ & _ & _ & _ & Hw). destruct (release_ok q p j d Hq Hd Hp Hj d j1 eq_refl Hid) as [? ?]; [by eapply job_ok_shrinks| |done|].
    - destruct Hw as [(-> & _)|(-> & _)]; done.
    - split_and!; [done|done|by constructor]. }
  pose proof (Hrel j (shrinks_refl j) eq_refl) as (Hr1 & Hr2 & Hr3).
  assert (forall e, _) as Hrf by (intros e; exact (Hrel (fail e j) (shrinks_fail e j) eq_refl)). clear Hrel.
  assert (forall base, t_reply t = Prepared base -> exists dec j2 es q', Some (if is_ok base && bool_decide (is_Some (j_error j)) then release_decode j q
               else match (let? b := base in decode_prepared d b j) with
                    | Ok (j, d) => poll_reading (t_sent t) d j q
                    | Err _ => release_decode (fail DecoderFailed j) q
                    end) = Some q' /\ queue_ok q' /\ q' = record es (set_decode dec (set_jobs (<[p := j2]> (q_jobs q)) q)) /\ decode_step t d j dec j2) as Hprep.
  { intros base Hb. destruct (Hrf DecoderFailed) as (Hf1 & Hf2 & Hf3). destruct (is_ok base && bool_decide (is_Some (j_error j))) eqn:Ee.
    { exists None, (set_decoding false j), [], (release_decode j q). rewrite Hrec. done. }
    destruct base as [b|]; [|exists None, (set_decoding false (fail DecoderFailed j)), [], (release_decode (fail DecoderFailed j) q); by rewrite Hrec].
    destruct (decode_prepared d b j) as [[j1 d1]|] eqn:Ep; [|exists None, (set_decoding false (fail DecoderFailed j)), [], (release_decode (fail DecoderFailed j) q); by rewrite Hrec].
    assert (j_error j = None) as Hn by (destruct (j_error j); [|done]; by rewrite bool_decide_true in Ee).
    destruct (decode_prepared_ok _ _ _ _ _ _ _ Hjok Hdok Hph Hn Hj Ep) as (A1 & A2 & A3 & A4 & A5 & A6 & A7 & A8).
    destruct (Hread d1 j1 A1 A3 ltac:(congruence) A7 A8) as (dec & j2 & Heq & Hok & Hst). exists dec, j2, [], (poll_reading (t_sent t) d1 j1 q).
    split_and!; try done. by apply (DsPrepared t d j (Ok b) d1 j1). }
  destruct (d_phase d) eqn:Hpd; [|done|]; destruct (t_reply t) as [base|[u|corrupt]| |] eqn:Ert; try done.
  all: try (destruct (Hprep base eq_refl) as (dec & j2 & es & q' & ?); exists dec, j2, es, q'; by rewrite <- ?Hpd).
  all: try (exists None, (set_decoding false j), [], (release_decode j q); rewrite Hrec; done).
  all: try (destruct (Hrf DecodeFailed) as (Hf1 & Hf2 & Hf3); exists None, (set_decoding false (fail DecodeFailed j)), (if corrupt then [Invalidated (j_id j)] else []); eexists;
    split_and!; [done|done|done|done|done| |by rewrite Hf1|done]; destruct corrupt; [by apply queue_ok_invalidate|by rewrite Hrec]).
  all: destruct (Hrf DecoderFailed) as (Hf1 & Hf2 & Hf3); exists None, (set_decoding false (fail DecoderFailed j)), [], (release_decode (fail DecoderFailed j) q); by rewrite Hrec.
Qed.

(** ** Completed jobs leave *)

Lemma ok_remove j js ss dec dcr next log : ok (j :: js) ss dec dcr next log -> is_complete j = true ->
  ok js ss dec dcr next (log ++ [Finished (j_id j) (j_error j) (j_writes j)]).
Proof.
  intros [H1 H2 H3 H4 H5 H6 H7 H8 [L1 L2 L3 L4]] Hc. unfold is_complete in Hc. rewrite !andb_true_iff, !negb_true_iff, !bool_decide_eq_true, Z.eqb_eq in Hc.
  destruct Hc as ((((Hz & Hw) & He) & Hd) & Hh). apply Forall_cons in H2 as [Hn H2], H3 as [Hj H3]. rewrite fmap_cons, NoDup_cons in H1. destruct H1 as [Hnin H1].
  rewrite (jo_inflight _ _ _ _ Hj) in Hz. set (f := Finished _ _ _).
  assert (forall i k, Committed i k ∈ log ++ [f] <-> Committed i k ∈ log) as Hcm by (intros i k; rewrite elem_of_app, list_elem_of_singleton; split; [intros [?|?]; done|auto]).
  constructor; try done.
  - eapply Forall_impl; [apply H3|]. intros x. apply job_ok_other; try done.
  - intros o Ho. destruct (H4 o Ho) as (x & [->|Hx]%elem_of_cons & Hxo); [|by exists x]. pose proof (count_none _ _ _ Hz Ho) as Hf. cbn in Hf. unfold of_job in Hf. by rewrite Hxo, Z.eqb_refl in Hf.
  - intros d Hdd. destruct (H6 d Hdd) as (Hr & x & [->|Hx]%elem_of_cons & Hxd & Hdec & Hok); [congruence|]. split; [done|]. by exists x.
  - constructor.
    + rewrite omap_app. cbn. by rewrite app_nil_r.
    + rewrite omap_app. cbn. apply NoDup_app. split_and!; [done| |apply NoDup_singleton]. intros x Hx ->%list_elem_of_singleton. apply omap_finishes in Hx as (e & ws & Hf).
      destruct (L4 _ _ _ Hf) as (_ & Hno & _). destruct Hno. left.
    + intros i k. rewrite Hcm. apply L3.
    + intros i e ws. rewrite elem_of_app, list_elem_of_singleton. intros [Hf|[= -> -> ->]].
      * destruct (L4 _ _ _ Hf) as (A & B & C & D). split_and!; try done; [|intros k; by rewrite Hcm]. intros Hi. apply B. rewrite fmap_cons. by right.
      * split_and!; try done; [intros k; rewrite Hcm; apply (jo_log _ _ _ _ Hj)|]. intros Hne. apply Forall_lookup. intros k w Hk.
        destruct (jo_writes _ _ _ _ Hj k w Hk) as (_ & _ & Hx). destruct (Hx Hne) as [Hx1 Hx2]. destruct (wr_lease w); [|done]. specialize (Hx2 eq_refl). rewrite Hx1 in Hx2. unfold left_over in Hx2. rewrite Hw in Hx2.
        change (count (writes_k k) []) with 0 in Hx2. assert (count (owned (of_write (j_id j) k)) ss = 0); [|lia]. apply count_zero. intros [o|] Ho; [|done]. cbn. unfold of_write.
        pose proof (count_none _ _ _ Hz Ho) as Hf. cbn in Hf. unfold of_job in Hf. by rewrite Hf.
Qed.

Definition waiting (js : list Job) : list Job := List.filter (fun j => negb (is_complete j)) js.
Lemma reap_ok js l ss dec dcr next log : ok (l ++ js) ss dec dcr next log ->
  exists es, reap js = Some (waiting js, es) /\ ok (l ++ waiting js) ss dec dcr next (log ++ es).
Proof.
  revert l log. induction js as [|j js IH]; intros l log Hok; [exists []; cbn; by rewrite !app_nil_r in *|]. cbn [reap waiting List.filter].
  destruct (is_complete j) eqn:Ec; cbn [negb].
  - assert (finish j = Some (Finished (j_id j) (j_error j) (j_writes j))) as -> by (unfold is_complete in Ec; unfold finish; rewrite !andb_true_iff in Ec; by destruct Ec as ((((-> & _) & _) & ->) & ->)).
    apply (ok_perm _ (j :: l ++ js)) in Hok; [|by rewrite Permutation_middle]. apply ok_remove in Hok; [|done]. destruct (IH l _ Hok) as (es & -> & Hok').
    eexists. split; [done|]. by rewrite <- app_assoc in Hok'.
  - destruct (IH (l ++ [j]) log) as (es & -> & Hok'); [by rewrite <- app_assoc|].
    exists es. split; [done|]. by rewrite <- app_assoc in Hok'.
Qed.

(** ** Admission *)

(** Reservations are planned into at least one batch each. *)
Definition good_command (c : Command) : Prop := match c with Save ws => Forall (fun fb => fb.2 <> []) ws | _ => True end.

Lemma planned_batches offset n copies bs : is_u64 offset -> is_u64 n -> Forall range_u64 copies -> plan_writes offset n copies = Ok bs -> bs <> [].
Proof.
  intros Ho Hn Hc Hp ->. pose proof (plan_writes_spec offset n copies Ho Hn Hc) as Hs. rewrite Hp in Hs. destruct Hs as ((_ & _ & _ & Hpos & _) & _ & Hseq & _).
  apply (f_equal length) in Hseq. rewrite length_seqZ in Hseq. cbn in Hseq. lia.
Qed.

Lemma count_raw_works k file bs i : count (writes_k k) (raw_works file bs (Some i)) = if decide (i = k) then zlen bs else 0.
Proof.
  unfold raw_works, count. rewrite list_sum_fmap. cbn [writes_k w_write]. induction bs as [|b bs IH]; [by case_decide|]. unfold list_sum in *. cbn [foldr]. rewrite IH. unfold writes_k. cbn [w_write].
  unfold zlen. cbn [length]. case_decide as Hk; [rewrite bool_decide_true by congruence|rewrite bool_decide_false by congruence]; cbn; lia.
Qed.
Lemma count_save k ws off : count (writes_k (off + k)) (concat (imap (fun i fb => raw_works fb.1 fb.2 (Some (off + i)%nat)) ws)) = default 0 ((fun fb => zlen fb.2) <$> ws !! k).
Proof.
  revert k off. induction ws as [|fb ws IH]; intros k off; [done|]. rewrite imap_cons. cbn [concat]. rewrite count_app, count_raw_works.
  destruct k as [|k].
  - rewrite decide_True by lia. cbn. rewrite count_zero; [lia|]. intros x Hx. apply list_elem_of_In, in_concat in Hx as (l & Hl & Hx). apply list_elem_of_In, elem_of_lookup_imap in Hl as (i & y & -> & _).
    apply list_elem_of_In, list_elem_of_fmap in Hx as (b & -> & _). unfold writes_k. cbn. apply bool_decide_eq_false. intros [= ?]. lia.
  - rewrite decide_False by lia. change ((fb :: ws) !! S k) with (ws !! k). rewrite <- (IH k (S off)). rewrite Z.add_0_l. replace (S off + k)%nat with (off + S k)%nat by lia.
    f_equal. f_equal. apply imap_ext. intros i y _. unfold compose. do 2 f_equal. lia.
Qed.

Lemma new_job_ok ss dec log next c j : new_job next c = Some j -> good_command c -> (forall o, Some o ∈ ss -> o_job o < next) ->
  (forall id k, Committed id k ∈ log -> id < next) -> job_ok ss dec log j /\ j_id j = next /\ j_decoding j = false.
Proof.
  intros Hn Hc Hss Hlog.
  assert (forall p, (forall o, o_job o <> next -> p o = false) -> count (owned p) ss = 0) as Hz.
  { intros p Hp. apply count_zero. intros [o|] Ho; [|done]. cbn. apply Hp. specialize (Hss o Ho). lia. }
  assert (count (owned (of_job next)) ss = 0) as Hz1 by (apply Hz; intros o; apply Z.eqb_neq).
  assert (forall o k, Some o ∈ ss -> o_job o = next -> o_write o = Some k -> False) as Hown by (intros o k Ho He _; specialize (Hss o Ho); lia).
  assert (forall k, Committed next k ∈ log <-> False) as Hcm by (intros k; split; [intros Hk%Hlog; lia|done]).
  destruct c as [layers budget|ws|]; [| |done]; injection Hn as <-.
  - assert (forall work enc, (forall x, x ∈ work -> w_write x = None /\ w_encoded x = false) -> job_ok ss dec log (mkJob next false budget work enc false [] 0 None false false)) as Hjob.
    { intros work enc Hx. constructor; job_fields; try done.
      - intros x k Hin. by rewrite (proj1 (Hx x Hin)).
      - by intros o k ? ? ?%Hown.
      - intros x Hin. by rewrite (proj2 (Hx x Hin)).
      - intros k. rewrite Hcm. split; [done|intros (? & ? & _); done]. }
    destruct (plan layers) as [pl|e].
    + split_and!; try done. apply Hjob. intros x (fb & Hx & _)%list_elem_of_bind. by apply list_elem_of_fmap in Hx as (b & -> & _).
    + split_and!; try done. eapply job_ok_shrinks; [apply shrinks_fail|]. apply Hjob. intros x Hx. inversion Hx.
  - split_and!; try done.
    assert (forall k, count (writes_k k) (concat (imap (fun i fb => raw_works fb.1 fb.2 (Some i)) ws)) = default 0 ((fun fb => zlen fb.2) <$> ws !! k)) as Hcount by (intros k; apply (count_save k ws 0)).
    assert (forall x, x ∈ concat (imap (fun i fb => raw_works fb.1 fb.2 (Some i)) ws) -> w_encoded x = false /\ exists i, w_write x = Some i /\ (i < length ws)%nat) as Hx.
    { intros x Hx. apply list_elem_of_In, in_concat in Hx as (l & Hl & Hx). apply list_elem_of_In, elem_of_lookup_imap in Hl as (i & y & -> & Hy).
      apply list_elem_of_In, list_elem_of_fmap in Hx as (b & -> & _). split; [done|]. exists i. split; [done|by eapply lookup_lt_Some]. }
    constructor; job_fields; try done.
    + intros k w Hw. rewrite list_lookup_fmap in Hw. destruct (ws !! k) as [fb|] eqn:Hk; [|done]. injection Hw as <-.
      assert (fb.2 <> []) as Hne by (apply (Forall_lookup_1 _ _ _ _ Hc Hk)). assert (0 < zlen fb.2) by (destruct (fb.2); [done|unfold zlen; cbn; lia]).
      assert (left_over ss (mkJob next true 0 (concat (imap (fun i fb => raw_works fb.1 fb.2 (Some i)) ws)) [] false ((fun fb => mkWrite true (zlen fb.2)) <$> ws) 0 None false false) k = zlen fb.2) as ->.
      { unfold left_over. cbn [j_work j_id]. rewrite Hcount, Hk, Hz; [cbn; lia|]. intros o Hne'. unfold of_write. by rewrite (proj2 (Z.eqb_neq _ _) Hne'). }
      cbn. split_and!; [lia|done|auto].
    + intros x k Hin Hw. destruct (Hx x Hin) as (_ & i & Hi & Hlt). rewrite length_fmap. congruence.
    + by intros o k ? ? ?%Hown.
    + intros x Hin. by rewrite (proj1 (Hx x Hin)).
    + intros k. rewrite Hcm. split; [done|]. intros (w & Hw & Hl). rewrite list_lookup_fmap in Hw. destruct (ws !! k); [|done]. by injection Hw as <-.
Qed.
Lemma ok_admit js ss dec dcr next log c j : ok js ss dec dcr next log -> new_job next c = Some j -> good_command c -> ok (js ++ [j]) ss dec dcr (next + 1) log.
Proof.
  intros [H1 H2 H3 H4 H5 H6 H7 H8 [L1 L2 L3 L4]] Hn Hc.
  assert (forall x, x ∈ js -> j_id x < next) as Hlt by (by apply Forall_forall).
  destruct (new_job_ok ss dec log next c j Hn Hc) as (Hj & Hid & Hd); [|done|].
  { intros o Ho. destruct (H4 o Ho) as (x & Hx & <-). auto. }
  constructor; try done.
  - rewrite fmap_app. cbn. rewrite Hid. apply NoDup_app. split_and!; [done| |apply NoDup_singleton]. intros x (y & -> & Hy)%list_elem_of_fmap Heq%list_elem_of_singleton. specialize (Hlt y Hy). lia.
  - apply Forall_app. split; [eapply Forall_impl; [apply H2|]; cbn; lia|]. constructor; [lia|done].
  - apply Forall_app. split; [done|]. by constructor.
  - intros o Ho. destruct (H4 o Ho) as (x & Hx & Hxo). exists x. rewrite elem_of_app. auto.
  - intros d Hdd. destruct (H6 d Hdd) as (Hr & x & Hx & Hxd). split; [done|]. exists x. rewrite elem_of_app. auto.
  - constructor; try done; [intros i k Hk; specialize (L3 i k Hk); lia|]. intros i e ws Hf. destruct (L4 i e ws Hf) as (A & B & C & D). split_and!; try done; [lia|].
    rewrite fmap_app. cbn. rewrite elem_of_app, list_elem_of_singleton. intros [?|?]; [done|lia].
Qed.
Lemma admission_ok n inbox q : queue_ok q -> Forall (fun c => forall x, c = Some x -> good_command x) inbox -> queue_ok (admission n inbox q).
Proof.
  revert inbox q. induction n as [|n IH]; intros inbox q Hq Hin; [done|]. destruct inbox as [|c inbox]; [done|]. apply Forall_cons in Hin as [Hc Hin]. cbn [admission].
  destruct (q_closed q); [done|]. destruct c as [[layers budget|ws|]|]; try (by apply IH); (apply IH; [|done]).
  - by apply (ok_admit _ _ _ _ _ _ (Load layers budget)); [apply Hq| |apply Hc].
  - by apply (ok_admit _ _ _ _ _ _ (Save ws)); [apply Hq| |apply Hc].
Qed.
