(* ===== verification/SsdQueueSpec.v ===== *)
(** * The GPU storage queue: what it promises

    Whatever the channel, the devices and the decoder answer, the loop of transfer/worker/ssd/queue.rs never panics, publishes
    an extent only once and only when all its batches are written, and finishes a job only once; and when they
    do answer, every admitted job finishes. *)
From S2P Require Import Prelude Containers Vecs State Blocks SsdRing IoBatches Transfers SsdQueue SsdQueueInv SsdQueueSteps.

Local Open Scope Z_scope.
Local Open Scope rust_scope.

(** ** How much is left to do

    The encoded input with the decoder's phase comes first, because an answer of the decoder may add batches. *)
Definition rank (dec : option Decode) : Z :=
  match dec with None => 0 | Some d => match d_phase d with Preparing => 3 | Reading => 2 | Decoding => 1 end end.
Definition input_left (js : list Job) (dec : option Decode) : Z := 4 * list_sum (fun j => zlen (j_encoded j)) js + rank dec.
Definition work_left (js : list Job) : Z := list_sum (fun j => zlen (j_work j)) js.
Definition below (q' q : Queue) : Prop :=
  input_left (q_jobs q') (q_decoding q') < input_left (q_jobs q) (q_decoding q) \/
  input_left (q_jobs q') (q_decoding q') = input_left (q_jobs q) (q_decoding q) /\ work_left (q_jobs q') < work_left (q_jobs q).
Definition level (q' q : Queue) : Prop :=
  below q' q \/ input_left (q_jobs q') (q_decoding q') = input_left (q_jobs q) (q_decoding q) /\ work_left (q_jobs q') = work_left (q_jobs q).

Lemma below_level a b c : below a b -> level b c -> below a c.
Proof. unfold below, level, below. lia. Qed.
Lemma level_below a b c : level a b -> below b c -> below a c.
Proof. unfold below, level, below. lia. Qed.
Lemma level_trans a b c : level a b -> level b c -> level a c.
Proof. unfold level, below. lia. Qed.
Lemma level_refl a : level a a.
Proof. by right. Qed.

(** ** Choosing a job *)

Lemma select_Some q pos reading : select q = Some (pos, reading) ->
  exists j, q_jobs q !! pos = Some j /\ eligible q j = true /\ j_save j = negb reading /\ (j_save j = true -> write_in_flight q = false).
Proof.
  unfold select. destruct (position _ _) as [r|] eqn:Er; [|destruct (write_in_flight q) eqn:Ew; [done|destruct (position _ _) as [w|] eqn:Ep in |- *; [|done]]].
  - apply position_Some in Er as (j & Hj & [Hs%negb_true_iff He]%andb_true_iff). destruct (write_in_flight q) eqn:Ew; [intros [= <- <-]; exists j; by rewrite Hs|].
    destruct (position (fun j => j_save j && _) _) as [w|] eqn:Ep; [|intros [= <- <-]; exists j; by rewrite Hs]. apply position_Some in Ep as (k & Hk & [Hs' He']%andb_true_iff).
    destruct (_ <=? _); intros [= <- <-]; [exists k; by rewrite Hs'|exists j; by rewrite Hs].
  - apply position_Some in Ep as (k & Hk & [Hs' He']%andb_true_iff). intros [= <- <-]. exists k. by rewrite Hs'.
Qed.
Lemma select_None q j : select q = None -> write_in_flight q = false -> j ∈ q_jobs q -> eligible q j = false.
Proof.
  unfold select. intros Hs Hw Hj. rewrite Hw in Hs. destruct (position _ _) as [r|] eqn:Er; [by destruct (position (fun j => j_save j && _) _); [destruct (_ <=? _)|]|].
  destruct (position (fun j => j_save j && _) _) as [w|] eqn:Ep; [done|]. pose proof (position_None _ _ _ Er Hj) as H1. pose proof (position_None _ _ _ Ep Hj) as H2. cbn in *. by destruct (j_save j).
Qed.
Lemma not_writing q : write_in_flight q = false -> count (owned is_writing) (q_slots q) = 0.
Proof.
  intros Hw. apply count_zero. intros s Hs. unfold write_in_flight in Hw. destruct (owned is_writing s) eqn:E; [|done]. exfalso. apply Bool.not_true_iff_false in Hw. apply Hw, existsb_exists.
  exists s. split; [by apply list_elem_of_In|]. by destruct s.
Qed.
Lemma requeue_perm (js : list Job) pos j j' : js !! pos = Some j -> delete pos js ++ [j'] ≡ₚ <[pos := j']> js.
Proof.
  intros Hp. pose proof (lookup_lt_Some _ _ _ Hp). rewrite insert_take_drop by done. rewrite delete_take_drop, <- app_assoc. apply Permutation_app_head. by rewrite <- Permutation_cons_append.
Qed.
Lemma sum_requeue (f : Job -> Z) js pos j j' : js !! pos = Some j -> list_sum f (delete pos js ++ [j']) = list_sum f js - f j + f j'.
Proof. intros Hp. rewrite (list_sum_perm _ _ _ (requeue_perm js pos j j' Hp)). by apply list_sum_insert. Qed.

(** ** Serving a job *)

Lemma ok_begin js p j ss dcr next log d : ok js ss None dcr next log -> js !! p = Some j -> j_error j = None -> j_work j = [] -> j_save j = false ->
  d_job d = j_id j -> d_phase d = Preparing -> forall enc, ok (<[p := set_decoding true (set_work (j_work j) enc j)]> js) ss (Some d) true next log.
Proof.
  intros Hok Hp He Hw Hs Hd Hph enc. pose proof Hok as [H1 H2 H3 H4 H5 H6 H7 H8 H9].
  assert (decodes (Some d) (j_id j)) as Hdj by (by exists d).
  assert (forall o, Some o ∈ ss -> o_encoded o = false) as Hno.
  { intros o Ho. destruct (o_encoded o) eqn:E; [|done]. by destruct (H5 o Ho E) as (? & ? & _). }
  apply (ok_replace js p j (set_decoding true (set_work (j_work j) enc j)) ss _ None _ dcr _ next log _ Hok Hp eq_refl); try done.
  - intros x Hx Hne. apply job_ok_other; try done. by intros (? & ? & _).
  - destruct (Forall_lookup_1 _ _ _ _ H3 Hp) as [J1 J2 J3 J4 J5 J6 J7 J8 J9]. rewrite Hs in J8. constructor; job_fields; try done. rewrite Hs. done.
  - intros o Ho. split; [by right|]. by rewrite (Hno o Ho).
  - intros e [= <-]. split; [done|]. left. split_and!; [done|done|]. unfold decode_ok. rewrite Hph. job_fields. rewrite Hw, (count_zero (owned o_encoded)); [done|].
    intros [o|] Ho; [|done]. by apply Hno.
Qed.

Definition served (w : Work) (ws : list Work) (j : Job) : Job :=
  mkJob (j_id j) (j_save j) (j_budget j) ws (j_encoded j) (j_decoding j) (j_writes j) (j_inflight j + 1) (j_error j) (j_prepared j) (j_host j).
Definition owner_of (w : Work) (j : Job) : BatchOwner := mkOwner (j_id j) (w_write w) (w_encoded w).

Lemma elem_insert_Some (ss : list (option BatchOwner)) i o s : Some s ∈ <[i := Some o]> ss -> s = o \/ Some s ∈ ss.
Proof.
  intros Hs. apply list_elem_of_lookup in Hs as [k Hk]. destruct (decide (k = i)) as [->|]; [|rewrite list_lookup_insert_ne in Hk by done; right; by eapply list_elem_of_lookup_2].
  destruct (decide (i < length ss)%nat); [rewrite list_lookup_insert_eq in Hk by done; injection Hk as ->; by left|].
  rewrite list_insert_ge in Hk by lia. right. by eapply list_elem_of_lookup_2.
Qed.
Lemma job_ok_served ss i dec log w ws j : job_ok ss dec log j -> ss !! i = Some None -> j_work j = w :: ws -> job_ok (<[i := Some (owner_of w j)]> ss) dec log (served w ws j).
Proof.
  intros [H1 H2 H3 H4 H5 H6 H7 H8 H9] Hi Hw. assert (j_error j = None) as He by (destruct (j_error j); [destruct (H2 ltac:(done)); congruence|done]).
  assert (forall x, x ∈ ws -> x ∈ j_work j) as Hsub by (intros x Hx; rewrite Hw; by right).
  constructor; cbn [served j_id j_save j_work j_encoded j_decoding j_writes j_inflight j_error]; try done.
  - rewrite H1, (owned_insert _ _ _ _ _ Hi). cbn [owned]. assert (of_job (j_id j) (owner_of w j) = true) as -> by apply Z.eqb_refl. cbn. lia.
  - intros k v Hv. assert (left_over (<[i := Some (owner_of w j)]> ss) (served w ws j) k = left_over ss j k) as ->; [|by apply H3].
    unfold left_over. cbn [served j_work j_id]. rewrite (owned_insert _ _ _ _ _ Hi), Hw, count_cons. cbn [owned].
    assert (of_write (j_id j) k (owner_of w j) = writes_k k w) as -> by (unfold of_write; cbn [owner_of o_job o_write]; by rewrite Z.eqb_refl). cbn [Z.b2z]. lia.
  - intros x k Hx. by apply H4, Hsub.
  - intros o k [->|Ho]%elem_insert_Some; [|by apply H5]. cbn. intros _. apply H4. rewrite Hw. by left.
  - intros x Hx. by apply H6, Hsub.
Qed.

Lemma ok_submit q pos i j w ws : queue_ok q -> q_jobs q !! pos = Some j -> q_slots q !! i = Some None -> j_work j = w :: ws -> (j_save j = true -> write_in_flight q = false) ->
  ok (<[pos := served w ws j]> (q_jobs q)) (<[i := Some (owner_of w j)]> (q_slots q)) (q_decoding q) (q_decoder q) (q_next q) (q_log q).
Proof.
  intros Hq Hp Hi Hw Hsave. pose proof Hq as [H1 H2 H3 H4 H5 H6 H7 H8 H9]. pose proof (Forall_lookup_1 _ _ _ _ H3 Hp) as Hj.
  assert (w ∈ j_work j) as Hin by (rewrite Hw; by left).
  apply (ok_replace (q_jobs q) pos j (served w ws j) (q_slots q) _ (q_decoding q) _ (q_decoder q) _ (q_next q) (q_log q) _ Hq Hp eq_refl); try done.
  - intros x Hx Hne. apply job_ok_other; try done; [|intros o [->|Ho]%elem_insert_Some; [cbn; congruence|done]].
    intros f Hf. rewrite (owned_insert _ _ _ _ _ Hi). cbn. rewrite Hf; [cbn; lia|cbn; congruence].
  - by apply job_ok_served.
  - intros o [->|Ho]%elem_insert_Some; [|split; [by right|by apply H5]]. split; [by left|]. cbn. intros He. by apply (jo_encoded _ _ _ _ Hj w).
  - intros d Hd. destruct (H6 d Hd) as (Hr & x & Hx & Hxd & Hdec & Hdok). split; [done|]. apply list_elem_of_lookup in Hx as [px Hpx].
    unfold decode_ok in *. rewrite (owned_insert _ _ _ _ _ Hi). cbn [owned owner_of o_encoded]. destruct (decide (j_id x = j_id j)) as [Hxj|Hne].
    + left. destruct (unique_job _ _ _ _ _ H1 Hpx Hp Hxj) as [-> ->]. split_and!; [done|done|]. cbn [served j_work j_error]. rewrite Hw, count_cons in Hdok. cbn [Z.b2z].
      match type of Hdok with context [?n <= _] => match goal with |- context [?m <= _] => replace m with n by lia end end. done.
    + right. exists x. split_and!; try done; [by eapply list_elem_of_lookup_2|]. destruct (w_encoded w) eqn:Ee; [|cbn [Z.b2z]; by rewrite Z.sub_0_r, Z.add_0_r].
      destruct (jo_encoded _ _ _ _ Hj w Hin Ee) as (d' & Hd' & Hdj). congruence.
  - rewrite (owned_insert _ _ _ _ _ Hi). cbn [owned Z.b2z]. destruct (is_writing (owner_of w j)) eqn:Ew; cbn [Z.b2z]; [|lia]. rewrite not_writing; [done|]. apply Hsave.
    unfold is_writing in Ew. apply bool_decide_eq_true in Ew as [k Hk]. pose proof (jo_work _ _ _ _ Hj w k Hin Hk) as Hlt. pose proof (jo_kind _ _ _ _ Hj) as Hkind.
    destruct (j_save j); [done|]. rewrite Hkind in Hlt. cbn in Hlt. lia.
  - by rewrite length_insert.
Qed.

Lemma prepare_fields a j k : prepare a j = Ok k ->
  j_id k = j_id j /\ j_save k = j_save j /\ j_work k = j_work j /\ j_encoded k = j_encoded j /\ j_error k = j_error j.
Proof. unfold prepare. destruct (j_prepared j); [by intros [= ->]|]. destruct a; [|done]. by intros [= <-]. Qed.

Lemma decode_begin_Ok sent j j' d : decode_begin sent j = Ok (j', d) ->
  exists n, j' = set_decoding true (set_work (j_work j) (drop n (j_encoded j)) j) /\ d_job d = j_id j /\ d_phase d = Preparing /\
    j_save j = false /\ zlen (drop n (j_encoded j)) < zlen (j_encoded j).
Proof.
  unfold decode_begin. destruct (j_save j); [done|]. destruct (j_encoded j) as [|f l] eqn:El; [done|]. destruct (input_window _ _) as [w|] eqn:Ew; [|done]. destruct sent; [|done].
  intros [= <- <-]. exists (length w.1). split_and!; try done. unfold input_window in Ew. destruct (window_loop _ _ _ _) as [v|]; [|done]. case_bool_decide as Hv; [done|]. injection Ew as ->.
  destruct (w.1) as [|o os]; [done|]. unfold zlen. rewrite length_drop. cbn [length]. lia.
Qed.

(** Giving an eligible job up, or serving it, leaves less to do. *)
Lemma requeue_below q q' pos j j' : q_jobs q !! pos = Some j -> q_jobs q' = delete pos (q_jobs q) ++ [j'] ->
  (4 * zlen (j_encoded j') + rank (q_decoding q') < 4 * zlen (j_encoded j) + rank (q_decoding q) \/
   4 * zlen (j_encoded j') + rank (q_decoding q') = 4 * zlen (j_encoded j) + rank (q_decoding q) /\ zlen (j_work j') < zlen (j_work j)) -> below q' q.
Proof.
  intros Hp Hj Hlt. unfold below, input_left, work_left. rewrite Hj, !(sum_requeue _ _ _ _ _ Hp). cbn beta. lia.
Qed.
Lemma eligible_left q j : eligible q j = true -> j_work j <> [] \/ j_encoded j <> [] /\ q_decoding q = None.
Proof.
  unfold eligible. rewrite negb_true_iff, andb_false_iff, orb_false_iff, !bool_decide_eq_false. intros [?|[? Hd]]; [by left|right]. split; [done|]. destruct (q_decoding q); [destruct Hd; by eexists|done].
Qed.
Lemma give_up_below q q' pos j e j0 : q_jobs q !! pos = Some j -> eligible q j = true -> q_jobs q' = delete pos (q_jobs q) ++ [fail e j0] -> q_decoding q' = q_decoding q -> below q' q.
Proof.
  intros Hp Hel Hj Hd. apply (requeue_below q q' pos j (fail e j0) Hp Hj). rewrite Hd. cbn [fail j_encoded j_work]. change (zlen (@nil EncodedRead)) with 0. change (zlen (@nil Work)) with 0.
  destruct (eligible_left q j Hel) as [Hw|[He _]]; unfold zlen in *.
  - destruct (j_work j); [done|]. cbn. lia.
  - destruct (j_encoded j); [done|]. cbn. lia.
Qed.

(** What stays the same. *)
Definition framed (q' q : Queue) : Prop :=
  q_closed q' = q_closed q /\ q_next q' = q_next q /\ q_stopped q' = q_stopped q /\ q_log q' = q_log q /\ j_id <$> q_jobs q' ≡ₚ j_id <$> q_jobs q /\ length (q_slots q') = length (q_slots q).

Lemma ids_requeue (js : list Job) pos j j' : js !! pos = Some j -> j_id j' = j_id j -> j_id <$> delete pos js ++ [j'] ≡ₚ j_id <$> js.
Proof. intros Hp Hid. by rewrite (requeue_perm js pos j j' Hp), (insert_ids js pos j j' Hp Hid). Qed.

Lemma dispatch_ok t i q : queue_ok q -> exists q', dispatch t i q = Some q' /\ queue_ok q' /\ framed q' q /\
  (below q' q \/ q' = q /\ (q_reset q = true \/ q_slots q !! i <> Some None \/ select q = None)).
Proof.
  intros Hq. unfold dispatch. destruct (q_reset q) eqn:Er; [exists q; split_and!; try done; right; auto|].
  destruct (q_slots q !! i) as [[o|]|] eqn:Hi; [exists q; split_and!; try done; right; split; [done|]; right; left; congruence| |exists q; split_and!; try done; right; split; [done|]; right; left; congruence].
  destruct (select q) as [[pos reading]|] eqn:Es; [|exists q; split_and!; try done; right; auto].
  destruct (select_Some _ _ _ Es) as (j & Hp & Hel & Hsv & Hwf). rewrite Hp. cbn [mbind option_bind].
  assert (forall j', shrinks j j' -> ok (delete pos (q_jobs q) ++ [j']) (q_slots q) (q_decoding q) (q_decoder q) (q_next q) (q_log q)) as Hsh.
  { intros j' Hs. eapply ok_perm; [symmetry; by eapply requeue_perm|]. apply (ok_shrinks (q_jobs q)); [|done]. rewrite <- (list_insert_id (q_jobs q) pos j Hp) at 1. apply Forall2_insert; [|done].
    apply Forall_Forall2_diag, Forall_forall. intros x _. apply shrinks_refl. }
  pose proof (fun j' => ids_requeue (q_jobs q) pos j j' Hp) as Hlen.
  destruct (prepare (t_prepare t (j_id j)) j) as [k|] eqn:Ep.
  2:{ eexists. split; [done|]. split_and!; [apply Hsh, shrinks_fail|repeat split; by apply Hlen|left; by eapply give_up_below]. }
  pose proof (shrinks_prepare _ _ _ Ep) as Hjk. destruct (prepare_fields _ _ _ Ep) as (Kid & Ksv & Kw & Ke & Kerr).
  assert (forall e, shrinks j (fail e k)) as Hfk by (intros e; eapply shrinks_trans; [apply Hjk|apply shrinks_fail]).
  assert (queue_ok (set_jobs (<[pos := k]> (q_jobs q)) q)) as Hqk by (unfold queue_ok; cbn; eapply ok_perm; [by eapply requeue_perm|by apply Hsh]).
  assert (<[pos := k]> (q_jobs q) !! pos = Some k) as Hpk by (apply list_lookup_insert_eq; by eapply lookup_lt_Some).
  destruct (j_work k) as [|w ws] eqn:Ew.
  - destruct (negb (q_decoder q) && negb (t_decoder t)) eqn:Ed; cbn [q_decoder].
    { rewrite Ed. eexists. split; [done|]. split_and!; [by apply Hsh|repeat split; by apply Hlen|left; by eapply give_up_below]. }
    rewrite Ed. assert (forall js, ok js (q_slots q) (q_decoding q) (q_decoder q) (q_next q) (q_log q) -> ok js (q_slots q) (q_decoding q) true (q_next q) (q_log q)) as Hdcr.
    { intros js [H1 H2 H3 H4 H5 H6 H7 H8 H9]. constructor; try done. intros d Hd. split; [done|by apply (H6 d Hd)]. }
    destruct (decode_begin (t_sent t) k) as [[k' d]|] eqn:Eb.
    2:{ eexists. split; [done|]. split_and!; [by apply Hdcr, Hsh|repeat split; by apply Hlen|left; by eapply give_up_below]. }
    destruct (decode_begin_Ok _ _ _ _ Eb) as (n & -> & Hdj & Hph & Hks & Hlt). destruct (eligible_left q j Hel) as [?|[Hne Hdec]]; [congruence|].
    assert (j_error k = None) as Hkn.
    { destruct (j_error k) eqn:En; [|done]. pose proof (Forall_lookup_1 _ _ _ _ (qo_jobs _ _ _ _ _ _ Hqk) Hpk) as Hko. destruct (jo_error _ _ _ _ Hko) as [_ Henc]; congruence. }
    eexists. split; [done|]. split_and!; [|repeat split; by apply Hlen|].
    + unfold queue_ok. cbn [set_decode requeue set_jobs q_jobs q_slots q_decoding q_decoder q_next q_log]. eapply ok_perm; [symmetry; by eapply requeue_perm|].
      rewrite <- (list_insert_insert_eq (q_jobs q) pos _ k). apply (ok_begin _ pos k _ (q_decoder q)); try done. unfold queue_ok in Hqk. cbn in Hqk. by rewrite Hdec in Hqk.
    + left. eapply (requeue_below q _ pos j _ Hp); [done|]. left. cbn [set_decode q_decoding rank]. rewrite Hph, Hdec. job_fields. cbn [rank]. rewrite <- Ke. lia.
  - destruct (t_submit t i).
    + eexists. split; [done|]. split_and!; [|repeat split; [by apply Hlen|by apply length_insert]|].
      * unfold queue_ok. cbn [set_slots requeue set_jobs q_jobs q_slots q_decoding q_decoder q_next q_log set_work j_id j_save j_budget j_work j_encoded j_decoding j_writes j_inflight j_error j_prepared j_host].
        eapply ok_perm; [symmetry; by eapply requeue_perm|]. pose proof (ok_submit _ pos i k w ws Hqk Hpk Hi Ew) as Hsub. cbn [set_jobs q_jobs q_slots q_decoding q_decoder q_next q_log] in Hsub.
        rewrite list_insert_insert_eq in Hsub. apply Hsub. intros Hs. apply Hwf. congruence.
      * left. eapply (requeue_below q _ pos j _ Hp); [done|]. right. cbn [j_encoded j_work set_work]. rewrite <- Kw, Ke. split; [done|]. unfold zlen. cbn [length]. lia.
    + eexists. split; [done|]. split_and!; [apply Hsh|repeat split; by apply Hlen|left; by eapply give_up_below].
      eapply shrinks_trans; [apply Hjk|]. repeat split; by right.
Qed.

(** ** Nothing is lost *)

Definition has_finished (id : Z) (q : Queue) : Prop := exists e ws, Finished id e ws ∈ q_log q.
Record accounted (q' q : Queue) : Prop := {
  ac_log : forall e, e ∈ q_log q -> e ∈ q_log q';
  ac_jobs : forall id, id ∈ j_id <$> q_jobs q -> id ∈ j_id <$> q_jobs q' \/ has_finished id q' }.

Lemma accounted_trans a b c : accounted a b -> accounted b c -> accounted a c.
Proof.
  intros [A1 A2] [B1 B2]. constructor; [auto|]. intros id Hid. destruct (B2 id Hid) as [Hb|(e & ws & Hf)]; [auto|]. right. exists e, ws. auto.
Qed.
Lemma accounted_perm q' q : (forall e, e ∈ q_log q -> e ∈ q_log q') -> j_id <$> q_jobs q ≡ₚ j_id <$> q_jobs q' -> accounted q' q.
Proof. intros Hl Hp. constructor; [done|]. intros id. rewrite Hp. auto. Qed.
Lemma shrinks_ids js js' : Forall2 shrinks js js' -> j_id <$> js' = j_id <$> js.
Proof. induction 1 as [|a b l k (Ha & _) _ IH]; [done|]. rewrite !fmap_cons. by rewrite Ha, IH. Qed.
Lemma shrinks_left j j' : shrinks j j' -> zlen (j_encoded j') <= zlen (j_encoded j) /\ zlen (j_work j') <= zlen (j_work j).
Proof.
  intros (_ & _ & _ & _ & _ & [(-> & -> & _)|(-> & -> & _)]); [done|]. pose proof (zlen_nonneg (j_encoded j)). pose proof (zlen_nonneg (j_work j)). by split.
Qed.
Lemma shrinks_level q js : Forall2 shrinks (q_jobs q) js -> level (set_jobs js q) q.
Proof.
  intros Hf. assert (list_sum (fun j => zlen (j_encoded j)) js <= list_sum (fun j => zlen (j_encoded j)) (q_jobs q) /\ list_sum (fun j => zlen (j_work j)) js <= list_sum (fun j => zlen (j_work j)) (q_jobs q)) as Hs.
  { induction Hf as [|a b l k Ha _ IH]; [done|]. destruct (shrinks_left _ _ Ha). unfold list_sum in *. cbn. lia. }
  unfold level, below, input_left, work_left. cbn [set_jobs q_jobs q_decoding]. lia.
Qed.

(** ** The phases of a turn *)

Definition good_turn (t : Turn) : Prop := Forall (fun c => forall x, c = Some x -> good_command x) (t_inbox t).

Lemma admission_frame n inbox q : accounted (admission n inbox q) q /\ q_stopped (admission n inbox q) = q_stopped q /\ (q_closed q = true \/ inbox = [] -> admission n inbox q = q).
Proof.
  revert inbox q. induction n as [|n IH]; intros inbox q; [split_and!; try done; by apply accounted_perm|]. destruct inbox as [|c inbox]; [split_and!; try done; by apply accounted_perm|]. cbn [admission].
  destruct (q_closed q) eqn:Ec; [split_and!; try done; by apply accounted_perm|]. split_and!; [| |intros [?|?]; done].
  - destruct c as [[layers budget|ws|]|]; try (eapply accounted_trans; [apply IH|by apply accounted_perm]);
      (eapply accounted_trans; [apply IH|]); (constructor; [done|]; intros id Hid; left; cbn [q_jobs]; rewrite fmap_app, elem_of_app; by left).
  - destruct c as [[layers budget|ws|]|]; exact (proj1 (proj2 (IH inbox _))).
Qed.

Lemma polled_shrinks t q : Forall2 shrinks (q_jobs q) (q_jobs (polled_jobs t q)).
Proof. cbn. apply Forall2_fmap_r, Forall_Forall2_diag, Forall_forall. intros j _. apply shrinks_poll. Qed.
Lemma polled_hosts t q : (forall id, t_host t id <> HostPending) -> Forall (fun j => j_host j = false) (q_jobs (polled_jobs t q)).
Proof.
  intros Hh. cbn. apply Forall_fmap, Forall_forall. intros j _. cbn. specialize (Hh (j_id j)).
  unfold cancel_abandoned, poll_host. destruct (t_closed t (j_id j)), (j_host j) eqn:E, (t_host t (j_id j)); cbn; done.
Qed.

(** After the slots have been polled. *)
Record slots_polled (t : Turn) (i n : nat) (q' q : Queue) : Prop := {
  sp_level : level q' q;
  sp_account : accounted q' q;
  sp_same : q_closed q' = q_closed q /\ q_stopped q' = q_stopped q /\ q_decoder q' = q_decoder q /\ length (q_jobs q') = length (q_jobs q) /\ length (q_slots q') = length (q_slots q);
  sp_phase : d_phase <$> q_decoding q' = d_phase <$> q_decoding q;
  sp_host : Forall (fun j => j_host j = false) (q_jobs q) -> Forall (fun j => j_host j = false) (q_jobs q');
  sp_keep : forall k, (k < i)%nat -> q_slots q' !! k = q_slots q !! k;
  sp_idle : (forall k, t_poll t k <> None) -> forall k o, (i <= k < i + n)%nat -> q_slots q' !! k <> Some (Some o) }.

Lemma settled_level i o r p j j' es q : q_jobs q !! p = Some j -> kept j j' -> level (settled_queue i o r (<[p := j']> (q_jobs q)) es q) q.
Proof.
  intros Hp (_ & _ & _ & Hc). unfold level, below, input_left, work_left, settled_queue. queue_fields. rewrite !(list_sum_insert _ _ _ _ _ Hp).
  assert (rank (dec_after o (q_decoding q)) = rank (q_decoding q)) as -> by (unfold dec_after; destruct (o_encoded o), (q_decoding q); done).
  pose proof (zlen_nonneg (j_encoded j)). pose proof (zlen_nonneg (j_work j)). destruct Hc as [(-> & -> & _)|(-> & -> & _)]; change (zlen (@nil EncodedRead)) with 0; change (zlen (@nil Work)) with 0; lia.
Qed.

Lemma poll_slots_ok t n i q : queue_ok q -> exists q', poll_slots t n i q = Some q' /\ queue_ok q' /\ slots_polled t i n q' q.
Proof.
  revert i q. induction n as [|n IH]; intros i q Hq; cbn [poll_slots].
  { exists q. split_and!; try done. constructor; try done; [apply level_refl|by apply accounted_perm|intros; lia]. }
  assert ((forall o, q_slots q !! i = Some (Some o) -> t_poll t i = None) -> exists q', poll_slots t n (S i) q = Some q' /\ queue_ok q' /\ slots_polled t i (S n) q' q) as Hskip.
  { intros Hs. destruct (IH (S i) q Hq) as (q' & He & Hok & [P1 P2 P3 P4 P5 P6 P7]). exists q'. split_and!; try done. constructor; try done; [intros k Hk; apply P6; lia|].
    intros Ha k o Hk. destruct (decide (k = i)) as [->|]; [|apply P7; [done|lia]]. rewrite P6 by lia. intros Ho. by apply (Ha i), (Hs o). }
  destruct (q_slots q !! i) as [[o|]|] eqn:Hi; [|by apply Hskip..]. destruct (t_poll t i) as [r|] eqn:Er; [|by apply Hskip]. clear Hskip.
  destruct (settle_slot_ok i o r q Hq Hi) as (p & j & j' & es & Hp & Hkept & -> & Hok). cbn [mbind option_bind].
  destruct (IH (S i) _ Hok) as (q' & He & Hok' & [P1 P2 P3 P4 P5 P6 P7]). exists q'. split_and!; try done.
  pose proof (settled_level i o r p j j' es q Hp Hkept) as Hlev. pose proof Hkept as (Hid & _ & Hhost & _). cbn [settled_queue q_jobs q_slots q_decoding q_decoder q_closed q_stopped] in P3, P4, P5, P6. constructor.
  - by eapply level_trans.
  - eapply accounted_trans; [done|]. apply accounted_perm; cbn; [intros e Hin; apply elem_of_app; by left|]. by rewrite (insert_ids _ _ _ _ Hp Hid).
  - by rewrite !length_insert in P3.
  - rewrite P4. unfold dec_after. destruct (o_encoded o), (q_decoding q); done.
  - intros Hh. apply P5, Forall_insert; [done|]. rewrite Hhost. by apply (Forall_lookup_1 _ _ _ _ Hh Hp).
  - intros k Hk. rewrite P6 by lia. apply list_lookup_insert_ne. lia.
  - intros Ha k o' Hk. destruct (decide (k = i)) as [->|]; [|apply P7; [done|lia]]. rewrite P6 by lia. rewrite list_lookup_insert_eq by (by eapply lookup_lt_Some). done.
Qed.

(** The decoder answers what it was asked. *)
Definition replies (ph : option DecodePhase) (r : DecodeReply) : Prop :=
  match ph, r with
  | None, _ | Some Reading, _ | Some Preparing, Prepared _ | Some Decoding, Decoded _ | Some _, Disconnected => True
  | Some _, _ => False
  end.
Definition idle (q : Queue) : Prop := forall o, Some o ∉ q_slots q.
Lemma idle_count q p : idle q -> count (owned p) (q_slots q) = 0.
Proof. intros Hi. apply count_zero. intros [o|] Ho; [by destruct (Hi o)|done]. Qed.

Lemma read_step_left sent d j dec j2 : read_step sent d j dec j2 ->
  j_id j2 = j_id j /\ j_host j2 = j_host j /\ zlen (j_encoded j2) <= zlen (j_encoded j) /\ rank dec <= rank (Some d) /\
  (rank dec < rank (Some d) \/ dec = Some d /\ j2 = j /\ (d_phase d = Reading -> j_error j <> None /\ j_inflight j <> 0 \/ j_error j = None /\ d_remaining d <> 0)).
Proof.
  pose proof (zlen_nonneg (j_encoded j)). intros [Hw|Hp|Hp|d' Hp Hp']; split_and!; try done; cbn [rank]; try (right; done); try (left; rewrite ?Hp, ?Hp'; lia); try (rewrite ?Hp, ?Hp'; lia).
Qed.
Lemma decode_step_left t d j dec j2 : decode_step t d j dec j2 -> replies (Some (d_phase d)) (t_reply t) ->
  zlen (j_encoded j2) <= zlen (j_encoded j) /\
  (rank dec < rank (Some d) \/ dec = Some d /\ j2 = j /\ (j_error j <> None /\ j_inflight j <> 0 \/ j_error j = None /\ d_remaining d <> 0) /\ d_phase d = Reading).
Proof.
  intros [dec' j2' Hr Hst|j1 Hph Hnr Hs Hh|base d1 j1 dec' j2' Hph Hrep Hp1 Hid Henc Hh Hst] Ha.
  - destruct (read_step_left _ _ _ _ _ Hst) as (_ & _ & He & _ & Hc). split; [done|]. assert (d_phase d = Reading) as Hrd by (destruct Hr as [?|Hr]; [done|]; rewrite Hr in Ha; by destruct (d_phase d)).
    destruct Hc as [?|(? & ? & Hc)]; [by left|right]. auto.
  - split; [by apply shrinks_left in Hs as [? _]|]. left. cbn [rank]. by destruct (d_phase d).
  - destruct (read_step_left _ _ _ _ _ Hst) as (_ & _ & He & Hrk & _). rewrite Henc in He. split; [done|]. left. cbn [rank] in *. rewrite Hp1 in Hrk. rewrite Hrep in Ha.
    destruct (d_phase d); cbn in Ha |- *; [lia|done|done].
Qed.
Lemma decode_step_frame t d j dec j2 : decode_step t d j dec j2 -> j_id j2 = j_id j /\ j_host j2 = j_host j.
Proof.
  intros [dec' j2' Hr Hst|j1 Hph Hnr Hs Hh|base d1 j1 dec' j2' Hph Hrep Hp1 Hid Henc Hh Hst].
  - by destruct (read_step_left _ _ _ _ _ Hst) as (? & ? & _).
  - split; [by destruct Hs|done].
  - destruct (read_step_left _ _ _ _ _ Hst) as (? & ? & _). split; congruence.
Qed.

Record decode_polled (t : Turn) (q' q : Queue) : Prop := {
  dp_account : accounted q' q;
  dp_same : q_closed q' = q_closed q /\ q_stopped q' = q_stopped q /\ q_slots q' = q_slots q /\ q_reset q' = q_reset q /\ length (q_jobs q') = length (q_jobs q);
  dp_host : Forall (fun j => j_host j = false) (q_jobs q) -> Forall (fun j => j_host j = false) (q_jobs q');
  dp_left : idle q -> replies (d_phase <$> q_decoding q) (t_reply t) -> below q' q \/ level q' q /\ (q_decoding q' <> None -> exists j, j ∈ q_jobs q' /\ j_work j <> []) }.

Lemma decode_phase_ok t q : queue_ok q -> exists q', (if q_decoder q then poll_decode t q else Some q) = Some q' /\ queue_ok q' /\ decode_polled t q' q.
Proof.
  intros Hq. destruct (q_decoding q) as [d|] eqn:Hd.
  - destruct (poll_decode_ok t q d Hq Hd) as (p & j & dec & j2 & es & q' & Hp & Hj & Hdj & Hdok & Hpoll & Hok & Heq & Hst). rewrite (proj1 (qo_decode _ _ _ _ _ _ Hq d Hd)).
    exists q'. split_and!; [done|done|]. subst q'. destruct (decode_step_frame _ _ _ _ _ Hst) as [Hid Hhost]. constructor.
    + apply accounted_perm; [intros e He; cbn; apply elem_of_app; by left|]. cbn. by rewrite (insert_ids _ _ _ _ Hp Hid).
    + split_and!; try done. by apply length_insert.
    + intros Hh. apply Forall_insert; [done|]. rewrite Hhost. by apply (Forall_lookup_1 _ _ _ _ Hh Hp).
    + intros Hi Ha. rewrite Hd in Ha. destruct (decode_step_left _ _ _ _ _ Hst Ha) as (He & [Hrk|(-> & -> & Hc & Hph)]).
      * left. left. unfold input_left. cbn [record set_decode set_jobs q_jobs q_decoding]. rewrite (list_sum_insert _ _ _ _ _ Hp), Hd. lia.
      * right. pose proof (Forall_lookup_1 _ _ _ _ (qo_jobs _ _ _ _ _ _ Hq) Hp) as Hjok. assert (j_inflight j = 0) as Hz by (rewrite (jo_inflight _ _ _ _ Hjok); by apply idle_count).
        split; [right; unfold input_left, work_left; cbn [record set_decode set_jobs q_jobs q_decoding]; rewrite !(list_sum_insert _ _ _ _ _ Hp), Hd; lia|]. intros _.
        exists j. split; [apply list_elem_of_lookup; exists p; apply list_lookup_insert_eq; by eapply lookup_lt_Some|]. intros Hw.
        destruct Hc as [[_ ?]|[Herr Hrem]]; [done|]. unfold decode_ok in Hdok. rewrite Hph, Hw, (idle_count q o_encoded Hi) in Hdok. apply Hrem. symmetry. by apply Hdok.
  - exists q. assert (decode_polled t q q) as Hdp.
    { constructor; try done; [by apply accounted_perm|]. intros _ _. right. split; [apply level_refl|done]. }
    destruct (q_decoder q); [|done]. unfold poll_decode. by rewrite Hd.
Qed.

Lemma ok_idle_slots js ss ss' dec dcr next log : ok js ss dec dcr next log -> (forall o, Some o ∉ ss) -> (forall o, Some o ∉ ss') ->
  length ss' = 0%nat \/ length ss' = Z.to_nat STAGING_SLOTS -> ok js ss' dec dcr next log.
Proof.
  intros [H1 H2 H3 H4 H5 H6 H7 H8 H9] Hss Hss' Hlen.
  assert (forall p, count (owned p) ss' = count (owned p) ss) as Hc by (intros p; rewrite !count_zero; [done|intros [o|] Ho; [by destruct (Hss o)|done]|intros [o|] Ho; [by destruct (Hss' o)|done]]).
  constructor; try done; [|by intros o ?%Hss'|by intros o ?%Hss'| |by rewrite Hc].
  - eapply Forall_impl; [apply H3|]. intros j. apply job_ok_other; try done. by intros o ?%Hss'.
  - intros d Hd. destruct (H6 d Hd) as (Hr & x & ? & ? & ? & Hok). split; [done|]. exists x. split_and!; try done. unfold decode_ok in *. by rewrite Hc.
Qed.
Lemma reset_slots_ok q : queue_ok q -> queue_ok (reset_slots q) /\ q_jobs (reset_slots q) = q_jobs q /\ q_decoding (reset_slots q) = q_decoding q /\ q_log (reset_slots q) = q_log q /\
  q_closed (reset_slots q) = q_closed q /\ q_stopped (reset_slots q) = q_stopped q /\ q_next (reset_slots q) = q_next q /\ (idle q -> idle (reset_slots q) /\ q_reset (reset_slots q) = false).
Proof.
  intros Hq. unfold reset_slots. destruct (q_reset q) eqn:Er; cbn [andb]; [|split_and!; done]. destruct (forallb _ _) eqn:Ef.
  - rewrite forallb_forall in Ef. split_and!; try done; [|intros _; split; [by intros o ?%elem_of_nil|done]]. apply (ok_idle_slots _ (q_slots q)); [done| |by intros o ?%elem_of_nil|by left].
    intros o Ho%list_elem_of_In. specialize (Ef _ Ho). by rewrite bool_decide_true in Ef by (by eexists).
  - split_and!; try done. intros Hi. split; [done|]. exfalso. apply Bool.not_true_iff_false in Ef. apply Ef, forallb_forall. intros [o|] Ho%list_elem_of_In; [by destruct (Hi o)|].
    by rewrite bool_decide_false by (by intros [? ?]).
Qed.

(** Completed jobs have nothing left, and their completion is recorded. *)
Lemma waiting_sum (f : Job -> Z) js : (forall j, is_complete j = true -> f j = 0) -> list_sum f (waiting js) = list_sum f js.
Proof.
  intros Hf. induction js as [|j js IH]; [done|]. cbn [waiting List.filter]. fold (waiting js). unfold list_sum in *. destruct (is_complete j) eqn:Ec; cbn [negb foldr]; rewrite IH; [|done]. rewrite (Hf j Ec). lia.
Qed.
Lemma complete_left j : is_complete j = true -> zlen (j_encoded j) = 0 /\ zlen (j_work j) = 0.
Proof. unfold is_complete. rewrite !andb_true_iff, !bool_decide_eq_true. by intros ((((_ & ->) & ->) & _) & _). Qed.
Lemma elem_of_waiting j js : j ∈ waiting js <-> j ∈ js /\ is_complete j = false.
Proof. unfold waiting. by rewrite !list_elem_of_In, filter_In, negb_true_iff. Qed.
Lemma reap_finishes js r : reap js = Some r -> forall j, j ∈ js -> is_complete j = true -> exists e ws, Finished (j_id j) e ws ∈ r.2.
Proof.
  revert r. induction js as [|a js IH]; intros r Hr j Hj Hc; [by apply elem_of_nil in Hj|]. cbn in Hr.
  destruct (is_complete a) eqn:Ea.
  - apply bind_Some in Hr as (e & He & Hr). apply bind_Some in Hr as (r' & Hr' & [= <-]). cbn. apply elem_of_cons in Hj as [->|Hj].
    + unfold finish in He. destruct (_ && _) in He; [|done]. injection He as <-. eexists _, _. left.
    + destruct (IH r' Hr' j Hj Hc) as (e' & ws & ?). exists e', ws. by right.
  - apply bind_Some in Hr as (r' & Hr' & [= <-]). apply elem_of_cons in Hj as [->|Hj]; [congruence|]. by apply (IH r').
Qed.
Lemma reap_phase_ok q : queue_ok q -> exists r, reap (q_jobs q) = Some r /\ r.1 = waiting (q_jobs q) /\ queue_ok (reaped r q) /\ accounted (reaped r q) q /\ level (reaped r q) q /\ (length r.1 <= length (q_jobs q))%nat.
Proof.
  intros Hq. destruct (reap_ok (q_jobs q) [] _ _ _ _ _ Hq) as (es & Hr & Hok). exists (waiting (q_jobs q), es). split_and!; try done.
  - constructor; [intros e He; cbn; apply elem_of_app; by left|]. intros id (j & -> & Hj)%list_elem_of_fmap. cbn. destruct (is_complete j) eqn:Ec.
    + right. destruct (reap_finishes _ _ Hr j Hj Ec) as (e & ws & Hf). exists e, ws. cbn. apply elem_of_app. by right.
    + left. apply list_elem_of_fmap. exists j. split; [done|]. by apply elem_of_waiting.
  - right. unfold input_left, work_left. cbn [reaped record set_jobs q_jobs q_decoding fst snd]. rewrite !waiting_sum; [done|intros j Hj; by apply complete_left..].
  - cbn [fst]. unfold waiting. clear. induction (q_jobs q) as [|j js IH]; [done|]. cbn. destruct (is_complete j); cbn; lia.
Qed.

Lemma dispatch_all_ok t n i q : queue_ok q -> exists q', dispatch_all t n i q = Some q' /\ queue_ok q' /\ framed q' q /\ level q' q.
Proof.
  revert i q. induction n as [|n IH]; intros i q Hq; [exists q; split_and!; try done; apply level_refl|]. cbn.
  destruct (dispatch_ok t i q Hq) as (q1 & -> & Hok & Hf & Hl). cbn. destruct (IH (S i) q1 Hok) as (q' & -> & Hok' & Hf' & Hl'). exists q'. split_and!; try done.
  - destruct Hf as (? & ? & ? & ? & Hp & ?), Hf' as (? & ? & ? & ? & Hp' & ?). unfold framed. split_and!; try congruence. by rewrite Hp', Hp.
  - eapply level_trans; [apply Hl'|]. destruct Hl as [?|[-> _]]; [by left|apply level_refl].
Qed.

Lemma ok_empty q : queue_ok q -> q_jobs q = [] -> q_decoding q = None.
Proof.
  intros Hq Hj. destruct (q_decoding q) as [d|] eqn:Hd; [|done]. destruct (qo_decode _ _ _ _ _ _ Hq d Hd) as (_ & j & Hin & _). rewrite Hj in Hin. by apply elem_of_nil in Hin.
Qed.
Lemma fresh_slots_ok q : queue_ok q -> queue_ok (fresh_slots q) /\ (idle q -> idle (fresh_slots q)) /\ length (q_slots (fresh_slots q)) = Z.to_nat STAGING_SLOTS.
Proof.
  intros Hq. unfold fresh_slots. destruct (q_slots q) eqn:Es.
  - assert (forall o, Some o ∉ replicate (Z.to_nat STAGING_SLOTS) (@None BatchOwner)) as Hno by (intros o [? _]%elem_of_replicate; done).
    split_and!; [|done|done]. apply (ok_idle_slots _ (q_slots q)); [done|rewrite Es; by intros o ?%elem_of_nil|done|]. right. apply length_replicate.
  - split_and!; [done|done|]. pose proof (qo_slots _ _ _ _ _ _ Hq) as [Hz|?]; [|done]. by rewrite Es in Hz.
Qed.
Lemma dispatch_first t q j : queue_ok q -> idle q -> q_reset q = false -> (0 < length (q_slots q))%nat -> j ∈ q_jobs q -> eligible q j = true ->
  exists q', dispatch_all t (length (q_slots q)) 0 q = Some q' /\ below q' q.
Proof.
  intros Hq Hi Hr Hlen Hj Hel. destruct (length (q_slots q)) as [|n] eqn:El; [lia|]. cbn [dispatch_all]. destruct (dispatch_ok t 0 q Hq) as (q1 & -> & Hok & _ & Hb). cbn [mbind option_bind].
  destruct (dispatch_all_ok t n 1 q1 Hok) as (q' & -> & _ & _ & Hl). exists q'. split; [done|]. eapply level_below; [done|]. destruct Hb as [?|[_ [Hc|[Hc|Hc]]]]; [done|congruence| |].
  - destruct (q_slots q !! 0%nat) as [[o|]|] eqn:E; [by destruct (Hi o); eapply list_elem_of_lookup_2|done|]. apply lookup_ge_None in E. lia.
  - rewrite (select_None q j Hc) in Hel; [done| |done]. unfold write_in_flight. apply Bool.not_true_iff_false. intros (s & Hs%list_elem_of_In & Ho)%existsb_exists. destruct s as [o|]; [by destruct (Hi o)|done].
Qed.

Record serves (t : Turn) (q' q : Queue) : Prop := {
  sv_account : accounted q' q;
  sv_level : level q' q;
  sv_jobs : length (q_jobs q') = length (q_jobs q);
  sv_stopped : q_stopped q = false -> q_stopped q' = true -> q_jobs q' = [];
  sv_below : idle q -> q_reset q = false -> (exists j, j ∈ q_jobs q /\ eligible q j = true) -> below q' q }.

Lemma dispatch_all_serves t q : queue_ok q -> (0 < length (q_slots (fresh_slots q)))%nat -> exists q', dispatch_all t (length (q_slots (fresh_slots q))) 0 (fresh_slots q) = Some q' /\ queue_ok q' /\ serves t q' q.
Proof.
  intros Hq Hlen. destruct (fresh_slots_ok q Hq) as (Hok & Hi & _).
  assert (q_jobs (fresh_slots q) = q_jobs q /\ q_decoding (fresh_slots q) = q_decoding q /\ q_log (fresh_slots q) = q_log q /\ q_reset (fresh_slots q) = q_reset q /\ q_stopped (fresh_slots q) = q_stopped q) as (F1 & F2 & F3 & F4 & F5)
    by (unfold fresh_slots; by destruct (q_slots q)).
  assert (forall q', below q' (fresh_slots q) -> below q' q) as Hb by (intros q'; unfold below; by rewrite F1, F2).
  destruct (dispatch_all_ok t (length (q_slots (fresh_slots q))) 0 _ Hok) as (q' & He & Hok' & (_ & _ & G3 & G4 & G5 & _) & Hl). exists q'. split_and!; [done|done|]. rewrite F1 in G5. constructor.
  - apply accounted_perm; [by rewrite G4, F3|done].
  - unfold level, below in *. by rewrite F1, F2 in Hl.
  - pose proof (Permutation_length G5) as Hp. by rewrite !length_fmap in Hp.
  - intros Hs Hs'. congruence.
  - intros Hidle Hr (j & Hj & Hel). destruct (dispatch_first t (fresh_slots q) j Hok (Hi Hidle)) as (q'' & He' & Hbelow); [congruence|done|by rewrite F1|unfold eligible in *; by rewrite F2|].
    rewrite He in He'. injection He' as <-. auto.
Qed.

Lemma failed_sum (f : Job -> Z) e js : (forall j, f (fail e j) = 0) -> list_sum f (fail e <$> js) = 0.
Proof. intros Hf. rewrite list_sum_fmap. induction js as [|j js IH]; [done|]. unfold list_sum in *. cbn [foldr]. rewrite IH, Hf. done. Qed.
Lemma elem_sum (f : Job -> Z) js j : (forall x, 0 <= f x) -> j ∈ js -> f j <= list_sum f js.
Proof.
  intros Hf Hj. induction js as [|a js IH]; [by apply elem_of_nil in Hj|]. unfold list_sum in *. cbn [foldr]. specialize (Hf a) as Ha.
  assert (0 <= list_sum f js) as Hn by (apply list_sum_nonneg; auto). unfold list_sum in Hn. apply elem_of_cons in Hj as [->|Hj]; [lia|]. specialize (IH Hj). lia.
Qed.
Lemma failed_below e q j : j ∈ q_jobs q -> eligible q j = true -> below (set_jobs (fail e <$> q_jobs q) q) q.
Proof.
  intros Hj Hel. unfold below, input_left, work_left. cbn [set_jobs q_jobs q_decoding]. rewrite !failed_sum by done.
  pose proof (elem_sum (fun j => zlen (j_encoded j)) _ _ (fun x => zlen_nonneg (j_encoded x)) Hj) as H1. pose proof (elem_sum (fun j => zlen (j_work j)) _ _ (fun x => zlen_nonneg (j_work x)) Hj) as H2.
  cbn beta in *. pose proof (zlen_nonneg (j_encoded j)). pose proof (zlen_nonneg (j_work j)).
  assert (zlen (j_encoded j) + zlen (j_work j) > 0); [|lia]. destruct (eligible_left q j Hel) as [Hw|[He _]]; [destruct (j_work j)|destruct (j_encoded j)]; try done; unfold zlen in *; cbn [length] in *; lia.
Qed.

Lemma serve_ok t q : queue_ok q -> exists q', serve t q = Some q' /\ queue_ok q' /\ serves t q' q.
Proof.
  intros Hq. unfold serve. destruct (q_jobs q) as [|j0 js0] eqn:Ej.
  - eexists. split; [done|]. assert (serves t q q) as Hself.
    { constructor; try done; [by apply accounted_perm|apply level_refl|]. intros _ _ (j & Hj & _). rewrite Ej in Hj. by apply elem_of_nil in Hj. }
    destruct (q_closed q); [|done]. pose proof (ok_empty q Hq Ej) as Hd. split.
    + unfold queue_ok in *. rewrite Ej in Hq. destruct Hq as [H1 H2 H3 H4 H5 H6 H7 H8 H9]. constructor; cbn; try done; [by intros o ?%elem_of_nil|by intros o ?%elem_of_nil|by rewrite Hd|by left].
    + destruct Hself as [S1 S2 S3 S4 S5]. constructor; cbn; try done; [|by right; rewrite Ej|by rewrite Ej|].
      * apply accounted_perm; [done|]. cbn. by rewrite Ej.
      * intros _ _ (j & Hj & _). rewrite Ej in Hj. by apply elem_of_nil in Hj.
  - destruct (fresh_slots_ok q Hq) as (_ & _ & Hlen). pose proof (dispatch_all_serves t q Hq ltac:(rewrite Hlen; unfold STAGING_SLOTS; lia)) as Hgo.
    destruct (q_slots q) eqn:Es; [|done]. destruct (t_slots t); [done|]. rewrite <- Ej. eexists. split; [done|].
    assert (Forall2 shrinks (q_jobs q) (fail SlotsFailed <$> q_jobs q)) as Hsh by (apply Forall2_fmap_r, Forall_Forall2_diag, Forall_forall; intros j _; apply shrinks_fail).
    split; [apply (ok_shrinks (q_jobs q) _ _ _ _ _ _ Hsh Hq)|]. constructor.
    + apply accounted_perm; [done|]. cbn [set_jobs q_jobs]. by rewrite (shrinks_ids _ _ Hsh).
    + by apply shrinks_level.
    + cbn. apply length_fmap.
    + cbn. congruence.
    + intros _ _ (j & Hj & Hel). by apply (failed_below _ q j).
Qed.

(** ** Turns *)

Lemma polled_ok t q : queue_ok q -> queue_ok (polled_jobs t q) /\ accounted (polled_jobs t q) q.
Proof.
  intros Hq. split; [apply (ok_shrinks _ _ _ _ _ _ _ (polled_shrinks t q) Hq)|]. apply accounted_perm; [done|]. by rewrite (shrinks_ids _ _ (polled_shrinks t q)).
Qed.
Lemma reset_accounted q : queue_ok q -> accounted (reset_slots q) q.
Proof. intros Hq. destruct (reset_slots_ok q Hq) as (_ & Hj & _ & Hl & _). apply accounted_perm; [by rewrite Hl|by rewrite Hj]. Qed.

Lemma turn_ok t q : queue_ok q -> (q_stopped q = true -> q_jobs q = []) -> good_turn t ->
  exists q', turn t q = Some q' /\ queue_ok q' /\ (q_stopped q' = true -> q_jobs q' = []) /\ accounted q' q.
Proof.
  intros Hq Hst Hg. unfold turn. destruct (q_stopped q) eqn:Es; [exists q; split_and!; try done; [auto|by apply accounted_perm]|].
  pose proof (admission_ok ADMISSIONS (t_inbox t) q Hq Hg) as Hok0. destruct (admission_frame ADMISSIONS (t_inbox t) q) as (Hac0 & Hs0 & _). rewrite Es in Hs0.
  revert Hok0 Hac0 Hs0. generalize (admission ADMISSIONS (t_inbox t) q) as q0. intros q0 Hok0 Hac0 Hs0. destruct (polled_ok t q0 Hok0) as [Hok1 Hac1].
  assert (q_stopped (polled_jobs t q0) = false) as Hs1 by done. revert Hok1 Hac1 Hs1. generalize (polled_jobs t q0) as q1. intros q1 Hok1 Hac1 Hs1.
  destruct (poll_slots_ok t (length (q_slots q1)) 0 q1 Hok1) as (q2 & He2 & Hok2 & [_ Hac2 (_ & Hs2 & _) _ _ _ _]). cbv zeta. rewrite He2. cbn [mbind option_bind].
  destruct (decode_phase_ok t q2 Hok2) as (q3 & -> & Hok3 & [Hac3 (_ & Hs3 & _) _ _]). cbn [mbind option_bind].
  destruct (reset_slots_ok q3 Hok3) as (Hok4 & _ & _ & _ & _ & Hs4 & _). pose proof (reset_accounted q3 Hok3) as Hac4.
  destruct (reap_phase_ok _ Hok4) as (r & -> & _ & Hok5 & Hac5 & _). cbn [mbind option_bind].
  destruct (serve_ok t _ Hok5) as (q' & -> & Hok' & [Hac' _ _ Hs' _]). exists q'. split_and!; [done|done| |].
  - intros Hst'. apply Hs'; [|done]. change (q_stopped (reset_slots q3) = false). congruence.
  - do 6 (eapply accounted_trans; [eassumption|]). done.
Qed.

(** Nothing is admitted, and devices, host copies and decoder answer. *)
Record responsive (t : Turn) (q : Queue) : Prop := {
  rs_good : good_turn t;
  rs_inbox : q_closed q = true \/ t_inbox t = [];
  rs_poll : forall i, t_poll t i <> None;
  rs_host : forall id, t_host t id <> HostPending;
  rs_reply : replies (d_phase <$> q_decoding q) (t_reply t) }.

(** A job that waits although nothing is in flight can be served. *)
Lemma waiting_eligible q j : queue_ok q -> idle q -> Forall (fun j => j_host j = false) (q_jobs q) -> j ∈ q_jobs q -> is_complete j = false ->
  q_decoding q <> None \/ eligible q j = true.
Proof.
  intros Hq Hi Hh Hj Hc. destruct (q_decoding q) as [d|] eqn:Hd; [by left|right]. pose proof (proj1 (Forall_forall _ _) (qo_jobs _ _ _ _ _ _ Hq) j Hj) as Hjok.
  pose proof (proj1 (Forall_forall _ _) Hh j Hj) as Hhost. cbn in Hhost.
  assert (j_inflight j = 0) as Hz by (rewrite (jo_inflight _ _ _ _ Hjok); by apply idle_count).
  assert (j_decoding j = false) as Hdj by (destruct (j_decoding j) eqn:E; [|done]; destruct (jo_decoding _ _ _ _ Hjok E) as (? & ? & _); congruence).
  unfold is_complete in Hc. rewrite Hz, Hdj, Hhost in Hc. cbn in Hc. rewrite !andb_true_r in Hc. unfold eligible. rewrite Hd, (bool_decide_false (is_Some None)) by (by intros [? ?]). rewrite orb_false_r. by rewrite Hc.
Qed.

Lemma turn_progress t q : queue_ok q -> q_stopped q = false -> q_jobs q <> [] -> responsive t q ->
  exists q', turn t q = Some q' /\ (below q' q \/ level q' q /\ (length (q_jobs q') < length (q_jobs q))%nat).
Proof.
  intros Hq Es Hne [_ R1 R2 R3 R4]. unfold turn. rewrite Es, (proj2 (proj2 (admission_frame ADMISSIONS (t_inbox t) q)) R1). cbv zeta.
  assert (queue_ok (polled_jobs t q)) as Hok1 by (apply (ok_shrinks _ _ _ _ _ _ _ (polled_shrinks t q) Hq)).
  pose proof (shrinks_level q _ (polled_shrinks t q)) as Hl1. change (set_jobs (q_jobs (polled_jobs t q)) q) with (polled_jobs t q) in Hl1. pose proof (polled_hosts t q R3) as Hh1.
  assert (length (q_jobs (polled_jobs t q)) = length (q_jobs q)) as Hn1 by (cbn; apply length_fmap). set (q1 := polled_jobs t q) in *.
  destruct (poll_slots_ok t (length (q_slots q1)) 0 q1 Hok1) as (q2 & -> & Hok2 & [Hl2 _ (_ & _ & _ & Hn2 & Hsl) Hph2 Hh2 _ Hidle]). cbn [mbind option_bind]. specialize (Hh2 Hh1).
  assert (idle q2) as Hi2.
  { intros o Ho. apply list_elem_of_lookup in Ho as [k Hk]. apply (Hidle R2 k o); [|done]. pose proof (lookup_lt_Some _ _ _ Hk). lia. }
  destruct (decode_phase_ok t q2 Hok2) as (q3 & -> & Hok3 & [_ (_ & _ & Hss3 & _ & Hn3) Hh3 Hdec]). cbn [mbind option_bind]. specialize (Hh3 Hh2).
  specialize (Hdec Hi2 ltac:(by rewrite Hph2)). assert (idle q3) as Hi3 by (unfold idle; by rewrite Hss3).
  destruct (reset_slots_ok q3 Hok3) as (Hok4 & Hj4 & Hd4 & _ & _ & _ & _ & Hi4). destruct (Hi4 Hi3) as [Hidle4 Hr4].
  destruct (reap_phase_ok _ Hok4) as (r & -> & Hr1 & Hok5 & _ & Hl5 & Hn5). cbn [mbind option_bind].
  destruct (serve_ok t _ Hok5) as (q' & -> & Hok' & [_ Hl' Hn' _ Hb']). exists q'. split; [done|].
  change (idle (reaped r (reset_slots q3))) with (idle (reset_slots q3)) in Hb'. change (q_reset (reaped r (reset_slots q3))) with (q_reset (reset_slots q3)) in Hb'. specialize (Hb' Hidle4 Hr4).
  assert (forall a, level a q3 -> level (reset_slots q3) q3 /\ level a (reset_slots q3)) as Hr34 by (intros a; unfold level, below; rewrite Hj4, Hd4; auto).
  destruct (Hr34 q3 (level_refl _)) as [Hl4 _]. assert (level q2 q) as Hl2' by (by eapply level_trans).
  assert (level q' q3) as Hl'3 by (eapply level_trans; [done|]; eapply level_trans; done).
  destruct Hdec as [Hb|[Hl3 Hw3]].
  { left. eapply level_below; [done|]. by eapply below_level. }
  assert (level q3 q) as Hl3q by (by eapply level_trans).
  destruct r.1 as [|j js] eqn:Er.
  { right. split; [by eapply level_trans|]. rewrite Hn'. cbn [reaped record set_jobs q_jobs]. rewrite Er. destruct (q_jobs q); [done|]. cbn. lia. }
  left. eapply below_level; [apply Hb'|]; [|eapply level_trans; [done|]; by eapply level_trans].
  assert (forall x, x ∈ q_jobs (reset_slots q3) -> is_complete x = false -> eligible (reset_slots q3) x = true ->
    exists j, j ∈ q_jobs (reaped r (reset_slots q3)) /\ eligible (reaped r (reset_slots q3)) j = true) as Hex.
  { intros x Hx Hc Hel. exists x. split; [|done]. cbn [reaped record set_jobs q_jobs]. rewrite Er, Hr1. by apply elem_of_waiting. }
  assert (j ∈ waiting (q_jobs (reset_slots q3))) as [Hj Hc]%elem_of_waiting by (rewrite <- Hr1; left).
  destruct (waiting_eligible (reset_slots q3) j Hok4 Hidle4 ltac:(by rewrite Hj4) Hj Hc) as [Hd|Hel]; [|by apply (Hex j)].
  rewrite Hd4 in Hd. destruct (Hw3 Hd) as (x & Hx & Hw). apply (Hex x); [by rewrite Hj4| |].
  - unfold is_complete. rewrite (bool_decide_false (j_work x = [])) by done. by rewrite andb_false_r.
  - unfold eligible. by rewrite (bool_decide_false (j_work x = [])) by done.
Qed.

(** ** Runs *)

Lemma run_ok ts q : queue_ok q -> (q_stopped q = true -> q_jobs q = []) -> Forall good_turn ts ->
  exists q', run ts q = Some q' /\ queue_ok q' /\ (q_stopped q' = true -> q_jobs q' = []) /\ accounted q' q.
Proof.
  revert q. induction ts as [|t ts IH]; intros q Hq Hs Hg; [exists q; split_and!; try done; by apply accounted_perm|]. apply Forall_cons in Hg as [Hg Hgs]. cbn [run].
  destruct (turn_ok t q Hq Hs Hg) as (q1 & -> & Hq1 & Hs1 & Ha1). cbn [mbind option_bind]. destruct (IH q1 Hq1 Hs1 Hgs) as (q' & -> & ? & ? & ?). exists q'. split_and!; try done. by eapply accounted_trans.
Qed.
Lemma queue_new_ok : queue_ok queue_new.
Proof.
  constructor; try done; try (by intros ? ?%elem_of_nil); try apply NoDup_nil_2; try apply Forall_nil_2; [by left|].
  constructor; try apply NoDup_nil_2; [by intros ? ? ?%elem_of_nil|by intros ? ? ? ?%elem_of_nil].
Qed.

(** C9. Whatever tasks arrive and however the slots, the host copies and the decoder answer, the storage queue never panics:
    no job or lease that it expects is missing and no counter underflows.  At most one write is in flight.  An extent is published at
    most once, and a job finishes at most once; it is then gone, its published extents are exactly those that gave up their
    lease, and if it finished without error they are all its extents. *)
Theorem ssd_queue_safe ts : Forall good_turn ts ->
  exists q, run ts queue_new = Some q /\ queue_ok q /\ count (owned is_writing) (q_slots q) <= 1 /\
    NoDup (omap commit_of (q_log q)) /\ NoDup (omap finish_of (q_log q)) /\
    forall id e ws, Finished id e ws ∈ q_log q ->
      (id ∉ j_id <$> q_jobs q) /\ (forall k, Committed id k ∈ q_log q <-> exists w, ws !! k = Some w /\ wr_lease w = false) /\
      (e = None -> Forall (fun w => wr_lease w = false) ws).
Proof.
  intros Hg. destruct (run_ok ts queue_new queue_new_ok ltac:(done) Hg) as (q & Hrun & Hq & _). pose proof (qo_log _ _ _ _ _ _ Hq) as [L1 L2 _ L4].
  exists q. split_and!; try done; [apply (qo_one _ _ _ _ _ _ Hq)|]. intros id e ws Hf. by destruct (L4 id e ws Hf) as (_ & ? & ? & ?).
Qed.

Lemma left_nonneg q : 0 <= input_left (q_jobs q) (q_decoding q) /\ 0 <= work_left (q_jobs q).
Proof.
  unfold input_left, work_left. split; [|apply list_sum_nonneg; intros; apply zlen_nonneg].
  assert (0 <= list_sum (fun j => zlen (j_encoded j)) (q_jobs q)) by (apply list_sum_nonneg; intros; apply zlen_nonneg).
  assert (0 <= rank (q_decoding q)); [|lia]. unfold rank. destruct (q_decoding q) as [d|]; [destruct (d_phase d)|]; lia.
Qed.
Lemma run_seq w n q : run (w <$> seq 0 (S n)) q = (q' ← turn (w 0%nat) q; run ((fun i => w (S i)) <$> seq 0 n) q').
Proof. change (seq 0 (S n)) with (0%nat :: seq 1 n). rewrite fmap_cons, <- seq_shift. cbn [run]. destruct (turn (w 0%nat) q); [|done]. cbn. by rewrite <- list_fmap_compose. Qed.

Lemma drains_from a b c : forall q w, queue_ok q -> (q_stopped q = true -> q_jobs q = []) -> (forall n q', run (w <$> seq 0 n) q = Some q' -> responsive (w n) q') ->
  input_left (q_jobs q) (q_decoding q) = Z.of_nat a -> work_left (q_jobs q) = Z.of_nat b -> length (q_jobs q) = c ->
  exists n q', run (w <$> seq 0 n) q = Some q' /\ q_jobs q' = [] /\ accounted q' q.
Proof.
  revert b c. induction a as [a IHa] using lt_wf_ind. intros b. induction b as [b IHb] using lt_wf_ind. intros c. induction c as [c IHc] using lt_wf_ind.
  intros q w Hq Hs Hresp Ha Hb Hc. destruct (decide (q_jobs q = [])) as [Hj|Hj]; [exists 0%nat, q; split_and!; try done; by apply accounted_perm|].
  assert (q_stopped q = false) as Hs0 by (destruct (q_stopped q); [by destruct Hj; auto|done]). pose proof (Hresp 0%nat q eq_refl) as Hr.
  destruct (turn_progress (w 0%nat) q Hq Hs0 Hj Hr) as (q1 & Ht & Hp). destruct (turn_ok (w 0%nat) q Hq Hs (rs_good _ _ Hr)) as (q1' & Ht' & Hq1 & Hs1 & Hac). rewrite Ht in Ht'. injection Ht' as <-.
  assert (forall n q', run ((fun i => w (S i)) <$> seq 0 n) q1 = Some q' -> responsive (w (S n)) q') as Hresp' by (intros n q' Hrun; apply Hresp; by rewrite run_seq, Ht).
  destruct (left_nonneg q1) as [Hn1 Hn2].
  enough (exists n q', run ((fun i => w (S i)) <$> seq 0 n) q1 = Some q' /\ q_jobs q' = [] /\ accounted q' q1) as (n & q' & Hrun & He & Hac').
  { exists (S n), q'. rewrite run_seq, Ht. split_and!; [done|done|by eapply accounted_trans]. }
  set (a1 := Z.to_nat (input_left (q_jobs q1) (q_decoding q1))). set (b1 := Z.to_nat (work_left (q_jobs q1))).
  destruct Hp as [[Hlt|[He Hlt]]|[[[Hlt|[He Hlt]]|[He1 He2]] Hc1]].
  - apply (IHa a1 ltac:(lia) b1 (length (q_jobs q1)) q1 (fun i => w (S i))); try done; lia.
  - apply (IHb b1 ltac:(lia) (length (q_jobs q1)) q1 (fun i => w (S i))); try done; lia.
  - apply (IHa a1 ltac:(lia) b1 (length (q_jobs q1)) q1 (fun i => w (S i))); try done; lia.
  - apply (IHb b1 ltac:(lia) (length (q_jobs q1)) q1 (fun i => w (S i))); try done; lia.
  - apply (IHc (length (q_jobs q1)) ltac:(lia) q1 (fun i => w (S i))); try done; lia.
Qed.

(** C10. The queue drains.  From any state the loop can reach, if no more tasks are admitted and in every turn the busy slots
    complete (with success or failure), host copies end and the decoder answers what it was asked or disconnects, then after
    finitely many turns no job is left and every job that was waiting has been answered: whatever fails on the way, a job is
    neither lost nor starved by the others. *)
Theorem ssd_queue_drains ts q0 w : Forall good_turn ts -> run ts queue_new = Some q0 ->
  (forall n q, run (w <$> seq 0 n) q0 = Some q -> responsive (w n) q) ->
  exists n q, run (w <$> seq 0 n) q0 = Some q /\ q_jobs q = [] /\ forall j, j ∈ q_jobs q0 -> exists e ws, Finished (j_id j) e ws ∈ q_log q.
Proof.
  intros Hg Hrun Hresp. destruct (run_ok ts queue_new queue_new_ok ltac:(done) Hg) as (q0' & Hrun' & Hq & Hs & _). rewrite Hrun in Hrun'. injection Hrun' as <-. destruct (left_nonneg q0) as [Hn1 Hn2].
  destruct (drains_from (Z.to_nat (input_left (q_jobs q0) (q_decoding q0))) (Z.to_nat (work_left (q_jobs q0))) (length (q_jobs q0)) q0 w) as (n & q & Hq' & He & [_ Hac]); try done; try lia.
  exists n, q. split_and!; [done|done|]. intros j Hj. destruct (Hac (j_id j)) as [Hin|?]; [apply list_elem_of_fmap; by exists j| |done]. rewrite He in Hin. by apply elem_of_nil in Hin.
Qed.

(** ** A save and a restore *)

Definition answering (inbox : list (option Command)) : Turn :=
  mkTurn inbox (fun _ => HostDone) (fun _ => false) (fun _ => Some (Ok tt)) Disconnected true (fun _ => Submitted false) true true (fun _ => true).
Definition one_save : Command := Save [(0, [mkBatch 0 4096 []]); (0, [mkBatch 4096 4096 []])].

Lemma answering_good inbox : Forall (fun c => c = Some one_save) inbox -> good_turn (answering inbox).
Proof. intros Hi. eapply Forall_impl; [exact Hi|]. intros c -> x [= <-]. repeat constructor; discriminate. Qed.
Lemma answering_responsive q : responsive (answering []) q.
Proof.
  constructor; [by apply answering_good|by right|done|done|]. destruct (q_decoding q) as [d|]; [|done]. cbn. by destruct (d_phase d).
Qed.
Lemma ssd_queue_safe_witness :
  exists q, run [answering [Some one_save]; answering []; answering []; answering []] queue_new = Some q /\
    q_log q = [Committed 0 0; Committed 0 1; Finished 0 None [mkWrite false 0; mkWrite false 0]] /\ NoDup (omap commit_of (q_log q)).
Proof.
  destruct (ssd_queue_safe [answering [Some one_save]; answering []; answering []; answering []]) as (q & Hrun & _ & _ & Hnd & _).
  { constructor; [apply answering_good; by constructor|]. repeat constructor. }
  exists q. split; [done|]. split; [|done].
  assert (q_log <$> run [answering [Some one_save]; answering []; answering []; answering []] queue_new =
    Some [Committed 0 0; Committed 0 1; Finished 0 None [mkWrite false 0; mkWrite false 0]]) as Hlog by (vm_compute; reflexivity).
  rewrite Hrun in Hlog. by injection Hlog.
Defined.
Lemma ssd_queue_drains_witness : exists q0, run [answering [Some one_save]] queue_new = Some q0 /\ length (q_jobs q0) = 1%nat /\
  exists n q, run ((fun _ => answering []) <$> seq 0 n) q0 = Some q /\ q_jobs q = [].
Proof.
  destruct (run [answering [Some one_save]] queue_new) as [q0|] eqn:E; [|exfalso; apply (f_equal (fun o => bool_decide (o = None))) in E; vm_compute in E; discriminate E].
  exists q0. split; [done|]. split.
  - apply (f_equal (fun o => (fun q => length (q_jobs q)) <$> o)) in E. vm_compute in E. by injection E.
  - destruct (ssd_queue_drains [answering [Some one_save]] q0 (fun _ => answering [])) as (n & q & Hrun & Hj & _); [constructor; [apply answering_good; by constructor|constructor]|done|intros; apply answering_responsive|].
    by exists n, q.
Defined.
