(* ===== verification/Exports.v ===== *)
(** * Peer exports

    orbitkv-core/src/peer/export.rs: the source side of a read by another node.  A requester opens a window of
    slots; a ticket names a slot and a generation, and admits one transfer: its bytes are reserved, the
    blocks are staged and committed, and they stay pinned until the requester reports the end.  The
    reservation and the prepared grant are owned handles whose [Drop] rolls back; [None] stands for a panic. *)
From S2P Require Import Prelude Containers Vecs State Membership Blocks.

Local Open Scope Z_scope.
Local Open Scope rust_scope.

Definition TRANSFER_WINDOW_SLOTS : Z := 64.
Definition MAX_TRANSFER_SESSIONS : Z := 1024.
Definition MAX_TRANSFER_WINDOWS : Z := 1024.

Inductive PeerError := Unavailable | StagingFailed | StaleReplica | InvalidRequest (reason : string) | UnknownWindow | StaleTicket | BudgetExhausted.

Record TransferTicket := mkTicket { tk_window : Z; tk_slot : nat; tk_generation : Z }.
#[export] Instance TransferTicket_eq_dec : EqDecision TransferTicket.
Proof. solve_decision. Defined.
Definition ticket_new (window : Z) (slot : nat) (generation : Z) : result TransferTicket PeerError :=
  if (window =? 0) || (Z.to_nat TRANSFER_WINDOW_SLOTS <=? slot)%nat || (generation =? 0) then Err (InvalidRequest "invalid transfer ticket"%string)
  else Ok (mkTicket window slot generation).

(** ** Sessions *)

Definition Pinned : Type := list (StateKey * SealedBlock).
Inductive TransferState := Staging (released : bool) | Ready (blocks : Pinned).
Record TransferSession := mkSession { s_state : TransferState; s_block_count : Z; s_created_at : Z; s_reserved_bytes : Z; s_expired : bool }.
Record TransferSlot := mkSlot { sl_generation : Z; sl_transfer : option TransferSession }.
Record TransferWindow := mkWindow { w_requester : Z; w_slots : list TransferSlot }.
(** The windows in the order of the linked map, the least recently used one first. *)
Record Transfers := mkTransfers { windows : list (Z * TransferWindow); active : Z; reserved_bytes : Z }.

Definition empty_slot : TransferSlot := mkSlot 0 None.
Definition transfers_new : Transfers := mkTransfers [] 0 0.
Definition with_windows (ws : list (Z * TransferWindow)) (t : Transfers) : Transfers := mkTransfers ws (active t) (reserved_bytes t).

(** The linked map. *)
Definition get_window (id : Z) (ws : list (Z * TransferWindow)) : option TransferWindow := snd <$> List.find (fun p => p.1 =? id) ws.
Definition remove_window (id : Z) (ws : list (Z * TransferWindow)) : list (Z * TransferWindow) := List.filter (fun p => negb (p.1 =? id)) ws.
Definition insert_window (id : Z) (w : TransferWindow) (ws : list (Z * TransferWindow)) : list (Z * TransferWindow) := remove_window id ws ++ [(id, w)].
Definition to_back (id : Z) (ws : list (Z * TransferWindow)) : list (Z * TransferWindow) :=
  match get_window id ws with Some w => insert_window id w ws | None => ws end.
Definition put_slot (id : Z) (i : nat) (s : TransferSlot) (ws : list (Z * TransferWindow)) : list (Z * TransferWindow) :=
  (fun p => if p.1 =? id then (p.1, mkWindow (w_requester p.2) (<[i := s]> (w_slots p.2))) else p) <$> ws.

(** [allocation_bytes]: the size of the distinct allocations behind the blocks; [arc_ptr] is the address of an allocation's [Arc]. *)
Section Bytes.
Context (arc_ptr : PinnedAllocation -> Z).
Definition pinned_allocations (b : SealedBlock) : list (Z * Z) :=
  sb_slots b ≫= (fun s => (fun g => (arc_ptr (seg_allocation g), alloc_size (seg_allocation g))) <$> as_slice (segments s)).
Definition try_total (sizes : list Z) : option Z := foldl (fun sum size => s ← sum; checked_add s size) (Some 0) sizes.
Definition allocation_bytes (blocks : Pinned) : result Z PeerError :=
  let allocations : gmap Z Z := list_to_map (reverse (blocks ≫= (fun p => pinned_allocations p.2))) in
  ok_or (try_total (map_to_list allocations).*2) BudgetExhausted.
End Bytes.

(** ** The lock manager *)

(** [TransferLockManager::open]; [id] is the fresh UUID.  A full table gives up its oldest window without a transfer. *)
Definition idle_window (w : TransferWindow) : bool := forallb (fun s => negb (bool_decide (is_Some (sl_transfer s)))) (w_slots w).
Definition fresh_window (requester : Z) : TransferWindow := mkWindow requester (replicate (Z.to_nat TRANSFER_WINDOW_SLOTS) empty_slot).
Definition open (requester id : Z) (t : Transfers) : Transfers * option Z :=
  let add ws := (with_windows (insert_window id (fresh_window requester) ws) t, Some id) in
  if zlen (windows t) =? MAX_TRANSFER_WINDOWS
  then match List.find (fun p => idle_window p.2) (windows t) with
       | Some p => add (remove_window p.1 (windows t))
       | None => (t, None)
       end
  else add (windows t).

(** [reserve]: the generation is consumed even when admission fails. *)
Definition reserve (budget now : Z) (k : TransferTicket) (bytes block_count : Z) (t : Transfers) : option (Transfers * result unit PeerError) :=
  match get_window (tk_window k) (windows t) with
  | None => Some (t, Err UnknownWindow)
  | Some w =>
      let t := with_windows (to_back (tk_window k) (windows t)) t in
      match w_slots w !! tk_slot k with
      | None => Some (t, Err StaleTicket)
      | Some s =>
          if (block_count =? 0) || (tk_generation k <=? sl_generation s) || bool_decide (is_Some (sl_transfer s)) then Some (t, Err StaleTicket)
          else
            let put x := put_slot (tk_window k) (tk_slot k) (mkSlot (tk_generation k) x) (windows t) in
            if (MAX_TRANSFER_SESSIONS <=? active t) || (saturating_sub budget (reserved_bytes t) <? bytes) then Some (with_windows (put None) t, Err BudgetExhausted)
            else
              a ← checked_add (active t) 1; r ← checked_add (reserved_bytes t) bytes;
              Some (mkTransfers (put (Some (mkSession (Staging false) block_count now bytes false))) a r, Ok tt)
      end
  end.

Definition commit_staging (budget : Z) (k : TransferTicket) (blocks : Pinned) (actual_bytes : Z) (t : Transfers) : option (Transfers * result unit PeerError) :=
  match get_window (tk_window k) (windows t) with
  | None => Some (t, Err UnknownWindow)
  | Some w =>
      let t := with_windows (to_back (tk_window k) (windows t)) t in
      match w_slots w !! tk_slot k with
      | None => Some (t, Err StaleTicket)
      | Some s =>
          if negb (sl_generation s =? tk_generation k) then Some (t, Err StaleTicket)
          else match sl_transfer s with
               | None => Some (t, Err StaleTicket)
               | Some x =>
                   if negb (s_block_count x =? zlen blocks) || match s_state x with Staging false => false | _ => true end then Some (t, Err StaleTicket)
                   else
                     other ← checked_sub (reserved_bytes t) (s_reserved_bytes x);
                     if saturating_sub budget other <? actual_bytes then Some (t, Err BudgetExhausted)
                     else
                       r ← checked_add other actual_bytes;
                       let x := mkSession (Ready blocks) (s_block_count x) (s_created_at x) actual_bytes (s_expired x) in
                       Some (mkTransfers (put_slot (tk_window k) (tk_slot k) (mkSlot (sl_generation s) (Some x)) (windows t)) (active t) r, Ok tt)
               end
      end
  end.

(** A session leaves its slot and the accounts. *)
Definition release_accounting (k : TransferTicket) (generation : Z) (x : TransferSession) (t : Transfers) : option Transfers :=
  a ← checked_sub (active t) 1; r ← checked_sub (reserved_bytes t) (s_reserved_bytes x);
  Some (mkTransfers (put_slot (tk_window k) (tk_slot k) (mkSlot generation None) (windows t)) a r).

Definition is_ready (x : TransferSession) : bool := match s_state x with Ready _ => true | Staging _ => false end.
Definition rollback (k : TransferTicket) (ready : bool) (t : Transfers) : option Transfers :=
  match get_window (tk_window k) (windows t) with
  | None => Some t
  | Some w =>
      match w_slots w !! tk_slot k with
      | None => Some t
      | Some s =>
          match sl_transfer s with
          | Some x => if (sl_generation s =? tk_generation k) && Bool.eqb (is_ready x) ready then release_accounting k (sl_generation s) x t else Some t
          | None => Some t
          end
      end
  end.

(** Completion is idempotent, and closes a generation that has not been admitted yet. *)
Definition release (k : TransferTicket) (t : Transfers) : option (Transfers * result Z PeerError) :=
  match get_window (tk_window k) (windows t) with
  | None => Some (t, Ok 0)
  | Some w =>
      let t := with_windows (to_back (tk_window k) (windows t)) t in
      match w_slots w !! tk_slot k with
      | None => Some (t, Err StaleTicket)
      | Some s =>
          if tk_generation k =? 0 then Some (t, Err StaleTicket)
          else if tk_generation k <? sl_generation s then Some (t, Ok 0)
          else if (sl_generation s <? tk_generation k) && bool_decide (is_Some (sl_transfer s)) then Some (t, Err StaleTicket)
          else
            let put x := put_slot (tk_window k) (tk_slot k) (mkSlot (tk_generation k) x) (windows t) in
            match sl_transfer s with
            | None => Some (with_windows (put None) t, Ok 0)
            | Some x =>
                match s_state x with
                | Staging _ => Some (with_windows (put (Some (mkSession (Staging true) (s_block_count x) (s_created_at x) (s_reserved_bytes x) (s_expired x)))) t, Ok 0)
                | Ready blocks => t ← release_accounting k (tk_generation k) x t; Some (t, Ok (zlen blocks))
                end
            end
      end
  end.

(** [expire] only marks: memory is reused after a terminal completion and not before. *)
Definition overdue (timeout now : Z) (x : TransferSession) : bool := negb (s_expired x) && (timeout <=? now - s_created_at x).
Definition expire_session (timeout now : Z) (x : TransferSession) : TransferSession :=
  if overdue timeout now x then mkSession (s_state x) (s_block_count x) (s_created_at x) (s_reserved_bytes x) true else x.
Definition expire (timeout now : Z) (t : Transfers) : Transfers * Z :=
  (with_windows ((fun p => (p.1, mkWindow (w_requester p.2) ((fun s => mkSlot (sl_generation s) (expire_session timeout now <$> sl_transfer s)) <$> w_slots p.2))) <$> windows t) t,
   zlen (List.filter (overdue timeout now) (windows t ≫= (fun p => omap sl_transfer (w_slots p.2))))).

(** ** Admission of a request *)

(** [validate_owner] and the checks of [authorize] on its records. *)
Definition validate_owner (endpoint : bool) (membership : option MembershipView) (now : Z) (owner : Z) : result unit PeerError :=
  if negb endpoint then Err Unavailable
  else match membership with
       | None => Err StaleReplica
       | Some v => if negb (incarnation (own v) =? owner) || negb (permits v now (own v)) then Err StaleReplica else Ok tt
       end.
Definition validate_records (records : list InventoryRecord) : result unit PeerError :=
  match records with
  | [] => Err (InvalidRequest "empty transfer"%string)
  | first :: _ =>
      if existsb (fun r => negb (bool_decide (namespace (key r) = namespace (key first))) || negb (present r) || (sequence r =? 0)) records
      then Err (InvalidRequest "invalid residency evidence"%string)
      else match validate_discovery_query (namespace (key first)) ((fun r => hash (key r)) <$> records) with Ok _ => Ok tt | Err e => Err (InvalidRequest e) end
  end.
(** [authorize]: the staged blocks in the order of the records; [None] when one is missing or left over. *)
Fixpoint arrange (records : list InventoryRecord) (materialized : Pinned) : option Pinned :=
  match records with
  | [] => if bool_decide (materialized = []) then Some [] else None
  | r :: records =>
      i ← position (fun p => bool_decide (p.1 = key r)) materialized;
      b ← materialized !! i;
      rest ← arrange records (swap_remove i materialized);
      Some (b :: rest)
  end.

(** ** Handles and their owners

    A [StagingReservation] and a [PreparedTransfer] are values that some task owns; each of their methods and their [Drop]
    is one critical section.  A failed commit leaves the reservation to be dropped. *)
Record World := mkWorld { transfers : Transfers; staging : list TransferTicket; prepared : list TransferTicket }.
Definition world_new : World := mkWorld transfers_new [] [].

Inductive Op :=
| Open (requester id : Z)
| Reserve (now : Z) (k : TransferTicket) (bytes block_count : Z)
| Commit (k : TransferTicket) (blocks : Pinned)
| DropStaging (k : TransferTicket)
| PublishGrant (k : TransferTicket)
| DropPrepared (k : TransferTicket)
| Release (k : TransferTicket)
| Expire (now : Z).

Section Manager.
Context (arc_ptr : PinnedAllocation -> Z) (budget timeout : Z).

Definition without (k : TransferTicket) (l : list TransferTicket) : list TransferTicket := filter (fun x => x <> k) l.
Definition act (op : Op) (w : World) : option World :=
  let t := transfers w in
  match op with
  | Open requester id => Some (mkWorld (open requester id t).1 (staging w) (prepared w))
  | Reserve now k bytes n =>
      r ← reserve budget now k bytes n t;
      Some (mkWorld r.1 (match r.2 with Ok _ => staging w ++ [k] | Err _ => staging w end) (prepared w))
  | Commit k blocks =>
      if bool_decide (k ∈ staging w)
      then match allocation_bytes arc_ptr blocks with
           | Err _ => Some w
           | Ok bytes =>
               r ← commit_staging budget k blocks bytes t;
               Some match r.2 with
                    | Ok _ => mkWorld r.1 (without k (staging w)) (prepared w ++ [k])
                    | Err _ => mkWorld r.1 (staging w) (prepared w)
                    end
           end
      else Some w
  | DropStaging k =>
      if bool_decide (k ∈ staging w) then t ← rollback k false t; Some (mkWorld t (without k (staging w)) (prepared w)) else Some w
  | PublishGrant k => Some (mkWorld t (staging w) (without k (prepared w)))
  | DropPrepared k =>
      if bool_decide (k ∈ prepared w) then t ← rollback k true t; Some (mkWorld t (staging w) (without k (prepared w))) else Some w
  | Release k => r ← release k t; Some (mkWorld r.1 (staging w) (prepared w))
  | Expire now => Some (mkWorld (expire timeout now t).1 (staging w) (prepared w))
  end.
Fixpoint acts (ops : list Op) (w : World) : option World :=
  match ops with [] => Some w | op :: ops => w ← act op w; acts ops w end.
End Manager.

(** [TransferLockManager::lock_blocks], when nothing comes between its steps. *)
Definition lock_blocks (arc_ptr : PinnedAllocation -> Z) (budget now : Z) (k : TransferTicket) (blocks : Pinned) (t : Transfers) : option (Transfers * result unit PeerError) :=
  match allocation_bytes arc_ptr blocks with
  | Err e => Some (t, Err e)
  | Ok bytes =>
      r ← reserve budget now k bytes (zlen blocks) t;
      match r.2 with
      | Err e => Some (r.1, Err e)
      | Ok _ =>
          c ← commit_staging budget k blocks bytes r.1;
          match c.2 with
          | Ok _ => Some (c.1, Ok tt)
          | Err e => t ← rollback k false c.1; Some (t, Err e)
          end
      end
  end.
