(* ===== verification/ExportsSpec.v ===== *)
(** * Peer exports: what the source promises

    Every critical section of the lock manager is a transition of one slot; the accounts, the ownership of the handles and
    the life of a grant follow by induction over any sequence of sections. *)
From S2P Require Import Prelude Containers Vecs State Membership Blocks Exports.

Local Open Scope Z_scope.
Local Open Scope rust_scope.

(** ** The linked map *)

Definition slot_of (ws : list (Z * TransferWindow)) (id : Z) (i : nat) : option TransferSlot := w ← get_window id ws; w_slots w !! i.
Definition total (f : TransferSlot -> Z) (ws : list (Z * TransferWindow)) : Z := list_sum (fun p => list_sum f (w_slots p.2)) ws.

Lemma get_window_Some ws id w : NoDup ws.*1 -> get_window id ws = Some w <-> (id, w) ∈ ws.
Proof.
  intros Hnd. unfold get_window. split.
  - intros ([id' w'] & Hf & [= ->])%fmap_Some. apply find_some in Hf as [Hin%list_elem_of_In He%Z.eqb_eq]. cbn in *. by subst.
  - intros Hin. apply list_elem_of_lookup in Hin as [p Hp]. destruct (List.find _ ws) as [[id' w']|] eqn:Ef.
    + apply find_some in Ef as [Hin'%list_elem_of_In He%Z.eqb_eq]. cbn in *. subst id'. apply list_elem_of_lookup in Hin' as [p' Hp'].
      assert (p = p') as -> by (apply (NoDup_lookup ws.*1 p p' id); [done|by rewrite list_lookup_fmap, Hp|by rewrite list_lookup_fmap, Hp']). congruence.
    + exfalso. pose proof (find_none _ _ Ef (id, w) ltac:(by eapply list_elem_of_In, list_elem_of_lookup_2)) as Hno. cbn in Hno. by rewrite Z.eqb_refl in Hno.
Qed.
Lemma get_window_perm ws ws' id : NoDup ws.*1 -> ws ≡ₚ ws' -> get_window id ws = get_window id ws'.
Proof.
  intros Hnd Hp. assert (NoDup ws'.*1) as Hnd' by (by rewrite <- Hp). destruct (get_window id ws) as [w|] eqn:E.
  - apply get_window_Some in E; [|done]. symmetry. apply get_window_Some; [done|]. by rewrite <- Hp.
  - destruct (get_window id ws') as [w|] eqn:E'; [|done]. apply get_window_Some in E'; [|done]. rewrite <- Hp in E'. apply get_window_Some in E'; [congruence|done].
Qed.
Lemma remove_window_cons id a b ws : remove_window id ((a, b) :: ws) = if a =? id then remove_window id ws else (a, b) :: remove_window id ws.
Proof. unfold remove_window. cbn. by destruct (a =? id). Qed.
Lemma remove_window_perm ws id w : NoDup ws.*1 -> get_window id ws = Some w -> ws ≡ₚ (id, w) :: remove_window id ws.
Proof.
  intros Hnd Hg. apply get_window_Some in Hg; [|done]. revert Hnd Hg. induction ws as [|[id' w'] ws IH]; intros Hnd Hg; [by apply elem_of_nil in Hg|].
  rewrite fmap_cons in Hnd. apply NoDup_cons in Hnd as [Hno Hnd]. rewrite remove_window_cons. destruct (Z.eqb_spec id' id) as [->|Hne].
  - assert (remove_window id ws = ws) as ->.
    { clear -Hno. induction ws as [|[a b] ws IH]; [done|]. rewrite remove_window_cons. apply not_elem_of_cons in Hno as [? ?]. rewrite (proj2 (Z.eqb_neq a id)) by (cbn in *; congruence). by rewrite IH. }
    apply elem_of_cons in Hg as [[= ->]|Hg]; [done|]. destruct Hno. apply list_elem_of_fmap. by exists (id, w).
  - apply elem_of_cons in Hg as [[= -> ->]|Hg]; [done|]. rewrite (IH Hnd Hg) at 1. apply Permutation_swap.
Qed.
Lemma to_back_perm ws id : NoDup ws.*1 -> to_back id ws ≡ₚ ws.
Proof.
  intros Hnd. unfold to_back. destruct (get_window id ws) as [w|] eqn:E; [|done]. unfold insert_window. rewrite (remove_window_perm ws id w Hnd E) at 2. by rewrite <- Permutation_cons_append.
Qed.
Lemma remove_window_keys ws id k : k ∈ (remove_window id ws).*1 <-> k ∈ ws.*1 /\ k <> id.
Proof.
  rewrite !list_elem_of_fmap. split.
  - intros ([a b] & -> & Hin). unfold remove_window in Hin. apply list_elem_of_In, filter_In in Hin as [Hin%list_elem_of_In Hne%negb_true_iff%Z.eqb_neq]. split; [by exists (a, b)|done].
  - intros [([a b] & -> & Hin) Hne]. exists (a, b). split; [done|]. apply list_elem_of_In, filter_In. split; [by apply list_elem_of_In|]. by apply negb_true_iff, Z.eqb_neq.
Qed.
Lemma remove_window_NoDup ws id : NoDup ws.*1 -> NoDup (remove_window id ws).*1.
Proof.
  induction ws as [|[a b] ws IH]; [done|]. rewrite fmap_cons, NoDup_cons. intros [Hno Hnd]. rewrite remove_window_cons. destruct (_ =? _); [auto|].
  rewrite fmap_cons. apply NoDup_cons. split; [|auto]. intros Hin. apply remove_window_keys in Hin as [? _]. done.
Qed.

(** ** Changing a slot *)

Lemma put_slot_keys ws id i s : (put_slot id i s ws).*1 = ws.*1.
Proof. unfold put_slot. rewrite <- list_fmap_compose. apply list_fmap_ext. intros _ [a b] _. cbn. by destruct (_ =? _). Qed.
Lemma put_slot_get ws id i s id' : NoDup ws.*1 -> get_window id' (put_slot id i s ws) =
  (fun w => if id' =? id then mkWindow (w_requester w) (<[i := s]> (w_slots w)) else w) <$> get_window id' ws.
Proof.
  intros Hnd. assert (NoDup (put_slot id i s ws).*1) as Hnd' by (by rewrite put_slot_keys). destruct (get_window id' ws) as [w|] eqn:E; cbn [fmap option_fmap option_map].
  - apply get_window_Some in E; [|done]. apply get_window_Some; [done|]. apply list_elem_of_fmap. exists (id', w). split; [|done]. cbn. by destruct (_ =? _).
  - destruct (get_window id' (put_slot id i s ws)) as [w|] eqn:E'; [|done]. apply get_window_Some in E'; [|done].
    assert (id' ∈ ws.*1) as Hin by (rewrite <- (put_slot_keys ws id i s); apply list_elem_of_fmap; by exists (id', w)).
    apply list_elem_of_fmap in Hin as ([a b] & Heq & Hin). cbn in Heq. subst a. apply get_window_Some in Hin; [congruence|done].
Qed.
Lemma put_slot_slot ws id i s id' i' s0 : NoDup ws.*1 -> slot_of ws id i = Some s0 ->
  slot_of (put_slot id i s ws) id' i' = if decide (id' = id /\ i' = i) then Some s else slot_of ws id' i'.
Proof.
  intros Hnd Hs0. unfold slot_of in *. rewrite put_slot_get by done. destruct (get_window id' ws) as [w|] eqn:E; cbn.
  2:{ rewrite decide_False; [done|]. intros [-> ->]. by rewrite E in Hs0. }
  destruct (Z.eqb_spec id' id) as [->|Hne]; cbn; [|rewrite decide_False; [done|]; by intros [? _]]. rewrite E in Hs0. cbn in Hs0.
  destruct (decide (i' = i)) as [->|Hi]; [rewrite decide_True by done; apply list_lookup_insert_eq; by eapply lookup_lt_Some|].
  rewrite decide_False by (by intros [_ ?]). by apply list_lookup_insert_ne.
Qed.
Lemma put_slot_total f ws id i s s0 : NoDup ws.*1 -> slot_of ws id i = Some s0 -> total f (put_slot id i s ws) = total f ws - f s0 + f s.
Proof.
  intros Hnd Hs0. unfold slot_of in Hs0. apply bind_Some in Hs0 as (w & Hw & Hi). apply get_window_Some in Hw; [|done]. unfold total, put_slot. rewrite list_sum_fmap.
  induction ws as [|[a b] ws IH]; [by apply elem_of_nil in Hw|]. rewrite fmap_cons in Hnd. apply NoDup_cons in Hnd as [Hno Hnd]. unfold list_sum in *. cbn [foldr fst snd].
  apply elem_of_cons in Hw as [[= <- <-]|Hw].
  - rewrite Z.eqb_refl. cbn [snd w_slots]. pose proof (list_sum_insert f (w_slots w) i s0 s Hi) as Hins. unfold list_sum in Hins. rewrite Hins.
    assert (foldr (fun p acc => foldr (fun a0 acc0 => f a0 + acc0) 0 (w_slots (if p.1 =? id then (p.1, mkWindow (w_requester p.2) (<[i := s]> (w_slots p.2))) else p).2) + acc) 0 ws
      = foldr (fun p acc => foldr (fun a0 acc0 => f a0 + acc0) 0 (w_slots p.2) + acc) 0 ws) as ->; [|lia].
    clear -Hno. induction ws as [|[c d] ws IH]; [done|]. cbn in *. apply not_elem_of_cons in Hno as [? ?]. rewrite IH by done. by rewrite (proj2 (Z.eqb_neq c id)) by done.
  - assert (a <> id) by (intros ->; destruct Hno; apply list_elem_of_fmap; by exists (id, w)). rewrite (proj2 (Z.eqb_neq a id)) by done. cbn [snd]. rewrite IH by done. lia.
Qed.
Lemma total_perm f ws ws' : ws ≡ₚ ws' -> total f ws = total f ws'.
Proof. apply list_sum_perm. Qed.
Lemma slot_of_perm ws ws' id i : NoDup ws.*1 -> ws ≡ₚ ws' -> slot_of ws id i = slot_of ws' id i.
Proof. intros Hnd Hp. unfold slot_of. by rewrite (get_window_perm ws ws' id Hnd Hp). Qed.

(** ** The life of a slot *)

Section Slots.
Context (budget : Z) (Hbudget : is_u64 budget).

(** What a critical section does to the slot of its ticket, and to the two accounts. *)
Inductive slot_step (a r : Z) (s : TransferSlot) : TransferSlot -> Z -> Z -> Prop :=
| StClose g : sl_transfer s = None -> sl_generation s <= g -> slot_step a r s (mkSlot g None) a r
| StAdmit g n now b : sl_transfer s = None -> sl_generation s < g -> 0 <= b -> r + b <= budget -> a < MAX_TRANSFER_SESSIONS ->
    slot_step a r s (mkSlot g (Some (mkSession (Staging false) n now b false))) (a + 1) (r + b)
| StMark x released : sl_transfer s = Some x -> s_state x = Staging released ->
    slot_step a r s (mkSlot (sl_generation s) (Some (mkSession (Staging true) (s_block_count x) (s_created_at x) (s_reserved_bytes x) (s_expired x)))) a r
| StFill x bs b : sl_transfer s = Some x -> s_state x = Staging false -> s_block_count x = zlen bs -> 0 <= b -> r - s_reserved_bytes x + b <= budget ->
    slot_step a r s (mkSlot (sl_generation s) (Some (mkSession (Ready bs) (s_block_count x) (s_created_at x) b (s_expired x)))) a (r - s_reserved_bytes x + b)
| StFree x : sl_transfer s = Some x -> slot_step a r s (mkSlot (sl_generation s) None) (a - 1) (r - s_reserved_bytes x).

Definition put (k : TransferTicket) (s : TransferSlot) (t : Transfers) : list (Z * TransferWindow) := put_slot (tk_window k) (tk_slot k) s (windows t).
Definition at_ticket (k : TransferTicket) (t : Transfers) : option TransferSlot := slot_of (windows t) (tk_window k) (tk_slot k).
Definition same (t' t : Transfers) : Prop := windows t' ≡ₚ windows t /\ active t' = active t /\ reserved_bytes t' = reserved_bytes t.
Definition moved (k : TransferTicket) (s s' : TransferSlot) (t' t : Transfers) : Prop :=
  at_ticket k t = Some s /\ slot_step (active t) (reserved_bytes t) s s' (active t') (reserved_bytes t') /\ windows t' ≡ₚ put k s' t.

Definition f_active (s : TransferSlot) : Z := match sl_transfer s with Some _ => 1 | None => 0 end.
Definition f_bytes (s : TransferSlot) : Z := from_option s_reserved_bytes 0 (sl_transfer s).
Record acc_ok (t : Transfers) : Prop := {
  ac_keys : NoDup (windows t).*1;
  ac_windows : zlen (windows t) <= MAX_TRANSFER_WINDOWS;
  ac_active : active t = total f_active (windows t) /\ active t <= MAX_TRANSFER_SESSIONS;
  ac_bytes : reserved_bytes t = total f_bytes (windows t) /\ reserved_bytes t <= budget;
  ac_slots : Forall (fun p => Forall (fun s => 0 <= f_bytes s) (w_slots p.2)) (windows t) }.

Lemma acc_same t t' : same t' t -> acc_ok t -> acc_ok t'.
Proof.
  intros (Hp & Ha & Hr) [H1 H2 H3 H4 H5]. constructor; rewrite ?Ha, ?Hr; [by rewrite Hp|unfold zlen in *; by rewrite Hp|by rewrite (total_perm _ _ _ Hp)|by rewrite (total_perm _ _ _ Hp)|by rewrite Hp].
Qed.
Lemma put_slots_ok k s t : Forall (fun p => Forall (fun s => 0 <= f_bytes s) (w_slots p.2)) (windows t) -> 0 <= f_bytes s ->
  Forall (fun p => Forall (fun s => 0 <= f_bytes s) (w_slots p.2)) (put k s t).
Proof.
  intros Hf Hs. unfold put, put_slot. apply Forall_fmap. eapply Forall_impl; [exact Hf|]. intros [a b] Hab. cbn in *. destruct (a =? tk_window k); [|done]. cbn. by apply Forall_insert.
Qed.
Lemma slot_bytes k t s : acc_ok t -> at_ticket k t = Some s -> 0 <= f_bytes s /\ f_bytes s <= reserved_bytes t /\ f_active s <= active t.
Proof.
  intros [H1 H2 [H3 _] [H4 _] H5] Hs. assert (0 <= f_bytes s) as Hpos.
  { unfold at_ticket, slot_of in Hs. apply bind_Some in Hs as (w & Hw & Hi). apply get_window_Some in Hw; [|done]. rewrite Forall_forall in H5. specialize (H5 _ Hw). cbn in H5. by apply (Forall_lookup_1 _ _ _ _ H5 Hi). }
  split; [done|]. pose proof (put_slots_ok k empty_slot t H5 ltac:(done)) as Hp.
  assert (forall f, total f (put k empty_slot t) = total f (windows t) - f s + f empty_slot) as Ht by (intros f; by apply put_slot_total).
  assert (0 <= total f_bytes (put k empty_slot t)) as Hn.
  { unfold total. apply list_sum_nonneg. intros p Hin. apply list_sum_nonneg. rewrite Forall_forall in Hp. specialize (Hp p Hin). by apply Forall_forall. }
  assert (0 <= total f_active (put k empty_slot t)) as Hm.
  { unfold total. apply list_sum_nonneg. intros p _. apply list_sum_nonneg. intros x _. unfold f_active. by destruct (sl_transfer x). }
  rewrite Ht in Hn, Hm. change (f_bytes empty_slot) with 0 in Hn. change (f_active empty_slot) with 0 in Hm. lia.
Qed.
Lemma acc_moved k s s' t t' : moved k s s' t' t -> acc_ok t -> acc_ok t'.
Proof.
  intros (Hat & Hst & Hp) Hok. pose proof Hok as [H1 H2 [H3 H3'] [H4 H4'] H5]. destruct (slot_bytes k t s Hok Hat) as (B1 & B2 & B3).
  assert (0 <= f_bytes s' /\ active t' = active t - f_active s + f_active s' /\ reserved_bytes t' = reserved_bytes t - f_bytes s + f_bytes s' /\ active t' <= MAX_TRANSFER_SESSIONS /\ reserved_bytes t' <= budget) as (C1 & C2 & C3 & C4 & C5).
  { unfold f_active, f_bytes in *. destruct Hst as [g Hn Hg|g n now b Hn Hg Hb Hle Ha|x rel Hx Hs|x bs b Hx Hs Hl Hb Hle|x Hx]; cbn [sl_transfer from_option s_reserved_bytes] in *;
      rewrite ?Hn, ?Hx in *; cbn [from_option] in *; split_and!; lia. }
  constructor.
  - rewrite Hp. unfold put. by rewrite put_slot_keys.
  - unfold zlen in *. rewrite Hp. unfold put, put_slot. by rewrite length_fmap.
  - rewrite (total_perm _ _ _ Hp). unfold put. rewrite (put_slot_total _ _ _ _ _ _ H1 Hat). lia.
  - rewrite (total_perm _ _ _ Hp). unfold put. rewrite (put_slot_total _ _ _ _ _ _ H1 Hat). lia.
  - rewrite Hp. by apply put_slots_ok.
Qed.

(** ** Every critical section is such a step, and none panics *)

Lemma back_same id t : NoDup (windows t).*1 -> same (with_windows (to_back id (windows t)) t) t.
Proof. intros Hnd. split_and!; [by apply to_back_perm|done|done]. Qed.
Lemma back_put k s t : NoDup (windows t).*1 -> put_slot (tk_window k) (tk_slot k) s (to_back (tk_window k) (windows t)) ≡ₚ put k s t.
Proof. intros Hnd. apply fmap_Permutation. by apply to_back_perm. Qed.

Lemma reserve_step now k bytes n t : acc_ok t -> 0 <= bytes -> exists t' res, reserve budget now k bytes n t = Some (t', res) /\
  match res with
  | Ok _ => exists s, moved k s (mkSlot (tk_generation k) (Some (mkSession (Staging false) n now bytes false))) t' t /\ sl_transfer s = None /\ sl_generation s < tk_generation k
  | Err _ => same t' t \/ exists s, moved k s (mkSlot (tk_generation k) None) t' t /\ sl_transfer s = None /\ sl_generation s < tk_generation k
  end.
Proof.
  intros Hok Hb. pose proof Hok as [H1 _ [_ H3] [_ H4] _]. unfold reserve. destruct (get_window (tk_window k) (windows t)) as [w|] eqn:Ew; [|eexists _, _; split; [done|]; by left].
  destruct (w_slots w !! tk_slot k) as [s|] eqn:Es; [|eexists _, _; split; [done|]; left; by apply back_same].
  assert (at_ticket k t = Some s) as Hat by (unfold at_ticket, slot_of; by rewrite Ew). destruct (slot_bytes k t s Hok Hat) as (B1 & B2 & B3).
  destruct (_ || _ || _) eqn:Ec; [eexists _, _; split; [done|]; left; by apply back_same|]. rewrite !orb_false_iff in Ec. destruct Ec as [[_ Hg%Z.leb_gt] Hn%bool_decide_eq_false].
  assert (sl_transfer s = None) as Hnone by (destruct (sl_transfer s); [destruct Hn; by eexists|done]). cbn [windows with_windows active reserved_bytes].
  destruct ((_ <=? _) || _) eqn:Ea.
  - eexists _, _. split; [done|]. right. exists s. split_and!; [|done|done]. split_and!; [done|apply StClose; [done|lia]|by apply back_put].
  - apply orb_false_iff in Ea as [Ha%Z.leb_gt Hr%Z.ltb_ge]. unfold saturating_sub in Hr. destruct Hbudget as [Hb0 Hb1].
    unfold checked_add. unfold MAX_TRANSFER_SESSIONS, u64_max in *. rewrite (proj2 (Z.leb_le (active t + 1) _)) by lia. cbn [mbind option_bind]. rewrite (proj2 (Z.leb_le (reserved_bytes t + bytes) _)) by lia. cbn [mbind option_bind].
    eexists _, _. split; [done|]. exists s. split_and!; [|done|done]. split_and!; [done|apply StAdmit; unfold MAX_TRANSFER_SESSIONS; try done; lia|by apply back_put].
Qed.

Lemma commit_step k blocks bytes t : acc_ok t -> 0 <= bytes -> exists t' res, commit_staging budget k blocks bytes t = Some (t', res) /\
  match res with
  | Ok _ => exists s x, at_ticket k t = Some s /\ sl_generation s = tk_generation k /\ sl_transfer s = Some x /\ s_state x = Staging false /\
      moved k s (mkSlot (sl_generation s) (Some (mkSession (Ready blocks) (s_block_count x) (s_created_at x) bytes (s_expired x)))) t' t
  | Err _ => same t' t
  end.
Proof.
  intros Hok Hb. pose proof Hok as [H1 _ [_ H3] [_ H4] _]. unfold commit_staging. destruct (get_window (tk_window k) (windows t)) as [w|] eqn:Ew; [|by eexists _, _].
  pose proof (back_same (tk_window k) t H1) as Hsame. destruct (w_slots w !! tk_slot k) as [s|] eqn:Es; [|by eexists _, _].
  assert (at_ticket k t = Some s) as Hat by (unfold at_ticket, slot_of; by rewrite Ew). destruct (slot_bytes k t s Hok Hat) as (B1 & B2 & B3).
  destruct (Z.eqb_spec (sl_generation s) (tk_generation k)) as [Hg|]; [|by eexists _, _]. cbn [negb]. destruct (sl_transfer s) as [x|] eqn:Ex; [|by eexists _, _].
  destruct (_ || _) eqn:Ec; [by eexists _, _|]. apply orb_false_iff in Ec as [Hc%negb_false_iff%Z.eqb_eq Hst]. assert (s_state x = Staging false) as Hs by (destruct (s_state x) as [[]|]; done).
  cbn [windows with_windows active reserved_bytes]. unfold f_bytes in B1, B2. rewrite Ex in B1, B2. cbn in B1, B2. unfold checked_sub. rewrite (proj2 (Z.leb_le _ _)) by lia. cbn [mbind option_bind].
  destruct (_ <? _) eqn:El; [by eexists _, _|]. apply Z.ltb_ge in El. unfold saturating_sub in El. destruct Hbudget as [Hb0 Hb1]. unfold checked_add, u64_max in *. rewrite (proj2 (Z.leb_le _ _)) by lia. cbn [mbind option_bind].
  eexists _, _. split; [done|]. exists s, x. split_and!; try done. split_and!; [done|apply StFill; try done; lia|by apply back_put].
Qed.

Lemma free_step k g x s t : acc_ok t -> at_ticket k t = Some s -> sl_transfer s = Some x -> sl_generation s = g ->
  exists t', release_accounting k g x t = Some t' /\ moved k s (mkSlot g None) t' t.
Proof.
  intros Hok Hat Hx <-. destruct (slot_bytes k t s Hok Hat) as (B1 & B2 & B3). unfold f_bytes, f_active in *. rewrite Hx in B1, B2, B3. cbn in B1, B2. unfold release_accounting, checked_sub.
  rewrite (proj2 (Z.leb_le 1 _)) by lia. cbn [mbind option_bind]. rewrite (proj2 (Z.leb_le _ _)) by lia. cbn [mbind option_bind]. eexists. split; [done|]. split_and!; [done|by apply StFree|done].
Qed.
Lemma rollback_step k ready t : acc_ok t -> exists t', rollback k ready t = Some t' /\
  (t' = t /\ (forall s x, at_ticket k t = Some s -> sl_transfer s = Some x -> sl_generation s = tk_generation k -> is_ready x <> ready) \/
   exists s x, sl_transfer s = Some x /\ is_ready x = ready /\ sl_generation s = tk_generation k /\ moved k s (mkSlot (sl_generation s) None) t' t).
Proof.
  intros Hok. unfold rollback, at_ticket, slot_of. destruct (get_window (tk_window k) (windows t)) as [w|] eqn:Ew; [|exists t; split; [done|]; by left]. cbn [mbind option_bind].
  destruct (w_slots w !! tk_slot k) as [s|] eqn:Es; [|exists t; split; [done|]; by left]. destruct (sl_transfer s) as [x|] eqn:Ex; [|exists t; split; [done|]; left; split; [done|]; intros; congruence].
  destruct ((sl_generation s =? tk_generation k) && Bool.eqb (is_ready x) ready) eqn:Ec.
  - apply andb_true_iff in Ec as [Hg%Z.eqb_eq Hr%eqb_prop]. destruct (free_step k (sl_generation s) x s t Hok) as (t' & -> & Hm); [unfold at_ticket, slot_of; by rewrite Ew|done|done|].
    exists t'. split; [done|]. right. by exists s, x.
  - exists t. split; [done|]. left. split; [done|]. intros s' x' [= <-] Hx' Hg Hr. rewrite Ex in Hx'. injection Hx' as <-. rewrite Hg, Z.eqb_refl, Hr in Ec. by rewrite eqb_reflx in Ec.
Qed.

Lemma release_step k t : acc_ok t -> exists t' res, release k t = Some (t', res) /\
  (same t' t \/
   exists s, sl_generation s <= tk_generation k /\
     ((sl_transfer s = None /\ moved k s (mkSlot (tk_generation k) None) t' t) \/
      (sl_generation s = tk_generation k /\ exists x,
        sl_transfer s = Some x /\
        (is_ready x = false /\ moved k s (mkSlot (sl_generation s) (Some (mkSession (Staging true) (s_block_count x) (s_created_at x) (s_reserved_bytes x) (s_expired x)))) t' t \/
         is_ready x = true /\ moved k s (mkSlot (sl_generation s) None) t' t)))).
Proof.
  intros Hok. pose proof Hok as [H1 _ _ _ _]. unfold release. destruct (get_window (tk_window k) (windows t)) as [w|] eqn:Ew; [|eexists _, _; split; [done|]; by left].
  pose proof (back_same (tk_window k) t H1) as Hsame. destruct (w_slots w !! tk_slot k) as [s|] eqn:Es; [|eexists _, _; split; [done|]; by left].
  assert (at_ticket k t = Some s) as Hat by (unfold at_ticket, slot_of; by rewrite Ew).
  destruct (tk_generation k =? 0); [eexists _, _; split; [done|]; by left|]. destruct (Z.ltb_spec (tk_generation k) (sl_generation s)) as [|Hge]; [eexists _, _; split; [done|]; by left|].
  destruct (_ && _) eqn:Ec; [eexists _, _; split; [done|]; by left|]. cbn [windows with_windows]. destruct (sl_transfer s) as [x|] eqn:Ex.
  - rewrite bool_decide_true, andb_true_r in Ec by (by eexists). apply Z.ltb_ge in Ec. assert (sl_generation s = tk_generation k) as Hg by lia. destruct (s_state x) as [rel|blocks] eqn:Est.
    + eexists _, _. split; [done|]. right. exists s. split; [done|]. right. split; [done|]. exists x. split; [done|]. left. unfold is_ready. rewrite Est. split; [done|]. rewrite <- Hg. split_and!; [done|by eapply StMark|by apply back_put].
    + set (t0 := with_windows (to_back (tk_window k) (windows t)) t) in *. assert (acc_ok t0) as Hok0 by (by eapply acc_same).
      destruct (free_step k (tk_generation k) x s t0 Hok0) as (t' & -> & (Hm1 & Hm2 & Hm3)); [unfold at_ticket; by rewrite (slot_of_perm _ _ _ _ (ac_keys _ Hok0) (proj1 Hsame))|done|done|].
      cbn [mbind option_bind]. eexists _, _. split; [done|]. right. exists s. split; [done|]. right. split; [done|]. exists x. split; [done|]. right. unfold is_ready. rewrite Est. split; [done|].
      rewrite Hg. split_and!; [done|exact Hm2|]. rewrite Hm3. unfold put. apply fmap_Permutation, (proj1 Hsame).
  - eexists _, _. split; [done|]. right. exists s. split; [done|]. left. split; [done|]. split_and!; [done|by apply StClose|by apply back_put].
Qed.

(** ** Windows come and go, and overdue sessions are marked *)

Lemma idle_sum w : idle_window w = true -> list_sum f_active (w_slots w) = 0 /\ list_sum f_bytes (w_slots w) = 0.
Proof.
  unfold idle_window. generalize (w_slots w). intros l. induction l as [|s l IH]; [done|]. cbn [forallb]. rewrite andb_true_iff, negb_true_iff, bool_decide_eq_false. intros [Hs Hl]. destruct (IH Hl) as [H1 H2].
  unfold list_sum, f_active, f_bytes in *. cbn [foldr]. destruct (sl_transfer s); [destruct Hs; by eexists|]. cbn. by rewrite H1, H2.
Qed.
Lemma fresh_sum r : list_sum f_active (w_slots (fresh_window r)) = 0 /\ list_sum f_bytes (w_slots (fresh_window r)) = 0.
Proof. done. Qed.
Lemma add_window_ok t ws id r : acc_ok t -> NoDup ws.*1 -> id ∉ ws.*1 -> zlen ws < MAX_TRANSFER_WINDOWS -> total f_active ws = total f_active (windows t) -> total f_bytes ws = total f_bytes (windows t) ->
  Forall (fun p => Forall (fun s => 0 <= f_bytes s) (w_slots p.2)) ws -> acc_ok (with_windows (insert_window id (fresh_window r) ws) t).
Proof.
  intros [H1 H2 H3 H4 H5] Hnd Hid Hlen Ha Hb Hs. assert (remove_window id ws = ws) as Hrm.
  { clear -Hid. induction ws as [|[a b] ws IH]; [done|]. rewrite remove_window_cons. apply not_elem_of_cons in Hid as [? ?]. rewrite (proj2 (Z.eqb_neq a id)) by (cbn in *; congruence). by rewrite IH. }
  assert (forall f, total f (insert_window id (fresh_window r) ws) = total f ws + list_sum f (w_slots (fresh_window r))) as Ht.
  { intros f. unfold insert_window. rewrite Hrm. unfold total. rewrite list_sum_app. unfold list_sum. cbn [foldr snd]. lia. }
  destruct (fresh_sum r) as [F1 F2]. constructor; cbn [with_windows windows active reserved_bytes].
  - unfold insert_window. rewrite Hrm, fmap_app. apply NoDup_app. split_and!; [done| |apply NoDup_singleton]. intros x Hx ->%list_elem_of_singleton. done.
  - unfold insert_window. rewrite Hrm. unfold zlen in *. rewrite length_app. cbn. lia.
  - rewrite Ht, F1, Ha. lia.
  - rewrite Ht, F2, Hb. lia.
  - unfold insert_window. rewrite Hrm. apply Forall_app. split; [done|]. apply Forall_singleton. cbn [snd fresh_window w_slots]. by apply Forall_replicate.
Qed.

Lemma get_window_elem ws id : get_window id ws = None <-> id ∉ ws.*1.
Proof.
  unfold get_window. split.
  - intros Hn%fmap_None Hin. apply list_elem_of_fmap in Hin as ([a b] & -> & Hin). pose proof (find_none _ _ Hn (a, b) ltac:(by apply list_elem_of_In)) as Hno. cbn in Hno. by rewrite Z.eqb_refl in Hno.
  - intros Hno. destruct (List.find _ ws) as [[a b]|] eqn:Ef; [|done]. apply find_some in Ef as [Hin%list_elem_of_In He%Z.eqb_eq]. cbn in He. subst a. destruct Hno. apply list_elem_of_fmap. by exists (id, b).
Qed.

(** What a new window changes for the slots: an idle window may go, the new one is empty. *)
Record opened_step (id : Z) (t' t : Transfers) : Prop := {
  os_ok : acc_ok t';
  os_keys : forall i, i ∈ (windows t').*1 -> i = id \/ i ∈ (windows t).*1;
  os_new : forall i n s, slot_of (windows t') i n = Some s -> slot_of (windows t) i n = Some s \/ i = id /\ s = empty_slot;
  os_busy : forall i n s x, slot_of (windows t) i n = Some s -> sl_transfer s = Some x -> slot_of (windows t') i n = Some s }.

Lemma insert_window_keys ws id w i : i ∈ (insert_window id w ws).*1 <-> i ∈ (remove_window id ws).*1 \/ i = id.
Proof. unfold insert_window. rewrite fmap_app, elem_of_app. change ([(id, w)].*1) with [id]. by rewrite list_elem_of_singleton. Qed.
Lemma insert_new_slots ws id w i n : id ∉ ws.*1 -> NoDup ws.*1 -> slot_of (insert_window id w ws) i n = if decide (i = id) then w_slots w !! n else slot_of ws i n.
Proof.
  intros Hid Hnd. assert (remove_window id ws = ws) as Hrm.
  { clear -Hid. induction ws as [|[a b] ws IH]; [done|]. rewrite remove_window_cons. apply not_elem_of_cons in Hid as [? ?]. rewrite (proj2 (Z.eqb_neq a id)) by (cbn in *; congruence). by rewrite IH. }
  assert (NoDup (insert_window id w ws).*1) as Hnd'.
  { unfold insert_window. rewrite Hrm, fmap_app. apply NoDup_app. split_and!; [done| |apply NoDup_singleton]. intros x Hx ->%list_elem_of_singleton. done. }
  unfold slot_of. case_decide as Hi.
  - subst i. assert (get_window id (insert_window id w ws) = Some w) as ->; [|done]. apply get_window_Some; [done|]. unfold insert_window. rewrite elem_of_app, list_elem_of_singleton. by right.
  - assert (get_window i (insert_window id w ws) = get_window i ws) as ->; [|done]. destruct (get_window i ws) as [v|] eqn:E.
    + apply get_window_Some in E; [|done]. apply get_window_Some; [done|]. unfold insert_window. rewrite Hrm, elem_of_app. by left.
    + apply get_window_elem in E. apply get_window_elem. unfold insert_window. rewrite Hrm, fmap_app, elem_of_app. change ([(id, w)].*1) with [id]. rewrite list_elem_of_singleton. intros [?|?]; done.
Qed.
Lemma open_step r id t : acc_ok t -> id ∉ (windows t).*1 -> opened_step id (open r id t).1 t.
Proof.
  intros Hok Hid. pose proof Hok as [H1 H2 [H3 _] [H4 _] H5]. unfold open.
  destruct (zlen (windows t) =? MAX_TRANSFER_WINDOWS) eqn:El.
  - destruct (List.find _ (windows t)) as [[a w]|] eqn:Ef; [|constructor; cbn; try done; auto].
    apply find_some in Ef as [Hin%list_elem_of_In Hidle]. cbn in Hidle. apply get_window_Some in Hin; [|done]. pose proof (remove_window_perm (windows t) a w H1 Hin) as Hperm. cbn [fst].
    assert (NoDup (remove_window a (windows t)).*1) as Hnd by (by apply remove_window_NoDup).
    assert (id ∉ (remove_window a (windows t)).*1) as Hid' by (intros [Hx _]%remove_window_keys; done).
    destruct (idle_sum w Hidle) as [I1 I2]. apply Z.eqb_eq in El.
    assert (forall f, total f (windows t) = list_sum f (w_slots w) + total f (remove_window a (windows t))) as Htot by (intros f; rewrite (total_perm f _ _ Hperm); done).
    constructor.
    + apply add_window_ok; try done; [|rewrite (Htot f_active); lia|rewrite (Htot f_bytes); lia|rewrite Hperm in H5; by apply Forall_cons in H5 as [_ ?]].
      unfold zlen in *. rewrite Hperm in El. cbn [length] in El. lia.
    + intros i Hi. apply insert_window_keys in Hi. destruct Hi as [[Hi _]%remove_window_keys| ->]; [|by left].
      apply remove_window_keys in Hi as [? _]. by right.
    + intros i n s Hs. cbn [fst with_windows windows] in Hs. rewrite (insert_new_slots _ id (fresh_window r) i n Hid' Hnd) in Hs. case_decide as Hi; [right; split; [done|]; by apply lookup_replicate in Hs as [-> _]|left].
      rewrite (slot_of_perm _ _ _ _ H1 Hperm). unfold slot_of in *. apply bind_Some in Hs as (v & Hv & Hs). apply get_window_Some in Hv; [|done].
      assert (get_window i ((a, w) :: remove_window a (windows t)) = Some v) as ->; [|done]. apply get_window_Some; [by rewrite <- Hperm|by right].
    + intros i n s x Hs Hx. cbn [fst with_windows windows]. rewrite (insert_new_slots _ id (fresh_window r) i n Hid' Hnd). case_decide as Hi.
      * subst i. unfold slot_of in Hs. rewrite (proj2 (get_window_elem _ _) Hid) in Hs. done.
      * rewrite (slot_of_perm _ _ _ _ H1 Hperm) in Hs. unfold slot_of in *. apply bind_Some in Hs as (v & Hv & Hs). apply get_window_Some in Hv; [|by rewrite <- Hperm].
        apply elem_of_cons in Hv as [[= -> ->]|Hv]; [|by rewrite (proj2 (get_window_Some _ _ _ Hnd) Hv)]. exfalso. unfold idle_window in Hidle. rewrite forallb_forall in Hidle.
        specialize (Hidle s ltac:(by eapply list_elem_of_In, list_elem_of_lookup_2)). rewrite Hx, bool_decide_true in Hidle by (by eexists). done.
  - apply Z.eqb_neq in El. constructor.
    + apply add_window_ok; try done. unfold zlen in *. lia.
    + intros i Hi. apply insert_window_keys in Hi. destruct Hi as [[Hi _]%remove_window_keys| ->]; [by right|by left].
    + intros i n s Hs. cbn [fst with_windows windows] in Hs. rewrite (insert_new_slots _ id (fresh_window r) i n Hid H1) in Hs. case_decide as Hi; [right; split; [done|]; by apply lookup_replicate in Hs as [-> _]|by left].
    + intros i n s x Hs Hx. cbn [fst with_windows windows]. rewrite (insert_new_slots _ id (fresh_window r) i n Hid H1). case_decide as Hi; [|done].
      subst i. unfold slot_of in Hs. by rewrite (proj2 (get_window_elem _ _) Hid) in Hs.
Qed.

Lemma expire_step timeout now t : acc_ok t -> acc_ok (expire timeout now t).1 /\
  forall id i, slot_of (windows (expire timeout now t).1) id i = (fun s => mkSlot (sl_generation s) (expire_session timeout now <$> sl_transfer s)) <$> slot_of (windows t) id i.
Proof.
  intros [H1 H2 [H3 H3'] [H4 H4'] H5]. unfold expire. cbn [fst]. set (e := fun s => mkSlot (sl_generation s) (expire_session timeout now <$> sl_transfer s)).
  set (ws' := _ <$> windows t). assert (ws'.*1 = (windows t).*1) as Hk by (unfold ws'; rewrite <- list_fmap_compose; done).
  assert (forall x, s_reserved_bytes (expire_session timeout now x) = s_reserved_bytes x) as Hbx by (intros x; unfold expire_session; by destruct (overdue timeout now x)).
  assert (forall s, f_active (e s) = f_active s /\ f_bytes (e s) = f_bytes s) as He.
  { intros s. unfold f_active, f_bytes, e. cbn [sl_transfer]. destruct (sl_transfer s) as [x|]; [|done]. cbn. split; [done|]. apply Hbx. }
  assert (forall f, (forall s, f (e s) = f s) -> total f ws' = total f (windows t)) as Htot.
  { intros f Hf. unfold total, ws'. rewrite list_sum_fmap. apply list_sum_ext. intros p. cbn [snd w_slots]. rewrite list_sum_fmap. by apply list_sum_ext. }
  split.
  - constructor; cbn [with_windows windows active reserved_bytes]; [by rewrite Hk|unfold zlen, ws' in *; by rewrite length_fmap|by rewrite Htot by apply He|by rewrite Htot by apply He|].
    unfold ws'. apply Forall_fmap. eapply Forall_impl; [exact H5|]. intros p Hp. cbn. apply Forall_fmap. eapply Forall_impl; [exact Hp|]. intros s Hs. change (0 <= f_bytes (e s)). by rewrite (proj2 (He s)).
  - intros id i. cbn [with_windows windows]. unfold slot_of. assert (get_window id ws' = (fun w => mkWindow (w_requester w) (e <$> w_slots w)) <$> get_window id (windows t)) as ->.
    { destruct (get_window id (windows t)) as [w|] eqn:E.
      - apply get_window_Some in E; [|done]. apply get_window_Some; [by rewrite Hk|]. apply list_elem_of_fmap. by exists (id, w).
      - apply get_window_elem. rewrite Hk. by apply get_window_elem. }
    destruct (get_window id (windows t)) as [w|]; [|done]. cbn. apply list_lookup_fmap.
Qed.

(** ** The handles *)

Definition staged (k : TransferTicket) (t : Transfers) : Prop :=
  exists s x, at_ticket k t = Some s /\ sl_generation s = tk_generation k /\ sl_transfer s = Some x /\ is_ready x = false.
(** The grant of a ticket holds these blocks. *)
Definition held (k : TransferTicket) (blocks : Pinned) (t : Transfers) : Prop :=
  exists s x, at_ticket k t = Some s /\ sl_generation s = tk_generation k /\ sl_transfer s = Some x /\ s_state x = Ready blocks.
(** The generation of the ticket is used up, or its window is gone. *)
Definition spent (ids : list Z) (k : TransferTicket) (t : Transfers) : Prop :=
  tk_window k ∈ ids /\ forall s, at_ticket k t = Some s -> tk_generation k <= sl_generation s.

Record world_ok (ids : list Z) (w : World) : Prop := {
  wo_acc : acc_ok (transfers w);
  wo_staging : NoDup (staging w) /\ forall k, k ∈ staging w <-> staged k (transfers w);
  wo_ids : forall i, i ∈ (windows (transfers w)).*1 -> i ∈ ids }.

Lemma at_moved k s s' t t' k' : acc_ok t -> acc_ok t' -> moved k s s' t' t ->
  at_ticket k' t' = if decide (tk_window k' = tk_window k /\ tk_slot k' = tk_slot k) then Some s' else at_ticket k' t.
Proof.
  intros Hok Hok' (Hat & _ & Hp). unfold at_ticket. rewrite (slot_of_perm _ _ _ _ (ac_keys _ Hok') Hp). unfold put. apply (put_slot_slot _ _ _ _ _ _ s); [apply ac_keys, Hok|done].
Qed.
Lemma at_same k t t' : acc_ok t' -> same t' t -> at_ticket k t' = at_ticket k t.
Proof. intros Hok (Hp & _ & _). unfold at_ticket. apply slot_of_perm; [apply ac_keys, Hok|done]. Qed.
Lemma keys_moved k s s' t t' : moved k s s' t' t -> forall i, i ∈ (windows t').*1 <-> i ∈ (windows t).*1.
Proof. intros (_ & _ & Hp) i. rewrite Hp. unfold put. by rewrite put_slot_keys. Qed.
Lemma keys_same t t' : same t' t -> forall i, i ∈ (windows t').*1 <-> i ∈ (windows t).*1.
Proof. intros (Hp & _) i. by rewrite Hp. Qed.
Lemma ticket_eq k k' : tk_window k' = tk_window k -> tk_slot k' = tk_slot k -> tk_generation k' = tk_generation k -> k' = k.
Proof. destruct k, k'. cbn. by intros -> -> ->. Qed.
Lemma step_generation a r s s' a' r' : slot_step a r s s' a' r' -> sl_generation s <= sl_generation s'.
Proof. intros []; cbn; lia. Qed.

(** Who is staged after a step. *)
Definition staging_slot (s : TransferSlot) (k : TransferTicket) : Prop := sl_generation s = tk_generation k /\ exists x, sl_transfer s = Some x /\ is_ready x = false.
Definition ready_slot (s : TransferSlot) (k : TransferTicket) (blocks : Pinned) : Prop := sl_generation s = tk_generation k /\ exists x, sl_transfer s = Some x /\ s_state x = Ready blocks.
Lemma staged_at k t : staged k t <-> exists s, at_ticket k t = Some s /\ staging_slot s k.
Proof. unfold staged, staging_slot. naive_solver. Qed.
Lemma held_at k bs t : held k bs t <-> exists s, at_ticket k t = Some s /\ ready_slot s k bs.
Proof. unfold held, ready_slot. naive_solver. Qed.

Section Step.
Context (k : TransferTicket) (s s' : TransferSlot) (t t' : Transfers) (Hok : acc_ok t) (Hok' : acc_ok t') (Hm : moved k s s' t' t).

Lemma other_staged k' : ~ (tk_window k' = tk_window k /\ tk_slot k' = tk_slot k) -> staged k' t' <-> staged k' t.
Proof. intros Hne. rewrite !staged_at, (at_moved _ _ _ _ _ k' Hok Hok' Hm). by rewrite decide_False. Qed.
Lemma own_staged k' : tk_window k' = tk_window k -> tk_slot k' = tk_slot k -> (staged k' t' <-> staging_slot s' k') /\ (staged k' t <-> staging_slot s k').
Proof.
  intros Hw Hs. pose proof Hm as (Hat & _). assert (at_ticket k' t = Some s) as Hat' by (unfold at_ticket in *; by rewrite Hw, Hs).
  rewrite !staged_at, (at_moved _ _ _ _ _ k' Hok Hok' Hm), decide_True, Hat' by done. split; (split; [intros (y & [= <-] & ?); done|by eexists]).
Qed.
(** The staged tickets after a step that leaves its slot's ticket as it was, starts it or ends it. *)
Lemma staged_kept : (forall k', staging_slot s' k' <-> staging_slot s k') -> forall k', staged k' t' <-> staged k' t.
Proof.
  intros Hss k'. destruct (decide (tk_window k' = tk_window k /\ tk_slot k' = tk_slot k)) as [[Hw Hs]|Hne]; [|by apply other_staged]. destruct (own_staged k' Hw Hs) as [-> ->]. apply Hss.
Qed.
Lemma staged_added : sl_transfer s = None -> staging_slot s' k -> forall k', staged k' t' <-> staged k' t \/ k' = k.
Proof.
  intros Hn [Hg Hx] k'. destruct (decide (tk_window k' = tk_window k /\ tk_slot k' = tk_slot k)) as [[Hw Hs]|Hne].
  - destruct (own_staged k' Hw Hs) as [-> ->]. split; [intros [Hg' _]; right; apply ticket_eq; [done|done|congruence]|]. intros [[_ (x & ? & _)]| ->]; [congruence|done].
  - rewrite other_staged by done. split; [by left|]. intros [?| ->]; [done|]. by destruct Hne.
Qed.
Lemma staged_removed : staging_slot s k -> (forall k', ~ staging_slot s' k') -> forall k', staged k' t' <-> staged k' t /\ k' <> k.
Proof.
  intros [Hg Hx] Hno k'. destruct (decide (tk_window k' = tk_window k /\ tk_slot k' = tk_slot k)) as [[Hw Hs]|Hne].
  - destruct (own_staged k' Hw Hs) as [-> ->]. split; [intros ?; by destruct (Hno k')|]. intros [[Hg' _] Hk]. destruct Hk. apply ticket_eq; [done|done|congruence].
  - rewrite other_staged by done. split; [intros ?; split; [done|]; intros ->; by destruct Hne|by intros [? _]].
Qed.
Lemma held_kept k' bs : held k' bs t -> (k' = k -> ready_slot s k bs -> ready_slot s' k bs) -> (forall x, sl_transfer s = Some x -> sl_generation s = tk_generation k) -> held k' bs t'.
Proof.
  intros Hh Hk Hg. apply held_at. apply held_at in Hh as (y & Hy & Hr). rewrite (at_moved _ _ _ _ _ k' Hok Hok' Hm). case_decide as Hd; [|by eexists]. destruct Hd as [Hw Hs]. pose proof Hm as (Hat & _).
  assert (y = s) as -> by (unfold at_ticket in *; rewrite Hw, Hs in Hy; congruence). destruct Hr as [Hg' (x & Hx & Hxr)]. assert (k' = k) as -> by (apply ticket_eq; [done|done|rewrite <- Hg'; by eapply Hg]).
  eexists. split; [done|]. apply Hk; [done|]. split; [done|]. by exists x.
Qed.
Lemma spent_kept ids k' : spent ids k' t -> spent ids k' t'.
Proof.
  intros [Hi Hs]. split; [done|]. intros y. rewrite (at_moved _ _ _ _ _ k' Hok Hok' Hm). case_decide as Hd; [|apply Hs]. intros [= <-]. destruct Hd as [Hw Hsl]. pose proof Hm as (Hat & Hst & _).
  assert (at_ticket k' t = Some s) as Hat' by (unfold at_ticket in *; by rewrite Hw, Hsl). specialize (Hs s Hat'). apply step_generation in Hst. lia.
Qed.
End Step.

(** ** Sequences of critical sections *)

Context (arc_ptr : PinnedAllocation -> Z) (timeout : Z).

Definition opened (op : Op) : option Z := match op with Open _ id => Some id | _ => None end.
Definition sizes_ok (blocks : Pinned) : Prop := Forall (fun p => Forall (fun a => 0 <= a.2) (pinned_allocations arc_ptr p.2)) blocks.
(** Byte counts are unsigned. *)
Definition good_op (op : Op) : Prop :=
  match op with Reserve _ _ bytes _ => 0 <= bytes | Commit _ blocks => sizes_ok blocks | _ => True end.

Lemma try_total_nonneg l : forall acc r, 0 <= acc -> Forall (fun x => 0 <= x) l -> foldl (fun sum size => s ← sum; checked_add s size) (Some acc) l = Some r -> 0 <= r.
Proof.
  induction l as [|x l IH]; intros acc r Ha Hl; cbn [foldl]; [by intros [= <-]|]. apply Forall_cons in Hl as [Hx Hl]. cbn. unfold checked_add. destruct (_ <=? _).
  - apply IH; [lia|done].
  - intros Hr. exfalso. clear -Hr. induction l as [|y l IH]; [done|]. auto.
Qed.
Lemma allocation_bytes_nonneg blocks n : sizes_ok blocks -> allocation_bytes arc_ptr blocks = Ok n -> 0 <= n.
Proof.
  intros Hs. unfold allocation_bytes. destruct (try_total _) as [r|] eqn:E; [|done]. intros [= <-]. apply (try_total_nonneg _ 0 r ltac:(done)) in E; [done|].
  apply Forall_fmap, Forall_forall. intros [a b] Hab. apply elem_of_map_to_list in Hab. apply elem_of_list_to_map_2 in Hab. rewrite elem_of_reverse in Hab. apply list_elem_of_bind in Hab as (p & Hp & Hin).
  unfold sizes_ok in Hs. rewrite Forall_forall in Hs. specialize (Hs p Hin). rewrite Forall_forall in Hs. by apply (Hs (a, b)).
Qed.

Lemma without_elem k l x : x ∈ without k l <-> x ∈ l /\ x <> k.
Proof. unfold without. rewrite list_elem_of_filter. tauto. Qed.

(** What a section keeps. *)
Record keeps (ids : list Z) (op : Op) (t' t : Transfers) : Prop := {
  kp_held : forall k bs, held k bs t -> op <> Release k -> op <> DropPrepared k -> held k bs t';
  kp_spent : forall k, spent ids k t -> spent ids k t' }.
Lemma keeps_same ids op t t' : acc_ok t' -> same t' t -> keeps ids op t' t.
Proof.
  intros Hok Hs. constructor.
  - intros k bs Hh _ _. apply held_at. apply held_at in Hh as (s & Ha & Hr). exists s. by rewrite (at_same _ _ _ Hok Hs).
  - intros k [Hi Hg]. split; [done|]. intros s. rewrite (at_same _ _ _ Hok Hs). apply Hg.
Qed.
Lemma staged_same t t' k : acc_ok t' -> same t' t -> staged k t' <-> staged k t.
Proof. intros Hok Hs. by rewrite !staged_at, (at_same _ _ _ Hok Hs). Qed.
Lemma close_staging s g : sl_transfer s = None -> forall k', staging_slot (mkSlot g None) k' <-> staging_slot s k'.
Proof. intros Hn k'. unfold staging_slot. cbn. rewrite Hn. naive_solver. Qed.

Definition safe_act (ids : list Z) (op : Op) (w : World) : Prop :=
  exists w', act arc_ptr budget timeout op w = Some w' /\ world_ok (option_list (opened op) ++ ids) w' /\ keeps ids op (transfers w') (transfers w).

(** A section that leaves the slots alone, or closes or marks one. *)
Lemma quiet_world ids w t' : world_ok ids w -> acc_ok t' -> (forall k, staged k t' <-> staged k (transfers w)) -> (forall i, i ∈ (windows t').*1 <-> i ∈ (windows (transfers w)).*1) ->
  forall p, world_ok ids (mkWorld t' (staging w) p).
Proof.
  intros [Hacc [Hnd Hst] Hids] Hok Hstg Hk p. constructor; cbn; [done|split; [done|]|].
  - intros k. by rewrite Hst, Hstg.
  - intros i Hi. by apply Hids, Hk.
Qed.
Lemma same_world ids w t' : world_ok ids w -> same t' (transfers w) -> forall p, world_ok ids (mkWorld t' (staging w) p).
Proof.
  intros Hw Hs p. assert (acc_ok t') as Hok by (eapply acc_same; [exact Hs|apply Hw]). apply quiet_world; [done|done|intros k; by apply staged_same|by apply keys_same].
Qed.
Lemma id_act ids op w w' : world_ok ids w -> act arc_ptr budget timeout op w = Some w' -> same (transfers w') (transfers w) -> staging w' = staging w -> opened op = None -> safe_act ids op w.
Proof.
  intros Hw Ha Hs Hst Ho. exists w'. split_and!; [done| |apply keeps_same; [eapply acc_same; [exact Hs|apply Hw]|done]]. rewrite Ho. cbn. destruct w' as [t' st' p']. cbn in Hst. subst st'. by apply same_world.
Qed.

Lemma stay ids op w : world_ok ids w -> opened op = None -> act arc_ptr budget timeout op w = Some w -> safe_act ids op w.
Proof. intros Hw Ho Ha. apply (id_act ids op w w); try done. Qed.

Lemma open_act ids r id w : world_ok ids w -> id ∉ ids -> safe_act ids (Open r id) w.
Proof.
  intros Hw Hid. pose proof Hw as [Hacc [Hnd Hst] Hids]. destruct (open_step r id (transfers w) Hacc ltac:(intros Hin; by apply Hid, Hids)) as [Hok Hkeys Hnew Hbusy].
  eexists. split; [done|]. cbn [opened option_list app transfers]. split.
  - constructor; cbn [transfers staging]; [done|split; [done|]|].
    + intros k. rewrite Hst, !staged_at. unfold at_ticket. split.
      * intros (s & Hs & Hsl). pose proof Hsl as [_ (x & Hx & _)]. exists s. split; [by eapply Hbusy|done].
      * intros (s & Hs & Hsl). destruct (Hnew _ _ _ Hs) as [?|[_ ->]]; [by exists s|]. destruct Hsl as [_ (x & Hx & _)]. done.
    + intros i Hi. apply Hkeys in Hi as [->|Hi]; [left|right; auto].
  - constructor.
    + intros k bs Hh _ _. apply held_at. apply held_at in Hh as (s & Hs & Hr). pose proof Hr as [_ (x & Hx & _)]. exists s. split; [by eapply Hbusy|done].
    + intros k [Hi Hg]. split; [done|]. intros s Hs. destruct (Hnew _ _ _ Hs) as [?|[He _]]; [by apply Hg|]. subst id. done.
Qed.
Lemma reserve_act ids now k bytes n w : world_ok ids w -> 0 <= bytes -> safe_act ids (Reserve now k bytes n) w.
Proof.
  intros Hw Hb. pose proof Hw as [Hacc [Hnd Hst] Hids]. destruct (reserve_step now k bytes n (transfers w) Hacc Hb) as (t' & res & He & Hres).
  unfold safe_act. cbn [act opened option_list app]. rewrite He. cbn [mbind option_bind fst snd]. eexists. split; [done|]. cbn [transfers]. destruct res as [u|e].
  - destruct Hres as (s & Hm & Hn & Hg). assert (acc_ok t') as Hok by (by eapply acc_moved). assert (staging_slot (mkSlot (tk_generation k) (Some (mkSession (Staging false) n now bytes false))) k) as Hss by (split; [done|by eexists]).
    pose proof (staged_added _ _ _ _ _ Hacc Hok Hm Hn Hss) as Hadd. split.
    + constructor; cbn [transfers staging]; [done| |intros i Hi; apply Hids; by apply (keys_moved _ _ _ _ _ Hm)].
      split; [|intros k'; rewrite elem_of_app, list_elem_of_singleton, Hadd, Hst; done]. apply NoDup_app. split_and!; [done| |apply NoDup_singleton]. intros x Hx ->%list_elem_of_singleton.
      apply Hst in Hx. pose proof Hm as (Hat & _). apply staged_at in Hx as (s' & Hs' & [_ (x & Hx & _)]). congruence.
    + constructor; [intros k' bs Hh _ _; eapply held_kept; [exact Hacc|exact Hok|exact Hm|done| |]; [intros _ [_ (x & Hx & _)]; congruence|congruence]|intros k'; by eapply spent_kept].
  - destruct Hres as [Hs|(s & Hm & Hn & Hg)]; [split; [by apply same_world|]; apply keeps_same; [by eapply acc_same|done]|].
    assert (acc_ok t') as Hok by (by eapply acc_moved). split; [apply quiet_world; [done|done| |by apply (keys_moved _ _ _ _ _ Hm)]|].
    + eapply staged_kept; [exact Hacc|exact Hok|exact Hm|]. by apply close_staging.
    + constructor; [intros k' bs Hh _ _; eapply held_kept; [exact Hacc|exact Hok|exact Hm|done| |]; [intros _ [_ (x & Hx & _)]; congruence|congruence]|intros k'; by eapply spent_kept].
Qed.
Lemma commit_act ids k blocks w : world_ok ids w -> sizes_ok blocks -> safe_act ids (Commit k blocks) w.
Proof.
  intros Hw Hb. pose proof Hw as [Hacc [Hnd Hst] Hids]. destruct (decide (k ∈ staging w)) as [Hk|Hk]; [|apply stay; [done|done|cbn [act]; by rewrite bool_decide_false]].
  destruct (allocation_bytes arc_ptr blocks) as [bytes|] eqn:Eb; [|apply stay; [done|done|cbn [act]; by rewrite bool_decide_true, Eb]]. unfold safe_act. cbn [act opened option_list app]. rewrite bool_decide_true, Eb by done.
  destruct (commit_step k blocks bytes (transfers w) Hacc ltac:(by eapply allocation_bytes_nonneg)) as (t' & res & He & Hres). rewrite He. cbn [mbind option_bind fst snd]. eexists. split; [done|].
  destruct res as [u|e]; cbn [transfers].
  2:{ split; [by apply same_world|]. apply keeps_same; [by eapply acc_same|done]. }
  destruct Hres as (s & x & Hat & Hg & Hx & Hsx & Hm). assert (acc_ok t') as Hok by (by eapply acc_moved). assert (staging_slot s k) as Hss by (split; [done|]; exists x; unfold is_ready; by rewrite Hsx).
  set (s' := mkSlot _ _) in Hm. assert (forall k', ~ staging_slot s' k') as Hno by (intros k' [_ (y & [= <-] & Hr)]; done). pose proof (staged_removed _ _ _ _ _ Hacc Hok Hm Hss Hno) as Hrem. split.
  - constructor; cbn [transfers staging]; [done| |intros i Hi; apply Hids; by apply (keys_moved _ _ _ _ _ Hm)]. split; [by apply NoDup_filter|]. intros k'. by rewrite without_elem, Hrem, Hst.
  - constructor; [intros k' bs Hh _ _; eapply held_kept; [exact Hacc|exact Hok|exact Hm|done| |]; [intros _ [_ (y & Hy & Hyr)]; congruence|by intros _ _]|intros k'; by eapply spent_kept].
Qed.

Lemma drop_staging_act ids k w : world_ok ids w -> safe_act ids (DropStaging k) w.
Proof.
  intros Hw. pose proof Hw as [Hacc [Hnd Hst] Hids]. destruct (decide (k ∈ staging w)) as [Hk|Hk]; [|apply stay; [done|done|cbn [act]; by rewrite bool_decide_false]].
  unfold safe_act. cbn [act opened option_list app]. rewrite bool_decide_true by done. destruct (rollback_step k false (transfers w) Hacc) as (t' & -> & Hres). cbn [mbind option_bind]. eexists. split; [done|]. cbn [transfers].
  apply Hst in Hk as (s0 & x0 & Hat0 & Hg0 & Hx0 & Hr0). destruct Hres as [[_ Hno]|(s & x & Hx & Hr & Hg & Hm)]; [by destruct (Hno s0 x0)|].
  assert (acc_ok t') as Hok by (by eapply acc_moved). assert (staging_slot s k) as Hss by (split; [done|by exists x]).
  assert (forall k', ~ staging_slot (mkSlot (sl_generation s) None) k') as Hno by (intros k' [_ (y & ? & _)]; done). pose proof (staged_removed _ _ _ _ _ Hacc Hok Hm Hss Hno) as Hrem. split.
  - constructor; cbn [transfers staging]; [done| |intros i Hi; apply Hids; by apply (keys_moved _ _ _ _ _ Hm)]. split; [by apply NoDup_filter|]. intros k'. by rewrite without_elem, Hrem, Hst.
  - constructor; [intros k' bs Hh _ _; eapply held_kept; [exact Hacc|exact Hok|exact Hm|done| |]; [intros _ [_ (y & Hy & Hyr)]; unfold is_ready in Hr; by replace y with x in Hyr by congruence; rewrite Hyr in Hr|by intros _ _]|intros k'; by eapply spent_kept].
Qed.
(** A ready session of the ticket goes: the other grants stay. *)
Lemma end_grant ids op k s x t t' : acc_ok t -> moved k s (mkSlot (sl_generation s) None) t' t -> sl_transfer s = Some x -> is_ready x = true -> sl_generation s = tk_generation k ->
  op = Release k \/ op = DropPrepared k -> acc_ok t' /\ (forall k', staged k' t' <-> staged k' t) /\ keeps ids op t' t.
Proof.
  intros Hacc Hm Hx Hr Hg Hop. assert (acc_ok t') as Hok by (by eapply acc_moved). split_and!; [done| |].
  - eapply staged_kept; [exact Hacc|exact Hok|exact Hm|]. intros k'. split; intros [_ (y & Hy & Hyr)]; [done|congruence].
  - constructor; [|intros k'; by eapply spent_kept]. intros k' bs Hh Hn1 Hn2. eapply held_kept; [exact Hacc|exact Hok|exact Hm|done|intros ->; by destruct Hop|by intros _ _].
Qed.
Lemma drop_prepared_act ids k w : world_ok ids w -> safe_act ids (DropPrepared k) w.
Proof.
  intros Hw. pose proof Hw as [Hacc _ _]. destruct (decide (k ∈ prepared w)) as [Hk|Hk]; [|apply stay; [done|done|cbn [act]; by rewrite bool_decide_false]].
  unfold safe_act. cbn [act opened option_list app]. rewrite bool_decide_true by done. destruct (rollback_step k true (transfers w) Hacc) as (t' & -> & Hres). cbn [mbind option_bind]. eexists. split; [done|]. cbn [transfers].
  destruct Hres as [[-> _]|(s & x & Hx & Hr & Hg & Hm)]; [split; [apply same_world; [done|split_and!; done]|apply keeps_same; [done|split_and!; done]]|].
  destruct (end_grant ids (DropPrepared k) k s x _ _ Hacc Hm Hx Hr Hg ltac:(by right)) as (Hok & Hstg & Hkeep). split; [|done]. apply quiet_world; [done|done|done|by apply (keys_moved _ _ _ _ _ Hm)].
Qed.
Lemma release_act ids k w : world_ok ids w -> safe_act ids (Release k) w.
Proof.
  intros Hw. pose proof Hw as [Hacc _ _]. unfold safe_act. cbn [act opened option_list app]. destruct (release_step k (transfers w) Hacc) as (t' & res & -> & Hres). cbn [mbind option_bind fst]. eexists. split; [done|]. cbn [transfers].
  destruct Hres as [Hs|(s & Hle & [[Hn Hm]|[Hg (x & Hx & [[Hr Hm]|[Hr Hm]])]])].
  - split; [by apply same_world|]. apply keeps_same; [by eapply acc_same|done].
  - assert (acc_ok t') as Hok by (by eapply acc_moved). split; [apply quiet_world; [done|done| |by apply (keys_moved _ _ _ _ _ Hm)]; eapply staged_kept; [exact Hacc|exact Hok|exact Hm|by apply close_staging]|].
    constructor; [intros k' bs Hh _ _; eapply held_kept; [exact Hacc|exact Hok|exact Hm|done| |]; [intros _ [_ (y & Hy & _)]; congruence|congruence]|intros k'; by eapply spent_kept].
  - assert (acc_ok t') as Hok by (by eapply acc_moved). split; [apply quiet_world; [done|done| |by apply (keys_moved _ _ _ _ _ Hm)]|].
    + eapply staged_kept; [exact Hacc|exact Hok|exact Hm|]. intros k'. split; intros [Hgk _]; (split; [done|]); [by exists x|by eexists].
    + constructor; [intros k' bs Hh _ _; eapply held_kept; [exact Hacc|exact Hok|exact Hm|done| |]; [intros _ [_ (y & Hy & Hyr)]; unfold is_ready in Hr; by replace y with x in Hyr by congruence; rewrite Hyr in Hr|by intros _ _]|intros k'; by eapply spent_kept].
  - destruct (end_grant ids (Release k) k s x _ _ Hacc Hm Hx Hr Hg ltac:(by left)) as (Hok & Hstg & Hkeep). split; [|done]. apply quiet_world; [done|done|done|by apply (keys_moved _ _ _ _ _ Hm)].
Qed.
Lemma expire_act ids now w : world_ok ids w -> safe_act ids (Expire now) w.
Proof.
  intros Hw. pose proof Hw as [Hacc _ _]. destruct (expire_step timeout now (transfers w) Hacc) as [Hok Hsl]. eexists. split; [done|]. cbn [opened option_list app transfers].
  assert (forall x, s_state (expire_session timeout now x) = s_state x) as Hx by (intros x; unfold expire_session; by destruct (overdue timeout now x)). split.
  - apply quiet_world; [done|done| |].
    + intros k. rewrite !staged_at. unfold at_ticket. rewrite Hsl. split.
      * intros (s & Hs & Hg & x & Hxs & Hr). apply fmap_Some in Hs as (s0 & -> & ->). exists s0. split; [done|]. split; [done|]. cbn in Hxs. apply fmap_Some in Hxs as (x0 & -> & ->). exists x0. split; [done|]. unfold is_ready in *. by rewrite Hx in Hr.
      * intros (s & -> & Hg & x & Hxs & Hr). eexists. split; [done|]. split; [done|]. cbn. rewrite Hxs. eexists. split; [done|]. unfold is_ready in *. by rewrite Hx.
    + intros i. unfold expire. cbn. by rewrite <- list_fmap_compose.
  - constructor.
    + intros k bs Hh _ _. apply held_at. apply held_at in Hh as (s & Hs & Hg & x & Hxs & Hr). unfold at_ticket in *. rewrite Hsl, Hs. eexists. split; [done|]. split; [done|]. cbn. rewrite Hxs. eexists. split; [done|]. by rewrite Hx.
    + intros k [Hi Hg]. split; [done|]. intros s. unfold at_ticket. rewrite Hsl. intros (s0 & Hs0 & ->)%fmap_Some. cbn. by apply Hg.
Qed.
Lemma publish_act ids k w : world_ok ids w -> safe_act ids (PublishGrant k) w.
Proof. intros Hw. eapply id_act; [done|done|split_and!; done|done|done]. Qed.

(** Locking resident blocks in one go holds them, or changes no account. *)
Lemma lock_blocks_held now k blocks t : acc_ok t -> sizes_ok blocks -> exists t' res, lock_blocks arc_ptr budget now k blocks t = Some (t', res) /\ acc_ok t' /\
  match res with Ok _ => held k blocks t' | Err _ => active t' = active t /\ reserved_bytes t' = reserved_bytes t end.
Proof.
  intros Hok Hs. unfold lock_blocks. destruct (allocation_bytes arc_ptr blocks) as [bytes|] eqn:Eb; [|by eexists _, _]. pose proof (allocation_bytes_nonneg _ _ Hs Eb) as Hb.
  destruct (reserve_step now k bytes (zlen blocks) t Hok Hb) as (t1 & res & -> & Hres). cbn [mbind option_bind fst snd]. destruct res as [u|e].
  2:{ eexists _, _. split; [done|]. destruct Hres as [Hsame|(s & Hm & Hn & Hg)]; [split; [by eapply acc_same|by destruct Hsame as (_ & ? & ?)]|]. split; [by eapply acc_moved|].
      destruct Hm as (_ & Hst & _). inversion Hst; subst; try congruence. done. }
  destruct Hres as (s & Hm & Hn & Hg). assert (acc_ok t1) as Hok1 by (by eapply acc_moved). destruct (commit_step k blocks bytes t1 Hok1 Hb) as (t2 & res & -> & Hres). cbn [mbind option_bind fst snd]. destruct res as [u'|e].
  - eexists _, _. split; [done|]. destruct Hres as (s1 & x & Hat & Hg1 & Hx & Hsx & Hm1). assert (acc_ok t2) as Hok2 by (by eapply acc_moved). split; [done|].
    apply held_at. rewrite (at_moved _ _ _ _ _ k Hok1 Hok2 Hm1), decide_True by done. eexists. split; [done|]. split; [done|]. by eexists.
  - assert (acc_ok t2) as Hok2 by (by eapply acc_same). destruct (rollback_step k false t2 Hok2) as (t3 & -> & Hr3). cbn [mbind option_bind]. eexists _, _. split; [done|].
    assert (at_ticket k t2 = Some (mkSlot (tk_generation k) (Some (mkSession (Staging false) (zlen blocks) now bytes false)))) as Hat2 by (rewrite (at_same _ _ _ Hok2 Hres), (at_moved _ _ _ _ _ k Hok Hok1 Hm), decide_True by done; done).
    destruct Hr3 as [[-> Hno]|(s3 & x3 & Hx3 & Hr3 & Hg3 & Hm3)]; [by destruct (Hno _ _ Hat2 eq_refl eq_refl)|]. split; [by eapply acc_moved|]. destruct Hm as (_ & Hst & _), Hm3 as (Hat3 & Hst3 & _), Hres as (_ & Ha & Hr).
    rewrite Hat2 in Hat3. injection Hat3 as <-. inversion Hst3; subst; try discriminate. inversion Hst; subst; try congruence. cbn in Hx3. simplify_eq/=. lia.
Qed.

Lemma act_ok ids op w : world_ok ids w -> good_op op -> (forall id, opened op = Some id -> id ∉ ids) -> safe_act ids op w.
Proof.
  intros Hw Hg Hf. destruct op; [apply open_act; [done|by apply Hf]|by apply reserve_act|by apply commit_act|by apply drop_staging_act|by apply publish_act|by apply drop_prepared_act|by apply release_act|by apply expire_act].
Qed.
Lemma spent_mono ids ids' k t : ids ⊆ ids' -> spent ids k t -> spent ids' k t.
Proof. intros Hs [Hi Hg]. split; [by apply Hs|done]. Qed.
Lemma acts_ok ops : forall ids w, world_ok ids w -> Forall good_op ops -> NoDup (omap opened ops) -> (forall id, id ∈ omap opened ops -> id ∉ ids) ->
  exists w' ids', acts arc_ptr budget timeout ops w = Some w' /\ world_ok ids' w' /\ ids' ≡ₚ omap opened ops ++ ids /\
    (forall k bs, held k bs (transfers w) -> Forall (fun op => op <> Release k /\ op <> DropPrepared k) ops -> held k bs (transfers w')) /\
    (forall k, spent ids k (transfers w) -> spent ids' k (transfers w')).
Proof.
  induction ops as [|op ops IH]; intros ids w Hw Hg Hnd Hfr; [exists w, ids; split_and!; done|]. apply Forall_cons in Hg as [Hg Hgs].
  assert (omap opened (op :: ops) = option_list (opened op) ++ omap opened ops) as Hom by (cbn; by destruct (opened op)). rewrite Hom in Hnd, Hfr |- *. apply NoDup_app in Hnd as (_ & Hdis & Hnd).
  destruct (act_ok ids op w Hw Hg) as (w1 & Hact & Hw1 & [K1 K2]); [intros id Ho; apply Hfr; rewrite Ho; left|]. cbn [acts]. rewrite Hact. cbn [mbind option_bind].
  destruct (IH (option_list (opened op) ++ ids) w1 Hw1 Hgs Hnd) as (w' & ids' & He & Hw' & Hids & H1 & H2).
  { intros id Hid. rewrite elem_of_app. intros [Hx|Hx]; [by apply (Hdis id)|]. apply (Hfr id); [apply elem_of_app; by right|done]. }
  exists w', ids'. split_and!; [done|done| | |].
  - rewrite Hids. rewrite !(assoc_L (++)). apply Permutation_app_tail, Permutation_app_comm.
  - intros k bs Hh Hops. apply Forall_cons in Hops as [[Hn1 Hn2] Hops]. apply H1; [by apply K1|done].
  - intros k Hs. apply H2. eapply spent_mono; [|by apply K2]. intros i Hi. apply elem_of_app. by right.
Qed.
Lemma world_new_ok : world_ok [] world_new.
Proof.
  constructor; cbn; [| |by intros i ?%elem_of_nil].
  - constructor; cbn; [apply NoDup_nil_2|done|done| |apply Forall_nil_2]. split; [done|apply Hbudget].
  - split; [apply NoDup_nil_2|]. intros k. split; [by intros ?%elem_of_nil|]. by intros (s & x & ? & _).
Qed.
End Slots.

(** The staged blocks are handed out in the order of the request: none is missing, extra or repeated. *)
Lemma arrange_spec records : forall materialized blocks, arrange records materialized = Some blocks -> blocks.*1 = key <$> records /\ blocks ≡ₚ materialized.
Proof.
  induction records as [|r records IH]; intros m blocks; cbn [arrange]; [case_bool_decide; [intros [= <-]; by subst|done]|].
  intros (i & Hi & Hr)%bind_Some. apply bind_Some in Hr as (b & Hb & Hr). apply bind_Some in Hr as (rest & Hrest & [= <-]). destruct (IH _ _ Hrest) as [Hk Hp].
  apply position_Some in Hi as (b' & Hb' & He%bool_decide_eq_true). assert (Some b' = Some b) as [= ->] by (etrans; [symmetry; exact Hb'|exact Hb]). destruct (swap_remove_spec i b m Hb) as (Ht & Hd & _).
  split; [rewrite !fmap_cons; by rewrite Hk, He|]. rewrite Hp. symmetry. transitivity (take i m ++ b :: drop i (swap_remove i m)); [etrans; [|apply Permutation_app_head, Hd]; by rewrite take_drop|].
  rewrite <- Ht, <- Permutation_middle. by rewrite take_drop.
Qed.

(** C13. Whatever the requesters, the staging tasks and the clock do, the export locks never panic and their accounts are exact: the
    active sessions and the reserved bytes are those of the slots, within their limits; and a reservation is staging
    exactly while one task owns its handle, so no budget leaks when a task fails or is dropped. *)
Theorem exports_exact arc_ptr budget timeout ops :
  is_u64 budget -> Forall (good_op arc_ptr) ops -> NoDup (omap opened ops) ->
  exists w, acts arc_ptr budget timeout ops world_new = Some w /\
    (active (transfers w) = total f_active (windows (transfers w)) /\ active (transfers w) <= MAX_TRANSFER_SESSIONS) /\
    (reserved_bytes (transfers w) = total f_bytes (windows (transfers w)) /\ reserved_bytes (transfers w) <= budget) /\
    zlen (windows (transfers w)) <= MAX_TRANSFER_WINDOWS /\
    NoDup (staging w) /\ forall k, k ∈ staging w <-> staged k (transfers w).
Proof.
  intros Hb Hg Hnd. destruct (acts_ok budget Hb arc_ptr timeout ops [] world_new (world_new_ok budget Hb) Hg Hnd) as (w & ids & He & [[H1 H2 H3 H4 H5] Hst _] & _); [by intros id _ ?%elem_of_nil|].
  exists w. done.
Qed.

(** C14. A grant keeps its memory: from the moment a ticket's blocks are committed they stay pinned, in whatever order the other
    sections run and however late the requester is, until that ticket is released or its own prepared grant is dropped.
    And a ticket is used at most once: when its slot has reached its generation, by admission or by an early
    completion, no later reservation with it succeeds, even after its window has been evicted. *)
Theorem exports_held arc_ptr budget timeout ops0 ops w k :
  is_u64 budget -> Forall (good_op arc_ptr) (ops0 ++ ops) -> NoDup (omap opened (ops0 ++ ops)) -> acts arc_ptr budget timeout ops0 world_new = Some w ->
  exists w', acts arc_ptr budget timeout ops w = Some w' /\
    (forall blocks, held k blocks (transfers w) -> Forall (fun op => op <> Release k /\ op <> DropPrepared k) ops -> held k blocks (transfers w')) /\
    ((exists s, at_ticket k (transfers w) = Some s /\ tk_generation k <= sl_generation s) ->
     forall now bytes n, 0 <= bytes -> exists t e, reserve budget now k bytes n (transfers w') = Some (t, Err e)).
Proof.
  intros Hb Hg Hnd H0. apply Forall_app in Hg as [Hg0 Hg]. rewrite omap_app in Hnd. apply NoDup_app in Hnd as (Hnd0 & Hdis & Hnd).
  destruct (acts_ok budget Hb arc_ptr timeout ops0 [] world_new (world_new_ok budget Hb) Hg0 Hnd0) as (w0 & ids & He & Hw & Hids & _); [by intros id _ ?%elem_of_nil|].
  rewrite H0 in He. injection He as <-. rewrite app_nil_r in Hids.
  destruct (acts_ok budget Hb arc_ptr timeout ops ids w Hw Hg Hnd) as (w' & ids' & He & Hw' & _ & Hheld & Hspent); [intros id Hid Hin; rewrite Hids in Hin; by apply (Hdis id)|].
  exists w'. split_and!; [done|by apply Hheld|]. intros (s & Hs & Hle) now bytes n Hbytes.
  assert (spent ids k (transfers w)) as Hsp.
  { split; [|intros s' Hs'; congruence]. apply (wo_ids _ _ _ Hw). unfold at_ticket, slot_of in Hs. apply bind_Some in Hs as (v & Hv & _). apply get_window_Some in Hv; [|apply (ac_keys _ _ (wo_acc _ _ _ Hw))].
    apply list_elem_of_fmap. by exists (tk_window k, v). }
  apply Hspent in Hsp as [_ Hsp]. destruct (reserve_step budget Hb now k bytes n (transfers w') (wo_acc _ _ _ Hw') Hbytes) as (t & res & Hr & Hres). destruct res as [u|e]; [|by exists t, e].
  destruct Hres as (s' & (Hat & _) & _ & Hlt). specialize (Hsp s' Hat). lia.
Qed.

(** ** A transfer *)

Definition sample_ticket : TransferTicket := mkTicket 7 3 1.
Definition sample_block : SealedBlock := mkSealed [single_segment (mkPinned 4096 512 (mkAllocation 0 1 4096 0 512))] 512 [0] false.
Definition sample_pinned : Pinned := [(mkStateKey (str "ns") (str "h"), sample_block)].
Definition sample_ops : list Op := [Open 1 7; Reserve 0 sample_ticket 4096 1; Commit sample_ticket sample_pinned; PublishGrant sample_ticket].

Lemma sample_good : Forall (good_op alloc_id) sample_ops.
Proof. repeat constructor; done. Qed.
Lemma exports_exact_witness : exists w, acts alloc_id 8192 60 sample_ops world_new = Some w /\ active (transfers w) = 1 /\ reserved_bytes (transfers w) = 512 /\
  reserved_bytes (transfers w) = total f_bytes (windows (transfers w)).
Proof.
  destruct (exports_exact alloc_id 8192 60 sample_ops) as (w & Hw & (Ha & _) & (Hr & _) & _); [done|apply sample_good|apply (bool_decide_unpack _); vm_compute; exact I|].
  assert ((fun w => (active (transfers w), reserved_bytes (transfers w))) <$> acts alloc_id 8192 60 sample_ops world_new = Some (1, 512)) as Hv by (vm_compute; reflexivity).
  rewrite Hw in Hv. injection Hv as H1 H2. exists w. done.
Defined.
Definition late_ops : list Op := [Expire 1000; Open 2 8; Reserve 5 sample_ticket 10 1].
Lemma exports_held_witness : exists w w', acts alloc_id 8192 60 sample_ops world_new = Some w /\ acts alloc_id 8192 60 late_ops w = Some w' /\ held sample_ticket sample_pinned (transfers w').
Proof.
  destruct (acts alloc_id 8192 60 sample_ops world_new) as [w|] eqn:E; [|exfalso; apply (f_equal (fun o => bool_decide (is_Some o))) in E; vm_compute in E; discriminate E].
  destruct (exports_held alloc_id 8192 60 sample_ops late_ops w sample_ticket) as (w' & Hw' & Hh & _); [done|apply Forall_app; split; [apply sample_good|repeat constructor; done]|apply (bool_decide_unpack _); vm_compute; exact I|done|].
  exists w, w'. split; [done|]. split; [done|]. apply Hh; [|repeat constructor; done].
  assert ((fun w => from_option (fun s => (sl_generation s, s_state <$> sl_transfer s)) (0, None) (at_ticket sample_ticket (transfers w))) <$> acts alloc_id 8192 60 sample_ops world_new = Some (1, Some (Ready sample_pinned))) as Hv by (vm_compute; reflexivity).
  rewrite E in Hv. apply (inj Some) in Hv. destruct (at_ticket sample_ticket (transfers w)) as [s|] eqn:Es; [|discriminate Hv]. cbn [from_option] in Hv. injection Hv as Hg Hx. destruct (sl_transfer s) as [x|] eqn:Ex; [|discriminate Hx].
  exists s, x. split_and!; [done|done|done|]. cbn in Hx. by injection Hx.
Defined.
