(* ===== verification/Arena.v ===== *)
(** * The descriptor arena

    orbitkv-channel/src/arena.rs: the memfd that the Manager and its engines map, a header and slots of equal
    size, each with a generation, a length and a payload.  The mapping is a byte memory; an operation is a
    program of accesses, an atomic word or a single byte at a time, so that the processes interleave between
    any two of them.  memfd, mmap and the mutex of the mapping inside one process are not modelled. *)
From S2P Require Import Prelude Words.

Local Open Scope Z_scope.
Local Open Scope rust_scope.

(** ** Shared memory *)

Definition mem : Type := Z -> byte.
Definition upd (a : Z) (b : byte) (m : mem) : mem := fun x => if x =? a then b else m x.
Fixpoint store (a : Z) (bs : bytes) (m : mem) : mem :=
  match bs with [] => m | b :: bs => upd a b (store (a + 1) bs m) end.
Fixpoint load (m : mem) (a : Z) (n : nat) : bytes :=
  match n with O => [] | S n => m a :: load m (a + 1) n end.

(** A program: reads and writes of the mapping, each of them one step. *)
Inductive prog (A : Type) :=
| Ret (a : A)
| Load (a : Z) (n : nat) (k : bytes -> prog A)
| Store (a : Z) (bs : bytes) (k : prog A).
Arguments Ret {A} a.
Arguments Load {A} a n k.
Arguments Store {A} a bs k.

Fixpoint bind {A B} (p : prog A) (f : A -> prog B) : prog B :=
  match p with
  | Ret a => f a
  | Load a n k => Load a n (fun bs => bind (k bs) f)
  | Store a bs k => Store a bs (bind k f)
  end.
Definition pstep {A} (p : prog A) (m : mem) : mem * prog A :=
  match p with
  | Ret a => (m, Ret a)
  | Load a n k => (m, k (load m a n))
  | Store a bs k => (store a bs m, k)
  end.
Fixpoint exec {A} (p : prog A) (m : mem) : mem * A :=
  match p with
  | Ret a => (m, a)
  | Load a n k => exec (k (load m a n)) m
  | Store a bs k => exec k (store a bs m)
  end.

(** [copy_from_slice] into the mapping and [to_vec] out of it, byte by byte. *)
Fixpoint copy_in {A} (a : Z) (bs : bytes) (k : prog A) : prog A :=
  match bs with [] => k | b :: bs => Store a [b] (copy_in (a + 1) bs k) end.
Fixpoint copy_out {A} (a : Z) (n : nat) (k : bytes -> prog A) : prog A :=
  match n with
  | O => k []
  | S n => Load a 1 (fun b => copy_out (a + 1) n (fun bs => k (b ++ bs)))
  end.

Definition read_u32 {A} (a : Z) (k : Z -> prog A) : prog A := copy_out a 4 (fun bs => k (of_le bs)).
Definition write_u32 {A} (a v : Z) (k : prog A) : prog A := copy_in a (u32_le v) k.
(** [AtomicU64] loads and stores. *)
Definition load_generation {A} (a : Z) (k : Z -> prog A) : prog A := Load a 8 (fun bs => k (of_le bs)).
Definition store_generation {A} (a v : Z) (k : prog A) : prog A := Store a (u64_le v) k.

(** ** Layout *)

Definition ARENA_MAGIC : Z := 0x4f524241.
Definition ARENA_VERSION : Z := 1.
Definition ARENA_HEADER_BYTES : Z := 4096.
Definition SLOT_HEADER_BYTES : Z := 16.

Inductive ArenaError :=
| TooSmall (arena_bytes slot_capacity : Z)
| FieldOverflow (field : string)
| InvalidMagic (magic : Z)
| UnsupportedVersion (version : Z)
| SessionMismatch (expected actual : Z)
| SlotOutOfRange (slot slot_count : Z)
| InvalidOffset (offset : Z)
| PayloadTooLarge (len capacity : Z)
| ZeroGeneration
| StaleGeneration (expected actual : Z)
| LengthMismatch (expected actual : Z)
| ConcurrentWrite (expected actual : Z).

Record DescriptorRef := mkDescriptor { offset : Z; len : Z; generation : Z }.
#[export] Instance DescriptorRef_eq_dec : EqDecision DescriptorRef.
Proof. solve_decision. Defined.

Record DescriptorArena := mkArena { arena_bytes : Z; session_epoch : Z; slot_capacity : Z; slot_stride : Z; slot_count : Z }.

(** [ArenaLayout::new]: the stride and the number of slots. *)
Definition layout_new (arena_bytes slot_capacity : Z) : result (Z * Z) ArenaError :=
  let? unaligned := ok_or (checked_add SLOT_HEADER_BYTES slot_capacity) (FieldOverflow "slot_stride"%string) in
  let? padded := ok_or (checked_add unaligned 7) (FieldOverflow "slot_stride"%string) in
  let stride := Z.ldiff padded 7 in
  let count := saturating_sub arena_bytes ARENA_HEADER_BYTES / stride in
  if (slot_capacity =? 0) || (count =? 0) then Err (TooSmall arena_bytes slot_capacity) else Ok (stride, count).

(** [DescriptorArena::create], on the zeroed file. *)
Definition create (epoch bytes_ capacity : Z) : result (DescriptorArena * mem) ArenaError :=
  if epoch =? 0 then Err ZeroGeneration
  else
    let? layout := layout_new bytes_ capacity in
    let m := store 16 (u64_le bytes_) (store 8 (u64_le epoch) (store 4 (u16_le ARENA_VERSION) (store 0 (u32_le ARENA_MAGIC) (fun _ => byte_of 0)))) in
    if u32_max <? capacity then Err (FieldOverflow "slot_capacity"%string)
    else
      let m := store 24 (u32_le capacity) m in
      if u32_max <? layout.2 then Err (FieldOverflow "slot_count"%string)
      else Ok (mkArena bytes_ epoch capacity layout.1 layout.2, store 28 (u32_le layout.2) m).

(** [DescriptorArena::open]; a mapping shorter than the header is a slice out of range. *)
Definition slice (n : Z) (m : mem) (a : Z) (width : nat) : option Z :=
  if a + Z.of_nat width <=? n then Some (of_le (load m a width)) else None.
Definition open (m : mem) (epoch bytes_ : Z) : option (result DescriptorArena ArenaError) :=
  magic ← slice bytes_ m 0 4;
  if negb (magic =? ARENA_MAGIC) then Some (Err (InvalidMagic magic)) else
  version ← slice bytes_ m 4 2;
  if negb (version =? ARENA_VERSION) then Some (Err (UnsupportedVersion version)) else
  actual ← slice bytes_ m 8 8;
  if negb (actual =? epoch) then Some (Err (SessionMismatch epoch actual)) else
  encoded ← slice bytes_ m 16 8;
  if negb (encoded =? bytes_) then Some (Err (LengthMismatch bytes_ encoded)) else
  capacity ← slice bytes_ m 24 4;
  match layout_new bytes_ capacity with
  | Err e => Some (Err e)
  | Ok (stride, count) =>
      slots ← slice bytes_ m 28 4;
      if negb (slots =? count) then Some (Err (LengthMismatch count slots)) else
      Some (Ok (mkArena bytes_ epoch capacity stride count))
  end.

(** ** Slots *)

Section Slots.
Context (a : DescriptorArena).

Definition payload_at (slot : nat) : Z := u64_add (u64_add ARENA_HEADER_BYTES (u64_mul (Z.of_nat slot) (slot_stride a))) SLOT_HEADER_BYTES.
Definition slot_offset (slot : nat) : result Z ArenaError :=
  if slot_count a <=? Z.of_nat slot then Err (SlotOutOfRange (Z.of_nat slot) (slot_count a)) else Ok (payload_at slot).
Definition descriptor_slot (offset : Z) : result nat ArenaError :=
  let? relative := ok_or (checked_sub offset (ARENA_HEADER_BYTES + SLOT_HEADER_BYTES)) (InvalidOffset offset) in
  if negb (is_multiple_of relative (slot_stride a)) then Err (InvalidOffset offset)
  else
    let slot := relative / slot_stride a in
    if slot_count a <=? slot then Err (InvalidOffset offset) else Ok (Z.to_nat slot).
Definition validate_offset (offset : Z) : result (Z * Z) ArenaError :=
  let? slot := descriptor_slot offset in
  Ok (u64_sub (payload_at slot) SLOT_HEADER_BYTES, payload_at slot).

Definition write_at (offset generation : Z) (payload : bytes) : prog (result DescriptorRef ArenaError) :=
  if generation =? 0 then Ret (Err ZeroGeneration)
  else if slot_capacity a <? zlen payload then Ret (Err (PayloadTooLarge (zlen payload) (slot_capacity a)))
  else
    match validate_offset offset with
    | Err e => Ret (Err e)
    | Ok (header, data) =>
        if u32_max <? zlen payload then Ret (Err (FieldOverflow "payload_len"%string))
        else store_generation header 0 (copy_in data payload (write_u32 (header + 8) (zlen payload)
               (store_generation header generation (Ret (Ok (mkDescriptor offset (zlen payload) generation))))))
    end.
Definition write_slot (slot : nat) (generation : Z) (payload : bytes) : prog (result DescriptorRef ArenaError) :=
  match slot_offset slot with Err e => Ret (Err e) | Ok offset => write_at offset generation payload end.
Definition write_response (request : DescriptorRef) (payload : bytes) : prog (result DescriptorRef ArenaError) :=
  match checked_add (generation request) 1 with
  | None => Ret (Err (FieldOverflow "generation"%string))
  | Some g => write_at (offset request) g payload
  end.

Definition reset_slot (slot : nat) (generation : Z) : prog (result unit ArenaError) :=
  match (let? offset := slot_offset slot in validate_offset offset) with
  | Err e => Ret (Err e)
  | Ok (header, _) => write_u32 (header + 8) 0 (store_generation header generation (Ret (Ok tt)))
  end.
Definition slot_generation (slot : nat) : prog (result Z ArenaError) :=
  match (let? offset := slot_offset slot in validate_offset offset) with
  | Err e => Ret (Err e)
  | Ok (header, _) => load_generation header (fun g => Ret (Ok g))
  end.

Definition read (d : DescriptorRef) : prog (result bytes ArenaError) :=
  match validate_offset (offset d) with
  | Err e => Ret (Err e)
  | Ok (header, data) =>
      load_generation header (fun actual =>
        if negb (actual =? generation d) then Ret (Err (StaleGeneration (generation d) actual))
        else read_u32 (header + 8) (fun n =>
          if negb (n =? len d) then Ret (Err (LengthMismatch (len d) n))
          else if slot_capacity a <? n then Ret (Err (PayloadTooLarge n (slot_capacity a)))
          else copy_out data (Z.to_nat n) (fun payload =>
            load_generation header (fun final =>
              if negb (final =? actual) then Ret (Err (ConcurrentWrite actual final)) else Ret (Ok payload)))))
  end.
End Slots.
