(* ===== verification/ArenaSpec.v ===== *)
(** * The descriptor arena: layout and programs

    Programs that stay inside a range of the mapping behave the same whatever happens outside it; slots are
    disjoint ranges; a read returns what was written with the generation it asks for. *)
From S2P Require Import Prelude Words Arena.

Local Open Scope Z_scope.
Local Open Scope rust_scope.

(** ** Memory *)

Definition agree (lo hi : Z) (m m' : mem) : Prop := forall x, lo <= x < hi -> m x = m' x.

Lemma agree_refl lo hi m : agree lo hi m m.
Proof. done. Qed.
Lemma agree_trans lo hi m1 m2 m3 : agree lo hi m1 m2 -> agree lo hi m2 m3 -> agree lo hi m1 m3.
Proof. intros H1 H2 x Hx. by rewrite H1, H2. Qed.
Lemma agree_sym lo hi m m' : agree lo hi m m' -> agree lo hi m' m.
Proof. intros H x Hx. by rewrite H. Qed.
Lemma agree_sub lo hi lo' hi' m m' : lo <= lo' -> hi' <= hi -> agree lo hi m m' -> agree lo' hi' m m'.
Proof. intros ? ? H x ?. apply H. lia. Qed.

Lemma upd_eq a b m : upd a b m a = b.
Proof. unfold upd. by rewrite Z.eqb_refl. Qed.
Lemma upd_ne a b m x : x <> a -> upd a b m x = m x.
Proof. unfold upd. by intros ->%Z.eqb_neq. Qed.
Lemma store_outside a bs m x : ~ (a <= x < a + zlen bs) -> store a bs m x = m x.
Proof.
  revert a. induction bs as [|b bs IH]; intros a; cbn [store]; [done|]. rewrite zlen_cons. intros H.
  pose proof (zlen_nonneg bs). rewrite upd_ne by lia. apply IH. lia.
Qed.
Lemma length_load m a n : length (load m a n) = n.
Proof. revert a. induction n; intros; cbn; auto. Qed.
Lemma load_agree lo hi m m' a n : agree lo hi m m' -> lo <= a -> a + Z.of_nat n <= hi -> load m a n = load m' a n.
Proof.
  intros H. revert a. induction n as [|n IH]; intros a Hlo Hhi; cbn [load]; [done|]. rewrite (H a) by lia. by rewrite IH by lia.
Qed.
Lemma load_store a bs m : load (store a bs m) a (length bs) = bs.
Proof.
  revert a m. induction bs as [|b bs IH]; intros a m; cbn [store load length]; [done|]. rewrite upd_eq. f_equal.
  etrans; [|exact (IH (a + 1) m)]. apply (load_agree (a + 1) (a + 1 + Z.of_nat (length bs))); [|lia..]. intros x Hx. apply upd_ne. lia.
Qed.
Lemma load_store_ne a bs m x n : x + Z.of_nat n <= a \/ a + zlen bs <= x -> load (store a bs m) x n = load m x n.
Proof. intros H. apply (load_agree x (x + Z.of_nat n)); [|lia..]. intros y Hy. apply store_outside. lia. Qed.
Lemma store_agree lo hi a bs m m' : agree lo hi m m' -> agree lo hi (store a bs m) (store a bs m').
Proof.
  intros H. revert a. induction bs as [|b bs IH]; intros a; cbn [store]; [done|]. intros x Hx. unfold upd. destruct (x =? a); [done|]. by apply IH.
Qed.

(** ** Programs *)

(** Every access lies in the range, and every value returned satisfies [Q]. *)
Fixpoint within {A} (lo hi : Z) (Q : A -> Prop) (p : prog A) : Prop :=
  match p with
  | Ret a => Q a
  | Load a n k => lo <= a /\ a + Z.of_nat n <= hi /\ forall bs, length bs = n -> within lo hi Q (k bs)
  | Store a bs k => lo <= a /\ a + zlen bs <= hi /\ within lo hi Q k
  end.

Lemma within_weaken {A} lo hi lo' hi' (Q Q' : A -> Prop) p : lo' <= lo -> hi <= hi' -> (forall a, Q a -> Q' a) -> within lo hi Q p -> within lo' hi' Q' p.
Proof.
  intros Hl Hh HQ. induction p as [a|a n k IH|a bs k IH]; cbn [within]; [apply HQ|intros (? & ? & H)|intros (? & ? & H)].
  - split_and!; [lia|lia|]. intros bs Hbs. by apply IH, H.
  - split_and!; [lia|lia|]. by apply IH.
Qed.
Lemma within_bind {A B} lo hi (Q : A -> Prop) (R : B -> Prop) p f : within lo hi Q p -> (forall a, Q a -> within lo hi R (f a)) -> within lo hi R (bind p f).
Proof.
  intros Hp Hf. induction p as [a|a n k IH|a bs k IH]; cbn [within bind] in *; [by apply Hf|destruct Hp as (? & ? & H)..].
  - split_and!; [done|done|]. intros bs Hbs. by apply IH, H.
  - split_and!; [done|done|]. by apply IH.
Qed.
Lemma within_copy_in {A} lo hi (Q : A -> Prop) a bs k : lo <= a -> a + zlen bs <= hi -> within lo hi Q k -> within lo hi Q (copy_in a bs k).
Proof.
  revert a. induction bs as [|b bs IH]; intros a Hlo Hhi Hk; cbn [copy_in within]; [done|]. rewrite zlen_cons in Hhi. pose proof (zlen_nonneg bs).
  change (zlen [b]) with 1. split_and!; [lia|lia|]. apply IH; [lia..|done].
Qed.
Lemma within_copy_out {A} lo hi (Q : A -> Prop) a n (k : bytes -> prog A) :
  lo <= a -> a + Z.of_nat n <= hi -> (forall bs, length bs = n -> within lo hi Q (k bs)) -> within lo hi Q (copy_out a n k).
Proof.
  revert a k. induction n as [|n IH]; intros a k Hlo Hhi Hk; cbn [copy_out within]; [by apply Hk|]. split_and!; [lia|lia|].
  intros b Hb. apply IH; [lia..|]. intros bs Hbs. apply Hk. rewrite length_app. lia.
Qed.

Lemma within_step {A} lo hi (Q : A -> Prop) p m : within lo hi Q p -> within lo hi Q (pstep p m).2.
Proof. destruct p; cbn; [done|intros (_ & _ & H)|by intros (_ & _ & H)]. apply H, length_load. Qed.
(** A program changes nothing outside its range, and what happens there does not change the program. *)
Lemma step_outside {A} lo hi (Q : A -> Prop) p m x : within lo hi Q p -> ~ (lo <= x < hi) -> (pstep p m).1 x = m x.
Proof. destruct p; cbn; [done..|]. intros (? & ? & _) ?. apply store_outside. lia. Qed.
Lemma exec_step {A} (p : prog A) m : exec (pstep p m).2 (pstep p m).1 = exec p m.
Proof. by destruct p. Qed.
Lemma exec_within {A} lo hi (Q : A -> Prop) p m : within lo hi Q p -> Q (exec p m).2.
Proof. revert m. induction p as [a|a n k IH|a bs k IH]; intros m; cbn; [done|intros (_ & _ & H)|intros (_ & _ & H)]; [apply IH, H, length_load|by apply IH]. Qed.
Lemma exec_agree {A} lo hi (Q : A -> Prop) p m m' :
  within lo hi Q p -> agree lo hi m m' -> (exec p m).2 = (exec p m').2 /\ agree lo hi (exec p m).1 (exec p m').1.
Proof.
  revert m m'. induction p as [a|a n k IH|a bs k IH]; intros m m'; cbn; [done|intros (? & ? & H) Hm..].
  - rewrite (load_agree lo hi m m') by done. apply IH; [apply H, length_load|done].
  - apply IH; [done|]. by apply store_agree.
Qed.
Lemma exec_bind {A B} (p : prog A) (f : A -> prog B) m : exec (bind p f) m = exec (f (exec p m).2) (exec p m).1.
Proof. revert m. induction p; intros m; cbn; auto. Qed.

Lemma exec_copy_out {A} a n (k : bytes -> prog A) m : exec (copy_out a n k) m = exec (k (load m a n)) m.
Proof. revert a k. induction n as [|n IH]; intros a k; cbn [copy_out exec load]; [done|]. by rewrite IH. Qed.
(** Byte-wise copying stores the slice: stated for a range that the continuation stays in. *)
Lemma exec_copy_in {A} lo hi (Q : A -> Prop) a bs (k : prog A) m :
  within lo hi Q k -> (exec (copy_in a bs k) m).2 = (exec k (store a bs m)).2 /\ agree lo hi (exec (copy_in a bs k) m).1 (exec k (store a bs m)).1.
Proof.
  intros Hk. assert (exists m', exec (copy_in a bs k) m = exec k m' /\ forall x, m' x = store a bs m x) as (m' & -> & Hm').
  { revert a m. induction bs as [|b bs IH]; intros a m; cbn [copy_in exec]; [by exists m|]. destruct (IH (a + 1) (store a [b] m)) as (m' & -> & Hm'). exists m'. split; [done|].
    intros x. rewrite Hm'. cbn [store]. unfold upd at 2. destruct (Z.eqb_spec x a) as [->|Hne].
    - rewrite store_outside by lia. apply upd_eq.
    - clear -Hne. destruct (decide (a + 1 <= x < a + 1 + zlen bs)) as [Hin|Hout]; [|rewrite !store_outside by done; by apply upd_ne].
      generalize (upd a b m). intros m2. revert Hin. generalize (a + 1). clear. induction bs as [|c bs IH]; intros y Hin; [rewrite zlen_nil in Hin; lia|]. rewrite zlen_cons in Hin. cbn [store]. unfold upd.
      destruct (Z.eqb_spec x y); [done|]. apply IH. lia. }
  apply (exec_agree lo hi Q); [done|]. intros x _. apply Hm'.
Qed.

(** ** Layout *)

Record arena_ok (a : DescriptorArena) : Prop := {
  ao_capacity : 0 < slot_capacity a <= u32_max;
  ao_stride : slot_capacity a + SLOT_HEADER_BYTES <= slot_stride a;
  ao_aligned : slot_stride a mod 8 = 0;
  ao_count : 0 < slot_count a;
  ao_fits : ARENA_HEADER_BYTES + slot_count a * slot_stride a <= arena_bytes a;
  ao_bytes : arena_bytes a <= u64_max;
}.
Lemma layout_new_ok n c stride count epoch :
  0 <= n <= u64_max -> 0 <= c <= u32_max -> layout_new n c = Ok (stride, count) -> arena_ok (mkArena n epoch c stride count).
Proof.
  intros Hn Hc. unfold layout_new, ok_or, checked_add, saturating_sub, ARENA_HEADER_BYTES, SLOT_HEADER_BYTES, u32_max in *. rewrite !(fun a b => proj2 (Z.leb_le a b)) by (unfold u64_max; lia).
  change 7 with (Z.ones 3). rewrite Z.ldiff_ones_r, Z.shiftr_div_pow2, Z.shiftl_mul_pow2 by lia. change (2 ^ 3) with 8.
  change (Z.ones 3) with 7. set (s := (16 + c + 7) / 8 * 8). assert (c + 16 <= s /\ s mod 8 = 0) as [Hs Ha].
  { split; [|apply Z.mod_mul; lia]. pose proof (Z.div_mod (16 + c + 7) 8 ltac:(lia)). pose proof (Z.mod_pos_bound (16 + c + 7) 8 ltac:(lia)). lia. }
  destruct ((c =? 0) || (Z.max (n - 4096) 0 / s =? 0)) eqn:E; [done|]. apply orb_false_iff in E as [Ec%Z.eqb_neq Es%Z.eqb_neq]. intros [= <- <-].
  pose proof (Z.div_pos (Z.max (n - 4096) 0) s ltac:(lia) ltac:(lia)). pose proof (Z.mul_div_le (Z.max (n - 4096) 0) s ltac:(lia)).
  destruct (decide (n <= 4096)); [replace (Z.max (n - 4096) 0) with 0 in Es by lia; by rewrite Z.div_0_l in Es by lia|].
  split; cbn; unfold ARENA_HEADER_BYTES, SLOT_HEADER_BYTES, u32_max; lia.
Qed.
Lemma create_ok epoch n c a m : is_u64 n -> 0 <= c -> create epoch n c = Ok (a, m) -> arena_ok a /\ Arena.session_epoch a = epoch.
Proof.
  intros Hn Hc. unfold create. destruct (epoch =? 0); [done|]. destruct (layout_new n c) as [[stride count]|e] eqn:El; [|done]. cbn [fst snd].
  destruct (Z.ltb_spec u32_max c); [done|]. destruct (u32_max <? count); [done|]. intros [= <- <-]. split; [|done]. by apply layout_new_ok.
Qed.

(** The engine opens the arena that the Manager created, whatever has happened in its slots. *)
Lemma open_create epoch n c a m m' : is_u64 epoch -> is_u64 n -> 0 <= c -> create epoch n c = Ok (a, m) -> agree 0 32 m m' -> open m' epoch n = Some (Ok a).
Proof.
  intros He Hn Hc Hcr Hm. pose proof (create_ok _ _ _ _ _ Hn Hc Hcr) as [[Hcap Hst _ Hcnt Hfit _] _]. revert Hcr. unfold create. destruct (epoch =? 0); [done|].
  destruct (layout_new n c) as [[stride count]|] eqn:El; [|done]. cbn [fst snd]. destruct (Z.ltb_spec u32_max c) as [|Hc']; [done|]. destruct (Z.ltb_spec u32_max count) as [|Hct]; [done|].
  intros [= <- <-]. cbn in Hcap, Hst, Hcnt, Hfit. unfold ARENA_HEADER_BYTES, SLOT_HEADER_BYTES in *.
  assert (4096 <= n) by nia. set (m0 := fun _ : Z => byte_of 0) in *.
  assert (forall x k, 0 <= x -> x + Z.of_nat k <= 32 -> load m' x k = load (store 28 (u32_le count) (store 24 (u32_le c) (store 16 (u64_le n) (store 8 (u64_le epoch) (store 4 (u16_le ARENA_VERSION) (store 0 (u32_le ARENA_MAGIC) m0)))))) x k) as Hl.
  { intros x k ? ?. symmetry. by apply (load_agree 0 32). }
  assert (forall w z, zlen (to_le w z) = Z.of_nat w) as Hz by (intros; unfold zlen; by rewrite length_to_le).
  unfold open, slice. rewrite !(fun a b => proj2 (Z.leb_le a b)) by lia. cbn [mbind option_bind].
  unfold u16_le, u32_le, u64_le in *. rewrite !Hl by lia.
  assert (forall w z x m, load (store x (to_le w z) m) x w = to_le w z) as Hs by (intros; rewrite <- (length_to_le w z) at 2; apply load_store).
  repeat (rewrite Hs || (rewrite load_store_ne by (rewrite Hz; lia))). rewrite !of_le_to_le; cycle 1.
  1-6: cbn; unfold is_u64, u64_max, u32_max, ARENA_VERSION, ARENA_MAGIC in *; lia.
  rewrite !Z.eqb_refl. cbn [negb mbind option_bind]. rewrite El. cbn [mbind option_bind]. by rewrite Z.eqb_refl.
Qed.

(** ** Slots *)

Section Slots.
Context (a : DescriptorArena) (Ha : arena_ok a).

Definition base (slot : nat) : Z := ARENA_HEADER_BYTES + Z.of_nat slot * slot_stride a.
Definition limit (slot : nat) : Z := base slot + slot_stride a.
Definition in_range (slot : nat) : Prop := Z.of_nat slot < slot_count a.

Lemma stride_pos : 16 < slot_stride a.
Proof. destruct Ha as [? ? _ _ _ _]. unfold SLOT_HEADER_BYTES in *. lia. Qed.
Lemma limit_fits slot : in_range slot -> ARENA_HEADER_BYTES <= base slot /\ limit slot <= arena_bytes a.
Proof. pose proof stride_pos. destruct Ha as [_ _ _ _ ? _]. unfold in_range, limit, base, ARENA_HEADER_BYTES in *. nia. Qed.
Lemma slots_disjoint s s' : s <> s' -> limit s <= base s' \/ limit s' <= base s.
Proof. intros. pose proof stride_pos. unfold limit, base. destruct (decide (s < s')%nat); [left|right]; nia. Qed.
Lemma payload_at_eq slot : in_range slot -> payload_at a slot = base slot + 16.
Proof.
  intros Hs. pose proof (limit_fits slot Hs). pose proof stride_pos. destruct Ha as [_ _ _ _ _ ?]. unfold limit, base, ARENA_HEADER_BYTES in *.
  unfold payload_at, u64_mul, u64_add, ARENA_HEADER_BYTES, SLOT_HEADER_BYTES. assert (0 <= Z.of_nat slot * slot_stride a) by nia.
  rewrite (wrap64_id (_ * _)) by (unfold is_u64; lia). rewrite (wrap64_id (4096 + _)) by (unfold is_u64; lia). apply wrap64_id. unfold is_u64; lia.
Qed.
Lemma slot_offset_eq slot : in_range slot -> slot_offset a slot = Ok (base slot + 16).
Proof. intros Hs. unfold slot_offset. rewrite (proj2 (Z.leb_gt _ _)) by done. by rewrite payload_at_eq. Qed.
(** [slot_offset] and [descriptor_slot] are inverse. *)
Lemma descriptor_slot_Ok off slot : 0 <= off -> descriptor_slot a off = Ok slot <-> slot_offset a slot = Ok off.
Proof.
  intros Hoff. pose proof stride_pos as Hst. unfold descriptor_slot, slot_offset, checked_sub, ok_or. change (ARENA_HEADER_BYTES + SLOT_HEADER_BYTES) with 4112. split.
  - destruct (Z.leb_spec 4112 off); [|done]. destruct (is_multiple_of (off - 4112) (slot_stride a)) eqn:Em; [|done]. cbn [negb].
    apply is_multiple_of_spec in Em as [q Hq]; [|lia]. rewrite Hq, Z.div_mul by lia. destruct (Z.leb_spec (slot_count a) q); [done|]. intros [= <-].
    assert (0 <= q) by nia. rewrite Z2Nat.id by done. rewrite (proj2 (Z.leb_gt _ _)) by done. f_equal. rewrite payload_at_eq by (unfold in_range; lia). unfold base, ARENA_HEADER_BYTES. lia.
  - destruct (Z.leb_spec (slot_count a) (Z.of_nat slot)); [done|]. rewrite payload_at_eq by done. unfold base, ARENA_HEADER_BYTES. intros [= <-].
    rewrite (proj2 (Z.leb_le _ _)) by nia. replace (4096 + Z.of_nat slot * slot_stride a + 16 - 4112) with (Z.of_nat slot * slot_stride a) by lia.
    rewrite (proj2 (is_multiple_of_spec (Z.of_nat slot * slot_stride a) (slot_stride a) ltac:(lia))) by (by exists (Z.of_nat slot)). cbn [negb]. rewrite Z.div_mul by lia. rewrite (proj2 (Z.leb_gt _ _)) by done. by rewrite Nat2Z.id.
Qed.
Lemma validate_offset_eq slot : in_range slot -> validate_offset a (base slot + 16) = Ok (base slot, base slot + 16).
Proof.
  intros Hs. pose proof (limit_fits slot Hs). pose proof stride_pos. unfold validate_offset. unfold ARENA_HEADER_BYTES in *. rewrite (proj2 (descriptor_slot_Ok (base slot + 16) slot ltac:(lia)) (slot_offset_eq slot Hs)).
  rewrite payload_at_eq by done. do 2 f_equal. unfold u64_sub, SLOT_HEADER_BYTES. rewrite wrap64_id; [lia|]. destruct Ha as [_ _ _ _ _ ?]. unfold is_u64, limit in *. lia.
Qed.
Lemma validate_offset_Ok off h d : 0 <= off -> validate_offset a off = Ok (h, d) -> exists slot, in_range slot /\ off = base slot + 16 /\ h = base slot /\ d = off.
Proof.
  intros Hoff Hv. unfold validate_offset in Hv. destruct (descriptor_slot a off) as [slot|] eqn:E; [|done]. apply descriptor_slot_Ok in E; [|done]. exists slot.
  assert (in_range slot) as Hs. { unfold slot_offset in E. destruct (Z.leb_spec (slot_count a) (Z.of_nat slot)); [done|]. done. }
  rewrite slot_offset_eq in E by done. injection E as <-. pose proof (validate_offset_eq slot Hs) as Hv'. unfold validate_offset in Hv'. rewrite (proj2 (descriptor_slot_Ok (base slot + 16) slot Hoff) (slot_offset_eq slot Hs)) in Hv'.
  rewrite Hv' in Hv. by injection Hv as <- <-.
Qed.

(** What a slot holds: the payload of the descriptor, complete and with its generation. *)
Definition holds (m : mem) (slot : nat) (d : DescriptorRef) (payload : bytes) : Prop :=
  of_le (load m (base slot) 8) = generation d /\ of_le (load m (base slot + 8) 4) = len d /\ load m (base slot + 16) (Z.to_nat (len d)) = payload /\
  len d = zlen payload /\ offset d = base slot + 16 /\ len d <= slot_capacity a /\ is_u64 (generation d).
Lemma holds_agree m m' slot d payload : agree (base slot) (limit slot) m m' -> holds m slot d payload -> holds m' slot d payload.
Proof.
  intros Hm (H1 & H2 & H3 & H4 & H5 & H6 & H7). pose proof stride_pos. destruct Ha as [_ ? _ _ _ _]. pose proof (zlen_nonneg payload). unfold limit, SLOT_HEADER_BYTES in *.
  split_and!; try done; rewrite <- (load_agree (base slot) (base slot + slot_stride a) m m') by (done || lia); done.
Qed.

Lemma write_at_within slot g payload : in_range slot -> within (base slot) (limit slot) (fun _ => True) (write_at a (base slot + 16) g payload).
Proof.
  intros Hs. pose proof stride_pos. unfold write_at. destruct (g =? 0); [done|]. destruct (Z.ltb_spec (slot_capacity a) (zlen payload)); [done|]. rewrite validate_offset_eq by done.
  destruct (u32_max <? zlen payload); [done|]. unfold store_generation, write_u32, limit. destruct Ha as [_ ? _ _ _ _]. unfold SLOT_HEADER_BYTES in *. cbn [within].
  change (zlen (u64_le 0)) with 8. split_and!; [lia|lia|]. apply within_copy_in; [lia|lia|]. apply within_copy_in; [lia|change (zlen (u32_le (zlen payload))) with 4; lia|]. cbn. change (zlen (u64_le g)) with 8. split_and!; [lia|lia|done].
Qed.
Lemma write_at_exec slot g payload m :
  in_range slot -> is_u64 g ->
  match (exec (write_at a (base slot + 16) g payload) m).2 with
  | Ok d => d = mkDescriptor (base slot + 16) (zlen payload) g /\ holds (exec (write_at a (base slot + 16) g payload) m).1 slot d payload
  | Err e => write_at a (base slot + 16) g payload = Ret (Err e)
  end.
Proof.
  intros Hs Hg. pose proof stride_pos. pose proof (zlen_nonneg payload). unfold write_at. destruct (g =? 0); [done|]. destruct (Z.ltb_spec (slot_capacity a) (zlen payload)) as [|Hcap]; [done|]. rewrite validate_offset_eq by done.
  destruct (Z.ltb_spec u32_max (zlen payload)) as [|Hlen]; [done|]. unfold store_generation, write_u32. cbn [exec].
  set (d := mkDescriptor _ _ _). set (fin := Store (base slot) (u64_le g) (Ret (Ok d : result DescriptorRef ArenaError))). set (mid := copy_in (base slot + 8) (u32_le (zlen payload)) fin).
  assert (within (base slot) (limit slot) (fun _ => True) fin) as Hfin by (unfold fin, limit; cbn; change (zlen (u64_le g)) with 8; lia).
  assert (within (base slot) (limit slot) (fun _ => True) mid) as Hmid by (apply within_copy_in; [lia|unfold limit; change (zlen (u32_le (zlen payload))) with 4; lia|done]).
  set (m1 := store _ _ m). destruct (exec_copy_in _ _ _ (base slot + 16) payload mid m1 Hmid) as [-> Ha1]. destruct (exec_copy_in _ _ _ (base slot + 8) (u32_le (zlen payload)) fin (store (base slot + 16) payload m1) Hfin) as [Hr Ha2].
  fold mid in Hr, Ha2. rewrite Hr. unfold fin in Ha2 |- *. cbn [exec fst snd] in Ha2 |- *. split; [done|]. apply (holds_agree (store (base slot) (u64_le g) (store (base slot + 8) (u32_le (zlen payload)) (store (base slot + 16) payload m1)))).
  { apply agree_sym. eapply agree_trans; [exact Ha1|exact Ha2]. }
  unfold holds. cbn [generation len offset d]. change (load ?m (base slot) 8) with (load m (base slot) (length (u64_le g))). rewrite load_store. unfold u64_le. rewrite of_le_to_le by (by apply u64_width).
  rewrite load_store_ne by (right; change (zlen (to_le 8 g)) with 8; lia). change (load ?m (base slot + 8) 4) with (load m (base slot + 8) (length (u32_le (zlen payload)))). rewrite load_store. unfold u32_le. rewrite of_le_to_le by (apply u32_width; unfold is_u32; lia).
  rewrite !load_store_ne by (right; change (zlen (to_le 8 g)) with 8; change (zlen (to_le 4 (zlen payload))) with 4; lia). replace (Z.to_nat (zlen payload)) with (length payload) by (unfold zlen; lia). rewrite load_store. done.
Qed.

Lemma read_within d Q :
  0 <= offset d -> (forall e, Q (Err e)) -> (forall bs, Q (Ok bs)) ->
  match validate_offset a (offset d) with Ok (h, _) => within h (h + slot_stride a) Q (read a d) | Err _ => True end.
Proof.
  intros Hoff He Hq. unfold read. destruct (validate_offset a (offset d)) as [[h p]|] eqn:Ev; [|done]. apply validate_offset_Ok in Ev as (slot & Hs & Ho & -> & ->); [|done]. pose proof stride_pos. destruct Ha as [_ ? _ _ _ _]. unfold SLOT_HEADER_BYTES in *.
  unfold load_generation, read_u32. cbn [within]. split_and!; [lia|lia|]. intros bs _. destruct (negb _); [apply He|]. apply within_copy_out; [lia|lia|]. intros bn Hbn. destruct (negb _); [apply He|].
  destruct (Z.ltb_spec (slot_capacity a) (of_le bn)); [apply He|]. apply within_copy_out; [lia|pose proof (of_le_range bn); lia|]. intros pl _. cbn [within]. split_and!; [lia|lia|]. intros bf _. destruct (negb _); [apply He|apply Hq].
Qed.
(** A read that finds what its descriptor names returns it. *)
Lemma read_exec m slot d payload : in_range slot -> holds m slot d payload -> exec (read a d) m = (m, Ok payload).
Proof.
  intros Hs (H1 & H2 & H3 & H4 & H5 & H6 & H7). unfold read. rewrite H5, validate_offset_eq by done. unfold load_generation, read_u32. cbn [exec]. rewrite H1, Z.eqb_refl. cbn [negb].
  rewrite exec_copy_out, H2, Z.eqb_refl. cbn [negb]. rewrite (proj2 (Z.ltb_ge _ _)) by done. rewrite exec_copy_out. cbn [exec]. by rewrite H1, Z.eqb_refl, H3.
Qed.
End Slots.
