(* ===== verification/Frames.v ===== *)
(** * The frames of the channel

    The fixed-size messages between an engine and its Manager: commands and responses (orbitkv-channel/src/protocol.rs),
    the bootstrap record (bootstrap.rs) and the header of lifecycle messages (lifecycle.rs), with their round trips. *)
From S2P Require Import Prelude Words Wire Arena.

Local Open Scope Z_scope.
Local Open Scope rust_scope.

(** ** Commands and responses *)

Definition ABI_VERSION : Z := 12.
Definition RESPONSE_FLAG_REQUEST_CONSUMED : Z := 1.
Definition MAGIC : Z := 0x4f524254.
Definition WireMessage : Type := Z * Z * Z * Z * Z * Z * Z * Z.

Inductive ProtocolError := BadMagic (magic : Z) | BadVersion (version : Z) | UnknownCode (code : Z) | LengthOverflow (len : Z).

Inductive CommandCode :=
| Ping | QueryBundle | Restore | Publish | Release | Shutdown | CancelQuery | ObserveCompletion | QueryShards | CancelShardQuery | ReleaseShardQuery.
#[export] Instance CommandCode_eq_dec : EqDecision CommandCode.
Proof. solve_decision. Defined.
Definition command_code (c : CommandCode) : Z :=
  match c with
  | Ping => 1 | QueryBundle => 2 | Restore => 3 | Publish => 4 | Release => 5 | Shutdown => 6 | CancelQuery => 7 | ObserveCompletion => 8
  | QueryShards => 9 | CancelShardQuery => 10 | ReleaseShardQuery => 11
  end.
Definition command_try_from (value : Z) : result CommandCode ProtocolError :=
  match value with
  | 1 => Ok Ping | 2 => Ok QueryBundle | 3 => Ok Restore | 4 => Ok Publish | 5 => Ok Release | 6 => Ok Shutdown | 7 => Ok CancelQuery
  | 8 => Ok ObserveCompletion | 9 => Ok QueryShards | 10 => Ok CancelShardQuery | 11 => Ok ReleaseShardQuery
  | _ => Err (UnknownCode value)
  end.

Inductive StatusCode := StOk | Loading | Miss | Invalid | StaleSession | StaleGen | Internal.
#[export] Instance StatusCode_eq_dec : EqDecision StatusCode.
Proof. solve_decision. Defined.
Definition status_code (s : StatusCode) : Z :=
  match s with StOk => 0 | Loading => 1 | Miss => 2 | Invalid => 3 | StaleSession => 4 | StaleGen => 5 | Internal => 6 end.
Definition status_try_from (value : Z) : result StatusCode ProtocolError :=
  match value with
  | 0 => Ok StOk | 1 => Ok Loading | 2 => Ok Miss | 3 => Ok Invalid | 4 => Ok StaleSession | 5 => Ok StaleGen | 6 => Ok Internal
  | _ => Err (UnknownCode value)
  end.

Record Command := mkCommand { code : CommandCode; request_id : Z; epoch : Z; descriptor : DescriptorRef; arg0 : Z; arg1 : Z }.
Record Response := mkResponse { status : StatusCode; rsp_request : Z; rsp_epoch : Z; rsp_descriptor : DescriptorRef; value0 : Z; value1 : Z }.

Definition encode_header (code : Z) : Z := Z.lor (Z.lor (Z.shiftl MAGIC 32) (Z.shiftl ABI_VERSION 16)) code.
Definition decode_header (header : Z) : result Z ProtocolError :=
  let magic := wrap32 (Z.shiftr header 32) in
  if negb (magic =? MAGIC) then Err (BadMagic magic)
  else
    let version := Z.land (Z.shiftr header 16) 0xffff in
    if negb (version =? ABI_VERSION) then Err (BadVersion version) else Ok (Z.land header 0xffff).

Definition encode_command (c : Command) : WireMessage :=
  (encode_header (command_code (code c)), request_id c, epoch c, offset (descriptor c), len (descriptor c), generation (descriptor c), arg0 c, arg1 c).
Definition decode_command (m : WireMessage) : result Command ProtocolError :=
  let '(w0, w1, w2, w3, w4, w5, w6, w7) := m in
  let? h := decode_header w0 in
  let? c := command_try_from h in
  if u32_max <? w4 then Err (LengthOverflow w4) else Ok (mkCommand c w1 w2 (mkDescriptor w3 w4 w5) w6 w7).
Definition encode_response (r : Response) : WireMessage :=
  (encode_header (status_code (status r)), rsp_request r, rsp_epoch r, offset (rsp_descriptor r), len (rsp_descriptor r), generation (rsp_descriptor r), value0 r, value1 r).
Definition decode_response (m : WireMessage) : result Response ProtocolError :=
  let '(w0, w1, w2, w3, w4, w5, w6, w7) := m in
  let? h := decode_header w0 in
  let? s := status_try_from h in
  if u32_max <? w4 then Err (LengthOverflow w4) else Ok (mkResponse s w1 w2 (mkDescriptor w3 w4 w5) w6 w7).

(** ** The bootstrap record *)

Definition BOOTSTRAP_MAGIC : Z := 0x4f524242.
Definition BOOTSTRAP_VERSION : Z := 7.
Definition BOOTSTRAP_BYTES : Z := 256.
Definition SERVICE_NAME_OFFSET : Z := 64.

Record BootstrapInfo := mkInfo {
  service_name : bytes; info_epoch : Z; info_bytes : Z; info_capacity : Z; info_count : Z; info_slot : nat;
  initial_generation : Z; client_token : Z
}.

Inductive BootstrapError :=
| ArenaErr (e : ArenaError)
| BootstrapMagic (magic : Z)
| BootstrapVersion (version : Z)
| BootstrapField (field : string)
| ServiceNameTooLong (len : Z)
| InvalidServiceNameUtf8
| NoFreeSlots (n : Z)
| GenerationExhausted (slot : nat)
| ClientTokenExhausted
| SlotMismatch (expected actual : nat)
| ClientTokenMismatch
| UnexpectedGeneration (expected actual : Z).

Definition zeros (n : Z) : bytes := replicate (Z.to_nat n) (byte_of 0).
Definition encode_info (i : BootstrapInfo) : result bytes BootstrapError :=
  let n := zlen (service_name i) in
  if BOOTSTRAP_BYTES - SERVICE_NAME_OFFSET <? n then Err (ServiceNameTooLong n)
  else if u32_max <? info_capacity i then Err (BootstrapField "slot_capacity"%string)
  else if u32_max <? info_count i then Err (BootstrapField "slot_count"%string)
  else if u32_max <? Z.of_nat (info_slot i) then Err (BootstrapField "slot_index"%string)
  else Ok (u32_le BOOTSTRAP_MAGIC ++ u16_le BOOTSTRAP_VERSION ++ zeros 2 ++ u64_le (info_epoch i) ++ u64_le (info_bytes i) ++ u32_le (info_capacity i) ++
           u32_le (info_count i) ++ u32_le (Z.of_nat (info_slot i)) ++ u16_le n ++ zeros 2 ++ u64_le (initial_generation i) ++ u64_le (client_token i) ++ zeros 8 ++
           service_name i ++ zeros (BOOTSTRAP_BYTES - SERVICE_NAME_OFFSET - n)).

(** [bytes[at..at + n]]. *)
Definition field (b : bytes) (at_ n : nat) : bytes := take n (drop at_ b).
Definition decode_info (b : bytes) : result BootstrapInfo BootstrapError :=
  let word at_ n := of_le (field b at_ n) in
  if negb (word 0%nat 4%nat =? BOOTSTRAP_MAGIC) then Err (BootstrapMagic (word 0%nat 4%nat))
  else if negb (word 4%nat 2%nat =? BOOTSTRAP_VERSION) then Err (BootstrapVersion (word 4%nat 2%nat))
  else
    let n := word 36%nat 2%nat in
    if BOOTSTRAP_BYTES - SERVICE_NAME_OFFSET <? n then Err (ServiceNameTooLong n)
    else
      let name := field b 64 (Z.to_nat n) in
      if negb (utf8_valid name) then Err InvalidServiceNameUtf8
      else Ok (mkInfo name (word 8%nat 8%nat) (word 16%nat 8%nat) (word 24%nat 4%nat) (word 28%nat 4%nat) (Z.to_nat (word 32%nat 4%nat)) (word 40%nat 8%nat) (word 48%nat 8%nat)).

(** ** The lifecycle header *)

Definition MAX_LIFECYCLE_PAYLOAD : Z := 64 * 1024 * 1024.
Definition LIFECYCLE_MAGIC : Z := 0x4f52424c.
Definition LIFECYCLE_VERSION : Z := 9.
Record LifecycleHeader := mkHeader { lh_code : Z; lh_epoch : Z; payload_len : Z }.
Inductive LifecycleError := MetadataExceedsLimit | IncompatibleLifecycle.
Definition encode_lifecycle (h : LifecycleHeader) : result bytes LifecycleError :=
  if MAX_LIFECYCLE_PAYLOAD <? payload_len h then Err MetadataExceedsLimit
  else Ok (u32_le LIFECYCLE_MAGIC ++ u16_le LIFECYCLE_VERSION ++ u16_le (lh_code h) ++ u64_le (lh_epoch h) ++ u32_le (payload_len h)).
Definition decode_lifecycle (b : bytes) : result LifecycleHeader LifecycleError :=
  if negb (bool_decide (field b 0 4 = u32_le LIFECYCLE_MAGIC)) || negb (bool_decide (field b 4 2 = u16_le LIFECYCLE_VERSION)) then Err IncompatibleLifecycle
  else
    let h := mkHeader (of_le (field b 6 2)) (of_le (field b 8 8)) (of_le (field b 16 4)) in
    if MAX_LIFECYCLE_PAYLOAD <? payload_len h then Err MetadataExceedsLimit else Ok h.

(** ** Round trips *)

Definition descriptor_wf (d : DescriptorRef) : Prop := is_u64 (offset d) /\ is_u32 (len d) /\ is_u64 (generation d).
Definition command_wf (c : Command) : Prop := is_u64 (request_id c) /\ is_u64 (epoch c) /\ descriptor_wf (descriptor c) /\ is_u64 (arg0 c) /\ is_u64 (arg1 c).
Definition response_wf (r : Response) : Prop := is_u64 (rsp_request r) /\ is_u64 (rsp_epoch r) /\ descriptor_wf (rsp_descriptor r) /\ is_u64 (value0 r) /\ is_u64 (value1 r).
Definition message_wf (m : WireMessage) : Prop :=
  let '(w0, w1, w2, w3, w4, w5, w6, w7) := m in Forall is_u64 [w0; w1; w2; w3; w4; w5; w6; w7].

Lemma header_canonical h c : is_u64 h -> decode_header h = Ok c -> h = encode_header c /\ 0 <= c < 65536.
Proof.
  unfold decode_header, wrap32, u32_modulus, is_u64, u64_max. intros Hh. change 0xffff with (Z.ones 16). rewrite !Z.land_ones, !Z.shiftr_div_pow2 by lia. change (2 ^ 32) with 4294967296. change (2 ^ 16) with 65536.
  destruct (Z.eqb_spec (h / 4294967296 mod 4294967296) MAGIC) as [Hm|]; [|done]. destruct (Z.eqb_spec (h / 65536 mod 65536) ABI_VERSION) as [Hv|]; [|done]. cbn [negb]. intros [= <-].
  pose proof (Z.mod_pos_bound h 65536 ltac:(lia)) as Hr. split; [|done]. unfold encode_header. rewrite Z.mod_small in Hm by (split; [apply Z.div_pos; lia|apply Z.div_lt_upper_bound; lia]).
  change (Z.lor (Z.shiftl MAGIC 32) (Z.shiftl ABI_VERSION 16)) with (Z.shiftl (MAGIC * 65536 + ABI_VERSION) 16). pose proof (Z.add_lor_land (Z.shiftl (MAGIC * 65536 + ABI_VERSION) 16) (h mod 65536)) as Hadd.
  assert (Z.land (Z.shiftl (MAGIC * 65536 + ABI_VERSION) 16) (h mod 65536) = 0) as Hl.
  { change 65536 with (2 ^ 16). rewrite <- Z.land_ones by lia. rewrite (Z.land_comm h), Z.land_assoc. change (Z.land (Z.shiftl (MAGIC * 2 ^ 16 + ABI_VERSION) 16) (Z.ones 16)) with 0. by rewrite Z.land_0_l. }
  rewrite Hl in Hadd. rewrite Z.shiftl_mul_pow2 in Hadd |- * by lia. change (2 ^ 16) with 65536 in Hadd |- *.
  assert (h / 4294967296 = h / 65536 / 65536) as He by (rewrite Z.div_div by lia; done). rewrite He in Hm.
  pose proof (Z.div_mod h 65536 ltac:(lia)). pose proof (Z.div_mod (h / 65536) 65536 ltac:(lia)). lia.
Qed.
Lemma command_round_trip c : command_wf c -> decode_command (encode_command c) = Ok c.
Proof.
  intros (_ & _ & (_ & [Hl0 Hl] & _) & _). unfold decode_command, encode_command. destruct c as [k ? ? [? l ?] ? ?]. cbn in Hl0, Hl |- *.
  assert (decode_header (encode_header (command_code k)) = Ok (command_code k)) as -> by (by destruct k). assert (command_try_from (command_code k) = Ok k) as -> by (by destruct k).
  by rewrite (proj2 (Z.ltb_ge _ _)).
Qed.
Lemma response_round_trip r : response_wf r -> decode_response (encode_response r) = Ok r.
Proof.
  intros (_ & _ & (_ & [Hl0 Hl] & _) & _). unfold decode_response, encode_response. destruct r as [k ? ? [? l ?] ? ?]. cbn in Hl0, Hl |- *.
  assert (decode_header (encode_header (status_code k)) = Ok (status_code k)) as -> by (by destruct k). assert (status_try_from (status_code k) = Ok k) as -> by (by destruct k).
  by rewrite (proj2 (Z.ltb_ge _ _)).
Qed.
Lemma command_try_from_Ok v k : command_try_from v = Ok k -> command_code k = v.
Proof. unfold command_try_from. intros H. repeat case_match; try done; by injection H as <-. Qed.
Lemma status_try_from_Ok v k : status_try_from v = Ok k -> status_code k = v.
Proof. unfold status_try_from. intros H. repeat case_match; try done; by injection H as <-. Qed.

Definition info_wf (i : BootstrapInfo) : Prop :=
  utf8_valid (service_name i) = true /\ is_u64 (info_epoch i) /\ is_u64 (info_bytes i) /\ 0 <= info_capacity i /\ 0 <= info_count i /\ is_u64 (initial_generation i) /\ is_u64 (client_token i).
Lemma zlen_zeros n : 0 <= n -> zlen (zeros n) = n.
Proof. intros Hn. unfold zlen, zeros. rewrite length_replicate. lia. Qed.
Lemma zlen_to_le n z : zlen (to_le n z) = Z.of_nat n.
Proof. unfold zlen. by rewrite length_to_le. Qed.
Lemma info_round_trip i b : info_wf i -> encode_info i = Ok b -> zlen b = BOOTSTRAP_BYTES /\ decode_info b = Ok i.
Proof.
  intros (Hu & He & Hb & Hc & Hn & Hg & Ht). unfold encode_info. change (BOOTSTRAP_BYTES - SERVICE_NAME_OFFSET) with 192. pose proof (zlen_nonneg (service_name i)) as Hz.
  destruct (Z.ltb_spec 192 (zlen (service_name i))) as [|Hs]; [done|]. destruct (Z.ltb_spec u32_max (info_capacity i)) as [|Hc']; [done|]. destruct (Z.ltb_spec u32_max (info_count i)) as [|Hn']; [done|]. destruct (Z.ltb_spec u32_max (Z.of_nat (info_slot i))) as [|Hi]; [done|].
  set (e := u32_le BOOTSTRAP_MAGIC ++ _). intros [= <-]. split.
  { unfold e. change (BOOTSTRAP_BYTES - SERVICE_NAME_OFFSET) with 192. rewrite !zlen_app, (zlen_zeros (192 - _)) by lia. change (zlen (zeros 2)) with 2. change (zlen (zeros 8)) with 8. unfold u16_le, u32_le, u64_le. rewrite !zlen_to_le. unfold BOOTSTRAP_BYTES. lia. }
  unfold decode_info. assert (zlen (service_name i) < 65536) as Hn2 by lia.
  change (field e 0 4) with (u32_le BOOTSTRAP_MAGIC). change (field e 4 2) with (u16_le BOOTSTRAP_VERSION). change (field e 8 8) with (u64_le (info_epoch i)). change (field e 16 8) with (u64_le (info_bytes i)).
  change (field e 24 4) with (u32_le (info_capacity i)). change (field e 28 4) with (u32_le (info_count i)). change (field e 32 4) with (u32_le (Z.of_nat (info_slot i))). change (field e 36 2) with (u16_le (zlen (service_name i))).
  change (field e 40 8) with (u64_le (initial_generation i)). change (field e 48 8) with (u64_le (client_token i)).
  change (field e 64) with (fun n => take n (service_name i ++ zeros (192 - zlen (service_name i)))). cbv beta.
  unfold u16_le, u32_le, u64_le. rewrite !of_le_to_le by first [by apply u64_width|apply u32_width; unfold is_u32; lia|unfold BOOTSTRAP_MAGIC, BOOTSTRAP_VERSION; cbn; lia].
  rewrite !Z.eqb_refl. cbn [negb]. rewrite (proj2 (Z.ltb_ge _ _)) by (change (BOOTSTRAP_BYTES - SERVICE_NAME_OFFSET) with 192; lia). replace (Z.to_nat (zlen (service_name i))) with (length (service_name i)) by (unfold zlen; lia).
  rewrite take_app_length, Hu, Nat2Z.id. by destruct i.
Qed.

Lemma command_canonical m c : message_wf m -> decode_command m = Ok c -> command_wf c /\ encode_command c = m.
Proof.
  destruct m as [[[[[[[w0 w1] w2] w3] w4] w5] w6] w7]. cbn [message_wf]. rewrite !Forall_cons. intros (H0 & H1 & H2 & H3 & H4 & H5 & H6 & H7 & _). unfold decode_command.
  destruct (decode_header w0) as [h|] eqn:Eh; [|done]. destruct (command_try_from h) as [k|] eqn:Ek; [|done]. apply command_try_from_Ok in Ek. apply header_canonical in Eh as [-> _]; [|done].
  destruct (Z.ltb_spec u32_max w4); [done|]. intros [= <-]. split; [|unfold encode_command; cbn; by rewrite Ek]. unfold command_wf, descriptor_wf, is_u32, is_u64 in *. cbn. lia.
Qed.
Lemma response_canonical m r : message_wf m -> decode_response m = Ok r -> response_wf r /\ encode_response r = m.
Proof.
  destruct m as [[[[[[[w0 w1] w2] w3] w4] w5] w6] w7]. cbn [message_wf]. rewrite !Forall_cons. intros (H0 & H1 & H2 & H3 & H4 & H5 & H6 & H7 & _). unfold decode_response.
  destruct (decode_header w0) as [h|] eqn:Eh; [|done]. destruct (status_try_from h) as [k|] eqn:Ek; [|done]. apply status_try_from_Ok in Ek. apply header_canonical in Eh as [-> _]; [|done].
  destruct (Z.ltb_spec u32_max w4); [done|]. intros [= <-]. split; [|unfold encode_response; cbn; by rewrite Ek]. unfold response_wf, descriptor_wf, is_u32, is_u64 in *. cbn. lia.
Qed.

Lemma to_le_field n b a : length (field b a n) = n -> to_le n (of_le (field b a n)) = field b a n.
Proof. intros H. rewrite <- H at 1. apply to_le_of_le. Qed.
Lemma field_split b a n k : field b a n ++ field b (a + n) k = field b a (n + k).
Proof. unfold field. by rewrite <- drop_drop, take_take_drop. Qed.
Lemma lifecycle_canonical b h : length b = 20%nat -> decode_lifecycle b = Ok h -> encode_lifecycle h = Ok b.
Proof.
  intros Hb. unfold decode_lifecycle. destruct (bool_decide_reflect (field b 0 4 = u32_le LIFECYCLE_MAGIC)) as [Hm|]; [|done]. destruct (bool_decide_reflect (field b 4 2 = u16_le LIFECYCLE_VERSION)) as [Hv|]; [|done].
  cbn [negb orb payload_len]. destruct (MAX_LIFECYCLE_PAYLOAD <? _) eqn:El; [done|]. intros [= <-]. unfold encode_lifecycle. cbn [payload_len lh_code lh_epoch]. rewrite El, <- Hm, <- Hv. f_equal. unfold u16_le, u32_le, u64_le.
  rewrite !to_le_field by (unfold field; rewrite length_take, length_drop; lia). rewrite (field_split b 8 8 4 : field b 8 8 ++ field b 16 4 = field b 8 12),
    (field_split b 6 2 12 : field b 6 2 ++ field b 8 12 = field b 6 14),
    (field_split b 4 2 14 : field b 4 2 ++ field b 6 14 = field b 4 16),
    (field_split b 0 4 16 : field b 0 4 ++ field b 4 16 = field b 0 20). unfold field. by rewrite drop_0, take_ge by lia.
Qed.
Lemma lifecycle_round_trip h b : 0 <= lh_code h < 65536 -> is_u64 (lh_epoch h) -> 0 <= payload_len h -> encode_lifecycle h = Ok b -> decode_lifecycle b = Ok h.
Proof.
  intros Hc He Hp. unfold encode_lifecycle. destruct (Z.ltb_spec MAX_LIFECYCLE_PAYLOAD (payload_len h)) as [|Hl]; [done|]. set (e := u32_le LIFECYCLE_MAGIC ++ _). intros [= <-]. unfold decode_lifecycle.
  change (field e 0 4) with (u32_le LIFECYCLE_MAGIC). change (field e 4 2) with (u16_le LIFECYCLE_VERSION). change (field e 6 2) with (u16_le (lh_code h)). change (field e 8 8) with (u64_le (lh_epoch h)). change (field e 16 4) with (u32_le (payload_len h)).
  rewrite !bool_decide_eq_true_2 by done. cbn [negb orb]. unfold u16_le, u32_le, u64_le. rewrite !of_le_to_le by (unfold MAX_LIFECYCLE_PAYLOAD, is_u64, u64_max in *; cbn; lia). cbn [payload_len]. rewrite (proj2 (Z.ltb_ge _ _)) by done. by destruct h.
Qed.

(** C31. The fixed-size frames of the channel are exact: a command, a response, a bootstrap record and a lifecycle header decode to
    what was encoded, and the decoders of commands, responses and lifecycle headers accept a frame only if it is the encoding
    of what they return, so no two frames mean the same. *)
Theorem frames_canonical :
  (forall c, command_wf c -> decode_command (encode_command c) = Ok c) /\
  (forall m c, message_wf m -> decode_command m = Ok c -> command_wf c /\ encode_command c = m) /\
  (forall r, response_wf r -> decode_response (encode_response r) = Ok r) /\
  (forall m r, message_wf m -> decode_response m = Ok r -> response_wf r /\ encode_response r = m) /\
  (forall i b, info_wf i -> encode_info i = Ok b -> zlen b = BOOTSTRAP_BYTES /\ decode_info b = Ok i) /\
  (forall h b, 0 <= lh_code h < 65536 -> is_u64 (lh_epoch h) -> 0 <= payload_len h -> encode_lifecycle h = Ok b -> decode_lifecycle b = Ok h) /\
  (forall b h, zlen b = 20 -> decode_lifecycle b = Ok h -> encode_lifecycle h = Ok b).
Proof.
  split_and!; [exact command_round_trip|exact command_canonical|exact response_round_trip|exact response_canonical|exact info_round_trip|exact lifecycle_round_trip|].
  intros b h Hb. apply lifecycle_canonical. unfold zlen in Hb. lia.
Qed.
Definition sample_info : BootstrapInfo := mkInfo (str "orbitkv/cache") 7 8192 64 51 3 1 15.
Lemma frames_canonical_witness :
  decode_command (encode_command (mkCommand Publish 9 7 (mkDescriptor 4112 16 1) 15 0)) = Ok (mkCommand Publish 9 7 (mkDescriptor 4112 16 1) 15 0) /\
  exists b, encode_info sample_info = Ok b /\ zlen b = 256 /\ decode_info b = Ok sample_info.
Proof.
  destruct frames_canonical as (Hc & _ & _ & _ & Hi & _). split; [apply Hc; repeat split; cbn; unfold u64_max, u32_max; lia|].
  eexists. split; [reflexivity|]. apply Hi; [repeat split; cbn; unfold u64_max; lia|reflexivity].
Defined.
