(* ===== verification/Channel.v ===== *)
(** * Calls over the channel

    An engine's call to its Manager: the engine writes the request into its slot of the descriptor arena, sends a
    command, the Manager's dispatcher reads the request, answers in the same slot and replies, and the engine
    reads the answer.  The sources are bootstrap.rs (slots, sessions and generations), client.rs
    (call_descriptor), transport.rs (the checks of call_inner) and, on the Manager's side, the dispatcher of
    orbitkv-server/src/endpoint/mod.rs.  An event of the world is one access to the arena by one process or
    one message; the messages are carried by iceoryx2, whose request-response contract (a request is delivered
    at most once, a response belongs to its request) is the two bags of the world. *)
From S2P Require Import Prelude Vecs Words Wire Arena Frames.

Local Open Scope Z_scope.
Local Open Scope rust_scope.

(** ** Sessions of the Manager *)

Record BootstrapSession := mkSession { slot_index : nat; session_token : Z; next_request_generation : Z }.

Definition validate_request (s : BootstrapSession) (d : DescriptorRef) (token : Z) (slot : nat) : result unit BootstrapError :=
  if negb (token =? session_token s) then Err ClientTokenMismatch
  else if negb (slot =? slot_index s)%nat then Err (SlotMismatch (slot_index s) slot)
  else if negb (generation d =? next_request_generation s) then Err (UnexpectedGeneration (next_request_generation s) (generation d))
  else Ok tt.
Definition session_complete (s : BootstrapSession) : result BootstrapSession BootstrapError :=
  match checked_add (next_request_generation s) 2 with
  | Some g => Ok (mkSession (slot_index s) (session_token s) g)
  | None => Err (GenerationExhausted (slot_index s))
  end.

(** [allocate_slot]: the first free slot, with an odd generation behind the one it has. *)
Definition following_generation (current : Z) : option Z :=
  if current =? 0 then Some 1 else if is_multiple_of current 2 then checked_add current 1 else checked_add current 2.
Definition allocate_slot (a : DescriptorArena) (slots : list bool) : prog (result (nat * Z) BootstrapError) :=
  match position negb slots with
  | None => Ret (Err (NoFreeSlots (zlen slots)))
  | Some slot =>
      bind (slot_generation a slot) (fun r =>
        match r with
        | Err e => Ret (Err (ArenaErr e))
        | Ok current =>
            match following_generation current with
            | None => Ret (Err (GenerationExhausted slot))
            | Some g => bind (reset_slot a slot g) (fun r => match r with Err e => Ret (Err (ArenaErr e)) | Ok _ => Ret (Ok (slot, g)) end)
            end
        end)
  end.

Definition arena_error_status (e : ArenaError) : StatusCode :=
  match e with
  | StaleGeneration _ _ => StaleGen
  | InvalidOffset _ | PayloadTooLarge _ _ | LengthMismatch _ _ | ZeroGeneration => Invalid
  | _ => Internal
  end.
Definition bootstrap_error_status (e : BootstrapError) : StatusCode :=
  match e with UnexpectedGeneration _ _ => StaleGen | ClientTokenMismatch | SlotMismatch _ _ => StaleSession | _ => Invalid end.
Definition error_response (r : Response) (st : StatusCode) : Response := mkResponse st (rsp_request r) (rsp_epoch r) (rsp_descriptor r) 0 (value1 r).
(** [Response::ok] with [value1] cleared. *)
Definition fresh_response (c : Command) : Response := mkResponse StOk (request_id c) (epoch c) (descriptor c) (arg0 c) 0.

(** [consume_descriptor] up to the read of the arena, and from there on; the session found first is still there, since only the
    dispatcher ends sessions. *)
Definition consume_check (a : DescriptorArena) (sessions : gmap Z BootstrapSession) (c : Command) : result (prog (result bytes ArenaError)) Response :=
  let r := fresh_response c in
  match descriptor_slot a (offset (descriptor c)) with
  | Err e => Err (error_response r (arena_error_status e))
  | Ok slot =>
      match sessions !! arg0 c with
      | None => Err (mkResponse StaleSession (rsp_request r) (rsp_epoch r) (rsp_descriptor r) (value0 r) (value1 r))
      | Some s =>
          match validate_request s (descriptor c) (arg0 c) slot with
          | Err e => Err (error_response r (bootstrap_error_status e))
          | Ok _ => Ok (read a (descriptor c))
          end
      end
  end.
Definition consume_finish (sessions : gmap Z BootstrapSession) (c : Command) (p : result bytes ArenaError) : result (gmap Z BootstrapSession * bytes * Response) Response :=
  let r := fresh_response c in
  match p with
  | Err e => Err (error_response r (arena_error_status e))
  | Ok payload =>
      match sessions !! arg0 c with
      | None => Err (mkResponse StaleSession (rsp_request r) (rsp_epoch r) (rsp_descriptor r) (value0 r) (value1 r))
      | Some s =>
          match session_complete s with
          | Err e => Err (error_response r (bootstrap_error_status e))
          | Ok s => Ok (<[arg0 c := s]> sessions, payload, mkResponse (status r) (rsp_request r) (rsp_epoch r) (rsp_descriptor r) (value0 r) (Z.lor (value1 r) RESPONSE_FLAG_REQUEST_CONSUMED))
          end
      end
  end.

(** ** The engine *)

Inductive TransportError :=
| RequestSend
| NoResponse
| RequestMismatch (expected actual : Z)
| EpochMismatch (expected actual : Z)
| Protocol (e : ProtocolError).
Inductive ChannelError :=
| ChBootstrap (e : BootstrapError)
| ChTransport (e : TransportError)
| ChStatus (s : StatusCode)
| SessionRequiresReconnect.
(** A call returns, or keeps the caller and the pages it has published for ever ([retain_unproven_publish]). *)
Inductive Outcome := Returned (r : result bytes ChannelError) | Retained.

Record Call := mkCall { call_id : nat; call_token : Z; call_code : CommandCode; call_request : Z; call_payload : bytes; call_operation : Z }.
Definition is_publish (x : Call) : bool := bool_decide (call_code x = Publish).

Inductive Phase :=
| Idle
| Writing (x : Call) (p : prog (result DescriptorRef ArenaError))
| Written (x : Call) (d : DescriptorRef)
| Waiting (x : Call) (d : DescriptorRef)
| Reading (x : Call) (d : DescriptorRef) (p : prog (result bytes ArenaError)).
Record Client := mkClient { c_arena : DescriptorArena; c_info : BootstrapInfo; next_generation : Z; poisoned : bool; phase : Phase }.

(** [BootstrapClient::connect], from the record that the Manager sends. *)
Definition connect (record : bytes) (m : mem) : option (result Client BootstrapError) :=
  match decode_info record with
  | Err e => Some (Err e)
  | Ok info =>
      r ← Arena.open m (info_epoch info) (info_bytes info);
      Some match r with
           | Err e => Err (ArenaErr e)
           | Ok arena => Ok (mkClient arena info (initial_generation info) false Idle)
           end
  end.

Definition in_phase (f : Phase) (c : Client) : Client := mkClient (c_arena c) (c_info c) (next_generation c) (poisoned c) f.
Definition close (c : Client) : Client := mkClient (c_arena c) (c_info c) (next_generation c) true Idle.
Definition write_request (c : Client) (payload : bytes) : prog (result DescriptorRef ArenaError) :=
  write_slot (c_arena c) (info_slot (c_info c)) (next_generation c) payload.
Definition command_of (c : Client) (x : Call) (d : DescriptorRef) : Command :=
  mkCommand (call_code x) (call_request x) (info_epoch (c_info c)) d (client_token (c_info c)) (call_operation x).
Definition complete_request (c : Client) (d : DescriptorRef) : result Client BootstrapError :=
  if negb (next_generation c =? generation d) then Err (UnexpectedGeneration (next_generation c) (generation d))
  else match checked_add (next_generation c) 2 with
       | Some g => Ok (mkClient (c_arena c) (c_info c) g (poisoned c) Idle)
       | None => Err (GenerationExhausted (info_slot (c_info c)))
       end.
(** The response of a pending request, as [call_inner] accepts it. *)
Definition check_reply (c : Command) (m : WireMessage) : result Response TransportError :=
  match decode_response m with
  | Err e => Err (Protocol e)
  | Ok r =>
      if negb (rsp_request r =? request_id c) then Err (RequestMismatch (request_id c) (rsp_request r))
      else if negb (bool_decide (status r = StaleSession)) && negb (rsp_epoch r =? epoch c) then Err (EpochMismatch (epoch c) (rsp_epoch r))
      else Ok r
  end.

Definition outcome (retain : bool) (r : result bytes ChannelError) : Outcome := if retain then Retained else Returned r.
(** Invalid replies cannot end source ownership after device submission. *)
Definition ambiguous (c : Client) (x : Call) (e : ChannelError) : Client * option Outcome := (close c, Some (outcome (is_publish x) (Err e))).
Definition completed (c : Client) (x : Call) (d : DescriptorRef) (r : result bytes ChannelError) : Client * option Outcome :=
  match complete_request c d with
  | Ok c => (c, Some (Returned r))
  | Err e => ambiguous c x (ChBootstrap e)
  end.
(** [read_response] up to the read of the arena. *)
Definition start_read (c : Client) (d response : DescriptorRef) : result (prog (result bytes ArenaError)) BootstrapError :=
  match checked_add (generation d) 1 with
  | None => Err (GenerationExhausted (info_slot (c_info c)))
  | Some expected =>
      if negb (offset response =? offset d)
      then match descriptor_slot (c_arena c) (offset response) with Ok actual => Err (SlotMismatch (info_slot (c_info c)) actual) | Err e => Err (ArenaErr e) end
      else if negb (generation response =? expected) then Err (UnexpectedGeneration expected (generation response))
      else Ok (read (c_arena c) response)
  end.
(** [call_descriptor] from its response on. *)
Definition after_reply (c : Client) (x : Call) (d : DescriptorRef) (m : WireMessage) : Client * option Outcome :=
  match check_reply (command_of c x d) m with
  | Err e => (close c, Some (outcome (is_publish x) (Err (ChTransport e))))
  | Ok r =>
      let consumed := negb (Z.land (value1 r) RESPONSE_FLAG_REQUEST_CONSUMED =? 0) in
      if negb (bool_decide (status r = StOk)) then
        if consumed then completed c x d (Err (ChStatus (status r)))
        else (close c, Some (outcome (is_publish x && negb (bool_decide (status r = StaleSession))) (Err (ChStatus (status r)))))
      else if negb consumed then ambiguous c x SessionRequiresReconnect
      else if bool_decide (call_code x = Restore) then completed c x d (Ok [])
      else match start_read c d (rsp_descriptor r) with
           | Err e => ambiguous c x (ChBootstrap e)
           | Ok p => (in_phase (Reading x d p) c, None)
           end
  end.
Definition after_read (c : Client) (x : Call) (d : DescriptorRef) (r : result bytes ArenaError) : Client * option Outcome :=
  match r with
  | Err e => ambiguous c x (ChBootstrap (ArenaErr e))
  | Ok payload => completed c x d (Ok payload)
  end.

(** ** The world *)

Inductive ManagerPhase :=
| MIdle
| MAllocating (sent : bool) (p : prog (result (nat * Z) BootstrapError))
| MReading (n : nat) (c : Command) (p : prog (result bytes ArenaError))
| MHandling (n : nat) (c : Command) (r : Response)
| MAnswering (n : nat) (c : Command) (r : Response) (p : prog (result DescriptorRef ArenaError)).

(** What happened, for the theorems; no operation reads it. *)
Inductive Ev :=
| EvCall (x : Call)
| EvConsumed (n : nat) (payload : bytes)
| EvRefused (n : nat) (st : StatusCode) (g : Z)
| EvAnswer (n : nat) (payload : bytes)
| EvReturn (n : nat) (o : Outcome).

Record World := mkWorld {
  memory : mem;
  slots : list bool;
  next_client_token : Z;
  sessions : gmap Z BootstrapSession;
  manager : ManagerPhase;
  clients : gmap Z Client;
  requests : list (nat * WireMessage);
  deferred : list (nat * Response);
  replies : list (nat * WireMessage);
  fresh : nat;
  trace : list Ev;
}.

(** A handler refuses the request (a payload it cannot decode, an error of the engine) or answers it. *)
Inductive Handled := Refuse (internal : bool) | Answer (payload : bytes).
Definition refusal (internal : bool) : StatusCode := if internal then Internal else Invalid.
Definition answer_bytes (c : CommandCode) (payload : bytes) : bytes := match c with QueryBundle | QueryShards => payload | _ => [] end.

(** The events.  A request that fails after it may have been sent is [CSubmit] followed by [CAbandon], which also stands for a timeout, a
    failed receive and the exit of the Manager; [CExit] is the end of the engine's process at any point. *)
Inductive Event :=
| MAccept (sent : bool)
| MEnd (token : Z)
| MServe (n : nat) (admitted : bool)
| MTick
| MHandle (h : Handled)
| MComplete (n : nat) (failed : option bool)
| CCall (token : Z) (c : CommandCode) (request : Z) (payload : bytes) (operation : Z)
| CTick (token : Z)
| CSubmit (token : Z) (sent : bool)
| CReceive (token : Z)
| CAbandon (token : Z)
| CExit (token : Z).

Section World.
Context (a : DescriptorArena) (service : bytes).

Definition set_memory (m : mem) (w : World) : World := mkWorld m (slots w) (next_client_token w) (sessions w) (manager w) (clients w) (requests w) (deferred w) (replies w) (fresh w) (trace w).
Definition set_slots (l : list bool) (w : World) : World := mkWorld (memory w) l (next_client_token w) (sessions w) (manager w) (clients w) (requests w) (deferred w) (replies w) (fresh w) (trace w).
Definition set_token (t : Z) (w : World) : World := mkWorld (memory w) (slots w) t (sessions w) (manager w) (clients w) (requests w) (deferred w) (replies w) (fresh w) (trace w).
Definition set_sessions (s : gmap Z BootstrapSession) (w : World) : World := mkWorld (memory w) (slots w) (next_client_token w) s (manager w) (clients w) (requests w) (deferred w) (replies w) (fresh w) (trace w).
Definition set_manager (p : ManagerPhase) (w : World) : World := mkWorld (memory w) (slots w) (next_client_token w) (sessions w) p (clients w) (requests w) (deferred w) (replies w) (fresh w) (trace w).
Definition set_client (token : Z) (c : Client) (w : World) : World := mkWorld (memory w) (slots w) (next_client_token w) (sessions w) (manager w) (<[token := c]> (clients w)) (requests w) (deferred w) (replies w) (fresh w) (trace w).
Definition set_requests (l : list (nat * WireMessage)) (w : World) : World := mkWorld (memory w) (slots w) (next_client_token w) (sessions w) (manager w) (clients w) l (deferred w) (replies w) (fresh w) (trace w).
Definition set_deferred (l : list (nat * Response)) (w : World) : World := mkWorld (memory w) (slots w) (next_client_token w) (sessions w) (manager w) (clients w) (requests w) l (replies w) (fresh w) (trace w).
Definition set_replies (l : list (nat * WireMessage)) (w : World) : World := mkWorld (memory w) (slots w) (next_client_token w) (sessions w) (manager w) (clients w) (requests w) (deferred w) l (fresh w) (trace w).
Definition set_fresh (n : nat) (w : World) : World := mkWorld (memory w) (slots w) (next_client_token w) (sessions w) (manager w) (clients w) (requests w) (deferred w) (replies w) n (trace w).
Definition log (e : Ev) (w : World) : World := mkWorld (memory w) (slots w) (next_client_token w) (sessions w) (manager w) (clients w) (requests w) (deferred w) (replies w) (fresh w) (trace w ++ [e]).

(** The Manager sends a reply and is ready for the next request. *)
Definition reply (n : nat) (r : Response) (w : World) : World := set_manager MIdle (set_replies (replies w ++ [(n, encode_response r)]) w).
Definition returns (n : nat) (o : option Outcome) (w : World) : World := match o with Some o => log (EvReturn n o) w | None => w end.

(** [BootstrapServer::accept] from the allocated slot on; [sent] is false when an event file, the completion map or the
    record cannot be created or sent.  The session is kept and the engine connects. *)
Definition accept (sent : bool) (slot : nat) (g : Z) (w : World) : option World :=
  let w := set_manager MIdle w in
  let release w := set_slots (<[slot := false]> (slots w)) w in
  let w := set_slots (<[slot := true]> (slots w)) w in
  let token := next_client_token w in
  match checked_add token 2 with
  | None => Some (release w)
  | Some t =>
      let w := set_token t w in
      let info := mkInfo service (Arena.session_epoch a) (arena_bytes a) (slot_capacity a) (slot_count a) slot g token in
      if negb sent then Some (release w)
      else match encode_info info with
           | Err _ => Some (release w)
           | Ok record =>
               c ← connect record (memory w);
               let w := set_sessions (<[token := mkSession slot token g]> (sessions w)) w in
               Some match c with Ok c => set_client token c w | Err _ => w end
           end
  end.

(** One request: the epoch check of [try_serve_deferred_for_epoch], then [dispatch] or [dispatch_publish] up to the
    read of the payload; [admitted] is the answer of [ActiveTasks::try_admit]. *)
Definition serve (n : nat) (admitted : bool) (m : WireMessage) (w : World) : World :=
  match decode_command m with
  | Err _ => w
  | Ok c =>
      let stale := mkResponse StaleSession (request_id c) (Arena.session_epoch a) (descriptor c) 0 0 in
      let r := fresh_response c in
      if negb (epoch c =? Arena.session_epoch a) then reply n stale w
      else match code c with
           | Ping => reply n (mkResponse StOk (request_id c) (epoch c) (descriptor c) (u64_add (arg0 c) 1) 0) w
           | Shutdown => reply n r w
           | k =>
               if bool_decide (k = Publish) && negb admitted
               then reply n (mkResponse StaleSession (rsp_request r) (rsp_epoch r) (rsp_descriptor r) (value0 r) 0) w
               else match consume_check a (sessions w) c with
                    | Err r => reply n r (log (EvRefused n (status r) (generation (descriptor c))) w)
                    | Ok p => set_manager (MReading n c p) w
                    end
           end
  end.

Definition manager_tick (w : World) : option World :=
  let step {A} (p : prog A) (k : prog A -> ManagerPhase) := let (m, p) := pstep p (memory w) in Some (set_manager (k p) (set_memory m w)) in
  match manager w with
  | MAllocating sent p =>
      match p with
      | Ret (Ok (slot, g)) => accept sent slot g w
      | Ret (Err _) => Some (set_manager MIdle w)
      | p => step p (MAllocating sent)
      end
  | MReading n c p =>
      match p with
      | Ret r =>
          Some match consume_finish (sessions w) c r with
               | Err r => reply n r (log (EvRefused n (status r) (generation (descriptor c))) w)
               | Ok (s, payload, r) => set_manager (MHandling n c r) (set_sessions s (log (EvConsumed n payload) w))
               end
      | p => step p (MReading n c)
      end
  | MAnswering n c r p =>
      match p with
      | Ret (Err e) => Some (reply n (error_response r (arena_error_status e)) w)
      | Ret (Ok d) =>
          let r := mkResponse (status r) (rsp_request r) (rsp_epoch r) d (value0 r) (value1 r) in
          Some (if bool_decide (code c = Publish) then set_manager MIdle (set_deferred (deferred w ++ [(n, r)]) w) else reply n r w)
      | p => step p (MAnswering n c r)
      end
  | _ => Some w
  end.
Definition manager_handle (h : Handled) (w : World) : World :=
  match manager w with
  | MHandling n c r =>
      match h with
      | Refuse internal => reply n (error_response r (refusal internal)) w
      | Answer payload =>
          if bool_decide (code c = Restore) then reply n r w
          else set_manager (MAnswering n c r (write_response a (descriptor c) (answer_bytes (code c) payload))) (log (EvAnswer n (answer_bytes (code c) payload)) w)
      end
  | _ => w
  end.

Definition client_tick (token : Z) (c : Client) (w : World) : World :=
  match phase c with
  | Writing x (Ret (Err e)) => log (EvReturn (call_id x) (Returned (Err (ChBootstrap (ArenaErr e))))) (set_client token (in_phase Idle c) w)
  | Writing x (Ret (Ok d)) => set_client token (in_phase (Written x d) c) w
  | Writing x p => let (m, p) := pstep p (memory w) in set_client token (in_phase (Writing x p) c) (set_memory m w)
  | Reading x d (Ret r) => let (c, o) := after_read c x d r in returns (call_id x) o (set_client token c w)
  | Reading x d p => let (m, p) := pstep p (memory w) in set_client token (in_phase (Reading x d p) c) (set_memory m w)
  | _ => w
  end.

Definition take_out {A} (n : nat) (l : list (nat * A)) : option (A * list (nat * A)) :=
  i ← position (fun p => bool_decide (p.1 = n)) l; p ← l !! i; Some (p.2, delete i l).

Definition act (e : Event) (w : World) : option World :=
  let client token (f : Client -> World) := Some match clients w !! token with Some c => f c | None => w end in
  match e with
  | MAccept sent => Some match manager w with MIdle => set_manager (MAllocating sent (allocate_slot a (slots w))) w | _ => w end
  | MEnd token =>
      Some match manager w, sessions w !! token with
           | MIdle, Some s => set_slots (<[slot_index s := false]> (slots w)) (set_sessions (delete token (sessions w)) w)
           | _, _ => w
           end
  | MServe n admitted =>
      Some match manager w, take_out n (requests w) with
           | MIdle, Some (m, l) => serve n admitted m (set_requests l w)
           | _, _ => w
           end
  | MTick => manager_tick w
  | MHandle h => Some (manager_handle h w)
  | MComplete n failed =>
      Some match take_out n (deferred w) with
           | Some (r, l) =>
               let r := match failed with Some internal => error_response r (refusal internal) | None => r end in
               set_replies (replies w ++ [(n, encode_response r)]) (set_deferred l w)
           | None => w
           end
  | CCall token k request payload operation =>
      client token (fun c =>
        match phase c with
        | Idle =>
            let x := mkCall (fresh w) token k request payload operation in
            let w := log (EvCall x) (set_fresh (S (fresh w)) w) in
            if poisoned c then log (EvReturn (call_id x) (Returned (Err SessionRequiresReconnect))) w
            else set_client token (in_phase (Writing x (write_request c payload)) c) w
        | _ => w
        end)
  | CTick token => client token (fun c => client_tick token c w)
  | CSubmit token sent =>
      client token (fun c =>
        match phase c with
        | Written x d =>
            if sent then set_client token (in_phase (Waiting x d) c) (set_requests (requests w ++ [(call_id x, encode_command (command_of c x d))]) w)
            else log (EvReturn (call_id x) (Returned (Err (ChTransport RequestSend)))) (set_client token (close c) w)
        | _ => w
        end)
  | CReceive token =>
      client token (fun c =>
        match phase c with
        | Waiting x d =>
            match take_out (call_id x) (replies w) with
            | Some (m, l) => let (c, o) := after_reply c x d m in returns (call_id x) o (set_client token c (set_replies l w))
            | None => w
            end
        | _ => w
        end)
  | CAbandon token =>
      client token (fun c =>
        match phase c with
        | Waiting x d => log (EvReturn (call_id x) (outcome (is_publish x) (Err (ChTransport NoResponse)))) (set_client token (close c) w)
        | _ => w
        end)
  | CExit token => client token (fun c => set_client token (close c) w)
  end.
Fixpoint acts (es : list Event) (w : World) : option World :=
  match es with [] => Some w | e :: es => w ← act e w; acts es w end.

(** [BootstrapServer::bind]. *)
Definition rotate_left (z : Z) (k : Z) : Z := Z.lor (wrap64 (Z.shiftl z k)) (Z.shiftr z (64 - k)).
Definition world_new (m : mem) : World :=
  mkWorld m (replicate (Z.to_nat (slot_count a)) false) (Z.lor (rotate_left (Arena.session_epoch a) 17) 1) ∅ MIdle ∅ [] [] [] 0 [].
End World.
