(* ===== verification/ChannelInv.v ===== *)
(** * Calls over the channel: the invariant

    Each session goes through one exchange at a time.  The invariant follows every exchange from the engine's
    first write to its return, and says who may touch the slot, what the slot holds and where the messages
    are.  A step concerns one session; [session_step_inv] leaves only that session to be looked at. *)
From S2P Require Import Prelude Vecs Words Wire Arena ArenaSpec Frames Channel.

Local Open Scope Z_scope.
Local Open Scope rust_scope.

(** ** Exchanges *)

Inductive Exch :=
| XIdle
| XOver
| XWriting (y : Call)
| XWritten (y : Call) (d : DescriptorRef)
| XQueued (y : Call) (d : DescriptorRef)
| XTaken (y : Call) (d : DescriptorRef)
| XHandling (y : Call) (d : DescriptorRef)
| XAnswering (y : Call) (d : DescriptorRef) (p : bytes)
| XDeferred (y : Call) (d : DescriptorRef) (r : Response)
| XReplied (y : Call) (d : DescriptorRef) (m : WireMessage)
| XReadback (y : Call) (d : DescriptorRef) (p : bytes).
Definition exch_call (e : Exch) : option Call :=
  match e with
  | XIdle | XOver => None
  | XWriting y | XWritten y _ | XQueued y _ | XTaken y _ | XHandling y _ | XAnswering y _ _ | XDeferred y _ _ | XReplied y _ _ | XReadback y _ _ => Some y
  end.
Definition busy (e : Exch) : Prop := match e with XTaken _ _ | XHandling _ _ | XAnswering _ _ _ => True | _ => False end.

(** ** The trace *)

Definition known (tr : list Ev) (y : Call) : Prop := EvCall y ∈ tr.
Definition ev_id (e : Ev) : nat :=
  match e with EvCall y => call_id y | EvConsumed n _ | EvRefused n _ _ | EvAnswer n _ | EvReturn n _ => n end.
Definition called (e : Ev) : option nat := match e with EvCall y => Some (call_id y) | _ => None end.
Definition consumed (e : Ev) : option nat := match e with EvConsumed n _ => Some n | _ => None end.
Definition answered (e : Ev) : option nat := match e with EvAnswer n _ => Some n | _ => None end.
Definition live (w : World) (t : Z) : Prop := exists c, clients w !! t = Some c /\ poisoned c = false.

Section Invariant.
Context (a : DescriptorArena) (m0 : mem).

Definition cmd (y : Call) (d : DescriptorRef) : Command := mkCommand (call_code y) (call_request y) (Arena.session_epoch a) d (call_token y) (call_operation y).
Definition taken (y : Call) (d : DescriptorRef) : Response := mkResponse StOk (call_request y) (Arena.session_epoch a) d (call_token y) 1.

(** Before the Manager has consumed the request, and after. *)
Definition before (m : mem) (tr : list Ev) (s : BootstrapSession) (y : Call) (d : DescriptorRef) : Prop :=
  (forall p, EvConsumed (call_id y) p ∉ tr) /\ (forall p, EvAnswer (call_id y) p ∉ tr) /\
  holds a m (slot_index s) d (call_payload y) /\ generation d = next_request_generation s.
Definition pending (tr : list Ev) (s : BootstrapSession) (y : Call) (d : DescriptorRef) : Prop :=
  (forall p, EvConsumed (call_id y) p ∉ tr) /\ (forall p, EvAnswer (call_id y) p ∉ tr) /\
  generation d = next_request_generation s /\ offset d = base a (slot_index s) + 16 /\ descriptor_wf d.
Definition after (tr : list Ev) (s : BootstrapSession) (y : Call) (d : DescriptorRef) : Prop :=
  EvConsumed (call_id y) (call_payload y) ∈ tr /\ next_request_generation s = generation d + 2 /\ offset d = base a (slot_index s) + 16 /\ descriptor_wf d.
Definition resp_ok (m : mem) (tr : list Ev) (s : BootstrapSession) (y : Call) (d : DescriptorRef) (r : Response) : Prop :=
  rsp_request r = call_request y /\ rsp_epoch r = Arena.session_epoch a /\ response_wf r /\
  (value1 r = 0 \/ value1 r = 1 /\ after tr s y d /\
     (status r = StOk -> call_code y <> Restore -> exists p, EvAnswer (call_id y) p ∈ tr /\ holds a m (slot_index s) (rsp_descriptor r) p /\
        generation (rsp_descriptor r) = generation d + 1 /\ offset (rsp_descriptor r) = offset d)).
(** A program that owns the slot. *)
Definition owns {A} (s : BootstrapSession) (p : prog A) : Prop := within (base a (slot_index s)) (limit a (slot_index s)) (fun _ => True) p.

Definition exch_ok (m : mem) (tr : list Ev) (mp : ManagerPhase) (s : BootstrapSession) (e : Exch) : Prop :=
  match e with
  | XIdle | XOver => True
  | XWriting y => (forall p, EvConsumed (call_id y) p ∉ tr) /\ (forall p, EvAnswer (call_id y) p ∉ tr)
  | XWritten y d | XQueued y d => before m tr s y d
  | XTaken y d => pending tr s y d /\ exists p, mp = MReading (call_id y) (cmd y d) p /\ owns s p /\ (exec p m).2 = Ok (call_payload y)
  | XHandling y d => after tr s y d /\ (forall p, EvAnswer (call_id y) p ∉ tr) /\ mp = MHandling (call_id y) (cmd y d) (taken y d)
  | XAnswering y d pl =>
      after tr s y d /\ EvAnswer (call_id y) pl ∈ tr /\
      exists p, mp = MAnswering (call_id y) (cmd y d) (taken y d) p /\ owns s p /\
        match (exec p m).2 with
        | Ok d' => holds a (exec p m).1 (slot_index s) d' pl /\ generation d' = generation d + 1
        | Err e => p = Ret (Err e)
        end
  | XDeferred y d r => resp_ok m tr s y d r
  | XReplied y d msg => exists r, msg = encode_response r /\ resp_ok m tr s y d r
  | XReadback y d p => after tr s y d /\ EvAnswer (call_id y) p ∈ tr /\ call_code y <> Restore
  end.
(** The engine's side of the exchange. *)
Definition client_ok (m : mem) (tr : list Ev) (s : BootstrapSession) (e : Exch) (c : Client) : Prop :=
  c_arena c = a /\ info_slot (c_info c) = slot_index s /\ info_epoch (c_info c) = Arena.session_epoch a /\ client_token (c_info c) = session_token s /\
  (forall y, exch_call e = Some y -> forall o, EvReturn (call_id y) o ∉ tr) /\
  match phase c, e with
  | Idle, XIdle => next_request_generation s = next_generation c
  | Writing y p, XWriting y' =>
      y = y' /\ next_request_generation s = next_generation c /\ owns s p /\
      match (exec p m).2 with
      | Ok d => holds a (exec p m).1 (slot_index s) d (call_payload y) /\ generation d = next_generation c
      | Err e => p = Ret (Err e)
      end
  | Written y d, XWritten y' d' => y = y' /\ d = d' /\ next_generation c = generation d
  | Waiting y d, (XQueued y' d' | XTaken y' d' | XHandling y' d' | XAnswering y' d' _ | XDeferred y' d' _ | XReplied y' d' _) => y = y' /\ d = d' /\ next_generation c = generation d
  | Reading y d p, XReadback y' d' pl => y = y' /\ d = d' /\ next_generation c = generation d /\ owns s p /\ (exec p m).2 = Ok pl
  | _, _ => False
  end.
Definition session_ok (w : World) (t : Z) (s : BootstrapSession) : Prop :=
  session_token s = t /\ 0 <= t < next_client_token w /\ slots w !! slot_index s = Some true /\ is_u64 (next_request_generation s) /\ in_range a (slot_index s).
Definition tok_ok (x : gmap Z Exch) (w : World) (t : Z) : Prop :=
  match sessions w !! t, x !! t with
  | Some s, Some e => session_ok w t s /\ exch_ok (memory w) (trace w) (manager w) s e /\ (forall y, exch_call e = Some y -> known (trace w) y /\ call_token y = t)
  | None, None => True
  | _, _ => False
  end /\
  match clients w !! t with
  | Some c =>
      t < next_client_token w /\
      if poisoned c then phase c = Idle else exists s e, sessions w !! t = Some s /\ x !! t = Some e /\ client_ok (memory w) (trace w) s e c
  | None => True
  end.

(** ** Messages *)

Inductive Item := IReq (m : WireMessage) | IRead | IHandle | IAnswer | IDef (r : Response) | IRep (m : WireMessage).
Definition manager_items (p : ManagerPhase) : list (nat * Item) :=
  match p with MIdle | MAllocating _ _ => [] | MReading n _ _ => [(n, IRead)] | MHandling n _ _ => [(n, IHandle)] | MAnswering n _ _ _ => [(n, IAnswer)] end.
Definition req_items (l : list (nat * WireMessage)) : list (nat * Item) := (fun p => (p.1, IReq p.2)) <$> l.
Definition def_items (l : list (nat * Response)) : list (nat * Item) := (fun p => (p.1, IDef p.2)) <$> l.
Definition rep_items (l : list (nat * WireMessage)) : list (nat * Item) := (fun p => (p.1, IRep p.2)) <$> l.
Definition items (w : World) : list (nat * Item) := manager_items (manager w) ++ req_items (requests w) ++ def_items (deferred w) ++ rep_items (replies w).

Definition item_exch (i : Item) (y : Call) (d : DescriptorRef) (e : Exch) : Prop :=
  match i with
  | IReq _ => e = XQueued y d
  | IRead => e = XTaken y d
  | IHandle => e = XHandling y d
  | IAnswer => exists p, e = XAnswering y d p
  | IDef r => e = XDeferred y d r
  | IRep m => e = XReplied y d m
  end.
Definition item_ok (x : gmap Z Exch) (w : World) (it : nat * Item) : Prop :=
  exists y d, known (trace w) y /\ call_id y = it.1 /\
    (match it.2 with IReq m => m = encode_command (cmd y d) /\ command_wf (cmd y d) /\ exists slot, in_range a slot /\ offset d = base a slot + 16 | _ => True end) /\
    (match it.2 with IRep _ => True | _ => is_publish y = true -> forall r, EvReturn (call_id y) (Returned r) ∉ trace w end) /\
    (match it.2 with IRead | IHandle | IAnswer => False | _ => sessions w !! call_token y = None end \/ exists e, x !! call_token y = Some e /\ item_exch it.2 y d e).

(** ** The theorems' claims on the trace *)

Record trace_ok (w : World) : Prop := {
  t_called : NoDup (omap called (trace w));
  t_known : forall e, e ∈ trace w -> (ev_id e < fresh w)%nat /\ exists y, known (trace w) y /\ call_id y = ev_id e;
  t_calls : forall y, known (trace w) y -> call_token y < next_client_token w /\ is_u64 (call_request y) /\ is_u64 (call_operation y);
  t_consumed : forall n p, EvConsumed n p ∈ trace w -> exists y, known (trace w) y /\ call_id y = n /\ call_payload y = p;
  t_once : NoDup (omap consumed (trace w)) /\ NoDup (omap answered (trace w));
  t_return : forall n p, EvReturn n (Returned (Ok p)) ∈ trace w -> exists y, known (trace w) y /\ call_id y = n /\ EvConsumed n (call_payload y) ∈ trace w /\
    if bool_decide (call_code y = Restore) then p = [] else EvAnswer n p ∈ trace w;
  t_refused : forall n st g, EvRefused n st g ∈ trace w -> exists y, known (trace w) y /\ call_id y = n /\
    (st = StaleSession /\ ~ live w (call_token y) \/ st = Invalid /\ u64_max < g + 2);
}.
Definition alloc_ok (w : World) : Prop :=
  match manager w with
  | MAllocating _ p =>
      (exists e, p = Ret (Err e)) \/
      exists slot, slots w !! slot = Some false /\ in_range a slot /\
        within (base a slot) (limit a slot) (fun r => match r with Ok (k, g) => k = slot /\ 1 <= g <= u64_max | Err _ => True end) p
  | _ => True
  end.
Record global_ok (w : World) : Prop := {
  g_header : agree 0 32 m0 (memory w);
  g_slots : length (slots w) = Z.to_nat (slot_count a);
  g_token : 0 <= next_client_token w <= u64_max;
  g_inj : forall t t' s s', sessions w !! t = Some s -> sessions w !! t' = Some s' -> slot_index s = slot_index s' -> t = t';
  g_alloc : alloc_ok w;
}.
Record inv (x : gmap Z Exch) (w : World) : Prop := {
  i_tok : forall t, tok_ok x w t;
  i_items : Forall (item_ok x w) (items w);
  i_nodup : NoDup (items w).*1;
  i_trace : trace_ok w;
  i_global : global_ok w;
}.

(** ** Frame: what a step of another session leaves alone *)

Context (Ha : arena_ok a).

Lemma known_app tr evs y : known tr y -> known (tr ++ evs) y.
Proof. unfold known. rewrite elem_of_app. by left. Qed.
Lemma notin_app {A} (f : A -> Ev) tr evs : (forall v, f v ∉ tr) -> (forall ev v, ev ∈ evs -> ev <> f v) -> forall v, f v ∉ tr ++ evs.
Proof. intros Htr Hev v [H|H]%elem_of_app; [by apply (Htr v)|]. by apply (Hev _ v H). Qed.
(** An event that is no progress of the call. *)
Definition foreign (y : Call) (ev : Ev) : Prop := (forall p, ev <> EvConsumed (call_id y) p) /\ (forall p, ev <> EvAnswer (call_id y) p).
Lemma foreign_id y ev : ev_id ev <> call_id y -> foreign y ev.
Proof. intros H. split; by intros p ->. Qed.
Lemma consumed_app y tr evs : (forall p, EvConsumed (call_id y) p ∉ tr) -> (forall ev, ev ∈ evs -> foreign y ev) -> forall p, EvConsumed (call_id y) p ∉ tr ++ evs.
Proof. intros H Hev. apply (notin_app (EvConsumed (call_id y))); [done|]. intros ev v Hin. by apply Hev. Qed.
Lemma answered_app y tr evs : (forall p, EvAnswer (call_id y) p ∉ tr) -> (forall ev, ev ∈ evs -> foreign y ev) -> forall p, EvAnswer (call_id y) p ∉ tr ++ evs.
Proof. intros H Hev. apply (notin_app (EvAnswer (call_id y))); [done|]. intros ev v Hin. by apply Hev. Qed.

Lemma before_frame m m' tr evs s y d :
  agree (base a (slot_index s)) (limit a (slot_index s)) m m' -> (forall ev, ev ∈ evs -> foreign y ev) -> before m tr s y d -> before m' (tr ++ evs) s y d.
Proof.
  intros Hm Hev (H1 & H2 & H3 & H4).
  split_and!; [by apply consumed_app|by apply answered_app|by apply (holds_agree a Ha m)|done].
Qed.
Lemma after_frame tr evs s y d : after tr s y d -> after (tr ++ evs) s y d.
Proof. intros (H1 & H2). split; [|done]. apply elem_of_app. by left. Qed.
Lemma resp_frame m m' tr evs s y d r :
  agree (base a (slot_index s)) (limit a (slot_index s)) m m' -> resp_ok m tr s y d r -> resp_ok m' (tr ++ evs) s y d r.
Proof.
  intros Hm (H1 & H2 & H3 & H4). split_and!; [done..|]. destruct H4 as [H4|(H4 & H5 & H6)]; [by left|right]. split_and!; [done|by apply after_frame|].
  intros Hst Hc. destruct (H6 Hst Hc) as (p & Hp & Hh & Hg). exists p. split_and!; [apply elem_of_app; by left|by apply (holds_agree a Ha m)|apply Hg..].
Qed.
Lemma exch_frame m m' tr evs mp mp' s e :
  agree (base a (slot_index s)) (limit a (slot_index s)) m m' -> (forall y, exch_call e = Some y -> forall ev, ev ∈ evs -> foreign y ev) ->
  mp' = mp \/ ~ busy e -> exch_ok m tr mp s e -> exch_ok m' (tr ++ evs) mp' s e.
Proof.
  intros Hm Hev Hmp. destruct e as [| |y|y d|y d|y d|y d|y d pl|y d r|y d msg|y d p]; cbn [exch_ok exch_call busy] in *; try (specialize (Hev y eq_refl)).
  - done.
  - done.
  - intros [H1 H2]. split; [by apply consumed_app|by apply answered_app].
  - by apply before_frame.
  - by apply before_frame.
  - destruct Hmp as [->|[]]; [|done]. intros [(H1 & H2 & H3) (p & Hp & Ho & Hx)]. split; [split_and!; [by apply consumed_app|by apply answered_app|apply H3..]|]. exists p. split_and!; [done|done|]. by rewrite <- (proj1 (exec_agree _ _ _ p m m' Ho Hm)).
  - destruct Hmp as [->|[]]; [|done]. intros (H1 & H2 & H3). split_and!; [by apply after_frame|by apply answered_app|done].
  - destruct Hmp as [->|[]]; [|done]. intros (H1 & H2 & p & Hp & Ho & Hx). split_and!; [by apply after_frame|apply elem_of_app; by left|]. exists p. split_and!; [done|done|].
    destruct (exec_agree _ _ _ p m m' Ho Hm) as [<- Hag]. destruct (exec p m).2; [|done]. destruct Hx as [Hx ?]. split; [|done]. by apply (holds_agree a Ha (exec p m).1).
  - by apply resp_frame.
  - intros (r & -> & H). exists r. split; [done|]. by apply (resp_frame m).
  - intros (H1 & H2 & H3). split_and!; [by apply after_frame|apply elem_of_app; by left|done].
Qed.
Lemma client_frame m m' tr evs s e c :
  agree (base a (slot_index s)) (limit a (slot_index s)) m m' -> (forall y, exch_call e = Some y -> forall ev, ev ∈ evs -> ev_id ev <> call_id y) ->
  client_ok m tr s e c -> client_ok m' (tr ++ evs) s e c.
Proof.
  intros Hm Hev (H1 & H2 & H3 & H4 & H5 & H6). split_and!; [done..| |].
  - intros y Hy. apply (notin_app (EvReturn (call_id y))); [by apply H5|]. intros ev v Hin ->. by apply (Hev y Hy _ Hin).
  - destruct (phase c) as [|y p|y d|y d|y d p], e; try done.
    + destruct H6 as (-> & ? & Ho & Hx). split_and!; [done|done|done|]. destruct (exec_agree _ _ _ p m m' Ho Hm) as [<- Hag]. destruct (exec p m).2; [|done]. destruct Hx. split; [|done]. by apply (holds_agree a Ha (exec p m).1).
    + destruct H6 as (-> & -> & ? & Ho & Hx). split_and!; [done..|]. by rewrite <- (proj1 (exec_agree _ _ _ p m m' Ho Hm)).
Qed.

(** A step that concerns the session [t] and the call [n] only. *)
Record local (t : Z) (n : nat) (x x' : gmap Z Exch) (w w' : World) : Prop := {
  l_sess : forall t', t' <> t -> sessions w' !! t' = sessions w !! t';
  l_exch : forall t', t' <> t -> x' !! t' = x !! t';
  l_clients : forall t', t' <> t -> clients w' !! t' = clients w !! t';
  l_token : next_client_token w <= next_client_token w';
  l_slots : forall t' s, t' <> t -> sessions w !! t' = Some s -> slots w' !! slot_index s = slots w !! slot_index s;
  l_mem : forall t' s, t' <> t -> sessions w !! t' = Some s -> agree (base a (slot_index s)) (limit a (slot_index s)) (memory w) (memory w');
  l_trace : exists evs, trace w' = trace w ++ evs /\ Forall (fun ev => ev_id ev = n) evs;
  l_call : forall y, known (trace w) y -> call_id y = n -> call_token y = t;
  l_manager : manager w' = manager w \/ forall t' e, t' <> t -> x !! t' = Some e -> ~ busy e;
}.
Lemma local_tok t n x x' w w' t' : local t n x x' w w' -> tok_ok x w t' -> t' <> t -> tok_ok x' w' t'.
Proof.
  intros [Hs Hx Hc Ht Hsl Hm (evs & Htr & Hev) Hcall Hmg] [H1 H2] Hne. unfold tok_ok. rewrite Hs, Hx, Hc, Htr by done. rewrite Forall_forall in Hev.
  assert (forall e y, x !! t' = Some e -> exch_call e = Some y -> known (trace w) y /\ call_token y = t' -> forall ev, ev ∈ evs -> ev_id ev <> call_id y) as Hids.
  { intros e y He Hy [Hk Hty] ev Hin Heq. apply Hne. rewrite <- Hty. apply Hcall; [done|]. rewrite <- Heq. by apply Hev. }
  destruct (sessions w !! t') as [s|] eqn:Es, (x !! t') as [e|] eqn:Ee; try done.
  - destruct H1 as ((Hst & Htb & Hslot & Hg & Hr) & He & Hy). specialize (Hsl t' s Hne Es). specialize (Hm t' s Hne Es). split.
    + split_and!; [split_and!; [done|lia|lia|by rewrite Hsl|apply Hg..|done]| |intros y Hy'; split; [apply known_app|]; by apply Hy].
      apply (exch_frame (memory w) _ _ _ (manager w)); [done|intros y Hy' ev Hin; apply foreign_id, (Hids e y); [done..|by apply Hy|done]|destruct Hmg as [->|Hb]; [by left|right; by apply (Hb t' e)]|done].
    + destruct (clients w !! t') as [c|]; [|done]. destruct H2 as [H2 H3]. split; [lia|]. destruct (poisoned c); [done|]. destruct H3 as (s' & e' & [= <-] & [= <-] & Hco). exists s, e. split_and!; [done..|].
      apply (client_frame (memory w)); [done|intros y Hy'; apply (Hids e y); [done..|by apply Hy]|done].
  - split; [done|]. destruct (clients w !! t') as [c|]; [|done]. destruct H2 as [H2 H3]. split; [lia|]. destruct (poisoned c); [done|]. by destruct H3 as (s' & e' & ? & _).
Qed.
(** The messages of other calls. *)
Lemma local_item t n x x' w w' it :
  local t n x x' w w' -> (forall e y, x !! t = Some e -> exch_call e = Some y -> call_id y = n) ->
  (sessions w !! t = None -> sessions w' !! t = None \/ forall y, known (trace w) y -> call_token y <> t) ->
  item_ok x w it -> it.1 <> n -> item_ok x' w' it.
Proof.
  intros [Hs Hx Hc Ht Hsl Hm (evs & Htr & Hev) Hcall Hmg] Hexch Hdead (y & d & Hk & Hid & Hst & Hret & Hat) Hne. exists y, d. rewrite Forall_forall in Hev. split_and!; [rewrite Htr; by apply known_app|done|done| |].
  - destruct it.2; try done; intros Hp r'; rewrite Htr; intros [Hin|Hin]%elem_of_app; try (by apply (Hret Hp r')); apply Hev in Hin; cbn in Hin; congruence.
  - destruct (decide (call_token y = t)) as [Heq|Hnt].
    + rewrite Heq in *. destruct Hat as [Hd|(e & He & Hi)].
      * left. destruct it.2; try done; (destruct (Hdead Hd) as [?|Hno]; [done|by destruct (Hno y Hk)]).
      * exfalso. assert (exch_call e = Some y) as Hey by (destruct it.2; cbn in Hi; [subst e; done..| |subst e; done|subst e; done]; by destruct Hi as [? ->]). apply Hne. rewrite <- Hid. by apply (Hexch e y).
    + rewrite Hs, Hx by done. done.
Qed.

(** One step: the items of the call [n] change, its session and the trace are looked at, the rest is framed. *)
Lemma session_step_inv t n x x' w w' old new rest :
  inv x w -> local t n x x' w w' -> (forall e y, x !! t = Some e -> exch_call e = Some y -> call_id y = n) ->
  (sessions w !! t = None -> sessions w' !! t = None \/ forall y, known (trace w) y -> call_token y <> t) ->
  items w ≡ₚ old ++ rest -> items w' ≡ₚ new ++ rest -> Forall (fun it => it.1 = n) new -> n ∉ rest.*1 -> NoDup new.*1 -> Forall (item_ok x' w') new ->
  tok_ok x' w' t -> trace_ok w' -> global_ok w' -> inv x' w'.
Proof.
  intros [Htok Hit Hnd _ _] Hl Hexch Hdead Hp Hp' Hnew Hn Hndn Hok Ht Htr Hg. rewrite Hp in Hit, Hnd. apply Forall_app in Hit as [_ Hrest]. rewrite fmap_app in Hnd. apply NoDup_app in Hnd as (_ & _ & Hndr). split; [|rewrite Hp'|rewrite Hp'|done|done].
  - intros t'. destruct (decide (t' = t)) as [->|Hne]; [done|]. by apply (local_tok t n x x' w w').
  - apply Forall_app. split; [done|]. rewrite Forall_forall in Hrest |- *. intros it Hin. apply (local_item t n x x' w w'); [done..|by apply Hrest|]. intros <-. apply Hn, list_elem_of_fmap. by exists it.
  - rewrite fmap_app. apply NoDup_app. split_and!; [done| |done]. intros k Hk%list_elem_of_fmap Hin. destruct Hk as (it & -> & Hk). rewrite Forall_forall in Hnew. rewrite (Hnew it Hk) in Hin. done.
Qed.
End Invariant.
