(* ===== verification/ChannelSteps.v ===== *)
(** * Calls over the channel: the steps

    Every event keeps the invariant of ChannelInv, provided that the Manager ends a session only when its engine
    is gone. *)
From S2P Require Import Prelude Vecs Words Wire Arena ArenaSpec Frames Channel ChannelInv.

Local Open Scope Z_scope.
Local Open Scope rust_scope.

Section Steps.
Context (a : DescriptorArena) (Ha : arena_ok a) (m0 : mem).
Abbreviation inv := (inv a m0).
Abbreviation tok_ok := (tok_ok a).
Abbreviation item_ok := (item_ok a).
Abbreviation global_ok := (global_ok a m0).
Abbreviation local := (local a).

(** ** Identities *)

Lemma omap_elem {A B} (f : A -> option B) (l : list A) b : b ∈ omap f l <-> exists v, v ∈ l /\ f v = Some b.
Proof. rewrite list_elem_of_omap. naive_solver. Qed.
Lemma omap_inj {A B} (f : A -> option B) (l : list A) v v' b : NoDup (omap f l) -> v ∈ l -> v' ∈ l -> f v = Some b -> f v' = Some b -> v = v'.
Proof.
  induction l as [|u l IH]; [by intros _ ?%elem_of_nil|]. cbn [omap list_omap]. intros Hnd Hv Hv' Hb Hb'. apply elem_of_cons in Hv as [->|Hv]; apply elem_of_cons in Hv' as [->|Hv'].
  - done.
  - rewrite Hb in Hnd. apply NoDup_cons in Hnd as [Hno _]. destruct Hno. apply omap_elem. by exists v'.
  - rewrite Hb' in Hnd. apply NoDup_cons in Hnd as [Hno _]. destruct Hno. apply omap_elem. by exists v.
  - apply IH; [|done..]. destruct (f u); [by apply NoDup_cons in Hnd as [_ ?]|done].
Qed.
Lemma known_inj w y y' : trace_ok w -> known (trace w) y -> known (trace w) y' -> call_id y = call_id y' -> y = y'.
Proof. intros Ht Hy Hy' He. assert (EvCall y = EvCall y') as [= ->]; [|done]. by apply (omap_inj called (trace w) _ _ (call_id y)); [apply Ht|..|cbn; rewrite He]. Qed.
Lemma known_fresh w y : trace_ok w -> known (trace w) y -> (call_id y < fresh w)%nat.
Proof. intros Ht Hy. by apply (t_known _ Ht) in Hy as [? _]. Qed.

Lemma exch_of x w t e y : inv x w -> x !! t = Some e -> exch_call e = Some y ->
  exists s, sessions w !! t = Some s /\ session_ok a w t s /\ exch_ok a (memory w) (trace w) (manager w) s e /\ known (trace w) y /\ call_token y = t.
Proof.
  intros Hi He Hy. pose proof (i_tok _ _ _ _ Hi t) as [H _]. rewrite He in H. destruct (sessions w !! t) as [s|]; [|done]. destruct H as (H1 & H2 & H3). exists s. split_and!; [done..|apply H3, Hy|apply H3, Hy].
Qed.
Lemma busy_manager m tr mp s e y : exch_ok a m tr mp s e -> busy e -> exch_call e = Some y -> exists i, manager_items mp = [(call_id y, i)].
Proof.
  intros Hx Hb Hy. destruct e; try done; injection Hy as ->; cbn in Hx.
  - destruct Hx as (_ & p & -> & _). by eexists.
  - destruct Hx as (_ & _ & ->). by eexists.
  - destruct Hx as (_ & _ & p' & -> & _). by eexists.
Qed.
(** At most one exchange is with the Manager. *)
Lemma busy_unique x w t t' e e' : inv x w -> x !! t = Some e -> x !! t' = Some e' -> busy e -> busy e' -> t = t'.
Proof.
  intros Hi He He' Hb Hb'. assert (exists y, exch_call e = Some y) as [y Hy] by (destruct e; try done; by eexists). assert (exists y, exch_call e' = Some y) as [y' Hy'] by (destruct e'; try done; by eexists).
  destruct (exch_of _ _ _ _ _ Hi He Hy) as (s & _ & _ & Hx & Hk & <-). destruct (exch_of _ _ _ _ _ Hi He' Hy') as (s' & _ & _ & Hx' & Hk' & <-). f_equal. apply (known_inj w); [apply Hi|done|done|].
  destruct (busy_manager _ _ _ _ _ _ Hx Hb Hy) as [i Hm]. destruct (busy_manager _ _ _ _ _ _ Hx' Hb' Hy') as [i' Hm'].
  congruence.
Qed.
Lemma not_busy x w t t' e e' : inv x w -> x !! t = Some e -> busy e -> t' <> t -> x !! t' = Some e' -> ~ busy e'.
Proof. intros Hi He Hb Hne He' Hb'. by apply Hne, (busy_unique x w _ _ e' e). Qed.
Lemma idle_not_busy x w t e : inv x w -> manager_items (manager w) = [] -> x !! t = Some e -> ~ busy e.
Proof.
  intros Hi Hm He Hb. assert (exists y, exch_call e = Some y) as [y Hy] by (destruct e; try done; by eexists). destruct (exch_of _ _ _ _ _ Hi He Hy) as (s & _ & _ & Hx & _).
  destruct (busy_manager _ _ _ _ _ _ Hx Hb Hy) as [i Hi']. by rewrite Hm in Hi'.
Qed.
Lemma item_at x w t e y i : inv x w -> x !! t = Some e -> exch_call e = Some y -> (call_id y, i) ∈ items w -> exists d, item_exch i y d e.
Proof.
  intros Hi He Hy Hin. destruct (exch_of _ _ _ _ _ Hi He Hy) as (s & Hs & _ & _ & Hk & Ht). pose proof (i_items _ _ _ _ Hi) as Hit. rewrite Forall_forall in Hit. destruct (Hit _ Hin) as (y' & d & Hk' & Hid & _ & _ & Hat). cbn in Hid.
  assert (y' = y) as -> by (apply (known_inj w); [apply Hi|done..]). rewrite Ht in Hat. exists d. cbn [snd] in Hat. destruct Hat as [Hd|(e' & He' & Hx)]; [by destruct i; rewrite ?Hs in Hd|]. rewrite He in He'. by injection He' as <-.
Qed.
Definition flying (e : Exch) : Prop := match e with XQueued _ _ | XTaken _ _ | XHandling _ _ | XAnswering _ _ _ | XDeferred _ _ _ | XReplied _ _ _ => True | _ => False end.
Lemma no_items x w t e y : inv x w -> x !! t = Some e -> exch_call e = Some y -> ~ flying e -> call_id y ∉ (items w).*1.
Proof.
  intros Hi He Hy Hf Hin%list_elem_of_fmap. destruct Hin as ([n i] & Hn & Hin). cbn in Hn. subst n. destruct (item_at _ _ _ _ _ _ Hi He Hy Hin) as [d Hd]. apply Hf. destruct i; cbn in Hd; subst; try done. by destruct Hd as [? ->].
Qed.
Lemma fresh_no_items x w n : inv x w -> (fresh w <= n)%nat -> n ∉ (items w).*1.
Proof.
  intros Hi Hn Hin%list_elem_of_fmap. destruct Hin as ([n' i] & Heq & Hin). cbn in Heq. subst n'. pose proof (i_items _ _ _ _ Hi) as Hit. rewrite Forall_forall in Hit. destruct (Hit _ Hin) as (y & d & Hk & Hid & _). cbn in Hid.
  apply known_fresh in Hk; [|apply Hi]. lia.
Qed.
Lemma split_items (l : list (nat * Item)) n : NoDup l.*1 -> exists old rest, (l ≡ₚ old ++ rest) /\ (n ∉ rest.*1) /\ (old = [] \/ exists i, old = [(n, i)]).
Proof.
  intros Hnd. destruct (decide (n ∈ l.*1)) as [Hin|Hno]; [|exists [], l; split_and!; [done..|by left]]. apply list_elem_of_fmap in Hin as ([n' i] & Hn & Hin). cbn in Hn. subst n'. apply list_elem_of_split in Hin as (l1 & l2 & ->).
  exists [(n, i)], (l1 ++ l2). split_and!; [cbn; by rewrite Permutation_middle| |right; by exists i]. rewrite fmap_app, fmap_cons in Hnd. rewrite fmap_app. rewrite <- Permutation_middle in Hnd. by apply NoDup_cons in Hnd as [? _].
Qed.

(** ** The trace *)

Definition event_ok (w w' : World) (ev : Ev) : Prop :=
  match ev with
  | EvCall y => call_id y = fresh w /\ (fresh w < fresh w')%nat /\ call_token y < next_client_token w /\ is_u64 (call_request y) /\ is_u64 (call_operation y)
  | EvConsumed n p => (exists y, known (trace w) y /\ call_id y = n /\ call_payload y = p) /\ forall p, EvConsumed n p ∉ trace w
  | EvAnswer n _ => (exists y, known (trace w) y /\ call_id y = n) /\ forall p, EvAnswer n p ∉ trace w
  | EvRefused n st g => exists y, known (trace w) y /\ call_id y = n /\ (st = StaleSession /\ ~ live w' (call_token y) \/ st = Invalid /\ u64_max < g + 2)
  | EvReturn n o =>
      exists y, known (trace w) y /\ call_id y = n /\
        match o with
        | Returned (Ok p) => EvConsumed n (call_payload y) ∈ trace w /\ if bool_decide (call_code y = Restore) then p = [] else EvAnswer n p ∈ trace w
        | _ => True
        end
  end.
Definition calmer (w w' : World) : Prop := (fresh w <= fresh w')%nat /\ next_client_token w <= next_client_token w' /\ forall t, t < next_client_token w -> live w' t -> live w t.
Lemma trace_keep w w' : trace_ok w -> trace w' = trace w -> calmer w w' -> trace_ok w'.
Proof.
  intros [H1 H2 H3 H4 H5 H6 H7] Htr (Hf & Ht & Hl). split; rewrite Htr; [done| | |done..|].
  - intros e He. destruct (H2 e He) as [? ?]. split; [lia|done].
  - intros y Hy. destruct (H3 y Hy) as (? & ? & ?). split_and!; [lia|done..].
  - intros n st g Hin. destruct (H7 n st g Hin) as (y & Hy & Hid & Hc). exists y. split_and!; [done..|]. destruct Hc as [[-> Hno]|Hc]; [left|by right]. split; [done|]. intros Hlv. apply Hno, Hl; [by apply H3|done].
Qed.
Lemma omap_snoc {A B} (f : A -> option B) l v : omap f (l ++ [v]) = omap f l ++ match f v with Some b => [b] | None => [] end.
Proof. rewrite omap_app. cbn. by destruct (f v). Qed.
Lemma nodup_snoc {A} (l : list A) v : NoDup l -> v ∉ l -> NoDup (l ++ [v]).
Proof. intros Hnd Hv. apply NoDup_app. split_and!; [done| |apply NoDup_singleton]. intros u Hu ->%list_elem_of_singleton. done. Qed.
Lemma nodup_log (f : Ev -> option nat) w ev : (forall n, f ev = Some n -> n ∉ omap f (trace w)) -> NoDup (omap f (trace w)) -> NoDup (omap f (trace w ++ [ev])).
Proof. intros Hn Hnd. rewrite omap_snoc. destruct (f ev) as [n|]; [|by rewrite app_nil_r]. apply nodup_snoc; [done|by apply Hn]. Qed.
Lemma trace_log w w' ev : trace_ok w -> trace w' = trace w ++ [ev] -> calmer w w' -> event_ok w w' ev -> trace_ok w'.
Proof.
  intros Hw Htr Hc Hev. assert (trace_ok (mkWorld (memory w') (slots w') (next_client_token w') (sessions w') (manager w') (clients w') (requests w') (deferred w') (replies w') (fresh w') (trace w))) as [H1 H2 H3 H4 H5 H6 H7] by (by apply (trace_keep w)).
  cbn in *. assert (forall e, e ∈ trace w' -> e ∈ trace w \/ e = ev) as Hin by (intros e; rewrite Htr, elem_of_app, list_elem_of_singleton; done). assert (forall y, known (trace w) y -> known (trace w') y) as Hkn by (intros y Hy; rewrite Htr; by apply known_app).
  assert (forall e, e ∈ trace w -> e ∈ trace w') as Hin' by (intros e He; rewrite Htr; apply elem_of_app; by left). split.
  - rewrite Htr. apply nodup_log; [|done]. intros n Hn (v & Hv & Hvn)%omap_elem. destruct ev; try done. injection Hn as <-. destruct v; try done. injection Hvn as Hvn. destruct Hev as [Hid _]. apply (known_fresh w) in Hv; [|done]. lia.
  - intros e He. destruct (Hin e He) as [He'| ->]; [destruct (H2 e He') as (? & y & ? & ?); split; [done|]; exists y; split; [by apply Hkn|done]|].
    destruct ev as [y|n p|n st g|n p|n o]; cbn [event_ok ev_id] in *.
    + split; [lia|]. by exists y.
    + destruct Hev as [(y & Hy & <- & _) _]. split; [apply (H2 _ Hy)|]. exists y. split; [by apply Hkn|done].
    + destruct Hev as (y & Hy & <- & _). split; [apply (H2 _ Hy)|]. exists y. split; [by apply Hkn|done].
    + destruct Hev as [(y & Hy & <-) _]. split; [apply (H2 _ Hy)|]. exists y. split; [by apply Hkn|done].
    + destruct Hev as (y & Hy & <- & _). split; [apply (H2 _ Hy)|]. exists y. split; [by apply Hkn|done].
  - intros y Hy. destruct (Hin _ Hy) as [Hy'|Heq]; [by apply H3|]. subst ev. cbn in Hev. destruct Hc as (_ & Hc & _). split_and!; [lia|apply Hev..].
  - intros n p He. destruct (Hin _ He) as [He'|Heq]; [destruct (H4 n p He') as (y & ? & ?); exists y; split; [by apply Hkn|done]|]. subst ev. destruct Hev as [(y & ? & ?) _]. exists y. split; [by apply Hkn|done].
  - split; rewrite Htr; (apply nodup_log; [|apply H5]); intros n Hn (v & Hv & Hvn)%omap_elem; destruct ev; try done; injection Hn as <-; destruct v; try done; injection Hvn as ->; by apply Hev in Hv.
  - intros n p He. destruct (Hin _ He) as [He'|Heq]; [destruct (H6 n p He') as (y & ? & ? & ? & Hr)|subst ev; destruct Hev as (y & ? & ? & ? & Hr)]; exists y; (split_and!; [by apply Hkn|done|by apply Hin'|]); destruct (bool_decide _); auto.
  - intros n st g He. destruct (Hin _ He) as [He'|Heq]; [destruct (H7 n st g He') as (y & ? & ? & Hr)|subst ev; destruct Hev as (y & ? & ? & Hr)]; exists y; (split_and!; [by apply Hkn|done|]); done.
Qed.

(** ** Frames of single steps *)

Lemma mem_step {A} slot (Q : A -> Prop) p m : in_range a slot -> within (base a slot) (limit a slot) Q p ->
  (forall slot', slot' <> slot -> agree (base a slot') (limit a slot') m (pstep p m).1) /\ agree 0 32 m (pstep p m).1.
Proof.
  intros Hr Hp. pose proof (limit_fits a Ha slot Hr) as [Hb _]. unfold ARENA_HEADER_BYTES in Hb. split.
  - intros slot' Hne v Hv. symmetry. apply (step_outside (base a slot) (limit a slot) Q); [done|]. destruct (slots_disjoint a Ha slot slot'); [done|lia..].
  - intros v Hv. symmetry. apply (step_outside (base a slot) (limit a slot) Q); [done|]. lia.
Qed.
Lemma global_keep w w' :
  global_ok w -> slots w' = slots w -> next_client_token w <= next_client_token w' <= u64_max -> agree 0 32 (memory w) (memory w') ->
  (forall t s', sessions w' !! t = Some s' -> exists s, sessions w !! t = Some s /\ slot_index s = slot_index s') -> alloc_ok a w' -> global_ok w'.
Proof.
  intros [H1 H2 H3 H4 H5] Hs Ht Hm Hse Hal. split; rewrite ?Hs; [by eapply agree_trans|done|lia| |done].
  intros t t' s s' Es Es' He. destruct (Hse _ _ Es) as (u & Eu & Hu). destruct (Hse _ _ Es') as (u' & Eu' & Hu'). apply (H4 t t' u u'); [done..|congruence].
Qed.
Lemma calmer_client w w' t c : (fresh w <= fresh w')%nat -> next_client_token w' = next_client_token w -> clients w' = <[t := c]> (clients w) ->
  poisoned c = true \/ live w t -> calmer w w'.
Proof.
  intros Hf Ht Hc Hl. split_and!; [done|lia|]. intros t' _ (c' & Hc' & Hp). rewrite Hc in Hc'. destruct (decide (t' = t)) as [->|Hne].
  - rewrite lookup_insert_eq in Hc'. injection Hc' as <-. destruct Hl as [Hl|Hl]; [congruence|done].
  - rewrite lookup_insert_ne in Hc' by done. by exists c'.
Qed.
Lemma calmer_same w w' : (fresh w <= fresh w')%nat -> next_client_token w' = next_client_token w -> clients w' = clients w -> calmer w w'.
Proof. intros Hf Ht Hc. split_and!; [done|lia|]. intros t _ (c & Hx & Hp). rewrite Hc in Hx. by exists c. Qed.

(** Nothing but one engine, its slot and the program of the Manager changes. *)
Lemma quiet_inv t x w w' :
  inv x w -> (forall t', t' <> t -> clients w' !! t' = clients w !! t') -> sessions w' = sessions w -> trace w' = trace w -> items w' = items w ->
  slots w' = slots w -> next_client_token w <= next_client_token w' <= u64_max ->
  (forall t' s, t' <> t -> sessions w !! t' = Some s -> agree (base a (slot_index s)) (limit a (slot_index s)) (memory w) (memory w')) ->
  (manager w' = manager w \/ forall t' e, t' <> t -> x !! t' = Some e -> ~ busy e) -> agree 0 32 (memory w) (memory w') -> alloc_ok a w' ->
  calmer w w' -> tok_ok x w' t -> inv x w'.
Proof.
  intros Hi Hc Hs Htr Hit Hsl Ht Hm Hmg Hh Hal Hcalm Htok. pose proof Hi as [H1 H2 H3 H4 H5]. split; [|rewrite Hit|by rewrite Hit|by apply (trace_keep w)|].
  - intros t'. destruct (decide (t' = t)) as [->|Hne]; [done|]. apply (local_tok a Ha t (fresh w) x x w w'); [|done|done]. split; try done; try (intros; congruence).
    + lia.
    + exists []. by rewrite app_nil_r.
    + intros y Hy Hid. apply known_fresh in Hy; [lia|done].
  - rewrite Forall_forall in H2 |- *. intros it Hin. destruct (H2 it Hin) as (y & d & H). exists y, d. by rewrite Htr, Hs.
  - apply (global_keep w); [done..| |done]. intros t' s' Es. rewrite Hs in Es. by exists s'.
Qed.

Lemma token_bound x w : inv x w -> next_client_token w <= next_client_token w <= u64_max.
Proof. intros Hi. pose proof (g_token _ _ _ (i_global _ _ _ _ Hi)). lia. Qed.
Lemma client_of x w t c : inv x w -> clients w !! t = Some c -> poisoned c = false ->
  exists s e, sessions w !! t = Some s /\ x !! t = Some e /\ session_ok a w t s /\ exch_ok a (memory w) (trace w) (manager w) s e /\ client_ok a (memory w) (trace w) s e c /\
    (forall y, exch_call e = Some y -> known (trace w) y /\ call_token y = t).
Proof.
  intros Hi Hc Hp. pose proof (i_tok _ _ _ _ Hi t) as [H1 H2]. rewrite Hc in H2. destruct H2 as [_ H2]. rewrite Hp in H2. destruct H2 as (s & e & Hs & He & Hco). rewrite Hs, He in H1. destruct H1 as (? & ? & ?). by exists s, e.
Qed.
Lemma inv_poison x w t c : inv x w -> clients w !! t = Some c -> inv x (set_client t (close c) w).
Proof.
  intros Hi Hc. apply (quiet_inv t x w); cbn; try done.
  - intros t' Hne. by rewrite lookup_insert_ne.
  - by apply (token_bound x).
  - by left.
  - apply (i_global _ _ _ _ Hi).
  - apply (calmer_client w _ t (close c)); [done..|by left].
  - pose proof (i_tok _ _ _ _ Hi t) as [H1 H2]. rewrite Hc in H2. split; [exact H1|]. cbn. rewrite lookup_insert_eq. split; [apply H2|done].
Qed.

(** A step of the exchange [e] of the session [t], whose messages [old] become [new]. *)
Lemma session_step t y x w w' e e' s s' evs old new rest :
  inv x w -> x !! t = Some e -> exch_call e = Some y -> sessions w !! t = Some s -> sessions w' = <[t := s']> (sessions w) -> slot_index s' = slot_index s ->
  (forall t', t' <> t -> clients w' !! t' = clients w !! t') -> calmer w w' -> slots w' = slots w -> next_client_token w' = next_client_token w ->
  (forall slot, slot <> slot_index s -> agree (base a slot) (limit a slot) (memory w) (memory w')) -> agree 0 32 (memory w) (memory w') ->
  trace w' = trace w ++ evs -> Forall (fun ev => ev_id ev = call_id y) evs ->
  manager w' = manager w \/ busy e \/ manager_items (manager w) = [] -> alloc_ok a w' ->
  items w ≡ₚ old ++ rest -> items w' ≡ₚ new ++ rest -> (call_id y ∉ rest.*1) -> new = [] \/ (exists i, new = [(call_id y, i)] /\ item_ok (<[t := e']> x) w' (call_id y, i)) ->
  tok_ok (<[t := e']> x) w' t -> trace_ok w' -> inv (<[t := e']> x) w'.
Proof.
  intros Hi He Hy Hse Hs Hss Hc Hcalm Hsl Ht Hm Hh Htr Hev Hmg Hal Hp Hp' Hn Hnew Htok Htrok. destruct (exch_of _ _ _ _ _ Hi He Hy) as (s0 & Hs0 & _ & _ & Hk & Hty).
  apply (session_step_inv a m0 Ha t (call_id y) x _ w w' old new rest); try done.
  - split; try done; rewrite ?Hs, ?Hsl, ?Ht; try done.
    + intros t' Hne. by rewrite lookup_insert_ne.
    + intros t' Hne. by rewrite lookup_insert_ne.
    + intros t' u Hne Hu. apply Hm. intros Heq. apply Hne. by apply (g_inj _ _ _ (i_global _ _ _ _ Hi) t' t u s).
    + by exists evs.
    + intros y' Hy' Hid. assert (y' = y) as -> by (apply (known_inj w); [apply Hi|done..]). done.
    + destruct Hmg as [Hmg|[Hb|Hmi]]; [by left|right..]; intros t' e0 Hne He0; [by apply (not_busy x w t t' e e0)|by apply (idle_not_busy x w t')].
  - intros e0 y0 He0 Hy0. congruence.
  - intros Hno. congruence.
  - destruct Hnew as [->|(i & -> & _)]; repeat constructor.
  - destruct Hnew as [->|(i & -> & _)]; [constructor|apply NoDup_singleton].
  - destruct Hnew as [->|(i & -> & Hi')]; [constructor|by apply Forall_singleton].
  - apply (global_keep w); [apply Hi|done|rewrite Ht; by apply (token_bound x)|done| |done]. intros t0 u Hu. rewrite Hs in Hu. destruct (decide (t0 = t)) as [->|Hne]; [rewrite lookup_insert_eq in Hu; injection Hu as <-; by exists s|rewrite lookup_insert_ne in Hu by done; by exists u].
Qed.
(** The same when only the engine of the session acts. *)
Lemma engine_step t c' y x w w' e e' evs old new rest :
  inv x w -> x !! t = Some e -> exch_call e = Some y -> live w t ->
  clients w' = <[t := c']> (clients w) -> sessions w' = sessions w -> manager w' = manager w -> memory w' = memory w ->
  slots w' = slots w -> next_client_token w' = next_client_token w -> fresh w' = fresh w -> trace w' = trace w ++ evs -> Forall (fun ev => ev_id ev = call_id y) evs ->
  items w ≡ₚ old ++ rest -> items w' ≡ₚ new ++ rest -> (call_id y ∉ rest.*1) -> new = [] \/ (exists i, new = [(call_id y, i)] /\ item_ok (<[t := e']> x) w' (call_id y, i)) ->
  tok_ok (<[t := e']> x) w' t -> trace_ok w' -> inv (<[t := e']> x) w'.
Proof.
  intros Hi He Hy Hl Hc Hs Hmg Hm Hsl Ht Hfr Htr Hev Hp Hp' Hn Hnew Htok Htrok. destruct (exch_of _ _ _ _ _ Hi He Hy) as (s & Hse & _).
  apply (session_step t y x w w' e e' s s evs old new rest); rewrite ?Hm, ?Hmg; try done.
  - by rewrite Hs, insert_id.
  - intros t' Hne. by rewrite Hc, lookup_insert_ne.
  - apply (calmer_client w w' t c'); [by rewrite Hfr|done..|by right].
  - by left.
  - pose proof (g_alloc _ _ _ (i_global _ _ _ _ Hi)) as Hal. unfold alloc_ok in *. by rewrite Hmg, Hsl.
Qed.
Lemma call_inv t c' y x w w' e e' evs :
  inv x w -> x !! t = Some e -> exch_call e = Some y -> ~ flying e -> live w t ->
  clients w' = <[t := c']> (clients w) -> sessions w' = sessions w -> manager w' = manager w -> items w' = items w -> memory w' = memory w ->
  slots w' = slots w -> next_client_token w' = next_client_token w -> fresh w' = fresh w -> trace w' = trace w ++ evs -> Forall (fun ev => ev_id ev = call_id y) evs ->
  tok_ok (<[t := e']> x) w' t -> trace_ok w' -> inv (<[t := e']> x) w'.
Proof.
  intros Hi He Hy Hf Hl Hc Hs Hmg Hit Hm Hsl Ht Hfr Htr Hev Htok Htrok. apply (engine_step t c' y x w w' e e' evs [] [] (items w)); try done; [by rewrite Hit|by apply (no_items x w t e)|by left].
Qed.
End Steps.
