(* ===== verification/ChannelEngine.v ===== *)
(** * Calls over the channel: the engine's events

    Starting, writing, submitting, receiving, reading back, giving up and exiting keep the invariant. *)
From S2P Require Import Prelude Vecs Words Wire Arena ArenaSpec Frames Channel ChannelInv ChannelSteps.

Local Open Scope Z_scope.
Local Open Scope rust_scope.

Section Engine.
Context (a : DescriptorArena) (Ha : arena_ok a) (Hep : is_u64 (Arena.session_epoch a)) (m0 : mem).
Abbreviation inv := (inv a m0).
Abbreviation tok_ok := (tok_ok a).
Abbreviation item_ok := (item_ok a).

Lemma tok_make x w t s e c :
  sessions w !! t = Some s -> x !! t = Some e -> session_ok a w t s -> exch_ok a (memory w) (trace w) (manager w) s e ->
  (forall y, exch_call e = Some y -> known (trace w) y /\ call_token y = t) -> clients w !! t = Some c ->
  (if poisoned c then phase c = Idle else client_ok a (memory w) (trace w) s e c) -> tok_ok x w t.
Proof.
  intros Hs He Hso Hx Hy Hc Hco. unfold tok_ok. rewrite Hs, He, Hc. split; [done|]. split; [apply Hso|]. destruct (poisoned c); [done|]. by exists s, e.
Qed.
Lemma live_intro w t c : clients w !! t = Some c -> poisoned c = false -> live w t.
Proof. intros. by exists c. Qed.
(** The descriptor of a slot fits its fields. *)
Lemma holds_wf m slot d p : in_range a slot -> holds a m slot d p -> descriptor_wf d.
Proof.
  intros Hr (_ & _ & _ & Hl & Ho & Hc & Hg). pose proof (limit_fits a Ha slot Hr) as [Hb Hlim]. pose proof (stride_pos a Ha). destruct Ha as [Hcap _ _ _ _ Hby]. pose proof (zlen_nonneg p). unfold limit, ARENA_HEADER_BYTES in *.
  split_and!; [unfold is_u64; lia|unfold is_u32; lia|done].
Qed.

(** *** A new call *)

Lemma ccall_inv x w t c k request payload operation :
  inv x w -> clients w !! t = Some c -> phase c = Idle -> poisoned c = false -> is_u64 request -> is_u64 operation ->
  let y := mkCall (fresh w) t k request payload operation in
  inv (<[t := XWriting y]> x) (set_client t (in_phase (Writing y (write_request c payload)) c) (log (EvCall y) (set_fresh (S (fresh w)) w))).
Proof.
  intros Hi Hc Hph Hp Hr Ho y. destruct (client_of a m0 x w t c Hi Hc Hp) as (s & e & Hs & He & Hso & Hx & Hco & _). pose proof Hco as (Hca & Hcs & Hce & Hct & _ & Hcp). rewrite Hph in Hcp. destruct e; try done.
  assert (forall ev, ev ∈ trace w -> ev_id ev <> fresh w) as Hfresh by (intros ev Hev Heq; apply (t_known _ (i_trace _ _ _ _ Hi)) in Hev as [? _]; lia).
  assert (forall ev, ev_id ev = fresh w -> ev <> EvCall y -> ev ∉ trace w ++ [EvCall y]) as Hnew by (intros ev He1 He2 [Hin|Hin%list_elem_of_singleton]%elem_of_app; [by apply (Hfresh ev)|done]).
  set (w' := set_client _ _ _). apply (session_step_inv a m0 Ha t (fresh w) x _ w w' [] [] (items w)); try done.
  - split; cbn; try done.
    + intros t' Hne. by rewrite lookup_insert_ne.
    + intros t' Hne. by rewrite lookup_insert_ne.
    + exists [EvCall y]. split; [done|]. by apply Forall_singleton.
    + intros y' Hy' Hid. by destruct (Hfresh _ Hy').
    + by left.
  - intros e0 y0 He0 Hy0. rewrite He in He0. by injection He0 as <-.
  - intros Hno. congruence.
  - by apply (fresh_no_items a m0 x).
  - constructor.
  - apply (tok_make _ w' t s (XWriting y) (in_phase (Writing y (write_request c payload)) c)); try done.
    + by rewrite lookup_insert_eq.
    + split; intros p; by apply Hnew.
    + intros y' [= <-]. split; [|done]. apply elem_of_app. right. by apply list_elem_of_singleton.
    + cbn. by rewrite lookup_insert_eq.
    + cbn. rewrite Hp. split_and!; [done..|intros y' [= <-] o; by apply Hnew|]. cbn. destruct Hso as (_ & _ & _ & Hg & Hrange).
      unfold write_request. rewrite Hca, Hcs. unfold write_slot. rewrite (slot_offset_eq a Ha) by done. split_and!; [done|done|by apply write_at_within|]. pose proof (write_at_exec a Ha (slot_index s) (next_generation c) payload (memory w) Hrange ltac:(by rewrite <- Hcp)) as Hw.
      destruct (exec _ _).2; [|done]. by destruct Hw as [-> ?].
  - apply (trace_log w _ (EvCall y)); [apply Hi|done| |].
    + apply (calmer_client w w' t (in_phase (Writing y (write_request c payload)) c)); [cbn; lia|done..|right; by apply (live_intro w t c)].
    + cbn. split_and!; [done|lia|apply Hso|done..].
  - apply (global_keep a m0 w); [apply Hi|done|exact (token_bound a m0 x w Hi)|done|intros t0 s0 Hs0; by exists s0|]. apply Hi.
Qed.
(** A call on a closed channel. *)
Lemma ccall_closed x w y :
  inv x w -> call_id y = fresh w -> call_token y < next_client_token w -> is_u64 (call_request y) -> is_u64 (call_operation y) ->
  inv x (log (EvReturn (call_id y) (Returned (Err SessionRequiresReconnect))) (log (EvCall y) (set_fresh (S (fresh w)) w))).
Proof.
  intros Hi Hid Htok Hr Ho. set (t := next_client_token w). assert (sessions w !! t = None /\ x !! t = None /\ clients w !! t = None) as (Hs & Hx & Hc).
  { pose proof (i_tok _ _ _ _ Hi t) as [H1 H2]. assert (sessions w !! t = None) as Es by (destruct (sessions w !! t) as [s|], (x !! t); try done; destruct H1 as ((_ & ? & _) & _); lia). rewrite Es in H1 |- *.
    split_and!; [done|by destruct (x !! t)|]. destruct (clients w !! t); [|done]. destruct H2 as [? _]. lia. }
  assert (forall ev, ev ∈ trace w -> ev_id ev <> fresh w) as Hfresh by (intros ev Hev Heq; apply (t_known _ (i_trace _ _ _ _ Hi)) in Hev as [? _]; lia).
  assert (trace_ok (log (EvCall y) (set_fresh (S (fresh w)) w))) as Ht1.
  { apply (trace_log w _ (EvCall y)); [apply Hi|done|by apply calmer_same; cbn; [lia|..]|]. cbn. split_and!; [done|lia|done..]. }
  set (w' := log _ _). apply (session_step_inv a m0 Ha t (fresh w) x x w w' [] [] (items w)); try done.
  - split; cbn; try done.
    + exists [EvCall y; EvReturn (call_id y) (Returned (Err SessionRequiresReconnect))]. split; [by rewrite <- app_assoc|]. repeat constructor; done.
    + intros y' Hy' Hid'. by destruct (Hfresh _ Hy').
    + by left.
  - intros e0 y0 He0. congruence.
  - intros _. by left.
  - by apply (fresh_no_items a m0 x).
  - constructor.
  - unfold tok_ok. cbn. by rewrite Hs, Hx, Hc.
  - apply (trace_log (log (EvCall y) (set_fresh (S (fresh w)) w)) w' (EvReturn (call_id y) (Returned (Err SessionRequiresReconnect)))); [done|done|by apply calmer_same|].
    exists y. split_and!; [|done|done]. apply elem_of_app. right. by apply list_elem_of_singleton.
  - apply (global_keep a m0 w); [apply Hi|done|exact (token_bound a m0 x w Hi)|done|intros t0 s0 Hs0; by exists s0|]. apply Hi.
Qed.

(** *** Programs of the engine *)

Lemma writing_inv x w t c y p :
  inv x w -> clients w !! t = Some c -> poisoned c = false -> phase c = Writing y p ->
  inv x (set_client t (in_phase (Writing y (pstep p (memory w)).2) c) (set_memory (pstep p (memory w)).1 w)).
Proof.
  intros Hi Hc Hp Hph. destruct (client_of a m0 x w t c Hi Hc Hp) as (s & e & Hs & He & Hso & Hx & Hco & Hy). pose proof Hco as (Hca & Hcs & Hce & Hct & Hret & Hcp). rewrite Hph in Hcp. destruct e; try done. destruct Hcp as (<- & Hg & Hown & Hex).
  destruct (mem_step a Ha (slot_index s) _ p (memory w) ltac:(apply Hso) Hown) as [Hm1 Hm2]. set (c' := in_phase _ c). apply (quiet_inv a Ha m0 t x w); cbn; try done.
  - intros t' Hne. by rewrite lookup_insert_ne.
  - by apply (token_bound a m0 x).
  - intros t' s' Hne Hs'. apply Hm1. intros Heq. apply Hne. by apply (g_inj _ _ _ (i_global _ _ _ _ Hi) t' t s' s).
  - by left.
  - apply Hi.
  - apply (calmer_client w _ t c'); [done..|right; by apply (live_intro w t c)].
  - apply (tok_make _ _ t s (XWriting y) c'); cbn; try done; [by rewrite lookup_insert_eq|]. rewrite Hp. split_and!; [done..|]. cbn. split_and!; [done|done|by apply within_step|]. rewrite exec_step. destruct (exec p (memory w)).2; [done|]. by subst p.
Qed.
Lemma reading_inv x w t c y d p :
  inv x w -> clients w !! t = Some c -> poisoned c = false -> phase c = Reading y d p ->
  inv x (set_client t (in_phase (Reading y d (pstep p (memory w)).2) c) (set_memory (pstep p (memory w)).1 w)).
Proof.
  intros Hi Hc Hp Hph. destruct (client_of a m0 x w t c Hi Hc Hp) as (s & e & Hs & He & Hso & Hx & Hco & Hy). pose proof Hco as (Hca & Hcs & Hce & Hct & Hret & Hcp). rewrite Hph in Hcp. destruct e; try done. destruct Hcp as (<- & <- & Hg & Hown & Hex).
  destruct (mem_step a Ha (slot_index s) _ p (memory w) ltac:(apply Hso) Hown) as [Hm1 Hm2]. set (c' := in_phase _ c). apply (quiet_inv a Ha m0 t x w); cbn; try done.
  - intros t' Hne. by rewrite lookup_insert_ne.
  - by apply (token_bound a m0 x).
  - intros t' s' Hne Hs'. apply Hm1. intros Heq. apply Hne. by apply (g_inj _ _ _ (i_global _ _ _ _ Hi) t' t s' s).
  - by left.
  - apply Hi.
  - apply (calmer_client w _ t c'); [done..|right; by apply (live_intro w t c)].
  - eapply (tok_make _ _ t s); cbn; try done; [by rewrite lookup_insert_eq|]. cbn. rewrite Hp. split_and!; [done..|]. cbn. split_and!; [done..|by apply within_step|]. by rewrite exec_step.
Qed.
Lemma write_failed_inv x w t c y e :
  inv x w -> clients w !! t = Some c -> poisoned c = false -> phase c = Writing y (Ret (Err e)) ->
  inv (<[t := XIdle]> x) (log (EvReturn (call_id y) (Returned (Err (ChBootstrap (ArenaErr e))))) (set_client t (in_phase Idle c) w)).
Proof.
  intros Hi Hc Hp Hph. destruct (client_of a m0 x w t c Hi Hc Hp) as (s & e0 & Hs & He & Hso & Hx & Hco & Hy). pose proof Hco as (Hca & Hcs & Hce & Hct & Hret & Hcp). rewrite Hph in Hcp. destruct e0; try done. destruct Hcp as (<- & Hg & Hown & Hex). destruct (Hy y eq_refl) as [Hk Hty].
  set (w' := log _ _). apply (call_inv a Ha m0 t (in_phase Idle c) y x w w' (XWriting y) XIdle [EvReturn (call_id y) (Returned (Err (ChBootstrap (ArenaErr e))))]); try done.
  - tauto.
  - by apply (live_intro w t c).
  - by apply Forall_singleton.
  - apply (tok_make _ w' t s XIdle (in_phase Idle c)); cbn; try done; [by rewrite lookup_insert_eq..|]. rewrite Hp. by split_and!.
  - apply (trace_log w w' (EvReturn (call_id y) (Returned (Err (ChBootstrap (ArenaErr e)))))); [apply Hi|done|apply (calmer_client w w' t (in_phase Idle c)); [done..|right; by apply (live_intro w t c)]|]. by exists y.
Qed.
Lemma written_inv x w t c y d :
  inv x w -> clients w !! t = Some c -> poisoned c = false -> phase c = Writing y (Ret (Ok d)) ->
  inv (<[t := XWritten y d]> x) (set_client t (in_phase (Written y d) c) w).
Proof.
  intros Hi Hc Hp Hph. destruct (client_of a m0 x w t c Hi Hc Hp) as (s & e0 & Hs & He & Hso & Hx & Hco & Hy). pose proof Hco as (Hca & Hcs & Hce & Hct & Hret & Hcp). rewrite Hph in Hcp. destruct e0; try done. destruct Hcp as (<- & Hg & Hown & Hex). destruct (Hy y eq_refl) as [Hk Hty].
  cbn in Hex. destruct Hex as [Hho Hgd]. set (w' := set_client _ _ _). apply (call_inv a Ha m0 t (in_phase (Written y d) c) y x w w' (XWriting y) (XWritten y d) []); try done.
  - tauto.
  - by apply (live_intro w t c).
  - by rewrite app_nil_r.
  - apply (tok_make _ w' t s (XWritten y d) (in_phase (Written y d) c)); cbn; try done; [by rewrite lookup_insert_eq|destruct Hx; split_and!; [done..|congruence]|by rewrite lookup_insert_eq|]. rewrite Hp. by split_and!.
  - apply (trace_keep w w'); [apply Hi|done|apply (calmer_client w w' t (in_phase (Written y d) c)); [done..|right; by apply (live_intro w t c)]].
Qed.

(** *** Submission *)

Lemma submit_inv x w t c y d :
  inv x w -> clients w !! t = Some c -> poisoned c = false -> phase c = Written y d ->
  inv (<[t := XQueued y d]> x) (set_client t (in_phase (Waiting y d) c) (set_requests (requests w ++ [(call_id y, encode_command (command_of c y d))]) w)).
Proof.
  intros Hi Hc Hp Hph. destruct (client_of a m0 x w t c Hi Hc Hp) as (s & e0 & Hs & He & Hso & Hx & Hco & Hy). pose proof Hco as (Hca & Hcs & Hce & Hct & Hret & Hcp). rewrite Hph in Hcp. destruct e0; try done. destruct Hcp as (<- & <- & Hg). destruct (Hy y eq_refl) as [Hk Hty].
  assert (command_of c y d = cmd a y d) as Hcmd by (unfold command_of, cmd; rewrite Hce, Hct, Hty; by destruct Hso as (-> & _)).
  destruct Hx as (Hq1 & Hq2 & Hho & Hgd). pose proof Hso as (Hst & Htb & _ & _ & Hr). destruct (t_calls _ (i_trace _ _ _ _ Hi) y Hk) as (_ & Hru & Hou).
  set (w' := set_client _ _ _). apply (engine_step a Ha m0 t (in_phase (Waiting y d) c) y x w w' (XWritten y d) (XQueued y d) [] [] [(call_id y, IReq (encode_command (cmd a y d)))] (items w)); try done.
  - by apply (live_intro w t c).
  - by rewrite app_nil_r.
  - unfold items. cbn. rewrite Hcmd. unfold req_items. rewrite fmap_app. cbn. rewrite <- !app_assoc. cbn. by rewrite <- !Permutation_middle.
  - by apply (no_items a m0 x w t (XWritten y d)); [..|tauto].
  - right. eexists. split; [done|]. exists y, d. cbn. split_and!; [done|done|done| |by exists (slot_index s); split; [|apply Hho]| |].
    + pose proof (holds_wf _ _ _ _ Hr Hho). unfold command_wf. cbn. split_and!; [done..|rewrite Hty; pose proof (g_token _ _ _ (i_global _ _ _ _ Hi)); unfold is_u64; lia|done].
    + intros _ r. by apply Hret.
    + right. exists (XQueued y d). by rewrite Hty, lookup_insert_eq.
  - apply (tok_make _ w' t s (XQueued y d) (in_phase (Waiting y d) c)); cbn; try done; [by rewrite lookup_insert_eq..|]. rewrite Hp. by split_and!.
  - apply (trace_keep w w'); [apply Hi|done|apply (calmer_client w w' t (in_phase (Waiting y d) c)); [done..|right; by apply (live_intro w t c)]].
Qed.

(** *** The end of a call *)

Lemma take_out_Some {A} n (l l' : list (nat * A)) v : take_out n l = Some (v, l') -> l ≡ₚ (n, v) :: l'.
Proof.
  unfold take_out. intros (i & Hi & Hp)%bind_Some. apply bind_Some in Hp as ([n' v'] & Hp & [= <- <-]). apply position_Some in Hi as (q & Hq & He%bool_decide_eq_true). rewrite Hp in Hq. injection Hq as <-. cbn in He. subst n'. by apply delete_Permutation.
Qed.
Lemma exch_return m tr mp s e n o : exch_ok a m tr mp s e -> exch_ok a m (tr ++ [EvReturn n o]) mp s e.
Proof. apply exch_frame; [done|done| |by left]. intros y _ ev ->%list_elem_of_singleton. by split. Qed.
(** Worlds that differ in their messages only. *)
Definition alike (w w1 : World) : Prop :=
  clients w1 = clients w /\ sessions w1 = sessions w /\ manager w1 = manager w /\ memory w1 = memory w /\ slots w1 = slots w /\
  next_client_token w1 = next_client_token w /\ fresh w1 = fresh w /\ trace w1 = trace w.
(** The channel is closed, with an outcome that is no success. *)
Lemma close_return x w w1 t c y d e o old rest :
  inv x w -> clients w !! t = Some c -> poisoned c = false -> x !! t = Some e -> exch_call e = Some y -> (forall p, o <> Returned (Ok p)) ->
  (phase c = Written y d \/ phase c = Waiting y d) ->
  alike w w1 -> items w ≡ₚ old ++ rest -> items w1 ≡ₚ rest -> (call_id y ∉ rest.*1) -> inv (<[t := XOver]> x) (log (EvReturn (call_id y) o) (set_client t (close c) w1)).
Proof.
  intros Hi Hc Hp He Hy Ho Hph (Q1 & Q2 & Q3 & Q4 & Q5 & Q6 & Q7 & Q8) Hold Hrest Hn. destruct (exch_of a m0 x w t e y Hi He Hy) as (s & Hs & Hso & _ & Hk & Hty).
  set (w' := log _ _). apply (engine_step a Ha m0 t (close c) y x w w' e XOver [EvReturn (call_id y) o] old [] rest); cbn; rewrite ?Q1, ?Q2, ?Q3, ?Q4, ?Q5, ?Q6, ?Q7, ?Q8; try done.
  - by apply (live_intro w t c).
  - by apply Forall_singleton.
  - by left.
  - apply (tok_make _ w' t s XOver (close c)); cbn; rewrite ?Q1, ?Q2; try done; [by rewrite lookup_insert_eq|unfold session_ok; cbn; by rewrite Q5, Q6|by rewrite lookup_insert_eq].
  - apply (trace_log w w' (EvReturn (call_id y) o)); [apply Hi|cbn; by rewrite Q8|apply (calmer_client w w' t (close c)); cbn; rewrite ?Q1, ?Q7; [done..|by left]|]. exists y. split_and!; [done..|]. destruct o as [[p|]|]; [by destruct (Ho p)|done..].
Qed.
Lemma submit_failed_inv x w t c y d :
  inv x w -> clients w !! t = Some c -> poisoned c = false -> phase c = Written y d ->
  inv (<[t := XOver]> x) (log (EvReturn (call_id y) (Returned (Err (ChTransport RequestSend)))) (set_client t (close c) w)).
Proof.
  intros Hi Hc Hp Hph. destruct (client_of a m0 x w t c Hi Hc Hp) as (s & e0 & Hs & He & Hso & Hx & Hco & Hy). pose proof Hco as (_ & _ & _ & _ & _ & Hcp). rewrite Hph in Hcp. destruct e0; try done. destruct Hcp as (<- & <- & Hg).
  apply (close_return x w w t c y d (XWritten y d) _ [] (items w)); try done; [by left|]. apply (no_items a m0 x w t (XWritten y d)); [done..|tauto].
Qed.
Lemma abandon_inv x w t c y d :
  inv x w -> clients w !! t = Some c -> poisoned c = false -> phase c = Waiting y d ->
  inv x (log (EvReturn (call_id y) (outcome (is_publish y) (Err (ChTransport NoResponse)))) (set_client t (close c) w)).
Proof.
  intros Hi Hc Hp Hph. destruct (client_of a m0 x w t c Hi Hc Hp) as (s & e & Hs & He & Hso & Hx & Hco & Hy). pose proof Hco as (_ & _ & _ & _ & _ & Hcp). rewrite Hph in Hcp.
  assert (exch_call e = Some y) as Hey by (destruct e; try done; cbn; by destruct Hcp as (-> & _)). destruct (Hy y Hey) as [Hk Hty].
  destruct (split_items (items w) (call_id y) (i_nodup _ _ _ _ Hi)) as (old & rest & Hpm & Hn & Hold). set (ev := EvReturn (call_id y) (outcome (is_publish y) (Err (ChTransport NoResponse)))). set (w' := log ev _). rewrite <- (insert_id x t e He).
  apply (engine_step a Ha m0 t (close c) y x w w' e e [ev] old old rest); try done.
  - by apply (live_intro w t c).
  - by apply Forall_singleton.
  - destruct Hold as [->|(i & ->)]; [by left|right]. exists i. split; [done|]. pose proof (i_items _ _ _ _ Hi) as Hit. rewrite Hpm in Hit. cbn in Hit. apply Forall_cons in Hit as [Hit _]. destruct Hit as (y' & d' & Hk' & Hid & Hst & Hret & Hat). cbn in Hid.
    assert (y' = y) as -> by (apply (known_inj w); [apply Hi|done..]). exists y, d'. cbn. split_and!; [by apply known_app|done|done| |rewrite insert_id by done; done].
    destruct i; try done; intros Hpub r' [Hin|Hin%list_elem_of_singleton]%elem_of_app; try (by apply (Hret Hpub r')); unfold ev, outcome in Hin; by rewrite Hpub in Hin.
  - apply (tok_make _ w' t s e (close c)); cbn; try done; [by rewrite lookup_insert_eq|by apply exch_return| |by rewrite lookup_insert_eq]. intros y' Hy'. split; [apply known_app|]; by apply Hy.
  - apply (trace_log w w' ev); [apply Hi|done|apply (calmer_client w w' t (close c)); [done..|by left]|]. exists y. split_and!; [done..|]. unfold outcome. by destruct (is_publish y).
Qed.

Lemma completed_eq c y d r : next_generation c = generation d -> generation d + 2 <= u64_max ->
  completed c y d r = (mkClient (c_arena c) (c_info c) (generation d + 2) (poisoned c) Idle, Some (Returned r)).
Proof. intros Hg Hm. unfold completed, complete_request, checked_add. rewrite Hg, Z.eqb_refl. cbn [negb]. by rewrite (proj2 (Z.leb_le _ _)). Qed.
(** Both sides agree on the next generation after a call that the Manager consumed. *)
Lemma completed_inv x w w1 t c y d s e r old rest :
  inv x w -> clients w !! t = Some c -> poisoned c = false -> sessions w !! t = Some s -> x !! t = Some e -> exch_call e = Some y -> client_ok a (memory w) (trace w) s e c -> after a (trace w) s y d ->
  (forall p, r = Ok p -> if bool_decide (call_code y = Restore) then p = [] else EvAnswer (call_id y) p ∈ trace w) ->
  alike w w1 -> items w ≡ₚ old ++ rest -> items w1 ≡ₚ rest -> (call_id y ∉ rest.*1) ->
  inv (<[t := XIdle]> x) (log (EvReturn (call_id y) (Returned r)) (set_client t (mkClient (c_arena c) (c_info c) (generation d + 2) (poisoned c) Idle) w1)).
Proof.
  intros Hi Hc Hp Hs He Hy Hco Haf Hr (Q1 & Q2 & Q3 & Q4 & Q5 & Q6 & Q7 & Q8) Hold Hrest Hn. destruct (exch_of a m0 x w t e y Hi He Hy) as (s0 & Hs0 & Hso & _ & Hk & Hty). rewrite Hs in Hs0. injection Hs0 as <-. set (c' := mkClient _ _ _ _ _) in *. destruct Hco as (Hca & Hcs & Hce & Hct & _ & _).
  set (w' := log _ _). apply (engine_step a Ha m0 t c' y x w w' e XIdle [EvReturn (call_id y) (Returned r)] old [] rest); cbn; rewrite ?Q1, ?Q2, ?Q3, ?Q4, ?Q5, ?Q6, ?Q7, ?Q8; try done.
  - by apply (live_intro w t c).
  - by apply Forall_singleton.
  - by left.
  - apply (tok_make _ w' t s XIdle c'); cbn; rewrite ?Q1, ?Q2; try done; [by rewrite lookup_insert_eq|unfold session_ok; cbn; by rewrite Q5, Q6|by rewrite lookup_insert_eq|]. rewrite Hp. split_and!; [done..|]. cbn. apply Haf.
  - apply (trace_log w w' (EvReturn (call_id y) (Returned r))); [apply Hi|cbn; by rewrite Q8|apply (calmer_client w w' t c'); cbn; rewrite ?Q1, ?Q7; [done..|right; by apply (live_intro w t c)]|]. exists y. split_and!; [done..|]. destruct r as [p|]; [|done]. split; [apply Haf|by apply Hr].
Qed.
Lemma check_reply_ok c y d r : response_wf r -> rsp_request r = call_request y -> rsp_epoch r = info_epoch (c_info c) -> check_reply (command_of c y d) (encode_response r) = Ok r.
Proof. intros Hwf Hr He. unfold check_reply. rewrite response_round_trip by done. cbn. by rewrite Hr, He, !Z.eqb_refl, andb_false_r. Qed.

Lemma receive_inv x w t c y d m l :
  inv x w -> clients w !! t = Some c -> poisoned c = false -> phase c = Waiting y d -> take_out (call_id y) (replies w) = Some (m, l) ->
  exists x', inv x' (returns (call_id y) (after_reply c y d m).2 (set_client t (after_reply c y d m).1 (set_replies l w))).
Proof.
  intros Hi Hc Hp Hph Hto. apply take_out_Some in Hto. destruct (client_of a m0 x w t c Hi Hc Hp) as (s & e & Hs & He & Hso & Hx & Hco & Hy). pose proof Hco as (Hca & Hcs & Hce & Hct & Hret & Hcp). rewrite Hph in Hcp.
  assert (items w ≡ₚ [(call_id y, IRep m)] ++ items (set_replies l w)) as Hpm. { unfold items. cbn. unfold rep_items. rewrite Hto. cbn. by rewrite <- !Permutation_middle. }
  assert (exch_call e = Some y) as Hey by (destruct e; try done; cbn; by destruct Hcp as (-> & _)). destruct (Hy y Hey) as [Hk Hty].
  assert (call_id y ∉ (items (set_replies l w)).*1) as Hn. { pose proof (i_nodup _ _ _ _ Hi) as Hnd. rewrite Hpm in Hnd. cbn in Hnd. by apply NoDup_cons in Hnd as [? _]. }
  destruct (item_at a m0 x w t e y (IRep m) Hi He Hey) as [d' Hd']. { rewrite Hpm. apply elem_of_app. left. by apply list_elem_of_singleton. } cbn in Hd'. subst e. destruct Hcp as (_ & <- & Hg). cbn in Hx. destruct Hx as (r & -> & Hrq & Hre & Hwf & Hv).
  unfold after_reply. rewrite check_reply_ok by (done || congruence). destruct Hv as [Hv|(Hv & Haf & Hans)]; rewrite Hv;
    [change (negb (Z.land 0 RESPONSE_FLAG_REQUEST_CONSUMED =? 0)) with false|change (negb (Z.land 1 RESPONSE_FLAG_REQUEST_CONSUMED =? 0)) with true]; cbv zeta; cbn [negb].
  - exists (<[t := XOver]> x). destruct (bool_decide_reflect (status r = StOk)) as [Hst|Hst]; cbn [negb].
    + unfold ambiguous. cbn. apply (close_return x w (set_replies l w) t c y d (XReplied y d (encode_response r)) _ [(call_id y, IRep (encode_response r))] (items (set_replies l w))); try done; [unfold outcome; by destruct (is_publish y)|by right].
    + cbn. apply (close_return x w (set_replies l w) t c y d (XReplied y d (encode_response r)) _ [(call_id y, IRep (encode_response r))] (items (set_replies l w))); try done; [unfold outcome; by destruct (_ && _)|by right].
  - assert (generation d + 2 <= u64_max) as Hmax by (destruct Haf as (_ & <- & _); apply Hso). destruct (bool_decide_reflect (status r = StOk)) as [Hst|Hst]; cbn [negb].
    + destruct (bool_decide_reflect (call_code y = Restore)) as [Hr|Hr].
      * exists (<[t := XIdle]> x). rewrite completed_eq by done. cbn. apply (completed_inv x w (set_replies l w) t c y d s (XReplied y d (encode_response r)) _ [(call_id y, IRep (encode_response r))] (items (set_replies l w))); try done. intros p [= <-]. by rewrite bool_decide_eq_true_2.
      * destruct (Hans Hst Hr) as (p & Hp1 & Hp2 & Hp3 & Hp4). exists (<[t := XReadback y d p]> x). unfold start_read, checked_add. rewrite (proj2 (Z.leb_le _ _)) by lia. rewrite Hp4, Hp3, !Z.eqb_refl. cbn [negb fst snd returns]. rewrite Hca. set (c' := in_phase _ c). set (w' := set_client _ _ _).
        apply (engine_step a Ha m0 t c' y x w w' (XReplied y d (encode_response r)) (XReadback y d p) [] [(call_id y, IRep (encode_response r))] [] (items (set_replies l w))); try done.
        -- by apply (live_intro w t c).
        -- by rewrite app_nil_r.
        -- by left.
        -- apply (tok_make _ w' t s (XReadback y d p) c'); cbn; try done; [by rewrite lookup_insert_eq..|]. rewrite Hp. split_and!; [done..|]. cbn. split_and!; [done..| |by rewrite (read_exec a Ha (memory w) (slot_index s) _ p) by (done || apply Hso)].
           assert (0 <= offset (rsp_descriptor r)) as Ho by (destruct Hwf as (_ & _ & (? & _) & _); unfold is_u64 in *; lia). pose proof (read_within a Ha (rsp_descriptor r) (fun _ => True) Ho (fun _ => I) (fun _ => I)) as Hrw. destruct Hp2 as (_ & _ & _ & _ & Hoff & _). rewrite Hoff, (validate_offset_eq a Ha) in Hrw by apply Hso. done.
        -- apply (trace_keep w w'); [apply Hi|done|apply (calmer_client w w' t c'); [done..|right; by apply (live_intro w t c)]].
    + exists (<[t := XIdle]> x). rewrite completed_eq by done. cbn. apply (completed_inv x w (set_replies l w) t c y d s (XReplied y d (encode_response r)) _ [(call_id y, IRep (encode_response r))] (items (set_replies l w))); try done.
Qed.
Lemma read_back_inv x w t c y d r :
  inv x w -> clients w !! t = Some c -> poisoned c = false -> phase c = Reading y d (Ret r) ->
  exists x', inv x' (returns (call_id y) (after_read c y d r).2 (set_client t (after_read c y d r).1 w)).
Proof.
  intros Hi Hc Hp Hph. destruct (client_of a m0 x w t c Hi Hc Hp) as (s & e & Hs & He & Hso & Hx & Hco & Hy). pose proof Hco as (Hca & Hcs & Hce & Hct & Hret & Hcp). rewrite Hph in Hcp. destruct e as [| | | | | | | | | |y' d' p]; try done. destruct Hcp as (<- & <- & Hg & Hown & Hex). cbn in Hex. subst r. destruct Hx as (Haf & Hans & Hnr).
  assert (generation d + 2 <= u64_max) as Hmax by (destruct Haf as (_ & <- & _); apply Hso). exists (<[t := XIdle]> x). unfold after_read. rewrite completed_eq by done. cbn.
  apply (completed_inv x w w t c y d s (XReadback y d p) (Ok p) [] (items w)); try done; [|by apply (no_items a m0 x w t (XReadback y d p)); [..|tauto]].
  intros q [= <-]. by rewrite bool_decide_eq_false_2.
Qed.
End Engine.
