(* ===== verification/ChannelManager.v ===== *)
(** * Calls over the channel: the Manager's events

    Accepting and ending sessions, and the dispatcher's path of a request (check, read, handle, answer, reply), keep
    the invariant; a session is ended only when its engine is gone. *)
From S2P Require Import Prelude Vecs Words Wire Arena ArenaSpec Frames Channel ChannelInv ChannelSteps ChannelEngine.

Local Open Scope Z_scope.
Local Open Scope rust_scope.

Section Manager.
Context (a : DescriptorArena) (Ha : arena_ok a) (Hep : is_u64 (Arena.session_epoch a)) (m0 : mem).
Abbreviation inv := (inv a m0).
Abbreviation tok_ok := (tok_ok a).
Abbreviation item_ok := (item_ok a).

(** ** A message on its way *)

Definition fly (e : Exch) : option (Call * DescriptorRef) :=
  match e with XQueued y d | XTaken y d | XHandling y d | XAnswering y d _ | XDeferred y d _ | XReplied y d _ => Some (y, d) | _ => None end.
Lemma fly_call e y d : fly e = Some (y, d) -> exch_call e = Some y.
Proof. destruct e; try done; intros [= <- <-]; done. Qed.
Lemma client_fly m m' tr evs s s' e e' c y d :
  fly e = Some (y, d) -> fly e' = Some (y, d) -> slot_index s' = slot_index s -> session_token s' = session_token s ->
  (forall ev o, ev ∈ evs -> ev <> EvReturn (call_id y) o) -> client_ok a m tr s e c -> client_ok a m' (tr ++ evs) s' e' c.
Proof.
  intros He He' Hs Ht Hev (H1 & H2 & H3 & H4 & H5 & H6). split_and!; [done|congruence|done|congruence| |].
  - intros y' Hy'. rewrite (fly_call _ _ _ He') in Hy'. injection Hy' as <-. apply (notin_app (EvReturn (call_id y))); [by apply H5, (fly_call e y d)|]. intros ev v Hin. by apply Hev.
  - destruct (phase c), e; try done; injection He as -> ->; destruct e'; try done; by injection He' as -> ->.
Qed.

Lemma fly_step x w w' t y d s s' e e' evs i i' rest :
  inv x w -> x !! t = Some e -> fly e = Some (y, d) -> fly e' = Some (y, d) -> sessions w !! t = Some s -> sessions w' = <[t := s']> (sessions w) ->
  slot_index s' = slot_index s -> session_token s' = session_token s -> is_u64 (next_request_generation s') ->
  clients w' = clients w -> slots w' = slots w -> next_client_token w' = next_client_token w -> fresh w' = fresh w ->
  (forall slot, slot <> slot_index s -> agree (base a slot) (limit a slot) (memory w) (memory w')) -> agree 0 32 (memory w) (memory w') ->
  trace w' = trace w ++ evs -> Forall (fun ev => ev_id ev = call_id y /\ forall o, ev <> EvReturn (call_id y) o) evs -> trace_ok w' ->
  manager w' = manager w \/ busy e \/ manager_items (manager w) = [] -> alloc_ok a w' ->
  items w ≡ₚ (call_id y, i) :: rest -> items w' ≡ₚ (call_id y, i') :: rest -> item_exch i' y d e' -> match i with IRep _ => False | _ => True end -> match i' with IReq _ => False | _ => True end ->
  exch_ok a (memory w') (trace w') (manager w') s' e' -> inv (<[t := e']> x) w'.
Proof.
  intros Hi He Hf Hf' Hs Hs' Hsl Hst Hg Hc Hslots Htok Hfr Hm Hh Htr Hev Htro Hmg Hal Hit Hit' Hie Hi1 Hi2 Hx. pose proof (fly_call _ _ _ Hf) as Hy. destruct (exch_of a m0 x w t e y Hi He Hy) as (s0 & Hs0 & Hso & _ & Hk & Hty). rewrite Hs in Hs0. injection Hs0 as <-.
  rewrite Forall_forall in Hev. assert (call_id y ∉ rest.*1) as Hn. { pose proof (i_nodup _ _ _ _ Hi) as Hnd. rewrite Hit in Hnd. cbn in Hnd. by apply NoDup_cons in Hnd as [? _]. }
  apply (session_step a Ha m0 t y x w w' e e' s s' evs [(call_id y, i)] [(call_id y, i')] rest); try done.
  - intros t' _. by rewrite Hc.
  - apply calmer_same; [by rewrite Hfr|done..].
  - apply Forall_forall. intros ev Hin. by apply Hev.
  - right. exists i'. split; [done|]. pose proof (i_items _ _ _ _ Hi) as Hok. rewrite Hit in Hok. apply Forall_cons in Hok as [(y1 & d1 & Hk1 & Hid1 & _ & Hret & _) _]. cbn in Hid1. assert (y1 = y) as -> by (apply (known_inj w); [apply Hi|done..]).
    exists y, d. cbn [fst snd]. split_and!; [rewrite Htr; by apply known_app|done|by destruct i'| |right; exists e'; by rewrite Hty, lookup_insert_eq].
    assert (is_publish y = true -> forall r, EvReturn (call_id y) (Returned r) ∉ trace w') as Hr; [|by destruct i'].
    intros Hp r. rewrite Htr. intros [Hin|Hin]%elem_of_app; [|by apply (proj2 (Hev _ Hin) (Returned r))]. by destruct i; try done; apply (Hret Hp r).
  - pose proof (i_tok _ _ _ _ Hi t) as [H1 H2]. rewrite Hs, He in H1. destruct H1 as (_ & Hx0 & _). unfold tok_ok. rewrite Hs', !lookup_insert_eq, Hc. split.
    + split_and!; [|done|intros y' Hy'; rewrite (fly_call _ _ _ Hf') in Hy'; injection Hy' as <-; split; [rewrite Htr; by apply known_app|done]]. destruct Hso as (? & ? & ? & ? & ?). unfold session_ok. rewrite Hsl, Hst, Hslots, Htok. tauto.
    + rewrite Htok. destruct (clients w !! t) as [c|]; [|done]. destruct H2 as [H2 H3]. split; [done|]. destruct (poisoned c); [done|]. destruct H3 as (s1 & e1 & Hs1 & He1 & Hco). rewrite Hs in Hs1. injection Hs1 as <-. rewrite He in He1. injection He1 as <-.
      exists s', e'. split_and!; [done..|]. rewrite Htr. apply (client_fly (memory w) _ _ _ s s' e e' c y d); [done..| |done]. intros ev o Hin. by apply Hev.
Qed.
(** The same for the call of a session that has ended: its messages mean nothing to anyone. *)
Lemma dead_step x w w' y evs i m rest :
  inv x w -> known (trace w) y -> sessions w !! call_token y = None -> sessions w' = sessions w -> clients w' = clients w -> slots w' = slots w ->
  next_client_token w' = next_client_token w -> fresh w' = fresh w -> memory w' = memory w -> manager w' = manager w ->
  trace w' = trace w ++ evs -> Forall (fun ev => ev_id ev = call_id y) evs -> trace_ok w' ->
  items w ≡ₚ (call_id y, i) :: rest -> items w' ≡ₚ (call_id y, IRep m) :: rest -> inv x w'.
Proof.
  intros Hi Hk Hd Hs Hc Hsl Ht Hfr Hm Hmg Htr Hev Htro Hit Hit'. set (t := call_token y) in *. pose proof (i_tok _ _ _ _ Hi t) as [H1 H2]. rewrite Hd in H1. destruct (x !! t) as [|] eqn:Hx; [done|].
  assert (call_id y ∉ rest.*1) as Hn. { pose proof (i_nodup _ _ _ _ Hi) as Hnd. rewrite Hit in Hnd. cbn in Hnd. by apply NoDup_cons in Hnd as [? _]. }
  apply (session_step_inv a m0 Ha t (call_id y) x x w w' [(call_id y, i)] [(call_id y, IRep m)] rest); try done.
  - split; rewrite ?Hs, ?Hc, ?Hsl, ?Ht, ?Hm; try done; [by exists evs| |by left]. intros y' Hy' Hid. by assert (y' = y) as -> by (apply (known_inj w); [apply Hi|done..]).
  - intros e y' He. congruence.
  - intros _. left. by rewrite Hs.
  - by apply Forall_singleton.
  - apply NoDup_singleton.
  - apply Forall_singleton. exists y, (mkDescriptor 0 0 0). cbn. split_and!; [rewrite Htr; by apply known_app|done..|]. left. by rewrite Hs.
  - unfold tok_ok. rewrite Hs, Hx, Hd, Hc, Ht. split; [done|]. destruct (clients w !! t) as [c|]; [|done]. destruct H2 as [H2 H3]. split; [done|]. destruct (poisoned c); [done|]. destruct H3 as (s' & e' & Hs' & _). congruence.
  - apply (global_keep a m0 w); [apply Hi|done|rewrite Ht; by apply (token_bound a m0 x)|by rewrite Hm|intros t' s' Hs'; exists s'; by rewrite Hs in Hs'|]. pose proof (g_alloc _ _ _ (i_global _ _ _ _ Hi)) as Hal. unfold alloc_ok in *. by rewrite Hmg, Hsl.
Qed.

(** ** Sessions *)

Lemma absent_tok x w : inv x w -> sessions w !! next_client_token w = None /\ x !! next_client_token w = None /\ clients w !! next_client_token w = None.
Proof.
  intros Hi. pose proof (i_tok _ _ _ _ Hi (next_client_token w)) as [H1 H2]. assert (sessions w !! next_client_token w = None) as Es by (destruct (sessions w !! next_client_token w) as [s|], (x !! next_client_token w); try done; destruct H1 as ((_ & ? & _) & _); lia).
  rewrite Es in H1 |- *. split_and!; [done|by destruct (x !! next_client_token w)|]. destruct (clients w !! next_client_token w); [|done]. destruct H2 as [? _]. lia.
Qed.
(** A step of the Manager that concerns no session. *)
Lemma manager_quiet x w w' :
  inv x w -> clients w' = clients w -> sessions w' = sessions w -> trace w' = trace w -> fresh w' = fresh w -> requests w' = requests w -> deferred w' = deferred w -> replies w' = replies w ->
  slots w' = slots w -> next_client_token w <= next_client_token w' <= u64_max ->
  (forall t s, sessions w !! t = Some s -> agree (base a (slot_index s)) (limit a (slot_index s)) (memory w) (memory w')) -> agree 0 32 (memory w) (memory w') ->
  manager_items (manager w) = [] -> manager_items (manager w') = [] -> alloc_ok a w' -> inv x w'.
Proof.
  intros Hi Hc Hs Htr Hfr Hr Hd Hp Hsl Ht Hm Hh Hmi Hmi' Hal. destruct (absent_tok x w Hi) as (E1 & E2 & E3). apply (quiet_inv a Ha m0 (next_client_token w) x w); try done.
  - intros t' _. by rewrite Hc.
  - unfold items. by rewrite Hmi, Hmi', Hr, Hd, Hp.
  - intros t' s _. apply Hm.
  - right. intros t' e _ He. by apply (idle_not_busy a m0 x w t').
  - split_and!; [by rewrite Hfr|lia|]. intros t _ (c & Hx & Hpo). rewrite Hc in Hx. by exists c.
  - unfold tok_ok. by rewrite Hs, Hc, E1, E2, E3.
Qed.

Lemma following_range current g : 0 <= current -> following_generation current = Some g -> 1 <= g <= u64_max.
Proof.
  intros Hc. unfold following_generation, checked_add. destruct (Z.eqb_spec current 0); [intros [= <-]; unfold u64_max; lia|]. destruct (is_multiple_of current 2).
  - destruct (Z.leb_spec (current + 1) u64_max); [intros [= <-]; lia|done].
  - destruct (Z.leb_spec (current + 2) u64_max); [intros [= <-]; lia|done].
Qed.
Lemma allocate_within slots slot : position negb slots = Some slot -> in_range a slot ->
  within (base a slot) (limit a slot) (fun r : result (nat * Z) BootstrapError => match r with Ok (k, g) => k = slot /\ 1 <= g <= u64_max | Err _ => True end) (allocate_slot a slots).
Proof.
  intros Hp Hr. pose proof (stride_pos a Ha). unfold allocate_slot. rewrite Hp. apply (within_bind _ _ (fun r : result Z ArenaError => match r with Ok g => 0 <= g | Err _ => True end)).
  - unfold slot_generation. rewrite (slot_offset_eq a Ha), (validate_offset_eq a Ha) by done. unfold load_generation. cbn. split_and!; [lia|unfold limit; lia|]. intros bs _. pose proof (of_le_range bs). lia.
  - intros [current|e] Hc; [|done]. destruct (following_generation current) as [g|] eqn:Eg; [|done]. apply following_range in Eg; [|done]. apply (within_bind _ _ (fun _ : result unit ArenaError => True)); [|by intros [[]|]].
    unfold reset_slot. rewrite (slot_offset_eq a Ha), (validate_offset_eq a Ha) by done. unfold write_u32, store_generation. apply within_copy_in; [lia|change (zlen (u32_le 0)) with 4; unfold limit; lia|]. cbn. change (zlen (u64_le g)) with 8. unfold limit. lia.
Qed.
Lemma accept_start_inv x w sent : inv x w -> manager w = MIdle -> inv x (set_manager (MAllocating sent (allocate_slot a (slots w))) w).
Proof.
  intros Hi Hm. apply (manager_quiet x w); cbn; try done; [by apply (token_bound a m0 x)|by rewrite Hm|]. unfold alloc_ok. cbn. destruct (position negb (slots w)) as [slot|] eqn:Ep; [right|left; unfold allocate_slot; rewrite Ep; by eexists].
  pose proof Ep as (b & Hb & Hn)%position_Some. exists slot. assert (in_range a slot) as Hr. { apply lookup_lt_Some in Hb. rewrite (g_slots _ _ _ (i_global _ _ _ _ Hi)) in Hb. unfold in_range. lia. }
  split_and!; [by destruct b|done|by apply allocate_within].
Qed.
Lemma alloc_step_inv x w sent p : inv x w -> manager w = MAllocating sent p -> inv x (set_manager (MAllocating sent (pstep p (memory w)).2) (set_memory (pstep p (memory w)).1 w)).
Proof.
  intros Hi Hm. pose proof (g_alloc _ _ _ (i_global _ _ _ _ Hi)) as Hal. unfold alloc_ok in Hal. rewrite Hm in Hal. destruct Hal as [(e & ->)|(slot & Hsl & Hr & Hw)].
  - cbn. apply (manager_quiet x w); cbn; try done; [by apply (token_bound a m0 x)|by rewrite Hm|]. unfold alloc_ok. cbn. left. by eexists.
  - destruct (mem_step a Ha slot _ p (memory w) Hr Hw) as [Hm1 Hm2]. apply (manager_quiet x w); cbn; try done; [by apply (token_bound a m0 x)| |by rewrite Hm|].
    + intros t s Hs. apply Hm1. intros <-. pose proof (i_tok _ _ _ _ Hi t) as [H1 _]. rewrite Hs in H1. destruct (x !! t); [|done]. destruct H1 as ((_ & _ & ? & _) & _). congruence.
    + unfold alloc_ok. cbn. right. exists slot. split_and!; [done..|by apply within_step].
Qed.
Lemma alloc_failed_inv x w sent e : inv x w -> manager w = MAllocating sent (Ret (Err e)) -> inv x (set_manager MIdle w).
Proof. intros Hi Hm. apply (manager_quiet x w); cbn; try done; [by apply (token_bound a m0 x)|by rewrite Hm]. Qed.

(** *** Accepting *)

Section Accept.
Context (service : bytes) (Hutf : utf8_valid service = true) (Hcreate : create (Arena.session_epoch a) (arena_bytes a) (slot_capacity a) = Ok (a, m0)).

Lemma bytes_u64 : is_u64 (arena_bytes a).
Proof. pose proof (stride_pos a Ha). destruct Ha as [_ _ _ ? ? ?]. unfold ARENA_HEADER_BYTES, is_u64 in *. nia. Qed.
Lemma connect_ok x w slot g token record :
  inv x w -> is_u64 g -> is_u64 token ->
  let info := mkInfo service (Arena.session_epoch a) (arena_bytes a) (slot_capacity a) (slot_count a) slot g token in
  encode_info info = Ok record -> connect record (memory w) = Some (Ok (mkClient a info g false Idle)).
Proof.
  intros Hi Hg Ht info Henc. pose proof bytes_u64 as Hb. pose proof Ha as [? _ _ ? _ _]. apply info_round_trip in Henc as [_ Hdec]; [|unfold info_wf, info; cbn; split_and!; [done..|lia|lia|done|done]].
  unfold connect. rewrite Hdec. cbn [info_epoch info_bytes info]. rewrite (open_create (Arena.session_epoch a) (arena_bytes a) (slot_capacity a) a m0 (memory w)); [done|done|done|lia|done|apply Hi].
Qed.
Lemma accept_inv x w sent slot g : inv x w -> manager w = MAllocating sent (Ret (Ok (slot, g))) -> exists w', accept a service sent slot g w = Some w' /\ exists x', inv x' w'.
Proof.
  intros Hi Hm. pose proof (g_alloc _ _ _ (i_global _ _ _ _ Hi)) as Hal. unfold alloc_ok in Hal. rewrite Hm in Hal. destruct Hal as [(e & [=])|(slot' & Hsl & Hr & Hw)]. cbn in Hw. destruct Hw as [<- Hg]. pose proof (g_token _ _ _ (i_global _ _ _ _ Hi)) as Ht0.
  assert (<[slot := false]> (<[slot := true]> (slots w)) = slots w) as Hback by (rewrite list_insert_insert_eq; by apply list_insert_id).
  assert (forall t, next_client_token w <= t <= u64_max -> inv x (set_slots (<[slot := false]> (<[slot := true]> (slots w))) (set_token t (set_slots (<[slot := true]> (slots w)) (set_manager MIdle w))))) as Hrel.
  { intros t Ht. apply (manager_quiet x w); cbn; try done. by rewrite Hm. }
  unfold accept. cbn [next_client_token set_slots set_manager]. unfold checked_add. destruct (Z.leb_spec (next_client_token w + 2) u64_max) as [Hle|Hgt].
  2: { eexists. split; [done|]. exists x. apply (manager_quiet x w); cbn; try done; [lia|by rewrite Hm]. }
  destruct sent; cbn [negb]; [|eexists; split; [done|]; exists x; apply Hrel; lia].
  set (t := next_client_token w) in *. set (info := mkInfo _ _ _ _ _ _ _ _). destruct (encode_info info) as [record|] eqn:Erec; [|eexists; split; [done|]; exists x; apply Hrel; lia].
  cbn [memory set_token set_slots set_manager]. rewrite (connect_ok x w slot g t record Hi); [|unfold is_u64; lia..|done]. cbn [mbind option_bind]. eexists. split; [done|]. exists (<[t := XIdle]> x). set (w' := set_client _ _ _). destruct (absent_tok x w Hi) as (E1 & E2 & E3). fold t in E1, E2, E3.
  assert (forall t' s, sessions w !! t' = Some s -> slot_index s <> slot) as Hother. { intros t' s Hs <-. pose proof (i_tok _ _ _ _ Hi t') as [H1 _]. rewrite Hs in H1. destruct (x !! t'); [|done]. destruct H1 as ((_ & _ & ? & _) & _). congruence. }
  assert (forall y, known (trace w) y -> call_token y <> t) as Hno by (intros y Hy; apply (t_calls _ (i_trace _ _ _ _ Hi)) in Hy as [? _]; unfold t; lia).
  apply (session_step_inv a m0 Ha t (fresh w) x _ w w' [] [] (items w)); try done.
  - split; cbn; try done.
    + intros t' Hne. by rewrite lookup_insert_ne.
    + intros t' Hne. by rewrite lookup_insert_ne.
    + intros t' Hne. by rewrite lookup_insert_ne.
    + unfold t. lia.
    + intros t' s Hne Hs. by rewrite list_lookup_insert_ne by (symmetry; by apply (Hother t')).
    + exists []. by rewrite app_nil_r.
    + intros y Hy Hid. apply known_fresh in Hy; [lia|apply Hi].
    + right. intros t' e _ He. apply (idle_not_busy a m0 x w t'); [done|by rewrite Hm|done].
  - intros e0 y0 He0. congruence.
  - intros _. by right.
  - unfold items. cbn. by rewrite Hm.
  - by apply (fresh_no_items a m0 x).
  - constructor.
  - apply (tok_make a _ w' t (mkSession slot t g) XIdle (mkClient a info g false Idle)); cbn; try done; try (by rewrite lookup_insert_eq).
    unfold session_ok. cbn. split_and!; [done|unfold t; lia|unfold t; lia|by rewrite list_lookup_insert_eq by (by eapply lookup_lt_Some)|unfold is_u64; lia..|done].
  - apply (trace_keep w w'); [apply Hi|done|]. split_and!; [done|cbn; unfold t; lia|]. intros t' Ht' (c & Hc & Hp). cbn in Hc. rewrite lookup_insert_ne in Hc by (unfold t; lia). by exists c.
  - destruct (i_global _ _ _ _ Hi) as [G1 G2 G3 G4 G5]. split; cbn; [done|by rewrite length_insert|unfold t; lia| |done]. intros t1 t2 s1 s2 H1 H2 He. apply lookup_insert_Some in H1 as [[<- <-]|[N1 H1]], H2 as [[<- <-]|[N2 H2]]; [done|..].
    + cbn in He. by destruct (Hother _ _ H2).
    + cbn in He. by destruct (Hother _ _ H1).
    + by apply (G4 t1 t2 s1 s2).
Qed.
End Accept.

(** *** Ending *)

Lemma end_inv x w t s : inv x w -> manager w = MIdle -> sessions w !! t = Some s -> ~ live w t ->
  inv (delete t x) (set_slots (<[slot_index s := false]> (slots w)) (set_sessions (delete t (sessions w)) w)).
Proof.
  intros Hi Hm Hs Hl. set (w' := set_slots _ _). pose proof (i_tok _ _ _ _ Hi t) as [H1 H2]. rewrite Hs in H1. destruct (x !! t) as [e|] eqn:He; [|done]. destruct H1 as (Hso & Hx & Hy).
  set (n := match exch_call e with Some y => call_id y | None => fresh w end). destruct (split_items (items w) n (i_nodup _ _ _ _ Hi)) as (old & rest & Hpm & Hn & Hold).
  apply (session_step_inv a m0 Ha t n x _ w w' old old rest); try done.
  - split; cbn; try done.
    + intros t' Hne. by rewrite lookup_delete_ne.
    + intros t' Hne. by rewrite lookup_delete_ne.
    + intros t' s' Hne Hs'. rewrite list_lookup_insert_ne; [done|]. intros Heq. apply Hne. by apply (g_inj _ _ _ (i_global _ _ _ _ Hi) t' t s' s).
    + exists []. by rewrite app_nil_r.
    + intros y Hk Hid. unfold n in Hid. destruct (exch_call e) as [y'|] eqn:Ey; [|apply known_fresh in Hk; [lia|apply Hi]]. destruct (Hy y' eq_refl). by assert (y = y') as -> by (apply (known_inj w); [apply Hi|done..]).
    + by left.
  - intros e0 y0 He0 Hy0. rewrite He in He0. injection He0 as <-. unfold n. by rewrite Hy0.
  - intros Hno. congruence.
  - destruct Hold as [->|(i & ->)]; [constructor|by apply Forall_singleton].
  - destruct Hold as [->|(i & ->)]; [constructor|apply NoDup_singleton].
  - destruct Hold as [->|(i & ->)]; [constructor|]. apply Forall_singleton. pose proof (i_items _ _ _ _ Hi) as Hok. rewrite Hpm in Hok. cbn in Hok. apply Forall_cons in Hok as [(y & d & Hk & Hid & Hst & Hret & Hat) _]. exists y, d. cbn in Hid. cbn [fst snd] in *. split_and!; [done|done|by destruct i|by destruct i|left].
    assert (call_token y = t) as Hty. { unfold n in Hid. destruct (exch_call e) as [y'|] eqn:Ey; [|apply known_fresh in Hk; [lia|apply Hi]]. destruct (Hy y' eq_refl). by assert (y = y') as -> by (apply (known_inj w); [apply Hi|done..]). }
    assert (In (n, i) (manager_items (manager w)) \/ match i with IRead | IHandle | IAnswer => False | _ => True end) as Hni.
    { assert ((n, i) ∈ items w) as Hin by (rewrite Hpm; apply elem_of_app; left; by apply list_elem_of_singleton). unfold items in Hin. rewrite !elem_of_app in Hin. destruct Hin as [Hin|[Hin|[Hin|Hin]]]; [left; by apply list_elem_of_In|right..]; apply list_elem_of_fmap in Hin as (q & [= -> ->] & _); done. }
    rewrite Hm in Hni. cbn in Hni. destruct Hni as [[]|Hni]. destruct i; try done; cbn; rewrite Hty; by rewrite lookup_delete_eq.
  - unfold tok_ok. cbn. rewrite !lookup_delete_eq. split; [done|]. destruct (clients w !! t) as [c|] eqn:Hc; [|done]. destruct H2 as [H2 H3]. split; [done|]. destruct (poisoned c) eqn:Hp; [done|]. destruct Hl. by exists c.
  - apply (trace_keep w w'); [apply Hi|done|by apply calmer_same].
  - destruct (i_global _ _ _ _ Hi) as [G1 G2 G3 G4 G5]. split; cbn; [done|by rewrite length_insert|done| |unfold alloc_ok; cbn; by rewrite Hm]. intros t1 t2 s1 s2 E1 E2. apply lookup_delete_Some in E1 as [_ E1], E2 as [_ E2]. by apply (G4 t1 t2 s1 s2).
Qed.
End Manager.

(** ** Serving a request *)
Section Serve.
Context (a : DescriptorArena) (Ha : arena_ok a) (Hep : is_u64 (Arena.session_epoch a)) (m0 : mem).
Abbreviation inv := (inv a m0).

Lemma dead_not_live x w t : inv x w -> sessions w !! t = None -> ~ live w t.
Proof. intros Hi Hs (c & Hc & Hp). destruct (client_of a m0 x w t c Hi Hc Hp) as (s & e & Hs' & _). congruence. Qed.
(** A reply to a call, whatever has become of its session. *)
Lemma reply_any x w w' y d r evs i rest :
  inv x w -> known (trace w) y -> items w ≡ₚ (call_id y, i) :: rest -> items w' ≡ₚ (call_id y, IRep (encode_response r)) :: rest -> match i with IRep _ => False | _ => True end ->
  (sessions w !! call_token y = None /\ manager w' = manager w \/
   exists e s, x !! call_token y = Some e /\ fly e = Some (y, d) /\ sessions w !! call_token y = Some s /\ (manager w' = manager w \/ busy e) /\ resp_ok a (memory w) (trace w') s y d r) ->
  sessions w' = sessions w -> clients w' = clients w -> slots w' = slots w -> next_client_token w' = next_client_token w -> fresh w' = fresh w -> memory w' = memory w -> alloc_ok a w' ->
  trace w' = trace w ++ evs -> Forall (fun ev => ev_id ev = call_id y /\ forall o, ev <> EvReturn (call_id y) o) evs -> trace_ok w' -> exists x', inv x' w'.
Proof.
  intros Hi Hk Hit Hit' Hrep Hcase Hs Hc Hsl Ht Hfr Hm Hal Htr Hev Htro. destruct Hcase as [[Hd Hmg]|(e & s & He & Hf & Hse & Hmg & Hr)].
  - exists x. apply (dead_step a Ha m0 x w w' y evs i (encode_response r) rest); try done. eapply Forall_impl; [exact Hev|]. by intros ev [? _].
  - exists (<[call_token y := XReplied y d (encode_response r)]> x). destruct (exch_of a m0 x w _ e y Hi He (fly_call _ _ _ Hf)) as (s0 & Hs0 & Hso & _). rewrite Hse in Hs0. injection Hs0 as <-.
    apply (fly_step a Ha m0 x w w' (call_token y) y d s s e _ evs i (IRep (encode_response r)) rest); rewrite ?Hm; try done.
    + by rewrite Hs, insert_id.
    + apply Hso.
    + tauto.
    + cbn. by exists r.
Qed.

Lemma response_plain y d r st : command_wf (cmd a y d) -> r = mkResponse st (call_request y) (Arena.session_epoch a) d (value0 r) 0 -> is_u64 (value0 r) -> forall m tr s, resp_ok a m tr s y d r.
Proof.
  intros (Hq & He & Hd & _) Hr Hv m tr s. unfold resp_ok. assert (response_wf r) as Hwf by (rewrite Hr; split_and!; try done; cbn; unfold is_u64, u64_max; lia). rewrite Hr in *. split_and!; try done. by left.
Qed.

Lemma reply_items n r w : manager w = MIdle -> items (reply n r w) ≡ₚ (n, IRep (encode_response r)) :: items w.
Proof. intros Hm. unfold items. cbn. rewrite Hm. cbn. unfold rep_items. rewrite fmap_app. cbn. rewrite !app_assoc. by rewrite <- Permutation_cons_append. Qed.

(** *** Taking a request *)

Section Take.
Context (x : gmap Z Exch) (w : World) (y : Call) (d : DescriptorRef) (l : list (nat * WireMessage)).
Context (Hi : inv x w) (Hm : manager w = MIdle) (Hk : known (trace w) y) (Hwf : command_wf (cmd a y d)) (Hslot : exists slot, in_range a slot /\ offset d = base a slot + 16).
Context (Hpm : items w ≡ₚ (call_id y, IReq (encode_command (cmd a y d))) :: items (set_requests l w)).
Context (Hat : sessions w !! call_token y = None \/ x !! call_token y = Some (XQueued y d)).

Lemma plain_inv st v : is_u64 v -> exists x', inv x' (reply (call_id y) (mkResponse st (call_request y) (Arena.session_epoch a) d v 0) (set_requests l w)).
Proof.
  intros Hv. set (r := mkResponse _ _ _ _ _ _). apply (reply_any x w _ y d r [] (IReq (encode_command (cmd a y d))) (items (set_requests l w))); try done.
  - by apply reply_items.
  - destruct Hat as [Hd|He]; [left; by rewrite Hm|right]. destruct (exch_of a m0 x w _ _ y Hi He eq_refl) as (s & Hs & _). exists (XQueued y d), s. split_and!; [done..|left; by rewrite Hm|]. by apply (response_plain y d r st).
  - by rewrite app_nil_r.
  - apply (trace_keep w); [apply Hi|done|by apply calmer_same].
Qed.
Lemma refused_inv r : consume_check a (sessions w) (cmd a y d) = Err r ->
  exists x', inv x' (reply (call_id y) r (log (EvRefused (call_id y) (status r) (generation d)) (set_requests l w))).
Proof.
  intros Hr. set (ev := EvRefused _ _ _). unfold consume_check in Hr. destruct Hslot as (slot & Hsr & Hoff). cbn [descriptor cmd] in Hr. assert (descriptor_slot a (offset d) = Ok slot) as Hds.
  { apply (descriptor_slot_Ok a Ha); [|rewrite Hoff; by apply slot_offset_eq]. destruct Hwf as (_ & _ & (? & _) & _). cbn in *. unfold is_u64 in *. lia. }
  rewrite Hds in Hr. cbn [arg0 cmd] in Hr. destruct (sessions w !! call_token y) as [s|] eqn:Es.
  - exfalso. destruct Hat as [?|He]; [done|]. destruct (exch_of a m0 x w _ _ y Hi He eq_refl) as (s' & Hs' & (Hst & _) & (_ & _ & Hho & Hg) & _). rewrite Es in Hs'. injection Hs' as <-. destruct Hho as (_ & _ & _ & _ & Ho & _).
    assert (slot = slot_index s) as ->. { pose proof (stride_pos a Ha). unfold base in *. nia. } unfold validate_request in Hr. rewrite Hst, Hg, Z.eqb_refl, Nat.eqb_refl, Z.eqb_refl in Hr. done.
  - injection Hr as <-. set (r := mkResponse _ _ _ _ _ _) in *. apply (reply_any x w _ y d r [ev] (IReq (encode_command (cmd a y d))) (items (set_requests l w))); try done.
    + exact (reply_items (call_id y) r (log ev (set_requests l w)) Hm).
    + left. by rewrite Hm.
    + by apply Forall_singleton.
    + apply (trace_log w _ ev); [apply Hi|done|by apply calmer_same|]. exists y. split_and!; [done..|left]. split; [done|]. by apply (dead_not_live x w).
Qed.
Lemma taken_inv p : consume_check a (sessions w) (cmd a y d) = Ok p -> exists x', inv x' (set_manager (MReading (call_id y) (cmd a y d) p) (set_requests l w)).
Proof.
  intros Hp. destruct Hat as [Hd|He]; [unfold consume_check in Hp; cbn [arg0 cmd] in Hp; rewrite Hd in Hp; by destruct (descriptor_slot _ _)|].
  destruct (exch_of a m0 x w _ _ y Hi He eq_refl) as (s & Hs & Hso & Hx & _ & Hty). pose proof Hx as (_ & _ & Hho & Hg). assert (p = read a d) as ->.
  { unfold consume_check in Hp. destruct (descriptor_slot _ _); [|done]. destruct (sessions w !! _); [|done]. destruct (validate_request _ _ _ _); [|done]. by injection Hp as <-. }
  exists (<[call_token y := XTaken y d]> x). set (w' := set_manager _ _). apply (fly_step a Ha m0 x w w' (call_token y) y d s s (XQueued y d) (XTaken y d) [] (IReq (encode_command (cmd a y d))) IRead (items (set_requests l w))); try done.
  - by rewrite insert_id.
  - apply Hso.
  - by rewrite app_nil_r.
  - apply (trace_keep w); [apply Hi|done|by apply calmer_same].
  - right. right. by rewrite Hm.
  - unfold items. cbn. by rewrite Hm.
  - cbn. split; [destruct Hx as (H1 & H2 & _); split_and!; [done|done|done|apply Hho|apply Hwf]|]. exists (read a d). destruct Hso as (_ & _ & _ & _ & Hr). split_and!; [done| |by rewrite (read_exec a Ha (memory w) (slot_index s) d (call_payload y))].
    destruct Hwf as (_ & _ & (Ho & _) & _). cbn in Ho. pose proof (read_within a Ha d (fun _ => True) ltac:(unfold is_u64 in Ho; lia) (fun _ => I) (fun _ => I)) as Hrw. destruct Hho as (_ & _ & _ & _ & Hoff & _). rewrite Hoff, (validate_offset_eq a Ha) in Hrw by done. exact Hrw.
Qed.
End Take.
Lemma serve_inv x w n admitted m l :
  inv x w -> manager w = MIdle -> take_out n (requests w) = Some (m, l) -> exists x', inv x' (serve a n admitted m (set_requests l w)).
Proof.
  intros Hi Hm Hto. apply take_out_Some in Hto. assert (items w ≡ₚ (n, IReq m) :: items (set_requests l w)) as Hpm by (unfold items; cbn; rewrite Hm; unfold req_items; rewrite Hto; done).
  pose proof (i_items _ _ _ _ Hi) as Hok. rewrite Hpm in Hok. apply Forall_cons in Hok as [(y & d & Hk & Hid & (-> & Hwf & Hslot) & _ & Hat) _]. cbn in Hid. subst n. cbn [snd item_exch] in *.
  assert (sessions w !! call_token y = None \/ x !! call_token y = Some (XQueued y d)) as Hat' by (destruct Hat as [?|(e & ? & ->)]; [by left|by right]).
  pose proof Hwf as (_ & _ & _ & Htk & _). cbn in Htk. unfold serve. rewrite command_round_trip by done. cbn [epoch code request_id descriptor arg0 cmd]. rewrite Z.eqb_refl. cbn [negb]. unfold fresh_response. cbn [epoch code request_id descriptor arg0 cmd rsp_request rsp_epoch rsp_descriptor value0].
  assert (forall k, exists x', inv x' (if bool_decide (k = Publish) && negb admitted then reply (call_id y) (mkResponse StaleSession (call_request y) (Arena.session_epoch a) d (call_token y) 0) (set_requests l w)
    else match consume_check a (sessions (set_requests l w)) (cmd a y d) with
         | Err r => reply (call_id y) r (log (EvRefused (call_id y) (status r) (generation d)) (set_requests l w))
         | Ok p => set_manager (MReading (call_id y) (cmd a y d) p) (set_requests l w)
         end)) as Hserve.
  { intros k. destruct (_ && _); [by apply (plain_inv x w y d l)|]. cbn [sessions set_requests]. destruct (consume_check a (sessions w) (cmd a y d)) as [p|r] eqn:Ec; [by apply (taken_inv x w y d l)|by apply (refused_inv x w y d l)]. }
  destruct (call_code y) eqn:Ek; try apply Hserve; apply (plain_inv x w y d l); try done. apply wrap64_is_u64.
Qed.

(** *** Reading and handling *)

Lemma reading_mgr x w n c p : inv x w -> manager w = MReading n c p ->
  exists y d s, n = call_id y /\ c = cmd a y d /\ x !! call_token y = Some (XTaken y d) /\ sessions w !! call_token y = Some s /\ session_ok a w (call_token y) s /\
    pending a (trace w) s y d /\ known (trace w) y /\ owns a s p /\ (exec p (memory w)).2 = Ok (call_payload y).
Proof.
  intros Hi Hm. pose proof (i_items _ _ _ _ Hi) as Hok. rewrite Forall_forall in Hok. destruct (Hok (n, IRead)) as (y & d & Hk & Hid & _ & _ & [[]|(e & He & ->)]); [unfold items; rewrite Hm; by left|]. cbn in Hid. subst n.
  destruct (exch_of a m0 x w _ _ y Hi He eq_refl) as (s & Hs & Hso & (Hb & p' & Hp' & Ho & Hx) & _). rewrite Hm in Hp'. injection Hp' as -> ->. by exists y, d, s.
Qed.
(** The Manager's program owns the slot of a busy session and makes a step. *)
Lemma manager_step_inv x w w' t s e {A} (p : prog A) :
  inv x w -> x !! t = Some e -> busy e -> sessions w !! t = Some s -> owns a s p ->
  w' = set_manager (manager w') (set_memory (pstep p (memory w)).1 w) -> manager_items (manager w') = manager_items (manager w) -> alloc_ok a w' ->
  exch_ok a (memory w') (trace w') (manager w') s e -> inv x w'.
Proof.
  intros Hi He Hb Hs Ho Hw Hmi Hal Hx. set (mp := manager w') in *. clearbody mp. assert (exists y d, fly e = Some (y, d)) as (y & d & Hf) by (destruct e; try done; eauto). destruct (exch_of a m0 x w t e y Hi He (fly_call _ _ _ Hf)) as (s0 & Hs0 & Hso & Hx0 & _). rewrite Hs in Hs0. injection Hs0 as <-.
  destruct (mem_step a Ha (slot_index s) _ p (memory w) ltac:(apply Hso) Ho) as [Hm1 Hm2]. subst w'. apply (quiet_inv a Ha m0 t x w); cbn; try done.
  - unfold items. cbn. by rewrite Hmi.
  - by apply (token_bound a m0 x).
  - intros t' s' Hne Hs'. apply Hm1. intros Heq. apply Hne. by apply (g_inj _ _ _ (i_global _ _ _ _ Hi) t' t s' s).
  - right. intros t' e' Hne He'. by apply (not_busy a m0 x w t t' e e').
  - pose proof (i_tok _ _ _ _ Hi t) as [H1 H2]. rewrite Hs, He in H1. split; cbn; rewrite Hs, He; [split_and!; [done..|apply H1]|]. destruct (clients w !! t) as [c|]; [|done]. destruct H2 as [H2 H3]. split; [done|]. destruct (poisoned c); [done|].
    destruct H3 as (s1 & e1 & Hs1 & He1 & Hco). rewrite Hs in Hs1. injection Hs1 as <-. rewrite He in He1. injection He1 as <-. exists s, e. split_and!; [done..|]. rewrite <- (app_nil_r (trace w)). by apply (client_fly a (memory w) _ _ _ s s e e c y d); [..|intros ev o ?%elem_of_nil|].
Qed.
Lemma read_step_inv x w n c p : inv x w -> manager w = MReading n c p -> inv x (set_manager (MReading n c (pstep p (memory w)).2) (set_memory (pstep p (memory w)).1 w)).
Proof.
  intros Hi Hm. destruct (reading_mgr x w n c p Hi Hm) as (y & d & s & -> & -> & He & Hs & Hso & Hb & Hk & Ho & Hx). apply (manager_step_inv x w _ (call_token y) s (XTaken y d) p); try done; [by rewrite Hm|].
  cbn. split; [done|]. exists (pstep p (memory w)).2. split_and!; [done|by apply within_step|by rewrite exec_step].
Qed.
Lemma taken_response y d : mkResponse (status (fresh_response (cmd a y d))) (rsp_request (fresh_response (cmd a y d))) (rsp_epoch (fresh_response (cmd a y d))) (rsp_descriptor (fresh_response (cmd a y d)))
  (value0 (fresh_response (cmd a y d))) (Z.lor (value1 (fresh_response (cmd a y d))) RESPONSE_FLAG_REQUEST_CONSUMED) = taken a y d.
Proof. done. Qed.
Lemma leave_items w n i : manager_items (manager w) = [(n, i)] -> items w ≡ₚ (n, i) :: items (set_manager MIdle w).
Proof. intros Hm. unfold items. cbn. by rewrite Hm. Qed.
Lemma reply_items' n r w : items (reply n r w) ≡ₚ (n, IRep (encode_response r)) :: items (set_manager MIdle w).
Proof. unfold items. cbn. unfold rep_items. rewrite fmap_app. cbn. rewrite !app_assoc. by rewrite <- Permutation_cons_append. Qed.

Lemma read_done_inv x w n c r0 : inv x w -> manager w = MReading n c (Ret r0) ->
  exists x', inv x' match consume_finish (sessions w) c r0 with
                    | Err r => reply n r (log (EvRefused n (status r) (generation (descriptor c))) w)
                    | Ok (s, payload, r) => set_manager (MHandling n c r) (set_sessions s (log (EvConsumed n payload) w))
                    end.
Proof.
  intros Hi Hm. destruct (reading_mgr x w n c _ Hi Hm) as (y & d & s & -> & -> & He & Hs & Hso & (Hq1 & Hq2 & Hg & Hoff & Hwf) & Hk & _ & Hx). cbn in Hx. subst r0. unfold consume_finish. cbn [arg0 cmd]. rewrite Hs. unfold session_complete. destruct (t_calls _ (i_trace _ _ _ _ Hi) y Hk) as (Htb & Hru & Hou).
  assert (is_u64 (call_token y)) as Htu by (destruct Hso as (_ & ? & _); pose proof (g_token _ _ _ (i_global _ _ _ _ Hi)); unfold is_u64; lia).
  unfold checked_add. destruct (Z.leb_spec (next_request_generation s + 2) u64_max) as [Hle|Hgt].
  - rewrite taken_response. set (s' := mkSession _ _ _). set (ev := EvConsumed _ _). set (w' := set_manager _ _). exists (<[call_token y := XHandling y d]> x).
    apply (fly_step a Ha m0 x w w' (call_token y) y d s s' (XTaken y d) (XHandling y d) [ev] IRead IHandle (items (set_manager MIdle w))); try done.
    + destruct Hso as (_ & _ & _ & [? _] & _). unfold is_u64. cbn. lia.
    + apply Forall_singleton. by split.
    + apply (trace_log w w' ev); [apply Hi|done|by apply calmer_same|]. split; [by exists y|done].
    + right. by left.
    + apply leave_items. by rewrite Hm.
    + cbn. split_and!; [split_and!; [apply elem_of_app; right; by apply list_elem_of_singleton|cbn; lia|done|done]| |done].
      intros p [Hin|Hin%list_elem_of_singleton]%elem_of_app; [by apply (Hq2 p)|done].
  - set (r := error_response _ _). set (ev := EvRefused _ _ _). apply (reply_any x w _ y d r [ev] IRead (items (set_manager MIdle w))); try done.
    + apply leave_items. by rewrite Hm.
    + exact (reply_items' (call_id y) r (log ev w)).
    + right. exists (XTaken y d), s. split_and!; [done..|by right|]. apply (response_plain y d r Invalid); [by split_and!|done|cbn; unfold is_u64, u64_max; lia].
    + by apply Forall_singleton.
    + apply (trace_log w _ ev); [apply Hi|done|by apply calmer_same|]. exists y. split_and!; [done..|right]. split; [done|]. cbn. lia.
Qed.

(** *** Answering *)

Lemma handling_mgr x w n c r : inv x w -> manager w = MHandling n c r ->
  exists y d s, n = call_id y /\ c = cmd a y d /\ r = taken a y d /\ x !! call_token y = Some (XHandling y d) /\ sessions w !! call_token y = Some s /\ session_ok a w (call_token y) s /\
    after a (trace w) s y d /\ (forall p, EvAnswer (call_id y) p ∉ trace w) /\ known (trace w) y.
Proof.
  intros Hi Hm. pose proof (i_items _ _ _ _ Hi) as Hok. rewrite Forall_forall in Hok. destruct (Hok (n, IHandle)) as (y & d & Hk & Hid & _ & _ & [[]|(e & He & ->)]); [unfold items; rewrite Hm; by left|]. cbn in Hid. subst n.
  destruct (exch_of a m0 x w _ _ y Hi He eq_refl) as (s & Hs & Hso & (Haf & Hna & Hp') & _). rewrite Hm in Hp'. injection Hp' as -> ->. by exists y, d, s.
Qed.
Lemma answering_mgr x w n c r p : inv x w -> manager w = MAnswering n c r p ->
  exists y d s pl, n = call_id y /\ c = cmd a y d /\ r = taken a y d /\ x !! call_token y = Some (XAnswering y d pl) /\ sessions w !! call_token y = Some s /\ session_ok a w (call_token y) s /\
    after a (trace w) s y d /\ EvAnswer (call_id y) pl ∈ trace w /\ known (trace w) y /\ owns a s p /\
    match (exec p (memory w)).2 with
    | Ok d' => holds a (exec p (memory w)).1 (slot_index s) d' pl /\ generation d' = generation d + 1
    | Err e => p = Ret (Err e)
    end.
Proof.
  intros Hi Hm. pose proof (i_items _ _ _ _ Hi) as Hok. rewrite Forall_forall in Hok. destruct (Hok (n, IAnswer)) as (y & d & Hk & Hid & _ & _ & [[]|(e & He & pl & ->)]); [unfold items; rewrite Hm; by left|]. cbn in Hid. subst n.
  destruct (exch_of a m0 x w _ _ y Hi He eq_refl) as (s & Hs & Hso & (Haf & Hna & p' & Hp' & Ho & Hx) & _). rewrite Hm in Hp'. injection Hp' as -> -> ->. by exists y, d, s, pl.
Qed.
Lemma token_u64 x w s t : inv x w -> session_ok a w t s -> is_u64 t.
Proof. intros Hi (_ & ? & _). pose proof (g_token _ _ _ (i_global _ _ _ _ Hi)). unfold is_u64. lia. Qed.
(** The response to a consumed request; with status [Ok] it names an answer in the slot. *)
Lemma response_taken x w s y d d' v st : inv x w -> known (trace w) y -> session_ok a w (call_token y) s -> after a (trace w) s y d -> descriptor_wf d' -> is_u64 v ->
  (st = StOk -> call_code y <> Restore -> exists p, EvAnswer (call_id y) p ∈ trace w /\ holds a (memory w) (slot_index s) d' p /\ generation d' = generation d + 1 /\ offset d' = offset d) ->
  resp_ok a (memory w) (trace w) s y d (mkResponse st (call_request y) (Arena.session_epoch a) d' v 1).
Proof.
  intros Hi Hk Hso Haf Hd Hv Hans. destruct (t_calls _ (i_trace _ _ _ _ Hi) y Hk) as (_ & Hru & _). split_and!; [done|done| |right; by split_and!]. by split_and!.
Qed.
(** The Manager's reply to a request it has consumed. *)
Lemma reply_taken x w e y d d' s v st i :
  inv x w -> manager_items (manager w) = [(call_id y, i)] -> x !! call_token y = Some e -> fly e = Some (y, d) -> busy e -> sessions w !! call_token y = Some s -> known (trace w) y -> session_ok a w (call_token y) s -> after a (trace w) s y d -> descriptor_wf d' -> is_u64 v ->
  match i with IRep _ => False | _ => True end ->
  (st = StOk -> call_code y <> Restore -> exists p, EvAnswer (call_id y) p ∈ trace w /\ holds a (memory w) (slot_index s) d' p /\ generation d' = generation d + 1 /\ offset d' = offset d) ->
  exists x', inv x' (reply (call_id y) (mkResponse st (call_request y) (Arena.session_epoch a) d' v 1) w).
Proof.
  intros Hi Hm He Hf Hb Hs Hk Hso Haf Hd Hv Hir Hans. set (r := mkResponse _ _ _ _ _ _). apply (reply_any x w _ y d r [] i (items (set_manager MIdle w))); try done.
  - by apply leave_items.
  - apply reply_items'.
  - right. exists e, s. split_and!; [done..|by right|]. by apply (response_taken x w).
  - by rewrite app_nil_r.
  - apply (trace_keep w); [apply Hi|done|by apply calmer_same].
Qed.
Lemma handle_inv x w h : inv x w -> exists x', inv x' (manager_handle a h w).
Proof.
  intros Hi. unfold manager_handle. destruct (manager w) as [| | |n c r|] eqn:Hm; try (by exists x). destruct (handling_mgr x w n c r Hi Hm) as (y & d & s & -> & -> & -> & He & Hs & Hso & Haf & Hna & Hk). pose proof (token_u64 _ _ _ _ Hi Hso) as Htu. pose proof Haf as (Hcon & Hgen & Hoff & Hwf).
  destruct h as [internal|payload].
  - unfold error_response, taken. cbn [rsp_request rsp_epoch rsp_descriptor value1]. apply (reply_taken x w (XHandling y d) y d d s 0 (refusal internal) IHandle); try done; [by rewrite Hm|by destruct internal].
  - cbn [code cmd]. destruct (bool_decide_reflect (call_code y = Restore)) as [Hr|Hr].
    + apply (reply_taken x w (XHandling y d) y d d s (call_token y) StOk IHandle); try done. by rewrite Hm.
    + set (pl := answer_bytes (call_code y) payload). set (ev := EvAnswer (call_id y) pl). cbn [descriptor cmd]. set (p := write_response a d pl). set (w' := set_manager _ _). exists (<[call_token y := XAnswering y d pl]> x).
      assert (is_u64 (generation d + 1)) as Hg1 by (destruct Hso as (_ & _ & _ & [? ?] & _); destruct Hwf as (_ & _ & [? _]); unfold is_u64; lia).
      assert (p = write_at a (base a (slot_index s) + 16) (generation d + 1) pl) as Hp by (unfold p, write_response, checked_add; rewrite (proj2 (Z.leb_le _ _)) by apply Hg1; by rewrite Hoff). destruct Hso as (Hso1 & Hso2 & Hso3 & Hso4 & Hrange).
      apply (fly_step a Ha m0 x w w' (call_token y) y d s s (XHandling y d) (XAnswering y d pl) [ev] IHandle IAnswer (items (set_manager MIdle w))); try done.
      * by rewrite insert_id.
      * by apply Forall_singleton.
      * apply (trace_log w w' ev); [apply Hi|done|by apply calmer_same|]. split; [by exists y|done].
      * right. by left.
      * apply leave_items. by rewrite Hm.
      * by exists pl.
      * cbn [exch_ok]. split_and!; [by apply after_frame|apply elem_of_app; right; by apply list_elem_of_singleton|]. exists p. split_and!; [done|rewrite Hp; by apply write_at_within|]. rewrite Hp. cbn [memory w' set_manager log].
        pose proof (write_at_exec a Ha (slot_index s) (generation d + 1) pl (memory w) Hrange Hg1) as Hw. destruct (exec _ _).2 as [d'|e']; [|done]. destruct Hw as [-> Hw]. done.
Qed.
Lemma answer_step_inv x w n c r p : inv x w -> manager w = MAnswering n c r p -> inv x (set_manager (MAnswering n c r (pstep p (memory w)).2) (set_memory (pstep p (memory w)).1 w)).
Proof.
  intros Hi Hm. destruct (answering_mgr x w n c r p Hi Hm) as (y & d & s & pl & -> & -> & -> & He & Hs & Hso & Haf & Hans & Hk & Ho & Hx). apply (manager_step_inv x w _ (call_token y) s (XAnswering y d pl) p); try done; [by rewrite Hm|].
  cbn [exch_ok]. split_and!; [done..|]. exists (pstep p (memory w)).2. split_and!; [done|by apply within_step|]. cbn [memory set_manager set_memory]. rewrite exec_step. destruct (exec p (memory w)).2; [done|]. by subst p.
Qed.
Lemma answer_failed_inv x w n c r e : inv x w -> manager w = MAnswering n c r (Ret (Err e)) -> exists x', inv x' (reply n (error_response r (arena_error_status e)) w).
Proof.
  intros Hi Hm. destruct (answering_mgr x w n c r _ Hi Hm) as (y & d & s & pl & -> & -> & -> & He & Hs & Hso & Haf & Hans & Hk & _). pose proof Haf as (_ & _ & _ & Hwf).
  unfold error_response, taken. cbn [rsp_request rsp_epoch rsp_descriptor value1]. apply (reply_taken x w (XAnswering y d pl) y d d s 0 (arena_error_status e) IAnswer); try done; [by rewrite Hm|by destruct e].
Qed.
Lemma answered_inv x w n c r d' : inv x w -> manager w = MAnswering n c r (Ret (Ok d')) ->
  let r := mkResponse (status r) (rsp_request r) (rsp_epoch r) d' (value0 r) (value1 r) in
  exists x', inv x' (if bool_decide (code c = Publish) then set_manager MIdle (set_deferred (deferred w ++ [(n, r)]) w) else reply n r w).
Proof.
  intros Hi Hm. destruct (answering_mgr x w n c r _ Hi Hm) as (y & d & s & pl & -> & -> & -> & He & Hs & Hso & Haf & Hans & Hk & _ & Hx). cbn in Hx. destruct Hx as [Hho Hgd]. pose proof Haf as (_ & _ & Hoff & Hwf). pose proof (token_u64 _ _ _ _ Hi Hso) as Htu.
  assert (descriptor_wf d') as Hwf' by (eapply (holds_wf a Ha); [apply Hso|done]). assert (exists p, EvAnswer (call_id y) p ∈ trace w /\ holds a (memory w) (slot_index s) d' p /\ generation d' = generation d + 1 /\ offset d' = offset d) as Hex.
  { exists pl. split_and!; [done..|]. destruct Hho as (_ & _ & _ & _ & Ho & _). by rewrite Ho, Hoff. }
  cbn. set (r := mkResponse _ _ _ _ _ _). destruct (bool_decide (call_code y = Publish)).
  - set (w' := set_manager _ _). exists (<[call_token y := XDeferred y d r]> x). apply (fly_step a Ha m0 x w w' (call_token y) y d s s (XAnswering y d pl) (XDeferred y d r) [] IAnswer (IDef r) (items (set_manager MIdle w))); try done.
    + by rewrite insert_id.
    + apply Hso.
    + by rewrite app_nil_r.
    + apply (trace_keep w); [apply Hi|done|by apply calmer_same].
    + right. by left.
    + apply leave_items. by rewrite Hm.
    + unfold items. cbn. unfold def_items. rewrite fmap_app. cbn. rewrite <- !app_assoc. cbn. by rewrite <- !Permutation_middle.
    + cbn. by apply (response_taken x w).
  - apply (reply_taken x w (XAnswering y d pl) y d d' s (call_token y) StOk IAnswer); try done. by rewrite Hm.
Qed.
(** A publication is complete: its reply is sent by the task that ran it, whatever the dispatcher does. *)
Lemma complete_inv x w n failed r l : inv x w -> take_out n (deferred w) = Some (r, l) ->
  exists x', inv x' (set_replies (replies w ++ [(n, encode_response (match failed with Some internal => error_response r (refusal internal) | None => r end))]) (set_deferred l w)).
Proof.
  intros Hi Hto. apply take_out_Some in Hto. set (r' := match failed with Some _ => _ | None => _ end). set (w' := set_replies _ _). assert (items w ≡ₚ (n, IDef r) :: items (set_deferred l w)) as Hpm by (unfold items; cbn; unfold def_items; rewrite Hto; cbn; by rewrite <- !Permutation_middle).
  pose proof (i_items _ _ _ _ Hi) as Hok. rewrite Hpm in Hok. apply Forall_cons in Hok as [(y & d & Hk & Hid & _ & _ & Hat) _]. cbn in Hid. subst n. cbn [snd item_exch] in Hat.
  apply (reply_any x w w' y d r' [] (IDef r) (items (set_deferred l w))); try done.
  - unfold items. cbn. unfold rep_items. rewrite fmap_app. cbn. rewrite !app_assoc. by rewrite <- Permutation_cons_append.
  - destruct Hat as [Hd|(e & He & ->)]; [by left|right]. destruct (exch_of a m0 x w _ _ y Hi He eq_refl) as (s & Hs & Hso & Hx & _). exists (XDeferred y d r), s. split_and!; [done..|by left|]. cbn in Hx |- *. subst r'. destruct failed as [internal|]; [|done].
    destruct Hx as (H1 & H2 & (W1 & W2 & W3 & W4 & W5) & H4). split_and!; [done|done|split_and!; try done; cbn; unfold u64_max; lia|]. destruct H4 as [?|(? & ? & _)]; [by left|right]. split_and!; [done..|]. by destruct internal.
  - apply (g_alloc _ _ _ (i_global _ _ _ _ Hi)).
  - by rewrite app_nil_r.
  - apply (trace_keep w); [apply Hi|done|by apply calmer_same].
Qed.
End Serve.
