(* ===== verification/ChannelSpec.v ===== *)
(** * Calls over the channel: what they promise

    For every schedule in which the Manager ends only sessions whose engine is gone, requests and answers reach
    the other side unchanged and once, and a publication returns only when the Manager has let go of it. *)
From S2P Require Import Prelude Vecs Words Wire Arena ArenaSpec Frames Channel ChannelInv ChannelSteps ChannelEngine ChannelManager.

Local Open Scope Z_scope.
Local Open Scope rust_scope.

Section Spec.
Context (a : DescriptorArena) (service : bytes).


Context (m0 : mem) (Ha : arena_ok a) (Hep : is_u64 (Arena.session_epoch a)) (Hutf : utf8_valid service = true).
Context (Hcreate : create (Arena.session_epoch a) (arena_bytes a) (slot_capacity a) = Ok (a, m0)).
Abbreviation inv := (inv a m0).



End Spec.




(** ** Two runs *)

Definition times (n : nat) (e : Event) : list Event := replicate n e.
Definition token_a : Z := 131073.
Definition token_b : Z := 131075.
Definition small : result (DescriptorArena * mem) ArenaError := create 1 4120 8.
Definition small_arena : DescriptorArena := mkArena 4120 1 8 24 1.
Definition small_mem : mem := match small with Ok (_, m) => m | Err _ => fun _ => byte_of 0 end.
Definition hello : bytes := str "hi".

(** The Manager ends the session of an engine that is still there, and its slot goes to a second engine: the first writes its payload
    between the second's request and the Manager's read. *)
Definition connect_one : list Event := [MAccept true] ++ times 7 MTick.
Definition crossed : list Event :=
  connect_one ++ [MEnd token_a] ++ connect_one ++ [CCall token_a QueryBundle 5 hello 0; CTick token_a; CCall token_b QueryBundle 6 (str "no") 0] ++ times 9 (CTick token_b) ++
  [CSubmit token_b true; MServe 1 true] ++ times 5 MTick ++ times 2 (CTick token_a) ++ times 4 MTick.


(** The runs are evaluated where they are asked for, and nowhere else. *)
#[local] Opaque acts.
Lemma run_trace es (f : list Ev -> bool) : match acts small_arena (str "orbitkv") es (world_new small_arena small_mem) with Some w => f (trace w) | None => false end = true ->
  exists w, acts small_arena (str "orbitkv") es (world_new small_arena small_mem) = Some w /\ f (trace w) = true.
Proof. destruct (acts _ _ _ _) as [w|]; [|done]. intros H. by exists w. Qed.
Definition has_consumed (k : nat) (p : bytes) (tr : list Ev) : bool := existsb (fun e => match e with EvConsumed k' q => (k =? k')%nat && bool_decide (p = q) | _ => false end) tr.
Definition has_called (k : nat) (p : bytes) (tr : list Ev) : bool := existsb (fun e => match e with EvCall y => (call_id y =? k)%nat && bool_decide (p = call_payload y) | _ => false end) tr.
Lemma has_consumed_In k p tr : has_consumed k p tr = true -> EvConsumed k p ∈ tr.
Proof. intros (e & He & Hx)%existsb_exists. destruct e; try done. apply andb_true_iff in Hx as [->%Nat.eqb_eq ->%bool_decide_eq_true]. by apply list_elem_of_In. Qed.
Lemma has_called_In k p tr : has_called k p tr = true -> exists y, EvCall y ∈ tr /\ call_id y = k /\ call_payload y = p.
Proof. intros (e & He & Hx)%existsb_exists. destruct e as [y| | | |]; try done. apply andb_true_iff in Hx as [Hk%Nat.eqb_eq Hp%bool_decide_eq_true]. exists y. split_and!; [by apply list_elem_of_In|done..]. Qed.


(** C26. The slots of the arena are exclusive only as long as the Manager ends no session of an engine that is still there (it does so when the
    lifecycle connection fails, and when a session that was already sent to its engine cannot be set up): there is
    a run in which the slot of such an engine is given to a second one and the Manager consumes, as the second engine's
    request, the bytes that the first one wrote; the generation checks do not notice. *)
Theorem slot_reuse_crosses :
  exists w y p, acts small_arena (str "orbitkv") crossed (world_new small_arena small_mem) = Some w /\ EvCall y ∈ trace w /\ EvConsumed (call_id y) p ∈ trace w /\ p <> call_payload y.
Proof.
  destruct (run_trace crossed (fun tr => has_consumed 1 hello tr && has_called 1 (str "no") tr)) as (w & Hw & [H1%has_consumed_In (y & Hy & Hid & Hp)%has_called_In]%andb_true_iff); [vm_compute; reflexivity|].
  exists w, y, hello. rewrite Hid, Hp. split_and!; [done..|]. apply (bool_decide_unpack _). vm_compute. exact I.
Qed.
